(* ===== verification/_CoqProject ===== *)
-Q . S2P
Prelude.v
Span.v
Diag.v
Lex.v
Ast.v
Visit.v
Usefulness.v
Types.v
BTreeMap.v
Dims.v
DimNames.v
Generics.v
Names.v
Unify.v
NamedDims.v
NamedThms.v
Layout.v
TypeLayout.v
LayoutTotal.v
Channel.v
Scheduler.v
Blocking.v
Bytes.v
Text.v
Floats.v
FloatRound.v
Sort.v
Mir.v
Glue.v
AdTypes.v
Activity.v
Memory.v
Values.v
ParseBase.v
Parse.v
ParseLogic.v
ParseTotal.v
ParseThms.v
ParseFuel.v
Fmt.v
Pieces.v
Core.v
Printed.v
Spelling.v
Reread.v
RereadExpr.v
RereadBlock.v
RereadItem.v
RoundTrip.v
FmtGaps.v
Quote.v
Machine.v
Evaluate.v
EvaluateThms.v
EvaluateArgs.v
Resolve.v
Scoping.v
ResolveThms.v
ResolveGaps.v
Hir.v
BorrowTypes.v
BorrowState.v
BorrowEscape.v
Borrow.v
BorrowFrame.v
BorrowPaths.v
BorrowSound.v
BorrowExamples.v
BuildCache.v
Packages.v
