(* ===== verification/Prelude.v ===== *)
(** * A verification of the Paco compiler and runtime

    Paco is a compiled language with generics over tensor dimensions, pattern
    matching, compile-time evaluation and green-thread tasks.  The compiler
    ([src/compiler/paco-*]) turns source text into tokens ([paco-syntax]),
    resolves names ([paco-resolve]), checks types ([paco-types], with
    [paco-match] for [match] and [paco-borrow] for borrows), lowers to MIR
    ([paco-mir]), which the code generators and the compile-time machine
    consume, and reports through [paco-span] and [paco-diag].  Compiled programs
    run on [src/runtime].

    This library models the parts listed below as executable definitions, one
    file per part, translated function by function, and proves what makes
    them correct.  It has no axioms.

    ** Files

    - [Prelude] (this file): results and errors, machine integers
      ([check_i64], [wrap], [as_u64], ...), Rust strings as lists of code
      points with their UTF-8 lengths, stable sorting, total orders, decimal
      numbers, the [paco] hint database and the tactics [str_lia] and [divs].
    - [Span]: [paco-span/src/lib.rs].  Files, spans, byte offsets to lines and
      columns.  A span on char boundaries resolves to the position the text
      gives it, and positions order offsets.
    - [Diag]: [paco-diag/src/lib.rs].  The reporter, its stable order, the
      text and JSON output.  JSON strings read back, one line per diagnostic.
    - [Lex]: [paco-syntax/src/lex.rs].  The whole lexer as a state machine over
      the remaining text.  [lex_implements_grammar] is its refinement of a
      declarative lexical grammar (maximal munch, [Lexed]); the other theorems
      give the spans and the reporting of errors.  The loops take the number of
      remaining chars as fuel, and the proofs show that it is never exhausted.
    - [Ast], [Visit]: [paco-syntax/src/ast.rs].  The syntax tree; the [Visit]
      and [MutVisit] traits as records of methods with their default walks, and
      the search for type splices.  The rewriting walk and the reading walk
      hand the same children to the visitor, in the same order.
    - [Usefulness]: [paco-match/src/lib.rs].  Coverage of patterns.  Against a
      semantics of matching, arms reported unreachable are never selected, a
      match without a missing witness is exhaustive, and a missing constructor
      is unmatched.  The text of literals is the class [LiteralText].
    - [Types], [BTreeMap], [Dims], [Generics]: [paco-types/src/lib.rs] (types,
      integer widths, generic substitution, erasure of symbolic dimensions),
      [paco-types/src/dims.rs] and [paco-mir/src/dims.rs].  A dimension is an id
      into an arena of hash-consed polynomials over parameters and opaque
      operations.  The arena's invariant is kept by every operation (rule
      induction over [reachable]); polynomials denote unbounded integers, and
      arithmetic, substitution, verdicts and unification are sound for that
      denotation, unification also most general.  Fuel: an id's operands have
      smaller ids, so [S id] steps are enough; substitution expands each bound
      name at most twice, so [2 * size s + 2] levels are enough.
    - [Unify]: unification of types in [paco-types/src/lib.rs], by which a
      generic call finds its type arguments.  Against types without parameters
      it is matching: it ends, and finds the instance when there is one; against
      the parameters of a caller it can accept what it should not, or not end.
      Fuel: the height of the actual type and two.
    - [NamedDims], [NamedThms]: [paco-types/src/named.rs], the names of run-time
      extents.  No name outlives its scope, and leaving a scope restores the
      names it shadowed; the type of an opened value decays to what it was; an
      accepted broadcast is one for all extents.  [DimNames]: the names that a
      dimension mentions, and those that a substitution leaves.
    - [Layout], [TypeLayout], [LayoutTotal]: [paco-mir/src/layout.rs] and
      [type_layout.rs].  Struct and enum layouts under overflow-checked
      arithmetic, their caches, recursion check and instantiation cap.  Fields
      are aligned, disjoint and inside.  Fuel bounds the nesting of types: for
      declarations whose instances can be ranked, fuel beyond the rank always
      gives an answer, the same for any more fuel; for one family of types that
      cannot be ranked there is no answer at any fuel.
    - [Channel]: [runtime/paco-runtime/src/channel.rs] and the notifications of
      [sync.rs].  Interleaved actors as a step relation over atomic actions:
      bounded FIFO delivery, each value once, no lost wakeup, errors only after
      close, and close releases everyone within a bounded number of actions.
    - [Scheduler]: [scheduler.rs], [task.rs], [join.rs] and the waiters of [io.rs]
      and [channel.rs] of the same directory.  Workers and tasks interleave
      atomic actions; a task that has not finished is at exactly one place (a
      queue entry, a worker, or a waker that has not fired), from which it
      follows that no task is lost or resumed after its end and that the runtime
      is idle only when all have finished.
    - [Blocking]: [blocking.rs], the pool for blocking calls: jobs start once, in
      order, and the threads never all sleep or leave beside a queued job.
    - [Bytes], [Text]: little-endian bytes; [runtime/paco-runtime/src/text.rs],
      byte-level string operations against the chars of the text.
    - [Floats]: [paco-types/src/floats.rs] and
      [runtime/paco-runtime/src/float.rs].  The small float formats over the
      Standard Library's [spec_float]: rounding to nearest, and the agreement of
      the compiler's and the runtime's encodings.  [FloatRound]: the round trip of
      every width, [f32] and [f64] included.
    - [Sort]: [runtime/paco-runtime/src/sort.rs].  Sorting of primitive slices
      given as bytes: the result is sorted in the order of the element type (the
      IEEE total order for floats), a stable permutation of the elements.
    - [Names]: the text of dimensions and types ([dims.rs], [Type::name]) and the
      symbols of instances ([mangled_name] of [paco-mir/src/lower.rs]).
    - [ParseBase], [Parse]: [paco-syntax/src/parse.rs], every method of the
      parser with its reports and its recovery.  [ParseLogic] is a program logic
      for it, [ParseTotal], [ParseThms] and [ParseFuel] its theorems: the parser
      always ends, never panics, reports whenever it fails, and gives nodes
      spans inside the text.  Fuel: the depth of the recursion is
      [2 * tokens + 2] ([depth_for]), a loop takes a step per token and one.
    - [Fmt]: [paco-syntax/src/fmt.rs].  [Pieces], [Core], [Printed],
      [Spelling], [Reread], [RereadExpr], [RereadBlock], [RereadItem] and
      [RoundTrip] show that what it writes for a module of the covered syntax is
      read back as the same module, and that formatting is idempotent;
      [FmtGaps] shows where it is not.
    - [Resolve]: [paco-resolve/src/lib.rs].  [Scoping] is lexical scoping written
      with an environment, [ResolveThms] the refinement: the table of locals is
      that of the environment, and a name is reported when it is unbound, in the
      functions and methods it visits; [ResolveGaps] has the code it does not
      visit.
    - [BorrowTypes], [BorrowState], [BorrowEscape], [Borrow]:
      [paco-borrow/src/lib.rs], the borrow checker.  Its tables of signatures and
      the types it derives; the state of a function's locals, their moves and
      borrows; the syntactic escape analysis; the traversal, with every report
      and the drop plan.  [BorrowFrame]: what the traversal leaves alone.
      [BorrowPaths] says what ownership means along a path of a function;
      [BorrowSound]: no path of an accepted function of the covered language
      uses a moved value, and without loops what a path owns is among the
      recorded drops; [BorrowExamples]: accepted programs that go wrong.  Fuel: the walk
      of a type's members visits each declared type once; the rounds of a path's
      loops are bounded by its choices.
    - [BuildCache]: [paco-driver/src/cache.rs].  [index/] and [bin/] are finite
      maps; a published build is found again as long as its inputs are
      unchanged, and pruning evicts the least recently used entries only.
      Hashing and the clock are parameters; file operations that fail are an
      argument of [publish].
    - [Packages]: [paco-driver/src/manifest.rs], [pkg_cache.rs] and, of
      [lib.rs], [paco get] and the resolution of [use] paths: what was fetched
      resolves, to the longest declared prefix.  TOML and [git] are parameters.
    - [Hir]: [paco-hir/src/lib.rs], the table of definitions and the references
      each records; every id in it is valid.
    - [Mir], [Glue]: [paco-mir/src/body.rs] and [glue.rs].  The control-flow
      graphs; which types own storage ([needs_drop] against the least
      fixed point [owns]) and which types of a program need drop and clone glue.
      The layouts are used through the class [Layouts], which [TypeLayout]
      implements.  Fuel: the rank of a type by value, and for the worklist what
      is pending and the weights of the types to come.
    - [AdTypes], [Activity]: [paco-mir/src/autodiff/types.rs] and [activity.rs].
      Where the derivative of a value lives: leaves are disjoint places of the right
      types, and every active value has one.  The activity of locals is exactly the
      paths of a flow graph; the summaries of functions are the least fixed point.
      Fuel: a step per seed, edge, call or possible flow.
    - [Memory], [Values], [Machine], [Evaluate], [EvaluateThms], [EvaluateArgs]:
      [paco-comptime/src/machine.rs] and [lib.rs], the machine of compile-time
      evaluation.  Memory that is freed stays freed; integer operations and casts
      are those of the widths, with their overflows; evaluation ends within its
      budget, keeps its stack and its handles, cannot leave the sandbox, and a
      function that returns its parameter gives every argument back as it was.
      The call stack is as deep as the limit
      on nested calls and the block loop has a step per instruction of the
      budget, so neither runs out; the drop and clone glue and the reading of the
      result follow the data, to the depth the host's stack allows ([host]).
    - [Quote]: [paco-comptime/src/quote.rs] and [splice_sites] of
      [paco-mir/src/comptime.rs].  The substitution of a quotation needs the
      sites that were evaluated, and leaves no splice but those at positions
      that neither traversal looks at.

    ** How code is translated

    A [Result] is [result], an [Option] or a panic on one path [option].  A
    struct is a record, an enum an inductive type with the same constructors
    (prefixed where names clash), [&mut self] state passing.  [HashMap]s are
    [gmap]s, or association lists where the key type has only a boolean
    equality; [BTreeMap]s are sorted lists.  Machine integers are [Z] (or [nat]
    for indices) with their checks, wraps and casts written out.

    ** What is not modelled

    The rest of the type checker (the inference of expressions, traits,
    declarations, the hints and intrinsics of named dimensions), MIR lowering,
    the code that automatic differentiation generates, the code generators (their semantics lies in
    Cranelift and LLVM), the rest of the driver, linker and test harness (I/O), coroutine stacks,
    the system's poller and the C interface of the runtime.  Next in order: the
    discovery of the files of a program, and the construction of pullbacks. *)
From Stdlib Require Export ZArith Lia Ascii String Sorting.Sorted Sorting.Permutation.
From Stdlib Require Export DecimalString DecimalZ.
From stdpp Require Export base list option numbers strings gmap.

#[global] Set Default Goal Selector "!".
#[global] Unset Program Cases.

(** Induction hypotheses under [list], [option] and pairs. *)
Scheme All for list.
Scheme All for option.
Scheme All for prod.

#[universes(polymorphic)] Lemma list_all_Forall {A} (P : A -> Prop) l : list_all A P l -> Forall P l.
Proof. induction 1; constructor; auto. Qed.

#[universes(polymorphic)] Lemma list_all_snd {A B} (P : B -> Prop) (l : list (A * B)) :
  list_all (A * B) (prod_all A (fun _ => unit) B P) l -> Forall (fun p => P p.2) l.
Proof. induction 1 as [|[a b] H l Hl IH]; constructor; [by inversion H|done]. Qed.

#[universes(polymorphic)] Lemma option_all_Some {A} (P : A -> Prop) o : option_all A P o -> forall a, o = Some a -> P a.
Proof. intros [a0 Ha|] b; [intros [= <-]|]; done. Qed.

(** The parts of a node, from the induction hypotheses of a nested scheme. *)
Ltac parts :=
  repeat match goal with
  | H : list_all _ (prod_all _ _ _ _) _ |- _ => apply list_all_snd in H
  | H : list_all _ _ _ |- _ => apply list_all_Forall in H
  | H : option_all _ _ _ |- _ => pose proof (option_all_Some _ _ H); clear H
  end.

(** ** Results of fallible code

    [Result<A, E>] of the source.  An [Option] is [option]; a panic is an
    [Err] of the component's own error type, or [None]. *)

Inductive result (A E : Type) : Type :=
| Ok (a : A)
| Err (e : E).
Arguments Ok {A E} a.
Arguments Err {A E} e.

Declare Scope paco_scope.
Delimit Scope paco_scope with paco.

Definition result_bind {A B E} (r : result A E) (k : A -> result B E) : result B E :=
  match r with
  | Ok a => k a
  | Err e => Err e
  end.

Notation "'let?' x := r 'in' k" := (result_bind r (fun x => k))
  (at level 10, x pattern, r at level 100, k at level 200) : paco_scope.

Definition map_err {A E F} (f : E -> F) (r : result A E) : result A F :=
  match r with
  | Ok a => Ok a
  | Err e => Err (f e)
  end.

Definition ok_or {A E} (o : option A) (e : E) : result A E :=
  match o with
  | Some a => Ok a
  | None => Err e
  end.

Definition is_ok {A E} (r : result A E) : bool :=
  match r with Ok _ => true | Err _ => false end.

(** ** Machine integers

    Integers are [Z]; the operations below write out what the width does. *)

Definition i64_min : Z := (- 2 ^ 63)%Z.
Definition i64_max : Z := (2 ^ 63 - 1)%Z.
Definition u64_max : Z := (2 ^ 64 - 1)%Z.

Definition in_i64 (z : Z) : bool := ((i64_min <=? z) && (z <=? i64_max))%Z.
Definition in_u64 (z : Z) : bool := ((0 <=? z) && (z <=? u64_max))%Z.

(** [checked_*] keep a result that fits the width. *)
Definition check_i64 (z : Z) : option Z := if in_i64 z then Some z else None.
Definition check_u64 (z : Z) : option Z := if in_u64 z then Some z else None.

(** [as u32], [as u64] and [as u8] keep the low bits. *)
Definition wrap (w : Z) (z : Z) : Z := (z mod 2 ^ w)%Z.

Lemma check_i64_some z v : check_i64 z = Some v <-> v = z /\ (i64_min <= z <= i64_max)%Z.
Proof. unfold check_i64, in_i64. destruct (_ && _) eqn:E; split; intros H; try (inversion H; subst); lia || (f_equal; lia). Qed.

Lemma check_u64_some z v : check_u64 z = Some v <-> v = z /\ (0 <= z <= u64_max)%Z.
Proof. unfold check_u64, in_u64. destruct (_ && _) eqn:E; split; intros H; try (inversion H; subst); lia || (f_equal; lia). Qed.

(** ** Characters and strings

    A Rust [char] is its scalar value and a [&str] the list of its chars; the
    byte offsets of the source come from [len_utf8].  Names that the later
    passes only compare are byte strings ([string]). *)

Abbreviation char := Z (only parsing).
Abbreviation str := (list Z) (only parsing).

Definition cp (a : Ascii.ascii) : char := Z.of_N (Ascii.N_of_ascii a).
Notation "'ch' a" := (cp a%char) (at level 1, a at level 0).

(** The chars of an ASCII literal. *)
Fixpoint chars (s : string) : str :=
  match s with
  | EmptyString => []
  | String a s' => cp a :: chars s'
  end.

Definition newline : char := 10%Z.

Definition len_utf8 (c : char) : nat :=
  if (c <? 0x80)%Z then 1 else if (c <? 0x800)%Z then 2 else if (c <? 0x10000)%Z then 3 else 4.

Fixpoint str_len (s : str) : nat :=
  match s with
  | [] => 0
  | c :: s' => len_utf8 c + str_len s'
  end.

(** [&s[off..]]: [None] where Rust panics, off a char boundary or past the end. *)
Fixpoint slice_from (s : str) (off : nat) : option str :=
  match off with
  | 0 => Some s
  | _ =>
      match s with
      | [] => None
      | c :: s' => if len_utf8 c <=? off then slice_from s' (off - len_utf8 c) else None
      end
  end.

(** [&s[..off]]. *)
Fixpoint slice_to (s : str) (off : nat) : option str :=
  match off with
  | 0 => Some []
  | _ =>
      match s with
      | [] => None
      | c :: s' => if len_utf8 c <=? off then cons c <$> slice_to s' (off - len_utf8 c) else None
      end
  end.

(** [&s[start..end]]. *)
Definition slice (s : str) (start end_ : nat) : option str :=
  if start <=? end_ then t ← slice_from s start; slice_to t (end_ - start) else None.

(** [s.char_indices()], from the byte offset [off]. *)
Fixpoint char_indices_from (off : nat) (s : str) : list (nat * char) :=
  match s with
  | [] => []
  | c :: s' => (off, c) :: char_indices_from (off + len_utf8 c) s'
  end.
Definition char_indices (s : str) : list (nat * char) := char_indices_from 0 s.

Lemma len_utf8_pos c : 1 <= len_utf8 c.
Proof. unfold len_utf8. repeat case_match; lia. Qed.

Lemma str_len_app s t : str_len (s ++ t) = str_len s + str_len t.
Proof. induction s as [|c s IH]; simpl; lia. Qed.

Create HintDb paco.
#[export] Hint Resolve len_utf8_pos : paco.
#[export] Hint Rewrite str_len_app @length_app app_nil_r : paco.

(** Lengths of concatenated texts. *)
Ltac str_lia := autorewrite with paco in *; simpl in *; lia.

(** Integer goals with division and remainder by constants. *)
Ltac divs := Z.to_euclidean_division_equations; lia.

Lemma length_le_str_len s : length s <= str_len s.
Proof. induction s as [|c s IH]; simpl; [lia|]. pose proof (len_utf8_pos c). lia. Qed.

Lemma str_len_nil_inv s : str_len s = 0 -> s = [].
Proof. destruct s as [|c s]; simpl; [done|]. pose proof (len_utf8_pos c). lia. Qed.

Lemma slice_from_cons c s off :
  0 < off -> slice_from (c :: s) off = if len_utf8 c <=? off then slice_from s (off - len_utf8 c) else None.
Proof. by destruct off; [lia|]. Qed.

Lemma slice_from_app s t : slice_from (s ++ t) (str_len s) = Some t.
Proof.
  induction s as [|c s IH]; simpl app; simpl str_len.
  - by destruct t.
  - pose proof (len_utf8_pos c). rewrite slice_from_cons by lia.
    destruct (Nat.leb_spec (len_utf8 c) (len_utf8 c + str_len s)); [|lia].
    by replace (len_utf8 c + str_len s - len_utf8 c) with (str_len s) by lia.
Qed.

Lemma slice_from_inv s off t :
  slice_from s off = Some t -> exists u, s = u ++ t /\ off = str_len u.
Proof.
  revert off; induction s as [|c s IH]; intros [|off] H; simpl in H; try done; [exists []; by inversion H..|].
  case_match eqn:E; [|done].
  destruct (IH _ H) as (u & -> & Hu). exists (c :: u). simpl.
  apply Nat.leb_le in E. split; [done|]. lia.
Qed.

Lemma slice_to_app s t : slice_to (s ++ t) (str_len s) = Some s.
Proof.
  induction s as [|c s IH]; simpl app; simpl str_len; [by destruct t|].
  pose proof (len_utf8_pos c). destruct (len_utf8 c + str_len s) as [|n] eqn:E; [lia|].
  simpl slice_to. rewrite <- E.
  destruct (Nat.leb_spec (len_utf8 c) (len_utf8 c + str_len s)); [|lia].
  replace (len_utf8 c + str_len s - len_utf8 c) with (str_len s) by lia. by rewrite IH.
Qed.

Lemma slice_app u s t : slice (u ++ s ++ t) (str_len u) (str_len u + str_len s) = Some s.
Proof.
  unfold slice. destruct (Nat.leb_spec (str_len u) (str_len u + str_len s)); [|lia].
  rewrite slice_from_app; simpl.
  replace (str_len u + str_len s - str_len u) with (str_len s) by lia. apply slice_to_app.
Qed.

(** ** Total orders by a three-way comparison

    [Ord] of the source: the derived orders on pairs and vectors are
    lexicographic. *)

Class TotalOrd {A : Type} (cmp : A -> A -> comparison) : Prop := {
  cmp_eq : forall x y, cmp x y = Eq <-> x = y;
  cmp_opp : forall x y, cmp y x = CompOpp (cmp x y);
  cmp_lt_trans : forall x y z, cmp x y = Lt -> cmp y z = Lt -> cmp x z = Lt
}.

Definition then_cmp (c d : comparison) : comparison :=
  match c with Eq => d | _ => c end.

Definition pair_cmp {A B} (ca : A -> A -> comparison) (cb : B -> B -> comparison) (x y : A * B) : comparison :=
  then_cmp (ca x.1 y.1) (cb x.2 y.2).

Fixpoint list_cmp {A} (c : A -> A -> comparison) (x y : list A) : comparison :=
  match x, y with
  | [], [] => Eq
  | [], _ => Lt
  | _, [] => Gt
  | a :: x', b :: y' => then_cmp (c a b) (list_cmp c x' y')
  end.

#[export] Instance nat_cmp_total : TotalOrd Nat.compare.
Proof.
  split; intros.
  - apply Nat.compare_eq_iff.
  - apply Nat.compare_antisym.
  - rewrite !Nat.compare_lt_iff in *. lia.
Qed.

#[export] Instance Z_cmp_total : TotalOrd Z.compare.
Proof.
  split; intros.
  - apply Z.compare_eq_iff.
  - apply Z.compare_antisym.
  - rewrite !Z.compare_lt_iff in *. lia.
Qed.

Section CmpFacts.
Context {A : Type} {cmp : A -> A -> comparison} `{!TotalOrd cmp}.

Lemma cmp_refl x : cmp x x = Eq.
Proof. by apply cmp_eq. Qed.

Lemma cmp_gt_lt x y : cmp x y = Gt <-> cmp y x = Lt.
Proof. rewrite (cmp_opp (cmp:=cmp) x y). by destruct (cmp x y). Qed.

Lemma cmp_lt_irrefl x : cmp x x <> Lt.
Proof. by rewrite cmp_refl. Qed.
End CmpFacts.

#[export] Instance pair_cmp_total {A B} (ca : A -> A -> comparison) (cb : B -> B -> comparison) :
  TotalOrd ca -> TotalOrd cb -> TotalOrd (pair_cmp ca cb).
Proof.
  intros Ha Hb. split; unfold pair_cmp, then_cmp.
  - intros [a b] [a' b']; simpl. destruct (ca a a') eqn:E.
    + apply cmp_eq in E as ->. rewrite cmp_eq. naive_solver.
    + split; [done|]. intros [= -> ->]. by rewrite cmp_refl in E.
    + split; [done|]. intros [= -> ->]. by rewrite cmp_refl in E.
  - intros [a b] [a' b']; simpl. rewrite (cmp_opp a a').
    destruct (ca a a'); simpl; [apply cmp_opp|done..].
  - intros [a b] [a' b'] [a'' b'']; simpl.
    destruct (ca a a') eqn:E1; [apply cmp_eq in E1 as ->| |done].
    + destruct (ca a' a''); try done. intros; by eapply cmp_lt_trans.
    + destruct (ca a' a'') eqn:E2; [apply cmp_eq in E2 as ->| |done]; intros _ _.
      * by rewrite E1.
      * by rewrite (cmp_lt_trans _ _ _ E1 E2).
Qed.

#[export] Instance list_cmp_total {A} (c : A -> A -> comparison) : TotalOrd c -> TotalOrd (list_cmp c).
Proof.
  intros Hc. split; unfold then_cmp.
  - induction x as [|a x IH]; destruct y as [|b y]; simpl; try (split; congruence).
    unfold then_cmp. destruct (c a b) eqn:E.
    + apply cmp_eq in E as ->. rewrite IH. split; congruence.
    + split; [done|]. intros [= -> ->]. by rewrite cmp_refl in E.
    + split; [done|]. intros [= -> ->]. by rewrite cmp_refl in E.
  - induction x as [|a x IH]; destruct y as [|b y]; simpl; try done.
    unfold then_cmp. rewrite (cmp_opp a b). destruct (c a b); simpl; [apply IH|done..].
  - induction x as [|a x IH]; destruct y as [|b y], z as [|d z]; simpl; try done.
    unfold then_cmp. destruct (c a b) eqn:E1; [apply cmp_eq in E1 as ->| |done].
    + destruct (c b d); try done. apply IH.
    + destruct (c b d) eqn:E2; [apply cmp_eq in E2 as ->| |done]; intros _ _.
      * by rewrite E1.
      * by rewrite (cmp_lt_trans _ _ _ E1 E2).
Qed.

(** ** Stable sorting

    [sort_by_key] and [sort_by] are stable, which determines their result:
    insertion from the right, before equal elements. *)

Section StableSort.
Context {A : Type} (le : A -> A -> bool).

Fixpoint insert_sorted (x : A) (l : list A) : list A :=
  match l with
  | [] => [x]
  | y :: l' => if le x y then x :: y :: l' else y :: insert_sorted x l'
  end.

Definition stable_sort (l : list A) : list A := foldr insert_sorted [] l.

Lemma insert_sorted_perm x l : insert_sorted x l ≡ₚ x :: l.
Proof. induction l as [|y l IH]; simpl; [done|]. case_match; [done|]. rewrite IH. constructor. Qed.

Lemma stable_sort_perm l : stable_sort l ≡ₚ l.
Proof. induction l as [|x l IH]; simpl; [done|]. by rewrite insert_sorted_perm, IH. Qed.

Context (le_total : forall x y, le x y = false -> le y x = true).
Context (le_trans : forall x y z, le x y = true -> le y z = true -> le x z = true).

Lemma insert_sorted_sorted x l :
  StronglySorted (fun a b => le a b = true) l -> StronglySorted (fun a b => le a b = true) (insert_sorted x l).
Proof.
  induction 1 as [|y l Hl IH Hy]; simpl; [repeat constructor|].
  case_match eqn:E; constructor; try (by constructor).
  - constructor; [done|]. eapply Forall_impl; [exact Hy|]. simpl; eauto.
  - done.
  - rewrite insert_sorted_perm. constructor; auto.
Qed.

Lemma stable_sort_sorted l : StronglySorted (fun a b => le a b = true) (stable_sort l).
Proof. induction l as [|x l IH]; simpl; [constructor|]. by apply insert_sorted_sorted. Qed.

(** Elements that compare equal keep their order. *)
Lemma stable_sort_stable (P : A -> bool) l :
  (forall x y, P x = true -> P y = true -> le x y = true) ->
  List.filter P (stable_sort l) = List.filter P l.
Proof.
  intros HP. induction l as [|x l IH]; [done|]. simpl. rewrite <- IH. clear IH.
  induction (stable_sort l) as [|y m IHm]; [done|]. simpl.
  destruct (le x y) eqn:E; [done|]. simpl. rewrite IHm.
  destruct (P x) eqn:Ex, (P y) eqn:Ey; try done. by rewrite HP in E.
Qed.
End StableSort.

(** ** Decimal text *)

Definition dec_N (n : N) : str := chars (NilZero.string_of_uint (N.to_uint n)).
Definition dec_nat (n : nat) : str := dec_N (N.of_nat n).

Definition is_dec_digit (c : char) : bool := ((48 <=? c) && (c <=? 57))%Z.

Lemma chars_string_of_uint d : Forall (fun c => is_dec_digit c = true) (chars (NilEmpty.string_of_uint d)).
Proof. induction d; simpl; repeat constructor; done. Qed.

Lemma dec_N_digits n : Forall (fun c => is_dec_digit c = true) (dec_N n).
Proof.
  unfold dec_N, NilZero.string_of_uint. case_match; try (rewrite <- H); try apply chars_string_of_uint.
  repeat constructor.
Qed.

(** ** Integers as text

    [i64::to_string] and [str::parse::<i64>] on byte strings. *)

Definition show_Z (z : Z) : string := NilZero.string_of_int (Z.to_int z).

Definition digit_of (a : ascii) : option Z :=
  let c := cp a in if is_dec_digit c then Some (c - 48)%Z else None.

(** The value of a digit string, continuing from [acc]. *)
Fixpoint parse_digits (acc : Z) (s : string) : option Z :=
  match s with
  | EmptyString => Some acc
  | String a s' => d ← digit_of a; parse_digits (10 * acc + d)%Z s'
  end.

Definition parse_unsigned (s : string) : option Z :=
  match s with
  | EmptyString => None
  | _ => parse_digits 0 s
  end.

(** An optional sign, at least one digit, and a value in range. *)
Definition parse_i64 (s : string) : option Z :=
  match s with
  | String "-" s' => v ← parse_unsigned s'; check_i64 (- v)
  | String "+" s' => v ← parse_unsigned s'; check_i64 v
  | _ => v ← parse_unsigned s; check_i64 v
  end.

Lemma parse_digits_acc d p :
  parse_digits (Z.pos p) (NilEmpty.string_of_uint d) = Some (Z.pos (Pos.of_uint_acc d p)).
Proof.
  revert p; induction d; intros p; cbn [parse_digits NilEmpty.string_of_uint Pos.of_uint_acc]; [done|..];
    rewrite <- IHd; unfold mbind, option_bind;
    match goal with
    | |- context [digit_of ?a] => let v := eval vm_compute in (digit_of a) in change (digit_of a) with v
    end; cbn iota beta; f_equal; lia.
Qed.

Lemma parse_digits_uint d :
  parse_digits 0 (NilEmpty.string_of_uint d) = Some (Z.of_uint d).
Proof.
  induction d; [done|exact IHd|..];
    (etrans; [|exact (parse_digits_acc d _)]); reflexivity.
Qed.

Lemma parse_unsigned_uint d :
  parse_unsigned (NilZero.string_of_uint d) = Some (Z.of_uint d).
Proof. unfold NilZero.string_of_uint. destruct d; try done; apply parse_digits_uint. Qed.

Lemma string_of_uint_digit d : exists c s, NilZero.string_of_uint d = String c s /\ is_dec_digit (cp c) = true.
Proof. unfold NilZero.string_of_uint. destruct d; simpl; eauto. Qed.

Lemma parse_i64_show z : in_i64 z = true -> parse_i64 (show_Z z) = Some z.
Proof.
  intros Hz. unfold show_Z. pose proof (DecimalZ.of_to z) as E.
  unfold NilZero.string_of_int. destruct (Z.to_int z) as [d|d]; simpl in E.
  - destruct (string_of_uint_digit d) as (c & s & Hs & Hc).
    assert (parse_i64 (NilZero.string_of_uint d) = (v ← parse_unsigned (NilZero.string_of_uint d); check_i64 v)) as ->.
    { rewrite Hs. destruct c as [[] [] [] [] [] [] [] []]; try done. }
    rewrite parse_unsigned_uint. simpl. rewrite E. unfold check_i64. by rewrite Hz.
  - simpl. rewrite parse_unsigned_uint. simpl. rewrite E. unfold check_i64. by rewrite Hz.
Qed.

Lemma parse_unsigned_show z : (0 <= z)%Z -> parse_unsigned (show_Z z) = Some z.
Proof.
  intros Hz. unfold show_Z. pose proof (DecimalZ.of_to z) as E. destruct z as [|p|p]; [done| |lia].
  cbn [Z.to_int NilZero.string_of_int] in *. rewrite parse_unsigned_uint. f_equal. exact E.
Qed.

Lemma show_Z_inj x y : show_Z x = show_Z y -> x = y.
Proof.
  intros E. apply DecimalZ.to_int_inj.
  assert (forall z, NilZero.int_of_string (show_Z z) = Some (Z.to_int z)) as H.
  2: { pose proof (H x). pose proof (H y). congruence. }
  intros z. unfold show_Z. pose proof (DecimalZ.of_to z) as Hz.
  apply NilZero.isi; intros H; rewrite H in Hz; simpl in Hz; by subst.
Qed.

(** ** UTF-8 *)

(** [char::encode_utf8]. *)
Definition utf8_bytes (c : char) : list Z :=
  (if c <? 0x80 then [c]
   else if c <? 0x800 then [0xC0 + c / 64; 0x80 + c mod 64]
   else if c <? 0x10000 then [0xE0 + c / 4096; 0x80 + (c / 64) mod 64; 0x80 + c mod 64]
   else [0xF0 + c / 262144; 0x80 + (c / 4096) mod 64; 0x80 + (c / 64) mod 64; 0x80 + c mod 64])%Z.

(** A Unicode scalar value. *)
Definition is_char (c : Z) : bool :=
  ((0 <=? c) && (c <? 0xD800) || (0xE000 <=? c) && (c <? 0x110000))%Z.

Definition ascii_of_Z (b : Z) : ascii := Ascii.ascii_of_N (Z.to_N b).

Fixpoint string_of_bytes (bs : list Z) : string :=
  match bs with
  | [] => EmptyString
  | b :: bs' => String (ascii_of_Z b) (string_of_bytes bs')
  end.

(** [char::to_string] *)
Definition char_to_string (c : char) : string := string_of_bytes (utf8_bytes c).

Definition is_byte (b : Z) : Prop := (0 <= b < 256)%Z.

Lemma ascii_of_Z_inj a b : is_byte a -> is_byte b -> ascii_of_Z a = ascii_of_Z b -> a = b.
Proof.
  unfold is_byte, ascii_of_Z. intros Ha Hb E.
  apply (f_equal Ascii.N_of_ascii) in E. rewrite !Ascii.N_ascii_embedding in E; lia.
Qed.

Lemma string_of_bytes_inj x y :
  Forall is_byte x -> Forall is_byte y -> string_of_bytes x = string_of_bytes y -> x = y.
Proof.
  intros Hx; revert y; induction Hx as [|a x Ha Hx IH]; intros y [|b y' Hb Hy]; simpl; try done.
  intros [= E1 E2]. f_equal; [by apply ascii_of_Z_inj|by apply IH].
Qed.

Lemma is_char_range c : is_char c = true -> (0 <= c < 0x110000)%Z.
Proof. unfold is_char. lia. Qed.

Lemma utf8_bytes_bytes c : is_char c = true -> Forall is_byte (utf8_bytes c).
Proof.
  intros H%is_char_range. unfold utf8_bytes, is_byte.
  repeat case_match; repeat constructor; divs.
Qed.

Lemma utf8_bytes_inj c d : is_char c = true -> is_char d = true -> utf8_bytes c = utf8_bytes d -> c = d.
Proof.
  intros Hc%is_char_range Hd%is_char_range. unfold utf8_bytes.
  repeat case_match; intros E; simplify_eq; try done;
    divs.
Qed.

Lemma char_to_string_inj c d :
  is_char c = true -> is_char d = true -> char_to_string c = char_to_string d -> c = d.
Proof.
  intros Hc Hd E. apply utf8_bytes_inj; [done..|].
  by apply string_of_bytes_inj; [apply utf8_bytes_bytes..|].
Qed.

(** ** Boolean quantifiers over lists *)

Lemma existsb_elem {A} (f : A -> bool) l : existsb f l = true <-> exists x, x ∈ l /\ f x = true.
Proof. rewrite existsb_exists. by setoid_rewrite list_elem_of_In. Qed.

Lemma existsb_none {A} (f : A -> bool) l x : existsb f l = false -> x ∈ l -> f x = false.
Proof.
  intros E Hx. apply not_true_iff_false. intros Hf. apply not_true_iff_false in E.
  apply E, existsb_elem. eauto.
Qed.

Lemma forallb_elem {A} (f : A -> bool) l : forallb f l = true <-> forall x, x ∈ l -> f x = true.
Proof. rewrite forallb_forall. by setoid_rewrite list_elem_of_In. Qed.

(** ** Reinterpreting a 64-bit pattern *)

Definition as_u64 (z : Z) : Z := (z mod 2 ^ 64)%Z.
Definition as_i64 (z : Z) : Z := (let u := z mod 2 ^ 64 in if u <? 2 ^ 63 then u else u - 2 ^ 64)%Z.

Lemma as_i64_id z : (i64_min <= z <= i64_max)%Z -> as_i64 z = z.
Proof. unfold as_i64, i64_min, i64_max. intros. case_match; Z.to_euclidean_division_equations; lia. Qed.

Lemma as_u64_id z : (0 <= z <= u64_max)%Z -> as_u64 z = z.
Proof. unfold as_u64, u64_max. intros. Z.to_euclidean_division_equations; lia. Qed.

Lemma as_u64_as_i64 z : (0 <= z <= u64_max)%Z -> as_u64 (as_i64 z) = z.
Proof. unfold as_u64, as_i64, u64_max. intros. case_match; Z.to_euclidean_division_equations; lia. Qed.

(** ** Bit fields *)

Lemma lor_add (n a b : Z) : (0 <= n -> 0 <= b < 2 ^ n -> Z.lor (a * 2 ^ n) b = a * 2 ^ n + b)%Z.
Proof.
  intros Hn Hb. symmetry. apply Z.add_nocarry_lor. apply Z.bits_inj'. intros i Hi.
  rewrite Z.land_spec, Z.bits_0. destruct (Z.ltb_spec i n) as [Hlt|Hge].
  - by rewrite Z.mul_pow2_bits_low.
  - rewrite <-(Z.mod_small b (2 ^ n)) by lia. rewrite Z.mod_pow2_bits_high by lia. apply andb_false_r.
Qed.

Lemma land_low (n a : Z) : (0 <= n -> Z.land a (2 ^ n - 1) = a mod 2 ^ n)%Z.
Proof. intros Hn. replace (2 ^ n - 1)%Z with (Z.ones n) by (rewrite Z.ones_equiv; lia). by apply Z.land_ones. Qed.
#[export] Hint Resolve as_i64_id as_u64_id ascii_of_Z_inj utf8_bytes_inj show_Z_inj : paco.
