(* ===== verification/Span.v ===== *)
(** Source identity and byte spans: [compiler/paco-span/src/lib.rs].

    [FileId], [Span], [SourceMap] with [add_file], [source], [file_name] and
    [location], and the position loop [line_column].  A [usize] is a [nat]
    here: every offset is bounded by the length of a text in memory.  The
    [u32] inside [FileId] keeps its width, since [add_file] truncates. *)
From S2P Require Import Prelude.

Record FileId := mkFileId { fid : Z }.

#[export] Instance FileId_eq_dec : EqDecision FileId.
Proof. solve_decision. Defined.
#[export] Instance FileId_countable : Countable FileId.
Proof. refine (inj_countable' fid mkFileId _); by intros []. Defined.

Definition FileId_ROOT : FileId := mkFileId 0.
Definition FileId_index (f : FileId) : nat := Z.to_nat (fid f).

Record Span := mkSpan { file_id : FileId; start : nat; end_ : nat }.

#[export] Instance Span_eq_dec : EqDecision Span.
Proof. solve_decision. Defined.
#[export] Instance Span_countable : Countable Span.
Proof.
  refine (inj_countable' (fun s => (file_id s, start s, end_ s)) (fun '(f, a, b) => mkSpan f a b) _).
  by intros [].
Defined.

Definition Span_new_root (a b : nat) : Span := mkSpan FileId_ROOT a b.
Definition Span_is_empty (s : Span) : bool := start s =? end_ s.

Record LineColumn := mkLineColumn { line : nat; column : nat }.

Record Location := mkLocation {
  loc_file_id : FileId; loc_file_name : str; loc_start : LineColumn; loc_end : LineColumn }.

Inductive SourceMapError :=
| UnknownFile (f : FileId)
| InvalidSpan (start end_ len : nat).

Record SourceFile := mkSourceFile { sf_name : str; sf_text : str }.
Record SourceMap := mkSourceMap { files : list SourceFile }.

Definition SourceMap_new : SourceMap := mkSourceMap [].

(** The id is the index of the new file, [as u32]. *)
Definition add_file (m : SourceMap) (name : str) (text : str) : FileId * SourceMap :=
  (mkFileId (wrap 32 (Z.of_nat (length (files m)))),
   mkSourceMap (files m ++ [mkSourceFile name text])).

Definition source (m : SourceMap) (f : FileId) : option str := sf_text <$> files m !! FileId_index f.
Definition file_name (m : SourceMap) (f : FileId) : option str := sf_name <$> files m !! FileId_index f.

(** The loop of [line_column]: it stops at the first char at or after [offset]. *)
Fixpoint line_column_go (cs : list (nat * char)) (offset line column : nat) : LineColumn :=
  match cs with
  | [] => mkLineColumn line column
  | (index, c) :: cs' =>
      if offset <=? index then mkLineColumn line column
      else if (c =? newline)%Z then line_column_go cs' offset (line + 1) 1
      else line_column_go cs' offset line (column + 1)
  end.

Definition line_column (source : str) (offset : nat) : LineColumn :=
  line_column_go (char_indices source) offset 1 1.

Definition location (m : SourceMap) (s : Span) : result Location SourceMapError :=
  match files m !! FileId_index (file_id s) with
  | None => Err (UnknownFile (file_id s))
  | Some file =>
      let len := str_len (sf_text file) in
      if (end_ s <? start s) || (len <? end_ s) then Err (InvalidSpan (start s) (end_ s) len)
      else Ok (mkLocation (file_id s) (sf_name file)
                 (line_column (sf_text file) (start s)) (line_column (sf_text file) (end_ s)))
  end.

(** ** Reference definition of a position

    The line is one more than the newlines before the offset, the column one
    more than the chars since the last of them. *)

Fixpoint newlines (s : str) : nat :=
  match s with
  | [] => 0
  | c :: s' => (if (c =? newline)%Z then 1 else 0) + newlines s'
  end.

Fixpoint last_line (s : str) : str :=
  match s with
  | [] => []
  | c :: s' => if 0 <? newlines s' then last_line s' else if (c =? newline)%Z then s' else c :: s'
  end.

Definition position_after (s : str) : LineColumn :=
  mkLineColumn (1 + newlines s) (1 + length (last_line s)).

Lemma newlines_app s t : newlines (s ++ t) = newlines s + newlines t.
Proof. induction s as [|c s IH]; simpl; [done|]. lia. Qed.

Lemma last_line_no_newline s : newlines s = 0 -> last_line s = s.
Proof.
  destruct s as [|c s]; [done|]. simpl. intros H.
  destruct (c =? newline)%Z eqn:E; [lia|]. by replace (newlines s) with 0 by lia.
Qed.

Lemma last_line_app_le s t : newlines t = 0 -> length (last_line (s ++ t)) = length (last_line s) + length t.
Proof.
  intros Ht. induction s as [|c s IH]; simpl; [by rewrite last_line_no_newline|].
  rewrite newlines_app, Ht, Nat.add_0_r.
  destruct (0 <? newlines s); [done|]. destruct (c =? newline)%Z; simpl; rewrite length_app; lia.
Qed.

(** The loop, started anywhere with the chars [p] still before the offset. *)
Lemma line_column_go_spec p q off l c :
  line_column_go (char_indices_from off (p ++ q)) (off + str_len p) l c =
  if newlines p =? 0 then mkLineColumn l (c + length p)
  else mkLineColumn (l + newlines p) (1 + length (last_line p)).
Proof.
  revert off l c; induction p as [|x p IH]; intros off l c; simpl.
  - rewrite !Nat.add_0_r. destruct q; simpl; [done|]. by rewrite Nat.leb_refl.
  - pose proof (len_utf8_pos x).
    destruct (Nat.leb_spec (off + (len_utf8 x + str_len p)) off); [lia|].
    rewrite Nat.add_assoc, !IH.
    destruct (x =? newline)%Z; destruct (newlines p) as [|n] eqn:E; simpl;
      rewrite ?last_line_no_newline by done; f_equal; lia.
Qed.

Lemma line_column_position p q : line_column (p ++ q) (str_len p) = position_after p.
Proof.
  unfold line_column, char_indices, position_after.
  rewrite <- (Nat.add_0_l (str_len p)), line_column_go_spec.
  destruct (newlines p) eqn:E; simpl; [by rewrite last_line_no_newline|done].
Qed.

(** A strictly longer prefix of a text is at a different, later position. *)
Definition lc_lt (a b : LineColumn) : Prop :=
  line a < line b \/ (line a = line b /\ column a < column b).

Lemma position_after_mono p c t : lc_lt (position_after p) (position_after (p ++ c :: t)).
Proof.
  unfold lc_lt, position_after; simpl. rewrite newlines_app.
  destruct (newlines (c :: t)) eqn:E; [right|left; lia].
  rewrite last_line_app_le by done. simpl. lia.
Qed.

(** a span that starts and ends on char boundaries of a known file
    resolves to the file's name and to the 1-based line and column of its two
    ends, the line counting the newlines before the offset and the column the
    chars since the last of them. *)
Theorem location_in_file m s file pre mid post :
  files m !! FileId_index (file_id s) = Some file ->
  sf_text file = pre ++ mid ++ post ->
  start s = str_len pre -> end_ s = str_len (pre ++ mid) ->
  location m s = Ok (mkLocation (file_id s) (sf_name file) (position_after pre) (position_after (pre ++ mid))).
Proof.
  intros Hf Ht Hs He. unfold location. rewrite Hf, Ht, Hs, He, !str_len_app.
  destruct (Nat.ltb_spec (str_len pre + str_len mid) (str_len pre)); [lia|].
  destruct (Nat.ltb_spec (str_len pre + (str_len mid + str_len post)) (str_len pre + str_len mid)); [lia|].
  simpl. rewrite line_column_position, <- str_len_app, app_assoc, line_column_position. done.
Qed.

Definition sample_map : SourceMap :=
  snd (add_file SourceMap_new (chars "main.paco") (chars "ab" ++ [newline] ++ chars "cde")).

Lemma location_in_file_witness :
  location sample_map (mkSpan FileId_ROOT 4 6) =
    Ok (mkLocation FileId_ROOT (chars "main.paco") (mkLineColumn 2 2) (mkLineColumn 2 4)).
Proof.
  apply (location_in_file sample_map (mkSpan FileId_ROOT 4 6)
           (mkSourceFile (chars "main.paco") (chars "ab" ++ [newline] ++ chars "cde"))
           (chars "ab" ++ [newline] ++ chars "c") (chars "de") []); reflexivity.
Defined.

(** [location] fails exactly for a file the map does not hold and for a
    span that is reversed or runs past the text, naming the offending values;
    in every other case it succeeds. *)
Theorem location_errors m s :
  location m s =
    match files m !! FileId_index (file_id s) with
    | None => Err (UnknownFile (file_id s))
    | Some f =>
        if decide (start s <= end_ s /\ end_ s <= str_len (sf_text f))
        then Ok (mkLocation (file_id s) (sf_name f)
                   (line_column (sf_text f) (start s)) (line_column (sf_text f) (end_ s)))
        else Err (InvalidSpan (start s) (end_ s) (str_len (sf_text f)))
    end.
Proof.
  unfold location. case_match; [|done].
  destruct (Nat.ltb_spec (end_ s) (start s)), (Nat.ltb_spec (str_len (sf_text s0)) (end_ s));
    simpl; case_decide; done || lia.
Qed.

(** within one text, distinct char boundaries have distinct positions, and
    a later boundary has a later position: a rendered [line:column] identifies
    one offset. *)
Theorem line_column_strict_mono text p q r c :
  text = p ++ c :: q ++ r ->
  lc_lt (line_column text (str_len p)) (line_column text (str_len (p ++ c :: q))).
Proof.
  intros ->. rewrite line_column_position.
  replace (p ++ c :: q ++ r) with ((p ++ c :: q) ++ r) by (by rewrite <- app_assoc).
  rewrite line_column_position. apply position_after_mono.
Qed.

Lemma line_column_strict_mono_witness :
  lc_lt (line_column (chars "a" ++ [newline] ++ chars "b") 1) (line_column (chars "a" ++ [newline] ++ chars "b") 2).
Proof.
  apply (line_column_strict_mono (chars "a" ++ [newline] ++ chars "b") (chars "a") [] (chars "b") newline).
  reflexivity.
Defined.

(** the id [add_file] returns finds the text and the name just added and
    every id handed out before keeps its file, as long as fewer than [2^32]
    files are registered (the index is truncated to 32 bits). *)
Theorem add_file_lookup m name text :
  (Z.of_nat (length (files m)) < 2 ^ 32)%Z ->
  let '(f, m') := add_file m name text in
  source m' f = Some text /\ file_name m' f = Some name /\
  (forall g, FileId_index g < length (files m) -> source m' g = source m g /\ file_name m' g = file_name m g).
Proof.
  intros Hlen. unfold add_file, source, file_name, FileId_index, wrap; simpl.
  rewrite Z.mod_small, Nat2Z.id by lia.
  rewrite lookup_app_r, Nat.sub_diag by lia. split; [done|]. split; [done|].
  intros g Hg. by rewrite lookup_app_l by done.
Qed.

Lemma add_file_lookup_witness :
  let '(f, m') := add_file sample_map (chars "b.paco") (chars "x") in
  source m' f = Some (chars "x") /\ file_name m' f = Some (chars "b.paco") /\
  (forall g, FileId_index g < 1 -> source m' g = source sample_map g /\ file_name m' g = file_name sample_map g).
Proof. apply (add_file_lookup sample_map (chars "b.paco") (chars "x")). reflexivity. Defined.
