(* ===== verification/Diag.v ===== *)
(** Diagnostics: [compiler/paco-diag/src/lib.rs].

    The diagnostic record with its builders, the [Reporter] that collects
    diagnostics, the order in which they are emitted and the two renderers.
    Text is a list of chars; [write!] and [format!] append to it. *)
From S2P Require Import Prelude Span.

Inductive Severity := Error | Warning | Note | Help.

#[export] Instance Severity_eq_dec : EqDecision Severity.
Proof. solve_decision. Defined.

Definition Severity_as_str (s : Severity) : str :=
  match s with
  | Error => chars "error"
  | Warning => chars "warning"
  | Note => chars "note"
  | Help => chars "help"
  end.

Record Label := mkLabel { label_span : Span; label_message : str }.
Record Suggestion := mkSuggestion { sug_span : Span; sug_replacement : str; sug_message : str }.
Record Edit := mkEdit { edit_span : Span; edit_replacement : str }.
Record Fix := mkFix { fix_title : str; fix_edits : list Edit }.

Definition MAX_FIXES : nat := 2.

Record Diagnostic := mkDiagnostic {
  d_code : str; d_severity : Severity; d_primary : Label; d_secondary : list Label;
  d_notes : list str; d_suggestion : option Suggestion; d_fixes : list Fix }.

Definition Diagnostic_new (code : str) (severity : Severity) (sp : Span) (message : str) : Diagnostic :=
  mkDiagnostic code severity (mkLabel sp message) [] [] None [].

Definition Diagnostic_error (code : str) (sp : Span) (message : str) : Diagnostic :=
  Diagnostic_new code Error sp message.

Definition with_fix (d : Diagnostic) (title : str) (edits : list Edit) : Diagnostic :=
  if length (d_fixes d) <? MAX_FIXES
  then mkDiagnostic (d_code d) (d_severity d) (d_primary d) (d_secondary d) (d_notes d) (d_suggestion d)
         (d_fixes d ++ [mkFix title edits])
  else d.

Definition set_message (d : Diagnostic) (message : str) : Diagnostic :=
  mkDiagnostic (d_code d) (d_severity d) (mkLabel (label_span (d_primary d)) message)
    (d_secondary d) (d_notes d) (d_suggestion d) (d_fixes d).

Definition with_secondary (d : Diagnostic) (sp : Span) (message : str) : Diagnostic :=
  mkDiagnostic (d_code d) (d_severity d) (d_primary d) (d_secondary d ++ [mkLabel sp message])
    (d_notes d) (d_suggestion d) (d_fixes d).

Definition with_note (d : Diagnostic) (note : str) : Diagnostic :=
  mkDiagnostic (d_code d) (d_severity d) (d_primary d) (d_secondary d)
    (d_notes d ++ [note]) (d_suggestion d) (d_fixes d).

Definition with_suggestion (d : Diagnostic) (s : Suggestion) : Diagnostic :=
  mkDiagnostic (d_code d) (d_severity d) (d_primary d) (d_secondary d) (d_notes d) (Some s) (d_fixes d).

(** What the builders can produce. *)
Inductive Built : Diagnostic -> Prop :=
| built_new code severity sp message : Built (Diagnostic_new code severity sp message)
| built_fix d title edits : Built d -> Built (with_fix d title edits)
| built_message d m : Built d -> Built (set_message d m)
| built_secondary d sp m : Built d -> Built (with_secondary d sp m)
| built_note d n : Built d -> Built (with_note d n)
| built_suggestion d s : Built d -> Built (with_suggestion d s).

Record Reporter := mkReporter { diagnostics : list Diagnostic }.

Definition Reporter_new : Reporter := mkReporter [].
Definition Reporter_push (r : Reporter) (d : Diagnostic) : Reporter := mkReporter (diagnostics r ++ [d]).
Definition has_errors (r : Reporter) : bool :=
  existsb (fun d => bool_decide (d_severity d = Error)) (diagnostics r).

(** The sort key: file, start, end, code. *)
Definition diag_key (d : Diagnostic) : Z * (nat * (nat * str)) :=
  let sp := label_span (d_primary d) in
  (fid (file_id sp), (start sp, (end_ sp, d_code d))).

Definition key_cmp : Z * (nat * (nat * str)) -> Z * (nat * (nat * str)) -> comparison :=
  pair_cmp Z.compare (pair_cmp Nat.compare (pair_cmp Nat.compare (list_cmp Z.compare))).

Definition diag_le (a b : Diagnostic) : bool :=
  match key_cmp (diag_key a) (diag_key b) with Gt => false | _ => true end.

Definition sorted (r : Reporter) : list Diagnostic := stable_sort diag_le (diagnostics r).

(** ** Rendering *)

Definition quote : str := [34%Z].
Definition backslash : char := 92%Z.

Definition hex_digit (n : Z) : char := (if n <? 10 then 48 + n else 87 + n)%Z.
Definition hex4 (c : Z) : str :=
  [hex_digit (c / 4096 mod 16); hex_digit (c / 256 mod 16); hex_digit (c / 16 mod 16); hex_digit (c mod 16)]%Z.

Definition json_escape (c : char) : str :=
  if (c =? 34)%Z then [backslash; 34%Z]
  else if (c =? backslash)%Z then [backslash; backslash]
  else if (c =? newline)%Z then backslash :: chars "n"
  else if (c =? 13)%Z then backslash :: chars "r"
  else if (c =? 9)%Z then backslash :: chars "t"
  else if (c <? 0x20)%Z then backslash :: chars "u" ++ hex4 c
  else [c].

Definition json_string (text : str) : str := quote ++ concat (map json_escape text) ++ quote.

Definition json_field (name : string) : str := quote ++ chars name ++ quote ++ chars ":".

Definition json_location (m : SourceMap) (sp : Span) : str :=
  match location m sp with
  | Ok l =>
      json_field "file" ++ json_string (loc_file_name l) ++ chars "," ++
      json_field "line" ++ dec_nat (line (loc_start l)) ++ chars "," ++
      json_field "column" ++ dec_nat (column (loc_start l))
  | Err _ =>
      json_field "file" ++ chars "null," ++ json_field "line" ++ chars "null," ++
      json_field "column" ++ chars "null"
  end.

Fixpoint str_join (sep : str) (parts : list str) : str :=
  match parts with
  | [] => []
  | [p] => p
  | p :: ps => p ++ sep ++ str_join sep ps
  end.

Definition json_note (m : SourceMap) (message : str) (sp : Span) : str :=
  chars "{" ++ json_field "message" ++ json_string message ++ chars "," ++ json_location m sp ++ chars "}".

Definition json_edit (m : SourceMap) (e : Edit) : str :=
  let file := match file_name m (file_id (edit_span e)) with Some n => json_string n | None => chars "null" end in
  chars "{" ++ json_field "file" ++ file ++ chars "," ++
  json_field "start" ++ dec_nat (start (edit_span e)) ++ chars "," ++
  json_field "end" ++ dec_nat (end_ (edit_span e)) ++ chars "," ++
  json_field "replacement" ++ json_string (edit_replacement e) ++ chars "}".

Definition json_fix (m : SourceMap) (index : nat) (f : Fix) : str :=
  chars "{" ++ json_field "rank" ++ dec_nat (index + 1) ++ chars "," ++
  json_field "title" ++ json_string (fix_title f) ++ chars "," ++
  json_field "edits" ++ chars "[" ++ str_join (chars ",") (json_edit m <$> fix_edits f) ++ chars "]}".

(** The object [render_json] writes on its line. *)
Definition json_object (m : SourceMap) (d : Diagnostic) : str :=
  let notes :=
    ((fun l => json_note m (label_message l) (label_span l)) <$> d_secondary d) ++
    ((fun n => json_note m n (label_span (d_primary d))) <$> d_notes d) in
  let fixes := imap (json_fix m) (d_fixes d) in
  chars "{" ++ json_field "code" ++ json_string (d_code d) ++ chars "," ++
  json_field "severity" ++ json_string (Severity_as_str (d_severity d)) ++ chars "," ++
  json_field "message" ++ json_string (label_message (d_primary d)) ++ chars "," ++
  json_location m (label_span (d_primary d)) ++ chars "," ++
  json_field "notes" ++ chars "[" ++ str_join (chars ",") notes ++ chars "]," ++
  json_field "fixes" ++ chars "[" ++ str_join (chars ",") fixes ++ chars "]}".

Definition render_json (output : str) (m : SourceMap) (d : Diagnostic) : str :=
  output ++ json_object m d ++ [newline].

Definition emit_json (r : Reporter) (m : SourceMap) : str :=
  foldl (fun out d => render_json out m d) [] (sorted r).

(** [ {name}:{line}:{column}] of a span's start. *)
Definition text_location (l : Location) : str :=
  loc_file_name l ++ chars ":" ++ dec_nat (line (loc_start l)) ++ chars ":" ++ dec_nat (column (loc_start l)).

Definition render_diagnostic (output : str) (m : SourceMap) (d : Diagnostic) : str :=
  let o := output ++ Severity_as_str (d_severity d) ++ chars "[" ++ d_code d ++ chars "]" in
  let o := match location m (label_span (d_primary d)) with
           | Ok l => o ++ chars " " ++ text_location l
           | Err _ => o
           end in
  let o := o ++ chars ": " ++ label_message (d_primary d) ++ [newline] in
  let o := foldl (fun o l =>
             match location m (label_span l) with
             | Ok loc => o ++ chars "  note at " ++ text_location loc ++ chars ": " ++ label_message l ++ [newline]
             | Err _ => o
             end) o (d_secondary d) in
  let o := foldl (fun o n => o ++ chars "  note: " ++ n ++ [newline]) o (d_notes d) in
  let o := match d_suggestion d with
           | Some s => o ++ chars "  help: " ++ sug_message s ++ chars " -> `" ++ sug_replacement s ++ chars "`" ++ [newline]
           | None => o
           end in
  foldl (fun o p => o ++ p) o
    (imap (fun i f => chars "  fix " ++ dec_nat (i + 1) ++ chars ": " ++ fix_title f ++ [newline]) (d_fixes d)).

Definition emit_to_string (r : Reporter) (m : SourceMap) : str :=
  foldl (fun out d => render_diagnostic out m d) [] (sorted r).

(** ** Order of emission *)

#[export] Instance key_cmp_total : TotalOrd key_cmp.
Proof. unfold key_cmp. apply _. Qed.

Lemma diag_le_total a b : diag_le a b = false -> diag_le b a = true.
Proof.
  unfold diag_le. destruct (key_cmp (diag_key a) (diag_key b)) eqn:E; try done.
  rewrite (cmp_opp (cmp:=key_cmp)), E. done.
Qed.

Lemma diag_le_trans a b c : diag_le a b = true -> diag_le b c = true -> diag_le a c = true.
Proof.
  unfold diag_le.
  destruct (key_cmp (diag_key a) (diag_key b)) eqn:E1; [apply cmp_eq in E1 as ->; done| |done].
  destruct (key_cmp (diag_key b) (diag_key c)) eqn:E2; [apply cmp_eq in E2 as <-; by rewrite E1| |done].
  by rewrite (cmp_lt_trans _ _ _ E1 E2).
Qed.

(** diagnostics are emitted in a fixed order: every collected diagnostic
    exactly once, by file, start, end and code, and diagnostics that agree on
    all four in the order in which they were reported. *)
Theorem sorted_spec r k :
  sorted r ≡ₚ diagnostics r /\
  StronglySorted (fun a b => diag_le a b = true) (sorted r) /\
  List.filter (fun d => bool_decide (diag_key d = k)) (sorted r) =
    List.filter (fun d => bool_decide (diag_key d = k)) (diagnostics r).
Proof.
  split; [apply stable_sort_perm|]. split.
  - apply stable_sort_sorted; [apply diag_le_total|apply diag_le_trans].
  - apply stable_sort_stable. intros x y Hx%bool_decide_eq_true Hy%bool_decide_eq_true.
    unfold diag_le. by rewrite Hx, Hy, cmp_refl.
Qed.

(** ** JSON strings

    A reference reader of JSON string literals: after the opening quote it
    returns the decoded text and what follows the closing quote, and refuses
    raw control characters. *)

Definition hex_value (c : char) : option Z :=
  (if (48 <=? c) && (c <=? 57) then Some (c - 48)
   else if (97 <=? c) && (c <=? 102) then Some (c - 87) else None)%Z.

Definition simple_escape (e : char) : option char :=
  (if e =? 34 then Some 34 else if e =? backslash then Some backslash
   else if e =? cp "n" then Some newline else if e =? cp "r" then Some 13
   else if e =? cp "t" then Some 9 else None)%Z.

Fixpoint json_chars (s : str) : option (str * str) :=
  match s with
  | [] => None
  | c :: s' =>
      if (c =? 34)%Z then Some ([], s')
      else if (c =? backslash)%Z then
        match s' with
        | [] => None
        | e :: s'' =>
            if (e =? cp "u")%Z then
              match s'' with
              | a :: b :: c' :: d :: t =>
                  x ← hex_value a; y ← hex_value b; z ← hex_value c'; w ← hex_value d;
                  '(u, r) ← json_chars t; Some ((x * 4096 + y * 256 + z * 16 + w)%Z :: u, r)
              | _ => None
              end
            else x ← simple_escape e; '(u, r) ← json_chars s''; Some (x :: u, r)
        end
      else if (c <? 0x20)%Z then None
      else '(u, r) ← json_chars s'; Some (c :: u, r)
  end.

Definition json_decode (s : str) : option (str * str) :=
  match s with
  | c :: s' => if (c =? 34)%Z then json_chars s' else None
  | [] => None
  end.

Lemma json_chars_plain c t : (0x20 <= c)%Z -> c <> 34%Z -> c <> backslash ->
  json_chars (c :: t) = '(u, r) ← json_chars t; Some (c :: u, r).
Proof.
  intros H1 H2 H3. simpl.
  rewrite (proj2 (Z.eqb_neq c 34)), (proj2 (Z.eqb_neq c backslash)), (proj2 (Z.ltb_ge c 0x20)) by done.
  done.
Qed.

(** The control characters, checked one by one. *)
Lemma json_chars_control c t : (0 <= c < 0x20)%Z ->
  json_chars (json_escape c ++ t) = '(u, r) ← json_chars t; Some (c :: u, r).
Proof.
  intros Hc.
  assert (Hn : c = Z.of_nat (Z.to_nat c)) by lia. rewrite Hn.
  assert (Hb : Z.to_nat c < 32) by lia. generalize dependent (Z.to_nat c). clear.
  intros n _ Hb. do 32 (destruct n as [|n]; [reflexivity|]). lia.
Qed.

Lemma json_chars_escape c t : (0 <= c)%Z ->
  json_chars (json_escape c ++ t) = '(u, r) ← json_chars t; Some (c :: u, r).
Proof.
  intros Hc. destruct (Z.lt_ge_cases c 0x20); [by apply json_chars_control|].
  destruct (Z.eq_dec c 34%Z) as [->|N1]; [done|].
  destruct (Z.eq_dec c backslash) as [->|N2]; [done|].
  unfold json_escape.
  rewrite (proj2 (Z.eqb_neq c 34)), (proj2 (Z.eqb_neq c backslash)) by done.
  rewrite (proj2 (Z.eqb_neq c newline)), (proj2 (Z.eqb_neq c 13)), (proj2 (Z.eqb_neq c 9)),
    (proj2 (Z.ltb_ge c 0x20)) by (unfold newline; lia).
  by apply json_chars_plain.
Qed.

Lemma json_chars_text text rest :
  Forall (fun c => (0 <= c)%Z) text ->
  json_chars (concat (map json_escape text) ++ 34%Z :: rest) = Some (text, rest).
Proof.
  induction 1 as [|c text Hc H IH]; [done|].
  cbn [map concat]. rewrite <- app_assoc, json_chars_escape by done. by rewrite IH.
Qed.

(** a JSON reader gets back exactly the text [json_string] was given, and
    stops right after it: quotes, backslashes, newlines and control characters
    in messages and file names survive the trip. *)
Theorem json_string_roundtrip text rest :
  Forall (fun c => (0 <= c)%Z) text ->
  json_decode (json_string text ++ rest) = Some (text, rest).
Proof.
  intros H. unfold json_string, quote. simpl. rewrite <- app_assoc. simpl.
  by rewrite json_chars_text.
Qed.

Lemma json_string_roundtrip_witness :
  json_decode (json_string (chars "a" ++ [34; 92; 10; 1; 233]%Z) ++ chars ",") =
    Some (chars "a" ++ [34; 92; 10; 1; 233]%Z, chars ",").
Proof. apply (json_string_roundtrip (chars "a" ++ [34; 92; 10; 1; 233]%Z)). repeat constructor; done. Defined.

(** ** One line per diagnostic *)

Lemma newlines_zero_Forall s : newlines s = 0 <-> Forall (fun c => c <> newline) s.
Proof.
  induction s as [|c s IH]; simpl; [by split|]. rewrite Forall_cons, <- IH.
  destruct (Z.eqb_spec c newline); split; intros H; [lia|by destruct H|done|by destruct H].
Qed.

Lemma newlines_digits s : Forall (fun c => is_dec_digit c = true) s -> newlines s = 0.
Proof.
  intros H. apply newlines_zero_Forall. eapply Forall_impl; [exact H|].
  unfold is_dec_digit, newline. intros c Hc ->. done.
Qed.

Lemma newlines_dec_nat n : newlines (dec_nat n) = 0.
Proof. apply newlines_digits, dec_N_digits. Qed.

Lemma hex_digit_ge n : (0 <= n)%Z -> (48 <= hex_digit n)%Z.
Proof. unfold hex_digit. case_match; lia. Qed.

Lemma newlines_json_escape c : newlines (json_escape c) = 0.
Proof.
  unfold json_escape, backslash, newline. repeat case_match; try done; simpl.
  - unfold newline.
    repeat match goal with
    | |- context [hex_digit ?x] =>
        let H := fresh in
        assert (48 <= hex_digit x)%Z as H by (apply hex_digit_ge, Z.mod_pos_bound; lia);
        generalize dependent (hex_digit x); intros
    end.
    repeat case_match; lia.
  - unfold newline. case_match; lia.
Qed.

Lemma newlines_json_string s : newlines (json_string s) = 0.
Proof.
  unfold json_string. rewrite !newlines_app. simpl.
  induction s as [|c s IH]; [done|]. simpl. rewrite newlines_app, newlines_json_escape. lia.
Qed.

Lemma newlines_str_join sep ps :
  newlines sep = 0 -> Forall (fun p => newlines p = 0) ps -> newlines (str_join sep ps) = 0.
Proof.
  intros Hs. induction 1 as [|p ps Hp Hps IH]; [done|]. simpl.
  destruct ps; [done|]. by rewrite !newlines_app, Hp, Hs, IH.
Qed.

Lemma newlines_json_location m sp : newlines (json_location m sp) = 0.
Proof.
  unfold json_location. case_match; [|done].
  by rewrite !newlines_app, newlines_json_string, !newlines_dec_nat.
Qed.

Lemma newlines_json_note m msg sp : newlines (json_note m msg sp) = 0.
Proof. unfold json_note. by rewrite !newlines_app, newlines_json_string, newlines_json_location. Qed.

Lemma newlines_json_edit m e : newlines (json_edit m e) = 0.
Proof.
  unfold json_edit. rewrite !newlines_app, !newlines_dec_nat, newlines_json_string.
  case_match; by rewrite ?newlines_json_string.
Qed.

Lemma newlines_json_fix m i f : newlines (json_fix m i f) = 0.
Proof.
  unfold json_fix. rewrite !newlines_app, newlines_dec_nat, newlines_json_string.
  rewrite newlines_str_join; [done|done|].
  apply Forall_fmap, Forall_forall. intros e _. apply newlines_json_edit.
Qed.

Lemma newlines_json_object m d : newlines (json_object m d) = 0.
Proof.
  unfold json_object. rewrite !newlines_app, !newlines_json_string, newlines_json_location.
  rewrite !newlines_str_join; try done.
  - apply Forall_forall. intros p (i & f & -> & _)%elem_of_lookup_imap. apply newlines_json_fix.
  - apply Forall_app; split; apply Forall_fmap, Forall_forall; intros x _; unfold compose; apply newlines_json_note.
Qed.

(** [emit_json] writes one line per collected diagnostic, in sorted order:
    its output is the objects of the sorted diagnostics, each free of newlines
    and ended by one, so a consumer may split on newlines. *)
Theorem emit_json_lines r m :
  emit_json r m = concat (map (fun d => json_object m d ++ [newline]) (sorted r)) /\
  Forall (fun d => newlines (json_object m d) = 0) (sorted r) /\
  newlines (emit_json r m) = length (diagnostics r).
Proof.
  assert (E : emit_json r m = concat (map (fun d => json_object m d ++ [newline]) (sorted r))).
  { unfold emit_json, render_json.
    enough (forall out, foldl (fun o d => o ++ json_object m d ++ [newline]) out (sorted r) =
              out ++ concat (map (fun d => json_object m d ++ [newline]) (sorted r))) as H by apply (H []).
    induction (sorted r) as [|d l IH]; intros out; cbn [foldl map concat]; [by rewrite app_nil_r|].
    by rewrite IH, <- !app_assoc. }
  split; [done|]. split.
  - apply Forall_forall. intros; apply newlines_json_object.
  - rewrite E, <- (Permutation_length (stable_sort_perm diag_le (diagnostics r))).
    change (stable_sort diag_le (diagnostics r)) with (sorted r). clear E.
    induction (sorted r) as [|d l IH]; [done|]. cbn [map concat length].
    rewrite !newlines_app, newlines_json_object, IH. done.
Qed.

(** A diagnostic ranks at most [MAX_FIXES] repairs. *)
Lemma built_fixes d : Built d -> length (d_fixes d) <= MAX_FIXES.
Proof.
  induction 1; simpl; try done; [lia|]. unfold with_fix.
  destruct (Nat.ltb_spec (length (d_fixes d)) MAX_FIXES); simpl; [|done].
  rewrite length_app; simpl; lia.
Qed.
