(* ===== verification/Lex.v ===== *)
(** The lexer: [compiler/paco-syntax/src/lex.rs].

    The [Lexer] record is the struct of the source, threaded through one
    function per method.  [&self.source[self.offset..]] is a slice of the
    chars; every loop takes fuel, and the theorems show that the fuel given
    (the number of chars of the source) is enough and that every slice is
    taken on char boundaries, so that the panics of Rust's string slicing
    cannot happen. *)
From S2P Require Import Prelude Span Diag.

Inductive TokenKind :=
| Fn | Struct | Enum | Trait | Where | Methods | Use | Let | Mut | Const | Type_ | Module_ | Pub | As
| Extern | Unsafe | Spawn | Select | Yield | Iter | Comptime | Quote | Match_ | If_ | Else_ | While | For_
| In_ | Loop | Break | Continue | Return | True_ | False_
| Identifier | Lifetime | Integer | Float | String_ | Char
| Plus | Minus | Star | Slash | Percent | Equal | EqualEqual | Bang | BangEqual | Less | LessEqual
| Greater | GreaterEqual | AndAnd | OrOr | Arrow | Colon | ColonColon | Comma | Dot | DotDot | DotDotDot
| DotDotEqual | Semicolon | FatArrow | At | Ampersand | Pipe | Underscore
| LeftParen | RightParen | LeftBrace | RightBrace | LeftBracket | RightBracket
| Question | Hash | Caret | Tilde | Error_ | Eof.

#[export] Instance TokenKind_eq_dec : EqDecision TokenKind.
Proof. solve_decision. Defined.

Record Token := mkToken { kind : TokenKind; lexeme : str; tok_span : Span }.

Record Lexer := mkLexer {
  lx_source : str; lx_file : FileId; lx_reporter : Reporter; lx_tokens : list Token; lx_offset : nat }.

Definition is_ascii_digit (c : char) : bool := ((48 <=? c) && (c <=? 57))%Z.
Definition is_ascii_alphabetic (c : char) : bool :=
  (((65 <=? c) && (c <=? 90)) || ((97 <=? c) && (c <=? 122)))%Z.
Definition is_ascii_alphanumeric (c : char) : bool := is_ascii_digit c || is_ascii_alphabetic c.
(** Space, tab, line feed, form feed and carriage return. *)
Definition is_ascii_whitespace (c : char) : bool :=
  ((c =? 32) || (c =? 9) || (c =? 10) || (c =? 12) || (c =? 13))%Z.
Definition is_digit (radix : Z) (c : char) : bool :=
  (if is_ascii_digit c then c - 48 <? radix
   else if (97 <=? c) && (c <=? 122) then c - 87 <? radix
   else if (65 <=? c) && (c <=? 90) then c - 55 <? radix else false)%Z.

Definition is_identifier_start (c : char) : bool := is_ascii_alphabetic c || (c =? ch "_")%Z.
Definition is_identifier_continue (c : char) : bool := is_ascii_alphanumeric c || (c =? ch "_")%Z.

(** [&self.source[self.offset..]] *)
Definition rest (l : Lexer) : str := default [] (slice_from (lx_source l) (lx_offset l)).

Definition peek (l : Lexer) : option char := head (rest l).
Definition peek_next (l : Lexer) : option char := rest l !! 1.
Definition peek_at (l : Lexer) (ahead : nat) : option char := rest l !! ahead.
Definition is_at_end (l : Lexer) : bool := str_len (lx_source l) <=? lx_offset l.

Definition set_offset (l : Lexer) (off : nat) : Lexer :=
  mkLexer (lx_source l) (lx_file l) (lx_reporter l) (lx_tokens l) off.

Definition advance (l : Lexer) : option char * Lexer :=
  match peek l with
  | None => (None, l)
  | Some c => (Some c, set_offset l (lx_offset l + len_utf8 c))
  end.
Definition bump (l : Lexer) : Lexer := snd (advance l).

Definition match_char (l : Lexer) (expected : char) : bool * Lexer :=
  if decide (peek l = Some expected) then (true, bump l) else (false, l).

Definition push_token (l : Lexer) (t : Token) : Lexer :=
  mkLexer (lx_source l) (lx_file l) (lx_reporter l) (lx_tokens l ++ [t]) (lx_offset l).

Definition report (l : Lexer) (d : Diagnostic) : Lexer :=
  mkLexer (lx_source l) (lx_file l) (Reporter_push (lx_reporter l) d) (lx_tokens l) (lx_offset l).

(** [&self.source[start..self.offset]] *)
Definition text_from (l : Lexer) (start : nat) : str := default [] (slice (lx_source l) start (lx_offset l)).

Definition push (l : Lexer) (k : TokenKind) (start : nat) : Lexer :=
  push_token l (mkToken k (text_from l start) (mkSpan (lx_file l) start (lx_offset l))).

(** [while matches!(self.peek(), Some(ch) if p(ch)) { self.advance(); }] *)
Fixpoint advance_while (p : char -> bool) (fuel : nat) (l : Lexer) : Lexer :=
  match fuel with
  | 0 => l
  | S n =>
      match peek l with
      | Some c => if p c then advance_while p n (bump l) else l
      | None => l
      end
  end.

Definition fuel (l : Lexer) : nat := length (lx_source l).

Definition skip_line_comment (l : Lexer) : Lexer :=
  advance_while (fun c => negb (c =? newline)%Z) (fuel l) l.

(** The loop of [skip_block_comment]: whether the comment was closed. *)
Fixpoint block_comment_loop (fuel : nat) (l : Lexer) : bool * Lexer :=
  match fuel with
  | 0 => (false, l)
  | S n =>
      if is_at_end l then (false, l)
      else if decide (peek l = Some (ch "*") /\ peek_next l = Some (ch "/")) then (true, bump (bump l))
      else block_comment_loop n (bump l)
  end.

Definition skip_block_comment (l : Lexer) (start : nat) : Lexer :=
  let '(closed, l) := block_comment_loop (S (fuel l)) l in
  if closed then l
  else report l (Diagnostic_error (chars "PACO-E0102") (mkSpan (lx_file l) start (lx_offset l))
                   (chars "unterminated block comment")).

(** The loop of [string]: it stops before the closing quote. *)
Fixpoint string_loop (fuel : nat) (escaped : bool) (l : Lexer) : Lexer :=
  match fuel with
  | 0 => l
  | S n =>
      match peek l with
      | None => l
      | Some c =>
          if escaped then string_loop n false (bump l)
          else if (c =? 92)%Z then string_loop n true (bump l)
          else if (c =? 34)%Z then l
          else string_loop n false (bump l)
      end
  end.

Definition string_literal (l : Lexer) (start : nat) : Lexer :=
  let l := string_loop (fuel l) false l in
  if is_at_end l then
    let sp := mkSpan (lx_file l) start (lx_offset l) in
    report (push_token l (mkToken Error_ (text_from l start) sp))
      (Diagnostic_error (chars "PACO-E0101") sp (chars "unterminated string"))
  else push (bump l) String_ start.

Definition ends_with (s : str) (c : char) : bool := bool_decide (last s = Some c).

Definition check_no_trailing_separator (l : Lexer) (start : nat) : Lexer :=
  if ends_with (text_from l start) (ch "_")
  then report l (Diagnostic_error (chars "PACO-E0104") (mkSpan (lx_file l) (lx_offset l - 1) (lx_offset l))
                   (chars "a numeric literal can't end with a `_` separator"))
  else l.

Definition invalid_digit (c : char) (radix : Z) : str :=
  chars "`" ++ [c] ++ chars "` is not a valid base-" ++ dec_N (Z.to_N radix) ++ chars " digit".

Definition is_number_char (c : char) : bool := is_ascii_digit c || (c =? ch "_")%Z.
Definition is_prefixed_char (c : char) : bool := is_ascii_alphanumeric c || (c =? ch "_")%Z.

(** The digit loop of [prefixed_digits]. *)
Fixpoint prefixed_loop (radix : Z) (fuel : nat) (l : Lexer) : Lexer :=
  match fuel with
  | 0 => l
  | S n =>
      match peek l with
      | Some c =>
          if is_prefixed_char c then
            let l := bump l in
            let l := if negb (c =? ch "_")%Z && negb (is_digit radix c)
                     then report l (Diagnostic_error (chars "PACO-E0103")
                            (mkSpan (lx_file l) (lx_offset l - len_utf8 c) (lx_offset l)) (invalid_digit c radix))
                     else l in
            prefixed_loop radix n l
          else l
      | None => l
      end
  end.

Definition prefixed_digits (l : Lexer) (start : nat) (radix : Z) : Lexer :=
  let digits_start := lx_offset l in
  let l := if decide (peek l = Some (ch "_"))
           then report l (Diagnostic_error (chars "PACO-E0104") (mkSpan (lx_file l) (lx_offset l) (lx_offset l + 1))
                            (chars "a numeric literal can't start with a `_` separator"))
           else l in
  let l := prefixed_loop radix (fuel l) l in
  let l := if lx_offset l =? digits_start
           then report l (Diagnostic_error (chars "PACO-E0103") (mkSpan (lx_file l) start (lx_offset l))
                  (chars "expected at least one base-" ++ dec_N (Z.to_N radix) ++ chars " digit"))
           else l in
  push (check_no_trailing_separator l start) Integer start.

Definition radix_of_prefix (c : option char) : option Z :=
  match c with
  | Some c =>
      if (c =? ch "x")%Z || (c =? ch "X")%Z then Some 16%Z
      else if (c =? ch "o")%Z || (c =? ch "O")%Z then Some 8%Z
      else if (c =? ch "b")%Z || (c =? ch "B")%Z then Some 2%Z
      else None
  | None => None
  end.

(** The byte at [start] is the ASCII digit zero. *)
Definition starts_with_zero (l : Lexer) (start : nat) : bool :=
  bool_decide (head (default [] (slice_from (lx_source l) start)) = Some (ch "0")).

Definition decimal_number (l : Lexer) (start : nat) : Lexer :=
  let l := advance_while is_number_char (fuel l) l in
  let l := check_no_trailing_separator l start in
  if bool_decide (peek l = Some (ch ".")) && match peek_next l with Some c => is_ascii_digit c | None => false end
  then
    let l := bump l in
    let l := advance_while is_number_char (fuel l) l in
    push (check_no_trailing_separator l start) Float start
  else push l Integer start.

Definition number (l : Lexer) (start : nat) : Lexer :=
  if starts_with_zero l start then
    match radix_of_prefix (peek l) with
    | Some radix => prefixed_digits (bump l) start radix
    | None => decimal_number l start
    end
  else decimal_number l start.

(** The [match lexeme] of [identifier]. *)
Definition keywords : list (str * TokenKind) :=
  [(chars "fn", Fn); (chars "struct", Struct); (chars "enum", Enum); (chars "trait", Trait);
   (chars "where", Where); (chars "methods", Methods); (chars "use", Use); (chars "module", Module_);
   (chars "pub", Pub); (chars "as", As); (chars "extern", Extern); (chars "unsafe", Unsafe);
   (chars "comptime", Comptime); (chars "quote", Quote); (chars "spawn", Spawn); (chars "select", Select);
   (chars "yield", Yield); (chars "iter", Iter); (chars "let", Let); (chars "mut", Mut);
   (chars "const", Const); (chars "type", Type_); (chars "match", Match_); (chars "if", If_);
   (chars "else", Else_); (chars "while", While); (chars "for", For_); (chars "in", In_);
   (chars "loop", Loop); (chars "break", Break); (chars "continue", Continue); (chars "return", Return);
   (chars "true", True_); (chars "false", False_); (chars "_", Underscore)].

Definition keyword_kind (text : str) : TokenKind :=
  match List.find (fun p => bool_decide (fst p = text)) keywords with
  | Some (_, k) => k
  | None => Identifier
  end.

Definition identifier (l : Lexer) (start : nat) : Lexer :=
  let l := advance_while is_identifier_continue (fuel l) l in
  push l (keyword_kind (text_from l start)) start.

Definition lifetime (l : Lexer) (start : nat) : Lexer :=
  push (advance_while is_identifier_continue (fuel l) l) Lifetime start.

Definition looks_like_char_literal (l : Lexer) : bool :=
  match peek l with
  | None => false
  | Some c =>
      if (c =? 92)%Z then bool_decide (peek_at l 2 = Some 39%Z)
      else if (c =? 39)%Z then false
      else bool_decide (peek_next l = Some 39%Z)
  end.

Definition char_literal (l : Lexer) (start : nat) : Lexer :=
  let l := if decide (peek l = Some 92%Z) then bump l else l in
  let l := bump l in
  let l := if decide (peek l = Some 39%Z) then bump l else l in
  push l Char start.

(** An operator of one char, or of two when [second] follows. *)
Definition one_or_two (l : Lexer) (start : nat) (second : char) (two one : TokenKind) : Lexer :=
  let '(m, l) := match_char l second in push l (if m then two else one) start.

Definition single_char_token (c : char) : option TokenKind :=
  (if c =? ch "(" then Some LeftParen else if c =? ch ")" then Some RightParen
   else if c =? ch "{" then Some LeftBrace else if c =? ch "}" then Some RightBrace
   else if c =? ch "[" then Some LeftBracket else if c =? ch "]" then Some RightBracket
   else if c =? ch "," then Some Comma else if c =? ch ";" then Some Semicolon
   else if c =? ch "+" then Some Plus else if c =? ch "*" then Some Star
   else if c =? ch "%" then Some Percent else if c =? ch "@" then Some At
   else if c =? ch "?" then Some Question else if c =? ch "#" then Some Hash
   else if c =? ch "^" then Some Caret else if c =? ch "~" then Some Tilde else None)%Z.

Definition dots (l : Lexer) (start : nat) : Lexer :=
  let '(m1, l1) := match_char l (ch ".") in
  if m1 then
    let '(m2, l2) := match_char l1 (ch "=") in
    if m2 then push l2 DotDotEqual start
    else
      let '(m3, l3) := match_char l1 (ch ".") in
      push l3 (if m3 then DotDotDot else DotDot) start
  else push l1 Dot start.

Definition equals (l : Lexer) (start : nat) : Lexer :=
  let '(m1, l1) := match_char l (ch "=") in
  if m1 then push l1 EqualEqual start
  else one_or_two l start (ch ">") FatArrow Equal.

Definition slash (l : Lexer) (start : nat) : Lexer :=
  let '(m1, l1) := match_char l (ch "/") in
  if m1 then skip_line_comment l1
  else
    let '(m2, l2) := match_char l (ch "*") in
    if m2 then skip_block_comment l2 start else push l Slash start.

Definition invalid_character (l : Lexer) (start : nat) (c : char) : Lexer :=
  let sp := mkSpan (lx_file l) start (lx_offset l) in
  report (push_token l (mkToken Error_ (text_from l start) sp))
    (Diagnostic_error (chars "PACO-E0100") sp (chars "invalid character `" ++ [c] ++ chars "`")).

(** The arms from the quote on: literals, lifetimes, words and the rest. *)
Definition scan_other (l : Lexer) (start : nat) (c : char) : Lexer :=
  if (c =? 34)%Z then string_literal l start
  else if (c =? 39)%Z && looks_like_char_literal l then char_literal l start
  else if (c =? 39)%Z && match peek l with Some d => is_identifier_start d | None => false end then lifetime l start
  else if is_ascii_whitespace c then l
  else if is_ascii_digit c then number l start
  else if is_identifier_start c then identifier l start
  else invalid_character l start c.

Definition scan_char (l : Lexer) (start : nat) (c : char) : Lexer :=
  match single_char_token c with
  | Some k => push l k start
  | None =>
      if (c =? ch ".")%Z then dots l start
      else if (c =? ch ":")%Z then one_or_two l start (ch ":") ColonColon Colon
      else if (c =? ch "-")%Z then one_or_two l start (ch ">") Arrow Minus
      else if (c =? ch "!")%Z then one_or_two l start (ch "=") BangEqual Bang
      else if (c =? ch "=")%Z then equals l start
      else if (c =? ch "<")%Z then one_or_two l start (ch "=") LessEqual Less
      else if (c =? ch ">")%Z then one_or_two l start (ch "=") GreaterEqual Greater
      else if (c =? ch "&")%Z then one_or_two l start (ch "&") AndAnd Ampersand
      else if (c =? ch "|")%Z then one_or_two l start (ch "|") OrOr Pipe
      else if (c =? ch "/")%Z then slash l start
      else scan_other l start c
  end.

Definition scan_token (l : Lexer) : Lexer :=
  let start := lx_offset l in
  match advance l with
  | (None, l) => l
  | (Some c, l) => scan_char l start c
  end.

(** [while !self.is_at_end() { self.scan_token(); }] *)
Fixpoint run_loop (fuel : nat) (l : Lexer) : Lexer :=
  match fuel with
  | 0 => l
  | S n => if is_at_end l then l else run_loop n (scan_token l)
  end.

Definition run (l : Lexer) : Lexer :=
  let l := run_loop (fuel l) l in
  push_token l (mkToken Eof [] (mkSpan (lx_file l) (lx_offset l) (lx_offset l))).

Definition lex (source : str) (file : FileId) (reporter : Reporter) : list Token * Reporter :=
  let l := run (mkLexer source file reporter [] 0) in
  (lx_tokens l, lx_reporter l).

(** ** Movement of the lexer

    [moved l l' taken ds toks]: between the two states the chars [taken] were
    consumed, the diagnostics [ds] reported and the tokens [toks] pushed.
    [good] states stand on a char boundary. *)

Definition good (l : Lexer) : Prop :=
  exists pre, lx_source l = pre ++ rest l /\ lx_offset l = str_len pre.

Record moved (l l' : Lexer) (taken : str) (ds : list Diagnostic) (toks : list Token) : Prop := {
  mv_source : lx_source l' = lx_source l;
  mv_file : lx_file l' = lx_file l;
  mv_offset : lx_offset l' = lx_offset l + str_len taken;
  mv_rest : rest l = taken ++ rest l';
  mv_diags : diagnostics (lx_reporter l') = diagnostics (lx_reporter l) ++ ds;
  mv_tokens : lx_tokens l' = lx_tokens l ++ toks
}.

Lemma good_start source file r : good (mkLexer source file r [] 0).
Proof. exists []. unfold rest; simpl. by destruct source. Qed.

Lemma moved_refl l : moved l l [] [] [].
Proof. split; simpl; rewrite ?app_nil_r; try done; lia. Qed.

Lemma moved_trans l1 l2 l3 t1 t2 d1 d2 k1 k2 :
  moved l1 l2 t1 d1 k1 -> moved l2 l3 t2 d2 k2 -> moved l1 l3 (t1 ++ t2) (d1 ++ d2) (k1 ++ k2).
Proof.
  intros [A1 A2 A3 A4 A5 A6] [B1 B2 B3 B4 B5 B6].
  split; rewrite ?str_len_app; [congruence|congruence|lia|..].
  - by rewrite A4, B4, app_assoc.
  - by rewrite B5, A5, app_assoc.
  - by rewrite B6, A6, app_assoc.
Qed.

Lemma good_moved l l' taken ds toks : good l -> moved l l' taken ds toks -> good l'.
Proof.
  intros (pre & Hs & Ho) [A1 A2 A3 A4 _ _]. exists (pre ++ taken).
  rewrite str_len_app, <- app_assoc. split; [congruence|lia].
Qed.

(** Jumping over a known prefix of the rest. *)
Lemma rest_jump l taken t :
  good l -> rest l = taken ++ t -> rest (set_offset l (lx_offset l + str_len taken)) = t.
Proof.
  intros (pre & Hs & Ho) Hr. unfold rest; simpl. rewrite Hs, Ho, Hr, <- str_len_app, app_assoc.
  by rewrite slice_from_app.
Qed.

Lemma moved_bump l c t : good l -> rest l = c :: t -> moved l (bump l) [c] [] [] /\ rest (bump l) = t.
Proof.
  intros Hg Hr. unfold bump, advance, peek. rewrite Hr; simpl.
  assert (R : rest (set_offset l (lx_offset l + len_utf8 c)) = t).
  { rewrite <- (rest_jump l [c] t Hg Hr). simpl. by rewrite Nat.add_0_r. }
  split; [|done]. split; simpl; rewrite ?app_nil_r, ?R; try done. lia.
Qed.

Lemma bump_at_end l : rest l = [] -> bump l = l.
Proof. unfold bump, advance, peek. by intros ->. Qed.

Lemma text_from_moved l l' taken ds toks :
  good l -> moved l l' taken ds toks -> text_from l' (lx_offset l) = taken.
Proof.
  intros (pre & Hs & Ho) [M1 M2 M3 M4 M5 M6]. unfold text_from.
  rewrite M1, M3, Hs, Ho, M4, slice_app. done.
Qed.

Definition token_at (l : Lexer) (k : TokenKind) (taken : str) : Token :=
  mkToken k taken (mkSpan (lx_file l) (lx_offset l) (lx_offset l + str_len taken)).

Lemma moved_push l l' taken ds k :
  good l -> moved l l' taken ds [] ->
  moved l (push l' k (lx_offset l)) taken ds [token_at l k taken].
Proof.
  intros Hg M. pose proof (text_from_moved _ _ _ _ _ Hg M) as Ht. destruct M as [M1 M2 M3 M4 M5 M6].
  split; simpl; try done.
  rewrite app_nil_r in M6. unfold token_at. by rewrite M6, M2, M3, Ht.
Qed.

Lemma moved_report l l' taken ds toks d :
  moved l l' taken ds toks -> moved l (report l' d) taken (ds ++ [d]) toks.
Proof. intros []. split; simpl; try done. by rewrite app_assoc, <- mv_diags0. Qed.

Lemma good_rest_length l : good l -> length (rest l) <= fuel l.
Proof. intros (pre & Hs & _). unfold fuel. rewrite Hs, length_app. lia. Qed.

Lemma is_at_end_rest l : good l -> is_at_end l = true <-> rest l = [].
Proof.
  intros (pre & Hs & Ho). unfold is_at_end. rewrite Hs, Ho, str_len_app, Nat.leb_le. split.
  - intros. apply str_len_nil_inv. lia.
  - intros ->. simpl. lia.
Qed.

Lemma peek_rest l : peek l = head (rest l).
Proof. done. Qed.

(** The next char, if any, does not satisfy [p]. *)
Definition stops (p : char -> bool) (t : str) : Prop :=
  match t with c :: _ => p c = false | [] => True end.

Lemma advance_while_spec p n l :
  good l -> length (rest l) <= n ->
  exists taken, moved l (advance_while p n l) taken [] [] /\
    Forall (fun c => p c = true) taken /\ stops p (rest (advance_while p n l)).
Proof.
  revert l; induction n as [|n IH]; intros l Hg Hn; simpl.
  - exists []. split; [apply moved_refl|]. split; [constructor|]. destruct (rest l); simpl in *; [done|lia].
  - unfold peek. destruct (rest l) as [|c t] eqn:Hr; simpl.
    + exists []. split; [apply moved_refl|]. by rewrite Hr.
    + destruct (p c) eqn:Hp; cycle 1.
      { exists []. split; [apply moved_refl|]. rewrite Hr. done. }
      destruct (moved_bump l c t Hg Hr) as [M Hr'].
      destruct (IH (bump l)) as (taken & M' & HF & HS); [by eapply good_moved|rewrite Hr'; simpl in Hn; lia|].
      exists (c :: taken). split; [apply (moved_trans _ _ _ _ _ _ _ _ _ M M')|]. by split; [constructor|].
Qed.

Lemma fuel_moved l l' taken ds toks : moved l l' taken ds toks -> fuel l' = fuel l.
Proof. intros []. unfold fuel. by rewrite mv_source0. Qed.

(** [match_char] consumes the expected char exactly when it is next. *)
Lemma match_char_spec l c :
  good l ->
  (exists t, rest l = c :: t /\ match_char l c = (true, bump l) /\ moved l (bump l) [c] [] [] /\ rest (bump l) = t) \/
  (head (rest l) <> Some c /\ match_char l c = (false, l)).
Proof.
  intros Hg. unfold match_char. rewrite peek_rest. case_decide as H; [left|right; done].
  destruct (rest l) as [|d t] eqn:Hr; [done|]. injection H as ->.
  exists t. split; [done|]. split; [done|]. by apply moved_bump.
Qed.

(** ** The lexical grammar, declaratively

    [LexStep k text follow clean]: at a place where [text ++ follow] remains,
    the next piece is [text], a token of kind [k] or, for [None], white space
    or a comment.  [clean] says that the piece is free of lexical errors.  The
    side conditions on [follow] are maximal munch. *)

(** Reading a string body: whether an escape is pending, [None] at a quote. *)
Fixpoint string_state (escaped : bool) (s : str) : option bool :=
  match s with
  | [] => Some escaped
  | c :: s' =>
      if escaped then string_state false s'
      else if (c =? 92)%Z then string_state true s'
      else if (c =? 34)%Z then None else string_state false s'
  end.

(** The text contains the end of a block comment. *)
Fixpoint has_close (s : str) : bool :=
  match s with
  | [] => false
  | a :: s' => ((a =? ch "*")%Z && bool_decide (head s' = Some (ch "/"))) || has_close s'
  end.

Definition operators : list (char * char * TokenKind * TokenKind) :=
  [(ch ":", ch ":", ColonColon, Colon); (ch "-", ch ">", Arrow, Minus); (ch "!", ch "=", BangEqual, Bang);
   (ch "<", ch "=", LessEqual, Less); (ch ">", ch "=", GreaterEqual, Greater);
   (ch "&", ch "&", AndAnd, Ampersand); (ch "|", ch "|", OrOr, Pipe)].

Definition valid_prefixed (radix : Z) (w : str) : bool :=
  forallb (fun c => (c =? ch "_")%Z || is_digit radix c) w && negb (bool_decide (w = [])) &&
  negb (bool_decide (head w = Some (ch "_"))) && negb (ends_with w (ch "_")).

Definition is_special (c : char) : bool :=
  existsb (Z.eqb c) [ch "."; ch ":"; ch "-"; ch "!"; ch "="; ch "<"; ch ">"; ch "&"; ch "|"; ch "/"; 34%Z].

Definition fraction_follows (t : str) : bool :=
  match t with a :: d :: _ => (a =? ch ".")%Z && is_ascii_digit d | _ => false end.

Inductive LexStep : option TokenKind -> str -> str -> bool -> Prop :=
| ls_space c t : is_ascii_whitespace c = true -> LexStep None [c] t true
| ls_line body t :
    Forall (fun c => c <> newline) body -> stops (fun c => negb (c =? newline)%Z) t ->
    LexStep None (chars "//" ++ body) t true
| ls_block body t :
    has_close (body ++ [ch "*"]) = false -> LexStep None (chars "/*" ++ body ++ chars "*/") t true
| ls_open_block body : has_close body = false -> LexStep None (chars "/*" ++ body) [] false
| ls_single c k t : single_char_token c = Some k -> LexStep (Some k) [c] t true
| ls_two a b two one t : (a, b, two, one) ∈ operators -> LexStep (Some two) [a; b] t true
| ls_one a b two one t : (a, b, two, one) ∈ operators -> head t <> Some b -> LexStep (Some one) [a] t true
| ls_eq_eq t : LexStep (Some EqualEqual) (chars "==") t true
| ls_fat_arrow t : LexStep (Some FatArrow) (chars "=>") t true
| ls_equal t : head t <> Some (ch "=") -> head t <> Some (ch ">") -> LexStep (Some Equal) (chars "=") t true
| ls_slash t : head t <> Some (ch "/") -> head t <> Some (ch "*") -> LexStep (Some Slash) (chars "/") t true
| ls_dot t : head t <> Some (ch ".") -> LexStep (Some Dot) (chars ".") t true
| ls_dotdot t : head t <> Some (ch "=") -> head t <> Some (ch ".") -> LexStep (Some DotDot) (chars "..") t true
| ls_dotdoteq t : LexStep (Some DotDotEqual) (chars "..=") t true
| ls_dotdotdot t : LexStep (Some DotDotDot) (chars "...") t true
| ls_string body t :
    string_state false body = Some false -> LexStep (Some String_) (34%Z :: body ++ [34%Z]) t true
| ls_open_string body e : string_state false body = Some e -> LexStep (Some Error_) (34%Z :: body) [] false
| ls_char_escape x t : LexStep (Some Char) [39; 92; x; 39]%Z t true
| ls_char x t : x <> 92%Z -> x <> 39%Z -> LexStep (Some Char) [39; x; 39]%Z t true
| ls_lifetime d w t :
    is_identifier_start d = true -> Forall (fun c => is_identifier_continue c = true) w ->
    stops is_identifier_continue t -> head (w ++ t) <> Some 39%Z ->
    LexStep (Some Lifetime) (39%Z :: d :: w) t true
| ls_word c w t :
    is_identifier_start c = true -> Forall (fun c => is_identifier_continue c = true) w ->
    stops is_identifier_continue t -> LexStep (Some (keyword_kind (c :: w))) (c :: w) t true
| ls_integer c w t :
    is_ascii_digit c = true -> Forall (fun c => is_number_char c = true) w -> stops is_number_char t ->
    fraction_follows t = false -> (c = ch "0" -> radix_of_prefix (head (w ++ t)) = None) ->
    LexStep (Some Integer) (c :: w) t (negb (ends_with (c :: w) (ch "_")))
| ls_float c w d f t :
    is_ascii_digit c = true -> Forall (fun c => is_number_char c = true) w ->
    is_ascii_digit d = true -> Forall (fun c => is_number_char c = true) f -> stops is_number_char t ->
    (c = ch "0" -> radix_of_prefix (head (w ++ chars ".")) = None) ->
    LexStep (Some Float) (c :: w ++ chars "." ++ d :: f) t
      (negb (ends_with (c :: w) (ch "_")) && negb (ends_with (d :: f) (ch "_")))
| ls_prefixed x radix w t :
    radix_of_prefix (Some x) = Some radix -> Forall (fun c => is_prefixed_char c = true) w ->
    stops is_prefixed_char t -> LexStep (Some Integer) (ch "0" :: x :: w) t (valid_prefixed radix w)
| ls_invalid c t :
    single_char_token c = None -> is_special c = false -> is_ascii_whitespace c = false ->
    is_ascii_digit c = false -> is_identifier_start c = false -> LexStep (Some Error_) [c] t false.

(** A diagnostic of severity error inside the bytes [a..b] of a file. *)
Definition diag_in (f : FileId) (a b : nat) (d : Diagnostic) : Prop :=
  d_severity d = Error /\ file_id (label_span (d_primary d)) = f /\
  a <= start (label_span (d_primary d)) <= end_ (label_span (d_primary d)) /\
  end_ (label_span (d_primary d)) <= b.

(** One round of the main loop, against the grammar. *)
Definition step_ok (l l' : Lexer) : Prop :=
  exists k taken clean ds,
    LexStep k taken (rest l') clean /\ taken <> [] /\
    moved l l' taken ds (match k with Some k => [token_at l k taken] | None => [] end) /\
    (clean = true <-> ds = []) /\ Forall (diag_in (lx_file l) (lx_offset l) (lx_offset l')) ds.

Lemma step_ok_clean l l' k taken :
  good l -> moved l l' taken [] (match k with Some k => [token_at l k taken] | None => [] end) ->
  taken <> [] -> LexStep k taken (rest l') true -> step_ok l l'.
Proof. intros. exists k, taken, true, []. do 3 (split; [done|]). split; [done|constructor]. Qed.

(** One error, on the whole of the text taken. *)
Lemma step_ok_error l l' k taken code message :
  moved l l' taken [] (match k with Some k => [token_at l k taken] | None => [] end) ->
  taken <> [] -> LexStep k taken (rest l') false ->
  step_ok l (report l' (Diagnostic_error code (mkSpan (lx_file l') (lx_offset l) (lx_offset l')) message)).
Proof.
  intros M Hn S. exists k, taken, false. eexists. split; [done|]. split; [done|].
  split; [by apply moved_report|]. split; [done|].
  constructor; [|constructor]. destruct M as [M1 M2 M3 M4 M5 M6]. split; [done|]. split; [done|]. simpl in *. lia.
Qed.

Lemma rest_push l k s : rest (push l k s) = rest l.
Proof. done. Qed.

Lemma diag_in_weaken f a b a' b' d : diag_in f a b d -> a' <= a -> b <= b' -> diag_in f a' b' d.
Proof. unfold diag_in. intros (? & ? & ? & ?) ? ?. split_and!; done || lia. Qed.

Lemma Forall_diag_weaken f a b a' b' ds :
  Forall (diag_in f a b) ds -> a' <= a -> b <= b' -> Forall (diag_in f a' b') ds.
Proof. intros H ? ?. eapply Forall_impl; [exact H|]. intros d Hd. by eapply diag_in_weaken. Qed.

Lemma stops_nil p taken t d t' :
  taken ++ t = d :: t' -> p d = true -> stops p t -> exists w, taken = d :: w.
Proof. destruct taken as [|x w]; simpl; [intros -> Hp Hs; simpl in Hs; congruence|]. intros [= -> _] _ _. by exists w. Qed.

(** ** The loops *)

Lemma block_comment_loop_spec n l :
  good l -> length (rest l) < n ->
  exists body l', 
    (block_comment_loop n l = (true, l') /\ moved l l' (body ++ chars "*/") [] [] /\ has_close (body ++ [ch "*"]) = false) \/
    (block_comment_loop n l = (false, l') /\ moved l l' body [] [] /\ rest l' = [] /\ has_close body = false).
Proof.
  revert l; induction n as [|n IH]; intros l Hg Hn; [lia|]. simpl.
  destruct (is_at_end l) eqn:Hend.
  { exists [], l. right. split; [done|]. split; [apply moved_refl|]. split; [|done]. by apply is_at_end_rest. }
  destruct (rest l) as [|c t] eqn:Hr.
  { rewrite (proj2 (is_at_end_rest l Hg) Hr) in Hend. done. }
  destruct (moved_bump l c t Hg Hr) as [M R]. assert (G : good (bump l)) by (by eapply good_moved).
  unfold peek, peek_next. rewrite Hr. case_decide as Hc.
  - destruct Hc as [Hc1 Hc2]. simpl in Hc1, Hc2. injection Hc1 as ->. destruct t as [|d t]; [done|]. injection Hc2 as ->.
    destruct (moved_bump (bump l) (ch "/") t G R) as [M2 _].
    exists [], (bump (bump l)). left. split; [done|]. split; [|done]. apply (moved_trans _ _ _ _ _ _ _ _ _ M M2).
  - destruct (IH (bump l) G) as (body & l' & H); [rewrite R; simpl in Hn; lia|].
    assert (Hh : forall s, head s = head t -> ((c =? ch "*")%Z && bool_decide (head s = Some (ch "/"))) = false).
    { intros s Hs. destruct (Z.eqb_spec c (ch "*")) as [->|]; [|done]. simpl. apply bool_decide_eq_false.
      intros E. apply Hc. split; [done|]. rewrite Hs in E. by destruct t. }
    exists (c :: body), l'. destruct H as [(E & M2 & Hcl)|(E & M2 & Hre & Hcl)]; [left|right].
    + split; [done|]. split; [apply (moved_trans _ _ _ _ _ _ _ _ _ M M2)|]. simpl. rewrite Hcl, Hh; [done|].
      pose proof (mv_rest _ _ _ _ _ M2) as Hb. rewrite R in Hb. rewrite Hb. by destruct body.
    + split; [done|]. split; [apply (moved_trans _ _ _ _ _ _ _ _ _ M M2)|]. split; [done|]. simpl. rewrite Hcl, Hh; [done|].
      pose proof (mv_rest _ _ _ _ _ M2) as Hb. rewrite R, Hre, app_nil_r in Hb. by rewrite Hb.
Qed.

Lemma string_loop_spec n e l :
  good l -> length (rest l) <= n ->
  exists body e', moved l (string_loop n e l) body [] [] /\ string_state e body = Some e' /\
    (rest (string_loop n e l) = [] \/ (e' = false /\ head (rest (string_loop n e l)) = Some 34%Z)).
Proof.
  revert l e; induction n as [|n IH]; intros l e Hg Hn; simpl.
  { exists [], e. split; [apply moved_refl|]. split; [done|]. left. destruct (rest l); simpl in Hn; [done|lia]. }
  unfold peek. destruct (rest l) as [|c t] eqn:Hr; simpl.
  { exists [], e. split; [apply moved_refl|]. by auto. }
  destruct (moved_bump l c t Hg Hr) as [M R]. assert (G : good (bump l)) by (by eapply good_moved).
  assert (Hgo : forall e1, (if e then e1 = false else if (c =? 92)%Z then e1 = true else c <> 34%Z /\ e1 = false) ->
     exists body e', moved l (string_loop n e1 (bump l)) body [] [] /\ string_state e body = Some e' /\
      (rest (string_loop n e1 (bump l)) = [] \/ (e' = false /\ head (rest (string_loop n e1 (bump l))) = Some 34%Z))).
  { intros e1 He1. destruct (IH (bump l) e1 G) as (body & e' & M2 & S2 & H2); [rewrite R; simpl in Hn; lia|].
    exists (c :: body), e'. split; [apply (moved_trans _ _ _ _ _ _ _ _ _ M M2)|]. split; [|done]. simpl.
    destruct e; [by subst|]. destruct (c =? 92)%Z; [by subst|].
    destruct He1 as [He1 ->]. by rewrite (proj2 (Z.eqb_neq c 34) He1). }
  destruct e; [by apply Hgo|]. destruct (c =? 92)%Z eqn:E92; [by apply Hgo|].
  destruct (Z.eqb_spec c 34) as [->|]; [|by apply Hgo].
  exists [], false. split; [apply moved_refl|]. split; [done|]. right. by rewrite Hr.
Qed.

(** A token pushed after a clean movement. *)
Lemma step_ok_push l l' k taken :
  good l -> moved l l' taken [] [] -> taken <> [] -> LexStep (Some k) taken (rest l') true ->
  step_ok l (push l' k (lx_offset l)).
Proof.
  intros Hg M Hn S. apply (step_ok_clean _ _ (Some k) taken); try done. by apply moved_push.
Qed.

Section Scan.
Context (l0 : Lexer) (c : char) (t : str) (Hg : good l0) (Hr : rest l0 = c :: t).
Local Abbreviation l := (bump l0).
Local Abbreviation start0 := (lx_offset l0).

Lemma M0 : moved l0 l [c] [] [].
Proof. by destruct (moved_bump l0 c t Hg Hr). Qed.
Lemma R0 : rest l = t.
Proof. by destruct (moved_bump l0 c t Hg Hr). Qed.
Lemma G0 : good l.
Proof. eapply good_moved; [exact Hg|apply M0]. Qed.

Lemma step_single k : single_char_token c = Some k -> step_ok l0 (push l k start0).
Proof. intros H. eapply step_ok_push; [done|apply M0|done|]. by constructor. Qed.

(** The char [d] after [c]: either it is consumed, or it is not next. *)
Lemma match_second d :
  (exists t', t = d :: t' /\ match_char l d = (true, bump l) /\ moved l0 (bump l) [c; d] [] [] /\ rest (bump l) = t') \/
  (head t <> Some d /\ match_char l d = (false, l)).
Proof.
  destruct (match_char_spec l d G0) as [(t' & E & H & M & R)|[E H]]; rewrite R0 in E.
  - left. exists t'. split; [done|]. split; [done|]. split; [|done]. apply (moved_trans _ _ _ _ _ _ _ _ _ M0 M).
  - by right.
Qed.

Lemma step_one_or_two d two one :
  (c, d, two, one) ∈ operators -> step_ok l0 (one_or_two l start0 d two one).
Proof.
  intros Hin. unfold one_or_two. destruct (match_second d) as [(t' & E & -> & M & R)|[E ->]].
  - eapply step_ok_push; [done|exact M|done|]. by eapply ls_two.
  - eapply step_ok_push; [done|apply M0|done|]. eapply ls_one; [done|]. by rewrite R0.
Qed.

Lemma step_equals : c = ch "=" -> step_ok l0 (equals l start0).
Proof.
  intros Hc. unfold equals, one_or_two. destruct (match_second (ch "=")) as [(t' & E & -> & M & R)|[E ->]].
  { eapply step_ok_push; [done|exact M|done|]. rewrite Hc. apply ls_eq_eq. }
  destruct (match_second (ch ">")) as [(t' & E2 & -> & M & R)|[E2 ->]].
  - eapply step_ok_push; [done|exact M|done|]. rewrite Hc. apply ls_fat_arrow.
  - eapply step_ok_push; [done|apply M0|done|]. rewrite Hc. apply ls_equal; by rewrite R0.
Qed.

Lemma step_dots : c = ch "." -> step_ok l0 (dots l start0).
Proof.
  intros Hc. unfold dots. destruct (match_second (ch ".")) as [(t' & E & -> & M & R)|[E ->]].
  2:{ eapply step_ok_push; [done|apply M0|done|]. rewrite Hc. apply ls_dot. by rewrite R0. }
  assert (G1 : good (bump l)) by (eapply good_moved; [exact Hg|exact M]).
  destruct (match_char_spec (bump l) (ch "=") G1) as [(t2 & E2 & -> & M2 & R2)|[E2 ->]].
  { eapply step_ok_push; [done|apply (moved_trans _ _ _ _ _ _ _ _ _ M M2)|done|]. rewrite Hc. apply ls_dotdoteq. }
  destruct (match_char_spec (bump l) (ch ".") G1) as [(t2 & E3 & -> & M2 & R2)|[E3 ->]].
  - eapply step_ok_push; [done|apply (moved_trans _ _ _ _ _ _ _ _ _ M M2)|done|]. rewrite Hc. apply ls_dotdotdot.
  - eapply step_ok_push; [done|exact M|done|]. rewrite Hc. by apply ls_dotdot.
Qed.

Lemma step_slash : c = ch "/" -> step_ok l0 (slash l start0).
Proof.
  intros Hc. unfold slash. destruct (match_second (ch "/")) as [(t' & E & -> & M & R)|[E ->]].
  { assert (G1 : good (bump l)) by (eapply good_moved; [exact Hg|exact M]).
    destruct (advance_while_spec (fun c => negb (c =? newline)%Z) _ _ G1 (good_rest_length _ G1)) as (w & M2 & HF & HS).
    eapply (step_ok_clean _ _ None); [done|apply (moved_trans _ _ _ _ _ _ _ _ _ M M2)|done|].
    rewrite Hc. apply (ls_line w); [|done]. eapply Forall_impl; [exact HF|].
    intros x Hx%negb_true_iff%Z.eqb_neq. done. }
  destruct (match_second (ch "*")) as [(t' & E2 & -> & M & R)|[E2 ->]].
  2:{ eapply step_ok_push; [done|apply M0|done|]. rewrite Hc. apply ls_slash; by rewrite R0. }
  assert (G1 : good (bump l)) by (eapply good_moved; [exact Hg|exact M]).
  unfold skip_block_comment.
  destruct (block_comment_loop_spec (S (fuel (bump l))) (bump l) G1) as (body & l' & [(-> & M2 & Hcl)|(-> & M2 & Hre & Hcl)]).
  { pose proof (good_rest_length _ G1). lia. }
  - eapply (step_ok_clean _ _ None); [done|apply (moved_trans _ _ _ _ _ _ _ _ _ M M2)|done|].
    rewrite Hc. by apply (ls_block body).
  - pose proof (moved_trans _ _ _ _ _ _ _ _ _ M M2) as M3.
    apply (step_ok_error _ _ None _ _ _ M3); [done|]. rewrite Hre, Hc. by apply ls_open_block.
Qed.

Lemma step_string : c = 34%Z -> step_ok l0 (string_literal l start0).
Proof.
  intros Hc. unfold string_literal.
  destruct (string_loop_spec (fuel l) false l G0 (good_rest_length _ G0)) as (body & e & M & S & H).
  pose proof (moved_trans _ _ _ _ _ _ _ _ _ M0 M) as M3.
  assert (G1 : good (string_loop (fuel l) false l)) by (by eapply good_moved; [apply G0|]).
  destruct (is_at_end _) eqn:Hend.
  - apply is_at_end_rest in Hend; [|done].
    apply (moved_push _ _ _ _ Error_ Hg) in M3.
    apply (step_ok_error _ _ (Some Error_) _ _ _ M3); [done|].
    rewrite rest_push, Hend, Hc. by eapply ls_open_string.
  - destruct H as [H|[-> H]]; [by rewrite (proj2 (is_at_end_rest _ G1) H) in Hend|].
    destruct (rest (string_loop (fuel l) false l)) as [|q t'] eqn:Hr'; [done|]. injection H as ->.
    destruct (moved_bump _ _ _ G1 Hr') as [M4 _].
    eapply step_ok_push; [done|apply (moved_trans _ _ _ _ _ _ _ _ _ M3 M4)|by destruct body|].
    rewrite Hc. by apply (ls_string body).
Qed.

Lemma step_invalid :
  single_char_token c = None -> is_special c = false -> is_ascii_whitespace c = false ->
  is_ascii_digit c = false -> is_identifier_start c = false -> step_ok l0 (invalid_character l start0 c).
Proof.
  intros H1 H2 H3 H4 H5. unfold invalid_character.
  apply (step_ok_error _ _ (Some Error_) _ _ _ (moved_push _ _ _ _ Error_ Hg M0)); [done|]. by apply ls_invalid.
Qed.

Lemma step_char_literal : c = 39%Z -> looks_like_char_literal l = true -> step_ok l0 (char_literal l start0).
Proof.
  intros Hc H. unfold looks_like_char_literal, peek, peek_next, peek_at in H. rewrite R0 in H.
  unfold char_literal. cbv zeta. rewrite (peek_rest l), R0.
  pose proof R0 as R0'. pose proof M0 as M0'. pose proof G0 as G0'.
  destruct t as [|x t1]; [done|]. simpl in H.
  destruct (moved_bump l x t1 G0' R0') as [M1 R1].
  pose proof (moved_trans _ _ _ _ _ _ _ _ _ M0' M1) as M01.
  assert (G1 : good (bump l)) by (by eapply good_moved).
  simpl head. destruct (x =? 92)%Z eqn:E.
  - apply Z.eqb_eq in E as ->. rewrite (decide_True (P := Some 92%Z = Some 92%Z)) by done. apply bool_decide_eq_true in H.
    destruct t1 as [|y [|q t2]]; try done. injection H as ->.
    destruct (moved_bump _ _ _ G1 R1) as [M2 R2].
    pose proof (moved_trans _ _ _ _ _ _ _ _ _ M01 M2) as M02.
    assert (G2 : good (bump (bump l))) by (by eapply good_moved).
    rewrite (peek_rest (bump (bump l))), R2. simpl head. rewrite (decide_True (P := Some 39%Z = Some 39%Z)) by done.
    destruct (moved_bump _ _ _ G2 R2) as [M3 R3].
    eapply step_ok_push; [done|apply (moved_trans _ _ _ _ _ _ _ _ _ M02 M3)|done|].
    rewrite Hc. apply ls_char_escape.
  - destruct (x =? 39)%Z eqn:E2; [done|]. apply Z.eqb_neq in E, E2. apply bool_decide_eq_true in H.
    rewrite (decide_False (P := Some x = Some 92%Z)) by congruence.
    destruct t1 as [|q t2]; [done|]. injection H as ->.
    rewrite (peek_rest (bump l)), R1. simpl head. rewrite (decide_True (P := Some 39%Z = Some 39%Z)) by done.
    destruct (moved_bump _ _ _ G1 R1) as [M2 R2].
    eapply step_ok_push; [done|apply (moved_trans _ _ _ _ _ _ _ _ _ M01 M2)|done|].
    rewrite Hc. by apply ls_char.
Qed.

Lemma step_word : is_identifier_start c = true -> step_ok l0 (identifier l start0).
Proof.
  intros Hc. unfold identifier.
  destruct (advance_while_spec is_identifier_continue _ _ G0 (good_rest_length _ G0)) as (w & M & HF & HS).
  pose proof (moved_trans _ _ _ _ _ _ _ _ _ M0 M) as M2.
  rewrite (text_from_moved _ _ _ _ _ Hg M2).
  eapply step_ok_push; [done|exact M2|done|]. by apply ls_word.
Qed.

Lemma step_lifetime d :
  c = 39%Z -> looks_like_char_literal l = false -> peek l = Some d -> is_identifier_start d = true ->
  step_ok l0 (lifetime l start0).
Proof.
  intros Hc Hl Hp Hd. unfold lifetime.
  destruct (advance_while_spec is_identifier_continue _ _ G0 (good_rest_length _ G0)) as (w & M & HF & HS).
  pose proof (moved_trans _ _ _ _ _ _ _ _ _ M0 M) as M2. pose proof (mv_rest _ _ _ _ _ M) as Hw. rewrite R0 in Hw.
  unfold looks_like_char_literal in Hl. rewrite Hp in Hl. unfold peek, peek_next in Hp, Hl. rewrite R0, Hw in Hp.
  rewrite R0, Hw in Hl.
  assert (Hd' : is_identifier_continue d = true).
  { revert Hd. unfold is_identifier_start, is_identifier_continue, is_ascii_alphanumeric. by destruct (is_ascii_digit d), (is_ascii_alphabetic d). }
  destruct (w ++ rest (advance_while is_identifier_continue (fuel l) l)) as [|d' t'] eqn:E; [done|]. injection Hp as ->.
  destruct (stops_nil _ _ _ _ _ E Hd' HS) as (w' & ->). injection E as E.
  eapply step_ok_push; [done|exact M2|done|]. rewrite Hc. inversion HF. apply ls_lifetime; try done.
  rewrite E. intros Hq. destruct t'; [done|]. injection Hq as ->. simpl in Hl.
  destruct (d =? 92)%Z eqn:E1; [apply Z.eqb_eq in E1 as ->; done|].
  destruct (d =? 39)%Z eqn:E2; [apply Z.eqb_eq in E2 as ->; done|]. done.
Qed.
End Scan.

(** ** Numbers *)

Lemma ends_with_app_cons s d t c : ends_with (s ++ d :: t) c = ends_with (d :: t) c.
Proof. unfold ends_with. by rewrite last_app_cons. Qed.

Lemma ends_with_len s c : ends_with s c = true -> len_utf8 c <= str_len s.
Proof.
  unfold ends_with. intros H%bool_decide_eq_true%last_Some. destruct H as [s' ->].
  str_lia.
Qed.

(** [check_no_trailing_separator] adds at most one diagnostic, on the last char. *)
Lemma check_separator_spec l0 l taken ds :
  good l0 -> moved l0 l taken ds [] ->
  exists ds', moved l0 (check_no_trailing_separator l (lx_offset l0)) taken (ds ++ ds') [] /\
    rest (check_no_trailing_separator l (lx_offset l0)) = rest l /\
    (negb (ends_with taken (ch "_")) = true <-> ds' = []) /\
    Forall (diag_in (lx_file l0) (lx_offset l0) (lx_offset l)) ds'.
Proof.
  intros Hg M. unfold check_no_trailing_separator. rewrite (text_from_moved _ _ _ _ _ Hg M).
  destruct (ends_with taken (ch "_")) eqn:E; simpl.
  - eexists. split; [by apply moved_report|]. split; [done|]. split; [done|].
    constructor; [|constructor]. apply ends_with_len in E. destruct M as [M1 M2 M3 M4 M5 M6].
    split; [done|]. split; [done|]. simpl in *. assert (len_utf8 (ch "_") = 1) by done. lia.
  - exists []. rewrite app_nil_r. by split; [|split].
Qed.

Lemma prefixed_loop_spec radix n l :
  good l -> length (rest l) <= n ->
  exists w ds, moved l (prefixed_loop radix n l) w ds [] /\
    Forall (fun c => is_prefixed_char c = true) w /\ stops is_prefixed_char (rest (prefixed_loop radix n l)) /\
    (forallb (fun c => (c =? ch "_")%Z || is_digit radix c) w = true <-> ds = []) /\
    Forall (diag_in (lx_file l) (lx_offset l) (lx_offset (prefixed_loop radix n l))) ds.
Proof.
  revert l; induction n as [|n IH]; intros l Hg Hn; simpl.
  { exists [], []. split; [apply moved_refl|]. split; [done|]. split; [|done].
    destruct (rest l); simpl in Hn; [done|lia]. }
  unfold peek. destruct (rest l) as [|c t] eqn:Hr; simpl.
  { exists [], []. split; [apply moved_refl|]. split; [done|]. by rewrite Hr. }
  destruct (is_prefixed_char c) eqn:Hp; cycle 1.
  { exists [], []. split; [apply moved_refl|]. split; [done|]. by rewrite Hr. }
  destruct (moved_bump l c t Hg Hr) as [M R].
  set (bad := negb (c =? ch "_")%Z && negb (is_digit radix c)).
  set (d := Diagnostic_error _ _ _).
  assert (M1 : moved l (if bad then report (bump l) d else bump l) [c] (if bad then [d] else []) []).
  { destruct bad; [|done]. by apply (moved_report _ _ _ [] []). }
  assert (R1 : rest (if bad then report (bump l) d else bump l) = t) by (by destruct bad).
  destruct (IH (if bad then report (bump l) d else bump l)) as (w & ds & M2 & HF & HS & Hv & Hd);
    [by eapply good_moved|rewrite R1; simpl in Hn; lia|].
  exists (c :: w), ((if bad then [d] else []) ++ ds).
  split; [apply (moved_trans _ _ _ _ _ _ _ _ _ M1 M2)|]. split; [by constructor|]. split; [done|].
  pose proof (mv_offset _ _ _ _ _ M1) as O1. pose proof (mv_offset _ _ _ _ _ M2) as O2.
  pose proof (mv_file _ _ _ _ _ M1) as F1. rewrite F1 in Hd. simpl in O1. split.
  - simpl. unfold bad. destruct (c =? ch "_")%Z, (is_digit radix c); simpl; try done.
  - apply Forall_app. split; [|eapply Forall_diag_weaken; [exact Hd|lia|done]].
    destruct bad; [|done]. constructor; [|constructor].
    pose proof (mv_offset _ _ _ _ _ M) as O0. pose proof (mv_file _ _ _ _ _ M) as F0. simpl in O0.
    split; [done|]. split; [done|]. simpl in *. lia.
Qed.

Lemma is_digit_number c : is_ascii_digit c = true -> is_number_char c = true.
Proof. unfold is_number_char. by intros ->. Qed.

Lemma iff_app_nil (a b : bool) {A} (x y : list A) :
  (a = true <-> x = []) -> (b = true <-> y = []) -> (a && b = true <-> x ++ y = []).
Proof. intros Ha Hb. rewrite andb_true_iff, app_nil, Ha, Hb. done. Qed.

Section Number.
Context (l0 : Lexer) (c : char) (t : str) (Hg : good l0) (Hr : rest l0 = c :: t) (Hc : is_ascii_digit c = true).
Local Abbreviation l := (bump l0).
Local Abbreviation start0 := (lx_offset l0).

Lemma step_decimal : (c = ch "0" -> radix_of_prefix (head t) = None) -> step_ok l0 (decimal_number l start0).
Proof.
  intros Hz. unfold decimal_number.
  pose proof (M0 l0 c t Hg Hr) as MM. pose proof (G0 l0 c t Hg Hr) as GG. pose proof (R0 l0 c t Hg Hr) as RR.
  destruct (advance_while_spec is_number_char _ _ GG (good_rest_length _ GG)) as (w & M1 & HF & HS).
  set (l1 := advance_while is_number_char (fuel l) l) in *.
  pose proof (moved_trans _ _ _ _ _ _ _ _ _ MM M1) as M2. simpl in M2.
  pose proof (mv_rest _ _ _ _ _ M1) as Hw. rewrite RR in Hw.
  destruct (check_separator_spec _ _ _ _ Hg M2) as (ds & M3 & R3 & Hv & Hd). simpl in M3.
  set (l2 := check_no_trailing_separator l1 start0) in *.
  assert (G2 : good l2) by (exact (good_moved _ _ _ _ _ Hg M3)).
  unfold peek, peek_next. rewrite R3.
  destruct (fraction_follows (rest l1)) eqn:Ef.
  - destruct (rest l1) as [|p [|d t']] eqn:Hr1; try done. simpl in Ef.
    apply andb_true_iff in Ef as [Ep Ed]. apply Z.eqb_eq in Ep as ->.
    simpl. rewrite Ed. simpl. 
    destruct (moved_bump l2 (ch ".") (d :: t') G2 R3) as [M4 R4].
    assert (G4 : good (bump l2)) by (exact (good_moved _ _ _ _ _ G2 M4)).
    destruct (advance_while_spec is_number_char _ _ G4 (good_rest_length _ G4)) as (f & M5 & HF5 & HS5).
    pose proof (mv_rest _ _ _ _ _ M5) as Hf. rewrite R4 in Hf.
    destruct (stops_nil _ _ _ _ _ (eq_sym Hf) (is_digit_number _ Ed) HS5) as (f' & ->).
    pose proof (moved_trans _ _ _ _ _ _ _ _ _ M3 (moved_trans _ _ _ _ _ _ _ _ _ M4 M5)) as M6.
    simpl in M6. rewrite app_nil_r in M6.
    destruct (check_separator_spec _ _ _ _ Hg M6) as (ds2 & M7 & R7 & Hv2 & Hd2).
    exists (Some Float), (c :: w ++ chars "." ++ d :: f').
    exists (negb (ends_with (c :: w) (ch "_")) && negb (ends_with (d :: f') (ch "_"))), (ds ++ ds2).
    split; [|split; [done|]].
    { rewrite rest_push, R7. inversion HF5; subst. apply ls_float; try done.
      intros Hc0. rewrite <- Hz by done. rewrite Hw. by destruct w. }
    split; [by apply moved_push|]. split.
    + apply iff_app_nil; [done|].
      change (c :: w ++ ch "." :: d :: f') with ((c :: w) ++ [ch "."] ++ d :: f') in Hv2.
      rewrite app_assoc, ends_with_app_cons in Hv2. done.
    + pose proof (mv_offset _ _ _ _ _ M2) as O2. pose proof (mv_offset _ _ _ _ _ M6) as O6.
      pose proof (mv_offset _ _ _ _ _ M7) as O7. simpl in O2, O6, O7.
      apply Forall_app. split; (eapply Forall_diag_weaken; [eassumption|lia|]).
      * change (lx_offset (push ?x _ _)) with (lx_offset x). rewrite O7, O2. str_lia.
      * change (lx_offset (push ?x _ _)) with (lx_offset x). rewrite O7, O6. lia.
  - replace (_ && _) with false.
    2:{ symmetry. destruct (rest l1) as [|p [|d t']]; simpl in *; try done.
        - by rewrite andb_false_r.
        - destruct (is_ascii_digit d); [|by rewrite andb_false_r]. rewrite andb_true_r in *.
          apply bool_decide_eq_false. intros [= ->]. done. }
    exists (Some Integer), (c :: w), (negb (ends_with (c :: w) (ch "_"))), ds.
    split; [|split; [done|]].
    { rewrite rest_push, R3. apply ls_integer; try done. intros Hc0. rewrite <- Hw. auto. }
    split; [by apply moved_push|]. split; [done|].
    eapply Forall_diag_weaken; [exact Hd|lia|].
    change (lx_offset (push ?x _ _)) with (lx_offset x).
    rewrite (mv_offset _ _ _ _ _ M3), (mv_offset _ _ _ _ _ M2). done.
Qed.

Lemma starts_with_zero_spec : starts_with_zero l start0 = bool_decide (c = ch "0").
Proof.
  unfold starts_with_zero. rewrite (mv_source _ _ _ _ _ (M0 l0 c t Hg Hr)).
  change (default [] (slice_from (lx_source l0) start0)) with (rest l0). rewrite Hr. simpl.
  apply bool_decide_ext. naive_solver.
Qed.

Lemma prefix_head_underscore w t' :
  stops is_prefixed_char t' -> bool_decide (head (w ++ t') = Some (ch "_")) = bool_decide (head w = Some (ch "_")).
Proof.
  intros HS. apply bool_decide_ext. destruct w; [|done]. simpl.
  split; [|done]. destruct t'; [done|]. intros [= ->]. done.
Qed.

Lemma step_prefixed x t1 radix :
  c = ch "0" -> t = x :: t1 -> radix_of_prefix (Some x) = Some radix ->
  step_ok l0 (prefixed_digits (bump l) start0 radix).
Proof.
  intros Hc0 Ht Hx. unfold prefixed_digits.
  pose proof (M0 l0 c t Hg Hr) as MM. pose proof (G0 l0 c t Hg Hr) as GG. pose proof (R0 l0 c t Hg Hr) as RR.
  rewrite Ht in RR. destruct (moved_bump l x t1 GG RR) as [M1 R1].
  pose proof (moved_trans _ _ _ _ _ _ _ _ _ MM M1) as M2. simpl in M2.
  pose proof (good_moved _ _ _ _ _ Hg M2) as G1.
  rewrite (peek_rest (bump l)), R1.
  set (d1 := Diagnostic_error (chars "PACO-E0104") (mkSpan (lx_file (bump l)) (lx_offset (bump l)) (lx_offset (bump l) + 1)) _).
  set (l2 := if decide (head t1 = Some (ch "_")) then report (bump l) d1 else bump l).
  set (ds1 := if decide (head t1 = Some (ch "_")) then [d1] else []).
  assert (M3 : moved l0 l2 [c; x] ds1 []).
  { unfold l2, ds1. case_decide; [|done]. by apply (moved_report _ _ _ [] []). }
  assert (R3 : rest l2 = t1) by (unfold l2; by case_decide).
  pose proof (good_moved _ _ _ _ _ Hg M3) as G3.
  destruct (prefixed_loop_spec radix _ _ G3 (good_rest_length _ G3)) as (w & ds2 & M4 & HF & HS & Hv2 & Hd2).
  set (l3 := prefixed_loop radix (fuel l2) l2) in *.
  pose proof (mv_rest _ _ _ _ _ M4) as Hw. rewrite R3 in Hw.
  pose proof (mv_offset _ _ _ _ _ M3) as O3. pose proof (mv_offset _ _ _ _ _ M4) as O4.
  pose proof (mv_offset _ _ _ _ _ M2) as O2. simpl in O2, O3.
  assert (Hoff : (lx_offset l3 =? lx_offset (bump l)) = bool_decide (w = [])).
  { apply eq_bool_prop_intro. rewrite bool_decide_spec, Is_true_true, Nat.eqb_eq. split.
    - intros. apply str_len_nil_inv. lia.
    - intros ->. simpl in O4. lia. }
  rewrite Hoff. set (d3 := Diagnostic_error (chars "PACO-E0103") (mkSpan (lx_file l3) _ _) _).
  set (l4 := if bool_decide (w = []) then report l3 d3 else l3).
  set (ds3 := if bool_decide (w = []) then [d3] else []).
  pose proof (moved_trans _ _ _ _ _ _ _ _ _ M3 M4) as M34. simpl in M34.
  assert (M5 : moved l0 l4 (c :: x :: w) ((ds1 ++ ds2) ++ ds3) []).
  { unfold l4, ds3. case_bool_decide; [by apply moved_report|by rewrite app_nil_r]. }
  destruct (check_separator_spec _ _ _ _ Hg M5) as (ds4 & M6 & R6 & Hv4 & Hd4).
  assert (R5 : rest l4 = rest l3) by (unfold l4; by case_bool_decide).
  assert (O5 : lx_offset l4 = lx_offset l3) by (unfold l4; by case_bool_decide).
  exists (Some Integer), (c :: x :: w), (valid_prefixed radix w), (((ds1 ++ ds2) ++ ds3) ++ ds4).
  split; [|split; [done|]].
  { rewrite rest_push, R6, R5, Hc0. by apply ls_prefixed. }
  split; [by apply moved_push|]. split.
  - assert (Hend : ends_with (c :: x :: w) (ch "_") = ends_with w (ch "_")).
    { destruct w as [|y w']; [|apply (ends_with_app_cons [c; x])]. unfold ends_with. simpl.
      apply bool_decide_eq_false. intros [= E]. by rewrite E in Hx. }
    unfold valid_prefixed. rewrite <- Hend.
    rewrite (andb_comm (forallb _ _ && _)), andb_assoc.
    apply iff_app_nil; [apply iff_app_nil; [apply iff_app_nil|]|]; try done.
    + rewrite <- (prefix_head_underscore _ _ HS), <- Hw. unfold ds1.
      rewrite negb_true_iff, bool_decide_eq_false. by case_decide.
    + unfold ds3. by case_bool_decide.
  - change (lx_offset (push ?a _ _)) with (lx_offset a).
    pose proof (mv_offset _ _ _ _ _ M6) as O6. pose proof (mv_offset _ _ _ _ _ M5) as O5'.
    assert (OF : lx_offset l3 = lx_offset (check_no_trailing_separator l4 start0)) by (simpl in *; lia).
    pose proof (len_utf8_pos c). pose proof (len_utf8_pos x).
    pose proof (mv_file _ _ _ _ _ M3) as F3. pose proof (mv_file _ _ _ _ _ M4) as F4. pose proof (mv_file _ _ _ _ _ M2) as F2.
    rewrite <- OF. rewrite F3 in Hd2. repeat (apply Forall_app; split).
    + unfold ds1. case_decide as Hh; [|done]. constructor; [|constructor].
      rewrite Hw in Hh. assert (1 <= str_len w).
      { destruct w as [|y w']; [|simpl; pose proof (len_utf8_pos y); lia]. simpl in Hh.
        destruct (rest l3); [done|]. injection Hh as ->. done. }
      split; [done|]. split; [done|]. simpl in *. lia.
    + eapply Forall_diag_weaken; [exact Hd2|lia|lia].
    + unfold ds3. case_bool_decide; [|done]. constructor; [|constructor].
      split; [done|]. split; [simpl; congruence|]. simpl in *. lia.
    + eapply Forall_diag_weaken; [exact Hd4|lia|lia].
Qed.

Lemma step_number : step_ok l0 (number l start0).
Proof.
  unfold number. rewrite starts_with_zero_spec, (peek_rest l), (R0 l0 c t Hg Hr).
  case_bool_decide as Hc0; [|by apply step_decimal].
  destruct (radix_of_prefix (head t)) as [radix|] eqn:E; [|by apply step_decimal].
  assert (Ht : exists x t1, t = x :: t1 /\ radix_of_prefix (Some x) = Some radix).
  { clear - E. destruct t; [done|]. eauto. }
  destruct Ht as (x & t1 & Ht & Hx). by eapply step_prefixed.
Qed.
End Number.

(** ** One round of the main loop *)

Lemma bump_scan l c t : good l -> rest l = c :: t -> scan_token l = scan_char (bump l) (lx_offset l) c.
Proof. intros Hg Hr. unfold scan_token, bump, advance, peek. by rewrite Hr. Qed.

Lemma step_other l0 c t :
  good l0 -> rest l0 = c :: t -> single_char_token c = None ->
  existsb (Z.eqb c) [ch "."; ch ":"; ch "-"; ch "!"; ch "="; ch "<"; ch ">"; ch "&"; ch "|"; ch "/"] = false ->
  step_ok l0 (scan_other (bump l0) (lx_offset l0) c).
Proof.
  intros Hg Hr H1 H2. unfold scan_other.
  destruct (c =? 34)%Z eqn:E34; [apply Z.eqb_eq in E34; by eapply step_string|].
  destruct ((c =? 39)%Z && looks_like_char_literal (bump l0)) eqn:Ec.
  { apply andb_true_iff in Ec as [Ec%Z.eqb_eq El]. by eapply step_char_literal. }
  destruct ((c =? 39)%Z && _) eqn:El at 1.
  { apply andb_true_iff in El as [El1 El2]. rewrite El1 in Ec. apply Z.eqb_eq in El1.
    destruct (peek (bump l0)) as [d|] eqn:Hp; [|done]. by eapply step_lifetime. }
  destruct (is_ascii_whitespace c) eqn:Ew.
  { eapply (step_ok_clean _ _ None [c]); [done|by eapply M0|done|]. by apply ls_space. }
  destruct (is_ascii_digit c) eqn:Ed; [by eapply step_number|].
  destruct (is_identifier_start c) eqn:Ei; [by eapply step_word|].
  eapply step_invalid; try done. unfold is_special. simpl in H2 |- *.
  rewrite !orb_false_iff in H2. destruct_and?.
  repeat match goal with H : (c =? _)%Z = false |- _ => rewrite H; clear H end. done.
Qed.

Lemma scan_token_step l c t : good l -> rest l = c :: t -> step_ok l (scan_token l).
Proof.
  intros Hg Hr. rewrite (bump_scan l c t Hg Hr). unfold scan_char.
  destruct (single_char_token c) eqn:Hs; [by eapply step_single|].
  assert (Hop : forall d two one, (c, d, two, one) ∈ operators ->
                  step_ok l (one_or_two (bump l) (lx_offset l) d two one)) by (intros; by eapply step_one_or_two).
  repeat match goal with
  | |- context [if (c =? ?d)%Z then _ else _] =>
      let E := fresh "E" in destruct (Z.eqb_spec c d) as [E|E];
      [first [by eapply step_dots | by eapply step_equals | by eapply step_slash
             | apply Hop; rewrite E; unfold operators; set_solver]|]
  end.
  eapply step_other; try done. simpl.
  repeat match goal with H : c <> _ |- _ => rewrite (proj2 (Z.eqb_neq _ _) H); clear H end. done.
Qed.

(** ** The whole text *)

Definition pushed (f : FileId) (off : nat) (k : option TokenKind) (text : str) : list Token :=
  match k with Some k => [mkToken k text (mkSpan f off (off + str_len text))] | None => [] end.

(** [Lexed f off text toks clean]: from byte [off] of the file, [text] splits
    into pieces of the grammar whose tokens are [toks]. *)
Inductive Lexed (f : FileId) : nat -> str -> list Token -> bool -> Prop :=
| lexed_nil off : Lexed f off [] [] true
| lexed_step off k text follow clean toks clean' :
    LexStep k text follow clean -> text <> [] ->
    Lexed f (off + str_len text) follow toks clean' ->
    Lexed f off (text ++ follow) (pushed f off k text ++ toks) (clean && clean').

Lemma run_loop_spec n l :
  good l -> length (rest l) <= n ->
  exists toks ds clean,
    moved l (run_loop n l) (rest l) ds toks /\ Lexed (lx_file l) (lx_offset l) (rest l) toks clean /\
    (clean = true <-> ds = []) /\
    Forall (diag_in (lx_file l) (lx_offset l) (lx_offset l + str_len (rest l))) ds.
Proof.
  revert l; induction n as [|n IH]; intros l Hg Hn; simpl.
  - destruct (rest l) eqn:Hr; [|simpl in Hn; lia].
    exists [], [], true. split; [apply moved_refl|]. split; [constructor|]. done.
  - destruct (rest l) as [|c t] eqn:Hr.
    { rewrite (proj2 (is_at_end_rest l Hg) Hr). exists [], [], true.
      split; [apply moved_refl|]. split; [constructor|]. done. }
    destruct (is_at_end l) eqn:He.
    { apply (is_at_end_rest l Hg) in He. congruence. }
    destruct (scan_token_step l c t Hg Hr) as (k & text & clean & ds & S & Hne & M & Hc & Hd).
    pose proof (mv_rest _ _ _ _ _ M) as Ht. pose proof (mv_file _ _ _ _ _ M) as Hf.
    pose proof (mv_offset _ _ _ _ _ M) as Ho.
    destruct (IH (scan_token l)) as (toks & ds2 & clean2 & M2 & L2 & Hc2 & Hd2); [by eapply good_moved| |].
    { rewrite Hr in Ht. assert (length (c :: t) = length text + length (rest (scan_token l))) by (by rewrite Ht, length_app).
      destruct text; [done|]. simpl in *. lia. }
    rewrite <- Hr, Ht, str_len_app. rewrite Hf, Ho in *.
    exists (pushed (lx_file l) (lx_offset l) k text ++ toks), (ds ++ ds2), (clean && clean2).
    split; [apply (moved_trans _ _ _ _ _ _ _ _ _ M M2)|]. split; [by constructor|].
    split; [by apply iff_app_nil|].
    apply Forall_app. split; (eapply Forall_diag_weaken; [eassumption|lia|lia]).
Qed.

Definition eof_token (source : str) (file : FileId) : Token :=
  mkToken Eof [] (mkSpan file (str_len source) (str_len source)).

Lemma lex_grammar_aux source file reporter :
  exists toks ds clean,
    lex source file reporter =
      (toks ++ [eof_token source file], mkReporter (diagnostics reporter ++ ds)) /\
    Lexed file 0 source toks clean /\ (clean = true <-> ds = []) /\
    Forall (diag_in file 0 (str_len source)) ds.
Proof.
  set (l := mkLexer source file reporter [] 0).
  assert (Hg : good l) by apply good_start.
  assert (Hr : rest l = source) by (unfold rest, l; simpl; by destruct source).
  destruct (run_loop_spec (fuel l) l Hg (good_rest_length _ Hg)) as (toks & ds & clean & M & L & Hc & Hd).
  rewrite Hr in *. exists toks, ds, clean. split; [|done].
  destruct M as [M1 M2 M3 M4 M5 M6]. unfold lex, run. fold l. simpl.
  rewrite M2, M3, M6. unfold eof_token. f_equal.
  destruct (lx_reporter (run_loop (fuel l) l)); simpl in *. by rewrite M5.
Qed.

(** C1: the lexer is total and does what the rules [LexStep] say, which describe
    each kind of token by the texts it is made of: for every text it consumes
    all of it, splitting it into the tokens, white space and comments of the
    rules with maximal munch, each token carrying its exact text and byte span,
    and ends with one [Eof] at the end of the text.  It reports nothing exactly
    when every piece is free of lexical errors, and every diagnostic it adds is
    an error inside the text.  The rules are those of the code: where
    [docs/grammar/tokens.md] says otherwise ([&mut], [<<], [>>], compound
    assignment, exponents, [self], [default], [dyn]) they follow the code, as
    [tokens_md_differs] shows. *)
Theorem lex_implements_grammar source file reporter :
  exists toks ds clean,
    lex source file reporter =
      (toks ++ [eof_token source file], mkReporter (diagnostics reporter ++ ds)) /\
    Lexed file 0 source toks clean /\ (clean = true <-> ds = []) /\
    Forall (diag_in file 0 (str_len source)) ds.
Proof. apply lex_grammar_aux. Qed.

(** ** Consequences *)

Lemma Lexed_slices f off text toks clean :
  Lexed f off text toks clean -> forall pre, off = str_len pre ->
  Forall (fun t => slice (pre ++ text) (start (tok_span t)) (end_ (tok_span t)) = Some (lexeme t) /\
            off <= start (tok_span t) < end_ (tok_span t) /\ end_ (tok_span t) <= off + str_len text /\
            file_id (tok_span t) = f) toks.
Proof.
  induction 1 as [off|off k text follow clean toks clean' S Hne L IH]; intros pre ->; [constructor|].
  specialize (IH (pre ++ text)). rewrite str_len_app in IH. specialize (IH eq_refl).
  rewrite <- app_assoc in IH. rewrite str_len_app. apply Forall_app. split.
  - destruct k as [k|]; [|constructor]. repeat constructor; simpl; try lia.
    + apply slice_app.
    + destruct text as [|c text]; [done|]. simpl. pose proof (len_utf8_pos c). lia.
  - eapply Forall_impl; [exact IH|]. simpl. intros t (H1 & H2 & H3 & H4). split; [done|]. split; [lia|]. split; [lia|done].
Qed.

Lemma Lexed_sorted f off text toks clean :
  Lexed f off text toks clean ->
  StronglySorted (fun a b => end_ (tok_span a) <= start (tok_span b)) toks /\
  Forall (fun t => off <= start (tok_span t)) toks.
Proof.
  induction 1 as [off|off k text follow clean toks clean' S Hne L [IH1 IH2]]; [by repeat constructor|].
  destruct k as [k|]; simpl.
  - split; constructor; simpl; try done; try lia.
    eapply Forall_impl; [exact IH2|]. simpl. intros; lia.
  - split; [done|]. eapply Forall_impl; [exact IH2|]. simpl. intros; lia.
Qed.

(** every token's text is the slice of the source its span names, spans
    are in bounds and nonempty, and they appear in source order without
    overlap; so no slice the lexer takes can be off a char boundary. *)
Theorem lex_spans source file reporter :
  exists toks, fst (lex source file reporter) = toks ++ [eof_token source file] /\
    Forall (fun t => slice source (start (tok_span t)) (end_ (tok_span t)) = Some (lexeme t) /\
              start (tok_span t) < end_ (tok_span t) <= str_len source /\ file_id (tok_span t) = file) toks /\
    StronglySorted (fun a b => end_ (tok_span a) <= start (tok_span b)) toks.
Proof.
  destruct (lex_grammar_aux source file reporter) as (toks & ds & clean & E & L & _ & _).
  exists toks. rewrite E. split; [done|]. split.
  - eapply Forall_impl; [apply (Lexed_slices _ _ _ _ _ L []); done|]. simpl. intros t (H1 & H2 & H3 & H4). split; [done|]. split; [lia|done].
  - by eapply Lexed_sorted.
Qed.

Lemma keyword_kind_not_error s : keyword_kind s <> Error_ /\ keyword_kind s <> Eof.
Proof.
  unfold keyword_kind. destruct (List.find _ keywords) as [[a k]|] eqn:E; [|done].
  apply find_some in E as [Hin _]. assert (H : Forall (fun p : str * TokenKind => snd p <> Error_ /\ snd p <> Eof) keywords).
  { repeat constructor; done. }
  rewrite Forall_forall in H. apply (H (a, k)). by apply list_elem_of_In.
Qed.

Lemma single_char_not_error c k : single_char_token c = Some k -> k <> Error_ /\ k <> Eof.
Proof. unfold single_char_token. intros H. repeat case_match; simplify_eq; done. Qed.

Lemma operators_not_error a b two one :
  (a, b, two, one) ∈ operators -> (two <> Error_ /\ two <> Eof) /\ (one <> Error_ /\ one <> Eof).
Proof.
  intros H. assert (HF : Forall (fun p : char * char * TokenKind * TokenKind =>
    (p.1.2 <> Error_ /\ p.1.2 <> Eof) /\ (p.2 <> Error_ /\ p.2 <> Eof)) operators) by (repeat constructor; done).
  rewrite Forall_forall in HF. apply (HF _ H).
Qed.

Lemma LexStep_error k text t clean : LexStep (Some k) text t clean -> k <> Eof /\ (k = Error_ -> clean = false).
Proof.
  inversion 1; subst; try (split; done).
  - match goal with H : single_char_token _ = _ |- _ => apply single_char_not_error in H end. naive_solver.
  - match goal with H : _ ∈ operators |- _ => apply operators_not_error in H end. naive_solver.
  - match goal with H : _ ∈ operators |- _ => apply operators_not_error in H end. naive_solver.
  - match goal with |- keyword_kind ?s <> _ /\ _ => pose proof (keyword_kind_not_error s) end. naive_solver.
Qed.

Lemma Lexed_error f off text toks clean :
  Lexed f off text toks clean ->
  Forall (fun t => kind t <> Eof) toks /\ (Exists (fun t => kind t = Error_) toks -> clean = false).
Proof.
  induction 1 as [off|off k text follow clean toks clean' S Hne L [IH1 IH2]]; [split; [done|by intros ?%Exists_nil]|].
  destruct k as [k|]; simpl; [|split; [done|intros H; rewrite IH2 by done; apply andb_false_r]].
  destruct (LexStep_error _ _ _ _ S) as [H1 H2]. split; [by constructor|].
  rewrite Exists_cons. intros [H|H]; [by rewrite H2|]. rewrite IH2 by done. apply andb_false_r.
Qed.

(** a token stream with an [Error] token always comes with a reported
    error, so a caller that stops on [has_errors] never parses one; and the
    only [Eof] is the last token. *)
Theorem lex_error_tokens_reported source file reporter :
  let '(toks, reporter') := lex source file reporter in
  (Exists (fun t => kind t = Error_) toks -> has_errors reporter' = true) /\
  exists init, toks = init ++ [eof_token source file] /\ Forall (fun t => kind t <> Eof) init.
Proof.
  destruct (lex_grammar_aux source file reporter) as (toks & ds & clean & -> & L & Hc & Hd).
  destruct (Lexed_error _ _ _ _ _ L) as [He Hx]. split; [|by exists toks].
  rewrite Exists_app. intros [H|H]; [|by inversion H as [? ? H'|? ? H']; inversion H'].
  specialize (Hx H). destruct ds as [|d ds]; [destruct Hc as [_ Hc]; by rewrite Hc in Hx|].
  inversion Hd as [|? ? Hd1 _]; subst. unfold has_errors; simpl. rewrite existsb_app. simpl.
  destruct Hd1 as (Hs & _). by rewrite Hs, bool_decide_true, orb_true_r.
Qed.

(** Where the code and [docs/grammar/tokens.md] differ: [&mut], the shifts and
    the compound assignments are two tokens each, an exponent is an identifier
    after the float, and [self], [default] and [dyn] are identifiers. *)
Example tokens_md_differs :
  let kinds text := map kind (lex (chars text) FileId_ROOT Reporter_new).1 in
  kinds "&mut"%string = [Ampersand; Mut; Eof] /\ kinds "<<"%string = [Less; Less; Eof] /\ kinds ">>"%string = [Greater; Greater; Eof] /\
  kinds "+="%string = [Plus; Equal; Eof] /\ kinds "1.0e9"%string = [Float; Identifier; Eof] /\
  kinds "2.5e-3"%string = [Float; Identifier; Minus; Integer; Eof] /\
  kinds "self default dyn"%string = [Identifier; Identifier; Identifier; Eof].
Proof. vm_compute. repeat split. Qed.
