(* ===== verification/Ast.v ===== *)
(** The abstract syntax: [compiler/paco-syntax/src/ast.rs].

    The declarations, statements, expressions, patterns and types of the
    source with its own constructors.  The syntax is one mutually recursive
    family (an item holds blocks, a block may hold items, a type may hold an
    expression), so its structs are one-constructor types; the fields have
    accessor functions below.  An [f64] literal is its bit pattern. *)
From S2P Require Import Prelude Span.

Inductive Literal :=
| LInt (value : Z)
| LFloat (bits : Z)
| LBool (value : bool)
| LString (value : string)
| LChar (value : char).

#[export] Instance Literal_eq_dec : EqDecision Literal.
Proof. solve_decision. Defined.

Inductive BinaryOp :=
| Add | Sub | Mul | Div | Rem | Eq_ | Ne | Lt_ | Le | Gt_ | Ge | And | Or
| BitAnd | BitOr | BitXor | Shl | Shr.

Inductive UnaryOp := Not | Neg | Deref | BitNot.

Inductive UsePathKind := Plain | Domain.

Inductive Pat :=
| PIdent (name : string) (sp : Span)
| PWildcard (sp : Span)
| PLiteral (l : Literal) (sp : Span)
| PTuple (items : list Pat) (sp : Span)
| PStruct (path : list string) (fields : list (string * Pat)) (rest : bool) (sp : Span)
| PEnum (path : list string) (fields : list Pat) (sp : Span)
| PRange (start end_ : Pat) (inclusive : bool) (sp : Span)
| POr (alternatives : list Pat) (sp : Span)
| PBinding (name : string) (pattern : Pat) (sp : Span)
| PReference (mutable : bool) (pattern : Pat) (sp : Span).

Inductive Attribute :=
| mkAttribute (name : string) (args : list AttributeArg) (sp : Span)
with AttributeArg : Type :=
| ArgLiteral (l : Literal) (sp : Span)
| ArgPath (path : list string) (sp : Span)
| ArgNested (a : Attribute)
| ArgAssign (key : string) (path : list string) (sp : Span)
| ArgAssignLiteral (key : string) (l : Literal) (sp : Span).

Record UseDecl := mkUseDecl {
  use_path : list string; use_alias : option string; use_kind : UsePathKind; use_span : Span }.

Inductive Expr :=
| ELiteral (l : Literal) (sp : Span)
| EIdent (name : string) (sp : Span)
| EBlock (b : Block)
| EUnsafe (b : Block) (sp : Span)
| EIf (condition : Expr) (then_branch : Block) (else_branch : option Expr) (sp : Span)
| ELoop (body : Block) (sp : Span)
| EWhile (condition : Expr) (body : Block) (sp : Span)
| EMatch (scrutinee : Expr) (arms : list MatchArm) (sp : Span)
| ECall (callee : Expr) (type_args : list Ty) (args : list Expr) (sp : Span)
| EMethodCall (receiver : Expr) (method : string) (args : list Expr) (sp : Span)
| EAssociatedCall (ty : Ty) (function : string) (args : list Expr) (sp : Span)
| EBinary (op : BinaryOp) (left right : Expr) (sp : Span)
| EUnary (op : UnaryOp) (expr : Expr) (sp : Span)
| EAssign (target value : Expr) (sp : Span)
| EField (base : Expr) (field : string) (sp : Span)
| EIndex (base : Expr) (index : list Expr) (sp : Span)
| ETry (expr : Expr) (sp : Span)
| ECast (expr : Expr) (ty : Ty) (sp : Span)
| EReturn (value : option Expr) (sp : Span)
| EBreak (value : option Expr) (sp : Span)
| EContinue (sp : Span)
| ESpawn (expr : Expr) (sp : Span)
| EClosure (params : list ClosureParam) (body : Expr) (sp : Span)
| ESelect (arms : list SelectArm) (default_ : option Block) (sp : Span)
| EComptime (expr : Expr) (sp : Span)
| EQuote (body : QuoteBody) (sp : Span)
| ESplice (expr : Expr) (sp : Span)
| EYield (expr : Expr) (sp : Span)
| EStructLiteral (ty : Ty) (fields : list (string * Expr)) (sp : Span)
| EBorrow (mutable : bool) (expr : Expr) (sp : Span)
| ETuple (items : list Expr) (sp : Span)
with Block : Type := mkBlock (stmts : list Stmt) (tail : option Expr) (sp : Span)
with Stmt : Type := SLet (s : LetStmt) | SExpr (e : Expr) | SItem (i : Item)
with LetStmt : Type := mkLetStmt (mutable : bool) (pattern : Pat) (ty : option Ty) (value : option Expr) (sp : Span)
with MatchArm : Type := mkMatchArm (pattern : Pat) (guard : option Expr) (body : Expr) (sp : Span)
with ClosureParam : Type := mkClosureParam (pattern : Pat) (ty : option Ty) (sp : Span)
with SelectArm : Type := mkSelectArm (operation : Expr) (body : Block) (sp : Span)
with QuoteBody : Type := QItem (i : Item) | QExpr (e : Expr)
with Ty : Type :=
| TPath (path : list string) (sp : Span)
| TGeneric (path : list string) (args : list Ty) (sp : Span)
| TTuple (items : list Ty) (sp : Span)
| TSlice (elem : Ty) (sp : Span)
| TBorrow (mutable : bool) (lifetime : option string) (ty : Ty) (sp : Span)
| TRawPointer (mutable : bool) (ty : Ty) (sp : Span)
| TDyn (trait_path : list string) (sp : Span)
| TFn (params : list Ty) (return_ty : option Ty) (extern_abi : option string) (is_unsafe : bool) (sp : Span)
| TInfer (sp : Span)
| TNever (sp : Span)
| TConst (e : Expr) (sp : Span)
| TDynDim (sp : Span)
| TExpand (name : string) (sp : Span)
| TExistential (name : string) (sp : Span)
| TSplice (e : Expr) (sp : Span)
with GenericParamKind : Type := KType | KLifetime | KConst (ty : Ty) | KConstPack (ty : Ty) | KDim
with GenericParam : Type := mkGenericParam (name : string) (kind : GenericParamKind) (bounds : list Ty) (sp : Span)
with Param : Type := mkParam (pattern : Pat) (ty : Ty) (sp : Span)
with FnDecl : Type :=
| mkFnDecl (name : string) (name_splice : option Expr) (generics : list GenericParam) (params : list Param)
    (return_ty : option Ty) (body : Block) (is_pub is_unsafe is_iter is_comptime : bool)
    (extern_abi : option string) (attrs : list Attribute) (sp : Span)
with FnSignature : Type :=
| mkFnSignature (name : string) (generics : list GenericParam) (params : list Param) (return_ty : option Ty)
    (body : option Block) (attrs : list Attribute) (sp : Span)
with ConstDecl : Type := mkConstDecl (name : string) (ty : Ty) (value : Expr) (is_pub : bool) (sp : Span)
with FieldDecl : Type := mkFieldDecl (name : string) (ty : Ty) (is_pub : bool) (attrs : list Attribute) (sp : Span)
with AssocTypeDecl : Type := mkAssocTypeDecl (name : string) (default_ : option Ty) (sp : Span)
with StructDecl : Type :=
| mkStructDecl (name : string) (generics : list GenericParam) (fields : list FieldDecl) (methods : list FnDecl)
    (consts : list ConstDecl) (assoc_types : list AssocTypeDecl) (is_pub : bool) (attrs : list Attribute) (sp : Span)
with VariantFields : Type := VUnit | VTuple (tys : list Ty) | VStruct (fields : list FieldDecl)
with EnumVariant : Type := mkEnumVariant (name : string) (fields : VariantFields) (attrs : list Attribute) (sp : Span)
with EnumDecl : Type :=
| mkEnumDecl (name : string) (generics : list GenericParam) (variants : list EnumVariant) (methods : list FnDecl)
    (consts : list ConstDecl) (is_pub : bool) (attrs : list Attribute) (sp : Span)
with TraitDecl : Type :=
| mkTraitDecl (name : string) (generics : list GenericParam) (methods : list FnSignature) (consts : list ConstDecl)
    (assoc_types : list AssocTypeDecl) (is_pub : bool) (attrs : list Attribute) (sp : Span)
with MethodsBlock : Type :=
| mkMethodsBlock (generics : list GenericParam) (target : Ty) (methods : list FnDecl) (consts : list ConstDecl) (sp : Span)
with ExternBlock : Type := mkExternBlock (abi : string) (functions : list FnSignature) (attrs : list Attribute) (sp : Span)
with Item : Type :=
| IFn (d : FnDecl)
| IStruct (d : StructDecl)
| IEnum (d : EnumDecl)
| ITrait (d : TraitDecl)
| IMethods (d : MethodsBlock)
| IUse (d : UseDecl)
| IConst (d : ConstDecl)
| IExtern (d : ExternBlock).

Record ModuleDecl := mkModuleDecl { md_name : string; md_span : Span }.
Record Module := mkModule { module_name : option ModuleDecl; items : list Item; module_span : Span }.

Scheme Expr_mut := Induction for Expr Sort Prop
with Block_mut := Induction for Block Sort Prop
with Stmt_mut := Induction for Stmt Sort Prop
with LetStmt_mut := Induction for LetStmt Sort Prop
with MatchArm_mut := Induction for MatchArm Sort Prop
with ClosureParam_mut := Induction for ClosureParam Sort Prop
with SelectArm_mut := Induction for SelectArm Sort Prop
with QuoteBody_mut := Induction for QuoteBody Sort Prop
with Ty_mut := Induction for Ty Sort Prop
with GenericParamKind_mut := Induction for GenericParamKind Sort Prop
with GenericParam_mut := Induction for GenericParam Sort Prop
with Param_mut := Induction for Param Sort Prop
with FnDecl_mut := Induction for FnDecl Sort Prop
with FnSignature_mut := Induction for FnSignature Sort Prop
with ConstDecl_mut := Induction for ConstDecl Sort Prop
with FieldDecl_mut := Induction for FieldDecl Sort Prop
with AssocTypeDecl_mut := Induction for AssocTypeDecl Sort Prop
with StructDecl_mut := Induction for StructDecl Sort Prop
with VariantFields_mut := Induction for VariantFields Sort Prop
with EnumVariant_mut := Induction for EnumVariant Sort Prop
with EnumDecl_mut := Induction for EnumDecl Sort Prop
with TraitDecl_mut := Induction for TraitDecl Sort Prop
with MethodsBlock_mut := Induction for MethodsBlock Sort Prop
with ExternBlock_mut := Induction for ExternBlock Sort Prop
with Item_mut := Induction for Item Sort Prop.

Combined Scheme Syntax_ind from Expr_mut, Block_mut, Stmt_mut, LetStmt_mut, MatchArm_mut, ClosureParam_mut,
  SelectArm_mut, QuoteBody_mut, Ty_mut, GenericParamKind_mut, GenericParam_mut, Param_mut, FnDecl_mut,
  FnSignature_mut, ConstDecl_mut, FieldDecl_mut, AssocTypeDecl_mut, StructDecl_mut, VariantFields_mut,
  EnumVariant_mut, EnumDecl_mut, TraitDecl_mut, MethodsBlock_mut, ExternBlock_mut, Item_mut.

(** ** Fields *)

Definition arm_pattern (a : MatchArm) : Pat := let 'mkMatchArm p _ _ _ := a in p.
Definition arm_guard (a : MatchArm) : option Expr := let 'mkMatchArm _ g _ _ := a in g.
Definition arm_body (a : MatchArm) : Expr := let 'mkMatchArm _ _ b _ := a in b.
Definition fn_body (f : FnDecl) : Block := let 'mkFnDecl _ _ _ _ _ b _ _ _ _ _ _ _ := f in b.
Definition const_value (c : ConstDecl) : Expr := let 'mkConstDecl _ _ v _ _ := c in v.
Definition attr_name (a : Attribute) : string := let 'mkAttribute n _ _ := a in n.
Definition attr_args (a : Attribute) : list AttributeArg := let 'mkAttribute _ args _ := a in args.
Definition gp_name (p : GenericParam) : string := let 'mkGenericParam n _ _ _ := p in n.
Definition gp_kind (p : GenericParam) : GenericParamKind := let 'mkGenericParam _ k _ _ := p in k.
Definition gp_bounds (p : GenericParam) : list Ty := let 'mkGenericParam _ _ b _ := p in b.

(** ** Helpers of the declarations *)

Definition is_const (p : GenericParam) : bool :=
  match gp_kind p with KConst _ | KConstPack _ => true | _ => false end.

Definition is_pack (p : GenericParam) : bool :=
  match gp_kind p with KConstPack _ => true | _ => false end.

Definition is_dim (p : GenericParam) : bool :=
  match gp_kind p with KDim => true | _ => false end.

(** [GenericParam == name]: only a type parameter is named by a type. *)
Definition gp_eq_name (p : GenericParam) (name : string) : bool :=
  match gp_kind p with KType => bool_decide (gp_name p = name) | _ => false end.

Definition last_is (path : list string) (name : string) : bool := bool_decide (last path = Some name).

Definition has_derive (attrs : list Attribute) (name : string) : bool :=
  existsb (fun arg => match arg with ArgPath path _ => last_is path name | _ => false end)
    (flat_map attr_args (List.filter (fun a => bool_decide (attr_name a = "derive"%string)) attrs)).

Definition bounded_by (params : list GenericParam) (bound : string) : list string :=
  map gp_name
    (List.filter
       (fun p =>
          existsb (fun ty => match ty with TPath path _ | TGeneric path _ _ => last_is path bound | _ => false end)
            (gp_bounds p))
       params).

Definition generic_names (params : list GenericParam) : list string :=
  map gp_name (List.filter (fun p => match gp_kind p with KLifetime => false | _ => true end) params).
