(* ===== verification/Visit.v ===== *)
(** The visitors of the syntax: [Visit], [MutVisit], their [walk_*] functions
    and [visit_template_ty_splices] of [compiler/paco-syntax/src/ast.rs].

    The trait [Visit] is a record of methods that thread the visitor's state;
    a [walk_*] function calls the methods of the record on the children, in
    the order of the source.  [MutVisit] also returns the rewritten node. *)
From S2P Require Import Prelude Span Ast.

Section Visitors.
Context {S : Type}.

(** [for x in l { f(x) }] *)
Definition for_each {A} (f : A -> S -> S) (l : list A) (s : S) : S :=
  fold_left (fun s x => f x s) l s.

(** [if let Some(x) = o { f(x) }] *)
Definition if_some {A} (f : A -> S -> S) (o : option A) (s : S) : S :=
  match o with Some x => f x s | None => s end.

Record Visit := mkVisit {
  visit_module : Module -> S -> S;
  visit_item : Item -> S -> S;
  visit_fn_decl : FnDecl -> S -> S;
  visit_block : Block -> S -> S;
  visit_stmt : Stmt -> S -> S;
  visit_expr : Expr -> S -> S;
  visit_literal : Literal -> S -> S }.

Definition walk_module (v : Visit) (m : Module) (s : S) : S :=
  for_each (visit_item v) (items m) s.

(** The methods of a declaration, then the values of its constants. *)
Definition walk_members (v : Visit) (methods : list FnDecl) (consts : list ConstDecl) (s : S) : S :=
  for_each (fun c => let 'mkConstDecl _ _ value _ _ := c in visit_expr v value) consts
    (for_each (visit_fn_decl v) methods s).

Definition walk_item (v : Visit) (i : Item) (s : S) : S :=
  match i with
  | IFn f => visit_fn_decl v f s
  | IStruct (mkStructDecl _ _ _ methods consts _ _ _ _) => walk_members v methods consts s
  | IEnum (mkEnumDecl _ _ _ methods consts _ _ _) => walk_members v methods consts s
  | IMethods (mkMethodsBlock _ _ methods consts _) => walk_members v methods consts s
  | IConst (mkConstDecl _ _ value _ _) => visit_expr v value s
  | ITrait _ | IUse _ | IExtern _ => s
  end.

Definition walk_fn_decl (v : Visit) (f : FnDecl) (s : S) : S :=
  let 'mkFnDecl _ _ _ _ _ body _ _ _ _ _ _ _ := f in visit_block v body s.

Definition walk_block (v : Visit) (b : Block) (s : S) : S :=
  let 'mkBlock stmts tail _ := b in
  if_some (visit_expr v) tail (for_each (visit_stmt v) stmts s).

Definition walk_stmt (v : Visit) (st : Stmt) (s : S) : S :=
  match st with
  | SLet (mkLetStmt _ _ _ value _) => if_some (visit_expr v) value s
  | SExpr e => visit_expr v e s
  | SItem i => visit_item v i s
  end.

Definition walk_expr (v : Visit) (e : Expr) (s : S) : S :=
  match e with
  | ELiteral l _ => visit_literal v l s
  | EIdent _ _ | EContinue _ => s
  | EBlock b | EUnsafe b _ => visit_block v b s
  | EIf condition then_branch else_branch _ =>
      if_some (visit_expr v) else_branch (visit_block v then_branch (visit_expr v condition s))
  | ELoop body _ => visit_block v body s
  | EWhile condition body _ => visit_block v body (visit_expr v condition s)
  | EMatch scrutinee arms _ =>
      for_each (fun arm s => let 'mkMatchArm _ guard body _ := arm in visit_expr v body (if_some (visit_expr v) guard s))
        arms (visit_expr v scrutinee s)
  | ECall callee _ args _ => for_each (visit_expr v) args (visit_expr v callee s)
  | EMethodCall receiver _ args _ => for_each (visit_expr v) args (visit_expr v receiver s)
  | EAssociatedCall _ _ args _ => for_each (visit_expr v) args s
  | EBinary _ lhs rhs _ => visit_expr v rhs (visit_expr v lhs s)
  | EUnary _ expr _ => visit_expr v expr s
  | EAssign target value _ => visit_expr v value (visit_expr v target s)
  | EField base _ _ => visit_expr v base s
  | EIndex base index _ => for_each (visit_expr v) index (visit_expr v base s)
  | EReturn value _ | EBreak value _ => if_some (visit_expr v) value s
  | ESpawn expr _ | EComptime expr _ | ESplice expr _ => visit_expr v expr s
  | EClosure _ body _ => visit_expr v body s
  | EQuote (QItem i) _ => visit_item v i s
  | EQuote (QExpr e) _ => visit_expr v e s
  | ESelect arms default_ _ =>
      if_some (visit_block v) default_
        (for_each (fun arm s => let 'mkSelectArm operation body _ := arm in visit_block v body (visit_expr v operation s)) arms s)
  | EYield expr _ => visit_expr v expr s
  | EStructLiteral _ fields _ => for_each (fun f => visit_expr v f.2) fields s
  | EBorrow _ expr _ => visit_expr v expr s
  | ETuple items _ => for_each (visit_expr v) items s
  | ETry expr _ => visit_expr v expr s
  | ECast expr _ _ => visit_expr v expr s
  end.

(** *** Rewriting visitors *)

(** [for x in &mut l { f(x) }] *)
Fixpoint for_each_mut {A} (f : A -> S -> A * S) (l : list A) (s : S) : list A * S :=
  match l with
  | [] => ([], s)
  | x :: l' =>
      let '(x', s1) := f x s in
      let '(l'', s2) := for_each_mut f l' s1 in (x' :: l'', s2)
  end.

Definition if_some_mut {A} (f : A -> S -> A * S) (o : option A) (s : S) : option A * S :=
  match o with
  | Some x => let '(x', s') := f x s in (Some x', s')
  | None => (None, s)
  end.

Record MutVisit := mkMutVisit {
  visit_module_mut : Module -> S -> Module * S;
  visit_item_mut : Item -> S -> Item * S;
  visit_expr_mut : Expr -> S -> Expr * S }.

Definition walk_module_mut (v : MutVisit) (m : Module) (s : S) : Module * S :=
  let '(items', s) := for_each_mut (visit_item_mut v) (items m) s in
  (mkModule (module_name m) items' (module_span m), s).

Definition walk_block_mut (v : MutVisit) (b : Block) (s : S) : Block * S :=
  let 'mkBlock stmts tail sp := b in
  let '(stmts, s) :=
    for_each_mut
      (fun st s =>
         match st with
         | SLet (mkLetStmt m p ty value sp) =>
             let '(value, s) := if_some_mut (visit_expr_mut v) value s in (SLet (mkLetStmt m p ty value sp), s)
         | SExpr e => let '(e, s) := visit_expr_mut v e s in (SExpr e, s)
         | SItem i => let '(i, s) := visit_item_mut v i s in (SItem i, s)
         end) stmts s in
  let '(tail, s) := if_some_mut (visit_expr_mut v) tail s in
  (mkBlock stmts tail sp, s).

Definition walk_method_mut (v : MutVisit) (f : FnDecl) (s : S) : FnDecl * S :=
  let 'mkFnDecl n ns g ps r body p u i c x a sp := f in
  let '(body, s) := walk_block_mut v body s in (mkFnDecl n ns g ps r body p u i c x a sp, s).

Definition walk_const_mut (v : MutVisit) (c : ConstDecl) (s : S) : ConstDecl * S :=
  let 'mkConstDecl n ty value p sp := c in
  let '(value, s) := visit_expr_mut v value s in (mkConstDecl n ty value p sp, s).

Definition walk_item_mut (v : MutVisit) (i : Item) (s : S) : Item * S :=
  match i with
  | IFn f => let '(f, s) := walk_method_mut v f s in (IFn f, s)
  | IStruct (mkStructDecl n g fs methods consts at_ p a sp) =>
      let '(methods, s) := for_each_mut (walk_method_mut v) methods s in
      let '(consts, s) := for_each_mut (walk_const_mut v) consts s in
      (IStruct (mkStructDecl n g fs methods consts at_ p a sp), s)
  | IEnum (mkEnumDecl n g vs methods consts p a sp) =>
      let '(methods, s) := for_each_mut (walk_method_mut v) methods s in
      let '(consts, s) := for_each_mut (walk_const_mut v) consts s in
      (IEnum (mkEnumDecl n g vs methods consts p a sp), s)
  | IMethods (mkMethodsBlock g t methods consts sp) =>
      let '(methods, s) := for_each_mut (walk_method_mut v) methods s in
      let '(consts, s) := for_each_mut (walk_const_mut v) consts s in
      (IMethods (mkMethodsBlock g t methods consts sp), s)
  | IConst c => let '(c, s) := walk_const_mut v c s in (IConst c, s)
  | ITrait _ | IUse _ | IExtern _ => (i, s)
  end.

Definition walk_arm_mut (v : MutVisit) (arm : MatchArm) (s : S) : MatchArm * S :=
  let 'mkMatchArm p guard body sp := arm in
  let '(guard, s) := if_some_mut (visit_expr_mut v) guard s in
  let '(body, s) := visit_expr_mut v body s in (mkMatchArm p guard body sp, s).

Definition walk_select_arm_mut (v : MutVisit) (arm : SelectArm) (s : S) : SelectArm * S :=
  let 'mkSelectArm operation body sp := arm in
  let '(operation, s) := visit_expr_mut v operation s in
  let '(body, s) := walk_block_mut v body s in (mkSelectArm operation body sp, s).

Definition walk_expr_mut (v : MutVisit) (e : Expr) (s : S) : Expr * S :=
  let expr1 x k := let '(x, s) := visit_expr_mut v x s in (k x, s) in
  let exprs1 x l k :=
    let '(x, s) := visit_expr_mut v x s in
    let '(l, s) := for_each_mut (visit_expr_mut v) l s in (k x l, s) in
  match e with
  | ELiteral _ _ | EIdent _ _ | EContinue _ => (e, s)
  | EBlock b => let '(b, s) := walk_block_mut v b s in (EBlock b, s)
  | EUnsafe b sp => let '(b, s) := walk_block_mut v b s in (EUnsafe b sp, s)
  | EIf condition then_branch else_branch sp =>
      let '(condition, s) := visit_expr_mut v condition s in
      let '(then_branch, s) := walk_block_mut v then_branch s in
      let '(else_branch, s) := if_some_mut (visit_expr_mut v) else_branch s in
      (EIf condition then_branch else_branch sp, s)
  | ELoop body sp => let '(body, s) := walk_block_mut v body s in (ELoop body sp, s)
  | EWhile condition body sp =>
      let '(condition, s) := visit_expr_mut v condition s in
      let '(body, s) := walk_block_mut v body s in (EWhile condition body sp, s)
  | EMatch scrutinee arms sp =>
      let '(scrutinee, s) := visit_expr_mut v scrutinee s in
      let '(arms, s) := for_each_mut (walk_arm_mut v) arms s in (EMatch scrutinee arms sp, s)
  | ECall callee tys args sp => exprs1 callee args (fun callee args => ECall callee tys args sp)
  | EMethodCall receiver m args sp => exprs1 receiver args (fun receiver args => EMethodCall receiver m args sp)
  | EAssociatedCall ty f args sp =>
      let '(args, s) := for_each_mut (visit_expr_mut v) args s in (EAssociatedCall ty f args sp, s)
  | EBinary op lhs rhs sp =>
      let '(lhs, s) := visit_expr_mut v lhs s in
      let '(rhs, s) := visit_expr_mut v rhs s in (EBinary op lhs rhs sp, s)
  | EUnary op expr sp => expr1 expr (fun expr => EUnary op expr sp)
  | EAssign target value sp =>
      let '(target, s) := visit_expr_mut v target s in
      let '(value, s) := visit_expr_mut v value s in (EAssign target value sp, s)
  | EField base f sp => expr1 base (fun base => EField base f sp)
  | EIndex base index sp => exprs1 base index (fun base index => EIndex base index sp)
  | EReturn value sp => let '(value, s) := if_some_mut (visit_expr_mut v) value s in (EReturn value sp, s)
  | EBreak value sp => let '(value, s) := if_some_mut (visit_expr_mut v) value s in (EBreak value sp, s)
  | ESpawn expr sp => expr1 expr (fun expr => ESpawn expr sp)
  | EComptime expr sp => expr1 expr (fun expr => EComptime expr sp)
  | ESplice expr sp => expr1 expr (fun expr => ESplice expr sp)
  | EClosure ps body sp => expr1 body (fun body => EClosure ps body sp)
  | EQuote (QItem i) sp => let '(i, s) := visit_item_mut v i s in (EQuote (QItem i) sp, s)
  | EQuote (QExpr e) sp => expr1 e (fun e => EQuote (QExpr e) sp)
  | ESelect arms default_ sp =>
      let '(arms, s) := for_each_mut (walk_select_arm_mut v) arms s in
      let '(default_, s) := if_some_mut (walk_block_mut v) default_ s in (ESelect arms default_ sp, s)
  | EYield expr sp => expr1 expr (fun expr => EYield expr sp)
  | EStructLiteral ty fields sp =>
      let '(fields, s) :=
        for_each_mut (fun f s => let '(value, s) := visit_expr_mut v f.2 s in ((f.1, value), s)) fields s in
      (EStructLiteral ty fields sp, s)
  | EBorrow m expr sp => expr1 expr (fun expr => EBorrow m expr sp)
  | ETuple items sp => let '(items, s) := for_each_mut (visit_expr_mut v) items s in (ETuple items sp, s)
  | ETry expr sp => expr1 expr (fun expr => ETry expr sp)
  | ECast expr ty sp => expr1 expr (fun expr => ECast expr ty sp)
  end.
End Visitors.
Arguments Visit S : clear implicits.
Arguments MutVisit S : clear implicits.

(** ** [visit_template_ty_splices]

    The [Finder] of the source: its own methods, tied through the record of
    the trait.  [f] is the callback. *)
Section Finder.
Context {S : Type} (f : Expr -> S -> S).

Fixpoint finder_ty (ty : Ty) (s : S) : S :=
  match ty with
  | TSplice inner _ => f inner s
  | TGeneric _ args _ | TTuple args _ => for_each finder_ty args s
  | TSlice inner _ | TBorrow _ _ inner _ | TRawPointer _ inner _ => finder_ty inner s
  | TFn params return_ty _ _ _ => if_some finder_ty return_ty (for_each finder_ty params s)
  | TPath _ _ | TDyn _ _ | TInfer _ | TNever _ | TConst _ _ | TDynDim _ | TExpand _ _ | TExistential _ _ => s
  end.

Fixpoint finder_item (i : Item) (s : S) : S :=
  let s := match i with IMethods (mkMethodsBlock _ target _ _ _) => finder_ty target s | _ => s end in
  walk_item (mkVisit (fun _ s => s) finder_item finder_fn_decl finder_block finder_stmt finder_expr (fun _ s => s)) i s
with finder_fn_decl (d : FnDecl) (s : S) : S :=
  let 'mkFnDecl _ name_splice _ params return_ty _ _ _ _ _ _ _ _ := d in
  let s := if_some f name_splice s in
  let s := for_each (fun p => let 'mkParam _ ty _ := p in finder_ty ty) params s in
  let s := if_some finder_ty return_ty s in
  walk_fn_decl (mkVisit (fun _ s => s) finder_item finder_fn_decl finder_block finder_stmt finder_expr (fun _ s => s)) d s
with finder_block (b : Block) (s : S) : S :=
  walk_block (mkVisit (fun _ s => s) finder_item finder_fn_decl finder_block finder_stmt finder_expr (fun _ s => s)) b s
with finder_stmt (st : Stmt) (s : S) : S :=
  let s := match st with SLet (mkLetStmt _ _ (Some ty) _ _) => finder_ty ty s | _ => s end in
  walk_stmt (mkVisit (fun _ s => s) finder_item finder_fn_decl finder_block finder_stmt finder_expr (fun _ s => s)) st s
with finder_expr (e : Expr) (s : S) : S :=
  let walk :=
    walk_expr (mkVisit (fun _ s => s) finder_item finder_fn_decl finder_block finder_stmt finder_expr (fun _ s => s)) e in
  match e with
  | EQuote _ _ | ESplice _ _ => s
  | EAssociatedCall ty _ _ _ | EStructLiteral ty _ _ | ECast _ ty _ => walk (finder_ty ty s)
  | ECall _ type_args _ _ => walk (for_each finder_ty type_args s)
  | EClosure params _ _ => walk (for_each (fun p => let 'mkClosureParam _ ty _ := p in if_some finder_ty ty) params s)
  | _ => walk s
  end.

Definition visit_template_ty_splices (body : QuoteBody) (s : S) : S :=
  match body with
  | QItem i => finder_item i s
  | QExpr e => finder_expr e s
  end.
End Finder.

(** The splices the finder reports, in order. *)
Definition template_ty_splices (body : QuoteBody) : list Expr :=
  visit_template_ty_splices (fun e acc => acc ++ [e]) body [].

(** ** The rewriting walk visits what the reading walk visits *)

Section ReadOnly.
Context {S : Type} (v : Visit S).

(** A rewriting visitor that leaves every node as it is. *)
Definition read_only : MutVisit S :=
  mkMutVisit (fun m s => (m, visit_module v m s)) (fun i s => (i, visit_item v i s)) (fun e s => (e, visit_expr v e s)).

(** The methods a [MutVisit] has no counterpart of keep their defaults. *)
Record default_methods : Prop := {
  default_fn_decl : forall f s, visit_fn_decl v f s = walk_fn_decl v f s;
  default_block : forall b s, visit_block v b s = walk_block v b s;
  default_stmt : forall st s, visit_stmt v st s = walk_stmt v st s;
  default_literal : forall l s, visit_literal v l s = s }.

Lemma for_each_mut_same {A} (g : A -> S -> A * S) (h : A -> S -> S) l s :
  (forall x s, g x s = (x, h x s)) -> for_each_mut g l s = (l, for_each h l s).
Proof. intros E. revert s; induction l as [|x l IH]; intros s; [done|]. simpl. by rewrite E, IH. Qed.

Lemma if_some_mut_same {A} (g : A -> S -> A * S) (h : A -> S -> S) o s :
  (forall x s, g x s = (x, h x s)) -> if_some_mut g o s = (o, if_some h o s).
Proof. intros E. destruct o; [|done]. simpl. by rewrite E. Qed.

Context (D : default_methods).

Lemma walk_block_mut_same b s : walk_block_mut read_only b s = (b, visit_block v b s).
Proof.
  rewrite (default_block D). destruct b as [stmts tail sp]. simpl.
  rewrite (for_each_mut_same _ (visit_stmt v)).
  - by rewrite (if_some_mut_same _ (visit_expr v)).
  - intros st s'. rewrite (default_stmt D). destruct st as [[]|e|i]; [|done..]. simpl.
    by rewrite (if_some_mut_same _ (visit_expr v)).
Qed.

Lemma walk_method_mut_same f s : walk_method_mut read_only f s = (f, visit_fn_decl v f s).
Proof. rewrite (default_fn_decl D). destruct f. simpl. by rewrite walk_block_mut_same. Qed.

Lemma walk_const_mut_same c s :
  walk_const_mut read_only c s = (c, (let 'mkConstDecl _ _ value _ _ := c in visit_expr v value) s).
Proof. by destruct c. Qed.

Lemma walk_item_mut_same i s : walk_item_mut read_only i s = (i, walk_item v i s).
Proof.
  destruct i as [f|[]|[]|t|[]|u|c|x]; simpl; try done.
  - by rewrite walk_method_mut_same.
  - rewrite (for_each_mut_same _ (visit_fn_decl v)) by apply walk_method_mut_same.
    by rewrite (for_each_mut_same _ _ _ _ walk_const_mut_same).
  - rewrite (for_each_mut_same _ (visit_fn_decl v)) by apply walk_method_mut_same.
    by rewrite (for_each_mut_same _ _ _ _ walk_const_mut_same).
  - rewrite (for_each_mut_same _ (visit_fn_decl v)) by apply walk_method_mut_same.
    by rewrite (for_each_mut_same _ _ _ _ walk_const_mut_same).
  - by destruct c.
Qed.

Lemma walk_arm_mut_same arm s :
  walk_arm_mut read_only arm s =
    (arm, let 'mkMatchArm _ guard body _ := arm in visit_expr v body (if_some (visit_expr v) guard s)).
Proof. destruct arm as [p g b sp]. simpl. by rewrite (if_some_mut_same _ (visit_expr v)). Qed.

Lemma walk_select_arm_mut_same arm s :
  walk_select_arm_mut read_only arm s =
    (arm, let 'mkSelectArm operation body _ := arm in visit_block v body (visit_expr v operation s)).
Proof. destruct arm as [o b sp]. simpl. by rewrite walk_block_mut_same. Qed.

Lemma walk_expr_mut_same e s : walk_expr_mut read_only e s = (e, walk_expr v e s).
Proof.
  destruct e; simpl;
    rewrite ?walk_block_mut_same, ?(for_each_mut_same (visit_expr_mut read_only) (visit_expr v)),
      ?(if_some_mut_same (visit_expr_mut read_only) (visit_expr v)), ?(default_literal D); try done; simpl.
  - by rewrite (for_each_mut_same _ _ _ _ walk_arm_mut_same).
  - rewrite (for_each_mut_same _ _ _ _ walk_select_arm_mut_same).
    by rewrite (if_some_mut_same _ _ _ _ walk_block_mut_same).
  - by destruct body.
  - rewrite (for_each_mut_same _ (fun f => visit_expr v f.2)); [done|]. by intros [n x] s'.
Qed.

(** The rewriting walk and the reading walk of the syntax agree.  With a
    rewriting visitor that changes no node and threads the state of a reading
    visitor [v] (whose methods without a rewriting counterpart are the
    defaults), [walk_module_mut], [walk_item_mut], [walk_block_mut] and
    [walk_expr_mut] return the node unchanged and the state that
    [walk_module], [walk_item], [walk_block] and [walk_expr] compute: both hand
    the same children to the visitor, in the same order.  Neither hands it the
    default methods of a trait or the splice in the name of a declaration. *)
Theorem walk_mut_agrees :
  (forall m s, walk_module_mut read_only m s = (m, walk_module v m s)) /\
  (forall i s, walk_item_mut read_only i s = (i, walk_item v i s)) /\
  (forall b s, walk_block_mut read_only b s = (b, walk_block v b s)) /\
  (forall e s, walk_expr_mut read_only e s = (e, walk_expr v e s)).
Proof.
  split_and!; [|apply walk_item_mut_same| |apply walk_expr_mut_same].
  - intros [n its sp] s. unfold walk_module_mut. simpl.
    by rewrite (for_each_mut_same _ (visit_item v)).
  - intros b s. by rewrite walk_block_mut_same, (default_block D).
Qed.
End ReadOnly.

(** A visitor that counts the expressions and items it is handed. *)
Definition counter : Visit nat :=
  let e (_ : Expr) s := s + 1 in
  let i (_ : Item) s := s + 10 in
  let st := walk_stmt (mkVisit (fun _ s => s) i (fun _ s => s) (fun _ s => s) (fun _ s => s) e (fun _ s => s)) in
  let b := walk_block (mkVisit (fun _ s => s) i (fun _ s => s) (fun _ s => s) st e (fun _ s => s)) in
  let fn := walk_fn_decl (mkVisit (fun _ s => s) i (fun _ s => s) b st e (fun _ s => s)) in
  mkVisit (fun _ s => s) i fn b st e (fun _ s => s).

Lemma walk_mut_agrees_witness :
  let sp := Span_new_root 0 1 in
  let e := EIf (EIdent "c" sp) (mkBlock [SExpr (EIdent "a" sp)] (Some (EIdent "b" sp)) sp) (Some (EIdent "d" sp)) sp in
  walk_expr_mut (read_only counter) e 0 = (e, walk_expr counter e 0) /\ walk_expr counter e 0 = 4.
Proof.
  split; [|reflexivity]. apply (walk_mut_agrees counter). split; reflexivity.
Defined.
