(* ===== verification/Usefulness.v ===== *)
(** Match usefulness and exhaustiveness: [compiler/paco-match/src/lib.rs], and
    the coverage check of [compiler/paco-types/src/lib.rs] that calls it.

    The analysis is the source's, over the patterns of [Ast].  A [HashSet] of
    keys is a [gset]; where the source takes the first key of the set's
    unspecified iteration order, the definition takes the first of [elements],
    and no theorem depends on which one it is.

    What the analysis promises is stated against a matching semantics of
    patterns on values: an arm reported unreachable is never selected, and a
    match reported exhaustive always selects an arm. *)
From S2P Require Import Prelude Span Ast.

(** ** Text of literals

    [f64::to_string] and the debug form of a string, by what their
    documentation promises: the text of a float parses back to the same float,
    so that only NaNs share one, and the debug form of a string determines the
    string. *)

Definition float_is_nan (b : Z) : bool :=
  ((Z.land (Z.shiftr b 52) 0x7FF =? 0x7FF) && negb (Z.land b (2 ^ 52 - 1) =? 0))%Z.

(** [==] on [f64]: NaN equals nothing, the two zeros are equal. *)
Definition float_eq (a b : Z) : bool :=
  negb (float_is_nan a) && negb (float_is_nan b) &&
  ((a =? b) || (Z.land a (2 ^ 63 - 1) =? 0) && (Z.land b (2 ^ 63 - 1) =? 0))%Z.

Class LiteralText := {
  float_text : Z -> string;
  string_debug : string -> string;
  float_text_inj : forall a b, float_text a = float_text b -> a = b \/ float_is_nan a = true /\ float_is_nan b = true;
  string_debug_inj : forall s t, string_debug s = string_debug t -> s = t }.

(** ** The analysis *)

Section Analysis.
Context `{LiteralText}.

Record IntRange := mkIntRange { ir_start : Z; ir_end : Z; ir_inclusive : bool }.

Definition inclusive_end (r : IntRange) : option Z :=
  if ir_inclusive r then Some (ir_end r) else check_i64 (ir_end r - 1).

Definition range_contains (r : IntRange) (value : Z) : bool :=
  match inclusive_end r with
  | None => false
  | Some e => ((ir_start r <=? value) && (value <=? e))%Z
  end.

Definition contains_range (r other : IntRange) : bool :=
  match inclusive_end r with
  | None => false
  | Some self_end =>
      match inclusive_end other with
      | None => true
      | Some other_end => ((ir_start r <=? ir_start other) && (other_end <=? self_end))%Z
      end
  end.

Definition range_display (r : IntRange) : string :=
  (show_Z (ir_start r) +:+ (if ir_inclusive r then "..=" else "..") +:+ show_Z (ir_end r))%string.

Record CoveredPatterns := mkCovered { keys : gset string; int_ranges : list IntRange }.

Definition covered_default : CoveredPatterns := mkCovered ∅ [].
Definition covered_key (k : string) : CoveredPatterns := mkCovered {[k]} [].
Definition covered_int_range (r : IntRange) : CoveredPatterns := mkCovered ∅ [r].

Definition contains_key (c : CoveredPatterns) (k : string) : bool :=
  bool_decide (k ∈ keys c) ||
  match parse_i64 k with
  | Some value => existsb (fun r => range_contains r value) (int_ranges c)
  | None => false
  end.

Definition covered_extend (c other : CoveredPatterns) : CoveredPatterns :=
  mkCovered (keys c ∪ keys other) (int_ranges c ++ int_ranges other).

Definition covered_witness (self covered : CoveredPatterns) : option string :=
  if existsb (fun k => negb (contains_key covered k)) (elements (keys self)) then None
  else if existsb (fun r => negb (existsb (fun cr => contains_range cr r) (int_ranges covered))) (int_ranges self) then None
  else match elements (keys self) with
       | k :: _ => Some k
       | [] => range_display <$> head (int_ranges self)
       end.

Inductive PatternCoverage :=
| CatchAll
| Covered (c : CoveredPatterns)
| Opaque.

Definition coverage_witness (p : PatternCoverage) (covered : CoveredPatterns) : option string :=
  match p with
  | CatchAll | Opaque => None
  | Covered c => covered_witness c covered
  end.

Definition literal_key (l : Literal) : string :=
  match l with
  | LBool b => if b then "true" else "false"
  | LInt z => show_Z z
  | LFloat b => float_text b
  | LString s => string_debug s
  | LChar c => char_to_string c
  end.

Definition int_literal (p : Pat) : option Z :=
  match p with PLiteral (LInt z) _ => Some z | _ => None end.

Definition int_range (start end_ : Pat) (inclusive : bool) : option IntRange :=
  s ← int_literal start; e ← int_literal end_; Some (mkIntRange s e inclusive).

Fixpoint is_irrefutable_pattern (p : Pat) : bool :=
  match p with
  | PWildcard _ | PIdent _ _ => true
  | PBinding _ q _ | PReference _ q _ => is_irrefutable_pattern q
  | POr ps _ => existsb is_irrefutable_pattern ps
  | PStruct _ fields _ _ => forallb (fun f => is_irrefutable_pattern f.2) fields
  | PLiteral _ _ | PTuple _ _ | PEnum _ _ _ | PRange _ _ _ _ => false
  end.

(** [format!("{}::{}", path[0], path.last())] *)
Definition variant_key (ty variant : string) : string := (ty +:+ "::" +:+ variant)%string.

(** The loop of [or_pattern_coverage], from the patterns covered so far. *)
Fixpoint or_coverage_loop (coverage : Pat -> PatternCoverage) (covered : CoveredPatterns) (ps : list Pat) : PatternCoverage :=
  match ps with
  | [] => if decide (keys covered = ∅ /\ int_ranges covered = []) then Opaque else Covered covered
  | p :: ps' =>
      match coverage p with
      | CatchAll => CatchAll
      | Covered c => or_coverage_loop coverage (covered_extend covered c) ps'
      | Opaque => Opaque
      end
  end.

Fixpoint pattern_coverage (p : Pat) : PatternCoverage :=
  match p with
  | PWildcard _ | PIdent _ _ => CatchAll
  | PBinding _ q _ | PReference _ q _ => pattern_coverage q
  | PLiteral l _ => Covered (covered_key (literal_key l))
  | PEnum path fields _ =>
      match path with
      | p0 :: p1 :: rest =>
          if forallb is_irrefutable_pattern fields
          then Covered (covered_key (variant_key p0 (List.last (p1 :: rest) p0))) else Opaque
      | _ => Opaque
      end
  | PRange start end_ inclusive _ =>
      match int_range start end_ inclusive with
      | Some r => Covered (covered_int_range r)
      | None => Opaque
      end
  | POr ps _ => or_coverage_loop pattern_coverage covered_default ps
  | PStruct _ _ _ _ => if is_irrefutable_pattern p then CatchAll else Opaque
  | PTuple _ _ => Opaque
  end.

Definition or_pattern_coverage (ps : list Pat) : PatternCoverage :=
  or_coverage_loop pattern_coverage covered_default ps.

Record ConstructorSet := mkConstructorSet { constructors : list string; fallback_witness : option string }.

Definition closed (cs : list string) : ConstructorSet := mkConstructorSet cs None.
Definition open (witness : string) : ConstructorSet := mkConstructorSet [] (Some witness).

Definition is_exhausted_by (cs : ConstructorSet) (covered : CoveredPatterns) : bool :=
  match fallback_witness cs, constructors cs with
  | None, _ :: _ => forallb (contains_key covered) (constructors cs)
  | _, _ => false
  end.

Record UnreachableArm := mkUnreachable { ua_index : nat; ua_witness : option string }.
Record UsefulnessReport := mkReport { unreachable_arms : list UnreachableArm; missing_witness : option string }.

(** The locals of [analyze_match]. *)
Record MatchState := mkMatchState {
  catch_all : bool; catch_all_witness : option string; covered : CoveredPatterns; unreachable : list UnreachableArm }.

(** One iteration of the loop over the arms. *)
Definition analyze_arm (cs : ConstructorSet) (st : MatchState) (index : nat) (arm : MatchArm) : MatchState :=
  let coverage := pattern_coverage (arm_pattern arm) in
  if catch_all st then
    mkMatchState true (catch_all_witness st) (covered st)
      (unreachable st ++ [mkUnreachable index (catch_all_witness st)])
  else
    match coverage_witness coverage (covered st) with
    | Some w =>
        mkMatchState (catch_all st) (catch_all_witness st) (covered st)
          (unreachable st ++ [mkUnreachable index (Some w)])
    | None =>
        match arm_guard arm with
        | Some _ => st
        | None =>
            let st :=
              match coverage with
              | CatchAll => mkMatchState true (Some "_"%string) (covered st) (unreachable st)
              | Covered c => mkMatchState (catch_all st) (catch_all_witness st) (covered_extend (covered st) c) (unreachable st)
              | Opaque => st
              end in
            if is_exhausted_by cs (covered st)
            then mkMatchState true (Some "all constructors"%string) (covered st) (unreachable st)
            else st
        end
    end.

Fixpoint analyze_arms (cs : ConstructorSet) (st : MatchState) (index : nat) (arms : list MatchArm) : MatchState :=
  match arms with
  | [] => st
  | arm :: arms' => analyze_arms cs (analyze_arm cs st index arm) (S index) arms'
  end.

Definition match_init : MatchState := mkMatchState false None covered_default [].

Definition analyze_match (arms : list MatchArm) (cs : ConstructorSet) : UsefulnessReport :=
  let st := analyze_arms cs match_init 0 arms in
  mkReport (unreachable st)
    (if catch_all st then None
     else match List.find (fun c => negb (contains_key (covered st) c)) (constructors cs) with
          | Some c => Some c
          | None => fallback_witness cs
          end).
End Analysis.

(** ** The caller in the type checker *)

Fixpoint qualify_bare_variant_pattern (p : Pat) (enum_name : string) : Pat :=
  match p with
  | PEnum path fields sp => PEnum (match path with [v] => [enum_name; v] | _ => path end) fields sp
  | PBinding name q sp => PBinding name (qualify_bare_variant_pattern q enum_name) sp
  | POr ps sp => POr (map (fun q => qualify_bare_variant_pattern q enum_name) ps) sp
  | other => other
  end.

Definition qualify_bare_variant_patterns (arms : list MatchArm) (enum_name : string) : list MatchArm :=
  map (fun arm =>
         let 'mkMatchArm p g b sp := arm in mkMatchArm (qualify_bare_variant_pattern p enum_name) g b sp) arms.

(** ** What matching means *)

Inductive Value :=
| VBool (b : bool)
| VInt (z : Z)
| VFloat (bits : Z)
| VString (s : string)
| VChar (c : char)
| VEnum (ty variant : string) (fields : list Value)
| VStructV (fields : list (string * Value))
| VTupleV (items : list Value)
| VRef (v : Value).

Section Matching.

Fixpoint forall2b {A B} (f : A -> B -> bool) (l : list A) (k : list B) : bool :=
  match l, k with
  | [], [] => true
  | a :: l', b :: k' => f a b && forall2b f l' k'
  | _, _ => false
  end.

Fixpoint assoc {A} (n : string) (l : list (string * A)) : option A :=
  match l with
  | [] => None
  | (m, a) :: l' => if bool_decide (m = n) then Some a else assoc n l'
  end.

Definition literal_matches (l : Literal) (v : Value) : bool :=
  match l, v with
  | LBool a, VBool b => Bool.eqb a b
  | LInt a, VInt b => (a =? b)%Z
  | LFloat a, VFloat b => float_eq a b
  | LString a, VString b => bool_decide (a = b)
  | LChar a, VChar b => (a =? b)%Z
  | _, _ => false
  end.

(** The path of a variant pattern names the variant of a value: a qualified
    path starts with the enum's name and ends with the variant's. *)
Definition path_names (path : list string) (ty variant : string) : bool :=
  match path with
  | [] => false
  | [n] => bool_decide (n = variant)
  | n :: rest => bool_decide (n = ty) && bool_decide (List.last rest n = variant)
  end.

(** Whether a range pattern holds a value: integer and char literals. *)
Definition range_matches (start end_ : Pat) (inclusive : bool) (v : Value) : bool :=
  let test a b x := ((a <=? x) && (if inclusive then x <=? b else x <? b))%Z in
  match start, end_, v with
  | PLiteral (LInt a) _, PLiteral (LInt b) _, VInt x => test a b x
  | PLiteral (LChar a) _, PLiteral (LChar b) _, VChar x => test a b x
  | _, _, _ => false
  end.

Fixpoint matches (p : Pat) (v : Value) : bool :=
  match p, v with
  | PWildcard _, _ | PIdent _ _, _ => true
  | PBinding _ q _, _ => matches q v
  | PReference _ q _, VRef w => matches q w
  | PLiteral l _, _ => literal_matches l v
  | PTuple ps _, VTupleV vs => forall2b matches ps vs
  | PStruct _ fields _ _, VStructV fs =>
      forallb (fun f => match assoc f.1 fs with Some w => matches f.2 w | None => false end) fields
  | PEnum path fields _, VEnum ty variant vs => path_names path ty variant && forall2b matches fields vs
  | PRange start end_ inclusive _, _ => range_matches start end_ inclusive v
  | POr ps _, _ => existsb (fun q => matches q v) ps
  | _, _ => false
  end.

(** A literal has the type of a value, and is a value of that type. *)
Definition literal_agrees (l : Literal) (v : Value) : bool :=
  match l, v with
  | LBool _, VBool _ | LFloat _, VFloat _ | LString _, VString _ => true
  | LInt a, VInt b => in_i64 a && in_i64 b
  | LChar a, VChar b => is_char a && is_char b
  | _, _ => false
  end.

(** A pattern has the type of a value, as the type checker requires of the
    arms of a match and its scrutinee. *)
Fixpoint agrees (p : Pat) (v : Value) : bool :=
  match p, v with
  | PWildcard _, _ | PIdent _ _, _ => true
  | PBinding _ q _, _ => agrees q v
  | PReference _ q _, VRef w => agrees q w
  | PLiteral l _, _ => literal_agrees l v
  | PTuple ps _, VTupleV vs => forall2b agrees ps vs
  | PStruct _ fields _ _, VStructV fs =>
      forallb (fun f => match assoc f.1 fs with Some w => agrees f.2 w | None => false end) fields
  | PEnum path fields _, VEnum ty variant vs =>
      (match path with n :: _ :: _ => bool_decide (n = ty) | _ => true end) &&
      (negb (path_names path ty variant) || forall2b agrees fields vs)
  | PRange start end_ _ _, _ => agrees start v && agrees end_ v
  | POr ps _, _ => forallb (fun q => agrees q v) ps
  | _, _ => false
  end.

(** The arm a match runs: the first whose pattern matches and whose guard, if
    it has one, holds. *)
Fixpoint selected (guard_holds : MatchArm -> bool) (arms : list MatchArm) (v : Value) : option MatchArm :=
  match arms with
  | [] => None
  | arm :: arms' =>
      if matches (arm_pattern arm) v && match arm_guard arm with Some _ => guard_holds arm | None => true end
      then Some arm else selected guard_holds arms' v
  end.
End Matching.

Fixpoint deref (v : Value) : Value := match v with VRef w => deref w | _ => v end.

Section Soundness.
Context `{LiteralText}.

(** The constructor keys a value has. *)
Definition has_key (v : Value) (k : string) : Prop :=
  match deref v with
  | VBool b => k = literal_key (LBool b)
  | VInt z => k = show_Z z
  | VFloat b => exists a, float_eq a b = true /\ k = float_text a
  | VString s => k = string_debug s
  | VChar c => k = char_to_string c
  | VEnum ty variant _ => k = variant_key ty variant
  | _ => False
  end.

(** The value is of the scrutinee's type: one of the closed set's
    constructors, and an integer of the machine's width. *)
Definition inhabits (cs : ConstructorSet) (v : Value) : Prop :=
  (fallback_witness cs = None -> exists k, k ∈ constructors cs /\ has_key v k) /\
  (forall z, deref v = VInt z -> in_i64 z = true).

Definition covers (c : CoveredPatterns) (v : Value) : Prop :=
  (exists k, k ∈ keys c /\ has_key v k) \/
  (exists r z, r ∈ int_ranges c /\ deref v = VInt z /\ range_contains r z = true).

(** Covered ranges come from integer patterns. *)
Definition ranges_typed (c : CoveredPatterns) (v : Value) : Prop :=
  int_ranges c <> [] -> exists z, deref v = VInt z.

Lemma covers_extend c d v : covers (covered_extend c d) v <-> covers c v \/ covers d v.
Proof. unfold covers, covered_extend; simpl. set_solver. Qed.

Lemma ranges_typed_extend c d v : ranges_typed c v -> ranges_typed d v -> ranges_typed (covered_extend c d) v.
Proof.
  unfold ranges_typed. simpl. intros Hc Hd Hn.
  destruct (int_ranges c); [by apply Hd|by apply Hc].
Qed.

Lemma covers_default v : ~ covers covered_default v.
Proof. unfold covers; simpl. set_solver. Qed.

Lemma contains_range_sound r other z :
  contains_range r other = true -> range_contains other z = true -> range_contains r z = true.
Proof. unfold contains_range, range_contains. intros. repeat case_match; simplify_eq; lia. Qed.

(** A covered key of the value covers it. *)
Lemma contains_key_covers c v k :
  (forall z, deref v = VInt z -> in_i64 z = true) -> ranges_typed c v ->
  has_key v k -> contains_key c k = true -> covers c v.
Proof.
  intros Hz Ht Hk Hc. unfold contains_key in Hc. apply orb_true_iff in Hc as [Hc|Hc].
  - left. exists k. by rewrite bool_decide_eq_true in Hc.
  - right. case_match eqn:E; [|done]. apply existsb_exists in Hc as (r & Hr%list_elem_of_In & Hrz).
    destruct Ht as [x Hx]; [by intros E0; rewrite E0 in Hr; apply not_elem_of_nil in Hr|].
    unfold has_key in Hk. rewrite Hx in Hk. subst k.
    rewrite parse_i64_show in E by auto. simplify_eq. eauto.
Qed.

Lemma covered_witness_sound c d w v :
  (forall z, deref v = VInt z -> in_i64 z = true) -> ranges_typed d v ->
  covered_witness c d = Some w -> covers c v -> covers d v.
Proof.
  intros Hz Ht Hw [(k & Hk & Hkv)|(r & z & Hr & Hv & Hrz)]; unfold covered_witness in Hw;
    case_match eqn:E1; try done; case_match eqn:E2; try done.
  - apply (contains_key_covers _ _ k); [done..|]. apply negb_false_iff.
    apply (existsb_none _ _ _ E1). by apply elem_of_elements.
  - right. pose proof (existsb_none _ _ _ E2 Hr) as Er%negb_false_iff.
    apply existsb_elem in Er as (cr & Hcr & Hc).
    exists cr, z. split_and!; [done..|]. by eapply contains_range_sound.
Qed.

(** *** Coverage of a pattern *)

(** An irrefutable pattern matches every value of its type. *)
Lemma irrefutable_matches p v : is_irrefutable_pattern p = true -> agrees p v = true -> matches p v = true.
Proof.
  revert v. induction p as [| | | |path fields IH rest sp| | |ps IH sp| |]; intros v Hi Ha; try done; simpl in *; eauto.
  - destruct v; try done. rewrite forallb_elem in Hi, Ha |- *. intros [n q] Hq.
    specialize (Hi _ Hq). specialize (Ha _ Hq). simpl in *. case_match; [|done].
    apply list_all_snd in IH. rewrite Forall_forall in IH. by apply (IH _ Hq).
  - apply existsb_elem in Hi as (q & Hq & Hi). apply existsb_elem. exists q. split; [done|].
    rewrite forallb_elem in Ha. apply list_all_Forall in IH. rewrite Forall_forall in IH. auto.
  - destruct v; try done. eauto.
Qed.
Lemma covers_key k v : covers (covered_key k) v <-> has_key v k.
Proof. unfold covers, covered_key; simpl. set_solver. Qed.

Lemma literal_coverage l v :
  literal_agrees l v = true -> literal_matches l v = true <-> has_key v (literal_key l).
Proof.
  destruct l, v; intros Ha; try done; unfold has_key; simpl in *.
  - apply andb_true_iff in Ha as [_ _]. rewrite Z.eqb_eq. split; [congruence|]. apply show_Z_inj.
  - split; [eauto|]. intros (a & Ha' & E). apply float_text_inj in E as [->|[_ E]]; [done|].
    unfold float_eq in Ha'. by rewrite E in Ha'.
  - rewrite Bool.eqb_true_iff. by destruct value, b.
  - rewrite bool_decide_eq_true. split; [congruence|]. apply string_debug_inj.
  - apply andb_true_iff in Ha as [H1 H2]. rewrite Z.eqb_eq. split; [congruence|]. by apply char_to_string_inj.
Qed.

Lemma variant_key_inj ty a b : variant_key ty a = variant_key ty b -> a = b.
Proof.
  unfold variant_key. induction ty as [|c ty IH]; simpl; [by intros [= ]|]. intros [= E]. auto.
Qed.

Lemma forall2b_impl {A B} (f g h : A -> B -> bool) l k :
  (forall a b, a ∈ l -> f a b = true -> g a b = true) -> forall2b f l k = true -> forall2b g l k = true.
Proof.
  revert k; induction l as [|a l IH]; intros [|b k] Hfg; simpl; try done.
  rewrite !andb_true_iff. intros [H1 H2]. split; [apply Hfg; [left|done]|].
  apply IH; [|done]. intros a' b' Ha'. apply Hfg. by right.
Qed.

Lemma enum_coverage p0 p1 rest fields v sp :
  let p := PEnum (p0 :: p1 :: rest) fields sp in
  forallb is_irrefutable_pattern fields = true -> agrees p v = true ->
  matches p v = true <-> has_key v (variant_key p0 (List.last (p1 :: rest) p0)).
Proof.
  intros p Hf Ha. subst p. destruct v; try done.
  cbn [agrees matches] in *. unfold has_key. cbn [deref].
  apply andb_true_iff in Ha as [->%bool_decide_eq_true Ha].
  unfold path_names in *. rewrite bool_decide_eq_true_2 in * by done. rewrite andb_true_l in *.
  rewrite andb_true_iff, bool_decide_eq_true. split; [by intros [-> _]|].
  intros E%variant_key_inj. split; [done|].
  rewrite bool_decide_eq_true_2 in Ha by done. simpl negb in Ha. rewrite orb_false_l in Ha.
  revert Ha. apply forall2b_impl; [exact agrees|]. intros q w Hq. apply irrefutable_matches.
  by apply (proj1 (forallb_elem _ _) Hf).
Qed.

Lemma range_coverage start end_ inclusive r v :
  int_range start end_ inclusive = Some r -> agrees start v = true -> agrees end_ v = true ->
  exists z, deref v = VInt z /\ range_matches start end_ inclusive v = range_contains r z.
Proof.
  unfold int_range, int_literal. destruct start as [| |[a| | | |] ?| | | | | | |]; try done.
  destruct end_ as [| |[b| | | |] ?| | | | | | |]; try done. intros [= <-].
  destruct v as [|z| | | | | | |]; try done. simpl. unfold in_i64. intros Ha Hb.
  exists z. split; [done|]. unfold range_contains, inclusive_end. simpl.
  destruct inclusive; [done|]. unfold check_i64, in_i64.
  destruct ((i64_min <=? b - 1) && (b - 1 <=? i64_max))%Z eqn:E; lia.
Qed.

(** What the coverage of a pattern says of the values of its type. *)
Definition coverage_exact (p : Pat) (v : Value) : Prop :=
  match pattern_coverage p with
  | CatchAll => matches p v = true
  | Covered c => (matches p v = true <-> covers c v) /\ ranges_typed c v
  | Opaque => True
  end.

Lemma or_coverage_exact v ps c0 :
  Forall (fun p => agrees p v = true -> coverage_exact p v) ps -> forallb (fun p => agrees p v) ps = true ->
  ranges_typed c0 v ->
  match or_coverage_loop pattern_coverage c0 ps with
  | CatchAll => existsb (fun p => matches p v) ps = true
  | Covered c => (covers c0 v \/ existsb (fun p => matches p v) ps = true <-> covers c v) /\ ranges_typed c v
  | Opaque => True
  end.
Proof.
  intros HF. revert c0. induction HF as [|p ps Hp HF IH]; intros c0 Ha Ht; simpl.
  - case_decide; [done|]. split; [|done]. split; [by intros [?|?]|by left].
  - apply andb_true_iff in Ha as [Ha1 Ha2]. specialize (Hp Ha1). unfold coverage_exact in Hp.
    destruct (pattern_coverage p) as [|c|]; [by rewrite Hp| |done].
    destruct Hp as [Hp Htc]. specialize (IH (covered_extend c0 c) Ha2 (ranges_typed_extend _ _ _ Ht Htc)).
    destruct (or_coverage_loop _ _ _) as [|c'|]; [by rewrite IH, orb_true_r| |done].
    rewrite covers_extend in IH. rewrite orb_true_iff, Hp. destruct IH as [IH ?]. split; [|done]. rewrite <- IH. tauto.
Qed.

Lemma pattern_coverage_exact p v : agrees p v = true -> coverage_exact p v.
Proof.
  revert v. induction p as [| |l sp| |path fields IH rest sp|path fields IH sp|s IHs e IHe i sp|ps IH sp| |m q IH sp];
    intros v Ha; unfold coverage_exact; cbn [pattern_coverage]; try done.
  - split; [rewrite covers_key; by apply literal_coverage|by intros []].
  - destruct (is_irrefutable_pattern _) eqn:E; [|done]. by apply irrefutable_matches.
  - destruct path as [|p0 [|p1 rest]]; try done.
    destruct (forallb _ _) eqn:E; [|done]. split; [|by intros []].
    rewrite covers_key. by apply enum_coverage.
  - destruct (int_range s e i) as [r0|] eqn:E; [|done]. simpl in Ha. apply andb_true_iff in Ha as [Ha Hb].
    destruct (range_coverage _ _ _ _ _ E Ha Hb) as (z & Hz & Hm). cbn [matches]. rewrite Hm.
    split; [|by exists z]. unfold covers; simpl. rewrite Hz.
    split; [intros Hr; right; exists r0, z; split_and!; [left|done..]|].
    intros [(k & Hk & _)|(r & z' & Hr & [= <-] & Hr')]; [set_solver|]. by apply list_elem_of_singleton in Hr as ->.
  - apply list_all_Forall in IH.
    pose proof (or_coverage_exact v ps covered_default) as Hor. cbn [agrees] in Ha. cbn [matches].
    destruct (or_coverage_loop _ _ _) as [|c|]; try done.
    + apply Hor; [|done|by intros []]. eapply Forall_impl; [exact IH|]. auto.
    + destruct Hor as [Hor Ht]; [eapply Forall_impl; [exact IH|]; auto|done|by intros []|].
      split; [|done]. rewrite <- Hor. pose proof (covers_default v). tauto.
  - by apply IHp.
  - destruct v as [| | | | | | | |v]; try done. exact (IH v Ha).
Qed.

(** *** The loop over the arms *)

Context (cs : ConstructorSet) (v : Value).
Context (Hinh : inhabits cs v).

(** Some arm without a guard matches the value. *)
Definition matched_by (arms : list MatchArm) : Prop :=
  exists arm, arm ∈ arms /\ arm_guard arm = None /\ matches (arm_pattern arm) v = true.

(** After the arms [seen]: what the state claims to be covered is matched, and
    each reported arm is one whose pattern only matches what was matched before. *)
Definition state_sound (seen : list MatchArm) (st : MatchState) : Prop :=
  (catch_all st = true -> matched_by seen) /\
  (covers (covered st) v -> matched_by seen) /\
  ranges_typed (covered st) v /\
  Forall (fun u => exists arm, seen !! ua_index u = Some arm /\
                     (matches (arm_pattern arm) v = true -> matched_by (take (ua_index u) seen))) (unreachable st).

Lemma matched_by_app seen more : matched_by seen -> matched_by (seen ++ more).
Proof. intros (a & Ha & ?). exists a. split; [|done]. apply elem_of_app. by left. Qed.

Lemma unreachable_app seen arm us :
  Forall (fun u => exists arm, seen !! ua_index u = Some arm /\
                     (matches (arm_pattern arm) v = true -> matched_by (take (ua_index u) seen))) us ->
  Forall (fun u => exists a, (seen ++ [arm]) !! ua_index u = Some a /\
                     (matches (arm_pattern a) v = true -> matched_by (take (ua_index u) (seen ++ [arm])))) us.
Proof.
  intros H'. eapply Forall_impl; [exact H'|]. intros u (a & Ha & Hm). exists a.
  pose proof (lookup_lt_Some _ _ _ Ha). split; [by rewrite lookup_app_l|].
  rewrite take_app_le by lia. done.
Qed.

Lemma unreachable_snoc seen arm us w :
  Forall (fun u => exists a, (seen ++ [arm]) !! ua_index u = Some a /\
                     (matches (arm_pattern a) v = true -> matched_by (take (ua_index u) (seen ++ [arm])))) us ->
  (matches (arm_pattern arm) v = true -> matched_by seen) ->
  Forall (fun u => exists a, (seen ++ [arm]) !! ua_index u = Some a /\
                     (matches (arm_pattern a) v = true -> matched_by (take (ua_index u) (seen ++ [arm]))))
    (us ++ [mkUnreachable (length seen) w]).
Proof.
  intros Hu Hm. apply Forall_app. split; [done|]. constructor; [|constructor]. simpl.
  exists arm. rewrite take_app_length. split; [|done]. by rewrite lookup_app_r, Nat.sub_diag by lia.
Qed.

Lemma exhausted_covers c : ranges_typed c v -> is_exhausted_by cs c = true -> covers c v.
Proof.
  intros Ht He. destruct Hinh as [Hk Hz]. unfold is_exhausted_by in He.
  destruct (fallback_witness cs); [done|]. destruct (Hk eq_refl) as (k & Hk1 & Hk2).
  apply (contains_key_covers _ _ k); [done..|].
  destruct (constructors cs) eqn:E; [done|]. by apply (proj1 (forallb_elem _ _) He).
Qed.

Lemma arm_unguarded_matched seen arm :
  arm_guard arm = None -> matches (arm_pattern arm) v = true -> matched_by (seen ++ [arm]).
Proof. intros. exists arm. split; [|done]. apply elem_of_app. right. by left. Qed.

Lemma analyze_arm_sound seen st arm :
  agrees (arm_pattern arm) v = true -> state_sound seen st ->
  state_sound (seen ++ [arm]) (analyze_arm cs st (length seen) arm).
Proof.
  intros Ha (Hc & Hcov & Ht & Hu). unfold analyze_arm.
  apply pattern_coverage_exact in Ha. unfold coverage_exact in Ha.
  destruct (catch_all st) eqn:Ec.
  { split_and!; simpl; auto using matched_by_app. apply unreachable_snoc; auto using unreachable_app. }
  destruct (coverage_witness _ _) as [w|] eqn:Ew.
  { destruct (pattern_coverage _) as [|c|]; try done. simpl in Ew. destruct Ha as [Ha _].
    split_and!; simpl; auto using matched_by_app.
    apply unreachable_snoc; [by apply unreachable_app|]. rewrite Ha. intros Hcv.
    apply Hcov. by apply (covered_witness_sound c _ w); [apply Hinh|..]. }
  destruct (arm_guard arm) eqn:Eg.
  { split_and!; auto using matched_by_app, unreachable_app. by rewrite Ec. }
  set (st' := match pattern_coverage _ with CatchAll => _ | Covered _ => _ | Opaque => _ end).
  assert (state_sound (seen ++ [arm]) st') as (Hc' & Hcov' & Ht' & Hu').
  { subst st'. destruct (pattern_coverage _) as [|c|]; split_and!; simpl; auto using matched_by_app, unreachable_app.
    - by intros _; apply arm_unguarded_matched.
    - destruct Ha as [Ha _]. rewrite covers_extend, <- Ha. intros [?|?]; auto using matched_by_app, arm_unguarded_matched.
    - destruct Ha as [_ Ha]. by apply ranges_typed_extend.
    - by rewrite Ec. }
  destruct (is_exhausted_by cs (covered st')) eqn:Ee; [|done].
  split_and!; simpl; auto. intros _. by apply Hcov', exhausted_covers.
Qed.

Lemma analyze_arms_sound arms seen st :
  Forall (fun arm => agrees (arm_pattern arm) v = true) arms -> state_sound seen st ->
  state_sound (seen ++ arms) (analyze_arms cs st (length seen) arms).
Proof.
  intros HF. revert seen st. induction HF as [|arm arms Ha HF IH]; intros seen st Hst; simpl; [by rewrite app_nil_r|].
  apply (analyze_arm_sound _ _ _ Ha) in Hst. specialize (IH _ _ Hst).
  rewrite length_app, Nat.add_1_r in IH. by rewrite <- app_assoc in IH.
Qed.

Lemma analyze_init_sound arms :
  Forall (fun arm => agrees (arm_pattern arm) v = true) arms -> state_sound arms (analyze_arms cs match_init 0 arms).
Proof.
  intros HF. apply (analyze_arms_sound arms []); [done|]. split_and!; simpl; try done.
  - intros Hd. by apply covers_default in Hd.
  - by intros [].
Qed.

(** The first unguarded match, or an earlier guarded one, is selected. *)
Lemma matched_selected guard_holds arms :
  matched_by arms -> exists arm, selected guard_holds arms v = Some arm.
Proof.
  induction arms as [|a arms IH]; intros (b & Hb & Hg & Hm); [by apply not_elem_of_nil in Hb|].
  simpl. case_match eqn:E; [eauto|]. apply elem_of_cons in Hb as [->|Hb].
  - by rewrite Hm, Hg in E.
  - apply IH. by exists b.
Qed.

Lemma selected_app guard_holds arms more :
  matched_by arms -> selected guard_holds (arms ++ more) v = selected guard_holds arms v.
Proof.
  intros Hm. destruct (matched_selected guard_holds _ Hm) as [arm Harm]. rewrite Harm. clear Hm. revert Harm.
  induction arms as [|a arms IH]; [done|]. simpl. case_match; [done|]. exact IH.
Qed.

(** *** Completeness on patterns whose coverage is exact *)

(** Every arm seen is unguarded and covered, and nothing else is. *)
Definition state_complete (seen : list MatchArm) (st : MatchState) : Prop :=
  catch_all st = false -> matched_by seen -> covers (covered st) v.

Definition exact_arm (arm : MatchArm) : Prop :=
  agrees (arm_pattern arm) v = true /\ arm_guard arm = None /\ pattern_coverage (arm_pattern arm) <> Opaque.

Lemma matched_by_snoc seen arm :
  matched_by (seen ++ [arm]) -> matched_by seen \/ matches (arm_pattern arm) v = true.
Proof.
  intros (a & Ha & Hg & Hm). apply elem_of_app in Ha as [Ha|Ha%list_elem_of_singleton]; [left|right; by subst].
  by exists a.
Qed.

Lemma analyze_arm_complete seen st arm :
  exact_arm arm -> state_sound seen st -> state_complete seen st ->
  state_complete (seen ++ [arm]) (analyze_arm cs st (length seen) arm).
Proof.
  intros (Ha & Hg & Ho) (_ & _ & Ht & _) Hc. apply pattern_coverage_exact in Ha. unfold coverage_exact in Ha.
  unfold analyze_arm, state_complete in *. destruct (catch_all st) eqn:Ec; [done|].
  destruct (coverage_witness _ _) as [w|] eqn:Ew.
  - simpl. intros _ [Hm|Hm]%matched_by_snoc; [auto|].
    destruct (pattern_coverage _) as [|c|]; try done. simpl in Ew. destruct Ha as [Ha _].
    apply (covered_witness_sound c _ w); [apply Hinh|done..|by apply Ha].
  - rewrite Hg. destruct (pattern_coverage _) as [|c|]; try done; case_match; try done; simpl; try done.
    intros _ [Hm|Hm]%matched_by_snoc; rewrite covers_extend; [left; auto|right; by apply Ha].
Qed.

Lemma analyze_arms_complete arms seen st :
  Forall exact_arm arms -> state_sound seen st -> state_complete seen st ->
  state_complete (seen ++ arms) (analyze_arms cs st (length seen) arms).
Proof.
  intros HF. revert seen st. induction HF as [|arm arms Ha HF IH]; intros seen st Hst Hc; simpl; [by rewrite app_nil_r|].
  specialize (IH _ _ (analyze_arm_sound _ _ _ (proj1 Ha) Hst) (analyze_arm_complete _ _ _ Ha Hst Hc)).
  rewrite length_app, Nat.add_1_r in IH. by rewrite <- app_assoc in IH.
Qed.

(** A value other than a float has one key. *)
Lemma has_key_unique k k' :
  (forall b, deref v <> VFloat b) -> has_key v k -> has_key v k' -> k = k'.
Proof. unfold has_key. intros Hf. case_match; try congruence; naive_solver. Qed.

Lemma covers_contains_key c k :
  (forall b, deref v <> VFloat b) -> has_key v k -> covers c v -> contains_key c k = true.
Proof.
  intros Hf Hk [(k' & Hk' & Hv)|(r & z & Hr & Hv & Hz)]; unfold contains_key; apply orb_true_iff.
  - left. apply bool_decide_eq_true. by rewrite (has_key_unique k k').
  - right. pose proof Hk as Hk2. unfold has_key in Hk2. rewrite Hv in Hk2. subst k.
    rewrite parse_i64_show by (destruct Hinh as [_ Hi]; auto). apply existsb_elem. eauto.
Qed.

(** C32: an arm that [analyze_match] reports unreachable is never the arm that
    runs: for every value of the scrutinee's type and whatever the guards
    evaluate to, if the reported arm's pattern matches the value then the match
    has already selected an arm before it. *)
Theorem unreachable_arm_not_selected (arms : list MatchArm) (guard_holds : MatchArm -> bool) (u : UnreachableArm) :
  Forall (fun arm => agrees (arm_pattern arm) v = true) arms ->
  u ∈ unreachable_arms (analyze_match arms cs) ->
  exists arm, arms !! ua_index u = Some arm /\
    (matches (arm_pattern arm) v = true ->
     exists first, selected guard_holds (take (ua_index u) arms) v = Some first /\
                   selected guard_holds arms v = Some first).
Proof.
  intros Ha Hu. destruct (analyze_init_sound arms Ha) as (_ & _ & _ & HF).
  rewrite Forall_forall in HF. destruct (HF u Hu) as (arm & Harm & Hm). exists arm. split; [done|].
  intros Hmatch. specialize (Hm Hmatch). destruct (matched_selected guard_holds _ Hm) as [first Hf].
  exists first. split; [done|]. rewrite <- (take_drop (ua_index u) arms) at 1. by rewrite selected_app.
Qed.

(** C33: a match for which [analyze_match] reports no missing witness is
    exhaustive: on every value of the scrutinee's type an arm is selected,
    whatever the guards evaluate to. *)
Theorem no_missing_witness_exhaustive (arms : list MatchArm) (guard_holds : MatchArm -> bool) :
  Forall (fun arm => agrees (arm_pattern arm) v = true) arms ->
  missing_witness (analyze_match arms cs) = None ->
  exists arm, selected guard_holds arms v = Some arm.
Proof.
  intros Ha Hm. destruct (analyze_init_sound arms Ha) as (Hc & Hcov & Ht & _).
  apply matched_selected. unfold analyze_match in Hm. simpl in Hm.
  destruct (catch_all _); [auto|]. destruct (List.find _ _) eqn:E; [done|].
  destruct Hinh as [Hk Hz]. destruct (Hk Hm) as (k & Hk1 & Hk2). apply Hcov.
  apply (contains_key_covers _ _ k); [done..|].
  apply negb_false_iff. by apply (List.find_none _ _ E), list_elem_of_In.
Qed.

(** a missing constructor is a real one: when every arm is unguarded and
    its pattern's coverage is known (no tuple, refutable payload or char range), the
    constructor that [analyze_match] names for a closed set belongs to the set,
    and no arm matches a value built with it. *)
Theorem missing_constructor_unmatched (arms : list MatchArm) (w : string) :
  Forall exact_arm arms -> fallback_witness cs = None ->
  missing_witness (analyze_match arms cs) = Some w ->
  w ∈ constructors cs /\
  ((forall b, deref v <> VFloat b) -> has_key v w -> forall arm, arm ∈ arms -> matches (arm_pattern arm) v = false).
Proof.
  intros HF Hfb Hm. unfold analyze_match in Hm. simpl in Hm. rewrite Hfb in Hm.
  destruct (catch_all _) eqn:Ec; [done|]. destruct (List.find _ _) eqn:E; [|done]. injection Hm as ->.
  apply List.find_some in E as [Hw%list_elem_of_In Hn]. split; [done|].
  intros Hf Hk arm Harm. apply not_true_iff_false. intros Hmatch.
  rewrite (covers_contains_key _ _ Hf Hk) in Hn; [done|].
  apply (analyze_arms_complete arms [] match_init HF); [|by intros ? (? & ?%not_elem_of_nil & ?)|done|].
  - apply (analyze_init_sound []). constructor.
  - rewrite Forall_forall in HF. exists arm. split_and!; [done|by apply HF|done].
Qed.
End Soundness.

(** ** Instances *)

(** A text of literals with the promised laws: the bits of a float in decimal,
    a string between quotes. *)
Definition plain_float_text (b : Z) : string := if float_is_nan b then "NaN" else show_Z b.
Definition quote_mark : string := String (Ascii.ascii_of_nat 34) EmptyString.
Definition plain_string_debug (s : string) : string := (quote_mark +:+ s +:+ quote_mark)%string.

Lemma show_Z_not_nan z : show_Z z <> "NaN"%string.
Proof.
  unfold show_Z, NilZero.string_of_int. destruct (Z.to_int z) as [d|d]; [|by destruct (NilZero.string_of_uint d)].
  unfold NilZero.string_of_uint. by destruct d.
Qed.

Lemma string_length_app s t : String.length (s +:+ t)%string = String.length s + String.length t.
Proof. induction s; simpl; auto. Qed.

Lemma string_app_inj_r (s t u : string) : (s +:+ u)%string = (t +:+ u)%string -> s = t.
Proof.
  revert t; induction s as [|a s IH]; intros [|b t]; simpl; try done.
  - intros E. apply (f_equal String.length) in E. rewrite !string_length_app in E. simpl in E. lia.
  - intros E. apply (f_equal String.length) in E. rewrite !string_length_app in E. simpl in E. lia.
  - intros [= -> E]. f_equal. auto.
Qed.

#[export, refine] Instance plain_text : LiteralText := { float_text := plain_float_text; string_debug := plain_string_debug }.
Proof.
  - intros a b. unfold plain_float_text.
    destruct (float_is_nan a), (float_is_nan b); [by right|..|intros E%show_Z_inj; by left].
    + intros E. by destruct (show_Z_not_nan b).
    + intros E. by destruct (show_Z_not_nan a).
  - unfold plain_string_debug. intros s t. simpl. intros [= E]. exact (string_app_inj_r s t quote_mark E).
Defined.

Definition arm_of (p : Pat) : MatchArm :=
  mkMatchArm p None (ELiteral (LInt 1) (Span_new_root 0 0)) (Span_new_root 0 0).
Definition int_pat (z : Z) : Pat := PLiteral (LInt z) (Span_new_root 0 0).
Definition enum_pat (ty variant : string) (fields : list Pat) : Pat := PEnum [ty; variant] fields (Span_new_root 0 0).

Lemma open_inhabits z : in_i64 z = true -> inhabits (open "_") (VInt z).
Proof. intros Hz. split; [done|]. by intros z' [= <-]. Qed.

(** [1..=9] covers [3]: the second arm is never selected on 3. *)
Lemma unreachable_arm_not_selected_witness :
  let arms := [arm_of (PRange (int_pat 1) (int_pat 9) true (Span_new_root 0 0)); arm_of (int_pat 3)] in
  exists arm, arms !! 1 = Some arm /\
    (matches (arm_pattern arm) (VInt 3) = true ->
     exists first, selected (fun _ => false) (take 1 arms) (VInt 3) = Some first /\
                   selected (fun _ => false) arms (VInt 3) = Some first).
Proof.
  intros arms.
  apply (unreachable_arm_not_selected (open "_") (VInt 3) (open_inhabits 3 eq_refl) arms (fun _ => false)
           (mkUnreachable 1 (Some "3"%string))).
  - repeat constructor.
  - vm_compute. left.
Defined.

Lemma maybe_inhabits v : inhabits (closed ["Maybe::Some"%string; "Maybe::None"%string]) (VEnum "Maybe" "None" v).
Proof. split; [|done]. intros _. exists "Maybe::None"%string. split; [right; left|done]. Qed.

Lemma no_missing_witness_exhaustive_witness :
  exists arm, selected (fun _ => false)
    [arm_of (enum_pat "Maybe" "Some" [PIdent "x" (Span_new_root 0 0)]); arm_of (enum_pat "Maybe" "None" [])]
    (VEnum "Maybe" "None" []) = Some arm.
Proof.
  apply (no_missing_witness_exhaustive _ _ (maybe_inhabits [])).
  - repeat constructor.
  - vm_compute. reflexivity.
Defined.

Lemma missing_constructor_unmatched_witness :
  let arms := [arm_of (enum_pat "Maybe" "Some" [PIdent "x" (Span_new_root 0 0)])] in
  length arms = 1 /\ forall arm, arm ∈ arms -> matches (arm_pattern arm) (VEnum "Maybe" "None" []) = false.
Proof.
  intros arms. split; [reflexivity|].
  apply (missing_constructor_unmatched _ _ (maybe_inhabits []) arms "Maybe::None").
  - repeat constructor. vm_compute. discriminate.
  - reflexivity.
  - vm_compute. reflexivity.
  - discriminate.
  - vm_compute. reflexivity.
Defined.
