(* ===== verification/Types.v ===== *)
(** The types of the type checker: [IntWidth], [FloatWidth] and [Type] of
    [compiler/paco-types/src/lib.rs], with the dimension expressions they hold
    ([ConstExpr], [Dim] and [DimOp] of [compiler/paco-types/src/dims.rs]).

    An integer constant of any width travels as an [i64] payload; the theorem
    of this file is that [wrap] puts a value of any size into the range of the
    width and that the payload is read back without loss. *)
From S2P Require Import Prelude.

Inductive IntWidth := I8 | I16 | I32 | I64 | U8 | U16 | U32 | U64.

#[export] Instance IntWidth_eq_dec : EqDecision IntWidth.
Proof. solve_decision. Defined.

Module IntWidth.
Definition name (w : IntWidth) : string :=
  match w with
  | I8 => "i8" | I16 => "i16" | I32 => "i32" | I64 => "i64"
  | U8 => "u8" | U16 => "u16" | U32 => "u32" | U64 => "u64"
  end.

Definition is_signed (w : IntWidth) : bool :=
  match w with I8 | I16 | I32 | I64 => true | _ => false end.

Definition bytes (w : IntWidth) : Z :=
  (match w with I8 | U8 => 1 | I16 | U16 => 2 | I32 | U32 => 4 | I64 | U64 => 8 end)%Z.

Definition range (w : IntWidth) : Z * Z :=
  (match w with
   | I8 => (- 2 ^ 7, 2 ^ 7 - 1)
   | I16 => (- 2 ^ 15, 2 ^ 15 - 1)
   | I32 => (- 2 ^ 31, 2 ^ 31 - 1)
   | I64 => (- 2 ^ 63, 2 ^ 63 - 1)
   | U8 => (0, 2 ^ 8 - 1)
   | U16 => (0, 2 ^ 16 - 1)
   | U32 => (0, 2 ^ 32 - 1)
   | U64 => (0, 2 ^ 64 - 1)
   end)%Z.

Definition to_i128 (w : IntWidth) (bits : Z) : Z :=
  match w with
  | U64 => as_u64 bits
  | _ => bits
  end.

Definition wrap (w : IntWidth) (value : Z) : Z :=
  (let bits := bytes w * 8 in
   let low := Z.land (value mod 2 ^ 128) (Z.shiftr (2 ^ 128 - 1) (128 - bits)) in
   if is_signed w && (Z.land (Z.shiftr low (bits - 1)) 1 =? 1)
   then as_i64 (low - Z.shiftl 1 bits)
   else as_i64 (as_u64 low))%Z.

Definition from_i128 (w : IntWidth) (value : Z) : Z :=
  match w with
  | U64 => as_i64 (as_u64 value)
  | _ => as_i64 value
  end.

Definition in_range (w : IntWidth) (value : Z) : Prop := ((range w).1 <= value <= (range w).2)%Z.

Lemma low_bits w value :
  (Z.land (value mod 2 ^ 128) (Z.shiftr (2 ^ 128 - 1) (128 - bytes w * 8)) = value mod 2 ^ (bytes w * 8))%Z.
Proof.
  replace (Z.shiftr (2 ^ 128 - 1) (128 - bytes w * 8)) with (Z.ones (bytes w * 8)) by (destruct w; reflexivity).
  rewrite Z.land_ones by (destruct w; simpl; lia).
  rewrite <- Znumtheory.Zmod_div_mod; [done|destruct w; simpl; lia..|].
  destruct w; simpl bytes;
    match goal with |- (2 ^ ?a | 2 ^ ?b)%Z => exists (2 ^ (b - a))%Z; reflexivity end.
Qed.

(** The sign bit of a value of [n] bits. *)
Lemma sign_bit (low n : Z) :
  (0 < n -> 0 <= low < 2 ^ n -> Z.land (Z.shiftr low (n - 1)) 1 = if low <? 2 ^ (n - 1) then 0 else 1)%Z.
Proof.
  intros Hn Hl. rewrite Z.shiftr_div_pow2 by lia. change 1%Z with (Z.ones 1) at 2. rewrite Z.land_ones by lia.
  change (2 ^ 1)%Z with 2%Z.
  assert (2 ^ n = 2 * 2 ^ (n - 1))%Z as E by (rewrite <- Z.pow_succ_r by lia; f_equal; lia).
  assert (0 < 2 ^ (n - 1))%Z by (apply Z.pow_pos_nonneg; lia).
  destruct (Z.ltb_spec low (2 ^ (n - 1))); [by rewrite Z.div_small by lia|].
  replace (low / 2 ^ (n - 1))%Z with 1%Z; [done|].
  apply Z.div_unique with (r := (low - 2 ^ (n - 1))%Z); lia.
Qed.

(** The wrapped value: the representative of [value] in the range. *)
Lemma wrap_value w value :
  let n := (bytes w * 8)%Z in
  let low := (value mod 2 ^ n)%Z in
  to_i128 w (wrap w value) = (if is_signed w && negb (low <? 2 ^ (n - 1))%Z then low - 2 ^ n else low)%Z.
Proof.
  intros n low. unfold wrap. rewrite low_bits. fold n low.
  assert (0 < n)%Z as Hn by (unfold n; destruct w; simpl; lia).
  assert (0 <= low < 2 ^ n)%Z as Hl by (apply Z.mod_pos_bound, Z.pow_pos_nonneg; lia).
  rewrite (sign_bit low n Hn Hl), Z.shiftl_mul_pow2, Z.mul_1_l by lia.
  assert (2 ^ n = 2 * 2 ^ (n - 1))%Z as E by (rewrite <- Z.pow_succ_r by lia; f_equal; lia).
  assert (2 ^ (n - 1) <= 2 ^ 63)%Z by (apply Z.pow_le_mono_r; unfold n; destruct w; simpl; lia).
  destruct (is_signed w) eqn:Es; simpl andb.
  - assert (forall z, to_i128 w z = z) as Hi by (by destruct w). rewrite Hi.
    destruct (Z.ltb_spec low (2 ^ (n - 1))); cbn [Z.eqb Pos.eqb negb].
    + rewrite as_u64_id, as_i64_id; unfold i64_min, i64_max, u64_max; lia.
    + apply as_i64_id. unfold i64_min, i64_max. lia.
  - assert (w = U64 \/ (2 ^ n <= 2 ^ 32)%Z /\ forall z, to_i128 w z = z) as [->|[Hw ->]]
      by (destruct w; try done; [right; split; by unfold n..|by left]).
    + simpl. assert (2 ^ n = 2 ^ 64)%Z as E2 by done. rewrite (as_u64_id low), as_u64_as_i64; unfold u64_max; lia.
    + rewrite as_u64_id, as_i64_id; unfold i64_min, i64_max, u64_max; lia.
Qed.

(** [IntWidth::wrap] of any value yields a payload that [to_i128] reads as
    the one value of the width's range congruent to it modulo [2^bits];
    [from_i128] is its inverse on values in range, and a value already in
    range is wrapped to itself. *)
Theorem wrap_canonical w value :
  let v := to_i128 w (wrap w value) in
  in_range w v /\ (v mod 2 ^ (bytes w * 8) = value mod 2 ^ (bytes w * 8))%Z /\
  to_i128 w (from_i128 w v) = v /\
  (in_range w value -> v = value).
Proof.
  intros v. assert (v = to_i128 w (wrap w value)) as Hv by done. rewrite wrap_value in Hv.
  set (n := (bytes w * 8)%Z) in *.
  pose proof (Z.mod_pos_bound value (2 ^ n)) as Hb.
  assert (in_range w v /\ (v mod 2 ^ n = value mod 2 ^ n)%Z /\ to_i128 w (from_i128 w v) = v) as (H1 & H2 & H3).
  { unfold in_range, from_i128, to_i128, as_i64, as_u64.
    destruct w; cbn [bytes is_signed range fst snd andb negb] in *; subst n; cbn -[Z.modulo] in *;
      split_and!; repeat case_match; divs. }
  split_and!; try done. intros Hr.
  unfold in_range in *. destruct w; subst n; cbn -[Z.modulo] in *; divs.
Qed.

Lemma wrap_canonical_witness :
  to_i128 I8 (wrap I8 100) = 100%Z /\ to_i128 U64 (wrap U64 (-1)) = (2 ^ 64 - 1)%Z.
Proof.
  split; [|reflexivity].
  destruct (wrap_canonical I8 100) as (_ & _ & _ & H). apply H. vm_compute. split; discriminate.
Defined.
End IntWidth.

Inductive FloatWidth := F64 | F32 | F16 | BF16 | F8E4M3 | F8E5M2.

#[export] Instance FloatWidth_eq_dec : EqDecision FloatWidth.
Proof. solve_decision. Defined.

Module FloatWidth.
Definition name (w : FloatWidth) : string :=
  match w with
  | F64 => "float" | F32 => "f32" | F16 => "f16" | BF16 => "bf16" | F8E4M3 => "f8e4m3" | F8E5M2 => "f8e5m2"
  end.

Definition from_name (n : string) : option FloatWidth :=
  if bool_decide (n = "float"%string \/ n = "f64"%string) then Some F64
  else if bool_decide (n = "f32"%string) then Some F32
  else if bool_decide (n = "f16"%string) then Some F16
  else if bool_decide (n = "bf16"%string) then Some BF16
  else if bool_decide (n = "f8e4m3"%string) then Some F8E4M3
  else if bool_decide (n = "f8e5m2"%string) then Some F8E5M2
  else None.

Definition bytes (w : FloatWidth) : Z :=
  (match w with F64 => 8 | F32 => 4 | F16 | BF16 => 2 | F8E4M3 | F8E5M2 => 1 end)%Z.

Definition has_arithmetic (w : FloatWidth) : bool :=
  match w with F8E4M3 | F8E5M2 => false | _ => true end.
End FloatWidth.

(** ** Dimensions and types *)

Inductive DimOp := DAdd | DSub | DMul | DDiv | DRem.

#[export] Instance DimOp_eq_dec : EqDecision DimOp.
Proof. solve_decision. Defined.

(** A [PolyId] is an index into the arena of [Dims].  [written] is the form
    the user wrote and its precedence. *)
Record ConstExpr := mkConstExpr { ce_poly : nat; ce_written : option (string * nat) }.

Inductive Dim :=
| DConst (e : ConstExpr)
| DDyn.

Inductive Type_ :=
| TyInt (w : IntWidth)
| TyFloat (w : FloatWidth)
| TyBool
| TyString
| TyChar
| TyUnit
| TyNever
| TyStruct (name : string) (args : list Type_)
| TyEnum (name : string) (args : list Type_)
| TyBorrow (mutable : bool) (ty : Type_)
| TyRawPointer (mutable : bool) (ty : Type_)
| TySlice (ty : Type_)
| TyTuple (items : list Type_)
| TyFn (params : list Type_) (ret : Type_) (abi : option string) (is_unsafe : bool)
| TyGeneric (name : string)
| TyTypeValue (ty : Type_)
| TyCode
| TyDim (d : Dim)
| TyPack (items : list Type_)
| TySpread (name : string)
| TyUnknown
| TyError.
