(* ===== verification/BTreeMap.v ===== *)
(** [std::collections::BTreeMap] as a list sorted by key: the operations the
    modelled code uses, with their laws, over any total order. *)
From S2P Require Import Prelude.

Section BTreeMap.
Context {K V : Type} (cmp : K -> K -> comparison) `{!TotalOrd cmp}.

Definition btree : Type := list (K * V).

Definition bt_sorted (m : btree) : Prop := StronglySorted (fun a b => cmp a.1 b.1 = Lt) m.

Fixpoint bt_get (k : K) (m : btree) : option V :=
  match m with
  | [] => None
  | (k', v) :: m' => match cmp k k' with Eq => Some v | Lt => None | Gt => bt_get k m' end
  end.

Fixpoint bt_insert (k : K) (v : V) (m : btree) : btree :=
  match m with
  | [] => [(k, v)]
  | (k', v') :: m' =>
      match cmp k k' with
      | Eq => (k', v) :: m'
      | Lt => (k, v) :: (k', v') :: m'
      | Gt => (k', v') :: bt_insert k v m'
      end
  end.

Fixpoint bt_remove (k : K) (m : btree) : btree :=
  match m with
  | [] => []
  | (k', v') :: m' =>
      match cmp k k' with
      | Eq => m'
      | Lt => (k', v') :: m'
      | Gt => (k', v') :: bt_remove k m'
      end
  end.

Lemma bt_insert_elem k v m e : e ∈ bt_insert k v m -> e = (k, v) \/ e ∈ m.
Proof.
  induction m as [|[k' v'] m IH]; simpl; [set_solver|]. case_match eqn:E.
  - apply cmp_eq in E as ->. set_solver.
  - set_solver.
  - rewrite elem_of_cons. intros [->|He]; [right; left|]. apply IH in He. set_solver.
Qed.

Lemma bt_remove_elem k m e : e ∈ bt_remove k m -> e ∈ m.
Proof. induction m as [|[k' v'] m IH]; simpl; [done|]. case_match; set_solver. Qed.

Lemma bt_insert_sorted k v m : bt_sorted m -> bt_sorted (bt_insert k v m).
Proof.
  induction 1 as [|[k' v'] m Hm IH Hk]; simpl; [repeat constructor|].
  rewrite Forall_forall in Hk. case_match eqn:E.
  - constructor; [done|]. by rewrite Forall_forall.
  - constructor; [constructor; [done|by rewrite Forall_forall]|]. constructor; [done|].
    rewrite Forall_forall. intros x Hx. specialize (Hk x Hx). simpl in *. by eapply cmp_lt_trans.
  - constructor; [done|]. rewrite Forall_forall. intros x [->|Hx]%bt_insert_elem; simpl; [|auto].
    by apply cmp_gt_lt.
Qed.

Lemma bt_remove_sorted k m : bt_sorted m -> bt_sorted (bt_remove k m).
Proof.
  induction 1 as [|[k' v'] m Hm IH Hk]; simpl; [constructor|].
  rewrite Forall_forall in Hk. case_match; [done|constructor; [done|by rewrite Forall_forall]|].
  constructor; [done|]. rewrite Forall_forall. intros x Hx%bt_remove_elem. auto.
Qed.

Lemma bt_get_elem k v m : bt_get k m = Some v -> (k, v) ∈ m.
Proof.
  induction m as [|[k' v'] m IH]; simpl; [done|]. case_match eqn:E; [|done|].
  - intros [= ->]. apply cmp_eq in E as ->. left.
  - intros. right. auto.
Qed.

Lemma bt_elem_get k v m : bt_sorted m -> (k, v) ∈ m -> bt_get k m = Some v.
Proof.
  induction 1 as [|[k' v'] m Hm IH Hk]; [by intros ?%not_elem_of_nil|].
  rewrite Forall_forall in Hk. simpl. intros [[= -> ->]|Hin]%elem_of_cons; [by rewrite cmp_refl|].
  specialize (Hk _ Hin). simpl in Hk. apply cmp_gt_lt in Hk. rewrite Hk. auto.
Qed.

Lemma bt_filter_sorted (f : K * V -> bool) m : bt_sorted m -> bt_sorted (List.filter f m).
Proof.
  induction 1 as [|x m Hm IH Hk]; simpl; [constructor|]. case_match; [|done].
  constructor; [done|]. rewrite Forall_forall in Hk |- *. intros y Hy.
  apply list_elem_of_In, filter_In in Hy as [Hy _]. by apply Hk, list_elem_of_In.
Qed.
End BTreeMap.
Arguments btree : clear implicits.

(** ** Weighted sums *)

Section Sum.
Context {K : Type} (cmp : K -> K -> comparison) `{!TotalOrd cmp} (w : K -> Z).

(** The value of a polynomial whose monomials have the value [w]. *)
Definition bt_sum (m : btree K Z) : Z := foldr (fun e acc => e.2 * w e.1 + acc)%Z 0%Z m.

Definition get_or_0 (k : K) (m : btree K Z) : Z := match bt_get cmp k m with Some c => c | None => 0%Z end.

Lemma bt_sum_insert k c m :
  bt_sum (bt_insert cmp k c m) = (bt_sum m + (c - get_or_0 k m) * w k)%Z.
Proof.
  unfold get_or_0. induction m as [|[k' c'] m IH]; simpl; [lia|].
  destruct (cmp k k') eqn:E; simpl; [|lia|rewrite IH; lia]. apply cmp_eq in E as ->. lia.
Qed.

Lemma bt_sum_remove k m : bt_sum (bt_remove cmp k m) = (bt_sum m - get_or_0 k m * w k)%Z.
Proof.
  unfold get_or_0. induction m as [|[k' c'] m IH]; simpl; [lia|].
  destruct (cmp k k') eqn:E; simpl; [|lia|rewrite IH; lia]. apply cmp_eq in E as ->. lia.
Qed.

Lemma bt_sum_filter m : bt_sum (List.filter (fun e => negb (e.2 =? 0)%Z) m) = bt_sum m.
Proof.
  induction m as [|[k c] m IH]; simpl; [done|]. destruct (Z.eqb_spec c 0); simpl; lia.
Qed.
End Sum.

Lemma bt_sum_ext {K} (w w' : K -> Z) m : Forall (fun e => w e.1 = w' e.1) m -> bt_sum w m = bt_sum w' m.
Proof. induction 1 as [|[k c] m H HF IH]; simpl in *; [done|]. by rewrite H, IH. Qed.
