(* ===== verification/Dims.v ===== *)
(** Symbolic dimensions: [compiler/paco-types/src/dims.rs].

    A dimension is an integer polynomial over const parameters; equal
    polynomials share one [PolyId].  The global arena of the source, behind a
    mutex, is an explicit state: an operation takes the arena and returns the
    new one.  A [BTreeMap] is a sorted list, a [HashMap] a [gmap]; [PolyId] and
    [DimVarId] are indices.

    The recursive walks go from a polynomial to the operands of its opaque
    atoms.  They take a fuel; in a well-formed arena the operands of
    polynomial [id] have smaller ids, so [S id] is enough. *)
From S2P Require Import Prelude BTreeMap Types.
Local Open Scope Z_scope.

(** ** Data *)

Definition symbol (op : DimOp) : string :=
  match op with DAdd => "+" | DSub => "-" | DMul => "*" | DDiv => "/" | DRem => "%" end.

Definition precedence (op : DimOp) : nat :=
  match op with DAdd | DSub => 1%nat | DMul | DDiv | DRem => 2%nat end.

Inductive Verdict := Equal | Different | CannotProve.

Inductive Atom :=
| AParam (name : string)
| AOpaque (op : DimOp) (l r : nat).

Definition DimOp_to_nat (op : DimOp) : nat :=
  match op with DAdd => 0 | DSub => 1 | DMul => 2 | DDiv => 3 | DRem => 4 end%nat.
Definition DimOp_of_nat (n : nat) : option DimOp :=
  match n with 0 => Some DAdd | 1 => Some DSub | 2 => Some DMul | 3 => Some DDiv | 4 => Some DRem | _ => None end%nat.

#[export] Instance DimOp_countable : Countable DimOp.
Proof. apply (inj_countable DimOp_to_nat DimOp_of_nat). by intros []. Defined.

(** A monomial: atoms with their exponents, by increasing atom. *)
Definition Monomial : Type := list (nat * Z).
Definition mono_cmp : Monomial -> Monomial -> comparison := list_cmp (pair_cmp Nat.compare Z.compare).

#[export] Instance mono_cmp_total : TotalOrd mono_cmp := _.

(** Coefficients by monomial, sorted. *)
Definition Poly : Type := list (Monomial * Z).

Record Arena := mkArena {
  atoms : list Atom;
  params : gmap string nat;
  opaques : gmap (DimOp * nat * nat) nat;
  polys : list (Poly * option Z);
  poly_ids : gmap Poly nat;
  lits : gmap Z nat }.

Definition arena_default : Arena := mkArena [] ∅ ∅ [] ∅ ∅.

(** [self.polys[id].0] and [self.atoms[atom]]; an index out of range panics in
    the source and does not occur with the ids of an arena. *)
Definition poly_of (A : Arena) (id : nat) : Poly := match polys A !! id with Some (p, _) => p | None => [] end.
Definition lit_of (A : Arena) (id : nat) : option Z := match polys A !! id with Some (_, l) => l | None => None end.

Definition u32_max : Z := 2 ^ 32 - 1.

(** ** Operations of the arena *)

Definition poly_lit (p : Poly) : option Z :=
  match length p with
  | 0%nat => Some 0
  | 1%nat => bt_get mono_cmp [] p
  | _ => None
  end.

Definition intern (A : Arena) (p : Poly) : Arena * nat :=
  match poly_ids A !! p with
  | Some id => (A, id)
  | None =>
      let lit := poly_lit p in
      let id := length (polys A) in
      (mkArena (atoms A) (params A) (opaques A) (polys A ++ [(p, lit)]) (<[p := id]> (poly_ids A))
         (match lit with Some value => <[value := id]> (lits A) | None => lits A end), id)
  end.

Definition lit_poly (value : Z) : Poly := if value =? 0 then [] else [([], value)].

Definition arena_lit (A : Arena) (value : Z) : Arena * nat :=
  match lits A !! value with
  | Some id => (A, id)
  | None => intern A (lit_poly value)
  end.

Definition atom_poly (A : Arena) (atom : nat) : Arena * nat := intern A [([(atom, 1)], 1)].

Definition param_atom (A : Arena) (name : string) : Arena * nat :=
  match params A !! name with
  | Some id => (A, id)
  | None =>
      let id := length (atoms A) in
      (mkArena (atoms A ++ [AParam name]) (<[name := id]> (params A)) (opaques A) (polys A) (poly_ids A) (lits A), id)
  end.

Definition arena_param (A : Arena) (name : string) : Arena * nat :=
  let '(A, atom) := param_atom A name in atom_poly A atom.

Definition opaque_atom (A : Arena) (op : DimOp) (l r : nat) : Arena * nat :=
  match opaques A !! (op, l, r) with
  | Some id => (A, id)
  | None =>
      let id := length (atoms A) in
      (mkArena (atoms A ++ [AOpaque op l r]) (params A) (<[(op, l, r) := id]> (opaques A)) (polys A) (poly_ids A)
         (lits A), id)
  end.

Definition opaque (A : Arena) (op : DimOp) (l r : nat) : Arena * nat :=
  let '(A, atom) := opaque_atom A op l r in atom_poly A atom.

(** Machine arithmetic of the operators; division truncates, and by zero or
    [MIN / -1] it has no result. *)
Definition fold_op (op : DimOp) (a b : Z) : option Z :=
  match op with
  | DAdd => check_i64 (a + b)
  | DSub => check_i64 (a - b)
  | DMul => check_i64 (a * b)
  | DDiv => if b =? 0 then None else check_i64 (Z.quot a b)
  | DRem => if (b =? 0) || (a =? i64_min) && (b =? -1) then None else Some (Z.rem a b)
  end.

Fixpoint merge (l r : Monomial) : option Monomial :=
  let fix go (r : Monomial) : option Monomial :=
    match l, r with
    | [], _ => Some r
    | _, [] => Some l
    | a :: l', b :: r' =>
        match Nat.compare a.1 b.1 with
        | Lt => cons a <$> merge l' r
        | Gt => cons b <$> go r'
        | Eq => if a.2 + b.2 <=? u32_max then cons (a.1, a.2 + b.2) <$> merge l' r' else None
        end
    end
  in go r.

(** The loop of [combine] over the terms of the right polynomial. *)
Fixpoint combine_loop (sign : Z) (out right_ : Poly) : option Poly :=
  match right_ with
  | [] => Some out
  | (mono, coeff) :: rest =>
      d ← check_i64 (coeff * sign);
      entry ← check_i64 (get_or_0 mono_cmp mono out + d);
      combine_loop sign (if entry =? 0 then bt_remove mono_cmp mono out else bt_insert mono_cmp mono entry out) rest
  end.

Definition combine (A : Arena) (l r : nat) (sign : Z) : option (Arena * nat) :=
  out ← combine_loop sign (poly_of A l) (poly_of A r); Some (intern A out).

(** The inner and outer loops of [product]. *)
Fixpoint product_row (lm : Monomial) (lc : Z) (out right_ : Poly) : option Poly :=
  match right_ with
  | [] => Some out
  | (rm, rc) :: rest =>
      mono ← merge lm rm;
      d ← check_i64 (lc * rc);
      entry ← check_i64 (get_or_0 mono_cmp mono out + d);
      product_row lm lc (bt_insert mono_cmp mono entry out) rest
  end.

Fixpoint product_loop (out left_ right_ : Poly) : option Poly :=
  match left_ with
  | [] => Some out
  | (lm, lc) :: rest => out ← product_row lm lc out right_; product_loop out rest right_
  end.

Definition product (A : Arena) (l r : nat) : option (Arena * nat) :=
  out ← product_loop [] (poly_of A l) (poly_of A r);
  Some (intern A (List.filter (fun e => negb (e.2 =? 0)) out)).

Definition apply (A : Arena) (op : DimOp) (l r : nat) : Arena * nat :=
  match lit_of A l, lit_of A r with
  | Some a, Some b =>
      match fold_op op a b with
      | Some value => arena_lit A value
      | None => opaque A op l r
      end
  | _, _ =>
      let result :=
        match op with
        | DAdd => combine A l r 1
        | DSub => combine A l r (-1)
        | DMul => product A l r
        | DDiv | DRem => None
        end in
      match result with
      | Some res => res
      | None => opaque A op l r
      end
  end.

(** ** Substitutions *)

Abbreviation Subst := (gmap string Type_).

Inductive Binding := BKeep | BDyn | BTo (p : nat) | BRename (other : string).

Definition binding (name : string) (s : Subst) : Binding :=
  match s !! name with
  | Some (TyDim (DConst expr)) => BTo (ce_poly expr)
  | Some (TyDim DDyn) => BDyn
  | Some (TyGeneric other) => if bool_decide (other = name) then BKeep else BRename other
  | _ => BKeep
  end.

Definition is_unbound (name : string) (s : Subst) : bool :=
  match s !! name with Some (TyGeneric other) => bool_decide (other = name) | _ => false end.

(** [self.polys[id].0.keys().flatten()] *)
Definition atoms_in (p : Poly) : list nat := flat_map (fun e => map fst e.1) p.

(** Whether some name below [id] satisfies [test]: the walk of [touches],
    [any_name] and, negated, [is_ground]. *)
Fixpoint any_name_walk (A : Arena) (test : string -> bool) (fuel id : nat) : bool :=
  match fuel with
  | O => false
  | S fuel =>
      existsb
        (fun atom =>
           match atoms A !! atom with
           | Some (AParam name) => test name
           | Some (AOpaque _ l r) => any_name_walk A test fuel l || any_name_walk A test fuel r
           | None => false
           end)
        (atoms_in (poly_of A id))
  end.

Definition touches (A : Arena) (id : nat) (s : Subst) : bool :=
  any_name_walk A (fun name => match binding name s with BKeep => false | _ => true end) (S id) id.

(** The factors of one term of [eval]. *)
Fixpoint eval_mono (value : nat -> option Z) (term : Z) (mono : Monomial) : option Z :=
  match mono with
  | [] => Some term
  | (atom, exp) :: rest =>
      v ← value atom;
      p ← check_i64 (v ^ exp);
      term ← check_i64 (term * p);
      eval_mono value term rest
  end.

Fixpoint eval_terms (value : nat -> option Z) (total : Z) (p : Poly) : option Z :=
  match p with
  | [] => Some total
  | (mono, coeff) :: rest =>
      term ← eval_mono value coeff mono;
      total ← check_i64 (total + term);
      eval_terms value total rest
  end.

Fixpoint eval_fuel (A : Arena) (s : Subst) (fuel id : nat) : option Z :=
  match fuel with
  | O => None
  | S fuel =>
      eval_terms
        (fun atom =>
           match atoms A !! atom with
           | Some (AParam name) => match binding name s with BTo bound => lit_of A bound | _ => None end
           | Some (AOpaque op l r) => a ← eval_fuel A s fuel l; b ← eval_fuel A s fuel r; fold_op op a b
           | None => None
           end) 0 (poly_of A id)
  end.

Definition eval (A : Arena) (id : nat) (s : Subst) : option Z := eval_fuel A s (S id) id.

(** [for _ in 0..exp { term = self.apply(Mul, term, value) }] *)
Fixpoint apply_pow (A : Arena) (term value : nat) (exp : nat) : Arena * nat :=
  match exp with
  | O => (A, term)
  | S exp => let '(A, term) := apply A DMul term value in apply_pow A term value exp
  end.

(** The loops of [resolve]; [value] resolves one atom.  An early [None] keeps
    the arena as it is by then. *)
Fixpoint resolve_mono (value : Arena -> nat -> Arena * option nat) (A : Arena) (term : nat) (mono : Monomial)
  : Arena * option nat :=
  match mono with
  | [] => (A, Some term)
  | (atom, exp) :: rest =>
      match value A atom with
      | (A, None) => (A, None)
      | (A, Some v) => let '(A, term) := apply_pow A term v (Z.to_nat exp) in resolve_mono value A term rest
      end
  end.

Fixpoint resolve_terms (value : Arena -> nat -> Arena * option nat) (A : Arena) (total : nat) (p : Poly)
  : Arena * option nat :=
  match p with
  | [] => (A, Some total)
  | (mono, coeff) :: rest =>
      let '(A, term) := arena_lit A coeff in
      match resolve_mono value A term mono with
      | (A, None) => (A, None)
      | (A, Some term) => let '(A, total) := apply A DAdd total term in resolve_terms value A total rest
      end
  end.

Fixpoint resolve_fuel (s : Subst) (fuel : nat) (A : Arena) (id : nat) : Arena * option nat :=
  match fuel with
  | O => (A, None)
  | S fuel =>
      if negb (touches A id s) then (A, Some id)
      else
        match eval A id s with
        | Some value => let '(A, i) := arena_lit A value in (A, Some i)
        | None =>
            let p := poly_of A id in
            let '(A, total) := arena_lit A 0 in
            resolve_terms
              (fun A atom =>
                 match atoms A !! atom with
                 | Some (AParam name) =>
                     match binding name s with
                     | BKeep => let '(A, i) := atom_poly A atom in (A, Some i)
                     | BDyn => (A, None)
                     | BTo bound => (A, Some bound)
                     | BRename other => let '(A, i) := arena_param A other in (A, Some i)
                     end
                 | Some (AOpaque op l r) =>
                     match resolve_fuel s fuel A l with
                     | (A, None) => (A, None)
                     | (A, Some l') =>
                         match resolve_fuel s fuel A r with
                         | (A, None) => (A, None)
                         | (A, Some r') => let '(A, i) := apply A op l' r' in (A, Some i)
                         end
                     end
                 | None => (A, None)
                 end) A total p
        end
  end.

Definition resolve (A : Arena) (id : nat) (s : Subst) : Arena * option nat := resolve_fuel s (S id) A id.

(** The atoms in [out] grow in the order they are met. *)
Fixpoint unbound_params_fuel (A : Arena) (s : Subst) (fuel id : nat) (out : list nat) : list nat :=
  match fuel with
  | O => out
  | S fuel =>
      fold_left
        (fun out atom =>
           match atoms A !! atom with
           | Some (AParam name) =>
               if is_unbound name s && negb (bool_decide (atom ∈ out)) then out ++ [atom] else out
           | Some (AOpaque _ l r) => unbound_params_fuel A s fuel r (unbound_params_fuel A s fuel l out)
           | None => out
           end)
        (atoms_in (poly_of A id)) out
  end.

Definition unbound_params (A : Arena) (id : nat) (s : Subst) (out : list nat) : list nat :=
  unbound_params_fuel A s (S id) id out.

Definition linear_in_unbound (A : Arena) (expected actual : nat) (s : Subst) : Arena * option (nat * Z * nat) :=
  let '(A, difference) := apply A DSub expected actual in
  match unbound_params A difference s [] with
  | [param] =>
      let p := poly_of A difference in
      match bt_get mono_cmp [(param, 1)] p with
      | None => (A, None)
      | Some coeff =>
          let '(A, rest) := intern A (bt_remove mono_cmp [(param, 1)] p) in
          (A, match unbound_params A rest s [] with [] => Some (param, coeff, rest) | _ => None end)
      end
  | _ => (A, None)
  end.

(** The name of a parameter atom; an opaque atom is unreachable here. *)
Definition param_name (A : Arena) (atom : nat) : option string :=
  match atoms A !! atom with Some (AParam name) => Some name | _ => None end.

(** ** [ConstExpr] *)

Definition ce_lit (A : Arena) (value : Z) : Arena * ConstExpr :=
  let '(A, p) := arena_lit A value in (A, mkConstExpr p None).

Definition ce_param (A : Arena) (name : string) : Arena * ConstExpr :=
  let '(A, p) := arena_param A name in (A, mkConstExpr p None).

Definition as_lit (A : Arena) (e : ConstExpr) : option Z := lit_of A (ce_poly e).

Definition as_param (A : Arena) (e : ConstExpr) : option string :=
  match poly_of A (ce_poly e) with
  | [([(atom, 1)], 1)] => param_name A atom
  | _ => None
  end.

Definition substitute (A : Arena) (e : ConstExpr) (s : Subst) : Arena * option ConstExpr :=
  match resolve A (ce_poly e) s with
  | (A, None) => (A, None)
  | (A, Some p) => (A, Some (if bool_decide (p = ce_poly e) then e else mkConstExpr p None))
  end.

Definition is_ground (A : Arena) (e : ConstExpr) : bool :=
  negb (any_name_walk A (fun _ => true) (S (ce_poly e)) (ce_poly e)).

Definition any_name (A : Arena) (e : ConstExpr) (test : string -> bool) : bool :=
  any_name_walk A test (S (ce_poly e)) (ce_poly e).

Fixpoint names_walk (A : Arena) (fuel id : nat) (out : list string) : list string :=
  match fuel with
  | O => out
  | S fuel =>
      fold_left
        (fun out atom =>
           match atoms A !! atom with
           | Some (AParam name) => if bool_decide (name ∈ out) then out else out ++ [name]
           | Some (AOpaque _ l r) => names_walk A fuel r (names_walk A fuel l out)
           | None => out
           end)
        (atoms_in (poly_of A id)) out
  end.

Definition names (A : Arena) (e : ConstExpr) : list string := names_walk A (S (ce_poly e)) (ce_poly e) [].

Inductive Factor :=
| FName (name : string)
| FOpaque (op : DimOp) (l r : ConstExpr).

Definition factor_of (A : Arena) (atom : nat) : option Factor :=
  match atoms A !! atom with
  | Some (AParam name) => Some (FName name)
  | Some (AOpaque op l r) => Some (FOpaque op (mkConstExpr l None) (mkConstExpr r None))
  | None => None
  end.

Definition terms (A : Arena) (e : ConstExpr) : list (Z * list (option Factor * Z)) :=
  map (fun t => (t.2, map (fun f => (factor_of A f.1, f.2)) t.1)) (poly_of A (ce_poly e)).

Definition verdict (A : Arena) (expected actual : ConstExpr) : Arena * Verdict :=
  if bool_decide (ce_poly expected = ce_poly actual) then (A, Equal)
  else
    let '(A, difference) := apply A DSub (ce_poly expected) (ce_poly actual) in
    (A, match lit_of A difference with
        | Some 0 => Equal
        | Some _ => Different
        | None => CannotProve
        end).

(** A lone parameter stays a [Generic]. *)
Definition dim_type (A : Arena) (d : Dim) : Type_ :=
  match d with
  | DConst e => match as_param A e with Some name => TyGeneric name | None => TyDim (DConst e) end
  | DDyn => TyDim DDyn
  end.

(** The closure of [unify]: [None] fails, [Some None] needs no binding. *)
Definition solve (A : Arena) (expected actual : nat) (s : Subst) : Arena * option (option (string * nat)) :=
  match resolve A expected s with
  | (A, None) => (A, None)
  | (A, Some expected) =>
      match resolve A actual s with
      | (A, None) => (A, None)
      | (A, Some actual) =>
          if bool_decide (expected = actual) then (A, Some None)
          else
            match linear_in_unbound A expected actual s with
            | (A, None) => (A, None)
            | (A, Some (param, coeff, rest)) =>
                let '(A, value) :=
                  match coeff with
                  | 1 => let '(A, zero) := arena_lit A 0 in let '(A, v) := apply A DSub zero rest in (A, Some v)
                  | -1 => (A, Some rest)
                  | _ => (A, None)
                  end in
                (A, v ← value; name ← param_name A param; Some (Some (name, v)))
            end
      end
  end.

Definition unify (A : Arena) (expected actual : Dim) (s : Subst) : Arena * Subst * bool :=
  match expected, actual with
  | DDyn, DDyn => (A, s, true)
  | DConst e, DConst a =>
      match solve A (ce_poly e) (ce_poly a) s with
      | (A, Some None) => (A, s, true)
      | (A, Some (Some (name, value))) =>
          (A, <[name := dim_type A (DConst (mkConstExpr value None))]> s, true)
      | (A, None) => (A, s, false)
      end
  | _, _ => (A, s, false)
  end.

(** The value [uninferred] reports for [coeff * N + rest = 0]. *)
Definition uninferred_value (A : Arena) (coeff : Z) (rest : nat) : option Z :=
  rest ← lit_of A rest;
  rem ← fold_op DRem rest coeff;
  if rem =? 0 then q ← fold_op DDiv rest coeff; check_i64 (- q) else None.

Definition uninferred (A : Arena) (expected actual : ConstExpr) (s : Subst) : Arena * option (string * option Z) :=
  match resolve A (ce_poly expected) s with
  | (A, None) => (A, None)
  | (A, Some expected) =>
      match resolve A (ce_poly actual) s with
      | (A, None) => (A, None)
      | (A, Some actual) =>
          match unbound_params A expected s [] with
          | [] => (A, None)
          | first :: _ =>
              let '(A, linear) := linear_in_unbound A expected actual s in
              let value := '(_, coeff, rest) ← linear; uninferred_value A coeff rest in
              (A, name ← param_name A first; Some (name, value))
          end
      end
  end.

Definition substitute_dim (A : Arena) (d : Dim) (s : Subst) : Arena * Type_ :=
  match d with
  | DDyn => (A, TyDim DDyn)
  | DConst e =>
      match substitute A e s with
      | (A, Some result) =>
          (A, if bool_decide (ce_poly result = ce_poly e) then TyDim d else dim_type A (DConst result))
      | (A, None) => (A, TyDim DDyn)
      end
  end.

(** ** Well-formed arenas *)

Definition mono_wf (A : Arena) (m : Monomial) : Prop :=
  StronglySorted (fun a b => (a.1 < b.1)%nat) m /\
  Forall (fun f => 1 <= f.2 <= u32_max /\ (f.1 < length (atoms A))%nat) m.

(** Sorted, over the arena's atoms, with machine coefficients. *)
Definition terms_wf (A : Arena) (p : Poly) : Prop :=
  bt_sorted mono_cmp p /\ Forall (fun e => mono_wf A e.1 /\ in_i64 e.2 = true) p.

(** Canonical: no zero coefficient. *)
Definition poly_wf (A : Arena) (p : Poly) : Prop := terms_wf A p /\ Forall (fun e => e.2 <> 0) p.

(** The operands of the opaque atoms of [p] come before [i]. *)
Definition operands_below (A : Arena) (i : nat) (p : Poly) : Prop :=
  forall a op l r, a ∈ atoms_in p -> atoms A !! a = Some (AOpaque op l r) -> (l < i)%nat /\ (r < i)%nat.

Record arena_ok (A : Arena) : Prop := {
  ok_ids : forall p i, poly_ids A !! p = Some i <-> polys A !! i = Some (p, poly_lit p);
  ok_lit : forall i p l, polys A !! i = Some (p, l) -> l = poly_lit p;
  ok_poly : forall i p l, polys A !! i = Some (p, l) -> poly_wf A p /\ operands_below A i p;
  ok_lits : forall z i, lits A !! z = Some i -> polys A !! i = Some (lit_poly z, Some z);
  ok_params : forall n a, params A !! n = Some a <-> atoms A !! a = Some (AParam n);
  ok_opaques : forall op l r a, opaques A !! (op, l, r) = Some a <-> atoms A !! a = Some (AOpaque op l r);
  ok_operands : forall a op l r, atoms A !! a = Some (AOpaque op l r) ->
    (l < length (polys A))%nat /\ (r < length (polys A))%nat }.

Definition valid (A : Arena) (id : nat) : Prop := (id < length (polys A))%nat.

(** An arena only grows. *)
Record arena_le (A B : Arena) : Prop := {
  le_polys : polys A `prefix_of` polys B;
  le_atoms : atoms A `prefix_of` atoms B }.

#[export] Instance arena_le_preorder : PreOrder arena_le.
Proof.
  split; [intros A; split; done|]. intros A B C [H1 H2] [H3 H4]. split; by etrans.
Qed.

(** ** Denotation *)

(** The mathematical meaning of the operators: no overflow; quotient and
    remainder truncate. *)
Definition den_op (op : DimOp) (a b : Z) : Z :=
  match op with DAdd => a + b | DSub => a - b | DMul => a * b | DDiv => Z.quot a b | DRem => Z.rem a b end.

Definition mono_val (v : nat -> Z) (m : Monomial) : Z := foldr (fun f acc => v f.1 ^ f.2 * acc) 1 m.

Fixpoint den_fuel (A : Arena) (rho : string -> Z) (fuel id : nat) : Z :=
  match fuel with
  | O => 0
  | S fuel =>
      bt_sum
        (mono_val
           (fun atom =>
              match atoms A !! atom with
              | Some (AParam name) => rho name
              | Some (AOpaque op l r) => den_op op (den_fuel A rho fuel l) (den_fuel A rho fuel r)
              | None => 0
              end)) (poly_of A id)
  end.

(** The value of polynomial [id] where the parameters have the values [rho]. *)
Definition den (A : Arena) (rho : string -> Z) (id : nat) : Z := den_fuel A rho (S id) id.

Definition atom_val (A : Arena) (rho : string -> Z) (atom : nat) : Z :=
  match atoms A !! atom with
  | Some (AParam name) => rho name
  | Some (AOpaque op l r) => den_op op (den A rho l) (den A rho r)
  | None => 0
  end.

Lemma mono_val_ext v v' m : (forall f, f ∈ m -> v f.1 = v' f.1) -> mono_val v m = mono_val v' m.
Proof.
  induction m as [|f m IH]; simpl; [done|]. intros H. rewrite (H f), IH; [done| |left].
  intros g Hg. apply H. by right.
Qed.

Lemma bt_sum_mono_ext v v' p :
  (forall a, a ∈ atoms_in p -> v a = v' a) -> bt_sum (mono_val v) p = bt_sum (mono_val v') p.
Proof.
  intros H. apply bt_sum_ext. rewrite Forall_forall. intros [m c] Hm. simpl. apply mono_val_ext.
  intros f Hf. apply H. apply list_elem_of_In, in_flat_map. exists (m, c). split; [by apply list_elem_of_In|].
  simpl. apply in_map. by apply list_elem_of_In.
Qed.

Lemma poly_of_lookup A id p l : polys A !! id = Some (p, l) -> poly_of A id = p.
Proof. unfold poly_of. by intros ->. Qed.

Lemma valid_lookup A id : valid A id -> arena_ok A -> polys A !! id = Some (poly_of A id, poly_lit (poly_of A id)).
Proof.
  intros [[p l] Hp]%lookup_lt_is_Some HA. unfold poly_of. rewrite Hp.
  by rewrite (ok_lit _ HA _ _ _ Hp).
Qed.

Section Fuel.
Context (A : Arena) (HA : arena_ok A) (rho : string -> Z).

Lemma operands_smaller id a op l r :
  valid A id -> a ∈ atoms_in (poly_of A id) -> atoms A !! a = Some (AOpaque op l r) -> (l < id)%nat /\ (r < id)%nat.
Proof.
  intros Hv Ha Hop. pose proof (valid_lookup A id Hv HA) as Hp.
  destruct (ok_poly _ HA _ _ _ Hp) as [_ Hb]. by apply (Hb _ _ _ _ Ha Hop).
Qed.

(** More fuel than the id changes nothing. *)
Lemma den_fuel_enough n m id :
  valid A id -> (id < n)%nat -> (id < m)%nat -> den_fuel A rho n id = den_fuel A rho m id.
Proof.
  revert n m id. induction n as [n IH] using lt_wf_ind. intros m id Hv Hn Hm.
  destruct n as [|n], m as [|m]; try lia. simpl. apply bt_sum_mono_ext. intros a Ha.
  destruct (atoms A !! a) as [[x|op l r]|] eqn:E; try done.
  destruct (operands_smaller id a op l r) as [Hl Hr]; [done..|].
  unfold valid in *. rewrite (IH n ltac:(lia) m l), (IH n ltac:(lia) m r) by lia. done.
Qed.

Lemma den_eq id : valid A id -> den A rho id = bt_sum (mono_val (atom_val A rho)) (poly_of A id).
Proof.
  intros Hv. unfold den. cbn [den_fuel]. apply bt_sum_mono_ext. intros a Ha. unfold atom_val.
  destruct (atoms A !! a) as [[x|op l r]|] eqn:E; try done.
  destruct (operands_smaller id a op l r) as [Hl Hr]; [done..|].
  unfold den, valid in *. rewrite (den_fuel_enough id (S l) l), (den_fuel_enough id (S r) r); unfold valid; lia || done.
Qed.
End Fuel.

Lemma le_lookup_poly A B id x : arena_le A B -> polys A !! id = Some x -> polys B !! id = Some x.
Proof. intros [H _] Hx. by eapply prefix_lookup_Some. Qed.

Lemma le_lookup_atom A B a x : arena_le A B -> atoms A !! a = Some x -> atoms B !! a = Some x.
Proof. intros [_ H] Hx. by eapply prefix_lookup_Some. Qed.

Lemma valid_le A B id : arena_le A B -> valid A id -> valid B id.
Proof. intros [H _] Hv. apply prefix_length in H. unfold valid in *. lia. Qed.

Lemma poly_of_le A B id : arena_le A B -> valid A id -> poly_of B id = poly_of A id.
Proof.
  intros Hle [[p l] Hp]%lookup_lt_is_Some. rewrite (poly_of_lookup A _ _ _ Hp).
  apply (poly_of_lookup B _ p l). by eapply le_lookup_poly.
Qed.

Lemma atom_in_range A id a :
  arena_ok A -> valid A id -> a ∈ atoms_in (poly_of A id) -> exists x, atoms A !! a = Some x.
Proof.
  intros HA Hv Ha. pose proof (valid_lookup A id Hv HA) as Hp.
  destruct (ok_poly _ HA _ _ _ Hp) as [[[_ Hw] _] _]. rewrite Forall_forall in Hw.
  apply list_elem_of_In, in_flat_map in Ha as ([m c] & Hm & Ha).
  apply in_map_iff in Ha as ([a' e] & <- & Hf).
  destruct (Hw (m, c) ltac:(by apply list_elem_of_In)) as [[_ Hb] _]. rewrite Forall_forall in Hb.
  destruct (Hb (a', e) ltac:(by apply list_elem_of_In)) as [_ Hlt]. by apply lookup_lt_is_Some.
Qed.

(** The denotation of an id is stable as the arena grows. *)
Lemma den_le A B rho id : arena_ok A -> arena_ok B -> arena_le A B -> valid A id -> den B rho id = den A rho id.
Proof.
  intros HA HB Hle. revert id. induction id as [id IH] using lt_wf_ind. intros Hv.
  rewrite (den_eq A HA rho id Hv), (den_eq B HB rho id) by (by eapply valid_le).
  rewrite (poly_of_le A B) by done. apply bt_sum_mono_ext. intros a Ha.
  destruct (atom_in_range A id a HA Hv Ha) as [x Hx]. unfold atom_val.
  rewrite Hx, (le_lookup_atom A B a x Hle Hx). destruct x as [n|op l r]; [done|].
  destruct (operands_smaller A HA id a op l r Hv Ha Hx). unfold valid in *.
  rewrite !IH by lia. done.
Qed.

(** ** Interning *)

Lemma mono_wf_le A B m : arena_le A B -> mono_wf A m -> mono_wf B m.
Proof.
  intros [_ H] [Hs Hf]. split; [done|]. apply prefix_length in H.
  eapply Forall_impl; [exact Hf|]. simpl. intros f ?. lia.
Qed.

Lemma terms_wf_le A B p : arena_le A B -> terms_wf A p -> terms_wf B p.
Proof.
  intros Hle [Hs Hf]. split; [done|]. eapply Forall_impl; [exact Hf|].
  intros e [? ?]. split; [by eapply mono_wf_le|done].
Qed.

Lemma poly_wf_le A B p : arena_le A B -> poly_wf A p -> poly_wf B p.
Proof. intros Hle [Hw Hn]. split; [by eapply terms_wf_le|done]. Qed.

Lemma terms_wf_atom A p a : terms_wf A p -> a ∈ atoms_in p -> exists x, atoms A !! a = Some x.
Proof.
  intros [_ Hw] Ha. rewrite Forall_forall in Hw.
  apply list_elem_of_In, in_flat_map in Ha as ([m c] & Hm & Ha).
  apply in_map_iff in Ha as ([a' e] & <- & Hf).
  destruct (Hw (m, c) ltac:(by apply list_elem_of_In)) as [[_ Hb] _]. rewrite Forall_forall in Hb.
  destruct (Hb (a', e) ltac:(by apply list_elem_of_In)) as [_ Hlt]. by apply lookup_lt_is_Some.
Qed.

Lemma operands_below_le A B i p : arena_le A B -> terms_wf A p -> operands_below A i p -> operands_below B i p.
Proof.
  intros Hle Hw Hb a op l r Ha Hop. destruct (terms_wf_atom A p a Hw Ha) as [x Hx].
  pose proof (le_lookup_atom _ _ _ _ Hle Hx) as Hx'. rewrite Hop in Hx'. injection Hx' as <-.
  by apply (Hb a op l r).
Qed.

Lemma poly_lit_lit_poly z : poly_lit (lit_poly z) = Some z.
Proof. unfold lit_poly. destruct (Z.eqb_spec z 0); by subst. Qed.

(** A polynomial that is a literal is that literal's polynomial. *)
Lemma poly_lit_inv A p z : poly_wf A p -> poly_lit p = Some z -> p = lit_poly z.
Proof.
  intros [_ Hn]. unfold poly_lit, lit_poly. destruct p as [|[m c] [|e p]]; simpl; [by intros [= <-]| |done].
  destruct m as [|f m]; simpl; [|done]. intros [= ->]. inversion Hn as [|? ? Hc]; simpl in Hc.
  destruct (Z.eqb_spec z 0); done.
Qed.

Lemma arena_le_snoc_poly A p l ids ls :
  arena_le A (mkArena (atoms A) (params A) (opaques A) (polys A ++ [(p, l)]) ids ls).
Proof. split; simpl; [apply prefix_app_r|]; done. Qed.

Lemma lookup_snoc_inv {X} (l : list X) x i y :
  (l ++ [x]) !! i = Some y -> l !! i = Some y \/ i = length l /\ y = x.
Proof.
  intros H. destruct (decide (i < length l)%nat); [left; by rewrite lookup_app_l in H by done|right].
  rewrite lookup_app_r in H by lia. destruct (i - length l)%nat eqn:E; [|done].
  simpl in H. injection H as <-. split; [lia|done].
Qed.

Lemma intern_ok A p :
  arena_ok A -> poly_wf A p ->
  arena_ok (intern A p).1 /\ arena_le A (intern A p).1 /\
  polys (intern A p).1 !! (intern A p).2 = Some (p, poly_lit p) /\ atoms (intern A p).1 = atoms A.
Proof.
  intros HA Hp. unfold intern. destruct (poly_ids A !! p) as [id|] eqn:E; simpl.
  { split_and!; [done..|by apply (ok_ids _ HA)|done]. }
  set (B := mkArena _ _ _ _ _ _).
  assert (arena_le A B) as Hle by apply arena_le_snoc_poly.
  assert (polys A !! length (polys A) = None) as Hnone by (apply lookup_ge_None; lia).
  split_and!; [|done|by apply list_lookup_middle|done].
  split; simpl.
  - intros q i. rewrite lookup_insert_Some. split.
    + intros [[<- <-]|[Hne Hq]]; [by apply list_lookup_middle|].
      apply (ok_ids _ HA) in Hq. eapply prefix_lookup_Some; [exact Hq|]. by apply prefix_app_r.
    + intros [Hq|[-> [= <-]]]%lookup_snoc_inv; [right|by left].
      apply (ok_ids _ HA) in Hq. split; [congruence|done].
  - intros i q l [Hq|[-> [= -> ->]]]%lookup_snoc_inv; [by apply (ok_lit _ HA) in Hq|done].
  - intros i q l [Hq|[-> [= -> ->]]]%lookup_snoc_inv.
    + destruct (ok_poly _ HA _ _ _ Hq) as [Hw Hb].
      split; [by eapply poly_wf_le|by eapply operands_below_le; [|apply Hw|]].
    + split; [by eapply poly_wf_le|]. intros a op l r _ Hop. by apply (ok_operands _ HA a op).
  - intros z i Hz. assert (lits A !! z = Some i \/ i = length (polys A) /\ poly_lit p = Some z) as [Hz'|[-> Hl]].
    { destruct (poly_lit p) as [v|]; [|by left]. rewrite lookup_insert_Some in Hz.
      destruct Hz as [[-> <-]|[_ Hz]]; [by right|by left]. }
    + apply (ok_lits _ HA) in Hz'. eapply prefix_lookup_Some; [exact Hz'|]. by apply prefix_app_r.
    + rewrite list_lookup_middle by done. by rewrite Hl, (poly_lit_inv A p z).
  - apply (ok_params _ HA).
  - apply (ok_opaques _ HA).
  - intros a op l r Hop. rewrite length_app. destruct (ok_operands _ HA _ _ _ _ Hop). simpl. lia.
Qed.

(** ** What an operation of the arena yields

    The new arena is well formed and extends the old one, and the id that is
    returned denotes [v]. *)
Definition yields (A : Arena) (res : Arena * nat) (v : (string -> Z) -> Z) : Prop :=
  arena_ok res.1 /\ arena_le A res.1 /\ valid res.1 res.2 /\ forall rho, den res.1 rho res.2 = v rho.

Lemma atom_val_le A B rho a x :
  arena_ok A -> arena_ok B -> arena_le A B -> atoms A !! a = Some x -> atom_val B rho a = atom_val A rho a.
Proof.
  intros HA HB Hle Hx. unfold atom_val. rewrite Hx, (le_lookup_atom A B a x Hle Hx).
  destruct x as [n|op l r]; [done|]. destruct (ok_operands _ HA _ _ _ _ Hx).
  by rewrite !(den_le A B).
Qed.

Lemma intern_yields A p :
  arena_ok A -> poly_wf A p -> yields A (intern A p) (fun rho => bt_sum (mono_val (atom_val A rho)) p).
Proof.
  intros HA Hp. destruct (intern_ok A p HA Hp) as (HB & Hle & Hl & Hat).
  split_and!; [done..|by eapply lookup_lt_Some|]. intros rho.
  rewrite den_eq, (poly_of_lookup _ _ _ _ Hl); [|done|by eapply lookup_lt_Some].
  apply bt_sum_mono_ext. intros a Ha. destruct (terms_wf_atom A p a (proj1 Hp) Ha) as [x Hx].
  by eapply atom_val_le.
Qed.

Lemma lit_poly_wf A z : in_i64 z = true -> poly_wf A (lit_poly z).
Proof.
  intros Hz. unfold lit_poly. destruct (Z.eqb_spec z 0); [repeat split; constructor|].
  repeat split; repeat constructor; done.
Qed.

Lemma lit_poly_val v z : bt_sum (mono_val v) (lit_poly z) = z.
Proof. unfold lit_poly. destruct (Z.eqb_spec z 0); subst; simpl; lia. Qed.

Lemma arena_lit_yields A z : arena_ok A -> in_i64 z = true -> yields A (arena_lit A z) (fun _ => z).
Proof.
  intros HA Hz. unfold arena_lit. destruct (lits A !! z) as [id|] eqn:E.
  - apply (ok_lits _ HA) in E. split_and!; [done..|by eapply lookup_lt_Some|]. intros rho. simpl.
    rewrite den_eq, (poly_of_lookup _ _ _ _ E); [apply lit_poly_val|done|by eapply lookup_lt_Some].
  - destruct (intern_yields A (lit_poly z) HA (lit_poly_wf A z Hz)) as (? & ? & ? & Hd).
    split_and!; [done..|]. intros rho. by rewrite Hd, lit_poly_val.
Qed.

Lemma yields_val A res v v' : yields A res v -> (forall rho, v rho = v' rho) -> yields A res v'.
Proof. intros (? & ? & ? & Hd) Hv. split_and!; [done..|]. intros rho. by rewrite Hd. Qed.

Lemma atom_poly_yields A a x :
  arena_ok A -> atoms A !! a = Some x -> yields A (atom_poly A a) (fun rho => atom_val A rho a).
Proof.
  intros HA Hx. apply lookup_lt_Some in Hx as Hlt. eapply yields_val.
  - apply intern_yields; [done|]. repeat split; repeat constructor; done.
  - intros rho. cbn [bt_sum foldr mono_val fst snd]. rewrite Z.pow_1_r. ring.
Qed.

Lemma yields_trans A B res v : arena_le A B -> yields B res v -> yields A res v.
Proof. intros Hle (? & ? & ? & ?). split_and!; [done|by etrans|done..]. Qed.

Lemma arena_le_snoc_atom A x ps os :
  arena_le A (mkArena (atoms A ++ [x]) ps os (polys A) (poly_ids A) (lits A)).
Proof. split; simpl; [done|]. by apply prefix_app_r. Qed.

(** Adding an atom whose operands exist. *)
Lemma new_atom_ok A x ps os :
  arena_ok A ->
  (forall op l r, x = AOpaque op l r -> valid A l /\ valid A r) ->
  (forall n a, ps !! n = Some a <-> (atoms A ++ [x]) !! a = Some (AParam n)) ->
  (forall op l r a, os !! (op, l, r) = Some a <-> (atoms A ++ [x]) !! a = Some (AOpaque op l r)) ->
  arena_ok (mkArena (atoms A ++ [x]) ps os (polys A) (poly_ids A) (lits A)).
Proof.
  intros HA Hx Hps Hos. pose proof (arena_le_snoc_atom A x ps os) as Hle. split; simpl; try done.
  - apply (ok_ids _ HA).
  - apply (ok_lit _ HA).
  - intros i p l Hp. destruct (ok_poly _ HA _ _ _ Hp) as [Hw Hb].
    split; [by eapply poly_wf_le|by eapply operands_below_le; [|apply Hw|]].
  - apply (ok_lits _ HA).
  - intros a op l r [Ha|[-> <-]]%lookup_snoc_inv; [by apply (ok_operands _ HA a op)|by apply (Hx op)].
Qed.

Lemma param_atom_ok A n :
  arena_ok A ->
  arena_ok (param_atom A n).1 /\ arena_le A (param_atom A n).1 /\
  atoms (param_atom A n).1 !! (param_atom A n).2 = Some (AParam n).
Proof.
  intros HA. unfold param_atom. destruct (params A !! n) as [a|] eqn:E; simpl.
  { split_and!; [done..|by apply (ok_params _ HA)]. }
  split_and!; [|apply arena_le_snoc_atom|by apply list_lookup_middle].
  apply new_atom_ok; [done|done| |].
  - intros m a. rewrite lookup_insert_Some. split.
    + intros [[<- <-]|[Hne Ha]]; [by apply list_lookup_middle|].
      apply (ok_params _ HA) in Ha. rewrite lookup_app_l; [done|by eapply lookup_lt_Some].
    + intros [Ha|[-> [= ->]]]%lookup_snoc_inv; [right|by left].
      apply (ok_params _ HA) in Ha. split; [congruence|done].
  - intros op l r a. rewrite (ok_opaques _ HA). split.
    + intros Ha. rewrite lookup_app_l; [done|by eapply lookup_lt_Some].
    + by intros [Ha|[-> ?]]%lookup_snoc_inv.
Qed.

Lemma opaque_atom_ok A op l r :
  arena_ok A -> valid A l -> valid A r ->
  arena_ok (opaque_atom A op l r).1 /\ arena_le A (opaque_atom A op l r).1 /\
  atoms (opaque_atom A op l r).1 !! (opaque_atom A op l r).2 = Some (AOpaque op l r).
Proof.
  intros HA Hl Hr. unfold opaque_atom. destruct (opaques A !! (op, l, r)) as [a|] eqn:E; simpl.
  { split_and!; [done..|by apply (ok_opaques _ HA)]. }
  split_and!; [|apply arena_le_snoc_atom|by apply list_lookup_middle].
  apply new_atom_ok; [done|by intros ? ? ? [= <- <- <-]| |].
  - intros n a. rewrite (ok_params _ HA). split.
    + intros Ha. rewrite lookup_app_l; [done|by eapply lookup_lt_Some].
    + by intros [Ha|[-> ?]]%lookup_snoc_inv.
  - intros op' l' r' a. rewrite lookup_insert_Some. split.
    + intros [[[= <- <- <-] <-]|[Hne Ha]]; [by apply list_lookup_middle|].
      apply (ok_opaques _ HA) in Ha. rewrite lookup_app_l; [done|by eapply lookup_lt_Some].
    + intros [Ha|[-> [= -> -> ->]]]%lookup_snoc_inv; [right|by left].
      apply (ok_opaques _ HA) in Ha. split; [congruence|done].
Qed.

Lemma arena_param_yields A n : arena_ok A -> yields A (arena_param A n) (fun rho => rho n).
Proof.
  intros HA. unfold arena_param. destruct (param_atom_ok A n HA) as (HB & Hle & Ha).
  destruct (param_atom A n) as [B a]. simpl in *. eapply yields_trans; [done|].
  eapply yields_val; [by eapply atom_poly_yields|]. intros rho. unfold atom_val. by rewrite Ha.
Qed.

Lemma opaque_yields A op l r :
  arena_ok A -> valid A l -> valid A r ->
  yields A (opaque A op l r) (fun rho => den_op op (den A rho l) (den A rho r)).
Proof.
  intros HA Hl Hr. unfold opaque. destruct (opaque_atom_ok A op l r HA Hl Hr) as (HB & Hle & Ha).
  destruct (opaque_atom A op l r) as [B a]. simpl in *. eapply yields_trans; [done|].
  eapply yields_val; [by eapply atom_poly_yields|]. intros rho. unfold atom_val. rewrite Ha.
  by rewrite !(den_le A B).
Qed.

(** ** Arithmetic on polynomials *)

Lemma merge_nil_l r : merge [] r = Some r.
Proof. by destruct r. Qed.

Lemma merge_nil_r l : merge l [] = Some l.
Proof. by destruct l. Qed.

Lemma merge_cons a l b r :
  merge (a :: l) (b :: r) =
    match Nat.compare a.1 b.1 with
    | Lt => cons a <$> merge l (b :: r)
    | Gt => cons b <$> merge (a :: l) r
    | Eq => if a.2 + b.2 <=? u32_max then cons (a.1, a.2 + b.2) <$> merge l r else None
    end.
Proof. reflexivity. Qed.

(** What [merge] returns: every factor is one of the two monomials', or the
    sum of two; the values multiply; the result is a monomial. *)
Lemma merge_spec A v l r m :
  mono_wf A l -> mono_wf A r -> merge l r = Some m ->
  mono_wf A m /\ mono_val v m = mono_val v l * mono_val v r /\
  (forall f, f ∈ m -> f.1 ∈ map fst l \/ f.1 ∈ map fst r).
Proof.
  revert r m. induction l as [|a l IHl]; intros r m Hl Hr.
  { rewrite merge_nil_l. intros [= <-]. split_and!; [done|cbn [mono_val foldr]; lia|]. intros f Hf. right.
    by apply list_elem_of_fmap_2. }
  revert m. induction r as [|b r IHr]; intros m.
  { rewrite merge_nil_r. intros [= <-]. split_and!; [done|cbn [mono_val foldr]; lia|]. intros f Hf. left.
    by apply list_elem_of_fmap_2. }
  destruct Hl as [Hls Hlf]. destruct Hr as [Hrs Hrf].
  inversion Hls as [|? ? Hls' Hal]; subst. inversion Hrs as [|? ? Hrs' Hbr]; subst.
  inversion Hlf as [|? ? [Ha1 Ha2] Hlf']; subst. inversion Hrf as [|? ? [Hb1 Hb2] Hrf']; subst.
  rewrite Forall_forall in Hal, Hbr. rewrite merge_cons.
  destruct (Nat.compare_spec a.1 b.1) as [E|E|E].
  - destruct (Z.leb_spec (a.2 + b.2) u32_max); [|done]. intros (m' & Hm & ->)%fmap_Some.
    destruct (IHl r m') as (Hw & Hv & Hk); [done..|].
    split_and!.
    + split; [constructor; [apply Hw|]|constructor; [simpl; lia|apply Hw]].
      rewrite Forall_forall. intros f Hf. simpl. apply Hk in Hf as [Hf|Hf]; apply list_elem_of_fmap_1 in Hf as (g & -> & Hg).
      * by apply Hal.
      * rewrite E. by apply Hbr.
    + cbn [mono_val foldr fst snd] in *. fold (mono_val v m') (mono_val v l) (mono_val v r). rewrite Hv, Z.pow_add_r, E by lia. ring.
    + intros f [->|Hf]%elem_of_cons; [left; left|]. apply Hk in Hf as [?|?]; [left|right]; by right.
  - intros (m' & Hm & ->)%fmap_Some. destruct (IHl (b :: r) m') as (Hw & Hv & Hk); [done..|].
    split_and!.
    + split; [constructor; [apply Hw|]|constructor; [simpl; lia|apply Hw]].
      rewrite Forall_forall. intros f Hf. apply Hk in Hf as [Hf|Hf]; apply list_elem_of_fmap_1 in Hf as (g & -> & Hg).
      * by apply Hal.
      * apply elem_of_cons in Hg as [->|Hg]; [done|]. specialize (Hbr g Hg). lia.
    + cbn [mono_val foldr fst snd] in *. fold (mono_val v m') (mono_val v l) (mono_val v r) in *. rewrite Hv. ring.
    + intros f [->|Hf]%elem_of_cons; [left; left|]. apply Hk in Hf as [?|?]; [left|right]; [by right|done].
  - intros (m' & Hm & ->)%fmap_Some. destruct (IHr ltac:(by split) m') as (Hw & Hv & Hk); [done..|].
    split_and!.
    + split; [constructor; [apply Hw|]|constructor; [simpl; lia|apply Hw]].
      rewrite Forall_forall. intros f Hf. apply Hk in Hf as [Hf|Hf]; apply list_elem_of_fmap_1 in Hf as (g & -> & Hg).
      * apply elem_of_cons in Hg as [->|Hg]; [done|]. specialize (Hal g Hg). lia.
      * by apply Hbr.
    + cbn [mono_val foldr fst snd] in *. fold (mono_val v m') (mono_val v l) (mono_val v r) in *. rewrite Hv. ring.
    + intros f [->|Hf]%elem_of_cons; [right; left|]. apply Hk in Hf as [?|?]; [left|right]; [done|by right].
Qed.

Lemma check_i64_in z v : check_i64 z = Some v -> v = z /\ in_i64 v = true.
Proof. unfold check_i64. destruct (in_i64 z) eqn:E; [|done]. by intros [= <-]. Qed.

Lemma poly_remove_elem m (p : Poly) e : e ∈ bt_remove mono_cmp m p -> e ∈ p.
Proof. exact (bt_remove_elem mono_cmp m p e). Qed.

Lemma poly_insert_elem m c (p : Poly) e : e ∈ bt_insert mono_cmp m c p -> e = (m, c) \/ e ∈ p.
Proof. exact (bt_insert_elem mono_cmp m c p e). Qed.

Lemma terms_wf_insert A m c p :
  mono_wf A m -> in_i64 c = true -> terms_wf A p -> terms_wf A (bt_insert mono_cmp m c p).
Proof.
  intros Hm Hc [Hs Hf]. split; [by apply bt_insert_sorted; [apply _|]|]. rewrite Forall_forall in *.
  intros e [->|He]%poly_insert_elem; [done|by apply Hf].
Qed.

Lemma poly_wf_put A m c p :
  mono_wf A m -> in_i64 c = true -> poly_wf A p ->
  poly_wf A (if c =? 0 then bt_remove mono_cmp m p else bt_insert mono_cmp m c p).
Proof.
  intros Hm Hc [Hw Hn]. destruct (Z.eqb_spec c 0) as [Ec|Ec].
  - destruct Hw as [Hs Hf]. rewrite Forall_forall in Hf, Hn.
    split; [split; [by apply bt_remove_sorted; [apply _|]|]|]; rewrite Forall_forall; intros e He%poly_remove_elem.
    + by apply Hf.
    + by apply Hn.
  - split; [by apply terms_wf_insert|]. rewrite Forall_forall in *.
    intros e [->|He]%poly_insert_elem; [done|auto].
Qed.

Lemma put_val w m c p :
  bt_sum w (if c =? 0 then bt_remove mono_cmp m p else bt_insert mono_cmp m c p) =
    bt_sum w p + (c - get_or_0 mono_cmp m p) * w m.
Proof.
  destruct (Z.eqb_spec c 0); [|by apply bt_sum_insert, _]. rewrite bt_sum_remove by apply _. subst. lia.
Qed.

Lemma combine_loop_spec A w sign out q res :
  poly_wf A out -> terms_wf A q -> combine_loop sign out q = Some res ->
  poly_wf A res /\ bt_sum w res = bt_sum w out + sign * bt_sum w q.
Proof.
  intros Ho [_ Hq]. revert out Ho. induction Hq as [|[m c] q [Hm Hc] Hq IH]; intros out Ho; simpl.
  { intros [= <-]. split; [done|lia]. }
  intros (d & [-> Hd]%check_i64_in & (e & [-> He]%check_i64_in & H)%bind_Some)%bind_Some.
  destruct (IH _ (poly_wf_put A m _ out Hm He Ho) H) as [Hw Hv]. split; [done|].
  rewrite Hv, put_val. simpl. lia.
Qed.

Lemma product_row_spec A v lm lc out q res :
  mono_wf A lm -> terms_wf A out -> terms_wf A q -> product_row lm lc out q = Some res ->
  terms_wf A res /\ bt_sum (mono_val v) res = bt_sum (mono_val v) out + lc * mono_val v lm * bt_sum (mono_val v) q.
Proof.
  intros Hlm Ho [_ Hq]. revert out Ho. induction Hq as [|[m c] q [Hm Hc] Hq IH]; intros out Ho; simpl.
  { intros [= <-]. split; [done|lia]. }
  intros (mm & Hmm & (d & [-> Hd]%check_i64_in & (e & [-> He]%check_i64_in & H)%bind_Some)%bind_Some)%bind_Some.
  destruct (merge_spec A v lm m mm Hlm Hm Hmm) as (Hw & Hv & _).
  destruct (IH _ (terms_wf_insert A mm _ out Hw He Ho) H) as [Hwr Hvr]. split; [done|].
  rewrite Hvr, bt_sum_insert, Hv by apply _. simpl. ring.
Qed.

Lemma product_loop_spec A v p q out res :
  terms_wf A out -> terms_wf A p -> terms_wf A q -> product_loop out p q = Some res ->
  terms_wf A res /\ bt_sum (mono_val v) res = bt_sum (mono_val v) out + bt_sum (mono_val v) p * bt_sum (mono_val v) q.
Proof.
  intros Ho [_ Hp] Hq. revert out Ho. induction Hp as [|[m c] p [Hm Hc] Hp IH]; intros out Ho; simpl.
  { intros [= <-]. split; [done|lia]. }
  intros (out' & Hrow & H)%bind_Some. simpl in Hm.
  destruct (product_row_spec A v m c out q out' Hm Ho Hq Hrow) as [Hw Hv].
  destruct (IH _ Hw H) as [Hwr Hvr]. split; [done|]. rewrite Hvr, Hv. simpl. ring.
Qed.

Lemma poly_wf_filter A p : terms_wf A p -> poly_wf A (List.filter (fun e => negb (e.2 =? 0)) p).
Proof.
  intros [Hs Hf]. rewrite Forall_forall in Hf.
  split; [split; [by apply bt_filter_sorted|]|]; rewrite Forall_forall; intros e He;
    apply list_elem_of_In, filter_In in He as [He Hn].
  - by apply Hf, list_elem_of_In.
  - destruct (Z.eqb_spec e.2 0); done.
Qed.

Lemma poly_of_wf A id : arena_ok A -> valid A id -> poly_wf A (poly_of A id).
Proof. intros HA Hv. by apply (ok_poly _ HA id _ _ (valid_lookup A id Hv HA)). Qed.

Lemma combine_yields A l r sign res :
  arena_ok A -> valid A l -> valid A r -> combine A l r sign = Some res ->
  yields A res (fun rho => den A rho l + sign * den A rho r).
Proof.
  intros HA Hl Hr (out & Hout & [= <-])%bind_Some.
  pose proof (combine_loop_spec A) as Hspec. specialize (Hspec) with (1 := poly_of_wf A l HA Hl).
  eapply yields_val.
  - apply intern_yields; [done|]. by apply (Hspec (fun _ => 0) sign _ out (proj1 (poly_of_wf A r HA Hr))).
  - intros rho. rewrite !(den_eq A HA) by done.
    by apply (Hspec (mono_val (atom_val A rho)) sign _ out (proj1 (poly_of_wf A r HA Hr))).
Qed.

Lemma product_yields A l r res :
  arena_ok A -> valid A l -> valid A r -> product A l r = Some res ->
  yields A res (fun rho => den A rho l * den A rho r).
Proof.
  intros HA Hl Hr (out & Hout & [= <-])%bind_Some.
  assert (forall v, terms_wf A out /\ bt_sum (mono_val v) out =
            bt_sum (mono_val v) (poly_of A l) * bt_sum (mono_val v) (poly_of A r)) as H.
  { intros v. apply (product_loop_spec A v (poly_of A l) (poly_of A r) [] out); [|apply poly_of_wf..|]; try done.
    split; constructor. }
  eapply yields_val.
  - apply intern_yields; [done|]. apply poly_wf_filter, (H (fun _ => 0)).
  - intros rho. rewrite !(den_eq A HA), bt_sum_filter by done. apply H.
Qed.

Lemma fold_op_den op a b v : fold_op op a b = Some v -> v = den_op op a b.
Proof.
  destruct op; simpl; try (by intros [-> _]%check_i64_in).
  - case_match; [done|]. by intros [-> _]%check_i64_in.
  - case_match; [done|]. by intros [= <-].
Qed.

Lemma fold_op_in op a b v : in_i64 a = true -> in_i64 b = true -> fold_op op a b = Some v -> in_i64 v = true.
Proof.
  intros Ha Hb. destruct op; simpl; try (by intros [_ ?]%check_i64_in).
  - case_match; [done|]. by intros [_ ?]%check_i64_in.
  - destruct (Z.eqb_spec b 0); simpl; [done|]. case_match; [done|]. intros [= <-].
    unfold in_i64 in *. pose proof (Z.rem_bound_abs a b) as Hr.
    assert (Z.abs (Z.rem a b) <= Z.abs b - 1) by lia. unfold i64_min, i64_max in *. lia.
Qed.

Lemma lit_of_den A id z : arena_ok A -> lit_of A id = Some z -> valid A id /\ in_i64 z = true /\ forall rho, den A rho id = z.
Proof.
  intros HA. unfold lit_of. destruct (polys A !! id) as [[p l]|] eqn:E; [|done]. intros ->.
  apply lookup_lt_Some in E as Hv. pose proof (ok_lit _ HA _ _ _ E) as Hl.
  destruct (ok_poly _ HA _ _ _ E) as [Hw _]. symmetry in Hl. pose proof (poly_lit_inv A p z Hw Hl) as ->.
  split_and!; [done| |].
  - destruct Hw as [[_ Hf] _]. unfold lit_poly in *. destruct (Z.eqb_spec z 0); [by subst|].
    by inversion Hf as [|? ? [_ ?]].
  - intros rho. rewrite (den_eq A HA), (poly_of_lookup _ _ _ _ E) by done. apply lit_poly_val.
Qed.

Lemma apply_yields A op l r :
  arena_ok A -> valid A l -> valid A r ->
  yields A (apply A op l r) (fun rho => den_op op (den A rho l) (den A rho r)).
Proof.
  intros HA Hl Hr. pose proof (opaque_yields A op l r HA Hl Hr) as Ho. unfold apply.
  destruct (lit_of A l) as [a|] eqn:Ea; [destruct (lit_of A r) as [b|] eqn:Eb|].
  - destruct (fold_op op a b) as [v|] eqn:Ef; [|done].
    apply lit_of_den in Ea as (_ & Hia & Hda); [|done]. apply lit_of_den in Eb as (_ & Hib & Hdb); [|done].
    eapply yields_val; [apply arena_lit_yields; [done|by apply (fold_op_in op a b)]|].
    intros rho. rewrite Hda, Hdb. by apply fold_op_den.
  - destruct op; simpl; try done.
    + destruct (combine A l r 1) eqn:E; [|done].
      eapply yields_val; [exact (combine_yields A l r 1 _ HA Hl Hr E)|]. intros; simpl; lia.
    + destruct (combine A l r (-1)) eqn:E; [|done].
      eapply yields_val; [exact (combine_yields A l r (-1) _ HA Hl Hr E)|]. intros; simpl; lia.
    + destruct (product A l r) eqn:E; [|done]. exact (product_yields A l r _ HA Hl Hr E).
  - destruct op; simpl; try done.
    + destruct (combine A l r 1) eqn:E; [|done].
      eapply yields_val; [exact (combine_yields A l r 1 _ HA Hl Hr E)|]. intros; simpl; lia.
    + destruct (combine A l r (-1)) eqn:E; [|done].
      eapply yields_val; [exact (combine_yields A l r (-1) _ HA Hl Hr E)|]. intros; simpl; lia.
    + destruct (product A l r) eqn:E; [|done]. exact (product_yields A l r _ HA Hl Hr E).
Qed.

(** ** Names of an expression *)

Inductive mentions (A : Arena) : nat -> string -> Prop :=
| mentions_param id a n : a ∈ atoms_in (poly_of A id) -> atoms A !! a = Some (AParam n) -> mentions A id n
| mentions_left id a op l r n :
    a ∈ atoms_in (poly_of A id) -> atoms A !! a = Some (AOpaque op l r) -> mentions A l n -> mentions A id n
| mentions_right id a op l r n :
    a ∈ atoms_in (poly_of A id) -> atoms A !! a = Some (AOpaque op l r) -> mentions A r n -> mentions A id n.

Lemma any_name_walk_spec A test fuel id :
  arena_ok A -> valid A id -> (id < fuel)%nat ->
  any_name_walk A test fuel id = true <-> exists n, mentions A id n /\ test n = true.
Proof.
  intros HA. revert fuel. induction id as [id IH] using lt_wf_ind. intros [|fuel] Hv Hf; [lia|].
  cbn [any_name_walk]. rewrite existsb_elem. split.
  - intros (a & Ha & Ht). destruct (atoms A !! a) as [[n|op l r]|] eqn:E; [| |done].
    + exists n. split; [by eapply mentions_param|done].
    + destruct (operands_smaller A HA id a op l r Hv Ha E) as [Hl Hr]. unfold valid in *.
      apply orb_true_iff in Ht as [Ht|Ht].
      * apply IH in Ht as (n & Hn & Ht); [|lia..]. exists n. split; [by eapply mentions_left|done].
      * apply IH in Ht as (n & Hn & Ht); [|lia..]. exists n. split; [by eapply mentions_right|done].
  - intros (n & Hn & Ht). destruct Hn as [id a n Ha E|id a op l r n Ha E Hn|id a op l r n Ha E Hn]; exists a;
      (split; [done|]); rewrite E; [done|..];
      destruct (operands_smaller A HA id a op l r Hv Ha E) as [Hl Hr]; unfold valid in *; apply orb_true_iff.
    + left. apply IH; [lia..|]. eauto.
    + right. apply IH; [lia..|]. eauto.
Qed.

(** The value of an expression depends on the names it mentions. *)
Lemma den_ext A rho rho' id :
  arena_ok A -> valid A id -> (forall n, mentions A id n -> rho n = rho' n) -> den A rho id = den A rho' id.
Proof.
  intros HA. induction id as [id IH] using lt_wf_ind. intros Hv Hn. rewrite !(den_eq A HA) by done.
  apply bt_sum_mono_ext. intros a Ha. unfold atom_val.
  destruct (atoms A !! a) as [[n|op l r]|] eqn:E; [by apply Hn; eapply mentions_param| |done].
  destruct (operands_smaller A HA id a op l r Hv Ha E) as [Hl Hr]. unfold valid in *.
  f_equal; apply IH; try lia; intros n Hm; apply Hn; [by eapply mentions_left|by eapply mentions_right].
Qed.

Lemma mentions_le A B id n : arena_ok A -> arena_le A B -> valid A id -> mentions B id n <-> mentions A id n.
Proof.
  intros HA Hle. induction id as [id IH] using lt_wf_ind. intros Hv. split.
  - intros Hm. inversion Hm as [? a ? Ha E|? a op l r ? Ha E Hn|? a op l r ? Ha E Hn]; subst;
      rewrite (poly_of_le A B id Hle Hv) in Ha; destruct (atom_in_range A id a HA Hv Ha) as [x Hx];
      rewrite (le_lookup_atom A B a x Hle Hx) in E; injection E as ->.
    + by eapply mentions_param.
    + destruct (operands_smaller A HA id a op l r Hv Ha Hx). unfold valid in *.
      eapply mentions_left; [done..|]. apply IH; [lia..|done].
    + destruct (operands_smaller A HA id a op l r Hv Ha Hx). unfold valid in *.
      eapply mentions_right; [done..|]. apply IH; [lia..|done].
  - intros Hm. destruct Hm as [id a n Ha E|id a op l r n Ha E Hn|id a op l r n Ha E Hn];
      pose proof (le_lookup_atom A B a _ Hle E) as E'; pose proof Ha as Ha'; rewrite <- (poly_of_le A B id Hle Hv) in Ha'.
    + by eapply mentions_param.
    + destruct (operands_smaller A HA id a op l r Hv Ha E). unfold valid in *.
      eapply mentions_left; [done..|]. apply IH; [lia..|done].
    + destruct (operands_smaller A HA id a op l r Hv Ha E). unfold valid in *.
      eapply mentions_right; [done..|]. apply IH; [lia..|done].
Qed.

(** ** Substitution *)

(** The values of the parameters after a substitution. *)
Definition subst_env (A : Arena) (s : Subst) (rho : string -> Z) (n : string) : Z :=
  match binding n s with
  | BTo p => den A rho p
  | BRename other => rho other
  | BKeep | BDyn => rho n
  end.

Definition subst_ok (A : Arena) (s : Subst) : Prop := forall n p, binding n s = BTo p -> valid A p.

Lemma subst_ok_le A B s : arena_le A B -> subst_ok A s -> subst_ok B s.
Proof. intros Hle Hs n p Hb. by eapply valid_le, Hs. Qed.

Lemma subst_env_le A B s rho n :
  arena_ok A -> arena_ok B -> arena_le A B -> subst_ok A s -> subst_env B s rho n = subst_env A s rho n.
Proof.
  intros HA HB Hle Hs. unfold subst_env. destruct (binding n s) eqn:E; try done.
  apply den_le; try done. by eapply Hs.
Qed.

Lemma eval_mono_spec value v term m z :
  Forall (fun f => forall x, value f.1 = Some x -> v f.1 = x) m ->
  in_i64 term = true -> eval_mono value term m = Some z ->
  z = term * mono_val v m /\ in_i64 z = true /\ Forall (fun f => exists x, value f.1 = Some x) m.
Proof.
  intros HF. revert term. induction HF as [|[a e] m Hx HF IH]; intros term Hi; simpl.
  { intros [= <-]. split_and!; [lia|done|constructor]. }
  intros (x & Ex & (p & [-> Hp]%check_i64_in & (t & [-> Ht]%check_i64_in & H)%bind_Some)%bind_Some)%bind_Some.
  destruct (IH _ Ht H) as (-> & Hz & Hall). simpl in Hx. rewrite (Hx x Ex).
  split_and!; [ring|done|constructor; [by exists x|done]].
Qed.

Lemma eval_terms_spec value v total p z :
  Forall (fun e => Forall (fun f => forall x, value f.1 = Some x -> v f.1 = x) e.1 /\ in_i64 e.2 = true) p ->
  in_i64 total = true -> eval_terms value total p = Some z ->
  z = total + bt_sum (mono_val v) p /\ in_i64 z = true /\
  Forall (fun e => Forall (fun f => exists x, value f.1 = Some x) e.1) p.
Proof.
  intros HF. revert total. induction HF as [|[m c] p [Hm Hc] HF IH]; intros total Hi; simpl.
  { intros [= <-]. split_and!; [lia|done|constructor]. }
  intros (t & Et & (t2 & [-> Ht]%check_i64_in & H)%bind_Some)%bind_Some. simpl in Hm, Hc.
  destruct (eval_mono_spec value v c m t Hm Hc Et) as (-> & _ & Hall).
  destruct (IH _ Ht H) as (-> & Hz & Hall'). split_and!; [ring|done|by constructor].
Qed.

Lemma atoms_in_elem (p : Poly) e f : e ∈ p -> f ∈ e.1 -> f.1 ∈ atoms_in p.
Proof.
  intros He Hf. apply list_elem_of_In, in_flat_map. exists e.
  split; [by apply list_elem_of_In|]. by apply in_map, list_elem_of_In.
Qed.

Lemma atoms_in_inv (p : Poly) a : a ∈ atoms_in p -> exists e f, e ∈ p /\ f ∈ e.1 /\ a = f.1.
Proof.
  intros Ha. apply list_elem_of_In, in_flat_map in Ha as (e & He & Ha). apply in_map_iff in Ha as (f & <- & Hf).
  exists e, f. split_and!; [by apply list_elem_of_In..|done].
Qed.

Lemma eval_fuel_spec A s fuel id z :
  arena_ok A -> valid A id -> (id < fuel)%nat -> eval_fuel A s fuel id = Some z ->
  in_i64 z = true /\ (forall rho, den A (subst_env A s rho) id = z) /\
  (forall n, mentions A id n -> exists p, binding n s = BTo p).
Proof.
  intros HA. revert fuel z. induction id as [id IH] using lt_wf_ind. intros [|fuel] z Hv Hf; [lia|].
  cbn [eval_fuel]. match goal with |- eval_terms ?f _ _ = _ -> _ => set (value := f) end. intros Hev.
  destruct (poly_of_wf A id HA Hv) as [[_ Hw] _]. rewrite Forall_forall in Hw.
  assert (forall a x, a ∈ atoms_in (poly_of A id) -> value a = Some x ->
            (forall rho, atom_val A (subst_env A s rho) a = x) /\
            (forall n, (atoms A !! a = Some (AParam n) \/
                        exists op l r, atoms A !! a = Some (AOpaque op l r) /\ (mentions A l n \/ mentions A r n)) ->
                       exists p, binding n s = BTo p)) as Hval.
  { intros a x Ha Hx. unfold value in Hx. unfold atom_val.
    destruct (atoms A !! a) as [[n|op l r]|] eqn:E; [| |done].
    - destruct (binding n s) as [| |p|] eqn:Eb; try done. split.
      + intros rho. unfold subst_env. rewrite Eb. by apply (lit_of_den A p x HA).
      + intros n' [[= <-]|(? & ? & ? & [=] & _)]. eauto.
    - apply bind_Some in Hx as (xl & El & (xr & Er & Hop)%bind_Some).
      destruct (operands_smaller A HA id a op l r Hv Ha E). unfold valid in *.
      apply IH in El as (_ & Hl & Hnl); [|lia..]. apply IH in Er as (_ & Hr & Hnr); [|lia..]. split.
      + intros rho. rewrite Hl, Hr. symmetry. by apply fold_op_den.
      + intros n [[=]|(? & ? & ? & [= <- <- <-] & [Hn|Hn])]; auto. }
  assert (forall rho, z = 0 + bt_sum (mono_val (atom_val A (subst_env A s rho))) (poly_of A id) /\ in_i64 z = true /\
            Forall (fun e => Forall (fun f => exists x, value f.1 = Some x) e.1) (poly_of A id)) as Hsum.
  { intros rho. apply (eval_terms_spec value); [|done|done]. rewrite Forall_forall. intros e He. split; [|by apply Hw].
    rewrite Forall_forall. intros f Hf' x Hx. by apply (Hval f.1 x (atoms_in_elem _ _ _ He Hf')). }
  destruct (Hsum (fun _ => 0)) as (_ & Hz & Hall). split_and!; [done| |].
  - intros rho. rewrite (den_eq A HA) by done. destruct (Hsum rho) as [-> _]. done.
  - intros n Hm. rewrite Forall_forall in Hall.
    assert (exists a, a ∈ atoms_in (poly_of A id) /\ (atoms A !! a = Some (AParam n) \/
              exists op l r, atoms A !! a = Some (AOpaque op l r) /\ (mentions A l n \/ mentions A r n))) as (a & Ha & Hn).
    { destruct Hm; exists a; (split; [done|]); [by left|right..]; eauto 10. }
    destruct (atoms_in_inv _ _ Ha) as (e & f & He & Hf' & ->). specialize (Hall e He).
    rewrite Forall_forall in Hall. destruct (Hall f Hf') as [x Hx]. by apply (Hval f.1 x Ha Hx).
Qed.

Lemma apply_pow_yields A term value e :
  arena_ok A -> valid A term -> valid A value ->
  yields A (apply_pow A term value e) (fun rho => den A rho term * den A rho value ^ Z.of_nat e).
Proof.
  revert A term. induction e as [|e IH]; intros A term HA Ht Hv.
  { split_and!; [done..|]. intros rho. change (Z.of_nat 0) with 0. rewrite Z.pow_0_r, Z.mul_1_r. done. }
  cbn [apply_pow]. destruct (apply_yields A DMul term value HA Ht Hv) as (HB & Hle & Hb & Hd).
  destruct (apply A DMul term value) as [B t]. cbn [fst snd] in *.
  eapply yields_trans; [done|]. eapply yields_val; [apply IH; [done..|by eapply valid_le]|].
  intros rho. simpl. rewrite Hd, (den_le A B) by done. simpl.
  rewrite Nat2Z.inj_succ, Z.pow_succ_r by lia. ring.
Qed.

Section Resolve.
Context (A0 : Arena) (s : Subst) (HA0 : arena_ok A0) (Hs : subst_ok A0 s).

Definition sigma (rho : string -> Z) : string -> Z := subst_env A0 s rho.

(** The names below an atom. *)
Definition atom_mentions (a : nat) (n : string) : Prop :=
  atoms A0 !! a = Some (AParam n) \/
  exists op l r, atoms A0 !! a = Some (AOpaque op l r) /\ (mentions A0 l n \/ mentions A0 r n).

Lemma mentions_atom id n :
  mentions A0 id n <-> exists a, a ∈ atoms_in (poly_of A0 id) /\ atom_mentions a n.
Proof.
  split.
  - intros Hm. destruct Hm; exists a; (split; [done|]); [by left|right..]; eauto 10.
  - intros (a & Ha & [E|(op & l & r & E & [Hm|Hm])]).
    + by eapply mentions_param.
    + by eapply mentions_left.
    + by eapply mentions_right.
Qed.

Definition mentions_dyn (P : string -> Prop) : Prop := exists n, P n /\ binding n s = BDyn.

(** A step of the resolution from arena [B]: the new arena extends [B]; a
    result denotes [v] under the substitution and mentions no name bound to
    [Dyn]; a failure has met one. *)
Definition resolved (B : Arena) (res : Arena * option nat) (v : (string -> Z) -> Z) (P : string -> Prop) : Prop :=
  arena_ok res.1 /\ arena_le B res.1 /\
  match res.2 with
  | Some i => valid res.1 i /\ (forall rho, den res.1 rho i = v rho) /\ ~ mentions_dyn P
  | None => mentions_dyn P
  end.

Lemma yields_resolved B res v P :
  yields B res v -> ~ mentions_dyn P -> resolved B (let '(C, i) := res in (C, Some i)) v P.
Proof. intros (? & ? & ? & ?) HP. destruct res. by split_and!. Qed.

Lemma resolved_trans B C res v P : arena_le B C -> resolved C res v P -> resolved B res v P.
Proof. intros Hle (? & ? & ?). split_and!; [done|by etrans|done]. Qed.

Lemma resolved_val B res v v' P P' :
  resolved B res v P -> (forall rho, v rho = v' rho) -> (forall n, P n <-> P' n) -> resolved B res v' P'.
Proof.
  intros (? & ? & Hr) Hv HP. split_and!; [done..|].
  assert (mentions_dyn P <-> mentions_dyn P') as Hd by (unfold mentions_dyn; by setoid_rewrite HP).
  destruct res.2; rewrite <- Hd; [|done]. setoid_rewrite <- Hv. done.
Qed.

Definition value_spec (value : Arena -> nat -> Arena * option nat) (a : nat) : Prop :=
  forall B, arena_ok B -> arena_le A0 B ->
    resolved B (value B a) (fun rho => atom_val A0 (sigma rho) a) (atom_mentions a).

Lemma resolve_mono_spec value m B term :
  Forall (fun f => value_spec value f.1 /\ 0 <= f.2) m ->
  arena_ok B -> arena_le A0 B -> valid B term ->
  resolved B (resolve_mono value B term m)
    (fun rho => den B rho term * mono_val (atom_val A0 (sigma rho)) m)
    (fun n => exists f, f ∈ m /\ atom_mentions f.1 n).
Proof.
  intros HF. revert B term. induction HF as [|[a e] m [Hv He] HF IH]; intros B term HB Hle Ht; cbn [resolve_mono].
  { split_and!; [done..|]. simpl. split_and!; [done|intros; lia|]. intros (n & (f & Hf%not_elem_of_nil & _) & _). done. }
  simpl in He. destruct (Hv B HB Hle) as (HC & HleC & Hval). simpl in HC, HleC, Hval.
  destruct (value B a) as [C [v|]]; cbn [fst snd] in *.
  2: { split_and!; [done..|]. simpl. destruct Hval as (n & Hn & Hd). exists n. split; [|done]. exists (a, e). split; [left|done]. }
  destruct Hval as (Hvv & Hvd & Hnd).
  destruct (apply_pow_yields C term v (Z.to_nat e) HC (valid_le _ _ _ HleC Ht) Hvv) as (HD & HleD & Hvt & Hd).
  destruct (apply_pow C term v (Z.to_nat e)) as [D t]. cbn [fst snd] in *.
  eapply resolved_trans; [exact HleC|]. eapply resolved_trans; [exact HleD|].
  assert (arena_le A0 D) as HleAD by (etrans; [exact Hle|]; by etrans).
  destruct (IH D t HD HleAD Hvt) as (HE & HleE & Hres). split_and!; [done..|].
  destruct (resolve_mono value D t m) as [E [i|]]; cbn [fst snd] in *.
  - destruct Hres as (Hi & Hdi & Hnm). split_and!; [done| |].
    + intros rho. rewrite Hdi, Hd, (den_le B C), Hvd, Z2Nat.id by done. cbn [mono_val foldr fst snd]. fold (mono_val (atom_val A0 (sigma rho)) m). ring.
    + intros (n & (f & [->|Hf]%elem_of_cons & Hfn) & Hn); [apply Hnd; by exists n|apply Hnm]. exists n. split; [by exists f|done].
  - destruct Hres as (n & (f & Hf & Hfn) & Hn). exists n. split; [|done]. exists f. split; [by right|done].
Qed.

Lemma resolve_terms_spec value p B total :
  Forall (fun e => Forall (fun f => value_spec value f.1 /\ 0 <= f.2) e.1 /\ in_i64 e.2 = true) p ->
  arena_ok B -> arena_le A0 B -> valid B total ->
  resolved B (resolve_terms value B total p)
    (fun rho => den B rho total + bt_sum (mono_val (atom_val A0 (sigma rho))) p)
    (fun n => exists a, a ∈ atoms_in p /\ atom_mentions a n).
Proof.
  intros HF. revert B total. induction HF as [|[m c] p [Hm Hc] HF IH]; intros B total HB Hle Ht; cbn [resolve_terms].
  { split_and!; [done..|]. simpl. split_and!; [done|intros; lia|]. intros (n & (f & Hf%not_elem_of_nil & _) & _). done. }
  simpl in Hm, Hc. destruct (arena_lit_yields B c HB Hc) as (HC & HleC & Hvt & Hd).
  destruct (arena_lit B c) as [C t]. cbn [fst snd] in *.
  assert (arena_le A0 C) as HleAC by (by etrans).
  destruct (resolve_mono_spec value m C t Hm HC HleAC Hvt) as (HD & HleD & Hmono).
  destruct (resolve_mono value C t m) as [D [tm|]]; cbn [fst snd] in *.
  2: { split_and!; [done|by etrans|]. cbn [snd]. destruct Hmono as (n & (f & Hf & Hfn) & Hn). exists n. split; [|done].
       exists f.1. split; [|done]. apply (atoms_in_elem _ (m, c)); [left|done]. }
  destruct Hmono as (Hvtm & Hdm & Hnm).
  assert (valid D total) as HtD by (eapply valid_le; [exact HleD|]; exact (valid_le B C total HleC Ht)).
  destruct (apply_yields D DAdd total tm HD HtD Hvtm) as (HE & HleE & Hvs & Hds).
  destruct (apply D DAdd total tm) as [E sm]. cbn [fst snd] in *.
  assert (arena_le B E) as HleBE by (etrans; [exact HleC|]; by etrans).
  eapply resolved_trans; [exact HleBE|].
  destruct (IH E sm HE (transitivity Hle HleBE) Hvs) as (HG & HleG & Hres). split_and!; [done..|].
  destruct (resolve_terms value E sm p) as [G [i|]]; cbn [fst snd] in *.
  - destruct Hres as (Hi & Hdi & Hnp). split_and!; [done| |].
    + intros rho. rewrite Hdi, Hds. simpl. rewrite Hdm, Hd, (den_le B D); [ring|done|done|exact (transitivity HleC HleD)|done].
    + intros (n & (a & Ha & Han) & Hn). destruct (atoms_in_inv _ _ Ha) as (e & f & He & Hf & ->).
      apply elem_of_cons in He as [->|He].
      * apply Hnm. exists n. split; [by exists f|done].
      * apply Hnp. exists n. split; [|done]. exists f.1. split; [by eapply atoms_in_elem|done].
  - destruct Hres as (n & (a & Ha & Han) & Hn). exists n. split; [|done]. exists a. split; [|done].
    unfold atoms_in. simpl. apply elem_of_app. by right.
Qed.
End Resolve.

Lemma touches_spec A id s :
  arena_ok A -> valid A id -> touches A id s = true <-> exists n, mentions A id n /\ binding n s <> BKeep.
Proof.
  intros HA Hv. unfold touches. rewrite any_name_walk_spec by (done || lia).
  split; intros (n & Hn & Hb); exists n; (split; [done|]); by destruct (binding n s).
Qed.

Lemma resolve_fuel_spec s fuel A id :
  arena_ok A -> subst_ok A s -> valid A id -> (id < fuel)%nat ->
  resolved s A (resolve_fuel s fuel A id) (fun rho => den A (subst_env A s rho) id) (mentions A id).
Proof.
  revert fuel A. induction id as [id IH] using lt_wf_ind. intros [|fuel] A HA Hs Hv Hf; [lia|]. cbn [resolve_fuel].
  destruct (touches A id s) eqn:Et; simpl negb; cbn iota.
  2: { assert (forall n, mentions A id n -> binding n s = BKeep) as Hk.
       { intros n Hn. destruct (binding n s) eqn:Eb; [done|..];
           (assert (touches A id s = true) by (apply touches_spec; [done..|]; exists n; by rewrite Eb)); congruence. }
       split_and!; [done..|]. simpl. split_and!; [done| |].
       - intros rho. apply den_ext; [done..|]. intros n Hn. unfold subst_env. by rewrite (Hk n Hn).
       - intros (n & Hn & Hb). by rewrite (Hk n Hn) in Hb. }
  destruct (eval A id s) as [z|] eqn:Ee.
  { apply eval_fuel_spec in Ee as (Hz & Hd & Hn); [|done..|lia].
    eapply (resolved_val s _ _ _ _ (mentions A id)); [apply yields_resolved; [by apply arena_lit_yields|]|..].
    - intros (n & Hm & Hb). destruct (Hn n Hm) as [p Hp]. congruence.
    - intros rho. by rewrite Hd.
    - done. }
  destruct (arena_lit_yields A 0 HA eq_refl) as (HB & HleB & Hvz & Hdz).
  destruct (arena_lit A 0) as [B zero]. cbn [fst snd] in *. cbn zeta.
  match goal with |- resolved _ _ (resolve_terms ?f _ _ _) _ _ => set (value := f) end.
  assert (forall a, a ∈ atoms_in (poly_of A id) -> value_spec A s value a) as Hval.
  { intros a Ha C HC HleC. destruct (atom_in_range A id a HA Hv Ha) as [x Hx]. unfold value.
    rewrite (le_lookup_atom A C a x HleC Hx). unfold atom_val, sigma, atom_mentions. rewrite Hx. destruct x as [n|op l r].
    - destruct (binding n s) as [| |p|other] eqn:Eb.
      + eapply (resolved_val s _ _ _ _ (fun m => m = n)); [apply yields_resolved|..].
        * eapply atom_poly_yields; [done|]. by eapply le_lookup_atom.
        * intros (m & -> & Hm). congruence.
        * intros rho. unfold atom_val, subst_env. by rewrite (le_lookup_atom A C a _ HleC Hx), Eb.
        * intros m. split; [by intros ->; left|]. intros [?|(? & ? & ? & [=] & _)]. congruence.
      + split_and!; [done..|]. exists n. split; [by left|done].
      + split_and!; [done..|]. simpl. split_and!; [eapply valid_le; [done|by eapply Hs]| |].
        * intros rho. unfold subst_env. rewrite Eb. apply den_le; [done..|by eapply Hs].
        * intros (m & [[= ->]|(? & ? & ? & [=] & _)] & Hm). congruence.
      + eapply (resolved_val s _ _ _ _ (fun m => m = n)); [apply yields_resolved; [by apply arena_param_yields|]|..].
        * intros (m & -> & Hm). congruence.
        * intros rho. unfold subst_env. by rewrite Eb.
        * intros m. split; [by intros ->; left|]. intros [?|(? & ? & ? & [=] & _)]. congruence.
    - destruct (operands_smaller A HA id a op l r Hv Ha Hx) as [Hl Hr].
      assert (valid A l /\ valid A r) as [HvL HvR] by (unfold valid in *; lia).
      assert (forall n, (Some (AOpaque op l r) = Some (AParam n) \/ (exists op0 l0 r0,
                 Some (AOpaque op l r) = Some (AOpaque op0 l0 r0) /\ (mentions A l0 n \/ mentions A r0 n))) <->
                 mentions A l n \/ mentions A r n) as HP.
      { intros n. split; [intros [[=]|(? & ? & ? & [= <- <- <-] & ?)]; done|]. intros ?. right. eauto 10. }
      eapply resolved_val; [|intros rho; reflexivity|intros n; symmetry; apply HP].
      destruct (IH l Hl fuel C HC (subst_ok_le A C s HleC Hs) (valid_le A C l HleC HvL) ltac:(lia)) as (HD & HleD & HresL).
      destruct (resolve_fuel s fuel C l) as [D [l'|]]; cbn [fst snd] in *.
      2: { split_and!; [done..|]. destruct HresL as (n & Hn & Hb). exists n. split; [|done]. left.
           by apply (mentions_le A C). }
      destruct HresL as (HvL' & HdL & HnL).
      assert (arena_le A D) as HleAD by (by etrans).
      destruct (IH r Hr fuel D HD (subst_ok_le A D s HleAD Hs) (valid_le A D r HleAD HvR) ltac:(lia)) as (HE & HleE & HresR).
      destruct (resolve_fuel s fuel D r) as [E [r'|]]; cbn [fst snd] in *.
      2: { split_and!; [done|by etrans|]. destruct HresR as (n & Hn & Hb). exists n. split; [|done]. right.
           by apply (mentions_le A D). }
      destruct HresR as (HvR' & HdR & HnR).
      eapply resolved_trans; [exact HleD|]. eapply resolved_trans; [exact HleE|].
      eapply (resolved_val s _ _ _ _ (fun n => mentions A l n \/ mentions A r n));
        [apply yields_resolved; [apply apply_yields; [done| |done]; by eapply valid_le|]|..].
      + intros (n & [Hn|Hn] & Hb); [apply HnL|apply HnR]; exists n; (split; [|done]); [exact (proj2 (mentions_le A C l n HA HleC HvL) Hn)|exact (proj2 (mentions_le A D r n HA HleAD HvR) Hn)].
      + intros rho. simpl. rewrite HdR, (den_le D E), HdL by done.
        rewrite (den_le A C), (den_le A D) by done. f_equal; apply den_ext; try done; intros n _; by apply subst_env_le.
      + done. }
  destruct (poly_of_wf A id HA Hv) as [[_ Hw] _]. rewrite Forall_forall in Hw.
  eapply resolved_trans; [exact HleB|]. eapply resolved_val.
  - apply (resolve_terms_spec A s); [|done..]. rewrite Forall_forall. intros e He. destruct (Hw e He) as [[_ Hwf] Hc].
    split; [|done]. rewrite Forall_forall in *. intros f Hf'. split; [apply Hval; by eapply atoms_in_elem|].
    destruct (Hwf f Hf') as [? _]. lia.
  - intros rho. cbn beta. rewrite Hdz, (den_eq A HA) by done. unfold sigma. lia.
  - intros n. symmetry. apply mentions_atom.
Qed.

(** ** Unbound parameters *)

Lemma fold_collect {X Y} (step : list X -> Y -> list X) (Q : Y -> X -> Prop) la out x :
  (forall b out x, b ∈ la -> x ∈ step out b <-> x ∈ out \/ Q b x) ->
  x ∈ fold_left step la out <-> x ∈ out \/ exists b, b ∈ la /\ Q b x.
Proof.
  revert out. induction la as [|b la IH]; intros out Hstep; cbn [fold_left].
  { split; [by left|]. intros [?|(b & Hb%not_elem_of_nil & _)]; done. }
  rewrite IH by (intros; apply Hstep; by right). rewrite Hstep by left. setoid_rewrite elem_of_cons. naive_solver.
Qed.

Definition unbound_below (A : Arena) (s : Subst) (P : string -> Prop) (a : nat) : Prop :=
  exists n, atoms A !! a = Some (AParam n) /\ is_unbound n s = true /\ P n.

Lemma unbound_params_fuel_spec A s fuel id out a :
  arena_ok A -> valid A id -> (id < fuel)%nat ->
  a ∈ unbound_params_fuel A s fuel id out <-> a ∈ out \/ unbound_below A s (mentions A id) a.
Proof.
  intros HA. revert fuel out a. induction id as [id IH] using lt_wf_ind. intros [|fuel] out a Hv Hf; [lia|].
  cbn [unbound_params_fuel]. rewrite (fold_collect _ (fun b => unbound_below A s (atom_mentions A b))).
  { unfold unbound_below. setoid_rewrite (mentions_atom A id). naive_solver. }
  intros b out' x Hb. unfold unbound_below, atom_mentions.
  destruct (atoms A !! b) as [[n|op l r]|] eqn:E.
  - destruct (is_unbound n s) eqn:Eu; simpl; [case_bool_decide as Hin; simpl|].
    + split; [by left|]. intros [?|(m & Hx & Hu & [[= ->]|(? & ? & ? & [=] & _)])]; [done|].
      apply (ok_params _ HA) in Hx, E. congruence.
    + rewrite elem_of_app, list_elem_of_singleton. split.
      * intros [?| ->]; [by left|right]. exists n. split_and!; [done..|by left].
      * intros [?|(m & Hx & Hu & [[= ->]|(? & ? & ? & [=] & _)])]; [by left|right].
        apply (ok_params _ HA) in Hx, E. congruence.
    + split; [by left|]. intros [?|(m & Hx & Hu & [[= ->]|(? & ? & ? & [=] & _)])]; [done|congruence].
  - destruct (operands_smaller A HA id b op l r Hv Hb E) as [Hl Hr]. unfold valid in *.
    rewrite !IH by lia. unfold unbound_below. split.
    + intros [[?|(n & ? & ? & ?)]|(n & ? & ? & ?)]; [by left|right; exists n; split_and!; [done..|right]..]; eauto 10.
    + intros [?|(n & ? & ? & [[=]|(? & ? & ? & [= <- <- <-] & [?|?])])]; [by left; left|left; right|right]; eauto.
  - split; [by left|]. intros [?|(n & ? & ? & [[=]|(? & ? & ? & [=] & _)])]. done.
Qed.

Lemma unbound_params_elem A id s a :
  arena_ok A -> valid A id -> a ∈ unbound_params A id s [] <-> unbound_below A s (mentions A id) a.
Proof.
  intros HA Hv. unfold unbound_params. rewrite unbound_params_fuel_spec by (done || lia).
  split; [intros [?%not_elem_of_nil|?]; done|by right].
Qed.

(** What [linear_in_unbound] returns: an unbound parameter [n], and an
    expression without unbound parameters, with
    [expected - actual = coeff * n + rest]. *)
Lemma linear_in_unbound_spec A e a s :
  arena_ok A -> valid A e -> valid A a ->
  let res := linear_in_unbound A e a s in
  arena_ok res.1 /\ arena_le A res.1 /\
  match res.2 with
  | None => True
  | Some (param, coeff, rest) =>
      valid res.1 rest /\
      exists n, atoms res.1 !! param = Some (AParam n) /\ is_unbound n s = true /\ ~ mentions res.1 rest n /\
        forall rho, den A rho e - den A rho a = coeff * rho n + den res.1 rho rest
  end.
Proof.
  intros HA He Ha res. subst res. unfold linear_in_unbound.
  destruct (apply_yields A DSub e a HA He Ha) as (HB & HleB & Hvd & Hd).
  destruct (apply A DSub e a) as [B d]. cbn [fst snd] in *.
  destruct (unbound_params B d s []) as [|param [|? ?]] eqn:Eu; [done| |done].
  destruct (bt_get mono_cmp [(param, 1)] (poly_of B d)) as [coeff|] eqn:Eg; [|done].
  destruct (poly_of_wf B d HB Hvd) as [[Hs Hf] Hn].
  assert (poly_wf B (bt_remove mono_cmp [(param, 1)] (poly_of B d))) as Hrw.
  { rewrite Forall_forall in Hf, Hn. split; [split; [by apply bt_remove_sorted; [apply _|]|]|];
      rewrite Forall_forall; intros x Hx%poly_remove_elem; [by apply Hf|by apply Hn]. }
  destruct (intern_yields B _ HB Hrw) as (HC & HleC & Hvr & Hdr).
  destruct (intern B _) as [C rest]. cbn [fst snd] in *. split_and!; [done|by etrans|].
  destruct (unbound_params C rest s []) eqn:Er; [|done]. split; [done|].
  assert (param ∈ unbound_params B d s []) as Hp by (rewrite Eu; left).
  apply unbound_params_elem in Hp as (n & Hat & Hun & Hm); [|done..].
  exists n. pose proof (le_lookup_atom B C _ _ HleC Hat) as HatC. split_and!; [done..| |].
  - intros Hmr. assert (param ∈ unbound_params C rest s []) as Hin.
    { apply unbound_params_elem; [done..|]. by exists n. }
    rewrite Er in Hin. by apply not_elem_of_nil in Hin.
  - intros rho. specialize (Hd rho). simpl in Hd. rewrite <- Hd, Hdr, (den_eq B HB) by done.
    rewrite bt_sum_remove by apply _. unfold get_or_0. rewrite Eg. cbn [mono_val foldr fst snd].
    unfold atom_val at 3. rewrite Hat. rewrite Z.pow_1_r. ring.
Qed.

(** ** Unification *)

(** The parameters have the values their bindings give them. *)
Definition satisfies (A : Arena) (s : Subst) (rho : string -> Z) : Prop := forall n, rho n = subst_env A s rho n.

Lemma satisfies_le A B s rho :
  arena_ok A -> arena_ok B -> arena_le A B -> subst_ok A s -> satisfies B s rho <-> satisfies A s rho.
Proof. intros. unfold satisfies. by setoid_rewrite (subst_env_le A B). Qed.

Lemma as_param_den A e n :
  arena_ok A -> valid A (ce_poly e) -> as_param A e = Some n -> forall rho, den A rho (ce_poly e) = rho n.
Proof.
  intros HA Hv. unfold as_param. intros Hp rho. rewrite (den_eq A HA) by done.
  destruct (poly_of A (ce_poly e)) as [|[[|[a [| [| |]|]] [|]] [|[| |]|]] [|]]; try done.
  unfold param_name in Hp. cbn [bt_sum mono_val foldr fst snd]. unfold atom_val.
  destruct (atoms A !! a) as [[m|]|]; try done. injection Hp as ->. rewrite Z.pow_1_r. ring.
Qed.

Lemma unbound_keep n s : is_unbound n s = true -> binding n s = BKeep.
Proof.
  unfold is_unbound, binding. destruct (s !! n) as [[]|]; try done. by intros ->.
Qed.

Lemma binding_insert_ne n m ty s : n <> m -> binding m (<[n := ty]> s) = binding m s.
Proof. intros H. unfold binding. by rewrite lookup_insert_ne. Qed.

Definition upd (rho : string -> Z) (n : string) (z : Z) (m : string) : Z := if decide (n = m) then z else rho m.

(** Binding an unbound parameter [n] to [value], which does not depend on it. *)
Lemma bind_satisfies A s n value (d : (string -> Z) -> Z) :
  arena_ok A -> valid A value -> is_unbound n s = true ->
  (forall rho, den A rho value = d rho) -> (forall rho z, d (upd rho n z) = d rho) ->
  let s' := <[n := dim_type A (DConst (mkConstExpr value None))]> s in
  (subst_ok A s -> subst_ok A s') /\
  forall rho, satisfies A s' rho <-> satisfies A s rho /\ rho n = d rho.
Proof.
  intros HA Hv Hu Hd Hind s'.
  assert (forall rho, subst_env A s' rho n = d rho) as Hn.
  { intros rho. unfold subst_env, binding, s'. rewrite lookup_insert_eq. unfold dim_type.
    destruct (as_param A _) as [m|] eqn:Ep; [|apply Hd].
    pose proof (as_param_den A (mkConstExpr value None) m HA Hv Ep) as Hm. simpl in Hm.
    case_bool_decide as E; [|by rewrite <- Hm].
    exfalso. subst m. pose proof (Hind rho (rho n + 1)) as Hi. rewrite <- !Hd, !Hm in Hi.
    unfold upd in Hi. rewrite decide_True in Hi by done. lia. }
  split.
  - intros Hs m p Hb. destruct (decide (n = m)) as [<-|Hne].
    + unfold binding, s' in Hb. rewrite lookup_insert_eq in Hb. unfold dim_type in Hb.
      destruct (as_param A _); [by case_bool_decide|]. by injection Hb as <-.
    + unfold s' in Hb. rewrite binding_insert_ne in Hb by done. by eapply Hs.
  - intros rho. unfold satisfies. split.
    + intros Hsat. split; [|by rewrite (Hsat n), Hn at 1]. intros m. destruct (decide (n = m)) as [<-|Hne].
      * unfold subst_env. by rewrite (unbound_keep n s Hu).
      * rewrite (Hsat m) at 1. unfold subst_env, s'. by rewrite binding_insert_ne.
    + intros [Hsat Hrho] m. destruct (decide (n = m)) as [<-|Hne]; [by rewrite Hn|].
      rewrite (Hsat m) at 1. unfold subst_env, s'. by rewrite binding_insert_ne.
Qed.

Lemma solve_spec A e a s :
  arena_ok A -> subst_ok A s -> valid A e -> valid A a ->
  let res := solve A e a s in
  arena_ok res.1 /\ arena_le A res.1 /\
  match res.2 with
  | None => True
  | Some None => forall rho, satisfies A s rho -> den A rho e = den A rho a
  | Some (Some (n, value)) =>
      valid res.1 value /\ is_unbound n s = true /\
      exists d, (forall rho, den res.1 rho value = d rho) /\ (forall rho z, d (upd rho n z) = d rho) /\
        forall rho, satisfies A s rho -> den A rho e = den A rho a <-> rho n = d rho
  end.
Proof.
  intros HA Hs He Ha res. subst res. unfold solve.
  assert (forall id rho, valid A id -> satisfies A s rho -> den A (subst_env A s rho) id = den A rho id) as Hsat.
  { intros id rho Hv Hr. apply den_ext; [done..|]. intros n _. by rewrite <- Hr. }
  destruct (resolve_fuel_spec s (S e) A e HA Hs He ltac:(lia)) as (HB & HleB & Hre).
  unfold resolve. destruct (resolve_fuel s (S e) A e) as [B [E|]]; cbn [fst snd] in *; [|done].
  destruct Hre as (HvE & HdE & _).
  destruct (resolve_fuel_spec s (S a) B a HB (subst_ok_le A B s HleB Hs) (valid_le A B a HleB Ha) ltac:(lia)) as (HC & HleC & Hra).
  destruct (resolve_fuel s (S a) B a) as [C [F|]]; cbn [fst snd] in *;
    [|by split_and!; [|exact (transitivity HleB HleC)|]].
  destruct Hra as (HvF & HdF & _).
  assert (arena_le A C) as HleAC by (by etrans).
  assert (forall rho, satisfies A s rho -> den C rho E = den A rho e /\ den C rho F = den A rho a) as Hden.
  { intros rho Hr. rewrite (den_le B C), HdE, HdF by done. split; [by apply Hsat|].
    rewrite (den_le A B) by done. rewrite <- (Hsat a rho Ha Hr). apply den_ext; [done..|].
    intros n _. by apply subst_env_le. }
  case_bool_decide as EEF.
  { split_and!; [done..|]. simpl. intros rho Hr. destruct (Hden rho Hr) as [<- <-]. by rewrite EEF. }
  destruct (linear_in_unbound_spec C E F s HC (valid_le B C E HleC HvE) HvF) as (HD & HleD & Hlin).
  destruct (linear_in_unbound C E F s) as [D [[[param coeff] rest]|]]; cbn [fst snd] in *;
    [|by split_and!; [|exact (transitivity HleAC HleD)|]].
  destruct Hlin as (Hvr & n & Hat & Hun & Hnm & Heq).
  assert (arena_le A D) as HleAD by (by etrans).
  assert (forall rho z, den D (upd rho n z) rest = den D rho rest) as Hind.
  { intros rho z. apply den_ext; [done..|]. intros m Hm. unfold upd. rewrite decide_False; [done|]. by intros <-. }
  assert (forall rho, satisfies A s rho -> den A rho e - den A rho a = coeff * rho n + den D rho rest) as Hdiff.
  { intros rho Hr. rewrite <- Heq. by destruct (Hden rho Hr) as [-> ->]. }
  destruct coeff as [|[c|c|]|[c|c|]]; try (by split_and!).
  - destruct (arena_lit_yields D 0 HD eq_refl) as (HG & HleG & Hvz & Hdz).
    destruct (arena_lit D 0) as [G zero]. cbn [fst snd] in *.
    destruct (apply_yields G DSub zero rest HG Hvz (valid_le D G rest HleG Hvr)) as (HH & HleH & Hvv & Hdv).
    destruct (apply G DSub zero rest) as [H v]. cbn [fst snd] in *.
    assert (arena_le D H) as HleDH by (by etrans).
    unfold param_name. rewrite (le_lookup_atom D H _ _ HleDH Hat). cbn [fst snd mbind option_bind].
    split_and!; [done|by etrans|done|done|]. exists (fun rho => - den D rho rest). split_and!.
    + intros rho. rewrite Hdv. simpl. rewrite Hdz, (den_le D G) by done. lia.
    + intros rho z. by rewrite Hind.
    + intros rho Hr. specialize (Hdiff rho Hr). lia.
  - unfold param_name. rewrite Hat. cbn [fst snd mbind option_bind]. split_and!; [done..|].
    exists (fun rho => den D rho rest). split_and!; [done..|]. intros rho Hr. specialize (Hdiff rho Hr). lia.
Qed.

(** ** Theorems *)

(** The arenas a program can build. *)
Inductive reachable : Arena -> Prop :=
| reachable_default : reachable arena_default
| reachable_lit A value : reachable A -> in_i64 value = true -> reachable (arena_lit A value).1
| reachable_param A name : reachable A -> reachable (arena_param A name).1
| reachable_apply A op l r : reachable A -> valid A l -> valid A r -> reachable (apply A op l r).1
| reachable_resolve A id s : reachable A -> valid A id -> subst_ok A s -> reachable (resolve A id s).1
| reachable_linear A e a s : reachable A -> valid A e -> valid A a -> reachable (linear_in_unbound A e a s).1.

Lemma arena_default_ok : arena_ok arena_default.
Proof. split; simpl; try done; intros; split; intros H; (by rewrite lookup_empty in H) || by rewrite lookup_nil in H. Qed.

Lemma reachable_ok A : reachable A -> arena_ok A.
Proof.
  induction 1 as [|A v HA IH Hv|A n HA IH|A op l r HA IH Hl Hr|A id s HA IH Hv Hs|A e a s HA IH He Ha].
  - apply arena_default_ok.
  - by apply arena_lit_yields.
  - by apply arena_param_yields.
  - by apply apply_yields.
  - apply (resolve_fuel_spec s (S id) A id); try done. lia.
  - by apply linear_in_unbound_spec.
Qed.

(** in every arena the dimension operations can build, polynomials are
    canonical and hash-consed: an id's polynomial has sorted monomials with
    positive exponents over existing atoms and no zero coefficient, its
    operands have smaller ids, and two ids are equal exactly when their
    polynomials are (so equality of [ConstExpr]s, which compares ids, is
    equality of canonical forms). *)
Theorem reachable_canonical A :
  reachable A ->
  (forall i, valid A i -> poly_wf A (poly_of A i) /\ operands_below A i (poly_of A i)) /\
  (forall i j, valid A i -> valid A j -> i = j <-> poly_of A i = poly_of A j).
Proof.
  intros HA%reachable_ok. split.
  - intros i Hi. exact (ok_poly _ HA _ _ _ (valid_lookup A i Hi HA)).
  - intros i j Hi Hj. split; [by intros ->|]. intros E.
    pose proof (proj2 (ok_ids _ HA _ _) (valid_lookup A i Hi HA)) as H1.
    pose proof (proj2 (ok_ids _ HA _ _) (valid_lookup A j Hj HA)) as H2. congruence.
Qed.

(** C29: [Arena::apply] is exact: whatever the values of the parameters, the
    polynomial it returns has the value of the operator (unbounded integer
    addition, subtraction, multiplication, truncating division and remainder)
    on the operands' values; machine overflow only makes the result an opaque
    atom, never a wrong polynomial. *)
Theorem apply_denotes A op l r :
  arena_ok A -> valid A l -> valid A r ->
  let '(B, id) := apply A op l r in
  arena_ok B /\ arena_le A B /\ valid B id /\
  forall rho, den B rho id = den_op op (den A rho l) (den A rho r).
Proof.
  intros HA Hl Hr. destruct (apply_yields A op l r HA Hl Hr) as (? & ? & ? & ?).
  destruct (apply A op l r). by split_and!.
Qed.

(** [verdict] is sound: [Equal] means the two dimensions have the same
    value for all values of the parameters, [Different] that they differ for
    all of them. *)
Theorem verdict_sound A e a :
  arena_ok A -> valid A (ce_poly e) -> valid A (ce_poly a) ->
  let '(B, v) := verdict A e a in
  arena_ok B /\ arena_le A B /\
  match v with
  | Equal => forall rho, den A rho (ce_poly e) = den A rho (ce_poly a)
  | Different => forall rho, den A rho (ce_poly e) <> den A rho (ce_poly a)
  | CannotProve => True
  end.
Proof.
  intros HA He Ha. unfold verdict. case_bool_decide as E; [split_and!; [done..|by rewrite E]|].
  destruct (apply_yields A DSub _ _ HA He Ha) as (HB & Hle & _ & Hd). destruct (apply A DSub _ _) as [B d].
  cbn [fst snd] in *. split_and!; [done..|]. destruct (lit_of B d) as [z|] eqn:El; [|done].
  apply lit_of_den in El as (_ & _ & Hz); [|done].
  destruct z; intros rho; specialize (Hd rho); rewrite Hz in Hd; simpl in Hd; lia.
Qed.

(** substitution commutes with evaluation: when [resolve] returns a
    polynomial, its value under any parameter values is the value of the
    original expression with each parameter replaced by its binding's value;
    it returns nothing exactly when the expression mentions a parameter bound
    to [Dyn]. *)
Theorem resolve_denotes A id s :
  arena_ok A -> subst_ok A s -> valid A id ->
  let '(B, res) := resolve A id s in
  arena_ok B /\ arena_le A B /\
  (res = None <-> exists n, mentions A id n /\ binding n s = BDyn) /\
  forall i, res = Some i -> valid B i /\ forall rho, den B rho i = den A (subst_env A s rho) id.
Proof.
  intros HA Hs Hv. destruct (resolve_fuel_spec s (S id) A id HA Hs Hv ltac:(lia)) as (HB & Hle & Hr).
  unfold resolve. destruct (resolve_fuel s (S id) A id) as [B [i|]]; cbn [fst snd] in *; split_and!; try done.
  - split; [done|]. intros Hd. by destruct (proj2 (proj2 Hr)).
  - intros j [= <-]. destruct Hr as (? & ? & _). done.
Qed.

(** C28: [unify] on two constant dimensions is sound and most general: when it
    succeeds, the parameter values that satisfy the resulting substitution are
    exactly those that satisfy the given one and make the two dimensions equal;
    the substitution stays well formed, and a new binding is for a parameter
    that was unbound. *)
Theorem unify_most_general A e a s :
  arena_ok A -> subst_ok A s -> valid A (ce_poly e) -> valid A (ce_poly a) ->
  let '(B, s', ok) := unify A (DConst e) (DConst a) s in
  arena_ok B /\ arena_le A B /\ subst_ok B s' /\
  (s' = s \/ exists n ty, is_unbound n s = true /\ s' = <[n := ty]> s) /\
  (ok = true -> forall rho,
     satisfies B s' rho <-> satisfies A s rho /\ den A rho (ce_poly e) = den A rho (ce_poly a)).
Proof.
  intros HA Hs He Ha. unfold unify.
  destruct (solve_spec A _ _ s HA Hs He Ha) as (HB & Hle & Hres).
  destruct (solve A (ce_poly e) (ce_poly a) s) as [B [[[n value]|]|]]; cbn [fst snd] in *.
  - destruct Hres as (Hv & Hu & d & Hd & Hind & Heq).
    pose proof (bind_satisfies B s n value d HB Hv Hu Hd Hind) as [Hok Hsat].
    split_and!; [done..|by apply Hok, (subst_ok_le A B)|right; eauto|].
    intros _ rho. rewrite Hsat, (satisfies_le A B) by done. split; intros [Hr ?]; (split; [done|]); by apply (Heq rho Hr).
  - split_and!; [done..|by apply (subst_ok_le A B)|by left|]. intros _ rho. rewrite (satisfies_le A B) by done.
    split; [|by intros []]. intros Hr. split; [done|by apply Hres].
  - split_and!; [done..|by apply (subst_ok_le A B)|by left|done].
Qed.

(** ** A concrete arena: [N], [1], [N + 1], [8] and [N / 2] *)

Definition ex_n : Arena * nat := arena_param arena_default "N".
Definition ex_one : Arena * nat := arena_lit ex_n.1 1.
Definition ex_sum : Arena * nat := apply ex_one.1 DAdd ex_n.2 ex_one.2.
Definition ex_eight : Arena * nat := arena_lit ex_sum.1 8.
Definition ex_half : Arena * nat := apply ex_eight.1 DDiv ex_n.2 ex_eight.2.
Definition ex_arena : Arena := ex_half.1.
Definition ex_expr (id : nat) : ConstExpr := mkConstExpr id None.
Definition ex_subst : Subst := {["N"%string := TyGeneric "N"]}.

Lemma ex_ids : (ex_n.2, ex_one.2, ex_sum.2, ex_eight.2, ex_half.2) = (0, 1, 2, 3, 4)%nat.
Proof. vm_compute. reflexivity. Qed.

Lemma ex_reachable : reachable ex_arena.
Proof.
  unfold ex_arena, ex_half. apply reachable_apply; [|apply Nat.ltb_lt; reflexivity..].
  unfold ex_eight. apply reachable_lit; [|reflexivity].
  unfold ex_sum. apply reachable_apply; [|apply Nat.ltb_lt; reflexivity..].
  unfold ex_one. apply reachable_lit; [|reflexivity]. apply reachable_param, reachable_default.
Qed.

Lemma ex_valid id : (id < 5)%nat -> valid ex_arena id.
Proof. intros H. exact H. Qed.

Lemma ex_subst_ok : subst_ok ex_arena ex_subst.
Proof.
  intros n p. unfold binding, ex_subst. rewrite lookup_singleton.
  destruct (decide _); [|done]. by case_bool_decide.
Qed.

Lemma reachable_canonical_witness : poly_of ex_arena 2 <> poly_of ex_arena 4 /\ poly_wf ex_arena (poly_of ex_arena 4).
Proof.
  destruct (reachable_canonical ex_arena ex_reachable) as [Hwf Hinj]. split.
  - intros E. apply (Hinj 2%nat 4%nat) in E; [discriminate|apply ex_valid; lia..].
  - apply Hwf, ex_valid; lia.
Defined.

Lemma apply_denotes_witness :
  valid ex_arena 2 /\
  forall rho, den (apply ex_arena DMul 2 3).1 rho (apply ex_arena DMul 2 3).2 = den ex_arena rho 2 * den ex_arena rho 3.
Proof.
  pose proof (apply_denotes ex_arena DMul 2 3 (reachable_ok _ ex_reachable)
    (ex_valid 2 ltac:(lia)) (ex_valid 3 ltac:(lia))) as H.
  split; [apply ex_valid; lia|]. destruct (apply ex_arena DMul 2 3). intros rho. by apply H.
Defined.

(** [N + 1] and [N] always differ. *)
Lemma verdict_sound_witness :
  (verdict ex_arena (ex_expr 2) (ex_expr 0)).2 = Different /\ forall rho, den ex_arena rho 2 <> den ex_arena rho 0.
Proof.
  pose proof (verdict_sound ex_arena (ex_expr 2) (ex_expr 0) (reachable_ok _ ex_reachable)
    (ex_valid 2 ltac:(lia)) (ex_valid 0 ltac:(lia))) as H.
  assert ((verdict ex_arena (ex_expr 2) (ex_expr 0)).2 = Different) as E by (vm_compute; reflexivity).
  split; [exact E|]. destruct (verdict ex_arena _ _) as [B v]. simpl in E. subst v. apply H.
Defined.

(** [N / 2] with [N] left as it is. *)
Lemma resolve_denotes_witness : exists i, (resolve ex_arena 4 ex_subst).2 = Some i.
Proof.
  pose proof (resolve_denotes ex_arena 4 ex_subst (reachable_ok _ ex_reachable) ex_subst_ok
    (ex_valid 4 ltac:(lia))) as H.
  destruct (resolve ex_arena 4 ex_subst) as [B [i|]]; [by exists i|].
  destruct H as (_ & _ & [Hn _] & _). destruct (Hn eq_refl) as (n & _ & Hb).
  unfold binding, ex_subst in Hb. rewrite lookup_singleton in Hb.
  destruct (decide _); [|discriminate]. by case_bool_decide.
Defined.

(** [N + 1 = 8] binds [N] to the value that satisfies it. *)
Lemma unify_most_general_witness :
  (unify ex_arena (DConst (ex_expr 2)) (DConst (ex_expr 3)) ex_subst).2 = true /\
  forall rho, satisfies (unify ex_arena (DConst (ex_expr 2)) (DConst (ex_expr 3)) ex_subst).1.1
                (unify ex_arena (DConst (ex_expr 2)) (DConst (ex_expr 3)) ex_subst).1.2 rho ->
              den ex_arena rho 2 = den ex_arena rho 3.
Proof.
  pose proof (unify_most_general ex_arena (ex_expr 2) (ex_expr 3) ex_subst (reachable_ok _ ex_reachable) ex_subst_ok
    (ex_valid 2 ltac:(lia)) (ex_valid 3 ltac:(lia))) as H.
  assert ((unify ex_arena (DConst (ex_expr 2)) (DConst (ex_expr 3)) ex_subst).2 = true) as E by (vm_compute; reflexivity).
  split; [exact E|]. destruct (unify _ _ _ _) as [[B s'] ok]. simpl in E |- *. subst ok.
  intros rho Hs. destruct H as (_ & _ & _ & _ & H). by apply (H eq_refl).
Defined.

(** ** [uninferred] may give the value of another parameter

    [N + 2 * M] against [N + 8], both unbound: the difference determines
    [M = 4], and the answer names [N], the first unbound parameter of the
    expected dimension. *)

Definition un_n : Arena * nat := arena_param arena_default "N".
Definition un_m : Arena * nat := arena_param un_n.1 "M".
Definition un_two : Arena * nat := arena_lit un_m.1 2.
Definition un_two_m : Arena * nat := apply un_two.1 DMul un_two.2 un_m.2.
Definition un_expected : Arena * nat := apply un_two_m.1 DAdd un_n.2 un_two_m.2.
Definition un_eight : Arena * nat := arena_lit un_expected.1 8.
Definition un_actual : Arena * nat := apply un_eight.1 DAdd un_n.2 un_eight.2.
Definition un_subst : Subst := {["N"%string := TyGeneric "N"; "M"%string := TyGeneric "M"]}.

(** [uninferred] may name one parameter and give the value of another: for
    [N + 2 * M] against [N + 8] it answers that [N] is [4], although the
    equation determines [M = 4] and leaves [N] free (it holds with [N = 4] and
    with [N = 0]). *)
Theorem uninferred_names_other_parameter :
  (uninferred un_actual.1 (ex_expr un_expected.2) (ex_expr un_actual.2) un_subst).2 = Some ("N"%string, Some 4) /\
  den un_actual.1 (fun _ => 4) un_expected.2 = den un_actual.1 (fun _ => 4) un_actual.2 /\
  den un_actual.1 (fun n => if bool_decide (n = "N"%string) then 0 else 4) un_expected.2 =
    den un_actual.1 (fun n => if bool_decide (n = "N"%string) then 0 else 4) un_actual.2.
Proof. vm_compute. repeat split; reflexivity. Qed.
