(* ===== verification/DimNames.v ===== *)
(** Which names a dimension mentions: the operations of the arena of
    [compiler/paco-types/src/dims.rs] introduce no name, and a substitution
    leaves only the names it keeps and those of the dimensions it puts in. *)
From S2P Require Import Prelude BTreeMap Types Dims.

Open Scope Z_scope.

(** Every name below [id] satisfies [P]. *)
Definition names_in (A : Arena) (P : string -> Prop) (id : nat) : Prop := forall n, mentions A id n -> P n.

(** The same of an atom, and of the atoms of a polynomial *)
Definition atom_in (A : Arena) (P : string -> Prop) (a : nat) : Prop :=
  match atoms A !! a with
  | Some (AParam n) => P n
  | Some (AOpaque _ l r) => names_in A P l /\ names_in A P r
  | None => True
  end.

Definition poly_in (A : Arena) (P : string -> Prop) (p : Poly) : Prop := forall a, a ∈ atoms_in p -> atom_in A P a.

(** What an operation of the arena returns *)
Definition yields_in (A : Arena) (P : string -> Prop) (res : Arena * nat) : Prop :=
  arena_ok res.1 /\ arena_le A res.1 /\ valid res.1 res.2 /\ names_in res.1 P res.2.

Lemma names_in_poly A P id : names_in A P id <-> poly_in A P (poly_of A id).
Proof.
  unfold names_in, poly_in, atom_in. split.
  - intros H a Ha. destruct (atoms A !! a) as [[n|op l r]|] eqn:E; [| |done].
    + apply H. by eapply mentions_param.
    + split; intros n Hn; apply H; [by eapply mentions_left|by eapply mentions_right].
  - intros H n Hn. destruct Hn as [id a n Ha E|id a op l r n Ha E Hn|id a op l r n Ha E Hn]; specialize (H a Ha);
      rewrite E in H; [done|by apply (proj1 H)|by apply (proj2 H)].
Qed.

Lemma names_in_le A B P id : arena_ok A -> arena_le A B -> valid A id -> names_in B P id <-> names_in A P id.
Proof. intros HA Hle Hv. unfold names_in. by setoid_rewrite (mentions_le A B id _ HA Hle Hv). Qed.

Lemma atom_in_le A B P a x : arena_ok A -> arena_le A B -> atoms A !! a = Some x -> atom_in A P a -> atom_in B P a.
Proof.
  intros HA Hle Hx. unfold atom_in. rewrite Hx, (le_lookup_atom A B a x Hle Hx). destruct x as [n|op l r]; [done|].
  destruct (ok_operands _ HA _ _ _ _ Hx). by rewrite !(names_in_le A B).
Qed.

Lemma yields_in_trans A B P res : arena_le A B -> yields_in B P res -> yields_in A P res.
Proof. intros Hle (? & ? & ? & ?). split_and!; [done|by etrans|done..]. Qed.

Lemma yields_in_of A P res v : yields A res v -> names_in res.1 P res.2 -> yields_in A P res.
Proof. intros (? & ? & ? & _) ?. by split_and!. Qed.

Lemma intern_in A P p : arena_ok A -> poly_wf A p -> poly_in A P p -> yields_in A P (intern A p).
Proof.
  intros HA Hw Hp. eapply yields_in_of; [by apply intern_yields|].
  destruct (intern_ok A p HA Hw) as (HB & Hle & Hl & _). apply names_in_poly. rewrite (poly_of_lookup _ _ _ _ Hl).
  intros a Ha. destruct (terms_wf_atom A p a (proj1 Hw) Ha) as [x Hx]. by eapply atom_in_le; [..|apply Hp].
Qed.

Lemma lit_poly_in A P z : poly_in A P (lit_poly z).
Proof. unfold lit_poly. intros a. by destruct (z =? 0); intros ?%not_elem_of_nil. Qed.

Lemma arena_lit_in A P z : arena_ok A -> in_i64 z = true -> yields_in A P (arena_lit A z).
Proof.
  intros HA Hz. eapply yields_in_of; [by apply arena_lit_yields|]. unfold arena_lit.
  destruct (lits A !! z) as [i|] eqn:E; simpl.
  - apply names_in_poly. rewrite (poly_of_lookup _ _ _ _ (ok_lits _ HA _ _ E)). apply lit_poly_in.
  - apply intern_in; [done|by apply lit_poly_wf|apply lit_poly_in].
Qed.

Lemma atom_poly_in A P a x : arena_ok A -> atoms A !! a = Some x -> atom_in A P a -> yields_in A P (atom_poly A a).
Proof.
  intros HA Hx Ha. apply lookup_lt_Some in Hx as Hlt. apply intern_in; [done| |].
  - repeat split; repeat constructor; done.
  - intros b. cbn. by intros ->%list_elem_of_singleton.
Qed.

Lemma arena_param_in A (P : string -> Prop) n : arena_ok A -> P n -> yields_in A P (arena_param A n).
Proof.
  intros HA Hn. unfold arena_param. destruct (param_atom_ok A n HA) as (HB & Hle & Ha).
  destruct (param_atom A n) as [B a]. simpl in *. eapply yields_in_trans; [done|].
  eapply atom_poly_in; [done..|]. unfold atom_in. by rewrite Ha.
Qed.

Lemma opaque_in A P op l r :
  arena_ok A -> valid A l -> valid A r -> names_in A P l -> names_in A P r -> yields_in A P (opaque A op l r).
Proof.
  intros HA Hl Hr HPl HPr. unfold opaque. destruct (opaque_atom_ok A op l r HA Hl Hr) as (HB & Hle & Ha).
  destruct (opaque_atom A op l r) as [B a]. simpl in *. eapply yields_in_trans; [done|].
  eapply atom_poly_in; [done..|]. unfold atom_in. by rewrite Ha, !(names_in_le A B).
Qed.

(** ** Arithmetic on polynomials *)

Lemma atoms_in_insert (m : Monomial) c (p : Poly) a :
  a ∈ atoms_in (bt_insert mono_cmp m c p) -> a ∈ map fst m \/ a ∈ atoms_in p.
Proof.
  intros (e & f & He & Hf & ->)%atoms_in_inv. apply poly_insert_elem in He as [->|He].
  - left. by apply list_elem_of_fmap_2.
  - right. by eapply atoms_in_elem.
Qed.

Lemma atoms_in_remove m (p : Poly) a : a ∈ atoms_in (bt_remove mono_cmp m p) -> a ∈ atoms_in p.
Proof. intros (e & f & He%poly_remove_elem & Hf & ->)%atoms_in_inv. by eapply atoms_in_elem. Qed.

Lemma atoms_in_cons (m : Monomial) c (p : Poly) : atoms_in ((m, c) :: p) = map fst m ++ atoms_in p.
Proof. done. Qed.

Lemma combine_loop_atoms sign out q res a :
  combine_loop sign out q = Some res -> a ∈ atoms_in res -> a ∈ atoms_in out \/ a ∈ atoms_in q.
Proof.
  revert out. induction q as [|[m c] q IH]; intros out; cbn [combine_loop]; [intros [= <-]; by left|].
  intros (d & _ & (entry & _ & Hl)%bind_Some)%bind_Some Ha. rewrite atoms_in_cons, elem_of_app.
  destruct (IH _ Hl Ha) as [Ho|]; [|tauto].
  case_match; [apply atoms_in_remove in Ho; tauto|]. apply atoms_in_insert in Ho. tauto.
Qed.

Lemma merge_atoms l r m a : merge l r = Some m -> a ∈ map fst m -> a ∈ map fst l \/ a ∈ map fst r.
Proof.
  revert r m. induction l as [|x l IHl]; intros r m; [rewrite merge_nil_l; intros [= <-]; by right|].
  revert m. induction r as [|y r IHr]; intros m; [rewrite merge_nil_r; intros [= <-]; by left|].
  rewrite merge_cons. cbn [map]. rewrite !elem_of_cons.
  destruct (Nat.compare_spec x.1 y.1) as [E|E|E]; [destruct (_ <=? _); [|done]|..]; intros (m' & Hm & ->)%fmap_Some; cbn [map];
    intros [->|Ha]%elem_of_cons; try tauto.
  - destruct (IHl _ _ Hm Ha); tauto.
  - destruct (IHl _ _ Hm Ha) as [|[]%elem_of_cons]; tauto.
  - destruct (IHr _ Hm Ha) as [[]%elem_of_cons|]; tauto.
Qed.

Lemma product_row_atoms lm lc out q res a :
  product_row lm lc out q = Some res -> a ∈ atoms_in res -> a ∈ map fst lm \/ a ∈ atoms_in out \/ a ∈ atoms_in q.
Proof.
  revert out. induction q as [|[m c] q IH]; intros out; cbn [product_row]; [intros [= <-]; tauto|].
  intros (mono & Hm & (d & _ & (entry & _ & Hl)%bind_Some)%bind_Some)%bind_Some Ha. rewrite atoms_in_cons, elem_of_app.
  destruct (IH _ Hl Ha) as [?|[Ho|?]]; [tauto| |tauto].
  apply atoms_in_insert in Ho as [Ho|?]; [|tauto]. destruct (merge_atoms _ _ _ _ Hm Ho); tauto.
Qed.

Lemma product_loop_atoms out p q res a :
  product_loop out p q = Some res -> a ∈ atoms_in res -> a ∈ atoms_in out \/ a ∈ atoms_in p \/ a ∈ atoms_in q.
Proof.
  revert out. induction p as [|[m c] p IH]; intros out; cbn [product_loop]; [intros [= <-]; tauto|].
  intros (row & Hr & Hl)%bind_Some Ha. rewrite atoms_in_cons, elem_of_app.
  destruct (IH _ Hl Ha) as [Ho|?]; [|tauto]. destruct (product_row_atoms _ _ _ _ _ _ Hr Ho) as [?|[?|?]]; tauto.
Qed.

Lemma combine_in A P l r sign res :
  arena_ok A -> valid A l -> valid A r -> names_in A P l -> names_in A P r -> combine A l r sign = Some res -> yields_in A P res.
Proof.
  intros HA Hl Hr HPl%names_in_poly HPr%names_in_poly (out & Hout & [= <-])%bind_Some. apply intern_in; [done| |].
  - pose proof (combine_loop_spec A (fun _ => 0) sign _ _ out (poly_of_wf A l HA Hl) (proj1 (poly_of_wf A r HA Hr)) Hout). tauto.
  - intros a Ha. destruct (combine_loop_atoms _ _ _ _ _ Hout Ha); auto.
Qed.

Lemma product_in A P l r res :
  arena_ok A -> valid A l -> valid A r -> names_in A P l -> names_in A P r -> product A l r = Some res -> yields_in A P res.
Proof.
  intros HA Hl Hr HPl%names_in_poly HPr%names_in_poly (out & Hout & [= <-])%bind_Some. apply intern_in; [done| |].
  - apply poly_wf_filter. apply (product_loop_spec A (fun _ => 0) (poly_of A l) (poly_of A r) [] out); [|apply poly_of_wf..|]; try done.
    split; constructor.
  - intros a (e & f & He & Hf & ->)%atoms_in_inv. apply list_elem_of_In, filter_In, proj1, list_elem_of_In in He.
    assert (f.1 ∈ atoms_in out) as Ha by by eapply atoms_in_elem.
    destruct (product_loop_atoms _ _ _ _ _ Hout Ha) as [?%not_elem_of_nil|[|]]; auto; done.
Qed.

Lemma apply_in A P op l r :
  arena_ok A -> valid A l -> valid A r -> names_in A P l -> names_in A P r -> yields_in A P (apply A op l r).
Proof.
  intros HA Hl Hr HPl HPr. pose proof (opaque_in A P op l r HA Hl Hr HPl HPr) as Ho.
  assert (yields_in A P (match (match op with DAdd => combine A l r 1 | DSub => combine A l r (-1) | DMul => product A l r | _ => None end)
                         with Some res => res | None => opaque A op l r end)) as Hg.
  { destruct op; try done.
    - destruct (combine A l r 1) eqn:E; [exact (combine_in A P l r _ _ HA Hl Hr HPl HPr E)|done].
    - destruct (combine A l r (-1)) eqn:E; [exact (combine_in A P l r _ _ HA Hl Hr HPl HPr E)|done].
    - destruct (product A l r) eqn:E; [exact (product_in A P l r _ HA Hl Hr HPl HPr E)|done]. }
  unfold apply. destruct (lit_of A l) as [a|] eqn:Ea; [destruct (lit_of A r) as [b|] eqn:Eb|]; [|done..].
  destruct (fold_op op a b) as [v|] eqn:Ef; [|done].
  apply lit_of_den in Ea as (_ & Hia & _); [|done]. apply lit_of_den in Eb as (_ & Hib & _); [|done].
  apply arena_lit_in; [done|by apply (fold_op_in op a b)].
Qed.

Lemma apply_pow_in A P term value e :
  arena_ok A -> valid A term -> valid A value -> names_in A P term -> names_in A P value ->
  yields_in A P (apply_pow A term value e).
Proof.
  revert A term. induction e as [|e IH]; intros A term HA Ht Hv HPt HPv; [by split_and!|].
  cbn [apply_pow]. destruct (apply_in A P DMul term value HA Ht Hv HPt HPv) as (HB & Hle & Hb & HPb).
  destruct (apply A DMul term value) as [B t]. cbn [fst snd] in *.
  eapply yields_in_trans; [done|]. apply IH; [done..|by eapply valid_le|done|]. by apply (names_in_le A B).
Qed.

(** ** Substitution *)

(** A result of the resolution, if there is one *)
Definition resolved_in (B : Arena) (P : string -> Prop) (res : Arena * option nat) : Prop :=
  arena_ok res.1 /\ arena_le B res.1 /\ match res.2 with Some i => valid res.1 i /\ names_in res.1 P i | None => True end.

Lemma yields_resolved_in B P res : yields_in B P res -> resolved_in B P (let '(C, i) := res in (C, Some i)).
Proof. intros (? & ? & ? & ?). destruct res. by split_and!. Qed.

Lemma resolved_in_trans B C P res : arena_le B C -> resolved_in C P res -> resolved_in B P res.
Proof. intros Hle (? & ? & ?). split_and!; [done|by etrans|done]. Qed.

Section Resolve.
Context (A0 : Arena) (P : string -> Prop).

Definition value_in (value : Arena -> nat -> Arena * option nat) (a : nat) : Prop :=
  forall B, arena_ok B -> arena_le A0 B -> resolved_in B P (value B a).

Lemma resolve_mono_in value m B term :
  Forall (fun f => value_in value f.1) m -> arena_ok B -> arena_le A0 B -> valid B term -> names_in B P term ->
  resolved_in B P (resolve_mono value B term m).
Proof.
  intros HF. revert B term. induction HF as [|[a e] m Hv HF IH]; intros B term HB Hle Ht HPt; cbn [resolve_mono]; [by split_and!|].
  destruct (Hv B HB Hle) as (HC & HleC & Hval). simpl in HC, HleC, Hval.
  destruct (value B a) as [C [v|]]; cbn [fst snd] in *; [|by split_and!]. destruct Hval as (Hvv & HPv).
  assert (names_in C P term) as HPt' by by apply (names_in_le B C).
  destruct (apply_pow_in C P term v (Z.to_nat e) HC (valid_le _ _ _ HleC Ht) Hvv HPt' HPv) as (HD & HleD & Hvt & HPd).
  destruct (apply_pow C term v (Z.to_nat e)) as [D t]. cbn [fst snd] in *.
  eapply resolved_in_trans; [exact HleC|]. eapply resolved_in_trans; [exact HleD|].
  apply IH; [done| |done..]. etrans; [exact Hle|]. by etrans.
Qed.

Lemma resolve_terms_in value p B total :
  Forall (fun e => Forall (fun f => value_in value f.1) e.1 /\ in_i64 e.2 = true) p ->
  arena_ok B -> arena_le A0 B -> valid B total -> names_in B P total -> resolved_in B P (resolve_terms value B total p).
Proof.
  intros HF. revert B total. induction HF as [|[m c] p [Hm Hc] HF IH]; intros B total HB Hle Ht HPt; cbn [resolve_terms]; [by split_and!|].
  simpl in Hm, Hc. destruct (arena_lit_in B P c HB Hc) as (HC & HleC & Hvt & HPc).
  destruct (arena_lit B c) as [C t]. cbn [fst snd] in *.
  destruct (resolve_mono_in value m C t Hm HC (transitivity Hle HleC) Hvt HPc) as (HD & HleD & Hmono).
  destruct (resolve_mono value C t m) as [D [tm|]]; cbn [fst snd] in *; [|split_and!; [done|by etrans|done]].
  destruct Hmono as (Hvtm & HPtm). pose proof (transitivity HleC HleD) as HleBD.
  assert (names_in D P total) as HPtD by by apply (names_in_le B D).
  destruct (apply_in D P DAdd total tm HD (valid_le _ _ _ HleBD Ht) Hvtm HPtD HPtm) as (HE & HleE & Hvs & HPs).
  destruct (apply D DAdd total tm) as [E sm]. cbn [fst snd] in *.
  eapply resolved_in_trans; [exact (transitivity HleBD HleE)|].
  apply IH; [done| |done..]. etrans; [exact Hle|]. by etrans.
Qed.
End Resolve.

(** The names a substitution can leave: those it keeps, those it renames to,
    and those of the dimensions it puts in. *)
Definition substituted_name (A : Arena) (s : Subst) (P : string -> Prop) (n : string) : Prop :=
  match binding n s with
  | BKeep => P n
  | BDyn => True
  | BTo p => names_in A P p
  | BRename other => P other
  end.

Lemma substituted_name_le A B s P n :
  arena_ok A -> arena_le A B -> subst_ok A s -> substituted_name A s P n -> substituted_name B s P n.
Proof.
  intros HA Hle Hs. unfold substituted_name. destruct (binding n s) as [| |p|other] eqn:E; try done.
  apply names_in_le; [done..|]. by eapply Hs.
Qed.

Lemma resolve_fuel_in s P fuel A id :
  arena_ok A -> subst_ok A s -> valid A id -> (id < fuel)%nat -> (forall n, mentions A id n -> substituted_name A s P n) ->
  resolved_in A P (resolve_fuel s fuel A id).
Proof.
  revert fuel A. induction id as [id IH] using lt_wf_ind. intros [|fuel] A HA Hs Hv Hf Hsub; [lia|]. cbn [resolve_fuel].
  destruct (touches A id s) eqn:Et; simpl negb; cbn iota.
  2: { split_and!; [done..|]. split; [done|]. intros n Hn. specialize (Hsub n Hn). unfold substituted_name in Hsub.
       destruct (binding n s) eqn:Eb; [done|..];
         (assert (touches A id s = true) by (apply touches_spec; [done..|]; exists n; by rewrite Eb)); congruence. }
  destruct (eval A id s) as [z|] eqn:Ee.
  { apply eval_fuel_spec in Ee as (Hz & _ & _); [|done..|lia]. by apply yields_resolved_in, arena_lit_in. }
  destruct (arena_lit_in A P 0 HA eq_refl) as (HB & HleB & Hvz & HPz).
  destruct (arena_lit A 0) as [B zero]. cbn [fst snd] in *. cbn zeta.
  match goal with |- resolved_in _ _ (resolve_terms ?f _ _ _) => set (value := f) end.
  assert (forall a, a ∈ atoms_in (poly_of A id) -> value_in A P value a) as Hval.
  { intros a Ha C HC HleC. destruct (atom_in_range A id a HA Hv Ha) as [x Hx]. unfold value.
    pose proof (le_lookup_atom A C a x HleC Hx) as Hx'. rewrite Hx'. destruct x as [n|op l r].
    - specialize (Hsub n (mentions_param A id a n Ha Hx)). apply (substituted_name_le A C) in Hsub; [|done..].
      unfold substituted_name in Hsub. destruct (binding n s) as [| |p|other] eqn:Eb.
      + apply yields_resolved_in. eapply atom_poly_in; [done..|]. unfold atom_in. by rewrite Hx'.
      + by split_and!.
      + split_and!; [done..|]. split; [|done]. eapply valid_le; [exact HleC|]. by eapply Hs.
      + by apply yields_resolved_in, arena_param_in.
    - destruct (operands_smaller A HA id a op l r Hv Ha Hx) as [Hl Hr].
      assert (valid A l /\ valid A r) as [HvL HvR] by (unfold valid in *; lia).
      destruct (IH l Hl fuel C HC (subst_ok_le A C s HleC Hs) (valid_le A C l HleC HvL) ltac:(lia)) as (HD & HleD & HresL).
      { intros n Hn%(mentions_le A C l n HA HleC HvL). apply (substituted_name_le A C); [done..|]. apply Hsub. by eapply mentions_left. }
      destruct (resolve_fuel s fuel C l) as [D [l'|]]; cbn [fst snd] in *; [|by split_and!]. destruct HresL as (HvL' & HPL).
      assert (arena_le A D) as HleAD by (by etrans).
      destruct (IH r Hr fuel D HD (subst_ok_le A D s HleAD Hs) (valid_le A D r HleAD HvR) ltac:(lia)) as (HE & HleE & HresR).
      { intros n Hn%(mentions_le A D r n HA HleAD HvR). apply (substituted_name_le A D); [done..|]. apply Hsub. by eapply mentions_right. }
      destruct (resolve_fuel s fuel D r) as [E [r'|]]; cbn [fst snd] in *; [|split_and!; [done|by etrans|done]].
      destruct HresR as (HvR' & HPR).
      eapply resolved_in_trans; [exact HleD|]. eapply resolved_in_trans; [exact HleE|].
      apply yields_resolved_in, apply_in; [done|by eapply valid_le|done| |done]. by apply (names_in_le D E). }
  destruct (poly_of_wf A id HA Hv) as [[_ Hw] _]. rewrite Forall_forall in Hw.
  eapply resolved_in_trans; [exact HleB|]. apply (resolve_terms_in A P); [|done..].
  rewrite Forall_forall. intros e He. destruct (Hw e He) as [_ Hc]. split; [|done].
  rewrite Forall_forall. intros f Hf'. apply Hval. by eapply atoms_in_elem.
Qed.

Lemma resolve_in s P A id :
  arena_ok A -> subst_ok A s -> valid A id -> (forall n, mentions A id n -> substituted_name A s P n) ->
  resolved_in A P (resolve A id s).
Proof. intros. apply resolve_fuel_in; try done. lia. Qed.

(** ** The names listed *)

Lemma names_walk_spec A fuel id out n :
  arena_ok A -> valid A id -> (id < fuel)%nat -> n ∈ names_walk A fuel id out <-> n ∈ out \/ mentions A id n.
Proof.
  intros HA. revert fuel out n. induction id as [id IH] using lt_wf_ind. intros [|fuel] out n Hv Hf; [lia|].
  cbn [names_walk]. rewrite (fold_collect _ (atom_mentions A)); [by rewrite mentions_atom|].
  intros b out' x Hb. unfold atom_mentions. destruct (atoms A !! b) as [[m|op l r]|] eqn:E.
  - case_bool_decide; rewrite ?elem_of_app, ?list_elem_of_singleton; naive_solver.
  - destruct (operands_smaller A HA id b op l r Hv Hb E) as [Hl Hr]. unfold valid in *. rewrite !IH by lia. naive_solver.
  - naive_solver.
Qed.

Lemma names_elem A e n : arena_ok A -> valid A (ce_poly e) -> n ∈ names A e <-> mentions A (ce_poly e) n.
Proof.
  intros HA Hv. unfold names. rewrite names_walk_spec by (done || lia). split; [intros [?%not_elem_of_nil|?]; done|by right].
Qed.

Lemma as_param_mentions A e n : as_param A e = Some n -> mentions A (ce_poly e) n.
Proof.
  unfold as_param. destruct (poly_of A (ce_poly e)) as [|[[|[a [| [| |]|]] [|]] [|[| |]|]] [|]] eqn:E; try done.
  unfold param_name. destruct (atoms A !! a) as [[m|]|] eqn:Ea; try done. intros [= ->].
  eapply mentions_param; [|done]. rewrite E. left.
Qed.
