(* ===== verification/Generics.v ===== *)
(** Generic substitution and symbolic dimensions in types:
    [substitute_generics], [pack_type] and [erase_symbolic] of
    [compiler/paco-types/src/lib.rs], the atom names of
    [compiler/paco-types/src/dims.rs] and the whole of
    [compiler/paco-mir/src/dims.rs].

    [substitute_generics] keeps a thread-local stack of the parameters it is
    expanding and does not re-enter one; here the stack is an argument, and the
    nesting of expansions is bounded by the number of bound parameters. *)
From S2P Require Import Prelude BTreeMap Ast Types Dims.

(** ** Equality of types

    The derived [Eq], in which a [ConstExpr] is its polynomial. *)

Definition const_expr_eqb (a b : ConstExpr) : bool := (ce_poly a =? ce_poly b)%nat.

Definition dim_eqb (a b : Dim) : bool :=
  match a, b with
  | DConst x, DConst y => const_expr_eqb x y
  | DDyn, DDyn => true
  | _, _ => false
  end.

Fixpoint list_eqb {A} (f : A -> A -> bool) (l k : list A) : bool :=
  match l, k with
  | [], [] => true
  | a :: l', b :: k' => f a b && list_eqb f l' k'
  | _, _ => false
  end.

Fixpoint type_eqb (a b : Type_) : bool :=
  match a, b with
  | TyInt x, TyInt y => bool_decide (x = y)
  | TyFloat x, TyFloat y => bool_decide (x = y)
  | TyBool, TyBool | TyString, TyString | TyChar, TyChar | TyUnit, TyUnit | TyNever, TyNever => true
  | TyStruct n x, TyStruct m y | TyEnum n x, TyEnum m y => bool_decide (n = m) && list_eqb type_eqb x y
  | TyBorrow m x, TyBorrow m' y | TyRawPointer m x, TyRawPointer m' y => Bool.eqb m m' && type_eqb x y
  | TySlice x, TySlice y => type_eqb x y
  | TyTuple x, TyTuple y => list_eqb type_eqb x y
  | TyFn p r a u, TyFn p' r' a' u' => list_eqb type_eqb p p' && type_eqb r r' && bool_decide (a = a') && Bool.eqb u u'
  | TyGeneric n, TyGeneric m => bool_decide (n = m)
  | TyTypeValue x, TyTypeValue y => type_eqb x y
  | TyCode, TyCode => true
  | TyDim x, TyDim y => dim_eqb x y
  | TyPack x, TyPack y => list_eqb type_eqb x y
  | TySpread n, TySpread m => bool_decide (n = m)
  | TyUnknown, TyUnknown | TyError, TyError => true
  | _, _ => false
  end.

(** ** Substitution *)

Definition pack_type (items : list Type_) : Type_ :=
  match items with
  | [TySpread name] => TyGeneric name
  | _ => TyPack items
  end.

(** [l.iter().map(f).collect()], threading the arena. *)
Fixpoint map_arena (f : Type_ -> Arena -> Arena * Type_) (l : list Type_) (A : Arena) : Arena * list Type_ :=
  match l with
  | [] => (A, [])
  | x :: l' =>
      let '(A, y) := f x A in
      let '(A, ys) := map_arena f l' A in (A, y :: ys)
  end.

(** The loop over the items of a pack; [go] substitutes in one item. *)
Fixpoint subst_pack (s : Subst) (go : Type_ -> Arena -> Arena * Type_) (expand : Type_ -> Arena -> Arena * Type_)
  (items : list Type_) (A : Arena) : Arena * list Type_ :=
  match items with
  | [] => (A, [])
  | item :: rest =>
      let '(A, out) :=
        match item with
        | TySpread name =>
            match s !! name with
            | Some (TyPack bound) => map_arena expand bound A
            | Some (TyGeneric other) => (A, [TySpread other])
            | _ => (A, [item])
            end
        | _ => let '(A, y) := go item A in (A, [y])
        end in
      let '(A, outs) := subst_pack s go expand rest A in (A, out ++ outs)
  end.

(** [depth] bounds the nesting of parameter expansions. *)
Fixpoint substitute_depth (depth : nat) (s : Subst) (stack : list string) (ty : Type_) (A : Arena) : Arena * Type_ :=
  match depth with
  | O => (A, ty)
  | S depth' =>
      let fix go (ty : Type_) (A : Arena) : Arena * Type_ :=
        match ty with
        | TyGeneric name =>
            match s !! name with
            | None => (A, TyGeneric name)
            | Some val =>
                if type_eqb val ty || bool_decide (name ∈ stack) then (A, val)
                else substitute_depth depth' s (stack ++ [name]) val A
            end
        | TyStruct name args => let '(A, args) := map_arena go args A in (A, TyStruct name args)
        | TyEnum name args => let '(A, args) := map_arena go args A in (A, TyEnum name args)
        | TyBorrow m t => let '(A, t) := go t A in (A, TyBorrow m t)
        | TyRawPointer m t => let '(A, t) := go t A in (A, TyRawPointer m t)
        | TyTuple items => let '(A, items) := map_arena go items A in (A, TyTuple items)
        | TySlice t => let '(A, t) := go t A in (A, TySlice t)
        | TyFn ps r abi u =>
            let '(A, ps) := map_arena go ps A in
            let '(A, r) := go r A in (A, TyFn ps r abi u)
        | TyDim d => substitute_dim A d s
        | TyPack items =>
            let '(A, out) := subst_pack s go (substitute_depth depth' s stack) items A in (A, pack_type out)
        | other => (A, other)
        end
      in go ty A
  end.

(** Each expansion of a parameter pushes a new name of [s]; between two of
    them a bound pack is opened at most once, when packs are flat. *)
Definition substitute_generics (ty : Type_) (s : Subst) (A : Arena) : Arena * Type_ :=
  substitute_depth (2 * size s + 2) s [] ty A.

(** A type without a pack in it. *)
Fixpoint no_pack (ty : Type_) : bool :=
  match ty with
  | TyPack _ => false
  | TyStruct _ args | TyEnum _ args | TyTuple args => forallb no_pack args
  | TyBorrow _ t | TyRawPointer _ t | TySlice t => no_pack t
  | TyFn ps r _ _ => forallb no_pack ps && no_pack r
  | _ => true
  end.

(** Bound packs hold dimensions and parameters, not packs. *)
Definition flat_packs (s : Subst) : Prop :=
  forall name items, s !! name = Some (TyPack items) -> forallb no_pack items = true.

Lemma map_arena_ext f g l A :
  Forall (fun x => forall A, f x A = g x A) l -> map_arena f l A = map_arena g l A.
Proof. intros H. revert A. induction H as [|x l Hx H IH]; intros A; [done|]. simpl. rewrite Hx. destruct (g x A). by rewrite IH. Qed.

Lemma subst_pack_ext s go go' expand expand' items A :
  Forall (fun x => forall A, go x A = go' x A) items ->
  (forall name bound, s !! name = Some (TyPack bound) -> forall A, map_arena expand bound A = map_arena expand' bound A) ->
  subst_pack s go expand items A = subst_pack s go' expand' items A.
Proof.
  intros H He. revert A. induction H as [|x l Hx H IH]; intros A; [done|]. cbn [subst_pack].
  assert (match x with
          | TySpread name =>
              match s !! name with
              | Some (TyPack bound) => map_arena expand bound A
              | Some (TyGeneric other) => (A, [TySpread other])
              | _ => (A, [x])
              end
          | _ => let '(A, y) := go x A in (A, [y])
          end =
          match x with
          | TySpread name =>
              match s !! name with
              | Some (TyPack bound) => map_arena expand' bound A
              | Some (TyGeneric other) => (A, [TySpread other])
              | _ => (A, [x])
              end
          | _ => let '(A, y) := go' x A in (A, [y])
          end) as ->.
  { destruct x; try (by rewrite Hx). destruct (s !! name) as [[]|] eqn:E; try done. by eapply He. }
  destruct x; try (destruct (go' _ A) as [B y]; by rewrite IH).
  destruct (s !! name) as [[]|] eqn:E; try (by rewrite IH).
  destruct (map_arena expand' items A) as [B y]. by rewrite IH.
Qed.

(** What is left to expand, and whether a pack may still be opened. *)
Definition budget (s : Subst) (stack : list string) (ty : Type_) : nat :=
  2 * (size s - length stack) + if no_pack ty then 0 else 1.

Lemma stack_room (s : Subst) (stack : list string) name val :
  NoDup stack -> (forall n, n ∈ stack -> is_Some (s !! n)) -> s !! name = Some val -> name ∉ stack ->
  length stack < size s.
Proof.
  intros Hnd Hin Hs Hn. rewrite <- size_dom.
  assert (list_to_set (name :: stack) ⊆ dom s) as Hsub.
  { intros n Hn'. apply elem_of_list_to_set, elem_of_cons in Hn' as [->|Hn']; apply elem_of_dom; [by exists val|by apply Hin]. }
  apply subseteq_size in Hsub. rewrite size_list_to_set in Hsub; [simpl in Hsub; lia|].
  by apply NoDup_cons.
Qed.

Definition stack_ok (s : Subst) (stack : list string) : Prop :=
  NoDup stack /\ forall n, n ∈ stack -> is_Some (s !! n).

Lemma stack_ok_push s stack name val :
  stack_ok s stack -> s !! name = Some val -> name ∉ stack -> stack_ok s (stack ++ [name]).
Proof.
  intros [Hnd Hin] Hs Hn. split.
  - apply NoDup_app. split_and!; [done| |apply NoDup_singleton].
    intros x Hx ->%list_elem_of_singleton. done.
  - intros n [Hx| ->%list_elem_of_singleton]%elem_of_app; [by apply Hin|by exists val].
Qed.

(** A part of a type without packs has none. *)
Lemma no_pack_budget s stack ty t : (no_pack ty = true -> no_pack t = true) -> budget s stack t <= budget s stack ty.
Proof. unfold budget. intros H. destruct (no_pack ty); [by rewrite H|]. destruct (no_pack t); lia. Qed.

Lemma forallb_Forall_budget s stack ty l :
  (no_pack ty = true -> forallb no_pack l = true) -> Forall (fun t => budget s stack t <= budget s stack ty) l.
Proof.
  intros H. rewrite Forall_forall. intros t Ht. apply no_pack_budget. intros Hn.
  by apply (proj1 (forallb_elem _ _) (H Hn)).
Qed.

(** One level of the definition, with the recursive calls folded. *)
Lemma substitute_depth_eq d s stack ty A :
  substitute_depth (S d) s stack ty A =
    let go := substitute_depth (S d) s stack in
    match ty with
    | TyGeneric name =>
        match s !! name with
        | None => (A, TyGeneric name)
        | Some val =>
            if type_eqb val ty || bool_decide (name ∈ stack) then (A, val)
            else substitute_depth d s (stack ++ [name]) val A
        end
    | TyStruct name args => let '(A, args) := map_arena go args A in (A, TyStruct name args)
    | TyEnum name args => let '(A, args) := map_arena go args A in (A, TyEnum name args)
    | TyBorrow m t => let '(A, t) := go t A in (A, TyBorrow m t)
    | TyRawPointer m t => let '(A, t) := go t A in (A, TyRawPointer m t)
    | TyTuple items => let '(A, items) := map_arena go items A in (A, TyTuple items)
    | TySlice t => let '(A, t) := go t A in (A, TySlice t)
    | TyFn ps r abi u =>
        let '(A, ps) := map_arena go ps A in
        let '(A, r) := go r A in (A, TyFn ps r abi u)
    | TyDim d => substitute_dim A d s
    | TyPack items =>
        let '(A, out) := subst_pack s go (substitute_depth d s stack) items A in (A, pack_type out)
    | other => (A, other)
    end.
Proof. by destruct ty. Qed.

Lemma substitute_depth_agree s d e stack ty A :
  flat_packs s -> stack_ok s stack -> budget s stack ty < d -> budget s stack ty < e ->
  substitute_depth d s stack ty A = substitute_depth e s stack ty A.
Proof.
  intros Hflat. revert e stack ty A. induction d as [d IHd] using lt_wf_ind. intros e stack ty A Hst Hd He.
  destruct d as [|d], e as [|e]; try lia.
  assert (forall l ty, list_all Type_ (fun t => forall A, budget s stack t < S d -> budget s stack t < S e ->
             substitute_depth (S d) s stack t A = substitute_depth (S e) s stack t A) l ->
           (no_pack ty = true -> forallb no_pack l = true) -> budget s stack ty < S d -> budget s stack ty < S e ->
           Forall (fun x => forall A, substitute_depth (S d) s stack x A = substitute_depth (S e) s stack x A) l) as Hl.
  { intros l ty' H%list_all_Forall Hn H1 H2. pose proof (forallb_Forall_budget s stack ty' l Hn) as Hb.
    rewrite Forall_forall in *. intros x Hx A'. specialize (Hb x Hx). apply H; [done|lia..]. }
  revert A Hd He. induction ty as [| | | | | | |n l IH|n l IH|m t IH|m t IH|t IH|l IH|ps IHps r IHr abi u|n|t IH| |dm|l IH|n| |];
    intros A Hd He; rewrite !substitute_depth_eq; cbn zeta iota beta; try done.
  - by rewrite (map_arena_ext _ _ _ _ (Hl l (TyStruct n l) IH (fun H => H) Hd He)).
  - by rewrite (map_arena_ext _ _ _ _ (Hl l (TyEnum n l) IH (fun H => H) Hd He)).
  - by rewrite IH.
  - by rewrite IH.
  - by rewrite IH.
  - by rewrite (map_arena_ext _ _ _ _ (Hl l (TyTuple l) IH (fun H => H) Hd He)).
  - assert (no_pack (TyFn ps r abi u) = true -> forallb no_pack ps = true /\ no_pack r = true) as Hn
      by (simpl; apply andb_true_iff).
    rewrite (map_arena_ext _ _ _ _ (Hl ps (TyFn ps r abi u) IHps (fun H => proj1 (Hn H)) Hd He)).
    pose proof (no_pack_budget s stack (TyFn ps r abi u) r (fun H => proj2 (Hn H))).
    destruct (map_arena _ ps A) as [B ps']. rewrite IHr by lia. done.
  - destruct (s !! n) as [val|] eqn:Es; [|done]. destruct (type_eqb val (TyGeneric n)); [done|]. simpl orb.
    case_bool_decide as Hin; [done|]. pose proof (stack_room s stack n val (proj1 Hst) (proj2 Hst) Es Hin).
    assert (budget s (stack ++ [n]) val < budget s stack (TyGeneric n)) as Hlt.
    { unfold budget. rewrite length_app. simpl. destruct (no_pack val); lia. }
    apply IHd; [lia|by eapply stack_ok_push|lia..].
  - assert (0 < budget s stack (TyPack l)) as Hpos by (unfold budget; simpl; lia).
    rewrite (subst_pack_ext s (substitute_depth (S d) s stack) (substitute_depth (S e) s stack)
               (substitute_depth d s stack) (substitute_depth e s stack)); [done| |].
    + by apply (Hl l (TyPack l)).
    + intros name bound Hb A'. apply map_arena_ext. rewrite Forall_forall. intros x Hx A2.
      assert (no_pack x = true) as Hx' by (apply (proj1 (forallb_elem _ _) (Hflat _ _ Hb)); done).
      assert (budget s stack x < budget s stack (TyPack l)) by (unfold budget; rewrite Hx'; simpl; lia).
      apply IHd; [lia|done|lia..].
Qed.

(** [substitute_generics] terminates within its bound: with bound packs
    that hold no nested pack, expanding parameters to any greater depth gives
    the same type and the same arena. *)
Theorem substitute_generics_depth_enough s ty A extra :
  flat_packs s -> substitute_depth (2 * size s + 2 + extra) s [] ty A = substitute_generics ty s A.
Proof.
  intros Hf. apply substitute_depth_agree; [done|split; [constructor|by intros ? ?%not_elem_of_nil]|..];
    unfold budget; simpl length; destruct (no_pack ty); lia.
Qed.

Lemma substitute_generics_depth_enough_witness :
  let s : Subst := {["T"%string := TyStruct "Tensor" [TyGeneric "T"]]} in
  substitute_depth (2 * size s + 2 + 10) s [] (TySlice (TyGeneric "T")) arena_default =
    substitute_generics (TySlice (TyGeneric "T")) s arena_default /\
  (substitute_generics (TySlice (TyGeneric "T")) s arena_default).2 =
    TySlice (TyStruct "Tensor" [TyStruct "Tensor" [TyGeneric "T"]]).
Proof.
  intros s. split; [|vm_compute; reflexivity]. apply substitute_generics_depth_enough.
  intros n items. unfold s. rewrite lookup_singleton. by destruct (decide _).
Defined.

(** A binding that mentions its own name is expanded twice: the occurrence
    inside the binding is replaced by the whole binding once more, so that [T]
    bound to [Tensor<T>] becomes [Tensor<Tensor<T>>]. *)
Theorem substitute_self_mention_twice :
  let s : Subst := {["T"%string := TyStruct "Tensor" [TyGeneric "T"]]} in
  (substitute_generics (TyGeneric "T") s arena_default).2 = TyStruct "Tensor" [TyStruct "Tensor" [TyGeneric "T"]].
Proof. vm_compute. reflexivity. Qed.

(** ** Symbolic names *)

(** The counter of fresh atoms is a 32-bit atomic that wraps. *)
Definition fresh_atom (display : string) (next : Z) : string * Z :=
  ((display +:+ "@" +:+ show_Z next)%string, wrap 32 (next + 1)).

Fixpoint string_contains (c : ascii) (s : string) : bool :=
  match s with
  | EmptyString => false
  | String a s' => bool_decide (a = c) || string_contains c s'
  end.

Definition is_atom (name : string) : bool := string_contains "@" name.

Definition is_existential (name : string) : bool :=
  match name with String "?" _ => true | _ => false end.

Definition symbolic (name : string) : bool := is_atom name || is_existential name.

Fixpoint erase_symbolic (A : Arena) (ty : Type_) : Type_ :=
  match ty with
  | TyGeneric name => if symbolic name then TyDim DDyn else ty
  | TyDim (DConst expr) => if any_name A expr symbolic then TyDim DDyn else ty
  | TyStruct name items => TyStruct name (map (erase_symbolic A) items)
  | TyEnum name items => TyEnum name (map (erase_symbolic A) items)
  | TyTuple items => TyTuple (map (erase_symbolic A) items)
  | TyPack items => TyPack (map (erase_symbolic A) items)
  | TyBorrow m t => TyBorrow m (erase_symbolic A t)
  | TyRawPointer m t => TyRawPointer m (erase_symbolic A t)
  | TySlice t => TySlice (erase_symbolic A t)
  | TyFn params ret abi u => TyFn (map (erase_symbolic A) params) (erase_symbolic A ret) abi u
  | other => other
  end.

(** No type parameter or dimension below the type, where the erasure looks,
    has a symbolic name. *)
Fixpoint symbolic_free (A : Arena) (ty : Type_) : bool :=
  match ty with
  | TyGeneric name => negb (symbolic name)
  | TyDim (DConst expr) => negb (any_name A expr symbolic)
  | TyStruct _ items | TyEnum _ items | TyTuple items | TyPack items => forallb (symbolic_free A) items
  | TyBorrow _ t | TyRawPointer _ t | TySlice t => symbolic_free A t
  | TyFn params ret _ _ => forallb (symbolic_free A) params && symbolic_free A ret
  | _ => true
  end.

Lemma erase_symbolic_free A ty : symbolic_free A (erase_symbolic A ty) = true.
Proof.
  assert (forall l, Forall (fun t => symbolic_free A (erase_symbolic A t) = true) l ->
            forallb (symbolic_free A) (map (erase_symbolic A) l) = true) as Hl.
  { induction 1 as [|t l H HF IH]; [done|]. simpl. by rewrite H, IH. }
  induction ty as [| | | | | | |n l IH|n l IH|m t IH|m t IH|t IH|l IH|ps IHps r IHr abi u|n|t IH| |[e|]|l IH|n| |];
    cbn [erase_symbolic]; try done.
  - by apply Hl, list_all_Forall.
  - by apply Hl, list_all_Forall.
  - by apply Hl, list_all_Forall.
  - simpl. rewrite Hl, IHr; [done|]. by apply list_all_Forall.
  - destruct (symbolic n) eqn:E; [done|]. simpl. by rewrite E.
  - destruct (any_name A e symbolic) eqn:E; [done|]. cbn [symbolic_free]. by rewrite E.
  - by apply Hl, list_all_Forall.
Qed.

Lemma erase_symbolic_id A ty : symbolic_free A ty = true -> erase_symbolic A ty = ty.
Proof.
  assert (forall l, Forall (fun t => symbolic_free A t = true -> erase_symbolic A t = t) l ->
            forallb (symbolic_free A) l = true -> map (erase_symbolic A) l = l) as Hl.
  { induction 1 as [|t l H HF IH]; [done|]. simpl. intros [H1 H2]%andb_true_iff. by rewrite H, IH. }
  induction ty as [| | | | | | |n l IH|n l IH|m t IH|m t IH|t IH|l IH|ps IHps r IHr abi u|n|t IH| |[e|]|l IH|n| |];
    cbn [erase_symbolic symbolic_free]; intros H; try done.
  - f_equal. apply Hl; [by apply list_all_Forall|done].
  - f_equal. apply Hl; [by apply list_all_Forall|done].
  - f_equal. auto.
  - f_equal. auto.
  - f_equal. auto.
  - f_equal. apply Hl; [by apply list_all_Forall|done].
  - apply andb_true_iff in H as [H1 H2]. f_equal; [|auto]. apply Hl; [by apply list_all_Forall|done].
  - apply negb_true_iff in H. by rewrite H.
  - apply negb_true_iff in H. by rewrite H.
  - f_equal. apply Hl; [by apply list_all_Forall|done].
Qed.

(** ** Instances and hidden dimension arguments *)

Record Slot := mkSlot { slot_arg : nat; slot_item : option nat }.

Definition fn_generics (f : FnDecl) : list GenericParam := let 'mkFnDecl _ _ g _ _ _ _ _ _ _ _ _ _ := f in g.
Definition fn_params (f : FnDecl) : list Param := let 'mkFnDecl _ _ _ p _ _ _ _ _ _ _ _ _ := f in p.
Definition fn_name (f : FnDecl) : string := let 'mkFnDecl n _ _ _ _ _ _ _ _ _ _ _ _ := f in n.
Definition fn_is_iter (f : FnDecl) : bool := let 'mkFnDecl _ _ _ _ _ _ _ _ i _ _ _ _ := f in i.

(** The parameters of the owner, then the function's own, without lifetimes. *)
Definition all_params (owner : list GenericParam) (own : option FnDecl) : list GenericParam :=
  List.filter (fun p => match gp_kind p with KLifetime => false | _ => true end)
    (owner ++ match own with Some f => fn_generics f | None => [] end).

Definition kinds (owner : list GenericParam) (own : option FnDecl) : list GenericParamKind :=
  map gp_kind (all_params owner own).

Definition instance_args (A : Arena) (owner : list GenericParam) (own : option FnDecl) (args : list Type_) : list Type_ :=
  imap (fun index arg =>
          match kinds owner own !! index with
          | Some KDim => TyDim DDyn
          | _ => erase_symbolic A arg
          end) args.

(** [Type == Type::Dim(Dim::Dyn)] *)
Definition is_dyn (ty : Type_) : bool := match ty with TyDim DDyn => true | _ => false end.

Definition pack_slots (arg : nat) (items : list Type_) : list Slot :=
  omap (fun '(item, element) => if is_dyn element then Some (mkSlot arg (Some item)) else None)
    (zip (seq 0 (length items)) items).

Definition slots_of (arg : nat) (kind : GenericParamKind) (ty : Type_) : list Slot :=
  match kind, ty with
  | KDim, _ => [mkSlot arg None]
  | KConst _, TyDim DDyn => [mkSlot arg None]
  | KConstPack _, TyPack items => pack_slots arg items
  | _, _ => []
  end.

Definition hidden_slots (owner : list GenericParam) (own : option FnDecl) (args : list Type_) : list Slot :=
  let no_hidden :=
    match own with
    | Some f => fn_is_iter f || bool_decide (fn_name f = "drop"%string) && (length (fn_params f) =? 1)
    | None => false
    end in
  if no_hidden then []
  else mjoin (imap (fun arg p => slots_of arg p.1 p.2) (zip (kinds owner own) args)).

Definition slot_type (args : list Type_) (slot : Slot) : Type_ :=
  match args !! slot_arg slot, slot_item slot with
  | Some (TyPack items), Some item => default (TyDim DDyn) (items !! item)
  | Some ty, None => ty
  | _, _ => TyDim DDyn
  end.

(** [None] where indexing the pack panics. *)
Definition with_slot (args : list Type_) (slot : Slot) (ty : Type_) : option (list Type_) :=
  match args !! slot_arg slot, slot_item slot with
  | Some (TyPack items), Some item =>
      if item <? length items then Some (<[slot_arg slot := TyPack (<[item := ty]> items)]> args) else None
  | Some _, None => Some (<[slot_arg slot := ty]> args)
  | _, _ => Some args
  end.

Definition slot_name (owner : list GenericParam) (own : option FnDecl) (slot : Slot) : string :=
  match all_params owner own !! slot_arg slot with Some p => gp_name p | None => "D" end.

(** A slot names an argument: a whole one, or an item of a pack. *)
Definition slot_in (args : list Type_) (slot : Slot) : Prop :=
  exists ty, args !! slot_arg slot = Some ty /\
    match slot_item slot with
    | None => True
    | Some item => exists items, ty = TyPack items /\ item < length items
    end.

Lemma pack_slots_elem arg items slot :
  slot ∈ pack_slots arg items <->
  exists item, slot = mkSlot arg (Some item) /\ exists e, items !! item = Some e /\ is_dyn e = true.
Proof.
  unfold pack_slots. rewrite list_elem_of_omap. split.
  - intros ([item e] & Hin & Hs). apply list_elem_of_lookup in Hin as [i Hi].
    apply lookup_zip_with_Some in Hi as (x & y & [= -> ->] & Hx & Hy).
    apply lookup_seq in Hx as [-> _]. case_match; [|done]. injection Hs as <-. eauto.
  - intros (item & -> & e & He & Hd). exists (item, e). rewrite Hd. split; [|done].
    apply list_elem_of_lookup. exists item. apply lookup_zip_with_Some. exists item, e. split_and!; [done| |done].
    apply lookup_seq. split; [done|by eapply lookup_lt_Some].
Qed.

(** A slot that names an argument is written and read back. *)
Lemma with_slot_read args slot ty :
  slot_in args slot ->
  exists args', with_slot args slot ty = Some args' /\ slot_type args' slot = ty /\
    length args' = length args /\ forall i, i <> slot_arg slot -> args' !! i = args !! i.
Proof.
  destruct slot as [arg [item|]]; intros (t & Ht & Hitem); simpl in *; apply lookup_lt_Some in Ht as Hlt.
  - destruct Hitem as (items & -> & Hi). unfold with_slot. simpl. rewrite Ht.
    destruct (Nat.ltb_spec item (length items)); [|lia]. eexists. split; [done|].
    unfold slot_type. simpl. rewrite list_lookup_insert_eq by done. simpl.
    rewrite list_lookup_insert_eq by done. split_and!; [done|by rewrite length_insert|].
    intros i Hne. by rewrite list_lookup_insert_ne.
  - unfold with_slot. simpl. rewrite Ht. exists (<[arg := ty]> args).
    unfold slot_type. simpl. rewrite list_lookup_insert_eq by done.
    split_and!; [by destruct t|by destruct ty|by rewrite length_insert|]. intros i Hne. by rewrite list_lookup_insert_ne.
Qed.

(** hidden dimension arguments: every slot that [hidden_slots] returns
    names an existing argument (or an existing item of a pack argument), which
    belongs to a [dim] parameter or is [Dyn] there; writing any type into the
    slot with [with_slot] does not panic, is read back by [slot_type], and
    changes no other argument. *)
Theorem hidden_slots_correct owner own args slot :
  slot ∈ hidden_slots owner own args ->
  slot_in args slot /\
  (kinds owner own !! slot_arg slot = Some KDim \/ is_dyn (slot_type args slot) = true) /\
  forall ty, exists args', with_slot args slot ty = Some args' /\ slot_type args' slot = ty /\
    length args' = length args /\ forall i, i <> slot_arg slot -> args' !! i = args !! i.
Proof.
  unfold hidden_slots. case_match; [by intros ?%not_elem_of_nil|].
  intros (l & Hin & (arg & [kind ty] & -> & Hz)%elem_of_lookup_imap)%list_elem_of_join.
  apply lookup_zip_with_Some in Hz as (k & t & [= <- <-] & Hk & Ht). cbn [fst snd] in Hin.
  assert (slot_in args slot /\ (kinds owner own !! slot_arg slot = Some KDim \/ is_dyn (slot_type args slot) = true)) as [H1 H2].
  { unfold slots_of in Hin. destruct kind; try (by apply not_elem_of_nil in Hin).
    - destruct ty as [| | | | | | | | | | | | | | | | |[|]| | | |]; try (by apply not_elem_of_nil in Hin).
      apply list_elem_of_singleton in Hin as ->. split; [by eexists|right]. unfold slot_type. simpl. by rewrite Ht.
    - destruct ty; try (by apply not_elem_of_nil in Hin).
      apply pack_slots_elem in Hin as (item & -> & e & He & Hd). split.
      + exists (TyPack items). split; [done|]. exists items. split; [done|by eapply lookup_lt_Some].
      + right. unfold slot_type. simpl. by rewrite Ht, He.
    - apply list_elem_of_singleton in Hin as ->. split; [by eexists|by left]. }
  split_and!; [done..|]. intros ty'. by apply with_slot_read.
Qed.

Lemma hidden_slots_correct_witness :
  let p := mkGenericParam "N" (KConstPack (TPath ["i64"%string] (Span.Span_new_root 0 0))) [] (Span.Span_new_root 0 0) in
  let args := [TyPack [TyDim DDyn; TyBool]] in
  hidden_slots [p] None args = [mkSlot 0 (Some 0)] /\ slot_in args (mkSlot 0 (Some 0)).
Proof.
  intros p args. assert (hidden_slots [p] None args = [mkSlot 0 (Some 0)]) as E by (vm_compute; reflexivity).
  split; [exact E|]. apply (hidden_slots_correct [p] None args). rewrite E. left.
Defined.

(** [instance_args] keys an instance by types without symbolic dimensions:
    every argument of the key mentions no witness, opened or existential name,
    and computing the key of a key changes nothing. *)
Theorem instance_args_symbolic_free A owner own args :
  Forall (fun ty => symbolic_free A ty = true) (instance_args A owner own args) /\
  instance_args A owner own (instance_args A owner own args) = instance_args A owner own args.
Proof.
  unfold instance_args. split.
  - rewrite Forall_forall. intros ty (i & t & -> & _)%elem_of_lookup_imap.
    destruct (kinds owner own !! i) as [[]|]; (exact (erase_symbolic_free A t)) || reflexivity.
  - apply list_eq. intros i. rewrite !list_lookup_imap. destruct (args !! i) as [t|]; [|done]. simpl. f_equal.
    destruct (kinds owner own !! i) as [[]|]; try done; apply erase_symbolic_id, erase_symbolic_free.
Qed.
