(* ===== verification/Names.v ===== *)
(** The names of types: [Type::name] and [mangled_name], with the text of the
    dimensions in them.

    - the rendering of a polynomial's normal form and of the form the user
      wrote: [paco-types/src/dims.rs] ([render], [binary], [neg], [operand],
      [display_name] and the [Display] implementations);
    - [Type::name]: [paco-types/src/lib.rs];
    - [mangle_type] and [mangled_name]: [paco-mir/src/lower.rs].

    The process-wide [DISPLAY] table of renamed atoms is an argument.  The
    operands of an opaque atom have smaller ids than the polynomial that uses
    it, so [S id] is fuel enough. *)
From S2P Require Import Prelude Types Dims Generics.
Open Scope nat_scope.

Definition Display : Type := gmap string string.

(** [name.split('@').next()]. *)
Fixpoint before_at (s : string) : string :=
  match s with
  | EmptyString => EmptyString
  | String a s' => if Ascii.eqb a "@" then EmptyString else String a (before_at s')
  end.

Definition display_name (disp : Display) (name : string) : string :=
  if negb (is_atom name) then name else default (before_at name) (disp !! name).

Definition rename_atom (disp : Display) (name display : string) : Display := <[name := display]> disp.

Definition str_leb (a b : string) : bool := match String.compare a b with Gt => false | _ => true end.
Definition cat (parts : list string) : string := String.concat "" parts.

Fixpoint repeat_text (text : string) (n : nat) : list string :=
  match n with O => [] | S n => text :: repeat_text text n end.

Fixpoint contains_space (s : string) : bool :=
  match s with EmptyString => false | String a s' => Ascii.eqb a " " || contains_space s' end.
Definition starts_with_minus (s : string) : bool :=
  match s with String a _ => Ascii.eqb a "-" | EmptyString => false end.

Section Render.
Context (A : Arena) (disp : Display).

(** [render_monomial], with the text of an operand as a parameter. *)
Definition render_monomial (operand : nat -> string) (mono : Monomial) (alone : bool) : string :=
  let factor '(atom, exp) :=
    match atoms A !! atom with
    | Some (AParam name) => repeat_text (display_name disp name) (Z.to_nat exp)
    | Some (AOpaque op l r) =>
        let text := cat [operand l; " "; symbol op; " "; operand r]%string in
        repeat_text (if alone && (length mono =? 1) && (exp =? 1)%Z then text else cat ["("; text; ")"]%string) (Z.to_nat exp)
    | None => []
    end in
  String.concat " * " (stable_sort str_leb (concat (map factor mono))).

(** One term of the sum: by its degree, and then by its text. *)
Definition term_leb (a b : Z * string * Z) : bool :=
  let '(da, fa, _) := a in
  let '(db, fb, _) := b in
  match (db ?= da)%Z with Lt => true | Gt => false | Eq => str_leb fa fb end.

Definition render_term (t : Z * string * Z) : string :=
  let '(degree, factors, coeff) := t in
  let magnitude := Z.abs coeff in
  if (degree =? 0)%Z then show_Z magnitude
  else if (magnitude =? 1)%Z then factors
  else cat [show_Z magnitude; " * "; factors]%string.

Fixpoint render_terms (index : nat) (terms : list (Z * string * Z)) : string :=
  match terms with
  | [] => EmptyString
  | t :: terms =>
      let term := render_term t in
      let text :=
        match index, (t.2 <? 0)%Z with
        | O, false => term
        | O, true => cat ["-"; term]%string
        | S _, false => cat [" + "; term]%string
        | S _, true => cat [" - "; term]%string
        end in
      cat [text; render_terms (S index) terms]
  end.

(** [render_operand] of a text. *)
Definition parenthesised (text : string) : string :=
  if contains_space text || starts_with_minus text then cat ["("; text; ")"]%string else text.

Fixpoint render_fuel (fuel : nat) (id : nat) : string :=
  match fuel with
  | O => EmptyString
  | S fuel =>
      let poly := poly_of A id in
      match poly with
      | [] => "0"%string
      | _ =>
          let terms := map (fun '(mono, coeff) =>
            (foldr Z.add 0%Z (map snd mono),
             render_monomial (fun id => parenthesised (render_fuel fuel id)) mono ((length poly =? 1) && (coeff =? 1)%Z),
             coeff)) poly in
          render_terms 0 (stable_sort term_leb terms)
      end
  end.

Definition render (id : nat) : string := render_fuel (S id) id.
Definition normal_form (e : ConstExpr) : string := render (ce_poly e).

(** [text.contains(" + ")] and the like. *)
Fixpoint has_infix (pat s : string) : bool :=
  String.prefix pat s || match s with EmptyString => false | String _ s' => has_infix pat s' end.

Definition operand (e : ConstExpr) (min : nat) : string :=
  let '(text, precedence) :=
    match ce_written e with
    | Some (text, precedence) => (text, precedence)
    | None =>
        let text := normal_form e in
        (text, if has_infix " + " text || has_infix " - " text then 1
               else if contains_space text || starts_with_minus text then 2 else 3)
    end in
  if precedence <? min then cat ["("; text; ")"]%string else text.

Definition const_expr_text (e : ConstExpr) : string :=
  match ce_written e with Some (text, _) => text | None => normal_form e end.

Definition dim_text (d : Dim) : string :=
  match d with DConst e => const_expr_text e | DDyn => "Dyn"%string end.

Fixpoint type_name (ty : Type_) : string :=
  let names := fun l => String.concat ", " (map type_name l) in
  match ty with
  | TyInt w => IntWidth.name w
  | TyFloat w => FloatWidth.name w
  | TyBool => "bool"
  | TyString => "string"
  | TyChar => "char"
  | TyUnit => "unit"
  | TyNever => "never"
  | TyStruct name [] | TyEnum name [] => name
  | TyStruct name args | TyEnum name args => cat [name; "<"; names args; ">"]
  | TyBorrow true ty => cat ["&mut "; type_name ty]
  | TyBorrow false ty => cat ["&"; type_name ty]
  | TyRawPointer true ty => cat ["*mut "; type_name ty]
  | TyRawPointer false ty => cat ["*const "; type_name ty]
  | TySlice ty => cat ["[]"; type_name ty]
  | TyTuple items => cat ["("; names items; ")"]
  | TyFn params ret abi is_unsafe =>
      cat [if is_unsafe then "unsafe " else "";
           match abi with Some abi => cat ["extern "; String "034" ""; abi; String "034" ""; " "] | None => "" end;
           "fn("; names params; ") -> "; type_name ret]
  | TyGeneric name => display_name disp name
  | TyDim d => dim_text d
  | TyPack items => names items
  | TySpread name => cat [name; "..."]
  | TyTypeValue _ => "type"
  | TyCode => "Code"
  | TyUnknown => "unknown"
  | TyError => "error"
  end%string.

(** *** Symbols of instances *)

Fixpoint without_spaces (s : string) : string :=
  match s with
  | EmptyString => EmptyString
  | String a s' => if Ascii.eqb a " " then without_spaces s' else String a (without_spaces s')
  end.

Fixpoint mangle_type (ty : Type_) : string :=
  let parts := fun l => String.concat "_" (map mangle_type l) in
  match ty with
  | TyInt w => IntWidth.name w
  | TyFloat w => FloatWidth.name w
  | TyBool => "bool"
  | TyChar => "char"
  | TyString => "string"
  | TyUnit => "unit"
  | TyStruct name [] | TyEnum name [] => name
  | TyStruct name args | TyEnum name args => cat [name; "_"; parts args]
  | TySlice elem => cat ["slice_"; mangle_type elem]
  | TyTuple items => cat ["tuple_"; parts items]
  | TyBorrow mutable ty => cat [if mutable then "refmut" else "ref"; "_"; mangle_type ty]
  | TyRawPointer mutable ty => cat [if mutable then "ptrmut" else "ptr"; "_"; mangle_type ty]
  | TyGeneric name => cat ["generic_"; name]
  | TyDim DDyn => "dyn"
  | TyDim (DConst e) =>
      match as_lit A e with
      | Some value => cat ["d"; show_Z value]
      | None => cat ["dexpr"; without_spaces (normal_form e)]
      end
  | TyPack items => cat ["pack"; show_Z (Z.of_nat (length items)); "_"; parts items]
  | _ => "unknown"
  end%string.

Definition mangled_name (method_name : string) (type_args : list Type_) : string :=
  match type_args with
  | [] => method_name
  | _ => cat [method_name; "::"; String.concat "_" (map mangle_type type_args)]%string
  end.
End Render.

(** [ConstExpr::binary] and [neg] keep the text as written. *)
Definition ce_binary (disp : Display) (A : Arena) (op : DimOp) (left right : ConstExpr) : Arena * ConstExpr :=
  let parent := precedence op in
  let '(left_min, right_min) :=
    match op with
    | DAdd | DMul => (parent, parent)
    | DSub => (parent, S parent)
    | DDiv | DRem => (S parent, S parent)
    end in
  let text := cat [operand A disp left left_min; " "; symbol op; " "; operand A disp right right_min]%string in
  let '(A', poly) := apply A op (ce_poly left) (ce_poly right) in
  (A', mkConstExpr poly (Some (text, parent))).

Definition ce_neg (disp : Display) (A : Arena) (inner : ConstExpr) : Arena * ConstExpr :=
  let text := cat ["-"; operand A disp inner 3]%string in
  let '(A1, zero) := arena_lit A 0 in
  let '(A2, poly) := apply A1 DSub zero (ce_poly inner) in
  (A2, mkConstExpr poly (Some (text, 3))).

(** ** Fuel *)

Lemma render_monomial_ext A disp o o' mono alone :
  (forall a op l r, a ∈ map fst mono -> atoms A !! a = Some (AOpaque op l r) -> o l = o' l /\ o r = o' r) ->
  render_monomial A disp o mono alone = render_monomial A disp o' mono alone.
Proof.
  intros H. unfold render_monomial. do 2 f_equal. f_equal. apply map_ext_in. intros [a x] Ha.
  destruct (atoms A !! a) as [[n|op l r]|] eqn:E; try done.
  destruct (H a op l r) as [-> ->]; try done. apply list_elem_of_In. by apply (in_map fst) in Ha.
Qed.

(** Fuel beyond the id changes nothing: [render] is the source's recursion. *)
Lemma render_fuel_enough A disp n m id :
  arena_ok A -> valid A id -> id < n -> id < m -> render_fuel A disp n id = render_fuel A disp m id.
Proof.
  intros HA. revert n m id. induction n as [n IH] using lt_wf_ind. intros m id Hv Hn Hm.
  destruct n as [|n], m as [|m]; try lia. cbn [render_fuel].
  assert (forall k, (exists a op l r, a ∈ atoms_in (poly_of A id) /\ atoms A !! a = Some (AOpaque op l r) /\ (k = l \/ k = r)) ->
    render_fuel A disp n k = render_fuel A disp m k) as Hk.
  { intros k (a & op & l & r & Ha & E & Hk). destruct (operands_smaller A HA id a op l r Hv Ha E) as [Hl Hr].
    unfold valid in *. apply IH; destruct Hk as [-> | ->]; lia. }
  destruct (poly_of A id) as [|t p] eqn:Ep; [done|]. do 2 f_equal. apply map_ext_in. intros [mono coeff] Hin.
  do 2 f_equal. apply render_monomial_ext. intros a op l r Ha E.
  assert (a ∈ atoms_in (t :: p)) as Ha'.
  { apply list_elem_of_In, in_flat_map. exists (mono, coeff). split; [done|]. by apply list_elem_of_In. }
  rewrite !(Hk l), !(Hk r) by eauto 10. done.
Qed.

(** ** Symbols are not unique

    The parts of a symbol are joined by [_], which also joins the parts of a
    part: two instances of one function with two type parameters get the same
    symbol. *)
Definition i64_ty : Type_ := TyInt I64.

Example mangled_name_collides :
  let nested := [TyTuple [i64_ty; i64_ty; TyTuple [i64_ty; i64_ty]]; i64_ty] in
  let flat := [TyTuple [i64_ty; i64_ty]; TyTuple [i64_ty; i64_ty; i64_ty]] in
  mangled_name arena_default ∅ "f" nested = mangled_name arena_default ∅ "f" flat /\ nested <> flat.
Proof. split; [reflexivity|discriminate]. Qed.
