(* ===== verification/Unify.v ===== *)
(** Unification of types: [unify_type] of [compiler/paco-types/src/lib.rs] and
    the functions around it, by which the type checker finds the type
    arguments of a generic call.

    [unify_type] updates the substitution and the note about a dimension that
    could not be proved equal, and interns dimensions in the arena ([Unifier]).
    The names of anonymous extents are a thread-local set of the source, here
    the argument [anonymous].  The recursion goes through the bindings of the
    substitution and need not end, so it has fuel, and [None] means that the
    fuel was not enough.

    Against types without parameters, unification is matching: it ends, it
    succeeds exactly when the parameters can be instantiated, and it binds them
    as any instance must ([unify_matches]).  This is about types in which no
    dimension, pack, type value or unknown type occurs: two unknown extents
    are not known to be equal, so that [(N, N)] is not unified with
    [(Dyn, Dyn)] ([dyn_not_equal]).  The parameters of a generic callee
    are not renamed, and against the types of a caller with parameters of the
    same names neither holds ([unify_captures], [unify_diverges]). *)
From S2P Require Import Prelude BTreeMap Ast Types Dims Generics Names.

Open Scope nat_scope.

Record Unifier := mkUnifier { u_arena : Arena; u_subst : Subst; u_unproved : option string }.

Definition set_subst (s : Subst) (u : Unifier) : Unifier := mkUnifier (u_arena u) s (u_unproved u).
Definition bind_type (name : string) (ty : Type_) (u : Unifier) : Unifier := set_subst (<[name := ty]> (u_subst u)) u.
Definition record_unproved (note : string) (u : Unifier) : Unifier := mkUnifier (u_arena u) (u_subst u) (Some note).

(** ** Compatibility *)

Definition is_unknown (ty : Type_) : bool := match ty with TyUnknown | TyError => true | _ => false end.

Fixpoint compatible (actual expected : Type_) : bool :=
  type_eqb actual expected || is_unknown actual || is_unknown expected ||
  match actual, expected with
  | TyTypeValue _, TyTypeValue _ => true
  | TyStruct a xs, TyStruct b ys | TyEnum a xs, TyEnum b ys => bool_decide (a = b) && list_eqb compatible xs ys
  | TyTuple xs, TyTuple ys => list_eqb compatible xs ys
  | TyBorrow a x, TyBorrow b y => Bool.eqb a b && compatible x y
  | _, _ => false
  end.

(** ** Which parameters a type mentions *)

Fixpoint type_has_foreign_generic (known : gset string) (ty : Type_) : bool :=
  match ty with
  | TyGeneric name => negb (bool_decide (name ∈ known)) && negb (is_atom name) && negb (is_existential name)
  | TyStruct _ items | TyEnum _ items | TyTuple items => existsb (type_has_foreign_generic known) items
  | TyBorrow _ ty | TyRawPointer _ ty | TySlice ty => type_has_foreign_generic known ty
  | _ => false
  end.

Fixpoint has_unbound_variant_param (ty : Type_) : bool :=
  match ty with
  | TyGeneric name => string_contains "#" name
  | TyStruct _ items | TyEnum _ items | TyTuple items | TyPack items => existsb has_unbound_variant_param items
  | TyBorrow _ ty | TyRawPointer _ ty | TySlice ty => has_unbound_variant_param ty
  | _ => false
  end.

Definition generic_substitutions (generics : list string) : Subst := list_to_map (rev (map (fun name => (name, TyGeneric name)) generics)).

Definition nominal_generic_args (ty : Type_) : list Type_ :=
  match ty with TyStruct _ args | TyEnum _ args => args | TySlice elem => [elem] | _ => [] end.

(** Renames the unbound parameters of an enum *)
Definition fresh_enum_params (ty : Type_) : Type_ :=
  match ty with
  | TyEnum name args =>
      TyEnum name (map (fun arg => match arg with TyGeneric param => TyGeneric (cat [param; "#"; name]%string) | other => other end) args)
  | other => other
  end.

Section Unify.
Context (anonymous : string -> bool) (disp : Display).

Fixpoint erase_anonymous (A : Arena) (ty : Type_) : Type_ :=
  match ty with
  | TyGeneric name => if anonymous name then TyDim DDyn else ty
  | TyDim (DConst e) => if any_name A e anonymous then TyDim DDyn else ty
  | TyStruct name items => TyStruct name (map (erase_anonymous A) items)
  | TyEnum name items => TyEnum name (map (erase_anonymous A) items)
  | TyTuple items => TyTuple (map (erase_anonymous A) items)
  | TyPack items => TyPack (map (erase_anonymous A) items)
  | TyBorrow m t => TyBorrow m (erase_anonymous A t)
  | TySlice t => TySlice (erase_anonymous A t)
  | other => other
  end.

Definition decays_to (A : Arena) (actual expected : Type_) : bool :=
  compatible actual expected || compatible (erase_anonymous A actual) expected.

Fixpoint has_unbound_dim (A : Arena) (s : Subst) (ty : Type_) : bool :=
  match ty with
  | TyDim (DConst e) => match unbound_params A (ce_poly e) s [] with [] => false | _ => true end
  | TyStruct _ items | TyEnum _ items | TyPack items | TyTuple items => existsb (has_unbound_dim A s) items
  | TyBorrow _ ty | TySlice ty => has_unbound_dim A s ty
  | _ => false
  end.

(** ** Unification *)

Definition is_bound (name : string) (existing : Type_) : bool :=
  match existing with TyGeneric other => negb (bool_decide (other = name)) && is_atom other | _ => true end.

(** [dims::unify], and the note when the expected dimension depends on [Dyn] *)
Definition unify_dim (expected actual : Dim) (u : Unifier) : Unifier * bool :=
  let '(A, s, agreed) := Dims.unify (u_arena u) expected actual (u_subst u) in
  let u := mkUnifier A s (u_unproved u) in
  match agreed, expected with
  | false, DConst e =>
      let '(A, substituted) := substitute A e s in
      let u := mkUnifier A s (u_unproved u) in
      match substituted with
      | None => (record_unproved (cat ["`"; const_expr_text A disp e; "` depends on a parameter bound to `Dyn`"]%string) u, false)
      | Some _ => (u, false)
      end
  | _, _ => (u, agreed)
  end.

Definition as_dim (A : Arena) (ty : Type_) : Arena * option Dim :=
  match ty with
  | TyGeneric name => let '(A, e) := ce_param A name in (A, Some (DConst e))
  | TyDim d => (A, Some d)
  | _ => (A, None)
  end.

Definition unify_rigid (expected actual : Type_) (u : Unifier) : Unifier * bool :=
  let '(A, expected_dim) := as_dim (u_arena u) expected in
  let '(A, actual_dim) := as_dim A actual in
  let u := mkUnifier A (u_subst u) (u_unproved u) in
  match expected_dim, actual_dim with
  | Some DDyn, Some _ => (u, true)
  | Some expected_dim, Some actual_dim => unify_dim expected_dim actual_dim u
  | _, _ => (u, false)
  end.

Definition dyn_pair (a b : Type_) : bool := match a, b with TyDim DDyn, TyDim DDyn => true | _, _ => false end.

Fixpoint any_zip (f : Type_ -> Type_ -> bool) (l k : list Type_) : bool :=
  match l, k with x :: l, y :: k => f x y || any_zip f l k | _, _ => false end.

Abbreviation Step := (Unifier -> option (Unifier * bool)) (only parsing).

(** [l.iter().zip(k).all(..)] *)
Definition unify_zip (unify : Type_ -> Type_ -> Unifier -> option (Unifier * bool)) : list Type_ -> list Type_ -> Unifier -> option (Unifier * bool) :=
  fix go l k u :=
    match l, k with
    | x :: l, y :: k => '(u, agreed) ← unify x y u; if (agreed : bool) then go l k u else Some (u, false)
    | _, _ => Some (u, true)
    end.

Definition unify_lists (unify : Type_ -> Type_ -> Unifier -> option (Unifier * bool)) (l k : list Type_) (u : Unifier) : option (Unifier * bool) :=
  if length l =? length k then unify_zip unify l k u else Some (u, false).

(** The third component is the type to which the parameter decays. *)
Definition rebinding_agrees_at (unify : Type_ -> Type_ -> Unifier -> option (Unifier * bool)) (name : string) (existing actual : Type_) (u : Unifier)
  : option (Unifier * bool * option Type_) :=
  let A := u_arena u in
  if negb (match existing with TyDim _ | TyPack _ | TyGeneric _ => true | _ => false end) && negb (compatible actual existing) &&
     compatible (erase_anonymous A actual) (erase_anonymous A existing)
  then Some (u, true, Some (erase_anonymous A existing))
  else
    let unproved :=
      match existing, actual with
      | TyPack existing, TyPack actual => any_zip dyn_pair existing actual
      | _, _ => dyn_pair existing actual
      end in
    if unproved
    then Some (record_unproved (cat ["`"; name; "` is bound to `"; type_name A disp existing; "` by an earlier argument"]%string) u, false, None)
    else if compatible actual existing then Some (u, true, None)
    else '(u, agreed) ← unify existing actual u; Some (u, agreed, None).

Definition rebinding_agrees (unify : Type_ -> Type_ -> Unifier -> option (Unifier * bool)) (name : string) (existing actual : Type_) (u : Unifier)
  : option (Unifier * bool) :=
  '(u, agreed, _) ← rebinding_agrees_at unify name existing actual u; Some (u, agreed).

(** A parameter of the expected type *)
Definition bind_expected (unify : Type_ -> Type_ -> Unifier -> option (Unifier * bool)) (name : string) (actual : Type_) (u : Unifier)
  : option (Unifier * bool) :=
  match u_subst u !! name with
  | Some existing =>
      if is_bound name existing then
        '(u, agreed, decayed) ← rebinding_agrees_at unify name existing actual u;
        Some (match decayed with Some decayed => bind_type name decayed u | None => u end, agreed)
      else Some (bind_type name actual u, true)
  | None => Some (bind_type name actual u, true)
  end.

(** A parameter of the actual type *)
Definition bind_actual (unify : Type_ -> Type_ -> Unifier -> option (Unifier * bool)) (name : string) (expected : Type_) (u : Unifier)
  : option (Unifier * bool) :=
  match u_subst u !! name with
  | Some existing =>
      if is_bound name existing then rebinding_agrees unify name existing expected u else Some (bind_type name expected u, true)
  | None => Some (bind_type name expected u, true)
  end.

Definition unify_packs (unify : Type_ -> Type_ -> Unifier -> option (Unifier * bool)) (expected_items actual_items : list Type_) (u : Unifier)
  : option (Unifier * bool) :=
  let spread :=
    match last expected_items with
    | Some (TySpread rest) =>
        match last actual_items with
        | Some (TySpread rest') => if bool_decide (rest = rest') then None else Some rest
        | _ => Some rest
        end
    | _ => None
    end in
  match spread with
  | Some rest =>
      let fixed := length expected_items - 1 in
      if fixed <=? length actual_items then
        '(u, agreed) ← unify_zip unify (take fixed expected_items) actual_items u;
        if (agreed : bool) then unify (TyGeneric rest) (TyPack (drop fixed actual_items)) u else Some (u, false)
      else Some (u, false)
  | None => unify_lists unify expected_items actual_items u
  end.

(** The cases without a parameter at the top *)
Definition unify_structure (unify : Type_ -> Type_ -> Unifier -> option (Unifier * bool)) (expected actual : Type_) (u : Unifier)
  : option (Unifier * bool) :=
  match expected, actual with
  | TyStruct a xs, TyStruct b ys | TyEnum a xs, TyEnum b ys => if bool_decide (a = b) then unify_lists unify xs ys u else Some (u, false)
  | TyBorrow a x, TyBorrow b y | TyRawPointer a x, TyRawPointer b y => if Bool.eqb a b then unify x y u else Some (u, false)
  | TyTuple xs, TyTuple ys => unify_lists unify xs ys u
  | TySlice x, TySlice y => unify x y u
  | TyFn xs x abi is_unsafe, TyFn ys y abi' is_unsafe' =>
      if bool_decide (abi = abi') && Bool.eqb is_unsafe is_unsafe' then
        '(u, agreed) ← unify_lists unify xs ys u;
        if (agreed : bool) then unify x y u else Some (u, false)
      else Some (u, false)
  | TyPack xs, TyPack ys => unify_packs unify xs ys u
  | TyDim expected, TyDim actual => Some (unify_dim expected actual u)
  | _, _ => Some (u, compatible actual expected)
  end.

Definition unify_node (unify : Type_ -> Type_ -> Unifier -> option (Unifier * bool)) (expected actual : Type_) (u : Unifier)
  : option (Unifier * bool) :=
  let contains := fun name => bool_decide (is_Some (u_subst u !! name)) in
  match expected, actual with
  | TyGeneric name, _ =>
      if match actual with TyGeneric name' => bool_decide (name = name') && is_atom name && negb (contains name) | _ => false end
      then Some (u, true)
      else if negb (is_atom name) || contains name then bind_expected unify name actual u
      else
        match actual with
        | TyGeneric name' => if negb (is_atom name') then bind_actual unify name' expected u else Some (unify_rigid expected actual u)
        | _ => Some (unify_rigid expected actual u)
        end
  | _, TyGeneric name => if negb (is_atom name) then bind_actual unify name expected u else Some (unify_rigid expected actual u)
  | _, _ => unify_structure unify expected actual u
  end.

Fixpoint unify_type (fuel : nat) (expected actual : Type_) (u : Unifier) : option (Unifier * bool) :=
  match fuel with O => None | S fuel => unify_node (unify_type fuel) expected actual u end.

Definition Unifier_new (A : Arena) : Unifier := mkUnifier A ∅ None.

(** ** Uses of unification *)

(** [known]: the parameters in scope *)
Definition resolve_against_expected (fuel : nat) (expected actual : Type_) (known : gset string) (A : Arena) : option (Arena * Type_) :=
  '(u, _) ← unify_type fuel expected actual (Unifier_new A);
  let s := filter (fun e => e.1 ∉ known) (u_subst u) in
  let '(A, resolved) := substitute_generics actual s (u_arena u) in
  Some (A, if type_has_foreign_generic known resolved then expected else resolved).

Definition join_branch_types (fuel : nat) (left right : Type_) (known : gset string) (A : Arena) : option (Arena * option Type_) :=
  let unresolved := fun ty => has_unbound_variant_param ty || type_has_foreign_generic known ty in
  if compatible left right then Some (A, Some left)
  else if type_eqb left TyNever then Some (A, Some right)
  else if type_eqb right TyNever then Some (A, Some left)
  else if unresolved left || unresolved right then
    '(u, agreed) ← unify_type fuel left right (Unifier_new A);
    '(u, agreed) ← (if (agreed : bool) then unify_type fuel right left u else Some (u, false));
    if (agreed : bool) then
      let '(A, ty) := substitute_generics (if unresolved left then right else left) (u_subst u) (u_arena u) in Some (A, Some ty)
    else Some (u_arena u, None)
  else Some (A, None).
End Unify.

(** ** Matching

    [plain_type]: no dimension, no pack and no type that is compatible with
    another one; [ground_type]: no parameter either. *)

Fixpoint plain_with (generic : string -> bool) (ty : Type_) : bool :=
  match ty with
  | TyGeneric name => generic name
  | TyStruct _ items | TyEnum _ items | TyTuple items => forallb (plain_with generic) items
  | TyBorrow _ ty | TyRawPointer _ ty | TySlice ty => plain_with generic ty
  | TyFn params ret _ _ => forallb (plain_with generic) params && plain_with generic ret
  | TyTypeValue _ | TyDim _ | TyPack _ | TySpread _ | TyUnknown | TyError => false
  | _ => true
  end.

Definition plain_type : Type_ -> bool := plain_with (fun name => negb (is_atom name)).
Definition ground_type : Type_ -> bool := plain_with (fun _ => false).

(** A parameter is bound to itself, as [generic_substitutions] leaves it, or
    to a type without parameters. *)
Definition ground_subst (s : Subst) : Prop :=
  forall name ty, s !! name = Some ty -> ty = TyGeneric name \/ ground_type ty = true.

(** [s'] keeps the bindings of [s]. *)
Definition extends (s s' : Subst) : Prop :=
  forall name ty, s !! name = Some ty -> ty <> TyGeneric name -> s' !! name = Some ty.

Fixpoint height (ty : Type_) : nat :=
  match ty with
  | TyStruct _ items | TyEnum _ items | TyTuple items | TyPack items => S (list_max (map height items))
  | TyBorrow _ ty | TyRawPointer _ ty | TySlice ty | TyTypeValue ty => S (height ty)
  | TyFn params ret _ _ => S (Nat.max (list_max (map height params)) (height ret))
  | _ => 0
  end.

(** The reference: substitution of ground types, without arena or stack *)
Fixpoint inst (s : Subst) (ty : Type_) : Type_ :=
  match ty with
  | TyGeneric name => default ty (s !! name)
  | TyStruct name items => TyStruct name (map (inst s) items)
  | TyEnum name items => TyEnum name (map (inst s) items)
  | TyTuple items => TyTuple (map (inst s) items)
  | TyBorrow m ty => TyBorrow m (inst s ty)
  | TyRawPointer m ty => TyRawPointer m (inst s ty)
  | TySlice ty => TySlice (inst s ty)
  | TyFn params ret abi is_unsafe => TyFn (map (inst s) params) (inst s ret) abi is_unsafe
  | other => other
  end.

#[export] Instance extends_preorder : PreOrder extends.
Proof. split; [by intros s name ty|]. intros r s t Hrs Hst name ty Hr Hn. by apply Hst; [apply Hrs|]. Qed.

Lemma forallb_all {A} (f : A -> bool) (P : A -> Prop) l :
  list_all A (fun x => f x = true -> P x) l -> forallb f l = true -> Forall P l.
Proof.
  intros H%list_all_Forall Hf. induction H as [|x l Hx H IH]; [constructor|].
  simpl in Hf. apply andb_true_iff in Hf as [??]. auto.
Qed.

Lemma list_eqb_eq {A} (f : A -> A -> bool) l k :
  Forall (fun x => forall y, f x y = true <-> x = y) l -> list_eqb f l k = true <-> l = k.
Proof.
  intros H. revert k. induction H as [|x l Hx H IH]; intros [|y k]; simpl; try done.
  rewrite andb_true_iff, Hx, IH. split; [by intros [-> ->]|by intros [= -> ->]].
Qed.

Lemma map_id_Forall {A} (f : A -> A) l : Forall (fun x => f x = x) l -> map f l = l.
Proof. induction 1 as [|x l Hx H IH]; simpl; by rewrite ?Hx, ?IH. Qed.

Ltac type_induction a :=
  induction a as [| | | | | | |n l IH|n l IH|m t IH|m t IH|t IH|l IH|ps IHps r IHr abi us|n|t IH| |dm|l IH|n| |].

Lemma ground_type_eqb a b : ground_type a = true -> type_eqb a b = true <-> a = b.
Proof.
  unfold ground_type. intros Ha. revert b. type_induction a; intros b; cbn [plain_with] in Ha; try done;
    destruct b; cbn [type_eqb]; try done;
    try (apply (forallb_all _ (fun a => forall b, type_eqb a b = true <-> a = b)) in Ha; [|exact IH]);
    rewrite ?andb_true_iff, ?bool_decide_eq_true, ?list_eqb_eq, ?eqb_true_iff by done.
  - naive_solver.
  - naive_solver.
  - naive_solver.
  - naive_solver.
  - rewrite IH by done. naive_solver.
  - rewrite IH by done. naive_solver.
  - rewrite IH by done. naive_solver.
  - naive_solver.
  - apply andb_true_iff in Ha as [Hps Hr]. apply (forallb_all _ (fun a => forall b, type_eqb a b = true <-> a = b)) in Hps; [|done].
    rewrite list_eqb_eq by done. rewrite IHr by done. naive_solver.
Qed.

Lemma ground_compatible_list l k :
  Forall (fun a => forall b, ground_type b = true -> compatible a b = true -> a = b) l -> forallb ground_type k = true ->
  list_eqb compatible l k = true -> l = k.
Proof.
  intros H. revert k. induction H as [|x l Hx H IH]; intros [|y k]; simpl; try done.
  intros [Hy Hk]%andb_true_iff [Hc Hl]%andb_true_iff. f_equal; auto.
Qed.

Lemma compatible_ground_cases a b :
  ground_type a = true -> ground_type b = true -> compatible a b = true ->
  type_eqb a b = true \/
  match a, b with
  | TyStruct n xs, TyStruct m ys | TyEnum n xs, TyEnum m ys => n = m /\ list_eqb compatible xs ys = true
  | TyTuple xs, TyTuple ys => list_eqb compatible xs ys = true
  | TyBorrow n x, TyBorrow m y => n = m /\ compatible x y = true
  | _, _ => False
  end.
Proof.
  intros Ha Hb. destruct a, b; try done; cbn [compatible is_unknown]; rewrite ?orb_false_r, ?orb_true_iff, ?andb_true_iff, ?bool_decide_eq_true, ?eqb_true_iff; auto.
Qed.

Lemma compatible_ground a : ground_type a = true -> forall b, ground_type b = true -> compatible a b = true -> a = b.
Proof.
  type_induction a; intros Ha b Hb Hc; destruct (compatible_ground_cases _ _ Ha Hb Hc) as [He|He];
    try (by apply ground_type_eqb in He); try done; destruct b; try done;
    unfold ground_type in Ha, Hb; cbn [plain_with] in Ha, Hb.
  - destruct He as [-> He]. f_equal. by apply ground_compatible_list; [eapply forallb_all| |].
  - destruct He as [-> He]. f_equal. by apply ground_compatible_list; [eapply forallb_all| |].
  - destruct He as [-> He]. f_equal. by apply IH.
  - f_equal. by apply ground_compatible_list; [eapply forallb_all| |].
Qed.

Lemma ground_compatible a b : ground_type a = true -> ground_type b = true -> compatible a b = true <-> a = b.
Proof.
  intros Ha Hb. split; [by apply compatible_ground|].
  intros ->. assert (type_eqb b b = true) as He by by apply ground_type_eqb. by destruct b; cbn [compatible]; rewrite ?He.
Qed.

Lemma ground_erase anonymous A a : ground_type a = true -> erase_anonymous anonymous A a = a.
Proof.
  unfold ground_type. type_induction a; intros Ha; cbn [plain_with erase_anonymous] in *; try done;
    f_equal; auto; by apply map_id_Forall; eapply forallb_all.
Qed.

Lemma ground_inst s a : ground_type a = true -> inst s a = a.
Proof.
  unfold ground_type. type_induction a; intros Ha; cbn [plain_with inst] in *; try done;
    [..|apply andb_true_iff in Ha as [??]]; f_equal; auto; by apply map_id_Forall; eapply forallb_all.
Qed.

(** ** Substitution of ground types *)

Lemma map_arena_pure f g l A : Forall (fun x => forall A, f x A = (A, g x)) l -> map_arena f l A = (A, map g l).
Proof. intros H. revert A. induction H as [|x l Hx H IH]; intros A; [done|]. cbn [map_arena map]. by rewrite Hx, IH. Qed.

Lemma substitute_ground d s stack ty A : ground_type ty = true -> substitute_depth (S d) s stack ty A = (A, ty).
Proof.
  unfold ground_type. intros Hg. revert A.
  type_induction ty; intros A; cbn [plain_with] in Hg; rewrite ?substitute_depth_eq; cbn zeta iota beta; try done;
    try (rewrite (map_arena_pure _ id), map_id; [done|]; by eapply forallb_all); try by rewrite IH.
  apply andb_true_iff in Hg as [Hps Hr]. rewrite (map_arena_pure _ id), map_id; [by rewrite IHr|]. by eapply forallb_all.
Qed.

Lemma substitute_inst d s stack ty A :
  ground_subst s -> plain_type ty = true -> substitute_depth (S (S d)) s stack ty A = (A, inst s ty).
Proof.
  unfold plain_type. intros Hs Hp. revert A.
  type_induction ty; intros A; cbn [plain_with] in Hp; rewrite ?substitute_depth_eq; cbn zeta iota beta; cbn [inst]; try done;
    try (rewrite (map_arena_pure _ (inst s)); [done|]; by eapply forallb_all); try by rewrite IH.
  - apply andb_true_iff in Hp as [Hps Hr]. rewrite (map_arena_pure _ (inst s)); [by rewrite IHr|]. by eapply forallb_all.
  - destruct (s !! n) as [val|] eqn:E; [|done]. simpl.
    destruct (type_eqb val _ || _) eqn:Eb; [done|]. destruct (Hs _ _ E) as [->|Hg]; [|by apply substitute_ground].
    simpl in Eb. by rewrite bool_decide_true in Eb.
Qed.

Lemma substitute_generics_inst ty s A :
  ground_subst s -> plain_type ty = true -> substitute_generics ty s A = (A, inst s ty).
Proof. intros. unfold substitute_generics. rewrite Nat.add_comm. by apply substitute_inst. Qed.

(** ** Steps of matching

    A step that matches [M]: it ends, leaves the arena and the note alone,
    keeps earlier bindings, succeeds only when its bindings satisfy [M], and
    succeeds with a part of every extension that satisfies [M]. *)

Definition matching (A : Arena) (note : option string) (f : Unifier -> option (Unifier * bool)) (M : Subst -> Prop) : Prop :=
  forall s, ground_subst s -> exists s' agreed,
    f (mkUnifier A s note) = Some (mkUnifier A s' note, agreed) /\ ground_subst s' /\ extends s s' /\
    (agreed = true -> M s') /\
    (forall r, ground_subst r -> extends s r -> M r -> agreed = true /\ extends s' r).

Definition stable (M : Subst -> Prop) : Prop := forall s s', ground_subst s -> extends s s' -> M s -> M s'.

Section Matching.
Context (A : Arena) (note : option string).
Implicit Types f g : Unifier -> option (Unifier * bool).

Lemma matching_iff f M N : (forall s, M s <-> N s) -> matching A note f M -> matching A note f N.
Proof.
  intros Hiff Hf s Hs. destruct (Hf s Hs) as (s' & b & -> & ? & ? & ? & Hmin). exists s', b. split_and!; try done.
  - intros ?. apply Hiff. auto.
  - intros r ? ? ?%Hiff. auto.
Qed.

Lemma matching_const f (agreed : bool) (M : Subst -> Prop) :
  (forall u, f u = Some (u, agreed)) -> (forall s, agreed = true <-> M s) -> matching A note f M.
Proof. intros Hf Hb s Hs. exists s, agreed. rewrite Hf. split_and!; try done; [apply Hb|]. intros r _ ? ?. split; [by eapply Hb|done]. Qed.

Lemma matching_guard f (c : bool) M N :
  (forall s, N s <-> c = true /\ M s) -> matching A note f M ->
  matching A note (fun u => if c then f u else Some (u, false)) N.
Proof.
  intros HN Hf. destruct c.
  - apply (matching_iff _ M); [intros s; rewrite HN; naive_solver|done].
  - apply (matching_const _ false); [done|]. intros s. rewrite HN. naive_solver.
Qed.

Lemma matching_then f g M N :
  matching A note f M -> matching A note g N -> stable M ->
  matching A note (fun u => '(u, agreed) ← f u; if (agreed : bool) then g u else Some (u, false)) (fun s => M s /\ N s).
Proof.
  intros Hf Hg HM s Hs. destruct (Hf s Hs) as (s1 & b1 & -> & Hs1 & Hx1 & Ht1 & Hmin1). simpl.
  destruct b1.
  - destruct (Hg s1 Hs1) as (s2 & b2 & -> & Hs2 & Hx2 & Ht2 & Hmin2). exists s2, b2. split_and!; try done; [by etransitivity| |].
    + intros Hb. split; [|by apply Ht2]. apply (HM s1); auto.
    + intros r Hr Hxr [HMr HNr]. destruct (Hmin1 r) as [_ ?]; [done..|]. by apply Hmin2.
  - exists s1, false. split_and!; try done. intros r Hr Hxr [HMr _]. by destruct (Hmin1 r).
Qed.

Lemma stable_inst ty a : ground_type a = true -> stable (fun s => inst s ty = a).
Proof.
  unfold ground_type. intros Ha s s' Hs Hx. revert a Ha.
  assert (forall l, list_all Type_ (fun ty => forall a, plain_with (fun _ => false) a = true -> inst s ty = a -> inst s' ty = a) l ->
            forall k, forallb (plain_with (fun _ => false)) k = true -> map (inst s) l = k -> map (inst s') l = k) as Hlist.
  { intros l H%list_all_Forall k Hk <-. induction H as [|x l Hx' H IH]; [done|]. simpl in *.
    apply andb_true_iff in Hk as [??]. f_equal; auto. }
  type_induction ty; intros a Ha; cbn [inst]; try done; intros <-; cbn [plain_with] in Ha; try (f_equal; by eauto).
  - apply andb_true_iff in Ha as [??]. f_equal; eauto.
  - destruct (s !! n) as [ty|] eqn:E; [|done]. simpl in *. rewrite (Hx _ _ E); [done|by intros ->].
Qed.

Lemma stable_and M N : stable M -> stable N -> stable (fun s => M s /\ N s).
Proof. intros HM HN s s' Hs Hx [??]. split; eauto. Qed.
End Matching.

(** ** Matching a type *)

Section Match.
Context (anonymous : string -> bool) (disp : Display) (A : Arena) (note : option string).

Definition matches (fuel : nat) (expected actual : Type_) : Prop :=
  matching A note (unify_type anonymous disp fuel expected actual) (fun s => inst s expected = actual).

Lemma matches_lists fuel l k :
  Forall (fun a => ground_type a = true) k ->
  (forall e a, e ∈ l -> a ∈ k -> matches fuel e a) ->
  matching A note (unify_lists (unify_type anonymous disp fuel) l k) (fun s => map (inst s) l = k) /\
  stable (fun s => map (inst s) l = k).
Proof.
  intros Hk H. split.
  - unfold unify_lists. destruct (length l =? length k) eqn:El; [apply Nat.eqb_eq in El|apply Nat.eqb_neq in El].
    + revert k Hk H El. induction l as [|e l IH]; intros [|a k] Hk H El; try done.
      * apply (matching_const A note _ true); done.
      * inversion Hk as [|?? Ha Hk']; subst. apply (matching_iff A note _ (fun s => inst s e = a /\ map (inst s) l = k)).
        { intros s. simpl. split; [by intros [-> ->]|by intros [= -> ->]]. }
        apply (matching_then A note (unify_type anonymous disp fuel e a) (unify_zip (unify_type anonymous disp fuel) l k)).
        -- apply H; constructor.
        -- apply IH; [done| |by injection El]. intros. apply H; by constructor.
        -- by apply stable_inst.
    + apply (matching_const A note _ false); [done|]. intros s. split; [done|]. intros <-. by rewrite length_map in El.
  - intros s s' Hs Hx. clear H. revert k Hk. induction l as [|e l IH]; intros [|a k] Hk; try done.
    inversion Hk as [|?? Ha Hk']; subst. simpl. intros [= He Hl].
    f_equal; [by eapply (stable_inst e a)|by apply IH].
Qed.

Lemma height_items t l : t ∈ l -> height t <= list_max (map height l).
Proof.
  intros Ht. pose proof (proj1 (list_max_le (map height l) _) (le_n _)) as H.
  rewrite Forall_forall in H. apply H, list_elem_of_fmap. by exists t.
Qed.

Lemma matches_structure generic fuel expected actual :
  (forall name, expected <> TyGeneric name) -> plain_with generic expected = true -> ground_type actual = true ->
  (forall e a, plain_with generic e = true -> ground_type a = true -> height a < height actual -> matches fuel e a) ->
  matches (S fuel) expected actual.
Proof.
  intros Hng He Ha H. unfold matches. unfold ground_type in Ha. cbn [unify_type].
  assert (forall l k, forallb (plain_with generic) l = true -> forallb ground_type k = true -> list_max (map height k) < height actual ->
    matching A note (unify_lists (unify_type anonymous disp fuel) l k) (fun s => map (inst s) l = k) /\ stable (fun s => map (inst s) l = k)) as Hl.
  { intros l k Hl Hk Hlt. apply matches_lists; [apply Forall_forall; by apply forallb_elem|].
    intros e a Hin Hak. apply H; [by apply (proj1 (forallb_elem _ _) Hl)|by apply (proj1 (forallb_elem _ _) Hk)|].
    pose proof (height_items a k Hak). lia. }
  destruct expected; try done; try (by edestruct Hng); destruct actual; try done; cbn [unify_node unify_structure].
  all: try (apply (matching_const A note _ false); [done|]; by intros).
  all: try (apply (matching_const A note _ true); [done|]; by intros).
  all: try (apply (matching_guard A note _ _ (fun s => map (inst s) args = args0)); [intros s; simpl; rewrite bool_decide_eq_true; naive_solver|by apply Hl; [..|simpl; lia]]).
  all: try (apply (matching_guard A note _ _ (fun s => inst s expected = actual)); [intros s; simpl; rewrite eqb_true_iff; naive_solver|by apply H; [..|simpl; lia]]).
  - apply (matching_const A note _ (compatible (TyInt w0) (TyInt w))); [done|]. intros s. rewrite ground_compatible by done. naive_solver.
  - apply (matching_const A note _ (compatible (TyFloat w0) (TyFloat w))); [done|]. intros s. rewrite ground_compatible by done. naive_solver.
  - apply (matching_iff A note _ (fun s => inst s expected = actual)); [intros s; simpl; naive_solver|by apply H; [..|simpl; lia]].
  - apply (matching_iff A note _ (fun s => map (inst s) items = items0)); [intros s; simpl; naive_solver|by apply Hl; [..|simpl; lia]].
  - cbn [plain_with] in He, Ha. apply andb_true_iff in He as [Hps Hr], Ha as [Hqs Hq].
    destruct (Hl params params0) as [Hm Hst]; [done..|simpl; lia|].
    apply (matching_guard A note _ _ (fun s => map (inst s) params = params0 /\ inst s expected = actual)).
    { intros s. simpl. rewrite andb_true_iff, bool_decide_eq_true, eqb_true_iff. naive_solver. }
    apply (matching_then A note _ (unify_type anonymous disp fuel expected actual)); [done|by apply H; [..|simpl; lia]|done].
Qed.

Lemma matches_ground fuel : forall expected actual,
  ground_type expected = true -> ground_type actual = true -> height actual < fuel -> matches fuel expected actual.
Proof.
  induction fuel as [|fuel IH]; intros expected actual He Ha Hf; [lia|].
  apply (matches_structure (fun _ => false)); [by intros n ->|done..|].
  intros e a He' Ha' Hlt. apply IH; [done..|lia].
Qed.

(** Binding an unbound parameter *)
Lemma bind_matches name actual s :
  ground_type actual = true -> (s !! name = None \/ s !! name = Some (TyGeneric name)) -> ground_subst s ->
  let s' := <[name := actual]> s in
  ground_subst s' /\ extends s s' /\ inst s' (TyGeneric name) = actual /\
  (forall r, extends s r -> inst r (TyGeneric name) = actual -> extends s' r).
Proof.
  intros Ha Hun Hs s'. subst s'. split_and!.
  - intros n ty [[-> <-]|[Hn E]]%lookup_insert_Some; [by right|by apply Hs].
  - intros n ty E Hn. rewrite lookup_insert_ne; [done|]. intros ->. destruct Hun; congruence.
  - simpl. by rewrite lookup_insert_eq.
  - intros r Hx Hr n ty [[-> <-]|[Hn E]]%lookup_insert_Some Hne; [|by apply Hx].
    simpl in Hr. destruct (r !! n) as [t|]; simpl in Hr; congruence.
Qed.

(** A parameter bound to another ground type *)
Lemma unify_ground_differs fuel existing actual s :
  ground_subst s -> ground_type existing = true -> ground_type actual = true -> height actual < fuel -> existing <> actual ->
  exists s', unify_type anonymous disp fuel existing actual (mkUnifier A s note) = Some (mkUnifier A s' note, false) /\
    ground_subst s' /\ extends s s'.
Proof.
  intros Hs He Ha Hf Hc. destruct (matches_ground fuel existing actual He Ha Hf s Hs) as (s' & b & -> & Hs' & Hx & Hb & _).
  exists s'. split_and!; try done. destruct b; [|done]. specialize (Hb eq_refl). by rewrite ground_inst in Hb.
Qed.

Lemma rebinding_ground fuel name existing actual s :
  ground_subst s -> ground_type existing = true -> ground_type actual = true -> height actual < fuel ->
  exists s' agreed,
    rebinding_agrees_at anonymous disp (unify_type anonymous disp fuel) name existing actual (mkUnifier A s note) =
      Some (mkUnifier A s' note, agreed, None) /\
    ground_subst s' /\ extends s s' /\ (agreed = true -> existing = actual) /\ (existing = actual -> agreed = true /\ s' = s).
Proof.
  intros Hs He Ha Hf. unfold rebinding_agrees_at. cbn [u_arena]. rewrite !ground_erase by done.
  replace (negb _ && negb _ && compatible actual existing) with false by (by destruct (compatible _ _); rewrite ?andb_false_r).
  replace (match existing with TyPack _ => _ | _ => _ end) with false by (by destruct existing, actual).
  destruct (compatible actual existing) eqn:Ec.
  - apply ground_compatible in Ec as ->; [|done..]. by exists s, true.
  - assert (existing <> actual) as Hne.
    { intros ->. enough (compatible actual actual = true) by congruence. by apply ground_compatible. }
    destruct (unify_ground_differs fuel existing actual s) as (s' & -> & ? & ?); [done..|]. by exists s', false.
Qed.

Lemma matches_generic fuel name actual :
  is_atom name = false -> ground_type actual = true -> height actual < fuel -> matches (S fuel) (TyGeneric name) actual.
Proof.
  intros Hn Ha Hf s Hs. cbn [unify_type]. unfold unify_node. rewrite Hn.
  replace (match actual with TyGeneric _ => _ | _ => false end) with false by by destruct actual.
  cbn [negb orb]. unfold bind_expected. cbn [u_subst].
  assert ((s !! name = None \/ s !! name = Some (TyGeneric name)) \/
          exists existing, s !! name = Some existing /\ ground_type existing = true) as [Hun|(existing & E & He)].
  { destruct (s !! name) as [ty|] eqn:E; [|auto]. destruct (Hs _ _ E) as [->|]; eauto. }
  - destruct (bind_matches name actual s Ha Hun Hs) as (H1 & H2 & H3 & H4). exists (<[name := actual]> s), true.
    split_and!; try done; [|by intros r _ ? ?; split; [|apply H4]].
    destruct Hun as [->| ->]; [done|]. simpl. by rewrite bool_decide_true.
  - rewrite E. replace (is_bound name existing) with true by by destruct existing.
    destruct (rebinding_ground fuel name existing actual s) as (s' & b & -> & H1 & H2 & H3 & H4); [done..|].
    exists s', b. split_and!; try done.
    + intros Hb. simpl. rewrite (H2 _ _ E); [by apply H3|by intros ->].
    + intros r Hr Hx. simpl. rewrite (Hx _ _ E) by by intros ->. simpl. intros Hea. destruct (H4 Hea) as [-> ->]. done.
Qed.

Lemma matches_plain fuel : forall expected actual,
  plain_type expected = true -> ground_type actual = true -> height actual + 1 < fuel -> matches fuel expected actual.
Proof.
  induction fuel as [|fuel IH]; intros expected actual He Ha Hf; [lia|].
  assert ((exists name, expected = TyGeneric name) \/ forall name, expected <> TyGeneric name) as [[name ->]|Hng].
  { destruct expected; try (right; congruence). left. eauto. }
  - apply matches_generic; [by apply negb_true_iff|done|lia].
  - apply (matches_structure (fun name => negb (is_atom name))); [done..|]. intros e a He' Ha' Hlt. apply IH; [done..|lia].
Qed.

(** C10: on types without dimensions, packs, type values and unknown or error
    types, unification against a type without parameters is matching.  With
    enough fuel, which the height of the actual type bounds, it returns and
    leaves the arena and the note alone; earlier bindings are kept; when it
    succeeds, substituting the parameters in the expected type gives the
    actual one; and when any instance of the parameters that keeps the earlier
    bindings does so, it succeeds with bindings that this instance contains.
    The parameters are those of the source, not the atoms of the checker, and
    each is unbound at first or bound to such a type.  For dimensions this does
    not hold: [(N, N)] against [(Dyn, Dyn)] is refused ([dyn_not_equal]). *)
Theorem unify_matches fuel expected actual s :
  plain_type expected = true -> ground_type actual = true -> ground_subst s -> height actual + 1 < fuel ->
  exists s' agreed,
    unify_type anonymous disp fuel expected actual (mkUnifier A s note) = Some (mkUnifier A s' note, agreed) /\
    ground_subst s' /\ extends s s' /\
    (agreed = true -> substitute_generics expected s' A = (A, actual)) /\
    (forall r, ground_subst r -> extends s r -> substitute_generics expected r A = (A, actual) ->
       agreed = true /\ extends s' r).
Proof.
  intros He Ha Hs Hf. destruct (matches_plain fuel expected actual He Ha Hf s Hs) as (s' & b & Hu & Hs' & Hx & Hb & Hmin).
  exists s', b. split_and!; try done.
  - intros Hb'. rewrite substitute_generics_inst by done. by rewrite Hb.
  - intros r Hr Hxr. rewrite substitute_generics_inst by done. intros [= Hi]. by apply Hmin.
Qed.
End Match.

(** [fn second<T, U>(a: Vec<T>, b: fn(T) -> U, c: U)] called with a
    [Vec<i64>], a [fn(i64) -> bool] and, in place of [c], a [bool] *)
Lemma unify_matches_witness :
  let expected := TyTuple [TyStruct "Vec" [TyGeneric "T"]; TyFn [TyGeneric "T"] (TyGeneric "U") None false; TyGeneric "U"] in
  let actual := TyTuple [TyStruct "Vec" [TyInt I64]; TyFn [TyInt I64] TyBool None false; TyBool] in
  exists s' agreed,
    unify_type (fun _ => false) ∅ 5 expected actual (mkUnifier arena_default (generic_substitutions ["T"; "U"]) None) =
      Some (mkUnifier arena_default s' None, agreed) /\
    (agreed = true -> substitute_generics expected s' arena_default = (arena_default, actual)) /\ agreed = true.
Proof.
  intros expected actual.
  destruct (unify_matches (fun _ => false) ∅ arena_default None 5 expected actual (generic_substitutions ["T"; "U"]))
    as (s' & agreed & Hu & _ & _ & Hb & Hmin); [reflexivity|reflexivity| |simpl; lia|].
  - intros n ty E. apply elem_of_list_to_map_2 in E. simpl in E. set_solver.
  - exists s', agreed. split_and!; [done..|].
    apply (Hmin {["T" := TyInt I64; "U" := TyBool]}).
    + intros n ty E. right. apply lookup_insert_Some in E as [[_ <-]|[_ E]]; [done|]. by apply lookup_singleton_Some in E as [_ <-].
    + intros n ty E Hn. apply elem_of_list_to_map_2 in E. simpl in E. set_solver.
    + vm_compute. reflexivity.
Defined.

(** Each [Dyn] alone is an instance of [N], and the pair is one of [(N, N)], but
    the two extents need not be equal. *)
Example dyn_not_equal disp A note :
  let N := TyGeneric "N" in let dyn := TyDim DDyn in
  let agreed expected actual :=
    option_map snd (unify_type (fun _ => false) disp 4 expected actual (mkUnifier A (generic_substitutions ["N"]) note)) in
  agreed N dyn = Some true /\ agreed (TyTuple [N; N]) (TyTuple [dyn; dyn]) = Some false.
Proof. done. Qed.

(** ** Parameters of the caller

    In [fn g<T>(x: Vec<T>, y: T)] a call [pick(x, y)] of
    [fn pick<T>(a: T, b: T)] unifies the callee's [T] with the [Vec<T>] and
    then with the [T] of the caller. *)

(** A parameter that is bound to a structure with the same parameter *)
Lemma bound_node anonymous disp unify name existing actual A s note :
  is_atom name = false -> s !! name = Some existing -> is_bound name existing = true ->
  unify_node anonymous disp unify (TyGeneric name) actual (mkUnifier A s note) =
    ('(u, agreed, decayed) ← rebinding_agrees_at anonymous disp unify name existing actual (mkUnifier A s note);
     Some (match decayed with Some decayed => bind_type name decayed u | None => u end, agreed)).
Proof.
  intros Hn Hs Hb. unfold unify_node, bind_expected. cbn [u_subst]. rewrite Hn, Hs, Hb. cbn [negb orb andb].
  destruct actual; try done. by rewrite andb_false_r.
Qed.

Lemma bound_actual_node anonymous disp unify name existing expected A s note :
  (forall n, expected <> TyGeneric n) -> is_atom name = false -> s !! name = Some existing -> is_bound name existing = true ->
  unify_node anonymous disp unify expected (TyGeneric name) (mkUnifier A s note) =
    rebinding_agrees anonymous disp unify name existing expected (mkUnifier A s note).
Proof.
  intros He Hn Hs Hb. unfold unify_node, bind_actual. cbn [u_subst]. rewrite Hn, Hs, Hb. cbn [negb].
  destruct expected; try done. by edestruct He.
Qed.

Definition vec_of (name : string) : Type_ := TyStruct "Vec" [TyGeneric name].

(** Each unification below needs another one of them. *)
Lemma crossed_bindings_diverge disp A s note fuel : forall x y,
  x <> y -> is_atom x = false -> is_atom y = false -> s !! x = Some (vec_of x) -> s !! y = Some (vec_of y) ->
  let run := fun expected actual => unify_type (fun _ => false) disp fuel expected actual (mkUnifier A s note) in
  run (TyGeneric x) (TyGeneric y) = None /\ run (vec_of x) (TyGeneric y) = None /\ run (vec_of x) (vec_of y) = None.
Proof.
  induction fuel as [|fuel IH]; intros x y Hne Hx Hy Ex Ey; [done|].
  destruct (IH x y) as (H1 & H2 & H3); [done..|]. destruct (IH y x) as (_ & _ & H3'); [done..|].
  assert (compatible (vec_of x) (vec_of y) = false) as Hc by (simpl; by rewrite bool_decide_false).
  cbn [unify_type]. split_and!.
  - rewrite (bound_node _ _ _ x (vec_of x)) by done. unfold rebinding_agrees_at. simpl. rewrite H2. done.
  - rewrite (bound_actual_node _ _ _ y (vec_of y)) by done. unfold rebinding_agrees, rebinding_agrees_at.
    cbn [u_arena]. rewrite Hc.
    change (erase_anonymous _ A (vec_of ?n)) with (vec_of n). rewrite Hc. simpl. rewrite H3'. done.
  - simpl. unfold unify_lists. simpl. by rewrite H1.
Qed.

(** Both arguments of [pick] are accepted although [Vec<T>] and [T] are
    different types: the [T] of the caller is looked up among the callee's
    bindings. *)
Theorem unify_captures disp A note :
  let u := mkUnifier A {["T" := vec_of "T"]} note in
  unify_type (fun _ => false) disp 4 (TyGeneric "T") (vec_of "T") (mkUnifier A (generic_substitutions ["T"]) note) = Some (u, true) /\
  unify_type (fun _ => false) disp 4 (TyGeneric "T") (TyGeneric "T") u = Some (u, true).
Proof. done. Qed.

(** A call [f(x, y, z)] of [fn f<T, U>(a: T, b: U, c: T)] with a [Vec<T>], a
    [Vec<U>] and a [U] of the caller: the third argument is not unified with
    any fuel, since each binding leads to the other one. *)
Theorem unify_diverges disp A note fuel :
  let u := mkUnifier A {["T" := vec_of "T"; "U" := vec_of "U"]} note in
  ('(v, _) ← unify_type (fun _ => false) disp 4 (TyGeneric "T") (vec_of "T") (mkUnifier A (generic_substitutions ["T"; "U"]) note);
   unify_type (fun _ => false) disp 4 (TyGeneric "U") (vec_of "U") v) = Some (u, true) /\
  unify_type (fun _ => false) disp fuel (TyGeneric "T") (TyGeneric "U") u = None.
Proof. split; [done|]. by apply crossed_bindings_diverge. Qed.
