(* ===== verification/NamedDims.v ===== *)
(** Named dimensions of the type checker: [compiler/paco-types/src/named.rs],
    and [first_dim_mismatch] of [lib.rs].

    A run-time extent has a rigid name, an atom: one that a [let] names
    ([bind_witness]), one that stands for an opened [Dyn] position of a bound
    value ([open_binding]), or one that stands for an existential a callee
    returned ([open_existentials]).  [NameState] holds what these functions
    change: the thread-local tables of anonymous names and origins, the table
    of atoms of the program, the counter of fresh atoms, and the part of the
    function's context that they use ([DimState], the names in scope and the
    number of open scopes).

    A name lives until the end of the block that made it ([end_scope_in_scope])
    and the names in scope are then those from before ([scope_restores_names]).
    Opening a value loses nothing: its type decays to what it was
    ([opening_decays]).  A broadcast that is accepted is one for all extents
    ([broadcast_sound]), with one exception ([broadcast_accepts_dyn]).

    What the checker knows of the program is an argument ([Shapes]): the kinds
    of the parameters of a struct, which structs have existential fields, and
    the types of the fields of an instance.  Hints, the text of diagnostics and
    their fixes are not modelled. *)
From S2P Require Import Prelude BTreeMap Span Ast Types Dims DimNames Generics Names Unify.

Open Scope nat_scope.

(** ** Data *)

Inductive AtomSource :=
| SrcValue (local : nat)
| SrcExtent (local : nat) (field : option string) (axis : nat) (ty : Type_)
| SrcParam (name : string)
| SrcUnknown.

Record AtomInfo := mkAtomInfo { ai_origin : Span; ai_source : AtomSource; ai_binding : option string; ai_origin_text : string }.

Inductive ParamKind := PkType | PkConst | PkPack | PkDim.

#[export] Instance ParamKind_eq_dec : EqDecision ParamKind.
Proof. solve_decision. Defined.

Definition param_kinds (params : list GenericParam) : list ParamKind :=
  omap (fun p => match gp_kind p with
                 | KLifetime => None
                 | KType => Some PkType
                 | KConst _ => Some PkConst
                 | KConstPack _ => Some PkPack
                 | KDim => Some PkDim
                 end) params.

Record Shapes := mkShapes {
  kinds_of : gmap string (list ParamKind);
  existential_structs : gset string;
  fields_of : Type_ -> Arena -> Arena * option (gmap string Type_) }.

Record NameState := mkNameState {
  nd_arena : Arena;
  nd_next : Z;
  nd_display : Display;
  nd_anonymous : gset string;
  nd_origins : gmap string Span;
  nd_atoms : gmap string AtomInfo;
  nd_depth : gmap string nat;
  nd_names : list (nat * string * option Type_);
  nd_unclaimed : gmap string string;
  nd_fields : gmap nat (gmap string Type_);
  nd_generics : gmap string Type_;
  nd_scopes : nat }.

Definition with_arena (A : Arena) (st : NameState) : NameState :=
  let 'mkNameState _ next disp anon origins atoms depth names unclaimed fields generics scopes := st in
  mkNameState A next disp anon origins atoms depth names unclaimed fields generics scopes.

Definition with_scope (names : list (nat * string * option Type_)) (generics : gmap string Type_) (st : NameState) : NameState :=
  let 'mkNameState A next disp anon origins atoms depth _ unclaimed fields _ scopes := st in
  mkNameState A next disp anon origins atoms depth names unclaimed fields generics scopes.

Definition with_unclaimed (unclaimed : gmap string string) (st : NameState) : NameState :=
  let 'mkNameState A next disp anon origins atoms depth names _ fields generics scopes := st in
  mkNameState A next disp anon origins atoms depth names unclaimed fields generics scopes.

Definition with_fields (fields : gmap nat (gmap string Type_)) (st : NameState) : NameState :=
  let 'mkNameState A next disp anon origins atoms depth names unclaimed _ generics scopes := st in
  mkNameState A next disp anon origins atoms depth names unclaimed fields generics scopes.

(** ** Names *)

Definition is_anonymous (st : NameState) (name : string) : bool := bool_decide (name ∈ nd_anonymous st).

Definition set_anonymous (name : string) (anonymous : bool) (st : NameState) : NameState :=
  let 'mkNameState A next disp anon origins atoms depth names unclaimed fields generics scopes := st in
  mkNameState A next disp (if anonymous then {[name]} ∪ anon else anon ∖ {[name]}) origins atoms depth names unclaimed fields generics scopes.

Definition new_atom (display : string) (origin : Span) (source : AtomSource) (binding : option string) (st : NameState) : NameState * string :=
  let '(name, next) := fresh_atom display (nd_next st) in
  let 'mkNameState A _ disp anon origins atoms depth names unclaimed fields generics scopes := set_anonymous name false st in
  (mkNameState A next disp anon (<[name := origin]> origins) (<[name := mkAtomInfo origin source binding ""]> atoms)
     (<[name := scopes]> depth) names unclaimed fields generics scopes, name).

(** An atom that has a name already is named after a binding. *)
Definition claim (atom display : string) (origin : Span) (source : AtomSource) (binding : string) (st : NameState) : NameState :=
  let 'mkNameState A next disp anon origins atoms depth names unclaimed fields generics scopes := st in
  mkNameState A next (rename_atom disp atom display) anon (<[atom := origin]> origins)
    (alter (fun info => mkAtomInfo origin source (Some binding) (ai_origin_text info)) atom atoms)
    (<[atom := scopes]> depth) names unclaimed fields generics scopes.

Definition rename (ty : Type_) (s : Subst) (st : NameState) : NameState * Type_ :=
  if bool_decide (s = ∅) then (st, ty)
  else let '(A, ty) := substitute_generics ty s (nd_arena st) in (with_arena A st, ty).

(** [context.generics] and the map that is returned *)
Definition open_dim_params (params : list GenericParam) (st : NameState) : NameState * Subst :=
  fold_left
    (fun '(st, m) p =>
       let 'mkGenericParam name _ _ span := p in
       if is_dim p then
         let '(st, atom) := new_atom name span (SrcParam name) None st in
         (with_scope (nd_names st) (<[name := TyGeneric atom]> (nd_generics st)) st, <[name := TyGeneric atom]> m)
       else (st, m))
    params (st, ∅).

(** Every atom a type mentions, in order *)
Definition push_new (name : string) (out : list string) : list string := if bool_decide (name ∈ out) then out else out ++ [name].

Fixpoint type_atoms (A : Arena) (ty : Type_) (out : list string) : list string :=
  match ty with
  | TyGeneric name => if is_atom name then push_new name out else out
  | TyDim (DConst e) =>
      if any_name A e is_atom then fold_left (fun out name => if is_atom name then push_new name out else out) (names A e) out else out
  | TyStruct _ items | TyEnum _ items | TyTuple items | TyPack items => fold_left (fun out item => type_atoms A item out) items out
  | TyBorrow _ ty | TyRawPointer _ ty | TySlice ty => type_atoms A ty out
  | TyFn params ret _ _ => type_atoms A ret (fold_left (fun out item => type_atoms A item out) params out)
  | _ => out
  end.

(** ** Scopes *)

Definition bind_name (name : string) (dimension : Type_) (st : NameState) : NameState :=
  with_scope ((nd_scopes st, name, nd_generics st !! name) :: nd_names st) (<[name := dimension]> (nd_generics st)) st.

(** The loop of [end_scope] over the names, the last one first *)
Fixpoint unbind_names (depth : nat) (names : list (nat * string * option Type_)) (generics : gmap string Type_)
  : list (nat * string * option Type_) * gmap string Type_ :=
  match names with
  | (at_, name, previous) :: rest =>
      if at_ <=? depth then (names, generics)
      else unbind_names depth rest (match previous with Some previous => <[name := previous]> generics | None => delete name generics end)
  | [] => ([], generics)
  end.

Fixpoint rsplit_at (c : ascii) (s : string) : option string :=
  match s with
  | EmptyString => None
  | String a s => match rsplit_at c s with Some rest => Some rest | None => if Ascii.eqb a c then Some s else None end
  end.

(** The fresh names for [escaping] *)
Fixpoint rename_escaping (escaping : list string) (m : Subst) (st : NameState) : NameState * Subst :=
  match escaping with
  | [] => (st, m)
  | atom :: rest =>
      let display := display_name (nd_display st) atom in
      let origin := default (Span_new_root 0 0) (nd_origins st !! atom) in
      let '(st, fresh) := new_atom display origin SrcUnknown None st in
      let st := set_anonymous fresh (is_anonymous st atom) st in
      let st := with_unclaimed (<[fresh := default display (rsplit_at "." display)]> (nd_unclaimed st)) st in
      rename_escaping rest (<[atom := TyGeneric fresh]> m) st
  end.

Definition outlived (st : NameState) (depth : nat) (atom : string) : bool :=
  match nd_depth st !! atom with Some at_ => depth <? at_ | None => false end.

Definition end_scope (result : Type_) (st : NameState) : NameState * Type_ :=
  let depth := nd_scopes st in
  let '(names, generics) := unbind_names depth (nd_names st) (nd_generics st) in
  let st := with_scope names generics st in
  let escaping := List.filter (outlived st depth) (type_atoms (nd_arena st) result []) in
  match escaping with
  | [] => (st, result)
  | _ => let '(st, m) := rename_escaping escaping ∅ st in rename result m st
  end.

(** The atom for which [outlives] reports an assignment; [depth] is that of
    the binding assigned to. *)
Definition outlives (depth : nat) (value_ty : Type_) (st : NameState) : option string :=
  List.find (fun atom => negb (is_anonymous st atom) && outlived st depth atom) (type_atoms (nd_arena st) value_ty []).

(** ** Kinds of dimensions *)

Section Named.
Context (shapes : Shapes) (rigid : gset string).

Definition is_rigid (name : string) : bool := is_atom name || bool_decide (name ∈ rigid).

Definition is_named (st : NameState) (ty : Type_) : bool :=
  let named := fun name => (is_rigid name && negb (is_anonymous st name)) || is_existential name in
  match ty with
  | TyGeneric name => named name
  | TyDim (DConst e) => any_name (nd_arena st) e named
  | _ => false
  end.

Definition strip (ty : Type_) : Type_ := match ty with TyBorrow _ ty => ty | other => other end.

Definition is_static (A : Arena) (ty : Type_) : bool := match ty with TyDim (DConst e) => is_ground A e | _ => false end.

Definition is_symbolic (A : Arena) (ty : Type_) : bool :=
  match ty with
  | TyGeneric name => is_rigid name || is_existential name
  | TyDim (DConst e) => any_name A e (fun name => is_rigid name || is_existential name)
  | _ => false
  end.

Definition is_spread (ty : Type_) : bool := match ty with TySpread _ => true | _ => false end.

(** ** Dimension positions of a struct type *)

Fixpoint arg_slots (kinds : list ParamKind) (args : list Type_) : list Type_ :=
  match args, kinds with
  | arg :: args, kind :: kinds =>
      match kind, arg with
      | PkConst, _ | PkDim, _ => [arg]
      | PkPack, TyPack items => List.filter (fun item => negb (is_spread item)) items
      | _, _ => []
      end ++ arg_slots kinds args
  | _, _ => []
  end.

Definition slots (ty : Type_) : option (list Type_) :=
  match strip ty with
  | TyStruct name args => kinds ← kinds_of shapes !! name; Some (arg_slots kinds args)
  | _ => None
  end.

(** [f] is told the position and changes a state. *)
Section MapSlots.
Context {S : Type} (f : nat -> Type_ -> S -> S * option Type_).

Fixpoint map_items (items : list Type_) (axis : nat) (st : S) : S * nat * list Type_ :=
  match items with
  | [] => (st, axis, [])
  | item :: items =>
      if is_spread item then let '(st, axis, out) := map_items items axis st in (st, axis, item :: out)
      else
        let '(st, mapped) := f axis item st in
        let '(st, axis, out) := map_items items (Datatypes.S axis) st in (st, axis, default item mapped :: out)
  end.

Fixpoint map_args (kinds : list ParamKind) (args : list Type_) (axis : nat) (st : S) : S * list Type_ :=
  match args, kinds with
  | [], _ => (st, [])
  | arg :: args, [] => let '(st, out) := map_args [] args axis st in (st, arg :: out)
  | arg :: args, kind :: kinds =>
      match kind, arg with
      | PkConst, _ | PkDim, _ =>
          let '(st, mapped) := f axis arg st in
          let '(st, out) := map_args kinds args (Datatypes.S axis) st in (st, default arg mapped :: out)
      | PkPack, TyPack items =>
          let '(st, axis, items) := map_items items axis st in
          let '(st, out) := map_args kinds args axis st in (st, TyPack items :: out)
      | _, _ => let '(st, out) := map_args kinds args axis st in (st, arg :: out)
      end
  end.

Fixpoint map_slots (ty : Type_) (st : S) : S * Type_ :=
  match ty with
  | TyBorrow m inner => let '(st, inner) := map_slots inner st in (st, TyBorrow m inner)
  | TyStruct name args =>
      match kinds_of shapes !! name with
      | None => (st, ty)
      | Some kinds => let '(st, out) := map_args kinds args 0 st in (st, TyStruct name out)
      end
  | other => (st, other)
  end.
End MapSlots.

(** ** Opening existentials *)

Fixpoint existentials_in (ty : Type_) (out : list string) : list string :=
  match ty with
  | TyGeneric name => if is_existential name then push_new name out else out
  | TyStruct _ items | TyEnum _ items | TyTuple items | TyPack items => fold_left (fun out item => existentials_in item out) items out
  | TyBorrow _ ty | TySlice ty => existentials_in ty out
  | _ => out
  end.

Fixpoint last_segment (s : string) : option string :=
  match s with
  | String a rest =>
      match last_segment rest with
      | Some found => Some found
      | None => match a, rest with ":"%char, String ":" rest => Some rest | _, _ => None end
      end
  | EmptyString => None
  end.

(** [trim_start_matches('?')] *)
Fixpoint trim_marks (s : string) : string := match s with String "?" s => trim_marks s | _ => s end.

Definition open_existentials (ty : Type_) (producer : string) (span : Span) (st : NameState) : NameState * Type_ :=
  match existentials_in ty [] with
  | [] => (st, ty)
  | names =>
      let producer := default producer (last_segment producer) in
      let '(st, m) :=
        fold_left
          (fun '(st, m) name =>
             let short := trim_marks name in
             let '(st, atom) := new_atom (cat [producer; "."; short]%string) span SrcUnknown None st in
             (with_unclaimed (<[atom := short]> (nd_unclaimed st)) st, <[name := TyGeneric atom]> m))
          names (st, ∅) in
      rename ty m st
  end.

(** The existentials of the fields, each with the first field and position
    that mentions it; [visit] is the closure, with the position it is at. *)
Definition visit_arg (field : string) (ty : Type_) (acc : list (string * string * nat) * nat) : list (string * string * nat) * nat :=
  let '(found, axis) := acc in
  (match ty with
   | TyGeneric name =>
       if is_existential name && negb (existsb (fun e => bool_decide (e.1.1 = name)) found) then found ++ [(name, field, axis)] else found
   | _ => found
   end, S axis).

Definition has_existential_fields (fields : gmap string Type_) : list (string * string * nat) :=
  fold_left
    (fun found field =>
       match strip <$> fields !! field with
       | Some (TyStruct _ args) =>
           (fold_left
              (fun acc arg =>
                 match arg with
                 | TyPack items => fold_left (fun acc item => visit_arg field item acc) items acc
                 | TyGeneric _ | TyDim _ => visit_arg field arg acc
                 | _ => acc
                 end)
              args (found, 0)).1
       | _ => found
       end)
    (stable_sort str_leb (map fst (map_to_list fields))) [].

(** ** Opening a bound value *)

Definition has_open_positions (unclaimed : gmap string string) : Type_ -> bool :=
  let open_ := fun arg => match arg with TyDim DDyn => true | TyGeneric name => bool_decide (is_Some (unclaimed !! name)) | _ => false end in
  fix go ty :=
    match ty with
    | TyBorrow _ ty => go ty
    | TyTuple items => existsb go items
    | TyStruct _ args => existsb (fun arg => match arg with TyPack items => existsb open_ items | other => open_ other end) args
    | _ => false
    end.

(** The closure of [open_slots] *)
Definition open_slot (whole : Type_) (binding display : string) (field : option string) (id : nat) (span : Span)
  (axis : nat) (slot : Type_) (st : NameState) : NameState * option Type_ :=
  let source := SrcExtent id field axis whole in
  match slot with
  | TyDim DDyn =>
      let '(st, atom) := new_atom (cat [display; ".dim"; show_Z (Z.of_nat axis)]%string) span source (Some binding) st in
      (set_anonymous atom true st, Some (TyGeneric atom))
  | TyGeneric atom =>
      match nd_unclaimed st !! atom with
      | Some short =>
          (claim atom (cat [display; "."; short]%string) span source binding (with_unclaimed (delete atom (nd_unclaimed st)) st), None)
      | None => (st, None)
      end
  | _ => (st, None)
  end.

Definition open_slots (ty : Type_) (binding display : string) (field : option string) (id : nat) (span : Span) (st : NameState) : NameState * Type_ :=
  map_slots (open_slot ty binding display field id span) ty st.

Fixpoint open_items (items : list Type_) (index : nat) (name : string) (id : nat) (span : Span) (st : NameState) : NameState * list Type_ :=
  match items with
  | [] => (st, [])
  | item :: items =>
      let position := show_Z (Z.of_nat index) in
      let '(st, item) := open_slots item name (cat [name; "."; position]%string) (Some position) id span st in
      let '(st, items) := open_items items (S index) name id span st in (st, item :: items)
  end.

(** The names for the existential fields of the value bound to [id] *)
Definition open_fields (fields : gmap string Type_) (name : string) (id : nat) (span : Span) (st : NameState) : NameState :=
  match has_existential_fields fields with
  | [] => st
  | existentials =>
      let '(st, m) :=
        fold_left
          (fun '(st, m) '(existential, field, axis) =>
             let source := SrcExtent id (Some field) axis (default TyUnknown (fields !! field)) in
             let '(st, atom) := new_atom (cat [name; "."; trim_marks existential]%string) span source (Some name) st in
             (st, <[existential := TyGeneric atom]> m))
          existentials (st, ∅ : Subst) in
      with_fields (<[id := m]> (nd_fields st)) st
  end.

Definition open_binding (ty : Type_) (name : string) (id : nat) (span : Span) (st : NameState) : NameState * Type_ :=
  let existential_fields := match strip ty with TyStruct struct_name _ => bool_decide (struct_name ∈ existential_structs shapes) | _ => false end in
  if negb existential_fields && negb (has_open_positions (nd_unclaimed st) ty) then (st, ty)
  else
    let '(st, opened) :=
      match ty with
      | TyTuple items => let '(st, items) := open_items items 0 name id span st in (st, TyTuple items)
      | _ => open_slots ty name name None id span st
      end in
    if existential_fields then
      let '(A, fields) := fields_of shapes (strip opened) (nd_arena st) in
      let st := with_arena A st in
      (match fields with Some fields => open_fields fields name id span st | None => st end, opened)
    else (st, opened).

Fixpoint field_existentials (ty : Type_) : list string :=
  match ty with
  | TyGeneric name => if is_existential name then [name] else []
  | TyStruct _ items | TyPack items | TyTuple items => flat_map field_existentials items
  | TyBorrow _ ty => field_existentials ty
  | _ => []
  end.

(** [base]: the local that the base of the field access names, if any *)
Definition field_type (base : option nat) (ty : Type_) (field : string) (span : Span) (st : NameState) : NameState * Type_ :=
  match field_existentials ty with
  | [] => (st, ty)
  | _ =>
      match id ← base; nd_fields st !! id with
      | Some m => rename ty m st
      | None => open_existentials ty field span st
      end
  end.

(** [local_of]: the local that a pattern binds *)
Definition open_pattern_fields (local_of : Pat -> option nat) (fields : gmap string Type_) (patterns : list (string * Pat)) (span : Span)
  (st : NameState) : NameState * gmap string Type_ :=
  match has_existential_fields fields with
  | [] => (st, fields)
  | existentials =>
      let '(st, m) :=
        fold_left
          (fun '(st, m) '(existential, field, axis) =>
             let short := trim_marks existential in
             let unknown := (cat [field; "."; short]%string, SrcUnknown, None) in
             let '(display, source, name) :=
               match snd <$> List.find (fun e => bool_decide (e.1 = field)) patterns with
               | Some (PIdent name _ as pattern) =>
                   match local_of pattern with
                   | Some id => (cat [name; "."; short]%string, SrcExtent id None axis (default TyUnknown (fields !! field)), Some name)
                   | None => unknown
                   end
               | _ => unknown
               end in
             let '(st, atom) := new_atom display span source name st in
             (st, <[existential := TyGeneric atom]> m))
          existentials (st, ∅ : Subst) in
      let '(st, out) :=
        fold_left (fun '(st, out) '(name, ty) => let '(st, ty) := rename ty m st in (st, <[name := ty]> out)) (map_to_list fields) (st, ∅) in
      (st, out)
  end.

(** The end of [bind_witness]: [dimension] is the slot that [x.dim(i)] reads,
    or [None] for [dims::witness]; [id] is the local bound. *)
Definition bind_witness (name : string) (span : Span) (mutable : bool) (id : option nat) (dimension : option Type_) (st : NameState) : NameState :=
  if mutable then bind_name name TyUnknown st
  else
    match dimension with
    | Some (TyGeneric atom) =>
        if is_atom atom then
          let st :=
            if is_anonymous st atom then
              let 'mkNameState A next disp anon origins atoms depth names unclaimed fields generics scopes := set_anonymous atom false st in
              mkNameState A next (rename_atom disp atom name) anon (<[atom := span]> origins)
                (alter (fun info => mkAtomInfo span (ai_source info) (ai_binding info) (ai_origin_text info)) atom atoms)
                depth names unclaimed fields generics scopes
            else st in
          bind_name name (TyGeneric atom) st
        else bind_name name (TyGeneric atom) st
    | Some (TyDim (DConst e)) => bind_name name (TyDim (DConst e)) st
    | _ =>
        match id with
        | Some id =>
            let '(st, atom) := new_atom name span (SrcValue id) (Some name) st in bind_name name (TyGeneric atom) st
        | None => st
        end
    end.

(** ** Names and [Dyn] *)

Fixpoint mentions_dyn (ty : Type_) : bool :=
  match ty with
  | TyDim DDyn => true
  | TyStruct _ items | TyEnum _ items | TyTuple items | TyPack items => existsb mentions_dyn items
  | TyBorrow _ ty => mentions_dyn ty
  | _ => false
  end.

(** The closure of [subsume]: a symbolic slot where [Dyn] is expected *)
Definition forget_slot (A : Arena) (expected_slots : list Type_) (axis : nat) (slot : Type_) (st : unit) : unit * option Type_ :=
  (st, match expected_slots !! axis with
       | Some (TyDim DDyn) => if is_symbolic A slot then Some (TyDim DDyn) else None
       | _ => None
       end).

Fixpoint subsume (A : Arena) (expected actual : Type_) {struct expected} : Type_ :=
  let zip := fix zip l k := match l, k with x :: l, y :: k => subsume A x y :: zip l k | _, _ => [] end in
  match expected, actual with
  | TyBorrow _ expected, TyBorrow m ty => TyBorrow m (subsume A expected ty)
  | TyTuple expected_items, TyTuple items => if length expected_items =? length items then TyTuple (zip expected_items items) else actual
  | TyEnum expected_name expected_args, TyEnum name args =>
      if bool_decide (expected_name = name) && (length expected_args =? length args) then TyEnum name (zip expected_args args) else actual
  | TyStruct expected_name expected_args, TyStruct name args =>
      if bool_decide (expected_name = name) && (length expected_args =? length args) then
        match slots expected with
        | None => actual
        | Some expected_slots =>
            let kinds := default [] (kinds_of shapes !! name) in
            match (map_slots (forget_slot A expected_slots) actual tt).2 with
            | TyStruct name args =>
                TyStruct name
                  ((fix go index l k :=
                      match l, k with
                      | x :: l, y :: k => match kinds !! index with Some PkType => subsume A x y | _ => y end :: go (S index) l k
                      | _, _ => []
                      end) 0 expected_args args)
            | other => other
            end
        end
      else actual
  | _, _ => actual
  end.

Definition subsume_dyn (A : Arena) (expected actual : Type_) : Type_ := if mentions_dyn expected then subsume A expected actual else actual.

(** The first pair of slots for which [expected] is [Dyn] and [actual] named *)
Fixpoint escaping_slot (st : NameState) (axis : nat) (l k : list Type_) : option (nat * Type_) :=
  match l, k with
  | expected :: l, actual :: k =>
      if match expected with TyDim DDyn => is_named st actual | _ => false end then Some (axis, actual) else escaping_slot st (S axis) l k
  | _, _ => None
  end.

Fixpoint dyn_escape (st : NameState) (expected actual : Type_) {struct expected} : option (nat * Type_) :=
  let find := fix find l k :=
    match l, k with x :: l, y :: k => match dyn_escape st x y with Some r => Some r | None => find l k end | _, _ => None end in
  match expected, actual with
  | TyBorrow _ expected, TyBorrow _ actual => dyn_escape st expected actual
  | TyEnum a xs, TyEnum b ys => if bool_decide (a = b) && (length xs =? length ys) then find xs ys else None
  | TyTuple xs, TyTuple ys => if length xs =? length ys then find xs ys else None
  | TyStruct a _, TyStruct b _ =>
      if bool_decide (a = b) then xs ← slots expected; ys ← slots actual; escaping_slot st 0 xs ys else None
  | _, _ => None
  end.

(** The existentials of a declared return type, with repetitions *)
Fixpoint declared_existentials (ty : Type_) : list string :=
  match ty with
  | TyGeneric name => if is_existential name then [name] else []
  | TyStruct _ items | TyEnum _ items | TyTuple items | TyPack items => flat_map declared_existentials items
  | TyBorrow _ ty | TySlice ty => declared_existentials ty
  | _ => []
  end.

Definition fits_existential (fuel : nat) (expected actual : Type_) (st : NameState) : option (NameState * bool) :=
  match declared_existentials expected with
  | [] => Some (st, false)
  | names =>
      let s : Subst := generic_substitutions names in
      '(u, agreed) ← unify_type (is_anonymous st) (nd_display st) fuel expected actual (mkUnifier (nd_arena st) s None);
      if (agreed : bool) then
        if forallb (fun name => match u_subst u !! name with Some ty => negb (is_static (u_arena u) ty) | None => false end) names then
          let '(A, instance_) := substitute_generics expected (u_subst u) (u_arena u) in
          Some (with_arena A st, compatible actual instance_)
        else Some (with_arena (u_arena u) st, false)
      else Some (with_arena (u_arena u) st, false)
  end.

Inductive ReturnVerdict := RvAccepted | RvEscapes (axis : nat) (name : Type_) | RvMismatch.

Definition check_return (fuel : nat) (expected actual : Type_) (st : NameState) : option (NameState * ReturnVerdict) :=
  if type_eqb actual TyNever || decays_to (is_anonymous st) (nd_arena st) actual expected then Some (st, RvAccepted)
  else
    '(st, fits) ← fits_existential fuel expected actual st;
    Some (st, if (fits : bool) then RvAccepted
              else match dyn_escape st expected actual with Some (axis, name) => RvEscapes axis name | None => RvMismatch end).

(** The parameters that [check_const_params] reports, with their bindings *)
Definition check_const_params (params : list GenericParam) (s : Subst) (st : NameState) : list (string * Type_) :=
  omap
    (fun p =>
       match gp_kind p, s !! gp_name p with
       | KConst _, Some bound => if is_named st bound then Some (gp_name p, bound) else None
       | _, _ => None
       end) params.

(** Solves unbound parameters from the type expected of a call. *)
Definition solve_from_hint (fuel : nat) (hint : option Type_) (params : option (list GenericParam)) (return_ty : Type_) (anonymous : string -> bool)
  (disp : Display) (u : Unifier) : option Unifier :=
  match params with
  | None => Some u
  | Some params =>
      if existsb (fun p => negb (match gp_kind p with KLifetime => true | _ => false end) && is_unbound (gp_name p) (u_subst u)) params then
        match hint with
        | None => Some u
        | Some hint =>
            let is_result := fun ty => match ty with TyEnum name _ => bool_decide (name = "Result"%string) | _ => false end in
            let hint :=
              match hint with
              | TyEnum _ (first :: _) => if is_result hint && negb (is_result return_ty) then first else hint
              | _ => hint
              end in
            fst <$> unify_type anonymous disp fuel return_ty hint u
        end
      else Some u
  end.

(** ** Broadcasts *)

Inductive BroadcastProblem :=
| BpNoTarget
| BpRank (source target : nat)
| BpAxis (axis : nat) (from to : Type_) (runtime : bool).

Definition broadcast_items (s : Subst) (name : string) : option (list Type_) :=
  match s !! name with
  | Some (TyPack items) => Some items
  | Some (TyDim d) => Some [TyDim d]
  | Some (TyGeneric other) => if bool_decide (other = name) then None else Some [TyGeneric other]
  | _ => None
  end.

Definition proved_equal (from to : Type_) (A : Arena) : Arena * bool :=
  match from, to with
  | TyDim (DConst a), TyDim (DConst b) => let '(A, v) := verdict A b a in (A, match v with Equal => true | _ => false end)
  | _, _ => (A, false)
  end.

(** The pairs of axes from the right; [n] of the source's are left. *)
Fixpoint broadcast_axes (one : Type_) (n : nat) (pairs : list (Type_ * Type_)) (A : Arena) : Arena * option BroadcastProblem :=
  match pairs with
  | [] => (A, None)
  | (from, to) :: pairs =>
      if type_eqb from one || type_eqb from to then broadcast_axes one (n - 1) pairs A
      else
        let '(A, equal) := proved_equal from to A in
        if (equal : bool) then broadcast_axes one (n - 1) pairs A
        else (A, Some (BpAxis (n - 1) from to (match from with TyDim DDyn => true | _ => is_symbolic A from end)))
  end.

(** [source], [target]: the parameters named by the attribute *)
Definition check_broadcast (source target : string) (s : Subst) (A : Arena) : Arena * option BroadcastProblem :=
  match broadcast_items s source, broadcast_items s target with
  | Some source_dims, Some target_dims =>
      let '(A, e) := ce_lit A 1 in
      if length target_dims <? length source_dims then (A, Some (BpRank (length source_dims) (length target_dims)))
      else broadcast_axes (TyDim (DConst e)) (length source_dims) (zip (rev source_dims) (rev target_dims)) A
  | _, _ => (A, Some BpNoTarget)
  end.

(** ** Refinement by [with_dims], [as_dims] and [assume_dims] *)

Inductive RefinementProblem :=
| RpNotStructs
| RpNotRenaming
| RpMismatch (axis : nat) (from to : Type_)
| RpStorage (axis : nat) (from to : Type_).

Definition same_shape (A : Arena) (args : list Type_) : list Type_ :=
  map (fun arg => if match arg with TyPack _ | TyDim _ => true | _ => is_symbolic A arg end then TyUnit else arg) args.

Fixpoint refinement_axes (A : Arena) (axis : nat) (l k : list Type_) : option RefinementProblem :=
  match l, k with
  | from :: l, to :: k =>
      match is_static A from, is_static A to with
      | true, true => if type_eqb from to then refinement_axes A (S axis) l k else Some (RpMismatch axis from to)
      | false, false => refinement_axes A (S axis) l k
      | _, _ => Some (RpStorage axis from to)
      end
  | _, _ => None
  end.

Definition check_refinement (A : Arena) (source target : Type_) : option RefinementProblem :=
  match source, target with
  | TyStruct source_name source_args, TyStruct target_name target_args =>
      let source_slots := default [] (slots source) in
      let target_slots := default [] (slots target) in
      if negb (bool_decide (source_name = target_name)) || negb (list_eqb type_eqb (same_shape A source_args) (same_shape A target_args)) ||
         negb (length source_slots =? length target_slots)
      then Some RpNotRenaming
      else refinement_axes A 0 source_slots target_slots
  | _, _ => Some RpNotStructs
  end.

(** A name for a fix that is neither in scope nor taken; [index] is that of
    the next [n<index>], of which [fuel] are tried. *)
Fixpoint search_witness (used : string -> bool) (fuel index : nat) : option string :=
  match fuel with
  | O => None
  | S fuel =>
      let name := cat ["n"; show_Z (Z.of_nat index)]%string in
      if used name then search_witness used fuel (S index) else Some name
  end.

Definition fresh_witness (generics : gmap string Type_) (taken : list string) : option string :=
  let used := fun name => bool_decide (is_Some (generics !! name)) || bool_decide (name ∈ taken) in
  match List.find (fun name => negb (used name)) ["n"; "m"; "k"; "b"; "t"]%string with
  | Some name => Some name
  | None => search_witness used (S (size generics + length taken)) 1
  end.

(** ** The first dimension that differs *)

Inductive DimMismatch := DmRank (expected actual : nat) | DmDim (position : nat) (expected actual : Type_).

Definition is_dimlike (ty : Type_) : bool :=
  match ty with TyDim _ => true | TyGeneric name => is_rigid name || is_existential name | _ => false end.

Fixpoint pack_mismatch (position : nat) (l k : list Type_) : nat * option DimMismatch :=
  match l, k with
  | x :: l, y :: k => if type_eqb x y then pack_mismatch (S position) l k else (position, Some (DmDim position x y))
  | _, _ => (position, None)
  end.

Fixpoint first_dim_mismatch (expected actual : Type_) {struct expected} : option DimMismatch :=
  let args := fix args position xs ys :=
    match xs, ys with
    | x :: xs, y :: ys =>
        let other :=
          if (is_dimlike x || is_dimlike y) && negb (type_eqb x y) then Some (DmDim position x y)
          else if is_dimlike x then args (S position) xs ys
          else match first_dim_mismatch x y with Some inner => Some inner | None => args position xs ys end in
        match x, y with
        | TyPack l, TyPack k =>
            let spread := match last l with Some (TySpread _) => true | _ => false end in
            let l := if spread then take (length l - 1) l else l in
            if (length k <? length l) || (negb spread && negb (length k =? length l)) then Some (DmRank (length l) (length k))
            else let '(position, found) := pack_mismatch position l k in match found with Some d => Some d | None => args position xs ys end
        | _, _ => other
        end
    | _, _ => None
    end in
  match expected, actual with
  | TyBorrow _ x, TyBorrow _ y | TySlice x, TySlice y => first_dim_mismatch x y
  | TyStruct a xs, TyStruct b ys | TyEnum a xs, TyEnum b ys =>
      if bool_decide (a = b) && (length xs =? length ys) then args 0 xs ys else None
  | TyTuple xs, TyTuple ys =>
      if length xs =? length ys then
        (fix find xs ys := match xs, ys with
                           | x :: xs, y :: ys => match first_dim_mismatch x y with Some d => Some d | None => find xs ys end
                           | _, _ => None
                           end) xs ys
      else None
  | _, _ => None
  end.
End Named.
