(* ===== verification/NamedThms.v ===== *)
(** Theorems about the named dimensions of the type checker ([NamedDims]):
    scopes, opening and broadcasts. *)
From S2P Require Import Prelude BTreeMap Span Ast Types Dims DimNames Generics Names Unify NamedDims.

Open Scope nat_scope.

(** ** The names of a type *)

(** The dimensions of the type exist, every name in it satisfies [P], and
    packs are spread by ordinary parameters; a [type] value is not looked into,
    as in the code. *)
Fixpoint type_in (A : Arena) (P : string -> Prop) (ty : Type_) : Prop :=
  let all := fix all l := match l with [] => True | t :: l => type_in A P t /\ all l end in
  match ty with
  | TyGeneric n => P n
  | TySpread n => P n /\ is_atom n = false
  | TyDim (DConst e) => valid A (ce_poly e) /\ names_in A P (ce_poly e)
  | TyStruct _ items | TyEnum _ items | TyTuple items | TyPack items => all items
  | TyBorrow _ ty | TyRawPointer _ ty | TySlice ty => type_in A P ty
  | TyFn params ret _ _ => all params /\ type_in A P ret
  | _ => True
  end.

Lemma type_in_list A P l : (fix all l := match l with [] => True | t :: l => type_in A P t /\ all l end) l <-> Forall (type_in A P) l.
Proof. induction l as [|t l IH]; [by split; constructor|]. rewrite IH. split; [by intros []; constructor|by inversion 1]. Qed.

Lemma type_in_eq A P ty :
  type_in A P ty <->
  match ty with
  | TyGeneric n => P n
  | TySpread n => P n /\ is_atom n = false
  | TyDim (DConst e) => valid A (ce_poly e) /\ names_in A P (ce_poly e)
  | TyStruct _ items | TyEnum _ items | TyTuple items | TyPack items => Forall (type_in A P) items
  | TyBorrow _ ty | TyRawPointer _ ty | TySlice ty => type_in A P ty
  | TyFn params ret _ _ => Forall (type_in A P) params /\ type_in A P ret
  | _ => True
  end.
Proof. destruct ty; cbn [type_in]; rewrite ?type_in_list; done. Qed.

Lemma type_in_le A B P ty : arena_ok A -> arena_le A B -> type_in A P ty -> type_in B P ty.
Proof.
  intros HA Hle. assert (forall l, list_all Type_ (fun t => type_in A P t -> type_in B P t) l -> Forall (type_in A P) l -> Forall (type_in B P) l) as Hl.
  { intros l Hl%list_all_Forall H. rewrite Forall_forall in *. auto. }
  type_induction ty; rewrite (type_in_eq A), (type_in_eq B); auto.
  - intros [??]. auto.
  - destruct dm as [e|]; [|done]. intros [Hv Hn]. split; [by eapply valid_le|]. by apply (names_in_le A B).
Qed.

Lemma type_in_mono A P Q ty : (forall n, P n -> Q n) -> type_in A P ty -> type_in A Q ty.
Proof.
  intros HPQ. assert (forall l, list_all Type_ (fun t => type_in A P t -> type_in A Q t) l -> Forall (type_in A P) l -> Forall (type_in A Q) l) as Hl.
  { intros l Hl%list_all_Forall H. rewrite Forall_forall in *. auto. }
  type_induction ty; rewrite (type_in_eq A P), (type_in_eq A Q); auto.
  - intros [??]. auto.
  - destruct dm as [e|]; [|done]. intros [Hv Hn]. split; [done|]. intros n Hm. auto.
  - intros [??]. auto.
Qed.

(** ** The atoms listed *)

Lemma push_new_elem name out n : n ∈ push_new name out <-> n ∈ out \/ n = name.
Proof. unfold push_new. case_bool_decide; [split; [by left|by intros [?| ->]]|]. by rewrite elem_of_app, list_elem_of_singleton. Qed.

Lemma push_atom_elem name out n :
  n ∈ (if is_atom name then push_new name out else out) <-> n ∈ out \/ (n = name /\ is_atom n = true).
Proof.
  destruct (is_atom name) eqn:E; rewrite ?push_new_elem.
  - split; [intros [?| ->]; auto|intros [?|[-> ?]]; auto].
  - split; [auto|intros [?|[-> ?]]; [done|congruence]].
Qed.

(** An atom is listed exactly when it occurs, not counting spreads. *)
Fixpoint occurs (A : Arena) (ty : Type_) (n : string) : Prop :=
  let any := fix any l := match l with [] => False | t :: l => occurs A t n \/ any l end in
  match ty with
  | TyGeneric m => n = m
  | TyDim (DConst e) => mentions A (ce_poly e) n
  | TyStruct _ items | TyEnum _ items | TyTuple items | TyPack items => any items
  | TyBorrow _ ty | TyRawPointer _ ty | TySlice ty => occurs A ty n
  | TyFn params ret _ _ => any params \/ occurs A ret n
  | _ => False
  end.

Lemma occurs_list A l n :
  (fix any l := match l with [] => False | t :: l => occurs A t n \/ any l end) l <-> exists t, t ∈ l /\ occurs A t n.
Proof. induction l as [|t l IH]; [set_solver|]. rewrite IH. set_solver. Qed.

Lemma occurs_eq A ty n :
  occurs A ty n <->
  match ty with
  | TyGeneric m => n = m
  | TyDim (DConst e) => mentions A (ce_poly e) n
  | TyStruct _ items | TyEnum _ items | TyTuple items | TyPack items => exists t, t ∈ items /\ occurs A t n
  | TyBorrow _ ty | TyRawPointer _ ty | TySlice ty => occurs A ty n
  | TyFn params ret _ _ => (exists t, t ∈ params /\ occurs A t n) \/ occurs A ret n
  | _ => False
  end.
Proof. destruct ty; cbn [occurs]; rewrite ?occurs_list; done. Qed.

Lemma type_atoms_elem A P ty : arena_ok A -> type_in A P ty -> forall out n,
  n ∈ type_atoms A ty out <-> n ∈ out \/ (is_atom n = true /\ occurs A ty n).
Proof.
  intros HA. assert (forall l, list_all Type_ (fun t => type_in A P t -> forall out n, n ∈ type_atoms A t out <-> n ∈ out \/ (is_atom n = true /\ occurs A t n)) l ->
    Forall (type_in A P) l -> forall out n, n ∈ fold_left (fun out item => type_atoms A item out) l out <->
      n ∈ out \/ (is_atom n = true /\ exists t, t ∈ l /\ occurs A t n)) as Hl.
  { intros l Hl%list_all_Forall H out n. rewrite Forall_forall in Hl, H.
    rewrite (fold_collect _ (fun t n => is_atom n = true /\ occurs A t n)); [naive_solver|]. intros. auto. }
  type_induction ty; intros Hin out x; rewrite type_in_eq in Hin; rewrite occurs_eq; cbn [type_atoms]; auto; try (by split; [left|intros [|[_ []]]]).
  - destruct Hin. rewrite IHr, (Hl ps) by done. naive_solver.
  - rewrite push_atom_elem. naive_solver.
  - destruct dm as [e|]; [|naive_solver]. destruct Hin as [Hv _]. unfold any_name. destruct (any_name_walk _ _ _ _) eqn:Ea.
    + rewrite (fold_collect _ (fun name n => n = name /\ is_atom n = true)) by (intros; apply push_atom_elem).
      setoid_rewrite (names_elem A e _ HA Hv). naive_solver.
    + split; [by left|]. intros [|[Hx Hm]]; [done|].
      enough (any_name_walk A is_atom (S (ce_poly e)) (ce_poly e) = true) by congruence.
      apply any_name_walk_spec; [done|done|lia|eauto].
Qed.

Lemma type_in_occurs A P ty x : type_in A P ty -> occurs A ty x -> P x.
Proof.
  assert (forall l, list_all Type_ (fun t => type_in A P t -> occurs A t x -> P x) l ->
    Forall (type_in A P) l -> (exists t, t ∈ l /\ occurs A t x) -> P x) as Hl.
  { intros l Hl%list_all_Forall H (t & Ht & Ho). rewrite Forall_forall in *. eauto. }
  type_induction ty; rewrite type_in_eq, occurs_eq; eauto; try done.
  - intros [??] [?|?]; eauto.
  - by intros ? ->.
  - destruct dm as [e|]; [|done]. intros [_ Hn]. apply Hn.
Qed.

Definition type_wf (A : Arena) (ty : Type_) : Prop := type_in A (fun _ => True) ty.

Lemma type_in_of_atoms A (P : string -> Prop) ty :
  type_wf A ty -> (forall n, is_atom n = false -> P n) -> (forall n, is_atom n = true -> occurs A ty n -> P n) -> type_in A P ty.
Proof.
  unfold type_wf. intros Hw Hplain. revert Hw.
  assert (forall l, list_all Type_ (fun t => type_in A (fun _ => True) t -> (forall n, is_atom n = true -> occurs A t n -> P n) -> type_in A P t) l ->
    Forall (type_in A (fun _ => True)) l ->
    (forall n, is_atom n = true -> (exists t, t ∈ l /\ occurs A t n) -> P n) -> Forall (type_in A P) l) as Hl.
  { intros l Hl%list_all_Forall Hw Ho. rewrite Forall_forall in *. intros t Ht. apply Hl; [done|by apply Hw|]. intros n Hn Hon. apply Ho; eauto. }
  type_induction ty; rewrite (type_in_eq A (fun _ => True)), (type_in_eq A P); intros Hw Ho; try setoid_rewrite occurs_eq in Ho; auto.
  - destruct Hw. split; [apply Hl; auto|]; eauto.
  - destruct (is_atom n) eqn:E; auto.
  - destruct dm as [e|]; [|done]. destruct Hw as [Hv _]. split; [done|]. intros n Hn. destruct (is_atom n) eqn:E; auto.
  - destruct Hw. auto.
Qed.

(** ** Renaming *)

(** Atoms are mapped to names that the map leaves alone. *)
Definition renaming (s : Subst) : Prop :=
  forall n ty, s !! n = Some ty -> is_atom n = true /\ exists f, ty = TyGeneric f /\ s !! f = None.

Definition renamed_in (s : Subst) (P : string -> Prop) (n : string) : Prop :=
  match s !! n with Some (TyGeneric f) => P f | Some _ => False | None => P n end.

Definition returns_in (A : Arena) (P : string -> Prop) (res : Arena * Type_) : Prop :=
  arena_ok res.1 /\ arena_le A res.1 /\ type_in res.1 P res.2.

Section Renaming.
Context (s : Subst) (P : string -> Prop) (Hs : renaming s).

Lemma renaming_binding n :
  binding n s = BKeep /\ s !! n = None \/ exists f, binding n s = BRename f /\ s !! n = Some (TyGeneric f) /\ s !! f = None.
Proof.
  unfold binding. destruct (s !! n) as [ty|] eqn:E; [|by left]. right. destruct (Hs n ty E) as (_ & f & -> & Ef).
  exists f. rewrite bool_decide_false; [done|]. intros ->. congruence.
Qed.

Lemma renaming_subst_ok A : subst_ok A s.
Proof. intros n p Hb. destruct (renaming_binding n) as [[]|(f & ? & _)]; congruence. Qed.

Lemma spread_unmapped n : renamed_in s P n -> is_atom n = false -> s !! n = None /\ P n.
Proof. unfold renamed_in. destruct (s !! n) as [ty|] eqn:E; [|done]. intros _ Ha. destruct (Hs n ty E). congruence. Qed.

Lemma substitute_dim_renames A d : arena_ok A -> type_in A (renamed_in s P) (TyDim d) -> returns_in A P (substitute_dim A d s).
Proof.
  intros HA Hd. destruct d as [e|]; [|by split_and!]. destruct Hd as [Hv Hn]. unfold substitute_dim, substitute.
  destruct (resolve_in s P A (ce_poly e) HA (renaming_subst_ok A) Hv) as (HB & Hle & Hres).
  { intros n Hm%Hn. unfold substituted_name. unfold renamed_in in Hm.
    destruct (renaming_binding n) as [[-> E]|(f & -> & E & _)]; by rewrite E in Hm. }
  destruct (resolve A (ce_poly e) s) as [B [i|]]; cbn [fst snd] in *; [|by split_and!].
  destruct Hres as [Hi HPi]. split_and!; [done..|]. cbn [snd fst].
  destruct (decide (i = ce_poly e)) as [->|Hne]; [rewrite (bool_decide_true (ce_poly e = ce_poly e)) by done; cbn iota; by rewrite bool_decide_true|].
  rewrite (bool_decide_false (i = _)) by done. cbn [ce_poly]. rewrite bool_decide_false by done.
  unfold dim_type. destruct (as_param B _) as [n|] eqn:Ep; [|done]. apply HPi. by apply as_param_mentions in Ep.
Qed.

(** A substitution [f] of one type that renames *)
Definition renames (f : Type_ -> Arena -> Arena * Type_) (t : Type_) : Prop :=
  forall A, arena_ok A -> type_in A (renamed_in s P) t -> returns_in A P (f t A).

Lemma map_arena_renames f l A :
  Forall (renames f) l ->
  arena_ok A -> Forall (type_in A (renamed_in s P)) l ->
  arena_ok (map_arena f l A).1 /\ arena_le A (map_arena f l A).1 /\ Forall (type_in (map_arena f l A).1 P) (map_arena f l A).2.
Proof.
  intros Hf. revert A. induction Hf as [|t l Ht Hf IH]; intros A HA Hl; [by split_and!|]. inversion Hl as [|?? Hin Hl']; subst.
  cbn [map_arena]. destruct (Ht A HA Hin) as (HB & HleB & HtB). destruct (f t A) as [B t']. cbn [fst snd] in *.
  destruct (IH B HB) as (HC & HleC & HlC).
  { eapply Forall_impl; [exact Hl'|]. intros. by apply (type_in_le A B). }
  destruct (map_arena f l B) as [C l']. cbn [fst snd] in *. split_and!; [done|by etrans|]. constructor; [|done].
  by apply (type_in_le B C).
Qed.

Lemma pack_type_in A items : Forall (type_in A P) items -> type_in A P (pack_type items).
Proof.
  intros H. unfold pack_type. destruct items as [|t [|]]; [by apply type_in_eq|..]; destruct t; try (by apply type_in_eq).
  inversion H as [|?? Hn]. by destruct Hn.
Qed.

Lemma subst_pack_renames go expand items A :
  Forall (renames go) items ->
  arena_ok A -> Forall (type_in A (renamed_in s P)) items ->
  arena_ok (subst_pack s go expand items A).1 /\ arena_le A (subst_pack s go expand items A).1 /\
  Forall (type_in (subst_pack s go expand items A).1 P) (subst_pack s go expand items A).2.
Proof.
  intros Hf. revert A. induction Hf as [|t l Ht Hf IH]; intros A HA Hl; [by split_and!|]. inversion Hl as [|?? Hin Hl']; subst.
  cbn [subst_pack].
  match goal with |- context [let '(A, out) := ?X in _] => set (first := X) end.
  assert (arena_ok first.1 /\ arena_le A first.1 /\ Forall (type_in first.1 P) first.2) as (HB & HleB & HoB).
  { subst first. specialize (Ht A HA Hin). unfold returns_in in Ht.
    destruct t as [| | | | | | | | | | | | | | | | | | |name| |];
      try (destruct (go _ A) as [B t']; cbn [fst snd] in *; destruct Ht as (? & ? & ?); split_and!; [done..|by repeat constructor]).
    destruct Hin as [Hin Ha]. destruct (spread_unmapped name Hin Ha) as [-> HP]. split_and!; [done..|]. by repeat constructor. }
  destruct first as [B out]. cbn [fst snd] in *. destruct (IH B HB) as (HC & HleC & HlC).
  { eapply Forall_impl; [exact Hl'|]. intros. by apply (type_in_le A B). }
  destruct (subst_pack s go expand l B) as [C outs]. cbn [fst snd] in *. split_and!; [done|by etrans|].
  apply Forall_app. split; [|done]. eapply Forall_impl; [exact HoB|]. intros. by apply (type_in_le B C).
Qed.

Lemma map_arena_returns f l A (g : list Type_ -> Type_) :
  list_all Type_ (renames f) l -> arena_ok A -> Forall (type_in A (renamed_in s P)) l ->
  (forall B l, Forall (type_in B P) l -> type_in B P (g l)) ->
  returns_in A P (let '(A, l) := map_arena f l A in (A, g l)).
Proof.
  intros IH%list_all_Forall HA Hin Hg. destruct (map_arena_renames f l A IH HA Hin) as (HB & Hle & Hout).
  destruct (map_arena f l A) as [B out]. split_and!; [done..|]. by apply Hg.
Qed.

Lemma substitute_renames d stack ty : renames (substitute_depth (S (S d)) s stack) ty.
Proof.
  type_induction ty; intros A HA Hin; rewrite substitute_depth_eq; cbn zeta iota beta; rewrite type_in_eq in Hin;
    try (by split_and!); try (apply map_arena_returns; [done..|]; intros; by apply type_in_eq);
    try (specialize (IH A HA Hin); unfold returns_in in IH; destruct (substitute_depth _ _ _ _ _) as [B t']; exact IH).
  - destruct Hin as [Hps Hr]. destruct (map_arena_renames _ ps A (list_all_Forall _ _ IHps) HA Hps) as (HB & Hle & Hout).
    destruct (map_arena _ ps A) as [B out]. cbn [fst snd] in *. apply (type_in_le A B) in Hr; [|done..].
    destruct (IHr B HB Hr) as (HC & HleC & Hr'). destruct (substitute_depth _ _ _ r B) as [C r']. cbn [fst snd] in *.
    split_and!; [done|by etrans|]. apply type_in_eq. split; [|done].
    eapply Forall_impl; [exact Hout|]. intros. by apply (type_in_le B C).
  - unfold renamed_in in Hin. destruct (s !! n) as [val|] eqn:E; [|by split_and!]. destruct (Hs n val E) as (_ & f & -> & Ef).
    case_match; [by split_and!|]. rewrite substitute_depth_eq. cbn zeta iota beta. rewrite Ef. by split_and!.
  - by apply substitute_dim_renames.
  - destruct (subst_pack_renames (substitute_depth (S (S d)) s stack) (substitute_depth (S d) s stack) l A (list_all_Forall _ _ IH) HA Hin) as (HB & Hle & Hout).
    destruct (subst_pack _ _ _ l A) as [B out]. split_and!; [done..|]. by apply pack_type_in.
  - destruct Hin as [Hin Ha]. destruct (spread_unmapped n Hin Ha) as [_ HP]. by split_and!.
Qed.

Lemma substitute_generics_renames ty A : arena_ok A -> type_in A (renamed_in s P) ty -> returns_in A P (substitute_generics ty s A).
Proof. intros. unfold substitute_generics. rewrite Nat.add_comm. by apply substitute_renames. Qed.
End Renaming.

(** ** Fresh atoms *)

Definition atom_text (display : string) (k : Z) : string := (display +:+ "@" +:+ show_Z k)%string.

(** No atom with a number from [next] on has this name. *)
Definition unused (next : Z) (name : string) : Prop := forall display k, (next <= k)%Z -> name <> atom_text display k.

Lemma unused_le next next' name : (next <= next')%Z -> unused next name -> unused next' name.
Proof. intros Hle Hu display k Hk. apply Hu. lia. Qed.

Lemma rsplit_at_app c d t : rsplit_at c t = None -> rsplit_at c (d +:+ String c t) = Some t.
Proof.
  intros Ht. induction d as [|a d IH]; simpl.
  - by rewrite Ht, Ascii.eqb_refl.
  - by rewrite IH.
Qed.

Lemma show_Z_plain z : rsplit_at "@" (show_Z z) = None.
Proof.
  assert (forall d, rsplit_at "@" (NilEmpty.string_of_uint d) = None) as H by (induction d as [|d IH|d IH|d IH|d IH|d IH|d IH|d IH|d IH|d IH|d IH]; simpl; by rewrite ?IH).
  assert (forall d, rsplit_at "@" (NilZero.string_of_uint d) = None) as H0 by (intros d; unfold NilZero.string_of_uint; destruct d; try apply H; done).
  unfold show_Z, NilZero.string_of_int. destruct (Z.to_int z); simpl; by rewrite H0.
Qed.

Lemma atom_text_inj d k d' k' : atom_text d k = atom_text d' k' -> k = k'.
Proof.
  unfold atom_text. intros E. apply (f_equal (rsplit_at "@")) in E.
  change ("@" +:+ ?t)%string with (String "@" t) in E. rewrite !rsplit_at_app in E by apply show_Z_plain.
  injection E as E. by apply show_Z_inj.
Qed.

Lemma atom_text_atom d k : is_atom (atom_text d k) = true.
Proof. unfold is_atom, atom_text. induction d as [|a d IH]; [done|]. simpl in *. rewrite IH. apply orb_true_r. Qed.

Lemma atom_text_unused d k : unused (k + 1) (atom_text d k).
Proof. intros d' k' Hk E%atom_text_inj. lia. Qed.

(** The state keeps the names of known depth apart from those to come. *)
Definition names_ok (st : NameState) : Prop :=
  (0 <= nd_next st)%Z /\ forall name, is_Some (nd_depth st !! name) -> unused (nd_next st) name.

(** Room for [n] more atoms: the counter does not wrap. *)
Definition room (st : NameState) (n : nat) : Prop := (nd_next st + Z.of_nat n < 2 ^ 32)%Z.

Lemma new_atom_spec display origin source binding st n :
  names_ok st -> room st (S n) ->
  let name := atom_text display (nd_next st) in
  let '(st', name') := new_atom display origin source binding st in
  name' = name /\ names_ok st' /\ room st' n /\ nd_next st' = (nd_next st + 1)%Z /\
  nd_depth st' = <[name := nd_scopes st]> (nd_depth st) /\ nd_arena st' = nd_arena st /\ nd_scopes st' = nd_scopes st /\
  nd_anonymous st' = nd_anonymous st ∖ {[name]}.
Proof.
  intros [Hnext Hok] Hroom name. subst name. destruct st as [A next disp anon origins atoms depth names unclaimed fields generics scopes].
  unfold room in *. cbn [nd_next nd_depth] in *. unfold new_atom, fresh_atom. cbn [nd_next set_anonymous].
  assert (wrap 32 (next + 1) = next + 1)%Z as Hw by (unfold wrap; apply Z.mod_small; lia).
  cbn [nd_next nd_depth nd_arena nd_scopes nd_anonymous]. rewrite Hw. split_and!; try done; [|lia].
  split; [cbn; lia|]. cbn [nd_next nd_depth]. intros name [at_ [[<- _]|[_ Hd]]%lookup_insert_Some]; [apply atom_text_unused|].
  eapply unused_le; [|apply Hok; by exists at_]. lia.
Qed.

(** ** The end of a scope *)

Lemma set_anonymous_frame name b st :
  let st' := set_anonymous name b st in
  nd_next st' = nd_next st /\ nd_depth st' = nd_depth st /\ nd_arena st' = nd_arena st /\ nd_scopes st' = nd_scopes st.
Proof. by destruct st. Qed.

Lemma with_unclaimed_frame u st :
  let st' := with_unclaimed u st in
  nd_next st' = nd_next st /\ nd_depth st' = nd_depth st /\ nd_arena st' = nd_arena st /\ nd_scopes st' = nd_scopes st /\
  nd_anonymous st' = nd_anonymous st.
Proof. by destruct st. Qed.

(** What renaming the escaping atoms does: every one of them gets a new name
    of the current depth; nothing else changes its depth. *)
Record renamed_escaping (escaping : list string) (m : Subst) (st : NameState) (m' : Subst) (st' : NameState) : Prop := {
  re_arena : nd_arena st' = nd_arena st;
  re_scopes : nd_scopes st' = nd_scopes st;
  re_ok : names_ok st';
  re_next : (nd_next st <= nd_next st')%Z;
  re_depth : forall n, nd_depth st' !! n = nd_depth st !! n \/ nd_depth st' !! n = Some (nd_scopes st);
  re_dom : forall n, is_Some (m' !! n) <-> n ∈ escaping \/ is_Some (m !! n);
  re_new : forall n ty, m' !! n = Some ty -> m !! n = Some ty \/
    exists f, ty = TyGeneric f /\ nd_depth st' !! f = Some (nd_scopes st) /\ ~ unused (nd_next st) f }.

Lemma rename_escaping_spec escaping m st :
  names_ok st -> room st (length escaping) ->
  renamed_escaping escaping m st (rename_escaping escaping m st).2 (rename_escaping escaping m st).1.
Proof.
  revert m st. induction escaping as [|atom rest IH]; intros m st Hok Hroom.
  { split; try done; simpl; auto. intros n. split; [by right|]. by intros [?%not_elem_of_nil|]. }
  cbn [rename_escaping].
  pose proof (new_atom_spec (display_name (nd_display st) atom) (default (Span_new_root 0 0) (nd_origins st !! atom)) SrcUnknown None st
    (length rest) Hok Hroom) as Hnew.
  destruct (new_atom _ _ _ _ _) as [st1 fresh]. destruct Hnew as (Hf & Hok1 & Hroom1 & Hn1 & Hd1 & HA1 & Hs1 & _).
  destruct (set_anonymous_frame fresh (is_anonymous st1 atom) st1) as (Hn2 & Hd2 & HA2 & Hs2).
  set (st2 := set_anonymous fresh (is_anonymous st1 atom) st1) in *.
  destruct (with_unclaimed_frame (<[fresh := default (display_name (nd_display st) atom) (rsplit_at "." (display_name (nd_display st) atom))]> (nd_unclaimed st2)) st2)
    as (Hn3 & Hd3 & HA3 & Hs3 & _).
  set (st3 := with_unclaimed _ st2) in *.
  assert (names_ok st3) as Hok3 by (unfold names_ok; rewrite Hn3, Hn2, Hd3, Hd2; exact Hok1).
  assert (room st3 (length rest)) as Hroom3 by (unfold room; rewrite Hn3, Hn2; exact Hroom1).
  destruct (IH (<[atom := TyGeneric fresh]> m) st3 Hok3 Hroom3) as [H1 H2 H3 H4 H5 H6 H7].
  assert (forall n, nd_depth st3 !! n = nd_depth st !! n \/ nd_depth st3 !! n = Some (nd_scopes st)) as Hdepth.
  { intros n. rewrite Hd3, Hd2, Hd1. destruct (decide (n = atom_text (display_name (nd_display st) atom) (nd_next st))) as [->|Hne];
      [right; by rewrite lookup_insert_eq|left; by rewrite lookup_insert_ne]. }
  split.
  - congruence.
  - congruence.
  - done.
  - lia.
  - intros n. destruct (H5 n) as [->|Hs]; [apply Hdepth|right; congruence].
  - intros n. rewrite H6, elem_of_cons. destruct (decide (n = atom)) as [->|Hne]; [rewrite lookup_insert_eq; naive_solver|].
    rewrite lookup_insert_ne by done. naive_solver.
  - intros n ty Hty. destruct (H7 n ty Hty) as [Hm|(f & -> & Hf' & Hu)].
    + apply lookup_insert_Some in Hm as [[<- <-]|[_ Hm]]; [right|by left]. exists fresh. split_and!; [done| |].
      * destruct (H5 fresh) as [->|Hs]; [|congruence]. by rewrite Hd3, Hd2, Hd1, Hf, lookup_insert_eq.
      * subst fresh. intros Hu. eapply Hu; [|reflexivity]. lia.
    + right. exists f. split_and!; [done|congruence|]. intros Hun. apply Hu. eapply unused_le; [|exact Hun]. lia.
Qed.

Lemma outlived_false st depth atom at_ : outlived st depth atom = false -> nd_depth st !! atom = Some at_ -> at_ <= depth.
Proof. unfold outlived. intros H E. rewrite E in H. apply Nat.ltb_ge in H. done. Qed.

(** The depth of every atom of a type is at most that of the scope. *)
Definition in_scope (st : NameState) (n : string) : Prop :=
  is_atom n = true -> forall at_, nd_depth st !! n = Some at_ -> at_ <= nd_scopes st.

Lemma renamed_in_scope escaping m st st' n :
  renamed_escaping escaping ∅ st m st' ->
  (is_atom n = true -> n ∉ escaping -> in_scope st n) ->
  renamed_in m (in_scope st') n.
Proof.
  intros [HA Hs Hok Hnext Hdepth Hdom Hnew] Hin. unfold renamed_in. destruct (m !! n) as [ty|] eqn:E.
  - destruct (Hnew n ty E) as [Hm|(f & -> & Hf & _)]; [by rewrite lookup_empty in Hm|].
    intros _ at_ Hat. rewrite Hs. rewrite Hf in Hat. by injection Hat as <-.
  - intros Hat at_ Hd. rewrite Hs. destruct (Hdepth n) as [Hn|Hn]; rewrite Hd in Hn; [|by injection Hn as ->].
    apply Hin; [done| |done|by symmetry]. intros Hesc. destruct (proj2 (Hdom n) (or_introl Hesc)). congruence.
Qed.

Lemma escaping_renaming escaping m st st' :
  renamed_escaping escaping ∅ st m st' ->
  (forall n, n ∈ escaping -> is_atom n = true /\ unused (nd_next st) n) -> renaming m.
Proof.
  intros [HA Hs Hok Hnext Hdepth Hdom Hnew] Hesc n ty Hty.
  assert (forall x, is_Some (m !! x) -> x ∈ escaping) as Hd.
  { intros x Hx%Hdom. destruct Hx as [|[? Hx]]; [done|]. by rewrite lookup_empty in Hx. }
  split; [apply Hesc, Hd; by exists ty|]. destruct (Hnew n ty Hty) as [Hm|(f & -> & Hf & Hu)]; [by rewrite lookup_empty in Hm|].
  exists f. split; [done|]. destruct (m !! f) as [t|] eqn:E; [|done]. exfalso. apply Hu, Hesc, Hd. by exists t.
Qed.

Lemma in_scope_listed st ty atom at_ :
  arena_ok (nd_arena st) -> type_in (nd_arena st) (in_scope st) ty ->
  atom ∈ type_atoms (nd_arena st) ty [] -> nd_depth st !! atom = Some at_ -> at_ <= nd_scopes st.
Proof.
  intros HA Hin Hat. apply (type_atoms_elem _ _ _ HA Hin) in Hat as [?%not_elem_of_nil|[Hatom Ho]]; [done|].
  by apply (type_in_occurs _ _ _ _ Hin Ho).
Qed.

Definition escaping_atoms (result : Type_) (st : NameState) : list string :=
  List.filter (outlived st (nd_scopes st)) (type_atoms (nd_arena st) result []).

Lemma escaping_atoms_elem result st n :
  arena_ok (nd_arena st) -> type_wf (nd_arena st) result ->
  n ∈ escaping_atoms result st <-> is_atom n = true /\ occurs (nd_arena st) result n /\ outlived st (nd_scopes st) n = true.
Proof.
  intros HA Hw. unfold escaping_atoms. rewrite list_elem_of_In, filter_In, <- list_elem_of_In, (type_atoms_elem _ _ _ HA Hw).
  split; [intros [[?%not_elem_of_nil|[]] ?]; done|intros (? & ? & ?); auto].
Qed.

Lemma not_escaping result st n :
  arena_ok (nd_arena st) -> type_wf (nd_arena st) result -> is_atom n = true -> occurs (nd_arena st) result n ->
  n ∉ escaping_atoms result st -> in_scope st n.
Proof.
  intros HA Hw Hn Ho Hesc _ at_ Hat. apply (outlived_false st _ n); [|done]. apply not_true_iff_false. intros Hout.
  by apply Hesc, escaping_atoms_elem.
Qed.

(** Renaming the result once the names are unbound *)
Lemma rename_result_in_scope result st :
  arena_ok (nd_arena st) -> type_wf (nd_arena st) result -> names_ok st -> room st (length (escaping_atoms result st)) ->
  let '(st1, m) := rename_escaping (escaping_atoms result st) ∅ st in
  let '(st', ty) := rename result m st1 in
  arena_ok (nd_arena st') /\ arena_le (nd_arena st) (nd_arena st') /\ type_in (nd_arena st') (in_scope st') ty /\ names_ok st' /\
  nd_scopes st' = nd_scopes st.
Proof.
  intros HA Hw Hok Hroom. pose proof (rename_escaping_spec _ ∅ st Hok Hroom) as Hre.
  destruct (rename_escaping _ _ _) as [st1 m]. cbn [fst snd] in Hre.
  assert (type_in (nd_arena st) (renamed_in m (in_scope st1)) result) as Hin.
  { apply type_in_of_atoms; [done| |].
    - intros n Hn. eapply renamed_in_scope; [exact Hre|]. congruence.
    - intros n Hn Ho. eapply renamed_in_scope; [exact Hre|]. intros _. by apply not_escaping. }
  assert (renaming m) as Hm.
  { eapply escaping_renaming; [exact Hre|]. intros n (Hn & _ & Hout)%escaping_atoms_elem; [|done..]. split; [done|].
    apply Hok. unfold outlived in Hout. by destruct (nd_depth st !! n). }
  pose proof (substitute_generics_renames m (in_scope st1) Hm result (nd_arena st) HA Hin) as (HB & Hle & Hty).
  destruct Hre as [EA Es Hok1 _ _ Hdom _]. unfold rename. case_bool_decide as Em.
  - subst m. rewrite EA. by split_and!.
  - rewrite EA. destruct (substitute_generics _ _ _) as [B ty]. destruct st1. done.
Qed.

(** C11: no name outlives its scope.  Leaving a block, the type of its result
    is given fresh names for the dimension names that the block made, so that
    every name in it has the depth of the enclosing scope or less; the state
    stays well formed, and names to come are different from those in use. *)
Theorem end_scope_in_scope result st :
  arena_ok (nd_arena st) -> type_wf (nd_arena st) result -> names_ok st ->
  room st (length (type_atoms (nd_arena st) result [])) ->
  let '(st', ty) := end_scope result st in
  arena_ok (nd_arena st') /\ arena_le (nd_arena st) (nd_arena st') /\ type_wf (nd_arena st') ty /\ names_ok st' /\
  nd_scopes st' = nd_scopes st /\
  forall atom at_, atom ∈ type_atoms (nd_arena st') ty [] -> nd_depth st' !! atom = Some at_ -> at_ <= nd_scopes st'.
Proof.
  intros HA Hw Hok Hroom. unfold end_scope. destruct (unbind_names _ _ _) as [names generics].
  destruct st as [A next disp anon origins atoms depth names0 unclaimed fields generics0 scopes].
  pose proof (rename_result_in_scope result (mkNameState A next disp anon origins atoms depth names unclaimed fields generics scopes)) as Hre.
  cbn [with_scope nd_arena nd_scopes] in *. fold (escaping_atoms result (mkNameState A next disp anon origins atoms depth names unclaimed fields generics scopes)).
  set (st := mkNameState A next disp anon origins atoms depth names unclaimed fields generics scopes) in *.
  change (List.filter (outlived st scopes) (type_atoms A result [])) with (escaping_atoms result st).
  assert (room st (length (escaping_atoms result st))) as Hroom1.
  { unfold room in *. pose proof (filter_length_le (outlived st scopes) (type_atoms A result [])). unfold escaping_atoms. cbn in *. lia. }
  specialize (Hre HA Hw Hok Hroom1). destruct (escaping_atoms result st) as [|first rest] eqn:Eesc.
  - assert (type_in A (in_scope st) result) as Hin.
    { apply type_in_of_atoms; [done|intros n Hn; unfold in_scope; congruence|]. intros n Hn Ho. eapply not_escaping; [done..|].
      rewrite Eesc. apply not_elem_of_nil. }
    split_and!; try done. intros atom at_. by apply (in_scope_listed st).
  - destruct (rename_escaping _ _ _) as [st1 m]. destruct (rename result m st1) as [st' ty].
    destruct Hre as (HB & Hle & Hin & Hok' & Hs). split_and!; try done; [by eapply type_in_mono; [|exact Hin]|].
    intros atom at_. by apply in_scope_listed.
Qed.

(** ** Names in scope *)

(** A [let] that names an extent: the arguments of [bind_witness] *)
Record WitnessLet := mkWitnessLet { wl_name : string; wl_span : Span; wl_mutable : bool; wl_id : option nat; wl_dimension : option Type_ }.

Definition run_lets (lets : list WitnessLet) (st : NameState) : NameState :=
  fold_left (fun st l => bind_witness (wl_name l) (wl_span l) (wl_mutable l) (wl_id l) (wl_dimension l) st) lets st.

(** The names and parameters that unbinding down to [depth] leaves *)
Definition below (depth : nat) (st : NameState) : list (nat * string * option Type_) * gmap string Type_ :=
  unbind_names depth (nd_names st) (nd_generics st).

Lemma bind_name_below depth name dimension st :
  depth < nd_scopes st -> below depth (bind_name name dimension st) = below depth st /\ nd_scopes (bind_name name dimension st) = nd_scopes st.
Proof.
  intros Hd. split; [|by destruct st]. unfold below, bind_name. destruct st as [A next disp anon origins atoms at_ names unclaimed fields generics scopes].
  cbn [nd_names nd_generics with_scope nd_scopes unbind_names] in *. rewrite (proj2 (Nat.leb_gt _ _)) by done.
  destruct (generics !! name) as [previous|] eqn:E.
  - by rewrite insert_insert_eq, insert_id.
  - by rewrite delete_insert_id.
Qed.

Lemma bind_witness_below depth l st :
  depth < nd_scopes st ->
  let st' := bind_witness (wl_name l) (wl_span l) (wl_mutable l) (wl_id l) (wl_dimension l) st in
  below depth st' = below depth st /\ nd_scopes st' = nd_scopes st.
Proof.
  intros Hd. unfold bind_witness. destruct (wl_mutable l); [by apply bind_name_below|].
  assert (forall st', nd_names st' = nd_names st -> nd_generics st' = nd_generics st -> nd_scopes st' = nd_scopes st ->
    forall n d, below depth (bind_name n d st') = below depth st /\ nd_scopes (bind_name n d st') = nd_scopes st) as Hframe.
  { intros st' Hn Hg Hs n d. rewrite <- Hs in Hd |- *. destruct (bind_name_below depth n d st' Hd) as [-> ->]. split; [|done].
    unfold below. by rewrite Hn, Hg. }
  assert (forall source, let '(st', atom) := new_atom (wl_name l) (wl_span l) source (Some (wl_name l)) st in
    below depth (bind_name (wl_name l) (TyGeneric atom) st') = below depth st /\ nd_scopes (bind_name (wl_name l) (TyGeneric atom) st') = nd_scopes st) as Hnew.
  { intros source. destruct (new_atom _ _ _ _ _) as [st' atom] eqn:E. unfold new_atom in E. destruct st. simpl in E. injection E as <- <-. by apply Hframe. }
  destruct (wl_dimension l) as [[| | | | | | | | | | | | | |atom| | |[e|]| | | |]|]; try (by apply bind_name_below);
    try (destruct (wl_id l) as [id|]; [specialize (Hnew (SrcValue id)); by destruct (new_atom _ _ _ _ _)|done]).
  destruct (is_atom atom); [|by apply bind_name_below]. destruct (is_anonymous st atom); [|by apply bind_name_below].
  apply Hframe; by destruct st.
Qed.

Lemma unbind_stop depth names generics : Forall (fun e => e.1.1 <= depth) names -> unbind_names depth names generics = (names, generics).
Proof. destruct 1 as [|[[at_ name] previous] names Hle _]; [done|]. cbn [unbind_names fst] in *. by rewrite (proj2 (Nat.leb_le _ _)). Qed.

Lemma rename_escaping_names escaping m st :
  nd_names (rename_escaping escaping m st).1 = nd_names st /\ nd_generics (rename_escaping escaping m st).1 = nd_generics st.
Proof.
  revert m st. induction escaping as [|atom rest IH]; intros m st; [done|]. cbn [rename_escaping].
  destruct (new_atom _ _ _ _ _) as [st1 fresh] eqn:E.
  assert (nd_names st1 = nd_names st /\ nd_generics st1 = nd_generics st) as [<- <-].
  { unfold new_atom in E. destruct st. simpl in E. by injection E as <- <-. }
  destruct (IH (<[atom := TyGeneric fresh]> m)
    (with_unclaimed (<[fresh := default (display_name (nd_display st) atom) (rsplit_at "." (display_name (nd_display st) atom))]>
       (nd_unclaimed (set_anonymous fresh (is_anonymous st1 atom) st1))) (set_anonymous fresh (is_anonymous st1 atom) st1))) as [-> ->].
  by destruct st1.
Qed.

Lemma end_scope_names result st :
  let '(st', _) := end_scope result st in (nd_names st', nd_generics st') = below (nd_scopes st) st.
Proof.
  unfold end_scope, below. destruct (unbind_names _ _ _) as [names generics]. set (st1 := with_scope names generics st).
  assert (nd_names st1 = names /\ nd_generics st1 = generics) as [En Eg] by by destruct st.
  destruct (List.filter _ _) as [|first rest]; [by rewrite En, Eg|].
  destruct (rename_escaping_names (first :: rest) ∅ st1) as [Hn Hg]. destruct (rename_escaping _ _ _) as [st2 m]. cbn [fst] in Hn, Hg.
  unfold rename. case_bool_decide; [by rewrite Hn, Hg, En, Eg|]. destruct (substitute_generics _ _ _) as [A ty].
  assert (nd_names (with_arena A st2) = nd_names st2 /\ nd_generics (with_arena A st2) = nd_generics st2) as [-> ->] by by destruct st2.
  by rewrite Hn, Hg, En, Eg.
Qed.

Definition with_scopes (scopes : nat) (st : NameState) : NameState :=
  let 'mkNameState A next disp anon origins atoms depth names unclaimed fields generics _ := st in
  mkNameState A next disp anon origins atoms depth names unclaimed fields generics scopes.

Lemma run_lets_below depth lets st : depth < nd_scopes st -> below depth (run_lets lets st) = below depth st.
Proof.
  revert st. induction lets as [|l lets IH]; intros st Hd; [done|].
  destruct (bind_witness_below depth l st Hd) as [E1 E2].
  change (run_lets (l :: lets) st) with (run_lets lets (bind_witness (wl_name l) (wl_span l) (wl_mutable l) (wl_id l) (wl_dimension l) st)).
  by rewrite IH; [|rewrite E2].
Qed.

(** the names that a block binds are gone after it, and the ones they
    shadowed are back: entering a block, naming extents with any sequence of
    [let]s and leaving it again restores the parameters in scope and the stack
    of names, whatever the block returns. *)
Theorem scope_restores_names lets result st :
  Forall (fun e => e.1.1 <= nd_scopes st) (nd_names st) ->
  let inside := run_lets lets (with_scopes (S (nd_scopes st)) st) in
  let '(st', _) := end_scope result (with_scopes (nd_scopes st) inside) in
  nd_generics st' = nd_generics st /\ nd_names st' = nd_names st.
Proof.
  intros Hn. cbn zeta. set (inside := run_lets _ _).
  assert (below (nd_scopes st) inside = (nd_names st, nd_generics st)) as Hb.
  { subst inside. rewrite run_lets_below by (destruct st; simpl; lia). unfold below. rewrite unbind_stop by (by destruct st). by destruct st. }
  pose proof (end_scope_names result (with_scopes (nd_scopes st) inside)) as He. destruct (end_scope _ _) as [st' ty].
  assert (below (nd_scopes (with_scopes (nd_scopes st) inside)) (with_scopes (nd_scopes st) inside) = below (nd_scopes st) inside) as E
    by by destruct inside.
  rewrite E, Hb in He. by injection He.
Qed.

(** ** Opening a value *)

(** No name that is in use changes whether it is anonymous. *)
Definition quiet (st st' : NameState) : Prop :=
  (nd_next st <= nd_next st')%Z /\ forall n, unused (nd_next st) n -> is_anonymous st' n = is_anonymous st n.

Lemma quiet_trans r s t : quiet r s -> quiet s t -> quiet r t.
Proof. intros [H1 H2] [H3 H4]. split; [lia|]. intros n Hn. rewrite H4; [by apply H2|]. eapply unused_le; [|exact Hn]. lia. Qed.

(** Steps that make names *)
Record naming (st st' : NameState) : Prop := {
  nm_ok : names_ok st';
  nm_arena : nd_arena st' = nd_arena st;
  nm_quiet : quiet st st' }.

Lemma naming_refl st : names_ok st -> naming st st.
Proof. by split. Qed.

Lemma naming_trans r s t : naming r s -> naming s t -> naming r t.
Proof. intros [] []. split; [done|congruence|by eapply quiet_trans]. Qed.

(** The atoms that a step has made so far count against the room there is. *)
Lemma new_atom_naming display origin source binding st n :
  names_ok st -> room st (S n) ->
  let '(st', name) := new_atom display origin source binding st in
  naming st st' /\ room st' n /\ name = atom_text display (nd_next st) /\ nd_next st' = (nd_next st + 1)%Z.
Proof.
  intros Hok Hroom. pose proof (new_atom_spec display origin source binding st n Hok Hroom) as H.
  destruct (new_atom _ _ _ _ _) as [st' name]. destruct H as (-> & Hok' & Hroom' & Hnext & _ & HA & _ & Hanon). split_and!; try done.
  split; [done|done|]. split; [lia|]. intros x Hx. unfold is_anonymous. apply bool_decide_ext. rewrite Hanon.
  assert (x <> atom_text display (nd_next st)) by (apply Hx; lia). set_solver.
Qed.

Lemma set_anonymous_naming display k st st' :
  naming st st' -> (nd_next st <= k)%Z -> naming st (set_anonymous (atom_text display k) true st').
Proof.
  intros [H1 H3 [H2 H4]] Hk. destruct (set_anonymous_frame (atom_text display k) true st') as (En & Ed & EA & _).
  split; [unfold names_ok; by rewrite En, Ed|congruence|]. split; [by rewrite En|]. intros n Hn. rewrite <- H4 by done.
  unfold is_anonymous. apply bool_decide_ext. assert (n <> atom_text display k) by (by apply Hn). destruct st'. simpl. set_solver.
Qed.

Lemma claim_naming atom display origin source binding st :
  names_ok st -> unused (nd_next st) atom -> naming st (claim atom display origin source binding (with_unclaimed (delete atom (nd_unclaimed st)) st)).
Proof.
  intros [Hn Hok] Hu. destruct st as [A next disp anon origins atoms depth names unclaimed fields generics scopes]. split; try done; cbn in *.
  split; [done|]. cbn. intros name [at_ [[<- _]|[_ Hd]]%lookup_insert_Some]; [done|]. apply Hok. by exists at_.
Qed.

(** [ty] and its opened form decay to the same type, also after later steps. *)
Definition decays_back (st st' : NameState) (ty opened : Type_) : Prop :=
  forall st'', quiet st' st'' ->
    erase_anonymous (is_anonymous st'') (nd_arena st) opened = erase_anonymous (is_anonymous st) (nd_arena st) ty.

Lemma erase_ext f g A ty : arena_ok A -> type_in A (fun n => f n = g n) ty -> erase_anonymous f A ty = erase_anonymous g A ty.
Proof.
  intros HA. assert (forall l, list_all Type_ (fun t => type_in A (fun n => f n = g n) t -> erase_anonymous f A t = erase_anonymous g A t) l ->
    Forall (type_in A (fun n => f n = g n)) l -> map (erase_anonymous f A) l = map (erase_anonymous g A) l) as Hl.
  { intros l H%list_all_Forall Hin. induction Hin as [|t l Ht Hin IH]; [done|]. inversion H; subst. simpl. f_equal; auto. }
  type_induction ty; rewrite type_in_eq; intros Hin; cbn [erase_anonymous]; try done; try (by f_equal; auto); [by rewrite Hin|].
  destruct dm as [e|]; [|done]. destruct Hin as [Hv Hn]. replace (any_name A e g) with (any_name A e f); [done|].
  apply eq_true_iff_eq. unfold any_name. rewrite !any_name_walk_spec by (done || lia). unfold names_in in Hn.
  split; intros (n & Hm & Ht); exists n; (split; [done|]); rewrite <- Ht; [symmetry|]; by apply Hn.
Qed.

Lemma unchanged_decays st st' ty :
  arena_ok (nd_arena st) -> type_in (nd_arena st) (unused (nd_next st)) ty -> naming st st' -> decays_back st st' ty ty.
Proof.
  intros HA Hin Hst st'' Hst'. apply erase_ext; [done|]. eapply type_in_mono; [|exact Hin]. intros n Hn.
  by apply (quiet_trans _ _ _ (nm_quiet _ _ Hst) Hst').
Qed.

Lemma decays_back_start st0 st st' ty opened :
  naming st0 st -> arena_ok (nd_arena st0) -> type_in (nd_arena st0) (unused (nd_next st0)) ty ->
  decays_back st st' ty opened -> decays_back st0 st' ty opened.
Proof.
  intros Hst HA Hin Hd st'' Hst''. specialize (Hd st'' Hst''). rewrite (nm_arena _ _ Hst) in Hd. rewrite Hd.
  apply erase_ext; [done|]. eapply type_in_mono; [|exact Hin]. intros n Hn. by apply (nm_quiet _ _ Hst).
Qed.

Lemma decays_back_later st s1 s2 ty opened : naming s1 s2 -> decays_back st s1 ty opened -> decays_back st s2 ty opened.
Proof. intros [_ _ H12] Hd st'' Hst. apply Hd. by eapply quiet_trans. Qed.

Lemma decays_back_list st st' l out :
  Forall2 (decays_back st st') l out ->
  forall st'', quiet st' st'' -> map (erase_anonymous (is_anonymous st'') (nd_arena st)) out = map (erase_anonymous (is_anonymous st) (nd_arena st)) l.
Proof. intros H st'' Hst. induction H as [|x y l out Hd H IH]; [done|]. simpl. rewrite IH. f_equal. by apply Hd. Qed.

(** What opening a type, or a list of types, promises *)
Definition opened_type (st : NameState) (n : nat) (ty : Type_) (res : NameState * Type_) : Prop :=
  naming st res.1 /\ room res.1 n /\ decays_back st res.1 ty res.2.

Definition opened_list (st : NameState) (n : nat) (l : list Type_) (st' : NameState) (out : list Type_) : Prop :=
  naming st st' /\ room st' n /\ Forall2 (decays_back st st') l out.

Definition ready (st : NameState) (n : nat) (l : list Type_) : Prop :=
  names_ok st /\ room st n /\ arena_ok (nd_arena st) /\ Forall (type_in (nd_arena st) (unused (nd_next st))) l.

Lemma ready_after st st' n m x l : ready st n (x :: l) -> naming st st' -> room st' m -> ready st' m l.
Proof.
  intros (Hok & Hroom & HA & Hl) Hst Hroom'. inversion Hl; subst. split_and!; [apply Hst|done|by rewrite (nm_arena _ _ Hst)|].
  rewrite (nm_arena _ _ Hst). eapply Forall_impl; [done|]. intros t. apply type_in_mono. intros y. apply unused_le, (nm_quiet _ _ Hst).
Qed.

Lemma room_le st n m : n <= m -> room st m -> room st n.
Proof. unfold room. lia. Qed.

Lemma opened_cons st st1 st2 m n k x y l out :
  ready st k (x :: l) -> opened_type st m x (st1, y) -> opened_list st1 n l st2 out -> opened_list st n (x :: l) st2 (y :: out).
Proof.
  intros (Hok & _ & HA & Hl) (Hst1 & _ & Hy) (Hst2 & Hroom & Hout). inversion Hl as [|?? Hx Hl']; subst.
  split_and!; [by eapply naming_trans|done|]. constructor; [by eapply decays_back_later|].
  clear -Hout Hst1 HA Hl'. revert Hl'. induction Hout as [|t u l out Hd Hout IH]; intros Hl; constructor; inversion Hl; subst; auto.
  by eapply decays_back_start.
Qed.

Section Opening.
Context (shapes : Shapes) (whole : Type_) (binding display : string) (field : option string) (id : nat) (span : Span).
Notation slot := (open_slot whole binding display field id span).

Lemma unchanged_opened st n x : ready st n [x] -> opened_type st n x (st, x).
Proof.
  intros (Hok & Hroom & HA & Hl). inversion Hl; subst. split_and!; [by apply naming_refl|done|]. by apply unchanged_decays; [..|apply naming_refl].
Qed.

Lemma open_slot_opened axis x st n :
  ready st (S n) [x] -> opened_type st n x (let '(st, mapped) := slot axis x st in (st, default x mapped)).
Proof.
  intros Hready. assert (opened_type st n x (st, x)) as Hsame.
  { apply unchanged_opened. destruct Hready as (? & ? & ? & ?). split_and!; try done. by eapply room_le; [|done]; lia. }
  destruct Hready as (Hok & Hroom & HA & Hl). inversion Hl as [|?? Hx _]; subst.
  destruct x as [| | | | | | | | | | | | | |atom| | |[e|]| | | |]; try exact Hsame; cbn [open_slot].
  - destruct (nd_unclaimed st !! atom) as [short|]; [|exact Hsame]. cbn [default].
    assert (naming st (claim atom (cat [display; "."; short]%string) span (SrcExtent id field axis whole) binding
      (with_unclaimed (delete atom (nd_unclaimed st)) st))) as Hst by by apply claim_naming.
    split_and!; [exact Hst| |by apply unchanged_decays]. destruct st. unfold room in *. cbn in *. lia.
  - pose proof (new_atom_naming (cat [display; ".dim"; show_Z (Z.of_nat axis)]%string) span (SrcExtent id field axis whole) (Some binding) st n Hok Hroom) as Hnew.
    destruct (new_atom _ _ _ _ _) as [st1 atom]. destruct Hnew as (Hst1 & Hroom1 & -> & Hnext).
    set (name := atom_text _ _). pose proof (set_anonymous_frame name true st1) as (En & _).
    split_and!; [by apply set_anonymous_naming|unfold room in *; cbn [fst]; by rewrite En|].
    intros st'' Hst''. cbn [fst] in Hst''. change (erase_anonymous (is_anonymous st'') (nd_arena st) (TyGeneric name) = TyDim DDyn). cbn [erase_anonymous].
    rewrite (proj2 Hst''); [|rewrite En, Hnext; apply atom_text_unused].
    unfold is_anonymous. rewrite bool_decide_true; [done|]. destruct st1. simpl. set_solver.
Qed.

Lemma map_items_opened items axis st n :
  ready st (length items + n) items ->
  let '(st', _, out) := map_items slot items axis st in opened_list st n items st' out.
Proof.
  revert axis st. induction items as [|x items IH]; intros axis st Hready.
  { destruct Hready as (Hok & Hroom & _). split_and!; [by apply naming_refl|done|constructor]. }
  assert (ready st (S (length items + n)) [x]) as Hx.
  { destruct Hready as (? & ? & ? & Hl). inversion Hl; subst. split_and!; try done. by constructor. }
  cbn [map_items]. destruct (is_spread x).
  - assert (opened_type st (length items + n) x (st, x)) as Ho.
    { apply unchanged_opened. destruct Hx as (? & ? & ? & ?). split_and!; try done. eapply room_le; [|done]. lia. }
    specialize (IH axis st (ready_after _ _ _ _ _ _ Hready (proj1 Ho) (proj1 (proj2 Ho)))).
    destruct (map_items _ items axis st) as [[st' axis'] out]. by eapply opened_cons.
  - pose proof (open_slot_opened axis x st _ Hx) as Ho. destruct (slot axis x st) as [st1 mapped].
    specialize (IH (S axis) st1 (ready_after _ _ _ _ _ _ Hready (proj1 Ho) (proj1 (proj2 Ho)))).
    destruct (map_items _ items (S axis) st1) as [[st' axis'] out]. by eapply opened_cons.
Qed.

(** How many positions an argument, or a type, can have *)
Definition arg_positions (arg : Type_) : nat := S (match arg with TyPack items => length items | _ => 0 end).

Fixpoint positions (ty : Type_) : nat :=
  match ty with
  | TyBorrow _ ty => positions ty
  | TyStruct _ args => list_sum (map arg_positions args)
  | TyTuple items => list_sum (map positions items)
  | _ => 0
  end.

Lemma ready_head st n m x l : ready st n (x :: l) -> m <= n -> ready st m [x].
Proof. intros (? & ? & ? & Hl) Hle. inversion Hl; subst. split_and!; try done; [by eapply room_le|by constructor]. Qed.

Lemma pack_decays st st' items out : Forall2 (decays_back st st') items out -> decays_back st st' (TyPack items) (TyPack out).
Proof. intros H st'' Hst. cbn [erase_anonymous]. f_equal. by eapply decays_back_list. Qed.

Lemma map_args_opened kinds args axis st n :
  ready st (list_sum (map arg_positions args) + n) args ->
  let '(st', out) := map_args slot kinds args axis st in opened_list st n args st' out.
Proof.
  revert kinds axis st. induction args as [|x args IH]; intros kinds axis st Hready.
  { destruct Hready as (Hok & Hroom & _). split_and!; [by apply naming_refl|done|constructor]. }
  set (rest := list_sum (map arg_positions args) + n).
  assert (list_sum (map arg_positions (x :: args)) + n = arg_positions x + rest) as Esum by (simpl; lia).
  assert (forall st1 y, opened_type st rest x (st1, y) -> forall ks axis,
    let '(st', out) := map_args slot ks args axis st1 in opened_list st n (x :: args) st' (y :: out)) as Hrest.
  { intros st1 y Ho ks axis'. specialize (IH ks axis' st1 (ready_after _ _ _ _ _ _ Hready (proj1 Ho) (proj1 (proj2 Ho)))).
    destruct (map_args _ _ _ _ _) as [st' out]. by eapply opened_cons. }
  assert (forall ks, let '(st', out) := let '(st, out) := map_args slot ks args axis st in (st, x :: out) in opened_list st n (x :: args) st' out) as Hsame.
  { intros ks. pose proof (Hrest st x (unchanged_opened st rest x ltac:(eapply ready_head; [exact Hready|rewrite Esum; lia])) ks axis) as H.
    by destruct (map_args _ _ _ _ _). }
  assert (forall ks, let '(st', out) := let '(st, mapped) := slot axis x st in let '(st, out) := map_args slot ks args (S axis) st in (st, default x mapped :: out) in
    opened_list st n (x :: args) st' out) as Hslot.
  { intros ks. pose proof (open_slot_opened axis x st rest) as Ho. destruct (slot axis x st) as [st1 mapped].
    specialize (Ho (ready_head _ _ (S rest) _ _ Hready ltac:(rewrite Esum; unfold arg_positions; lia))).
    pose proof (Hrest _ _ Ho ks (S axis)) as H. by destruct (map_args _ _ _ _ _). }
  cbn [map_args]. destruct kinds as [|kind kinds]; [apply Hsame|]. destruct kind; [apply Hsame|apply Hslot| |apply Hslot].
  destruct x; try apply Hsame. pose proof (map_items_opened items axis st rest) as Ho.
  destruct (map_items _ items axis st) as [[st1 axis1] out]. destruct Ho as (Hst & Hroom & Hout).
  { destruct (ready_head _ _ (length items + rest) _ _ Hready ltac:(rewrite Esum; simpl; lia)) as (? & ? & ? & Hl).
    split_and!; try done. inversion Hl as [|?? Hp]; subst. by apply type_in_eq in Hp. }
  pose proof (Hrest st1 (TyPack out)) as H. specialize (H ltac:(split_and!; [done..|by apply pack_decays]) kinds axis1).
  by destruct (map_args _ _ _ _ _).
Qed.

Lemma map_slots_opened ty st n : ready st (positions ty + n) [ty] -> opened_type st n ty (map_slots shapes slot ty st).
Proof.
  revert st n. induction ty as [| | | | | | |name args _|name args _|m t IH| | | | | | | | | | | | ]; intros st n Hready;
    try (by apply unchanged_opened).
  - cbn [map_slots]. destruct (kinds_of shapes !! name) as [kinds|].
    + pose proof (map_args_opened kinds args 0 st n) as H. destruct (map_args _ _ _ _ _) as [st' out].
      destruct Hready as (? & ? & ? & Hl). inversion Hl as [|?? Hp]; subst. apply type_in_eq in Hp.
      destruct H as (Hst & Hroom & Hout); [by split_and!|]. split_and!; [done..|]. intros st'' Hq. cbn [snd erase_anonymous]. f_equal.
      by eapply decays_back_list.
    + apply unchanged_opened. eapply ready_head; [exact Hready|]. lia.
  - cbn [map_slots]. specialize (IH st n). destruct (map_slots _ _ t st) as [st' t'].
    destruct Hready as (? & ? & ? & Hl). inversion Hl as [|?? Hp]; subst.
    destruct IH as (Hst & Hroom & Ht); [split_and!; try done; by constructor|]. split_and!; [done..|]. intros st'' Hq. cbn [snd erase_anonymous]. f_equal. by apply Ht.
  - apply unchanged_opened. eapply ready_head; [exact Hready|]. lia.
Qed.
End Opening.

Lemma open_items_opened shapes items index name id span st n :
  ready st (list_sum (map positions items) + n) items ->
  let '(st', out) := open_items shapes items index name id span st in opened_list st n items st' out.
Proof.
  revert index st. induction items as [|x items IH]; intros index st Hready.
  { destruct Hready as (Hok & Hroom & _). split_and!; [by apply naming_refl|done|constructor]. }
  cbn [open_items]. unfold open_slots. set (rest := list_sum (map positions items) + n) in *.
  match goal with |- context [map_slots shapes ?f x st] => set (slot := f) end.
  pose proof (map_slots_opened shapes x name (cat [name; "."; show_Z (Z.of_nat index)]%string) (Some (show_Z (Z.of_nat index))) id span x st rest) as Ho.
  fold slot in Ho. destruct (map_slots shapes slot x st) as [st1 y].
  specialize (Ho (ready_head _ _ (positions x + rest) _ _ Hready ltac:(subst rest; simpl; lia))).
  specialize (IH (S index) st1 (ready_after _ _ _ _ _ _ Hready (proj1 Ho) (proj1 (proj2 Ho)))).
  destruct (open_items shapes items (S index) name id span st1) as [st' out]. by eapply opened_cons.
Qed.

Lemma open_fields_quiet fields name id span st :
  names_ok st -> room st (length (has_existential_fields fields)) -> quiet st (open_fields fields name id span st).
Proof.
  intros Hok Hroom. unfold open_fields.
  assert (quiet st st) as Hrefl by done. destruct (has_existential_fields fields) as [|e es]; [done|]. revert Hroom. generalize (e :: es). clear e es.
  intros es. match goal with |- context [fold_left ?f _ _] => set (step := f) end. generalize (∅ : Subst). intros m Hroom.
  assert (forall s0 m, names_ok s0 -> room s0 (length es) -> quiet st s0 -> quiet st (fold_left step es (s0, m)).1) as H.
  { clear m Hroom. induction es as [|[[existential field] axis] es IH]; intros s0 m Hok0 Hroom0 Hq; [done|]. cbn [fold_left]. unfold step at 2.
    pose proof (new_atom_naming (cat [name; "."; trim_marks existential]%string) span (SrcExtent id (Some field) axis (default TyUnknown (fields !! field)))
      (Some name) s0 (length es) Hok0 Hroom0) as Hnew.
    destruct (new_atom _ _ _ _ _) as [s1 atom]. destruct Hnew as ([Hok1 _ Hq1] & Hroom1 & _). apply IH; [done..|]. by eapply quiet_trans. }
  specialize (H st m Hok Hroom Hrefl). destruct (fold_left step es (st, m)) as [st' m']. cbn [fst] in H. destruct st', H. by split.
Qed.

Lemma quiet_arena A st st' : quiet (with_arena A st) st' -> quiet st st'.
Proof. by destruct st. Qed.

(** C12: opening the value of a binding loses nothing: the names given to its
    [Dyn] positions decay to [Dyn] again, so that the opened type decays to
    what the type itself decays to.  [k] bounds the existentials among the
    fields of a struct, and there must be room for the names to be made. *)
Theorem opening_decays shapes ty name id span st k :
  arena_ok (nd_arena st) -> type_in (nd_arena st) (unused (nd_next st)) ty -> names_ok st -> room st (positions ty + k) ->
  (forall t A fields, (fields_of shapes t A).2 = Some fields -> length (has_existential_fields fields) <= k) ->
  let '(st', opened) := open_binding shapes ty name id span st in
  erase_anonymous (is_anonymous st') (nd_arena st) opened = erase_anonymous (is_anonymous st) (nd_arena st) ty.
Proof.
  intros HA Hin Hok Hroom Hk. unfold open_binding. set (existential_fields := match strip ty with TyStruct _ _ => _ | _ => _ end).
  destruct (negb existential_fields && _); [done|].
  set (res := match ty with TyTuple _ => _ | _ => open_slots _ _ _ _ _ _ _ _ end).
  assert (opened_type st k ty res) as (Hst & Hroom' & Hd).
  { assert (ready st (positions ty + k) [ty]) as Hready by (split_and!; try done; by constructor). subst res.
    unfold open_slots. destruct ty; try (exact (map_slots_opened shapes _ name name None id span _ st k Hready)). pose proof (open_items_opened shapes items 0 name id span st k) as H.
    destruct (open_items shapes items 0 name id span st) as [st1 out]. destruct H as (? & ? & Hout); [split_and!; try done; by apply type_in_eq in Hin|].
    split_and!; [done..|]. intros st'' Hq. cbn [snd erase_anonymous]. f_equal. by eapply decays_back_list. }
  destruct res as [st1 opened]. cbn [fst snd] in *. destruct existential_fields; [|by apply Hd].
  destruct (fields_of shapes (strip opened) (nd_arena st1)) as [A fields] eqn:Ef. apply Hd, (quiet_arena A).
  destruct fields as [fields|]; [|done]. apply open_fields_quiet; [by destruct st1, Hst|].
  assert (length (has_existential_fields fields) <= k) as Hle by (apply (Hk (strip opened) (nd_arena st1)); by rewrite Ef).
  eapply room_le; [exact Hle|]. by destruct st1.
Qed.

(** ** Broadcasts *)

(** The extent of a dimension whose names have the values [rho]; [Dyn] has
    none of its own. *)
Definition extent (A : Arena) (rho : string -> Z) (ty : Type_) : option Z :=
  match ty with
  | TyGeneric n => Some (rho n)
  | TyDim (DConst e) => Some (den A rho (ce_poly e))
  | _ => None
  end.

Definition dim_valid (A : Arena) (ty : Type_) : Prop := match ty with TyDim (DConst e) => valid A (ce_poly e) | _ => True end.

(** An axis of extent [x] broadcasts to one of the same extent, or is [1]. *)
Definition broadcasts (A : Arena) (pair : Type_ * Type_) : Prop :=
  forall rho x, extent A rho pair.1 = Some x -> x = 1%Z \/ extent A rho pair.2 = Some x.

Lemma extent_eqb A rho a b : type_eqb a b = true -> extent A rho a = extent A rho b.
Proof.
  destruct a as [| | | | | | | | | | | | | | | | |[e|]| | | |], b as [| | | | | | | | | | | | | | | | |[e'|]| | | |]; cbn; try done.
  - intros ->%bool_decide_eq_true. done.
  - intros ->%Nat.eqb_eq. done.
Qed.

Lemma extent_le A B rho ty : arena_ok A -> arena_ok B -> arena_le A B -> dim_valid A ty -> extent B rho ty = extent A rho ty.
Proof. intros HA HB Hle. destruct ty as [| | | | | | | | | | | | | | | | |[e|]| | | |]; cbn [extent dim_valid]; try done. intros Hv. by rewrite (den_le A B). Qed.

Lemma broadcasts_le A B pair :
  arena_ok A -> arena_ok B -> arena_le A B -> dim_valid A pair.1 -> dim_valid A pair.2 -> broadcasts B pair <-> broadcasts A pair.
Proof. intros HA HB Hle H1 H2. unfold broadcasts. split; intros H rho x; specialize (H rho x); by rewrite !(extent_le A B) in *. Qed.

Lemma dim_valid_le A B ty : arena_le A B -> dim_valid A ty -> dim_valid B ty.
Proof. intros Hle. destruct ty as [| | | | | | | | | | | | | | | | |[e|]| | | |]; cbn; try done. by apply valid_le. Qed.

Lemma proved_equal_sound from to A :
  arena_ok A -> dim_valid A from -> dim_valid A to ->
  let '(B, equal) := proved_equal from to A in arena_ok B /\ arena_le A B /\ (equal = true -> broadcasts A (from, to)).
Proof.
  intros HA Hf Ht. destruct from as [| | | | | | | | | | | | | | | | |[a|]| | | |], to as [| | | | | | | | | | | | | | | | |[b|]| | | |]; try by split_and!.
  cbn [proved_equal]. pose proof (verdict_sound A b a HA Ht Hf) as H. destruct (verdict A b a) as [B []]; destruct H as (? & ? & H); split_and!; try done.
  intros _ rho x [= <-]. right. cbn [extent fst snd]. by rewrite H.
Qed.

Lemma broadcast_axes_sound rigid one n pairs A :
  arena_ok A -> (forall rho, extent A rho one = Some 1%Z) -> dim_valid A one -> Forall (fun p => dim_valid A p.1 /\ dim_valid A p.2) pairs ->
  let '(B, problem) := broadcast_axes rigid one n pairs A in
  arena_ok B /\ arena_le A B /\ (problem = None -> Forall (broadcasts A) pairs).
Proof.
  revert n A. induction pairs as [|[from to] pairs IH]; intros n A HA Hone Hvone Hv; [by split_and!|].
  inversion Hv as [|?? [Hf Ht] Hv']; subst. cbn [fst snd] in Hf, Ht. cbn [broadcast_axes].
  destruct (type_eqb from one || type_eqb from to) eqn:E.
  { specialize (IH (n - 1) A HA Hone Hvone Hv'). destruct (broadcast_axes _ _ _ _ _) as [B problem]. destruct IH as (HB & Hle & Hp). split_and!; [done..|].
    intros Hnone. constructor; [|by apply Hp]. intros rho x. cbn [fst snd]. apply orb_true_iff in E as [E|E]; rewrite (extent_eqb _ _ _ _ E).
    - rewrite Hone. intros [= <-]. by left.
    - by right. }
  pose proof (proved_equal_sound from to A HA Hf Ht) as Hstep. destruct (proved_equal from to A) as [B equal].
  destruct Hstep as (HB & Hle & Heq). destruct equal; [|by split_and!].
  assert (Forall (fun p => dim_valid B p.1 /\ dim_valid B p.2) pairs) as HvB.
  { eapply Forall_impl; [exact Hv'|]. intros p [??]. split; by eapply dim_valid_le. }
  assert (forall rho, extent B rho one = Some 1%Z) as HoneB by (intros rho; by rewrite (extent_le A B)).
  specialize (IH (n - 1) B HB HoneB (dim_valid_le _ _ _ Hle Hvone) HvB).
  destruct (broadcast_axes _ _ _ _ _) as [C problem]. destruct IH as (HC & HleC & Hp). split_and!; [done|by etrans|].
  intros Hnone. constructor; [by apply Heq|]. specialize (Hp Hnone). rewrite Forall_forall in *. intros p Hin.
  by apply (broadcasts_le A B), Hp; [done..|apply Hv'|apply Hv'|].
Qed.

(** C13: a broadcast that the checker accepts is one at run time, whatever the
    extents are: the source has no more axes than the target and, aligned from
    the right, each axis of known extent has the extent of its target or the
    extent one. *)
Theorem broadcast_sound rigid source target s A source_dims target_dims :
  arena_ok A -> broadcast_items s source = Some source_dims -> broadcast_items s target = Some target_dims ->
  Forall (dim_valid A) source_dims -> Forall (dim_valid A) target_dims ->
  (check_broadcast rigid source target s A).2 = None ->
  length source_dims <= length target_dims /\ Forall (broadcasts A) (zip (rev source_dims) (rev target_dims)).
Proof.
  intros HA Es Et Hs Ht. unfold check_broadcast. rewrite Es, Et. unfold ce_lit.
  destruct (arena_lit_yields A 1 HA eq_refl) as (HB & Hle & Hv & Hd). destruct (arena_lit A 1) as [B one]. cbn [fst snd] in *.
  destruct (length target_dims <? length source_dims) eqn:El; [done|]. apply Nat.ltb_ge in El. intros Hnone. split; [done|].
  assert (Forall (fun p => dim_valid A p.1 /\ dim_valid A p.2) (zip (rev source_dims) (rev target_dims))) as Hp.
  { rewrite Forall_forall in Hs, Ht. apply Forall_forall. intros [x y] Hin. split; [apply Hs|apply Ht]; apply list_elem_of_In, in_rev, list_elem_of_In;
      [by apply elem_of_zip_l in Hin|by apply elem_of_zip_r in Hin]. }
  pose proof (broadcast_axes_sound rigid (TyDim (DConst (mkConstExpr one None))) (length source_dims) (zip (rev source_dims) (rev target_dims)) B HB) as H.
  destruct (broadcast_axes _ _ _ _ _) as [C problem]. cbn [snd] in Hnone. destruct H as (_ & _ & H).
  - intros rho. cbn [extent ce_poly]. by rewrite Hd.
  - done.
  - eapply Forall_impl; [exact Hp|]. intros p [??]. split; by eapply dim_valid_le.
  - specialize (H Hnone). rewrite Forall_forall in *. intros p Hin. by apply (broadcasts_le A B); [..|by apply Hp|by apply Hp|apply H].
Qed.

(** Two [Dyn] extents are taken to be equal, although nothing is known of
    either: a broadcast from [Dyn] to [Dyn] is accepted. *)
Theorem broadcast_accepts_dyn rigid A :
  (check_broadcast rigid "D" "R" {["D"%string := TyPack [TyDim DDyn]; "R"%string := TyPack [TyDim DDyn]]} A).2 = None.
Proof. unfold check_broadcast. simpl. by destruct (ce_lit A 1). Qed.

(** ** Names for fixes *)

Definition numbered (index : nat) : string := cat ["n"; show_Z (Z.of_nat index)]%string.

Lemma numbered_inj i j : numbered i = numbered j -> i = j.
Proof. unfold numbered, cat. simpl. intros [= E]. apply show_Z_inj in E. lia. Qed.

Lemma search_witness_spec used fuel index :
  match search_witness used fuel index with
  | Some name => used name = false
  | None => forall i, index <= i < index + fuel -> used (numbered i) = true
  end.
Proof.
  revert index. induction fuel as [|fuel IH]; intros index; cbn [search_witness]; [lia|]. fold (numbered index).
  destruct (used (numbered index)) eqn:E; [|done]. specialize (IH (S index)). destruct (search_witness _ _ _); [done|].
  intros i Hi. destruct (decide (i = index)) as [->|]; [done|]. apply IH. lia.
Qed.

(** The search for a name that a fix can introduce ends: it finds one that is
    neither in scope nor taken. *)
Theorem fresh_witness_found generics taken :
  exists name, fresh_witness generics taken = Some name /\ generics !! name = None /\ name ∉ taken.
Proof.
  unfold fresh_witness. set (used := fun name => _ || _).
  assert (forall name, used name = false -> generics !! name = None /\ name ∉ taken) as Hused.
  { intros name [H1 H2]%orb_false_iff. apply bool_decide_eq_false in H1, H2. split; [by apply eq_None_not_Some|done]. }
  destruct (List.find _ _) as [name|] eqn:Ef.
  { apply find_some in Ef as [_ Ef%negb_true_iff]. exists name. auto. }
  pose proof (search_witness_spec used (S (size generics + length taken)) 1) as Hs. destruct (search_witness _ _ _) as [name|].
  { exists name. auto. }
  exfalso. set (l := map numbered (seq 1 (S (size generics + length taken)))).
  assert (l ⊆+ map fst (map_to_list generics) ++ taken) as Hsub%submseteq_length.
  { apply NoDup_submseteq; [apply NoDup_fmap; [intros ???; by apply numbered_inj|apply NoDup_seq]|].
    intros x (i & -> & [Hi1 Hi2]%elem_of_seq)%list_elem_of_fmap. specialize (Hs i ltac:(lia)). apply elem_of_app.
    apply orb_true_iff in Hs as [[ty Hty]%bool_decide_eq_true|Hs%bool_decide_eq_true]; [left|by right].
    apply list_elem_of_fmap. exists (numbered i, ty). split; [done|]. by apply elem_of_map_to_list. }
  unfold l in Hsub. rewrite length_app, !length_map, length_seq, length_map_to_list in Hsub. lia.
Qed.

(** ** A block

    [x] was bound in a block of depth two to a [Grid<f32, Dyn>], and its
    extent has the name [x.dim0@0]. *)

Definition block_state : NameState :=
  mkNameState arena_default 1 ∅ {["x.dim0@0"%string]} ∅ ∅ {["x.dim0@0"%string := 2]} [] ∅ ∅ {["n"%string := TyUnknown]} 1.

Definition block_shapes : Shapes := mkShapes {["Grid"%string := [PkType; PkPack]]} ∅ (fun _ A => (A, None)).

Definition grid (dims : list Type_) : Type_ := TyStruct "Grid" [TyFloat F32; TyPack dims].

Lemma block_state_ok : names_ok block_state.
Proof.
  split; [done|]. cbn [nd_depth block_state]. intros name [at_ [<- _]%lookup_singleton_Some]. exact (atom_text_unused "x.dim0" 0).
Qed.

Lemma end_scope_in_scope_witness :
  let '(st', ty) := end_scope (grid [TyGeneric "x.dim0@0"]) block_state in
  ty = grid [TyGeneric "x.dim0@1"] /\
  forall atom at_, atom ∈ type_atoms (nd_arena st') ty [] -> nd_depth st' !! atom = Some at_ -> at_ <= nd_scopes st'.
Proof.
  pose proof (end_scope_in_scope (grid [TyGeneric "x.dim0@0"]) block_state arena_default_ok ltac:(repeat split) block_state_ok ltac:(done)) as H.
  assert ((end_scope (grid [TyGeneric "x.dim0@0"]) block_state).2 = grid [TyGeneric "x.dim0@1"]) as E by reflexivity.
  destruct (end_scope _ _) as [st' ty]. split; [exact E|apply H].
Defined.

Lemma scope_restores_names_witness :
  let lets := [mkWitnessLet "n" (Span_new_root 0 1) false None (Some (TyGeneric "x.dim0@0")); mkWitnessLet "m" (Span_new_root 2 3) true None None] in
  let inside := run_lets lets (with_scopes 2 block_state) in
  nd_generics inside !! "m"%string = Some TyUnknown /\
  let '(st', _) := end_scope TyUnit (with_scopes 1 inside) in
  nd_generics st' = nd_generics block_state /\ nd_names st' = nd_names block_state.
Proof.
  intros lets inside. split; [reflexivity|]. apply (scope_restores_names lets TyUnit block_state). constructor.
Defined.

Lemma opening_decays_witness :
  let ty := grid [TyDim DDyn; TyGeneric "x.dim0@0"] in
  let '(st', opened) := open_binding block_shapes ty "y" 7 (Span_new_root 0 1) block_state in
  opened = grid [TyGeneric "y.dim0@1"; TyGeneric "x.dim0@0"] /\
  erase_anonymous (is_anonymous st') (nd_arena block_state) opened = erase_anonymous (is_anonymous block_state) (nd_arena block_state) ty.
Proof.
  intros ty. pose proof (opening_decays block_shapes ty "y" 7 (Span_new_root 0 1) block_state 0 arena_default_ok) as H.
  specialize (H ltac:(repeat split; exact (atom_text_unused "x.dim0" 0)) block_state_ok ltac:(done) ltac:(done)).
  assert ((open_binding block_shapes ty "y" 7 (Span_new_root 0 1) block_state).2 = grid [TyGeneric "y.dim0@1"; TyGeneric "x.dim0@0"]) as E by reflexivity.
  destruct (open_binding _ _ _ _ _ _) as [st' opened]. split; [exact E|exact H].
Defined.

(** From [1, N] to [N + 1, 8, N]: the literal one broadcasts to [8]. *)
Lemma broadcast_sound_witness :
  let source_dims := [TyDim (DConst (ex_expr 1)); TyGeneric "N"] in
  let target_dims := [TyDim (DConst (ex_expr 2)); TyDim (DConst (ex_expr 3)); TyGeneric "N"] in
  length source_dims <= length target_dims /\ Forall (broadcasts ex_arena) (zip (rev source_dims) (rev target_dims)).
Proof.
  intros source_dims target_dims.
  apply (broadcast_sound ∅ "D" "R" {["D"%string := TyPack source_dims; "R"%string := TyPack target_dims]} ex_arena).
  - exact (reachable_ok _ ex_reachable).
  - reflexivity.
  - reflexivity.
  - repeat constructor; apply ex_valid; lia.
  - repeat constructor; apply ex_valid; lia.
  - vm_compute. reflexivity.
Defined.
