(* ===== verification/Layout.v ===== *)
(** Byte layouts: [compiler/paco-mir/src/layout.rs].

    Sizes and offsets are [u64].  The additions and multiplications of
    [struct_layout] and [align_up] are checked here: [None] stands for an
    overflow (and for the division by a zero alignment), which panics in the
    source; a theorem gives the condition under which there is none. *)
From S2P Require Import Prelude Types.
Local Open Scope Z_scope.

Inductive Repr := ReprDefault | ReprC.

Record FieldLayout := mkField { fl_name : string; fl_offset : Z }.
Record Layout := mkLayout { size : Z; align : Z; fields : list FieldLayout }.

Definition leaf (size align : Z) : option Layout := Some (mkLayout size align []).

Definition scalar_layout (ty : Type_) : option Layout :=
  match ty with
  | TyUnit | TyNever | TyDim _ | TyPack _ | TySpread _ => leaf 0 1
  | TyBool => leaf 1 1
  | TyInt w => leaf (IntWidth.bytes w) (IntWidth.bytes w)
  | TyChar => leaf 4 4
  | TyFloat w => leaf (FloatWidth.bytes w) (FloatWidth.bytes w)
  | TyString => leaf 16 8
  | TySlice _ => leaf 16 8
  | TyRawPointer _ _ | TyFn _ _ _ _ => leaf 8 8
  | TyBorrow _ (TySlice _) => leaf 16 8
  | TyBorrow _ _ => leaf 8 8
  | TyTypeValue _ | TyCode => leaf 8 8
  | TyStruct _ _ | TyEnum _ _ | TyTuple _ | TyGeneric _ | TyUnknown | TyError => None
  end.

(** [offset.div_ceil(align) * align] *)
Definition div_ceil (a b : Z) : Z := let q := a / b in if a mod b =? 0 then q else q + 1.

Definition align_up (offset align : Z) : option Z :=
  if align =? 0 then None else check_u64 (div_ceil offset align * align).

(** The loop of [struct_layout]: the offset, the alignment and the fields so
    far. *)
Fixpoint place_fields (ordered : list (string * Layout)) (offset al : Z) (acc : list FieldLayout)
  : option (Z * Z * list FieldLayout) :=
  match ordered with
  | [] => Some (offset, al, acc)
  | (name, l) :: rest =>
      let al := Z.max al (align l) in
      offset ← align_up offset (align l);
      offset' ← check_u64 (offset + size l);
      place_fields rest offset' al (acc ++ [mkField name offset])
  end.

(** [sort_by_key(Reverse(align))], stable; [Repr::C] keeps the order. *)
Definition field_order (fs : list (string * Layout)) (repr : Repr) : list (string * Layout) :=
  match repr with
  | ReprDefault => stable_sort (fun a b => align b.2 <=? align a.2) fs
  | ReprC => fs
  end.

Definition struct_layout (fs : list (string * Layout)) (repr : Repr) : option Layout :=
  '(offset, al, placed) ← place_fields (field_order fs repr) 0 1 [];
  sz ← align_up offset al;
  Some (mkLayout sz al placed).

(** ** Well-formed layouts *)

(** The alignments of the machine. *)
Definition is_align (a : Z) : Prop := a = 1 \/ a = 2 \/ a = 4 \/ a = 8.

Definition layout_wf (l : Layout) : Prop :=
  is_align (align l) /\ 0 <= size l <= u64_max /\ (align l | size l).

Lemma is_align_pos a : is_align a -> 0 < a.
Proof. unfold is_align. lia. Qed.

Lemma is_align_max a b : is_align a -> is_align b -> is_align (Z.max a b).
Proof. unfold is_align. lia. Qed.

(** Every alignment divides the larger ones. *)
Lemma is_align_divide a b : is_align a -> is_align b -> a <= b -> (a | b).
Proof.
  intros [->|[->|[->| ->]]] [->|[->|[->| ->]]] Hle; try lia;
    match goal with |- (?x | ?y) => exists (y / x); reflexivity end.
Qed.

Lemma div_ceil_bounds a b : 0 < b -> 0 <= a -> a <= div_ceil a b * b < a + b.
Proof.
  intros Hb Ha. unfold div_ceil. pose proof (Z.div_mod a b ltac:(lia)). pose proof (Z.mod_pos_bound a b Hb).
  destruct (Z.eqb_spec (a mod b) 0); nia.
Qed.

Lemma align_up_spec offset a r :
  0 < a -> 0 <= offset -> align_up offset a = Some r -> offset <= r < offset + a /\ (a | r) /\ r <= u64_max.
Proof.
  intros Ha Ho. unfold align_up. destruct (Z.eqb_spec a 0); [lia|].
  intros [-> Hr]%check_u64_some. pose proof (div_ceil_bounds offset a Ha Ho).
  split_and!; [lia..| |lia]. by exists (div_ceil offset a).
Qed.

Lemma align_up_total offset a : 0 < a -> 0 <= offset -> offset + a - 1 <= u64_max -> exists r, align_up offset a = Some r.
Proof.
  intros Ha Ho Hb. unfold align_up. destruct (Z.eqb_spec a 0); [lia|].
  pose proof (div_ceil_bounds offset a Ha Ho). exists (div_ceil offset a * a). apply check_u64_some. lia.
Qed.

Lemma scalar_layout_wf ty l : scalar_layout ty = Some l -> layout_wf l.
Proof.
  assert (forall s a, is_align a -> 0 <= s <= 16 -> (a | s) -> layout_wf (mkLayout s a [])) as Hwf.
  { intros s a Ha Hs Hd. split_and!; simpl; [done|unfold u64_max; lia..|done]. }
  unfold scalar_layout, leaf. intros E.
  destruct ty; simplify_eq; try (apply Hwf; [unfold is_align; lia|lia|]); try (by exists 0); try (by exists 1); try (by exists 2).
  - apply Hwf; [destruct w; unfold is_align; simpl; lia|destruct w; simpl; lia|by exists 1; lia].
  - apply Hwf; [destruct w; unfold is_align; simpl; lia|destruct w; simpl; lia|by exists 1; lia].
  - destruct ty; simplify_eq; apply Hwf; try (unfold is_align; lia); try lia; (by exists 1) || by exists 2.
Qed.

(** The fields [ordered] sit at the offsets [placed], from [start] to [stop]:
    each at a multiple of its alignment, and each after the end of the one
    before, with less padding than its alignment. *)
Inductive placed_in : Z -> list (string * Layout) -> list FieldLayout -> Z -> Prop :=
| placed_nil start : placed_in start [] [] start
| placed_cons start name l ordered offset placed stop :
    start <= offset < start + align l -> (align l | offset) ->
    placed_in (offset + size l) ordered placed stop ->
    placed_in start ((name, l) :: ordered) (mkField name offset :: placed) stop.

Lemma place_fields_spec ordered start al acc offset al' placed :
  Forall (fun f => layout_wf f.2) ordered -> 0 <= start -> is_align al ->
  place_fields ordered start al acc = Some (offset, al', placed) ->
  exists new, placed = acc ++ new /\ placed_in start ordered new offset /\
    al' = foldr (fun f a => Z.max (align f.2) a) al ordered /\ is_align al' /\ 0 <= offset.
Proof.
  intros HF. revert start al acc. induction HF as [|[name l] ordered Hl HF IH]; intros start al acc Hs Ha; simpl.
  { intros [= <- <- <-]. exists []. rewrite app_nil_r. split_and!; [done|constructor|done..]. }
  destruct Hl as (Hal & Hsz & _). simpl in Hal, Hsz.
  intros (o & Ho & (o' & [-> Ho']%check_u64_some & H)%bind_Some)%bind_Some.
  apply align_up_spec in Ho as (Hb & Hd & _); [|by apply is_align_pos|done].
  apply IH in H as (new & -> & Hp & -> & Hal' & ?); [|lia|by apply is_align_max].
  exists (mkField name o :: new). rewrite <- app_assoc. split_and!; [done|by constructor| |done..].
  clear. induction ordered as [|[n x] ordered IH]; simpl; lia.
Qed.

Lemma placed_in_le start ordered placed stop :
  Forall (fun f => layout_wf f.2) ordered -> placed_in start ordered placed stop -> start <= stop.
Proof.
  intros HF Hp. induction Hp as [|start name l ordered o placed stop Ho Hd Hp IH]; [lia|].
  inversion HF as [|? ? Hl HF']; subst. specialize (IH HF'). destruct Hl as (_ & Hs & _). simpl in Hs. lia.
Qed.

Lemma placed_in_names start ordered placed stop :
  placed_in start ordered placed stop -> map fl_name placed = map fst ordered.
Proof. induction 1; simpl; congruence. Qed.

(** Two fields do not overlap, and each ends before [stop]. *)
Lemma placed_in_lookup start ordered placed stop i name l :
  Forall (fun f => layout_wf f.2) ordered -> placed_in start ordered placed stop ->
  ordered !! i = Some (name, l) ->
  exists o, placed !! i = Some (mkField name o) /\ start <= o /\ (align l | o) /\ o + size l <= stop /\
    forall j o' n', (i < j)%nat -> placed !! j = Some (mkField n' o') -> o + size l <= o'.
Proof.
  intros HF Hp. revert i. induction Hp as [|start n0 l0 ordered o placed stop Ho Hd Hp IH]; intros i Hi; [done|].
  inversion HF as [|? ? Hl0 HF']; subst. specialize (IH HF').
  destruct i as [|i]; simpl in Hi.
  - injection Hi as -> ->. exists o. split_and!; [done|lia|done|by eapply placed_in_le|].
    intros [|j] o' n' Hj Hlk; [lia|]. simpl in Hlk.
    assert (length placed = length ordered) as Hlen.
    { rewrite <- (length_map fl_name), (placed_in_names _ _ _ _ Hp). apply length_map. }
    destruct (lookup_lt_is_Some_2 ordered j) as [[nj lj] Hj']; [rewrite <- Hlen; by eapply lookup_lt_Some|].
    clear IH. revert j Hlk Hj' Hj. clear Hd Hlen Hl0 HF Ho.
    assert (forall s ord pl st, Forall (fun f => layout_wf f.2) ord -> placed_in s ord pl st ->
              forall j f, pl !! j = Some f -> s <= fl_offset f) as Hge.
    { clear. intros s ord pl st HF Hp. induction Hp as [|s n l ord o pl st Ho Hd Hp IH]; intros j f Hj; [done|].
      inversion HF as [|? ? Hl HF']; subst. destruct j; simpl in Hj; [injection Hj as <-; simpl; lia|].
      specialize (IH HF' _ _ Hj). destruct Hl as (_ & Hs & _). simpl in Hs. lia. }
    intros j Hlk _ _. by apply (Hge _ _ _ _ HF' Hp j (mkField n' o')).
  - destruct (IH i Hi) as (o1 & H1 & H2 & H3 & H4 & H5). exists o1. destruct Hl0 as (_ & Hs & _). simpl in Hs.
    split_and!; [done|lia|done..|]. intros [|j] o' n' Hj Hlk; [lia|]. apply (H5 j o' n'); [lia|done].
Qed.

(** ** Theorems *)

Lemma field_order_perm fs repr : field_order fs repr ≡ₚ fs.
Proof. destruct repr; [apply stable_sort_perm|done]. Qed.

Lemma max_align_perm al (fs gs : list (string * Layout)) : fs ≡ₚ gs ->
  foldr (fun f a => Z.max (align f.2) a) al fs = foldr (fun f a => Z.max (align f.2) a) al gs.
Proof. induction 1; simpl; lia. Qed.

Lemma struct_layout_inv fs repr L :
  Forall (fun f => layout_wf f.2) fs -> struct_layout fs repr = Some L ->
  exists stop, placed_in 0 (field_order fs repr) (fields L) stop /\ stop <= size L < stop + align L /\
    align L = foldr (fun f a => Z.max (align f.2) a) 1 (field_order fs repr) /\ layout_wf L /\
    Forall (fun f => layout_wf f.2) (field_order fs repr).
Proof.
  intros HF H. unfold struct_layout in H.
  assert (Forall (fun f => layout_wf f.2) (field_order fs repr)) as HF' by (by rewrite field_order_perm).
  apply bind_Some in H as ([[offset al] placed] & Hp & (sz & Hsz & [= <-])%bind_Some).
  apply place_fields_spec in Hp as (new & -> & Hp & Hal & Hia & Ho); [|done|lia|unfold is_align; lia].
  apply align_up_spec in Hsz as (Hb & Hd & Hm); [|by apply is_align_pos|done].
  exists offset. simpl. split_and!; [done|lia..|done| |done]. split_and!; simpl; [done|lia..|done].
Qed.

(** Where a named field sits, when the names are distinct. *)
Lemma struct_layout_field fs repr L :
  Forall (fun f => layout_wf f.2) fs -> struct_layout fs repr = Some L -> NoDup (map fst fs) ->
  NoDup (map fl_name (fields L)) /\
  (forall name o, mkField name o ∈ fields L -> exists l, (name, l) ∈ fs) /\
  forall name l, (name, l) ∈ fs ->
    exists o, mkField name o ∈ fields L /\ 0 <= o /\ (align l | o) /\ o + size l <= size L /\
      forall name' l' o', (name', l') ∈ fs -> name <> name' -> mkField name' o' ∈ fields L ->
        o + size l <= o' \/ o' + size l' <= o.
Proof.
  intros HF H Hnd. destruct (struct_layout_inv fs repr L HF H) as (stop & Hp & Hb & _ & _ & HF').
  pose proof (placed_in_names _ _ _ _ Hp) as Hnames. pose proof (field_order_perm fs repr) as Hperm.
  assert (NoDup (map fl_name (fields L))) as Hnd' by (rewrite Hnames; by rewrite Hperm).
  assert (forall i name l, field_order fs repr !! i = Some (name, l) ->
            exists o, fields L !! i = Some (mkField name o) /\ 0 <= o /\ (align l | o) /\ o + size l <= size L /\
              forall j o' n', (i < j)%nat -> fields L !! j = Some (mkField n' o') -> o + size l <= o') as Hlk.
  { intros i name l Hi. destruct (placed_in_lookup _ _ _ _ i name l HF' Hp Hi) as (o & ? & ? & ? & ? & ?).
    exists o. split_and!; [done..|lia|done]. }
  assert (forall i j n o o', fields L !! i = Some (mkField n o) -> fields L !! j = Some (mkField n o') -> i = j) as Huniq.
  { intros i j n o o' Hi Hj. eapply NoDup_lookup; [exact Hnd'|..]; rewrite list_lookup_fmap; [by rewrite Hi|by rewrite Hj]. }
  assert (forall name l, (name, l) ∈ fs -> exists i, field_order fs repr !! i = Some (name, l)) as Hidx.
  { intros name l Hin. apply list_elem_of_lookup. by rewrite Hperm. }
  split_and!; [done| |].
  - intros name o Hin. assert (name ∈ map fst fs) as Hn.
    { rewrite <- Hperm, <- Hnames. by apply (list_elem_of_fmap_2 fl_name _ (mkField name o)). }
    apply list_elem_of_fmap_1 in Hn as ([n l] & -> & Hn). by exists l.
  - intros name l Hin. destruct (Hidx name l Hin) as [i Hi]. destruct (Hlk i name l Hi) as (o & Ho & H0 & H1 & H2 & H3).
    exists o. split_and!; [by eapply list_elem_of_lookup_2|done..|].
    intros name' l' o' Hin' Hne Ho'. destruct (Hidx name' l' Hin') as [j Hj].
    destruct (Hlk j name' l' Hj) as (o2 & Ho2 & _ & _ & _ & H3').
    apply list_elem_of_lookup_1 in Ho' as [j' Hj']. pose proof (Huniq _ _ _ _ _ Ho2 Hj') as <-.
    rewrite Ho2 in Hj'. injection Hj' as ->.
    destruct (lt_eq_lt_dec i j) as [[Hlt| ->]|Hlt]; [left; by eapply H3|congruence|right; by eapply H3'].
Qed.

(** C31: [struct_layout] is a correct layout: it places every field, in an order
    that is a permutation of the declared ones ([Repr::C]: the declared order);
    each field sits at a multiple of its alignment and inside the struct, no
    two fields overlap; the struct's alignment is the largest of its fields'
    (1 without fields) and its size a multiple of it.  No padding is wasted:
    each field sits at the first multiple of its alignment after the one before
    it, and the size is the first multiple of the alignment after the last. *)
Theorem struct_layout_correct fs repr L :
  Forall (fun f => layout_wf f.2) fs -> struct_layout fs repr = Some L ->
  let ordered := field_order fs repr in
  ordered ≡ₚ fs /\ (repr = ReprC -> ordered = fs) /\ map fl_name (fields L) = map fst ordered /\ layout_wf L /\
  align L = foldr (fun f a => Z.max (align f.2) a) 1 fs /\
  (forall i name l, ordered !! i = Some (name, l) ->
     exists o, fields L !! i = Some (mkField name o) /\ 0 <= o /\ (align l | o) /\ o + size l <= size L /\
       forall j o' n', (i < j)%nat -> fields L !! j = Some (mkField n' o') -> o + size l <= o') /\
  exists stop, placed_in 0 ordered (fields L) stop /\ stop <= size L < stop + align L.
Proof.
  intros HF H ordered. destruct (struct_layout_inv fs repr L HF H) as (stop & Hp & Hb & Hal & Hwf & HF').
  split_and!; [apply field_order_perm|by intros ->|by eapply placed_in_names|done| | |by exists stop].
  - rewrite Hal. apply max_align_perm, field_order_perm.
  - intros i name l Hi. destruct (placed_in_lookup _ _ _ _ i name l HF' Hp Hi) as (o & H1 & H2 & H3 & H4 & H5).
    exists o. split_and!; [done..|lia|done].
Qed.

Fixpoint total_size (fs : list (string * Layout)) : Z :=
  match fs with
  | [] => 0
  | f :: fs' => size f.2 + total_size fs'
  end.

Lemma total_size_perm fs gs : fs ≡ₚ gs -> total_size fs = total_size gs.
Proof. induction 1; simpl; lia. Qed.

(** Fields by decreasing alignment leave no gap. *)
Lemma placed_in_packed start ordered placed stop :
  StronglySorted (fun a b => (align b.2 <=? align a.2) = true) ordered ->
  Forall (fun f => layout_wf f.2) ordered -> Forall (fun f => (align f.2 | start)) ordered ->
  placed_in start ordered placed stop -> stop = start + total_size ordered.
Proof.
  intros Hs HF Hst Hp. induction Hp as [|start name l ordered o placed stop Ho Hd Hp IH]; [simpl; lia|].
  inversion Hs as [|? ? Hs' Hal]; subst. inversion HF as [|? ? (Hl1 & Hl2 & Hl3) HF']; subst.
  inversion Hst as [|? ? Hd0 Hst']; subst. simpl in *.
  assert (o = start) as ->.
  { destruct Hd as [x ->], Hd0 as [y ->]. apply is_align_pos in Hl1.
    assert (y <= x) by nia. assert (x < y + 1) by nia. f_equal. lia. }
  rewrite IH; [lia|done..|]. rewrite Forall_forall in *. intros f Hf.
  specialize (Hal f Hf). destruct (HF' f Hf) as (Ha & _).
  apply Z.divide_add_r; [by apply Hst'|]. transitivity (align l); [|done]. apply is_align_divide; [done..|]. simpl in Hal. lia.
Qed.

(** the default representation wastes nothing between fields: with the
    fields reordered by decreasing alignment, the size is the sum of the field
    sizes rounded up to the alignment, so the padding is less than one
    alignment. *)
Theorem default_layout_packed fs L :
  Forall (fun f => layout_wf f.2) fs -> struct_layout fs ReprDefault = Some L ->
  total_size fs <= size L < total_size fs + align L.
Proof.
  intros HF H. destruct (struct_layout_inv fs ReprDefault L HF H) as (stop & Hp & Hb & _ & _ & HF').
  apply placed_in_packed in Hp; [| |done|].
  - rewrite Hp, (total_size_perm _ _ (field_order_perm fs ReprDefault)) in Hb. lia.
  - apply stable_sort_sorted; intros; lia.
  - rewrite Forall_forall. intros f _. by exists 0.
Qed.

Lemma place_fields_total ordered start al acc :
  Forall (fun f => layout_wf f.2) ordered -> 0 <= start -> start + total_size ordered + 8 * Z.of_nat (length ordered) <= u64_max ->
  exists offset al' placed, place_fields ordered start al acc = Some (offset, al', placed) /\
    offset <= start + total_size ordered + 8 * Z.of_nat (length ordered).
Proof.
  intros HF. revert start al acc. induction HF as [|[n l] ordered Hl HF IH]; intros start al acc Hs Hb; cbn [place_fields].
  { do 3 eexists. split; [done|]. simpl. lia. }
  destruct Hl as (Ha & Hsz & _). simpl in Ha, Hsz. pose proof (is_align_pos _ Ha).
  assert (align l <= 8) by (unfold is_align in Ha; lia).
  assert (0 <= total_size ordered).
  { clear -HF. induction HF as [|[? ?] ? (_ & ? & _) ? ?]; simpl in *; lia. }
  cbn [total_size length snd] in Hb. rewrite Nat2Z.inj_succ in Hb.
  destruct (align_up_total start (align l)) as [o Ho]; [lia..|]. rewrite Ho. cbn [mbind option_bind].
  apply align_up_spec in Ho as (Hob & _ & _); [|lia..].
  destruct (check_u64 (o + size l)) as [o'|] eqn:E.
  2: { unfold check_u64, in_u64 in E. destruct (_ && _) eqn:E2; [done|]. lia. }
  apply check_u64_some in E as [-> _]. cbn [mbind option_bind].
  destruct (IH (o + size l) (Z.max al (align l)) (acc ++ [mkField n o])) as (a & b & c & Hp1 & Hp2); [lia..|].
  exists a, b, c. split; [done|]. cbn [total_size length snd]. rewrite Nat2Z.inj_succ. lia.
Qed.

(** [struct_layout] does not overflow: when the field sizes and eight bytes
    of padding per field (and eight more for the end) fit in a [u64], it
    returns a layout. *)
Theorem struct_layout_total fs repr :
  Forall (fun f => layout_wf f.2) fs -> total_size fs + 8 * Z.of_nat (length fs) + 8 <= u64_max ->
  exists L, struct_layout fs repr = Some L.
Proof.
  intros HF Hb. pose proof (field_order_perm fs repr) as Hperm.
  assert (Forall (fun f => layout_wf f.2) (field_order fs repr)) as HF' by (by rewrite Hperm).
  rewrite <- (total_size_perm _ _ Hperm), <- (Permutation_length Hperm) in Hb.
  destruct (place_fields_total (field_order fs repr) 0 1 []) as (o & al & pl & Hp & Ho); [done|lia..|].
  unfold struct_layout. rewrite Hp. cbn [mbind option_bind].
  apply place_fields_spec in Hp as (_ & _ & _ & _ & Hal & Hge); [|done|lia|unfold is_align; lia].
  pose proof (is_align_pos _ Hal). assert (al <= 8) by (unfold is_align in Hal; lia).
  destruct (align_up_total o al) as [sz Hsz]; [lia..|]. rewrite Hsz. by eexists.
Qed.

(** The fields of the documentation's example: [bool], [i64], [bool]. *)
Definition ex_fields : list (string * Layout) :=
  [("a"%string, mkLayout 1 1 []); ("b"%string, mkLayout 8 8 []); ("c"%string, mkLayout 1 1 [])].

Lemma ex_fields_wf : Forall (fun f => layout_wf f.2) ex_fields.
Proof.
  apply Forall_cons_2; [by apply (scalar_layout_wf TyBool)|].
  apply Forall_cons_2; [by apply (scalar_layout_wf (TyInt I64))|].
  apply Forall_cons_2; [by apply (scalar_layout_wf TyBool)|]. constructor.
Qed.

Lemma struct_layout_correct_witness :
  struct_layout ex_fields ReprC = Some (mkLayout 24 8 [mkField "a" 0; mkField "b" 8; mkField "c" 16]) /\
  layout_wf (mkLayout 24 8 [mkField "a" 0; mkField "b" 8; mkField "c" 16]).
Proof.
  assert (struct_layout ex_fields ReprC = Some (mkLayout 24 8 [mkField "a" 0; mkField "b" 8; mkField "c" 16])) as E
    by (vm_compute; reflexivity).
  split; [exact E|].
  destruct (struct_layout_correct ex_fields ReprC _ ex_fields_wf E) as (_ & _ & _ & H & _). exact H.
Defined.

Lemma default_layout_packed_witness :
  struct_layout ex_fields ReprDefault = Some (mkLayout 16 8 [mkField "b" 0; mkField "a" 8; mkField "c" 9]) /\ 10 <= 16 < 18.
Proof.
  assert (struct_layout ex_fields ReprDefault = Some (mkLayout 16 8 [mkField "b" 0; mkField "a" 8; mkField "c" 9])) as E
    by (vm_compute; reflexivity).
  split; [exact E|]. exact (default_layout_packed ex_fields _ ex_fields_wf E).
Defined.

Lemma struct_layout_total_witness : exists L, struct_layout ex_fields ReprDefault = Some L.
Proof. apply (struct_layout_total ex_fields ReprDefault ex_fields_wf). vm_compute. discriminate. Defined.
