(* ===== verification/TypeLayout.v ===== *)
(** Layouts of declared types: [compiler/paco-mir/src/type_layout.rs].

    [TypeLayouts] is split into what construction fixes ([Decls]) and what the
    [RefCell]s of the source change ([Caches], with the arena of dimensions).
    A panic of the source is an error value; a layout recursion that does not
    end runs out of the fuel, which is its own error. *)
From S2P Require Import Prelude BTreeMap Ast Types Dims Generics Layout.
Local Open Scope Z_scope.

Definition DISCRIMINANT_SIZE : Z := 8.
Definition DEFAULT_MAX_INSTANTIATIONS_PER_ITEM : nat := 4096.
Definition LIVE_FIELD : string := "#live".

(** ** Fields of the declarations *)

Definition sd_name (d : StructDecl) : string := let 'mkStructDecl n _ _ _ _ _ _ _ _ := d in n.
Definition sd_generics (d : StructDecl) : list GenericParam := let 'mkStructDecl _ g _ _ _ _ _ _ _ := d in g.
Definition sd_fields (d : StructDecl) : list FieldDecl := let 'mkStructDecl _ _ f _ _ _ _ _ _ := d in f.
Definition sd_methods (d : StructDecl) : list FnDecl := let 'mkStructDecl _ _ _ m _ _ _ _ _ := d in m.
Definition ed_name (d : EnumDecl) : string := let 'mkEnumDecl n _ _ _ _ _ _ _ := d in n.
Definition ed_generics (d : EnumDecl) : list GenericParam := let 'mkEnumDecl _ g _ _ _ _ _ _ := d in g.
Definition ed_variants (d : EnumDecl) : list EnumVariant := let 'mkEnumDecl _ _ v _ _ _ _ _ := d in v.
Definition ed_methods (d : EnumDecl) : list FnDecl := let 'mkEnumDecl _ _ _ m _ _ _ _ := d in m.
Definition fd_name (d : FieldDecl) : string := let 'mkFieldDecl n _ _ _ _ := d in n.
Definition fd_ty (d : FieldDecl) : Ty := let 'mkFieldDecl _ t _ _ _ := d in t.
Definition ev_name (d : EnumVariant) : string := let 'mkEnumVariant n _ _ _ := d in n.
Definition ev_fields (d : EnumVariant) : VariantFields := let 'mkEnumVariant _ f _ _ := d in f.

(** ** Construction *)

Record Decls := mkDecls {
  struct_decls : gmap string StructDecl;
  enum_decls : gmap string EnumDecl;
  extra_drops : gset string;
  max_instantiations : nat }.

Definition qualify (qualifier name : string) : string :=
  if bool_decide (qualifier = ""%string) then name else (qualifier +:+ "::" +:+ name)%string.

Definition Tables : Type := gmap string StructDecl * gmap string EnumDecl.

Definition collect_decls (m : Module) (qualifier : string) (t : Tables) : Tables :=
  fold_left
    (fun t item =>
       match item with
       | IStruct d => (<[qualify qualifier (sd_name d) := d]> t.1, t.2)
       | IEnum d => (t.1, <[qualify qualifier (ed_name d) := d]> t.2)
       | _ => t
       end) (items m) t.

(** [entry(key).or_insert(value)] *)
Definition or_insert {A} (k : string) (a : A) (m : gmap string A) : gmap string A :=
  match m !! k with Some _ => m | None => <[k := a]> m end.

Definition collect_imported_decls (m : Module) (qualifier : string) (t : Tables) : Tables :=
  fold_left
    (fun t item =>
       match item with
       | IStruct d => (or_insert (sd_name d) d (or_insert (qualify qualifier (sd_name d)) d t.1), t.2)
       | IEnum d => (t.1, or_insert (ed_name d) d (or_insert (qualify qualifier (ed_name d)) d t.2))
       | _ => t
       end) (items m) t.

Definition declares_drop (methods : list FnDecl) : bool :=
  existsb (fun f => bool_decide (fn_name f = "drop"%string)) methods.

(** The type a [methods] block with a [drop] is for. *)
Definition extra_drop (i : Item) : option string :=
  match i with
  | IMethods (mkMethodsBlock _ target methods _ _) =>
      if declares_drop methods then
        match target with TPath path _ | TGeneric path _ _ => last path | _ => None end
      else None
  | _ => None
  end.

Definition from_module_with_imports (m : Module) (imports : list (string * Module)) : Decls :=
  let '(structs, enums) :=
    fold_left (fun t q => collect_imported_decls q.2 q.1 t) imports (collect_decls m "" (∅, ∅)) in
  mkDecls structs enums
    (list_to_set (omap extra_drop (flat_map items (m :: map snd imports))))
    DEFAULT_MAX_INSTANTIATIONS_PER_ITEM.

Definition from_module (m : Module) : Decls := from_module_with_imports m [].

Definition with_max_instantiations (D : Decls) (max : nat) : Decls :=
  mkDecls (struct_decls D) (enum_decls D) (extra_drops D) max.

(** ** State and errors *)

Record StructInfo := mkStructInfo {
  si_layout : Layout; si_fields : gmap string (Type_ * Z); si_live : option Z }.

Record EnumInfo := mkEnumInfo {
  ei_layout : Layout; ei_variants : gmap string (list (Type_ * Z)); ei_index : gmap string Z; ei_live : option Z }.

Definition Key : Type := string * list Type_.
Definition key_eqb (a b : Key) : bool := bool_decide (a.1 = b.1) && list_eqb type_eqb a.2 b.2.

Record Caches := mkCaches {
  arena : Arena;
  struct_cache : list (Key * StructInfo);
  enum_cache : list (Key * EnumInfo);
  struct_in_progress : list Key;
  enum_in_progress : list Key }.

Definition caches_new (A : Arena) : Caches := mkCaches A [] [] [] [].

Inductive LayoutError :=
| PanicRecursive (name : string)
| PanicCap (name : string)
| PanicUnknown (name : string)
| PanicUnsupported
| PanicOverflow
| OutOfFuel.

Definition M (A : Type) : Type := Caches -> result (A * Caches) LayoutError.
Definition ret {A} (a : A) : M A := fun C => Ok (a, C).
Definition panic {A} (e : LayoutError) : M A := fun _ => Err e.
Definition bind {A B} (m : M A) (k : A -> M B) : M B :=
  fun C => match m C with Ok (a, C) => k a C | Err e => Err e end.
Definition lift_opt {A} (o : option A) (e : LayoutError) : M A := match o with Some a => ret a | None => panic e end.

Notation "x <- m ;; k" := (bind m (fun x => k)) (at level 100, m at next level, right associativity).

Fixpoint mapM {A B} (f : A -> M B) (l : list A) : M (list B) :=
  match l with
  | [] => ret []
  | x :: l' => y <- f x ;; ys <- mapM f l' ;; ret (y :: ys)
  end.

(** An operation on the arena. *)
Definition on_arena {A} (f : Arena -> Arena * A) : M A :=
  fun C =>
    let '(ar, a) := f (arena C) in
    Ok (a, mkCaches ar (struct_cache C) (enum_cache C) (struct_in_progress C) (enum_in_progress C)).

(** ** Names the compiler knows *)

Definition is_builtin_handle (name : string) : bool :=
  existsb (fun h => bool_decide (h = name))
    ["Rc"; "Arc"; "Cell"; "RefCell"; "Mutex"; "RwLock"; "Sender"; "Receiver"; "JoinHandle"; "Generator";
     "TcpListener"; "TcpStream"]%string.

Definition builtin_ty (name : string) : option Type_ :=
  let named n := bool_decide (name = n) in
  if named "i8"%string then Some (TyInt I8)
  else if named "i16"%string then Some (TyInt I16)
  else if named "i32"%string then Some (TyInt I32)
  else if named "i64"%string then Some (TyInt I64)
  else if named "u8"%string || named "byte"%string then Some (TyInt U8)
  else if named "u16"%string then Some (TyInt U16)
  else if named "u32"%string then Some (TyInt U32)
  else if named "u64"%string then Some (TyInt U64)
  else if named "char"%string then Some TyChar
  else match FloatWidth.from_name name with
       | Some w => Some (TyFloat w)
       | None =>
           if named "bool"%string then Some TyBool
           else if named "string"%string then Some TyString
           else if named "type"%string then Some (TyTypeValue TyUnknown)
           else None
       end.

Definition prelude_error_ty (name : string) : option Type_ :=
  if existsb (fun h => bool_decide (h = name)) ["SendError"; "RecvError"; "TaskPanic"]%string
  then Some (TyStruct name []) else None.

Definition prelude_error_fields (name : string) : list (string * Type_ * Z) :=
  if bool_decide (name = "TaskPanic"%string) then [("message"%string, TyString, 0)] else [].

Definition prelude_error_struct (name : string) : option (Type_ * Layout) :=
  let fs := prelude_error_fields name in
  let sz :=
    fold_left Z.max
      (map (fun '(_, ty, off) => off + match scalar_layout ty with Some l => size l | None => 8 end) fs) 0 in
  let l := mkLayout sz (match fs with [] => 1 | _ => 8 end) (map (fun '(n, _, off) => mkField n off) fs) in
  match prelude_error_ty name with Some ty => Some (ty, l) | None => None end.

(** [name.rsplit("::").next()]: what follows the last separator. *)
Fixpoint has_sep (s : string) : bool :=
  match s with
  | EmptyString => false
  | String a rest => match s with String ":" (String ":" _) => true | _ => has_sep rest end
  end.

Fixpoint last_segment (s : string) : string :=
  match s with
  | EmptyString => s
  | String a rest =>
      if has_sep rest then last_segment rest
      else match s with String ":" (String ":" r) => r | _ => s end
  end.

Definition has_key {A} (m : gmap string A) (k : string) : bool := match m !! k with Some _ => true | None => false end.

(** [path.join("::")] *)
Fixpoint join (path : list string) : string :=
  match path with
  | [] => ""
  | [p] => p
  | p :: rest => (p +:+ "::" +:+ join rest)%string
  end.

(** The arguments of a generic type along its parameters; [args] are those
    from the parameter's index on. *)
Fixpoint missing_arg_templates (params : list GenericParam) : list Type_ :=
  match params with
  | [] => []
  | p :: ps => (match gp_kind p with KConstPack _ => [TyPack []] | _ => [] end) ++ missing_arg_templates ps
  end.

Fixpoint arg_templates (resolve const_arg : Ty -> M Type_) (args : list Ty) (params : list GenericParam) : M (list Type_) :=
  match args with
  | [] => ret (missing_arg_templates params)
  | a :: args' =>
      match params with
      | [] => ret []
      | p :: ps =>
          t <- match gp_kind p with
               | KConstPack _ =>
                   match args with
                   | [TExpand name _] => ret (TyGeneric name)
                   | _ => ts <- mapM const_arg args ;; ret (TyPack ts)
                   end
               | KConst _ => const_arg a
               | _ => resolve a
               end ;;
          ts <- arg_templates resolve const_arg args' ps ;;
          ret (t :: ts)
      end
  end.

Definition not_lifetime (p : GenericParam) : bool := match gp_kind p with KLifetime => false | _ => true end.

Definition const_arg_template (ty : Ty) (generics : list string) : M Type_ :=
  match ty with
  | TExpand name _ => if bool_decide (name ∈ generics) then ret (TyGeneric name) else ret (TyDim DDyn)
  | TPath [p] _ => if bool_decide (p ∈ generics) then ret (TyGeneric p) else ret (TyDim DDyn)
  | TConst (ELiteral (LInt value) _) _ => e <- on_arena (fun A => ce_lit A value) ;; ret (TyDim (DConst e))
  | _ => ret (TyDim DDyn)
  end.

Section Layouts.
Context (D : Decls).

Definition has_struct (name : string) : bool :=
  has_key (struct_decls D) name || match prelude_error_ty name with Some _ => true | None => false end.

Definition has_drop (name : string) (methods : list FnDecl) : bool :=
  declares_drop methods || bool_decide (last_segment name ∈ extra_drops D).

Fixpoint resolve_ty_template (ty : Ty) (generics : list string) : M Type_ :=
  match ty with
  | TPath [p] _ =>
      if bool_decide (p ∈ generics) then ret (TyGeneric p)
      else match builtin_ty p with
           | Some ty => ret ty
           | None =>
               match prelude_error_ty p with
               | Some ty => ret ty
               | None =>
                   if has_key (struct_decls D) p then ret (TyStruct p [])
                   else if has_key (enum_decls D) p then ret (TyEnum p [])
                   else if is_builtin_handle p then ret (TyStruct p [])
                   else panic (PanicUnknown p)
               end
           end
  | TPath path _ =>
      let key := join path in
      if has_key (struct_decls D) key then ret (TyStruct key [])
      else if has_key (enum_decls D) key then ret (TyEnum key [])
      else panic (PanicUnknown key)
  | TGeneric path args _ =>
      let key := join path in
      let templates params :=
        arg_templates (fun t => resolve_ty_template t generics) (fun t => const_arg_template t generics) args
          (List.filter not_lifetime params) in
      match struct_decls D !! key, enum_decls D !! key with
      | Some decl, _ => ts <- templates (sd_generics decl) ;; ret (TyStruct key ts)
      | None, Some decl => ts <- templates (ed_generics decl) ;; ret (TyEnum key ts)
      | None, None =>
          if is_builtin_handle key
          then ts <- mapM (fun t => resolve_ty_template t generics) args ;; ret (TyStruct key ts)
          else panic (PanicUnknown key)
      end
  | TConst _ _ | TDynDim _ | TExpand _ _ => const_arg_template ty generics
  | TSlice elem _ => t <- resolve_ty_template elem generics ;; ret (TySlice t)
  | TBorrow m _ ty _ => t <- resolve_ty_template ty generics ;; ret (TyBorrow m t)
  | TRawPointer m ty _ => t <- resolve_ty_template ty generics ;; ret (TyRawPointer m t)
  | TTuple [] _ => ret TyUnit
  | TTuple items _ => ts <- mapM (fun t => resolve_ty_template t generics) items ;; ret (TyTuple ts)
  | TFn params return_ty abi u _ =>
      ps <- mapM (fun t => resolve_ty_template t generics) params ;;
      r <- match return_ty with Some r => resolve_ty_template r generics | None => ret TyUnit end ;;
      ret (TyFn ps r abi u)
  | _ => panic PanicUnsupported
  end.

(** *** Structs *)

Definition struct_get (key : Key) (C : Caches) : option StructInfo :=
  snd <$> List.find (fun e => key_eqb e.1 key) (struct_cache C).
Definition enum_get (key : Key) (C : Caches) : option EnumInfo :=
  snd <$> List.find (fun e => key_eqb e.1 key) (enum_cache C).

Definition put_struct (key : Key) (info : StructInfo) : M unit := fun C =>
  Ok (tt, mkCaches (arena C) ((key, info) :: struct_cache C) (enum_cache C) (struct_in_progress C) (enum_in_progress C)).
Definition put_enum (key : Key) (info : EnumInfo) : M unit := fun C =>
  Ok (tt, mkCaches (arena C) (struct_cache C) ((key, info) :: enum_cache C) (struct_in_progress C) (enum_in_progress C)).

Definition begin_struct (key : Key) : M unit := fun C =>
  if existsb (key_eqb key) (struct_in_progress C) then Err (PanicRecursive key.1)
  else Ok (tt, mkCaches (arena C) (struct_cache C) (enum_cache C) (key :: struct_in_progress C) (enum_in_progress C)).
Definition begin_enum (key : Key) : M unit := fun C =>
  if existsb (key_eqb key) (enum_in_progress C) then Err (PanicRecursive key.1)
  else Ok (tt, mkCaches (arena C) (struct_cache C) (enum_cache C) (struct_in_progress C) (key :: enum_in_progress C)).
Definition end_struct (key : Key) : M unit := fun C =>
  Ok (tt, mkCaches (arena C) (struct_cache C) (enum_cache C)
            (List.filter (fun k => negb (key_eqb key k)) (struct_in_progress C)) (enum_in_progress C)).
Definition end_enum (key : Key) : M unit := fun C =>
  Ok (tt, mkCaches (arena C) (struct_cache C) (enum_cache C) (struct_in_progress C)
            (List.filter (fun k => negb (key_eqb key k)) (enum_in_progress C))).

(** [check_instantiation_cap]: counts what is in the cache. *)
Definition check_struct_cap (name : string) : M unit := fun C =>
  if (max_instantiations D <=? length (List.filter (fun e => bool_decide (e.1.1 = name)) (struct_cache C)))%nat
  then Err (PanicCap name) else Ok (tt, C).
Definition check_enum_cap (name : string) : M unit := fun C =>
  if (max_instantiations D <=? length (List.filter (fun e => bool_decide (e.1.1 = name)) (enum_cache C)))%nat
  then Err (PanicCap name) else Ok (tt, C).

Definition substitution (generics : list GenericParam) (args : list Type_) : Subst :=
  fold_left (fun m p => <[p.1 := p.2]> m) (zip (generic_names generics) args) ∅.

(** [lay] is [layout_of]. *)
Section WithLayoutOf.
Context (lay : Type_ -> M Layout).

(** A field's type with the type arguments applied, and its layout. *)
Definition field_of (generics : list GenericParam) (s : Subst) (ty : Ty) : M (Type_ * Layout) :=
  template <- resolve_ty_template ty (generic_names generics) ;;
  concrete <- on_arena (substitute_generics template s) ;;
  l <- lay concrete ;;
  ret (concrete, l).

Definition struct_fields_map (data : list (string * (Type_ * Layout))) (l : Layout) : gmap string (Type_ * Z) :=
  fold_left
    (fun m f =>
       if bool_decide (fl_name f = LIVE_FIELD) then m
       else match List.find (fun d => bool_decide (d.1 = fl_name f)) data with
            | Some d => <[fl_name f := (d.2.1, fl_offset f)]> m
            | None => m
            end) (fields l) ∅.

Definition layout_input (data : list (string * (Type_ * Layout))) (drop : bool) : list (string * Layout) :=
  map (fun d => (d.1, d.2.2)) data ++ if drop then [(LIVE_FIELD, mkLayout 1 1 [])] else [].

Definition struct_build (data : list (string * (Type_ * Layout))) (drop : bool) : option StructInfo :=
  l ← struct_layout (layout_input data drop) ReprDefault;
  Some (mkStructInfo l (struct_fields_map data l)
          (fl_offset <$> List.find (fun f => bool_decide (fl_name f = LIVE_FIELD)) (fields l))).

Definition struct_info_with (name : string) (args : list Type_) : M StructInfo := fun C =>
  let key := (name, args) in
  match struct_get key C with
  | Some info => Ok (info, C)
  | None =>
      match prelude_error_struct name with
      | Some (_, l) =>
          let info :=
            mkStructInfo l (fold_left (fun m '(n, ty, off) => <[n := (ty, off)]> m) (prelude_error_fields name) ∅) None in
          (_ <- put_struct key info ;; ret info) C
      | None =>
          (_ <- begin_struct key ;;
           _ <- check_struct_cap name ;;
           decl <- lift_opt (struct_decls D !! name) (PanicUnknown name) ;;
           data <- mapM (fun f => d <- field_of (sd_generics decl) (substitution (sd_generics decl) args) (fd_ty f) ;;
                                  ret (fd_name f, d)) (sd_fields decl) ;;
           info <- lift_opt (struct_build data (has_drop name (sd_methods decl))) PanicOverflow ;;
           _ <- end_struct key ;;
           _ <- put_struct key info ;;
           ret info) C
      end
  end.

(** *** Enums *)

(** The payload fields of a variant, after the discriminant: a placed field's
    name is its index, which is parsed back. *)
Fixpoint payload_fields (data : list (Type_ * Layout)) (placed : list FieldLayout) : option (list (Type_ * Z)) :=
  match placed with
  | [] => Some []
  | f :: placed' =>
      index ← parse_unsigned (fl_name f);
      d ← data !! Z.to_nat index;
      off ← check_u64 (fl_offset f + DISCRIMINANT_SIZE);
      rest ← payload_fields data placed';
      Some ((d.1, off) :: rest)
  end.

(** The names of the positional fields are their indices in decimal. *)
Definition positional (data : list (Type_ * Layout)) : list (string * Layout) :=
  imap (fun i d => (show_Z (Z.of_nat i), d.2)) data.

Definition variant_tys (fs : VariantFields) : option (list Ty) :=
  match fs with
  | VUnit => Some []
  | VTuple tys => Some tys
  | VStruct _ => None
  end.

(** The loop over the variants: largest payload size and alignment, and the
    fields of each variant. *)
Fixpoint variants_loop (generics : list GenericParam) (s : Subst) (vs : list EnumVariant) (max_size max_align : Z)
  (variants : gmap string (list (Type_ * Z))) : M (Z * Z * gmap string (list (Type_ * Z))) :=
  match vs with
  | [] => ret (max_size, max_align, variants)
  | v :: vs' =>
      tys <- lift_opt (variant_tys (ev_fields v)) PanicUnsupported ;;
      data <- mapM (field_of generics s) tys ;;
      payload <- lift_opt (struct_layout (positional data) ReprC) PanicOverflow ;;
      fs <- lift_opt (payload_fields data (fields payload)) PanicOverflow ;;
      variants_loop generics s vs' (Z.max max_size (size payload)) (Z.max max_align (align payload))
        (<[ev_name v := fs]> variants)
  end.

Definition variant_index (vs : list EnumVariant) : gmap string Z :=
  fold_left (fun m p => <[ev_name p.2 := p.1]> m) (zip (map Z.of_nat (seq 0 (length vs))) vs) ∅.

Definition enum_build (vs : list EnumVariant) (max_size max_align : Z) (variants : gmap string (list (Type_ * Z)))
  (drop : bool) : option EnumInfo :=
  let al := Z.max max_align DISCRIMINANT_SIZE in
  payload_end ← check_u64 (DISCRIMINANT_SIZE + max_size);
  let live := if drop then Some payload_end else None in
  used ← check_u64 (payload_end + if drop then 1 else 0);
  sz ← align_up used al;
  Some (mkEnumInfo (mkLayout sz al []) variants (variant_index vs) live).

Definition enum_info_with (name : string) (args : list Type_) : M EnumInfo := fun C =>
  let key := (name, args) in
  match enum_get key C with
  | Some info => Ok (info, C)
  | None =>
      (_ <- begin_enum key ;;
       _ <- check_enum_cap name ;;
       decl <- lift_opt (enum_decls D !! name) (PanicUnknown name) ;;
       r <- variants_loop (ed_generics decl) (substitution (ed_generics decl) args) (ed_variants decl) 0 1 ∅ ;;
       info <- lift_opt (enum_build (ed_variants decl) r.1.1 r.1.2 r.2 (has_drop name (ed_methods decl))) PanicOverflow ;;
       _ <- end_enum key ;;
       _ <- put_enum key info ;;
       ret info) C
  end.

Definition tuple_layout_with (items : list Type_) : M Layout :=
  ls <- mapM lay items ;;
  lift_opt (struct_layout (imap (fun i l => (show_Z (Z.of_nat i), l)) ls) ReprC) PanicOverflow.
End WithLayoutOf.

Fixpoint layout_of (fuel : nat) (ty : Type_) : M Layout :=
  match fuel with
  | O => panic OutOfFuel
  | S fuel =>
      match scalar_layout ty with
      | Some l => ret l
      | None =>
          match ty with
          | TyStruct name args =>
              if negb (has_struct name) && is_builtin_handle name then ret (mkLayout 8 8 [])
              else info <- struct_info_with (layout_of fuel) name args ;; ret (si_layout info)
          | TyEnum name args => info <- enum_info_with (layout_of fuel) name args ;; ret (ei_layout info)
          | TyTuple items => tuple_layout_with (layout_of fuel) items
          | TyGeneric name => panic (PanicUnknown name)
          | _ => panic PanicUnsupported
          end
      end
  end.

Definition struct_info (fuel : nat) : string -> list Type_ -> M StructInfo := struct_info_with (layout_of fuel).
Definition enum_info (fuel : nat) : string -> list Type_ -> M EnumInfo := enum_info_with (layout_of fuel).
Definition tuple_layout (fuel : nat) : list Type_ -> M Layout := tuple_layout_with (layout_of fuel).
End Layouts.

(** ** Equality of keys

    Two types are equal when they are the same up to the written form of their
    dimensions. *)

Fixpoint unwritten (ty : Type_) : Type_ :=
  match ty with
  | TyStruct n args => TyStruct n (map unwritten args)
  | TyEnum n args => TyEnum n (map unwritten args)
  | TyBorrow m t => TyBorrow m (unwritten t)
  | TyRawPointer m t => TyRawPointer m (unwritten t)
  | TySlice t => TySlice (unwritten t)
  | TyTuple items => TyTuple (map unwritten items)
  | TyFn ps r abi u => TyFn (map unwritten ps) (unwritten r) abi u
  | TyTypeValue t => TyTypeValue (unwritten t)
  | TyDim (DConst e) => TyDim (DConst (mkConstExpr (ce_poly e) None))
  | TyPack items => TyPack (map unwritten items)
  | other => other
  end.

Lemma list_eqb_unwritten l k :
  Forall (fun a => forall b, type_eqb a b = true <-> unwritten a = unwritten b) l ->
  list_eqb type_eqb l k = true <-> map unwritten l = map unwritten k.
Proof.
  intros H. revert k. induction H as [|a l Ha H IH]; intros [|b k]; simpl; try done.
  rewrite andb_true_iff, Ha, IH. split; [intros [-> ->]; done|by intros [= -> ->]].
Qed.

Lemma type_eqb_unwritten a b : type_eqb a b = true <-> unwritten a = unwritten b.
Proof.
  revert b.
  induction a as [w|w| | | | | |n l IH|n l IH|m t IH|m t IH|t IH|l IH|ps IHps r IHr abi u|n|t IH| |[e|]|l IH|n| |];
    intros b; destruct b as [w'|w'| | | | | |n' l'|n' l'|m' t'|m' t'|t'|l'|ps' r' abi' u'|n'|t'| |[e'|]|l'|n'| |];
    cbn [type_eqb unwritten dim_eqb]; try done;
    rewrite ?andb_true_iff, ?bool_decide_eq_true, ?Bool.eqb_true_iff;
    try (rewrite list_eqb_unwritten by (by apply list_all_Forall)); try (rewrite IH); try (rewrite IHr);
    try (split; [by intros; simplify_eq|by intros [=]]); try (split; [by intros [-> ->]|by intros [= -> ->]]);
    try (split; [by intros ->|by intros [= ->]]).
  - split; [by intros [[[-> ->] ->] ->]|by intros [= -> -> -> ->]].
  - unfold const_expr_eqb. rewrite Nat.eqb_eq. split; [by intros ->|by intros [= ->]].
Qed.

Lemma list_type_eqb_unwritten l k : list_eqb type_eqb l k = true <-> map unwritten l = map unwritten k.
Proof. apply list_eqb_unwritten. rewrite Forall_forall. intros a _. apply type_eqb_unwritten. Qed.

Lemma key_eqb_spec a b : key_eqb a b = true <-> a.1 = b.1 /\ map unwritten a.2 = map unwritten b.2.
Proof. unfold key_eqb. by rewrite andb_true_iff, bool_decide_eq_true, list_type_eqb_unwritten. Qed.

Lemma key_eqb_refl a : key_eqb a a = true.
Proof. by apply key_eqb_spec. Qed.

Lemma key_eqb_sym a b : key_eqb a b = key_eqb b a.
Proof. apply eq_true_iff_eq. rewrite !key_eqb_spec. split; intros [-> ->]; done. Qed.

Lemma key_eqb_cong a b c : key_eqb a b = true -> key_eqb c a = key_eqb c b.
Proof. rewrite key_eqb_spec. intros [H1 H2]. apply eq_true_iff_eq. rewrite !key_eqb_spec, H1, H2. done. Qed.

(** ** The cache invariant *)

Definition caches_wf (C : Caches) : Prop :=
  Forall (fun e => layout_wf (si_layout e.2)) (struct_cache C) /\
  Forall (fun e => layout_wf (ei_layout e.2)) (enum_cache C) /\
  Forall (fun k => prelude_error_struct k.1 = None) (struct_in_progress C).

(** What a computation does to the caches: it keeps them well formed, leaves
    nothing in progress that was not, never changes a cached entry, and caches
    nothing for a key in progress. *)
Record evolves (C C' : Caches) : Prop := {
  ev_wf : caches_wf C -> caches_wf C';
  ev_structs_progress : struct_in_progress C' = struct_in_progress C;
  ev_enums_progress : enum_in_progress C' = enum_in_progress C;
  ev_struct_get : forall k i, struct_get k C = Some i -> struct_get k C' = Some i;
  ev_enum_get : forall k i, enum_get k C = Some i -> enum_get k C' = Some i;
  ev_struct_busy : forall k, existsb (key_eqb k) (struct_in_progress C) = true -> struct_get k C' = struct_get k C;
  ev_enum_busy : forall k, existsb (key_eqb k) (enum_in_progress C) = true -> enum_get k C' = enum_get k C }.

#[export] Instance evolves_preorder : PreOrder evolves.
Proof.
  split; [intros C; by split|]. intros A B C H1 H2. split.
  - intros H. by apply (ev_wf _ _ H2), (ev_wf _ _ H1).
  - by rewrite (ev_structs_progress _ _ H2), (ev_structs_progress _ _ H1).
  - by rewrite (ev_enums_progress _ _ H2), (ev_enums_progress _ _ H1).
  - intros k i H. by apply (ev_struct_get _ _ H2), (ev_struct_get _ _ H1).
  - intros k i H. by apply (ev_enum_get _ _ H2), (ev_enum_get _ _ H1).
  - intros k H. rewrite (ev_struct_busy _ _ H2), (ev_struct_busy _ _ H1); [done|done|].
    by rewrite (ev_structs_progress _ _ H1).
  - intros k H. rewrite (ev_enum_busy _ _ H2), (ev_enum_busy _ _ H1); [done|done|].
    by rewrite (ev_enums_progress _ _ H1).
Qed.

(** A computation that evolves the caches and whose result satisfies [Q]. *)
Definition keeps {A} (m : M A) (Q : A -> Prop) : Prop :=
  forall C a C', caches_wf C -> m C = Ok (a, C') -> evolves C C' /\ Q a.

Lemma bind_Ok {A B} (m : M A) (k : A -> M B) C b C' :
  bind m k C = Ok (b, C') -> exists a C1, m C = Ok (a, C1) /\ k a C1 = Ok (b, C').
Proof. unfold bind. destruct (m C) as [[a C1]|]; [eauto|done]. Qed.

Lemma keeps_ret {A} (a : A) (Q : A -> Prop) : Q a -> keeps (ret a) Q.
Proof. intros HQ C b C' _ [= <- <-]. done. Qed.

Lemma keeps_panic {A} e (Q : A -> Prop) : keeps (panic e) Q.
Proof. by intros C a C' _ [=]. Qed.

Lemma keeps_bind {A B} (m : M A) (k : A -> M B) (Q : A -> Prop) (R : B -> Prop) :
  keeps m Q -> (forall a, Q a -> keeps (k a) R) -> keeps (bind m k) R.
Proof.
  intros Hm Hk C b C' Hwf (a & C1 & H1 & H2)%bind_Ok. destruct (Hm _ _ _ Hwf H1) as [He Ha].
  destruct (Hk a Ha C1 b C' (ev_wf _ _ He Hwf) H2) as [He2 Hb]. split; [by etrans|done].
Qed.

Lemma keeps_weaken {A} (m : M A) (Q R : A -> Prop) : keeps m Q -> (forall a, Q a -> R a) -> keeps m R.
Proof. intros Hm HQ C a C' Hwf H. destruct (Hm _ _ _ Hwf H). auto. Qed.

Lemma keeps_lift_opt {A} (o : option A) e (Q : A -> Prop) : (forall a, o = Some a -> Q a) -> keeps (lift_opt o e) Q.
Proof. intros HQ. destruct o; [apply keeps_ret; auto|apply keeps_panic]. Qed.

Lemma keeps_mapM {A B} (f : A -> M B) l (R : A -> B -> Prop) :
  Forall (fun x => keeps (f x) (R x)) l -> keeps (mapM f l) (Forall2 R l).
Proof.
  induction 1 as [|x l Hx H IH]; simpl; [apply keeps_ret; constructor|].
  eapply keeps_bind; [exact Hx|]. intros y Hy. eapply keeps_bind; [exact IH|]. intros ys Hys.
  apply keeps_ret. by constructor.
Qed.

Lemma keeps_on_arena {A} (f : Arena -> Arena * A) : keeps (on_arena f) (fun _ => True).
Proof.
  intros C a C' _. unfold on_arena. destruct (f (arena C)) as [ar b]. intros [= <- <-]. split; [|done]. by split.
Qed.

Lemma keeps_const_arg_template ty generics : keeps (const_arg_template ty generics) (fun _ => True).
Proof.
  unfold const_arg_template. repeat case_match; try (by apply keeps_ret).
  eapply keeps_bind; [apply keeps_on_arena|]. intros. by apply keeps_ret.
Qed.

Lemma keeps_mapM_true {A B} (f : A -> M B) l :
  Forall (fun x => keeps (f x) (fun _ => True)) l -> keeps (mapM f l) (fun _ => True).
Proof.
  intros H. eapply keeps_weaken; [apply (keeps_mapM f l (fun _ _ => True)); exact H|done].
Qed.

Lemma keeps_arg_templates resolve const_arg args params :
  Forall (fun t => keeps (resolve t) (fun _ => True)) args ->
  (forall t, keeps (const_arg t) (fun _ => True)) ->
  keeps (arg_templates resolve const_arg args params) (fun _ => True).
Proof.
  intros H Hc. revert params. induction H as [|a args Ha H IH]; intros params; simpl; [by apply keeps_ret|].
  destruct params as [|p ps]; [by apply keeps_ret|].
  apply (keeps_bind _ _ (fun _ => True)).
  - destruct (gp_kind p); try done.
    assert (keeps (ts <- mapM const_arg (a :: args) ;; ret (TyPack ts)) (fun _ => True)) as Hp.
    { eapply keeps_bind; [apply keeps_mapM_true; rewrite Forall_forall; intros; apply Hc|]. intros. by apply keeps_ret. }
    destruct a; try exact Hp. destruct args; [by apply keeps_ret|exact Hp].
  - intros t _. eapply keeps_bind; [apply IH|]. intros. by apply keeps_ret.
Qed.

Section Keeps.
Context (D : Decls).

Lemma keeps_then_ret {A B} (m : M A) (f : A -> B) : keeps m (fun _ => True) -> keeps (x <- m ;; ret (f x)) (fun _ => True).
Proof. intros H. eapply keeps_bind; [exact H|]. intros. by apply keeps_ret. Qed.

Local Notation any := (fun _ => True) (only parsing).

Lemma keeps_resolve_ty_template ty generics : keeps (resolve_ty_template D ty generics) (fun _ => True).
Proof.
  revert ty.
  assert (forall ty, keeps (resolve_ty_template D ty generics) (fun _ => True)) as H; [|exact H].
  apply (Ty_mut any any any any any any
           any any (fun ty => keeps (resolve_ty_template D ty generics) (fun _ => True))
           any any any any any any
           any any any any any any
           any any any any); try (intros; exact I); intros;
    try (by apply keeps_panic).
  - destruct path as [|p [|q path]]; cbn [resolve_ty_template]; repeat case_match; (by apply keeps_ret) || apply keeps_panic.
  - cbn [resolve_ty_template]. apply list_all_Forall in H. cbn zeta.
    destruct (struct_decls D !! join path); [|destruct (enum_decls D !! join path)].
    + apply keeps_then_ret, keeps_arg_templates; [done|]. intros. apply keeps_const_arg_template.
    + apply keeps_then_ret, keeps_arg_templates; [done|]. intros. apply keeps_const_arg_template.
    + case_match; [|apply keeps_panic]. by apply keeps_then_ret, keeps_mapM_true.
  - apply list_all_Forall in H. destruct items; [by apply keeps_ret|].
    cbn [resolve_ty_template]. by apply keeps_then_ret, keeps_mapM_true.
  - by apply keeps_then_ret.
  - by apply keeps_then_ret.
  - by apply keeps_then_ret.
  - apply list_all_Forall in H. cbn [resolve_ty_template].
    eapply keeps_bind; [by apply keeps_mapM_true|]. intros ps _. apply keeps_then_ret.
    destruct return_ty as [r|]; [|by apply keeps_ret]. by inversion H0.
  - apply keeps_const_arg_template.
  - apply keeps_const_arg_template.
  - apply keeps_const_arg_template.
Qed.

(** The cached entry of an equal key is the same. *)
Lemma struct_get_cong k k' C : key_eqb k k' = true -> struct_get k C = struct_get k' C.
Proof.
  intros H. unfold struct_get. f_equal. induction (struct_cache C) as [|e l IH]; [done|]. simpl.
  rewrite (key_eqb_cong k k' e.1 H), IH. done.
Qed.

Lemma enum_get_cong k k' C : key_eqb k k' = true -> enum_get k C = enum_get k' C.
Proof.
  intros H. unfold enum_get. f_equal. induction (enum_cache C) as [|e l IH]; [done|]. simpl.
  rewrite (key_eqb_cong k k' e.1 H), IH. done.
Qed.

Lemma filter_not_busy k l :
  existsb (key_eqb k) l = false -> List.filter (fun k' => negb (key_eqb k k')) l = l.
Proof.
  induction l as [|x l IH]; [done|]. simpl. intros [H1 H2]%orb_false_iff. rewrite H1. simpl. by rewrite IH.
Qed.

(** A new entry for a key that has none. *)
Lemma evolves_put_struct k info C :
  struct_get k C = None -> existsb (key_eqb k) (struct_in_progress C) = false -> layout_wf (si_layout info) ->
  evolves C (mkCaches (arena C) ((k, info) :: struct_cache C) (enum_cache C) (struct_in_progress C) (enum_in_progress C)).
Proof.
  intros Hn Hb Hwf.
  assert (forall k', struct_get k' (mkCaches (arena C) ((k, info) :: struct_cache C) (enum_cache C)
             (struct_in_progress C) (enum_in_progress C)) = if key_eqb k k' then Some info else struct_get k' C) as Hget.
  { intros k'. unfold struct_get. simpl. by destruct (key_eqb k k'). }
  split; try done.
  - intros (H1 & H2 & H3). split_and!; simpl; [by constructor|done..].
  - intros k' i Hi. rewrite Hget. destruct (key_eqb k k') eqn:E; [|done].
    rewrite (struct_get_cong k k' C E) in Hn. congruence.
  - intros k' Hk'. rewrite Hget. destruct (key_eqb k k') eqn:E; [|done].
    exfalso. apply not_true_iff_false in Hb. apply Hb. apply existsb_elem in Hk' as (x & Hx & Hkx).
    apply existsb_elem. exists x. split; [done|]. rewrite key_eqb_sym in Hkx |- *. by rewrite (key_eqb_cong k k').
Qed.

Lemma evolves_put_enum k info C :
  enum_get k C = None -> existsb (key_eqb k) (enum_in_progress C) = false -> layout_wf (ei_layout info) ->
  evolves C (mkCaches (arena C) (struct_cache C) ((k, info) :: enum_cache C) (struct_in_progress C) (enum_in_progress C)).
Proof.
  intros Hn Hb Hwf.
  assert (forall k', enum_get k' (mkCaches (arena C) (struct_cache C) ((k, info) :: enum_cache C)
             (struct_in_progress C) (enum_in_progress C)) = if key_eqb k k' then Some info else enum_get k' C) as Hget.
  { intros k'. unfold enum_get. simpl. by destruct (key_eqb k k'). }
  split; try done.
  - intros (H1 & H2 & H3). split_and!; simpl; [done|by constructor|done].
  - intros k' i Hi. rewrite Hget. destruct (key_eqb k k') eqn:E; [|done].
    rewrite (enum_get_cong k k' C E) in Hn. congruence.
  - intros k' Hk'. rewrite Hget. destruct (key_eqb k k') eqn:E; [|done].
    exfalso. apply not_true_iff_false in Hb. apply Hb. apply existsb_elem in Hk' as (x & Hx & Hkx).
    apply existsb_elem. exists x. split; [done|]. rewrite key_eqb_sym in Hkx |- *. by rewrite (key_eqb_cong k k').
Qed.

(** A body run with [k] marked in progress, then unmarked and cached. *)
Lemma evolves_struct_cycle k info C C2 :
  prelude_error_struct k.1 = None -> struct_get k C = None -> existsb (key_eqb k) (struct_in_progress C) = false -> layout_wf (si_layout info) ->
  evolves (mkCaches (arena C) (struct_cache C) (enum_cache C) (k :: struct_in_progress C) (enum_in_progress C)) C2 ->
  evolves C (mkCaches (arena C2) ((k, info) :: struct_cache C2) (enum_cache C2)
               (List.filter (fun k' => negb (key_eqb k k')) (struct_in_progress C2)) (enum_in_progress C2)).
Proof.
  intros Hpe Hn Hb Hwf He.
  assert (List.filter (fun k' => negb (key_eqb k k')) (struct_in_progress C2) = struct_in_progress C) as ->.
  { rewrite (ev_structs_progress _ _ He). simpl. rewrite key_eqb_refl. simpl. by apply filter_not_busy. }
  transitivity (mkCaches (arena C2) (struct_cache C2) (enum_cache C2) (struct_in_progress C) (enum_in_progress C2)).
  - destruct He as [Hw Hsp Hep Hsg Heg Hsb Heb]. split; simpl in *; auto.
    + intros (H1 & H2 & H3). destruct Hw as (? & ? & ?); [split_and!; simpl; [done..|by constructor]|]. by split_and!.
    + intros k' Hk'. apply Hsb. rewrite Hk'. by rewrite orb_true_r.
  - apply (evolves_put_struct k info (mkCaches (arena C2) (struct_cache C2) (enum_cache C2) (struct_in_progress C) (enum_in_progress C2)));
      [|done|done]. unfold struct_get. simpl. change (struct_get k C2 = None).
    rewrite (ev_struct_busy _ _ He); [exact Hn|]. simpl. by rewrite key_eqb_refl.
Qed.

Lemma evolves_enum_cycle k info C C2 :
  enum_get k C = None -> existsb (key_eqb k) (enum_in_progress C) = false -> layout_wf (ei_layout info) ->
  evolves (mkCaches (arena C) (struct_cache C) (enum_cache C) (struct_in_progress C) (k :: enum_in_progress C)) C2 ->
  evolves C (mkCaches (arena C2) (struct_cache C2) ((k, info) :: enum_cache C2) (struct_in_progress C2)
               (List.filter (fun k' => negb (key_eqb k k')) (enum_in_progress C2))).
Proof.
  intros Hn Hb Hwf He.
  assert (List.filter (fun k' => negb (key_eqb k k')) (enum_in_progress C2) = enum_in_progress C) as ->.
  { rewrite (ev_enums_progress _ _ He). simpl. rewrite key_eqb_refl. simpl. by apply filter_not_busy. }
  transitivity (mkCaches (arena C2) (struct_cache C2) (enum_cache C2) (struct_in_progress C2) (enum_in_progress C)).
  - destruct He as [Hw Hsp Hep Hsg Heg Hsb Heb]. split; simpl in *; auto.
    intros k' Hk'. apply Heb. rewrite Hk'. by rewrite orb_true_r.
  - apply (evolves_put_enum k info (mkCaches (arena C2) (struct_cache C2) (enum_cache C2) (struct_in_progress C2) (enum_in_progress C)));
      [|done|done]. unfold enum_get. simpl. change (enum_get k C2 = None).
    rewrite (ev_enum_busy _ _ He); [exact Hn|]. simpl. by rewrite key_eqb_refl.
Qed.
End Keeps.

(** ** What the layouts are *)

Section Correct.
Context (D : Decls).

(** How a struct's description came about: a compiler-known error struct, or
    the layout of its declared fields (and the hidden byte). *)
Definition struct_described (name : string) (info : StructInfo) : Prop :=
  layout_wf (si_layout info) /\
  ((exists ty, prelude_error_struct name = Some (ty, si_layout info)) \/
   exists decl data, struct_decls D !! name = Some decl /\ map fst data = map fd_name (sd_fields decl) /\
     Forall (fun d => layout_wf d.2.2) data /\
     struct_build data (has_drop D name (sd_methods decl)) = Some info).

Lemma layout_input_wf (data : list (string * (Type_ * Layout))) drop :
  Forall (fun d => layout_wf d.2.2) data -> Forall (fun f => layout_wf f.2) (layout_input data drop).
Proof.
  intros H. unfold layout_input. apply Forall_app. split.
  - rewrite Forall_forall in H. rewrite Forall_forall. intros f (d & -> & Hd)%list_elem_of_fmap_1. by apply (H d).
  - destruct drop; [|constructor]. constructor; [|constructor]. by apply (scalar_layout_wf TyBool).
Qed.

Lemma struct_build_wf data drop info :
  Forall (fun d => layout_wf d.2.2) data -> struct_build data drop = Some info -> layout_wf (si_layout info).
Proof.
  intros H (l & Hl & [= <-])%bind_Some. simpl.
  destruct (struct_layout_inv _ _ _ (layout_input_wf data drop H) Hl) as (? & _ & _ & _ & ? & _). done.
Qed.

Lemma prelude_error_struct_wf name ty l : prelude_error_struct name = Some (ty, l) -> layout_wf l.
Proof.
  unfold prelude_error_struct, prelude_error_fields. destruct (prelude_error_ty name); [|done].
  destruct (bool_decide _); intros [= _ <-]; split_and!; simpl; unfold is_align, u64_max; try lia; [by exists 2|by exists 0].
Qed.

Section WithLay.
Context (lay : Type_ -> M Layout) (Hlay : forall ty, keeps (lay ty) layout_wf).

Lemma keeps_field_of generics s ty : keeps (field_of D lay generics s ty) (fun d => layout_wf d.2).
Proof.
  unfold field_of. eapply keeps_bind; [apply keeps_resolve_ty_template|]. intros template _.
  eapply keeps_bind; [apply keeps_on_arena|]. intros concrete _.
  eapply keeps_bind; [apply Hlay|]. intros l Hl. by apply keeps_ret.
Qed.

Lemma keeps_struct_info name args C info C' :
  caches_wf C -> struct_info_with D lay name args C = Ok (info, C') ->
  evolves C C' /\ struct_get (name, args) C' = Some info /\
  (struct_get (name, args) C = None -> struct_described name info) /\ layout_wf (si_layout info).
Proof.
  intros Hwf H. unfold struct_info_with in H.
  destruct (struct_get (name, args) C) as [i|] eqn:Eg.
  { injection H as <- <-. split_and!; [done..|].
    unfold struct_get in Eg. apply fmap_Some in Eg as (e & He & ->). apply List.find_some in He as [He _].
    destruct Hwf as [Hs _]. rewrite Forall_forall in Hs. by apply Hs, list_elem_of_In. }
  destruct (prelude_error_struct name) as [[ty l]|] eqn:Ep.
  { injection H as <- <-. pose proof (prelude_error_struct_wf _ _ _ Ep) as Hl.
    assert (existsb (key_eqb (name, args)) (struct_in_progress C) = false) as Eb.
    { destruct (existsb _ _) eqn:Eb; [|done]. apply existsb_elem in Eb as (k & Hk & [Ek _]%key_eqb_spec).
      destruct Hwf as (_ & _ & Hp). rewrite Forall_forall in Hp. specialize (Hp k Hk). simpl in Ek. congruence. }
    split_and!; [by apply evolves_put_struct|unfold struct_get; simpl; by rewrite key_eqb_refl| |done].
    intros _. split; [done|left; by exists ty]. }
  apply bind_Ok in H as ([] & C1 & Hbeg & H). unfold begin_struct in Hbeg.
  destruct (existsb _ _) eqn:Eb; [done|]. injection Hbeg as <-.
  set (C1 := mkCaches _ _ _ _ _) in H.
  assert (caches_wf C1) as Hwf1 by (destruct Hwf as (? & ? & ?); split_and!; [done..|by constructor]).
  apply bind_Ok in H as ([] & C1' & Hcap & H). unfold check_struct_cap in Hcap. destruct (_ <=? _)%nat; [done|].
  injection Hcap as <-. apply bind_Ok in H as (decl & C1' & Hd & H).
  unfold lift_opt in Hd. destruct (struct_decls D !! name) as [decl'|] eqn:Ed; [|done]. injection Hd as <- <-.
  apply bind_Ok in H as (data & C2 & Hdata & H).
  apply (keeps_mapM _ _ (fun f d => d.1 = fd_name f /\ layout_wf d.2.2)) in Hdata as [He Hdata]; [| |done].
  2: { rewrite Forall_forall. intros f _. eapply keeps_bind; [apply keeps_field_of|]. intros d Hd. by apply keeps_ret. }
  apply bind_Ok in H as (info' & C2' & Hb & H).
  destruct (struct_build _ _) as [info0|] eqn:Ebuild; [|done]. injection Hb as <- <-.
  apply bind_Ok in H as ([] & C3 & Hend & H). injection Hend as <-.
  apply bind_Ok in H as ([] & C4 & Hput & H). injection Hput as <-. injection H as <- <-. simpl.
  assert (Forall (fun d => layout_wf d.2.2) data) as Hdwf by (clear -Hdata; induction Hdata as [|? ? ? ? [? ?]]; by constructor).
  pose proof (struct_build_wf _ _ _ Hdwf Ebuild) as Hlw.
  split_and!; [by apply evolves_struct_cycle|unfold struct_get; simpl; by rewrite key_eqb_refl| |done].
  intros _. split; [done|]. right. exists decl', data. split_and!; [done| |done..].
  clear -Hdata. induction Hdata as [|? ? ? ? [? ?]]; simpl; congruence.
Qed.

(** The fields of one variant, before [stop]: in order, after the
    discriminant, aligned and disjoint. *)
Definition variant_placed (stop : Z) (data : list (Type_ * Layout)) (fs : list (Type_ * Z)) : Prop :=
  forall i ty l, data !! i = Some (ty, l) ->
    exists off, fs !! i = Some (ty, off) /\ DISCRIMINANT_SIZE <= off /\ (align l | off) /\ off + size l <= stop /\
      forall j ty' off', (i < j)%nat -> fs !! j = Some (ty', off') -> off + size l <= off'.

Definition variants_placed (stop : Z) (variants : gmap string (list (Type_ * Z))) : Prop :=
  forall n fs, variants !! n = Some fs ->
    exists data, Forall (fun d => layout_wf d.2) data /\ length fs = length data /\ variant_placed stop data fs.

Lemma variants_placed_mono stop stop' vs : stop <= stop' -> variants_placed stop vs -> variants_placed stop' vs.
Proof.
  intros Hle H n fs Hn. destruct (H n fs Hn) as (data & ? & ? & Hv). exists data. split_and!; [done..|].
  intros i ty l Hi. destruct (Hv i ty l Hi) as (off & ? & ? & ? & ? & ?). exists off. split_and!; [done..|lia|done].
Qed.

Lemma payload_fields_lookup data placed fs i f :
  payload_fields data placed = Some fs -> placed !! i = Some f ->
  exists index d, parse_unsigned (fl_name f) = Some index /\ data !! Z.to_nat index = Some d /\
    fs !! i = Some (d.1, fl_offset f + DISCRIMINANT_SIZE).
Proof.
  revert fs i. induction placed as [|g placed IH]; intros fs i; [done|]. cbn [payload_fields].
  intros (index & Hi & (d & Hd & (off & [-> _]%check_u64_some & (rest & Hr & [= <-])%bind_Some)%bind_Some)%bind_Some)%bind_Some.
  destruct i as [|i]; simpl; [intros [= <-]; eauto 10|]. by apply IH.
Qed.

Lemma payload_fields_length data placed fs : payload_fields data placed = Some fs -> length fs = length placed.
Proof.
  revert fs. induction placed as [|g placed IH]; intros fs; cbn [payload_fields]; [by intros [= <-]|].
  intros (index & Hi & (d & Hd & (off & _ & (rest & Hr & [= <-])%bind_Some)%bind_Some)%bind_Some)%bind_Some.
  simpl. by rewrite (IH rest Hr).
Qed.

Lemma positional_wf data : Forall (fun d : Type_ * Layout => layout_wf d.2) data -> Forall (fun f => layout_wf f.2) (positional data).
Proof.
  intros H. rewrite Forall_forall in H. rewrite Forall_forall.
  intros f (i & d & -> & Hd)%elem_of_lookup_imap. simpl. apply H. by eapply list_elem_of_lookup_2.
Qed.

Lemma variant_placed_payload data payload fs :
  Forall (fun d : Type_ * Layout => layout_wf d.2) data -> struct_layout (positional data) ReprC = Some payload ->
  payload_fields data (fields payload) = Some fs ->
  length fs = length data /\ variant_placed (DISCRIMINANT_SIZE + size payload) data fs.
Proof.
  intros Hwf Hl Hp. destruct (struct_layout_inv _ _ _ (positional_wf data Hwf) Hl) as (stop & Hpl & Hb & _ & _ & Hpw).
  simpl in Hpl, Hpw. pose proof (placed_in_names _ _ _ _ Hpl) as Hn.
  assert (length (fields payload) = length data) as Hlen.
  { rewrite <- (length_map fl_name), Hn, length_map. unfold positional. apply length_imap. }
  split; [by rewrite (payload_fields_length _ _ _ Hp)|].
  assert (forall i f, fields payload !! i = Some f -> fl_name f = show_Z (Z.of_nat i)) as Hname.
  { intros i f Hf. assert (map fl_name (fields payload) !! i = Some (fl_name f)) as H by (by rewrite list_lookup_fmap, Hf).
    rewrite Hn, list_lookup_fmap in H. unfold positional in H. rewrite list_lookup_imap in H.
    destruct (data !! i); [|done]. simpl in H. congruence. }
  assert (forall i f, fields payload !! i = Some f -> exists d, data !! i = Some d /\
            fs !! i = Some (d.1, fl_offset f + DISCRIMINANT_SIZE)) as Hfs.
  { intros i f Hf. destruct (payload_fields_lookup _ _ _ _ _ Hp Hf) as (idx & d & Hi & Hd & Hfi).
    rewrite (Hname i f Hf), parse_unsigned_show in Hi by lia. injection Hi as <-. rewrite Nat2Z.id in Hd. eauto. }
  intros i ty l Hi.
  assert (positional data !! i = Some (show_Z (Z.of_nat i), l)) as Hpos.
  { unfold positional. by rewrite list_lookup_imap, Hi. }
  destruct (placed_in_lookup _ _ _ _ i _ l Hpw Hpl Hpos) as (o & Ho & H0 & Hal & Hend & Hdis).
  destruct (Hfs i _ Ho) as (d & Hd & Hfi). rewrite Hi in Hd. injection Hd as <-. simpl in Hfi.
  exists (o + DISCRIMINANT_SIZE). unfold DISCRIMINANT_SIZE in *. split_and!; [done|lia| |lia|].
  - apply Z.divide_add_r; [done|]. apply is_align_divide; [|unfold is_align; lia|].
    + rewrite Forall_forall in Hwf. by apply (Hwf (ty, l)), (list_elem_of_lookup_2 _ i).
    + rewrite Forall_forall in Hwf. destruct (Hwf (ty, l) (list_elem_of_lookup_2 _ i _ Hi)) as [Ha _].
      unfold is_align in Ha. simpl in Ha. lia.
  - intros j ty' off' Hj Hfj.
    assert (exists f', fields payload !! j = Some f') as [[n' o'] Hf'].
    { apply lookup_lt_is_Some. rewrite <- (payload_fields_length _ _ _ Hp). by eapply lookup_lt_Some. }
    destruct (Hfs j _ Hf') as (d' & _ & Hfj'). rewrite Hfj in Hfj'. injection Hfj' as -> ->. simpl.
    specialize (Hdis j o' n' Hj Hf'). lia.
Qed.

Lemma keeps_variants_loop generics s vs ms ma variants :
  0 <= ms <= u64_max -> is_align ma -> variants_placed (DISCRIMINANT_SIZE + ms) variants ->
  keeps (variants_loop D lay generics s vs ms ma variants)
    (fun r => 0 <= r.1.1 <= u64_max /\ is_align r.1.2 /\ variants_placed (DISCRIMINANT_SIZE + r.1.1) r.2 /\
       (forall n, n ∈ map ev_name vs -> is_Some (r.2 !! n)) /\ (forall n, is_Some (variants !! n) -> is_Some (r.2 !! n))).
Proof.
  revert ms ma variants. induction vs as [|v vs IH]; intros ms ma variants Hms Hma Hv; cbn [variants_loop].
  { apply keeps_ret. simpl. split_and!; [lia..|done|done| |done]. by intros n ?%not_elem_of_nil. }
  eapply (keeps_bind _ _ (fun _ => True)); [by apply keeps_lift_opt|]. intros tys _.
  eapply keeps_bind.
  { apply (keeps_mapM _ _ (fun _ d => layout_wf d.2)). rewrite Forall_forall. intros; apply keeps_field_of. }
  intros data Hdata. assert (Forall (fun d : Type_ * Layout => layout_wf d.2) data) as Hdwf.
  { eapply Forall2_Forall_r; [exact Hdata|]. rewrite Forall_forall. done. }
  eapply keeps_bind; [apply (keeps_lift_opt _ _ (fun l => struct_layout (positional data) ReprC = Some l)); done|].
  intros payload Hpay. eapply keeps_bind.
  { apply (keeps_lift_opt _ _ (fun fs => payload_fields data (fields payload) = Some fs)); done. }
  intros fs Hfs. destruct (variant_placed_payload data payload fs Hdwf Hpay Hfs) as [Hlen Hvp].
  destruct (struct_layout_inv _ _ _ (positional_wf data Hdwf) Hpay) as (_ & _ & _ & _ & (Hpa & Hps & _) & _).
  assert (variants_placed (DISCRIMINANT_SIZE + Z.max ms (size payload)) (<[ev_name v := fs]> variants)) as Hv'.
  { intros n fs' [[<- <-]|[_ Hn]]%lookup_insert_Some.
    - exists data. split_and!; [done..|]. intros i ty l Hi. destruct (Hvp i ty l Hi) as (off & ? & ? & ? & ? & ?).
      exists off. split_and!; [done..|lia|done].
    - revert n fs' Hn. apply (variants_placed_mono (DISCRIMINANT_SIZE + ms)); [lia|done]. }
  eapply keeps_weaken; [apply IH; [lia|by apply is_align_max|exact Hv']|].
  intros r (Hr1 & Hr2 & Hr3 & Hr4 & Hr5). split_and!; [lia..|done|done| |].
  - intros n [->|Hn]%elem_of_cons; [|by apply Hr4]. apply Hr5. rewrite lookup_insert_eq. by eexists.
  - intros n Hn. apply Hr5. destruct (decide (ev_name v = n)) as [<-|Hne]; [rewrite lookup_insert_eq; by eexists|].
    by rewrite lookup_insert_ne.
Qed.

(** How an enum's description came about. *)
Definition enum_described (name : string) (info : EnumInfo) : Prop :=
  layout_wf (ei_layout info) /\
  exists decl stop, enum_decls D !! name = Some decl /\
    DISCRIMINANT_SIZE <= stop /\ variants_placed stop (ei_variants info) /\
    (forall n, n ∈ map ev_name (ed_variants decl) -> is_Some (ei_variants info !! n)) /\
    ei_index info = variant_index (ed_variants decl) /\
    ei_live info = (if has_drop D name (ed_methods decl) then Some stop else None) /\
    stop + (if has_drop D name (ed_methods decl) then 1 else 0) <= size (ei_layout info).

Lemma enum_build_spec vs ms ma variants drop info :
  0 <= ms <= u64_max -> is_align ma -> enum_build vs ms ma variants drop = Some info ->
  layout_wf (ei_layout info) /\ ei_variants info = variants /\ ei_index info = variant_index vs /\
  ei_live info = (if drop then Some (DISCRIMINANT_SIZE + ms) else None) /\
  DISCRIMINANT_SIZE + ms + (if drop then 1 else 0) <= size (ei_layout info).
Proof.
  intros Hms Hma (pe & [-> Hpe]%check_u64_some & (used & [-> Hu]%check_u64_some & (sz & Hsz & [= <-])%bind_Some)%bind_Some)%bind_Some.
  assert (is_align (Z.max ma DISCRIMINANT_SIZE)) as Hal by (apply is_align_max; [done|unfold is_align, DISCRIMINANT_SIZE; lia]).
  apply align_up_spec in Hsz as (Hb & Hd & Hm); [|by apply is_align_pos|lia].
  unfold layout_wf. simpl. split_and!; [done|lia..|done|done|done|done|lia].
Qed.

Lemma keeps_enum_info name args C info C' :
  caches_wf C -> enum_info_with D lay name args C = Ok (info, C') ->
  evolves C C' /\ enum_get (name, args) C' = Some info /\
  (enum_get (name, args) C = None -> enum_described name info) /\ layout_wf (ei_layout info).
Proof.
  intros Hwf H. unfold enum_info_with in H.
  destruct (enum_get (name, args) C) as [i|] eqn:Eg.
  { injection H as <- <-. split_and!; [done..|].
    unfold enum_get in Eg. apply fmap_Some in Eg as (e & He & ->). apply List.find_some in He as [He _].
    destruct Hwf as (_ & Hs & _). rewrite Forall_forall in Hs. by apply Hs, list_elem_of_In. }
  apply bind_Ok in H as ([] & C1 & Hbeg & H). unfold begin_enum in Hbeg.
  destruct (existsb _ _) eqn:Eb; [done|]. injection Hbeg as <-. set (C1 := mkCaches _ _ _ _ _) in H.
  apply bind_Ok in H as ([] & C1' & Hcap & H). unfold check_enum_cap in Hcap. destruct (_ <=? _)%nat; [done|].
  injection Hcap as <-. apply bind_Ok in H as (decl & C1' & Hd & H).
  unfold lift_opt in Hd. destruct (enum_decls D !! name) as [decl'|] eqn:Ed; [|done]. injection Hd as <- <-.
  apply bind_Ok in H as (r & C2 & Hr & H).
  apply keeps_variants_loop in Hr as (He & Hr1 & Hr2 & Hr3 & Hr4 & _); [|unfold u64_max; lia|unfold is_align; lia|done|done].
  apply bind_Ok in H as (info' & C2' & Hb & H).
  destruct (enum_build _ _ _ _ _) as [info0|] eqn:Ebuild; [|done]. injection Hb as <- <-.
  apply bind_Ok in H as ([] & C3 & Hend & H). injection Hend as <-.
  apply bind_Ok in H as ([] & C4 & Hput & H). injection Hput as <-. injection H as <- <-. simpl.
  destruct (enum_build_spec _ _ _ _ _ _ Hr1 Hr2 Ebuild) as (Hlw & Hv & Hidx & Hlive & Hsz).
  split_and!; [by apply evolves_enum_cycle|unfold enum_get; simpl; by rewrite key_eqb_refl| |done].
  intros _. split; [done|]. exists decl', (DISCRIMINANT_SIZE + r.1.1). rewrite Hv. split_and!; try done.
  unfold DISCRIMINANT_SIZE. lia.
Qed.

Lemma keeps_tuple items : keeps (tuple_layout_with lay items) layout_wf.
Proof.
  unfold tuple_layout_with. eapply keeps_bind.
  { apply (keeps_mapM _ _ (fun _ l => layout_wf l)). rewrite Forall_forall. intros; apply Hlay. }
  intros ls Hls. apply keeps_lift_opt. intros l Hl.
  assert (Forall (fun f : string * Layout => layout_wf f.2) (imap (fun i l => (show_Z (Z.of_nat i), l)) ls)) as Hwf.
  { rewrite Forall_forall. intros f (i & x & -> & Hx)%elem_of_lookup_imap. simpl.
    assert (Forall layout_wf ls) as HF by (eapply Forall2_Forall_r; [exact Hls|]; rewrite Forall_forall; done).
    rewrite Forall_forall in HF. apply HF. by eapply list_elem_of_lookup_2. }
  by destruct (struct_layout_inv _ _ _ Hwf Hl) as (_ & _ & _ & _ & ? & _).
Qed.
End WithLay.

Lemma keeps_layout_of fuel ty : keeps (layout_of D fuel ty) layout_wf.
Proof.
  revert ty. induction fuel as [|fuel IH]; intros ty; [apply keeps_panic|]. cbn [layout_of].
  destruct (scalar_layout ty) eqn:Es; [apply keeps_ret; by eapply scalar_layout_wf|].
  destruct ty; try apply keeps_panic.
  - case_match.
    + apply keeps_ret. split_and!; simpl; unfold is_align, u64_max; [lia..|by exists 1].
    + eapply (keeps_bind _ _ (fun i => layout_wf (si_layout i))); [|by intros; apply keeps_ret].
      intros C a C' Hwf Ha. by destruct (keeps_struct_info _ IH _ _ _ _ _ Hwf Ha) as (? & _ & _ & ?).
  - eapply (keeps_bind _ _ (fun i => layout_wf (ei_layout i))); [|by intros; apply keeps_ret].
    intros C a C' Hwf Ha. by destruct (keeps_enum_info _ IH _ _ _ _ _ Hwf Ha) as (? & _ & _ & ?).
  - by apply keeps_tuple.
Qed.
End Correct.

(** ** Fuel *)

(** [m] has no answer yet, or the answer of [m']. *)
Definition approx {A} (m m' : M A) : Prop := forall C, m C = Err OutOfFuel \/ m C = m' C.

#[export] Instance approx_refl {A} : Reflexive (@approx A).
Proof. intros m C. by right. Qed.

Lemma approx_bind {A B} (m m' : M A) (k k' : A -> M B) :
  approx m m' -> (forall a, approx (k a) (k' a)) -> approx (bind m k) (bind m' k').
Proof.
  intros Hm Hk C. unfold bind. destruct (Hm C) as [->| ->]; [by left|].
  destruct (m' C) as [[a C1]|e]; [apply Hk|by right].
Qed.

Lemma approx_mapM {A B} (f f' : A -> M B) l : (forall x, approx (f x) (f' x)) -> approx (mapM f l) (mapM f' l).
Proof.
  intros Hf. induction l as [|x l IH]; [done|]. simpl. apply approx_bind; [done|]. intros y.
  apply approx_bind; [done|done].
Qed.

Section Fuel.
Context (D : Decls) (lay lay' : Type_ -> M Layout) (Hlay : forall ty, approx (lay ty) (lay' ty)).

Lemma approx_field_of g s ty : approx (field_of D lay g s ty) (field_of D lay' g s ty).
Proof. unfold field_of. do 3 (apply approx_bind; [done|intros]). done. Qed.

Lemma approx_struct_info name args : approx (struct_info_with D lay name args) (struct_info_with D lay' name args).
Proof.
  intros C. unfold struct_info_with. destruct (struct_get _ C); [by right|].
  destruct (prelude_error_struct name) as [[]|]; [by right|].
  apply (approx_bind (begin_struct (name, args)) (begin_struct (name, args))); [done|]. intros _.
  apply approx_bind; [done|]. intros _. apply approx_bind; [done|]. intros decl.
  apply approx_bind; [|done]. apply approx_mapM. intros f. apply approx_bind; [apply approx_field_of|done].
Qed.

Lemma approx_variants_loop g s vs ms ma variants :
  approx (variants_loop D lay g s vs ms ma variants) (variants_loop D lay' g s vs ms ma variants).
Proof.
  revert ms ma variants. induction vs as [|v vs IH]; intros; [done|]. cbn [variants_loop].
  apply approx_bind; [done|]. intros tys. apply approx_bind; [apply approx_mapM, approx_field_of|]. intros data.
  apply approx_bind; [done|]. intros payload. apply approx_bind; [done|]. intros fs. apply IH.
Qed.

Lemma approx_enum_info name args : approx (enum_info_with D lay name args) (enum_info_with D lay' name args).
Proof.
  intros C. unfold enum_info_with. destruct (enum_get _ C); [by right|].
  apply (approx_bind (begin_enum (name, args)) (begin_enum (name, args))); [done|]. intros _.
  apply approx_bind; [done|]. intros _. apply approx_bind; [done|]. intros decl.
  apply approx_bind; [apply approx_variants_loop|done].
Qed.

Lemma approx_tuple items : approx (tuple_layout_with lay items) (tuple_layout_with lay' items).
Proof. apply approx_bind; [by apply approx_mapM|done]. Qed.
End Fuel.

Lemma layout_of_fuel_S D fuel ty : approx (layout_of D fuel ty) (layout_of D (S fuel) ty).
Proof.
  revert ty. induction fuel as [|fuel IH]; intros ty; [by left|].
  change (layout_of D (S (S fuel)) ty) with
    (match scalar_layout ty with
     | Some l => ret l
     | None =>
         match ty with
         | TyStruct name args =>
             if negb (has_struct D name) && is_builtin_handle name then ret (mkLayout 8 8 [])
             else info <- struct_info_with D (layout_of D (S fuel)) name args ;; ret (si_layout info)
         | TyEnum name args => info <- enum_info_with D (layout_of D (S fuel)) name args ;; ret (ei_layout info)
         | TyTuple items => tuple_layout_with (layout_of D (S fuel)) items
         | TyGeneric name => panic (PanicUnknown name)
         | _ => panic PanicUnsupported
         end
     end).
  cbn [layout_of]. destruct (scalar_layout ty); [done|]. destruct ty; try done.
  - case_match; [done|]. apply approx_bind; [|done]. by apply approx_struct_info.
  - apply approx_bind; [|done]. by apply approx_enum_info.
  - by apply approx_tuple.
Qed.

(** Fuel only decides whether there is an answer: once [layout_of] answers
    (a layout or a panic), more fuel gives the same answer and the same
    caches. *)
Lemma layout_of_fuel_mono D fuel extra ty C r :
  layout_of D fuel ty C = r -> r <> Err OutOfFuel -> layout_of D (extra + fuel) ty C = r.
Proof.
  intros H Hr. induction extra as [|extra IH]; [done|]. simpl plus.
  destruct (layout_of_fuel_S D (extra + fuel) ty C) as [E|E]; congruence.
Qed.

(** ** Theorems *)

Lemma fold_insert_lookup {A B} (step : gmap string B -> A -> gmap string B) (name : A -> string) (val : A -> option B) l m n :
  (forall m x, step m x = match val x with Some b => <[name x := b]> m | None => m end) ->
  NoDup (map name l) ->
  (forall x, x ∈ l -> name x = n -> fold_left step l m !! n = match val x with Some b => Some b | None => m !! n end) /\
  (n ∉ map name l -> fold_left step l m !! n = m !! n).
Proof.
  intros Hstep. revert m. induction l as [|y l IH]; intros m Hnd; simpl in *.
  { split; [by intros x ?%not_elem_of_nil|done]. }
  apply NoDup_cons in Hnd as [Hy Hnd]. destruct (IH (step m y) Hnd) as [IH1 IH2]. split.
  - intros x [->|Hx]%elem_of_cons Hn.
    + rewrite IH2 by (by rewrite <- Hn). rewrite Hstep. destruct (val y); [by rewrite <- Hn, lookup_insert_eq|done].
    + rewrite (IH1 x Hx Hn), Hstep. destruct (val x); [done|]. destruct (val y); [|done].
      rewrite lookup_insert_ne; [done|]. intros E. apply Hy. rewrite E, <- Hn. by apply list_elem_of_fmap_2.
  - intros Hn. apply not_elem_of_cons in Hn as [Hne Hn]. rewrite IH2 by done. rewrite Hstep.
    destruct (val y); [|done]. by rewrite lookup_insert_ne.
Qed.

Lemma find_unique {A} (f : A -> bool) l x : x ∈ l -> f x = true -> (forall y, y ∈ l -> f y = true -> y = x) -> List.find f l = Some x.
Proof.
  intros Hx Hf Hu. destruct (List.find f l) as [y|] eqn:E.
  - apply List.find_some in E as [Hy%list_elem_of_In Hfy]. by rewrite (Hu y Hy Hfy).
  - rewrite (List.find_none _ _ E x) in Hf; [done|by apply list_elem_of_In].
Qed.

Lemma NoDup_fst_eq {A} (l : list (string * A)) x y : NoDup (map fst l) -> x ∈ l -> y ∈ l -> x.1 = y.1 -> x = y.
Proof.
  intros Hnd Hx Hy E. apply list_elem_of_lookup_1 in Hx as [i Hi], Hy as [j Hj].
  assert (i = j) as <-.
  { eapply NoDup_lookup; [exact Hnd|..]; rewrite list_lookup_fmap; [by rewrite Hi|by rewrite Hj, E]. }
  congruence.
Qed.

(** The fields of a struct built from [data]. *)
Lemma struct_build_fields data drop info :
  Forall (fun d => layout_wf d.2.2) data -> NoDup (map fst data) -> LIVE_FIELD ∉ map fst data ->
  struct_build data drop = Some info ->
  (forall n ty l, (n, (ty, l)) ∈ data ->
     exists off, si_fields info !! n = Some (ty, off) /\ 0 <= off /\ (align l | off) /\ off + size l <= size (si_layout info) /\
       (forall n' ty' l' off', (n', (ty', l')) ∈ data -> n <> n' -> si_fields info !! n' = Some (ty', off') ->
          off + size l <= off' \/ off' + size l' <= off) /\
       (forall live, si_live info = Some live -> live < off \/ off + size l <= live)) /\
  (if drop then exists live, si_live info = Some live /\ 0 <= live < size (si_layout info) else si_live info = None).
Proof.
  intros Hwf Hnd Hlive (L & HL & [= <-])%bind_Some. simpl.
  pose proof (layout_input_wf data drop Hwf) as Hin.
  assert (NoDup (map fst (layout_input data drop))) as Hnd'.
  { unfold layout_input. rewrite map_app, map_map. change (map (fun x => (x.1, x.2.2).1) data) with (map fst data).
    destruct drop; simpl; [|by rewrite app_nil_r]. apply NoDup_app. split_and!; [done| |apply NoDup_singleton].
    intros x Hx ->%list_elem_of_singleton. done. }
  destruct (struct_layout_field _ _ _ Hin HL Hnd') as (HndL & Hback & Hfields).
  assert (forall n ty l, (n, (ty, l)) ∈ data -> (n, l) ∈ layout_input data drop) as Hdata.
  { intros n ty l Hd. unfold layout_input. apply elem_of_app. left.
    apply (list_elem_of_fmap_2 (fun d : string * (Type_ * Layout) => (d.1, d.2.2)) _ _ Hd). }
  assert (forall n ty l, (n, (ty, l)) ∈ data -> n <> LIVE_FIELD) as Hnl.
  { intros n ty l Hd ->. apply Hlive. apply (list_elem_of_fmap_2 fst _ _ Hd). }
  assert (forall n ty l o, (n, (ty, l)) ∈ data -> mkField n o ∈ fields L -> struct_fields_map data L !! n = Some (ty, o)) as Hmap.
  { intros n ty l o Hd Ho. unfold struct_fields_map.
    destruct (fold_insert_lookup
      (fun m f => if bool_decide (fl_name f = LIVE_FIELD) then m
                  else match List.find (fun d => bool_decide (d.1 = fl_name f)) data with
                       | Some d => <[fl_name f := (d.2.1, fl_offset f)]> m
                       | None => m
                       end) fl_name
      (fun f => if bool_decide (fl_name f = LIVE_FIELD) then None
                else match List.find (fun d => bool_decide (d.1 = fl_name f)) data with
                     | Some d => Some (d.2.1, fl_offset f)
                     | None => None
                     end) (fields L) ∅ n) as [Hl _]; [|done|].
    - intros m f. case_bool_decide; [done|]. by destruct (List.find _ _).
    - rewrite (Hl _ Ho eq_refl). simpl. rewrite bool_decide_eq_false_2 by (by eapply Hnl).
      rewrite (find_unique _ _ (n, (ty, l)) Hd); [done|by apply bool_decide_eq_true|].
      intros y Hy Ey%bool_decide_eq_true. by apply (NoDup_fst_eq data). }
  assert (forall n o o', mkField n o ∈ fields L -> mkField n o' ∈ fields L -> o = o') as Huniq.
  { intros n o o' H1 H2. apply list_elem_of_lookup_1 in H1 as [i Hi], H2 as [j Hj].
    assert (i = j) as <-.
    { eapply NoDup_lookup; [exact HndL|..]; rewrite list_lookup_fmap; [by rewrite Hi|by rewrite Hj]. }
    congruence. }
  assert (forall live, (fl_offset <$> List.find (fun f => bool_decide (fl_name f = LIVE_FIELD)) (fields L)) = Some live ->
            drop = true /\ mkField LIVE_FIELD live ∈ fields L) as Hlv.
  { intros live ([fn fo] & Hf & ->)%fmap_Some. apply List.find_some in Hf as [Hf%list_elem_of_In E%bool_decide_eq_true].
    simpl in E. subst fn. split; [|done]. destruct (Hback _ _ Hf) as [l Hl]. unfold layout_input in Hl.
    destruct drop; [done|]. rewrite app_nil_r in Hl. apply list_elem_of_fmap_1 in Hl as ([dn [dt dl]] & [= <- <-] & Hd).
    by destruct (Hnl _ _ _ Hd). }
  split.
  - intros n ty l Hd. destruct (Hfields n l (Hdata _ _ _ Hd)) as (o & Ho & H0 & Hal & Hend & Hdis).
    exists o. split_and!; [by eapply Hmap|done..| |].
    + intros n' ty' l' off' Hd' Hne Hoff'. apply (Hdis n' l' off'); [by eapply Hdata|done|].
      destruct (Hfields n' l' (Hdata _ _ _ Hd')) as (o' & Ho' & _). rewrite (Hmap _ _ _ _ Hd' Ho') in Hoff'.
      by injection Hoff' as <-.
    + intros live [Hdr Hl]%Hlv. rewrite Hdr in Hdis.
      destruct (Hdis LIVE_FIELD (mkLayout 1 1 []) live) as [?|?]; [|by eapply Hnl|done|by right|left; simpl in *; lia].
      unfold layout_input. apply elem_of_app. right. left.
  - destruct drop.
    + destruct (Hfields LIVE_FIELD (mkLayout 1 1 [])) as (o & Ho & H0 & _ & Hend & _).
      { unfold layout_input. apply elem_of_app. right. left. }
      exists o. simpl in Hend. split; [|lia].
      rewrite (find_unique _ _ (mkField LIVE_FIELD o) Ho); [done|by apply bool_decide_eq_true|].
      intros [yn yo] Hy Ey%bool_decide_eq_true. simpl in Ey. subst yn. f_equal. by eapply Huniq.
    + destruct (fl_offset <$> _) as [live|] eqn:E; [|done]. by destruct (Hlv live eq_refl).
Qed.

(** the layout of a declared struct: every field has its declared type at
    an offset that is aligned for it and inside the struct, distinct fields do
    not overlap, and a struct with a user [drop] (and only such a one) has a
    liveness byte inside the struct that overlaps no field. *)
Theorem struct_info_layout D fuel name args C info C' :
  caches_wf C -> struct_get (name, args) C = None -> prelude_error_struct name = None ->
  struct_info D fuel name args C = Ok (info, C') ->
  exists decl data, struct_decls D !! name = Some decl /\ map fst data = map fd_name (sd_fields decl) /\
    layout_wf (si_layout info) /\
    (NoDup (map fst data) -> LIVE_FIELD ∉ map fst data ->
     (forall n ty l, (n, (ty, l)) ∈ data ->
        exists off, si_fields info !! n = Some (ty, off) /\ 0 <= off /\ (align l | off) /\
          off + size l <= size (si_layout info) /\
          (forall n' ty' l' off', (n', (ty', l')) ∈ data -> n <> n' -> si_fields info !! n' = Some (ty', off') ->
             off + size l <= off' \/ off' + size l' <= off) /\
          (forall live, si_live info = Some live -> live < off \/ off + size l <= live)) /\
     (if has_drop D name (sd_methods decl)
      then exists live, si_live info = Some live /\ 0 <= live < size (si_layout info)
      else si_live info = None)).
Proof.
  intros Hwf Hn Hpe H.
  destruct (keeps_struct_info D _ (keeps_layout_of D fuel) _ _ _ _ _ Hwf H) as (_ & _ & Hd & _).
  destruct (Hd Hn) as [Hlw [[ty Hty]|(decl & data & Hdecl & Hnames & Hdwf & Hb)]]; [congruence|].
  exists decl, data. split_and!; [done..|]. intros Hnd Hlive. by apply struct_build_fields.
Qed.

(** the layout of a declared enum: in every variant each payload field has
    its type at an aligned offset after the discriminant, the fields of a
    variant follow one another without overlapping and end inside the enum, and
    the liveness byte of an enum with a user [drop] is inside the enum and after
    every payload; a variant's discriminant is its position. *)
Theorem enum_info_layout D fuel name args C info C' :
  caches_wf C -> enum_get (name, args) C = None ->
  enum_info D fuel name args C = Ok (info, C') ->
  exists decl stop, enum_decls D !! name = Some decl /\ layout_wf (ei_layout info) /\
    variants_placed stop (ei_variants info) /\
    (forall v, v ∈ map ev_name (ed_variants decl) -> is_Some (ei_variants info !! v)) /\
    (if has_drop D name (ed_methods decl)
     then ei_live info = Some stop /\ stop < size (ei_layout info)
     else ei_live info = None /\ stop <= size (ei_layout info)) /\
    (NoDup (map ev_name (ed_variants decl)) -> forall i v, ed_variants decl !! i = Some v ->
       ei_index info !! ev_name v = Some (Z.of_nat i)).
Proof.
  intros Hwf Hn H.
  destruct (keeps_enum_info D _ (keeps_layout_of D fuel) _ _ _ _ _ Hwf H) as (_ & _ & Hd & _).
  destruct (Hd Hn) as [Hlw (decl & stop & Hdecl & _ & Hvp & Hall & Hidx & Hlive & Hsz)].
  exists decl, stop. split_and!; [done..| |].
  - destruct (has_drop D name (ed_methods decl)); (split; [done|lia]).
  - intros Hnd i v Hi. rewrite Hidx. unfold variant_index.
    destruct (fold_insert_lookup (fun m p => <[ev_name p.2 := p.1]> m) (fun p : Z * EnumVariant => ev_name p.2)
                (fun p => Some p.1) (zip (map Z.of_nat (seq 0 (length (ed_variants decl)))) (ed_variants decl)) ∅ (ev_name v))
      as [Hl _]; [done| |].
    + replace (map (fun p : Z * EnumVariant => ev_name p.2) _) with (map ev_name (ed_variants decl)); [done|].
      rewrite <- (map_map snd ev_name). f_equal. symmetry. apply snd_zip. by rewrite length_map, length_seq.
    + apply (Hl (Z.of_nat i, v)); [|done]. apply list_elem_of_lookup. exists i. apply lookup_zip_with_Some.
      exists (Z.of_nat i), v. split_and!; [done| |done]. rewrite list_lookup_fmap, lookup_seq_lt; [done|].
      by eapply lookup_lt_Some.
Qed.

(** Computing the layouts of several types, one after the other. *)
Definition layouts_of (D : Decls) (fuel : nat) (tys : list Type_) : M (list Layout) := mapM (layout_of D fuel) tys.

(** layouts are stable: once a struct's layout has been computed, it is
    cached, and whatever other types are laid out afterwards, asking again
    gives the same description and leaves the caches as they are; every layout
    handed out has a machine alignment and a size that is a multiple of it. *)
Theorem struct_info_stable D fuel name args C info C1 tys ls C2 fuel' :
  caches_wf C -> struct_info D fuel name args C = Ok (info, C1) -> layouts_of D fuel' tys C1 = Ok (ls, C2) ->
  struct_info D fuel' name args C2 = Ok (info, C2) /\ caches_wf C2 /\ Forall layout_wf ls.
Proof.
  intros Hwf H1 H2.
  destruct (keeps_struct_info D _ (keeps_layout_of D fuel) _ _ _ _ _ Hwf H1) as (He1 & Hg & _ & _).
  pose proof (ev_wf _ _ He1 Hwf) as Hwf1.
  apply (keeps_mapM _ _ (fun _ l => layout_wf l)) in H2 as [He2 Hl]; [| |done].
  2: { rewrite Forall_forall. intros ty _. apply keeps_layout_of. }
  apply (ev_struct_get _ _ He2) in Hg. split_and!.
  - unfold struct_info, struct_info_with. by rewrite Hg.
  - by apply (ev_wf _ _ He2).
  - eapply Forall2_Forall_r; [exact Hl|]. rewrite Forall_forall. done.
Qed.

(** ** Accessors of [TypeLayouts] *)

Section Accessors.
Context (D : Decls) (fuel : nat).

Definition struct_layout_of (name : string) (args : list Type_) : M Layout :=
  info <- struct_info D fuel name args ;; ret (si_layout info).

Definition struct_field (name : string) (args : list Type_) (field : string) : M (Type_ * Z) :=
  info <- struct_info D fuel name args ;; lift_opt (si_fields info !! field) (PanicUnknown field).

Definition tuple_field (items : list Type_) (index : nat) : M (Type_ * Z) :=
  l <- tuple_layout D fuel items ;;
  f <- lift_opt (fields l !! index) PanicUnsupported ;;
  ty <- lift_opt (items !! index) PanicUnsupported ;;
  ret (ty, fl_offset f).

Definition enum_layout_of (name : string) (args : list Type_) : M Layout :=
  info <- enum_info D fuel name args ;; ret (ei_layout info).

Definition enum_variant_field (name : string) (args : list Type_) (variant : string) (index : nat) : M (Type_ * Z) :=
  info <- enum_info D fuel name args ;;
  fs <- lift_opt (ei_variants info !! variant) (PanicUnknown variant) ;;
  lift_opt (fs !! index) PanicUnsupported.

Definition live_offset (ty : Type_) : M (option Z) :=
  match ty with
  | TyStruct name args =>
      if has_key (struct_decls D) name then info <- struct_info D fuel name args ;; ret (si_live info) else ret None
  | TyEnum name args => info <- enum_info D fuel name args ;; ret (ei_live info)
  | _ => ret None
  end.

Definition enum_variant_index (name : string) (args : list Type_) (variant : string) : M Z :=
  info <- enum_info D fuel name args ;; lift_opt (ei_index info !! variant) (PanicUnknown variant).

Definition struct_fields (name : string) (args : list Type_) : M (list (Type_ * Z)) :=
  info <- struct_info D fuel name args ;;
  match struct_decls D !! name with
  | None => ret (map (fun '(_, ty, off) => (ty, off)) (prelude_error_fields name))
  | Some decl => mapM (fun f => lift_opt (si_fields info !! fd_name f) (PanicUnknown (fd_name f))) (sd_fields decl)
  end.

Definition struct_field_list (name : string) (args : list Type_) : M (list (string * Type_)) :=
  info <- struct_info D fuel name args ;;
  match struct_decls D !! name with
  | None => ret (map (fun '(f, ty, _) => (f, ty)) (prelude_error_fields name))
  | Some decl =>
      mapM (fun f => e <- lift_opt (si_fields info !! fd_name f) (PanicUnknown (fd_name f)) ;; ret (fd_name f, e.1))
        (sd_fields decl)
  end.

Definition struct_has_method (name method : string) : bool :=
  match struct_decls D !! name with
  | Some decl => existsb (fun f => bool_decide (fn_name f = method)) (sd_methods decl)
  | None => false
  end.

Definition size_of (ty : Type_) : M Z := l <- layout_of D fuel ty ;; ret (size l).

Definition enum_variant_names (name : string) : M (list string) :=
  decl <- lift_opt (enum_decls D !! name) (PanicUnknown name) ;; ret (map ev_name (ed_variants decl)).

Definition enum_variants (name : string) (args : list Type_) : M (list (Z * list (Type_ * Z))) :=
  info <- enum_info D fuel name args ;;
  decl <- lift_opt (enum_decls D !! name) (PanicUnknown name) ;;
  mapM (fun v => index <- lift_opt (ei_index info !! ev_name v) (PanicUnknown (ev_name v)) ;;
                 fs <- lift_opt (ei_variants info !! ev_name v) (PanicUnknown (ev_name v)) ;;
                 ret (index, fs)) (ed_variants decl).
End Accessors.

(** ** Concrete declarations *)

Definition sp0 : Span.Span := Span.Span_new_root 0 0.
Definition path_ty (n : string) : Ty := TPath [n] sp0.
Definition ex_fn (n : string) : FnDecl :=
  mkFnDecl n None [] [] None (mkBlock [] None sp0) false false false false None [] sp0.

Definition ex_pair : StructDecl :=
  mkStructDecl "Pair" [] [mkFieldDecl "a" (path_ty "bool") false [] sp0; mkFieldDecl "b" (path_ty "i64") false [] sp0]
    [ex_fn "drop"] [] [] false [] sp0.
Definition ex_maybe : EnumDecl :=
  mkEnumDecl "Maybe" [] [mkEnumVariant "Some" (VTuple [path_ty "Pair"; path_ty "bool"]) [] sp0; mkEnumVariant "None" VUnit [] sp0]
    [] [] false [] sp0.
(** [struct Grow<T> { next: Grow<(T, T)> }] *)
Definition ex_grow : StructDecl :=
  mkStructDecl "Grow" [mkGenericParam "T" KType [] sp0]
    [mkFieldDecl "next" (TGeneric ["Grow"%string] [TTuple [path_ty "T"; path_ty "T"] sp0] sp0) false [] sp0]
    [] [] [] false [] sp0.
Definition ex_decls : Decls := from_module (mkModule None [IStruct ex_pair; IEnum ex_maybe; IStruct ex_grow] sp0).
Definition ex_caches : Caches := caches_new arena_default.

Lemma ex_caches_wf : caches_wf ex_caches.
Proof. repeat constructor. Qed.

Lemma struct_info_layout_witness : exists info C' decl,
  struct_info ex_decls 2 "Pair" [] ex_caches = Ok (info, C') /\ struct_decls ex_decls !! "Pair"%string = Some decl /\
  layout_wf (si_layout info).
Proof.
  destruct (struct_info ex_decls 2 "Pair" [] ex_caches) as [[info C']|e] eqn:E; [|vm_compute in E; discriminate].
  destruct (struct_info_layout ex_decls 2 "Pair" [] ex_caches info C' ex_caches_wf eq_refl eq_refl E)
    as (decl & data & Hd & _ & Hl & _).
  exists info, C', decl. split; [reflexivity|]. split; [exact Hd|exact Hl].
Defined.

Lemma ex_maybe_nodup : NoDup (map ev_name (ed_variants ex_maybe)).
Proof. apply NoDup_cons. split; [by intros ?%list_elem_of_singleton|apply NoDup_singleton]. Qed.

Lemma enum_info_layout_witness : exists info C',
  enum_info ex_decls 3 "Maybe" [] ex_caches = Ok (info, C') /\ ei_index info !! "None"%string = Some 1 /\
  layout_wf (ei_layout info).
Proof.
  destruct (enum_info ex_decls 3 "Maybe" [] ex_caches) as [[info C']|e] eqn:E; [|vm_compute in E; discriminate].
  destruct (enum_info_layout ex_decls 3 "Maybe" [] ex_caches info C' ex_caches_wf eq_refl E)
    as (decl & stop & Hd & Hl & _ & _ & _ & Hi).
  exists info, C'. split; [reflexivity|]. split; [|exact Hl].
  assert (enum_decls ex_decls !! "Maybe"%string = Some ex_maybe) as Hm by (vm_compute; reflexivity).
  assert (decl = ex_maybe) as -> by congruence. clear Hd Hm.
  apply (Hi ex_maybe_nodup 1%nat (mkEnumVariant "None" VUnit [] sp0) eq_refl).
Defined.

Lemma struct_info_stable_witness : exists info C1 ls C2,
  struct_info ex_decls 2 "Pair" [] ex_caches = Ok (info, C1) /\
  layouts_of ex_decls 3 [TyEnum "Maybe" []; TyTuple [TyBool; TyStruct "Pair" []]] C1 = Ok (ls, C2) /\
  struct_info ex_decls 3 "Pair" [] C2 = Ok (info, C2).
Proof.
  destruct (struct_info ex_decls 2 "Pair" [] ex_caches) as [[info C1]|e] eqn:E1; [|vm_compute in E1; discriminate].
  destruct (layouts_of ex_decls 3 [TyEnum "Maybe" []; TyTuple [TyBool; TyStruct "Pair" []]] C1) as [[ls C2]|e] eqn:E2.
  2: { vm_compute in E1. injection E1 as <- <-. vm_compute in E2. discriminate. }
  exists info, C1, ls, C2. split; [reflexivity|]. split; [exact E2|].
  apply (struct_info_stable ex_decls 2 "Pair" [] ex_caches info C1 _ ls C2 3 ex_caches_wf E1 E2).
Defined.

(** ** The instantiation cap does not bound a growing instantiation

    The cap counts cached instances, and an instance is cached when its fields
    are done: [Grow<T>], whose field is [Grow<(T, T)>], is laid out inside
    itself at ever larger arguments and nothing is ever cached. *)

Fixpoint tower (n : nat) : Type_ := match n with O => TyBool | S n => TyTuple [tower n; tower n] end.

Lemma tower_unwritten n : unwritten (tower n) = tower n.
Proof. induction n as [|n IH]; [done|]. simpl. by rewrite IH. Qed.

Lemma tower_inj n m : tower n = tower m -> n = m.
Proof. revert m; induction n as [|n IH]; intros [|m]; try done. intros [= E]. f_equal. auto. Qed.

Lemma tower_substitute d s stack n A : substitute_depth (S d) s stack (tower n) A = (A, tower n).
Proof.
  induction n as [|n IH]; [done|]. rewrite substitute_depth_eq. cbn [tower map_arena].
  cbv zeta. rewrite IH. rewrite IH. done.
Qed.

Lemma grow_substitute n A :
  substitute_generics (TyStruct "Grow" [TyTuple [TyGeneric "T"; TyGeneric "T"]])
    (substitution (sd_generics ex_grow) [tower n]) A = (A, TyStruct "Grow" [tower (S n)]).
Proof.
  assert (substitution (sd_generics ex_grow) [tower n] = {["T"%string := tower n]}) as -> by reflexivity.
  unfold substitute_generics. rewrite map_size_singleton. cbn [Nat.mul Nat.add].
  assert (forall A, substitute_depth 4 {["T"%string := tower n]} [] (TyGeneric "T") A = (A, tower n)) as Hg.
  { intros A'. rewrite substitute_depth_eq. cbv zeta. rewrite lookup_singleton_eq.
    assert (type_eqb (tower n) (TyGeneric "T") = false) as -> by (by destruct n).
    rewrite bool_decide_eq_false_2 by apply not_elem_of_nil. cbn [orb]. apply tower_substitute. }
  rewrite substitute_depth_eq. cbv zeta. cbn [map_arena].
  rewrite substitute_depth_eq. cbv zeta. cbn [map_arena]. rewrite Hg. rewrite Hg. done.
Qed.

(** Laying out [Grow<bool>] gives no answer with any fuel: neither the
    recursion check nor the instantiation cap stops it, whatever the cap. *)
Lemma grow_layout_never_answers cap fuel n C :
  (0 < cap)%nat -> struct_cache C = [] ->
  Forall (fun k => exists m, (m < n)%nat /\ k = ("Grow"%string, [tower m])) (struct_in_progress C) ->
  struct_info (with_max_instantiations ex_decls cap) fuel "Grow" [tower n] C = Err OutOfFuel.
Proof.
  intros Hcap. revert n C. induction fuel as [|fuel IH]; intros n C Hc Hp;
    unfold struct_info, struct_info_with, struct_get; rewrite Hc; cbn [List.find fmap option_fmap option_map];
    change (prelude_error_struct "Grow") with (@None (Type_ * Layout)); cbn iota;
    unfold bind at 1, begin_struct;
    (destruct (existsb (key_eqb ("Grow"%string, [tower n])) (struct_in_progress C)) eqn:Eb;
     [exfalso; apply existsb_elem in Eb as (k & Hk & Ek); rewrite Forall_forall in Hp;
      destruct (Hp k Hk) as (m & Hm & ->); apply key_eqb_spec in Ek as [_ Ek]; simpl in Ek;
      rewrite !tower_unwritten in Ek; injection Ek as Ek; apply tower_inj in Ek; lia|]);
    unfold bind at 1, check_struct_cap; simpl struct_cache; rewrite Hc; cbn [List.filter length max_instantiations with_max_instantiations];
    (destruct (Nat.leb_spec cap 0); [lia|]);
    unfold bind at 1; change (struct_decls (with_max_instantiations ex_decls cap) !! "Grow"%string) with (Some ex_grow);
    cbn [lift_opt ret]; unfold bind at 1; cbn [sd_fields ex_grow mapM]; unfold bind at 1; unfold bind at 1;
    unfold field_of, bind at 1; cbn [fd_ty].
  all: match goal with |- context [resolve_ty_template ?a ?b ?c ?d] =>
         change (resolve_ty_template a b c d) with (@Ok (Type_ * Caches) LayoutError
           (TyStruct "Grow" [TyTuple [TyGeneric "T"; TyGeneric "T"]], d)) end; cbn iota beta.
  all: unfold bind at 1, on_arena; rewrite grow_substitute; cbn [arena struct_cache enum_cache struct_in_progress enum_in_progress].
  - done.
  - unfold bind at 1. cbn [layout_of scalar_layout].
    change (negb (has_struct (with_max_instantiations ex_decls cap) "Grow") && is_builtin_handle "Grow") with false. cbn iota.
    unfold bind at 1.
    match goal with |- context [struct_info_with ?a ?b ?c ?d ?e] => assert (struct_info_with a b c d e = Err OutOfFuel) as -> end; [|done].
    apply (IH (S n)); [done|]. simpl. constructor; [exists n; split; [lia|done]|].
    eapply Forall_impl; [exact Hp|]. intros k (m & Hm & ->). exists m. split; [lia|done].
Qed.

(** The instantiation cap does not stop unbounded recursive generic
    construction: laying out [Grow<bool>], where [struct Grow<T> { next:
    Grow<(T, T)> }], from empty caches gives no answer with any fuel, neither a
    layout nor the cap's panic, whatever positive cap is set, because only
    finished instances are counted. *)
Theorem instantiation_cap_not_reached cap fuel A :
  struct_info (with_max_instantiations ex_decls (S cap)) fuel "Grow" [TyBool] (caches_new A) = Err OutOfFuel.
Proof. apply (grow_layout_never_answers (S cap) fuel 0); [lia|done|constructor]. Qed.
