(* ===== verification/LayoutTotal.v ===== *)
(** Termination of the layout computation: [compiler/paco-mir/src/type_layout.rs].

    The source recurses from a type to the types of its fields.  A [Ranked]
    set of declarations is one whose instances can be ranked so that fields
    have smaller ranks; for it, fuel beyond the rank of a type always gives an
    answer, a layout or one of the source's panics. *)
From S2P Require Import Prelude Span Ast Types Dims Generics Layout TypeLayout.

(** ** Computations that never run out of fuel *)

Definition answers {A} (m : M A) : Prop := forall C, m C <> Err OutOfFuel.

Lemma answers_ret {A} (a : A) : answers (ret a).
Proof. done. Qed.

Lemma answers_panic {A} e : e <> OutOfFuel -> answers (panic (A := A) e).
Proof. intros He C [= E]. by apply He. Qed.

Lemma answers_bind {A B} (m : M A) (k : A -> M B) :
  answers m -> (forall a, answers (k a)) -> answers (a <- m ;; k a).
Proof. intros Hm Hk C. unfold bind. destruct (m C) as [[a C']|e] eqn:E; [apply Hk|]. intros [= ->]. by apply (Hm C). Qed.

(** The continuation may assume that the value was computed. *)
Lemma answers_bind_ok {A B} (m : M A) (k : A -> M B) :
  answers m -> (forall a C C', m C = Ok (a, C') -> answers (k a)) -> answers (a <- m ;; k a).
Proof.
  intros Hm Hk C. unfold bind. destruct (m C) as [[a C']|e] eqn:E; [by eapply Hk|]. intros [= ->]. by apply (Hm C).
Qed.

Lemma answers_lift {A} (o : option A) e : e <> OutOfFuel -> answers (lift_opt o e).
Proof. intros He. destruct o; [apply answers_ret|by apply answers_panic]. Qed.

Lemma answers_mapM {A B} (f : A -> M B) l : Forall (fun x => answers (f x)) l -> answers (mapM f l).
Proof.
  induction 1 as [|x l Hx _ IH]; [apply answers_ret|]. simpl. apply answers_bind; [done|]. intros y.
  apply answers_bind; [done|]. intros ys. apply answers_ret.
Qed.

Lemma answers_on_arena {A} (f : Arena -> Arena * A) : answers (on_arena f).
Proof. intros C. unfold on_arena. by destruct (f (arena C)). Qed.

Create HintDb answers.
#[export] Hint Resolve answers_ret answers_bind answers_mapM answers_on_arena : answers.
#[export] Hint Extern 1 (answers (panic _)) => apply answers_panic; discriminate : answers.
#[export] Hint Extern 1 (answers (lift_opt _ _)) => apply answers_lift; discriminate : answers.

(** ** Templates *)

Section Total.
Context (D : Decls).

Lemma answers_const_arg ty generics : answers (const_arg_template ty generics).
Proof. unfold const_arg_template. repeat case_match; auto with answers. Qed.

Lemma answers_arg_templates (res const_arg : Ty -> M Type_) args params :
  Forall (fun t => answers (res t)) args -> (forall t, answers (const_arg t)) ->
  answers (arg_templates res const_arg args params).
Proof.
  intros Hr Hc. revert params; induction Hr as [|a args Ha Hr IH]; intros params; simpl; [apply answers_ret|].
  destruct params as [|p ps]; [apply answers_ret|]. apply answers_bind; [|auto with answers].
  assert (answers (ts <- mapM const_arg (a :: args) ;; ret (TyPack ts))) as Hp.
  { apply answers_bind; [|auto with answers]. apply answers_mapM, Forall_forall. auto. }
  repeat case_match; auto with answers.
Qed.

Local Notation any := (fun _ => True) (only parsing).

Lemma answers_template ty generics : answers (resolve_ty_template D ty generics).
Proof.
  revert ty.
  assert (forall ty, answers (resolve_ty_template D ty generics)) as H; [|exact H].
  apply (Ty_mut any any any any any any any any (fun ty => answers (resolve_ty_template D ty generics))
           any any any any any any any any any any any any any any any any); try (intros; exact I); intros;
    try (apply answers_panic; discriminate); try apply answers_const_arg;
    repeat match goal with H : list_all _ _ _ |- _ => apply list_all_Forall in H end.
  - destruct path as [|p [|q path]]; cbn [resolve_ty_template]; repeat case_match; auto with answers.
  - cbn [resolve_ty_template]. cbv zeta. repeat case_match; auto using answers_arg_templates, answers_const_arg with answers.
  - destruct items; cbn [resolve_ty_template]; auto with answers.
  - cbn [resolve_ty_template]. auto with answers.
  - cbn [resolve_ty_template]. auto with answers.
  - cbn [resolve_ty_template]. auto with answers.
  - cbn [resolve_ty_template]. apply answers_bind; [by apply answers_mapM|]. intros ps. apply answers_bind; [|auto with answers].
    destruct return_ty as [r|]; [|apply answers_ret]. by inversion H0.
Qed.

(** ** Ranks *)

(** [ty'] is the type of a field written [ty], with the arguments applied. *)
Definition field_type (generics : list GenericParam) (s : Subst) (ty : Ty) (ty' : Type_) : Prop :=
  exists C t C1 C2, resolve_ty_template D ty (generic_names generics) C = Ok (t, C1) /\
    on_arena (substitute_generics t s) C1 = Ok (ty', C2).

Class Ranked (rank : Type_ -> nat) : Prop := {
  ranked_tuple : forall items ty, ty ∈ items -> (rank ty < rank (TyTuple items))%nat;
  ranked_struct : forall name args decl f ty, struct_decls D !! name = Some decl -> f ∈ sd_fields decl ->
    field_type (sd_generics decl) (substitution (sd_generics decl) args) (fd_ty f) ty ->
    (rank ty < rank (TyStruct name args))%nat;
  ranked_enum : forall name args decl v tys t ty, enum_decls D !! name = Some decl -> v ∈ ed_variants decl ->
    variant_tys (ev_fields v) = Some tys -> t ∈ tys ->
    field_type (ed_generics decl) (substitution (ed_generics decl) args) t ty ->
    (rank ty < rank (TyEnum name args))%nat }.

Lemma answers_field_of lay generics s ty :
  (forall ty', field_type generics s ty ty' -> answers (lay ty')) -> answers (field_of D lay generics s ty).
Proof.
  intros Hl C. unfold field_of, bind at 1. pose proof (answers_template ty (generic_names generics) C) as Ht.
  destruct (resolve_ty_template D ty (generic_names generics) C) as [[t C1]|e] eqn:E1; [|by intros [= ->]].
  unfold bind at 1. destruct (on_arena (substitute_generics t s) C1) as [[c C2]|e] eqn:E2;
    [|intros [= ->]; by apply (answers_on_arena (substitute_generics t s) C1)].
  apply answers_bind; [|intros; apply answers_ret]. apply Hl. by exists C, t, C1, C2.
Qed.

Lemma answers_struct_info lay name args :
  (forall decl f ty, struct_decls D !! name = Some decl -> f ∈ sd_fields decl ->
     field_type (sd_generics decl) (substitution (sd_generics decl) args) (fd_ty f) ty -> answers (lay ty)) ->
  answers (struct_info_with D lay name args).
Proof.
  intros Hl C. unfold struct_info_with. cbv zeta. destruct (struct_get _ _); [done|].
  destruct (prelude_error_struct name) as [[? ?]|]; [done|]. revert C.
  apply answers_bind; [intros C; unfold begin_struct; by case_match|intros _].
  apply answers_bind; [intros C; unfold check_struct_cap; by case_match|intros _].
  apply answers_bind_ok; [auto with answers|]. intros decl C C' Hd.
  assert (struct_decls D !! name = Some decl) as Hdecl by (destruct (struct_decls D !! name); by inversion Hd).
  apply answers_bind; [|intros data; repeat (apply answers_bind; [auto with answers|intros ?]); done].
  apply answers_mapM, Forall_forall. intros f Hf. apply answers_bind; [|auto with answers].
  apply answers_field_of. intros ty Hty. by eapply Hl.
Qed.

Lemma answers_variants lay generics s vs a b m :
  (forall v tys t ty, v ∈ vs -> variant_tys (ev_fields v) = Some tys -> t ∈ tys -> field_type generics s t ty -> answers (lay ty)) ->
  answers (variants_loop D lay generics s vs a b m).
Proof.
  revert a b m; induction vs as [|v vs IH]; intros a b m Hl; cbn [variants_loop]; [apply answers_ret|].
  destruct (variant_tys (ev_fields v)) as [tys|] eqn:Ev; [|by intros C].
  apply answers_bind_ok; [auto with answers|]. intros tys' C C' [= <- _].
  apply answers_bind.
  - apply answers_mapM, Forall_forall. intros t Ht. apply answers_field_of. intros ty Hty.
    eapply (Hl v tys t ty); [set_solver|done..].
  - intros data. repeat (apply answers_bind; [auto with answers|intros ?]). apply IH. intros v' tys' t ty Hv'. eapply Hl. set_solver.
Qed.

Lemma answers_enum_info lay name args :
  (forall decl v tys t ty, enum_decls D !! name = Some decl -> v ∈ ed_variants decl ->
     variant_tys (ev_fields v) = Some tys -> t ∈ tys ->
     field_type (ed_generics decl) (substitution (ed_generics decl) args) t ty -> answers (lay ty)) ->
  answers (enum_info_with D lay name args).
Proof.
  intros Hl C. unfold enum_info_with. cbv zeta. destruct (enum_get _ _); [done|]. revert C.
  apply answers_bind; [intros C; unfold begin_enum; by case_match|intros _].
  apply answers_bind; [intros C; unfold check_enum_cap; by case_match|intros _].
  apply answers_bind_ok; [auto with answers|]. intros decl C C' Hd.
  assert (enum_decls D !! name = Some decl) as Hdecl by (destruct (enum_decls D !! name); by inversion Hd).
  apply answers_bind; [|intros r; repeat (apply answers_bind; [auto with answers|intros ?]); done].
  apply answers_variants. eauto.
Qed.

Context {rank : Type_ -> nat} {Hrank : Ranked rank}.

Lemma layout_of_answers fuel ty : (rank ty < fuel)%nat -> answers (layout_of D fuel ty).
Proof.
  revert ty; induction fuel as [|fuel IH]; intros ty Hr; [lia|]. cbn [layout_of].
  destruct (scalar_layout ty); [apply answers_ret|]. destruct ty; auto with answers.
  - case_match; [auto with answers|]. apply answers_bind; [|auto with answers]. apply answers_struct_info.
    intros decl f ty Hd Hf Hty. apply IH. pose proof (ranked_struct name args decl f ty Hd Hf Hty). lia.
  - apply answers_bind; [|auto with answers]. apply answers_enum_info.
    intros decl v tys t ty Hd Hv Hvt Ht Hty. apply IH. pose proof (ranked_enum name args decl v tys t ty Hd Hv Hvt Ht Hty). lia.
  - unfold tuple_layout_with. apply answers_bind; [|auto with answers]. apply answers_mapM, Forall_forall.
    intros ty Hty. apply IH. pose proof (ranked_tuple items ty Hty). lia.
Qed.
End Total.

(** When the instances of the declarations can be ranked so that the types of
    fields, variant payloads and tuple items have smaller ranks than the type
    that holds them, the layout computation terminates: fuel beyond the rank
    of a type always gives an answer, a layout or a panic of the source, and
    the answer is the same for any more fuel. *)
Theorem layout_of_terminates D (rank : Type_ -> nat) ty C fuel :
  Ranked D rank -> (rank ty < fuel)%nat ->
  layout_of D fuel ty C <> Err OutOfFuel /\ layout_of D fuel ty C = layout_of D (S (rank ty)) ty C.
Proof.
  intros Hrank Hf. split; [by apply (layout_of_answers D)|].
  replace fuel with ((fuel - S (rank ty)) + S (rank ty))%nat by lia.
  apply layout_of_fuel_mono; [done|]. apply (layout_of_answers D). lia.
Qed.

(** A set of declarations with ranks: a struct of scalars and an enum over it. *)
Definition ranked_decls : Decls := from_module (mkModule None [IStruct ex_pair; IEnum ex_maybe] sp0).

Fixpoint ex_rank (ty : Type_) : nat :=
  match ty with
  | TyStruct _ _ => 1
  | TyEnum _ _ => 2
  | TyTuple items => S (list_max (map ex_rank items) + 2)
  | _ => 0
  end.

Lemma ranked_structs : struct_decls ranked_decls = {["Pair"%string := ex_pair]}.
Proof. by vm_compute. Qed.
Lemma ranked_enums : enum_decls ranked_decls = {["Maybe"%string := ex_maybe]}.
Proof. by vm_compute. Qed.

Lemma ex_ranked : Ranked ranked_decls ex_rank.
Proof.
  split.
  - intros items ty Hty. simpl. apply (list_elem_of_fmap_2 ex_rank) in Hty.
    apply list_elem_of_In in Hty. pose proof (proj1 (list_max_le (map ex_rank items) _) (le_n _)) as Hm.
    rewrite List.Forall_forall in Hm. specialize (Hm _ Hty). lia.
  - intros name args decl f ty Hd Hf (C & t & C1 & C2 & H1 & H2).
    rewrite ranked_structs in Hd. apply lookup_singleton_Some in Hd as [<- <-].
    cbn [sd_fields ex_pair] in Hf. rewrite !elem_of_cons, elem_of_nil in Hf.
    destruct Hf as [->|[->|[]]]; vm_compute in H1; injection H1 as <- <-; vm_compute in H2; injection H2 as <- _; simpl; lia.
  - intros name args decl v tys t ty Hd Hv Ht Htt (C & t' & C1 & C2 & H1 & H2).
    rewrite ranked_enums in Hd. apply lookup_singleton_Some in Hd as [<- <-].
    cbn [ed_variants ex_maybe] in Hv. rewrite !elem_of_cons, elem_of_nil in Hv.
    destruct Hv as [->|[->|[]]]; cbn in Ht; injection Ht as <-; rewrite ?elem_of_cons, ?elem_of_nil in Htt; [|done].
    destruct Htt as [->|[->|[]]]; vm_compute in H1; injection H1 as <- <-; vm_compute in H2; injection H2 as <- _; simpl; lia.
Qed.

Lemma layout_of_terminates_witness :
  layout_of ranked_decls 9 (TyTuple [TyEnum "Maybe" []; TyBool]) ex_caches <> Err OutOfFuel /\
  is_ok (layout_of ranked_decls 9 (TyTuple [TyEnum "Maybe" []; TyBool]) ex_caches) = true.
Proof.
  split; [|by vm_compute]. apply (layout_of_terminates ranked_decls ex_rank); [apply ex_ranked|simpl; lia].
Defined.
