(* ===== verification/Channel.v ===== *)
(** Channels of the task runtime: [runtime/paco-runtime/src/channel.rs], with
    the notifications of [sync.rs].

    The channel is a state machine over interleaved actors (tasks or threads).
    An actor is between operations or inside one, at a program counter; a step
    is one atomic action of the source: a load of [closed], a critical section
    under the lock of the queue ([closed] only changes there), a drain of a
    waiter list, a decrement of the sender count, or a return from [park].

    A [Notify] is a fresh token; notifying it is remembered, as a [Waker] that
    fired or an [unpark]ed thread is, so that a later [park] on it returns.  A
    parked thread may also return from [park] without being notified. *)
From S2P Require Import Prelude.

Section Channel.
Context {T : Type}.

(** [Inner<T>] *)
Record Inner := mkInner {
  queue : list T;
  capacity : nat;
  send_waiters : list nat;
  recv_waiters : list nat;
  closed : bool;
  sender_count : nat }.

(** Where an actor is. *)
Inductive Pc :=
| Idle
| SendCheck (v : T)                  (* before the first load of [closed] *)
| SendLock (v : T)                   (* before the critical section *)
| SendPark (v : T) (token : nat)     (* in [park] *)
| SendWake (v : T)                   (* before draining [recv_waiters] *)
| RecvLock
| RecvPark (token : nat)
| RecvWake (v : T)                   (* before draining [send_waiters] *)
| CloseLock
| CloseWakeSend
| CloseWakeRecv.

(** What an operation returned. *)
Inductive Outcome :=
| SendOk (v : T)
| SendErr (v : T)
| RecvOk (v : T)
| RecvErr.

Record State := mkState {
  inner : Inner;
  actors : gmap nat Pc;
  fired : gset nat;          (* tokens that were notified *)
  next_token : nat;
  outcomes : list (nat * Outcome);
  sent : list T;             (* values pushed, in order *)
  received : list T          (* values popped, in order *) }.

Definition pc_of (s : State) (a : nat) : Pc := default Idle (actors s !! a).
Definition at_pc (s : State) (a : nat) (p : Pc) (i : Inner) : State :=
  mkState i (<[a := p]> (actors s)) (fired s) (next_token s) (outcomes s) (sent s) (received s).
Definition finish (s : State) (a : nat) (o : Outcome) : State :=
  mkState (inner s) (<[a := Idle]> (actors s)) (fired s) (next_token s) (outcomes s ++ [(a, o)]) (sent s) (received s).

(** [channel(runtime, capacity)] *)
Definition channel (cap : nat) : State :=
  mkState (mkInner [] (Nat.max cap 1) [] [] false 1) ∅ ∅ 0 [] [] [].

(** [wake_all]: notify the tokens and empty the list. *)
Definition wake_senders (s : State) : State :=
  let i := inner s in
  mkState (mkInner (queue i) (capacity i) [] (recv_waiters i) (closed i) (sender_count i)) (actors s)
    (fired s ∪ list_to_set (send_waiters i)) (next_token s) (outcomes s) (sent s) (received s).

Definition wake_receivers (s : State) : State :=
  let i := inner s in
  mkState (mkInner (queue i) (capacity i) (send_waiters i) [] (closed i) (sender_count i)) (actors s)
    (fired s ∪ list_to_set (recv_waiters i)) (next_token s) (outcomes s) (sent s) (received s).

(** The critical section of [send]. *)
Definition send_locked (s : State) (a : nat) (v : T) : State :=
  let i := inner s in
  if closed i then finish s a (SendErr v)
  else if length (queue i) <? capacity i then
    let i := mkInner (queue i ++ [v]) (capacity i) (send_waiters i) (recv_waiters i) (closed i) (sender_count i) in
    mkState i (<[a := SendWake v]> (actors s)) (fired s) (next_token s) (outcomes s) (sent s ++ [v]) (received s)
  else
    let token := next_token s in
    let i := mkInner (queue i) (capacity i) (send_waiters i ++ [token]) (recv_waiters i) (closed i) (sender_count i) in
    mkState i (<[a := SendPark v token]> (actors s)) (fired s) (S token) (outcomes s) (sent s) (received s).

(** The critical section of [recv]. *)
Definition recv_locked (s : State) (a : nat) : State :=
  let i := inner s in
  match queue i with
  | v :: rest =>
      let i := mkInner rest (capacity i) (send_waiters i) (recv_waiters i) (closed i) (sender_count i) in
      mkState i (<[a := RecvWake v]> (actors s)) (fired s) (next_token s) (outcomes s) (sent s) (received s ++ [v])
  | [] =>
      if closed i then finish s a RecvErr
      else
        let token := next_token s in
        let i := mkInner (queue i) (capacity i) (send_waiters i) (recv_waiters i ++ [token]) (closed i) (sender_count i) in
        mkState i (<[a := RecvPark token]> (actors s)) (fired s) (S token) (outcomes s) (sent s) (received s)
  end.

(** The critical section of [Inner::close]. *)
Definition close_locked (s : State) (a : nat) : State :=
  let i := inner s in
  at_pc s a CloseWakeSend
    (mkInner (queue i) (capacity i) (send_waiters i) (recv_waiters i) true (sender_count i)).

(** One atomic action of an actor inside an operation; [None] when it is idle
    or its token has not been notified. *)
Definition run_actor (s : State) (a : nat) : option State :=
  match pc_of s a with
  | Idle => None
  | SendCheck v => Some (if closed (inner s) then finish s a (SendErr v) else at_pc s a (SendLock v) (inner s))
  | SendLock v => Some (send_locked s a v)
  | SendPark v token => if decide (token ∈ fired s) then Some (at_pc s a (SendCheck v) (inner s)) else None
  | SendWake v => let s := wake_receivers s in Some (finish s a (SendOk v))
  | RecvLock => Some (recv_locked s a)
  | RecvPark token => if decide (token ∈ fired s) then Some (at_pc s a RecvLock (inner s)) else None
  | RecvWake v => let s := wake_senders s in Some (finish s a (RecvOk v))
  | CloseLock => Some (close_locked s a)
  | CloseWakeSend => let s := wake_senders s in Some (at_pc s a CloseWakeRecv (inner s))
  | CloseWakeRecv => let s := wake_receivers s in Some (at_pc s a Idle (inner s))
  end.

Inductive Op := Send (v : T) | Recv | Close | CloneSender | DropSender.

(** An idle actor calls an operation.  A sender is needed to send, to clone
    and to drop one. *)
Definition call (s : State) (a : nat) (op : Op) : option State :=
  let i := inner s in
  match pc_of s a with
  | Idle =>
      match op with
      | Send v => if sender_count i =? 0 then None else Some (at_pc s a (SendCheck v) i)
      | Recv => Some (at_pc s a RecvLock i)
      | Close => Some (at_pc s a CloseLock i)
      | CloneSender =>
          if sender_count i =? 0 then None
          else Some (at_pc s a Idle (mkInner (queue i) (capacity i) (send_waiters i) (recv_waiters i) (closed i) (S (sender_count i))))
      | DropSender =>
          if sender_count i =? 0 then None
          else Some (at_pc s a (if sender_count i =? 1 then CloseLock else Idle)
                       (mkInner (queue i) (capacity i) (send_waiters i) (recv_waiters i) (closed i) (sender_count i - 1)))
      end
  | _ => None
  end.

(** A thread returns from [park] without having been notified. *)
Definition spurious (s : State) (a : nat) : option State :=
  match pc_of s a with
  | SendPark v _ => Some (at_pc s a (SendCheck v) (inner s))
  | RecvPark _ => Some (at_pc s a RecvLock (inner s))
  | _ => None
  end.

Definition sender_is_ready (i : Inner) : bool := negb (closed i) && (length (queue i) <? capacity i).
Definition receiver_is_ready (i : Inner) : bool := negb (match queue i with [] => true | _ => false end) || closed i.

Inductive step (s : State) : State -> Prop :=
| step_call a op s' : call s a op = Some s' -> step s s'
| step_run a s' : run_actor s a = Some s' -> step s s'
| step_spurious a s' : spurious s a = Some s' -> step s s'.

Inductive reachable (cap : nat) : State -> Prop :=
| reachable_init : reachable cap (channel cap)
| reachable_step s s' : reachable cap s -> step s s' -> reachable cap s'.

(** A schedule, for running the machine. *)
Inductive Action := Call (a : nat) (op : Op) | Run (a : nat) | Spurious (a : nat).

Definition act (s : State) (x : Action) : option State :=
  match x with
  | Call a op => call s a op
  | Run a => run_actor s a
  | Spurious a => spurious s a
  end.

Fixpoint run_schedule (s : State) (xs : list Action) : option State :=
  match xs with
  | [] => Some s
  | x :: xs' => s' ← act s x; run_schedule s' xs'
  end.

Lemma run_schedule_reachable cap xs s s' :
  reachable cap s -> run_schedule s xs = Some s' -> reachable cap s'.
Proof.
  revert s; induction xs as [|x xs IH]; intros s Hs; simpl; [by intros [= <-]|].
  intros (s1 & H1 & H2)%bind_Some. eapply IH; [|exact H2]. eapply reachable_step; [exact Hs|].
  destruct x; simpl in H1; [by eapply step_call|by eapply step_run|by eapply step_spurious].
Qed.

(** * What a state satisfies *)

Definition parked_sender (p : Pc) : option nat := match p with SendPark _ t => Some t | _ => None end.
Definition parked_receiver (p : Pc) : option nat := match p with RecvPark t => Some t | _ => None end.
Definition drains_senders (p : Pc) : bool :=
  match p with RecvWake _ | CloseWakeSend => true | _ => false end.
Definition drains_receivers (p : Pc) : bool :=
  match p with SendWake _ | CloseWakeSend | CloseWakeRecv => true | _ => false end.
Definition full (i : Inner) : Prop := length (queue i) = capacity i ∧ closed i = false.
Definition dry (i : Inner) : Prop := queue i = [] ∧ closed i = false.

(** An un-notified parked actor is registered, and either there is nothing
    for it to do or some actor is about to drain the list it is on. *)
Definition no_lost_wakeup (park : Pc -> option nat) (drains : Pc -> bool)
    (waiters : Inner -> list nat) (blocked : Inner -> Prop) (s : State) : Prop :=
  ∀ a t, park (pc_of s a) = Some t -> t ∉ fired s ->
    t ∈ waiters (inner s) ∧ (blocked (inner s) ∨ ∃ b, drains (pc_of s b) = true).

(** Once the last sender is dropped the channel is closed or about to be. *)
Definition close_owed (s : State) : Prop :=
  sender_count (inner s) = 0 -> closed (inner s) = true ∨ ∃ b, pc_of s b = CloseLock.

Record Inv (s : State) : Prop := {
  inv_capacity : 1 ≤ capacity (inner s);
  inv_bound : length (queue (inner s)) ≤ capacity (inner s);
  inv_fifo : sent s = received s ++ queue (inner s);
  inv_sender : no_lost_wakeup parked_sender drains_senders send_waiters full s;
  inv_receiver : no_lost_wakeup parked_receiver drains_receivers recv_waiters dry s;
  inv_drop : close_owed s;
  inv_recv_err : ∀ a, (a, RecvErr) ∈ outcomes s -> closed (inner s) = true ∧ queue (inner s) = [];
  inv_send_err : ∀ a v, (a, SendErr v) ∈ outcomes s -> closed (inner s) = true }.

Lemma pc_of_insert i m f n o se r a p b :
  pc_of (mkState i (<[a := p]> m) f n o se r) b = if decide (a = b) then p else default Idle (m !! b).
Proof.
  unfold pc_of; simpl. destruct (decide (a = b)) as [->|H]; [by rewrite lookup_insert_eq|by rewrite lookup_insert_ne].
Qed.

(** An actor other than the one that moved keeps its place. *)
Lemma other_keeps (P : Pc -> Prop) i f n o se r a p (s : State) :
  (¬ P (pc_of s a) ∨ P p) -> (∃ b, P (pc_of s b)) ->
  ∃ b, P (pc_of (mkState i (<[a := p]> (actors s)) f n o se r) b).
Proof.
  intros [Ha|Hp] (b & Hb).
  - exists b. rewrite pc_of_insert. destruct (decide (a = b)) as [->|]; [done|exact Hb].
  - exists a. by rewrite pc_of_insert, decide_True.
Qed.

(** Wakeups survive a step of actor [a] to [p] that keeps the notified tokens,
    takes none off the list without notifying it, and unblocks the waiters
    only by moving to where it will drain the list. *)
Lemma no_lost_wakeup_step park drains waiters blocked (s : State) a p i f n o se r :
  no_lost_wakeup park drains waiters blocked s ->
  fired s ⊆ f ->
  (∀ t, t ∈ waiters (inner s) -> t ∈ f ∨ t ∈ waiters i) ->
  (∀ t, park p = Some t -> t ∈ waiters i ∧ blocked i) ->
  (drains p = true ∨ (∀ t, t ∈ waiters (inner s) -> t ∈ f)
   ∨ (drains (pc_of s a) = false ∧ (blocked (inner s) -> blocked i))) ->
  no_lost_wakeup park drains waiters blocked (mkState i (<[a := p]> (actors s)) f n o se r).
Proof.
  intros Hs Hf Hw Hp Hd b t Hb Ht. simpl in *. rewrite pc_of_insert in Hb.
  destruct (decide (a = b)) as [->|Hab]; [destruct (Hp t Hb); auto|].
  destruct (Hs b t Hb) as [Hin Hwhy]; [set_solver|].
  destruct (Hw t Hin) as [|Hin']; [done|]. split; [done|].
  destruct Hd as [Hd|[Hd|[Hd Hb']]].
  - right. exists a. by rewrite pc_of_insert, decide_True.
  - by destruct Ht; apply Hd.
  - destruct Hwhy as [|Hex]; [auto|right].
    by apply (other_keeps (λ q, drains q = true)); [left; rewrite Hd|].
Qed.

(** The same for the close that a dropped last sender owes. *)
Lemma owed_close_step (s : State) a p i f n o se r :
  close_owed s ->
  (sender_count i = 0 -> sender_count (inner s) = 0 ∨ p = CloseLock) ->
  (closed (inner s) = true -> closed i = true) ->
  (pc_of s a = CloseLock -> closed i = true) ->
  close_owed (mkState i (<[a := p]> (actors s)) f n o se r).
Proof.
  intros Hs Hn Hc Ha H0. destruct (Hn H0) as [H1|Hp].
  - destruct (Hs H1) as [|(b & Hb)]; [auto|].
    destruct (decide (a = b)) as [->|Hab]; [auto|]. right. exists b. rewrite pc_of_insert, decide_False; done.
  - right. exists a. by rewrite pc_of_insert, decide_True.
Qed.

(** Opens the goals of one step from [Hs : Inv s], [Hpc] being where the actor was. *)
Local Ltac step_inv Hs Hpc :=
  pose proof (inv_capacity _ Hs); pose proof (inv_bound _ Hs);
  split; simpl in *;
  [ lia
  | rewrite ?length_app; simpl; try lia
  | rewrite (inv_fifo _ Hs), <-?(assoc_L (++)); try done
  | eapply no_lost_wakeup_step; [apply inv_sender, Hs|set_solver|set_solver|simpl; try done|rewrite Hpc; simpl]
  | eapply no_lost_wakeup_step; [apply inv_receiver, Hs|set_solver|set_solver|simpl; try done|rewrite Hpc; simpl]
  | apply owed_close_step; [apply inv_drop, Hs|simpl; auto|simpl; auto; try congruence|rewrite Hpc; simpl; try done]
  | intros ?; rewrite ?elem_of_app, ?list_elem_of_singleton; try apply (inv_recv_err _ Hs)
  | intros ? ?; rewrite ?elem_of_app, ?list_elem_of_singleton; try apply (inv_send_err _ Hs) ].

Lemma finish_inv s a o :
  Inv s -> drains_senders (pc_of s a) = false -> drains_receivers (pc_of s a) = false -> pc_of s a ≠ CloseLock ->
  (o = RecvErr -> closed (inner s) = true ∧ queue (inner s) = []) ->
  (∀ v, o = SendErr v -> closed (inner s) = true) ->
  Inv (finish s a o).
Proof.
  intros [] H1 H2 H3 H4 H5. split; simpl; auto.
  - eapply no_lost_wakeup_step; [eassumption|set_solver|set_solver|done|right; right; auto].
  - eapply no_lost_wakeup_step; [eassumption|set_solver|set_solver|done|right; right; auto].
  - apply owed_close_step; auto; done.
  - intros b [|Hb%list_elem_of_singleton]%elem_of_app; [by eapply inv_recv_err0|simplify_eq; auto].
  - intros b v [|Hb%list_elem_of_singleton]%elem_of_app; [by eapply inv_send_err0|simplify_eq; eauto].
Qed.

Lemma send_locked_inv s a v : Inv s -> pc_of s a = SendLock v -> Inv (send_locked s a v).
Proof.
  intros Hs Hpc. unfold send_locked. destruct (closed (inner s)) eqn:Hc.
  { apply finish_inv; rewrite ?Hpc; try done. }
  destruct (Nat.ltb_spec (length (queue (inner s))) (capacity (inner s))) as [Hlt|Hge].
  - step_inv Hs Hpc.
    + right; right; split; [done|]. unfold full; simpl. lia.
    + auto.
    + intros Hin. apply (inv_recv_err _ Hs) in Hin as []; congruence.
    + intros Hin. apply (inv_send_err _ Hs) in Hin; congruence.
  - step_inv Hs Hpc.
    + intros t [= <-]. split; [set_solver|]. unfold full; simpl. split; [lia|done].
    + right; right; split; [done|]. by unfold full; simpl; rewrite Hc.
    + right; right; split; [done|]. by unfold dry; simpl; rewrite Hc.
    + intros Hin. apply (inv_recv_err _ Hs) in Hin as []; congruence.
    + intros Hin. apply (inv_send_err _ Hs) in Hin; congruence.
Qed.

Lemma recv_locked_inv s a : Inv s -> pc_of s a = RecvLock -> Inv (recv_locked s a).
Proof.
  intros Hs Hpc. unfold recv_locked. destruct (queue (inner s)) as [|v rest] eqn:Hq.
  - destruct (closed (inner s)) eqn:Hc; [by apply finish_inv; rewrite ?Hpc|].
    step_inv Hs Hpc.
    + by rewrite Hq.
    + right; right; split; [done|]. unfold full; simpl. by rewrite Hq, Hc.
    + intros t [= <-]. split; [set_solver|]. by unfold dry.
    + right; right; split; [done|]. by unfold dry.
    + intros Hin. apply (inv_recv_err _ Hs) in Hin as []; congruence.
    + intros Hin. apply (inv_send_err _ Hs) in Hin; congruence.
  - step_inv Hs Hpc.
    + rewrite Hq in *; simpl in *; lia.
    + by rewrite Hq.
    + auto.
    + right; right; split; [done|]. unfold dry; simpl. rewrite Hq. by intros [].
    + intros Hin. apply (inv_recv_err _ Hs) in Hin as []; congruence.
Qed.

(** The waiters that [finish]ing after a drain leaves, and the outcome. *)
Local Ltac after_drain Hs :=
  first
    [ right; left; set_solver
    | right; right; split; [done|]; unfold full, dry; simpl; tauto
    | intros [Hin|?]; [by apply (inv_recv_err _ Hs) in Hin|simplify_eq]
    | intros [Hin|?]; [by apply (inv_send_err _ Hs) in Hin|simplify_eq]
    | auto ].

Lemma run_actor_inv s a s' : Inv s -> run_actor s a = Some s' -> Inv s'.
Proof.
  intros Hs. unfold run_actor. destruct (pc_of s a) eqn:Hpc; intros Hr; try discriminate.
  - destruct (closed (inner s)) eqn:Hc; simplify_eq; [by apply finish_inv; rewrite ?Hpc|].
    unfold at_pc. step_inv Hs Hpc; after_drain Hs.
  - simplify_eq. by apply send_locked_inv.
  - case_decide; simplify_eq. unfold at_pc. step_inv Hs Hpc; after_drain Hs.
  - simplify_eq. unfold finish. step_inv Hs Hpc; after_drain Hs.
  - simplify_eq. by apply recv_locked_inv.
  - case_decide; simplify_eq. unfold at_pc. step_inv Hs Hpc; after_drain Hs.
  - simplify_eq. unfold finish. step_inv Hs Hpc; after_drain Hs.
  - simplify_eq. unfold close_locked, at_pc. step_inv Hs Hpc; auto.
    intros Hin. by apply (inv_recv_err _ Hs) in Hin as [].
  - simplify_eq. unfold at_pc. step_inv Hs Hpc; after_drain Hs.
  - simplify_eq. unfold at_pc. step_inv Hs Hpc; after_drain Hs.
Qed.

(** Moving between places that owe no drain keeps the invariant. *)
Lemma move_inv s a p c :
  Inv s -> drains_senders (pc_of s a) = false -> drains_receivers (pc_of s a) = false -> pc_of s a ≠ CloseLock ->
  parked_sender p = None -> parked_receiver p = None ->
  (c = 0 -> sender_count (inner s) = 0 ∨ p = CloseLock) ->
  let i := inner s in
  Inv (at_pc s a p (mkInner (queue i) (capacity i) (send_waiters i) (recv_waiters i) (closed i) c)).
Proof.
  intros [] H1 H2 H3 H4 H5 H6 i. split; simpl; auto.
  - eapply no_lost_wakeup_step; [eassumption|done|auto|by rewrite H4|right; right; auto].
  - eapply no_lost_wakeup_step; [eassumption|done|auto|by rewrite H5|right; right; auto].
  - apply owed_close_step; auto; done.
Qed.

Lemma same_inner (i : Inner) :
  mkInner (queue i) (capacity i) (send_waiters i) (recv_waiters i) (closed i) (sender_count i) = i.
Proof. by destruct i. Qed.

Lemma call_inv s a op s' : Inv s -> call s a op = Some s' -> Inv s'.
Proof.
  intros Hs. unfold call. destruct (pc_of s a) eqn:Hpc; try discriminate.
  pose proof (λ p c, move_inv s a p c Hs ltac:(by rewrite Hpc) ltac:(by rewrite Hpc) ltac:(by rewrite Hpc)) as Hm.
  pose proof (λ p, Hm p (sender_count (inner s))) as Hsame. simpl in Hsame. rewrite same_inner in Hsame.
  destruct op; try (case (Nat.eqb_spec (sender_count (inner s)) 0); intros Hz); intros [= <-]; auto.
  - by apply Hm.
  - destruct (Nat.eqb_spec (sender_count (inner s)) 1) as [H1|H1]; apply Hm; auto. lia.
Qed.

Lemma spurious_inv s a s' : Inv s -> spurious s a = Some s' -> Inv s'.
Proof.
  intros Hs. unfold spurious. destruct (pc_of s a) eqn:Hpc; intros [= <-];
    rewrite <-(same_inner (inner s)); apply move_inv; rewrite ?Hpc; auto; done.
Qed.

Lemma channel_inv cap : Inv (channel cap).
Proof.
  split; simpl; try lia; try done; try (intros ?; set_solver); intros a t; unfold pc_of; simpl; by rewrite lookup_empty.
Qed.

(** Every reachable state satisfies the invariant. *)
Lemma reachable_inv cap s : reachable cap s -> Inv s.
Proof.
  induction 1 as [|s s' _ IH Hstep]; [apply channel_inv|].
  destruct Hstep; [by eapply call_inv|by eapply run_actor_inv|by eapply spurious_inv].
Qed.

(** * Every value is delivered once *)

Definition returned (f : Outcome -> option T) (s : State) : list T := omap (f ∘ snd) (outcomes s).
Definition send_ok (o : Outcome) : option T := match o with SendOk v => Some v | _ => None end.
Definition recv_ok (o : Outcome) : option T := match o with RecvOk v => Some v | _ => None end.
Definition sending (p : Pc) : option T := match p with SendWake v => Some v | _ => None end.
Definition receiving (p : Pc) : option T := match p with RecvWake v => Some v | _ => None end.

(** The values of the actors at some place. *)
Definition in_flight (f : Pc -> option T) (s : State) : list T := omap (f ∘ snd) (map_to_list (actors s)).

Lemma in_flight_delete (f : Pc -> option T) (m : gmap nat Pc) a :
  f Idle = None ->
  omap (f ∘ snd) (map_to_list m) ≡ₚ option_list (f (default Idle (m !! a))) ++ omap (f ∘ snd) (map_to_list (delete a m)).
Proof.
  intros H0. destruct (m !! a) as [p|] eqn:Ha; simpl.
  - rewrite <-(map_to_list_delete m a p Ha). simpl. by destruct (f p).
  - rewrite H0. by rewrite delete_id.
Qed.

(** What moving an actor does to the values in flight. *)
Lemma in_flight_insert (f : Pc -> option T) i (s : State) a p ff n o se r :
  f Idle = None ->
  option_list (f (pc_of s a)) ++ in_flight f (mkState i (<[a := p]> (actors s)) ff n o se r)
  ≡ₚ option_list (f p) ++ in_flight f s.
Proof.
  intros H0. unfold in_flight, pc_of; simpl.
  rewrite (in_flight_delete f (<[a := p]> (actors s)) a H0), (in_flight_delete f (actors s) a H0).
  rewrite lookup_insert_eq, delete_insert_eq; simpl. apply Permutation_app_swap_app.
Qed.

(** The log of a direction is what its operations returned and what they are
    about to return. *)
Definition accounts (f : Outcome -> option T) (g : Pc -> option T) (log : State -> list T) (s : State) : Prop :=
  log s ≡ₚ returned f s ++ in_flight g s.

Lemma accounts_step (f : Outcome -> option T) g (log : State -> list T) s a p i ff n o se r os l :
  g Idle = None ->
  accounts f g log s ->
  o = outcomes s ++ os ->
  log (mkState i (<[a := p]> (actors s)) ff n o se r) = log s ++ l ->
  option_list (g (pc_of s a)) ++ l ≡ₚ omap (f ∘ snd) os ++ option_list (g p) ->
  accounts f g log (mkState i (<[a := p]> (actors s)) ff n o se r).
Proof.
  intros H0 Hs -> Hlog Hl. unfold accounts in *. rewrite Hlog.
  pose proof (in_flight_insert g i s a p ff n (outcomes s ++ os) se r H0) as Hfl.
  apply (Permutation_app_inv_l (option_list (g (pc_of s a)))).
  unfold returned in *; simpl. rewrite omap_app, Hs.
  set (X := omap (f ∘ snd) (outcomes s)) in *. set (Y := omap (f ∘ snd) os) in *.
  transitivity (X ++ in_flight g s ++ option_list (g (pc_of s a)) ++ l); [solve_Permutation|].
  rewrite Hl. transitivity (X ++ Y ++ (option_list (g p) ++ in_flight g s)); [solve_Permutation|].
  rewrite <-Hfl. solve_Permutation.
Qed.

Local Ltac books Hpc :=
  unfold send_locked, recv_locked, close_locked, at_pc, finish in *; repeat case_match; simplify_eq/=;
  (eapply accounts_step;
    [done|eassumption|first [symmetry; apply app_nil_r|reflexivity]
    |simpl; first [symmetry; apply app_nil_r|reflexivity]|rewrite Hpc; reflexivity]).

Lemma accounts_preserved f g log s s' :
  (f, g, log) = (send_ok, sending, sent) ∨ (f, g, log) = (recv_ok, receiving, received) ->
  accounts f g log s -> step s s' -> accounts f g log s'.
Proof.
  intros Hd Hs Hstep. destruct Hstep as [a op s' Hr|a s' Hr|a s' Hr].
  - unfold call in Hr. destruct (pc_of s a) eqn:Hpc; try discriminate. destruct Hd; simplify_eq; books Hpc.
  - unfold run_actor in Hr. destruct Hd; simplify_eq; destruct (pc_of s a) eqn:Hpc; try discriminate; books Hpc.
  - unfold spurious in Hr. destruct Hd; simplify_eq; destruct (pc_of s a) eqn:Hpc; try discriminate; books Hpc.
Qed.

Lemma reachable_accounts cap s :
  reachable cap s -> accounts send_ok sending sent s ∧ accounts recv_ok receiving received s.
Proof.
  induction 1 as [|s s' _ [IH1 IH2] Hstep].
  - split; unfold accounts, returned, in_flight; simpl; by rewrite map_to_list_empty.
  - split; eapply accounts_preserved; eauto.
Qed.

(** * Closing *)

(** The actions left to each actor of a closed channel. *)
Definition weight (p : Pc) : nat :=
  match p with
  | Idle => 0
  | SendCheck _ | SendLock _ | SendWake _ | RecvWake _ | CloseWakeRecv => 1
  | SendPark _ _ | RecvLock | CloseWakeSend => 2
  | RecvPark _ | CloseLock => 3
  end.
Definition work (s : State) : nat := sum_list_with (weight ∘ snd) (map_to_list (actors s)).

Lemma work_delete (m : gmap nat Pc) a :
  sum_list_with (weight ∘ snd) (map_to_list m)
  = weight (default Idle (m !! a)) + sum_list_with (weight ∘ snd) (map_to_list (delete a m)).
Proof.
  destruct (m !! a) as [p|] eqn:Ha; simpl; [|by rewrite delete_id].
  by rewrite <-(map_to_list_delete m a p Ha).
Qed.

Lemma work_insert i (s : State) a p ff n o se r :
  weight (pc_of s a) + work (mkState i (<[a := p]> (actors s)) ff n o se r) = weight p + work s.
Proof.
  unfold work, pc_of; simpl. rewrite (work_delete (<[a := p]> (actors s)) a), (work_delete (actors s) a).
  rewrite lookup_insert_eq, delete_insert_eq; simpl. lia.
Qed.

(** In a closed channel every action leaves less to do, and nothing more is sent. *)
Lemma closed_step s a s' :
  closed (inner s) = true -> run_actor s a = Some s' ->
  closed (inner s') = true ∧ sent s' = sent s ∧ work s' < work s.
Proof.
  intros Hc Hr. unfold run_actor in Hr.
  destruct (pc_of s a) eqn:Hpc; try discriminate;
    unfold send_locked, recv_locked, close_locked, at_pc, finish in Hr; simpl in Hr; rewrite ?Hc in Hr;
    repeat case_match; simplify_eq; simpl; (split; [done|split; [done|]]);
    match goal with |- work (mkState ?i (<[_ := ?p]> _) ?ff ?n ?o ?se ?r) < _ =>
      pose proof (work_insert i s a p ff n o se r) as Hw end; rewrite Hpc in Hw; simpl in Hw; lia.
Qed.

(** Closed is for ever. *)
Lemma closed_run s xs s' :
  closed (inner s) = true -> run_schedule s xs = Some s' -> closed (inner s') = true ∧ sent s' = sent s.
Proof.
  revert s; induction xs as [|x xs IH]; intros s Hc; simpl; [by intros [= <-]|].
  intros (s1 & H1 & H2)%bind_Some.
  assert (closed (inner s1) = true ∧ sent s1 = sent s) as [Hc1 <-]; [|eauto].
  destruct x; simpl in H1.
  - unfold call in H1. repeat case_match; simplify_eq; done.
  - by destruct (closed_step s a s1 Hc H1) as (? & ? & _).
  - unfold spurious in H1. repeat case_match; simplify_eq; done.
Qed.

(** Nobody can move. *)
Definition quiescent (s : State) : Prop := ∀ a, run_actor s a = None.

Lemma quiescent_parked s a :
  Inv s -> quiescent s ->
  match pc_of s a with
  | Idle => True
  | SendPark _ _ => full (inner s)
  | RecvPark _ => dry (inner s)
  | _ => False
  end.
Proof.
  intros Hs Hq.
  assert (Hnd : ∀ b, drains_senders (pc_of s b) = false ∧ drains_receivers (pc_of s b) = false).
  { intros b. specialize (Hq b). unfold run_actor in Hq. by destruct (pc_of s b). }
  pose proof (Hq a) as Ha. unfold run_actor in Ha. destruct (pc_of s a) eqn:Hpc; try done; case_decide; try done.
  - destruct (inv_sender _ Hs a token) as [_ [Hf|(b & Hb)]]; [by rewrite Hpc|done|done|]. destruct (Hnd b); congruence.
  - destruct (inv_receiver _ Hs a token) as [_ [Hf|(b & Hb)]]; [by rewrite Hpc|done|done|]. destruct (Hnd b); congruence.
Qed.

Lemma reachable_capacity cap s : reachable cap s -> capacity (inner s) = Nat.max cap 1.
Proof.
  induction 1 as [|s s' _ IH Hstep]; [done|]. rewrite <-IH. destruct Hstep as [a op s' Hr|a s' Hr|a s' Hr].
  - unfold call in Hr. repeat case_match; simplify_eq; done.
  - unfold run_actor in Hr. destruct (pc_of s a); try discriminate;
      unfold send_locked, recv_locked in Hr; repeat case_match; simplify_eq; done.
  - unfold spurious in Hr. repeat case_match; simplify_eq; done.
Qed.

(** C36: Whatever the interleaving of senders, receivers and closers, the
    buffer never exceeds the capacity the channel was made with (at least
    one); values leave in the order they entered, and those pushed are exactly
    those popped followed by those still buffered; and no value is lost or
    duplicated: up to order, the pushed values are those of the [send]s that
    returned [Ok] and of the [send]s about to, and the popped ones those
    [recv] returned or is about to return. *)
Theorem channel_fifo_once cap (s : State) :
  reachable cap s ->
  length (queue (inner s)) ≤ Nat.max cap 1
  ∧ sent s = received s ++ queue (inner s)
  ∧ sent s ≡ₚ returned send_ok s ++ in_flight sending s
  ∧ received s ≡ₚ returned recv_ok s ++ in_flight receiving s.
Proof.
  intros Hr. pose proof (reachable_inv cap s Hr) as Hi. rewrite <-(reachable_capacity cap s Hr).
  split; [apply Hi|split; [apply Hi|exact (reachable_accounts cap s Hr)]].
Qed.

(** A send is refused only after the channel is closed, and [recv] reports
    the end only after it is closed and every value ever pushed was popped, so
    no receiver can miss a buffered value; once the channel is closed no
    further value is ever pushed. *)
Theorem channel_errors_after_close cap (s : State) :
  reachable cap s ->
  (∀ a v, (a, SendErr v) ∈ outcomes s -> closed (inner s) = true)
  ∧ (∀ a, (a, RecvErr) ∈ outcomes s -> closed (inner s) = true ∧ sent s = received s)
  ∧ (∀ xs s', closed (inner s) = true -> run_schedule s xs = Some s' ->
       closed (inner s') = true ∧ sent s' = sent s).
Proof.
  intros Hr. pose proof (reachable_inv cap s Hr) as Hi. split; [apply Hi|split].
  - intros a Ha. destruct (inv_recv_err _ Hi a Ha) as [Hc Hq]. split; [done|].
    by rewrite (inv_fifo _ Hi), Hq, app_nil_r.
  - intros xs s'. apply closed_run.
Qed.

(** C30: No wakeup is lost: when no actor can move, every actor is outside the
    channel, or is a sender parked on a full open channel, or a receiver
    parked on an empty open one; senders and receivers are never parked
    together; and once the channel is closed, or its last sender dropped,
    nobody is parked. *)
Theorem channel_no_lost_wakeup cap (s : State) :
  reachable cap s -> quiescent s ->
  (∀ a, pc_of s a = Idle
        ∨ (∃ v t, pc_of s a = SendPark v t ∧ full (inner s))
        ∨ (∃ t, pc_of s a = RecvPark t ∧ dry (inner s)))
  ∧ (∀ a b v t u, pc_of s a = SendPark v t -> pc_of s b ≠ RecvPark u)
  ∧ (closed (inner s) = true ∨ sender_count (inner s) = 0 -> ∀ a, pc_of s a = Idle).
Proof.
  intros Hr Hq. pose proof (reachable_inv cap s Hr) as Hi.
  pose proof (λ a, quiescent_parked s a Hi Hq) as Hp. split; [|split].
  - intros a. specialize (Hp a). destruct (pc_of s a); try done; eauto 10.
  - intros a b v t u Ha Hb. pose proof (Hp a) as H1. pose proof (Hp b) as H2. rewrite Ha in H1. rewrite Hb in H2.
    destruct H1 as [H1 _], H2 as [H2 _]. rewrite H2 in H1. pose proof (inv_capacity _ Hi). simpl in H1; lia.
  - intros Hc a.
    assert (closed (inner s) = true) as Hcl.
    { destruct Hc as [|H0]; [done|]. destruct (inv_drop _ Hi H0) as [|(b & Hb)]; [done|].
      specialize (Hp b). by rewrite Hb in Hp. }
    specialize (Hp a). destruct (pc_of s a); try done; destruct Hp; congruence.
Qed.

(** C37: Closing releases everyone: from a state whose channel is closed, if
    nobody calls a new operation, at most [work s] further actions can be
    taken in any order, and when none is left every operation has returned. *)
Theorem close_releases_all cap (s : State) xs s' :
  reachable cap s -> closed (inner s) = true ->
  run_schedule s (Run <$> xs) = Some s' ->
  length xs ≤ work s ∧ (quiescent s' -> ∀ a, pc_of s' a = Idle).
Proof.
  intros Hr Hc Hx. split.
  - clear Hr. revert s Hc Hx; induction xs as [|a xs IH]; intros s Hc; simpl; [lia|].
    intros (s1 & H1 & H2)%bind_Some. destruct (closed_step s a s1 Hc H1) as (Hc1 & _ & Hw).
    specialize (IH s1 Hc1 H2). lia.
  - intros Hq a. pose proof (run_schedule_reachable cap _ _ _ Hr Hx) as Hr'.
    destruct (closed_run s _ s' Hc Hx) as [Hc' _].
    pose proof (quiescent_parked s' a (reachable_inv _ _ Hr') Hq) as Hp.
    destruct (pc_of s' a); try done; destruct Hp; congruence.
Qed.
End Channel.
Arguments Inner : clear implicits.
Arguments Pc : clear implicits.
Arguments State : clear implicits.

(** A run: a sender fills a channel of capacity one and parks on the second
    value, a receiver takes the first and wakes it, and the channel is closed. *)
Definition handover : list (Action (T := nat)) :=
  [Call 0 (Send 7); Run 0; Run 0; Run 0; Call 0 (Send 8); Run 0; Run 0; Call 1 Recv; Run 1; Run 1; Run 0; Run 0; Run 0; Run 0].

Definition after (xs : list (Action (T := nat))) : State nat := default (channel 1) (run_schedule (channel 1) xs).

Lemma after_reachable xs : reachable 1 (after xs).
Proof.
  unfold after. destruct (run_schedule (channel 1) xs) eqn:H; simpl; [|apply reachable_init].
  by eapply run_schedule_reachable; [apply reachable_init|].
Qed.

Lemma channel_fifo_once_witness :
  received (after handover) = [7] ∧ sent (after handover) = received (after handover) ++ queue (inner (after handover)).
Proof.
  split; [by vm_compute|]. apply (channel_fifo_once 1).
  apply after_reachable.
Defined.

(** Both actors parked at their ends, in turn. *)
Definition starved : list (Action (T := nat)) := [Call 1 Recv; Run 1].
Definition ended : list (Action (T := nat)) :=
  handover ++ [Call 0 DropSender; Run 0; Run 0; Run 0; Call 1 Recv; Run 1; Run 1; Call 1 Recv; Run 1].

Lemma channel_errors_after_close_witness :
  (1, RecvErr) ∈ outcomes (after ended) ∧ sent (after ended) = [7; 8] ∧ received (after ended) = [7; 8].
Proof.
  assert ((1, RecvErr) ∈ outcomes (after ended)) as H by (vm_compute; set_solver).
  destruct (channel_errors_after_close 1 (after ended) (after_reachable _)) as (_ & Hr & _).
  destruct (Hr 1 H) as [_ <-]. split; [exact H|split; by vm_compute].
Defined.

Lemma channel_no_lost_wakeup_witness :
  pc_of (after starved) 1 = RecvPark 0 ∧ (∀ a v t, pc_of (after starved) a ≠ SendPark v t).
Proof.
  assert (quiescent (after starved)) as Hq.
  { intros a. destruct (decide (a = 1)) as [->|Ha]; [by vm_compute|].
    unfold run_actor, pc_of. replace (actors (after starved)) with ({[1 := RecvPark 0]} : gmap nat (Pc nat)) by by vm_compute.
    by rewrite lookup_singleton_ne. }
  destruct (channel_no_lost_wakeup 1 (after starved) (after_reachable _) Hq) as (_ & Hno & _).
  split; [by vm_compute|]. intros a v t Ha. apply (Hno a 1 v t 0 Ha). by vm_compute.
Defined.

Lemma close_releases_all_witness :
  let s := after (starved ++ [Call 2 Close; Run 2]) in
  work s = 5 ∧ length [2; 2; 1; 1] ≤ work s.
Proof.
  split; [by vm_compute|].
  apply (close_releases_all 1 _ [2; 2; 1; 1] (default (channel 1) (run_schedule (after (starved ++ [Call 2 Close; Run 2])) (Run <$> [2; 2; 1; 1])))).
  - apply after_reachable.
  - by vm_compute.
  - by vm_compute.
Defined.
