(* ===== verification/Scheduler.v ===== *)
(** The task scheduler of the runtime: [scheduler.rs], [task.rs] and [join.rs]
    of [runtime/paco-runtime/src], with the wakers that [io.rs] registers.

    Workers and tasks interleave atomic actions.  A task is a coroutine that a
    worker resumes under the task's lock; what its code does next is a choice
    among the operations of the runtime.  Actions that touch nothing another
    thread can see until their last step are one: [spawn_raw] up to the push on the
    injector, and [Waker::wake] from the swap of the flag to its push.  A
    worker that found no task may leave [park] at any time: it waits for 10 ms at
    most, notified or not.

    [crossbeam_deque]'s queues are lists, first in first out.  Of the channels,
    only the lists of waiters are here, on which a task parks and which another
    wakes whenever it chooses; [Channel] has the rest.  Joins and channel
    operations from threads outside the scheduler, the slots of
    [spawn_blocking], the memory of coroutines, and a poller that refuses a
    descriptor are not modelled. *)
From S2P Require Import Prelude.
Open Scope nat_scope.

Section Scheduler.
Context {R : Type}.

(** [TaskPanic] *)
Abbreviation TaskResult := (result R string) (only parsing).

(** A clone of a [Waker]: the task, and the place of its flag. *)
Record Waker := mkWaker { waker_task : nat; waker_flag : nat }.

(** Where a suspended task goes on: in its own code, or in the loop of [join]. *)
Inductive Cont := InBody | InJoin (slot : nat).

(** A running task: in its body, at the top of the loop of [join], about to
    suspend after it registered a waker, in [wake_all] of a channel, or in
    [complete], with the waiters still to notify. *)
Inductive TaskPc :=
| Body
| Join (slot : nat)
| Suspending (k : Cont)
| WakingAll (waiters : list Waker)
| Notifying (waiters : list Waker).

Inductive WorkerPc :=
| Top
| Local
| FromInjector
| StealFrom (victim : nat)
| Park
| Resume (task : nat)
| Running (task : nat) (pc : TaskPc)
| Abandoned (task : nat) (message : string)
| NotifyAbandoned (task : nat) (waiters : list Waker)
| Finished (task : nat)
| Exited
| WorkerPanicked.

(** [TaskEntry]: [coroutine] with its mutex. *)
Record Task := mkTask { coroutine : option Cont; lock : option nat }.

(** [Slot] of the task with the same number. *)
Record Slot := mkSlot { value : option TaskResult; waiters : list Waker }.

(** [SchedulerShared], the tasks, slots and flags on the heap, [IoDriver]'s
    waiters and timers, and the [send_waiters] and [recv_waiters] of channels. *)
Record State := mkState {
  injector : list nat;
  locals : list (list nat);
  workers : list WorkerPc;
  tasks : list Task;
  slots : list Slot;
  flags : list bool;
  io_waiters : list Waker;
  timers : list Waker;
  channels : list (list Waker);
  active : nat;
  done : bool;
  shutdown : bool }.

Definition set_injector (x : list nat) (s : State) : State :=
  mkState x (locals s) (workers s) (tasks s) (slots s) (flags s) (io_waiters s) (timers s) (channels s) (active s) (done s) (shutdown s).
Definition set_locals (x : list (list nat)) (s : State) : State :=
  mkState (injector s) x (workers s) (tasks s) (slots s) (flags s) (io_waiters s) (timers s) (channels s) (active s) (done s) (shutdown s).
Definition set_worker (i : nat) (p : WorkerPc) (s : State) : State :=
  mkState (injector s) (locals s) (<[i := p]> (workers s)) (tasks s) (slots s) (flags s) (io_waiters s) (timers s) (channels s) (active s) (done s) (shutdown s).
Definition set_task (t : nat) (x : Task) (s : State) : State :=
  mkState (injector s) (locals s) (workers s) (<[t := x]> (tasks s)) (slots s) (flags s) (io_waiters s) (timers s) (channels s) (active s) (done s) (shutdown s).
Definition set_slot (t : nat) (x : Slot) (s : State) : State :=
  mkState (injector s) (locals s) (workers s) (tasks s) (<[t := x]> (slots s)) (flags s) (io_waiters s) (timers s) (channels s) (active s) (done s) (shutdown s).
Definition set_flags (x : list bool) (s : State) : State :=
  mkState (injector s) (locals s) (workers s) (tasks s) (slots s) x (io_waiters s) (timers s) (channels s) (active s) (done s) (shutdown s).
Definition set_io (x : list Waker) (s : State) : State :=
  mkState (injector s) (locals s) (workers s) (tasks s) (slots s) (flags s) x (timers s) (channels s) (active s) (done s) (shutdown s).
Definition set_timers (x : list Waker) (s : State) : State :=
  mkState (injector s) (locals s) (workers s) (tasks s) (slots s) (flags s) (io_waiters s) x (channels s) (active s) (done s) (shutdown s).
Definition set_channels (x : list (list Waker)) (s : State) : State :=
  mkState (injector s) (locals s) (workers s) (tasks s) (slots s) (flags s) (io_waiters s) (timers s) x (active s) (done s) (shutdown s).
Definition set_active (x : nat) (d : bool) (s : State) : State :=
  mkState (injector s) (locals s) (workers s) (tasks s) (slots s) (flags s) (io_waiters s) (timers s) (channels s) x d (shutdown s).

(** [Runtime::new]: at least one worker. *)
Definition Runtime_new (worker_count : nat) : State :=
  let n := Nat.max worker_count 1 in
  mkState [] (replicate n []) (replicate n Top) [] [] [] [] [] [] 0 false false.

(** [SchedulerShared::enqueue] *)
Definition enqueue (t : nat) (s : State) : State := set_injector (injector s ++ [t]) s.

(** [Waker::wake] *)
Definition wake (w : Waker) (s : State) : State :=
  match flags s !! waker_flag w with
  | Some false => enqueue (waker_task w) (set_flags (<[waker_flag w := true]> (flags s)) s)
  | _ => s
  end.

(** [new_waker_for_current].  [yield_now] takes the waker that [resume] made for it
    and that no one else has; here it makes its own. *)
Definition new_waker (t : nat) (s : State) : Waker * State :=
  (mkWaker t (length (flags s)), set_flags (flags s ++ [false]) s).

(** [spawn_raw] with [spawn_task] and [new_slot]. *)
Definition spawn (s : State) : State :=
  enqueue (length (tasks s))
    (mkState (injector s) (locals s) (workers s) (tasks s ++ [mkTask (Some InBody) None]) (slots s ++ [mkSlot None []])
       (flags s) (io_waiters s) (timers s) (channels s) (S (active s)) (done s) (shutdown s)).

(** The critical section of [complete]: the waiters to notify, and the slot. *)
Definition complete (t : nat) (r : TaskResult) (s : State) : option (list Waker * State) :=
  slot ← slots s !! t; Some (waiters slot, set_slot t (mkSlot (Some r) []) s).

(** The critical section of [join]: the result, or the waker registered. *)
Definition join_locked (slot : nat) (w : Waker) (s : State) : option (option TaskResult * State) :=
  x ← slots s !! slot;
  match value x with
  | Some r => Some (Some r, set_slot slot (mkSlot None (waiters x)) s)
  | None => Some (None, set_slot slot (mkSlot None (waiters x ++ [w])) s)
  end.

(** [task_finished] *)
Definition task_finished (s : State) : State :=
  set_active (active s - 1) (if active s =? 1 then true else done s) s.

(** What the code of a task does next. *)
Inductive Op :=
| OpSpawn
| OpJoin (slot : nat)
| OpYield
| OpWaitIo
| OpSleep
| OpChannel
| OpPark (waiters : nat)
| OpWakeAll (waiters : nat)
| OpReturn (r : TaskResult)
| OpAbandon (message : string).

(** Registers a new waker of the running task and goes to suspend. *)
Definition register (i t : nat) (add : Waker -> State -> State) (s : State) : State :=
  let '(w, s) := new_waker t s in set_worker i (Running t (Suspending InBody)) (add w s).

(** [yield_now], [wait_for] (and [wait_fd]), [sleep_until]. *)
Definition yield_now (i t : nat) (s : State) : State := register i t wake s.
Definition wait_for (i t : nat) (s : State) : State := register i t (fun w s => set_io (io_waiters s ++ [w]) s) s.
Definition sleep_until (i t : nat) (s : State) : State := register i t (fun w s => set_timers (timers s ++ [w]) s) s.

(** [channel]: its two lists of waiters. *)
Definition channel (s : State) : State := set_channels (channels s ++ [[]; []]) s.

(** [send] on a full channel and [recv] on an empty one: [Notify::current], the push
    on the list of waiters, and [park]. *)
Definition park (i t c : nat) (s : State) : option State :=
  ws ← channels s !! c; Some (register i t (fun w s => set_channels (alter (fun ws => ws ++ [w]) c (channels s)) s) s).

(** [wake_all], which drains the list. *)
Definition wake_all (i t c : nat) (s : State) : option State :=
  ws ← channels s !! c; Some (set_worker i (Running t (WakingAll ws)) (set_channels (<[c := []]> (channels s)) s)).

(** The body of a task returned, with a result or with the message of a panic. *)
Definition return_task (i t : nat) (r : TaskResult) (s : State) : option State :=
  '(ws, s) ← complete t r s; Some (set_worker i (Running t (Notifying ws)) s).

(** [resume], when the task was abandoned: the coroutine is discarded. *)
Definition abandon_task (i t : nat) (m : string) (s : State) : State :=
  set_worker i (Abandoned t m) (set_task t (mkTask None None) s).

(** An operation of the task that worker [i] runs. *)
Definition operate (s : State) (i : nat) (op : Op) : option State :=
  match workers s !! i with
  | Some (Running t Body) =>
      match op with
      | OpSpawn => Some (spawn s)
      | OpJoin slot => if slot <? length (slots s) then Some (set_worker i (Running t (Join slot)) s) else None
      | OpYield => Some (yield_now i t s)
      | OpWaitIo => Some (wait_for i t s)
      | OpSleep => Some (sleep_until i t s)
      | OpChannel => Some (channel s)
      | OpPark c => park i t c s
      | OpWakeAll c => wake_all i t c s
      | OpReturn r => return_task i t r s
      | OpAbandon m => Some (abandon_task i t m s)
      end
  | _ => None
  end.

(** [find_task], one look at a queue: the worker's own, the injector, then the others in turn.
    [batch] is how many tasks move to the local queue with the one stolen from the
    injector. *)
Definition find_task (s : State) (i batch : nat) (p : WorkerPc) : option State :=
  match p with
  | FromInjector =>
      match injector s with
      | t :: rest =>
          q ← locals s !! i;
          Some (set_worker i (Resume t) (set_locals (<[i := q ++ take batch rest]> (locals s)) (set_injector (drop batch rest) s)))
      | [] => Some (set_worker i (StealFrom 0) s)
      end
  | StealFrom v =>
      match locals s !! v with
      | Some (t :: q) => Some (set_worker i (Resume t) (set_locals (<[v := q]> (locals s)) s))
      | Some [] => Some (set_worker i (StealFrom (S v)) s)
      | None => Some (set_worker i Park s)
      end
  | _ =>
      q ← locals s !! i;
      match q with
      | t :: q => Some (set_worker i (Resume t) (set_locals (<[i := q]> (locals s)) s))
      | [] => Some (set_worker i FromInjector s)
      end
  end.

(** [resume], up to the code of the task: it waits for the lock, and panics when the task has
    finished. *)
Definition resume (s : State) (i t : nat) : option State :=
  x ← tasks s !! t;
  match lock x with
  | Some _ => None
  | None =>
      match coroutine x with
      | None => Some (set_worker i WorkerPanicked s)
      | Some k =>
          Some (set_worker i (Running t (match k with InBody => Body | InJoin slot => Join slot end))
                  (set_task t (mkTask (Some k) (Some i)) s))
      end
  end.

(** One turn of the loop of [join]. *)
Definition join_step (s : State) (i t slot : nat) : option State :=
  let '(w, s) := new_waker t s in
  '(r, s) ← join_locked slot w s;
  Some (set_worker i (Running t (match r with Some _ => Body | None => Suspending (InJoin slot) end)) s).

(** [resume], after the code of the task: it suspended or returned. *)
Definition left_task (s : State) (i t : nat) (suspended : option Cont) : State :=
  match suspended with
  | Some k => set_worker i Top (set_task t (mkTask (Some k) None) s)
  | None => set_worker i (Finished t) (set_task t (mkTask None None) s)
  end.

(** One action of worker [i]: [worker_loop], and the runtime's own code inside a task. *)
Definition step_worker (s : State) (i batch : nat) : option State :=
  match workers s !! i with
  | Some Top => Some (set_worker i (if shutdown s then Exited else Local) s)
  | Some ((Local | FromInjector | StealFrom _) as p) => find_task s i batch p
  | Some Park => Some (set_worker i Top s)
  | Some (Resume t) => resume s i t
  | Some (Running t Body) => None
  | Some (Running t (Join slot)) => join_step s i t slot
  | Some (Running t (Suspending k)) => Some (left_task s i t (Some k))
  | Some (Running t (WakingAll (w :: ws))) => Some (set_worker i (Running t (WakingAll ws)) (wake w s))
  | Some (Running t (WakingAll [])) => Some (set_worker i (Running t Body) s)
  | Some (Running t (Notifying (w :: ws))) => Some (set_worker i (Running t (Notifying ws)) (wake w s))
  | Some (Running t (Notifying [])) => Some (left_task s i t None)
  | Some (Abandoned t m) => '(ws, s) ← complete t (Err m) s; Some (set_worker i (NotifyAbandoned t ws) s)
  | Some (NotifyAbandoned t (w :: ws)) => Some (set_worker i (NotifyAbandoned t ws) (wake w s))
  | Some (NotifyAbandoned t []) => Some (set_worker i (Finished t) s)
  | Some (Finished t) => Some (set_worker i Top (task_finished s))
  | Some Exited | Some WorkerPanicked | None => None
  end.

(** [poll_loop]: an event wakes a waiter, an expired deadline a timer. *)
Definition fire_io (s : State) (k : nat) : option State :=
  w ← io_waiters s !! k; Some (wake w (set_io (delete k (io_waiters s)) s)).
Definition fire_timer (s : State) (k : nat) : option State :=
  w ← timers s !! k; Some (wake w (set_timers (delete k (timers s)) s)).

Inductive Action :=
| Step (worker batch : nat)
| Operate (worker : nat) (op : Op)
| Io (k : nat)
| Timer (k : nat)
| SpawnOutside
| Shutdown.

Definition act (s : State) (a : Action) : option State :=
  match a with
  | Step i batch => step_worker s i batch
  | Operate i op => operate s i op
  | Io k => fire_io s k
  | Timer k => fire_timer s k
  | SpawnOutside => Some (spawn s)
  | Shutdown =>
      Some (mkState (injector s) (locals s) (workers s) (tasks s) (slots s) (flags s) (io_waiters s) (timers s) (channels s) (active s) (done s) true)
  end.

Inductive reachable (n : nat) : State -> Prop :=
| reach_new : reachable n (Runtime_new n)
| reach_act s a s' : reachable n s -> act s a = Some s' -> reachable n s'.

Fixpoint run_schedule (s : State) (l : list Action) : option State :=
  match l with [] => Some s | a :: l => s ← act s a; run_schedule s l end.

(** [run_until_idle] returns when it sees no active task. *)
Definition idle (s : State) : bool := active s =? 0.
End Scheduler.

(** ** Accounts

    A task that can still run has one token: a place in a queue, the worker that
    runs it, or a waker somebody holds.  [total k m] adds up [k] over the tasks
    in the first two and [m] over the wakers in the last. *)

Fixpoint sum {A} (f : A -> nat) (l : list A) : nat := match l with [] => 0 | x :: l => f x + sum f l end.

Lemma sum_app {A} (f : A -> nat) l1 l2 : sum f (l1 ++ l2) = sum f l1 + sum f l2.
Proof. induction l1 as [|a l1 IH]; cbn [app sum]; lia. Qed.

Lemma sum_insert {A} (f : A -> nat) l i x y : l !! i = Some x -> sum f (<[i := y]> l) + f x = sum f l + f y.
Proof.
  revert i. induction l as [|a l IH]; intros [|i]; cbn [insert list_insert delete list_delete lookup list_lookup sum]; try done.
  - intros [= ->]. lia.
  - intros H. pose proof (IH i H) as E. unfold insert, delete, lookup in *. lia.
Qed.

Lemma sum_delete {A} (f : A -> nat) l i x : l !! i = Some x -> sum f (delete i l) + f x = sum f l.
Proof.
  revert i. induction l as [|a l IH]; intros [|i]; cbn [insert list_insert delete list_delete lookup list_lookup sum]; try done.
  - intros [= ->]. lia.
  - intros H. pose proof (IH i H) as E. unfold insert, delete, lookup in *. lia.
Qed.

Lemma sum_elem {A} (f : A -> nat) l x : x ∈ l -> f x <= sum f l.
Proof. induction 1; cbn [sum]; lia. Qed.

Lemma sum_lookup {A} (f : A -> nat) l i x : l !! i = Some x -> f x <= sum f l.
Proof. intros H. eapply sum_elem, list_elem_of_lookup_2, H. Qed.

Lemma sum_pos {A} (f : A -> nat) l : 1 <= sum f l -> exists x, x ∈ l /\ 1 <= f x.
Proof.
  induction l as [|a l IH]; cbn [sum]; [lia|]. destruct (f a) as [|n] eqn:E.
  - intros H. destruct IH as (x & Hx & Hf); [lia|]. exists x. split; [by right|done].
  - intros _. exists a. split; [by left|lia].
Qed.

Lemma sum_take_drop {A} (f : A -> nat) n l : sum f (take n l) + sum f (drop n l) = sum f l.
Proof. rewrite <- sum_app. by rewrite take_drop. Qed.

Lemma sum_replicate {A} (f : A -> nat) n x : f x = 0 -> sum f (replicate n x) = 0.
Proof. intros H. induction n as [|n IH]; cbn [replicate sum]; [done|]. lia. Qed.

Section Accounts.
Context {R : Type}.
Implicit Types s : State (R := R).

Definition worker_tokens (p : WorkerPc) : list nat :=
  match p with
  | Resume t | Running t (Body | Join _ | WakingAll _ | Notifying _) => [t]
  | _ => []
  end.
Definition worker_wakers (p : WorkerPc) : list Waker :=
  match p with Running _ (WakingAll ws | Notifying ws) | NotifyAbandoned _ ws => ws | _ => [] end.

Definition worker_total (k : nat -> nat) (m : Waker -> nat) (p : WorkerPc) : nat :=
  sum k (worker_tokens p) + sum m (worker_wakers p).

Definition total (k : nat -> nat) (m : Waker -> nat) s : nat :=
  sum k (injector s) + sum (sum k) (locals s) + sum (worker_total k m) (workers s) +
  sum (fun x => sum m (waiters x)) (slots s) + sum m (io_waiters s) + sum m (timers s) + sum (sum m) (channels s).

Definition same (x y : nat) : nat := if decide (x = y) then 1 else 0.
Definition alive s (t : nat) : nat :=
  match tasks s !! t with Some (mkTask (Some _) _) => 1 | _ => 0 end.

(** The state, with the tokens [ts] and the wakers [ws] in hand. *)
Record balanced s (ts : list nat) (ws : list Waker) : Prop := {
  one_token : forall t,
    total (same t) (fun w => same t (waker_task w)) s + sum (same t) ts + sum (fun w => same t (waker_task w)) ws = alive s t;
  one_waker : forall f,
    total (fun _ => 0) (fun w => same f (waker_flag w)) s + sum (fun w => same f (waker_flag w)) ws <= 1;
  unfired : forall f,
    1 <= total (fun _ => 0) (fun w => same f (waker_flag w)) s + sum (fun w => same f (waker_flag w)) ws -> flags s !! f = Some false }.

(** *** Moving tokens *)

Lemma total_worker k m s i p q : workers s !! i = Some p ->
  total k m (set_worker i q s) + worker_total k m p = total k m s + worker_total k m q.
Proof. intros H. unfold total. cbn. pose proof (sum_insert (worker_total k m) _ _ _ q H). lia. Qed.

Lemma balanced_take s i p ts ws : workers s !! i = Some p -> balanced s ts ws ->
  balanced (set_worker i Top s) (worker_tokens p ++ ts) (worker_wakers p ++ ws).
Proof.
  intros H [H1 H2 H3]. assert (T : forall k m, total k m (set_worker i Top s) + sum k (worker_tokens p) + sum m (worker_wakers p) = total k m s).
  { intros k m. pose proof (total_worker k m s i p Top H) as E. change (worker_total k m Top) with 0 in E. unfold worker_total in E. lia. }
  split.
  - intros t. rewrite !sum_app. specialize (H1 t). change (alive (set_worker i Top s) t) with (alive s t).
    pose proof (T (same t) (fun w => same t (waker_task w))). lia.
  - intros f. rewrite sum_app. specialize (H2 f). pose proof (T (fun _ => 0) (fun w => same f (waker_flag w))). lia.
  - intros f. rewrite sum_app. specialize (H3 f). pose proof (T (fun _ => 0) (fun w => same f (waker_flag w))) as E.
    change (flags (set_worker i Top s)) with (flags s). intros G. apply H3.
    assert (Z : sum (fun _ : nat => 0) (worker_tokens p) = 0) by (by destruct p as [| | | | | |? []| | | | |]).
    lia.
Qed.

(** Nothing is kept with the worker at [i]. *)
Definition free_hands s (i : nat) : Prop :=
  exists p, workers s !! i = Some p /\ worker_tokens p = [] /\ worker_wakers p = [].

Lemma balanced_give s i q ts ws : free_hands s i -> balanced s (worker_tokens q ++ ts) (worker_wakers q ++ ws) ->
  balanced (set_worker i q s) ts ws.
Proof.
  intros (p & H & E1 & E2) [H1 H2 H3].
  assert (T : forall k m, total k m (set_worker i q s) = total k m s + sum k (worker_tokens q) + sum m (worker_wakers q)).
  { intros k m. pose proof (total_worker k m s i p q H) as E. unfold worker_total in E. rewrite E1, E2 in E. cbn [sum] in E. lia. }
  split.
  - intros t. specialize (H1 t). rewrite !sum_app in H1. rewrite T. change (alive (set_worker i q s) t) with (alive s t). lia.
  - intros f. specialize (H2 f). rewrite sum_app in H2. rewrite T.
    assert (Z : sum (fun _ : nat => 0) (worker_tokens q) = 0) by (by destruct q as [| | | | | |? []| | | | |]). lia.
  - intros f. specialize (H3 f). rewrite sum_app in H3. rewrite T.
    assert (Z : sum (fun _ : nat => 0) (worker_tokens q) = 0) by (by destruct q as [| | | | | |? []| | | | |]).
    intros G. apply H3. lia.
Qed.

(** A change of the queues and lists of wakers that takes [ts1] and [ws1] from
    the hands and puts [ts2] and [ws2] in them. *)
Lemma balanced_move s s' ts1 ws1 ts2 ws2 ts ws :
  (forall k m, total k m s' + sum k ts2 + sum m ws2 = total k m s + sum k ts1 + sum m ws1) ->
  tasks s' = tasks s -> flags s' = flags s ->
  balanced s (ts1 ++ ts) (ws1 ++ ws) -> balanced s' (ts2 ++ ts) (ws2 ++ ws).
Proof.
  intros T Et Ef [H1 H2 H3].
  assert (Z : forall l, sum (fun _ : nat => 0) l = 0) by (induction l; cbn [sum]; lia).
  split.
  - intros t. specialize (H1 t). rewrite !sum_app in *. specialize (T (same t) (fun w => same t (waker_task w))).
    unfold alive in *. rewrite Et. lia.
  - intros f. specialize (H2 f). rewrite !sum_app in *. specialize (T (fun _ => 0) (fun w => same f (waker_flag w))).
    rewrite !Z in T. lia.
  - intros f. specialize (H3 f). rewrite !sum_app in *. specialize (T (fun _ => 0) (fun w => same f (waker_flag w))).
    rewrite !Z in T. rewrite Ef. intros G. apply H3. lia.
Qed.

Lemma same_refl x : same x x = 1.
Proof. unfold same. by rewrite decide_True. Qed.
Lemma same_ne x y : x <> y -> same x y = 0.
Proof. intros H. unfold same. by rewrite decide_False. Qed.

(** A token becomes a new waker. *)
Lemma balanced_new_waker s t ts ws : balanced s (t :: ts) ws ->
  balanced (new_waker t s).2 ts ((new_waker t s).1 :: ws).
Proof.
  intros [H1 H2 H3]. cbn [new_waker fst snd].
  assert (N : total (fun _ => 0) (fun w => same (length (flags s)) (waker_flag w)) s +
    sum (fun w => same (length (flags s)) (waker_flag w)) ws = 0).
  { destruct (decide (1 <= total (fun _ => 0) (fun w => same (length (flags s)) (waker_flag w)) s +
      sum (fun w => same (length (flags s)) (waker_flag w)) ws)) as [G|G]; [|lia].
    apply H3, lookup_lt_Some in G. lia. }
  split.
  - intros t'. specialize (H1 t'). cbn [sum waker_task] in *.
    change (total (same t') (fun w => same t' (waker_task w)) (set_flags (flags s ++ [false]) s)) with
      (total (same t') (fun w => same t' (waker_task w)) s).
    change (alive (set_flags (flags s ++ [false]) s) t') with (alive s t'). lia.
  - intros f. specialize (H2 f). cbn [sum waker_flag].
    change (total (fun _ => 0) (fun w => same f (waker_flag w)) (set_flags (flags s ++ [false]) s)) with
      (total (fun _ => 0) (fun w => same f (waker_flag w)) s).
    destruct (decide (f = length (flags s))) as [->|E]; [rewrite same_refl; lia|rewrite same_ne by done; lia].
  - intros f. specialize (H3 f). cbn [sum waker_flag].
    change (total (fun _ => 0) (fun w => same f (waker_flag w)) (set_flags (flags s ++ [false]) s)) with
      (total (fun _ => 0) (fun w => same f (waker_flag w)) s).
    cbn [flags set_flags]. destruct (decide (f = length (flags s))) as [->|E]; [by rewrite lookup_app_r, Nat.sub_diag by lia|].
    rewrite same_ne by done. intros G. by apply lookup_app_l_Some, H3.
Qed.

(** Waking spends the waker: its task is queued, once. *)
Lemma balanced_wake s w ts ws : balanced s ts (w :: ws) -> balanced (wake w s) ts ws.
Proof.
  intros [H1 H2 H3]. assert (F : flags s !! waker_flag w = Some false).
  { apply H3. cbn [sum]. rewrite same_refl. lia. }
  unfold wake. rewrite F.
  assert (T : forall k m, total k m (enqueue (waker_task w) (set_flags (<[waker_flag w := true]> (flags s)) s)) = total k m s + k (waker_task w)).
  { intros k m. unfold total. cbn [enqueue set_injector injector locals workers slots io_waiters timers channels set_flags].
    rewrite sum_app. cbn [sum]. lia. }
  split.
  - intros t. specialize (H1 t). rewrite T. cbn [sum] in H1.
    change (alive (enqueue (waker_task w) (set_flags (<[waker_flag w := true]> (flags s)) s)) t) with (alive s t). lia.
  - intros f. specialize (H2 f). rewrite T. cbn [sum] in H2. lia.
  - intros f. rewrite T. pose proof (H2 f) as H2f. specialize (H3 f). cbn [sum] in *. intros G.
    cbn [enqueue set_injector flags set_flags].
    destruct (decide (f = waker_flag w)) as [->|E]; [rewrite same_refl in H2f; lia|].
    rewrite list_lookup_insert_ne by done. apply H3. lia.
Qed.

(** A task that ends gives up its token. *)
Lemma balanced_end s t x ts ws : tasks s !! t = Some x -> balanced s (t :: ts) ws ->
  balanced (set_task t (mkTask None None) s) ts ws.
Proof.
  intros Hx [H1 H2 H3]. split; [|exact H2|exact H3]. intros t'. specialize (H1 t'). cbn [sum] in H1.
  change (total ?k ?m (set_task t (mkTask None None) s)) with (total k m s). unfold alive in *. cbn [set_task tasks].
  destruct (decide (t' = t)) as [->|E].
  - rewrite list_lookup_insert_eq by (by apply lookup_lt_Some in Hx). rewrite same_refl in H1.
    destruct (tasks s !! t) as [[[k|] l]|]; lia.
  - rewrite list_lookup_insert_ne by done. rewrite same_ne in H1 by done. lia.
Qed.

(** The lock and the place of a task that is alive. *)
Lemma balanced_touch s t k l k' l' ts ws : tasks s !! t = Some (mkTask (Some k) l) -> balanced s ts ws ->
  balanced (set_task t (mkTask (Some k') l') s) ts ws.
Proof.
  intros Hx [H1 H2 H3]. split; [|exact H2|exact H3]. intros t'. specialize (H1 t').
  change (total ?k ?m (set_task t (mkTask (Some k') l') s)) with (total k m s). unfold alive in *. cbn [set_task tasks].
  destruct (decide (t' = t)) as [->|E].
  - rewrite list_lookup_insert_eq by (by apply lookup_lt_Some in Hx). rewrite Hx in H1. lia.
  - by rewrite list_lookup_insert_ne.
Qed.
End Accounts.

(** ** The invariant *)

Section Invariant.
Context {R : Type}.
Implicit Types s : State (R := R).

Definition ending (p : WorkerPc) : option nat :=
  match p with Abandoned t _ | NotifyAbandoned t _ | Finished t => Some t | _ => None end.
Definition running (p : WorkerPc) : option nat := match p with Running t _ => Some t | _ => None end.

(** A task is locked by the worker that runs it. *)
Definition locked (W : list WorkerPc) (T : list Task) : Prop :=
  (forall i p t, W !! i = Some p -> running p = Some t -> exists k, T !! t = Some (mkTask (Some k) (Some i))) /\
  (forall t k i, T !! t = Some (mkTask k (Some i)) -> exists p, W !! i = Some p /\ running p = Some t).

Definition alive_task (x : Task) : nat := match coroutine x with Some _ => 1 | None => 0 end.
Definition ending_worker (p : WorkerPc) : nat := match ending p with Some _ => 1 | None => 0 end.

(** Changes of a worker. *)
Lemma locked_idle W T i p q : W !! i = Some p -> running p = None -> running q = None -> locked W T -> locked (<[i := q]> W) T.
Proof.
  intros Hi Rp Rq [H1 H2]. split.
  - intros j x t Hj Hx. destruct (decide (i = j)) as [->|E].
    + rewrite list_lookup_insert_eq in Hj by (by apply lookup_lt_Some in Hi). congruence.
    + rewrite list_lookup_insert_ne in Hj by done. eauto.
  - intros t k j Ht. destruct (H2 t k j Ht) as (x & Hx & Rx). exists x. split; [|done].
    rewrite list_lookup_insert_ne; [done|]. congruence.
Qed.

Lemma locked_same W T i p q : W !! i = Some p -> running p = running q -> locked W T -> locked (<[i := q]> W) T.
Proof.
  intros Hi E [H1 H2]. assert (Hl : i < length W) by (by apply lookup_lt_Some in Hi). split.
  - intros j x t Hj Hx. destruct (decide (i = j)) as [->|Ne].
    + rewrite list_lookup_insert_eq in Hj by done. injection Hj as <-. apply (H1 j p); congruence.
    + rewrite list_lookup_insert_ne in Hj by done. eauto.
  - intros t k j Ht. destruct (H2 t k j Ht) as (x & Hx & Rx). destruct (decide (i = j)) as [->|Ne].
    + exists q. rewrite list_lookup_insert_eq by done. split; [done|]. congruence.
    + exists x. by rewrite list_lookup_insert_ne.
Qed.

Lemma locked_acquire W T i p t k pc : W !! i = Some p -> running p = None -> T !! t = Some (mkTask (Some k) None) ->
  locked W T -> locked (<[i := Running t pc]> W) (<[t := mkTask (Some k) (Some i)]> T).
Proof.
  intros Hi Rp Ht [H1 H2]. assert (Hl : i < length W) by (by apply lookup_lt_Some in Hi).
  assert (Hl' : t < length T) by (by apply lookup_lt_Some in Ht). split.
  - intros j x u Hj Hx. destruct (decide (i = j)) as [->|Ne].
    + rewrite list_lookup_insert_eq in Hj by done. injection Hj as <-. injection Hx as <-.
      exists k. by rewrite list_lookup_insert_eq.
    + rewrite list_lookup_insert_ne in Hj by done. destruct (H1 j x u Hj Hx) as (k' & Hk').
      exists k'. rewrite list_lookup_insert_ne; [done|]. congruence.
  - intros u k' j Hu. destruct (decide (t = u)) as [->|Ne].
    + rewrite list_lookup_insert_eq in Hu by done. injection Hu as <- <-. exists (Running u pc).
      by rewrite list_lookup_insert_eq.
    + rewrite list_lookup_insert_ne in Hu by done. destruct (H2 u k' j Hu) as (x & Hx & Rx). exists x.
      rewrite list_lookup_insert_ne; [done|]. congruence.
Qed.

Lemma locked_release W T i p q t k : W !! i = Some p -> running p = Some t -> running q = None -> locked W T ->
  locked (<[i := q]> W) (<[t := mkTask k None]> T).
Proof.
  intros Hi Rp Rq [H1 H2]. destruct (H1 i p t Hi Rp) as (k0 & Ht).
  assert (Hl : i < length W) by (by apply lookup_lt_Some in Hi). assert (Hl' : t < length T) by (by apply lookup_lt_Some in Ht). split.
  - intros j x u Hj Hx. destruct (decide (i = j)) as [->|Ne].
    + rewrite list_lookup_insert_eq in Hj by done. congruence.
    + rewrite list_lookup_insert_ne in Hj by done. destruct (H1 j x u Hj Hx) as (k' & Hk'). exists k'.
      rewrite list_lookup_insert_ne; [done|]. congruence.
  - intros u k' j Hu. destruct (decide (t = u)) as [->|Ne].
    + by rewrite list_lookup_insert_eq in Hu.
    + rewrite list_lookup_insert_ne in Hu by done. destruct (H2 u k' j Hu) as (x & Hx & Rx). exists x.
      rewrite list_lookup_insert_ne; [done|]. congruence.
Qed.

Lemma locked_spawn W T x : lock x = None -> locked W T -> locked W (T ++ [x]).
Proof.
  intros Hx [H1 H2]. split.
  - intros i p t Hi Hp. destruct (H1 i p t Hi Hp) as (k & Hk). exists k. by apply lookup_app_l_Some.
  - intros t k i Ht. apply lookup_app_Some in Ht as [Ht|[_ Ht]]; [eauto|].
    apply list_lookup_singleton_Some in Ht as [_ Ht]. by subst x.
Qed.

(** The rest of the invariant, which the queues and wakers do not touch. *)
Record Rest s : Prop := {
  rest_locked : locked (workers s) (tasks s);
  rest_ending : forall i p t, workers s !! i = Some p -> ending p = Some t -> t < length (tasks s);
  rest_slots : length (slots s) = length (tasks s);
  rest_locals : length (locals s) = length (workers s);
  rest_active : active s = sum alive_task (tasks s) + sum ending_worker (workers s) }.

Definition Inv s : Prop := balanced s [] [] /\ Rest s.

(** A worker moves to another place, neither ending a task. *)
Lemma rest_worker s s' i p q : Rest s -> workers s !! i = Some p -> ending p = None -> ending q = None -> running p = running q ->
  workers s' = <[i := q]> (workers s) -> tasks s' = tasks s -> length (slots s') = length (slots s) ->
  length (locals s') = length (locals s) -> active s' = active s -> Rest s'.
Proof.
  intros [H1 H2 H3 H4 H5] Hi Ep Eq Er Ew Et Es El Ea. assert (Hl : i < length (workers s)) by (by apply lookup_lt_Some in Hi).
  split; rewrite ?Ew, ?Et, ?Es, ?El, ?Ea.
  - by eapply locked_same.
  - intros j x t Hj Hx. destruct (decide (i = j)) as [->|Ne].
    + rewrite list_lookup_insert_eq in Hj by done. congruence.
    + rewrite list_lookup_insert_ne in Hj by done. eauto.
  - done.
  - by rewrite length_insert.
  - pose proof (sum_insert ending_worker _ _ _ q Hi) as E. unfold ending_worker in E at 2 4. rewrite Ep, Eq in E. lia.
Qed.

(** *** Steps of a worker *)

(** [set_worker] after a change that leaves the workers alone. *)
Lemma set_worker_after s i p q : workers s !! i = Some p ->
  set_worker i q (set_worker i Top s) = set_worker i q s.
Proof. intros H. unfold set_worker. cbn. by rewrite list_insert_insert_eq. Qed.

Lemma top_free s i p : workers s !! i = Some p -> free_hands (set_worker i Top s) i.
Proof.
  intros H. exists Top. cbn. split; [|done]. apply list_lookup_insert_eq. by apply lookup_lt_Some in H.
Qed.

(** A worker that only looks elsewhere. *)
Lemma inv_turn s i p q : workers s !! i = Some p -> ending p = None -> ending q = None -> running p = running q ->
  worker_tokens p = worker_tokens q -> worker_wakers p = worker_wakers q -> Inv s -> Inv (set_worker i q s).
Proof.
  intros Hi E1 E2 E3 E4 E5 [HB HR]. split.
  - rewrite <- (set_worker_after s i p) by done. apply balanced_give; [by eapply top_free|].
    rewrite <- E4, <- E5. by apply balanced_take.
  - by eapply (rest_worker s _ i p q).
Qed.

(** A worker takes a task off a queue. *)
Lemma inv_found s s' i p t : workers s !! i = Some p -> ending p = None -> running p = None -> worker_tokens p = [] -> worker_wakers p = [] ->
  (forall k m, total k m s' + k t = total k m s) -> tasks s' = tasks s -> flags s' = flags s -> workers s' = workers s ->
  slots s' = slots s -> length (locals s') = length (locals s) -> active s' = active s ->
  Inv s -> Inv (set_worker i (Resume t) s').
Proof.
  intros Hi E1 E2 E3 E4 HT Et Ef Ew Es El Ea [HB HR]. split.
  - apply balanced_give; [exists p; by rewrite Ew|]. cbn [worker_tokens worker_wakers].
    apply (balanced_move s s' [] [] [t] [] [] []); [|done..]. intros k m. cbn [sum]. specialize (HT k m). lia.
  - eapply (rest_worker s _ i p (Resume t)); try done; cbn; by rewrite ?Ew, ?Es.
Qed.
End Invariant.

(** *** Preservation *)

Section Steps.
Context {R : Type}.
Implicit Types s : State (R := R).

Lemma give_back s i p q ts ws : workers s !! i = Some p ->
  balanced (set_worker i Top s) (worker_tokens q ++ ts) (worker_wakers q ++ ws) -> balanced (set_worker i q s) ts ws.
Proof.
  intros Hi H. rewrite <- (set_worker_after s i p) by done. apply balanced_give; [by eapply top_free|done].
Qed.

Lemma wake_workers s w : workers (wake w s) = workers s /\ tasks (wake w s) = tasks s /\ slots (wake w s) = slots s /\
  locals (wake w s) = locals s /\ active (wake w s) = active s.
Proof. unfold wake. by destruct (flags s !! _) as [[]|]. Qed.

Lemma wake_set_worker s w i q : wake w (set_worker i q s) = set_worker i q (wake w s).
Proof. unfold wake. cbn [flags set_worker]. by destruct (flags s !! _) as [[]|]. Qed.

(** A waker that is made and dropped. *)
Lemma balanced_unused s t ts ws : balanced s ts ws -> balanced (new_waker t s).2 ts ws.
Proof.
  intros [H1 H2 H3]. split; [exact H1|exact H2|]. intros f G. cbn. by apply lookup_app_l_Some, H3.
Qed.

(** The waiters of a slot. *)
Lemma total_slot k m s j x y : slots s !! j = Some x ->
  total k m (set_slot j y s) + sum m (waiters x) = total k m s + sum m (waiters y).
Proof.
  intros H. unfold total. cbn. pose proof (sum_insert (fun x => sum m (waiters x)) _ _ _ y H) as E. cbn beta in E. lia.
Qed.

Lemma balanced_slot s j x y ws1 ws2 ts ws : slots s !! j = Some x ->
  (forall m : Waker -> nat, sum m (waiters y) + sum m ws2 = sum m (waiters x) + sum m ws1) ->
  balanced s ts (ws1 ++ ws) -> balanced (set_slot j y s) ts (ws2 ++ ws).
Proof.
  intros H E HB. apply (balanced_move s _ [] ws1 [] ws2 ts ws); [|done..]. intros k m. cbn [sum].
  pose proof (total_slot k m s j x y H). specialize (E m). lia.
Qed.

Lemma alive_running s t k i : tasks s !! t = Some (mkTask (Some k) i) -> alive s t = 1.
Proof. intros H. unfold alive. by rewrite H. Qed.

(** A token is that of a task that can run. *)
Lemma token_alive s i p t ts ws : balanced s ts ws -> workers s !! i = Some p -> t ∈ worker_tokens p ->
  exists k l, tasks s !! t = Some (mkTask (Some k) l).
Proof.
  intros [H _ _] Hi Ht. specialize (H t). pose proof (sum_lookup (worker_total (same t) (fun w => same t (waker_task w))) _ _ _ Hi) as G.
  pose proof (sum_elem (same t) _ _ Ht) as G2. rewrite same_refl in G2. unfold worker_total in G at 1. unfold total in H.
  unfold alive in H. destruct (tasks s !! t) as [[[k|] l]|]; [eauto|lia..].
Qed.

(** The end of a task: the worker goes from running it to ending it. *)
Lemma rest_end s i p q t : Rest s -> workers s !! i = Some p -> running p = Some t -> ending p = None -> ending q = Some t -> running q = None ->
  Rest (set_worker i q (set_task t (mkTask None None) s)).
Proof.
  intros [H1 H2 H3 H4 H5] Hi Rp Ep Eq Rq. assert (Hl : i < length (workers s)) by (by apply lookup_lt_Some in Hi).
  destruct (proj1 H1 i p t Hi Rp) as (k & Ht). assert (Hl' : t < length (tasks s)) by (by apply lookup_lt_Some in Ht).
  split; cbn.
  - by eapply locked_release.
  - rewrite length_insert. intros j x u Hj Hx. destruct (decide (i = j)) as [->|Ne].
    + rewrite list_lookup_insert_eq in Hj by done. injection Hj as <-. congruence.
    + rewrite list_lookup_insert_ne in Hj by done. eauto.
  - by rewrite length_insert.
  - by rewrite length_insert.
  - pose proof (sum_insert ending_worker _ _ _ q Hi) as E. unfold ending_worker in E at 2 4. rewrite Ep, Eq in E.
    pose proof (sum_insert alive_task _ _ _ (mkTask None None) Ht) as E'. cbn [alive_task coroutine] in E'. lia.
Qed.

(** Between two workers ending the same task. *)
Lemma rest_ending_same s s' i p q t : Rest s -> workers s !! i = Some p -> ending p = Some t -> ending q = Some t ->
  workers s' = <[i := q]> (workers s) -> tasks s' = tasks s -> length (slots s') = length (slots s) ->
  length (locals s') = length (locals s) -> active s' = active s -> Rest s'.
Proof.
  intros [H1 H2 H3 H4 H5] Hi Ep Eq Ew Et Es El Ea. assert (Hl : i < length (workers s)) by (by apply lookup_lt_Some in Hi).
  split; rewrite ?Ew, ?Et, ?Es, ?El, ?Ea.
  - apply (locked_same _ _ i p); [done| |done]. by destruct p, q.
  - intros j x u Hj Hx. destruct (decide (i = j)) as [->|Ne].
    + rewrite list_lookup_insert_eq in Hj by done. injection Hj as <-. apply (H2 j p); congruence.
    + rewrite list_lookup_insert_ne in Hj by done. eauto.
  - done.
  - by rewrite length_insert.
  - pose proof (sum_insert ending_worker _ _ _ q Hi) as E. unfold ending_worker in E at 2 4. rewrite Ep, Eq in E. lia.
Qed.

Lemma spawn_inv s : Inv s -> Inv (spawn s).
Proof.
  intros [[H1 H2 H3] [L1 L2 L3 L4 L5]]. split; [split|split; cbn].
  - intros t. specialize (H1 t). cbn [sum] in *. unfold total, alive in *. cbn. rewrite !sum_app. cbn [sum waiters].
    destruct (decide (t = length (tasks s))) as [->|E].
    + rewrite lookup_app_r, Nat.sub_diag by lia. cbn. rewrite same_refl.
      rewrite (lookup_ge_None_2 (tasks s)) in H1 by lia. lia.
    + rewrite same_ne by done. destruct (decide (t < length (tasks s))).
      * rewrite lookup_app_l by done. lia.
      * rewrite (lookup_ge_None_2 (tasks s)) in H1 by lia.
        rewrite lookup_ge_None_2 by (rewrite length_app; cbn; lia). lia.
  - intros f. specialize (H2 f). unfold total in *. cbn in *. rewrite !sum_app. cbn [sum waiters]. lia.
  - intros f G. apply H3. unfold total in *. cbn in *. rewrite !sum_app in G. cbn [sum waiters] in G. lia.
  - by apply locked_spawn.
  - intros i p t Hi Hp. rewrite length_app. specialize (L2 i p t Hi Hp). lia.
  - rewrite !length_app. cbn. lia.
  - done.
  - rewrite sum_app. cbn. lia.
Qed.

(** A running task registers a waker, its token, and goes to suspend. *)
Lemma register_inv s i t add : workers s !! i = Some (Running t Body) ->
  (forall w s, add w (set_worker i Top s) = set_worker i Top (add w s)) ->
  (forall w s0 ts ws, channels s0 = channels s -> balanced s0 ts (w :: ws) -> balanced (add w s0) ts ws) ->
  (forall w s, workers (add w s) = workers s /\ tasks (add w s) = tasks s /\ slots (add w s) = slots s /\
     locals (add w s) = locals s /\ active (add w s) = active s) ->
  Inv s -> Inv (register i t add s).
Proof.
  intros Hi Hc Hb Hf [HB HR]. unfold register. cbn [new_waker]. set (w := mkWaker t (length (flags s))).
  set (s1 := set_flags (flags s ++ [false]) s). destruct (Hf w s1) as (F1 & F2 & F3 & F4 & F5). split.
  - apply (give_back _ i (Running t Body)); [by rewrite F1|]. cbn [worker_tokens worker_wakers app]. rewrite <- Hc. apply Hb; [done|].
    apply (balanced_new_waker (set_worker i Top s) t [] []). by apply (balanced_take s i _ [] [] Hi).
  - apply (rest_worker s _ i (Running t Body) (Running t (Suspending InBody))); cbn; by rewrite ?F1, ?F2, ?F3, ?F4, ?F5.
Qed.

(** [complete]: the waiters pass from the slot to the worker that notifies them. *)
Lemma complete_balanced s i p q t r ws s' : workers s !! i = Some p -> worker_wakers p = [] ->
  complete t r s = Some (ws, s') -> worker_tokens q = worker_tokens p -> worker_wakers q = ws ->
  balanced s [] [] -> balanced (set_worker i q s') [] [].
Proof.
  unfold complete. intros Hi E0 H E1 E2 HB. destruct (slots s !! t) as [x|] eqn:Hx; [|done]. injection H as <- <-.
  apply (give_back _ i p); [done|]. rewrite E1, E2.
  apply (balanced_slot (set_worker i Top s) t x (mkSlot (Some r) []) [] (waiters x) _ []); [done| |].
  - intros m. cbn [waiters sum]. lia.
  - pose proof (balanced_take s i p [] [] Hi HB) as H. by rewrite E0 in H.
Qed.

Lemma complete_frame s t (r : result R string) ws s' : complete t r s = Some (ws, s') ->
  workers s' = workers s /\ tasks s' = tasks s /\ length (slots s') = length (slots s) /\ locals s' = locals s /\ active s' = active s.
Proof.
  unfold complete. destruct (slots s !! t); [|done]. intros [= <- <-]. cbn. by rewrite length_insert.
Qed.

(** The operations of a task. *)
Lemma operate_inv s i op s' : operate s i op = Some s' -> Inv s -> Inv s'.
Proof.
  unfold operate, return_task, abandon_task, yield_now, wait_for, sleep_until, park, wake_all, channel. destruct (workers s !! i) as [[| | | | | |t []| | | | |]|] eqn:Hi; try done.
  intros H HI. destruct op.
  - injection H as <-. by apply spawn_inv.
  - destruct (_ <? _); [|done]. injection H as <-. by eapply inv_turn.
  - injection H as <-. apply register_inv; try done.
    + intros w s0. apply wake_set_worker.
    + intros. by apply balanced_wake.
    + intros w s0. apply wake_workers.
  - injection H as <-. apply register_inv; try done. intros w s0 ts ws _ HB.
    apply (balanced_move s0 _ [] [w] [] [] ts ws); [|done..]. intros k m. unfold total. cbn. rewrite sum_app. cbn [sum]. lia.
  - injection H as <-. apply register_inv; try done. intros w s0 ts ws _ HB.
    apply (balanced_move s0 _ [] [w] [] [] ts ws); [|done..]. intros k m. unfold total. cbn. rewrite sum_app. cbn [sum]. lia.
  - injection H as <-. destruct HI as [HB []]. split; [|by split].
    apply (balanced_move s _ [] [] [] [] [] []); [|done..]. intros k m. unfold total. cbn. rewrite sum_app. cbn [sum]. lia.
  - destruct (channels s !! waiters0) as [ws0|] eqn:Hc; [|done]. injection H as <-. apply register_inv; try done. intros w s0 ts ws Es HB.
    apply (balanced_move s0 _ [] [w] [] [] ts ws); [|done..]. intros k m. unfold total. cbn. rewrite Es.
    pose proof (sum_insert (sum m) _ _ _ (ws0 ++ [w]) Hc) as E. rewrite sum_app in E. cbn [sum] in E.
    assert (Ea : alter (fun ws => ws ++ [w]) waiters0 (channels s) = <[waiters0 := ws0 ++ [w]]> (channels s)).
    { apply list_eq. intros j. destruct (decide (j = waiters0)) as [->|Ne].
      - rewrite list_lookup_alter_eq, Hc, list_lookup_insert_eq by (by apply lookup_lt_Some in Hc). done.
      - by rewrite list_lookup_alter_ne, list_lookup_insert_ne. }
    rewrite Ea. cbn [sum]. lia.
  - destruct (channels s !! waiters0) as [ws0|] eqn:Hc; [|done]. injection H as <-. destruct HI as [HB HR]. split.
    + apply (give_back _ i (Running t Body)); [done|]. cbn [worker_tokens worker_wakers app].
      apply (balanced_move (set_worker i Top s) _ [] [] [] ws0 [t] []); [|done..|by apply (balanced_take s i _ [] [] Hi)].
      intros k m. unfold total. cbn. pose proof (sum_insert (sum m) _ _ _ [] Hc) as E. cbn [sum] in *. lia.
    + by apply (rest_worker s _ i (Running t Body) (Running t (WakingAll ws0))).
  - destruct (complete t r s) as [[ws s1]|] eqn:E; [|done]. cbn in H. injection H as <-. destruct HI as [HB HR]. split.
    + by eapply complete_balanced.
    + destruct (complete_frame _ _ _ _ _ E) as (F1 & F2 & F3 & F4 & F5).
      apply (rest_worker s _ i (Running t Body) (Running t (Notifying ws))); cbn; by rewrite ?F1, ?F2, ?F3, ?F4, ?F5.
  - injection H as <-. destruct HI as [HB HR]. split; [|by eapply rest_end].
    destruct (proj1 (rest_locked _ HR) i _ t Hi eq_refl) as (k & Ht).
    apply (give_back _ i (Running t Body)); [done|]. cbn [worker_tokens worker_wakers app].
    apply (balanced_end (set_worker i Top s) t (mkTask (Some k) (Some i)) [] []); [done|]. by apply (balanced_take s i _ [] [] Hi).
Qed.

(** A waker at the head of a list is notified. *)
Lemma notify_balanced s i p q w : workers s !! i = Some p -> worker_tokens q = worker_tokens p ->
  worker_wakers p = w :: worker_wakers q -> balanced s [] [] -> balanced (set_worker i q (wake w s)) [] [].
Proof.
  intros Hi E1 E2 HB. destruct (wake_workers s w) as (F1 & _).
  apply (give_back _ i p); [by rewrite F1|]. rewrite E1. rewrite <- wake_set_worker, !app_nil_r. apply balanced_wake.
  pose proof (balanced_take s i p [] [] Hi HB) as H. by rewrite E2, !app_nil_r in H.
Qed.

Lemma wake_inv s w : balanced s [] [w] -> Rest s -> Inv (wake w s).
Proof.
  intros HB [H1 H2 H3 H4 H5]. split; [by apply balanced_wake|]. destruct (wake_workers s w) as (F1 & F2 & F3 & F4 & F5).
  split; by rewrite ?F1, ?F2, ?F3, ?F4, ?F5.
Qed.

(** The lock of a task is taken and given back. *)
Lemma rest_resume s i t k : Rest s -> workers s !! i = Some (Resume t) -> tasks s !! t = Some (mkTask (Some k) None) ->
  forall pc, Rest (set_worker i (Running t pc) (set_task t (mkTask (Some k) (Some i)) s)).
Proof.
  intros [H1 H2 H3 H4 H5] Hi Ht pc. assert (Hl : i < length (workers s)) by (by apply lookup_lt_Some in Hi).
  split; cbn; rewrite ?length_insert; try done.
  - by eapply locked_acquire.
  - intros j x u Hj Hx. destruct (decide (i = j)) as [->|Ne].
    + rewrite list_lookup_insert_eq in Hj by done. by injection Hj as <-.
    + rewrite list_lookup_insert_ne in Hj by done. eauto.
  - pose proof (sum_insert ending_worker _ _ _ (Running t pc) Hi) as E.
    pose proof (sum_insert alive_task _ _ _ (mkTask (Some k) (Some i)) Ht) as E'. cbn in E, E'. lia.
Qed.

Lemma rest_suspend s i t k k0 : Rest s -> workers s !! i = Some (Running t (Suspending k)) ->
  tasks s !! t = Some (mkTask (Some k0) (Some i)) -> Rest (set_worker i Top (set_task t (mkTask (Some k) None) s)).
Proof.
  intros [H1 H2 H3 H4 H5] Hi Ht. assert (Hl : i < length (workers s)) by (by apply lookup_lt_Some in Hi).
  split; cbn; rewrite ?length_insert; try done.
  - by eapply locked_release.
  - intros j x u Hj Hx. destruct (decide (i = j)) as [->|Ne].
    + rewrite list_lookup_insert_eq in Hj by done. by injection Hj as <-.
    + rewrite list_lookup_insert_ne in Hj by done. eauto.
  - pose proof (sum_insert ending_worker _ _ _ Top Hi) as E.
    pose proof (sum_insert alive_task _ _ _ (mkTask (Some k) None) Ht) as E'. cbn in E, E'. lia.
Qed.

Lemma rest_finished s i t : Rest s -> workers s !! i = Some (Finished t) -> Rest (set_worker i Top (task_finished s)).
Proof.
  intros [H1 H2 H3 H4 H5] Hi. assert (Hl : i < length (workers s)) by (by apply lookup_lt_Some in Hi).
  split; cbn; rewrite ?length_insert; try done.
  - by eapply locked_idle.
  - intros j x u Hj Hx. destruct (decide (i = j)) as [->|Ne].
    + rewrite list_lookup_insert_eq in Hj by done. by injection Hj as <-.
    + rewrite list_lookup_insert_ne in Hj by done. eauto.
  - pose proof (sum_insert ending_worker _ _ _ Top Hi) as E. cbn in E. lia.
Qed.

(** The actions of a worker. *)
Lemma step_inv s i batch s' : step_worker s i batch = Some s' -> Inv s -> Inv s'.
Proof.
  unfold step_worker, find_task, resume, join_step, left_task. destruct (workers s !! i) as [p|] eqn:Hi; [|done]. intros H HI. pose proof HI as [HB HR].
  destruct p as [| | |v| |t|t [|slot|k|[|w ws]|[|w ws]]|t m|t [|w ws]|t| |]; try done.
  - injection H as <-. eapply inv_turn; try done; by destruct (shutdown s).
  - destruct (locals s !! i) as [[|t q]|] eqn:Hq; [| |done]; cbn in H; injection H as <-; [by eapply inv_turn|].
    eapply inv_found; try done; [|cbn; by rewrite length_insert]. intros k m. unfold total. cbn.
    pose proof (sum_insert (sum k) _ _ _ q Hq) as E. cbn [sum] in E. lia.
  - destruct (injector s) as [|t rest] eqn:Hj; [injection H as <-; by eapply inv_turn|].
    destruct (locals s !! i) as [q|] eqn:Hq; [|done]. cbn in H. injection H as <-.
    eapply inv_found; try done; [|cbn; by rewrite length_insert]. intros k m. unfold total. cbn. rewrite Hj. cbn [sum].
    pose proof (sum_insert (sum k) _ _ _ (q ++ take batch rest) Hq) as E. rewrite sum_app in E.
    pose proof (sum_take_drop k batch rest). lia.
  - destruct (locals s !! v) as [[|t q]|] eqn:Hq; injection H as <-; [by eapply inv_turn| |by eapply inv_turn].
    eapply inv_found; try done; [|cbn; by rewrite length_insert]. intros k m. unfold total. cbn.
    pose proof (sum_insert (sum k) _ _ _ q Hq) as E. cbn [sum] in E. lia.
  - injection H as <-. by eapply inv_turn.
  - (* a task is resumed *)
    destruct (token_alive s i _ t [] [] HB Hi) as (k & l & Ht); [by left|]. rewrite Ht in H. cbn in H.
    destruct l as [j|]; [done|]. injection H as <-. split.
    + apply (give_back _ i (Resume t)); [done|].
      assert (E : worker_tokens (Running t (match k with InBody => Body | InJoin slot => Join slot end)) = [t]) by (by destruct k).
      assert (E' : worker_wakers (Running t (match k with InBody => Body | InJoin slot => Join slot end)) = []) by (by destruct k).
      rewrite E, E'. eapply (balanced_touch (set_worker i Top s)); [done|]. by apply (balanced_take s i _ [] [] Hi).
    + by apply rest_resume.
  - (* the loop of [join] *)
    cbn [new_waker] in H. unfold join_locked in H. cbn [slots set_flags] in H. destruct (slots s !! slot) as [x|] eqn:Hx; [|done]. cbn in H.
    pose proof (balanced_take s i _ [] [] Hi HB) as HT. cbn [worker_tokens worker_wakers app] in HT.
    destruct (value x) as [r|]; cbn in H; injection H as <-; split.
    + apply (give_back _ i (Running t (Join slot))); [done|]. cbn [worker_tokens worker_wakers app].
      apply (balanced_slot (set_worker i Top (new_waker t s).2) slot x (mkSlot None (waiters x)) [] [] [t] []); [done|done|].
      exact (balanced_unused (set_worker i Top s) t [t] [] HT).
    + apply (rest_worker s _ i (Running t (Join slot)) (Running t Body)); try done. cbn. by rewrite length_insert.
    + apply (give_back _ i (Running t (Join slot))); [done|]. cbn [worker_tokens worker_wakers app].
      apply (balanced_slot (set_worker i Top (new_waker t s).2) slot x (mkSlot None (waiters x ++ [(new_waker t s).1])) [(new_waker t s).1] [] [] []); [done| |].
      * intros m. cbn [waiters]. rewrite sum_app. cbn [sum]. lia.
      * exact (balanced_new_waker (set_worker i Top s) t [] [] HT).
    + apply (rest_worker s _ i (Running t (Join slot)) (Running t (Suspending (InJoin slot)))); try done. cbn. by rewrite length_insert.
  - (* a task suspends *)
    injection H as <-. destruct (proj1 (rest_locked _ HR) i _ t Hi eq_refl) as (k0 & Ht). split; [|by eapply rest_suspend].
    apply (give_back _ i (Running t (Suspending k))); [done|].
    eapply (balanced_touch (set_worker i Top s)); [done|]. by apply (balanced_take s i _ [] [] Hi).
  - injection H as <-. by eapply inv_turn.
  - injection H as <-. split; [by eapply notify_balanced|]. destruct (wake_workers s w) as (F1 & F2 & F3 & F4 & F5).
    apply (rest_worker s _ i (Running t (WakingAll (w :: ws))) (Running t (WakingAll ws))); cbn; by rewrite ?F1, ?F2, ?F3, ?F4, ?F5.
  - (* a task returns *)
    injection H as <-. destruct (proj1 (rest_locked _ HR) i _ t Hi eq_refl) as (k0 & Ht). split; [|by eapply rest_end].
    apply (give_back _ i (Running t (Notifying []))); [done|].
    apply (balanced_end (set_worker i Top s) t (mkTask (Some k0) (Some i)) [] []); [done|]. by apply (balanced_take s i _ [] [] Hi).
  - injection H as <-. split; [by eapply notify_balanced|]. destruct (wake_workers s w) as (F1 & F2 & F3 & F4 & F5).
    apply (rest_worker s _ i (Running t (Notifying (w :: ws))) (Running t (Notifying ws))); cbn; by rewrite ?F1, ?F2, ?F3, ?F4, ?F5.
  - destruct (complete t (Err m) s) as [[ws s1]|] eqn:E; [|done]. cbn in H. injection H as <-. split; [by eapply complete_balanced|].
    destruct (complete_frame _ _ _ _ _ E) as (F1 & F2 & F3 & F4 & F5).
    apply (rest_ending_same s _ i (Abandoned t m) (NotifyAbandoned t ws) t); cbn; by rewrite ?F1, ?F2, ?F3, ?F4, ?F5.
  - injection H as <-. split; [|by apply (rest_ending_same s _ i (NotifyAbandoned t []) (Finished t) t)].
    apply (give_back _ i (NotifyAbandoned t [])); [done|]. by apply (balanced_take s i _ [] [] Hi).
  - injection H as <-. split; [by eapply notify_balanced|]. destruct (wake_workers s w) as (F1 & F2 & F3 & F4 & F5).
    apply (rest_ending_same s _ i (NotifyAbandoned t (w :: ws)) (NotifyAbandoned t ws) t); cbn; by rewrite ?F1, ?F2, ?F3, ?F4, ?F5.
  - injection H as <-. split; [|by eapply rest_finished].
    apply (give_back _ i (Finished t)); [done|]. destruct (balanced_take s i _ [] [] Hi HB) as [G1 G2 G3].
    split; [exact G1|exact G2|exact G3].
Qed.

Lemma fire_io_inv s k s' : fire_io s k = Some s' -> Inv s -> Inv s'.
Proof.
  unfold fire_io. destruct (io_waiters s !! k) as [w|] eqn:Hk; [|done]. intros [= <-] [HB []]. apply wake_inv; [|done].
  apply (balanced_move s _ [] [] [] [w] [] []); [|done..]. intros k0 m. unfold total. cbn.
  pose proof (sum_delete m _ _ _ Hk). lia.
Qed.

Lemma fire_timer_inv s k s' : fire_timer s k = Some s' -> Inv s -> Inv s'.
Proof.
  unfold fire_timer. destruct (timers s !! k) as [w|] eqn:Hk; [|done]. intros [= <-] [HB []]. apply wake_inv; [|done].
  apply (balanced_move s _ [] [] [] [w] [] []); [|done..]. intros k0 m. unfold total. cbn.
  pose proof (sum_delete m _ _ _ Hk). lia.
Qed.

Lemma act_inv s a s' : act s a = Some s' -> Inv s -> Inv s'.
Proof.
  destruct a; cbn [act].
  - apply step_inv.
  - apply operate_inv.
  - apply fire_io_inv.
  - apply fire_timer_inv.
  - intros [= <-]. apply spawn_inv.
  - intros [= <-] [[] []]. by split; split.
Qed.

Lemma new_inv n : Inv (Runtime_new (R := R) n).
Proof.
  assert (T : forall k m, total k m (Runtime_new (R := R) n) = 0).
  { intros k m. unfold total, Runtime_new. cbn [injector locals workers slots io_waiters timers channels sum].
    rewrite !sum_replicate by done. lia. }
  split; [split|split].
  - intros t. by rewrite T.
  - intros f. rewrite T. cbn. lia.
  - intros f. rewrite T. cbn. lia.
  - split; [|done]. intros i p t Hi Hp. cbn in Hi. apply lookup_replicate in Hi as [-> _]. done.
  - intros i p t Hi Hp. cbn in Hi. apply lookup_replicate in Hi as [-> _]. done.
  - done.
  - unfold Runtime_new. cbn [locals workers]. by rewrite !length_replicate.
  - unfold Runtime_new. cbn [active tasks workers sum]. by rewrite sum_replicate.
Qed.

Lemma scheduler_inv n s : reachable n s -> Inv s.
Proof. induction 1 as [|s a s' _ IH Ha]; [apply new_inv|]. by eapply act_inv. Qed.

(** ** The theorems *)

(** The wakers that somebody will call [wake] on: those of slots, of the I/O
    driver, of timers and of channels, and those a worker is notifying. *)
Definition held_wakers s : list Waker :=
  concat (map waiters (slots s)) ++ io_waiters s ++ timers s ++ concat (channels s) ++ concat (map worker_wakers (workers s)).

(** Every place from which a task can be run next, or is run now. *)
Definition places s : list nat :=
  injector s ++ concat (locals s) ++ concat (map worker_tokens (workers s)) ++ map waker_task (held_wakers s).

Definition occurrences (t : nat) (l : list nat) : nat := length (List.filter (Nat.eqb t) l).

Lemma sum_same t l : sum (same t) l = occurrences t l.
Proof.
  unfold occurrences. induction l as [|u l IH]; [done|]. cbn [sum List.filter]. rewrite IH. unfold same.
  destruct (Nat.eqb_spec t u); [by rewrite decide_True|by rewrite decide_False].
Qed.

Lemma NoDup_occurrences l : (forall t, occurrences t l <= 1) -> NoDup l.
Proof.
  induction l as [|u l IH]; intros H; [constructor|]. apply NoDup_cons. split.
  - intros Hu. specialize (H u). unfold occurrences in H. cbn in H. rewrite Nat.eqb_refl in H. cbn in H.
    assert (In u (List.filter (Nat.eqb u) l)) as F by (apply filter_In; split; [by apply list_elem_of_In|apply Nat.eqb_refl]).
    destruct (List.filter _ l); [done|cbn in H; lia].
  - apply IH. intros t. specialize (H t). unfold occurrences in *. cbn in H. destruct (t =? u); cbn in H; lia.
Qed.

Lemma sum_concat {A} (f : A -> nat) l : sum f (concat l) = sum (sum f) l.
Proof. induction l as [|x l IH]; [done|]. cbn [concat sum]. by rewrite sum_app, IH. Qed.

Lemma sum_map {A B} (f : B -> nat) (g : A -> B) l : sum f (map g l) = sum (fun x => f (g x)) l.
Proof. induction l as [|x l IH]; [done|]. cbn [map sum]. by rewrite IH. Qed.

Lemma sum_plus {A} (f g : A -> nat) l : sum (fun x => f x + g x) l = sum f l + sum g l.
Proof. induction l as [|x l IH]; cbn [sum]; lia. Qed.

Lemma total_wakers m s : total (fun _ => 0) m s = sum m (held_wakers s).
Proof.
  unfold total, held_wakers. rewrite !sum_app, !sum_concat, !sum_map.
  assert (Z : forall l : list nat, sum (fun _ => 0) l = 0) by (induction l; cbn [sum]; lia).
  assert (Z' : forall l : list (list nat), sum (sum (fun _ => 0)) l = 0) by (induction l; cbn [sum]; rewrite ?Z; lia).
  unfold worker_total. rewrite (sum_plus (fun p => sum (fun _ => 0) (worker_tokens p)) (fun p => sum m (worker_wakers p))).
  assert (Zw : sum (fun p => sum (fun _ : nat => 0) (worker_tokens p)) (workers s) = 0) by (generalize (workers s); induction l; cbn [sum]; rewrite ?Z; lia).
  rewrite Z, Z', Zw. lia.
Qed.

Lemma total_places t s : total (same t) (fun w => same t (waker_task w)) s = occurrences t (places s).
Proof.
  rewrite <- sum_same. unfold total, places, held_wakers. rewrite !sum_app, !sum_concat, !sum_map, !sum_app, !sum_concat, !sum_map.
  unfold worker_total. rewrite (sum_plus (fun p => sum (same t) (worker_tokens p)) (fun p => sum (fun w => same t (waker_task w)) (worker_wakers p))). lia.
Qed.

(** A task runs on one worker at a time, and is never resumed once it has
    finished: no worker meets the panic of [resume] ("resumed a finished task"). *)
Theorem resume_sound n s : reachable n s ->
  (forall i t, workers s !! i = Some (Resume t) -> exists k l, tasks s !! t = Some (mkTask (Some k) l)) /\
  (forall i j t p q, workers s !! i = Some (Running t p) -> workers s !! j = Some (Running t q) -> i = j).
Proof.
  intros [HB HR]%scheduler_inv. split.
  - intros i t Hi. eapply (token_alive s i); [done|done|by left].
  - intros i j t p q Hi Hj. destruct (proj1 (rest_locked _ HR) i _ t Hi eq_refl) as (k & Hk).
    destruct (proj1 (rest_locked _ HR) j _ t Hj eq_refl) as (k' & Hk'). congruence.
Qed.

(** C34: No task is lost and none can be run twice: a task that has not finished is
    at exactly one place among the queues, the workers that run it, and the
    wakers that a slot, the I/O driver, a timer or a channel holds or that a task is
    about to wake; a task that has finished is at none.  Each of these wakers
    is held once and has not fired, so that waking it queues its task.  (Channel
    operations and joins are those of tasks, not of threads outside the
    scheduler.) *)
Theorem no_task_lost n s : reachable n s ->
  (forall t, occurrences t (places s) = match tasks s !! t with Some (mkTask (Some _) _) => 1 | _ => 0 end) /\
  NoDup (map waker_flag (held_wakers s)) /\
  forall w, w ∈ held_wakers s -> flags s !! waker_flag w = Some false.
Proof.
  intros [[H1 H2 H3] HR]%scheduler_inv. split; [|split].
  - intros t. specialize (H1 t). cbn [sum] in H1. rewrite total_places in H1. unfold alive in H1. lia.
  - apply NoDup_occurrences. intros f. specialize (H2 f). cbn [sum] in H2. rewrite total_wakers in H2. rewrite <- sum_same, sum_map. lia.
  - intros w Hw. apply H3. cbn [sum]. rewrite total_wakers.
    pose proof (sum_elem (fun v => same (waker_flag w) (waker_flag v)) _ _ Hw) as G. cbn beta in G. rewrite same_refl in G. lia.
Qed.

(** [run_until_idle] returns only when every task has finished. *)
Theorem idle_finished n s t k l : reachable n s -> idle s = true -> tasks s !! t <> Some (mkTask (Some k) l).
Proof.
  intros [HB HR]%scheduler_inv Hs Ht. unfold idle in Hs. apply Nat.eqb_eq in Hs. pose proof (rest_active _ HR) as E.
  pose proof (sum_lookup alive_task _ _ _ Ht) as G. cbn in G. lia.
Qed.

Lemma schedule_reachable n l s s' : reachable n s -> run_schedule s l = Some s' -> reachable n s'.
Proof.
  revert s. induction l as [|a l IH]; intros s Hs H; cbn in H; [by injection H as <-|].
  destruct (act s a) as [s1|] eqn:E; [|done]. apply (IH s1); [|done]. by eapply reach_act.
Qed.
End Steps.

(** ** Witnesses

    Two workers: the first runs a task that spawns another and joins it; the
    second runs that one.  The join registers a waker before the result is there. *)
Definition demo_start : list (Action (R := nat)) :=
  [SpawnOutside; Step 0 0; Step 0 0; Step 0 0; Step 0 0; Operate 0 OpSpawn; Operate 0 (OpJoin 1); Step 0 0].
Definition demo_second : list (Action (R := nat)) := [Step 1 0; Step 1 0; Step 1 0].
Definition demo_end : list (Action (R := nat)) :=
  [Step 1 0; Step 0 0; Operate 1 (OpReturn (Ok 7)); Step 1 0; Step 1 0; Step 1 0;
   Step 0 0; Step 0 0; Step 0 0; Step 0 0; Step 0 0; Operate 0 (OpReturn (Ok 8)); Step 0 0; Step 0 0].

Definition demo_state (l : list (Action (R := nat))) : State (R := nat) :=
  match run_schedule (Runtime_new 2) l with Some s => s | None => Runtime_new 2 end.

Definition demo_runs (l : list (Action (R := nat))) : bool :=
  match run_schedule (Runtime_new 2) l with Some _ => true | None => false end.

Lemma demo_reachable l : demo_runs l = true -> reachable 2 (demo_state l).
Proof.
  unfold demo_runs, demo_state. destruct (run_schedule _ l) as [s|] eqn:H; [|done]. intros _.
  eapply schedule_reachable; [constructor|done].
Qed.

Lemma resume_sound_witness :
  exists k l, tasks (demo_state (demo_start ++ demo_second)) !! 1 = Some (mkTask (Some k) l).
Proof.
  apply (proj1 (resume_sound 2 (demo_state (demo_start ++ demo_second)) (demo_reachable (demo_start ++ demo_second) eq_refl)) 1 1).
  vm_compute. reflexivity.
Defined.

(** The second task makes a channel and parks on it; the first waits for its
    result. *)
Definition demo_park : list (Action (R := nat)) := [Step 1 0; Operate 1 OpChannel; Operate 1 (OpPark 0); Step 1 0].

Lemma no_task_lost_witness :
  let s := demo_state (demo_start ++ demo_second ++ demo_park) in
  occurrences 1 (places s) = 1 /\ channels s = [[mkWaker 1 1]; []] /\ flags s !! 1 = Some false.
Proof.
  destruct (no_task_lost 2 (demo_state (demo_start ++ demo_second ++ demo_park))
    (demo_reachable (demo_start ++ demo_second ++ demo_park) eq_refl)) as (H1 & _ & H3).
  split; [rewrite H1; vm_compute; reflexivity|]. split; [vm_compute; reflexivity|].
  apply (H3 (mkWaker 1 1)). vm_compute. apply list_elem_of_In. cbn. tauto.
Defined.

(** Another task wakes it: it is queued again. *)
Example demo_woken :
  let s := demo_state (demo_start ++ demo_second ++ demo_park ++ [SpawnOutside; Step 1 0; Step 1 0; Step 1 0; Step 1 0; Operate 1 (OpWakeAll 0); Step 1 0]) in
  injector s = [1] /\ channels s = [[]; []] /\ occurrences 1 (places s) = 1.
Proof. vm_compute. repeat split. Qed.

Lemma idle_finished_witness :
  active (demo_state (demo_start ++ demo_second ++ demo_end)) = 0 /\
  tasks (demo_state (demo_start ++ demo_second ++ demo_end)) !! 0 <> Some (mkTask (Some InBody) None).
Proof.
  split; [vm_compute; reflexivity|].
  apply (idle_finished 2); [by apply demo_reachable|vm_compute; reflexivity].
Defined.
