(* ===== verification/Blocking.v ===== *)
(** The pool of threads for blocking calls: [runtime/paco-runtime/src/blocking.rs].

    The threads of the pool and those that submit jobs interleave atomic
    actions: one access to [jobs], one to [idle] or [threads], one critical
    section of [signal].  A waiting thread returns from [wait_timeout] notified,
    after the timeout, or for no reason.  A job is a number; what its code does
    is not part of the pool. *)
From S2P Require Import Prelude.
Open Scope nat_scope.

(** Where a thread is in [worker_loop]. *)
Inductive PoolPc :=
| TakeJob                      (* before [pop_front] *)
| RunJob (job : nat)
| NoJob                        (* before [idle.fetch_add] *)
| LockSignal                   (* before [signal.lock] *)
| LookAgain                    (* holds the signal, before [is_empty] *)
| GiveUpWait                   (* holds it, before [idle.fetch_sub] and [continue] *)
| Waiting                      (* in [wait_timeout] *)
| Woken (timed_out : bool)     (* leaving it, before the signal is locked again *)
| Awake (timed_out : bool)     (* holds the signal, before [idle.fetch_sub] *)
| Decide (timed_out : bool)    (* holds it, before the last [is_empty] *)
| Leaving                      (* before [threads.fetch_sub] *)
| Left.

#[export] Instance PoolPc_eq_dec : EqDecision PoolPc.
Proof. solve_decision. Defined.

(** Where a thread is in [submit], after the job is in the queue. *)
Inductive SubmitPc :=
| Pushed                       (* before [idle.load] *)
| Notify.                      (* before [notify_one] *)

(** [Pool], with what was submitted and what was started, in order. *)
Record Pool := mkPool {
  jobs : list nat;
  idle_count : nat;
  threads : nat;
  pool_workers : list PoolPc;
  submitters : list SubmitPc;
  submitted : list nat;
  started : list nat }.

(** [BlockingPool::new] *)
Definition BlockingPool_new : Pool := mkPool [] 0 0 [] [] [] [].

Definition holds_signal (p : PoolPc) : bool :=
  match p with LookAgain | GiveUpWait | Awake _ | Decide _ => true | _ => false end.
Definition signal_free (s : Pool) : bool := negb (existsb holds_signal (pool_workers s)).

Definition at_place (i : nat) (p : PoolPc) (s : Pool) : Pool :=
  mkPool (jobs s) (idle_count s) (threads s) (<[i := p]> (pool_workers s)) (submitters s) (submitted s) (started s).
Definition add_idle (n : nat) (s : Pool) : Pool :=
  mkPool (jobs s) n (threads s) (pool_workers s) (submitters s) (submitted s) (started s).

(** [submit], its first action. *)
Definition submit (job : nat) (s : Pool) : Pool :=
  mkPool (jobs s ++ [job]) (idle_count s) (threads s) (pool_workers s) (submitters s ++ [Pushed]) (submitted s ++ [job]) (started s).

(** [spawn_worker] *)
Definition spawn_worker (s : Pool) : Pool :=
  mkPool (jobs s) (idle_count s) (S (threads s)) (pool_workers s ++ [TakeJob]) (submitters s) (submitted s) (started s).

(** [notify_one] wakes the waiting thread that [chosen] names, when it waits;
    [chosen] names one if there is one. *)
Definition notify_one (chosen : nat) (s : Pool) : option Pool :=
  match pool_workers s !! chosen with
  | Some Waiting => Some (at_place chosen (Woken false) s)
  | _ => if existsb (fun p => match p with Waiting => true | _ => false end) (pool_workers s) then None else Some s
  end.

Definition set_submitters (l : list SubmitPc) (s : Pool) : Pool :=
  mkPool (jobs s) (idle_count s) (threads s) (pool_workers s) l (submitted s) (started s).

(** The next action of the thread [k] in [submit]. *)
Definition step_submit (s : Pool) (k chosen : nat) : option Pool :=
  match submitters s !! k with
  | Some Pushed =>
      let s' := set_submitters (<[k := Notify]> (submitters s)) s in
      Some (if idle_count s =? 0 then spawn_worker s' else s')
  | Some Notify => if signal_free s then notify_one chosen (set_submitters (delete k (submitters s)) s) else None
  | None => None
  end.

(** The next action of worker [i]; [timed_out] is how a wait ends. *)
Definition step_pool (s : Pool) (i : nat) (timed_out : bool) : option Pool :=
  match pool_workers s !! i with
  | Some TakeJob =>
      match jobs s with
      | job :: rest =>
          Some (at_place i (RunJob job)
            (mkPool rest (idle_count s) (threads s) (pool_workers s) (submitters s) (submitted s) (started s ++ [job])))
      | [] => Some (at_place i NoJob s)
      end
  | Some (RunJob _) => Some (at_place i TakeJob s)
  | Some NoJob => Some (at_place i LockSignal (add_idle (S (idle_count s)) s))
  | Some LockSignal => if signal_free s then Some (at_place i LookAgain s) else None
  | Some LookAgain => Some (at_place i (match jobs s with [] => Waiting | _ => GiveUpWait end) s)
  | Some GiveUpWait => Some (at_place i TakeJob (add_idle (idle_count s - 1) s))
  | Some Waiting => Some (at_place i (Woken timed_out) s)
  | Some (Woken b) => if signal_free s then Some (at_place i (Awake b) s) else None
  | Some (Awake b) => Some (at_place i (Decide b) (add_idle (idle_count s - 1) s))
  | Some (Decide b) => Some (at_place i (if b && match jobs s with [] => true | _ => false end then Leaving else TakeJob) s)
  | Some Leaving =>
      Some (at_place i Left
        (mkPool (jobs s) (idle_count s) (threads s - 1) (pool_workers s) (submitters s) (submitted s) (started s)))
  | Some Left | None => None
  end.

Inductive PoolAction :=
| Submit (job : nat)
| SubmitStep (k chosen : nat)
| PoolStep (worker : nat) (timed_out : bool).

Definition pool_act (s : Pool) (a : PoolAction) : option Pool :=
  match a with
  | Submit job => Some (submit job s)
  | SubmitStep k chosen => step_submit s k chosen
  | PoolStep i b => step_pool s i b
  end.

Inductive pool_reachable : Pool -> Prop :=
| pool_new : pool_reachable BlockingPool_new
| pool_next s a s' : pool_reachable s -> pool_act s a = Some s' -> pool_reachable s'.

Fixpoint pool_run (s : Pool) (l : list PoolAction) : option Pool :=
  match l with [] => Some s | a :: l => s ← pool_act s a; pool_run s l end.

(** ** The invariant *)

(** Counted in [idle]. *)
Definition counted (p : PoolPc) : bool :=
  match p with LockSignal | LookAgain | GiveUpWait | Waiting | Woken _ | Awake _ => true | _ => false end.
(** Counted in [threads]. *)
Definition present (p : PoolPc) : bool := match p with Left => false | _ => true end.
(** In the pool: asleep in [wait_timeout], or with work to do. *)
Definition staying (p : PoolPc) : bool := match p with Leaving | Left => false | _ => true end.
(** On its way to the queue, or running a job before it goes there. *)
Definition awake (p : PoolPc) : bool := match p with Waiting | Leaving | Left => false | _ => true end.

Definition count (f : PoolPc -> bool) (l : list PoolPc) : nat := length (List.filter f l).
#[global] Arguments count : simpl never.

Lemma count_app f l1 l2 : count f (l1 ++ l2) = count f l1 + count f l2.
Proof. unfold count. by rewrite List.filter_app, length_app. Qed.

Lemma count_cons f a l : count f (a :: l) = Nat.b2n (f a) + count f l.
Proof. unfold count. cbn. by destruct (f a). Qed.

Lemma count_insert f l i p q : l !! i = Some p ->
  count f (<[i := q]> l) + Nat.b2n (f p) = count f l + Nat.b2n (f q).
Proof.
  revert i. induction l as [|a l IH]; intros [|i] H; try done.
  - injection H as ->. change (<[0:=q]> (p :: l)) with (q :: l). rewrite !count_cons. lia.
  - specialize (IH i H). change (<[S i:=q]> (a :: l)) with (a :: <[i := q]> l). rewrite !count_cons. lia.
Qed.

Lemma count_lookup f l i p : l !! i = Some p -> f p = true -> 0 < count f l.
Proof.
  intros H F. pose proof (count_insert f _ _ _ p H) as E. rewrite <- (take_drop_middle l i p H), count_app, count_cons, F. cbn. lia.
Qed.

(** A job in the queue has a thread: its submitter has still to look at [idle], or
    a thread stays in the pool; and unless somebody has still to notify, one
    of them is awake. *)
Definition looked_after (s : Pool) : Prop := Pushed ∈ submitters s \/ 0 < count staying (pool_workers s).
Definition attended (s : Pool) : Prop := submitters s <> [] \/ 0 < count awake (pool_workers s).

Record PoolInv (s : Pool) : Prop := {
  pool_idle : idle_count s = count counted (pool_workers s);
  pool_threads : threads s = count present (pool_workers s);
  pool_once : submitted s = started s ++ jobs s;
  pool_looked : jobs s <> [] -> looked_after s;
  pool_attended : jobs s <> [] -> attended s }.

(** A worker moves: while there is a job, it does not fall asleep or leave. *)
Lemma pool_move s i p q n t J S : PoolInv s -> pool_workers s !! i = Some p ->
  n + Nat.b2n (counted p) = idle_count s + Nat.b2n (counted q) -> t + Nat.b2n (present p) = threads s + Nat.b2n (present q) ->
  submitted s = S ++ J -> (J <> [] -> awake q = true \/ awake p = false /\ staying p = staying q /\ jobs s <> []) ->
  PoolInv (mkPool J n t (<[i := q]> (pool_workers s)) (submitters s) (submitted s) S).
Proof.
  intros [H1 H2 H3 H4 H5] Hi E1 E2 E3 E4.
  pose proof (count_insert counted _ _ _ q Hi). pose proof (count_insert present _ _ _ q Hi).
  pose proof (count_insert staying _ _ _ q Hi) as Es. pose proof (count_insert awake _ _ _ q Hi) as Ea.
  assert (Hq : <[i := q]> (pool_workers s) !! i = Some q) by (apply list_lookup_insert_eq; by apply lookup_lt_Some in Hi).
  split; cbn; [lia|lia|done| |]; intros HJ; unfold looked_after, attended; cbn; destruct (E4 HJ) as [F|(F & F' & HJ')].
  - right. apply (count_lookup _ _ i q); [done|]. by destruct q.
  - destruct (H4 HJ') as [?|G]; [by left|]. right. rewrite F' in Es. lia.
  - right. by apply (count_lookup _ _ i q).
  - destruct (H5 HJ') as [?|G]; [by left|]. right. rewrite F in Ea. cbn in Ea. lia.
Qed.

Lemma step_pool_inv s i b s' : step_pool s i b = Some s' -> PoolInv s -> PoolInv s'.
Proof.
  unfold step_pool. destruct (pool_workers s !! i) as [p|] eqn:Hi; [|done]. intros H HI. pose proof HI as [H1 H2 H3 H4 H5].
  pose proof (fun f => count_lookup f _ _ _ Hi) as Pos.
  destruct p; try done; try (destruct (signal_free s); [|done]).
  1: destruct (jobs s) as [|job rest] eqn:J.
  all: injection H as <-; apply (pool_move s i _ _ _ _ _ _ HI Hi); cbn; try done; try lia; try by left.
  - by rewrite J.
  - rewrite H3. by rewrite <- app_assoc.
  - by destruct (jobs s).
  - by destruct (jobs s).
  - left. by destruct (jobs s).
  - pose proof (Pos counted eq_refl). lia.
  - pose proof (Pos counted eq_refl). lia.
  - by destruct (_ && _).
  - by destruct (_ && _).
  - left. destruct (jobs s); [done|]. by rewrite andb_false_r.
  - pose proof (Pos present eq_refl). lia.
  - by right.
Qed.

(** A notification that finds nobody asleep is not needed. *)
Lemma awake_or_waiting l : 0 < count staying l -> existsb (fun p => match p with Waiting => true | _ => false end) l = false -> 0 < count awake l.
Proof.
  induction l as [|a l IH]; cbn [existsb]; [done|]. rewrite !count_cons. intros H [E1 E2]%orb_false_iff. destruct a; cbn in *; auto with lia.
Qed.

Lemma notify_one_inv k chosen s s' : submitters s !! k = Some Notify ->
  notify_one chosen (set_submitters (delete k (submitters s)) s) = Some s' -> PoolInv s -> PoolInv s'.
Proof.
  intros Hk H [H1 H2 H3 H4 H5]. set (s1 := set_submitters (delete k (submitters s)) s) in *.
  assert (L : jobs s <> [] -> looked_after s1).
  { intros HJ. destruct (H4 HJ) as [G|G]; [|by right]. left. cbn.
    rewrite <- (take_drop_middle _ _ _ Hk) in G. rewrite delete_take_drop. set_solver. }
  unfold notify_one in H. change (pool_workers s1) with (pool_workers s) in H.
  destruct (pool_workers s !! chosen) as [p|] eqn:Hi; [destruct (decide (p = Waiting)) as [->|Hp]|].
  - injection H as <-. pose proof (count_insert counted _ _ _ (Woken false) Hi). pose proof (count_insert present _ _ _ (Woken false) Hi).
    pose proof (count_insert staying _ _ _ (Woken false) Hi) as E. cbn in *.
    split; cbn; [lia|lia|done| |]; intros HJ.
    + destruct (L HJ) as [G|G]; [by left|right]. cbn in *. lia.
    + right. cbn. apply (count_lookup _ _ chosen (Woken false)); [|done]. apply list_lookup_insert_eq. by apply lookup_lt_Some in Hi.
  - assert (Hs : (if existsb (fun p => match p with Waiting => true | _ => false end) (pool_workers s) then None else Some s1) = Some s') by (by destruct p).
    destruct (existsb _ _) eqn:E; [done|]. injection Hs as <-. split; try done. intros HJ.
    destruct (L HJ) as [G|G]; [left; intros F; rewrite F in G; inversion G|right; by apply awake_or_waiting].
  - destruct (existsb _ _) eqn:E; [done|]. injection H as <-. split; try done. intros HJ.
    destruct (L HJ) as [G|G]; [left; intros F; rewrite F in G; inversion G|right; by apply awake_or_waiting].
Qed.

Lemma step_submit_inv s k chosen s' : step_submit s k chosen = Some s' -> PoolInv s -> PoolInv s'.
Proof.
  unfold step_submit. intros H HI. pose proof HI as [H1 H2 H3 H4 H5]. destruct (submitters s !! k) as [[]|] eqn:Hk; [| |done].
  - assert (Hne : <[k := Notify]> (submitters s) <> []).
    { intros E. apply (f_equal length) in E. rewrite length_insert in E. apply lookup_lt_Some in Hk. cbn in E. lia. }
    injection H as <-. destruct (idle_count s =? 0) eqn:E; [apply Nat.eqb_eq in E|apply Nat.eqb_neq in E]; split; cbn; try done; try (intros _; by left).
    + rewrite count_app. unfold count at 2. cbn. lia.
    + rewrite count_app. unfold count at 2. cbn. lia.
    + intros _. right. cbn. rewrite count_app. unfold count at 2. cbn. lia.
    + intros _. right. cbn. assert (G : forall l, count counted l <= count staying l); [|specialize (G (pool_workers s)); lia].
      intros l. induction l as [|a l IH]; [done|]. rewrite !count_cons. destruct a; cbn; lia.
  - destruct (signal_free s); [|done]. by eapply notify_one_inv.
Qed.

Lemma pool_reachable_inv s : pool_reachable s -> PoolInv s.
Proof.
  induction 1 as [|s a s' _ IH H]; [by split|]. destruct a; cbn [pool_act] in H.
  - injection H as <-. destruct IH as [H1 H2 H3 H4 H5]. split; cbn; try done.
    + by rewrite H3, app_assoc.
    + intros _. left. cbn. set_solver.
    + intros _. left. cbn. by destruct (submitters s).
  - by eapply step_submit_inv.
  - by eapply step_pool_inv.
Qed.

(** ** The theorems *)

(** C35: Jobs start in the order in which they were submitted, each once, and no
    wakeup is lost: while a job is in the queue, some thread of the pool is on
    its way to the queue or runs an earlier job, after which it goes to the
    queue, unless a submitter has still to look for an idle thread or to
    notify one; never do all the threads sleep or leave beside a queued job.
    That a job runs while another one does not end is not claimed (it is false,
    [blocking_jobs_serialised]).  The counters are the numbers of idle threads
    and of threads. *)
Theorem queued_job_attended s : pool_reachable s ->
  submitted s = started s ++ jobs s /\
  (jobs s <> [] -> submitters s <> [] \/ exists i p, pool_workers s !! i = Some p /\ awake p = true) /\
  idle_count s = count counted (pool_workers s) /\ threads s = count present (pool_workers s).
Proof.
  intros [H1 H2 H3 H4 H5]%pool_reachable_inv. repeat (split; [done|]). split; [|done]. intros HJ.
  destruct (H5 HJ) as [G|G]; [by left|right]. unfold count in G.
  destruct (List.filter awake (pool_workers s)) as [|p l] eqn:E; [cbn in G; lia|].
  assert (F : In p (List.filter awake (pool_workers s))) by (rewrite E; by left). apply filter_In in F as [F1 F2].
  apply list_elem_of_In, list_elem_of_lookup_1 in F1 as [i Hi]. eauto.
Qed.

Definition pool_state (l : list PoolAction) : Pool := default BlockingPool_new (pool_run BlockingPool_new l).

Lemma pool_run_reachable l s s' : pool_reachable s -> pool_run s l = Some s' -> pool_reachable s'.
Proof.
  revert s. induction l as [|a l IH]; intros s Hs H; cbn in H; [by injection H as <-|].
  destruct (pool_act s a) as [s1|] eqn:E; [|done]. apply (IH s1); [|done]. by eapply pool_next.
Qed.

(** A thread waits for a job and is notified of one; a second is submitted before it
    wakes, while it still counts as idle. *)
Definition two_jobs : list PoolAction :=
  [Submit 1; SubmitStep 0 0; PoolStep 0 false; PoolStep 0 false; SubmitStep 0 0;
   PoolStep 0 false; PoolStep 0 false; PoolStep 0 false; PoolStep 0 false;
   Submit 2; SubmitStep 0 0; SubmitStep 0 0; Submit 3; SubmitStep 0 0; SubmitStep 0 0;
   PoolStep 0 false; PoolStep 0 false; PoolStep 0 false; PoolStep 0 false].

Lemma two_jobs_reachable : pool_reachable (pool_state two_jobs).
Proof. apply (pool_run_reachable two_jobs BlockingPool_new); [exact pool_new|vm_compute; reflexivity]. Qed.

Lemma queued_job_attended_witness : submitted (pool_state two_jobs) = [1; 2] ++ [3] /\
  exists i p, pool_workers (pool_state two_jobs) !! i = Some p /\ awake p = true.
Proof.
  destruct (queued_job_attended (pool_state two_jobs) two_jobs_reachable) as (H1 & H2 & _). split; [exact H1|].
  destruct H2 as [H|H]; [by vm_compute| |exact H]. exfalso. apply H. by vm_compute.
Defined.

(** The two jobs run one after the other: the second waits for the end of the first,
    since nothing but the thread that runs the first, or another submission, can act. *)
Example blocking_jobs_serialised :
  jobs (pool_state two_jobs) = [3] /\ pool_workers (pool_state two_jobs) = [RunJob 2] /\
  forall a, pool_act (pool_state two_jobs) a <> None -> (exists j, a = Submit j) \/ exists b, a = PoolStep 0 b.
Proof.
  split; [reflexivity|]. split; [reflexivity|]. intros [j|k c|[|i] b] H; [by left; exists j| |by right; exists b|].
  - by destruct k.
  - by destruct i.
Qed.
