(* ===== verification/Bytes.v ===== *)
(** Little-endian bytes: [to_le_bytes], [from_le_bytes] and the slices of a
    [Vec<u8>] that the runtime's sorting and the compile-time machine use.

    A byte is a [Z] between 0 and 255. *)
From S2P Require Import Prelude.
Open Scope Z_scope.

Definition is_byte (b : Z) : Prop := 0 <= b < 256.
Abbreviation bytes_ok l := (Forall is_byte l).

(** The low [n] bytes of [v], least significant first. *)
Fixpoint le_bytes (n : nat) (v : Z) : list Z :=
  match n with
  | O => []
  | S n => v mod 256 :: le_bytes n (v / 256)
  end.

Fixpoint le_value (l : list Z) : Z :=
  match l with
  | [] => 0
  | b :: l => b + 256 * le_value l
  end.

(** The slice [l[offset..offset + len]] and its replacement
    ([copy_from_slice]); the callers check the bounds. *)
Definition sub_bytes (l : list Z) (offset len : nat) : list Z := take len (drop offset l).
Definition put_bytes (l : list Z) (offset : nat) (v : list Z) : list Z :=
  take offset l ++ v ++ drop (offset + length v) l.

Definition zeros (n : nat) : list Z := replicate n 0.

Lemma le_bytes_length n v : length (le_bytes n v) = n.
Proof. revert v. induction n as [|n IH]; intros v; simpl; [done|]. by rewrite IH. Qed.

Lemma le_bytes_ok n v : bytes_ok (le_bytes n v).
Proof.
  revert v. induction n as [|n IH]; intros v; simpl; constructor; [|apply IH].
  apply Z.mod_pos_bound. lia.
Qed.

Lemma pow256_S n : 256 ^ Z.of_nat (S n) = 256 * 256 ^ Z.of_nat n.
Proof. rewrite Nat2Z.inj_succ, Z.pow_succ_r by lia. done. Qed.

Lemma le_value_bytes n v : le_value (le_bytes n v) = v mod 256 ^ Z.of_nat n.
Proof.
  revert v. induction n as [|n IH]; intros v; cbn [le_bytes le_value]; [by rewrite Z.mod_1_r|].
  rewrite IH, pow256_S, Z.rem_mul_r; [lia|lia|]. apply Z.pow_pos_nonneg; lia.
Qed.

Lemma le_value_range l : bytes_ok l -> 0 <= le_value l < 256 ^ Z.of_nat (length l).
Proof.
  induction 1 as [|b l Hb H IH]; cbn [le_value length]; [done|].
  rewrite pow256_S. unfold is_byte in Hb. lia.
Qed.

Lemma le_bytes_value l : bytes_ok l -> le_bytes (length l) (le_value l) = l.
Proof.
  induction 1 as [|b l Hb H IH]; cbn [length le_bytes le_value]; [done|].
  unfold is_byte in Hb. rewrite (Z.mul_comm 256), Z.mod_add, Z.div_add by lia.
  rewrite Z.mod_small, (Z.div_small b), Z.add_0_l, IH by lia. done.
Qed.

Lemma le_bytes_mod n v w : v mod 256 ^ Z.of_nat n = w mod 256 ^ Z.of_nat n -> le_bytes n v = le_bytes n w.
Proof.
  intros H. rewrite <- !le_value_bytes in H.
  rewrite <- (le_bytes_value (le_bytes n v)), <- (le_bytes_value (le_bytes n w)) by apply le_bytes_ok.
  by rewrite H, !le_bytes_length.
Qed.

Lemma le_value_app a b : le_value (a ++ b) = le_value a + 256 ^ Z.of_nat (length a) * le_value b.
Proof. induction a as [|x a IH]; cbn [app le_value length]; [lia|]. rewrite IH, pow256_S. lia. Qed.

Lemma le_value_zeros n : le_value (zeros n) = 0.
Proof. unfold zeros. induction n as [|n IH]; cbn [replicate le_value]; lia. Qed.

Lemma zeros_ok n : bytes_ok (zeros n).
Proof. unfold zeros. apply Forall_replicate. by unfold is_byte. Qed.

Lemma sub_bytes_length l offset len : (offset + len <= length l)%nat -> length (sub_bytes l offset len) = len.
Proof. intros H. unfold sub_bytes. rewrite length_take, length_drop. lia. Qed.

Lemma sub_bytes_ok l offset len : bytes_ok l -> bytes_ok (sub_bytes l offset len).
Proof. intros H. by apply Forall_take, Forall_drop. Qed.

Lemma put_bytes_length l offset v : (offset + length v <= length l)%nat -> length (put_bytes l offset v) = length l.
Proof. intros H. unfold put_bytes. rewrite !length_app, length_take, length_drop. lia. Qed.

Lemma put_bytes_ok l offset v : bytes_ok l -> bytes_ok v -> bytes_ok (put_bytes l offset v).
Proof. intros Hl Hv. unfold put_bytes. rewrite !Forall_app. split_and!; [by apply Forall_take|done|by apply Forall_drop]. Qed.

Lemma sub_put_same l offset v :
  (offset + length v <= length l)%nat -> sub_bytes (put_bytes l offset v) offset (length v) = v.
Proof.
  intros H. unfold sub_bytes, put_bytes. rewrite drop_app_length' by (rewrite length_take; lia).
  by rewrite take_app_length.
Qed.

Lemma put_bytes_lookup l offset v i :
  (offset + length v <= length l)%nat ->
  put_bytes l offset v !! i =
    if (offset <=? i)%nat && (i <? offset + length v)%nat then v !! (i - offset)%nat else l !! i.
Proof.
  intros H. unfold put_bytes.
  destruct (Nat.leb_spec offset i); cbn [andb].
  - rewrite lookup_app_r by (rewrite length_take; lia). rewrite length_take, Nat.min_l by lia.
    destruct (Nat.ltb_spec i (offset + length v)).
    + by rewrite lookup_app_l by lia.
    + rewrite lookup_app_r, lookup_drop by lia. f_equal. lia.
  - rewrite lookup_app_l by (rewrite length_take; lia). by rewrite lookup_take_lt.
Qed.

Lemma sub_bytes_lookup l offset len i :
  sub_bytes l offset len !! i = if (i <? len)%nat then l !! (offset + i)%nat else None.
Proof.
  unfold sub_bytes. destruct (Nat.ltb_spec i len).
  - by rewrite lookup_take_lt, lookup_drop.
  - by apply lookup_take_ge.
Qed.

Lemma sub_put_other l offset v offset' len :
  (offset + length v <= length l)%nat -> (offset' + len <= offset \/ offset + length v <= offset')%nat ->
  sub_bytes (put_bytes l offset v) offset' len = sub_bytes l offset' len.
Proof.
  intros H Hd. apply list_eq. intros i. rewrite !sub_bytes_lookup.
  destruct (Nat.ltb_spec i len); [|done]. rewrite put_bytes_lookup by done.
  destruct (Nat.leb_spec offset (offset' + i)), (Nat.ltb_spec (offset' + i) (offset + length v)); simpl; try done. lia.
Qed.

#[export] Hint Resolve le_bytes_ok zeros_ok sub_bytes_ok put_bytes_ok : paco.
#[export] Hint Rewrite le_bytes_length : paco.
