(* ===== verification/Text.v ===== *)
(** Strings of compiled programs: [runtime/paco-runtime/src/text.rs].

    A [&[u8]] is a list of bytes, an [i64] position a [Z].  A text is the UTF-8
    encoding of a list of chars; the theorems say that the byte-level functions
    are the char-level operations on texts. *)
From S2P Require Import Prelude.
Open Scope Z_scope.

(** [encode_char]: the buffer and the length. *)
Definition encode_char (c : Z) : list Z * nat :=
  let byte z := wrap 8 z in
  if c <? 0x80 then ([byte c; 0; 0; 0], 1%nat)
  else if c <? 0x800 then
    ([byte (Z.lor 0xC0 (Z.shiftr c 6)); byte (Z.lor 0x80 (Z.land c 0x3F)); 0; 0], 2%nat)
  else if c <? 0x10000 then
    ([byte (Z.lor 0xE0 (Z.shiftr c 12)); byte (Z.lor 0x80 (Z.land (Z.shiftr c 6) 0x3F));
      byte (Z.lor 0x80 (Z.land c 0x3F)); 0], 3%nat)
  else
    ([byte (Z.lor 0xF0 (Z.shiftr c 18)); byte (Z.lor 0x80 (Z.land (Z.shiftr c 12) 0x3F));
      byte (Z.lor 0x80 (Z.land (Z.shiftr c 6) 0x3F)); byte (Z.lor 0x80 (Z.land c 0x3F))], 4%nat).

Definition len (s : list Z) : Z := Z.of_nat (length s).

Definition is_boundary (s : list Z) (pos : Z) : bool :=
  (pos =? 0) || (pos =? len s) ||
  ((0 <? pos) && (pos <? len s) &&
   match s !! Z.to_nat pos with Some b => negb (Z.land b 0xC0 =? 0x80) | None => false end).

Definition char_width (lead : Z) : Z :=
  if lead <? 0x80 then 1 else if 0xF0 <=? lead then 4 else if 0xE0 <=? lead then 3 else 2.

(** The indexing [s[pos as usize]] is guarded by the length. *)
Definition next_char_boundary (s : list Z) (pos : Z) : Z :=
  if (pos <? 0) || (len s <=? pos) then pos
  else match s !! Z.to_nat pos with Some b => pos + char_width b | None => pos end.

Definition char_at (s : list Z) (pos : Z) : option Z :=
  if (pos <? 0) || (len s <=? pos) || negb (is_boundary s pos) then None
  else
    match drop (Z.to_nat pos) s with
    | [] => None
    | lead :: rest =>
        let width := char_width lead in
        let c := if width =? 1 then lead else Z.land lead (Z.shiftr 0x7F width) in
        Some (fold_left (fun c byte => Z.lor (wrap 32 (Z.shiftl c 6)) (Z.land byte 0x3F))
                (take (Z.to_nat width - 1) rest) c)
    end.

Definition byte_at (s : list Z) (pos : Z) : option Z :=
  if (0 <=? pos) && (pos <? len s) then s !! Z.to_nat pos else None.

Definition subrange (s : list Z) (start end_ : Z) : list Z :=
  take (Z.to_nat end_ - Z.to_nat start) (drop (Z.to_nat start) s).

Definition slice_utf8 (s : list Z) (start end_ : Z) : option (list Z) :=
  if (start <? 0) || (end_ <? start) || (len s <? end_) || negb (is_boundary s start) || negb (is_boundary s end_)
  then None else Some (subrange s start end_).

(** [std::str::from_utf8(..).is_ok()]: the table of well-formed sequences. *)
Definition cont (b : Z) : bool := (0x80 <=? b) && (b <=? 0xBF).

Fixpoint from_utf8 (s : list Z) : bool :=
  match s with
  | [] => true
  | a :: s1 =>
      if a <? 0x80 then from_utf8 s1
      else match s1 with
      | [] => false
      | b :: s2 =>
          if (0xC2 <=? a) && (a <=? 0xDF) then cont b && from_utf8 s2
          else match s2 with
          | [] => false
          | c :: s3 =>
              if (0xE0 <=? a) && (a <=? 0xEF) then
                (if a =? 0xE0 then (0xA0 <=? b) && (b <=? 0xBF)
                 else if a =? 0xED then (0x80 <=? b) && (b <=? 0x9F) else cont b)
                && cont c && from_utf8 s3
              else match s3 with
              | [] => false
              | d :: s4 =>
                  (0xF0 <=? a) && (a <=? 0xF4)
                  && (if a =? 0xF0 then (0x90 <=? b) && (b <=? 0xBF)
                      else if a =? 0xF4 then (0x80 <=? b) && (b <=? 0x8F) else cont b)
                  && cont c && cont d && from_utf8 s4
              end
          end
      end
  end.

Definition from_utf8_range (bytes : list Z) (start end_ : Z) : option (list Z) :=
  if (start <? 0) || (end_ <? start) || (len bytes <? end_) then None
  else
    let range := subrange bytes start end_ in
    if from_utf8 range then Some range else None.

Definition fnv_step (hash byte : Z) : Z := wrap 64 (Z.lxor hash byte * 0x100000001b3).
Definition hash_bytes (bytes : list Z) : Z := fold_left fnv_step bytes 0xcbf29ce484222325.

Definition int_to_string (value : Z) : string := show_Z value.
Definition uint_to_string (value : Z) : string := show_Z value.
Definition bool_to_string (value : bool) : string := if value then "true" else "false".

(** ** Texts *)

(** The bytes of a text. *)
Definition encode (cs : str) : list Z := concat (map utf8_bytes cs).
Abbreviation text cs := (Forall (fun c => is_char c = true) cs).

(** *** Bits *)

Lemma byte_cases (P : Z -> bool) b :
  forallb P (map Z.of_nat (seq 0 256)) = true -> is_byte b -> P b = true.
Proof.
  intros HP Hb. rewrite forallb_elem in HP. apply HP. unfold is_byte in Hb.
  rewrite <-(Z2Nat.id b) by lia. apply list_elem_of_fmap_2, elem_of_seq. lia.
Qed.

(** The bit test of [is_boundary] is the range of continuation bytes. *)
Lemma cont_bits b : is_byte b -> (Z.land b 0xC0 =? 0x80) = cont b.
Proof.
  intros Hb. apply eqb_prop. revert Hb. apply (byte_cases (fun b => eqb (Z.land b 0xC0 =? 0x80) (cont b))). by vm_compute.
Qed.

(** One byte of the decoding loop. *)
Lemma decode_step c b r :
  0 <= c < 2 ^ 26 -> 0 <= r < 64 -> b = 0x80 + r ->
  Z.lor (wrap 32 (Z.shiftl c 6)) (Z.land b 0x3F) = c * 64 + r.
Proof.
  intros Hc Hr ->. rewrite Z.shiftl_mul_pow2 by lia. unfold wrap. rewrite Z.mod_small by lia.
  change 0x3F with (2 ^ 6 - 1). rewrite land_low by lia.
  replace ((128 + r) mod 2 ^ 6) with r by divs.
  apply lor_add; lia.
Qed.

Local Ltac char_bits :=
  unfold wrap; rewrite ?Z.shiftr_div_pow2 by lia;
  change 0x3F with (2 ^ 6 - 1); rewrite ?land_low by lia;
  change 0xC0 with (3 * 2 ^ 6); change 0xE0 with (7 * 2 ^ 5); change 0xF0 with (15 * 2 ^ 4); change 0x80 with (2 * 2 ^ 6);
  rewrite ?lor_add by divs;
  rewrite ?(Z.mod_small _ (2 ^ 8)) by divs;
  repeat f_equal; divs.

Lemma encode_char_bytes c :
  is_char c = true -> (encode_char c).2 = length (utf8_bytes c) /\ take (encode_char c).2 (encode_char c).1 = utf8_bytes c.
Proof.
  intros Hc%is_char_range. unfold encode_char, utf8_bytes.
  destruct (Z.ltb_spec c 0x80); [|destruct (Z.ltb_spec c 0x800); [|destruct (Z.ltb_spec c 0x10000)]];
    (split; [done|]); cbn [fst snd take].
  - char_bits.
  - char_bits.
  - char_bits.
  - char_bits.
Qed.

(** *** One char *)

Definition lead_value (lead : Z) : Z :=
  if char_width lead =? 1 then lead else Z.land lead (Z.shiftr 0x7F (char_width lead)).
Definition decode_tail (c : Z) (bs : list Z) : Z :=
  fold_left (fun c byte => Z.lor (wrap 32 (Z.shiftl c 6)) (Z.land byte 0x3F)) bs c.

Lemma lead_value_mod lead w : char_width lead = w -> 2 <= w <= 4 -> lead_value lead = lead mod 2 ^ (7 - w).
Proof.
  intros Hw H. unfold lead_value. rewrite Hw. destruct (Z.eqb_spec w 1); [lia|].
  change 0x7F with (Z.ones 7). rewrite <-Z.land_ones by lia. f_equal.
  assert (w = 2 \/ w = 3 \/ w = 4) as [->|[->| ->]] by lia; reflexivity.
Qed.

Local Ltac wide_char c w :=
  match goal with |- cont ?lead = false /\ _ =>
    assert (char_width lead = w) as Hw by (unfold char_width; repeat case_match; divs) end;
  split; [unfold cont; divs|]; split; [repeat constructor; unfold cont; divs|]; split; [done|];
  rewrite (lead_value_mod _ w) by (done || lia); unfold decode_tail; cbn [fold_left];
  repeat match goal with |- context [Z.lor _ (Z.land (128 + ?r) _)] =>
    rewrite (decode_step _ (128 + r) r) by (reflexivity || divs) end; divs.

(** A char is a lead byte that knows its width, then continuation bytes, and
    the decoding loop gives it back. *)
Lemma utf8_char c :
  is_char c = true -> exists lead tail,
    utf8_bytes c = lead :: tail /\ cont lead = false /\ Forall (fun b => cont b = true) tail /\
    char_width lead = len (lead :: tail) /\ decode_tail (lead_value lead) tail = c.
Proof.
  intros Hc%is_char_range. unfold utf8_bytes, len.
  destruct (Z.ltb_spec c 0x80); [|destruct (Z.ltb_spec c 0x800); [|destruct (Z.ltb_spec c 0x10000)]];
    (eexists _, _; split; [reflexivity|]).
  - unfold cont, char_width, lead_value, char_width. destruct (Z.ltb_spec c 128); [|lia].
    split_and!; [lia|constructor|done|done].
  - wide_char c 2.
  - wide_char c 3.
  - wide_char c 4.
Qed.

(** *** Boundaries *)

Lemma encode_app xs ys : encode (xs ++ ys) = encode xs ++ encode ys.
Proof. unfold encode. by rewrite map_app, concat_app. Qed.

Lemma encode_bytes cs : text cs -> Forall is_byte (encode cs).
Proof.
  induction 1 as [|c cs Hc _ IH]; [constructor|].
  change (encode (c :: cs)) with (utf8_bytes c ++ encode cs). apply Forall_app. split; [by apply utf8_bytes_bytes|done].
Qed.

(** A position of a text is between two chars when it is the end or holds no
    continuation byte. *)
Lemma boundary_split cs n :
  text cs ->
  (n = length (encode cs) \/ exists b, encode cs !! n = Some b /\ cont b = false) <->
  exists pre post, cs = pre ++ post /\ n = length (encode pre).
Proof.
  intros Ht. split.
  - revert n; induction Ht as [|c cs Hc Ht IH]; intros n H.
    + exists [], []. destruct H as [->|(b & Hb & _)]; [done|]. by destruct n.
    + change (encode (c :: cs)) with (utf8_bytes c ++ encode cs) in H.
      destruct (utf8_char c Hc) as (lead & tail & Hu & _ & Htail & _ & _).
      destruct (decide (n = 0%nat)) as [->|Hn]; [by exists [], (c :: cs)|].
      destruct (decide (n < length (utf8_bytes c))%nat) as [Hlt|Hge].
      * exfalso. destruct H as [->|(b & Hb & Hcb)]; [rewrite length_app in Hlt; lia|].
        rewrite lookup_app_l in Hb by done. rewrite Hu in Hb. destruct n as [|n]; [done|]. simpl in Hb.
        rewrite Forall_lookup in Htail. specialize (Htail n b Hb). simpl in Htail. congruence.
      * destruct (IH (n - length (utf8_bytes c))%nat) as (pre & post & -> & Hl).
        { destruct H as [->|(b & Hb & Hcb)]; [left; rewrite length_app; lia|right; exists b].
          by rewrite lookup_app_r in Hb by lia. }
        exists (c :: pre), post. split; [done|].
        change (encode (c :: pre)) with (utf8_bytes c ++ encode pre). rewrite length_app. lia.
  - intros (pre & [|c post] & -> & ->); [left; by rewrite app_nil_r|right].
    apply Forall_app in Ht as [_ Ht]. inversion Ht as [|? ? Hc _]; subst.
    destruct (utf8_char c Hc) as (lead & tail & Hu & Hl & _). exists lead. split; [|done].
    rewrite encode_app, lookup_app_r, Nat.sub_diag by lia. simpl. unfold encode; simpl. by rewrite Hu.
Qed.

Lemma is_boundary_spec cs pos :
  text cs ->
  is_boundary (encode cs) pos = true <-> exists pre post, cs = pre ++ post /\ pos = len (encode pre).
Proof.
  intros Ht. unfold is_boundary, len. split.
  - rewrite !orb_true_iff. intros [[H|H]|H].
    + exists [], cs. split; [done|]. simpl. lia.
    + exists cs, []. rewrite app_nil_r. split; [done|]. lia.
    + apply andb_prop in H as [H Hb]. destruct (encode cs !! Z.to_nat pos) as [b|] eqn:E; [|done].
      rewrite cont_bits in Hb by (eapply Forall_lookup_1; [by apply encode_bytes|exact E]).
      destruct (proj1 (boundary_split cs (Z.to_nat pos) Ht)) as (pre & post & -> & Hp).
      { right. exists b. split; [done|]. by destruct (cont b). }
      exists pre, post. split; [done|]. lia.
  - intros (pre & post & Hcs & ->). rewrite !orb_true_iff.
    destruct (proj2 (boundary_split cs (length (encode pre)) Ht)) as [->|(b & Hb & Hc)]; [by exists pre, post|left; right; lia|].
    pose proof (lookup_lt_Some _ _ _ Hb) as Hlt.
    destruct (decide (length (encode pre) = 0%nat)) as [H0|Hne]; [left; left; by rewrite H0|right].
    rewrite Nat2Z.id, Hb, cont_bits, Hc by (eapply Forall_lookup_1; [by apply encode_bytes|exact Hb]). simpl. lia.
Qed.

(** *** The operations on texts *)

Lemma len_app xs ys : len (xs ++ ys) = len xs + len ys.
Proof. unfold len. rewrite length_app. lia. Qed.

Lemma subrange_app xs ys zs : subrange (xs ++ ys ++ zs) (len xs) (len (xs ++ ys)) = ys.
Proof.
  unfold subrange, len. rewrite !Nat2Z.id, length_app, drop_app_length.
  replace (length xs + length ys - length xs)%nat with (length ys) by lia. apply take_app_length.
Qed.

Lemma char_at_start cs pre c post :
  text cs -> cs = pre ++ c :: post ->
  char_at (encode cs) (len (encode pre)) = Some c /\
  next_char_boundary (encode cs) (len (encode pre)) = len (encode (pre ++ [c])).
Proof.
  intros Ht Hcs.
  assert (is_boundary (encode cs) (len (encode pre)) = true) as Hb by (apply is_boundary_spec; eauto).
  pose proof Ht as Ht'. rewrite Hcs in Ht'. apply Forall_app in Ht' as [_ Ht'%Forall_cons_1]. destruct Ht' as [Hc _].
  destruct (utf8_char c Hc) as (lead & tail & Hu & _ & _ & Hw & Hd).
  assert (encode cs = encode pre ++ (lead :: tail) ++ encode post) as He.
  { rewrite Hcs, encode_app. unfold encode at 2; simpl. by rewrite Hu. }
  assert (len (encode cs) = len (encode pre) + char_width lead + len (encode post)) as Hl by (rewrite He, !len_app, Hw; lia).
  assert (0 <= len (encode pre) < len (encode cs)) as Hr by (rewrite Hl, Hw; unfold len; simpl; lia).
  unfold char_at, next_char_boundary. rewrite Hb.
  destruct (Z.ltb_spec (len (encode pre)) 0); [lia|]. destruct (Z.leb_spec (len (encode cs)) (len (encode pre))); [lia|].
  assert (drop (Z.to_nat (len (encode pre))) (encode cs) = lead :: tail ++ encode post) as Hdrop
    by (rewrite He; unfold len; by rewrite Nat2Z.id, drop_app_length).
  assert (encode cs !! Z.to_nat (len (encode pre)) = Some lead) as Hlook
    by (rewrite <-(Nat.add_0_r (Z.to_nat _)), <-lookup_drop, Hdrop; done).
  simpl. rewrite Hdrop, Hlook. split.
  - rewrite <-Hd, Hw. unfold decode_tail, lead_value. rewrite Hw. f_equal. f_equal. unfold len; simpl.
    replace (Z.to_nat (Z.of_nat (S (length tail))) - 1)%nat with (length tail) by lia. apply take_app_length.
  - rewrite encode_app, len_app, Hw. unfold encode at 3; simpl. by rewrite app_nil_r, Hu.
Qed.

(** [encode_char] writes the UTF-8 encoding of a char; at the start of a char
    of a text, [char_at] reads it back and [next_char_boundary] steps over
    exactly it, and everywhere else, inside a char or out of range, [char_at]
    answers nothing: a loop from [0] visits the chars of the text, in order. *)
Theorem chars_of_text cs pos :
  text cs ->
  (forall c, c ∈ cs -> take (encode_char c).2 (encode_char c).1 = utf8_bytes c) /\
  (forall pre c post, cs = pre ++ c :: post -> pos = len (encode pre) ->
     char_at (encode cs) pos = Some c /\ next_char_boundary (encode cs) pos = len (encode (pre ++ [c]))) /\
  (char_at (encode cs) pos = None <-> forall pre c post, cs = pre ++ c :: post -> pos <> len (encode pre)).
Proof.
  intros Ht. split; [intros c Hc; apply encode_char_bytes; by eapply Forall_forall in Ht|].
  assert (forall pre c post, cs = pre ++ c :: post -> pos = len (encode pre) ->
     char_at (encode cs) pos = Some c /\ next_char_boundary (encode cs) pos = len (encode (pre ++ [c]))) as Hat.
  { intros pre c post Hcs ->. by eapply char_at_start. }
  split; [exact Hat|]. split.
  - intros Hn pre c post Hcs Hp. destruct (Hat pre c post Hcs Hp). congruence.
  - intros Hn. unfold char_at. destruct (is_boundary (encode cs) pos) eqn:Hb; [|by rewrite orb_true_r].
    apply is_boundary_spec in Hb as (pre & [|c post] & Hcs & ->); [|by destruct (Hn pre c post Hcs)|done].
    rewrite app_nil_r in Hcs. subst pre. by rewrite Z.leb_refl, orb_true_r.
Qed.

Lemma utf8_bytes_nonempty c : utf8_bytes c <> [].
Proof. unfold utf8_bytes. by repeat case_match. Qed.

Lemma encode_nil cs : encode cs = [] -> cs = [].
Proof.
  destruct cs as [|c cs]; [done|]. unfold encode; simpl. intros [H _]%app_nil. by destruct (utf8_bytes_nonempty c).
Qed.

(** [slice_utf8] on a text gives the encoding of the chars between two char
    boundaries, and nothing unless both ends are such boundaries in order; so
    its result is always a text. *)
Theorem slice_of_text cs start end_ bs :
  text cs ->
  slice_utf8 (encode cs) start end_ = Some bs <->
  exists pre mid post, cs = pre ++ mid ++ post /\ start = len (encode pre) /\ end_ = len (encode (pre ++ mid)) /\
    bs = encode mid.
Proof.
  intros Ht. unfold slice_utf8. split.
  - destruct (is_boundary (encode cs) start) eqn:Hs; [|by rewrite orb_true_r].
    destruct (is_boundary (encode cs) end_) eqn:He; [|by rewrite orb_true_r].
    destruct (Z.ltb_spec end_ start) as [|Hle]; [by rewrite orb_true_r|]. case_match; [done|]. intros [= <-].
    apply (is_boundary_spec cs start Ht) in Hs as (p1 & q1 & E1 & ->).
    apply (is_boundary_spec cs end_ Ht) in He as (p2 & q2 & E2 & ->).
    rewrite E1 in E2. apply app_eq_inv in E2 as [(k & -> & Hq)|(k & -> & Hq)].
    + assert (k = []) as ->.
      { apply encode_nil. rewrite encode_app, len_app in Hle. destruct (encode k); [done|]. unfold len in Hle; simpl in Hle; lia. }
      rewrite app_nil_r in *. simpl in Hq; subst q2. exists p2, [], q1. rewrite app_nil_r. split_and!; try done.
      rewrite E1, encode_app. pose proof (subrange_app (encode p2) [] (encode q1)) as Hr. by rewrite app_nil_r in Hr.
    + subst q1. exists p1, k, q2. split_and!; [done..|]. rewrite E1, !encode_app. apply subrange_app.
  - intros (pre & mid & post & -> & -> & -> & ->).
    assert (is_boundary (encode (pre ++ mid ++ post)) (len (encode pre)) = true) as -> by (apply is_boundary_spec; eauto).
    assert (is_boundary (encode (pre ++ mid ++ post)) (len (encode (pre ++ mid))) = true) as ->
      by (apply is_boundary_spec; [done|]; exists (pre ++ mid), post; by rewrite app_assoc).
    rewrite !encode_app, subrange_app, !len_app.
    assert (forall bs, 0 <= len bs) as Hpos by (unfold len; lia).
    pose proof (Hpos (encode pre)); pose proof (Hpos (encode mid)); pose proof (Hpos (encode post)).
    simpl. rewrite !orb_false_r. by case_match; [lia|].
Qed.

(** *** Validity *)

(** Decides the comparisons of bytes, one at a time. *)
Local Ltac decide_bytes :=
  repeat (match goal with
    | |- context [?x <? ?y] => first [replace (x <? y) with true by divs | replace (x <? y) with false by divs]
    | |- context [?x <=? ?y] => first [replace (x <=? y) with true by divs | replace (x <=? y) with false by divs
                                       | destruct (Z.leb_spec x y)]
    | |- context [?x =? ?y] => first [replace (x =? y) with true by divs | replace (x =? y) with false by divs
                                      | destruct (Z.eqb_spec x y)]
    end; cbn [andb negb]); done.

Lemma from_utf8_char c rest : is_char c = true -> from_utf8 (utf8_bytes c ++ rest) = from_utf8 rest.
Proof.
  intros Hc. assert (Hr := is_char_range c Hc). unfold is_char in Hc. unfold utf8_bytes.
  destruct (Z.ltb_spec c 0x80); [|destruct (Z.ltb_spec c 0x800); [|destruct (Z.ltb_spec c 0x10000)]]; simpl.
  - destruct (Z.ltb_spec c 128); [done|lia].
  - unfold cont. decide_bytes.
  - unfold cont. decide_bytes.
  - unfold cont. decide_bytes.
Qed.

(** The char of a well-formed sequence. *)
Lemma seq2 a b : 0xC2 <= a <= 0xDF -> cont b = true ->
  exists c, is_char c = true /\ utf8_bytes c = [a; b].
Proof.
  unfold cont. intros Ha Hb. exists ((a - 0xC0) * 64 + (b - 0x80)). unfold is_char, utf8_bytes.
  split; [lia|]. repeat case_match; try lia. repeat f_equal; divs.
Qed.

Lemma seq3 a b c : 0xE0 <= a <= 0xEF ->
  (if a =? 0xE0 then (0xA0 <=? b) && (b <=? 0xBF) else if a =? 0xED then (0x80 <=? b) && (b <=? 0x9F) else cont b) = true ->
  cont c = true -> exists x, is_char x = true /\ utf8_bytes x = [a; b; c].
Proof.
  unfold cont. intros Ha Hb Hc. exists ((a - 0xE0) * 4096 + (b - 0x80) * 64 + (c - 0x80)). unfold is_char, utf8_bytes.
  assert (0x80 <= b <= 0xBF) by (repeat case_match; lia).
  split; [repeat case_match; lia|]. repeat case_match; try lia; repeat f_equal; divs.
Qed.

Lemma seq4 a b c d : 0xF0 <= a <= 0xF4 ->
  (if a =? 0xF0 then (0x90 <=? b) && (b <=? 0xBF) else if a =? 0xF4 then (0x80 <=? b) && (b <=? 0x8F) else cont b) = true ->
  cont c = true -> cont d = true -> exists x, is_char x = true /\ utf8_bytes x = [a; b; c; d].
Proof.
  unfold cont. intros Ha Hb Hc Hd.
  exists ((a - 0xF0) * 262144 + (b - 0x80) * 4096 + (c - 0x80) * 64 + (d - 0x80)). unfold is_char, utf8_bytes.
  assert (0x80 <= b <= 0xBF) by (repeat case_match; lia).
  split; [repeat case_match; lia|]. repeat case_match; try lia; repeat f_equal; divs.
Qed.

(** A prefix that is one char leaves the rest to decode. *)
Lemma decodes_cons x u s :
  is_char x = true -> utf8_bytes x = u -> (exists cs, text cs /\ s = encode cs) ->
  exists cs, text cs /\ u ++ s = encode cs.
Proof. intros Hx <- (cs & Ht & ->). exists (x :: cs). split; [by constructor|done]. Qed.

Lemma from_utf8_decodes n bs :
  (length bs <= n)%nat -> Forall is_byte bs -> from_utf8 bs = true -> exists cs, text cs /\ bs = encode cs.
Proof.
  revert bs; induction n as [|n IH]; intros bs Hn Hb; [destruct bs; [by exists []|simpl in Hn; lia]|].
  destruct bs as [|a s1]; [by exists []|]. simpl in Hn. apply Forall_cons in Hb as [Ha Hb]. simpl.
  destruct (Z.ltb_spec a 128) as [H1|H1].
  { intros H. apply (decodes_cons a [a] s1); [unfold is_byte, is_char in *; lia| |apply IH; [lia|done..]].
    unfold utf8_bytes. destruct (Z.ltb_spec a 128); [done|lia]. }
  destruct s1 as [|b s2]; [done|]. apply Forall_cons in Hb as [_ Hb]. simpl in Hn.
  destruct ((0xC2 <=? a) && (a <=? 0xDF)) eqn:H2.
  { intros [Hc H]%andb_prop. destruct (seq2 a b) as (x & Hx & Hu); [lia|done|].
    apply (decodes_cons x [a; b] s2 Hx Hu). apply IH; [lia|done..]. }
  destruct s2 as [|c s3]; [done|]. apply Forall_cons in Hb as [_ Hb]. simpl in Hn.
  destruct ((0xE0 <=? a) && (a <=? 0xEF)) eqn:H3.
  { intros [[H4 Hc]%andb_prop H]%andb_prop. destruct (seq3 a b c) as (x & Hx & Hu); [lia|done..|].
    apply (decodes_cons x [a; b; c] s3 Hx Hu). apply IH; [lia|done..]. }
  destruct s3 as [|d s4]; [done|]. apply Forall_cons in Hb as [_ Hb]. simpl in Hn.
  intros [[[[Hr H4]%andb_prop Hc]%andb_prop Hd]%andb_prop H]%andb_prop.
  destruct (seq4 a b c d) as (x & Hx & Hu); [lia|done..|].
  apply (decodes_cons x [a; b; c; d] s4 Hx Hu). apply IH; [lia|done..].
Qed.

(** [from_utf8_range] gives a range of bytes exactly when the range is in
    bounds and is the encoding of a list of chars: no overlong form, no
    surrogate and no truncated char passes. *)
Theorem utf8_range_valid bytes start end_ r :
  Forall is_byte bytes ->
  from_utf8_range bytes start end_ = Some r <->
  0 <= start <= end_ /\ end_ <= len bytes /\ r = subrange bytes start end_ /\ exists cs, text cs /\ r = encode cs.
Proof.
  intros Hb. unfold from_utf8_range. split.
  - case_match eqn:E; [done|]. apply orb_false_iff in E as [[E1 E2]%orb_false_iff E3].
    case_match eqn:H; [|done]. intros [= <-]. split_and!; [lia..|done|].
    apply (from_utf8_decodes _ _ (le_n _)); [|done]. unfold subrange. by apply Forall_take, Forall_drop.
  - intros (Hs & He & -> & cs & Ht & Hcs). case_match eqn:E; [lia|].
    assert (from_utf8 (subrange bytes start end_) = true) as ->; [|done]. rewrite Hcs. clear - Ht.
    induction Ht as [|c cs Hc _ IH]; [done|]. change (encode (c :: cs)) with (utf8_bytes c ++ encode cs).
    by rewrite from_utf8_char.
Qed.

(** ** Hashing *)

Lemma lxor_byte_range h b : 0 <= h < 2 ^ 64 -> is_byte b -> 0 <= Z.lxor h b < 2 ^ 64.
Proof.
  unfold is_byte. intros Hh Hb. assert (0 <= Z.lxor h b) by (apply Z.lxor_nonneg; lia). split; [done|].
  destruct (Z.eq_dec (Z.lxor h b) 0) as [->|]; [lia|]. apply Z.log2_lt_pow2; [lia|].
  pose proof (Z.log2_lxor h b ltac:(lia) ltac:(lia)).
  assert (forall z, 0 <= z < 2 ^ 64 -> Z.log2 z < 64) as Hl.
  { intros z Hz. destruct (Z.eq_dec z 0) as [->|]; [done|]. by apply Z.log2_lt_pow2; lia. }
  pose proof (Hl h Hh). pose proof (Hl b ltac:(lia)). lia.
Qed.

(** The multiplier is odd, so a step loses nothing: it has an inverse modulo [2^64]. *)
Lemma fnv_mul_inj x y :
  0 <= x < 2 ^ 64 -> 0 <= y < 2 ^ 64 -> wrap 64 (x * 0x100000001b3) = wrap 64 (y * 0x100000001b3) -> x = y.
Proof.
  unfold wrap. intros Hx Hy E.
  assert (forall z, 0 <= z < 2 ^ 64 -> ((z * 0x100000001b3) mod 2 ^ 64 * 0xce965057aff6957b) mod 2 ^ 64 = z) as Hinv.
  { intros z Hz. rewrite Z.mul_mod_idemp_l by lia. rewrite <-Z.mul_assoc, <-Z.mul_mod_idemp_r by lia.
    change ((0x100000001b3 * 0xce965057aff6957b) mod 2 ^ 64) with 1. rewrite Z.mul_1_r. by apply Z.mod_small. }
  rewrite <-(Hinv x Hx), <-(Hinv y Hy). by rewrite E.
Qed.

Lemma fnv_step_range h b : 0 <= fnv_step h b < 2 ^ 64.
Proof. apply Z.mod_pos_bound. lia. Qed.

Lemma fnv_step_inj h g x y :
  0 <= h < 2 ^ 64 -> 0 <= g < 2 ^ 64 -> is_byte x -> is_byte y -> fnv_step h x = fnv_step g y -> Z.lxor h x = Z.lxor g y.
Proof. intros Hh Hg Hx Hy. apply fnv_mul_inj; by apply lxor_byte_range. Qed.

Lemma fold_fnv_range bs h : 0 <= h < 2 ^ 64 -> 0 <= fold_left fnv_step bs h < 2 ^ 64.
Proof. revert h; induction bs as [|b bs IH]; intros h Hh; [done|]. simpl. apply IH, fnv_step_range. Qed.

Lemma fold_fnv_inj bs h g :
  Forall is_byte bs -> 0 <= h < 2 ^ 64 -> 0 <= g < 2 ^ 64 -> fold_left fnv_step bs h = fold_left fnv_step bs g -> h = g.
Proof.
  intros Hb; revert h g; induction Hb as [|b bs Hb _ IH]; intros h g Hh Hg; [done|]. simpl. intros E.
  apply IH, fnv_step_inj in E; [|done..|apply fnv_step_range|apply fnv_step_range].
  apply (f_equal (fun z => Z.lxor z b)) in E. by rewrite !Z.lxor_assoc, Z.lxor_nilpotent, !Z.lxor_0_r in E.
Qed.

(** [hash_bytes] is a 64-bit hash under which two byte strings of the same
    length that differ in exactly one byte never collide, and a common suffix
    never makes two different hashes equal. *)
Theorem hash_separates pre x y post s1 s2 suffix :
  Forall is_byte (pre ++ [x; y] ++ post ++ suffix) ->
  0 <= hash_bytes (pre ++ x :: post) < 2 ^ 64 /\
  (hash_bytes (pre ++ x :: post) = hash_bytes (pre ++ y :: post) <-> x = y) /\
  (hash_bytes (s1 ++ suffix) = hash_bytes (s2 ++ suffix) <-> hash_bytes s1 = hash_bytes s2).
Proof.
  rewrite !Forall_app, !Forall_cons. intros (_ & (Hx & Hy & _) & Hpost & Hsuf). unfold hash_bytes. rewrite !fold_left_app.
  set (h0 := 0xcbf29ce484222325). assert (0 <= h0 < 2 ^ 64) as H0 by (unfold h0; lia).
  pose proof (fold_fnv_range pre h0 H0) as Hpre. simpl.
  split; [apply fold_fnv_range, fnv_step_range|]. split; (split; [intros E|by intros ->]).
  - apply fold_fnv_inj, fnv_step_inj in E; [|done..|apply fnv_step_range|apply fnv_step_range].
    apply (f_equal (Z.lxor (fold_left fnv_step pre h0))) in E.
    by rewrite <-!Z.lxor_assoc, Z.lxor_nilpotent, !Z.lxor_0_l in E.
  - apply fold_fnv_inj in E; [done..|by apply fold_fnv_range|by apply fold_fnv_range].
Qed.

(** ** Numbers *)

(** [int_to_string] and [uint_to_string] print a number that reads back as
    itself. *)
Theorem number_text_reads_back z :
  (in_i64 z = true -> parse_i64 (int_to_string z) = Some z) /\
  (in_u64 z = true -> parse_unsigned (uint_to_string z) = Some z).
Proof. split; intros H; [by apply parse_i64_show|]. apply parse_unsigned_show. unfold in_u64 in H. lia. Qed.

Lemma number_text_reads_back_witness :
  parse_i64 (int_to_string (-42)) = Some (-42) /\ int_to_string (-42) = "-42"%string.
Proof. split; [apply (number_text_reads_back (-42)); reflexivity|reflexivity]. Defined.

(** The text [aé€😀] of the source's tests. *)
Definition sample : str := [0x61; 0xE9; 0x20AC; 0x1F600].

Lemma sample_text : text sample.
Proof. unfold sample. repeat constructor. Qed.

Lemma chars_of_text_witness :
  char_at (encode sample) 1 = Some 0xE9 /\ next_char_boundary (encode sample) 1 = 3 /\ char_at (encode sample) 2 = None.
Proof.
  destruct (chars_of_text sample 1 sample_text) as (_ & H & _).
  destruct (H [0x61] 0xE9 [0x20AC; 0x1F600] eq_refl eq_refl) as [-> ->]. split_and!; by vm_compute.
Defined.

Lemma slice_of_text_witness :
  slice_utf8 (encode sample) 1 6 = Some (encode [0xE9; 0x20AC]) /\ slice_utf8 (encode sample) 2 6 = None.
Proof.
  split; [|by vm_compute]. apply (slice_of_text sample _ _ _ sample_text).
  exists [0x61], [0xE9; 0x20AC], [0x1F600]. split_and!; by vm_compute.
Defined.

Lemma utf8_range_valid_witness :
  from_utf8_range (encode sample) 3 6 = Some (encode [0x20AC]) /\ from_utf8_range (encode sample) 0 2 = None.
Proof.
  split; [|by vm_compute]. apply (utf8_range_valid (encode sample)); [apply encode_bytes, sample_text|].
  split_and!; [by vm_compute..|]. exists [0x20AC]. split; [by repeat constructor|done].
Defined.

Lemma hash_separates_witness :
  hash_bytes [97; 98; 99] <> hash_bytes [97; 120; 99].
Proof.
  intros E. destruct (hash_separates [97] 98 120 [99] [] [] []) as (_ & H & _).
  - unfold is_byte. repeat constructor; lia.
  - apply H in E. discriminate.
Defined.
