(* ===== verification/Floats.v ===== *)
(** Reduced-precision floats: the bit encodings of [f16], [bf16], [f8e4m3] and
    [f8e5m2] in the compiler ([paco-types/src/floats.rs]) and in the runtime
    ([runtime/paco-runtime/src/float.rs]).

    An [f64] is a [spec_float] of the Standard Library, with its correctly
    rounded operations at precision 53 and maximal exponent 1024.  The sign and
    payload of a NaN are not kept: [encode_small] clears the sign of the NaN it
    writes.  Bit patterns are [Z]s. *)
From S2P Require Import Prelude Types.
From Stdlib Require Import Floats.SpecFloat.
Open Scope Z_scope.

(** ** The [f64] operations the code uses *)

Abbreviation f64 := spec_float.
Abbreviation prec := 53.
Abbreviation emax := 1024.

Definition f64_valid (x : f64) : bool := valid_binary prec emax x.
Definition f64_mul (x y : f64) : f64 := SFmul prec emax x y.
Definition f64_div (x y : f64) : f64 := SFdiv prec emax x y.

(** [f64::from(n)] for an unsigned [n], and [2f64.powi(k)]. *)
Definition f64_from (n : Z) : f64 := binary_normalize prec emax n 0 false.
Definition pow2 (k : Z) : f64 := binary_normalize prec emax 1 k false.

Definition is_sign_negative (x : f64) : bool :=
  match x with S754_zero s | S754_infinity s | S754_finite s _ _ => s | S754_nan => false end.
Definition is_nan (x : f64) : bool := match x with S754_nan => true | _ => false end.
Definition is_infinite (x : f64) : bool := match x with S754_infinity _ => true | _ => false end.
Definition is_zero (x : f64) : bool := match x with S754_zero _ => true | _ => false end.

(** [(x.to_bits() >> 52) & 0x7ff] *)
Definition biased_exponent (x : f64) : Z :=
  match x with
  | S754_zero _ => 0
  | S754_infinity _ | S754_nan => 0x7ff
  | S754_finite _ m e => if Zpos (digits2_pos m) =? prec then e + 1075 else 0
  end.

(** [m * 2^e] to the nearest integer, ties to even. *)
Definition nearest_even (m e : Z) : Z :=
  if 0 <=? e then m * 2 ^ e
  else
    let d := 2 ^ (- e) in
    let q := m / d in
    match (2 * (m mod d)) ?= d with
    | Lt => q
    | Eq => if Z.even q then q else q + 1
    | Gt => q + 1
    end.

(** [x.round_ties_even() as u64], a saturating cast. *)
Definition round_as_u64 (x : f64) : Z :=
  match x with
  | S754_zero _ | S754_nan => 0
  | S754_infinity s => if s then 0 else u64_max
  | S754_finite s m e => if s then 0 else Z.min (nearest_even (Zpos m) e) u64_max
  end.

(** ** The formats *)

Record Format := mkFormat { exponent_bits : Z; mantissa_bits : Z; has_infinity : bool }.

(** [FloatWidth::format] *)
Definition format (w : FloatWidth) : option Format :=
  match w with
  | F64 | F32 => None
  | F16 => Some (mkFormat 5 10 true)
  | BF16 => Some (mkFormat 8 7 true)
  | F8E4M3 => Some (mkFormat 4 3 false)
  | F8E5M2 => Some (mkFormat 5 2 true)
  end.

(** ** The compiler's encoding *)

Definition encode_small (value : f64) (fmt : Format) : Z :=
  let m := mantissa_bits fmt in
  let e := exponent_bits fmt in
  let sign := if is_sign_negative value then Z.shiftl 1 (e + m) else 0 in
  let all_ones_exponent := Z.shiftl 1 e - 1 in
  let nan := Z.lor (Z.lor sign (Z.shiftl all_ones_exponent m)) (Z.shiftl 1 m - 1) in
  if is_nan value then Z.ldiff nan (Z.shiftl 1 (e + m))
  else
    let overflow := if has_infinity fmt then Z.lor sign (Z.shiftl all_ones_exponent m) else nan in
    let magnitude := SFabs value in
    if is_zero magnitude then sign
    else if is_infinite magnitude then overflow
    else
      let bias := Z.shiftl 1 (e - 1) - 1 in
      let min_exponent := 1 - bias in
      let exponent := Z.max (biased_exponent magnitude - 1023) min_exponent in
      let quantum := pow2 (exponent - m) in
      let scaled := round_as_u64 (f64_div magnitude quantum) in
      let '(scaled, exponent) :=
        if Z.shiftl 1 (m + 1) <=? scaled then (Z.shiftr scaled 1, exponent + 1) else (scaled, exponent) in
      let biased := if scaled <? Z.shiftl 1 m then 0 else exponent + bias in
      let max_biased := if has_infinity fmt then all_ones_exponent - 1 else all_ones_exponent in
      if max_biased <? biased then overflow
      else
        let fraction := Z.land scaled (Z.shiftl 1 m - 1) in
        let bits := Z.lor (Z.lor sign (Z.shiftl biased m)) fraction in
        if negb (has_infinity fmt) && (Z.ldiff bits sign =? Z.ldiff nan sign) then overflow else bits.

Definition decode_small (bits : Z) (fmt : Format) : f64 :=
  let m := mantissa_bits fmt in
  let e := exponent_bits fmt in
  let negative := Z.land (Z.shiftr bits (e + m)) 1 =? 1 in
  let all_ones_exponent := Z.shiftl 1 e - 1 in
  let biased := Z.land (Z.shiftr bits m) all_ones_exponent in
  let fraction := Z.land bits (Z.shiftl 1 m - 1) in
  let bias := Z.shiftl 1 (e - 1) - 1 in
  let magnitude :=
    if (biased =? all_ones_exponent) && has_infinity fmt then
      if fraction =? 0 then S754_infinity false else S754_nan
    else if (biased =? all_ones_exponent) && (fraction =? Z.shiftl 1 m - 1) then S754_nan
    else if biased =? 0 then f64_mul (f64_from fraction) (pow2 (1 - bias - m))
    else f64_mul (f64_from (Z.lor (Z.shiftl 1 m) fraction)) (pow2 (biased - bias - m)) in
  if negative then SFopp magnitude else magnitude.

(** ** The runtime's encoding *)

(** [float_format(code)]: [None] where the index is out of range. *)
Definition float_format (code : Z) : option (Z * Z * bool) :=
  if code <? 0 then None
  else [(5, 10, true); (8, 7, true); (4, 3, false); (5, 2, true)] !! Z.to_nat code.

Definition float_to_f64 (bits code : Z) : option f64 :=
  match float_format code with None => None | Some (e, m, has_infinity) =>
  let negative := Z.land (Z.shiftr bits (e + m)) 1 =? 1 in
  let all_ones := Z.shiftl 1 e - 1 in
  let biased := Z.land (Z.shiftr bits m) all_ones in
  let fraction := Z.land bits (Z.shiftl 1 m - 1) in
  let bias := Z.shiftl 1 (e - 1) - 1 in
  let magnitude :=
    if (biased =? all_ones) && has_infinity then
      if fraction =? 0 then S754_infinity false else S754_nan
    else if (biased =? all_ones) && (fraction =? Z.shiftl 1 m - 1) then S754_nan
    else if biased =? 0 then f64_mul (f64_from fraction) (pow2 (1 - bias - m))
    else f64_mul (f64_from (Z.lor (Z.shiftl 1 m) fraction)) (pow2 (biased - bias - m)) in
  Some (if negative then SFopp magnitude else magnitude) end.

Definition float_from_f64 (value : f64) (code : Z) : option Z :=
  match float_format code with None => None | Some (e, m, has_infinity) =>
  let sign := if is_sign_negative value then Z.shiftl 1 (e + m) else 0 in
  let all_ones := Z.shiftl 1 e - 1 in
  let nan := Z.lor (Z.lor sign (Z.shiftl all_ones m)) (Z.shiftl 1 m - 1) in
  Some (
    if is_nan value then Z.ldiff nan (Z.shiftl 1 (e + m))
    else
      let overflow := if has_infinity then Z.lor sign (Z.shiftl all_ones m) else nan in
      let magnitude := SFabs value in
      if is_zero magnitude then sign
      else if is_infinite magnitude then overflow
      else
        let bias := Z.shiftl 1 (e - 1) - 1 in
        let exponent := Z.max (biased_exponent magnitude - 1023) (1 - bias) in
        let scaled := round_as_u64 (f64_mul magnitude (pow2 (m - exponent))) in
        let '(scaled, exponent) :=
          if Z.shiftl 1 (m + 1) <=? scaled then (Z.shiftr scaled 1, exponent + 1) else (scaled, exponent) in
        let biased := if scaled <? Z.shiftl 1 m then 0 else exponent + bias in
        let max_biased := if has_infinity then all_ones - 1 else all_ones in
        if max_biased <? biased then overflow
        else
          let bits := Z.lor (Z.lor sign (Z.shiftl biased m)) (Z.land scaled (Z.shiftl 1 m - 1)) in
          if negb has_infinity && (Z.ldiff bits sign =? Z.ldiff nan sign) then overflow else bits) end.

(** ** [FloatWidth::encode], [decode] and [round] *)

(** [x.to_bits()] and [from_bits] of a binary format with [p] significant bits
    and maximal exponent [x]; the NaN is the quiet one. *)
Definition to_bits (p x : Z) (v : spec_float) : Z :=
  let sign (s : bool) := if s then Z.shiftl 1 (p - 1 + Z.log2 (2 * x)) else 0 in
  match v with
  | S754_zero s => sign s
  | S754_infinity s => Z.lor (sign s) (Z.shiftl (2 * x - 1) (p - 1))
  | S754_nan => Z.lor (Z.shiftl (2 * x - 1) (p - 1)) (Z.shiftl 1 (p - 2))
  | S754_finite s m e =>
      if Zpos (digits2_pos m) =? p
      then Z.lor (Z.lor (sign s) (Z.shiftl (e + (p - 1) + (x - 1)) (p - 1))) (Zpos m - Z.shiftl 1 (p - 1))
      else Z.lor (sign s) (Zpos m)
  end.

Definition from_bits (p x : Z) (bits : Z) : spec_float :=
  let s := Z.testbit bits (p - 1 + Z.log2 (2 * x)) in
  let biased := Z.land (Z.shiftr bits (p - 1)) (2 * x - 1) in
  let fraction := Z.land bits (Z.shiftl 1 (p - 1) - 1) in
  if biased =? 2 * x - 1 then (if fraction =? 0 then S754_infinity s else S754_nan)
  else if biased =? 0 then
    match fraction with Zpos m => S754_finite s m (3 - x - p) | _ => S754_zero s end
  else
    match fraction + Z.shiftl 1 (p - 1) with
    | Zpos m => S754_finite s m (biased - 1 + (3 - x - p))
    | _ => S754_nan
    end.

(** [v as f32] and [f64::from]. *)
Definition convert (p x : Z) (v : spec_float) : spec_float :=
  match v with
  | S754_finite s m e => binary_round p x s m e
  | _ => v
  end.

Module FloatBits.
Definition encode (w : FloatWidth) (value : f64) : option Z :=
  match w with
  | F64 => Some (to_bits prec emax value)
  | F32 => Some (to_bits 24 128 (convert 24 128 value))
  | _ => fmt ← format w; Some (encode_small value fmt)
  end.

Definition decode (w : FloatWidth) (bits : Z) : option f64 :=
  match w with
  | F64 => Some (from_bits prec emax bits)
  | F32 => Some (convert prec emax (from_bits 24 128 (wrap 32 bits)))
  | _ => fmt ← format w; Some (decode_small (wrap 32 bits) fmt)
  end.

Definition round (w : FloatWidth) (value : f64) : option f64 :=
  match w with
  | F64 => Some value
  | F32 => Some (convert prec emax (convert 24 128 value))
  | _ => bits ← encode w value; decode w bits
  end.
End FloatBits.

(** ** Exact scaling by powers of two *)

Lemma digits_log2 p : Zpos (digits2_pos p) = Z.log2 (Zpos p) + 1.
Proof.
  induction p as [p IH|p IH|]; simpl digits2_pos; [..|done]; rewrite Pos2Z.inj_succ, IH.
  - rewrite Pos2Z.inj_xI, Z.log2_succ_double by lia. lia.
  - rewrite Pos2Z.inj_xO, Z.log2_double by lia. lia.
Qed.

Lemma shr_1_double k : 0 <= k -> shr_1 (Build_shr_record (2 * k) false false) = Build_shr_record k false false.
Proof. intros Hk. by destruct k. Qed.

Lemma iter_shr p k :
  0 <= k -> iter_pos shr_1 p (Build_shr_record (k * 2 ^ Zpos p) false false) = Build_shr_record k false false.
Proof.
  revert k; induction p as [p IH|p IH|]; intros k Hk; cbn [iter_pos].
  - replace (k * 2 ^ Z.pos p~1) with (2 * (k * 2 ^ Z.pos p * 2 ^ Z.pos p)).
    + rewrite shr_1_double by lia. rewrite IH by lia. by apply IH.
    + rewrite (Pos2Z.inj_xI p), Z.pow_add_r, Z.pow_mul_r, Z.pow_1_r by lia.
      replace ((2 ^ 2) ^ Z.pos p) with (2 ^ Z.pos p * 2 ^ Z.pos p) by (rewrite <-Z.pow_mul_l; done). lia.
  - replace (k * 2 ^ Z.pos p~0) with (k * 2 ^ Z.pos p * 2 ^ Z.pos p).
    + rewrite IH by lia. by apply IH.
    + rewrite (Pos2Z.inj_xO p), Z.pow_mul_r by lia.
      replace ((2 ^ 2) ^ Z.pos p) with (2 ^ Z.pos p * 2 ^ Z.pos p) by (rewrite <-Z.pow_mul_l; done). lia.
  - rewrite Z.pow_1_r, Z.mul_comm. by apply shr_1_double.
Qed.

(** The exponent of the last place of a number of magnitude [2^t]. *)
Definition ulp_exp (t : Z) : Z := Z.max (t - 52) (-1074).

Lemma fexp_ulp m e : fexp prec emax (Zdigits2 (Zpos m) + e) = ulp_exp (Z.log2 (Zpos m) + e).
Proof. unfold fexp, emin, ulp_exp. simpl Zdigits2. rewrite digits_log2. lia. Qed.

(** Rounding a number that is representable is exact. *)
Lemma round_aux_exact s (m0 : positive) n e :
  0 <= n -> e + n = ulp_exp (Z.log2 (Zpos m0) + (e + n)) -> e + n <= 971 ->
  binary_round_aux prec emax s (Zpos m0 * 2 ^ n) e loc_Exact = S754_finite s m0 (e + n).
Proof.
  intros Hn Hc Hmax. unfold binary_round_aux.
  assert (shr_fexp prec emax (Zpos m0 * 2 ^ n) e loc_Exact = (Build_shr_record (Zpos m0) false false, e + n)) as ->.
  { unfold shr_fexp. destruct (Zpos m0 * 2 ^ n) as [|mm|] eqn:E; [nia| |nia].
    rewrite fexp_ulp, <-E. replace (Z.log2 (Z.pos m0 * 2 ^ n) + e) with (Z.log2 (Zpos m0) + (e + n))
      by (rewrite Z.log2_mul_pow2; lia). rewrite <-Hc. replace (e + n - e) with n by lia. simpl. destruct n as [|p|]; [|simpl|lia].
    - simpl. by rewrite Z.mul_1_r, Z.add_0_r.
    - by rewrite iter_shr by lia. }
  cbn [shr_m loc_of_shr_record round_nearest_even].
  unfold shr_fexp. rewrite fexp_ulp, <-Hc, Z.sub_diag. cbn [shr shr_record_of_loc shr_m]. change (emax - prec) with 971.
  destruct (Z.leb_spec (e + n) 971); [done|lia].
Qed.

(** [m * 2^e] in canonical form, when it is representable. *)
Definition norm (s : bool) (m : positive) (e : Z) : f64 :=
  let c := ulp_exp (Z.log2 (Zpos m) + e) in S754_finite s (Z.to_pos (Zpos m * 2 ^ (e - c))) c.
Definition representable (m : positive) (e : Z) : Prop :=
  ulp_exp (Z.log2 (Zpos m) + e) <= e /\ Z.log2 (Zpos m) + e <= 1023.

Lemma Zpos_shift m n : 0 <= n -> Zpos (Z.to_pos (Zpos m * 2 ^ n)) = Zpos m * 2 ^ n.
Proof. intros Hn. apply Z2Pos.id. pose proof (Z.pow_pos_nonneg 2 n). nia. Qed.

Lemma log2_shift m n : 0 <= n -> Z.log2 (Zpos m * 2 ^ n) = Z.log2 (Zpos m) + n.
Proof. intros Hn. rewrite Z.log2_mul_pow2; lia. Qed.

Lemma iter_xO m d : Zpos (Pos.iter xO m d) = Zpos m * 2 ^ Zpos d.
Proof.
  induction d as [|d IH] using Pos.peano_ind; [simpl; lia|].
  rewrite Pos.iter_succ, Pos2Z.inj_xO, IH, Pos2Z.inj_succ, Z.pow_succ_r by lia. lia.
Qed.

(** Rounding [m * 2^k * 2^-n] of the same value. *)
Lemma round_aux_norm s m e M e' :
  representable m e -> 0 <= ulp_exp (Z.log2 (Zpos m) + e) - e' ->
  M = Zpos m * 2 ^ (e - e') -> binary_round_aux prec emax s M e' loc_Exact = norm s m e.
Proof.
  intros [Hr Hb] He' ->. unfold norm. set (c := ulp_exp (Z.log2 (Zpos m) + e)) in *.
  replace (Zpos m * 2 ^ (e - e')) with (Zpos (Z.to_pos (Zpos m * 2 ^ (e - c))) * 2 ^ (c - e')).
  - rewrite round_aux_exact.
    + f_equal. lia.
    + lia.
    + rewrite Zpos_shift, log2_shift by lia. replace (Z.log2 (Z.pos m) + (e - c) + (e' + (c - e'))) with (Z.log2 (Zpos m) + e) by lia.
      fold c. lia.
    + unfold c, ulp_exp in *. lia.
  - rewrite Zpos_shift by lia. rewrite <-Z.mul_assoc, <-Z.pow_add_r by lia. f_equal. f_equal. lia.
Qed.

Lemma binary_round_norm s m e : representable m e -> binary_round prec emax s m e = norm s m e.
Proof.
  intros Hr. pose proof Hr as [Hc _]. unfold binary_round. change (Zpos (digits2_pos m)) with (Zdigits2 (Zpos m)).
  rewrite fexp_ulp. set (c := ulp_exp (Z.log2 (Zpos m) + e)) in *. unfold shl_align.
  destruct (c - e) as [|p|p] eqn:E; [|lia|].
  - apply round_aux_norm; [done|unfold c in *; lia|]. rewrite Z.sub_diag. lia.
  - apply round_aux_norm; [done|unfold c in *; lia|]. rewrite iter_xO. do 2 f_equal. lia.
Qed.

Lemma pow2_norm k : -1022 <= k <= 1023 -> pow2 k = norm false 1 k.
Proof. intros Hk. apply binary_round_norm. unfold representable, ulp_exp. change (Z.log2 1) with 0. lia. Qed.

Lemma f64_from_norm n : 0 < n < 2 ^ 53 -> f64_from n = norm false (Z.to_pos n) 0.
Proof.
  intros Hn. destruct n as [|p|]; try lia. change (Z.to_pos (Zpos p)) with p. apply binary_round_norm. unfold representable, ulp_exp.
  assert (Z.log2 (Zpos p) < 53) by (apply Z.log2_lt_pow2; lia). lia.
Qed.

Lemma valid_norm s m e : f64_valid (S754_finite s m e) = true -> S754_finite s m e = norm s m e /\ representable m e.
Proof.
  unfold f64_valid, valid_binary, bounded, canonical_mantissa. change (Zpos (digits2_pos m)) with (Zdigits2 (Zpos m)).
  rewrite fexp_ulp. intros [H1 H2]%andb_prop. apply Z.eqb_eq in H1. unfold norm, representable. rewrite H1, Z.sub_diag, Z.mul_1_r.
  split; [done|]. unfold ulp_exp in H1. lia.
Qed.

Lemma norm_parts s m e :
  representable m e -> exists m' e', norm s m e = S754_finite s m' e' /\ e' = ulp_exp (Z.log2 (Zpos m) + e) /\
    Zpos m' = Zpos m * 2 ^ (e - e') /\ 0 <= e - e' /\ -1074 <= e' /\ Z.log2 (Zpos m') = Z.log2 (Zpos m) + (e - e').
Proof.
  intros [Hc _]. unfold norm. eexists _, _. split; [reflexivity|]. split; [done|].
  rewrite Zpos_shift, log2_shift by lia. split_and!; try lia. unfold ulp_exp. lia.
Qed.

(** Multiplying and dividing by a power of two are exact when the result is
    representable, and so they agree. *)
Lemma mul_pow2 s m e k :
  representable m e -> representable m (e + k) -> -1022 <= k <= 1023 ->
  f64_mul (norm s m e) (pow2 k) = norm s m (e + k).
Proof.
  intros Hr Hk Hrange. rewrite pow2_norm by done.
  destruct (norm_parts s m e Hr) as (m1 & e1 & -> & He1 & Hm1 & Hge & Hmin & _).
  unfold norm at 1. unfold f64_mul, SFmul. rewrite xorb_false_r. change (Z.log2 1) with 0.
  assert (ulp_exp (0 + k) = k - 52) as -> by (unfold ulp_exp; lia).
  replace (k - (k - 52)) with 52 by lia. destruct Hr as [Hr1 Hr2], Hk as [Hk1 Hk2].
  assert (Hlog := Z.log2_nonneg (Zpos m)).
  apply round_aux_norm; [done|unfold ulp_exp in *; lia|].
  rewrite Pos2Z.inj_mul, Zpos_shift, Hm1, Z.mul_1_l, <-Z.mul_assoc, <-Z.pow_add_r by lia. do 2 f_equal. lia.
Qed.

Lemma div_pow2 s m e a :
  representable m e -> representable m (e - a) -> -1022 <= a <= 1023 ->
  f64_div (norm s m e) (pow2 a) = norm s m (e - a).
Proof.
  intros Hr Hk Hrange. rewrite pow2_norm by done.
  destruct (norm_parts s m e Hr) as (m1 & e1 & -> & He1 & Hm1 & Hge & Hmin & Hlog1).
  unfold norm at 1. unfold f64_div, SFdiv. rewrite xorb_false_r. change (Z.log2 1) with 0.
  assert (ulp_exp (0 + a) = a - 52) as -> by (unfold ulp_exp; lia).
  replace (a - (a - 52)) with 52 by lia. destruct Hr as [Hr1 Hr2]. pose proof Hk as [Hk1 Hk2].
  assert (Hlog := Z.log2_nonneg (Zpos m)).
  unfold SFdiv_core_binary. change (Z.to_pos (1 * 2 ^ 52)) with (Pos.pow 2 52).
  simpl Zdigits2. rewrite !digits_log2, Hlog1. change (Z.log2 (Zpos (2 ^ 52))) with 52.
  set (e' := Z.min _ _). set (n := e1 - (a - 52) - e').
  assert (0 <= n /\ e' <= ulp_exp (Z.log2 (Zpos m) + (e - a))) as [Hn He'].
  { unfold n, e', fexp, emin, ulp_exp in *. lia. }
  set (q0 := Zpos m * 2 ^ (e - a - e')).
  assert (match n with Z0 => Zpos m1 | Zpos _ => Z.shiftl (Zpos m1) n | Zneg _ => 0 end = q0 * 2 ^ 52) as ->.
  { transitivity (Zpos m1 * 2 ^ n); [destruct n; [lia|by rewrite Z.shiftl_mul_pow2|lia]|].
    unfold q0. rewrite Hm1, <-!Z.mul_assoc, <-!Z.pow_add_r by lia. do 2 f_equal. unfold n. lia. }
  pose proof (Z_div_mult_full q0 (2 ^ 52) ltac:(lia)) as Hq. pose proof (Z_mod_mult q0 (2 ^ 52)) as Hm.
  unfold Z.div in Hq. unfold Z.modulo in Hm. change (Zpos (2 ^ 52)) with (2 ^ 52).
  destruct (Z.div_eucl _ _) as [q r]. subst q r. change (new_location (2 ^ 52) 0) with loc_Exact.
  apply round_aux_norm; [done|lia|done].
Qed.

(** ** Rounding to an integer *)

Lemma nearest_even_shift m e j : 0 <= j -> nearest_even (m * 2 ^ j) (e - j) = nearest_even m e.
Proof.
  intros Hj. unfold nearest_even. destruct (Z.leb_spec 0 (e - j)) as [H1|H1], (Z.leb_spec 0 e) as [H2|H2]; try lia.
  - rewrite <-Z.mul_assoc, <-Z.pow_add_r by lia. do 2 f_equal. lia.
  - (* the shifted fraction is an integer *)
    replace (m * 2 ^ j) with (m * 2 ^ e * 2 ^ (- (e - j))) by (rewrite <-Z.mul_assoc, <-Z.pow_add_r by lia; do 2 f_equal; lia).
    assert (0 < 2 ^ (- (e - j))) by (apply Z.pow_pos_nonneg; lia).
    rewrite Z.mod_mul, Z.div_mul by lia. simpl. destruct (2 ^ (- (e - j))); done || lia.
  - replace (2 ^ (- (e - j))) with (2 ^ (- e) * 2 ^ j) by (rewrite <-Z.pow_add_r by lia; f_equal; lia).
    assert (0 < 2 ^ j) by (apply Z.pow_pos_nonneg; lia). assert (0 < 2 ^ (- e)) by (apply Z.pow_pos_nonneg; lia).
    rewrite Z.div_mul_cancel_r, Z.mul_mod_distr_r by lia.
    rewrite Z.mul_assoc, <-(Zmult_compare_compat_r _ _ (2 ^ j)) by lia. done.
Qed.

Lemma nearest_even_spec m e : 
  e < 0 -> 2 * Z.abs (m - nearest_even m e * 2 ^ (- e)) <= 2 ^ (- e).
Proof.
  intros He. unfold nearest_even. destruct (Z.leb_spec 0 e); [lia|].
  assert (0 < 2 ^ (- e)) as Hp by (apply Z.pow_pos_nonneg; lia). set (d := 2 ^ (- e)) in *.
  pose proof (Z.div_mod m d ltac:(lia)). pose proof (Z.mod_pos_bound m d Hp).
  destruct (Z.compare_spec (2 * (m mod d)) d); [destruct (Z.even _)|..]; nia.
Qed.

(** With a common unit: the result is within half a unit. *)
Lemma nearest_even_units m e t :
  0 <= t -> 0 <= e + t -> 2 * Z.abs (m * 2 ^ (e + t) - nearest_even m e * 2 ^ t) <= 2 ^ t.
Proof.
  intros Ht Het. assert (0 < 2 ^ t) by (apply Z.pow_pos_nonneg; lia). destruct (Z.leb_spec 0 e) as [He|He].
  - unfold nearest_even. destruct (Z.leb_spec 0 e); [|lia]. rewrite <-Z.mul_assoc, <-Z.pow_add_r by lia. rewrite Z.sub_diag. lia.
  - pose proof (nearest_even_spec m e He) as H1. replace (2 ^ t) with (2 ^ (- e) * 2 ^ (e + t)) by (rewrite <-Z.pow_add_r by lia; f_equal; lia).
    assert (0 < 2 ^ (e + t)) by (apply Z.pow_pos_nonneg; lia).
    rewrite Z.mul_assoc, <-Z.mul_sub_distr_r, Z.abs_mul, (Z.abs_eq (2 ^ (e + t))) by lia. nia.
Qed.

(** ** Fields *)

Section SmallFormat.
Context (fmt : Format).
Notation m := (mantissa_bits fmt).
Notation e := (exponent_bits fmt).
Notation hi := (has_infinity fmt).

Class SmallFormat : Prop := { sf_mantissa : 2 <= m <= 10; sf_exponent : 4 <= e <= 8; sf_bits : e + m <= 15 }.
Context {Hfmt : SmallFormat}.

Definition bias : Z := 2 ^ (e - 1) - 1.
Definition ones : Z := 2 ^ e - 1.
Definition nan_field : Z := ones * 2 ^ m + (2 ^ m - 1).
Definition overflow_field : Z := if hi then ones * 2 ^ m else nan_field.
Definition sign_field (s : bool) : Z := if s then 2 ^ (e + m) else 0.

Lemma format_range : 4 <= 2 ^ m <= 1024 /\ 15 <= ones <= 255 /\ 7 <= bias <= 127 /\ 2 ^ e = 2 * bias + 2.
Proof.
  destruct Hfmt as [Hm He _]. unfold ones, bias.
  assert (2 ^ 2 <= 2 ^ m <= 2 ^ 10) by (split; apply Z.pow_le_mono_r; lia).
  assert (2 ^ 4 <= 2 ^ e <= 2 ^ 8) by (split; apply Z.pow_le_mono_r; lia).
  assert (2 ^ e = 2 * 2 ^ (e - 1)) by (rewrite <-Z.pow_succ_r by lia; f_equal; lia). lia.
Qed.

Lemma fields_lor s b f :
  0 <= b <= ones -> 0 <= f < 2 ^ m -> Z.lor (Z.lor (sign_field s) (Z.shiftl b m)) f = sign_field s + (b * 2 ^ m + f).
Proof.
  destruct Hfmt as [Hm He _]. unfold ones. intros Hb Hf. rewrite Z.shiftl_mul_pow2 by lia.
  assert (2 ^ (e + m) = 2 ^ e * 2 ^ m) as Hpow by (apply Z.pow_add_r; lia).
  assert (Z.lor (sign_field s) (b * 2 ^ m) = (sign_field s / 2 ^ m + b) * 2 ^ m) as ->.
  { assert (sign_field s = (if s then 1 else 0) * 2 ^ (e + m)) as -> by (destruct s; unfold sign_field; lia).
    rewrite lor_add by nia. rewrite Hpow, Z.mul_assoc, Z.div_mul by nia. lia. }
  rewrite lor_add by lia.
  assert (sign_field s / 2 ^ m * 2 ^ m = sign_field s); [|lia].
  unfold sign_field. destruct s; [|done]. rewrite Hpow, Z.div_mul by nia. done.
Qed.

Lemma sign_ldiff s r : 0 <= r < 2 ^ (e + m) -> Z.ldiff (sign_field s + r) (sign_field s) = r.
Proof.
  destruct Hfmt as [Hm He _]. intros Hr. unfold sign_field. destruct s; [|by rewrite Z.ldiff_0_r].
  replace (2 ^ (e + m) + r) with (Z.lor (1 * 2 ^ (e + m)) r) by (rewrite lor_add; lia). rewrite Z.mul_1_l.
  apply Z.bits_inj'. intros i Hi. rewrite Z.ldiff_spec, Z.lor_spec, Z.pow2_bits_eqb by lia.
  destruct (Z.eqb_spec (e + m) i) as [<-|]; [|by rewrite andb_true_r].
  simpl. rewrite <-(Z.mod_small r (2 ^ (e + m))) at 1 by lia. by rewrite Z.mod_pow2_bits_high by lia.
Qed.

Lemma field_range b f : 0 <= b <= ones -> 0 <= f < 2 ^ m -> 0 <= b * 2 ^ m + f < 2 ^ (e + m).
Proof.
  destruct Hfmt as [Hm He _]. unfold ones. intros Hb Hf.
  assert (2 ^ (e + m) = 2 ^ e * 2 ^ m) by (apply Z.pow_add_r; lia). nia.
Qed.

(** *** Decoding *)

(** The magnitude that the fields [b] and [f] stand for. *)
Definition magnitude_of (b f : Z) : f64 :=
  if (b =? ones) && hi then (if f =? 0 then S754_infinity false else S754_nan)
  else if (b =? ones) && (f =? 2 ^ m - 1) then S754_nan
  else if b =? 0 then (if f =? 0 then S754_zero false else norm false (Z.to_pos f) (1 - bias - m))
  else norm false (Z.to_pos (2 ^ m + f)) (b - bias - m).

Lemma log2_below n k : 0 < n < 2 ^ k -> Z.log2 n < k.
Proof. intros Hn. apply Z.log2_lt_pow2; lia. Qed.

(** A significand of at most [m + 1] bits is representable at the exponents of the format. *)
Lemma small_representable n k :
  0 < n < 2 ^ (m + 1) -> -bias - m <= k <= 2 ^ e - bias - m -> representable (Z.to_pos n) k /\ representable (Z.to_pos n) 0.
Proof.
  intros Hn Hk. pose proof format_range as (_ & _ & Hbias & He). destruct Hfmt as [Hm _ _].
  pose proof (log2_below n (m + 1) Hn) as Hl. pose proof (Z.log2_nonneg n).
  unfold representable, ulp_exp. rewrite Z2Pos.id by lia. lia.
Qed.

Lemma mul_small n k :
  0 < n < 2 ^ (m + 1) -> -bias - m <= k <= 2 ^ e - bias - m -> f64_mul (f64_from n) (pow2 k) = norm false (Z.to_pos n) k.
Proof.
  intros Hn Hk. pose proof format_range as (_ & _ & Hbias & He).
  destruct (small_representable n k Hn Hk) as [H1 H2]. destruct Hfmt as [Hm _ _].
  assert (2 ^ (m + 1) <= 2 ^ 11) by (apply Z.pow_le_mono_r; lia).
  rewrite f64_from_norm by lia. rewrite mul_pow2; [by rewrite Z.add_0_l|done|by rewrite Z.add_0_l|lia].
Qed.

Lemma decode_fields s b f :
  0 <= b <= ones -> 0 <= f < 2 ^ m ->
  decode_small (sign_field s + (b * 2 ^ m + f)) fmt = (if s then SFopp else id) (magnitude_of b f).
Proof.
  intros Hb Hf. pose proof (field_range b f Hb Hf) as Hr. pose proof format_range as (Hp & Ho & Hbias & He2).
  destruct Hfmt as [Hm He _]. unfold decode_small, magnitude_of.
  rewrite !Z.shiftl_1_l. rewrite !Z.shiftr_div_pow2 by lia. rewrite !land_low by lia. fold ones bias.
  assert (2 ^ (e + m) = 2 ^ e * 2 ^ m) as Hpow by (apply Z.pow_add_r; lia).
  assert (2 ^ (m + 1) = 2 ^ m * 2) as Hpow2 by (rewrite Z.pow_add_r; lia).
  set (r := b * 2 ^ m + f) in *.
  assert (sign_field s = (if s then 1 else 0) * 2 ^ (e + m)) as Hs by (destruct s; unfold sign_field; lia).
  assert ((sign_field s + r) / 2 ^ (e + m) = if s then 1 else 0) as ->.
  { rewrite Hs, Z.div_add_l by lia. rewrite Z.div_small by lia. lia. }
  assert ((sign_field s + r) mod 2 ^ m = f) as ->.
  { rewrite Hs, Hpow. unfold r. rewrite Z.mul_assoc, Z.add_assoc, <-Z.mul_add_distr_r, Z.add_comm, Z.mod_add by lia.
    apply Z.mod_small. lia. }
  assert (((sign_field s + r) / 2 ^ m) mod 2 ^ e = b) as ->.
  { rewrite Hs, Hpow. unfold r. rewrite Z.mul_assoc, Z.add_assoc, <-Z.mul_add_distr_r, Z.div_add_l by lia.
    rewrite (Z.div_small f) by lia. rewrite Z.add_0_r, Z.add_comm, Z.mod_add by lia. apply Z.mod_small. unfold ones in Hb. lia. }
  assert ((Z.land (if s then 1 else 0) 1 =? 1) = s) as -> by (by destruct s).
  assert (forall x y : f64, x = y -> (if s then SFopp x else x) = (if s then SFopp else id) y) as Hfin by (intros ? ? ->; by destruct s).
  apply Hfin.
  assert (f64_mul (f64_from 0) (pow2 (1 - bias - m)) = S754_zero false) as Hz
    by (unfold f64_mul, f64_from; rewrite pow2_norm by lia; done).
  rewrite <-(Z.mul_1_l (2 ^ m)) at 2. rewrite lor_add, Z.mul_1_l by lia.
  unfold ones in *. repeat case_match; try done; first [by replace f with 0 by lia | apply mul_small; lia].
Qed.

(** *** Encoding *)

Definition exponent_of (M : positive) (E : Z) : Z := Z.max (Z.log2 (Zpos M) + E) (1 - bias).
Definition significand (M : positive) (E : Z) : Z := nearest_even (Zpos M) (E - (exponent_of M E - m)).

Lemma valid_cases s M E :
  f64_valid (S754_finite s M E) = true ->
  Z.log2 (Zpos M) <= 52 /\ -1074 <= E <= 971 /\ (Z.log2 (Zpos M) = 52 \/ E = -1074).
Proof.
  unfold f64_valid, valid_binary, bounded, canonical_mantissa. change (Zpos (digits2_pos M)) with (Zdigits2 (Zpos M)).
  rewrite fexp_ulp. unfold ulp_exp. lia.
Qed.

Lemma exponent_bits_of M E :
  f64_valid (S754_finite false M E) = true ->
  Z.max (biased_exponent (S754_finite false M E) - 1023) (1 - bias) = exponent_of M E.
Proof.
  intros Hv. destruct (valid_cases _ M E Hv) as (H1 & H2 & H3). pose proof format_range as (_ & _ & Hb & _).
  unfold biased_exponent, exponent_of. rewrite digits_log2. destruct (Z.eqb_spec (Z.log2 (Z.pos M) + 1) 53); lia.
Qed.

(** The value in units of the last place, whichever way it is scaled. *)
Lemma scaling M E (x := exponent_of M E) :
  f64_valid (S754_finite false M E) = true ->
  f64_div (S754_finite false M E) (pow2 (x - m)) = norm false M (E - (x - m)) /\
  f64_mul (S754_finite false M E) (pow2 (m - x)) = norm false M (E - (x - m)) /\
  representable M (E - (x - m)) /\ 1 - bias - m <= x - m <= 1021.
Proof.
  intros Hv. destruct (valid_cases _ M E Hv) as (H1 & H2 & H3). pose proof (Z.log2_nonneg (Zpos M)).
  pose proof format_range as (_ & _ & Hb & _). destruct Hfmt as [Hm _ _].
  destruct (valid_norm false M E Hv) as [-> Hr]. unfold x, exponent_of in *.
  assert (representable M (E - (Z.max (Z.log2 (Z.pos M) + E) (1 - bias) - m))) as Hr' by (unfold representable, ulp_exp; lia).
  split_and!; [apply div_pow2; [done..|lia]| |done|lia|lia].
  replace (E - (Z.max (Z.log2 (Z.pos M) + E) (1 - bias) - m)) with (E + (m - Z.max (Z.log2 (Z.pos M) + E) (1 - bias))) in * by lia.
  apply mul_pow2; [done..|lia].
Qed.

(** [X] and the unit in the last place, as multiples of [2^-1074]. *)
Lemma significand_near M E (x := exponent_of M E) :
  f64_valid (S754_finite false M E) = true ->
  2 * Z.abs (Zpos M * 2 ^ (E + 1074) - significand M E * 2 ^ (x - m + 1074)) <= 2 ^ (x - m + 1074) /\
  0 < Zpos M * 2 ^ (E + 1074) < 2 ^ (m + 1) * 2 ^ (x - m + 1074) /\
  (1 - bias < x -> 2 ^ m * 2 ^ (x - m + 1074) <= Zpos M * 2 ^ (E + 1074)).
Proof.
  intros Hv. destruct (scaling M E Hv) as (_ & _ & _ & Hx). destruct (valid_cases _ M E Hv) as (_ & H2 & _). fold x in Hx.
  pose proof format_range as (_ & _ & Hb & _). destruct Hfmt as [Hm _ _]. unfold significand. fold x.
  pose proof (nearest_even_units (Zpos M) (E - (x - m)) (x - m + 1074) ltac:(lia) ltac:(lia)) as Hn.
  replace (E - (x - m) + (x - m + 1074)) with (E + 1074) in Hn by lia. split; [exact Hn|].
  destruct (Z.log2_spec (Zpos M) ltac:(lia)) as [Hlo Hhi]. pose proof (Z.log2_nonneg (Zpos M)).
  assert (0 < 2 ^ (E + 1074)) by (apply Z.pow_pos_nonneg; lia). rewrite <-!Z.pow_add_r by lia. split; [split; [nia|]|].
  - apply Z.lt_le_trans with (2 ^ Z.succ (Z.log2 (Z.pos M)) * 2 ^ (E + 1074)); [nia|].
    rewrite <-Z.pow_add_r by lia. apply Z.pow_le_mono_r; unfold x, exponent_of; lia.
  - intros Hnorm. apply Z.le_trans with (2 ^ Z.log2 (Z.pos M) * 2 ^ (E + 1074)); [|nia].
    rewrite <-Z.pow_add_r by lia. apply Z.pow_le_mono_r; unfold x, exponent_of in *; lia.
Qed.

Lemma significand_range M E :
  f64_valid (S754_finite false M E) = true -> 0 <= significand M E <= 2 ^ (m + 1).
Proof.
  intros Hv. destruct (significand_near M E Hv) as (Hn & Hx & _).
  destruct (scaling M E Hv) as (_ & _ & _ & Ha). pose proof format_range as (_ & _ & Hb & _). destruct Hfmt as [Hm _ _].
  assert (0 < 2 ^ (exponent_of M E - m + 1074)) by (apply Z.pow_pos_nonneg; lia). nia.
Qed.

Lemma round_norm M E (x := exponent_of M E) :
  f64_valid (S754_finite false M E) = true -> round_as_u64 (norm false M (E - (x - m))) = significand M E.
Proof.
  intros Hv. destruct (scaling M E Hv) as (_ & _ & Hr & _). fold x in Hr. pose proof (significand_range M E Hv) as Hs.
  destruct (norm_parts false M _ Hr) as (m' & e' & -> & _ & Hm' & Hge & _). simpl.
  assert (nearest_even (Zpos m') e' = significand M E) as ->.
  { rewrite Hm'. replace e' with (E - (x - m) - (E - (x - m) - e')) at 2 by lia. by apply nearest_even_shift. }
  destruct Hfmt as [Hm _ _]. assert (2 ^ (m + 1) <= 2 ^ 11) by (apply Z.pow_le_mono_r; lia). unfold u64_max. lia.
Qed.

(** The exponent and fraction fields of a finite value. *)
Definition packed (M : positive) (E : Z) : Z :=
  let '(sc, x) :=
    if 2 ^ (m + 1) <=? significand M E then (significand M E / 2, exponent_of M E + 1)
    else (significand M E, exponent_of M E) in
  let b := if sc <? 2 ^ m then 0 else x + bias in
  if (if hi then ones - 1 else ones) <? b then overflow_field
  else
    let r := b * 2 ^ m + sc mod 2 ^ m in
    if negb hi && (r =? nan_field) then overflow_field else r.

Lemma sign_lor s : Z.lor (sign_field s) (Z.shiftl ones m) = sign_field s + ones * 2 ^ m.
Proof.
  pose proof format_range as (Hp & Ho & _). pose proof (fields_lor s ones 0 ltac:(lia) ltac:(lia)) as H.
  by rewrite Z.lor_0_r, Z.add_0_r in H.
Qed.

Lemma encode_finite s M E :
  f64_valid (S754_finite s M E) = true -> encode_small (S754_finite s M E) fmt = sign_field s + packed M E.
Proof.
  intros Hv. change (f64_valid (S754_finite false M E) = true) in Hv.
  pose proof format_range as (Hp & Ho & Hb & He2). pose proof (significand_range M E Hv) as HS.
  destruct Hfmt as [Hm He _]. unfold encode_small. cbn [is_sign_negative is_nan SFabs is_zero is_infinite].
  rewrite !Z.shiftl_1_l. fold ones bias. change (if s then 2 ^ (e + m) else 0) with (sign_field s).
  rewrite fields_lor, sign_lor by lia. fold nan_field.
  assert ((if hi then sign_field s + ones * 2 ^ m else sign_field s + nan_field) = sign_field s + overflow_field) as ->
    by (unfold overflow_field; by destruct hi).
  rewrite exponent_bits_of by done. destruct (scaling M E Hv) as (-> & _ & _ & Ha). rewrite round_norm by done.
  unfold packed.
  assert (1 - bias <= exponent_of M E) by (unfold exponent_of; lia).
  assert (2 ^ (m + 1) = 2 ^ m * 2) as Hpow by (rewrite Z.pow_add_r; lia).
  rewrite (Z.shiftr_div_pow2 _ 1), Z.pow_1_r by lia.
  destruct (if 2 ^ (m + 1) <=? significand M E then _ else _) as [sc x] eqn:ESx.
  assert (1 - bias <= x) by (destruct (2 ^ (m + 1) <=? significand M E); simplify_eq; lia).
  set (b := if sc <? 2 ^ m then 0 else x + bias). rewrite land_low by lia.
  destruct (Z.ltb_spec (if hi then ones - 1 else ones) b) as [|Hle]; [done|].
  assert (0 <= b <= ones) as Hbr.
  { split; [unfold b; destruct (sc <? 2 ^ m); lia|]. destruct hi; lia. }
  pose proof (Z.mod_pos_bound sc (2 ^ m) ltac:(lia)).
  rewrite fields_lor by lia. rewrite !sign_ldiff by (unfold nan_field; apply field_range; lia). by destruct (negb hi && _).
Qed.

(** *** Values *)

(** Fields of a finite number, and its value in units of [2^-1074]. *)
Definition finite_fields (b f : Z) : Prop :=
  0 <= b <= ones /\ 0 <= f < 2 ^ m /\ (b = ones -> hi = false /\ f <> 2 ^ m - 1).
Definition field_value (b f : Z) : Z :=
  (if b =? 0 then f else 2 ^ m + f) * 2 ^ (Z.max b 1 - bias - m + 1074).

Lemma ones_pos : 0 < ones.
Proof. pose proof format_range. lia. Qed.

(** A finite magnitude is zero or a normalised significand. *)
Lemma magnitude_finite b f :
  finite_fields b f ->
  magnitude_of b f =
    let n := if b =? 0 then f else 2 ^ m + f in
    if n =? 0 then S754_zero false else norm false (Z.to_pos n) (Z.max b 1 - bias - m).
Proof.
  intros (Hb & Hf & Hfin). pose proof format_range as (Hp & Ho & _ & _). unfold magnitude_of.
  destruct (Z.eqb_spec b ones) as [->|Hne]; simpl.
  - destruct (Hfin eq_refl) as [-> Hf2]. destruct (Z.eqb_spec f (2 ^ m - 1)); [done|]. destruct (Z.eqb_spec ones 0); [lia|].
    destruct (Z.eqb_spec (2 ^ m + f) 0); [lia|]. f_equal. lia.
  - destruct (Z.eqb_spec b 0) as [->|Hb0]; [done|]. destruct (Z.eqb_spec (2 ^ m + f) 0); [lia|]. f_equal. lia.
Qed.

(** The packed fields of a finite value are those of its significand. *)
Lemma packed_fields M E (x := exponent_of M E) (sc := significand M E) :
  f64_valid (S754_finite false M E) = true ->
  exists b f, 0 <= b /\ 0 <= f < 2 ^ m /\ field_value b f = sc * 2 ^ (x - m + 1074) /\
    (finite_fields b f -> packed M E = b * 2 ^ m + f) /\
    (~ finite_fields b f -> packed M E = overflow_field).
Proof.
  intros Hv. pose proof (significand_range M E Hv) as HS. destruct (significand_near M E Hv) as (Hn & _ & Hnorm).
  fold x sc in HS, Hn, Hnorm. pose proof format_range as (Hp & Ho & Hbias & He2). destruct Hfmt as [Hm He _].
  assert (2 ^ (m + 1) = 2 ^ m * 2) as Hpow by (rewrite Z.pow_add_r; lia).
  assert (1 - bias <= x) as Hx by (unfold x, exponent_of; lia).
  assert (0 < 2 ^ (x - m + 1074)) as Hq by (apply Z.pow_pos_nonneg; lia).
  unfold packed. fold x sc.
  assert (exists sc' x', (if 2 ^ (m + 1) <=? sc then (sc / 2, x + 1) else (sc, x)) = (sc', x') /\ 1 - bias <= x' /\
     0 <= sc' < 2 ^ m * 2 /\ (sc' < 2 ^ m -> x' = 1 - bias) /\ sc' * 2 ^ (x' - m + 1074) = sc * 2 ^ (x - m + 1074))
    as (sc' & x' & -> & Hx' & Hsc' & Hsub & Hval).
  { destruct (Z.leb_spec (2 ^ (m + 1)) sc) as [Hbig|Hsmall]; eexists _, _; (split; [reflexivity|]).
    - assert (sc = 2 * 2 ^ m) as -> by lia. rewrite (Z.mul_comm 2), Z.div_mul by lia. split_and!; try lia.
      replace (x + 1 - m + 1074) with (Z.succ (x - m + 1074)) by lia. rewrite Z.pow_succ_r by lia. lia.
    - split_and!; try lia. intros Hlt. destruct (Z.eq_dec x (1 - bias)) as [|Hne]; [done|].
      specialize (Hnorm ltac:(lia)). nia. }
  exists (if sc' <? 2 ^ m then 0 else x' + bias), (sc' mod 2 ^ m). pose proof (Z.mod_pos_bound sc' (2 ^ m) ltac:(lia)) as Hmod.
  split; [destruct (sc' <? 2 ^ m); lia|]. split; [done|]. split.
  { rewrite <-Hval. unfold field_value. destruct (Z.ltb_spec sc' (2 ^ m)) as [Hlt|Hge].
    - simpl. rewrite Z.mod_small, (Hsub Hlt) by lia. do 2 f_equal; lia.
    - destruct (Z.eqb_spec (x' + bias) 0); [lia|].
      rewrite (Z.mod_eq sc') by lia. replace (sc' / 2 ^ m) with 1 by (apply (Z.div_unique _ _ _ (sc' - 2 ^ m)); lia).
      f_equal; [lia|]. f_equal. lia. }
  set (b := if sc' <? 2 ^ m then 0 else x' + bias). set (f := sc' mod 2 ^ m) in *.
  assert (0 <= b) by (unfold b; destruct (sc' <? 2 ^ m); lia). unfold finite_fields, nan_field.
  destruct (Z.ltb_spec (if hi then ones - 1 else ones) b) as [Hov|Hok].
  - split; [|done]. intros (Hb & _ & Hfin). destruct hi; [|lia]. by destruct (Hfin ltac:(lia)).
  - destruct hi; simpl.
    { split; [done|]. intros Hnf. exfalso. apply Hnf. split; [lia|]. split; [done|lia]. }
    destruct (Z.eqb_spec (b * 2 ^ m + f) (ones * 2 ^ m + (2 ^ m - 1))) as [Heq|Hne].
    + split; [|done]. intros (_ & _ & Hfin). assert (b = ones) as Hbo by nia. destruct (Hfin Hbo) as [_ []]. nia.
    + split; [done|]. intros Hnf. exfalso. apply Hnf. split_and!; lia.
Qed.

(** *** The nearest value *)

(** [V] is the value of the fields nearest to [X], or [X] is beyond them all. *)
Lemma significand_nearest M E b f (X := Zpos M * 2 ^ (E + 1074)) (V := significand M E * 2 ^ (exponent_of M E - m + 1074)) :
  f64_valid (S754_finite false M E) = true -> finite_fields b f ->
  Z.abs (X - V) <= Z.abs (X - field_value b f) /\ Z.abs (X - V) <= X.
Proof.
  intros Hv (Hb & Hf & _). destruct (significand_near M E Hv) as (Hn & HX & Hnorm).
  destruct (scaling M E Hv) as (_ & _ & _ & Hx). pose proof format_range as (Hp & Ho & Hbias & He2). destruct Hfmt as [Hm He _].
  fold X in Hn, HX, Hnorm. unfold V. set (a := exponent_of M E - m + 1074) in *. set (sc := significand M E) in *.
  assert (0 < 2 ^ a) as Hq by (apply Z.pow_pos_nonneg; lia).
  assert (forall T, Z.abs (X - sc * 2 ^ a) <= Z.abs (X - T * 2 ^ a)) as Hnear.
  { intros T. destruct (Z.eq_dec T sc) as [->|]; [lia|]. nia. }
  split; [|specialize (Hnear 0); lia]. unfold field_value.
  set (n := if b =? 0 then f else 2 ^ m + f). set (k := Z.max b 1 - bias - m + 1074).
  assert (0 <= n < 2 ^ m * 2) by (unfold n; destruct (b =? 0); lia).
  destruct (Z.le_gt_cases a k) as [Hle|Hgt].
  - replace (2 ^ k) with (2 ^ (k - a) * 2 ^ a) by (rewrite <-Z.pow_add_r by lia; f_equal; lia). rewrite Z.mul_assoc. apply Hnear.
  - assert (1 - bias < exponent_of M E) as Hxn by (unfold k, a in Hgt; lia). specialize (Hnorm Hxn).
    pose proof (Hnear (2 ^ m)) as H2. assert (0 <= k) by (unfold k; lia).
    assert (2 ^ k * 2 <= 2 ^ a) by (rewrite Z.mul_comm, <-Z.pow_succ_r by lia; apply Z.pow_le_mono_r; lia).
    assert (0 < 2 ^ k) by (apply Z.pow_pos_nonneg; lia). assert (n * 2 ^ k <= 2 ^ m * 2 ^ a) by nia. lia.
Qed.

(** Fields are ordered as the values they stand for. *)
Lemma field_value_mono b f b' f' :
  0 <= b -> 0 <= f < 2 ^ m -> 0 <= b' -> 0 <= f' < 2 ^ m -> b * 2 ^ m + f < b' * 2 ^ m + f' ->
  field_value b f < field_value b' f'.
Proof.
  intros Hb Hf Hb' Hf' Hle. pose proof format_range as (Hp & _ & Hbias & _). destruct Hfmt as [Hm _ _]. unfold field_value.
  set (k := Z.max b 1 - bias - m + 1074). set (k' := Z.max b' 1 - bias - m + 1074).
  assert (b <= b') by nia. assert (0 < 2 ^ k) by (apply Z.pow_pos_nonneg; unfold k; lia).
  destruct (Z.eq_dec b b') as [->|Hne].
  - change k with k' in *. apply Z.mul_lt_mono_pos_r; [done|]. destruct (b' =? 0); lia.
  - destruct (Z.eqb_spec b' 0); [lia|]. destruct (Z.eqb_spec b 0) as [->|].
    + assert (2 ^ k <= 2 ^ k') by (apply Z.pow_le_mono_r; unfold k'; lia). nia.
    + assert (2 ^ k * 2 <= 2 ^ k').
      { rewrite Z.mul_comm, <-Z.pow_succ_r by (unfold k; lia). apply Z.pow_le_mono_r; unfold k, k'; lia. }
      nia.
Qed.

(** A value that overflows is above every finite one. *)
Lemma overflow_above M E b f b' f' (X := Zpos M * 2 ^ (E + 1074)) :
  f64_valid (S754_finite false M E) = true -> 0 <= b -> 0 <= f < 2 ^ m ->
  field_value b f = significand M E * 2 ^ (exponent_of M E - m + 1074) ->
  ~ finite_fields b f -> finite_fields b' f' -> field_value b' f' <= X.
Proof.
  intros Hv Hb Hf HV Hnf Hfin. destruct (significand_nearest M E b' f' Hv Hfin) as [Hnear _]. rewrite <-HV in Hnear. fold X in Hnear.
  assert (field_value b' f' < field_value b f); [|lia]. pose proof format_range as (Hp & _).
  destruct Hfin as (Hb' & Hf' & Ho'). apply field_value_mono; try lia.
  destruct (Z.lt_ge_cases (b' * 2 ^ m + f') (b * 2 ^ m + f)) as [|Hge]; [done|]. exfalso. apply Hnf.
  split_and!; try lia; [nia|]. intros ->. destruct (Ho' ltac:(nia)). split; [done|]. nia.
Qed.

(** *** Round trip *)

Lemma norm_valid s n k : representable n k -> f64_valid (norm s n k) = true.
Proof.
  intros Hr. destruct (norm_parts s n k Hr) as (m' & e' & -> & He' & _ & _ & _ & Hlog). destruct Hr as [_ Hmax].
  unfold f64_valid, valid_binary, bounded, canonical_mantissa. change (Zpos (digits2_pos m')) with (Zdigits2 (Zpos m')).
  rewrite fexp_ulp, Hlog. replace (Z.log2 (Z.pos n) + (k - e') + e') with (Z.log2 (Zpos n) + k) by lia.
  rewrite <-He'. unfold ulp_exp in He'. lia.
Qed.

Lemma encode_norm s n k :
  representable n k -> 1 - bias - m <= k -> k = Z.max (Z.log2 (Zpos n) + k) (1 - bias) - m ->
  finite_fields (if Zpos n <? 2 ^ m then 0 else k + bias + m) (Zpos n mod 2 ^ m) -> Zpos n < 2 ^ (m + 1) ->
  encode_small (norm s n k) fmt =
    sign_field s + ((if Zpos n <? 2 ^ m then 0 else k + bias + m) * 2 ^ m + Zpos n mod 2 ^ m).
Proof.
  intros Hr Hk Hkx Hfin Hn. pose proof (norm_valid false n k Hr) as Hv.
  destruct (norm_parts s n k Hr) as (M & E & Hs & _). destruct (norm_parts false n k Hr) as (M' & E' & Hs' & HE & HM & Hge & _ & Hlog).
  assert (M' = M /\ E' = E) as [-> ->] by (unfold norm in Hs, Hs'; by simplify_eq).
  rewrite Hs' in Hv. rewrite Hs, encode_finite by done. f_equal.
  assert (exponent_of M E = k + m) as Hx.
  { unfold exponent_of. rewrite Hlog. replace (Z.log2 (Z.pos n) + (k - E) + E) with (Z.log2 (Zpos n) + k) by lia. lia. }
  assert (significand M E = Zpos n) as HS.
  { unfold significand. rewrite Hx, HM. replace (E - (k + m - m)) with (0 - (k - E)) by lia. rewrite nearest_even_shift by lia.
    unfold nearest_even. simpl. lia. }
  unfold packed. rewrite HS, Hx. destruct (Z.leb_spec (2 ^ (m + 1)) (Zpos n)); [lia|].
  replace (k + m + bias) with (k + bias + m) by lia.
  set (b := if Zpos n <? 2 ^ m then 0 else k + bias + m) in *. destruct Hfin as (Hb & Hf & Ho).
  destruct (Z.ltb_spec (if hi then ones - 1 else ones) b).
  { destruct hi; [|lia]. by destruct (Ho ltac:(lia)). }
  destruct (negb hi && _) eqn:Enan; [|done]. apply andb_prop in Enan as [_ Enan]. exfalso. unfold nan_field in Enan.
  assert (b = ones) as Hbo by nia. destruct (Ho Hbo) as [_ Hne]. apply Hne. nia.
Qed.

Lemma roundtrip_fields (s : bool) b f :
  0 <= b <= ones -> 0 <= f < 2 ^ m -> is_nan (magnitude_of b f) = false ->
  encode_small ((if s then SFopp else id) (magnitude_of b f)) fmt = sign_field s + (b * 2 ^ m + f).
Proof.
  intros Hb Hf Hnan. pose proof format_range as (Hp & Ho & Hbias & He2). pose proof Hfmt as [Hm He _].
  destruct (decide (b = ones /\ hi = true)) as [[-> Hhi]|Hnot].
  - unfold magnitude_of in *. rewrite Z.eqb_refl, Hhi in *. simpl in *. destruct (Z.eqb_spec f 0) as [->|]; [|done].
    rewrite Z.add_0_r. rewrite <-sign_lor. unfold encode_small. rewrite Hhi, !Z.shiftl_1_l. fold ones. by destruct s.
  - assert (finite_fields b f) as Hfin.
    { split; [done|]. split; [done|]. intros ->. split; [by destruct hi; [destruct Hnot|]|]. intros ->.
      unfold magnitude_of in Hnan. rewrite !Z.eqb_refl in Hnan. destruct hi; [by destruct Hnot|done]. }
    rewrite magnitude_finite by done. cbv zeta.
    assert (2 ^ (m + 1) = 2 ^ m * 2) as Hpow by (rewrite Z.pow_add_r; lia).
    set (n := if b =? 0 then f else 2 ^ m + f). set (k := Z.max b 1 - bias - m).
    destruct (Z.eqb_spec n 0) as [Hn0|Hn0].
    { assert (b = 0 /\ f = 0) as [-> ->] by (unfold n in Hn0; destruct (Z.eqb_spec b 0); lia).
      unfold encode_small. rewrite !Z.shiftl_1_l. by destruct s; simpl; rewrite ?Z.add_0_r. }
    assert (0 < n < 2 ^ (m + 1)) as Hnr by (unfold n in *; destruct (b =? 0); lia).
    destruct (small_representable n k Hnr) as [Hr _]; [unfold k, ones in *; lia|].
    assert ((if s then SFopp else id) (norm false (Z.to_pos n) k) = norm s (Z.to_pos n) k) as -> by (by destruct s).
    assert (n < 2 ^ m <-> b = 0) as Hnb by (unfold n; destruct (Z.eqb_spec b 0); lia).
    assert ((if n <? 2 ^ m then 0 else k + bias + m) = b) as Hbk by (unfold k; destruct (Z.ltb_spec n (2 ^ m)); lia).
    assert (n mod 2 ^ m = f) as Hfm.
    { unfold n. destruct (b =? 0); [by apply Z.mod_small|]. rewrite <-(Z.mul_1_l (2 ^ m)) at 1.
      rewrite Z.add_comm, Z.mod_add by lia. by apply Z.mod_small. }
    rewrite encode_norm; rewrite ?Z2Pos.id, ?Hbk, ?Hfm by lia; try done; try (unfold k; lia).
    unfold k. destruct (Z.eq_dec b 0) as [->|Hb0].
    + pose proof (log2_below n m ltac:(lia)). lia.
    + assert (Z.log2 n = m) as -> by (apply Z.log2_unique; rewrite ?Z.pow_succ_r; lia). lia.
Qed.
End SmallFormat.

(** ** Theorems *)

#[export] Instance format_small w fmt : format w = Some fmt -> SmallFormat fmt.
Proof. destruct w; intros [= <-]; split; simpl; lia. Qed.

Lemma format_bytes w fmt : format w = Some fmt -> exponent_bits fmt + mantissa_bits fmt + 1 = 8 * FloatWidth.bytes w.
Proof. by destruct w; intros [= <-]. Qed.

(** A pattern of the width of a format is a sign and two fields. *)
Lemma pattern_fields w fmt bits :
  format w = Some fmt -> 0 <= bits < 2 ^ (8 * FloatWidth.bytes w) ->
  exists s b f, bits = sign_field fmt s + (b * 2 ^ mantissa_bits fmt + f) /\ 0 <= b <= ones fmt /\ 0 <= f < 2 ^ mantissa_bits fmt.
Proof.
  intros Hw Hb. pose proof (format_small w fmt Hw) as Hfmt. pose proof Hfmt as [Hm He _].
  rewrite <-(format_bytes w fmt Hw), Z.pow_add_r, Z.pow_1_r in Hb by lia.
  set (m := mantissa_bits fmt) in *. set (e := exponent_bits fmt) in *.
  assert (2 ^ (e + m) = 2 ^ e * 2 ^ m) as Hpow by (apply Z.pow_add_r; lia).
  assert (0 < 2 ^ m) by (apply Z.pow_pos_nonneg; lia). assert (0 < 2 ^ e) by (apply Z.pow_pos_nonneg; lia).
  set (r := bits mod 2 ^ (e + m)). pose proof (Z.mod_pos_bound bits (2 ^ (e + m)) ltac:(lia)) as Hr. fold r in Hr.
  exists (2 ^ (e + m) <=? bits), (r / 2 ^ m), (r mod 2 ^ m). pose proof (Z.div_mod r (2 ^ m) ltac:(lia)).
  pose proof (Z.mod_pos_bound r (2 ^ m) ltac:(lia)). unfold ones. fold e. split; [|nia].
  unfold sign_field. fold e m. destruct (Z.leb_spec (2 ^ (e + m)) bits).
  - unfold r in *. rewrite (Z.mod_eq bits) in * by lia.
    replace (bits / 2 ^ (e + m)) with 1 in * by (apply (Z.div_unique _ _ _ (bits - 2 ^ (e + m))); lia). lia.
  - unfold r in *. rewrite (Z.mod_small bits) in * by lia. lia.
Qed.

Lemma decode_pattern w fmt bits :
  format w = Some fmt -> 0 <= bits < 2 ^ (8 * FloatWidth.bytes w) -> FloatBits.decode w bits = Some (decode_small bits fmt).
Proof.
  intros Hw Hb. assert (wrap 32 bits = bits) as E.
  { apply Z.mod_small. split; [lia|]. eapply Z.lt_le_trans; [apply Hb|]. apply Z.pow_le_mono_r; [lia|]. by destruct w; simpl. }
  unfold FloatBits.decode. rewrite E, Hw. by destruct w.
Qed.

(** Every bit pattern of [f16], [bf16], [f8e4m3] and [f8e5m2] that is not a
    NaN is decoded to an [f64] that encodes to the same pattern. *)
Theorem small_float_roundtrip w bits v :
  is_Some (format w) -> 0 <= bits < 2 ^ (8 * FloatWidth.bytes w) ->
  FloatBits.decode w bits = Some v -> is_nan v = false -> FloatBits.encode w v = Some bits.
Proof.
  intros [fmt Hw] Hb. rewrite (decode_pattern w fmt bits Hw Hb). intros [= <-] Hnan.
  pose proof (format_small w fmt Hw) as Hfmt. destruct (pattern_fields w fmt bits Hw Hb) as (s & b & f & -> & Hbr & Hfr).
  rewrite decode_fields in * by done. assert (is_nan (magnitude_of fmt b f) = false) as Hn.
  { destruct s; [|done]. by destruct (magnitude_of fmt b f). }
  unfold FloatBits.encode. rewrite Hw. destruct w; try done; simpl; f_equal; by apply roundtrip_fields.
Qed.

(** The runtime numbers the formats as the code generators do. *)
Definition small_float_code (w : FloatWidth) : option Z :=
  match w with F16 => Some 0 | BF16 => Some 1 | F8E4M3 => Some 2 | F8E5M2 => Some 3 | F64 | F32 => None end.

(** Compiled code and the compiler agree on every float conversion: for each
    of the formats, the runtime's [float_from_f64] (which multiplies by a power
    of two) gives the bits of the compiler's [encode_small] (which divides) on
    every [f64], and [float_to_f64] gives the value of [decode_small]. *)
Theorem runtime_floats_agree w fmt code value bits :
  format w = Some fmt -> small_float_code w = Some code -> f64_valid value = true ->
  float_from_f64 value code = Some (encode_small value fmt) /\ float_to_f64 bits code = Some (decode_small bits fmt).
Proof.
  intros Hw Hc Hv. pose proof (format_small w fmt Hw) as Hfmt.
  assert (float_format code = Some (exponent_bits fmt, mantissa_bits fmt, has_infinity fmt)) as Hf
    by (destruct w; simpl in Hw, Hc; simplify_eq; done).
  unfold float_from_f64, float_to_f64. rewrite Hf. split; [|done]. f_equal. unfold encode_small.
  destruct value as [s|s| |s M E]; try done. cbn [is_sign_negative is_nan SFabs is_zero is_infinite].
  change (f64_valid (S754_finite false M E) = true) in Hv.
  rewrite !Z.shiftl_1_l. fold (ones fmt) (bias fmt). rewrite exponent_bits_of by done.
  destruct (scaling fmt M E Hv) as (-> & -> & _ & _). done.
Qed.

(** The value of a finite [f64], in units of [2^-1074]. *)
Definition units (x : f64) : option Z :=
  match x with
  | S754_zero _ => Some 0
  | S754_finite s M E => Some ((if s then -1 else 1) * (Zpos M * 2 ^ (E + 1074)))
  | _ => None
  end.

Section Values.
Context (fmt : Format) {Hfmt : SmallFormat fmt}.

Lemma magnitude_units b f : finite_fields fmt b f -> units (magnitude_of fmt b f) = Some (field_value fmt b f).
Proof.
  intros Hfin. rewrite magnitude_finite by done. cbv zeta. unfold field_value.
  pose proof (format_range fmt) as (Hp & Ho & Hbias & He2). destruct Hfin as (Hb & Hf & _). pose proof Hfmt as [Hm He _].
  set (n := if b =? 0 then f else 2 ^ mantissa_bits fmt + f). destruct (Z.eqb_spec n 0) as [->|Hn]; [done|].
  assert (2 ^ (mantissa_bits fmt + 1) = 2 ^ mantissa_bits fmt * 2) by (rewrite Z.pow_add_r; lia).
  assert (0 < n < 2 ^ (mantissa_bits fmt + 1)) as Hnr by (unfold n in *; destruct (b =? 0); lia).
  set (k := Z.max b 1 - bias fmt - mantissa_bits fmt).
  destruct (small_representable fmt n k Hnr) as [Hr _]; [unfold k, ones in *; lia|].
  destruct (norm_parts false (Z.to_pos n) k Hr) as (M & E & -> & _ & HM & Hge & Hmin & _). simpl. rewrite HM, Z2Pos.id by lia.
  rewrite Z.mul_1_l, <-Z.mul_assoc, <-Z.pow_add_r by lia. do 3 f_equal. lia.
Qed.

Lemma magnitude_not_finite b f :
  0 <= b <= ones fmt -> 0 <= f < 2 ^ mantissa_bits fmt -> ~ finite_fields fmt b f -> units (magnitude_of fmt b f) = None.
Proof.
  intros Hb Hf Hnf. unfold magnitude_of. destruct (Z.eqb_spec b (ones fmt)) as [->|Hne]; simpl.
  - destruct (has_infinity fmt) eqn:Hi; [by destruct (f =? 0)|]. destruct (Z.eqb_spec f (2 ^ mantissa_bits fmt - 1)); [done|].
    destruct Hnf. split; [lia|]. split; [done|]. done.
  - destruct Hnf. split; [lia|]. split; [done|]. lia.
Qed.

Lemma opp_units (s : bool) x : units ((if s then SFopp else id) x) = (fun V => (if s then -1 else 1) * V) <$> units x.
Proof. destruct s, x as [[]|[]| |[] ? ?]; simpl; try done; f_equal; lia. Qed.

Lemma field_value_nonneg b f : finite_fields fmt b f -> 0 <= field_value fmt b f.
Proof.
  intros (Hb & Hf & _). unfold field_value. apply Z.mul_nonneg_nonneg; [destruct (b =? 0); lia|]. apply Z.pow_nonneg. lia.
Qed.

(** The overflow pattern holds no finite number. *)
Lemma overflow_fields :
  exists g, overflow_field fmt = ones fmt * 2 ^ mantissa_bits fmt + g /\ 0 <= g < 2 ^ mantissa_bits fmt /\
    ~ finite_fields fmt (ones fmt) g.
Proof.
  pose proof (format_range fmt) as (Hp & _). unfold overflow_field, nan_field.
  destruct (has_infinity fmt) eqn:Hi; [exists 0|exists (2 ^ mantissa_bits fmt - 1)];
    (split; [lia|]); (split; [lia|]); intros (_ & _ & Hg); destruct (Hg eq_refl); congruence.
Qed.

Lemma finite_fields_dec b f : finite_fields fmt b f \/ ~ finite_fields fmt b f.
Proof. unfold finite_fields. destruct (has_infinity fmt); lia. Qed.

Lemma encode_range x :
  f64_valid x = true -> is_Some (units x) -> 0 <= encode_small x fmt < 2 ^ (exponent_bits fmt + mantissa_bits fmt + 1).
Proof.
  intros Hv [X HX]. pose proof (format_range fmt) as (Hp & Ho & _ & _). pose proof Hfmt as [Hm He _].
  set (w := exponent_bits fmt + mantissa_bits fmt) in *. rewrite Z.pow_add_r, Z.pow_1_r by lia.
  assert (0 < 2 ^ w) as Hw by (apply Z.pow_pos_nonneg; lia).
  assert (forall s r, 0 <= r < 2 ^ w -> 0 <= sign_field fmt s + r < 2 ^ w * 2) as Hsg
    by (intros [] r; unfold sign_field; fold w; lia).
  destruct x as [s|s| |s M E]; try done.
  - unfold encode_small. rewrite !Z.shiftl_1_l. pose proof (Hsg s 0 ltac:(lia)) as H. by rewrite Z.add_0_r in H; destruct s.
  - rewrite encode_finite by done. apply Hsg. change (f64_valid (S754_finite false M E) = true) in Hv.
    destruct (packed_fields fmt M E Hv) as (b & f & Hb & Hf & _ & Hok & Hov).
    destruct (finite_fields_dec b f) as [Hfin|Hnf].
    + rewrite (Hok Hfin). apply field_range; [done|apply Hfin|done].
    + rewrite (Hov Hnf). destruct overflow_fields as (g & -> & Hg & _). apply field_range; [done|lia|done].
Qed.

(** The value of an encoded number against that of any fields. *)
Lemma encode_nearest x X s' b' f' :
  f64_valid x = true -> units x = Some X -> finite_fields fmt b' f' ->
  let V' := (if s' : bool then -1 else 1) * field_value fmt b' f' in
  match units (decode_small (encode_small x fmt) fmt) with
  | Some V => Z.abs (X - V) <= Z.abs (X - V')
  | None => Z.abs V' <= Z.abs X
  end.
Proof.
  intros Hv HX Hfin' V'. pose proof (field_value_nonneg b' f' Hfin') as Hpos'. pose proof (format_range fmt) as (Hp & Ho & _ & _).
  destruct x as [s|s| |s M E]; simplify_eq/=.
  - assert (finite_fields fmt 0 0) as Hz by (split_and!; lia).
    assert (encode_small (S754_zero s) fmt = sign_field fmt s + (0 * 2 ^ mantissa_bits fmt + 0)) as ->.
    { unfold encode_small. rewrite !Z.shiftl_1_l. destruct s; simpl; by rewrite ?Z.add_0_r. }
    rewrite decode_fields, opp_units, magnitude_units by (done || lia). unfold field_value. destruct s; simpl; lia.
  - rewrite encode_finite by done. change (f64_valid (S754_finite false M E) = true) in Hv.
    destruct (packed_fields fmt M E Hv) as (b & f & Hb & Hf & HV & Hok & Hov).
    destruct (significand_nearest fmt M E b' f' Hv Hfin') as [Hnear Hself]. rewrite <-HV in Hnear, Hself.
    set (Y := Z.pos M * 2 ^ (E + 1074)) in *. assert (0 <= Y) by (apply Z.mul_nonneg_nonneg; [lia|apply Z.pow_nonneg; lia]).
    destruct (finite_fields_dec b f) as [Hfin|Hnf].
    + rewrite (Hok Hfin). pose proof Hfin as (Hbr & _). rewrite decode_fields, opp_units, magnitude_units by done. simpl.
      unfold V'. destruct s, s'; lia.
    + rewrite (Hov Hnf). pose proof (overflow_above fmt M E b f b' f' Hv Hb Hf HV Hnf Hfin') as Hab. fold Y in Hab.
      assert (units (decode_small (sign_field fmt s + overflow_field fmt) fmt) = None) as ->;
        [|unfold V'; destruct s, s'; lia].
      destruct overflow_fields as (g & -> & Hg & Hgn).
      rewrite decode_fields, opp_units, magnitude_not_finite by (done || lia). done.
Qed.
End Values.

(** C40: [FloatWidth::round] to a small format is rounding to nearest: when the
    result is finite, no value of the format is closer to the argument; when
    the result is an infinity or a NaN, the argument is finite only if no
    value of the format exceeds it in magnitude. *)
Theorem small_float_round_nearest w x X r bits v V' :
  is_Some (format w) -> f64_valid x = true -> units x = Some X -> FloatBits.round w x = Some r ->
  0 <= bits < 2 ^ (8 * FloatWidth.bytes w) -> FloatBits.decode w bits = Some v -> units v = Some V' ->
  match units r with
  | Some V => Z.abs (X - V) <= Z.abs (X - V')
  | None => Z.abs V' <= Z.abs X
  end.
Proof.
  intros [fmt Hw] Hv HX Hr Hb Hd HV'. pose proof (format_small w fmt Hw) as Hfmt.
  rewrite (decode_pattern w fmt bits Hw Hb) in Hd. injection Hd as <-.
  destruct (pattern_fields w fmt bits Hw Hb) as (s' & b' & f' & -> & Hbr & Hfr).
  rewrite decode_fields, opp_units in HV' by done.
  assert (finite_fields fmt b' f') as Hfin.
  { destruct (decide (b' = ones fmt /\ (has_infinity fmt = true \/ f' = 2 ^ mantissa_bits fmt - 1))) as [Hn|Hn].
    - rewrite magnitude_not_finite in HV' by (done || (intros (_ & _ & Hg); destruct Hn as [? []]; destruct (Hg ltac:(done)); congruence)).
      done.
    - split_and!; try lia. intros ->. destruct (has_infinity fmt); lia. }
  rewrite magnitude_units in HV' by done. injection HV' as <-.
  pose proof (encode_nearest fmt x X s' b' f' Hv HX Hfin) as Hnear.
  assert (r = decode_small (encode_small x fmt) fmt) as ->; [|exact Hnear].
  pose proof (encode_range fmt x Hv ltac:(by rewrite HX)) as Hrange. rewrite (format_bytes w fmt Hw) in Hrange.
  assert (FloatBits.encode w x = Some (encode_small x fmt)) as He by (unfold FloatBits.encode; rewrite Hw; by destruct w).
  assert (FloatBits.round w x = (bits ← FloatBits.encode w x; FloatBits.decode w bits)) as Hrd by (by destruct w).
  rewrite Hrd, He in Hr. simpl in Hr. rewrite (decode_pattern w fmt _ Hw Hrange) in Hr. by injection Hr.
Qed.

Lemma small_float_roundtrip_witness :
  FloatBits.encode F16 (f64_from 65504) = Some 0x7bff /\ FloatBits.encode BF16 (SFopp (pow2 127)) = Some 0xff00.
Proof.
  split.
  - apply (small_float_roundtrip F16 0x7bff); [by eexists|split; done|by vm_compute|done].
  - apply (small_float_roundtrip BF16 0xff00); [by eexists|split; done|by vm_compute|done].
Defined.

Lemma runtime_floats_agree_witness :
  float_from_f64 (f64_from 448) 2 = Some 0x7e /\ float_from_f64 (f64_from 500) 2 = Some 0x7f.
Proof.
  split.
  - destruct (runtime_floats_agree F8E4M3 (mkFormat 4 3 false) 2 (f64_from 448) 0 eq_refl eq_refl eq_refl) as [-> _]. by vm_compute.
  - destruct (runtime_floats_agree F8E4M3 (mkFormat 4 3 false) 2 (f64_from 500) 0 eq_refl eq_refl eq_refl) as [-> _]. by vm_compute.
Defined.

(** [17] is halfway between the neighbours [16] and [18] of [f8e4m3]. *)
Lemma small_float_round_nearest_witness :
  FloatBits.round F8E4M3 (f64_from 17) = Some (f64_from 16) /\ Z.abs (17 * 2 ^ 1074 - 16 * 2 ^ 1074) <= Z.abs (17 * 2 ^ 1074 - 18 * 2 ^ 1074).
Proof.
  split; [by vm_compute|].
  apply (small_float_round_nearest F8E4M3 (f64_from 17) (17 * 2 ^ 1074) (f64_from 16) 0x59 (f64_from 18) (18 * 2 ^ 1074));
    [by eexists|by vm_compute|by vm_compute|by vm_compute|split; done|by vm_compute|by vm_compute].
Defined.
