(* ===== verification/FloatRound.v ===== *)
(** The bit encodings of all float widths read back: [FloatWidth::encode] and
    [FloatWidth::decode] of [paco-types/src/floats.rs] on [f64] and [f32], where
    they are the conversions of the language, beside the small formats of
    [Floats]. *)
From S2P Require Import Prelude Types Floats.
From Stdlib Require Import Floats.SpecFloat.
Open Scope Z_scope.

(** ** The fields of a pattern *)

Section Fields.
Context (p x w : Z).
Hypothesis (Hp : 2 <= p) (Hw : 2 <= w) (Hx : 2 * x = 2 ^ w).

Definition sign_bit (s : bool) : Z := if s then 2 ^ (p - 1 + w) else 0.

Lemma pow_split : 2 ^ (p - 1 + w) = 2 ^ w * 2 ^ (p - 1) /\ 0 < 2 ^ (p - 1) /\ 0 < 2 ^ w.
Proof using Hp Hw. rewrite Z.pow_add_r by lia. split; [lia|]. split; apply Z.pow_pos_nonneg; lia. Qed.

Lemma fields_of_pattern bits : 0 <= bits < 2 ^ (p + w) ->
  exists s b f, bits = sign_bit s + (b * 2 ^ (p - 1) + f) /\ 0 <= b <= 2 * x - 1 /\ 0 <= f < 2 ^ (p - 1).
Proof using Hp Hw Hx.
  intros Hb. destruct pow_split as (E & H1 & H2). replace (p + w) with (Z.succ (p - 1 + w)) in Hb by lia.
  rewrite Z.pow_succ_r in Hb by lia. set (r := bits mod 2 ^ (p - 1 + w)).
  pose proof (Z.mod_pos_bound bits (2 ^ (p - 1 + w)) ltac:(lia)) as Hr. fold r in Hr.
  pose proof (Z.div_mod r (2 ^ (p - 1)) ltac:(lia)). pose proof (Z.mod_pos_bound r (2 ^ (p - 1)) ltac:(lia)).
  exists (2 ^ (p - 1 + w) <=? bits), (r / 2 ^ (p - 1)), (r mod 2 ^ (p - 1)). rewrite Hx. split; [|nia].
  unfold sign_bit. destruct (Z.leb_spec (2 ^ (p - 1 + w)) bits).
  - unfold r in *. rewrite (Z.mod_eq bits) in * by lia.
    replace (bits / 2 ^ (p - 1 + w)) with 1 in * by (apply (Z.div_unique _ _ _ (bits - 2 ^ (p - 1 + w))); lia). lia.
  - unfold r in *. rewrite (Z.mod_small bits) in * by lia. lia.
Qed.

Lemma pattern_of_fields s b f : 0 <= b <= 2 * x - 1 -> 0 <= f < 2 ^ (p - 1) ->
  Z.lor (Z.lor (sign_bit s) (Z.shiftl b (p - 1))) f = sign_bit s + (b * 2 ^ (p - 1) + f).
Proof using Hp Hw Hx.
  intros Hb Hf. destruct pow_split as (E & H1 & H2). rewrite Z.shiftl_mul_pow2 by lia.
  assert (sign_bit s = (if s then 2 ^ w else 0) * 2 ^ (p - 1)) as -> by (unfold sign_bit; destruct s; lia).
  replace (Z.lor ((if s then 2 ^ w else 0) * 2 ^ (p - 1)) (b * 2 ^ (p - 1))) with (((if s then 2 ^ w else 0) + b) * 2 ^ (p - 1)).
  - rewrite lor_add by lia. lia.
  - destruct s; [|done]. replace (2 ^ w * 2 ^ (p - 1)) with (1 * 2 ^ (p - 1 + w)) by lia. rewrite lor_add by nia. nia.
Qed.

Lemma log2_width : Z.log2 (2 * x) = w.
Proof using Hw Hx. rewrite Hx. apply Z.log2_pow2. lia. Qed.

(** The value of a pattern, from its fields *)
Definition float_of (s : bool) (b f : Z) : spec_float :=
  if b =? 2 * x - 1 then (if f =? 0 then S754_infinity s else S754_nan)
  else if b =? 0 then match f with Zpos m => S754_finite s m (3 - x - p) | _ => S754_zero s end
  else match f + 2 ^ (p - 1) with Zpos m => S754_finite s m (b - 1 + (3 - x - p)) | _ => S754_nan end.

Lemma from_bits_fields s b f : 0 <= b <= 2 * x - 1 -> 0 <= f < 2 ^ (p - 1) ->
  from_bits p x (sign_bit s + (b * 2 ^ (p - 1) + f)) = float_of s b f.
Proof using Hp Hw Hx.
  intros Hb Hf. destruct pow_split as (E & H1 & H2). set (bits := sign_bit s + _).
  assert (bits = (if s then 1 else 0) * 2 ^ (p - 1 + w) + (b * 2 ^ (p - 1) + f)) as E0 by (unfold bits, sign_bit; destruct s; lia).
  assert (bits / 2 ^ (p - 1) = (if s then 2 ^ w else 0) + b) as E1.
  { symmetry. apply (Z.div_unique _ _ _ f); [lia|]. rewrite E0, E. destruct s; lia. }
  assert (Z.land bits (Z.shiftl 1 (p - 1) - 1) = f) as E2.
  { rewrite Z.shiftl_1_l. replace (2 ^ (p - 1) - 1) with (Z.ones (p - 1)) by (rewrite Z.ones_equiv; lia). rewrite Z.land_ones by lia. symmetry.
    apply (Z.mod_unique _ _ ((if s then 2 ^ w else 0) + b)); [lia|]. rewrite E0, E. destruct s; lia. }
  assert (Z.land (Z.shiftr bits (p - 1)) (2 * x - 1) = b) as E3.
  { replace (2 * x - 1) with (Z.ones w) by (rewrite Z.ones_equiv; lia). rewrite Z.land_ones, Z.shiftr_div_pow2, E1 by lia. symmetry.
    apply (Z.mod_unique _ _ (if s then 1 else 0)); [lia|]. destruct s; lia. }
  assert (Z.testbit bits (p - 1 + w) = s) as E4.
  { rewrite Z.testbit_eqb by lia. replace (bits / 2 ^ (p - 1 + w)) with (if s then 1 else 0); [by destruct s|].
    apply (Z.div_unique _ _ _ (b * 2 ^ (p - 1) + f)); [nia|]. rewrite E0. destruct s; lia. }
  unfold from_bits. rewrite log2_width, E2, E3, E4, Z.shiftl_1_l. done.
Qed.

Lemma digits_full m : 2 ^ (p - 1) <= Zpos m < 2 ^ p -> Zpos (digits2_pos m) = p.
Proof using Hp Hw Hx. intros H. rewrite digits_log2. rewrite (Z.log2_unique _ (p - 1)); [lia|lia|]. by replace (Z.succ (p - 1)) with p by lia. Qed.

Lemma digits_below m : Zpos m < 2 ^ (p - 1) -> Zpos (digits2_pos m) <> p.
Proof using Hp Hw Hx. intros H%Z.log2_lt_pow2; [|lia]. rewrite digits_log2. lia. Qed.

(** A pattern that is not a NaN is the pattern of its value. *)
Lemma to_from_bits bits : 0 <= bits < 2 ^ (p + w) -> is_nan (from_bits p x bits) = false -> to_bits p x (from_bits p x bits) = bits.
Proof using Hp Hw Hx.
  intros (s & b & f & -> & Hb & Hf)%fields_of_pattern. rewrite from_bits_fields by done. destruct pow_split as (E & H1 & H2).
  assert (2 ^ p = 2 * 2 ^ (p - 1)) as Ep by (rewrite <- Z.pow_succ_r by lia; f_equal; lia).
  unfold to_bits. rewrite log2_width, Z.shiftl_1_l. fold (sign_bit s). unfold float_of. intros Hn.
  destruct (Z.eqb_spec b (2 * x - 1)) as [->|].
  { destruct (Z.eqb_spec f 0) as [->|]; [|done]. fold (sign_bit s). rewrite <- (pattern_of_fields s (2 * x - 1) 0) by lia.
    by rewrite Z.lor_0_r. }
  destruct (Z.eqb_spec b 0) as [->|].
  - destruct f as [|m|]; [unfold sign_bit; lia| |lia]. pose proof (digits_below m ltac:(lia)).
    destruct (Z.eqb_spec (Zpos (digits2_pos m)) p); [done|]. fold (sign_bit s).
    rewrite <- (pattern_of_fields s 0 (Zpos m)) by lia. by rewrite Z.shiftl_0_l, Z.lor_0_r.
  - destruct (f + 2 ^ (p - 1)) as [|m|] eqn:Em; [lia| |lia]. rewrite (digits_full m) by lia. rewrite Z.eqb_refl. fold (sign_bit s).
    replace (b - 1 + (3 - x - p) + (p - 1) + (x - 1)) with b by lia. rewrite Z.shiftl_1_l. replace (Zpos m - 2 ^ (p - 1)) with f by lia.
    by apply pattern_of_fields.
Qed.
End Fields.

(** ** [f32] in [f64] *)

Lemma fexp_at p x m e : fexp p x (Zdigits2 (Zpos m) + e) = Z.max (Z.log2 (Zpos m) + e + 1 - p) (3 - x - p).
Proof. unfold fexp, emin. simpl Zdigits2. rewrite digits_log2. lia. Qed.

(** Rounding a number of the format is exact, however it is scaled. *)
Lemma round_scaled p x s (m m' : positive) n e :
  0 <= n -> e = Z.max (Z.log2 (Zpos m) + e + 1 - p) (3 - x - p) -> e <= x - p -> Zpos m' = Zpos m * 2 ^ n ->
  binary_round p x s m' (e - n) = S754_finite s m e.
Proof.
  intros Hn Hc Hmax Hm. assert (Hlog : Z.log2 (Zpos m') = Z.log2 (Zpos m) + n) by (rewrite Hm; by apply log2_shift).
  assert (Hfexp : fexp p x (Zdigits2 (Zpos m') + (e - n)) = e) by (rewrite fexp_at, Hlog; lia).
  unfold binary_round. change (Zpos (digits2_pos m')) with (Zdigits2 (Zpos m')). rewrite Hfexp.
  assert (shl_align m' (e - n) e = (m', e - n)) as ->.
  { unfold shl_align. replace (e - (e - n)) with n by lia. by destruct n. }
  unfold binary_round_aux.
  assert (shr_fexp p x (Zpos m') (e - n) loc_Exact = (Build_shr_record (Zpos m) false false, e)) as ->.
  { unfold shr_fexp. rewrite Hfexp. replace (e - (e - n)) with n by lia. rewrite Hm. destruct n as [|q|]; [|simpl|lia].
    - simpl. by rewrite Z.mul_1_r, Z.sub_0_r.
    - rewrite iter_shr by lia. f_equal. lia. }
  cbn [shr_m loc_of_shr_record round_nearest_even]. unfold shr_fexp. rewrite fexp_at. rewrite <- Hc, Z.sub_diag.
  cbn [shr shr_record_of_loc shr_m]. by destruct (Z.leb_spec e (x - p)); [|lia].
Qed.

(** The finite values of a pattern are in canonical form. *)
Lemma float_of_canonical s b f s' m e : 0 <= b <= 255 -> 0 <= f < 2 ^ 23 -> float_of 24 128 s b f = S754_finite s' m e ->
  s' = s /\ e = Z.max (Z.log2 (Zpos m) + e + 1 - 24) (-149) /\ e <= 104 /\ Z.log2 (Zpos m) <= 23.
Proof.
  intros Hb Hf. unfold float_of. change (2 * 128 - 1) with 255. change (24 - 1) with 23.
  destruct (Z.eqb_spec b 255) as [->|]; [by destruct (f =? 0)|]. destruct (Z.eqb_spec b 0) as [->|].
  - destruct f as [|q|]; [done| |lia]. intros [= -> -> <-]. assert (Z.log2 (Zpos m) < 23) by (apply Z.log2_lt_pow2; lia). split; [done|lia].
  - destruct (f + 2 ^ 23) as [|q|] eqn:E; [lia| |lia]. intros [= -> -> <-].
    assert (Z.log2 (Zpos m) = 23) by (apply Z.log2_unique; lia). split; [done|lia].
Qed.

(** Widening an [f32] and narrowing it again gives it back. *)
Lemma narrow_widen bits : 0 <= bits < 2 ^ 32 -> convert 24 128 (convert prec emax (from_bits 24 128 bits)) = from_bits 24 128 bits.
Proof.
  intros Hb. destruct (fields_of_pattern 24 128 8 ltac:(lia) ltac:(lia) eq_refl bits Hb) as (s & b & f & -> & Hb' & Hf).
  rewrite (from_bits_fields 24 128 8) by (lia || done). destruct (float_of 24 128 s b f) as [| | |s' m e] eqn:E; try done.
  apply float_of_canonical in E as (-> & He & Hmax & Hlog); [|lia|lia]. pose proof (Z.log2_nonneg (Zpos m)). cbn [convert].
  assert (Hr : representable m e) by (unfold representable, ulp_exp; lia). rewrite binary_round_norm by done.
  destruct (norm_parts s m e Hr) as (m' & e' & -> & _ & Hm & Hn & _). cbn [convert].
  replace e' with (e - (e - e')) by lia. apply round_scaled; [lia|lia|lia|done].
Qed.

Lemma encode_decode w bits v :
  0 <= bits < 2 ^ (8 * FloatWidth.bytes w) -> FloatBits.decode w bits = Some v -> is_nan v = false -> FloatBits.encode w v = Some bits.
Proof.
  intros Hb Hd Hn. destruct w; try (by apply (small_float_roundtrip _ bits)); cbn in Hd; simplify_eq; cbn.
  - f_equal. by apply (to_from_bits prec emax 11).
  - unfold wrap in *. rewrite Z.mod_small in * by exact Hb. rewrite narrow_widen by exact Hb. f_equal.
    apply (to_from_bits 24 128 8); [lia|lia|done|exact Hb|]. revert Hn. by destruct (from_bits 24 128 bits).
Qed.

(** C38: Every bit pattern of a float type that is not a NaN, of [f64], [f32] and
    the small formats alike, is decoded to an [f64] that encodes to the same
    pattern: no float constant changes when it is written and read back. *)
Theorem float_roundtrip w bits v :
  0 <= bits < 2 ^ (8 * FloatWidth.bytes w) -> FloatBits.decode w bits = Some v -> is_nan v = false -> FloatBits.encode w v = Some bits.
Proof. apply encode_decode. Qed.

(** The least positive [f32] *)
Lemma float_roundtrip_witness : exists v, FloatBits.decode F32 1 = Some v /\ FloatBits.encode F32 v = Some 1.
Proof.
  eexists. split; [vm_compute; reflexivity|]. apply (float_roundtrip F32 1); [split; vm_compute; [congruence|reflexivity]|vm_compute; reflexivity|reflexivity].
Defined.
