(* ===== verification/Sort.v ===== *)
(** Sorting of primitive slices: [runtime/paco-runtime/src/sort.rs].

    An element is its bit pattern, a slice the little-endian bytes of its
    elements.  [slice::sort] and [sort_by] are stable, which determines their
    result ([stable_sort] of [Prelude]). *)
From S2P Require Import Prelude Types Bytes Floats.
From Stdlib Require Import Floats.SpecFloat.
Open Scope Z_scope.

Definition SORT_I8 : Z := 0.
Definition SORT_I16 : Z := 1.
Definition SORT_I32 : Z := 2.
Definition SORT_I64 : Z := 3.
Definition SORT_U8 : Z := 4.
Definition SORT_U16 : Z := 5.
Definition SORT_U32 : Z := 6.
Definition SORT_U64 : Z := 7.
Definition SORT_F32 : Z := 8.
Definition SORT_F64 : Z := 9.
Definition SORT_F16 : Z := 10.
Definition SORT_BF16 : Z := 11.

(** The arms of the matches on the kind. *)
Inductive Kind := KI8 | KI16 | KI32 | KI64 | KU8 | KU16 | KU32 | KU64 | KF32 | KF64 | KF16 | KBF16 | KOther.

Definition kind_of (kind : Z) : Kind :=
  if kind =? SORT_I8 then KI8 else if kind =? SORT_I16 then KI16 else if kind =? SORT_I32 then KI32
  else if kind =? SORT_I64 then KI64 else if kind =? SORT_U8 then KU8 else if kind =? SORT_U16 then KU16
  else if kind =? SORT_U32 then KU32 else if kind =? SORT_U64 then KU64 else if kind =? SORT_F32 then KF32
  else if kind =? SORT_F64 then KF64 else if kind =? SORT_F16 then KF16 else if kind =? SORT_BF16 then KBF16
  else KOther.

Definition sort_element_size (kind : Z) : nat :=
  match kind_of kind with
  | KI8 | KU8 => 1
  | KI16 | KU16 | KF16 | KBF16 => 2
  | KI32 | KU32 | KF32 => 4
  | _ => 8
  end%nat.

(** [bits as iN]. *)
Definition as_signed (w : Z) (bits : Z) : Z := if bits <? 2 ^ (w - 1) then bits else bits - 2 ^ w.

(** [total_cmp] compares these integers. *)
Definition total_key (w : Z) (bits : Z) : Z :=
  let left := as_signed w bits in
  Z.lxor left (Z.shiftr (wrap w (Z.shiftr left (w - 1))) 1).

(** The bits of [float_to_f64(bits, code)]: negation keeps the payload of a
    NaN and flips its sign. *)
Definition small_to_f64_bits (code : Z) (bits : Z) : Z :=
  match float_to_f64 bits code with
  | Some S754_nan =>
      let nan := to_bits prec emax S754_nan in
      if Z.testbit bits 15 then Z.lor (Z.shiftl 1 63) nan else nan
  | Some v => to_bits prec emax v
  | None => 0
  end.

Definition sort_by (key : Z -> Z) (l : list Z) : list Z := stable_sort (fun a b => key a <=? key b) l.

(** [sort_raw] on the elements at [data]. *)
Definition sort_raw (l : list Z) (kind : Z) : list Z :=
  match kind_of kind with
  | KI8 => sort_by (as_signed 8) l
  | KI16 => sort_by (as_signed 16) l
  | KI32 => sort_by (as_signed 32) l
  | KI64 => sort_by (as_signed 64) l
  | KU8 | KU16 | KU32 | KU64 => sort_by id l
  | KF32 => sort_by (total_key 32) l
  | KF64 => sort_by (total_key 64) l
  | KF16 | KBF16 => sort_by (fun bits => total_key 64 (small_to_f64_bits (kind - SORT_F16) bits)) l
  | KOther => l
  end.

(** The first [len] elements of [size] bytes each. *)
Fixpoint elements (size len : nat) (bytes : list Z) : list Z :=
  match len with
  | O => []
  | S len => le_value (take size bytes) :: elements size len (drop size bytes)
  end.

Definition sort_bytes (bytes : list Z) (kind : Z) : list Z :=
  let size := sort_element_size kind in
  let len := (length bytes / size)%nat in
  concat (map (le_bytes size) (sort_raw (elements size len bytes) kind)) ++ drop (len * size) bytes.

(** ** What the bits stand for *)

Inductive Value :=
| VInt (v : Z)
| VFloat (negative : bool) (v : spec_float).

Definition value_of (kind : Z) (bits : Z) : Value :=
  match kind_of kind with
  | KI8 => VInt (as_signed 8 bits)
  | KI16 => VInt (as_signed 16 bits)
  | KI32 => VInt (as_signed 32 bits)
  | KI64 => VInt (as_signed 64 bits)
  | KU8 | KU16 | KU32 | KU64 | KOther => VInt bits
  | KF32 => VFloat (Z.testbit bits 31) (from_bits 24 128 bits)
  | KF64 => VFloat (Z.testbit bits 63) (from_bits prec emax bits)
  | KF16 | KBF16 => VFloat (Z.testbit bits 15) (default S754_nan (float_to_f64 bits (kind - SORT_F16)))
  end.

(** The order the module documents: integers by value, floats in the IEEE
    total order [-NaN < -inf < ... < -0.0 < 0.0 < ... < inf < NaN]. *)
Definition float_le (na : bool) (a : spec_float) (nb : bool) (b : spec_float) : bool :=
  match a, b with
  | S754_nan, S754_nan => na || negb nb
  | S754_nan, _ => na
  | _, S754_nan => negb nb
  | _, _ =>
      match SFcompare a b with
      | Some Lt => true
      | Some Eq => na || negb nb
      | _ => false
      end
  end.

Definition value_le (a b : Value) : bool :=
  match a, b with
  | VInt a, VInt b => a <=? b
  | VFloat na a, VFloat nb b => float_le na a nb b
  | _, _ => false
  end.

(** ** Bits of the binary formats *)

Lemma lxor_ones n a : 0 <= n -> 0 <= a < 2 ^ n -> Z.lxor a (2 ^ n - 1) = 2 ^ n - 1 - a.
Proof.
  intros Hn Ha. replace (2 ^ n - 1) with (Z.ones n) by (rewrite Z.ones_equiv; lia).
  assert (forall i, n <= i -> Z.testbit a i = false) as Hhigh.
  { intros i Hi. rewrite <- (Z.mod_small a (2 ^ n)) by lia. apply Z.mod_pow2_bits_high. lia. }
  assert (Z.ldiff a (Z.ones n) = 0) as H0.
  { apply Z.bits_inj'. intros i Hi. rewrite Z.ldiff_spec, Z.bits_0. destruct (Z.ltb_spec i n).
    - rewrite Z.ones_spec_low by lia. by rewrite andb_false_r.
    - by rewrite Hhigh by lia. }
  rewrite (Z.sub_nocarry_ldiff _ _ H0). apply Z.bits_inj'. intros i Hi. rewrite Z.lxor_spec, Z.ldiff_spec.
  destruct (Z.ltb_spec i n).
  - rewrite Z.ones_spec_low by lia. by destruct (Z.testbit a i).
  - rewrite Z.ones_spec_high, Hhigh by lia. done.
Qed.

Lemma finite_le m e m' e' :
  e < e' \/ e = e' /\ Zpos m <= Zpos m' ->
  SFcompare (S754_finite false m e) (S754_finite false m' e') = Some Lt \/
  SFcompare (S754_finite false m e) (S754_finite false m' e') = Some Eq.
Proof.
  intros H. cbn [SFcompare]. destruct (Z.compare_spec e e'); [|by left|lia].
  assert (m <= m')%positive as Hm by lia. unfold Pos.le, Pos.compare in Hm.
  destruct (Pos.compare_cont Eq m m') eqn:E; auto. done.
Qed.

(** [p] significant bits, maximal exponent [x = 2^(e-1)]; a pattern is a sign
    and a magnitude of [e + p - 1] bits. *)
Section Binary.
Context (p e : Z) (Hp : 2 <= p) (He : 2 <= e).
Notation x := (2 ^ (e - 1)).
Notation w := (e + p).

Definition pattern (s : bool) (b f : Z) : Z := (if s then 2 ^ (w - 1) else 0) + (b * 2 ^ (p - 1) + f).

Definition field_magnitude (b f : Z) : spec_float :=
  if b =? 2 ^ e - 1 then (if f =? 0 then S754_infinity false else S754_nan)
  else if b =? 0 then match f with Zpos m => S754_finite false m (3 - x - p) | _ => S754_zero false end
  else match f + 2 ^ (p - 1) with Zpos m => S754_finite false m (b - 1 + (3 - x - p)) | _ => S754_nan end.

Definition with_sign (s : bool) (v : spec_float) : spec_float := if s then SFopp v else v.

Lemma pow_facts : 2 ^ (w - 1) = 2 ^ e * 2 ^ (p - 1) /\ 2 * x = 2 ^ e /\ 0 < 2 ^ (p - 1) /\ 0 < x /\ 2 ^ w = 2 * 2 ^ (w - 1).
Proof.
  split_and!.
  - rewrite <- Z.pow_add_r by lia. f_equal. lia.
  - rewrite <- Z.pow_succ_r by lia. f_equal. lia.
  - apply Z.pow_pos_nonneg; lia.
  - apply Z.pow_pos_nonneg; lia.
  - rewrite <- Z.pow_succ_r by lia. f_equal. lia.
Qed.

Lemma pattern_split bits :
  0 <= bits < 2 ^ w -> exists s b f, bits = pattern s b f /\ 0 <= b < 2 ^ e /\ 0 <= f < 2 ^ (p - 1).
Proof.
  intros Hb. destruct pow_facts as (H1 & _ & H3 & _ & H5).
  exists (2 ^ (w - 1) <=? bits), ((bits mod 2 ^ (w - 1)) / 2 ^ (p - 1)), (bits mod 2 ^ (p - 1)).
  assert (0 < 2 ^ (w - 1)) by (apply Z.pow_pos_nonneg; lia).
  pose proof (Z.mod_pos_bound bits (2 ^ (w - 1))) as Hm. pose proof (Z.mod_pos_bound bits (2 ^ (p - 1))) as Hm'.
  assert (bits mod 2 ^ (p - 1) = (bits mod 2 ^ (w - 1)) mod 2 ^ (p - 1)) as E.
  { rewrite <- Znumtheory.Zmod_div_mod; [done|lia|lia|]. rewrite H1. by exists (2 ^ e). }
  split_and!; [|apply Z.div_pos; lia|apply Z.div_lt_upper_bound; lia|lia..].
  unfold pattern. rewrite E, (Z.mul_comm (_ / _)), <- Z.div_mod by lia.
  destruct (Z.leb_spec (2 ^ (w - 1)) bits).
  - rewrite <- (Z.mod_unique bits (2 ^ (w - 1)) 1 (bits - 2 ^ (w - 1))); lia.
  - rewrite Z.mod_small; lia.
Qed.

Lemma magnitude_range b f : 0 <= b < 2 ^ e -> 0 <= f < 2 ^ (p - 1) -> 0 <= b * 2 ^ (p - 1) + f < 2 ^ (w - 1).
Proof. destruct pow_facts as (H1 & _). intros. nia. Qed.

Lemma pattern_sign s b f : 0 <= b < 2 ^ e -> 0 <= f < 2 ^ (p - 1) -> Z.testbit (pattern s b f) (w - 1) = s.
Proof.
  intros Hb Hf. pose proof (magnitude_range b f Hb Hf) as Hm. unfold pattern.
  rewrite Z.testbit_eqb by lia. assert (0 < 2 ^ (w - 1)) by (apply Z.pow_pos_nonneg; lia).
  destruct s.
  - rewrite <- (Z.mul_1_l (2 ^ (w - 1))) at 1. rewrite Z.div_add_l, Z.div_small by lia. done.
  - by rewrite Z.add_0_l, Z.div_small by lia.
Qed.

Lemma from_bits_pattern s b f :
  0 <= b < 2 ^ e -> 0 <= f < 2 ^ (p - 1) -> from_bits p x (pattern s b f) = with_sign s (field_magnitude b f).
Proof.
  intros Hb Hf. pose proof (pattern_sign s b f Hb Hf) as Hs. destruct pow_facts as (H1 & H2 & H3 & H4 & _).
  unfold from_bits. rewrite H2, Z.log2_pow2 by lia. replace (p - 1 + e) with (w - 1) by lia.
  rewrite Hs, Z.shiftl_1_l, Z.shiftr_div_pow2 by lia. rewrite !land_low by lia.
  assert (pattern s b f = ((if s then 2 ^ e else 0) + b) * 2 ^ (p - 1) + f) as -> by (unfold pattern; destruct s; nia).
  rewrite Z.div_add_l, (Z.div_small f), Z.add_0_r by lia.
  rewrite (Z.add_comm (_ * _) f), Z.mod_add, (Z.mod_small f) by lia.
  assert (((if s then 2 ^ e else 0) + b) mod 2 ^ e = b) as ->.
  { destruct s; [|by rewrite Z.mod_small by lia].
    rewrite <- (Z.mul_1_l (2 ^ e)) at 1. rewrite Z.add_comm, Z.mod_add, Z.mod_small; lia. }
  unfold field_magnitude, with_sign. repeat case_match; done.
Qed.

Lemma total_key_pattern s b f :
  0 <= b < 2 ^ e -> 0 <= f < 2 ^ (p - 1) ->
  total_key w (pattern s b f) = (let mag := b * 2 ^ (p - 1) + f in if s then - 1 - mag else mag).
Proof.
  intros Hb Hf. pose proof (magnitude_range b f Hb Hf) as Hm. destruct pow_facts as (_ & _ & _ & _ & H5).
  unfold total_key, as_signed, pattern. set (mag := b * 2 ^ (p - 1) + f) in *. cbv zeta.
  assert (0 < 2 ^ (w - 1)) by (apply Z.pow_pos_nonneg; lia). rewrite !Z.shiftr_div_pow2 by lia. change (2 ^ 1) with 2.
  destruct s.
  - destruct (Z.ltb_spec (2 ^ (w - 1) + mag) (2 ^ (w - 1))); [lia|].
    assert ((2 ^ (w - 1) + mag - 2 ^ w) / 2 ^ (w - 1) = -1) as ->.
    { symmetry. apply Z.div_unique with (r := mag); lia. }
    unfold wrap. assert ((-1) mod 2 ^ w = 2 ^ w - 1) as ->.
    { symmetry. apply Z.mod_unique with (q := -1); lia. }
    assert ((2 ^ w - 1) / 2 = 2 ^ (w - 1) - 1) as ->.
    { symmetry. apply Z.div_unique with (r := 1); lia. }
    replace (2 ^ (w - 1) + mag - 2 ^ w) with (Z.lnot (2 ^ (w - 1) - 1 - mag)) by (unfold Z.lnot; lia).
    rewrite <- Z.lnot_lxor_l, lxor_ones by lia. unfold Z.lnot. lia.
  - rewrite Z.add_0_l. destruct (Z.ltb_spec mag (2 ^ (w - 1))); [|lia].
    rewrite (Z.div_small mag) by lia. unfold wrap. rewrite Z.mod_0_l by lia. by rewrite Z.lxor_0_r.
Qed.

(** The order of the magnitudes is the order of what they stand for. *)
Lemma field_magnitude_mono b f b' f' :
  0 <= b < 2 ^ e -> 0 <= f < 2 ^ (p - 1) -> 0 <= b' < 2 ^ e -> 0 <= f' < 2 ^ (p - 1) ->
  b * 2 ^ (p - 1) + f <= b' * 2 ^ (p - 1) + f' ->
  match field_magnitude b f, field_magnitude b' f' with
  | _, S754_nan => True
  | S754_nan, _ => False
  | u, v => SFcompare u v = Some Lt \/ SFcompare u v = Some Eq
  end.
Proof.
  intros Hb Hf Hb' Hf' Hle. destruct pow_facts as (_ & _ & H3 & _).
  assert (b <= b') as Hbb by nia.
  unfold field_magnitude.
  destruct (Z.eqb_spec b' (2 ^ e - 1)) as [->|], (Z.eqb_spec b (2 ^ e - 1)) as [->|]; try lia.
  all: repeat case_match; simplify_eq; try done; try lia; auto; apply finite_le.
  all: repeat match goal with H : (_ =? _) = true |- _ => apply Z.eqb_eq in H; subst | H : (_ =? _) = false |- _ => apply Z.eqb_neq in H end.
  - lia.
  - lia.
  - assert (b < b' \/ b = b' /\ f <= f') by nia. lia.
Qed.

Lemma opp_compare u v : SFcompare (SFopp u) (SFopp v) = SFcompare v u.
Proof.
  destruct u as [[]|[]| |[] m k], v as [[]|[]| |[] m' k']; cbn [SFcompare SFopp negb]; try done.
  all: rewrite (Z.compare_antisym k k'); destruct (k ?= k'); cbn [CompOpp]; try done.
  all: change (Pos.compare_cont Eq m' m) with (m' ?= m)%positive; change (Pos.compare_cont Eq m m') with (m ?= m')%positive.
  all: rewrite (Pos.compare_antisym m m'); by destruct (m ?= m')%positive.
Qed.

Lemma field_magnitude_positive b f :
  match field_magnitude b f with S754_zero s | S754_infinity s | S754_finite s _ _ => s = false | S754_nan => True end.
Proof. unfold field_magnitude. repeat case_match; simplify_eq; done. Qed.

Lemma total_key_le s b f s' b' f' :
  0 <= b < 2 ^ e -> 0 <= f < 2 ^ (p - 1) -> 0 <= b' < 2 ^ e -> 0 <= f' < 2 ^ (p - 1) ->
  total_key w (pattern s b f) <= total_key w (pattern s' b' f') ->
  float_le s (from_bits p x (pattern s b f)) s' (from_bits p x (pattern s' b' f')) = true.
Proof.
  intros Hb Hf Hb' Hf'. rewrite !total_key_pattern, !from_bits_pattern by done. cbv zeta.
  pose proof (magnitude_range b f Hb Hf). pose proof (magnitude_range b' f' Hb' Hf').
  pose proof (field_magnitude_positive b f) as P. pose proof (field_magnitude_positive b' f') as P'.
  destruct s, s'; intros Hle; [| |lia|].
  - assert (b' * 2 ^ (p - 1) + f' <= b * 2 ^ (p - 1) + f) as Hle' by lia.
    pose proof (field_magnitude_mono b' f' b f Hb' Hf' Hb Hf Hle') as M. revert M P P'. unfold with_sign, float_le.
    pose proof (opp_compare (field_magnitude b f) (field_magnitude b' f')) as O. revert O.
    destruct (field_magnitude b f), (field_magnitude b' f'); cbn [SFopp]; intros O M P P'; subst; try done;
      cbn [SFopp negb] in O; cbn [negb]; rewrite ?O; destruct M as [-> | ->]; done.
  - revert P P'. unfold with_sign, float_le.
    destruct (field_magnitude b f), (field_magnitude b' f'); cbn [SFopp]; intros P P'; subst; done.
  - pose proof (field_magnitude_mono b f b' f' Hb Hf Hb' Hf' Hle) as M. revert M P P'. unfold with_sign, float_le.
    destruct (field_magnitude b f), (field_magnitude b' f'); intros M P P'; subst; try done;
      destruct M as [-> | ->]; done.
Qed.
End Binary.

(** ** Small floats through their [f64] *)

Lemma to_bits_pattern v :
  f64_valid v = true -> is_nan v = false ->
  exists b f, to_bits prec emax v = pattern 53 11 (is_sign_negative v) b f /\ 0 <= b < 2 ^ 11 /\ 0 <= f < 2 ^ 52 /\
    with_sign (is_sign_negative v) (field_magnitude 53 11 b f) = v.
Proof.
  intros Hv Hn. destruct v as [s|s| |s m k]; [exists 0, 0; by destruct s|exists 2047, 0; by destruct s|done|].
  destruct (valid_norm s m k Hv) as [Hnorm [Hr1 Hr2]].
  assert (k = ulp_exp (Z.log2 (Zpos m) + k)) as Hk by (unfold norm in Hnorm; by simplify_eq).
  unfold ulp_exp in *. pose proof (digits_log2 m) as Hd. pose proof (Z.log2_spec (Zpos m) ltac:(lia)) as [Hlo Hhi].
  pose proof (Z.log2_nonneg (Zpos m)).
  cbn [to_bits is_sign_negative]. rewrite Hd, !Z.shiftl_1_l.
  change (53 - 1 + Z.log2 (2 * 1024)) with 63. change (53 - 1) with 52.
  assert (forall a, (if s then 2 ^ 63 else 0) + a = (if s then 2048 else 0) * 2 ^ 52 + a) as Hs by (intros a; destruct s; lia).
  destruct (Z.eqb_spec (Z.log2 (Z.pos m) + 1) 53) as [E|E].
  - assert (Z.log2 (Zpos m) = 52) as El by lia. rewrite El in Hlo, Hhi. change (Z.succ 52) with 53 in Hhi.
    exists (k + 52 + 1023), (Zpos m - 2 ^ 52). rewrite Z.shiftl_mul_pow2 by lia. split_and!; [|lia..|].
    + unfold pattern. change (11 + 53 - 1) with 63. change (53 - 1) with 52. change (1024 - 1) with 1023.
      replace (if s then 2 ^ 63 else 0) with ((if s then 1 else 0) * 2 ^ 63) by (destruct s; lia).
      rewrite (lor_add 63) by lia.
      replace ((if s then 1 else 0) * 2 ^ 63 + (k + 52 + 1023) * 2 ^ 52)
        with (((if s then 2048 else 0) + (k + 52 + 1023)) * 2 ^ 52) by (destruct s; lia).
      rewrite lor_add by lia. destruct s; lia.
    + unfold field_magnitude. change (2 ^ 11 - 1) with 2047. destruct (Z.eqb_spec (k + 52 + 1023) 2047); [lia|].
      destruct (Z.eqb_spec (k + 52 + 1023) 0); [lia|]. change (53 - 1) with 52.
      replace (Z.pos m - 2 ^ 52 + 2 ^ 52) with (Zpos m) by lia.
      change (3 - 2 ^ (11 - 1) - 53) with (-1074). replace (k + 52 + 1023 - 1 + -1074) with k by lia. by destruct s.
  - assert (Z.log2 (Zpos m) < 52 /\ k = -1074) as [Hl ->] by lia.
    assert (Zpos m < 2 ^ 52) as Hm by (apply Z.log2_lt_pow2; lia).
    exists 0, (Zpos m). split_and!; [|lia..|by destruct s].
    unfold pattern. change (11 + 53 - 1) with 63. change (53 - 1) with 52.
    replace (if s then 2 ^ 63 else 0) with ((if s then 1 else 0) * 2 ^ 63) by (destruct s; lia).
    rewrite lor_add by lia. lia.
Qed.

(** A pattern of a 16-bit format widens to the pattern of the same sign and
    value. *)
Lemma small_pattern fmt code bits :
  (fmt, code) ∈ [(mkFormat 5 10 true, 0); (mkFormat 8 7 true, 1)] -> 0 <= bits < 2 ^ 16 ->
  exists b f, small_to_f64_bits code bits = pattern 53 11 (Z.testbit bits 15) b f /\ 0 <= b < 2 ^ 11 /\ 0 <= f < 2 ^ 52 /\
    float_to_f64 bits code = Some (with_sign (Z.testbit bits 15) (field_magnitude 53 11 b f)).
Proof.
  intros Hin Hb.
  assert (exists w, format w = Some fmt /\ FloatWidth.bytes w = 2 /\ float_to_f64 bits code = Some (decode_small bits fmt) /\
            exponent_bits fmt + mantissa_bits fmt = 15) as (w & Hw & H2 & Hf & H15).
  { set_unfold in Hin. destruct Hin as [[= -> ->]|[[= -> ->]|[]]]; [by exists F16|by exists BF16]. }
  pose proof (format_small w fmt Hw) as Hfmt.
  destruct (pattern_fields w fmt bits Hw) as (s & b & f & Hbits & Hbr & Hfr); [by rewrite H2|].
  assert (Z.testbit bits 15 = s) as Hs15.
  { pose proof (field_range fmt b f Hbr Hfr) as Hr. rewrite Z.testbit_eqb, Hbits by lia. unfold sign_field. rewrite H15 in *.
    destruct s; [rewrite <- (Z.mul_1_l (2 ^ 15)) at 1; rewrite Z.div_add_l, Z.div_small by lia; done|].
    by rewrite Z.add_0_l, Z.div_small by lia. }
  unfold small_to_f64_bits. rewrite Hf, Hs15.
  assert (decode_small bits fmt = (if s then SFopp else id) (magnitude_of fmt b f)) as Hdec
    by (rewrite Hbits; by apply decode_fields).
  assert (f64_valid ((if s then SFopp else id) (magnitude_of fmt b f)) = true) as Hv.
  { destruct (finite_fields_dec fmt b f) as [Hfin|Hfin].
    - rewrite magnitude_finite by done. cbv zeta. destruct (_ =? 0) eqn:E0; [by destruct s|].
      apply Z.eqb_neq in E0.
      pose proof (format_range fmt) as (Hp & Ho & Hbias & He2). destruct Hfin as (? & ? & Hone).
      assert (2 ^ (mantissa_bits fmt + 1) = 2 ^ mantissa_bits fmt * 2) as Hpow2
        by (rewrite Z.pow_add_r; [done|destruct Hfmt; lia|lia]).
      edestruct (small_representable fmt (if b =? 0 then f else 2 ^ mantissa_bits fmt + f)
        (Z.max b 1 - bias fmt - mantissa_bits fmt)) as [Hrep _]; [|unfold ones in *; lia|].
      { destruct (b =? 0); lia. }
      pose proof (norm_valid s _ _ Hrep) as Hnv. destruct s; [|exact Hnv]. exact Hnv.
    - pose proof (magnitude_not_finite fmt b f Hbr Hfr Hfin) as Hm.
      destruct (magnitude_of fmt b f) as [|[]| |]; try done; by destruct s. }
  assert (is_sign_negative ((if s then SFopp else id) (magnitude_of fmt b f)) = s \/
          is_nan ((if s then SFopp else id) (magnitude_of fmt b f)) = true) as Hsign.
  { unfold magnitude_of, norm. destruct s; repeat case_match; first [by left | by right]. }
  rewrite Hdec. clear Hdec. set (v := (if s then SFopp else id) (magnitude_of fmt b f)) in *. clearbody v.
  destruct (is_nan v) eqn:En.
  - destruct v; try done. exists 2047, (2 ^ 51). by destruct s.
  - destruct Hsign as [<-|]; [|done]. destruct (to_bits_pattern v Hv En) as (b' & f' & H1 & H3 & H4 & H5).
    exists b', f'. rewrite H5. split; [|done]. rewrite <- H1. by destruct v.
Qed.

(** ** Sorting *)

Lemma sort_by_perm key l : sort_by key l ≡ₚ l.
Proof. apply stable_sort_perm. Qed.

Lemma sort_by_sorted key l : StronglySorted (fun a b => key a <= key b) (sort_by key l).
Proof.
  assert (StronglySorted (fun a b => (key a <=? key b) = true) (sort_by key l)) as H
    by (apply stable_sort_sorted; intros; lia).
  induction H as [|a l' Hs IH Ha]; constructor; [done|]. eapply Forall_impl; [exact Ha|]. simpl. lia.
Qed.

Lemma sort_raw_perm kind l : sort_raw l kind ≡ₚ l.
Proof. unfold sort_raw. destruct (kind_of kind); try apply sort_by_perm. done. Qed.

(** The elements are patterns of the width of the kind. *)
Definition element_ok (kind : Z) (bits : Z) : Prop := 0 <= bits < 256 ^ Z.of_nat (sort_element_size kind).

Lemma StronglySorted_weaken {A} (R S : A -> A -> Prop) (P : A -> Prop) l :
  Forall P l -> (forall a b, P a -> P b -> R a b -> S a b) -> StronglySorted R l -> StronglySorted S l.
Proof.
  intros HP HRS H. induction H as [|a l Hl IH Ha]; [constructor|]. inversion_clear HP as [|? ? Pa Pl].
  constructor; [by apply IH|]. rewrite Forall_forall in *. intros b Hb. apply HRS; auto.
Qed.

Lemma binary_le p e a b :
  2 <= p -> 2 <= e -> 0 <= a < 2 ^ (e + p) -> 0 <= b < 2 ^ (e + p) -> total_key (e + p) a <= total_key (e + p) b ->
  float_le (Z.testbit a (e + p - 1)) (from_bits p (2 ^ (e - 1)) a) (Z.testbit b (e + p - 1)) (from_bits p (2 ^ (e - 1)) b) = true.
Proof.
  intros Hp He Ha Hb.
  destruct (pattern_split p e Hp He a Ha) as (s & b1 & f1 & -> & H1 & H2).
  destruct (pattern_split p e Hp He b Hb) as (s' & b2 & f2 & -> & H3 & H4).
  rewrite !pattern_sign by done. by apply total_key_le.
Qed.

Lemma small_le fmt code a b :
  (fmt, code) ∈ [(mkFormat 5 10 true, 0); (mkFormat 8 7 true, 1)] -> 0 <= a < 2 ^ 16 -> 0 <= b < 2 ^ 16 ->
  total_key 64 (small_to_f64_bits code a) <= total_key 64 (small_to_f64_bits code b) ->
  float_le (Z.testbit a 15) (default S754_nan (float_to_f64 a code)) (Z.testbit b 15) (default S754_nan (float_to_f64 b code)) = true.
Proof.
  intros Hin Ha Hb. destruct (small_pattern fmt code a Hin Ha) as (b1 & f1 & -> & H1 & H2 & ->).
  destruct (small_pattern fmt code b Hin Hb) as (b2 & f2 & -> & H3 & H4 & ->). intros Hle. cbn [default].
  rewrite <- !(from_bits_pattern 53 11) by (done || lia). apply (total_key_le 53 11); try done; lia.
Qed.

(** The keys compared order the values. *)
Lemma sort_raw_sorted kind l :
  Forall (element_ok kind) l -> kind_of kind <> KOther ->
  StronglySorted (fun a b => value_le (value_of kind a) (value_of kind b) = true) (sort_raw l kind).
Proof.
  intros Hl Hk. assert (Forall (element_ok kind) (sort_raw l kind)) as Hl' by (by rewrite sort_raw_perm).
  unfold element_ok, sort_element_size in Hl'. unfold sort_raw in *.
  destruct (kind_of kind) eqn:E; try done; (eapply StronglySorted_weaken; [exact Hl'| |apply sort_by_sorted]);
    intros a b Ha Hb Hle; unfold value_of; rewrite E; cbn [value_le].
  1-8: apply Z.leb_le; exact Hle.
  - apply (binary_le 24 8); [lia..|exact Ha|exact Hb|exact Hle].
  - apply (binary_le 53 11); [lia..|exact Ha|exact Hb|exact Hle].
  - assert (kind = SORT_F16) as -> by (unfold kind_of in E; repeat case_match; try done; lia).
    eapply (small_le (mkFormat 5 10 true)); [set_solver|done..|exact Hle].
  - assert (kind = SORT_BF16) as -> by (unfold kind_of in E; repeat case_match; try done; lia).
    eapply (small_le (mkFormat 8 7 true)); [set_solver|done..|exact Hle].
Qed.

(** *** Bytes *)

Lemma elements_length size len bytes : length (elements size len bytes) = len.
Proof. revert bytes. induction len as [|len IH]; intros bytes; simpl; [done|]. by rewrite IH. Qed.

Lemma elements_concat size l rest :
  elements size (length l) (concat (map (le_bytes size) l) ++ rest) = map (fun v => v mod 256 ^ Z.of_nat size) l.
Proof.
  induction l as [|v l IH]; [done|]. cbn [map concat length elements]. rewrite <- app_assoc.
  rewrite take_app_length' by (by rewrite le_bytes_length). rewrite drop_app_length' by (by rewrite le_bytes_length).
  by rewrite le_value_bytes, IH.
Qed.

Lemma elements_ok size len bytes :
  bytes_ok bytes -> (len * size <= length bytes)%nat -> Forall (fun v => 0 <= v < 256 ^ Z.of_nat size) (elements size len bytes).
Proof.
  revert bytes. induction len as [|len IH]; intros bytes Hb Hl; cbn [elements]; constructor.
  - pose proof (le_value_range (take size bytes) (Forall_take _ _ _ Hb)) as H.
    by rewrite length_take, Nat.min_l in H by lia.
  - apply IH; [by apply Forall_drop|]. rewrite length_drop. lia.
Qed.

Lemma concat_le_bytes_length size l : length (concat (map (le_bytes size) l)) = (length l * size)%nat.
Proof. induction l as [|v l IH]; [done|]. cbn [map concat length]. rewrite length_app, le_bytes_length, IH. lia. Qed.

(** [sort_bytes] of a whole number of elements or more: the bytes keep their
    number and what is after the last whole element; the elements are a
    permutation of those before, in the documented order. *)
Theorem sort_bytes_sorts bytes kind :
  bytes_ok bytes -> kind_of kind <> KOther ->
  let size := sort_element_size kind in
  let len := (length bytes / size)%nat in
  let before := elements size len bytes in
  let after := elements size len (sort_bytes bytes kind) in
  after ≡ₚ before /\
  StronglySorted (fun a b => value_le (value_of kind a) (value_of kind b) = true) after /\
  length (sort_bytes bytes kind) = length bytes /\
  drop (len * size) (sort_bytes bytes kind) = drop (len * size) bytes.
Proof.
  intros Hb Hk size len before after.
  assert (0 < size)%nat as Hs by (unfold size, sort_element_size; destruct (kind_of kind); lia).
  assert (len * size <= length bytes)%nat as Hlen by (unfold len; rewrite Nat.mul_comm; apply Nat.Div0.mul_div_le).
  assert (Forall (element_ok kind) before) as Hok by (by apply elements_ok).
  assert (length (sort_raw before kind) = len) as Hl.
  { rewrite (Permutation_length (sort_raw_perm kind before)). apply elements_length. }
  assert (after = sort_raw before kind) as ->.
  { unfold after, sort_bytes. fold size. fold len. fold before. rewrite <- Hl at 1. rewrite elements_concat.
    assert (Forall (element_ok kind) (sort_raw before kind)) as Hok' by (by rewrite sort_raw_perm).
    rewrite <- (map_id (sort_raw before kind)) at 2. apply map_ext_Forall. eapply Forall_impl; [exact Hok'|].
    intros v Hv. by apply Z.mod_small. }
  split; [apply sort_raw_perm|]. split; [by apply sort_raw_sorted|].
  unfold sort_bytes. fold size. fold len. fold before.
  assert (length (concat (map (le_bytes size) (sort_raw before kind))) = (len * size)%nat) as Hc
    by (rewrite concat_le_bytes_length, Hl; done).
  split; [rewrite length_app, Hc, length_drop; lia|]. by rewrite drop_app_length' by done.
Qed.

(** Three [f16] numbers, [1], a negative NaN and [-0], and an odd byte. *)
Lemma sort_bytes_sorts_witness :
  let bytes := [0; 0x3C; 0; 0xFE; 0; 0x80; 7] in
  sort_bytes bytes SORT_F16 = [0; 0xFE; 0; 0x80; 0; 0x3C; 7] /\
  StronglySorted (fun a b => value_le (value_of SORT_F16 a) (value_of SORT_F16 b) = true)
    (elements 2 3 (sort_bytes bytes SORT_F16)).
Proof.
  intros bytes. split; [vm_compute; reflexivity|].
  destruct (sort_bytes_sorts bytes SORT_F16) as (_ & H & _); [|discriminate|exact H].
  repeat constructor; vm_compute; discriminate.
Defined.
