(* ===== verification/Mir.v ===== *)
(** The control-flow graphs the compiler lowers to: [paco-mir/src/body.rs],
    with the values of compile-time evaluation ([ComptimeValue] of
    [paco-mir/src/comptime.rs]).

    A [Local], a [BasicBlockId] and a [usize] are [nat]s; a [String] is the
    string of its UTF-8 bytes; an [f64] is its [spec_float]. *)
From S2P Require Import Prelude Span Types Ast Floats.
From Stdlib Require Import Floats.SpecFloat.
Open Scope nat_scope.

Inductive Profile := Debug | Release.

#[export] Instance Profile_eq_dec : EqDecision Profile.
Proof. solve_decision. Defined.

Record LocalDecl := mkLocalDecl { local_name : option string; local_ty : Type_; local_mutable : bool }.

Inductive Constant :=
| CInt (value : Z) (w : IntWidth)
| CFloat (bits : Z) (w : FloatWidth)
| CBool (value : bool)
| CChar (value : Z)
| CStr (text : string)
| CUnit
| CType (ty : Type_).

Inductive Place :=
| PlLocal (local : nat)
| PlField (base : Place) (field : string)
| PlVariantField (base : Place) (variant : string) (index : nat)
| PlIndex (base : Place) (index : Operand)
| PlDeref (address : Operand) (ty : Type_)
with Operand : Type :=
| Copy (p : Place)
| Move (p : Place)
| OConst (c : Constant).

Inductive BinOp :=
| BAdd | BSub | BMul | BDiv | BRem | BEq | BNe | BLt | BLe | BGt | BGe | BAnd | BOr | BBitAnd | BBitOr | BBitXor
| BShl | BShr | BWrappingAdd | BWrappingSub | BWrappingMul | BAddOverflows | BSubOverflows | BMulOverflows.

#[export] Instance BinOp_eq_dec : EqDecision BinOp.
Proof. solve_decision. Defined.

Inductive UnOp := UNot | UNeg | UBitNot.

Inductive MathOp := MSqrt | MExp | MLn | MSin | MCos | MTanh | MAbs | MPowf | MMin | MMax.

Module MathOp.
Definition name (op : MathOp) : string :=
  match op with
  | MSqrt => "sqrt" | MExp => "exp" | MLn => "ln" | MSin => "sin" | MCos => "cos" | MTanh => "tanh"
  | MAbs => "abs" | MPowf => "powf" | MMin => "min" | MMax => "max"
  end.

Definition from_method (n : string) : option MathOp :=
  if bool_decide (n = "sqrt"%string) then Some MSqrt
  else if bool_decide (n = "exp"%string) then Some MExp
  else if bool_decide (n = "ln"%string) then Some MLn
  else if bool_decide (n = "sin"%string) then Some MSin
  else if bool_decide (n = "cos"%string) then Some MCos
  else if bool_decide (n = "tanh"%string) then Some MTanh
  else if bool_decide (n = "abs"%string) then Some MAbs
  else if bool_decide (n = "powf"%string) then Some MPowf
  else if bool_decide (n = "min"%string) then Some MMin
  else if bool_decide (n = "max"%string) then Some MMax
  else None.

Definition runtime_symbol (op : MathOp) : option string :=
  match op with
  | MExp => Some "paco_math_exp"
  | MLn => Some "paco_math_ln"
  | MSin => Some "paco_math_sin"
  | MCos => Some "paco_math_cos"
  | MTanh => Some "paco_math_tanh"
  | MPowf => Some "paco_math_powf"
  | MSqrt | MAbs | MMin | MMax => None
  end%string.

(** [eval]: [libm] stands for the functions of the [libm] package.  Where the
    operands are equal, [min] and [max] choose by the sign of the first. *)
Definition eval (libm : MathOp -> f64 -> f64 -> f64) (op : MathOp) (x y : f64) : f64 :=
  match op with
  | MSqrt => SFsqrt prec emax x
  | MAbs => SFabs x
  | MMin =>
      if is_nan x || is_nan y then S754_nan
      else if SFeqb x y then (if is_sign_negative x then x else y)
      else if SFltb x y then x else y
  | MMax =>
      if is_nan x || is_nan y then S754_nan
      else if SFeqb x y then (if is_sign_negative x then y else x)
      else if SFltb x y then y else x
  | MExp | MLn | MSin | MCos | MTanh | MPowf => libm op x y
  end.

Lemma from_method_name op : from_method (name op) = Some op.
Proof. by destruct op. Qed.
End MathOp.

Inductive Rvalue :=
| RUse (o : Operand)
| RMath (op : MathOp) (args : list Operand)
| RBinaryOp (op : BinOp) (left right : Operand)
| RUnaryOp (op : UnOp) (o : Operand)
| RRef (mutable : bool) (p : Place)
| RAggregate (ty : Type_) (variant : option string) (fields : list Operand)
| RDiscriminant (p : Place)
| RSliceLen (p : Place)
| RCast (o : Operand) (target : Type_)
| RLoad (address : Operand) (ty : Type_)
| RRawAlloc (size : Z)
| RFuncAddr (name : string)
| RQuote (template : QuoteBody) (splices : list (Span * Operand)).

Inductive Statement :=
| SAssign (p : Place) (r : Rvalue)
| SStore (address value : Operand) (ty : Type_)
| SFreeBox (address : Operand) (ty : Type_)
| SDrop (p : Place)
| SStorageDead (local : nat).

Inductive Terminator :=
| TmGoto (target : nat)
| TmSwitchInt (discriminant : Operand) (targets : list (Z * nat)) (otherwise : nat)
| TmCall (target : string) (args : list Operand) (destination : option Place) (resume : nat)
| TmCallIndirect (callee : Operand) (args : list Operand) (destination : option Place) (resume : nat)
| TmReturn (o : Operand)
| TmUnreachable.

Record BasicBlock := mkBasicBlock { statements : list Statement; terminator : Terminator }.

Record BlockSpans := mkBlockSpans { span_statements : list Span; span_terminator : option Span }.

Record Body := mkBody {
  body_locals : list LocalDecl;
  body_blocks : list BasicBlock;
  body_profile : Profile;
  param_count : nat;
  return_ty : Type_;
  body_span : Span;
  body_spans : list BlockSpans }.

Definition statement_span (b : Body) (block statement : nat) : Span :=
  default (body_span b) (spans ← body_spans b !! block; span_statements spans !! statement).

Definition terminator_span (b : Body) (block : nat) : Span :=
  default (body_span b) (spans ← body_spans b !! block; span_terminator spans).

Inductive ComptimeValue :=
| VScalar (c : Constant)
| VRecord (ty : Type_) (fields : list ComptimeValue)
| VVariant (ty : Type_) (variant : string) (fields : list ComptimeValue)
| VSlice (ty : Type_) (items : list ComptimeValue)
| VType (ty : Type_)
| VCode (code : QuoteBody).

(** [PANIC_SYMBOL] and [TRY_TEMP] of [lower.rs]. *)
Definition PANIC_SYMBOL : string := "paco_rt_panic".
Definition TRY_TEMP : string := "$try".
