(* ===== verification/Glue.v ===== *)
(** Owning types: [paco-mir/src/glue.rs], which types need drop and clone glue
    and what the glue visits.

    The layouts are used through the interface [Layouts]; [TypeLayouts] of
    [TypeLayout] implements it. *)
From S2P Require Import Prelude Types Dims Generics Names Layout TypeLayout Mir.
Open Scope nat_scope.

(** ** The interface of [TypeLayouts]

    [None] where the method panics. *)
Class Layouts := {
  lay_has_struct : string -> bool;
  lay_struct_size : string -> list Type_ -> option Z;
  lay_struct_field : string -> list Type_ -> string -> option (Type_ * Z);
  lay_struct_fields : string -> list Type_ -> option (list (Type_ * Z));
  lay_enum_size : string -> list Type_ -> option Z;
  lay_enum_variants : string -> list Type_ -> option (list (Z * list (Type_ * Z)));
  lay_enum_variant_names : string -> option (list string);
  lay_enum_variant_index : string -> list Type_ -> string -> option Z;
  lay_enum_variant_field : string -> list Type_ -> string -> nat -> option (Type_ * Z);
  lay_tuple_size : list Type_ -> option Z;
  lay_tuple_field : list Type_ -> nat -> option (Type_ * Z);
  lay_live_offset : Type_ -> option (option Z) }.

(** The layouts of a program's declarations; every query starts from the same
    caches, which do not change its answer. *)
Definition type_layouts (D : Decls) (fuel : nat) (C : Caches) : Layouts :=
  let run {A} (m : M A) : option A := match m C with Ok (a, _) => Some a | Err _ => None end in
  {| lay_has_struct := has_struct D;
     lay_struct_size := fun name args => size <$> run (struct_layout_of D fuel name args);
     lay_struct_field := fun name args field => run (struct_field D fuel name args field);
     lay_struct_fields := fun name args => run (struct_fields D fuel name args);
     lay_enum_size := fun name args => size <$> run (enum_layout_of D fuel name args);
     lay_enum_variants := fun name args => run (enum_variants D fuel name args);
     lay_enum_variant_names := fun name => run (enum_variant_names D name);
     lay_enum_variant_index := fun name args variant => run (enum_variant_index D fuel name args variant);
     lay_enum_variant_field := fun name args variant index => run (enum_variant_field D fuel name args variant index);
     lay_tuple_size := fun items => size <$> run (tuple_layout D fuel items);
     lay_tuple_field := fun items index => run (tuple_field D fuel items index);
     lay_live_offset := fun ty => run (live_offset D fuel ty) |}.

Definition CELL_COUNT_OFFSET : Z := 0.
Definition CELL_LOCK_OFFSET : Z := 8.
Definition CELL_VALUE_OFFSET : Z := 16.
Definition CLOSURE_HEADER : Z := 8.
Definition CLOSURE_DROP_FN : Z := 8.
Definition SLICE_DATA_OFFSET : Z := 0.
Definition SLICE_LEN_OFFSET : Z := 8.

Section Glue.
Context {L : Layouts}.

Definition is_cell (ty : Type_) : bool :=
  match ty with
  | TyStruct name _ =>
      bool_decide (name ∈ ["Rc"; "Arc"; "Cell"; "RefCell"; "Mutex"; "RwLock"]%string) && negb (lay_has_struct name)
  | _ => false
  end.

Definition handle_fns (ty : Type_) : option (string * string) :=
  match ty with
  | TyStruct name _ =>
      if lay_has_struct name then None
      else if bool_decide (name = "Sender"%string) then Some ("paco_rt_sender_retain", "paco_rt_sender_release")%string
      else if bool_decide (name = "Receiver"%string) then Some ("paco_rt_receiver_retain", "paco_rt_receiver_release")%string
      else if bool_decide (name = "JoinHandle"%string) then Some ("paco_rt_join_handle_retain", "paco_rt_join_handle_release")%string
      else if bool_decide (name = "Generator"%string) then Some ("paco_rt_generator_retain", "paco_rt_generator_release")%string
      else if bool_decide (name = "TcpListener"%string) then Some ("paco_rt_tcp_listener_retain", "paco_rt_tcp_listener_release")%string
      else if bool_decide (name = "TcpStream"%string) then Some ("paco_rt_tcp_stream_retain", "paco_rt_tcp_stream_release")%string
      else None
  | _ => None
  end.

Definition element_size (elem : Type_) : option Z :=
  match elem with
  | TyStruct name args => if lay_has_struct name then lay_struct_size name args else Some 8%Z
  | TyEnum name args => lay_enum_size name args
  | TyTuple items => lay_tuple_size items
  | _ => Some (match scalar_layout elem with Some l => size l | None => 8%Z end)
  end.

Fixpoint unresolved (ty : Type_) : bool :=
  match ty with
  | TyGeneric _ | TyUnknown | TyError => true
  | TyStruct _ args | TyEnum _ args | TyTuple args => existsb unresolved args
  | TySlice inner | TyBorrow _ inner | TyRawPointer _ inner => unresolved inner
  | _ => false
  end.

Definition children (ty : Type_) : option (list Type_) :=
  match ty with
  | TySlice elem => Some [elem]
  | TyStruct name args =>
      if is_cell ty then Some (take 1 args)
      else if lay_has_struct name then map fst <$> lay_struct_fields name args
      else Some []
  | TyEnum name args => (fun vs => concat (map (fun v => map fst v.2) vs)) <$> lay_enum_variants name args
  | TyTuple items => Some items
  | _ => Some []
  end.

(** The fields of a struct or tuple, with their offsets. *)
Definition glue_fields (ty : Type_) : option (list (Type_ * Z)) :=
  match ty with
  | TyStruct name args => lay_struct_fields name args
  | TyTuple items => list.mapM (lay_tuple_field items) (seq 0 (length items))
  | _ => Some []
  end.

(** ** [Analysis::needs_drop] *)

Inductive GlueError := LayoutPanic | OutOfFuel.

(** A [HashMap<Type, _>] as a list, latest entry first. *)
Definition type_get {V} (m : list (Type_ * V)) (ty : Type_) : option V :=
  snd <$> List.find (fun e => type_eqb e.1 ty) m.
Definition type_mem (l : list Type_) (ty : Type_) : bool := existsb (fun t => type_eqb t ty) l.

Record Analysis := mkAnalysis { memo : list (Type_ * bool); visiting : list Type_ }.

(** What the table says of a closure or C function pointer differs between
    the two analyses ([paco-mir] and the compile-time machine). *)
Definition fn_owns (ty : Type_) : bool :=
  match ty with TyFn _ _ abi _ => match abi with Some _ => false | None => true end | _ => false end.

Fixpoint any_child (f : Type_ -> Analysis -> result (bool * Analysis) GlueError) (l : list Type_) (s : Analysis)
  : result (bool * Analysis) GlueError :=
  match l with
  | [] => Ok (false, s)
  | t :: l =>
      match f t s with
      | Ok (true, s) => Ok (true, s)
      | Ok (false, s) => any_child f l s
      | Err e => Err e
      end
  end.

Definition is_aggregate (ty : Type_) : bool :=
  match ty with TyStruct _ _ | TyEnum _ _ | TyTuple _ => true | _ => false end.

(** The match of [needs_drop]: [inl b] when the type alone decides. *)
Definition drop_shape (ty : Type_) : option bool :=
  match ty with
  | TyString | TySlice _ => Some true
  | TyFn _ _ _ _ => Some (fn_owns ty)
  | _ =>
      if is_cell ty || bool_decide (is_Some (handle_fns ty)) then Some true
      else if unresolved ty then Some false
      else match ty with
           | TyStruct name _ => if lay_has_struct name then None else Some false
           | TyEnum _ _ | TyTuple _ => None
           | _ => Some false
           end
  end.

Context (user_drops : list (Type_ * string)).

Fixpoint needs_drop (fuel : nat) (ty : Type_) (s : Analysis) : result (bool * Analysis) GlueError :=
  match fuel with
  | O => Err OutOfFuel
  | S fuel =>
      match type_get (memo s) ty with
      | Some known => Ok (known, s)
      | None =>
          if type_mem (visiting s) ty then Ok (false, s)
          else
            let s := mkAnalysis (memo s) (ty :: visiting s) in
            let answer :=
              match drop_shape ty with
              | Some b => Ok (b, s)
              | None =>
                  match type_get user_drops ty with
                  | Some _ => Ok (true, s)
                  | None =>
                      match children ty with
                      | Some l => any_child (needs_drop fuel) l s
                      | None => Err LayoutPanic
                      end
                  end
              end in
            match answer with
            | Ok (b, s) => Ok (b, mkAnalysis ((ty, b) :: memo s) (List.filter (fun t => negb (type_eqb t ty)) (visiting s)))
            | Err e => Err e
            end
      end
  end.

(** ** [owning_types] *)

Definition place_types : Place -> list Type_ -> list Type_ :=
  fix go (p : Place) (out : list Type_) : list Type_ :=
    match p with
    | PlLocal _ => out
    | PlField base _ | PlVariantField base _ _ | PlIndex base _ => go base out
    | PlDeref _ ty => out ++ [ty]
    end.

Definition rvalue_types (r : Rvalue) (out : list Type_) : list Type_ :=
  match r with
  | RAggregate ty _ _ | RLoad _ ty => out ++ [ty]
  | RRef _ p | RDiscriminant p | RSliceLen p => place_types p out
  | RUse (Copy p) | RUse (Move p) => place_types p out
  | _ => out
  end.

Definition statement_types (st : Statement) (out : list Type_) : list Type_ :=
  match st with
  | SAssign p r => rvalue_types r (place_types p out)
  | SStore _ _ ty => out ++ [ty]
  | SFreeBox _ _ | SDrop _ | SStorageDead _ => out
  end.

Definition body_types (b : Body) (out : list Type_) : list Type_ :=
  fold_left (fun out blk => fold_left (fun out st => statement_types st out) (statements blk) out) (body_blocks b)
    (out ++ map local_ty (body_locals b)).

(** What a type makes pending. *)
Definition successors (ty : Type_) : option (list Type_) :=
  match ty with
  | TyBorrow _ t | TyRawPointer _ t => Some [t]
  | _ => children ty
  end.

(** The loop over the stack [pending], its top last. *)
Fixpoint owning_loop (depth fuel : nat) (pending seen : list Type_) (s : Analysis) (owning : list Type_)
  : result (list Type_) GlueError :=
  match fuel with
  | O => Err OutOfFuel
  | S fuel =>
      match last pending with
      | None => Ok owning
      | Some ty =>
          let pending := take (length pending - 1) pending in
          if type_mem seen ty then owning_loop depth fuel pending seen s owning
          else
            let seen := ty :: seen in
            if unresolved ty then owning_loop depth fuel pending seen s owning
            else
              match needs_drop depth ty s with
              | Err e => Err e
              | Ok (b, s) =>
                  let owning := if b then owning ++ [ty] else owning in
                  match successors ty with
                  | Some l => owning_loop depth fuel (pending ++ l) seen s owning
                  | None => Err LayoutPanic
                  end
              end
      end
  end.

(** The types the bodies mention, and [string]. *)
Definition mentioned_types (bodies : list (string * Body)) : list Type_ :=
  fold_left (fun out b => body_types b.2 out) bodies [TyString].

(** [depth] bounds the recursion of [needs_drop], [fuel] the loop. *)
Definition owning_types (depth fuel : nat) (bodies : list (string * Body)) : result (list Type_) GlueError :=
  owning_loop depth fuel (mentioned_types bodies) [] (mkAnalysis [] []) [].
End Glue.

(** [user_drop_fns]: the types with a [fn drop(&mut self)]. *)
Definition user_drop_fn (A : Arena) (disp : Display) (entry : string * Body) : option (Type_ * string) :=
  let '(name, body) := entry in
  match take (param_count body) (body_locals body) with
  | [{| local_ty := TyBorrow true (TyStruct owner args as ty) |}]
  | [{| local_ty := TyBorrow true (TyEnum owner args as ty) |}] =>
      if bool_decide (name = mangled_name A disp (owner +:+ "::drop") args) && type_eqb (return_ty body) TyUnit
      then Some (ty, name) else None
  | _ => None
  end.

Definition user_drop_fns (A : Arena) (disp : Display) (bodies : list (string * Body)) : list (Type_ * string) :=
  fold_left (fun m e => e :: m) (omap (user_drop_fn A disp) bodies) [].

(** ** Correctness *)

(** Types without the written form of a dimension: there [==] is equality. *)
Definition plain (ty : Type_) : Prop := unwritten ty = ty.

Lemma plain_eqb a b : plain a -> plain b -> type_eqb a b = true <-> a = b.
Proof. intros Ha Hb. by rewrite type_eqb_unwritten, Ha, Hb. Qed.

Lemma plain_neqb a b : plain a -> plain b -> a <> b -> type_eqb a b = false.
Proof. intros Ha Hb Hne. apply not_true_iff_false. by rewrite plain_eqb. Qed.

Section Correct.
Context {L : Layouts} (user_drops : list (Type_ * string)).

(** A type owns when its shape says so, when it has a user [drop], or when a
    part held by value owns. *)
Inductive owns : Type_ -> Prop :=
| owns_shape ty : drop_shape ty = Some true -> owns ty
| owns_user ty : drop_shape ty = None -> is_Some (type_get user_drops ty) -> owns ty
| owns_child ty l t : drop_shape ty = None -> children ty = Some l -> t ∈ l -> owns t -> owns ty.

(** The types [P] of a program have layouts of finite size: the parts of a
    type held by value are among them and rank below it. *)
Record sized (P : Type_ -> Prop) (rank : Type_ -> nat) : Prop := {
  sized_plain : forall ty, P ty -> plain ty;
  sized_children : forall ty, P ty -> drop_shape ty = None ->
    exists l, children ty = Some l /\ Forall (fun t => P t /\ rank t < rank ty) l }.

Context (P : Type_ -> Prop) (rank : Type_ -> nat) (HR : sized P rank).

Definition memo_ok (s : Analysis) : Prop :=
  Forall (fun e => plain e.1 /\ (e.2 = true <-> owns e.1)) (memo s) /\ Forall plain (visiting s).

Lemma type_get_In {V} (m : list (Type_ * V)) ty v :
  Forall (fun e => plain e.1) m -> plain ty -> type_get m ty = Some v -> (ty, v) ∈ m.
Proof.
  intros Hm Hp. unfold type_get. destruct (List.find _ m) as [[t w]|] eqn:E; [|done]. intros [= ->].
  apply find_some in E as [Hin Heq]. simpl in Heq. apply list_elem_of_In in Hin.
  rewrite Forall_forall in Hm. pose proof (Hm _ Hin) as Ht. rewrite plain_eqb in Heq by done. by subst.
Qed.

Lemma type_mem_spec l ty : Forall plain l -> plain ty -> type_mem l ty = true <-> ty ∈ l.
Proof.
  intros Hl Hp. unfold type_mem. rewrite existsb_exists.
  rewrite Forall_forall in Hl. split.
  - intros (t & Hin & Heq). apply list_elem_of_In in Hin. rewrite plain_eqb in Heq by auto. by subst.
  - intros Hin. exists ty. split; [by apply list_elem_of_In|]. by rewrite plain_eqb.
Qed.

Lemma filter_visiting ty l : Forall plain (ty :: l) -> ty ∉ l -> List.filter (fun t => negb (type_eqb t ty)) (ty :: l) = l.
Proof.
  intros Hl Hn. inversion_clear Hl as [|? ? Hp Hl']. simpl. rewrite (proj2 (plain_eqb ty ty Hp Hp) eq_refl). simpl.
  induction Hl' as [|t l Ht Hl IH]; [done|]. simpl. rewrite not_elem_of_cons in Hn. destruct Hn as [Hne Hn].
  rewrite plain_neqb by (auto || congruence). simpl. by rewrite IH.
Qed.

(** The state a recursion leaves, and its answer. *)
Definition answers (ty : Type_) (s : Analysis) (r : result (bool * Analysis) GlueError) : Prop :=
  exists b s', r = Ok (b, s') /\ (b = true <-> owns ty) /\ memo_ok s' /\ visiting s' = visiting s.

Lemma any_child_answers f l s :
  memo_ok s -> Forall (fun t => forall s', memo_ok s' -> visiting s' = visiting s -> answers t s' (f t s')) l ->
  exists b s', any_child f l s = Ok (b, s') /\ (b = true <-> exists t, t ∈ l /\ owns t) /\ memo_ok s' /\ visiting s' = visiting s.
Proof.
  intros Hs Hl. revert s Hs Hl. induction l as [|t l IH]; intros s Hs Hl; cbn [any_child].
  - exists false, s. split_and!; try done. split; [done|]. by intros (t & ?%not_elem_of_nil & _).
  - inversion_clear Hl as [|? ? Ht Hl']. destruct (Ht s Hs eq_refl) as (b & s1 & -> & Hb & Hs1 & Hv1). destruct b.
    + exists true, s1. split_and!; try done. split; [|done]. intros _. exists t. split; [left|by apply Hb].
    + destruct (IH s1 Hs1) as (b & s2 & -> & Hb2 & Hs2 & Hv2).
      { eapply Forall_impl; [exact Hl'|]. simpl. intros t' H s' H1 H2. apply H; [done|congruence]. }
      exists b, s2. split_and!; try done; [|congruence]. rewrite Hb2. split.
      * intros (t' & Hin & Ho). exists t'. split; [by right|done].
      * intros (t' & [->|Hin]%elem_of_cons & Ho); [|by exists t']. by apply Hb in Ho.
Qed.

Lemma needs_drop_answers fuel ty s :
  P ty -> rank ty < fuel -> memo_ok s -> Forall (fun v => rank ty < rank v) (visiting s) ->
  answers ty s (needs_drop user_drops fuel ty s).
Proof.
  revert ty s. induction fuel as [|fuel IH]; intros ty s HP Hf Hs Hv; [lia|]. cbn [needs_drop].
  pose proof (sized_plain _ _ HR ty HP) as Hp.
  destruct (type_get (memo s) ty) as [known|] eqn:Em.
  { destruct Hs as [Hm Hvp]. apply type_get_In in Em; [|by eapply Forall_impl; [exact Hm|intros ? []]|done].
    rewrite Forall_forall in Hm. destruct (Hm _ Em) as [_ Hk]. exists known, s. split_and!; try done.
    split; [by apply Forall_forall|done]. }
  assert (ty ∉ visiting s) as Hnv.
  { intros Hin. rewrite Forall_forall in Hv. pose proof (Hv _ Hin). lia. }
  assert (type_mem (visiting s) ty = false) as -> by (apply not_true_iff_false; rewrite type_mem_spec by (done || apply Hs); done).
  set (s1 := mkAnalysis (memo s) (ty :: visiting s)).
  assert (memo_ok s1) as Hs1 by (split; [apply Hs|constructor; [done|apply Hs]]).
  match goal with |- context [match ?a with Ok _ => _ | Err _ => _ end] => set (answer := a) end.
  assert (answers ty s1 answer) as (b & s2 & -> & Hb & Hs2 & Hv2).
  { unfold answer. clear answer. destruct (drop_shape ty) as [b|] eqn:Es.
    { exists b, s1. split_and!; try done. split; [intros ->; by constructor|].
      intros Ho. inversion Ho; congruence. }
    destruct (type_get user_drops ty) eqn:Eu.
    { exists true, s1. split_and!; try done. split; [|done]. intros _. apply owns_user; [done|by rewrite Eu]. }
    destruct (sized_children _ _ HR ty HP Es) as (l & El & Hl). rewrite El.
    destruct (any_child_answers (needs_drop user_drops fuel) l s1 Hs1) as (b & s2 & -> & Hb & Hs2 & Hv2).
    { eapply Forall_impl; [exact Hl|]. simpl. intros t [Ht Hr] s' Hs' Hv'. apply IH; [done|lia|done|].
      rewrite Hv'. constructor; [done|]. eapply Forall_impl; [exact Hv|]. simpl. lia. }
    exists b, s2. split_and!; try done. rewrite Hb. split; [intros (t & Hin & Ho); by eapply owns_child|].
    intros Ho. inversion Ho as [? E|? ? E|? l' t ? El' Hin Ht]; subst; [congruence|rewrite Eu in E; by destruct E|].
    exists t. split; [congruence|done]. }
  exists b. eexists. split; [done|]. split; [done|]. cbn [memo visiting]. rewrite Hv2. change (visiting s1) with (ty :: visiting s).
  rewrite filter_visiting; [|constructor; [done|apply Hs]|done]. split; [|done].
  split; [constructor; [done|apply Hs2]|apply Hs].
Qed.

(** In any state the analysis reaches between questions, [needs_drop] answers
    within the depth of the type whether it owns something, and the answers it
    keeps are right. *)
Theorem needs_drop_correct ty s :
  P ty -> memo_ok s -> visiting s = [] ->
  exists b s', needs_drop user_drops (S (rank ty)) ty s = Ok (b, s') /\ (b = true <-> owns ty) /\
    memo_ok s' /\ visiting s' = [].
Proof.
  intros Hp Hs Hv. destruct (needs_drop_answers (S (rank ty)) ty s Hp) as (b & s' & H1 & H2 & H3 & H4); [lia|done|by rewrite Hv|].
  exists b, s'. by rewrite H4.
Qed.

(** *** The worklist *)

(** Reachable from the mentioned types through parts, elements and targets of
    pointers; nothing is reached through an unresolved type. *)
Inductive reaches (start : list Type_) : Type_ -> Prop :=
| reaches_start ty : ty ∈ start -> reaches start ty
| reaches_step ty l t : reaches start ty -> unresolved ty = false -> successors ty = Some l -> t ∈ l -> reaches start t.

(** A finite set of types that is closed under successors. *)
Record universe (U : list Type_) : Prop := {
  universe_sized : forall ty, ty ∈ U -> P ty;
  universe_closed : forall ty, ty ∈ U -> unresolved ty = false -> exists l, successors ty = Some l /\ l ⊆ U }.

Context (U : list Type_) (HU : universe U) (depth : nat) (Hdepth : Forall (fun t => rank t < depth) U).

Definition weight (ty : Type_) : nat := match successors ty with Some l => length l | None => 0 end.

(** Steps left: the pending types, and what the types of [U] not yet seen can
    still make pending. *)
Definition work (pending seen : list Type_) : nat :=
  length pending + sum_list_with (fun t => if type_mem seen t then 0 else weight t) U.

Record loop_inv (start pending seen : list Type_) (s : Analysis) (owning : list Type_) : Prop := {
  inv_pending : Forall (fun t => t ∈ U /\ reaches start t) pending;
  inv_seen : Forall (fun t => t ∈ U /\ reaches start t) seen;
  inv_start : forall t, t ∈ start -> t ∈ pending \/ t ∈ seen;
  inv_closed : forall ty l t, ty ∈ seen -> unresolved ty = false -> successors ty = Some l -> t ∈ l -> t ∈ pending \/ t ∈ seen;
  inv_memo : memo_ok s;
  inv_visiting : visiting s = [];
  inv_owning : forall t, t ∈ owning <-> t ∈ seen /\ unresolved t = false /\ owns t;
  inv_nodup : NoDup owning }.

Lemma in_universe_plain t : t ∈ U -> plain t.
Proof. intros Ht. by apply (sized_plain _ _ HR), (universe_sized _ HU). Qed.

Lemma seen_spec (Q : Type_ -> Prop) seen t :
  Forall (fun t => t ∈ U /\ Q t) seen -> t ∈ U -> type_mem seen t = true <-> t ∈ seen.
Proof.
  intros Hs Ht. apply type_mem_spec; [|by apply in_universe_plain].
  eapply Forall_impl; [exact Hs|]. simpl. intros x [Hx _]. by apply in_universe_plain.
Qed.

Lemma elem_of_snoc {A} (l : list A) x y : x ∈ l ++ [y] -> x ∈ l \/ x = y.
Proof. by rewrite elem_of_app, list_elem_of_singleton. Qed.

Lemma last_split (l : list Type_) : l = [] \/ exists init x, l = init ++ [x] /\ last l = Some x /\ take (length l - 1) l = init.
Proof.
  destruct l as [|x init _] using rev_ind; [by left|]. right. exists init, x. split; [done|].
  split; [by rewrite last_snoc|]. rewrite length_app. simpl. by rewrite Nat.add_sub, take_app_length.
Qed.

Lemma work_seen (Q : Type_ -> Prop) pending seen t :
  Forall (fun t => t ∈ U /\ Q t) seen -> NoDup U -> t ∈ U -> type_mem seen t = false ->
  work pending (t :: seen) + weight t = work pending seen.
Proof.
  intros Hs HN Ht Hm. unfold work. pose proof (in_universe_plain t Ht) as Hp.
  assert (Forall plain U) as HpU by (rewrite Forall_forall; apply in_universe_plain).
  enough (sum_list_with (fun u => if type_mem (t :: seen) u then 0 else weight u) U + weight t =
          sum_list_with (fun u => if type_mem seen u then 0 else weight u) U) by lia.
  clear HU Hdepth Hs. induction U as [|u V IH]; [by apply not_elem_of_nil in Ht|].
  inversion_clear HN as [|? ? Hn HN']. inversion_clear HpU as [|? ? Hu HV]. cbn [sum_list_with].
  change (type_mem (t :: seen) u) with (type_eqb t u || type_mem seen u).
  apply elem_of_cons in Ht as [->|Ht].
  - rewrite (proj2 (plain_eqb u u Hu Hu) eq_refl), Hm. simpl. rewrite Nat.add_comm. f_equal.
    clear IH. induction HV as [|v V Hv HV IH]; [done|]. cbn [sum_list_with].
    rewrite not_elem_of_cons in Hn. destruct Hn as [Hne Hn]. inversion_clear HN'.
    change (type_mem (u :: seen) v) with (type_eqb u v || type_mem seen v). rewrite plain_neqb by done. simpl. by rewrite IH.
  - assert (t <> u) by (by intros ->). rewrite plain_neqb by done. cbn [orb]. rewrite <- (IH HN' Ht HV). lia.
Qed.

Lemma owning_loop_correct start fuel pending seen s owning :
  NoDup U -> loop_inv start pending seen s owning -> work pending seen < fuel ->
  exists out, owning_loop user_drops depth fuel pending seen s owning = Ok out /\ NoDup out /\
    forall t, t ∈ out <-> reaches start t /\ unresolved t = false /\ owns t.
Proof.
  intros HN. revert pending seen s owning. induction fuel as [|fuel IH]; intros pending seen s owning Hinv Hf; [lia|].
  cbn [owning_loop]. destruct (last_split pending) as [->|(init & ty & -> & -> & Htake)].
  - exists owning. cbn [last]. split; [done|]. split; [apply Hinv|]. intros t. rewrite (inv_owning _ _ _ _ _ Hinv).
    assert (forall u, reaches start u -> u ∈ seen) as Hall.
    { induction 1 as [u Hu|u l v Hu IHu Hr Hl Hv].
      - by destruct (inv_start _ _ _ _ _ Hinv u Hu) as [?%not_elem_of_nil|].
      - by destruct (inv_closed _ _ _ _ _ Hinv u l v IHu Hr Hl Hv) as [?%not_elem_of_nil|]. }
    pose proof (inv_seen _ _ _ _ _ Hinv) as Hs. rewrite Forall_forall in Hs. split; intros (H1 & H2 & H3); split_and!; auto.
    by apply Hs.
  - rewrite Htake. pose proof (inv_pending _ _ _ _ _ Hinv) as Hpend. rewrite Forall_app, Forall_singleton in Hpend.
    destruct Hpend as [Hinit [HtU Htr]]. pose proof (universe_sized _ HU ty HtU) as Hp.
    pose proof (seen_spec _ _ _ (inv_seen _ _ _ _ _ Hinv) HtU) as Hmem.
    destruct (type_mem seen ty) eqn:Em.
    { apply IH; [|unfold work in *; rewrite length_app in Hf; simpl in Hf; lia].
      assert (ty ∈ seen) as Hin by (by apply Hmem). destruct Hinv. split; try done.
      - intros t Ht. destruct (inv_start0 t Ht) as [[?| ->]%elem_of_snoc|?]; auto.
      - intros u l t Hu Hr Hl Ht. destruct (inv_closed0 u l t Hu Hr Hl Ht) as [[?| ->]%elem_of_snoc|?]; auto. }
    assert (ty ∉ seen) as Hnin by (rewrite <- Hmem; done).
    pose proof (work_seen _ init seen ty (inv_seen _ _ _ _ _ Hinv) HN HtU Em) as Hw.
    assert (work (init ++ [ty]) seen = S (work init seen)) as Hw2 by (unfold work; rewrite length_app; simpl; lia).
    destruct (unresolved ty) eqn:Er.
    { apply IH; [|lia]. destruct Hinv. split; try done.
      - by constructor.
      - intros t Ht. destruct (inv_start0 t Ht) as [[?| ->]%elem_of_snoc|?]; auto; right; set_solver.
      - intros u l t [->|Hu]%elem_of_cons Hr Hl Ht; [congruence|].
        destruct (inv_closed0 u l t Hu Hr Hl Ht) as [[?| ->]%elem_of_snoc|?]; auto; right; set_solver.
      - intros t. rewrite inv_owning0, elem_of_cons. split; [naive_solver|]. intros ([->|?] & H2 & H3); [congruence|auto]. }
    assert (rank ty < depth) as Hrk by (rewrite Forall_forall in Hdepth; auto).
    destruct (needs_drop_answers depth ty s Hp Hrk (inv_memo _ _ _ _ _ Hinv)) as (b & s' & -> & Hb & Hs' & Hv');
      [by rewrite (inv_visiting _ _ _ _ _ Hinv)|].
    destruct (universe_closed _ HU ty HtU Er) as (l & El & Hl). rewrite El.
    assert (weight ty = length l) as Hwt by (unfold weight; by rewrite El).
    apply IH.
    2: { assert (work (init ++ l) (ty :: seen) = work init (ty :: seen) + length l) by (unfold work; rewrite length_app; lia). lia. }
    destruct Hinv. split.
    + rewrite Forall_app. split; [done|]. rewrite Forall_forall. intros t Ht. split; [by apply Hl|]. by eapply reaches_step.
    + by constructor.
    + intros t Ht. destruct (inv_start0 t Ht) as [[?| ->]%elem_of_snoc|?]; set_solver.
    + intros u l' t [->|Hu]%elem_of_cons Hr Hl' Ht; [set_solver|].
      destruct (inv_closed0 u l' t Hu Hr Hl' Ht) as [[?| ->]%elem_of_snoc|?]; set_solver.
    + done.
    + congruence.
    + intros t. rewrite elem_of_cons. destruct b.
      * rewrite elem_of_app, list_elem_of_singleton, inv_owning0. split; [intros [?| ->]; [tauto|]|]; [|tauto].
        split; [by left|]. split; [done|by apply Hb].
      * rewrite inv_owning0. split; [tauto|]. intros ([->|?] & H2 & H3); [|tauto]. by apply Hb in H3.
    + destruct b; [|done]. apply NoDup_app. split; [done|]. split; [|apply NoDup_singleton].
      intros t Ht Hx. apply list_elem_of_singleton in Hx as ->. by apply inv_owning0 in Ht as [? _].
Qed.

(** C22: Over a finite closed set of types of finite size, none of which contains
    the written form of a dimension, [owning_types] stops and returns, once
    each, exactly the resolved types reachable from what the bodies mention that
    own something. *)
Theorem owning_types_correct bodies fuel :
  NoDup U -> mentioned_types bodies ⊆ U ->
  length (mentioned_types bodies) + sum_list_with weight U < fuel ->
  exists out, owning_types user_drops depth fuel bodies = Ok out /\ NoDup out /\
    forall t, t ∈ out <-> reaches (mentioned_types bodies) t /\ unresolved t = false /\ owns t.
Proof.
  intros HN Hm Hf. apply owning_loop_correct; [done| |exact Hf].
  split; try done.
  - rewrite Forall_forall. intros t Ht. split; [by apply Hm|by constructor].
  - by left.
  - intros ty l t ?%not_elem_of_nil. done.
  - intros t. split; [intros ?%not_elem_of_nil; done|]. by intros [?%not_elem_of_nil _].
  - constructor.
Qed.
End Correct.

(** ** A program with a struct that owns *)

Definition ex_layouts : Layouts := type_layouts ex_decls 10 ex_caches.

(** [struct Pair { a: bool, b: i64 }] has a user [drop]; it is the payload of
    [enum Maybe], which a body holds by value and behind a borrow. *)
Definition ex_maybe_ty : Type_ := TyEnum "Maybe" [].
Definition ex_pair_ty : Type_ := TyStruct "Pair" [].
Definition ex_body : Body :=
  mkBody [mkLocalDecl None ex_maybe_ty false; mkLocalDecl None (TyBorrow false (TyTuple [TyBool; TyString])) false]
    [] Debug 0 TyUnit sp0 [].
Definition ex_drops : list (Type_ * string) := [(ex_pair_ty, "Pair::drop"%string)].

Definition ex_universe : list Type_ :=
  [TyString; ex_maybe_ty; ex_pair_ty; TyBool; TyInt I64; TyBorrow false (TyTuple [TyBool; TyString]); TyTuple [TyBool; TyString]].

Definition ex_drop_rank (ty : Type_) : nat :=
  match ty with TyEnum _ _ => 2 | TyStruct _ _ | TyTuple _ => 1 | _ => 0 end.

Lemma ex_sized : @sized ex_layouts (fun ty => ty ∈ ex_universe) ex_drop_rank.
Proof.
  split; [intros ty H; by set_unfold in H; destruct_or? H; subst|].
  intros ty H Hs. unfold ex_universe in H. rewrite !elem_of_cons, elem_of_nil in H.
  destruct_or? H; subst; try done; (eexists; split; [vm_compute; reflexivity|]);
    (repeat constructor); unfold ex_universe; rewrite !elem_of_cons; tauto.
Qed.

Lemma ex_closed : @universe ex_layouts (fun ty => ty ∈ ex_universe) ex_universe.
Proof.
  split; [done|]. intros ty H _. unfold ex_universe in H. rewrite !elem_of_cons, elem_of_nil in H.
  destruct_or? H; subst; try done; (eexists; split; [vm_compute; reflexivity|]);
    intros t Ht; rewrite ?elem_of_cons, ?elem_of_nil in Ht; unfold ex_universe; rewrite !elem_of_cons; tauto.
Qed.

Lemma needs_drop_correct_witness :
  exists b s, @needs_drop ex_layouts ex_drops 3 ex_maybe_ty (mkAnalysis [] []) = Ok (b, s) /\
    (b = true <-> @owns ex_layouts ex_drops ex_maybe_ty).
Proof.
  destruct (@needs_drop_correct ex_layouts ex_drops _ ex_drop_rank ex_sized ex_maybe_ty (mkAnalysis [] []))
    as (b & s & H1 & H2 & _); [unfold ex_universe; set_solver|by split|done|].
  by exists b, s.
Defined.

Lemma owning_types_correct_witness :
  exists out, @owning_types ex_layouts ex_drops 3 40 [("f"%string, ex_body)] = Ok out /\
    (ex_pair_ty ∈ out <-> @owns ex_layouts ex_drops ex_pair_ty).
Proof.
  destruct (@owning_types_correct ex_layouts ex_drops _ ex_drop_rank ex_sized ex_universe ex_closed 3
    ltac:(repeat constructor) [("f"%string, ex_body)] 40) as (out & H1 & _ & H3).
  - unfold ex_universe, ex_maybe_ty, ex_pair_ty. repeat (constructor; [set_solver|]). constructor.
  - intros t Ht. unfold ex_universe.
    change (mentioned_types [("f"%string, ex_body)]) with
      [TyString; ex_maybe_ty; TyBorrow false (TyTuple [TyBool; TyString])] in Ht. rewrite !elem_of_cons, elem_of_nil in Ht. rewrite !elem_of_cons. tauto.
  - vm_compute. lia.
  - exists out. split; [exact H1|]. rewrite H3. split; [tauto|]. intros H. split; [|done].
    apply (@reaches_step ex_layouts) with (ty := ex_maybe_ty) (l := [ex_pair_ty; TyBool]); [|done|vm_compute; done|left].
    apply reaches_start. right. left.
Defined.
