(* ===== verification/AdTypes.v ===== *)
(** Where the derivative of a value lives: [paco-mir/src/autodiff/types.rs].

    A type's float leaves are the paths to the floats a value holds by itself;
    its heap paths lead to the slices whose elements carry derivatives.  The
    recursions stop at depth 16, which is their fuel here: [17 - depth].  [None]
    where the layouts panic. *)
From S2P Require Import Prelude Ast Types Dims Generics Names Layout TypeLayout Mir Glue.
Open Scope nat_scope.

(** ** The interface of the layouts *)

Class AdLayouts := {
  ad_layouts :: Layouts;
  lay_field_list : string -> list Type_ -> option (list (string * Type_));
  lay_struct_assoc : string -> list Type_ -> string -> option (option Type_);
  lay_same_struct : string -> string -> bool }.

Definition sd_assoc_types (d : StructDecl) : list AssocTypeDecl := let 'mkStructDecl _ _ _ _ _ a _ _ _ := d in a.
Definition at_name (d : AssocTypeDecl) : string := let 'mkAssocTypeDecl n _ _ := d in n.
Definition at_default (d : AssocTypeDecl) : option Ty := let 'mkAssocTypeDecl _ t _ := d in t.

(** [TypeLayouts::struct_assoc] *)
Definition struct_assoc (D : Decls) (name : string) (args : list Type_) (assoc : string) : M (option Type_) :=
  match struct_decls D !! name with
  | None => ret None
  | Some decl =>
      match List.find (fun item => bool_decide (at_name item = assoc)) (sd_assoc_types decl) with
      | Some item =>
          match at_default item with
          | Some declared =>
              (template <- resolve_ty_template D declared (generic_names (sd_generics decl)) ;;
               ty <- on_arena (substitute_generics template (substitution (sd_generics decl) args)) ;;
               ret (Some ty))
          | None => ret None
          end
      | None => ret None
      end
  end.

(** The layouts of a program's declarations.  Two names have the same declaration
    by its address in the code, which [same] stands for. *)
Definition ad_type_layouts (D : Decls) (fuel : nat) (C : Caches) (same : string -> string -> bool) : AdLayouts :=
  let run {A} (m : M A) : option A := match m C with Ok (a, _) => Some a | Err _ => None end in
  {| ad_layouts := type_layouts D fuel C;
     lay_field_list := fun name args => run (struct_field_list D fuel name args);
     lay_struct_assoc := fun name args assoc => run (struct_assoc D name args assoc);
     lay_same_struct := fun left right => bool_decide (left = right) || same left right |}.

(** ** Paths *)

Inductive Proj :=
| PField (field : string)
| PVariant (variant : string) (index : nat).

#[export] Instance Proj_eq_dec : EqDecision Proj.
Proof. solve_decision. Defined.

Definition Path : Type := list Proj.

Inductive LeafKind :=
| LFloat (w : FloatWidth)
| LOpaque (primal tangent : Type_).

Record Leaf := mkLeaf { leaf_path : Path; leaf_kind : LeafKind }.

Definition project (base : Place) (path : Path) : Place :=
  fold_left (fun place proj =>
    match proj with
    | PField field => PlField place field
    | PVariant variant index => PlVariantField place variant index
    end) path base.

Fixpoint strip_borrow (ty : Type_) : Type_ := match ty with TyBorrow _ ty => strip_borrow ty | other => other end.

(** [index.to_string()] and [field.parse::<usize>()]; a number that does not fit a
    [usize] is beyond the end of every list. *)
Definition index_name (index : nat) : string := show_Z (Z.of_nat index).
Definition parse_index (s : string) : option nat :=
  match s with
  | String "+" s => Z.to_nat <$> parse_unsigned s
  | _ => Z.to_nat <$> parse_unsigned s
  end.

(** [iter().any], and [flat_map], over an operation that may panic. *)
Fixpoint any_opt {A} (f : A -> option bool) (l : list A) : option bool :=
  match l with
  | [] => Some false
  | a :: l => b ← f a; if (b : bool) then Some true else any_opt f l
  end.
Fixpoint flat_opt {A B} (f : A -> option (list B)) (l : list A) : option (list B) :=
  match l with
  | [] => Some []
  | a :: l => x ← f a; y ← flat_opt f l; Some (x ++ y)
  end.

(** [iter().enumerate()] *)
Definition enumerate {A} (l : list A) : list (nat * A) := zip (seq 0 (length l)) l.

Section Types.
Context {L : AdLayouts}.

Definition same_name (a b : string) : bool :=
  bool_decide (a = b) || lay_same_struct a b || (bool_decide (last_segment a = last_segment b) && (has_sep a || has_sep b)).

Fixpoint same_type (left right : Type_) : bool :=
  match left, right with
  | TyStruct a x, TyStruct b y | TyEnum a x, TyEnum b y => same_name a b && list_eqb same_type x y
  | TyTuple x, TyTuple y | TyPack x, TyPack y => list_eqb same_type x y
  | TyBorrow a x, TyBorrow b y => Bool.eqb a b && same_type x y
  | TySlice x, TySlice y => same_type x y
  | _, _ => type_eqb left right
  end.

Definition opaque_tangent (ty : Type_) : option (option Type_) :=
  match ty with
  | TyStruct name args =>
      tangent ← lay_struct_assoc name args "Tangent";
      Some (t ← tangent; if same_type t ty then None else Some t)
  | _ => Some None
  end.

(** The fields of the variants of an enum, as projections. *)
Definition variant_fields (name : string) (args : list Type_) : option (list (Proj * Type_)) :=
  names ← lay_enum_variant_names name;
  variants ← lay_enum_variants name args;
  Some (concat (map (fun '(variant, (_, fields)) =>
    map (fun '(index, (field_ty, _)) => (PVariant variant index, field_ty)) (enumerate fields)) (zip names variants))).

Fixpoint collect (n : nat) (ty : Type_) (path : Path) : option (list Leaf) :=
  match n with
  | 0 => Some []
  | S n =>
      match ty with
      | TyFloat w => Some (if FloatWidth.has_arithmetic w then [mkLeaf path (LFloat w)] else [])
      | TyStruct name args =>
          tangent ← opaque_tangent ty;
          match tangent with
          | Some tangent => Some [mkLeaf path (LOpaque ty tangent)]
          | None =>
              if lay_has_struct name then
                fields ← lay_field_list name args;
                flat_opt (fun '(field, field_ty) => collect n field_ty (path ++ [PField field])) fields
              else Some []
          end
      | TyTuple items =>
          flat_opt (fun '(index, item) => collect n item (path ++ [PField (index_name index)])) (enumerate items)
      | TyEnum name args =>
          fields ← variant_fields name args;
          flat_opt (fun '(proj, field_ty) => collect n field_ty (path ++ [proj])) fields
      | _ => Some []
      end
  end.

Definition MAX_DEPTH : nat := 17.

Definition leaves (ty : Type_) : option (list Leaf) := collect MAX_DEPTH ty [].

Fixpoint carries (n : nat) (ty : Type_) : option bool :=
  match n with
  | 0 => Some false
  | S n =>
      match ty with
      | TyFloat w => Some (FloatWidth.has_arithmetic w)
      | TyBorrow _ ty | TySlice ty => carries n ty
      | TyStruct name args =>
          tangent ← opaque_tangent ty;
          match tangent with
          | Some _ => Some true
          | None =>
              if lay_has_struct name then
                fields ← lay_field_list name args; any_opt (fun field => carries n field.2) fields
              else Some false
          end
      | TyTuple items => any_opt (carries n) items
      | TyEnum name args =>
          variants ← lay_enum_variants name args;
          any_opt (fun '(_, fields) => any_opt (fun field => carries n field.1) fields) variants
      | _ => Some false
      end
  end.

Definition can_be_active (ty : Type_) : option bool := carries MAX_DEPTH ty.

Fixpoint heap (n : nat) (ty : Type_) : option bool :=
  match n with
  | 0 => Some false
  | S n =>
      match ty with
      | TySlice elem => carries n elem
      | TyBorrow _ ty => heap n ty
      | TyStruct name args =>
          tangent ← opaque_tangent ty;
          match tangent with
          | Some _ => Some false
          | None =>
              if lay_has_struct name then
                fields ← lay_field_list name args; any_opt (fun field => heap n field.2) fields
              else Some false
          end
      | TyTuple items => any_opt (heap n) items
      | TyEnum name args =>
          variants ← lay_enum_variants name args;
          any_opt (fun '(_, fields) => any_opt (fun field => heap n field.1) fields) variants
      | _ => Some false
      end
  end.

Definition has_heap (ty : Type_) : option bool := heap MAX_DEPTH ty.

Fixpoint collect_heap (n : nat) (ty : Type_) (path : Path) : option (list (Path * Type_)) :=
  match n with
  | 0 => Some []
  | S n =>
      match ty with
      | TySlice elem => b ← carries n elem; Some (if (b : bool) then [(path, elem)] else [])
      | TyStruct name args =>
          tangent ← opaque_tangent ty;
          match tangent with
          | Some _ => Some []
          | None =>
              if lay_has_struct name then
                fields ← lay_field_list name args;
                flat_opt (fun '(field, field_ty) => collect_heap n field_ty (path ++ [PField field])) fields
              else Some []
          end
      | TyTuple items =>
          flat_opt (fun '(index, item) => collect_heap n item (path ++ [PField (index_name index)])) (enumerate items)
      | _ => Some []
      end
  end.

Definition heap_paths (ty : Type_) : option (list (Path * Type_)) := collect_heap MAX_DEPTH ty [].

Definition field_type (ty : Type_) (proj : Proj) : option Type_ :=
  match strip_borrow ty, proj with
  | TyStruct name args, PField field =>
      fields ← lay_field_list name args;
      Some (default TyUnknown (snd <$> List.find (fun e => bool_decide (e.1 = field)) fields))
  | TyTuple items, PField field => Some (default TyUnknown (index ← parse_index field; items !! index))
  | TyEnum name args, PVariant variant index => fst <$> lay_enum_variant_field name args variant index
  | _, _ => Some TyUnknown
  end.

Fixpoint walk_path (ty : Type_) (path : Path) : option Type_ :=
  match path with
  | [] => Some ty
  | proj :: path => ty ← field_type ty proj; walk_path ty path
  end.

Definition path_type (ty : Type_) (path : Path) : option Type_ := walk_path (strip_borrow ty) path.

(** ** What the layouts promise *)

Class AdLaws : Prop := {
  law_fields name args fs : lay_field_list name args = Some fs -> NoDup (map fst fs);
  law_variant_names name ns : lay_enum_variant_names name = Some ns -> NoDup ns;
  law_variant_count name args ns vs :
    lay_enum_variant_names name = Some ns -> lay_enum_variants name args = Some vs -> length ns = length vs;
  law_variant_field name args ns vs i j v d fs f :
    lay_enum_variant_names name = Some ns -> lay_enum_variants name args = Some vs ->
    ns !! i = Some v -> vs !! i = Some (d, fs) -> fs !! j = Some f ->
    lay_enum_variant_field name args v j = Some f }.

(** ** Leaves *)

Definition leaf_type (k : LeafKind) : Type_ := match k with LFloat w => TyFloat w | LOpaque primal _ => primal end.

(** Neither place holds the other. *)
Definition incomparable (a b : Path) : Prop := ~ a `prefix_of` b /\ ~ b `prefix_of` a.

Fixpoint apart (l : list Path) : Prop :=
  match l with
  | [] => True
  | a :: l => Forall (incomparable a) l /\ apart l
  end.

Lemma apart_app l1 l2 : apart l1 -> apart l2 -> (forall a b, a ∈ l1 -> b ∈ l2 -> incomparable a b) -> apart (l1 ++ l2).
Proof.
  induction l1 as [|x l1 IH]; intros H1 H2 H; [done|]. destruct H1 as [Hx H1]. split.
  - apply Forall_app_2; [done|]. apply Forall_forall. intros b Hb. apply H; [by left|done].
  - apply IH; [done..|]. intros a b Ha. apply H. by right.
Qed.

Lemma incomparable_children p x y a b : x <> y -> incomparable (p ++ x :: a) (p ++ y :: b).
Proof.
  intros Ne. split; intros [k E]; rewrite <- !app_assoc in E; apply app_inv_head in E; cbn in E; congruence.
Qed.

Lemma flat_opt_elem {A B} (f : A -> option (list B)) l r x : flat_opt f l = Some r -> x ∈ r -> exists a y, a ∈ l /\ f a = Some y /\ x ∈ y.
Proof.
  revert r. induction l as [|a l IH]; intros r H Hx; cbn in H; simplify_eq; [by inversion Hx|].
  destruct (f a) as [y|] eqn:Ha; [|done]. cbn in H. destruct (flat_opt f l) as [z|]; [|done]. cbn in H. simplify_eq.
  apply elem_of_app in Hx as [Hx|Hx].
  - exists a, y. split; [by left|done].
  - destruct (IH z eq_refl Hx) as (a' & y' & Hl & H1 & H2). exists a', y'. split; [by right|done].
Qed.

Lemma index_name_inj i j : index_name i = index_name j -> i = j.
Proof. intros H%show_Z_inj. lia. Qed.

Lemma parse_index_name i : parse_index (index_name i) = Some i.
Proof.
  unfold index_name. assert (E : parse_unsigned (show_Z (Z.of_nat i)) = Some (Z.of_nat i)) by (apply parse_unsigned_show; lia).
  unfold parse_index. destruct (show_Z (Z.of_nat i)) as [|a s]; [done|].
  destruct (decide (a = "+"%char)) as [->|Ne].
  - unfold parse_unsigned in E. cbn in E. done.
  - assert (F : Z.to_nat <$> parse_unsigned (String a s) = Some i) by (rewrite E; cbn; f_equal; lia).
    destruct a as [[] [] [] [] [] [] [] []]; done.
Qed.

Lemma enumerate_lookup {A} (l : list A) i x : (i, x) ∈ enumerate l -> l !! i = Some x.
Proof.
  unfold enumerate. intros H. apply list_elem_of_lookup in H as [k H]. apply lookup_zip_with_Some in H as (a & b & E & H1 & H2).
  injection E as -> ->. apply lookup_seq in H1 as [-> _]. done.
Qed.

Lemma enumerate_fst {A} (l : list A) : map fst (enumerate l) = seq 0 (length l).
Proof. unfold enumerate. rewrite fst_zip; [done|]. rewrite length_seq. lia. Qed.

Context {Laws : AdLaws}.

(** The parts of a value of a type, by projection. *)
Definition parts (ty : Type_) (fs : list (Proj * Type_)) : Prop :=
  NoDup (map fst fs) /\ forall proj t, (proj, t) ∈ fs -> field_type ty proj = Some t.

Lemma parts_struct name args fs : lay_field_list name args = Some fs ->
  parts (TyStruct name args) (map (fun e => (PField e.1, e.2)) fs).
Proof.
  intros H. pose proof (law_fields _ _ _ H) as N. split.
  - rewrite map_map. cbn. rewrite <- (map_map fst PField). apply (NoDup_fmap_2_strong PField); [congruence|done].
  - intros proj t Hin. apply list_elem_of_In, in_map_iff in Hin as ([f ft] & E & Hin). cbn in E. simplify_eq.
    cbn. rewrite H. cbn. f_equal. apply list_elem_of_In in Hin. clear H. induction fs as [|[g gt] fs IH]; [by inversion Hin|].
    cbn. inversion N as [|?? N1 N2]; subst. case_bool_decide as E.
    + cbn in E. subst. apply elem_of_cons in Hin as [Hin|Hin]; [by simplify_eq|]. exfalso. apply N1.
      apply list_elem_of_In, in_map_iff. exists (f, t). split; [done|]. by apply list_elem_of_In.
    + apply elem_of_cons in Hin as [Hin|Hin]; [simplify_eq; done|]. by apply IH.
Qed.

Lemma parts_tuple items : parts (TyTuple items) (map (fun e => (PField (index_name e.1), e.2)) (enumerate items)).
Proof.
  split.
  - rewrite map_map. cbn. rewrite <- (map_map fst (fun i => PField (index_name i))), enumerate_fst.
    apply (NoDup_fmap_2_strong (fun i => PField (index_name i))); [|apply NoDup_seq].
    intros i j _ _ E. apply index_name_inj. congruence.
  - intros proj t Hin. apply list_elem_of_In, in_map_iff in Hin as ([i ft] & E & Hin). cbn in E. simplify_eq.
    cbn. rewrite parse_index_name. cbn. apply list_elem_of_In, enumerate_lookup in Hin. by rewrite Hin.
Qed.

Definition variant_parts (v : string * (Z * list (Type_ * Z))) : list (Proj * Type_) :=
  map (fun e => (PVariant v.1 e.1, e.2.1)) (enumerate v.2.2).

Lemma variant_parts_elem v proj t : (proj, t) ∈ variant_parts v -> exists i o, proj = PVariant v.1 i /\ v.2.2 !! i = Some (t, o).
Proof.
  intros H. apply list_elem_of_In, in_map_iff in H as ([i [ft o]] & E & H). cbn in E. simplify_eq.
  apply list_elem_of_In, enumerate_lookup in H. eauto.
Qed.

Lemma zip_names_NoDup {A} (ns : list string) (vs : list A) : NoDup ns -> NoDup (map fst (zip ns vs)).
Proof.
  intros H. revert vs. induction H as [|n ns Hn H IH]; intros [|v vs]; cbn; [constructor..|]. constructor; [|apply IH].
  intros Hin. apply Hn. clear -Hin. revert vs Hin. induction ns as [|m ns IH]; intros [|v vs] Hin; cbn in Hin; try by inversion Hin.
  apply elem_of_cons in Hin as [->|Hin]; [by left|right; by eapply IH].
Qed.

Lemma variants_NoDup zs : NoDup (map fst zs) -> NoDup (map fst (concat (map variant_parts zs))).
Proof.
  induction zs as [|z zs IH]; cbn; [constructor|]. intros H. inversion H as [|?? Hz Hzs]; subst. rewrite map_app.
  apply NoDup_app. split; [|split; [|by apply IH]].
  - unfold variant_parts. rewrite map_map. cbn. rewrite <- (map_map fst (PVariant z.1)), enumerate_fst.
    apply (NoDup_fmap_2_strong (PVariant z.1)); [congruence|apply NoDup_seq].
  - intros x Hx Hx'. apply list_elem_of_In, in_map_iff in Hx as ([q t] & <- & Hx). apply list_elem_of_In, variant_parts_elem in Hx as (i & o & -> & _).
    apply list_elem_of_In, in_map_iff in Hx' as ([q' t'] & E & Hx'). cbn in E. subst q'.
    apply in_concat in Hx' as (part & Hp & Hx'). apply in_map_iff in Hp as (z' & <- & Hz').
    apply list_elem_of_In, variant_parts_elem in Hx' as (i' & o' & E & _). apply Hz.
    apply list_elem_of_In, in_map_iff. exists z'. split; [congruence|done].
Qed.

Lemma parts_enum name args fs : variant_fields name args = Some fs -> parts (TyEnum name args) fs.
Proof.
  unfold variant_fields. intros H. destruct (lay_enum_variant_names name) as [ns|] eqn:Hn; [|done]. cbn in H.
  destruct (lay_enum_variants name args) as [vs|] eqn:Hv; [|done]. cbn in H. injection H as <-.
  assert (E : concat (map (fun '(variant, (_, fields)) => map (fun '(index, (field_ty, _)) => (PVariant variant index, field_ty)) (enumerate fields)) (zip ns vs))
    = concat (map variant_parts (zip ns vs))).
  { f_equal. apply map_ext. intros [v [d f]]. apply map_ext. intros [i [t o]]. done. }
  rewrite E. split; [apply variants_NoDup, zip_names_NoDup; by eapply law_variant_names|].
  intros proj t H. apply list_elem_of_In, in_concat in H as (part & Hp & H). apply in_map_iff in Hp as (z & <- & Hz).
  apply list_elem_of_In, variant_parts_elem in H as (i & o & -> & H).
  apply list_elem_of_In, list_elem_of_lookup in Hz as [k Hz]. apply lookup_zip_with_Some in Hz as (v & [d f] & -> & H1 & H2).
  cbn in *. by rewrite (law_variant_field _ _ _ _ _ _ _ _ _ _ Hn Hv H1 H2 H).
Qed.

(** A value is a leaf, or its leaves are those of its parts. *)
Lemma collect_cases n ty p ls : collect (S n) ty p = Some ls ->
  ls = [] \/ (exists k, ls = [mkLeaf p k] /\ leaf_type k = ty /\ strip_borrow ty = ty) \/
  exists fs, parts ty fs /\ strip_borrow ty = ty /\ flat_opt (fun e => collect n e.2 (p ++ [e.1])) fs = Some ls.
Proof.
  intros H. destruct ty; cbn in H; try (injection H as <-; by left).
  - destruct (FloatWidth.has_arithmetic w); injection H as <-; [right; left; by exists (LFloat w)|by left].
  - destruct (lay_struct_assoc name args "Tangent") as [tangent|]; [|done]. cbn in H.
    destruct (t ← tangent; _) as [t|]; [injection H as <-; right; left; by exists (LOpaque (TyStruct name args) t)|].
    destruct (lay_has_struct name); [|injection H as <-; by left]. destruct (lay_field_list name args) as [fs|] eqn:F; [|done].
    cbn in H. right; right. eexists. split; [by apply parts_struct|]. split; [done|].
    rewrite <- H. clear. induction fs as [|[f t] fs IH]; [done|]. cbn. by rewrite IH.
  - destruct (variant_fields name args) as [fs|] eqn:F; [|done]. cbn in H. right; right. exists fs. split; [by apply parts_enum|].
    split; [done|]. rewrite <- H. clear. induction fs as [|[f t] fs IH]; [done|]. cbn. by rewrite IH.
  - right; right. eexists. split; [apply parts_tuple|]. split; [done|]. rewrite <- H. clear.
    induction (enumerate items) as [|[f t] fs IH]; [done|]. cbn. by rewrite IH.
Qed.

Lemma collect_sound n ty p ls l : collect n ty p = Some ls -> l ∈ ls ->
  exists q, leaf_path l = p ++ q /\ walk_path ty q = Some (leaf_type (leaf_kind l)) /\ strip_borrow ty = ty.
Proof.
  revert ty p ls. induction n as [|n IH]; intros ty p ls H Hl; [cbn in H; simplify_eq; by inversion Hl|].
  destruct (collect_cases _ _ _ _ H) as [->|[(k & -> & Hk & Hs)|(fs & [_ Hf] & Hs & G)]]; [by inversion Hl| |].
  - apply list_elem_of_singleton in Hl as ->. exists []. cbn. rewrite app_nil_r, Hk. done.
  - destruct (flat_opt_elem _ _ _ _ G Hl) as ([x t] & y & Hx & Hc & Hy). cbn in Hc.
    destruct (IH _ _ _ Hc Hy) as (q & -> & Hq & Ht). exists (x :: q). rewrite <- app_assoc. split; [done|]. split; [|done].
    cbn. rewrite (Hf _ _ Hx). done.
Qed.

Lemma collect_apart n ty p ls : collect n ty p = Some ls -> apart (map leaf_path ls).
Proof.
  revert ty p ls. induction n as [|n IH]; intros ty p ls H; [cbn in H; by simplify_eq|].
  destruct (collect_cases _ _ _ _ H) as [->|[(k & -> & Hk & Hs)|(fs & [N _] & Hs & G)]]; [done|done|].
  clear H Hs. revert ls N G. induction fs as [|[x t] fs IHf]; intros ls N G; cbn in G; [by simplify_eq|].
  destruct (collect n t (p ++ [x])) as [a|] eqn:Ha; [|done]. cbn in G.
  destruct (flat_opt _ fs) as [b|] eqn:Hb; [|done]. cbn in G. simplify_eq. cbn in N. inversion N as [|?? N1 N2]; subst.
  rewrite map_app. apply apart_app; [by eapply IH|by apply IHf|].
  intros u v Hu Hv. apply list_elem_of_In, in_map_iff in Hu as (lu & <- & Hu). apply list_elem_of_In, in_map_iff in Hv as (lv & <- & Hv).
  apply list_elem_of_In in Hu. apply list_elem_of_In in Hv. destruct (collect_sound _ _ _ _ _ Ha Hu) as (q & -> & _).
  destruct (flat_opt_elem _ _ _ _ Hb Hv) as ([y t'] & c & Hy & Hc & Hlv). destruct (collect_sound _ _ _ _ _ Hc Hlv) as (q' & -> & _).
  rewrite <- !app_assoc. apply incomparable_children. intros ->. apply N1. apply list_elem_of_In, in_map_iff. exists (y, t'). split; [done|].
  by apply list_elem_of_In.
Qed.

(** C26: Each leaf of a type is the path to a value of the leaf's type, and the leaves do
    not overlap: no path is a prefix of another, so that each derivative is
    accumulated in a place of its own. *)
Theorem leaves_sound ty ls : leaves ty = Some ls ->
  Forall (fun l => path_type ty (leaf_path l) = Some (leaf_type (leaf_kind l))) ls /\ apart (map leaf_path ls).
Proof.
  unfold leaves. generalize MAX_DEPTH. intros n H. split; [|by eapply collect_apart]. apply Forall_forall. intros l Hl.
  destruct (collect_sound _ _ _ _ _ H Hl) as (q & -> & Hq & Hs). unfold path_type. by rewrite Hs.
Qed.

(** ** Activity of types *)

(** No borrow on the way to a float or a slice. *)
Fixpoint borrow_free (n : nat) (ty : Type_) : Prop :=
  match n with
  | 0 => True
  | S n =>
      match ty with
      | TyBorrow _ _ => False
      | TyStruct name args => forall fs, lay_field_list name args = Some fs -> Forall (fun e => borrow_free n e.2) fs
      | TyTuple items => Forall (borrow_free n) items
      | TyEnum name args => forall fs, variant_fields name args = Some fs -> Forall (fun e => borrow_free n e.2) fs
      | _ => True
      end
  end.

Definition nonempty {A} (l : list A) : bool := match l with [] => false | _ => true end.

Lemma nonempty_app {A} (l k : list A) : nonempty (l ++ k) = nonempty l || nonempty k.
Proof. by destruct l. Qed.

(** A search that finds what is collected or what another search finds. *)
Lemma any_opt_either {A B} (c : A -> option (list B)) (h r : A -> option bool) l ys z :
  Forall (fun a => forall y z, c a = Some y -> h a = Some z -> r a = Some (nonempty y || z)) l ->
  flat_opt c l = Some ys -> any_opt h l = Some z -> any_opt r l = Some (nonempty ys || z).
Proof.
  intros H. revert ys. induction H as [|a l Ha H IH]; intros ys Hc Hh; cbn in *; [by simplify_eq|].
  destruct (c a) as [y|]; [|done]. destruct (h a) as [b|]; [|done]. cbn in *. specialize (Ha y b eq_refl eq_refl). rewrite Ha. cbn.
  destruct (flat_opt c l) as [ys'|]; [|done]. cbn in Hc. injection Hc as <-. rewrite nonempty_app.
  destruct b; cbn in *; [injection Hh as <-; by rewrite !orb_true_r|]. rewrite orb_false_r.
  destruct (nonempty y); cbn; [done|]. by apply IH.
Qed.

Lemma any_opt_concat {A} (f : A -> option bool) ls : any_opt f (concat ls) = any_opt (any_opt f) ls.
Proof.
  induction ls as [|l ls IH]; [done|]. cbn. rewrite <- IH. clear IH. induction l as [|a l IH]; [done|]. cbn.
  destruct (f a) as [[]|]; cbn; [done|apply IH|done].
Qed.

Lemma any_opt_map {A B} (f : B -> option bool) (g : A -> B) l : any_opt f (map g l) = any_opt (fun a => f (g a)) l.
Proof. induction l as [|a l IH]; [done|]. cbn. by rewrite IH. Qed.

Lemma any_opt_ext {A} (f g : A -> option bool) l : (forall a, f a = g a) -> any_opt f l = any_opt g l.
Proof. intros H. induction l as [|a l IH]; [done|]. cbn. by rewrite H, IH. Qed.

Lemma enumerate_snd {A} (l : list A) : map snd (enumerate l) = l.
Proof. unfold enumerate. rewrite snd_zip; [done|]. rewrite length_seq. lia. Qed.

(** A search over the fields of the variants is one over the parts. *)
Lemma any_variants name args fs vs (f : Type_ -> option bool) : variant_fields name args = Some fs -> lay_enum_variants name args = Some vs ->
  any_opt (fun '(_, fields) => any_opt (fun field => f field.1) fields) vs = any_opt (fun e => f e.2) fs.
Proof.
  unfold variant_fields. intros H Hv. destruct (lay_enum_variant_names name) as [ns|] eqn:Hn; [|done]. rewrite Hv in H. cbn in H.
  injection H as <-. pose proof (law_variant_count _ _ _ _ Hn Hv) as E. rewrite any_opt_concat, any_opt_map.
  clear Hv Hn. revert ns E. induction vs as [|[d l] vs IH]; intros [|n ns] E; try done. cbn. rewrite (IH ns) by (cbn in E; lia).
  assert (G : any_opt (fun field => f field.1) l = any_opt (fun e => f e.2) (map (fun '(index, (field_ty, _)) => (PVariant n index, field_ty)) (enumerate l))); [|by rewrite G].
  rewrite <- (enumerate_snd l) at 1. rewrite !any_opt_map. apply any_opt_ext. by intros [i [t o]].
Qed.

Lemma carries_collect n ty p ls h : borrow_free n ty -> collect n ty p = Some ls -> heap n ty = Some h ->
  carries n ty = Some (nonempty ls || h).
Proof.
  revert ty p ls h. induction n as [|n IH]; intros ty p ls h Hb Hc Hh; [cbn in *; by simplify_eq|].
  assert (G : forall fs ls h, Forall (fun e : Proj * Type_ => borrow_free n e.2) fs ->
    flat_opt (fun '(proj, t) => collect n t (p ++ [proj])) fs = Some ls -> any_opt (fun e => heap n e.2) fs = Some h ->
    any_opt (fun e => carries n e.2) fs = Some (nonempty ls || h)).
  { intros fs ls' h' HF. apply any_opt_either. eapply Forall_impl; [exact HF|]. intros [x t] B y z. by apply IH. }
  destruct ty; cbn in Hb, Hc, Hh |- *; try (by simplify_eq).
  - simplify_eq. by destruct (FloatWidth.has_arithmetic w).
  - destruct (lay_struct_assoc name args "Tangent") as [tangent|]; [|done]. cbn in *.
    destruct (t ← tangent; _) as [t|]; [by simplify_eq|]. destruct (lay_has_struct name); [|by simplify_eq].
    destruct (lay_field_list name args) as [fs|]; [|done]. cbn in *. specialize (Hb fs eq_refl).
    specialize (G (map (fun e => (PField e.1, e.2)) fs) ls h). rewrite !any_opt_map in G. cbn in G. apply G; [by apply Forall_map| |done].
    rewrite <- Hc. clear. induction fs as [|[f t] fs IH]; [done|]. cbn. by rewrite IH.
  - destruct (lay_enum_variants name args) as [vs|] eqn:Hv; [|done]. cbn in *.
    destruct (variant_fields name args) as [fs|] eqn:Hf; [|done]. cbn in *.
    rewrite (any_variants name args fs vs (heap n)) in Hh by done. rewrite (any_variants name args fs vs (carries n)) by done.
    apply G; [by apply Hb|done|done].
  - specialize (G (map (fun e => (PField (index_name e.1), e.2)) (enumerate items)) ls h). rewrite !any_opt_map in G. cbn in G.
    rewrite <- (any_opt_map (heap n) snd), <- (any_opt_map (carries n) snd), !enumerate_snd in G. apply G; [|rewrite <- Hc|done].
    + apply Forall_map. apply Forall_forall. intros [i t] H. apply enumerate_lookup in H. cbn. rewrite Forall_forall in Hb.
      apply Hb. by eapply list_elem_of_lookup_2.
    + clear. induction (enumerate items) as [|[f t] fs IH]; [done|]. cbn. by rewrite IH.
Qed.

(** A type without borrows can carry a derivative exactly when it has a leaf or a slice
    whose elements carry one: every active value has a place for its adjoint. *)
Theorem active_has_adjoint ty ls h : borrow_free MAX_DEPTH ty -> leaves ty = Some ls -> has_heap ty = Some h ->
  can_be_active ty = Some (nonempty ls || h).
Proof. unfold leaves, has_heap, can_be_active. generalize MAX_DEPTH. intros n. apply carries_collect. Qed.
End Types.

(** ** [TypeLayouts] keeps the promises *)

(** Fields and variants have distinct names, which the checker sees to. *)
Definition distinct_names (D : Decls) : Prop :=
  (forall name decl, struct_decls D !! name = Some decl -> NoDup (map fd_name (sd_fields decl))) /\
  (forall name decl, enum_decls D !! name = Some decl -> NoDup (map ev_name (ed_variants decl))).

(** Running [mapM] over queries of a record. *)
Lemma mapM_lookup {A B} (f : A -> M B) (g : A -> option B) e l C r C' :
  (forall a, f a = lift_opt (g a) (e a)) -> mapM f l C = Ok (r, C') -> Forall2 (fun a b => g a = Some b) l r.
Proof.
  intros E. revert C r. induction l as [|a l IH]; intros C r H; cbn in H.
  - unfold ret in H. simplify_eq. constructor.
  - unfold bind at 1 in H. rewrite E in H. destruct (g a) as [b|] eqn:Hb; cbn in H; [|done]. unfold bind in H.
    destruct (mapM f l C) as [[r' C1]|] eqn:Hm; [|done]. unfold ret in H. simplify_eq. constructor; [done|by eapply IH].
Qed.

#[export] Instance ad_type_laws D fuel C same (HD : distinct_names D) : @AdLaws (ad_type_layouts D fuel C same).
Proof.
  destruct HD as [HS HE]. split; cbn.
  - intros name args fs H. unfold struct_field_list, bind in H. destruct (struct_info D fuel name args C) as [[info C1]|]; [|done].
    destruct (struct_decls D !! name) as [decl|] eqn:Hd.
    + destruct (mapM _ _ C1) as [[r C2]|] eqn:Hm; [|done]. injection H as <-.
      apply (mapM_lookup _ (fun f => (fun e => (fd_name f, e.1)) <$> si_fields info !! fd_name f) (fun f => PanicUnknown (fd_name f))) in Hm.
      * replace (map fst r) with (map fd_name (sd_fields decl)); [by eapply HS|]. clear -Hm.
        induction Hm as [|f b l r E Hm IH]; [done|]. cbn. rewrite IH. f_equal. destruct (si_fields info !! fd_name f); by simplify_eq/=.
      * intros f. unfold bind. by destruct (si_fields info !! fd_name f).
    + unfold ret in H. injection H as <-. unfold prelude_error_fields. case_bool_decide; cbn; [apply NoDup_singleton|constructor].
  - intros name ns H. unfold enum_variant_names, bind in H. destruct (enum_decls D !! name) as [decl|] eqn:Hd; cbn in H; [|done].
    unfold ret in H. injection H as <-. by eapply HE.
  - intros name args ns vs Hn Hv. unfold enum_variant_names, enum_variants, bind in *.
    destruct (enum_info D fuel name args C) as [[info C1]|]; [|done]. destruct (enum_decls D !! name) as [decl|] eqn:Hd; cbn in *; [|done].
    unfold ret in Hn. injection Hn as <-. destruct (mapM _ _ C1) as [[r C2]|] eqn:Hm; [|done]. injection Hv as <-.
    rewrite length_map. eapply (Forall2_length _ _ _ (mapM_lookup _ (fun v => index ← ei_index info !! ev_name v; fs ← ei_variants info !! ev_name v; Some (index, fs))
      (fun v => PanicUnknown (ev_name v)) _ _ _ _ _ Hm)).
  - intros name args ns vs i j v d fs f Hn Hv Hi Hvs Hf. unfold enum_variant_names, enum_variants, enum_variant_field, bind in *.
    destruct (enum_info D fuel name args C) as [[info C1]|]; [|done]. destruct (enum_decls D !! name) as [decl|] eqn:Hd; cbn in *; [|done].
    unfold ret in Hn. injection Hn as <-. destruct (mapM _ _ C1) as [[r C2]|] eqn:Hm; [|done]. injection Hv as <-.
    apply (mapM_lookup _ (fun v => index ← ei_index info !! ev_name v; fs ← ei_variants info !! ev_name v; Some (index, fs))
      (fun v => PanicUnknown (ev_name v))) in Hm.
    + rewrite list_lookup_fmap in Hi. destruct (ed_variants decl !! i) as [ev|] eqn:He; [|done]. cbn in Hi. injection Hi as <-.
      destruct (Forall2_lookup_l _ _ _ _ _ Hm He) as ([d' fs'] & Hr & E). rewrite Hvs in Hr. injection Hr as <- <-.
      destruct (ei_index info !! ev_name ev); [|done]. cbn in E. destruct (ei_variants info !! ev_name ev); [|done]. cbn in E. simplify_eq.
      cbn. by rewrite Hf.
    + intros w. unfold bind. destruct (ei_index info !! ev_name w); [|done]. cbn. by destruct (ei_variants info !! ev_name w).
  Unshelve. intros w. unfold bind. destruct (ei_index info !! ev_name w); [|done]. cbn. by destruct (ei_variants info !! ev_name w).
Qed.

(** ** Witnesses

    [struct Point { x: f64, y: f64, tag: i64 }] and
    [enum Shape { Dot(Point), Line(f64, f64), Empty }]. *)
Definition demo_point : StructDecl :=
  mkStructDecl "Point" [] [mkFieldDecl "x" (path_ty "f64") false [] sp0; mkFieldDecl "y" (path_ty "f64") false [] sp0;
    mkFieldDecl "tag" (path_ty "i64") false [] sp0] [] [] [] false [] sp0.
Definition demo_shape : EnumDecl :=
  mkEnumDecl "Shape" [] [mkEnumVariant "Dot" (VTuple [path_ty "Point"]) [] sp0;
    mkEnumVariant "Line" (VTuple [path_ty "f64"; path_ty "f64"]) [] sp0; mkEnumVariant "Empty" VUnit [] sp0] [] [] false [] sp0.
Definition demo_decls : Decls :=
  mkDecls {["Point"%string := demo_point]} {["Shape"%string := demo_shape]} ∅ DEFAULT_MAX_INSTANTIATIONS_PER_ITEM.
#[local] Instance demo_ad : AdLayouts := ad_type_layouts demo_decls 5 ex_caches (fun _ _ => false).

Lemma demo_distinct : distinct_names demo_decls.
Proof.
  split; intros name decl H; cbn [struct_decls enum_decls demo_decls] in H; apply lookup_singleton_Some in H as [<- <-]; apply (bool_decide_eq_true_1 _); vm_compute; reflexivity.
Qed.

Definition demo_ty : Type_ := TyTuple [TyStruct "Point" []; TyEnum "Shape" []; TySlice (TyFloat F32)].
Definition demo_leaves : list Leaf := [
  mkLeaf [PField "0"; PField "x"] (LFloat F64); mkLeaf [PField "0"; PField "y"] (LFloat F64);
  mkLeaf [PField "1"; PVariant "Dot" 0; PField "x"] (LFloat F64); mkLeaf [PField "1"; PVariant "Dot" 0; PField "y"] (LFloat F64);
  mkLeaf [PField "1"; PVariant "Line" 0] (LFloat F64); mkLeaf [PField "1"; PVariant "Line" 1] (LFloat F64)].

Lemma leaves_sound_witness : leaves demo_ty = Some demo_leaves /\ apart (map leaf_path demo_leaves).
Proof.
  assert (E : leaves demo_ty = Some demo_leaves) by (vm_compute; reflexivity). split; [exact E|].
  exact (proj2 (leaves_sound (Laws := ad_type_laws _ _ _ _ demo_distinct) demo_ty demo_leaves E)).
Defined.

Lemma demo_point_fields n : borrow_free n (TyStruct "Point" []).
Proof.
  destruct n as [|n]; [exact I|]. intros fs H. vm_compute in H. injection H as <-.
  destruct n; repeat (apply Forall_cons_2; [exact I|]); apply Forall_nil_2.
Qed.

Lemma demo_shape_fields n : borrow_free n (TyEnum "Shape" []).
Proof.
  destruct n as [|n]; [exact I|]. intros fs H. vm_compute in H. injection H as <-.
  apply Forall_cons_2; [apply demo_point_fields|]. destruct n; repeat (apply Forall_cons_2; [exact I|]); apply Forall_nil_2.
Qed.

Lemma demo_borrow_free n : borrow_free n demo_ty.
Proof.
  destruct n as [|n]; [exact I|]. unfold demo_ty. cbn [borrow_free]. apply Forall_cons_2; [apply demo_point_fields|].
  apply Forall_cons_2; [apply demo_shape_fields|]. apply Forall_cons_2; [by destruct n|apply Forall_nil_2].
Qed.

Lemma active_has_adjoint_witness : can_be_active demo_ty = Some true.
Proof.
  apply (active_has_adjoint (Laws := ad_type_laws _ _ _ _ demo_distinct) demo_ty demo_leaves true (demo_borrow_free MAX_DEPTH));
    vm_compute; reflexivity.
Defined.
