(* ===== verification/Activity.v ===== *)
(** Activity analysis of automatic differentiation:
    [paco-mir/src/autodiff/activity.rs].

    A local is varied when it depends on a differentiated parameter, useful when
    an output depends on it.  The analysis is a flow graph over the locals of a
    body; calls use summaries of their targets, computed to a fixed point.

    Nodes of the graph are locals; [Local(u32::MAX)], which stands for a place with
    no local, is [None].  Indexing a body's locals out of range is [None] as a
    result.  The loops have as fuel a bound of their steps that the proofs show to
    be enough. *)
From S2P Require Import Prelude Span Ast Types Dims Generics Layout TypeLayout Mir Glue AdTypes.
From stdpp Require Import fin_sets fin_map_dom relations.
Open Scope nat_scope.

(** What the analysis asks of the types: [Types::can_be_active] and [has_heap]. *)
Class ActiveTypes := { type_active : Type_ -> bool; type_heap : Type_ -> bool }.

(** The types of a program that has layouts for them. *)
Definition program_types {L : AdLayouts} : ActiveTypes :=
  {| type_active := fun ty => default false (can_be_active ty); type_heap := fun ty => default false (has_heap ty) |}.

Definition is_tape_call (target : string) : bool :=
  String.prefix "paco_ad_" target &&
  negb (bool_decide (target ∈ ["paco_ad_tape_new"; "paco_ad_tape_free"; "paco_ad_tape_retire"]%string)).

Record Summary := mkSummary { sum_result : gset nat; sum_params : gmap nat (gset nat) }.

#[export] Instance Summary_eq_dec : EqDecision Summary.
Proof. solve_decision. Defined.

Definition Summary_default : Summary := mkSummary ∅ ∅.

(** ** Equality of places, as derived *)

Definition constant_eqb (a b : Constant) : bool :=
  match a, b with
  | CInt x w, CInt y v => (x =? y)%Z && bool_decide (w = v)
  | CFloat x w, CFloat y v => (x =? y)%Z && bool_decide (w = v)
  | CBool x, CBool y => Bool.eqb x y
  | CChar x, CChar y => (x =? y)%Z
  | CStr x, CStr y => bool_decide (x = y)
  | CUnit, CUnit => true
  | CType x, CType y => type_eqb x y
  | _, _ => false
  end.

Fixpoint place_eqb (a b : Place) : bool :=
  match a, b with
  | PlLocal x, PlLocal y => x =? y
  | PlField p f, PlField q g => place_eqb p q && bool_decide (f = g)
  | PlVariantField p v i, PlVariantField q w j => place_eqb p q && bool_decide (v = w) && (i =? j)
  | PlIndex p i, PlIndex q j => place_eqb p q && operand_eqb i j
  | PlDeref o t, PlDeref o' t' => operand_eqb o o' && type_eqb t t'
  | _, _ => false
  end
with operand_eqb (a b : Operand) : bool :=
  match a, b with
  | Copy p, Copy q | Move p, Move q => place_eqb p q
  | OConst c, OConst d => constant_eqb c d
  | _, _ => false
  end.

Definition target_eqb (a b : option Place) : bool :=
  match a, b with Some p, Some q => place_eqb p q | None, None => true | _, _ => false end.

(** ** Places *)

Fixpoint place_is_static (p : Place) : bool :=
  match p with
  | PlLocal _ => true
  | PlField base _ | PlVariantField base _ _ => place_is_static base
  | PlIndex base index => place_is_static base && match index with OConst _ => true | _ => false end
  | PlDeref _ _ => false
  end.

Fixpoint base_local (p : Place) : option nat :=
  match p with
  | PlLocal local => Some local
  | PlField base _ | PlVariantField base _ _ | PlIndex base _ => base_local base
  | PlDeref address _ => match address with Copy p | Move p => base_local p | OConst _ => None end
  end.

Definition operand_place (o : Operand) : option Place :=
  match o with Copy p | Move p => Some p | OConst _ => None end.

Definition rvalue_operands (r : Rvalue) : list Operand :=
  match r with
  | RUse o | RUnaryOp _ o | RCast o _ => [o]
  | RBinaryOp _ l r => [l; r]
  | RAggregate _ _ fields | RMath _ fields => fields
  | RLoad address _ => [address]
  | _ => []
  end.

Definition local_is_borrow (b : Body) (local : nat) : option bool :=
  decl ← body_locals b !! local; Some (match local_ty decl with TyBorrow _ _ => true | _ => false end).

(** *** [ref_targets] *)

Definition Targets : Type := gmap nat Place.

(** The place an rvalue makes a borrow point at. *)
Definition assign_target (b : Body) (r : Rvalue) : option (option Place) :=
  match r with
  | RRef _ place => Some (if place_is_static place then Some place else None)
  | RUse (Copy (PlLocal other) | Move (PlLocal other)) =>
      borrow ← local_is_borrow b other; Some (if (borrow : bool) then Some (PlLocal other) else None)
  | _ => Some None
  end.

Definition note_target (local : nat) (target : option Place) (m : gmap nat (option Place)) : gmap nat (option Place) :=
  match m !! local with
  | None => <[local := target]> m
  | Some entry => if target_eqb entry target then m else <[local := None]> m
  end.

Definition statement_target (b : Body) (m : gmap nat (option Place)) (s : Statement) : option (gmap nat (option Place)) :=
  match s with
  | SAssign (PlLocal local) r =>
      if local <? param_count b then Some m
      else
        borrow ← local_is_borrow b local;
        if (borrow : bool) then target ← assign_target b r; Some (note_target local target m) else Some m
  | _ => Some m
  end.

Definition terminator_target (b : Body) (m : gmap nat (option Place)) (t : Terminator) : option (gmap nat (option Place)) :=
  match t with
  | TmCall _ _ (Some (PlLocal local)) _ | TmCallIndirect _ _ (Some (PlLocal local)) _ =>
      borrow ← local_is_borrow b local; Some (if (borrow : bool) then <[local := None]> m else m)
  | _ => Some m
  end.

Fixpoint fold_opt {A B} (f : B -> A -> option B) (l : list A) (b : B) : option B :=
  match l with [] => Some b | a :: l => b ← f b a; fold_opt f l b end.

Definition block_targets (b : Body) (m : gmap nat (option Place)) (block : BasicBlock) : option (gmap nat (option Place)) :=
  m ← fold_opt (statement_target b) (statements block) m; terminator_target b m (terminator block).

Definition ref_targets (b : Body) : option Targets :=
  (fun m : gmap nat (option Place) => omap id m) <$> fold_opt (block_targets b) (body_blocks b) ∅.

(** *** [root] *)

Definition ROOT_STEPS : nat := 64.

Fixpoint root_loop (n : nat) (place : Place) (targets : Targets) : option nat :=
  match n with
  | 0 => base_local place
  | S n =>
      match (local ← base_local place; targets !! local) with
      | Some target => root_loop n target targets
      | None => base_local place
      end
  end.

Definition root (place : Place) (targets : Targets) : option nat := root_loop ROOT_STEPS place targets.

Definition TAPE_LOCAL : string := "$tape".

Definition is_tape_local (b : Body) (local : nat) : bool :=
  match body_locals b !! local with Some decl => bool_decide (local_name decl = Some TAPE_LOCAL) | None => false end.

(** ** The flow graph *)

Abbreviation Node := (option nat) (only parsing).

Record Graph := mkGraph { edges : list (Node * Node); sinks : list Node; graph_locals : nat }.

Record Callees := mkCallees { callee_params : string -> option (list Type_); callee_summary : string -> option Summary }.

Definition place_type_hint (place : Place) (b : Body) : option Type_ :=
  match place with PlLocal local => local_ty <$> body_locals b !! local | _ => None end.

Definition call_arg_root (b : Body) (targets : Targets) (params : option (list Type_)) (index : nat) (arg : Operand) : option (Node * bool) :=
  place ← operand_place arg;
  let param := params ← params; params !! index in
  Some (root place targets,
    match param, place_type_hint place b with
    | Some (TyBorrow mutable _), _ => mutable
    | None, Some (TyBorrow mutable _) => mutable
    | _, _ => false
    end).

Definition call_arg_roots (args : list Operand) (params : option (list Type_)) (b : Body) (targets : Targets) : list (option (Node * bool)) :=
  imap (call_arg_root b targets params) args.

Section Graph.
Context {T : ActiveTypes}.

Definition local_holds (f : Type_ -> bool) (b : Body) (local : Node) : bool :=
  match (l ← local; body_locals b !! l) with Some decl => f (local_ty decl) | None => false end.

Definition link (b : Body) (from to : Node) : list (Node * Node) :=
  if bool_decide (from = to) then []
  else match from, to with
       | Some _, Some _ => (from, to) :: if local_holds type_heap b from || local_holds type_heap b to then [(to, from)] else []
       | _, _ => []
       end.

Definition statement_edges (b : Body) (targets : Targets) (s : Statement) : list (Node * Node) :=
  match s with
  | SAssign place r =>
      let dest := root place targets in
      match r with
      | RRef _ target => let target := root target targets in link b target dest ++ link b dest target
      | _ =>
          if local_holds type_active b dest then
            concat (map (fun o => match operand_place o with Some source => link b (root source targets) dest | None => [] end) (rvalue_operands r))
          else []
      end
  | SStore address value _ =>
      match operand_place address, operand_place value with
      | Some address, Some value => link b (root value targets) (root address targets)
      | _, _ => []
      end
  | SFreeBox _ _ | SDrop _ | SStorageDead _ => []
  end.

(** The values that go through a tape. *)
Definition tape_edges (tape : Node) (rest : list (option (Node * bool))) (dest : option Node) : list (Node * Node) :=
  concat (map (fun r : option (Node * bool) =>
    match r with Some (arg, mutable) => (arg, tape) :: (if mutable then [(tape, arg)] else []) | None => [] end) rest) ++
  match dest with Some dest => [(tape, dest)] | None => [] end.

(** A call of a body with a summary. *)
Definition summary_edges (b : Body) (summary : Summary) (roots : list (option (Node * bool))) (dest : option Node) : list (Node * Node) :=
  concat (map (fun param =>
    match roots !! param, dest with Some (Some (arg, _)), Some dest => link b arg dest | _, _ => [] end) (elements (sum_result summary))) ++
  concat (map (fun '(output, inputs) =>
    match roots !! output with
    | Some (Some (out, _)) =>
        concat (map (fun param => match roots !! param with Some (Some (arg, _)) => link b arg out | _ => [] end) (elements (inputs : gset nat)))
    | _ => []
    end) (map_to_list (sum_params summary))).

(** A call of anything else: every argument may reach the result and the values behind mutable borrows. *)
Definition opaque_edges (b : Body) (roots : list (option (Node * bool))) (dest : option Node) : list (Node * Node) :=
  let known := omap id roots in
  concat (map (fun '(arg, _) =>
    match dest with Some dest => link b arg dest | None => [] end ++
    concat (map (fun '(out, mutable) => if (mutable : bool) then link b arg out else []) known)) known).

Definition call_edges (b : Body) (targets : Targets) (callees : Callees) (target : option string) (args : list Operand) (destination : option Place) : list (Node * Node) :=
  let roots := call_arg_roots args (t ← target; callee_params callees t) b targets in
  let dest := (fun place => root place targets) <$> destination in
  let ordinary :=
    match (t ← target; callee_summary callees t) with
    | Some summary => summary_edges b summary roots dest
    | None => opaque_edges b roots dest
    end in
  if match target with Some t => is_tape_call t | None => false end then
    match roots with Some (tape, _) :: rest => tape_edges tape rest dest | _ => ordinary end
  else ordinary.

Definition block_edges (b : Body) (targets : Targets) (callees : Callees) (block : BasicBlock) : list (Node * Node) :=
  concat (map (statement_edges b targets) (statements block)) ++
  match terminator block with
  | TmCall target args destination _ => call_edges b targets callees (Some target) args destination
  | TmCallIndirect _ args destination _ => call_edges b targets callees None args destination
  | _ => []
  end.

(** The locals that a body's result comes from. *)
Definition return_roots (b : Body) (targets : Targets) : list Node :=
  omap (fun block => match terminator block with TmReturn o => (fun p => root p targets) <$> operand_place o | _ => None end) (body_blocks b).

Definition is_output (b : Body) (local : nat) : bool :=
  match body_locals b !! local with Some (mkLocalDecl _ (TyBorrow true _) _) => true | _ => false end || is_tape_local b local.

Definition graph (b : Body) (callees : Callees) : option Graph :=
  targets ← ref_targets b;
  if length (body_locals b) <? param_count b then None
  else Some (mkGraph (concat (map (block_edges b targets callees) (body_blocks b)))
    (return_roots b targets ++ map Some (List.filter (is_output b) (seq 0 (param_count b)))) (length (body_locals b))).
End Graph.

(** ** Reachability *)

Definition oriented (forward : bool) (e : Node * Node) : Node * Node := if forward then e else (e.2, e.1).

Definition adjacency (g : Graph) (forward : bool) : gmap Node (list Node) :=
  fold_left (fun m e => let '(from, to) := oriented forward e in <[from := default [] (m !! from) ++ [to]]> m) (edges g) ∅.

(** The successors of a node that were not seen. *)
Definition visit (next : list Node) (seen : gset Node) (pending : list Node) : gset Node * list Node :=
  fold_left (fun '(seen, pending) node =>
    if bool_decide (node ∈ seen) then (seen, pending) else ({[node]} ∪ seen, node :: pending)) next (seen, pending).

Fixpoint reach_loop (fuel : nat) (adj : gmap Node (list Node)) (seen : gset Node) (pending : list Node) : option (gset Node) :=
  match pending with
  | [] => Some seen
  | node :: pending =>
      match fuel with
      | 0 => None
      | S fuel => let '(seen, pending) := visit (default [] (adj !! node)) seen pending in reach_loop fuel adj seen pending
      end
  end.

(** The stack [pending] has its top first. *)
Definition reach (g : Graph) (seeds : list Node) (forward : bool) : option (gset Node) :=
  reach_loop (length seeds + length (edges g)) (adjacency g forward) (list_to_set seeds) (reverse seeds).

(** ** Activity and summaries *)

Record Activity := mkActivity { varied : list bool; useful : list bool }.

Definition is_varied (a : Activity) (local : nat) : bool := default false (varied a !! local).
Definition is_active (a : Activity) (local : nat) : bool := default false (varied a !! local) && default false (useful a !! local).

Section Analysis.
Context {T : ActiveTypes}.

Definition carries_local (b : Body) (index : nat) : bool := local_holds type_active b (Some index) || is_tape_local b index.

Definition mask_seeds (mask : list bool) : list Node :=
  omap (fun e : nat * bool => if e.2 then Some (Some e.1) else None) (enumerate mask).

Definition activity (b : Body) (mask : list bool) (callees : Callees) : option Activity :=
  g ← graph b callees;
  varied ← reach g (mask_seeds mask) true;
  useful ← reach g (sinks g) false;
  Some (mkActivity
    (map (fun index => bool_decide (Some index ∈ varied) && carries_local b index) (seq 0 (graph_locals g)))
    (map (fun index => bool_decide (Some index ∈ useful) && carries_local b index) (seq 0 (graph_locals g)))).

(** What one parameter adds to the summary. *)
Definition summarize_param (b : Body) (g : Graph) (result_roots : gset Node) (s : Summary) (param : nat) : option Summary :=
  if carries_local b param then
    reached ← reach g [Some param] true;
    Some (mkSummary
      (if existsb (fun root => bool_decide (root ∈ reached)) (elements result_roots) then {[param]} ∪ sum_result s else sum_result s)
      (fold_left (fun m target =>
         if is_output b target && ((target =? param) || bool_decide (Some target ∈ reached))
         then <[target := {[param]} ∪ default ∅ (m !! target)]> m else m) (seq 0 (param_count b)) (sum_params s)))
  else Some s.

Definition summarize (b : Body) (callees : Callees) : option Summary :=
  g ← graph b callees;
  targets ← ref_targets b;
  fold_opt (summarize_param b g (list_to_set (return_roots b targets))) (seq 0 (param_count b)) Summary_default.

(** *** [summaries] *)

Definition calls_of (b : Body) : list string :=
  omap (fun block => match terminator block with TmCall target _ _ _ => Some target | _ => None end) (body_blocks b).

Fixpoint reachable_loop (fuel : nat) (bodies : gmap string Body) (reachable pending : list string) : option (list string) :=
  match pending with
  | [] => Some reachable
  | name :: pending =>
      match fuel with
      | 0 => None
      | S fuel =>
          match bodies !! name with
          | None => reachable_loop fuel bodies reachable pending
          | Some body =>
              if bool_decide (name ∈ reachable) then reachable_loop fuel bodies reachable pending
              else reachable_loop fuel bodies (reachable ++ [name]) (reverse (calls_of body) ++ pending)
          end
      end
  end.

Definition all_calls (bodies : gmap string Body) : nat := sum_list_with (fun e => length (calls_of e.2)) (map_to_list bodies).

Definition reachable_names (bodies : gmap string Body) (names : list string) : option (list string) :=
  reachable_loop (length names + all_calls bodies) bodies [] (reverse names).

Definition known (params : string -> option (list Type_)) (current : gmap string Summary) : Callees :=
  mkCallees params (fun target => current !! target).

(** One round over the functions. *)
Definition summary_step (bodies : gmap string Body) (params : string -> option (list Type_)) (st : gmap string Summary * bool) (name : string)
    : option (gmap string Summary * bool) :=
  let '(current, changed) := st in
  body ← bodies !! name;
  next ← summarize body (known params current);
  old ← current !! name;
  Some (if bool_decide (old = next) then (current, changed) else (<[name := next]> current, true)).

Fixpoint summary_rounds (fuel : nat) (bodies : gmap string Body) (params : string -> option (list Type_)) (reachable : list string)
    (current : gmap string Summary) : option (gmap string Summary) :=
  match fuel with
  | 0 => None
  | S fuel =>
      '(current, changed) ← fold_opt (summary_step bodies params) reachable (current, false);
      if (changed : bool) then summary_rounds fuel bodies params reachable current else Some current
  end.

(** Flows that the summaries of the functions can have. *)
Definition flow_count (bodies : gmap string Body) (reachable : list string) : nat :=
  sum_list_with (fun name => match bodies !! name with Some b => param_count b * S (param_count b) | None => 0 end) reachable.

Definition summaries (names : list string) (bodies : gmap string Body) (params : string -> option (list Type_)) : option (gmap string Summary) :=
  reachable ← reachable_names bodies names;
  summary_rounds (S (flow_count bodies reachable)) bodies params reachable
    (list_to_map (map (fun name => (name, Summary_default)) reachable)).
End Analysis.

(** ** Reachability is exact *)

Definition flow (g : Graph) (forward : bool) (a b : Node) : Prop := exists e, e ∈ edges g /\ oriented forward e = (a, b).

Lemma adjacency_app (l1 : list (Node * Node)) (m : gmap Node (list Node)) (forward : bool) (a b : Node) :
  b ∈ default [] (fold_left (fun m e => let '(from, to) := oriented forward e in <[from := default [] (m !! from) ++ [to]]> m) l1 m !! a) <->
  b ∈ default [] (m !! a) \/ exists e, e ∈ l1 /\ oriented forward e = (a, b).
Proof.
  revert m. induction l1 as [|e l IH]; intros m; cbn.
  - split; [by left|]. intros [H|(e & H & _)]; [done|by inversion H].
  - rewrite IH. destruct (oriented forward e) as [from to] eqn:E. destruct (decide (from = a)) as [->|Ne].
    + rewrite lookup_insert_eq. cbn. rewrite elem_of_app, list_elem_of_singleton. split.
      * intros [[H| ->]|(e' & H & E')]; [by left| |].
        -- right. exists e. split; [by left|done].
        -- right. exists e'. split; [by right|done].
      * intros [H|(e' & H & E')]; [by left; left|]. apply elem_of_cons in H as [->|H].
        -- left; right. congruence.
        -- right. eauto.
    + rewrite lookup_insert_ne by done. split.
      * intros [H|(e' & H & E')]; [by left|]. right. exists e'. split; [by right|done].
      * intros [H|(e' & H & E')]; [by left|]. apply elem_of_cons in H as [->|H]; [congruence|]. right. eauto.
Qed.

Lemma adjacency_flow g forward a b : b ∈ default [] (adjacency g forward !! a) <-> flow g forward a b.
Proof.
  unfold adjacency. rewrite adjacency_app, lookup_empty. cbn. split; [intros [H|H]; [by inversion H|done]|by right].
Qed.

Lemma size_without (U seen : gset Node) (x : Node) : x ∈ U -> x ∉ seen ->
  base.size (U ∖ seen) = S (base.size (U ∖ ({[x]} ∪ seen))).
Proof.
  intros Hx Hs. assert (S1 : U ∖ seen = {[x]} ∪ (U ∖ ({[x]} ∪ seen))).
  { apply set_eq. intros y. destruct (decide (y = x)) as [->|Ne]; set_solver. }
  rewrite S1. rewrite size_union by set_solver. by rewrite size_singleton.
Qed.

Lemma size_targets (l : list Node) : base.size (list_to_set l : gset Node) <= length l.
Proof.
  induction l as [|x l IH]; cbn; [by rewrite size_empty|]. rewrite size_union_alt, size_singleton.
  pose proof (subseteq_size (list_to_set l ∖ {[x]} : gset Node) (list_to_set l)) as G. specialize (G ltac:(set_solver)). lia.
Qed.

Lemma visit_spec (U : gset Node) (next : list Node) (seen : gset Node) (pending : list Node) (seen' : gset Node) (pending' : list Node) : Forall (fun x => x ∈ U) next -> visit next seen pending = (seen', pending') ->
  seen' = seen ∪ list_to_set next /\ (forall x, x ∈ pending' <-> x ∈ pending \/ x ∈ next /\ x ∉ seen) /\
  length pending' + base.size (U ∖ seen') = length pending + base.size (U ∖ seen).
Proof.
  intros HU. revert seen pending. induction HU as [|x next Hx HU IH]; intros seen pending H; cbn in H.
  - injection H as <- <-. split; [set_solver|]. split; [set_solver|done].
  - case_bool_decide as E.
    + destruct (IH _ _ H) as (-> & H2 & H3). split; [set_solver|]. split; [|done]. intros y. rewrite H2. set_solver.
    + destruct (IH _ _ H) as (-> & H2 & H3). split; [set_solver|]. split.
      * intros y. rewrite H2. destruct (decide (y = x)) as [->|Ne]; set_solver.
      * rewrite H3, (size_without U seen x) by done. cbn. lia.
Qed.

Lemma reach_loop_spec (g : Graph) (forward : bool) (seeds : list Node) (U : gset Node) (fuel : nat) (seen : gset Node) (pending : list Node) :
  (forall a b, flow g forward a b -> b ∈ U) ->
  (forall x, x ∈ pending -> x ∈ seen) -> (forall x, x ∈ seeds -> x ∈ seen) ->
  (forall x, x ∈ seen -> exists s, s ∈ seeds /\ rtc (flow g forward) s x) ->
  (forall a b, a ∈ seen -> flow g forward a b -> a ∈ pending \/ b ∈ seen) ->
  length pending + base.size (U ∖ seen) <= fuel ->
  exists r : gset Node, reach_loop fuel (adjacency g forward) seen pending = Some r /\
    forall x, x ∈ r <-> exists s, s ∈ seeds /\ rtc (flow g forward) s x.
Proof.
  intros HU. revert seen pending. induction fuel as [|fuel IH]; intros seen [|node pending] Hp Hs Hr Hc Hf; cbn in Hf; try lia.
  1, 2: exists seen; split; [done|]; intros x; split; [apply Hr|]; intros (s & H1 & H2); apply Hs in H1; revert H1;
    induction H2 as [|a b c H _ IHr]; [done|]; intros Ha; apply IHr; destruct (Hc a b Ha H) as [G|G]; [inversion G|done].
  cbn [reach_loop]. destruct (visit _ seen pending) as [seen' pending'] eqn:Hv.
  destruct (visit_spec U _ _ _ _ _ ltac:(apply Forall_forall; intros x Hx%adjacency_flow; by eapply HU) Hv) as (-> & H2 & H3).
  assert (Hn : node ∈ seen) by (apply Hp; by left).
  apply IH.
  - intros x Hx%H2. destruct Hx as [Hx|[Hx _]]; [|set_solver]. apply elem_of_union_l, Hp. by right.
  - intros x Hx. apply elem_of_union_l. auto.
  - intros x Hx. apply elem_of_union in Hx as [Hx|Hx]; [auto|]. apply elem_of_list_to_set, adjacency_flow in Hx.
    destruct (Hr node Hn) as (s & G1 & G2). exists s. split; [done|]. by eapply rtc_r.
  - intros a b Ha Hab. destruct (decide (a = node)) as [->|Ne].
    + right. apply elem_of_union_r, elem_of_list_to_set. by apply adjacency_flow.
    + destruct (decide (a ∈ seen)) as [Hin|Hnin].
      * destruct (Hc a b Hin Hab) as [G|G]; [|by right; apply elem_of_union_l]. apply elem_of_cons in G as [->|G]; [done|].
        left. apply H2. by left.
      * left. apply H2. right. split; [|done]. apply elem_of_union in Ha as [Ha|Ha]; [done|]. by apply elem_of_list_to_set in Ha.
  - rewrite H3. lia.
Qed.

Lemma reach_spec (g : Graph) (seeds : list Node) (forward : bool) : exists r : gset Node, reach g seeds forward = Some r /\
  forall x, x ∈ r <-> exists s, s ∈ seeds /\ rtc (flow g forward) s x.
Proof.
  unfold reach. apply (reach_loop_spec g forward seeds (list_to_set (map (fun e => (oriented forward e).2) (edges g)))).
  - intros a b (e & He & E). apply elem_of_list_to_set, list_elem_of_In, in_map_iff. exists e. rewrite E. split; [done|]. by apply list_elem_of_In.
  - intros x Hx. apply elem_of_list_to_set. by apply elem_of_reverse.
  - intros x Hx. by apply elem_of_list_to_set.
  - intros x Hx. apply elem_of_list_to_set in Hx. exists x. split; [done|reflexivity].
  - intros a b Ha _. left. apply elem_of_list_to_set in Ha. by apply elem_of_reverse.
  - rewrite length_reverse. assert (G : base.size (list_to_set (map (fun e => (oriented forward e).2) (edges g)) ∖ list_to_set seeds : gset Node) <= length (edges g)); [|lia].
    etrans; [apply subseteq_size, subseteq_difference_l; reflexivity|]. etrans; [apply size_targets|]. by rewrite length_map.
Qed.

Lemma flow_flip g (a b : Node) : flow g false a b <-> flow g true b a.
Proof.
  split; intros ([x y] & He & E); exists (x, y); (split; [done|]); cbn in *; congruence.
Qed.

Lemma rtc_flow_flip g (a b : Node) : rtc (flow g false) a b -> rtc (flow g true) b a.
Proof. induction 1 as [|a b c H _ IH]; [reflexivity|]. eapply rtc_r; [exact IH|]. by apply flow_flip. Qed.

Lemma rtc_flow_flip' g (a b : Node) : rtc (flow g true) b a -> rtc (flow g false) a b.
Proof. induction 1 as [|b c a H _ IH]; [reflexivity|]. eapply rtc_r; [exact IH|]. by apply flow_flip. Qed.

Lemma mask_seeds_elem mask (x : Node) : x ∈ mask_seeds mask <-> exists p, x = Some p /\ mask !! p = Some true.
Proof.
  unfold mask_seeds. rewrite list_elem_of_omap. split.
  - intros ([i v] & H & E). apply enumerate_lookup in H. cbn in E. destruct v; [|done]. injection E as <-. eauto.
  - intros (p & -> & H). exists (p, true). split; [|done]. unfold enumerate.
    apply (list_elem_of_lookup_2 _ p). apply lookup_zip_with_Some. exists p, true. split; [done|]. split; [|done].
    apply lookup_seq. split; [done|]. by apply lookup_lt_Some in H.
Qed.

Lemma map_seq_lookup (f : nat -> bool) n l : default false (map f (seq 0 n) !! l) = true <-> l < n /\ f l = true.
Proof.
  rewrite list_lookup_fmap. destruct (decide (l < n)) as [H|H].
  - rewrite lookup_seq_lt by done. cbn. naive_solver.
  - rewrite lookup_ge_None_2 by (rewrite length_seq; lia). cbn. naive_solver.
Qed.

Section Exact.
Context {T : ActiveTypes}.
Implicit Types (b : Body) (g : Graph) (s : Summary) (param t p : nat) (ts ps : list nat).

(** The graph of a body whose places are in range. *)
Definition body_graph (b : Body) (targets : Targets) (callees : Callees) : Graph :=
  mkGraph (concat (map (block_edges b targets callees) (body_blocks b)))
    (return_roots b targets ++ map Some (List.filter (is_output b) (seq 0 (param_count b)))) (length (body_locals b)).

Lemma graph_inv b callees g : graph b callees = Some g ->
  exists targets, ref_targets b = Some targets /\ param_count b <= length (body_locals b) /\ g = body_graph b targets callees.
Proof.
  unfold graph. destruct (ref_targets b) as [targets|]; [|done]. cbn [mbind option_bind].
  destruct (Nat.ltb_spec (length (body_locals b)) (param_count b)); [done|]. intros [= <-]. eauto.
Qed.

(** C25: The analysis ends, and a local is active exactly when it can carry a derivative and
    lies on a way, through the flow graph, from a differentiated parameter to a
    result or to the value behind a mutable parameter. *)
Theorem activity_exact b mask callees g : graph b callees = Some g ->
  exists a, activity b mask callees = Some a /\ forall local,
    is_active a local = true <->
    local < length (body_locals b) /\ carries_local b local = true /\
    (exists p, mask !! p = Some true /\ rtc (flow g true) (Some p) (Some local)) /\
    (exists sink, sink ∈ sinks g /\ rtc (flow g true) (Some local) sink).
Proof.
  intros Hg. unfold activity. rewrite Hg. cbn.
  destruct (reach_spec g (mask_seeds mask) true) as (rv & -> & Hv). destruct (reach_spec g (sinks g) false) as (ru & -> & Hu). cbn.
  eexists. split; [done|]. intros local. unfold is_active. cbn [varied useful]. rewrite andb_true_iff, !map_seq_lookup, !andb_true_iff, !bool_decide_eq_true.
  rewrite Hv, Hu. destruct (graph_inv _ _ _ Hg) as (targets & _ & _ & E). assert (N : graph_locals g = length (body_locals b)) by (by rewrite E). rewrite N. clear N E. split.
  - intros ((Hl & (s & Hs & Hr) & Hc) & (_ & (s' & Hs' & Hr') & _)). apply mask_seeds_elem in Hs as (p & -> & Hp).
    split; [done|]. split; [done|]. split; [eauto|]. exists s'. split; [done|]. by apply rtc_flow_flip.
  - intros (Hl & Hc & (p & Hp & Hr) & (s' & Hs' & Hr')). split; (split; [done|]); (split; [|done]).
    + exists (Some p). split; [|done]. apply mask_seeds_elem. eauto.
    + exists s'. split; [done|]. by apply rtc_flow_flip'.
Qed.

(** ** Summaries *)

(** A flow of a summary: from a parameter to the result, or to a parameter's final value. *)
Definition has_flow (s : Summary) (output : option nat) (param : nat) : Prop :=
  match output with
  | None => param ∈ sum_result s
  | Some t => param ∈ default ∅ (sum_params s !! t)
  end.

Definition canonical (s : Summary) : Prop := forall t inputs, sum_params s !! t = Some inputs -> inputs <> ∅.

Lemma summary_ext s s' : canonical s -> canonical s' -> (forall o p, has_flow s o p <-> has_flow s' o p) -> s = s'.
Proof.
  intros Hc Hc' H. destruct s as [r m], s' as [r' m']. f_equal.
  - apply set_eq. intros p. apply (H None).
  - apply map_eq. intros t. pose proof (fun p => H (Some t) p) as Ht. cbn in Ht.
    pose proof (Hc t) as C1. pose proof (Hc' t) as C2. cbn in C1, C2.
    destruct (m !! t) as [i|], (m' !! t) as [j|]; cbn in Ht.
    + f_equal. by apply set_eq.
    + exfalso. apply (C1 i eq_refl). set_solver.
    + exfalso. apply (C2 j eq_refl). set_solver.
    + done.
Qed.

(** The flows that a graph gives. *)
Definition graph_flow (b : Body) (g : Graph) (roots : gset Node) (output : option nat) (param : nat) : Prop :=
  carries_local b param = true /\
  match output with
  | None => exists root, root ∈ roots /\ rtc (flow g true) (Some param) root
  | Some t => t < param_count b /\ is_output b t = true /\ (t = param \/ rtc (flow g true) (Some param) (Some t))
  end.

Lemma params_fold b (reached : gset Node) param ts (m : gmap nat (gset nat)) t p :
  (p ∈ default ∅ (fold_left (fun m target =>
     if is_output b target && ((target =? param) || bool_decide (Some target ∈ reached))
     then <[target := {[param]} ∪ default ∅ (m !! target)]> m else m) ts m !! t)) <->
  p ∈ default ∅ (m !! t) \/ p = param /\ t ∈ ts /\ is_output b t = true /\ (t = param \/ Some t ∈ reached).
Proof.
  revert m. induction ts as [|u ts IH]; intros m; cbn [fold_left].
  - split; [by left|]. intros [?|(_ & H & _)]; [done|by inversion H].
  - rewrite IH. clear IH. destruct (is_output b u && ((u =? param) || bool_decide (Some u ∈ reached))) eqn:E.
    + apply andb_true_iff in E as [E1 E2]. rewrite orb_true_iff, Nat.eqb_eq, bool_decide_eq_true in E2.
      destruct (decide (u = t)) as [->|Ne].
      * rewrite lookup_insert_eq. cbn. rewrite elem_of_union, elem_of_singleton, elem_of_cons. naive_solver.
      * rewrite lookup_insert_ne by done. rewrite elem_of_cons. naive_solver.
    + rewrite elem_of_cons. split; [naive_solver|]. intros [?|(-> & [->|?] & H1 & H2)]; [by left| |right; naive_solver].
      exfalso. rewrite H1 in E. cbn in E. apply orb_false_iff in E as [E1 E2]. apply Nat.eqb_neq in E1. apply bool_decide_eq_false in E2. naive_solver.
Qed.

Lemma params_fold_canonical b (reached : gset Node) param ts (m : gmap nat (gset nat)) :
  (forall t i, m !! t = Some i -> i <> ∅) -> forall t i,
  fold_left (fun m target =>
     if is_output b target && ((target =? param) || bool_decide (Some target ∈ reached))
     then <[target := {[param]} ∪ default ∅ (m !! target)]> m else m) ts m !! t = Some i -> i <> ∅.
Proof.
  revert m. induction ts as [|u ts IH]; intros m Hm; cbn [fold_left]; [apply Hm|]. apply IH.
  destruct (_ && _); [|done]. intros t i H. destruct (decide (u = t)) as [->|Ne].
  - rewrite lookup_insert_eq in H. injection H as <-. set_solver.
  - rewrite lookup_insert_ne in H by done. eauto.
Qed.

Lemma summarize_param_spec b g (roots : gset Node) s param : exists s', summarize_param b g roots s param = Some s' /\
  (canonical s -> canonical s') /\
  forall o p, has_flow s' o p <-> has_flow s o p \/ p = param /\ graph_flow b g roots o p.
Proof.
  unfold summarize_param. destruct (carries_local b param) eqn:Hc.
  - destruct (reach_spec g [Some param] true) as (r & -> & Hr). cbn. eexists. split; [done|]. split.
    + intros C t i. apply params_fold_canonical. exact C.
    + assert (Hr' : forall x, x ∈ r <-> rtc (flow g true) (Some param) x).
      { intros x. rewrite Hr. split; [by intros (y & ->%list_elem_of_singleton & ?)|]. intros H. exists (Some param). split; [by apply list_elem_of_singleton|done]. }
      intros [t|] p; cbn [has_flow sum_result sum_params].
      * rewrite params_fold. split; (intros [H|H]; [by left|right]).
        -- destruct H as (-> & H1 & H2 & H3). split; [done|]. split; [done|]. apply elem_of_seq in H1. split; [lia|]. split; [done|]. by rewrite <- Hr'.
        -- destruct H as (-> & _ & H1 & H2 & H3). split; [done|]. split; [apply elem_of_seq; lia|]. split; [done|]. by rewrite Hr'.
      * assert (E : existsb (fun root => bool_decide (root ∈ r)) (elements roots) = true <-> exists root, root ∈ roots /\ rtc (flow g true) (Some param) root).
        { rewrite existsb_exists. split; intros (x & H1 & H2).
          - apply list_elem_of_In, elem_of_elements in H1. apply bool_decide_eq_true, Hr' in H2. eauto.
          - exists x. split; [apply list_elem_of_In; by apply elem_of_elements|]. by apply bool_decide_eq_true, Hr'. }
        destruct (existsb _ _); unfold graph_flow.
        -- rewrite elem_of_union, elem_of_singleton. pose proof (proj1 E eq_refl). naive_solver.
        -- split; [by left|]. intros [?|(-> & _ & H)]; [done|]. apply E in H. done.
  - eexists. split; [done|]. split; [done|]. intros o p. split; [by left|]. intros [?|(-> & H & _)]; [done|congruence].
Qed.

Lemma summarize_fold b g (roots : gset Node) ps s : exists s', fold_opt (summarize_param b g roots) ps s = Some s' /\
  (canonical s -> canonical s') /\ forall o p, has_flow s' o p <-> has_flow s o p \/ p ∈ ps /\ graph_flow b g roots o p.
Proof.
  revert s. induction ps as [|q ps IH]; intros s; cbn [fold_opt].
  - exists s. split; [done|]. split; [done|]. intros o p. split; [by left|]. intros [?|[H _]]; [done|by inversion H].
  - destruct (summarize_param_spec b g roots s q) as (s1 & -> & C1 & H1). cbn.
    destruct (IH s1) as (s2 & -> & C2 & H2). exists s2. split; [done|]. split; [auto|]. intros o p. rewrite H2, H1, elem_of_cons. naive_solver.
Qed.

Definition well_formed b : Prop := is_Some (ref_targets b) /\ param_count b <= length (body_locals b).

Definition summary_le s s' : Prop := forall o p, has_flow s o p -> has_flow s' o p.

Lemma graph_well_formed b callees : well_formed b -> exists targets, ref_targets b = Some targets /\ graph b callees = Some (body_graph b targets callees).
Proof.
  intros [[targets Ht] Hp]. exists targets. split; [done|]. unfold graph. rewrite Ht. cbn [mbind option_bind].
  by destruct (Nat.ltb_spec (length (body_locals b)) (param_count b)); [lia|].
Qed.

Lemma summarize_spec b callees targets : well_formed b -> ref_targets b = Some targets -> exists s, summarize b callees = Some s /\ canonical s /\
  forall o p, has_flow s o p <-> p < param_count b /\ graph_flow b (body_graph b targets callees) (list_to_set (return_roots b targets)) o p.
Proof.
  intros W Ht. unfold summarize. destruct (graph_well_formed b callees W) as (targets' & Ht' & ->). rewrite Ht. cbn [mbind option_bind].
  assert (targets' = targets) as -> by congruence.
  destruct (summarize_fold b (body_graph b targets callees) (list_to_set (return_roots b targets)) (seq 0 (param_count b)) Summary_default) as (s & -> & C & H).
  exists s. split; [done|]. split; [apply C; intros t i E; cbn in E; by rewrite lookup_empty in E|]. intros o p. rewrite H, elem_of_seq. split.
  - intros [F|[F1 F2]]; [|split; [lia|done]]. destruct o; cbn in F; [rewrite lookup_empty in F; cbn in F|]; set_solver.
  - intros [F1 F2]. right. split; [lia|done].
Qed.

(** *** More known flows give more flows *)

Record callees_le (c c' : Callees) : Prop := {
  le_params : callee_params c = callee_params c';
  le_summary : forall t : string, match callee_summary c t, callee_summary c' t with
    | Some s, Some s' => summary_le s s' | None, None => True | _, _ => False end }.

Lemma elem_of_concat_map {A B} (f : A -> list B) (l : list A) (x : B) : x ∈ concat (map f l) <-> exists a, a ∈ l /\ x ∈ f a.
Proof.
  rewrite list_elem_of_In, in_concat. setoid_rewrite in_map_iff. setoid_rewrite list_elem_of_In. naive_solver.
Qed.

Lemma summary_edges_mono b s s' roots dest (e : Node * Node) : summary_le s s' -> e ∈ summary_edges b s roots dest -> e ∈ summary_edges b s' roots dest.
Proof.
  intros L. unfold summary_edges. rewrite !elem_of_app, !elem_of_concat_map. intros [(p & Hp & He)|([out inputs] & Hp & He)].
  - left. exists p. split; [|done]. apply elem_of_elements. apply elem_of_elements in Hp. exact (L None p Hp).
  - right. apply elem_of_map_to_list in Hp. destruct (roots !! out) as [[[o m]|]|] eqn:Hr; [|by inversion He..].
    apply elem_of_concat_map in He as (p & Hin & He). apply elem_of_elements in Hin. pose proof (L (Some out) p) as G. cbn in G. rewrite Hp in G.
    specialize (G Hin). destruct (sum_params s' !! out) as [inputs'|] eqn:E; cbn in G; [|set_solver].
    exists (out, inputs'). split; [by apply elem_of_map_to_list|]. rewrite Hr. apply elem_of_concat_map. exists p. split; [by apply elem_of_elements|done].
Qed.

Lemma call_edges_mono b targets c c' target args destination (e : Node * Node) : callees_le c c' ->
  e ∈ call_edges b targets c target args destination -> e ∈ call_edges b targets c' target args destination.
Proof.
  intros [Lp Ls]. unfold call_edges. rewrite Lp. set (roots := call_arg_roots _ _ _ _). set (dest := _ <$> destination).
  assert (G : e ∈ match (t ← target; callee_summary c t) with Some summary => summary_edges b summary roots dest | None => opaque_edges b roots dest end ->
    e ∈ match (t ← target; callee_summary c' t) with Some summary => summary_edges b summary roots dest | None => opaque_edges b roots dest end).
  { destruct target as [t|]; cbn; [|done]. specialize (Ls t). destruct (callee_summary c t), (callee_summary c' t); try done. by apply summary_edges_mono. }
  destruct (match target with Some t => is_tape_call t | None => false end); [|done]. by destruct roots as [|[[]|] roots].
Qed.

Lemma flow_mono b targets c c' (x y : Node) : callees_le c c' -> flow (body_graph b targets c) true x y -> flow (body_graph b targets c') true x y.
Proof.
  intros L (e & He & E). exists e. split; [|done]. cbn in *. apply elem_of_concat_map in He as (block & Hb & He).
  apply elem_of_concat_map. exists block. split; [done|]. unfold block_edges in *. apply elem_of_app in He as [He|He]; [by apply elem_of_app; left|].
  apply elem_of_app; right. destruct (terminator block); try done; by eapply call_edges_mono.
Qed.

Lemma summarize_mono b c c' s s' : well_formed b -> callees_le c c' -> summarize b c = Some s -> summarize b c' = Some s' -> summary_le s s'.
Proof.
  intros W L H H'. pose proof W as [[targets Ht] _]. destruct (summarize_spec b c targets W Ht) as (s1 & E1 & _ & F1).
  destruct (summarize_spec b c' targets W Ht) as (s2 & E2 & _ & F2). assert (s1 = s) as -> by congruence. assert (s2 = s') as -> by congruence.
  assert (R : forall x y, rtc (flow (body_graph b targets c) true) x y -> rtc (flow (body_graph b targets c') true) x y).
  { intros x y. apply rtc_subrel. intros u v. by apply flow_mono. }
  intros o p (Hp & Hc & Hf)%F1. apply F2. split; [done|]. split; [done|]. destruct o; naive_solver.
Qed.

(** *** The fixed point *)

#[export] Instance has_flow_dec s o p : Decision (has_flow s o p).
Proof. destruct o; cbn [has_flow]; apply _. Defined.

(** The flows a body can have. *)
Definition flow_universe b : list (option nat * nat) :=
  list_prod (None :: map Some (seq 0 (param_count b))) (seq 0 (param_count b)).

Lemma flow_universe_elem b o p : (o, p) ∈ flow_universe b <-> match o with Some t => t < param_count b | None => True end /\ p < param_count b.
Proof.
  unfold flow_universe. rewrite list_elem_of_In, in_prod_iff, <- !list_elem_of_In, elem_of_cons, elem_of_seq. destruct o as [t|].
  - rewrite list_elem_of_In, in_map_iff. setoid_rewrite <- list_elem_of_In. setoid_rewrite elem_of_seq. naive_solver lia.
  - naive_solver lia.
Qed.

Lemma length_flow_universe b : length (flow_universe b) = param_count b * S (param_count b).
Proof. unfold flow_universe. rewrite length_prod. cbn. rewrite length_map, length_seq. lia. Qed.

Definition missing_flows b s : nat := length (filter (fun f => ~ has_flow s f.1 f.2) (flow_universe b)).

Lemma missing_le b s s' : summary_le s s' -> missing_flows b s' <= missing_flows b s.
Proof.
  intros L. unfold missing_flows. induction (flow_universe b) as [|[o p] l IH]; [done|]. rewrite !filter_cons. cbn.
  pose proof (L o p). destruct (decide (~ has_flow s' o p)), (decide (~ has_flow s o p)); cbn; try lia. naive_solver.
Qed.

Lemma missing_lt b s s' o p : summary_le s s' -> (o, p) ∈ flow_universe b -> has_flow s' o p -> ~ has_flow s o p -> missing_flows b s' < missing_flows b s.
Proof.
  intros L Hin H H'. unfold missing_flows. induction (flow_universe b) as [|[o' p'] l IH]; [by inversion Hin|]. rewrite !filter_cons. cbn.
  apply elem_of_cons in Hin as [[= <- <-]|Hin].
  - rewrite decide_False by naive_solver. rewrite decide_True by done. cbn.
    assert (G : length (filter (fun f => ~ has_flow s' f.1 f.2) l) <= length (filter (fun f => ~ has_flow s f.1 f.2) l)); [|lia].
    clear IH. induction l as [|[o1 p1] l IH]; [done|]. rewrite !filter_cons. cbn. pose proof (L o1 p1).
    destruct (decide (~ has_flow s' o1 p1)), (decide (~ has_flow s o1 p1)); cbn; try lia. naive_solver.
  - specialize (IH Hin). pose proof (L o' p'). destruct (decide (~ has_flow s' o' p')), (decide (~ has_flow s o' p')); cbn; try lia. naive_solver.
Qed.

Section Rounds.
Context (bodies : gmap string Body) (params : string -> option (list Type_)) (names : list string).
Context (Hnames : forall name, name ∈ names -> exists b, bodies !! name = Some b /\ well_formed b).
Implicit Types (cur : gmap string Summary) (name : string).

Definition current_le cur cur' : Prop := forall name,
  match cur !! name, cur' !! name with Some s, Some s' => summary_le s s' | None, None => True | _, _ => False end.

Lemma known_le cur cur' : current_le cur cur' -> callees_le (known params cur) (known params cur').
Proof. intros L. split; [done|exact L]. Qed.

(** Between "nothing flows" and the fixed point. *)
Record below cur : Prop := {
  below_dom : forall name, is_Some (cur !! name) <-> name ∈ names;
  below_canonical : forall name s, cur !! name = Some s -> canonical s;
  below_flows : forall name s b s', cur !! name = Some s -> bodies !! name = Some b ->
    summarize b (known params cur) = Some s' -> summary_le s s' }.

(** Summaries that account for every flow. *)
Definition accounts_for cur : Prop := forall name s b s', cur !! name = Some s -> bodies !! name = Some b ->
  summarize b (known params cur) = Some s' -> summary_le s' s.

Definition missing cur : nat :=
  sum_list_with (fun name => match bodies !! name, cur !! name with Some b, Some s => missing_flows b s | _, _ => 0 end) names.

Lemma current_insert_le cur name s s' : cur !! name = Some s -> summary_le s s' -> current_le cur (<[name := s']> cur).
Proof.
  intros H L x. destruct (decide (name = x)) as [->|Ne].
  - by rewrite H, lookup_insert_eq.
  - rewrite lookup_insert_ne by done. destruct (cur !! x); [by intros o p|done].
Qed.

Lemma missing_insert cur name b s s' : bodies !! name = Some b -> cur !! name = Some s -> name ∈ names -> summary_le s s' ->
  missing_flows b s' < missing_flows b s -> missing (<[name := s']> cur) < missing cur.
Proof.
  intros Hb Hc Hn L Hm. unfold missing. clear Hnames. revert Hn.
  assert (G : forall l, sum_list_with (fun name0 => match bodies !! name0, <[name := s']> cur !! name0 with Some b, Some s => missing_flows b s | _, _ => 0 end) l
    <= sum_list_with (fun name0 => match bodies !! name0, cur !! name0 with Some b, Some s => missing_flows b s | _, _ => 0 end) l).
  { intros l. induction l as [|x l IH]; [done|]. cbn [sum_list_with]. destruct (decide (name = x)) as [<-|Ne].
    - rewrite lookup_insert_eq, Hb, Hc. lia.
    - rewrite lookup_insert_ne by done. lia. }
  induction names as [|x l IH]; intros Hn; [by inversion Hn|]. cbn [sum_list_with]. specialize (G l).
  apply elem_of_cons in Hn as [<-|Hn].
  - rewrite lookup_insert_eq, Hb, Hc. lia.
  - specialize (IH Hn). destruct (decide (name = x)) as [<-|Ne].
    + rewrite lookup_insert_eq, Hb, Hc. lia.
    + rewrite lookup_insert_ne by done. lia.
Qed.

(** What a step keeps: it stays below, and below whatever accounts for every flow. *)
Definition advances cur cur' : Prop :=
  below cur' /\ missing cur' <= missing cur /\
  forall cur'', (forall name, is_Some (cur'' !! name) <-> name ∈ names) -> accounts_for cur'' -> current_le cur cur'' -> current_le cur' cur''.

Lemma summary_step_spec cur changed name : below cur -> name ∈ names ->
  exists cur' changed', summary_step bodies params (cur, changed) name = Some (cur', changed') /\ advances cur cur' /\
    ((changed' = changed /\ cur' = cur /\ exists b, bodies !! name = Some b /\ summarize b (known params cur) = cur !! name) \/
     (changed' = true /\ missing cur' < missing cur)).
Proof.
  intros HB Hn. destruct (Hnames name Hn) as (b & Hb & W). pose proof W as [[targets Ht] _].
  destruct (summarize_spec b (known params cur) targets W Ht) as (next & Hs & Hcan & Hflow).
  destruct (proj2 (below_dom _ HB name) Hn) as [old Hold]. pose proof (below_flows _ HB name old b next Hold Hb Hs) as L.
  unfold summary_step. rewrite Hb. cbn. rewrite Hs. cbn. rewrite Hold. cbn. case_bool_decide as E.
  - exists cur, changed. split; [done|]. split; [split; [done|]; split; [done|]; done|]. left. split; [done|]. split; [done|]. exists b. split; [done|]. congruence.
  - exists (<[name := next]> cur), true. split; [done|]. assert (LI := current_insert_le cur name old next Hold L).
    assert (M : missing (<[name := next]> cur) < missing cur).
    { apply (missing_insert cur name b old next); [done..|].
      destruct (decide (Exists (fun f => has_flow next f.1 f.2 /\ ~ has_flow old f.1 f.2) (flow_universe b))) as [X|X].
      - apply Exists_exists in X as ([o p] & Hin & H1 & H2). by apply (missing_lt b old next o p).
      - exfalso. apply E. apply summary_ext; [by eapply below_canonical|done|]. intros o p. split; [apply L|]. intros F.
        destruct (decide (has_flow old o p)) as [G|G]; [done|]. exfalso. apply X, Exists_exists. exists (o, p). split; [|done].
        apply flow_universe_elem. apply Hflow in F as (Hp & _ & Hf). destruct o; naive_solver. }
    split; [|right; done]. split; [|split; [lia|]].
    + split.
      * intros x. destruct (decide (name = x)) as [<-|Ne]; [rewrite lookup_insert_eq; naive_solver|]. rewrite lookup_insert_ne by done. apply (below_dom _ HB).
      * intros x s Hx. destruct (decide (name = x)) as [<-|Ne]; [rewrite lookup_insert_eq in Hx; by simplify_eq|].
        rewrite lookup_insert_ne in Hx by done. by eapply below_canonical.
      * intros x s b' s' Hx Hb' Hs'. pose proof (known_le _ _ LI) as KL. destruct (decide (name = x)) as [<-|Ne].
        -- rewrite lookup_insert_eq in Hx. simplify_eq. by eapply (summarize_mono b).
        -- rewrite lookup_insert_ne in Hx by done. assert (W' : well_formed b').
           { destruct (Hnames x) as (b1 & Hb1 & W1); [by apply (below_dom _ HB)|]. congruence. }
           pose proof W' as [[targets' Ht'] _]. destruct (summarize_spec b' (known params cur) targets' W' Ht') as (s1 & Hs1 & _).
           intros o p F. eapply (summarize_mono b'); [done|exact KL|done|done|]. by eapply (below_flows _ HB x).
    + intros cur'' HD HA HL x. destruct (decide (name = x)) as [<-|Ne]; [|rewrite lookup_insert_ne by done; apply HL].
      rewrite lookup_insert_eq. destruct (proj2 (HD name) Hn) as [s2 H2]. rewrite H2.
      destruct (summarize_spec b (known params cur'') targets W Ht) as (s3 & Hs3 & _). intros o p F.
      eapply (HA name s2 b s3); [done..|]. eapply (summarize_mono b); [done|by apply known_le|done|done|done].
Qed.

Lemma advances_trans c1 c2 c3 : advances c1 c2 -> advances c2 c3 -> advances c1 c3.
Proof. intros (A1 & A2 & A3) (B1 & B2 & B3). split; [done|]. split; [lia|]. auto. Qed.

Lemma round_spec l cur changed : below cur -> l ⊆ names ->
  exists cur' changed', fold_opt (summary_step bodies params) l (cur, changed) = Some (cur', changed') /\ advances cur cur' /\
    ((changed' = changed /\ cur' = cur /\ forall name, name ∈ l -> exists b, bodies !! name = Some b /\ summarize b (known params cur) = cur !! name) \/
     (changed' = true /\ missing cur' < missing cur)).
Proof.
  revert cur changed. induction l as [|name l IH]; intros cur changed HB Hl; cbn [fold_opt].
  - exists cur, changed. split; [done|]. split; [by split|]. left. split; [done|]. split; [done|]. intros name H. inversion H.
  - destruct (summary_step_spec cur changed name HB) as (c1 & ch1 & -> & A1 & D1); [apply Hl; by left|]. cbn [mbind option_bind].
    destruct (IH c1 ch1 (proj1 A1)) as (c2 & ch2 & -> & A2 & D2); [intros x Hx; apply Hl; by right|].
    exists c2, ch2. split; [done|]. split; [by eapply advances_trans|]. destruct A1 as (_ & M1 & _), A2 as (_ & M2 & _).
    destruct D2 as [(-> & -> & F2)|[-> ?]]; [|right; split; [done|lia]].
    destruct D1 as [(-> & -> & F1)|[-> ?]]; [|right; split; [done|lia]].
    left. split; [done|]. split; [done|]. intros x Hx. apply elem_of_cons in Hx as [->|Hx]; [done|by apply F2].
Qed.

Lemma rounds_spec fuel cur : below cur -> missing cur < fuel ->
  exists r, summary_rounds fuel bodies params names cur = Some r /\ advances cur r /\
    forall name, name ∈ names -> exists b, bodies !! name = Some b /\ summarize b (known params r) = r !! name.
Proof.
  revert cur. induction fuel as [|fuel IH]; intros cur HB Hm; [lia|]. cbn [summary_rounds].
  destruct (round_spec names cur false HB) as (c1 & ch1 & -> & A1 & D1); [done|]. cbn [mbind option_bind].
  destruct D1 as [(-> & -> & F)|[-> M]]; [exists cur; split; [done|]; split; [by split|done]|].
  destruct (IH c1 (proj1 A1)) as (r & Hr & A2 & F); [lia|]. exists r. split; [done|]. split; [by eapply advances_trans|done].
Qed.
End Rounds.

(** *** The functions that are reached *)

Definition calls (bodies : gmap string Body) (f g : string) : Prop := exists b, bodies !! f = Some b /\ g ∈ calls_of b.

Definition called (bodies : gmap string Body) (names : list string) (f : string) : Prop :=
  is_Some (bodies !! f) /\ exists n, n ∈ names /\ rtc (calls bodies) n f.

(** Calls of the functions not yet reached. *)
Definition unseen_calls (l : list (string * Body)) (reachable : list string) : nat :=
  sum_list_with (fun e => if bool_decide (e.1 ∈ reachable) then 0 else length (calls_of e.2)) l.

Lemma unseen_le l reachable name : unseen_calls l (reachable ++ [name]) <= unseen_calls l reachable.
Proof.
  unfold unseen_calls. induction l as [|[n b] l IH]; [done|]. cbn [sum_list_with fst snd].
  repeat case_bool_decide; try lia. set_solver.
Qed.

Lemma unseen_add l reachable name b : (name, b) ∈ l -> name ∉ reachable ->
  unseen_calls l (reachable ++ [name]) + length (calls_of b) <= unseen_calls l reachable.
Proof.
  intros Hin Hn. unfold unseen_calls. induction l as [|[n b'] l IH]; [by inversion Hin|]. cbn [sum_list_with fst snd].
  pose proof (unseen_le l reachable name) as G. unfold unseen_calls in G. apply elem_of_cons in Hin as [[= <- <-]|Hin].
  - rewrite bool_decide_eq_true_2 by set_solver. rewrite bool_decide_eq_false_2 by done. lia.
  - specialize (IH Hin). repeat case_bool_decide; try lia. set_solver.
Qed.

Lemma reachable_loop_spec (bodies : gmap string Body) (names : list string) fuel (reachable pending : list string) :
  (forall n, n ∈ pending -> exists n0, n0 ∈ names /\ rtc (calls bodies) n0 n) ->
  (forall n, n ∈ reachable -> called bodies names n) ->
  (forall n, n ∈ names -> n ∈ pending \/ n ∈ reachable \/ bodies !! n = None) ->
  (forall n m, n ∈ reachable -> calls bodies n m -> m ∈ pending \/ m ∈ reachable \/ bodies !! m = None) ->
  length pending + unseen_calls (map_to_list bodies) reachable <= fuel ->
  exists r, reachable_loop fuel bodies reachable pending = Some r /\ forall n, n ∈ r <-> called bodies names n.
Proof.
  revert reachable pending. induction fuel as [|fuel IH]; intros reachable [|name pending] Hp Hr Hn Hc Hf; cbn in Hf; try lia.
  1, 2: exists reachable; split; [done|]; intros n; split; [apply Hr|]; intros (HS & n0 & H0 & Hrtc);
    assert (G : n0 ∈ reachable \/ bodies !! n0 = None) by (destruct (Hn n0 H0) as [G|G]; [inversion G|done]); clear H0;
    induction Hrtc as [a|a b c Hab _ IHr]; [destruct G as [G|G]; [done|rewrite G in HS; by destruct HS]|];
    apply IHr; [done|]; destruct G as [G|G]; [destruct (Hc a b G Hab) as [G'|G']; [inversion G'|done]|];
    destruct Hab as (body & Hb & _); congruence.
  cbn [reachable_loop]. destruct (bodies !! name) as [body|] eqn:Hb; [case_bool_decide as E|].
  - apply IH; try done.
    + intros n H. apply Hp. by right.
    + intros n H. destruct (Hn n H) as [G|G]; [|auto]. apply elem_of_cons in G as [->|G]; auto.
    + intros n m H H'. destruct (Hc n m H H') as [G|G]; [|auto]. apply elem_of_cons in G as [->|G]; auto.
    + lia.
  - assert (Hname : called bodies names name) by (split; [by rewrite Hb|apply Hp; by left]). apply IH.
    + intros n H. apply elem_of_app in H as [H|H]; [|apply Hp; by right]. rewrite elem_of_reverse in H. destruct Hname as (_ & n0 & H0 & H1).
      exists n0. split; [done|]. eapply rtc_r; [done|]. by exists body.
    + intros n H. apply elem_of_app in H as [H|H]; [auto|]. apply list_elem_of_singleton in H as ->. done.
    + intros n H. rewrite !elem_of_app, list_elem_of_singleton. destruct (Hn n H) as [G|G]; [|naive_solver]. apply elem_of_cons in G as [->|G]; naive_solver.
    + intros n m H H'. rewrite !elem_of_app, elem_of_reverse, list_elem_of_singleton. apply elem_of_app in H as [H|H].
      * destruct (Hc n m H H') as [G|G]; [|naive_solver]. apply elem_of_cons in G as [->|G]; naive_solver.
      * apply list_elem_of_singleton in H as ->. destruct H' as (body' & Hb' & Hm). assert (body' = body) as -> by congruence. auto.
    + rewrite length_app, length_reverse. pose proof (unseen_add (map_to_list bodies) reachable name body ltac:(by apply elem_of_map_to_list) E). lia.
  - apply IH; try done.
    + intros n H. apply Hp. by right.
    + intros n H. destruct (Hn n H) as [G|G]; [|auto]. apply elem_of_cons in G as [->|G]; auto.
    + intros n m H H'. destruct (Hc n m H H') as [G|G]; [|auto]. apply elem_of_cons in G as [->|G]; auto.
    + lia.
Qed.

Lemma reachable_names_spec bodies names : exists r, reachable_names bodies names = Some r /\ forall n, n ∈ r <-> called bodies names n.
Proof.
  unfold reachable_names. apply reachable_loop_spec.
  - intros n H. exists n. split; [by apply elem_of_reverse|reflexivity].
  - intros n H. inversion H.
  - intros n H. left. by apply elem_of_reverse.
  - intros n m H. inversion H.
  - rewrite length_reverse. apply Nat.add_le_mono_l. unfold unseen_calls, all_calls.
    induction (map_to_list bodies) as [|e l IH]; [done|]. cbn [sum_list_with]. case_bool_decide as E; [inversion E|]. lia.
Qed.

(** C24: The summaries are found, for the functions that the given ones can call; they are those of the
    bodies with these summaries for their calls, and the least that account for every
    flow: recursion converges and no flow is invented. *)
Theorem summaries_least names bodies params :
  (forall name b, bodies !! name = Some b -> well_formed b) ->
  exists S, summaries names bodies params = Some S /\
    (forall f, is_Some (S !! f) <-> called bodies names f) /\
    (forall f b, S !! f <> None -> bodies !! f = Some b -> summarize b (known params S) = S !! f) /\
    (forall S', (forall f, is_Some (S' !! f) <-> called bodies names f) -> accounts_for bodies params S' -> current_le S S').
Proof.
  intros W. unfold summaries. destruct (reachable_names_spec bodies names) as (r & -> & Hr). cbn [mbind option_bind].
  set (init := list_to_map _).
  assert (Hinit : forall f, init !! f = if bool_decide (f ∈ r) then Some Summary_default else None).
  { intros f. unfold init. clear. induction r as [|x r IH]; [done|]. cbn. destruct (decide (x = f)) as [->|Ne].
    - rewrite lookup_insert_eq. by rewrite bool_decide_eq_true_2 by (by left).
    - rewrite lookup_insert_ne, IH by done. repeat case_bool_decide; set_solver. }
  assert (HN : forall name, name ∈ r -> exists b, bodies !! name = Some b /\ well_formed b).
  { intros name [[b Hb] _]%Hr. eauto. }
  assert (HF : forall o p, ~ has_flow Summary_default o p).
  { intros [t|] p; cbn; [rewrite lookup_empty; cbn|]; set_solver. }
  assert (HB : below bodies params r init).
  { split.
    - intros name. rewrite Hinit. case_bool_decide; naive_solver.
    - intros name s H t i Hi. rewrite Hinit in H. case_bool_decide; [|done]. injection H as <-. cbn in Hi. by rewrite lookup_empty in Hi.
    - intros name s b s' H _ _ o p Hf. rewrite Hinit in H. case_bool_decide; [|done]. injection H as <-. by apply HF in Hf. }
  destruct (rounds_spec bodies params r HN (S (flow_count bodies r)) init HB) as (S & HS & (HB' & _ & HL) & Hfix).
  { unfold missing, flow_count. apply Nat.lt_succ_r. generalize r at 1 2. intros l. induction l as [|x l IH]; [done|]. cbn [sum_list_with].
    apply Nat.add_le_mono; [|done]. destruct (bodies !! x) as [b|]; [|done]. destruct (init !! x) as [s|]; [|lia].
    unfold missing_flows. rewrite <- length_flow_universe. apply length_filter. }
  exists S. split; [done|]. split; [intros f; rewrite (below_dom _ _ _ _ HB'); apply Hr|]. split.
  - intros f b Hf Hb. assert (Hin : f ∈ r). { apply (below_dom _ _ _ _ HB'). destruct (S !! f); [eauto|done]. }
    destruct (Hfix f Hin) as (b' & Hb' & E). congruence.
  - intros S' HD HA. apply HL; [intros f; by rewrite HD, Hr|done|]. intros f. rewrite Hinit. destruct (S' !! f) as [s'|] eqn:E.
    + rewrite bool_decide_eq_true_2 by (apply Hr, HD; eauto). intros o p Hf. by apply HF in Hf.
    + rewrite bool_decide_eq_false_2; [done|]. intros Hin. apply Hr, HD in Hin. rewrite E in Hin. by destruct Hin.
Qed.
End Exact.

(** ** Witnesses

    [even(n, x)] returns [x], or [odd(n, x)]; [odd(n, x)] returns [x] times [even(n, x)]. *)
#[local] Instance demo_types : ActiveTypes :=
  {| type_active := fun ty => match ty with TyFloat w => FloatWidth.has_arithmetic w | _ => false end; type_heap := fun _ => false |}.

Definition demo_local (ty : Type_) : LocalDecl := mkLocalDecl None ty true.
Definition demo_body (locals : list Type_) (blocks : list BasicBlock) : Body :=
  mkBody (map demo_local locals) blocks Debug 2 (TyFloat F64) sp0 [].

Definition demo_even : Body := demo_body [TyInt I64; TyFloat F64; TyFloat F64]
  [mkBasicBlock [] (TmSwitchInt (Copy (PlLocal 0)) [(0%Z, 1)] 2); mkBasicBlock [] (TmReturn (Copy (PlLocal 1)));
   mkBasicBlock [] (TmCall "odd" [Copy (PlLocal 0); Copy (PlLocal 1)] (Some (PlLocal 2)) 3); mkBasicBlock [] (TmReturn (Copy (PlLocal 2)))].
Definition demo_odd : Body := demo_body [TyInt I64; TyFloat F64; TyFloat F64; TyFloat F64]
  [mkBasicBlock [] (TmCall "even" [Copy (PlLocal 0); Copy (PlLocal 1)] (Some (PlLocal 2)) 1);
   mkBasicBlock [SAssign (PlLocal 3) (RBinaryOp BMul (Copy (PlLocal 1)) (Copy (PlLocal 2)))] (TmReturn (Copy (PlLocal 3)))].
Definition demo_bodies : gmap string Body := {["even"%string := demo_even; "odd"%string := demo_odd]}.

Lemma demo_well_formed name b : demo_bodies !! name = Some b -> well_formed b.
Proof.
  unfold demo_bodies. intros H. apply lookup_insert_Some in H as [[<- <-]|[_ H]].
  - split; [eexists; vm_compute; reflexivity|cbn; lia].
  - apply lookup_singleton_Some in H as [<- <-]. split; [eexists; vm_compute; reflexivity|cbn; lia].
Qed.

Definition demo_flow : Summary := mkSummary {[1]} ∅.

Lemma summaries_least_witness :
  summaries ["even"%string] demo_bodies (fun _ => None) = Some {["even"%string := demo_flow; "odd"%string := demo_flow]} /\
  called demo_bodies ["even"%string] "odd".
Proof.
  assert (E : summaries ["even"%string] demo_bodies (fun _ => None) = Some {["even"%string := demo_flow; "odd"%string := demo_flow]})
    by (vm_compute; reflexivity).
  split; [exact E|]. destruct (summaries_least ["even"%string] demo_bodies (fun _ => None) demo_well_formed) as (S & H & HD & _).
  apply HD. assert (S = {["even"%string := demo_flow; "odd"%string := demo_flow]}) as -> by congruence. eexists. vm_compute. reflexivity.
Defined.

Lemma activity_exact_witness : exists a g, activity demo_odd [false; true] (mkCallees (fun _ => None) (fun _ => Some demo_flow)) = Some a /\
  graph demo_odd (mkCallees (fun _ => None) (fun _ => Some demo_flow)) = Some g /\ is_active a 2 = true /\
  exists sink, sink ∈ sinks g /\ rtc (flow g true) (Some 2) sink.
Proof.
  destruct (graph demo_odd (mkCallees (fun _ => None) (fun _ => Some demo_flow))) as [g|] eqn:G; [|vm_compute in G; discriminate].
  destruct (activity_exact demo_odd [false; true] _ g G) as (a & Ha & H). exists a, g. split; [exact Ha|]. split; [reflexivity|].
  assert (E : is_active a 2 = true).
  { assert (F : activity demo_odd [false; true] (mkCallees (fun _ => None) (fun _ => Some demo_flow)) = Some (mkActivity [false; true; true; true] [false; true; true; true]))
      by (vm_compute; reflexivity). assert (a = mkActivity [false; true; true; true] [false; true; true; true]) as -> by congruence. reflexivity. }
  split; [exact E|]. apply (H 2) in E as (_ & _ & _ & E). exact E.
Defined.
