(* ===== verification/Memory.v ===== *)
(** The memory of compile-time evaluation: [Memory] of
    [paco-comptime/src/machine.rs], with the errors of the machine.

    An address is [(allocation index + 1) << 32 | offset].  Sizes and addresses
    are [Z]s, the bytes of an allocation a list.  Running out of host memory is
    not modelled. *)
From S2P Require Import Prelude Span Bytes.
Open Scope Z_scope.

Record Error := mkError { message : string; span : option Span }.
Definition Error_new (message : string) : Error := mkError message None.

(** How a computation of the machine ends without a value: an [Err], a Rust
    panic, an overflow of the host's stack, or (in the model) the end of the
    fuel of a loop. *)
Inductive Stop :=
| Fail (e : Error)
| Panic
| HostStack
| NoFuel.

Abbreviation outcome A := (result A Stop).

(** [{z:#x}] *)
Definition hex_digit (d : Z) : ascii := ascii_of_nat (Z.to_nat (if d <? 10 then 48 + d else 87 + d)).
Fixpoint hex_digits (fuel : nat) (z : Z) (acc : string) : string :=
  match fuel with
  | O => acc
  | S fuel => let acc := String (hex_digit (z mod 16)) acc in if z <? 16 then acc else hex_digits fuel (z / 16) acc
  end.
Definition hex (z : Z) : string := "0x" +:+ hex_digits 32 z "".

Record Allocation := mkAllocation { bytes : list Z; freed : bool; fixed : bool }.
Record Memory := mkMemory { allocations : list Allocation }.
Definition Memory_default : Memory := mkMemory [].

Definition alloc (size : Z) (fixed : bool) (m : Memory) : Z * Memory :=
  let allocations := allocations m ++ [mkAllocation (zeros (Z.to_nat size)) false fixed] in
  (wrap 64 (Z.shiftl (Z.of_nat (length allocations)) 32), mkMemory allocations).

Definition invalid_access (address : Z) : Error := Error_new ("invalid memory access at " +:+ hex address).
Definition out_of_bounds (address len : Z) : Error :=
  Error_new ("out-of-bounds memory access at " +:+ hex address +:+ " (" +:+ show_Z len +:+ " bytes)").
Definition not_allocated (address : Z) : Error :=
  Error_new ("freeing memory that was not allocated at " +:+ hex address).

Definition locate (m : Memory) (address len : Z) : outcome (nat * Z) :=
  let index := Z.shiftr address 32 in
  let offset := Z.land address 0xFFFFFFFF in
  match (if index =? 0 then None else allocations m !! Z.to_nat (index - 1)) with
  | Some a =>
      if freed a then Err (Fail (invalid_access address))
      else match check_u64 (offset + len) with
           | None => Err Panic
           | Some stop =>
               if Z.of_nat (length (bytes a)) <? stop then Err (Fail (out_of_bounds address len))
               else Ok (Z.to_nat (index - 1), offset)
           end
  | None => Err (Fail (invalid_access address))
  end.

(** The allocation at an index that [locate] returned. *)
Definition allocation (m : Memory) (index : nat) : Allocation :=
  default (mkAllocation [] true true) (allocations m !! index).
Definition set_allocation (m : Memory) (index : nat) (a : Allocation) : Memory := mkMemory (<[index := a]> (allocations m)).

Definition read (m : Memory) (address len : Z) : outcome (list Z) :=
  if len =? 0 then Ok []
  else match locate m address len with
       | Ok (index, offset) => Ok (sub_bytes (bytes (allocation m index)) (Z.to_nat offset) (Z.to_nat len))
       | Err e => Err e
       end.

Definition write (m : Memory) (address : Z) (v : list Z) : outcome Memory :=
  match v with
  | [] => Ok m
  | _ =>
      match locate m address (Z.of_nat (length v)) with
      | Ok (index, offset) =>
          let a := allocation m index in
          Ok (set_allocation m index (mkAllocation (put_bytes (bytes a) (Z.to_nat offset) v) (freed a) (fixed a)))
      | Err e => Err e
      end
  end.

Definition read_u64 (m : Memory) (address : Z) : outcome Z :=
  match read m address 8 with Ok v => Ok (le_value v) | Err e => Err e end.

Definition write_u64 (m : Memory) (address value : Z) : outcome Memory := write m address (le_bytes 8 value).

Definition free (m : Memory) (address : Z) : outcome Memory :=
  if address =? 0 then Ok m
  else match locate m address 0 with
       | Ok (index, offset) =>
           let a := allocation m index in
           if negb (offset =? 0) || fixed a then Err (Fail (not_allocated address))
           else Ok (set_allocation m index (mkAllocation [] true (fixed a)))
       | Err e => Err e
       end.

(** ** Blocks

    The abstract memory: the live blocks by number.  [block_of] and
    [offset_of] are the two halves of an address. *)

Definition block_of (address : Z) : Z := Z.shiftr address 32 - 1.
Definition offset_of (address : Z) : Z := Z.land address 0xFFFFFFFF.

Definition live (m : Memory) (b : Z) : option (list Z) :=
  if b <? 0 then None
  else a ← allocations m !! Z.to_nat b; if freed a then None else Some (bytes a).

(** [locate] depends on the block alone. *)
Lemma locate_live m address len :
  0 <= address ->
  locate m address len =
    match live m (block_of address) with
    | None => Err (Fail (invalid_access address))
    | Some bs =>
        match check_u64 (offset_of address + len) with
        | None => Err Panic
        | Some stop =>
            if Z.of_nat (length bs) <? stop then Err (Fail (out_of_bounds address len))
            else Ok (Z.to_nat (block_of address), offset_of address)
        end
    end.
Proof.
  intros Ha. unfold locate, live, block_of, offset_of.
  assert (0 <= Z.shiftr address 32) by (by apply Z.shiftr_nonneg).
  destruct (Z.eqb_spec (Z.shiftr address 32) 0) as [->|Hne]; [done|].
  destruct (Z.ltb_spec (Z.shiftr address 32 - 1) 0); [lia|].
  destruct (allocations m !! _) as [[bs [] f]|]; done.
Qed.

Lemma locate_spec m address len index offset :
  0 <= address ->
  locate m address len = Ok (index, offset) ->
  exists bs, live m (block_of address) = Some bs /\ offset_of address + len <= Z.of_nat (length bs) /\
    offset_of address + len <= u64_max /\ index = Z.to_nat (block_of address) /\ offset = offset_of address.
Proof.
  intros Ha. rewrite locate_live by done. destruct (live m _) as [bs|]; [|done].
  destruct (check_u64 _) as [stop|] eqn:Ec; [|done]. apply check_u64_some in Ec as [-> ?].
  destruct (Z.ltb_spec (Z.of_nat (length bs)) (offset_of address + len)); [done|]. intros [= <- <-]. exists bs. split_and!; lia || done.
Qed.

Lemma allocation_live m b bs : live m b = Some bs -> 0 <= b /\ exists f, allocations m !! Z.to_nat b = Some (mkAllocation bs false f).
Proof.
  unfold live. destruct (Z.ltb_spec b 0); [done|]. destruct (allocations m !! _) as [[bs' [] f]|]; simpl; try done.
  intros [= ->]. eauto.
Qed.

Lemma live_set m index a b :
  (index < length (allocations m))%nat ->
  live (set_allocation m index a) b =
    if b =? Z.of_nat index then (if freed a then None else Some (bytes a)) else live m b.
Proof.
  intros Hi. unfold live, set_allocation. cbn [allocations].
  destruct (Z.eqb_spec b (Z.of_nat index)) as [->|Hne].
  - destruct (Z.ltb_spec (Z.of_nat index) 0); [lia|]. rewrite Nat2Z.id, list_lookup_insert_eq by done. done.
  - destruct (Z.ltb_spec b 0); [done|]. rewrite list_lookup_insert_ne by lia. done.
Qed.

(** *** What the operations do to the blocks *)

Lemma live_alloc m size f b :
  live (alloc size f m).2 b =
    if b =? Z.of_nat (length (allocations m)) then Some (zeros (Z.to_nat size)) else live m b.
Proof.
  unfold live. cbn [alloc snd allocations]. destruct (Z.eqb_spec b (Z.of_nat (length (allocations m)))) as [->|Hne].
  - destruct (Z.ltb_spec (Z.of_nat (length (allocations m))) 0); [lia|]. rewrite Nat2Z.id, lookup_app_r, Nat.sub_diag by lia. done.
  - destruct (Z.ltb_spec b 0); [done|]. destruct (decide (Z.to_nat b < length (allocations m))%nat).
    + by rewrite lookup_app_l.
    + rewrite !lookup_ge_None_2; [done| |]; rewrite ?length_app; simpl; lia.
Qed.

Lemma alloc_address m size f :
  Z.of_nat (length (allocations m)) < 2 ^ 32 - 1 ->
  block_of (alloc size f m).1 = Z.of_nat (length (allocations m)) /\ offset_of (alloc size f m).1 = 0 /\ 0 < (alloc size f m).1.
Proof.
  intros Hm. cbn [alloc fst]. rewrite length_app. simpl length. unfold block_of, offset_of, wrap.
  rewrite Z.shiftl_mul_pow2, Z.mod_small by lia. rewrite Z.shiftr_div_pow2, Z.div_mul by lia.
  change 0xFFFFFFFF with (2 ^ 32 - 1). rewrite land_low, Z.mod_mul by lia. lia.
Qed.

Lemma write_spec m address v m' :
  0 <= address -> v <> [] -> write m address v = Ok m' ->
  exists bs, live m (block_of address) = Some bs /\ offset_of address + Z.of_nat (length v) <= Z.of_nat (length bs) /\
    0 <= offset_of address /\ length (allocations m') = length (allocations m) /\
    forall b, live m' b = if b =? block_of address then Some (put_bytes bs (Z.to_nat (offset_of address)) v) else live m b.
Proof.
  intros Ha Hv. unfold write. destruct v as [|x v]; [done|]. set (w := x :: v) in *.
  destruct (locate m address _) as [[index offset]|] eqn:El; [|done]. intros [= <-].
  apply locate_spec in El as (bs & Hb & H1 & H2 & -> & ->); [|lia].
  destruct (allocation_live _ _ _ Hb) as (H0 & f & Hf). exists bs.
  assert (0 <= offset_of address) by (apply Z.land_nonneg; lia). split_and!; try done.
  { unfold set_allocation. cbn [allocations]. by rewrite length_insert. }
  intros b. unfold allocation. rewrite Hf. cbn [default bytes freed fixed]. rewrite live_set by (by apply lookup_lt_Some in Hf).
  rewrite Z2Nat.id by done. done.
Qed.

Lemma read_live m address len :
  0 <= address ->
  read m address len =
    if len =? 0 then Ok []
    else match live m (block_of address) with
         | None => Err (Fail (invalid_access address))
         | Some bs =>
             match check_u64 (offset_of address + len) with
             | None => Err Panic
             | Some stop =>
                 if Z.of_nat (length bs) <? stop then Err (Fail (out_of_bounds address len))
                 else Ok (sub_bytes bs (Z.to_nat (offset_of address)) (Z.to_nat len))
             end
         end.
Proof.
  intros Ha. unfold read. destruct (len =? 0); [done|]. rewrite locate_live by done.
  destruct (live m _) as [bs|] eqn:Hb; [|done]. destruct (allocation_live _ _ _ Hb) as (H0 & f & Hf).
  destruct (check_u64 _); [|done]. destruct (_ <? _); [done|]. unfold allocation. by rewrite Hf.
Qed.

Lemma free_spec m address m' :
  0 <= address -> address <> 0 -> free m address = Ok m' ->
  exists bs, live m (block_of address) = Some bs /\ offset_of address = 0 /\ length (allocations m') = length (allocations m) /\
    forall b, live m' b = if b =? block_of address then None else live m b.
Proof.
  intros Ha Hne. unfold free. destruct (Z.eqb_spec address 0); [done|].
  destruct (locate m address 0) as [[index offset]|] eqn:El; [|done].
  apply locate_spec in El as (bs & Hb & H1 & H2 & -> & ->); [|lia].
  destruct (allocation_live _ _ _ Hb) as (H0 & f & Hf). unfold allocation. rewrite Hf. cbn [default bytes freed fixed].
  destruct (Z.eqb_spec (offset_of address) 0); [|done]. destruct f; [done|]. simpl. intros [= <-]. exists bs. split_and!; try done.
  { unfold set_allocation. cbn [allocations]. by rewrite length_insert. }
  intros b. rewrite live_set by (by apply lookup_lt_Some in Hf). by rewrite Z2Nat.id.
Qed.

(** *** Histories *)

(** A successful operation of the machine on its memory. *)
Inductive mem_step : Memory -> Memory -> Prop :=
| step_alloc m size f : Z.of_nat (length (allocations m)) < 2 ^ 32 - 1 -> mem_step m (alloc size f m).2
| step_write m address v m' : 0 <= address -> write m address v = Ok m' -> mem_step m m'
| step_free m address m' : 0 <= address -> free m address = Ok m' -> mem_step m m'.

(** A block that was allocated and is not live stays so: block numbers are
    never used again. *)
Lemma step_dead m m' b :
  mem_step m m' -> b < Z.of_nat (length (allocations m)) -> live m b = None ->
  b < Z.of_nat (length (allocations m')) /\ live m' b = None.
Proof.
  intros [m0 size f Hm|m0 address v m1 Ha Hw|m0 address m1 Ha Hf] Hb Hl.
  - rewrite live_alloc. cbn [alloc snd allocations]. rewrite length_app. simpl. split; [lia|].
    destruct (Z.eqb_spec b (Z.of_nat (length (allocations m0)))); [lia|done].
  - destruct v as [|x v]; [by simplify_eq/=|]. apply write_spec in Hw as (bs & Hbs & _ & _ & -> & ->); [|done..].
    split; [done|]. destruct (Z.eqb_spec b (block_of address)); [congruence|done].
  - destruct (decide (address = 0)) as [->|Hne]; [unfold free in Hf; simpl in Hf; by simplify_eq|].
    apply free_spec in Hf as (bs & Hbs & _ & -> & ->); [|done..]. split; [done|]. by destruct (b =? _).
Qed.

(** C23: After [free] of an address succeeds, whatever the machine does to its
    memory, every later read or write of at least a byte and every free at that
    block fails: use after free and double free are always reported.  (An access
    of no bytes succeeds at any address.) *)
Theorem freed_stays_freed m address m1 m2 :
  0 < address -> free m address = Ok m1 -> rtc mem_step m1 m2 ->
  forall address', 0 < address' -> block_of address' = block_of address ->
    (forall len, 0 < len -> exists e, read m2 address' len = Err e) /\
    (forall v, v <> [] -> exists e, write m2 address' v = Err e) /\
    (exists e, free m2 address' = Err e).
Proof.
  intros Ha Hf Hsteps address' Ha' Hblock.
  apply free_spec in Hf as (bs & Hbs & _ & Hlen & Hlive); [|lia..].
  destruct (allocation_live _ _ _ Hbs) as (H0 & f & Hlook). apply lookup_lt_Some in Hlook.
  assert (block_of address < Z.of_nat (length (allocations m1)) /\ live m1 (block_of address) = None) as Hdead.
  { rewrite Hlen, Hlive, Z.eqb_refl. split; [lia|done]. }
  assert (live m2 (block_of address) = None) as Hd2.
  { clear Hlive Hlen. induction Hsteps as [|m1 m' m2 Hs _ IH]; [apply Hdead|]. apply IH.
    destruct Hdead as [H1 H2]. by eapply step_dead. }
  rewrite <- Hblock in Hd2.
  assert (forall len r, 0 <= len -> locate m2 address' len <> Ok r) as Hno.
  { intros len [i o] Hl E. apply locate_spec in E as (bs' & E & _); [congruence|lia]. }
  split_and!.
  - intros len Hl. unfold read. destruct (Z.eqb_spec len 0); [lia|].
    destruct (locate m2 address' len) as [r|e] eqn:E; [by apply Hno in E; [|lia]|]. by eexists.
  - intros v Hv. unfold write. destruct v as [|x v]; [done|].
    destruct (locate m2 address' _) as [r|e] eqn:E; [by apply Hno in E; [|lia]|]. by eexists.
  - unfold free. destruct (Z.eqb_spec address' 0); [lia|].
    destruct (locate m2 address' 0) as [r|e] eqn:E; [by apply Hno in E; [|lia]|]. by eexists.
Qed.

(** What was written is read back, and nothing else changes: a read that does
    not overlap the written bytes sees what it saw before. *)
Theorem write_read m address v m' :
  0 <= address -> v <> [] -> write m address v = Ok m' ->
  read m' address (Z.of_nat (length v)) = Ok v /\
  forall address' len, 0 <= address' -> 0 < len ->
    block_of address' <> block_of address \/ offset_of address' + len <= offset_of address \/
      offset_of address + Z.of_nat (length v) <= offset_of address' ->
    read m' address' len = read m address' len.
Proof.
  intros Ha Hv Hw.
  assert (offset_of address + Z.of_nat (length v) <= u64_max) as Hu.
  { revert Hw. unfold write. destruct v as [|x v]; [done|]. destruct (locate m address _) as [[i o]|] eqn:E; [|done].
    intros _. by apply locate_spec in E as (_ & _ & _ & E & _); [|lia]. }
  apply write_spec in Hw as (bs & Hb & Hlen & Ho & Hall & Hlive); [|done..].
  split.
  - rewrite read_live, Hlive, Z.eqb_refl, put_bytes_length, Nat2Z.id by lia.
    destruct (Z.eqb_spec (Z.of_nat (length v)) 0); [by destruct v|].
    unfold check_u64, in_u64. destruct (Z.leb_spec 0 (offset_of address + Z.of_nat (length v))); [|lia].
    destruct (Z.leb_spec (offset_of address + Z.of_nat (length v)) u64_max); [|lia]. cbn [andb].
    destruct (Z.ltb_spec (Z.of_nat (length bs)) (offset_of address + Z.of_nat (length v))); [lia|].
    by rewrite sub_put_same by lia.
  - intros address' len Ha' Hl Hdis. rewrite !read_live, Hlive by done.
    destruct (Z.eqb_spec (block_of address') (block_of address)) as [E|]; [|done].
    rewrite E, Hb, put_bytes_length by lia. destruct (len =? 0); [done|].
    assert (0 <= offset_of address') by (apply Z.land_nonneg; lia).
    destruct (check_u64 _); [|done]. destruct (_ <? _); [done|]. f_equal. apply sub_put_other; lia.
Qed.

Definition ex_memory : Memory := (alloc 16 false (alloc 4 true Memory_default).2).2.
Definition ex_address : Z := 2 * 2 ^ 32.

Lemma freed_stays_freed_witness :
  exists m, free ex_memory ex_address = Ok m /\ exists e, read m (ex_address + 3) 1 = Err e.
Proof.
  destruct (free ex_memory ex_address) as [m|] eqn:E; [|vm_compute in E; discriminate E]. exists m. split; [done|].
  destruct (freed_stays_freed ex_memory ex_address m m ltac:(done) E (rtc_refl _ _) (ex_address + 3)) as [H _];
    [done|reflexivity|]. by apply H.
Defined.

Lemma write_read_witness :
  exists m, write ex_memory (ex_address + 2) [7; 8] = Ok m /\ read m (ex_address + 2) 2 = Ok [7; 8] /\
    read m (ex_address + 4) 4 = read ex_memory (ex_address + 4) 4.
Proof.
  destruct (write ex_memory (ex_address + 2) [7; 8]) as [m|] eqn:E; [|vm_compute in E; discriminate E]. exists m. split; [done|].
  destruct (write_read ex_memory (ex_address + 2) [7; 8] m ltac:(done) ltac:(done) E) as [H1 H2].
  split; [exact H1|]. apply H2; [done|done|]. right. right. vm_compute. discriminate.
Defined.
