(* ===== verification/Values.v ===== *)
(** Scalar values of compile-time evaluation: the byte representations and the
    arithmetic of [paco-comptime/src/machine.rs] ([int_value], [int_bytes],
    [float_value], [float_bytes], [unary], [binary], [int_binary], [shift],
    [cast]).

    A value is its little-endian bytes; an [i128] is a [Z].  Errors are given
    here without the span, which the machine adds from the running frame; the
    profile is that of the running body. *)
From S2P Require Import Prelude Span Types Bytes Floats Mir Memory.
From Stdlib Require Import Floats.SpecFloat.
Open Scope Z_scope.

(** [z as i128] of the low 128 bits. *)
Definition as_i128 (z : Z) : Z := let u := z mod 2 ^ 128 in if u <? 2 ^ 127 then u else u - 2 ^ 128.

(** Bytes copied to the front of a zeroed array of [n]. *)
Definition raw_value (n : nat) (bytes : list Z) : outcome Z :=
  if (length bytes <=? n)%nat then Ok (le_value bytes) else Err Panic.

Definition int_value (bytes : list Z) (w : IntWidth) : outcome Z :=
  match raw_value 8 bytes with
  | Err e => Err e
  | Ok bits =>
      let size := IntWidth.bytes w * 8 in
      Ok (if IntWidth.is_signed w then
            let shift := 64 - size in Z.shiftr (as_i64 (wrap 64 (Z.shiftl bits shift))) shift
          else if size =? 64 then bits else Z.land bits (Z.shiftl 1 size - 1))
  end.

(** The widths have at most eight bytes. *)
Definition int_bytes (value : Z) (bytes : Z) : list Z := take (Z.to_nat bytes) (le_bytes 8 (as_u64 value)).

Definition small_code (w : FloatWidth) : option Z :=
  match w with
  | F16 => Some 0
  | BF16 => Some 1
  | F8E4M3 => Some 2
  | F8E5M2 => Some 3
  | F32 | F64 => None
  end.

Definition FLOAT_CODE_F32 : Z := 4.
Definition FLOAT_CODE_F64 : Z := 5.

Definition format_code (w : FloatWidth) : Z :=
  match small_code w with
  | Some code => code
  | None => match w with F32 => FLOAT_CODE_F32 | _ => FLOAT_CODE_F64 end
  end.

Definition to_outcome {A} (o : option A) : outcome A := match o with Some a => Ok a | None => Err Panic end.

Definition float_value (bytes : list Z) (w : FloatWidth) : outcome f64 :=
  match w with
  | F64 => if (length bytes =? 8)%nat then Ok (from_bits prec emax (le_value bytes)) else Err Panic
  | F32 => if (length bytes =? 4)%nat then Ok (convert prec emax (from_bits 24 128 (le_value bytes))) else Err Panic
  | small =>
      match raw_value 4 bytes with
      | Err e => Err e
      | Ok bits => to_outcome (code ← small_code small; float_to_f64 bits code)
      end
  end.

Definition float_bytes (value : f64) (w : FloatWidth) : outcome (list Z) :=
  match w with
  | F64 => Ok (le_bytes 8 (to_bits prec emax value))
  | F32 => Ok (le_bytes 4 (to_bits 24 128 (convert 24 128 value)))
  | small =>
      to_outcome (code ← small_code small; bits ← float_from_f64 value code;
                  Some (take (Z.to_nat (FloatWidth.bytes small)) (le_bytes 4 bits)))
  end.

Definition flag (b : bool) : outcome (list Z) := Ok [if b then 1 else 0].
Definition fail_with {A} (m : string) : outcome A := Err (Fail (Error_new m)).

Definition out_of_range (w : IntWidth) (z : Z) : bool := (z <? (IntWidth.range w).1) || ((IntWidth.range w).2 <? z).

(** [Profile::Debug] *)
Definition is_debug (p : Profile) : bool := match p with Debug => true | Release => false end.

Definition shift (profile : Profile) (op : BinOp) (value amount : Z) (w : IntWidth) : outcome (list Z) :=
  let bits := IntWidth.bytes w * 8 in
  let left := match op with BShl => true | _ => false end in
  if is_debug profile && negb ((0 <=? amount) && (amount <? bits)) then
    fail_with (if left then "attempt to shift left with overflow" else "attempt to shift right with overflow")
  else
    let amount := Z.land amount (bits - 1) in
    let shifted := if left then as_i128 (Z.shiftl value amount) else Z.shiftr value amount in
    Ok (int_bytes shifted (IntWidth.bytes w)).

Definition int_binary (profile : Profile) (op : BinOp) (left right : Z) (w : IntWidth) : outcome (list Z) :=
  let n := IntWidth.bytes w in
  let min := (IntWidth.range w).1 in
  let checked result m := if is_debug profile && out_of_range w result then fail_with m else Ok (int_bytes result n) in
  match op with
  | BAdd => checked (left + right) "attempt to add with overflow"%string
  | BSub => checked (left - right) "attempt to subtract with overflow"%string
  | BMul => checked (as_i128 (left * right)) "attempt to multiply with overflow"%string
  | BDiv =>
      if right =? 0 then fail_with "division by zero"
      else if IntWidth.is_signed w && (left =? min) && (right =? -1) then fail_with "attempt to divide with overflow"
      else Ok (int_bytes (Z.quot left right) n)
  | BRem =>
      if right =? 0 then fail_with "remainder by zero"
      else if IntWidth.is_signed w && (right =? -1) then Ok (int_bytes 0 n)
      else Ok (int_bytes (Z.rem left right) n)
  | BEq => flag (left =? right)
  | BNe => flag (negb (left =? right))
  | BLt => flag (left <? right)
  | BLe => flag (left <=? right)
  | BGt => flag (right <? left)
  | BGe => flag (right <=? left)
  | BBitAnd => Ok (int_bytes (Z.land left right) n)
  | BBitOr => Ok (int_bytes (Z.lor left right) n)
  | BBitXor => Ok (int_bytes (Z.lxor left right) n)
  | BShl | BShr => shift profile op left right w
  | BWrappingAdd => Ok (int_bytes (left + right) n)
  | BWrappingSub => Ok (int_bytes (left - right) n)
  | BWrappingMul => Ok (int_bytes (as_i128 (left * right)) n)
  | BAddOverflows => flag (out_of_range w (left + right))
  | BSubOverflows => flag (out_of_range w (left - right))
  | BMulOverflows =>
      (* [checked_mul] is [None] when the product leaves [i128] *)
      flag (negb (as_i128 (left * right) =? left * right) || out_of_range w (left * right))
  | BAnd | BOr => fail_with "logical operator over int operands is not valid"
  end.

Definition min_bytes (len : nat) : IntWidth := match len with 1%nat => U8 | 2%nat => U16 | 4%nat => U32 | _ => U64 end.

Open Scope paco_scope.

Definition unary (profile : Profile) (op : UnOp) (value : list Z) (ty : Type_) : outcome (list Z) :=
  match op, ty with
  | UNot, _ => flag (forallb (Z.eqb 0) value)
  | UNeg, TyFloat ((F64 | F32) as w) => let? v := float_value value w in float_bytes (SFopp v) w
  | UNeg, TyFloat w =>
      let last := (Z.to_nat (FloatWidth.bytes w) - 1)%nat in
      match value !! last with
      | Some b => Ok (<[last := Z.lxor b 0x80]> value)
      | None => Err Panic
      end
  | UNeg, TyInt w =>
      let? operand := int_value value w in
      if is_debug profile && IntWidth.is_signed w && (operand =? (IntWidth.range w).1)
      then fail_with "attempt to negate with overflow"
      else Ok (int_bytes (- operand) (IntWidth.bytes w))
  | UBitNot, TyInt w => let? v := int_value value w in Ok (int_bytes (Z.lnot v) (IntWidth.bytes w))
  | UBitNot, _ => Ok (map (fun b => 255 - b) value)
  | UNeg, _ =>
      let operand := if (length value =? 8)%nat then as_i64 (le_value value) else 0 in
      if (length value <=? 8)%nat then Ok (int_bytes (- operand) (Z.of_nat (length value))) else Err Panic
  end.

(** [{op:?}] *)
Definition debug_op (op : BinOp) : string :=
  match op with
  | BAdd => "Add" | BSub => "Sub" | BMul => "Mul" | BDiv => "Div" | BRem => "Rem" | BEq => "Eq" | BNe => "Ne"
  | BLt => "Lt" | BLe => "Le" | BGt => "Gt" | BGe => "Ge" | BAnd => "And" | BOr => "Or" | BBitAnd => "BitAnd"
  | BBitOr => "BitOr" | BBitXor => "BitXor" | BShl => "Shl" | BShr => "Shr" | BWrappingAdd => "WrappingAdd"
  | BWrappingSub => "WrappingSub" | BWrappingMul => "WrappingMul" | BAddOverflows => "AddOverflows"
  | BSubOverflows => "SubOverflows" | BMulOverflows => "MulOverflows"
  end.

Definition f64_add (x y : f64) : f64 := SFadd prec emax x y.
Definition f64_sub (x y : f64) : f64 := SFsub prec emax x y.

(** The operation on [left as f32] and [right as f32], widened again. *)
Definition in_f32 (op : Z -> Z -> spec_float -> spec_float -> spec_float) (x y : f64) : f64 :=
  convert prec emax (op 24 128 (convert 24 128 x) (convert 24 128 y)).

Definition float_binary (op : BinOp) (left right : f64) (w : FloatWidth) : outcome (list Z) :=
  match op, w with
  | BAdd, F32 => float_bytes (in_f32 SFadd left right) w
  | BSub, F32 => float_bytes (in_f32 SFsub left right) w
  | BMul, F32 => float_bytes (in_f32 SFmul left right) w
  | BDiv, F32 => float_bytes (in_f32 SFdiv left right) w
  | BAdd, _ => float_bytes (f64_add left right) w
  | BSub, _ => float_bytes (f64_sub left right) w
  | BMul, _ => float_bytes (f64_mul left right) w
  | BDiv, _ => float_bytes (f64_div left right) w
  | BRem, _ => fail_with "float remainder is not supported"
  | BEq, _ => flag (SFeqb left right)
  | BNe, _ => flag (negb (SFeqb left right))
  | BLt, _ => flag (SFltb left right)
  | BLe, _ => flag (SFleb left right)
  | BGt, _ => flag (SFltb right left)
  | BGe, _ => flag (SFleb right left)
  | other, _ => fail_with ("operator `" +:+ debug_op other +:+ "` is not valid over float operands")
  end.

Definition bool_binary (op : BinOp) (left right : bool) : outcome (list Z) :=
  match op with
  | BAnd => flag (left && right)
  | BOr => flag (left || right)
  | BEq => flag (eqb left right)
  | BNe => flag (negb (eqb left right))
  | other => fail_with ("operator `" +:+ debug_op other +:+ "` is not valid over bool operands")
  end.

Definition char_binary (op : BinOp) (left right : Z) : outcome (list Z) :=
  match op with
  | BEq => flag (left =? right)
  | BNe => flag (negb (left =? right))
  | BLt => flag (left <? right)
  | BLe => flag (left <=? right)
  | BGt => flag (right <? left)
  | BGe => flag (right <=? left)
  | other => fail_with ("operator `" +:+ debug_op other +:+ "` is not valid over char operands")
  end.

(** [value[0] != 0] *)
Definition truth (value : list Z) : outcome bool :=
  match value with b :: _ => Ok (negb (b =? 0)) | [] => Err Panic end.

Definition binary (profile : Profile) (op : BinOp) (left right : list Z) (ty : Type_) : outcome (list Z) :=
  match ty with
  | TyFloat w => let? l := float_value left w in let? r := float_value right w in float_binary op l r w
  | TyBool => let? l := truth left in let? r := truth right in bool_binary op l r
  | TyChar => let? l := int_value left U32 in let? r := int_value right U32 in char_binary op l r
  | TyInt w => let? l := int_value left w in let? r := int_value right w in int_binary profile op l r w
  | _ =>
      let w := min_bytes (length left) in
      let? l := int_value left w in let? r := int_value right w in int_binary profile op l r w
  end.

(** [x.trunc() as i128], saturating; [0] for a NaN. *)
Definition trunc_as_i128 (x : f64) : Z :=
  let sat z := Z.max (- 2 ^ 127) (Z.min z (2 ^ 127 - 1)) in
  match x with
  | S754_zero _ | S754_nan => 0
  | S754_infinity s => if s then - 2 ^ 127 else 2 ^ 127 - 1
  | S754_finite s m e =>
      let magnitude := if 0 <=? e then Zpos m * 2 ^ e else Zpos m / 2 ^ (- e) in
      sat (if s then - magnitude else magnitude)
  end.

(** [z as f64] *)
Definition f64_of_int (z : Z) : f64 := binary_normalize prec emax z 0 false.

Definition signed_ty (ty : Type_) : bool := match ty with TyInt w => IntWidth.is_signed w | _ => false end.
Definition width_of (ty : Type_) (len : nat) : IntWidth :=
  match ty with TyInt w => w | TyChar => U32 | TyBool => U8 | _ => min_bytes len end.
Definition target_bytes (ty : Type_) : Z :=
  match ty with TyInt w => IntWidth.bytes w | TyChar => 4 | TyBool => 1 | TyFloat w => FloatWidth.bytes w | _ => 8 end.

Definition clamp (lo hi z : Z) : Z := Z.max lo (Z.min hi z).

Definition cast (value : list Z) (source target : Type_) : outcome (list Z) :=
  match source, target with
  | TyFloat from, TyFloat to =>
      if bool_decide (from = to) then Ok value else let? v := float_value value from in float_bytes v to
  | TyFloat from, _ =>
      let? wide := float_value value from in
      let range := IntWidth.range (width_of target (Z.to_nat (target_bytes target))) in
      let result :=
        if is_nan wide then 0
        else if signed_ty target then clamp range.1 range.2 (trunc_as_i128 wide)
        else clamp range.1 range.2 (Z.max 0 (trunc_as_i128 wide)) in
      Ok (int_bytes result (target_bytes target))
  | _, TyFloat to =>
      let? int := int_value value (width_of source (length value)) in
      float_bytes (f64_of_int (if signed_ty source then as_i64 int else as_u64 int)) to
  | _, _ =>
      let? int := (if signed_ty source then int_value value (width_of source (length value))
              else int_value value (min_bytes (length value))) in
      Ok (int_bytes int (target_bytes target))
  end.

(** ** Round trips *)

(** The value of the width congruent to [z]: what the type checker's
    [IntWidth::wrap] computes. *)
Definition canon (w : IntWidth) (z : Z) : Z := IntWidth.to_i128 w (IntWidth.wrap w z).

Lemma canon_value w z :
  canon w z =
    let n := IntWidth.bytes w * 8 in
    let low := z mod 2 ^ n in
    if IntWidth.is_signed w && negb (low <? 2 ^ (n - 1)) then low - 2 ^ n else low.
Proof. apply IntWidth.wrap_value. Qed.

Lemma canon_id w z : IntWidth.in_range w z -> canon w z = z.
Proof. rewrite canon_value. unfold IntWidth.in_range. destruct w; cbn -[Z.modulo]; intros; repeat case_match; divs. Qed.

Lemma canon_in_range w z : IntWidth.in_range w (canon w z).
Proof. rewrite canon_value. unfold IntWidth.in_range. destruct w; cbn -[Z.modulo]; repeat case_match; divs. Qed.

Lemma canon_mod w y z : y mod 2 ^ (IntWidth.bytes w * 8) = z mod 2 ^ (IntWidth.bytes w * 8) -> canon w y = canon w z.
Proof. intros H. rewrite !canon_value. cbv zeta. by rewrite H. Qed.

Lemma mod_mod_pow z a b : 0 <= a <= b -> (z mod 2 ^ b) mod 2 ^ a = z mod 2 ^ a.
Proof.
  intros H. rewrite <- Znumtheory.Zmod_div_mod; [done|apply Z.pow_pos_nonneg; lia..|].
  exists (2 ^ (b - a)). rewrite <- Z.pow_add_r by lia. f_equal. lia.
Qed.

Lemma width_bits w : 8 <= IntWidth.bytes w * 8 <= 64.
Proof. destruct w; simpl; lia. Qed.

Lemma as_i128_mod z n : 0 <= n <= 128 -> as_i128 z mod 2 ^ n = z mod 2 ^ n.
Proof.
  intros Hn. rewrite <- (mod_mod_pow z n 128) by lia. unfold as_i128. cbv zeta. destruct (_ <? _); [done|].
  replace (z mod 2 ^ 128 - 2 ^ 128) with (z mod 2 ^ 128 + (- 2 ^ (128 - n)) * 2 ^ n).
  - rewrite Z.mod_add; [done|]. apply Z.pow_nonzero; lia.
  - rewrite Z.mul_opp_l, <- Z.pow_add_r by lia. replace (128 - n + n) with 128 by lia. lia.
Qed.

Lemma as_i128_id z : - 2 ^ 127 <= z < 2 ^ 127 -> as_i128 z = z.
Proof. intros H. unfold as_i128. cbv zeta. destruct (Z.ltb_spec (z mod 2 ^ 128) (2 ^ 127)); divs. Qed.

Lemma canon_i128 w z : canon w (as_i128 z) = canon w z.
Proof. apply canon_mod. pose proof (width_bits w). apply as_i128_mod. lia. Qed.

Lemma take_le_bytes k n v : (k <= n)%nat -> take k (le_bytes n v) = le_bytes k v.
Proof.
  revert n v. induction k as [|k IH]; intros [|n] v H; simpl; try done; [lia|]. f_equal. apply IH. lia.
Qed.

Lemma int_bytes_eq v w : int_bytes v (IntWidth.bytes w) = le_bytes (Z.to_nat (IntWidth.bytes w)) v.
Proof.
  unfold int_bytes. rewrite take_le_bytes by (destruct w; simpl; lia). apply le_bytes_mod.
  unfold as_u64. change 256 with (2 ^ 8). rewrite <- Z.pow_mul_r by lia. apply mod_mod_pow. destruct w; simpl; lia.
Qed.

(** The sign extension of the low bits. *)
Lemma sign_extend (low n : Z) :
  8 <= n <= 64 -> 0 <= low < 2 ^ n ->
  Z.shiftr (as_i64 (wrap 64 (Z.shiftl low (64 - n)))) (64 - n) = if low <? 2 ^ (n - 1) then low else low - 2 ^ n.
Proof.
  intros Hn Hl. rewrite Z.shiftl_mul_pow2, Z.shiftr_div_pow2 by lia. unfold wrap.
  assert (2 ^ 64 = 2 ^ n * 2 ^ (64 - n)) as E by (rewrite <- Z.pow_add_r by lia; f_equal; lia).
  assert (2 ^ 63 = 2 ^ (n - 1) * 2 ^ (64 - n)) as E' by (rewrite <- Z.pow_add_r by lia; f_equal; lia).
  assert (0 < 2 ^ (64 - n)) by (apply Z.pow_pos_nonneg; lia).
  unfold as_i64. cbv zeta. rewrite Z.mod_mod, Z.mod_small by nia.
  destruct (Z.ltb_spec (low * 2 ^ (64 - n)) (2 ^ 63)), (Z.ltb_spec low (2 ^ (n - 1))); try nia.
  - by rewrite Z.div_mul by lia.
  - rewrite E. replace (low * 2 ^ (64 - n) - 2 ^ n * 2 ^ (64 - n)) with ((low - 2 ^ n) * 2 ^ (64 - n)) by lia.
    by rewrite Z.div_mul by lia.
Qed.

Lemma int_value_le w k v :
  k = Z.to_nat (IntWidth.bytes w) -> int_value (le_bytes k v) w = Ok (canon w v).
Proof.
  intros ->. unfold int_value, raw_value. rewrite le_bytes_length.
  destruct (Nat.leb_spec (Z.to_nat (IntWidth.bytes w)) 8); [|destruct w; simpl in *; lia].
  rewrite le_value_bytes, canon_value. pose proof (width_bits w) as Hw. cbv zeta.
  change 256 with (2 ^ 8). rewrite <- Z.pow_mul_r by lia.
  replace (8 * Z.of_nat (Z.to_nat (IntWidth.bytes w))) with (IntWidth.bytes w * 8) by lia.
  set (n := IntWidth.bytes w * 8) in *. set (low := v mod 2 ^ n).
  assert (0 <= low < 2 ^ n) by (apply Z.mod_pos_bound, Z.pow_pos_nonneg; lia).
  destruct (IntWidth.is_signed w); cbn [andb]; f_equal.
  - rewrite sign_extend by lia. by destruct (low <? 2 ^ (n - 1)).
  - destruct (n =? 64); [done|]. rewrite Z.shiftl_1_l, land_low by lia. apply Z.mod_small. done.
Qed.

Lemma int_value_bytes w v : int_value (int_bytes v (IntWidth.bytes w)) w = Ok (canon w v).
Proof. rewrite int_bytes_eq. by apply int_value_le. Qed.

(** ** Arithmetic *)

Inductive IntResult := RNum (z : Z) | RFlag (b : bool).

Definition is_flag_op (op : BinOp) : bool :=
  match op with
  | BEq | BNe | BLt | BLe | BGt | BGe | BAddOverflows | BSubOverflows | BMulOverflows => true
  | _ => false
  end.

(** What the bytes of a result mean. *)
Definition read_result (op : BinOp) (w : IntWidth) (v : list Z) : outcome IntResult :=
  if is_flag_op op then let? b := truth v in Ok (RFlag b) else let? z := int_value v w in Ok (RNum z).

Definition in_rangeb (w : IntWidth) (z : Z) : bool := negb (out_of_range w z).

(** The exact result, or the overflow behaviour of the profile. *)
Definition arith_spec (profile : Profile) (w : IntWidth) (exact : Z) (m : string) : outcome IntResult :=
  if in_rangeb w exact then Ok (RNum exact)
  else if is_debug profile then fail_with m else Ok (RNum (canon w exact)).

(** Integer arithmetic of the language: unbounded integers, with overflow
    reported in debug and wrapped in release. *)
Definition int_spec (profile : Profile) (op : BinOp) (l r : Z) (w : IntWidth) : outcome IntResult :=
  let bits := IntWidth.bytes w * 8 in
  match op with
  | BAdd => arith_spec profile w (l + r) "attempt to add with overflow"
  | BSub => arith_spec profile w (l - r) "attempt to subtract with overflow"
  | BMul => arith_spec profile w (l * r) "attempt to multiply with overflow"
  | BDiv =>
      if r =? 0 then fail_with "division by zero"
      else if in_rangeb w (Z.quot l r) then Ok (RNum (Z.quot l r)) else fail_with "attempt to divide with overflow"
  | BRem => if r =? 0 then fail_with "remainder by zero" else Ok (RNum (Z.rem l r))
  | BEq => Ok (RFlag (l =? r))
  | BNe => Ok (RFlag (negb (l =? r)))
  | BLt => Ok (RFlag (l <? r))
  | BLe => Ok (RFlag (l <=? r))
  | BGt => Ok (RFlag (r <? l))
  | BGe => Ok (RFlag (r <=? l))
  | BBitAnd => Ok (RNum (Z.land l r))
  | BBitOr => Ok (RNum (Z.lor l r))
  | BBitXor => Ok (RNum (Z.lxor l r))
  | BShl =>
      if is_debug profile && negb ((0 <=? r) && (r <? bits)) then fail_with "attempt to shift left with overflow"
      else Ok (RNum (canon w (l * 2 ^ (r mod bits))))
  | BShr =>
      if is_debug profile && negb ((0 <=? r) && (r <? bits)) then fail_with "attempt to shift right with overflow"
      else Ok (RNum (l / 2 ^ (r mod bits)))
  | BWrappingAdd => Ok (RNum (canon w (l + r)))
  | BWrappingSub => Ok (RNum (canon w (l - r)))
  | BWrappingMul => Ok (RNum (canon w (l * r)))
  | BAddOverflows => Ok (RFlag (negb (in_rangeb w (l + r))))
  | BSubOverflows => Ok (RFlag (negb (in_rangeb w (l - r))))
  | BMulOverflows => Ok (RFlag (negb (in_rangeb w (l * r))))
  | BAnd | BOr => fail_with "logical operator over int operands is not valid"
  end.

Lemma in_rangeb_spec w z : in_rangeb w z = true <-> IntWidth.in_range w z.
Proof. unfold in_rangeb, out_of_range, IntWidth.in_range. lia. Qed.

Lemma range_eq w :
  IntWidth.range w = (let n := IntWidth.bytes w * 8 in
    if IntWidth.is_signed w then (- 2 ^ (n - 1), 2 ^ (n - 1) - 1) else (0, 2 ^ n - 1)).
Proof. by destruct w. Qed.

(** *** Bit operations stay in range *)

Lemma shiftr_small k z : 0 <= k -> - 2 ^ k <= z < 2 ^ k <-> Z.shiftr z k = 0 \/ Z.shiftr z k = -1.
Proof.
  intros Hk. rewrite Z.shiftr_div_pow2 by done. assert (0 < 2 ^ k) by (apply Z.pow_pos_nonneg; lia).
  pose proof (Z.div_mod z (2 ^ k) ltac:(lia)). pose proof (Z.mod_pos_bound z (2 ^ k) ltac:(lia)).
  split; [|nia]. intros Hz. assert (-1 <= z / 2 ^ k <= 0) by nia. lia.
Qed.

Lemma bit_op_in_range (f : Z -> Z -> Z) w l r :
  (forall a b k, Z.shiftr (f a b) k = f (Z.shiftr a k) (Z.shiftr b k)) ->
  (forall a b, a = 0 \/ a = -1 -> b = 0 \/ b = -1 -> f a b = 0 \/ f a b = -1) ->
  (forall a b, 0 <= a -> 0 <= b -> 0 <= f a b) ->
  IntWidth.in_range w l -> IntWidth.in_range w r -> IntWidth.in_range w (f l r).
Proof.
  intros Hs H01 Hpos. unfold IntWidth.in_range. rewrite range_eq. cbv zeta. pose proof (width_bits w) as Hw.
  set (n := IntWidth.bytes w * 8) in *.
  assert (forall k, 0 <= k -> - 2 ^ k <= l < 2 ^ k -> - 2 ^ k <= r < 2 ^ k -> - 2 ^ k <= f l r < 2 ^ k) as H.
  { intros k Hk. rewrite !shiftr_small by done. rewrite Hs. intros Hl Hr.
    by apply H01. }
  destruct (IntWidth.is_signed w); cbn [fst snd]; intros Hl Hr.
  - specialize (H (n - 1) ltac:(lia)). lia.
  - specialize (H n ltac:(lia)). specialize (Hpos l r). lia.
Qed.

(** *** Products *)

Lemma product_i128 w l r :
  IntWidth.in_range w l -> IntWidth.in_range w r ->
  out_of_range w (as_i128 (l * r)) = out_of_range w (l * r) /\
  negb (as_i128 (l * r) =? l * r) || out_of_range w (l * r) = out_of_range w (l * r) /\
  (in_rangeb w (l * r) = true -> as_i128 (l * r) = l * r).
Proof.
  unfold in_rangeb, out_of_range, IntWidth.in_range. rewrite range_eq. cbv zeta. pose proof (width_bits w) as Hw.
  set (n := IntWidth.bytes w * 8) in *.
  assert (2 ^ n <= 2 ^ 64 /\ 2 ^ (n - 1) <= 2 ^ 63) as [Hn Hn1] by (split; apply Z.pow_le_mono_r; lia).
  assert (- 2 ^ 127 <= l * r < 2 ^ 127 -> as_i128 (l * r) = l * r) as Hid.
  { apply as_i128_id. }
  destruct (IntWidth.is_signed w); cbn [fst snd]; intros Hl Hr.
  - rewrite Hid by nia. split_and!; try done. by rewrite Z.eqb_refl.
  - assert (0 <= l * r < 2 ^ 128) as Hp by nia.
    destruct (Z.ltb_spec (l * r) (2 ^ 127)).
    + rewrite Hid by lia. split_and!; try done. by rewrite Z.eqb_refl.
    + assert (as_i128 (l * r) = l * r - 2 ^ 128) as ->.
      { unfold as_i128. cbv zeta. rewrite Z.mod_small by lia. destruct (Z.ltb_spec (l * r) (2 ^ 127)); [lia|done]. }
      split_and!; lia.
Qed.

(** *** Division *)

Lemma quot_in_range w l r :
  IntWidth.in_range w l -> IntWidth.in_range w r -> r <> 0 ->
  in_rangeb w (Z.quot l r) = negb (IntWidth.is_signed w && (l =? (IntWidth.range w).1) && (r =? -1)).
Proof.
  unfold in_rangeb, out_of_range, IntWidth.in_range. rewrite range_eq. cbv zeta. pose proof (width_bits w) as Hw.
  set (n := IntWidth.bytes w * 8) in *. assert (0 < 2 ^ (n - 1)) by (apply Z.pow_pos_nonneg; lia).
  pose proof (Z.quot_rem' l r) as Hqr. pose proof (Z.rem_bound_abs l r) as Hb.
  destruct (IntWidth.is_signed w); cbn [fst snd andb]; intros Hl Hr Hr0.
  - destruct (Z.eqb_spec r (-1)) as [->|].
    + change (-1) with (- (1)). rewrite (Z.quot_opp_r l 1), Z.quot_1_r by lia. destruct (Z.eqb_spec l (- 2 ^ (n - 1))); lia.
    + rewrite andb_false_r. assert (Z.abs (Z.quot l r) <= Z.abs l) as Hq.
      { rewrite <- Z.quot_abs by lia. apply Z.quot_le_upper_bound; nia. }
      destruct (decide (r = 1)) as [->|]; [rewrite Z.quot_1_r; lia|].
      assert (2 * Z.abs (Z.quot l r) <= Z.abs l); [|lia].
      rewrite <- Z.quot_abs by lia. pose proof (Z.mul_quot_le (Z.abs l) (Z.abs r) ltac:(lia) ltac:(lia)).
      pose proof (Z.quot_pos (Z.abs l) (Z.abs r) ltac:(lia) ltac:(lia)). nia.
  - pose proof (Z.quot_pos l r ltac:(lia) ltac:(lia)). pose proof (Z.quot_le_upper_bound l r l ltac:(lia)). nia.
Qed.

Lemma rem_in_range w l r :
  IntWidth.in_range w l -> IntWidth.in_range w r -> r <> 0 -> IntWidth.in_range w (Z.rem l r).
Proof.
  unfold IntWidth.in_range. rewrite range_eq. cbv zeta. intros Hl Hr Hr0.
  pose proof (Z.rem_bound_abs l r Hr0) as Hb. pose proof (Z.rem_sign_nz l r Hr0) as Hsg.
  destruct (IntWidth.is_signed w); cbn [fst snd] in *; [lia|]. pose proof (Z.rem_nonneg l r Hr0). lia.
Qed.

(** The result of the machine's bytes is the number, when it is in range. *)
Lemma num_result w z : (let? v := int_value (int_bytes z (IntWidth.bytes w)) w in Ok (RNum v)) = Ok (RNum (canon w z)).
Proof. by rewrite int_value_bytes. Qed.

Lemma land_bits w r : Z.land r (IntWidth.bytes w * 8 - 1) = r mod (IntWidth.bytes w * 8).
Proof. destruct w; simpl; first [apply (land_low 3)|apply (land_low 4)|apply (land_low 5)|apply (land_low 6)]; lia. Qed.

Lemma flag_result (b : bool) : (let? f := truth [if b then 1 else 0] in Ok (RFlag f)) = Ok (RFlag b).
Proof. by destruct b. Qed.

Lemma checked_result profile w exact z m :
  out_of_range w z = out_of_range w exact -> canon w z = canon w exact ->
  (let? v := (if is_debug profile && out_of_range w z then fail_with m else Ok (int_bytes z (IntWidth.bytes w)))
   in let? x := int_value v w in Ok (RNum x)) = arith_spec profile w exact m.
Proof.
  intros Ho Hc. unfold arith_spec, in_rangeb. rewrite Ho.
  destruct (out_of_range w exact) eqn:E; cbn [negb andb].
  - destruct (is_debug profile); cbn [andb result_bind fail_with]; [done|]. by rewrite num_result, Hc.
  - rewrite andb_false_r. cbn [result_bind]. rewrite num_result, Hc, canon_id; [done|].
    apply in_rangeb_spec. unfold in_rangeb. by rewrite E.
Qed.

Lemma shift_result profile op l r w :
  IntWidth.in_range w l -> op = BShl \/ op = BShr ->
  (let? v := shift profile op l r w in let? x := int_value v w in Ok (RNum x)) = int_spec profile op l r w.
Proof.
  intros Hl Hop. pose proof (width_bits w) as Hw. unfold shift. cbv zeta. rewrite land_bits.
  pose proof (Z.mod_pos_bound r (IntWidth.bytes w * 8) ltac:(lia)).
  destruct Hop as [-> | ->]; cbn [int_spec]; cbv zeta;
    destruct (is_debug profile && _); cbn [result_bind fail_with]; try done; rewrite num_result; do 2 f_equal.
  - by rewrite canon_i128, Z.shiftl_mul_pow2 by lia.
  - rewrite Z.shiftr_div_pow2 by lia. apply canon_id. revert Hl. unfold IntWidth.in_range. rewrite range_eq. cbv zeta.
    set (n := IntWidth.bytes w * 8) in *. set (k := r mod n) in *.
    assert (0 < 2 ^ k) by (apply Z.pow_pos_nonneg; lia). assert (0 < 2 ^ (n - 1)) by (apply Z.pow_pos_nonneg; lia).
    pose proof (Z.div_mod l (2 ^ k) ltac:(lia)). pose proof (Z.mod_pos_bound l (2 ^ k) ltac:(lia)).
    destruct (IntWidth.is_signed w); cbn [fst snd]; intros; split; nia.
Qed.

(** C20: On operands of the width, the machine's integer operators compute the
    arithmetic of the language: exact results where they are representable,
    overflow reported in debug and wrapped in release, division by zero and
    the overflowing division reported in both, two's complement bit
    operations, and overflow tests that are exact. *)
Theorem int_binary_correct profile op l r w :
  IntWidth.in_range w l -> IntWidth.in_range w r ->
  (let? v := int_binary profile op l r w in read_result op w v) = int_spec profile op l r w.
Proof.
  intros Hl Hr. pose proof (product_i128 w l r Hl Hr) as (Hm1 & Hm2 & _).
  destruct op; unfold int_binary, read_result; cbv zeta; cbn [is_flag_op];
    try (apply shift_result; auto; fail);
    try (apply checked_result; [done|by rewrite ?canon_i128]; fail);
    try (unfold flag; cbn [result_bind]; rewrite ?Hm2, flag_result; cbn [int_spec]; unfold in_rangeb; by rewrite ?negb_involutive);
    try (cbn [result_bind]; rewrite num_result, ?canon_i128; done); try done.
  - cbn [int_spec]. destruct (Z.eqb_spec r 0); [done|]. rewrite quot_in_range by done.
    destruct (IntWidth.is_signed w && _ && _) eqn:E; cbn [negb result_bind fail_with]; [done|].
    rewrite num_result, canon_id; [done|]. apply in_rangeb_spec. rewrite quot_in_range by done. by rewrite E.
  - cbn [int_spec]. destruct (Z.eqb_spec r 0); [done|].
    destruct (IntWidth.is_signed w && (r =? -1)) eqn:E; cbn [result_bind]; rewrite num_result.
    + apply andb_prop in E as [Es E]. apply Z.eqb_eq in E as ->.
      assert (Z.rem l (-1) = 0) as -> by (change (-1) with (- (1)); rewrite Z.rem_opp_r, Z.rem_1_r; lia).
      rewrite canon_id; [done|]. unfold IntWidth.in_range. destruct w; cbn; lia.
    + rewrite canon_id; [done|]. by apply rem_in_range.
  - cbn [result_bind int_spec]. rewrite num_result, canon_id; [done|].
    apply bit_op_in_range; try done; [apply Z.shiftr_land|intros ? ? [-> | ->] [-> | ->]; auto|intros; apply Z.land_nonneg; auto].
  - cbn [result_bind int_spec]. rewrite num_result, canon_id; [done|].
    apply bit_op_in_range; try done; [apply Z.shiftr_lor|intros ? ? [-> | ->] [-> | ->]; auto|intros; apply Z.lor_nonneg; auto].
  - cbn [result_bind int_spec]. rewrite num_result, canon_id; [done|].
    apply bit_op_in_range; try done; [apply Z.shiftr_lxor|intros ? ? [-> | ->] [-> | ->]; auto|intros; apply Z.lxor_nonneg; tauto].
Qed.

Lemma int_binary_correct_witness :
  (let? v := int_binary Debug BMul (2 ^ 63) 2 U64 in read_result BMul U64 v) = fail_with "attempt to multiply with overflow" /\
  (let? v := int_binary Release BMul (2 ^ 63 + 1) 2 U64 in read_result BMul U64 v) = Ok (RNum 2).
Proof.
  split.
  - rewrite int_binary_correct; [vm_compute; reflexivity|split; vm_compute; discriminate..].
  - rewrite int_binary_correct; [vm_compute; reflexivity|split; vm_compute; discriminate..].
Defined.

(** [as] between integer types: the value of the target congruent to the
    operand's, whatever the two widths and signs. *)
Theorem cast_int_correct v source target :
  IntWidth.in_range source v ->
  exists b, cast (int_bytes v (IntWidth.bytes source)) (TyInt source) (TyInt target) = Ok b /\
    int_value b target = Ok (canon target v).
Proof.
  intros Hv. exists (int_bytes v (IntWidth.bytes target)). split; [|apply int_value_bytes].
  unfold cast. cbn [signed_ty width_of target_bytes].
  assert ((if IntWidth.is_signed source
           then int_value (int_bytes v (IntWidth.bytes source)) source
           else int_value (int_bytes v (IntWidth.bytes source)) (min_bytes (length (int_bytes v (IntWidth.bytes source)))))
          = Ok v) as ->; [|done].
  rewrite int_bytes_eq, le_bytes_length. destruct (IntWidth.is_signed source) eqn:E.
  - rewrite int_value_le by done. by rewrite canon_id.
  - assert (min_bytes (Z.to_nat (IntWidth.bytes source)) = source) as -> by (by destruct source).
    rewrite int_value_le by done. by rewrite canon_id.
Qed.

Lemma cast_int_correct_witness :
  exists b, cast (int_bytes (-1) 1) (TyInt I8) (TyInt U32) = Ok b /\ int_value b U32 = Ok (2 ^ 32 - 1).
Proof. destruct (cast_int_correct (-1) I8 U32) as (b & H1 & H2); [split; vm_compute; discriminate|]. by exists b. Defined.
