(* ===== verification/ParseBase.v ===== *)
(** The parser's state and leaves: [compiler/paco-syntax/src/parse.rs].

    The [Parser] record is the struct of the source.  A method is a state
    transformer with four outcomes: it returns, it returns [Err(ParseError)],
    it panics (an index past the tokens), or the fuel of the model runs out;
    the theorems of [ParseTotal] show that the last two do not happen.
    Below: the token primitives, the error reports, the values of literals,
    the spans of nodes and the loops that [for] is rewritten to. *)
From Stdlib Require Import SpecFloat.
From S2P Require Import Prelude Floats Span Diag Lex Ast.
Open Scope nat_scope.

(** The bytes of a text, as the names of the tree hold them. *)
Definition to_string (s : str) : string := string_of_bytes (concat (map utf8_bytes s)).

Record Parser := mkParser {
  tokens : list Token; reporter : Reporter; current : nat;
  allow_struct_literals : bool; allow_existentials : bool }.

Inductive Outcome (A : Type) : Type :=
| Done (a : A) (p : Parser)
| Failed (p : Parser)
| Panicked
| OutOfFuel.
Arguments Done {A} a p.
Arguments Failed {A} p.
Arguments Panicked {A}.
Arguments OutOfFuel {A}.

Definition M (A : Type) : Type := Parser -> Outcome A.

Definition ret {A} (a : A) : M A := fun p => Done a p.
(** [Err(ParseError)] *)
Definition fail {A} : M A := fun p => Failed p.
Definition out_of_fuel {A} : M A := fun _ => OutOfFuel.

(** Sequencing; [?] hands an [Err] on. *)
Definition bind {A B} (m : M A) (k : A -> M B) : M B :=
  fun p =>
    match m p with
    | Done a p' => k a p'
    | Failed p' => Failed p'
    | Panicked => Panicked
    | OutOfFuel => OutOfFuel
    end.

Declare Scope parse_scope.
Delimit Scope parse_scope with parse.
Notation "'let!' x := m 'in' k" := (bind m (fun x => k))
  (at level 10, x pattern, m at level 100, k at level 200) : parse_scope.
Notation "'do!' m 'in' k" := (bind m (fun _ => k))
  (at level 10, m at level 100, k at level 200) : parse_scope.
Open Scope parse_scope.

(** [if c { Some(m?) } else { None }] *)
Definition opt_if {A} (c : bool) (m : M A) : M (option A) :=
  if c then let! a := m in ret (Some a) else ret None.

(** ** Loops

    A loop takes one unit of fuel per round; [loop] gives it one more than
    there are tokens. *)
Fixpoint rounds {St A} (n : nat) (body : St -> M (St + A)) (s : St) : M A :=
  match n with
  | 0 => out_of_fuel
  | S n =>
      let! r := body s in
      match r with
      | inl s' => rounds n body s'
      | inr a => ret a
      end
  end.

Definition loop {St A} (body : St -> M (St + A)) (s : St) : M A :=
  fun p => rounds (S (length (tokens p))) body s p.

(** ** Tokens *)

Definition at_index (i : nat) : M Token :=
  fun p => match tokens p !! i with Some t => Done t p | None => Panicked end.

Definition peek : M Token := fun p => at_index (current p) p.
Definition peek_next : M (option Token) := fun p => Done (tokens p !! (current p + 1)) p.
(** [self.tokens.get(self.current + 2)] *)
Definition peek_second : M (option Token) := fun p => Done (tokens p !! (current p + 2)) p.
Definition previous : M Token := fun p => at_index (current p - 1) p.

Definition is_kind (t : Token) (k : TokenKind) : bool := bool_decide (kind t = k).
(** [next.is_some_and(|t| t.kind == k)] *)
Definition next_is (t : option Token) (k : TokenKind) : bool :=
  match t with Some t => is_kind t k | None => false end.

Definition check (k : TokenKind) : M bool := let! t := peek in ret (is_kind t k).

Definition set_current (i : nat) : M unit :=
  fun p => Done tt (mkParser (tokens p) (reporter p) i (allow_struct_literals p) (allow_existentials p)).

Definition get_current : M nat := fun p => Done (current p) p.

Definition advance : M Token :=
  let! at_eof := check Eof in
  do! (if at_eof then ret tt else let! i := get_current in set_current (i + 1)) in
  previous.

Definition matches (k : TokenKind) : M bool :=
  let! c := check k in
  if c then do! advance in ret true else ret false.

(** [self.check(a) || self.check(b) || ..] *)
Fixpoint check_any (ks : list TokenKind) : M bool :=
  match ks with
  | [] => ret false
  | k :: ks => let! c := check k in if c then ret true else check_any ks
  end.

(** ** Errors *)

Definition push_diag (d : Diagnostic) : M unit :=
  fun p => Done tt (mkParser (tokens p) (Reporter_push (reporter p) d) (current p) (allow_struct_literals p) (allow_existentials p)).

Definition error_here (code message : string) : M unit :=
  let! t := peek in push_diag (Diagnostic_error (chars code) (tok_span t) (chars message)).

Definition missing_separator (code separator message : string) : M unit :=
  let! prev := previous in
  let e := tok_span prev in
  let at_ := mkSpan (file_id e) (end_ e) (end_ e) in
  let! next := peek in
  push_diag
    (with_suggestion
       (with_secondary (Diagnostic_error (chars code) at_ (chars message)) (tok_span next)
          (chars (if bool_decide (separator = ";"%string) then "the next statement starts here" else "the next member starts here")))
       (mkSuggestion at_ (chars separator) (chars "insert `" ++ chars separator ++ chars "` here"))).

Definition consume (k : TokenKind) (message : string) : M Token :=
  let! c := check k in
  if c then advance else do! error_here "PACO-E0112" message in fail.

Definition consume_identifier (message : string) : M string :=
  let! t := consume Identifier message in ret (to_string (lexeme t)).

Definition expect_semicolon : M unit :=
  let! c := matches Semicolon in
  if c then ret tt else missing_separator "PACO-E0115" ";" "expected `;` after this statement".

(** [Span::new(self.previous().span.file_id(), start, self.previous().span.end())] *)
Definition span_since (start : nat) : M Span :=
  let! prev := previous in ret (mkSpan (file_id (tok_span prev)) start (end_ (tok_span prev))).

(** [while !self.check(Eof) && !matches!(self.peek().kind, ..) { self.advance(); }] *)
Definition skip_until (ks : list TokenKind) : M unit :=
  loop (fun _ : unit =>
    let! stop := check_any (Eof :: ks) in
    if stop then ret (inr tt) else do! advance in ret (inl tt)) tt.

Definition synchronize_item : M unit := skip_until [Fn; Struct; Enum; Methods; Use; Trait].
Definition synchronize_trait_member : M unit := skip_until [RightBrace; Fn; Type_; Const].

(** [loop { v.push(item()?); if !self.matches(sep) { break; } }] *)
Definition separated {A} (sep : TokenKind) (item : M A) : M (list A) :=
  loop (fun v =>
    let! a := item in
    let! more := matches sep in
    ret (if more then inl (v ++ [a]) else inr (v ++ [a]))) [].

(** [if !self.check(close) { loop { .. } }] *)
Definition separated_unless {A} (close sep : TokenKind) (item : M A) : M (list A) :=
  let! empty := check close in
  if empty then ret [] else separated sep item.

(** [while !self.check(close) { v.push(item()?); if !self.matches(Comma) { break; } }] *)
Definition comma_until {A} (close : TokenKind) (item : M A) : M (list A) :=
  loop (fun v =>
    let! stop := check close in
    if stop then ret (inr v)
    else
      let! a := item in
      let! more := matches Comma in
      ret (if more then inl (v ++ [a]) else inr (v ++ [a]))) [].

(** [while self.matches(sep) { v.push(item()?); }] *)
Definition while_matches {A} (sep : TokenKind) (item : M A) (v : list A) : M (list A) :=
  loop (fun v =>
    let! more := matches sep in
    if more then let! a := item in ret (inl (v ++ [a])) else ret (inr v)) v.

(** ** Values of literals *)

(** [source.strip_prefix(q).and_then(|s| s.strip_suffix(q)).unwrap_or(source)] *)
Definition strip_quotes (q : char) (source : str) : str :=
  match source with
  | c :: s => if (c =? q)%Z && ends_with s q then removelast s else source
  | [] => source
  end.

Definition decode_char (source : str) : char :=
  match strip_quotes 39%Z source with
  | [] => 0%Z
  | c :: rest =>
      if (c =? 92)%Z then
        match rest with
        | [] => 92%Z
        | e :: _ =>
            if (e =? ch "n")%Z then 10%Z
            else if (e =? ch "t")%Z then 9%Z
            else if (e =? ch "r")%Z then 13%Z
            else e
        end
      else c
  end.

Fixpoint decode_escapes (s : str) : str :=
  match s with
  | [] => []
  | c :: s =>
      if (c =? 92)%Z then
        match s with
        | [] => [92%Z]
        | e :: s =>
            (if (e =? ch "n")%Z then 10%Z
             else if (e =? ch "t")%Z then 9%Z
             else if (e =? ch "r")%Z then 13%Z
             else e) :: decode_escapes s
        end
      else c :: decode_escapes s
  end.

Definition decode_string (source : str) : str := decode_escapes (strip_quotes 34%Z source).

(** [lexeme.replace('_', "")] *)
Definition without_underscores (s : str) : str := List.filter (fun c => negb (c =? ch "_")%Z) s.

Definition digit_value (c : char) : Z :=
  if is_ascii_digit c then (c - 48)%Z else if (97 <=? c)%Z then (c - 87)%Z else (c - 55)%Z.

(** The digits of [i64::from_str_radix], each of them below the radix. *)
Fixpoint radix_digits (radix acc : Z) (s : str) : option Z :=
  match s with
  | [] => Some acc
  | c :: s => if is_digit radix c then radix_digits radix (acc * radix + digit_value c)%Z s else None
  end.

(** [i64::from_str_radix(s, radix).ok()]: an optional sign, at least one
    digit, a value in range. *)
Definition from_str_radix (s : str) (radix : Z) : option Z :=
  let '(sign, digits) :=
    match s with
    | c :: s' => if (c =? ch "-")%Z then ((-1)%Z, s') else if (c =? ch "+")%Z then (1%Z, s') else (1%Z, s)
    | [] => (1%Z, [])
    end in
  match digits with
  | [] => None
  | _ => v ← radix_digits radix 0 digits; check_i64 (sign * v)%Z
  end.

Definition parse_int_literal (lexeme : str) : Z :=
  let digits := without_underscores lexeme in
  default 0%Z
    match digits with
    | z :: x :: rest =>
        if (z =? ch "0")%Z then
          match radix_of_prefix (Some x) with
          | Some radix => from_str_radix rest radix
          | None => from_str_radix digits 10
          end
        else from_str_radix digits 10
    | _ => from_str_radix digits 10
    end.

(** The leading digits of a text: how many, their value, and what follows. *)
Fixpoint leading_digits (n : nat) (acc : Z) (s : str) : nat * Z * str :=
  match s with
  | c :: s' => if is_ascii_digit c then leading_digits (S n) (acc * 10 + (c - 48))%Z s' else (n, acc, s)
  | [] => (n, acc, s)
  end.

Definition to_ascii_lowercase (c : char) : char := (if (65 <=? c) && (c <=? 90) then c + 32 else c)%Z.

Definition split_sign (s : str) : bool * str :=
  match s with
  | c :: s' => if (c =? ch "-")%Z then (true, s') else if (c =? ch "+")%Z then (false, s') else (false, s)
  | [] => (false, [])
  end.

(** The [f64] nearest to [m * 10^e], ties to even. *)
Definition f64_of_decimal (m e : Z) : f64 :=
  match m with
  | Zpos m' =>
      if (0 <=? e)%Z then binary_normalize 53 1024 (m * 10 ^ e) 0 false
      else match (10 ^ (- e))%Z with
           | Zpos d => SFdiv 53 1024 (S754_finite false m' 0) (S754_finite false d 0)
           | _ => S754_nan
           end
  | _ => S754_zero false
  end.

(** The number part of [f64::from_str]: [None] is its error. *)
Definition parse_f64_number (s : str) : option f64 :=
  let '(n1, m, s) := leading_digits 0 0 s in
  let '(n2, m, s) :=
    match s with
    | c :: s' => if (c =? ch ".")%Z then leading_digits 0 m s' else (0, m, s)
    | [] => (0, m, s)
    end in
  if n1 + n2 =? 0 then None
  else
    match s with
    | [] => Some (f64_of_decimal m (- Z.of_nat n2))
    | c :: s' =>
        if (to_ascii_lowercase c =? ch "e")%Z then
          let '(neg, s') := split_sign s' in
          let '(n, e, rest) := leading_digits 0 0 s' in
          if (n =? 0) || negb (bool_decide (rest = [])) then None
          else Some (f64_of_decimal m ((if neg : bool then - e else e) - Z.of_nat n2))
        else None
    end.

(** [s.parse::<f64>()] as a bit pattern. *)
Definition parse_f64 (s : str) : option Z :=
  let '(neg, s) := split_sign s in
  let word := map to_ascii_lowercase s in
  let magnitude :=
    if bool_decide (word = chars "inf" \/ word = chars "infinity") then Some (S754_infinity false)
    else if bool_decide (word = chars "nan") then Some S754_nan
    else parse_f64_number s in
  v ← magnitude; Some (Z.lor (if neg : bool then 2 ^ 63 else 0) (to_bits 53 1024 v))%Z.

(** [lexeme.replace('_', "").parse().unwrap_or(0.0)] *)
Definition parse_float_literal (lexeme : str) : Z := default 0%Z (parse_f64 (without_underscores lexeme)).

(** [trim_start_matches('\'')] *)
Fixpoint trim_quotes (s : str) : str :=
  match s with
  | c :: s' => if (c =? 39)%Z then trim_quotes s' else s
  | [] => []
  end.

(** ** Spans of nodes *)

Definition block_span (b : Block) : Span := let 'mkBlock _ _ sp := b in sp.

Definition expr_span (e : Expr) : Span :=
  match e with
  | ELiteral _ sp | EIdent _ sp | EReturn _ sp | EBreak _ sp | EContinue sp | EUnsafe _ sp | EQuote _ sp
  | ESplice _ sp | EYield _ sp | ETuple _ sp => sp
  | EBlock b => block_span b
  | EIf _ _ _ sp | ELoop _ sp | EWhile _ _ sp | EMatch _ _ sp | ECall _ _ _ sp | EMethodCall _ _ _ sp
  | EAssociatedCall _ _ _ sp | EBinary _ _ _ sp | EUnary _ _ sp | EAssign _ _ sp | EField _ _ sp | EIndex _ _ sp
  | ESpawn _ sp | EClosure _ _ sp | ESelect _ _ sp | EComptime _ sp | EStructLiteral _ _ sp | EBorrow _ _ sp
  | ETry _ sp | ECast _ _ sp => sp
  end.

Definition pat_span (p : Pat) : Span :=
  match p with
  | PIdent _ sp | PWildcard sp | PLiteral _ sp | PTuple _ sp | PStruct _ _ _ sp | PEnum _ _ sp | PRange _ _ _ sp
  | POr _ sp | PBinding _ _ sp | PReference _ _ sp => sp
  end.

Definition ty_span (t : Ty) : Span :=
  match t with
  | TPath _ sp | TGeneric _ _ sp | TTuple _ sp | TSlice _ sp | TDyn _ sp | TFn _ _ _ _ sp | TInfer sp | TNever sp
  | TConst _ sp | TDynDim sp | TExpand _ sp | TExistential _ sp | TBorrow _ _ _ sp | TRawPointer _ _ sp
  | TSplice _ sp => sp
  end.

Definition join_expr_span (left right : Expr) (fallback : Span) : Span :=
  let l := expr_span left in
  let r := expr_span right in
  mkSpan (file_id l) (start l `min` start fallback) (end_ r `max` end_ fallback).

Definition is_block_like (e : Expr) : bool :=
  match e with
  | EBlock _ | EUnsafe _ _ | EIf _ _ _ _ | ELoop _ _ | EWhile _ _ _ | EMatch _ _ _ | ESelect _ _ _ | EComptime _ _ => true
  | _ => false
  end.

(** ** [for] and [if let] as other expressions *)

Definition empty_block_expr (sp : Span) : Expr := EBlock (mkBlock [] None sp).

Definition for_increment_expr (name : string) (name_span sp : Span) : Expr :=
  EAssign (EIdent name name_span) (EBinary Add (EIdent name name_span) (ELiteral (LInt 1) name_span) sp) sp.

Section RewriteContinue.
Context (increment : Expr).

Fixpoint rewrite_continue_in_block (b : Block) : Block :=
  let 'mkBlock stmts tail sp := b in
  mkBlock (map rewrite_continue_in_stmt stmts) (option_map rewrite_continue_in_expr tail) sp
with rewrite_continue_in_stmt (st : Stmt) : Stmt :=
  match st with
  | SExpr e => SExpr (rewrite_continue_in_expr e)
  | SLet (mkLetStmt m p ty value sp) => SLet (mkLetStmt m p ty (option_map rewrite_continue_in_expr value) sp)
  | SItem _ => st
  end
with rewrite_continue_in_expr (e : Expr) : Expr :=
  match e with
  | EContinue sp => EBlock (mkBlock [SExpr increment; SExpr (EContinue sp)] None sp)
  | EBlock b => EBlock (rewrite_continue_in_block b)
  | EUnsafe b sp => EUnsafe (rewrite_continue_in_block b) sp
  | EIf c then_branch else_branch sp =>
      EIf c (rewrite_continue_in_block then_branch) (option_map rewrite_continue_in_expr else_branch) sp
  | EMatch scrutinee arms sp =>
      EMatch scrutinee
        (map (fun arm => let 'mkMatchArm p g body asp := arm in mkMatchArm p g (rewrite_continue_in_expr body) asp) arms) sp
  | EAssign t value sp => EAssign t (rewrite_continue_in_expr value) sp
  | EReturn (Some value) sp => EReturn (Some (rewrite_continue_in_expr value)) sp
  | EBreak (Some value) sp => EBreak (Some (rewrite_continue_in_expr value)) sp
  | EYield value sp => EYield (rewrite_continue_in_expr value) sp
  | EBorrow m value sp => EBorrow m (rewrite_continue_in_expr value) sp
  | ECall callee tys args sp => ECall callee tys (map rewrite_continue_in_expr args) sp
  | EMethodCall r m args sp => EMethodCall r m (map rewrite_continue_in_expr args) sp
  | EAssociatedCall ty f args sp => EAssociatedCall ty f (map rewrite_continue_in_expr args) sp
  | ETuple args sp => ETuple (map rewrite_continue_in_expr args) sp
  | EStructLiteral ty fields sp => EStructLiteral ty (map (fun f => (f.1, rewrite_continue_in_expr f.2)) fields) sp
  | EBinary op l r sp => EBinary op (rewrite_continue_in_expr l) (rewrite_continue_in_expr r) sp
  | EIndex base index sp => EIndex (rewrite_continue_in_expr base) (map rewrite_continue_in_expr index) sp
  | EUnary op x sp => EUnary op (rewrite_continue_in_expr x) sp
  | EField base f sp => EField (rewrite_continue_in_expr base) f sp
  | ETry x sp => ETry (rewrite_continue_in_expr x) sp
  | ECast x ty sp => ECast (rewrite_continue_in_expr x) ty sp
  | ELoop _ _ | EWhile _ _ _ | ELiteral _ _ | EIdent _ _ | EReturn None _ | EBreak None _ | ESpawn _ _
  | EClosure _ _ _ | ESelect _ _ _ | EComptime _ _ | EQuote _ _ | ESplice _ _ => e
  end.
End RewriteContinue.

Definition prepend_statement (b : Block) (st : Stmt) : Block :=
  let 'mkBlock stmts tail sp := b in mkBlock (st :: stmts) tail sp.

Definition append_statement (b : Block) (st : Stmt) : Block :=
  let 'mkBlock stmts tail sp := b in
  match tail with
  | Some e => mkBlock (stmts ++ [SExpr e] ++ [st]) None sp
  | None => mkBlock (stmts ++ [st]) None sp
  end.

Definition for_range_expr (sp : Span) (name : string * Span) (range_start range_end : Expr) (inclusive : bool)
    (body : Block) : Expr :=
  let '(name, name_span) := name in
  let cursor_name := ("$paco_for_cursor_" ++ show_Z (Z.of_nat (start sp)))%string in
  let e := end_ (block_span body) in
  let full := mkSpan (file_id sp) (start sp) e in
  let condition :=
    EBinary (if inclusive then Le else Lt_) (EIdent cursor_name name_span) range_end
      (mkSpan (file_id sp) (start name_span) e) in
  let increment := for_increment_expr cursor_name name_span full in
  let body := rewrite_continue_in_block increment body in
  let body :=
    prepend_statement body
      (SLet (mkLetStmt false (PIdent name name_span) None (Some (EIdent cursor_name name_span)) full)) in
  let then_branch := append_statement body (SExpr increment) in
  let if_expr := EIf condition then_branch (Some (EBreak None (mkSpan (file_id sp) e e))) full in
  let loop_expr := ELoop (mkBlock [SExpr if_expr] None full) full in
  EBlock
    (mkBlock
       [SLet (mkLetStmt true (PIdent cursor_name name_span) None (Some range_start) full); SExpr loop_expr] None full).

Definition for_iter_expr (sp : Span) (name : string * Span) (iterable : Expr) (body : Block) : Expr :=
  let '(name, name_span) := name in
  let cursor_name := ("$paco_for_iter_" ++ show_Z (Z.of_nat (start sp)))%string in
  let full := mkSpan (file_id sp) (start sp) (end_ (block_span body)) in
  let next_call := EMethodCall (EIdent cursor_name name_span) "next" [] full in
  let some_arm := mkMatchArm (PEnum ["Option"; "Some"]%string [PIdent name name_span] name_span) None (EBlock body) full in
  let none_arm := mkMatchArm (PEnum ["Option"; "None"]%string [] full) None (EBreak None full) full in
  let match_expr := EMatch next_call [some_arm; none_arm] full in
  let loop_expr := ELoop (mkBlock [SExpr match_expr] None full) full in
  EBlock
    (mkBlock [SLet (mkLetStmt true (PIdent cursor_name name_span) None (Some iterable) full); SExpr loop_expr] None full).
