(* ===== verification/Parse.v ===== *)
(** The recursive-descent parser: [compiler/paco-syntax/src/parse.rs].

    One definition per method.  A method that is called before it is defined
    (the grammar is recursive) is called through the record [Rec]; [parsers]
    ties the knot, one unit of fuel per level.  Everything else is called
    directly, in the order of the source. *)
From S2P Require Import Prelude Floats Span Diag Lex Ast ParseBase.
Open Scope nat_scope.

Record Rec := mkRec {
  r_expr : M Expr;
  r_unary : M Expr;
  r_additive : M Expr;
  r_if_expr : M Expr;
  r_block : M Block;
  r_ty : M Ty;
  r_pattern : M Pat;
  r_binding_pattern : M Pat;
  r_pattern_atom : M Pat;
  r_one_attribute : M Attribute;
  r_methods_block : M MethodsBlock }.

Section Methods.
Context (r : Rec).

(** ** Attributes and modifiers *)

Definition literal_token : M Literal :=
  let! c := matches Integer in
  if c then let! t := previous in ret (LInt (parse_int_literal (lexeme t))) else
  let! c := matches Float in
  if c then let! t := previous in ret (LFloat (parse_float_literal (lexeme t))) else
  let! c := matches True_ in
  if c then ret (LBool true) else
  let! c := matches False_ in
  if c then ret (LBool false) else
  let! c := matches String_ in
  if c then let! t := previous in ret (LString (to_string (decode_string (lexeme t)))) else
  do! error_here "PACO-E0112" "expected a literal, path, or nested attribute" in fail.

Definition parse_attribute_arg : M AttributeArg :=
  let! c := check Hash in
  if c then let! a := r_one_attribute r in ret (ArgNested a) else
  let! c := check Identifier in
  if c then
    let! first := peek in
    let s := start (tok_span first) in
    let! key := consume_identifier "expected identifier" in
    let! eq := matches Equal in
    if eq then
      let! lit := check_any [String_; Integer; Float; True_; False_] in
      if lit then
        let! l := literal_token in
        let! sp := span_since s in
        ret (ArgAssignLiteral key l sp)
      else
        let! seg := consume_identifier "expected a path or literal after `=`" in
        let! path := while_matches ColonColon (consume_identifier "expected identifier after `::`") [seg] in
        let! sp := span_since s in
        ret (ArgAssign key path sp)
    else
      let! path := while_matches ColonColon (consume_identifier "expected identifier after `::`") [key] in
      let! sp := span_since s in
      ret (ArgPath path sp)
  else
    let! t := peek in
    let! l := literal_token in
    ret (ArgLiteral l (tok_span t)).

Definition parse_one_attribute : M Attribute :=
  let! hash := consume Hash "expected `#`" in
  let s := start (tok_span hash) in
  do! consume LeftBracket "expected `[` after `#`" in
  let! name := consume_identifier "expected attribute name" in
  let! paren := matches LeftParen in
  let! args :=
    (if paren then
       let! args :=
         (let! empty := check RightParen in
          if empty then ret []
          else
            loop (fun args =>
              let! a := parse_attribute_arg in
              let! more := matches Comma in
              if more then
                let! close := check RightParen in
                ret (if close then inr (args ++ [a]) else inl (args ++ [a]))
              else ret (inr (args ++ [a]))) []) in
       do! consume RightParen "expected `)` after attribute arguments" in ret args
     else ret []) in
  let! rtok := consume RightBracket "expected `]` after attribute" in
  ret (mkAttribute name args (mkSpan (file_id (tok_span rtok)) s (end_ (tok_span rtok)))).

Definition parse_outer_attributes : M (list Attribute) :=
  loop (fun attrs =>
    let! c := check Hash in
    if c then let! a := parse_one_attribute in ret (inl (attrs ++ [a])) else ret (inr attrs)) [].

(** [extern StringLiteral], where it is written. *)
Definition optional_abi : M (option string) :=
  let! c := matches Extern in
  opt_if c
    (do! consume String_ "expected an ABI string literal after `extern`" in
     let! t := previous in ret (to_string (decode_string (lexeme t)))).

Definition function_modifiers : M (bool * bool * bool * option string) :=
  let! is_comptime := matches Comptime in
  let! is_iter := (if is_comptime then ret false else matches Iter) in
  let! is_unsafe := matches Unsafe in
  let! extern_abi := optional_abi in
  ret (is_comptime, is_unsafe, is_iter, extern_abi).

(** ** Types *)

Definition path : M (list string) :=
  let! first := consume_identifier "expected path segment" in
  while_matches ColonColon (consume_identifier "expected path segment after `::`") [first].

Definition is_operator (t : option Token) : bool :=
  next_is t Plus || next_is t Minus || next_is t Star || next_is t Slash || next_is t Percent.

Definition starts_const_arg : M bool :=
  let! next := peek_next in
  let! t := peek in
  match kind t with
  | Integer => ret true
  | Identifier => ret (is_operator next)
  | LeftParen =>
      let! after := peek_second in
      ret (next_is next Integer || next_is next LeftParen || (next_is next Identifier && is_operator after))
  | _ => ret false
  end.

Definition get_allow_existentials : M bool := fun p => Done (allow_existentials p) p.
Definition get_allow_struct_literals : M bool := fun p => Done (allow_struct_literals p) p.

Definition set_allow_existentials (b : bool) (p : Parser) : Parser :=
  mkParser (tokens p) (reporter p) (current p) (allow_struct_literals p) b.
Definition set_allow_struct_literals (b : bool) (p : Parser) : Parser :=
  mkParser (tokens p) (reporter p) (current p) b (allow_existentials p).

(** Run [m] with a flag changed and put the old value back, whether [m]
    returns or fails. *)
Definition with_flag {A} (set : bool -> Parser -> Parser) (old new : bool) (m : M A) : M A :=
  fun p =>
    match m (set new p) with
    | Done a p' => Done a (set old p')
    | Failed p' => Failed (set old p')
    | Panicked => Panicked
    | OutOfFuel => OutOfFuel
    end.

Definition generic_arg : M Ty :=
  let! token := peek in
  let! next := peek_next in
  if is_kind token Identifier && bool_decide (lexeme token = chars "Dyn")
     && negb (next_is next ColonColon || next_is next Less) then
    do! advance in ret (TDynDim (tok_span token))
  else if is_kind token Question && next_is next Identifier then
    let! allowed := get_allow_existentials in
    do! (if allowed then ret tt
         else error_here "PACO-E0112"
                "`?name` names a dimension the producer chooses; it is allowed only in a return type or a struct field type") in
    do! advance in
    let! name := advance in
    ret (TExistential (to_string (lexeme name))
           (mkSpan (file_id (tok_span token)) (start (tok_span token)) (end_ (tok_span name))))
  else if is_kind token Identifier && next_is next DotDotDot then
    do! advance in
    let! dots := advance in
    ret (TExpand (to_string (lexeme token))
           (mkSpan (file_id (tok_span token)) (start (tok_span token)) (end_ (tok_span dots))))
  else
    let! const := starts_const_arg in
    if const then
      let! e := r_additive r in ret (TConst e (expr_span e))
    else r_ty r.

(** [#(expr)], after the [#]. *)
Definition splice_after (sp : Span) : M (Expr * Span) :=
  do! consume LeftParen "expected `(` after `#`" in
  let! inner := r_expr r in
  let! rtok := consume RightParen "expected `)` after splice expression" in
  ret (inner, mkSpan (file_id sp) (start sp) (end_ (tok_span rtok))).

(** The function types of [ty]. *)
Definition fn_ty (s : nat) : M Ty :=
  let! is_unsafe := matches Unsafe in
  let! extern_abi := optional_abi in
  do! (if is_unsafe && negb (bool_decide (is_Some extern_abi))
       then do! consume Extern "expected `extern` after `unsafe` in a function type" in ret tt
       else ret tt) in
  let! fn_tok := consume Fn "expected `fn` in a function type" in
  do! consume LeftParen "expected `(` after `fn` in a function type" in
  let! params := comma_until RightParen (r_ty r) in
  let! rtok := consume RightParen "expected `)` after function type parameters" in
  let! arrow := matches Arrow in
  let! return_ty := opt_if arrow (r_ty r) in
  let e := match return_ty with Some t => end_ (ty_span t) | None => end_ (tok_span rtok) end in
  ret (TFn params return_ty extern_abi is_unsafe (mkSpan (file_id (tok_span fn_tok)) s e)).

(** The generic arguments of a type, after the [<]. *)
Definition generic_args_close : M (list Ty * nat) :=
  let! args := separated_unless Greater Comma generic_arg in
  let! close := consume Greater "expected `>` after generic type arguments" in
  ret (args, end_ (tok_span close)).

Definition ty : M Ty :=
  let! first := peek in
  let s := start (tok_span first) in
  let! c := matches Type_ in
  if c then let! t := previous in ret (TPath ["type"%string] (tok_span t)) else
  let! c := matches Hash in
  if c then
    let! t := previous in
    let! (inner, sp) := splice_after (tok_span t) in
    ret (TSplice inner sp)
  else
  let! c := matches LeftParen in
  if c then
    let! ltok := previous in
    let! items := separated_unless RightParen Comma (r_ty r) in
    let! rtok := consume RightParen "expected `)` after tuple type" in
    let sp := mkSpan (file_id (tok_span ltok)) s (end_ (tok_span rtok)) in
    ret (match items with [t] => t | _ => TTuple items sp end)
  else
  let! c := check_any [Unsafe; Extern; Fn] in
  if c then fn_ty s else
  let! c := matches Ampersand in
  if c then
    let! amp := previous in
    let! l := matches Lifetime in
    let! lifetime := opt_if l (let! t := previous in ret (to_string (trim_quotes (lexeme t)))) in
    let! mutable := matches Mut in
    let! t := r_ty r in
    ret (TBorrow mutable lifetime t (mkSpan (file_id (tok_span amp)) s (end_ (ty_span t))))
  else
  let! c := matches LeftBracket in
  if c then
    let! ltok := previous in
    do! consume RightBracket "expected `]` after `[` in a slice type" in
    let! t := r_ty r in
    ret (TSlice t (mkSpan (file_id (tok_span ltok)) s (end_ (ty_span t))))
  else
  let! c := matches Star in
  if c then
    let! star := previous in
    let! m := matches Mut in
    do! (if m then ret tt else do! consume Const "expected `const` or `mut` after `*` in a type" in ret tt) in
    let! t := r_ty r in
    ret (TRawPointer m t (mkSpan (file_id (tok_span star)) s (end_ (ty_span t))))
  else
  let! p := path in
  let! c := matches Less in
  if c then
    let! (args, e) := generic_args_close in
    let! prev := previous in
    ret (TGeneric p args (mkSpan (file_id (tok_span prev)) s e))
  else
    let! prev := previous in ret (TPath p (tok_span prev)).

Definition existential_ty : M Ty :=
  let! outer := get_allow_existentials in with_flag set_allow_existentials outer true ty.

(** ** Generic parameters *)

Definition consume_bound : M Ty :=
  let! q := matches Question in
  do! (if q then error_here "PACO-E0114" "`?` bounds are not supported yet" else ret tt) in
  ty.

(** [T: A + B] *)
Definition bounds_list : M (list Ty) := separated Plus consume_bound.

Definition consume_generic_parameter : M GenericParam :=
  let! first := peek in
  let st := tok_span first in
  let! c := matches Const in
  if c then
    let! name := consume_identifier "expected const parameter name after `const`" in
    do! consume Colon "expected `:` and a type after a const parameter name" in
    let! t := ty in
    let! pack := matches DotDotDot in
    let! prev := previous in
    ret (mkGenericParam name (if pack then KConstPack t else KConst t) []
           (mkSpan (file_id st) (start st) (end_ (tok_span prev))))
  else
  let! next := peek_next in
  if is_kind first Identifier && bool_decide (lexeme first = chars "dim") && next_is next Identifier then
    do! advance in
    let! name := consume_identifier "expected dimension parameter name after `dim`" in
    let! prev := previous in
    ret (mkGenericParam name KDim [] (mkSpan (file_id st) (start st) (end_ (tok_span prev))))
  else
  let! c := matches Lifetime in
  if c then
    let! t := previous in
    ret (mkGenericParam (to_string (trim_quotes (lexeme t))) KLifetime [] (tok_span t))
  else
  let! c := matches Identifier in
  if c then
    let! t := previous in
    let! colon := matches Colon in
    let! bounds := (if colon then bounds_list else ret []) in
    let! prev := previous in
    ret (mkGenericParam (to_string (lexeme t)) KType bounds (mkSpan (file_id st) (start st) (end_ (tok_span prev))))
  else do! error_here "PACO-E0112" "expected generic parameter name" in fail.

Definition gp_span (p : GenericParam) : Span := let 'mkGenericParam _ _ _ sp := p in sp.

Definition generic_params : M (list GenericParam) :=
  let! c := matches Less in
  if negb c then ret []
  else
    let! params :=
      loop (fun params =>
        let! close := check Greater in
        if close then ret (inr params)
        else
          let! param := consume_generic_parameter in
          do! match List.find is_pack params with
              | Some pack =>
                  push_diag (Diagnostic_error (chars "PACO-E0114") (gp_span pack)
                    (chars (if is_pack param
                            then "only one const parameter pack is allowed per generic parameter list"
                            else "a const parameter pack must be the last generic parameter")))
              | None => ret tt
              end in
          let! more := matches Comma in
          ret (if more then inl (params ++ [param]) else inr (params ++ [param]))) [] in
    do! consume Greater "expected `>` after generic parameters" in
    ret params.

(** [param.bounds.extend(bounds)] of the first parameter called [name]. *)
Fixpoint extend_bounds (generics : list GenericParam) (name : string) (bounds : list Ty) : option (list GenericParam) :=
  match generics with
  | [] => None
  | mkGenericParam n k b sp as g :: gs =>
      if bool_decide (n = name) then Some (mkGenericParam n k (b ++ bounds) sp :: gs)
      else cons g <$> extend_bounds gs name bounds
  end.

Definition where_clause (generics : list GenericParam) : M (list GenericParam) :=
  let! c := matches Where in
  if negb c then ret generics
  else
    loop (fun generics =>
      let! name := consume Identifier "expected a generic parameter name after `where`" in
      do! consume Colon "expected `:` after a `where` parameter name" in
      let! bounds := bounds_list in
      let! generics :=
        match extend_bounds generics (to_string (lexeme name)) bounds with
        | Some generics => ret generics
        | None =>
            do! push_diag (Diagnostic_error (chars "PACO-E0114") (tok_span name)
                  (chars "`where` names `" ++ lexeme name ++ chars "`, which is not a declared generic parameter")) in
            ret generics
        end in
      let! more := matches Comma in
      ret (if more then inl generics else inr generics)) generics.

(** One parameter of [parameter_list]. *)
Definition parameter : M Param :=
  let! first := peek in
  let s := start (tok_span first) in
  let! amp := matches Ampersand in
  let! (name, t) :=
    (if amp then
       let! mutable := matches Mut in
       let! name := consume_identifier "expected `self` after `&` in receiver" in
       do! (if bool_decide (name <> "self"%string)
            then error_here "PACO-E0112"
                   "only `self` may be borrowed in a parameter list; write `name: &Type` for an ordinary borrowed parameter"
            else ret tt) in
       let! sp := span_since s in
       let! prev := previous in
       ret (name, TBorrow mutable None (TPath ["Self"%string] (tok_span prev)) sp)
     else
       let! name := consume_identifier "expected parameter name" in
       if bool_decide (name = "self"%string) then
         let! prev := previous in ret (name, TPath ["Self"%string] (tok_span prev))
       else
         do! consume Colon "expected `:` after parameter name" in
         let! t := ty in ret (name, t)) in
  let! sp := span_since s in
  ret (mkParam (PIdent name sp) t sp).

Definition parameter_list : M (list Param) :=
  let! empty := check RightParen in
  if empty then ret []
  else
    loop (fun params =>
      let! p := parameter in
      let! more := matches Comma in
      if negb more then ret (inr (params ++ [p]))
      else
        let! close := check RightParen in
        ret (if close then inr (params ++ [p]) else inl (params ++ [p]))) [].

(** ** Patterns *)

Definition struct_pattern (pth : list string) (s : nat) : M Pat :=
  let! (fields, rest) :=
    loop (fun fields =>
      let! close := check RightBrace in
      if close then ret (inr (fields, false))
      else
        let! dots := matches DotDot in
        if dots then ret (inr (fields, true))
        else
          let! name := consume Identifier "expected field name in struct pattern" in
          let! colon := matches Colon in
          let! pat := (if colon then r_pattern r else ret (PIdent (to_string (lexeme name)) (tok_span name))) in
          let fields := fields ++ [(to_string (lexeme name), pat)] in
          let! more := matches Comma in
          ret (if more then inl fields else inr (fields, false))) [] in
  let! rtok := consume RightBrace "expected `}` after struct pattern fields" in
  ret (PStruct pth fields rest (mkSpan (file_id (tok_span rtok)) s (end_ (tok_span rtok)))).

(** The patterns of [pattern_atom] that start with a name. *)
Definition path_pattern : M Pat :=
  let! first := peek in
  let s := start (tok_span first) in
  let! p := path in
  let! c := matches LeftParen in
  if c then
    let! fields := separated_unless RightParen Comma (r_pattern r) in
    let! rtok := consume RightParen "expected `)` after pattern fields" in
    ret (PEnum p fields (mkSpan (file_id (tok_span rtok)) s (end_ (tok_span rtok))))
  else
  let! c := matches LeftBrace in
  if c then struct_pattern p s else
  let! sp := span_since s in
  ret (match p with [name] => PIdent name sp | _ => PEnum p [] sp end).

Definition pattern_atom : M Pat :=
  let! c := matches Ampersand in
  if c then
    let! op := previous in
    let! mutable := matches Mut in
    let! p := r_pattern_atom r in
    ret (PReference mutable p (mkSpan (file_id (tok_span op)) (start (tok_span op)) (end_ (pat_span p))))
  else
  let! c := matches Underscore in
  if c then let! t := previous in ret (PWildcard (tok_span t)) else
  let! c := matches Integer in
  if c then let! t := previous in ret (PLiteral (LInt (parse_int_literal (lexeme t))) (tok_span t)) else
  let! c := matches String_ in
  if c then let! t := previous in ret (PLiteral (LString (to_string (decode_string (lexeme t)))) (tok_span t)) else
  let! c := matches Char in
  if c then let! t := previous in ret (PLiteral (LChar (decode_char (lexeme t))) (tok_span t)) else
  let! c := matches True_ in
  if c then let! t := previous in ret (PLiteral (LBool true) (tok_span t)) else
  let! c := matches False_ in
  if c then let! t := previous in ret (PLiteral (LBool false) (tok_span t)) else
  let! c := check Identifier in
  if c then path_pattern else
  let! c := matches LeftParen in
  if c then
    let! ltok := previous in
    let! fields := separated_unless RightParen Comma (r_pattern r) in
    let! rtok := consume RightParen "expected `)` after tuple pattern" in
    ret (PTuple fields (mkSpan (file_id (tok_span ltok)) (start (tok_span ltok)) (end_ (tok_span rtok))))
  else do! error_here "PACO-E0113" "expected pattern" in fail.

Definition range_pattern : M Pat :=
  let! s := pattern_atom in
  let! c := matches DotDot in
  let! c := (if c then ret true else matches DotDotEqual) in
  if c then
    let! op := previous in
    let! e := pattern_atom in
    ret (PRange s e (is_kind op DotDotEqual)
           (mkSpan (file_id (pat_span s)) (start (pat_span s)) (end_ (pat_span e))))
  else ret s.

Definition binding_pattern : M Pat :=
  let! c := check Identifier in
  let! next := peek_next in
  if c && next_is next At then
    let! token := advance in
    do! consume At "expected `@` after binding name" in
    let! p := r_binding_pattern r in
    ret (PBinding (to_string (lexeme token)) p
           (mkSpan (file_id (tok_span token)) (start (tok_span token)) (end_ (pat_span p))))
  else range_pattern.

Definition pattern : M Pat :=
  let! first := binding_pattern in
  let! patterns := while_matches Pipe binding_pattern [first] in
  match patterns with
  | [p] => ret p
  | _ =>
      let! prev := previous in
      ret (POr patterns
             (mkSpan (file_id (tok_span prev)) (start (pat_span first)) (end_ (pat_span (List.last patterns first)))))
  end.

(** ** Expressions: atoms *)

Definition expr_without_struct_literals : M Expr :=
  let! previous_ := get_allow_struct_literals in with_flag set_allow_struct_literals previous_ false (r_expr r).

Definition argument : M Expr :=
  let! c := check Identifier in
  let! next := peek_next in
  do! (if c && next_is next Colon then do! advance in do! advance in ret tt else ret tt) in
  r_expr r.

Definition argument_list : M (list Expr) := separated_unless RightParen Comma argument.

(** [( ArgumentList )], after the [(]. *)
Definition call_arguments : M (list Expr * Token) :=
  let! args := argument_list in
  let! rtok := consume RightParen "expected `)` after arguments" in
  ret (args, rtok).

Definition struct_literal_field : M (string * Expr) :=
  let! name := consume_identifier "expected struct field name" in
  do! consume Colon "expected `:` after struct field name" in
  let! value := r_expr r in
  ret (name, value).

Definition struct_literal (t : Ty) : M Expr :=
  let! fields := separated_unless RightBrace Comma struct_literal_field in
  let! rtok := consume RightBrace "expected `}` after struct literal" in
  ret (EStructLiteral t fields (mkSpan (file_id (tok_span rtok)) (start (ty_span t)) (end_ (tok_span rtok)))).

Definition generic_type_args : M (list Ty * nat) :=
  do! consume Less "expected `<` before generic type arguments" in generic_args_close.

(** The scan of [starts_generic_type_application]. *)
Fixpoint generic_scan (depth : nat) (ts : list Token) : bool :=
  match ts with
  | [] => false
  | t :: ts =>
      match kind t with
      | Less => generic_scan (S depth) ts
      | Greater =>
          let depth := depth - 1 in
          if depth =? 0 then
            match ts with
            | [] => false
            | next :: _ => is_kind next LeftBrace || is_kind next ColonColon || is_kind next LeftParen
            end
          else generic_scan depth ts
      | Eof | LeftBrace | RightBrace => if depth =? 0 then false else generic_scan depth ts
      | _ => generic_scan depth ts
      end
  end.

Definition starts_generic_type_application : M bool :=
  let! c := check Less in
  if negb c then ret false else fun p => Done (generic_scan 0 (drop (current p) (tokens p))) p.

Definition expr_type_path (token : Token) : M Ty :=
  let p := [to_string (lexeme token)] in
  let sp := tok_span token in
  let! c := starts_generic_type_application in
  if c then
    let! (args, e) := generic_type_args in
    ret (TGeneric p args (mkSpan (file_id sp) (start sp) e))
  else ret (TPath p sp).

(** The path loop of [primary]: [A::B::C], up to the last segment of a call. *)
Definition path_segments (pth : list string) (sp : Span) : M Ty :=
  loop (fun '(pth, sp) =>
    let! c := check ColonColon in
    let! next := peek_next in
    let! after := peek_second in
    if negb (c && next_is next Identifier) then ret (inr (TPath pth sp))
    else if negb (next_is after ColonColon || next_is after Less) then ret (inr (TPath pth sp))
    else
      let! saved := get_current in
      do! advance in
      let! segment := consume_identifier "expected path segment" in
      if next_is after Less then
        let! generic := starts_generic_type_application in
        if negb generic then do! set_current saved in ret (inr (TPath pth sp))
        else
          let! (args, e) := generic_type_args in
          ret (inr (TGeneric (pth ++ [segment]) args (mkSpan (file_id sp) (start sp) e)))
      else
        let! prev := previous in
        ret (inl (pth ++ [segment], mkSpan (file_id sp) (start sp) (end_ (tok_span prev))))) (pth, sp).

(** [if self.allow_struct_literals && self.matches(LeftBrace)] *)
Definition matches_struct_brace : M bool :=
  let! allowed := get_allow_struct_literals in
  if allowed then matches LeftBrace else ret false.

(** [Type::function ..], after the [::]. *)
Definition associated_item (token : Token) (t : Ty) : M Expr :=
  let! function := consume_identifier "expected associated item name" in
  let! allowed := get_allow_struct_literals in
  let! brace := check LeftBrace in
  if allowed && brace then
    match t with
    | TPath pth path_span =>
        do! matches LeftBrace in
        let! prev := previous in
        struct_literal
          (TPath (pth ++ [function]) (mkSpan (file_id path_span) (start path_span) (end_ (tok_span prev))))
    | _ =>
        do! error_here "PACO-E0111" "expected a plain path before `{` in a qualified struct literal" in fail
    end
  else
    let! prev := previous in
    let! paren := matches LeftParen in
    let! (args, e) :=
      (if paren then let! (args, rtok) := call_arguments in ret (args, end_ (tok_span rtok))
       else ret ([], end_ (tok_span prev))) in
    ret (EAssociatedCall t function args (mkSpan (file_id (tok_span token)) (start (ty_span t)) e)).

(** The names of [primary], after the first identifier. *)
Definition identifier_expr : M Expr :=
  let! token := previous in
  let! t := expr_type_path token in
  let! t := match t with TPath pth sp => path_segments pth sp | _ => ret t end in
  let! brace := matches_struct_brace in
  if brace then struct_literal t else
  let! c := matches ColonColon in
  if c then associated_item token t else
  match t with
  | TGeneric [name] type_args generic_span =>
      let! paren := matches LeftParen in
      if paren then
        let! (args, rtok) := call_arguments in
        ret (ECall (EIdent name (tok_span token)) type_args args
               (mkSpan (file_id (tok_span token)) (start generic_span) (end_ (tok_span rtok))))
      else do! error_here "PACO-E0111" "expected expression" in fail
  | TPath [name] sp => ret (EIdent name sp)
  | _ => do! error_here "PACO-E0111" "expected expression" in fail
  end.

(** ** Expressions with blocks *)

Definition match_arm : M MatchArm :=
  let! first := peek in
  let s := start (tok_span first) in
  let! pat := pattern in
  let! c := matches If_ in
  let! guard := opt_if c expr_without_struct_literals in
  do! consume FatArrow "expected `=>` after match arm pattern" in
  let! body := r_expr r in
  let! prev := previous in
  ret (mkMatchArm pat guard body (mkSpan (file_id (tok_span prev)) s (end_ (expr_span body)))).

(** [if !self.matches(Comma) && !self.check(RightBrace) && !block_like { missing_separator }] *)
Definition arm_separator (block_like : bool) (message : string) : M unit :=
  let! comma := matches Comma in
  if comma then ret tt
  else
    let! close := check RightBrace in
    if close || block_like then ret tt else missing_separator "PACO-E0112" "," message.

Definition match_expr : M Expr :=
  let! prev := previous in
  let sp := tok_span prev in
  let! scrutinee := expr_without_struct_literals in
  do! consume LeftBrace "expected `{` before match arms" in
  let! arms :=
    loop (fun arms =>
      let! stop := check_any [RightBrace; Eof] in
      if stop then ret (inr arms)
      else
        let! arm := match_arm in
        do! arm_separator (is_block_like (arm_body arm)) "expected `,` after a match arm" in
        ret (inl (arms ++ [arm]))) [] in
  let! rtok := consume RightBrace "expected `}` after match arms" in
  ret (EMatch scrutinee arms (mkSpan (file_id sp) (start sp) (end_ (tok_span rtok)))).

Definition expr_to_block (e : Expr) : Block := mkBlock [] (Some e) (expr_span e).

Definition select_arm : M SelectArm :=
  let! first := peek in
  let s := start (tok_span first) in
  let! next := peek_next in
  let! operation :=
    (if is_kind first Identifier && next_is next Equal then
       let! name := advance in
       do! advance in
       let! channel := expr_without_struct_literals in
       let nsp := tok_span name in
       ret (EAssign (EIdent (to_string (lexeme name)) nsp) channel
              (mkSpan (file_id nsp) (start nsp) (end_ (expr_span channel))))
     else expr_without_struct_literals) in
  do! consume FatArrow "expected `=>` in select arm" in
  let! body := r_expr r in
  let! prev := previous in
  ret (mkSelectArm operation (expr_to_block body) (mkSpan (file_id (tok_span prev)) s (end_ (expr_span body)))).

Definition tail_block_like (b : Block) : bool :=
  let 'mkBlock _ tail _ := b in match tail with Some e => is_block_like e | None => false end.

Definition select_expr : M Expr :=
  let! prev := previous in
  let sp := tok_span prev in
  do! consume LeftBrace "expected `{` after `select`" in
  let! (arms, default_) :=
    loop (fun '(arms, default_) =>
      let! stop := check_any [RightBrace; Eof] in
      if stop then ret (inr (arms, default_))
      else
        let! first := peek in
        let! next := peek_next in
        if is_kind first Identifier && bool_decide (lexeme first = chars "default") && next_is next FatArrow then
          do! advance in
          do! advance in
          let! body := r_expr r in
          do! arm_separator (is_block_like body) "expected `,` after a select arm" in
          ret (inl (arms, Some (expr_to_block body)))
        else
          let! arm := select_arm in
          do! (let 'mkSelectArm _ body _ := arm in
               arm_separator (tail_block_like body) "expected `,` after a select arm") in
          ret (inl (arms ++ [arm], default_))) ([], None) in
  let! rtok := consume RightBrace "expected `}` after select arms" in
  ret (ESelect arms default_ (mkSpan (file_id sp) (start sp) (end_ (tok_span rtok)))).

Definition closure_param (sp : Span) : M ClosureParam :=
  let! pat := pattern_atom in
  let! colon := matches Colon in
  let! t := opt_if colon ty in
  let! prev := previous in
  ret (mkClosureParam pat t (mkSpan (file_id sp) (start (pat_span pat)) (end_ (tok_span prev)))).

(** [if self.check(LeftBrace) { Expr::Block(self.block()?) } else { .. }] *)
Definition block_or (other : M Expr) : M Expr :=
  let! brace := check LeftBrace in
  if brace then let! b := r_block r in ret (EBlock b) else other.

Definition closure : M Expr :=
  let! first := peek in
  let sp := tok_span first in
  let! empty := matches OrOr in
  let! params :=
    (if empty then ret []
     else
       do! consume Pipe "expected `|` to open closure parameters" in
       let! params := comma_until Pipe (closure_param sp) in
       do! consume Pipe "expected `|` after closure parameters" in
       ret params) in
  let! body := block_or (r_expr r) in
  ret (EClosure params body (mkSpan (file_id sp) (start sp) (end_ (expr_span body)))).

Definition else_branch : M (option Expr) :=
  let! c := matches Else_ in
  if negb c then ret None
  else
    let! i := matches If_ in
    if i then let! e := r_if_expr r in ret (Some e)
    else let! b := r_block r in ret (Some (EBlock b)).

Definition if_let_expr (sp : Span) : M Expr :=
  let! pat := pattern in
  do! consume Equal "expected `=` after if let pattern" in
  let! scrutinee := expr_without_struct_literals in
  let! then_branch := r_block r in
  let! else_ := else_branch in
  let then_body := EBlock then_branch in
  let else_body := default (empty_block_expr sp) else_ in
  let then_end := end_ (expr_span then_body) in
  let else_span := expr_span else_body in
  ret (EMatch scrutinee
         [mkMatchArm pat None then_body (mkSpan (file_id sp) (start (pat_span pat)) then_end);
          mkMatchArm (PWildcard else_span) None else_body else_span]
         (mkSpan (file_id sp) (start sp) (end_ else_span `max` then_end))).

Definition if_expr : M Expr :=
  let! prev := previous in
  let sp := tok_span prev in
  let! c := matches Let in
  if c then if_let_expr sp else
  let! condition := expr_without_struct_literals in
  let! then_branch := r_block r in
  let! else_ := else_branch in
  let e := match else_ with Some x => end_ (expr_span x) | None => end_ (block_span then_branch) end in
  ret (EIf condition then_branch else_ (mkSpan (file_id sp) (start sp) e)).

Definition while_let_expr (sp : Span) : M Expr :=
  let! pat := pattern in
  do! consume Equal "expected `=` after while let pattern" in
  let! scrutinee := expr_without_struct_literals in
  let! body := r_block r in
  let body_expr := EBlock body in
  let body_end := end_ (expr_span body_expr) in
  let fallback := mkSpan (file_id sp) body_end body_end in
  let full := mkSpan (file_id sp) (start sp) body_end in
  let match_ :=
    EMatch scrutinee
      [mkMatchArm pat None body_expr (mkSpan (file_id sp) (start (pat_span pat)) body_end);
       mkMatchArm (PWildcard fallback) None (EBreak None fallback) fallback] full in
  ret (ELoop (mkBlock [SExpr match_] None full) full).

Definition while_expr : M Expr :=
  let! prev := previous in
  let sp := tok_span prev in
  let! c := matches Let in
  if c then while_let_expr sp else
  let! condition := expr_without_struct_literals in
  let! body := r_block r in
  ret (EWhile condition body (mkSpan (file_id sp) (start sp) (end_ (block_span body)))).

Definition for_expr : M Expr :=
  let! prev := previous in
  let sp := tok_span prev in
  let! tok := consume Identifier "expected loop binding name" in
  let name := (to_string (lexeme tok), tok_span tok) in
  do! consume In_ "expected `in` after loop binding" in
  let! range_start := expr_without_struct_literals in
  let! inclusive := matches DotDotEqual in
  let! exclusive := (if inclusive then ret false else matches DotDot) in
  if inclusive || exclusive then
    let! range_end := expr_without_struct_literals in
    let! body := r_block r in
    ret (for_range_expr sp name range_start range_end inclusive body)
  else
    let! body := r_block r in
    ret (for_iter_expr sp name range_start body).

(** A keyword followed by a block. *)
Definition keyword_block (build : Block -> Span -> Expr) : M Expr :=
  let! prev := previous in
  let sp := tok_span prev in
  let! body := r_block r in
  ret (build body (mkSpan (file_id sp) (start sp) (end_ (block_span body)))).

Definition quote_expr : M Expr :=
  let! prev := previous in
  let sp := tok_span prev in
  do! consume LeftBrace "expected `{` after `quote`" in
  let! m := matches Methods in
  let! body :=
    (if m then let! b := r_methods_block r in ret (QItem (IMethods b))
     else let! e := r_expr r in ret (QExpr e)) in
  let! rtok := consume RightBrace "expected `}` after quote template" in
  ret (EQuote body (mkSpan (file_id sp) (start sp) (end_ (tok_span rtok)))).

Definition return_expr : M Expr :=
  let! prev := previous in
  let sp := tok_span prev in
  let! bare := check_any [RightBrace; Semicolon] in
  let! value := opt_if (negb bare) (r_expr r) in
  let e := match value with Some x => end_ (expr_span x) | None => end_ sp end in
  ret (EReturn value (mkSpan (file_id sp) (start sp) e)).

Definition paren_expr : M Expr :=
  let! prev := previous in
  let sp := tok_span prev in
  let! items := comma_until RightParen (r_expr r) in
  let! rtok := consume RightParen "expected `)` after expression" in
  ret (match items with
       | [e] => e
       | _ => ETuple items (mkSpan (file_id sp) (start sp) (end_ (tok_span rtok)))
       end).

Definition primary : M Expr :=
  let! c := check_any [Pipe; OrOr] in
  if c then closure else
  let! c := matches Integer in
  if c then let! t := previous in ret (ELiteral (LInt (parse_int_literal (lexeme t))) (tok_span t)) else
  let! c := matches Float in
  if c then let! t := previous in ret (ELiteral (LFloat (parse_float_literal (lexeme t))) (tok_span t)) else
  let! c := matches String_ in
  if c then let! t := previous in ret (ELiteral (LString (to_string (decode_string (lexeme t)))) (tok_span t)) else
  let! c := matches Char in
  if c then let! t := previous in ret (ELiteral (LChar (decode_char (lexeme t))) (tok_span t)) else
  let! c := matches True_ in
  if c then let! t := previous in ret (ELiteral (LBool true) (tok_span t)) else
  let! c := matches False_ in
  if c then let! t := previous in ret (ELiteral (LBool false) (tok_span t)) else
  let! c := matches Match_ in
  if c then match_expr else
  let! c := matches Select in
  if c then select_expr else
  let! c := matches Yield in
  if c then
    let! prev := previous in
    let sp := tok_span prev in
    let! value := r_expr r in
    ret (EYield value (mkSpan (file_id sp) (start sp) (end_ (expr_span value))))
  else
  let! c := matches Identifier in
  if c then identifier_expr else
  let! c := matches If_ in
  if c then if_expr else
  let! c := matches While in
  if c then while_expr else
  let! c := matches For_ in
  if c then for_expr else
  let! c := matches Loop in
  if c then keyword_block ELoop else
  let! c := matches Unsafe in
  if c then keyword_block EUnsafe else
  let! c := matches Comptime in
  if c then keyword_block (fun b sp => EComptime (EBlock b) sp) else
  let! c := matches Quote in
  if c then quote_expr else
  let! c := matches Hash in
  if c then
    let! prev := previous in
    let! (inner, sp) := splice_after (tok_span prev) in
    ret (ESplice inner sp)
  else
  let! c := matches Return in
  if c then return_expr else
  let! c := matches Break in
  if c then let! t := previous in ret (EBreak None (tok_span t)) else
  let! c := matches Continue in
  if c then let! t := previous in ret (EContinue (tok_span t)) else
  let! c := matches LeftParen in
  if c then paren_expr else
  let! c := check LeftBrace in
  if c then let! b := r_block r in ret (EBlock b) else
  do! error_here "PACO-E0111" "expected expression" in fail.

(** ** Postfix, prefix and binary operators *)

(** A span from the start of [e] to the end of [t]. *)
Definition span_to (e : Expr) (t : Token) : Span :=
  mkSpan (file_id (expr_span e)) (start (expr_span e)) (end_ (tok_span t)).

(** One round of [postfix]: the expression so far, or the end of the loop. *)
Definition postfix_step (e : Expr) : M (Expr + Expr) :=
  let! c := matches LeftParen in
  if c then
    let! (args, rtok) := call_arguments in
    ret (inl (ECall e [] args (span_to e rtok)))
  else
  let! dot := check Dot in
  let! next := peek_next in
  if dot && next_is next Hash then
    do! advance in
    do! advance in
    do! consume LeftParen "expected `(` after `#`" in
    let! name := r_expr r in
    let! rtok := consume RightParen "expected `)` after splice expression" in
    let sp := span_to e rtok in
    ret (inl (ECall (EIdent "splice_field" sp) [] [e; name] sp))
  else
  let! c := matches Dot in
  if c then
    let! name := consume_identifier "expected field or method name" in
    let! paren := matches LeftParen in
    if paren then
      let! (args, rtok) := call_arguments in
      ret (inl (EMethodCall e name args (span_to e rtok)))
    else
      let! prev := previous in ret (inl (EField e name (span_to e prev)))
  else
  let! c := matches Question in
  if c then let! prev := previous in ret (inl (ETry e (span_to e prev))) else
  let! c := matches LeftBracket in
  if c then
    let! first := r_expr r in
    let! index := while_matches Comma (r_expr r) [first] in
    let! rtok := consume RightBracket "expected `]` after index expression" in
    ret (inl (EIndex e index (span_to e rtok)))
  else ret (inr e).

Definition postfix (e : Expr) : M Expr := loop postfix_step e.

Definition call : M Expr := let! e := primary in postfix e.

(** A prefix operator, after its token. *)
Definition prefix (operand : M Expr) (build : Expr -> Span -> Expr) : M Expr :=
  let! prev := previous in
  let sp := tok_span prev in
  let! e := operand in
  ret (build e (mkSpan (file_id sp) (start sp) (end_ (expr_span e)))).

Definition unary : M Expr :=
  let! c := matches Ampersand in
  if c then
    let! op := previous in
    let! mutable := matches Mut in
    let! e := r_unary r in
    ret (EBorrow mutable e (mkSpan (file_id (tok_span op)) (start (tok_span op)) (end_ (expr_span e))))
  else
  let! c := matches Bang in
  if c then prefix (r_unary r) (EUnary Not) else
  let! c := matches Tilde in
  if c then prefix (r_unary r) (EUnary BitNot) else
  let! c := matches Minus in
  if c then prefix (r_unary r) (EUnary Neg) else
  let! c := matches Star in
  if c then prefix (r_unary r) (EUnary Deref) else
  let! c := matches Spawn in
  if c then prefix (block_or (r_unary r)) ESpawn else
  call.

Definition cast : M Expr :=
  let! e := unary in
  loop (fun e =>
    let! c := matches As in
    if c then
      let! t := ty in
      ret (inl (ECast e t (mkSpan (file_id (expr_span e)) (start (expr_span e)) (end_ (ty_span t)))))
    else ret (inr e)) e.

(** [operators.iter().find(|(kind, _)| self.check( *kind))] *)
Fixpoint find_operator (operators : list (TokenKind * BinaryOp)) : M (option BinaryOp) :=
  match operators with
  | [] => ret None
  | (k, op) :: operators =>
      let! c := check k in
      if c then ret (Some op) else find_operator operators
  end.

Definition left_associative (next : M Expr) (operators : list (TokenKind * BinaryOp)) : M Expr :=
  let! e := next in
  loop (fun e =>
    let! found := find_operator operators in
    match found with
    | Some op =>
        do! advance in
        let! rhs := next in
        let! prev := previous in
        ret (inl (EBinary op e rhs (join_expr_span e rhs (tok_span prev))))
    | None => ret (inr e)
    end) e.

Definition multiplicative : M Expr := left_associative cast [(Star, Mul); (Slash, Div); (Percent, Rem)].
Definition additive : M Expr := left_associative multiplicative [(Plus, Add); (Minus, Sub)].

Definition shift : M Expr :=
  let! e := additive in
  loop (fun e =>
    let! t := peek in
    let! next := peek_next in
    let adjacent :=
      match next with
      | Some n => bool_decide (kind n = kind t) && (start (tok_span n) =? end_ (tok_span t))
      | None => false
      end in
    let op :=
      match kind t with
      | Less => if adjacent then Some Shl else None
      | Greater => if adjacent then Some Shr else None
      | _ => None
      end in
    match op with
    | None => ret (inr e)
    | Some op =>
        do! advance in
        do! advance in
        let! rhs := additive in
        let! prev := previous in
        ret (inl (EBinary op e rhs (join_expr_span e rhs (tok_span prev))))
    end) e.

Definition bit_and : M Expr := left_associative shift [(Ampersand, BitAnd)].
Definition bit_xor : M Expr := left_associative bit_and [(Caret, BitXor)].
Definition bit_or : M Expr := left_associative bit_xor [(Pipe, BitOr)].

Definition comparison_operators : list (TokenKind * BinaryOp) :=
  [(EqualEqual, Eq_); (BangEqual, Ne); (Less, Lt_); (LessEqual, Le); (Greater, Gt_); (GreaterEqual, Ge)].

Definition comparison : M Expr :=
  let! e := bit_or in
  let! found := find_operator comparison_operators in
  match found with
  | Some op =>
      do! advance in
      let! rhs := bit_or in
      let! prev := previous in
      ret (EBinary op e rhs (join_expr_span e rhs (tok_span prev)))
  | None => ret e
  end.

Definition logical_and : M Expr := left_associative comparison [(AndAnd, And)].
Definition logical_or : M Expr := left_associative logical_and [(OrOr, Or)].

Definition assignment : M Expr :=
  let! e := logical_or in
  let! c := matches Equal in
  if c then
    let! op := previous in
    let! value := r_expr r in
    ret (EAssign e value (join_expr_span e value (tok_span op)))
  else ret e.

Definition expr : M Expr := assignment.

(** ** Statements *)

Definition let_stmt : M LetStmt :=
  let! prev := previous in
  let s := start (tok_span prev) in
  let! mutable := matches Mut in
  let! pat := pattern in
  let! colon := matches Colon in
  let! t := opt_if colon ty in
  let! eq := matches Equal in
  let! value := opt_if eq expr in
  do! expect_semicolon in
  let! sp := span_since s in
  ret (mkLetStmt mutable pat t value sp).

Definition starts_block_like : M bool :=
  check_any [If_; Match_; While; For_; Loop; Unsafe; Comptime; Select; LeftBrace].

(** The end of an expression statement of [block]. *)
Definition finish_statement (stmts : list Stmt) (tail : option Expr) (e : Expr) : M (list Stmt * option Expr) :=
  let! semi := matches Semicolon in
  if semi then ret (stmts ++ [SExpr e], tail)
  else
    let! close := check RightBrace in
    if close then ret (stmts, Some e)
    else do! expect_semicolon in ret (stmts ++ [SExpr e], tail).

(** One round of [block]. *)
Definition block_step (st : list Stmt * option Expr) : M (list Stmt * option Expr) :=
  let '(stmts, tail) := st in
  let! semi := matches Semicolon in
  if semi then ret (stmts, tail) else
  let! l := matches Let in
  if l then let! s := let_stmt in ret (stmts ++ [SLet s], tail) else
  let! block_like := starts_block_like in
  if block_like then
    let! e := primary in
    let! goes_on := check_any [Dot; Question] in
    if goes_on then let! e := postfix e in finish_statement stmts tail e
    else
      let! semi := matches Semicolon in
      if semi then ret (stmts ++ [SExpr e], tail)
      else
        let! close := check RightBrace in
        if close then ret (stmts, Some e) else ret (stmts ++ [SExpr e], tail)
  else let! e := expr in finish_statement stmts tail e.

Definition block : M Block :=
  let! ltok := consume LeftBrace "expected `{` before block" in
  let sp := tok_span ltok in
  let! (stmts, tail) :=
    loop (fun st =>
      let! stop := check_any [RightBrace; Eof] in
      if stop then ret (inr st) else let! st := block_step st in ret (inl st)) ([], None) in
  let! rtok := consume RightBrace "expected `}` after block" in
  ret (mkBlock stmts tail (mkSpan (file_id sp) (start sp) (end_ (tok_span rtok)))).

(** ** Declarations *)

Definition function_decl (is_pub is_unsafe is_iter : bool) (extern_abi : option string) : M FnDecl :=
  let! prev := previous in
  let s := start (tok_span prev) in
  let! hash := matches Hash in
  let! (name, name_splice) :=
    (if hash then
       do! consume LeftParen "expected `(` after `#`" in
       let! inner := expr in
       do! consume RightParen "expected `)` after splice expression" in
       ret (""%string, Some inner)
     else let! name := consume_identifier "expected function name" in ret (name, None)) in
  let! generics := generic_params in
  do! consume LeftParen "expected `(` after function name" in
  let! params := parameter_list in
  do! consume RightParen "expected `)` after parameters" in
  let! arrow := matches Arrow in
  let! return_ty := opt_if arrow existential_ty in
  let! generics := where_clause generics in
  let! body := block in
  let! prev := previous in
  let sp := mkSpan (file_id (tok_span prev)) s (end_ (block_span body) `max` end_ (tok_span prev)) in
  ret (mkFnDecl name name_splice generics params return_ty body is_pub is_unsafe is_iter false extern_abi [] sp).

Definition set_fn (attrs : list Attribute) (is_comptime : bool) (d : FnDecl) : FnDecl :=
  let 'mkFnDecl n ns g ps rt body p u i _ x _ sp := d in mkFnDecl n ns g ps rt body p u i is_comptime x attrs sp.

(** Modifiers, [fn] and a function, as a member of a declaration. *)
Definition method_member (message : string) (attrs : list Attribute) (is_pub : bool) : M FnDecl :=
  let! (is_comptime, is_unsafe, is_iter, extern_abi) := function_modifiers in
  do! consume Fn message in
  let! decl := function_decl is_pub is_unsafe is_iter extern_abi in
  ret (set_fn attrs is_comptime decl).

Definition const_decl (is_pub : bool) : M ConstDecl :=
  let! prev := previous in
  let s := start (tok_span prev) in
  let! name := consume_identifier "expected constant name" in
  do! consume Colon "expected `:` after constant name (const requires a type annotation)" in
  let! t := ty in
  do! consume Equal "expected `=` after constant type" in
  let! value := expr in
  do! expect_semicolon in
  let! sp := span_since s in
  ret (mkConstDecl name t value is_pub sp).

Definition methods_block : M MethodsBlock :=
  let! prev := previous in
  let s := start (tok_span prev) in
  let! generics := generic_params in
  let! target := ty in
  let! generics := where_clause generics in
  do! consume LeftBrace "expected `{` before methods body" in
  let! (methods, consts) :=
    loop (fun '(methods, consts) =>
      let! stop := check_any [RightBrace; Eof] in
      if stop then ret (inr (methods, consts))
      else
        let! attrs := parse_outer_attributes in
        let! is_pub := matches Pub in
        let! c := matches Const in
        if c then let! d := const_decl is_pub in ret (inl (methods, consts ++ [d]))
        else
          let! d := method_member "expected method declaration" attrs is_pub in
          ret (inl (methods ++ [d], consts))) ([], []) in
  let! rtok := consume RightBrace "expected `}` after methods body" in
  ret (mkMethodsBlock generics target methods consts (mkSpan (file_id (tok_span rtok)) s (end_ (tok_span rtok)))).

Definition extern_fn_decl : M FnSignature :=
  let! prev := previous in
  let s := start (tok_span prev) in
  let! name := consume_identifier "expected function name" in
  let! generics := generic_params in
  do! consume LeftParen "expected `(` after function name" in
  let! params := parameter_list in
  do! consume RightParen "expected `)` after parameters" in
  let! arrow := matches Arrow in
  let! return_ty := opt_if arrow ty in
  do! consume Semicolon "expected `;` after an extern function signature (no body allowed)" in
  let! sp := span_since s in
  ret (mkFnSignature name generics params return_ty None [] sp).

Definition set_signature (attrs : list Attribute) (d : FnSignature) : FnSignature :=
  let 'mkFnSignature n g ps rt body _ sp := d in mkFnSignature n g ps rt body attrs sp.

Definition extern_block (abi : string) : M ExternBlock :=
  let! prev := previous in
  let s := start (tok_span prev) in
  do! consume LeftBrace "expected `{` after extern ABI" in
  let! functions :=
    loop (fun functions =>
      let! stop := check_any [RightBrace; Eof] in
      if stop then ret (inr functions)
      else
        let! attrs := parse_outer_attributes in
        do! consume Fn "expected a function declaration in an extern block" in
        let! d := extern_fn_decl in
        ret (inl (functions ++ [set_signature attrs d]))) [] in
  let! rtok := consume RightBrace "expected `}` after extern block" in
  ret (mkExternBlock abi functions [] (mkSpan (file_id (tok_span rtok)) s (end_ (tok_span rtok)))).

Definition assoc_type_decl : M AssocTypeDecl :=
  let! prev := previous in
  let s := start (tok_span prev) in
  let! name := consume_identifier "expected associated type name" in
  let! eq := matches Equal in
  let! default_ := opt_if eq ty in
  do! expect_semicolon in
  let! sp := span_since s in
  ret (mkAssocTypeDecl name default_ sp).

Definition field_decl (is_pub : bool) : M FieldDecl :=
  let! first := peek in
  let s := start (tok_span first) in
  let! name := consume_identifier "expected field name" in
  do! consume Colon "expected `:` after field name" in
  let! t := existential_ty in
  let! sp := span_since s in
  ret (mkFieldDecl name t is_pub [] sp).

Definition enum_variant : M EnumVariant :=
  let! first := peek in
  let s := start (tok_span first) in
  let! name := consume_identifier "expected enum variant name" in
  let! paren := matches LeftParen in
  let! fields :=
    (if paren then
       let! tys := separated_unless RightParen Comma ty in
       do! consume RightParen "expected `)` after enum variant fields" in
       ret (VTuple tys)
     else
       let! brace := matches LeftBrace in
       if brace then
         let! fields := separated_unless RightBrace Comma (field_decl false) in
         do! consume RightBrace "expected `}` after enum variant fields" in
         ret (VStruct fields)
       else ret VUnit) in
  let! sp := span_since s in
  ret (mkEnumVariant name fields [] sp).

Definition set_field (attrs : list Attribute) (d : FieldDecl) : FieldDecl :=
  let 'mkFieldDecl n t p _ sp := d in mkFieldDecl n t p attrs sp.
Definition set_variant (attrs : list Attribute) (d : EnumVariant) : EnumVariant :=
  let 'mkEnumVariant n fs _ sp := d in mkEnumVariant n fs attrs sp.

(** [check(Comptime) || check(Unsafe) || check(Iter) || check(Extern)] *)
Definition at_modifier : M bool := check_any [Comptime; Unsafe; Iter; Extern].

Definition modifiers_message : string := "expected `fn` after comptime/unsafe/iter/extern modifiers".

(** A member that a struct and an enum share: a method or a constant. *)
Definition shared_member (attrs : list Attribute) (is_pub : bool) : M (option (FnDecl + ConstDecl)) :=
  let! modifier := at_modifier in
  if modifier then
    let! d := method_member modifiers_message attrs is_pub in ret (Some (inl d))
  else
    let! f := matches Fn in
    if f then
      let! d := function_decl is_pub false false None in ret (Some (inl (set_fn attrs false d)))
    else
      let! c := matches Const in
      opt_if c (let! d := const_decl is_pub in ret (inr d)).

(** [if !self.matches(Comma) && !self.check(RightBrace) { missing_separator }] *)
Definition member_separator (message : string) : M unit := arm_separator false message.

(** One round of [struct_decl]: fields, methods, constants, associated types. *)
Definition struct_member (st : list FieldDecl * list FnDecl * list ConstDecl * list AssocTypeDecl) :
    M (list FieldDecl * list FnDecl * list ConstDecl * list AssocTypeDecl) :=
  let '(fields, methods, consts, assoc_types) := st in
  let! attrs := parse_outer_attributes in
  let! is_pub := matches Pub in
  let! t := matches Type_ in
  if t then let! d := assoc_type_decl in ret (fields, methods, consts, assoc_types ++ [d]) else
  let! member := shared_member attrs is_pub in
  match member with
  | Some (inl d) => do! matches Comma in ret (fields, methods ++ [d], consts, assoc_types)
  | Some (inr d) => do! matches Comma in ret (fields, methods, consts ++ [d], assoc_types)
  | None =>
      let! d := field_decl is_pub in
      do! member_separator "expected `,` after a struct field" in
      ret (fields ++ [set_field attrs d], methods, consts, assoc_types)
  end.

Definition struct_decl (is_pub : bool) : M StructDecl :=
  let! prev := previous in
  let s := start (tok_span prev) in
  let! name := consume_identifier "expected struct name" in
  let! generics := generic_params in
  let! generics := where_clause generics in
  do! consume LeftBrace "expected `{` before struct body" in
  let! (fields, methods, consts, assoc_types) :=
    loop (fun st =>
      let! stop := check_any [RightBrace; Eof] in
      if stop then ret (inr st) else let! st := struct_member st in ret (inl st)) ([], [], [], []) in
  let! rtok := consume RightBrace "expected `}` after struct body" in
  ret (mkStructDecl name generics fields methods consts assoc_types is_pub []
         (mkSpan (file_id (tok_span rtok)) s (end_ (tok_span rtok)))).

(** One round of [enum_decl]. *)
Definition enum_member (st : list EnumVariant * list FnDecl * list ConstDecl) :
    M (list EnumVariant * list FnDecl * list ConstDecl) :=
  let '(variants, methods, consts) := st in
  let! attrs := parse_outer_attributes in
  let! is_pub := matches Pub in
  let! member := shared_member attrs is_pub in
  match member with
  | Some (inl d) => do! matches Comma in ret (variants, methods ++ [d], consts)
  | Some (inr d) => do! matches Comma in ret (variants, methods, consts ++ [d])
  | None =>
      do! (if is_pub then error_here "PACO-E0110" "`pub` is not allowed directly before an enum variant" else ret tt) in
      let! d := enum_variant in
      do! member_separator "expected `,` after an enum variant" in
      ret (variants ++ [set_variant attrs d], methods, consts)
  end.

Definition enum_decl (is_pub : bool) : M EnumDecl :=
  let! prev := previous in
  let s := start (tok_span prev) in
  let! name := consume_identifier "expected enum name" in
  let! generics := generic_params in
  let! generics := where_clause generics in
  do! consume LeftBrace "expected `{` before enum body" in
  let! (variants, methods, consts) :=
    loop (fun st =>
      let! stop := check_any [RightBrace; Eof] in
      if stop then ret (inr st) else let! st := enum_member st in ret (inl st)) ([], [], []) in
  let! rtok := consume RightBrace "expected `}` after enum body" in
  ret (mkEnumDecl name generics variants methods consts is_pub []
         (mkSpan (file_id (tok_span rtok)) s (end_ (tok_span rtok)))).

Definition module_path : M (list string * UsePathKind) :=
  let! first := consume_identifier "expected module path" in
  let! colons := check ColonColon in
  if colons then
    let! p := while_matches ColonColon (consume_identifier "expected path segment after `::`") [first] in
    ret (p, Plain)
  else
    let! domain := check_any [Dot; Slash] in
    if domain then
      let! segments := while_matches Dot (consume_identifier "expected path segment after `.`") [first] in
      do! consume Slash "expected `/` after domain segments" in
      let! seg := consume_identifier "expected path segment after `/`" in
      let! segments := while_matches Slash (consume_identifier "expected path segment after `/`") (segments ++ [seg]) in
      ret (segments, Domain)
    else ret ([first], Plain).

Definition use_decl : M UseDecl :=
  let! prev := previous in
  let s := start (tok_span prev) in
  let! (p, k) := module_path in
  let! as_ := matches As in
  let! alias := opt_if as_ (consume_identifier "expected alias name after `as`") in
  let! prev := previous in
  let e := end_ (tok_span prev) in
  do! expect_semicolon in
  let! prev := previous in
  ret (mkUseDecl p alias k (mkSpan (file_id (tok_span prev)) s e)).

Definition trait_fn_decl : M FnSignature :=
  let! prev := previous in
  let s := start (tok_span prev) in
  let! name := consume_identifier "expected function name" in
  let! generics := generic_params in
  do! consume LeftParen "expected `(` after function name" in
  let! params := parameter_list in
  do! consume RightParen "expected `)` after parameters" in
  let! arrow := matches Arrow in
  let! return_ty := opt_if arrow existential_ty in
  let! generics := where_clause generics in
  let! semi := matches Semicolon in
  let! body := opt_if (negb semi) block in
  let! sp := span_since s in
  ret (mkFnSignature name generics params return_ty body [] sp).

(** One round of [trait_decl]. *)
Definition trait_member (st : list FnSignature * list ConstDecl * list AssocTypeDecl) :
    M (list FnSignature * list ConstDecl * list AssocTypeDecl) :=
  let '(methods, consts, assoc_types) := st in
  let! f := matches Fn in
  if f then let! d := trait_fn_decl in ret (methods ++ [d], consts, assoc_types) else
  let! t := matches Type_ in
  if t then let! d := assoc_type_decl in ret (methods, consts, assoc_types ++ [d]) else
  let! c := matches Const in
  if c then let! d := const_decl false in ret (methods, consts ++ [d], assoc_types) else
  do! error_here "PACO-E0110" "expected item declaration" in
  do! synchronize_trait_member in
  ret (methods, consts, assoc_types).

Definition trait_decl (is_pub : bool) : M TraitDecl :=
  let! prev := previous in
  let s := start (tok_span prev) in
  let! name := consume_identifier "expected trait name" in
  let! generics := generic_params in
  let! generics := where_clause generics in
  do! consume LeftBrace "expected `{` before trait body" in
  let! (methods, consts, assoc_types) :=
    loop (fun st =>
      let! stop := check_any [RightBrace; Eof] in
      if stop then ret (inr st) else let! st := trait_member st in ret (inl st)) ([], [], []) in
  let! rtok := consume RightBrace "expected `}` after trait body" in
  ret (mkTraitDecl name generics methods consts assoc_types is_pub []
         (mkSpan (file_id (tok_span rtok)) s (end_ (tok_span rtok)))).

Definition set_struct (attrs : list Attribute) (d : StructDecl) : StructDecl :=
  let 'mkStructDecl n g fs ms cs ats p _ sp := d in mkStructDecl n g fs ms cs ats p attrs sp.
Definition set_enum (attrs : list Attribute) (d : EnumDecl) : EnumDecl :=
  let 'mkEnumDecl n g vs ms cs p _ sp := d in mkEnumDecl n g vs ms cs p attrs sp.
Definition set_trait (attrs : list Attribute) (d : TraitDecl) : TraitDecl :=
  let 'mkTraitDecl n g ms cs ats p _ sp := d in mkTraitDecl n g ms cs ats p attrs sp.
Definition set_extern (attrs : list Attribute) (d : ExternBlock) : ExternBlock :=
  let 'mkExternBlock abi fs _ sp := d in mkExternBlock abi fs attrs sp.

Definition module_decl : M (option ModuleDecl) :=
  let! c := matches Module_ in
  if negb c then ret None
  else
    let! prev := previous in
    let s := start (tok_span prev) in
    let! name := consume_identifier "expected module name" in
    do! expect_semicolon in
    let! sp := span_since s in
    ret (Some (mkModuleDecl name sp)).

(** The items of [parse_module] that start with a modifier. *)
Definition modified_item (attrs : list Attribute) (is_pub : bool) : M (list Item) :=
  let! (is_comptime, is_unsafe, is_iter, extern_abi) := function_modifiers in
  let! f := matches Fn in
  if f then
    let! d := function_decl is_pub is_unsafe is_iter extern_abi in
    ret [IFn (set_fn attrs is_comptime d)]
  else
    match extern_abi with
    | Some abi => let! b := extern_block abi in ret [IExtern (set_extern attrs b)]
    | None =>
        do! error_here "PACO-E0110" "expected `fn` after `unsafe`" in
        do! synchronize_item in
        ret []
    end.

(** One round of [parse_module]: the items it adds. *)
Definition item : M (list Item) :=
  let! m := check Module_ in
  if m then
    do! error_here "PACO-E0110" "`module` declaration must be the first thing in the file" in
    do! advance in ret []
  else
  let! attrs := parse_outer_attributes in
  let! is_pub := matches Pub in
  let! modifier := at_modifier in
  if modifier then modified_item attrs is_pub else
  let! c := matches Fn in
  if c then let! d := function_decl is_pub false false None in ret [IFn (set_fn attrs false d)] else
  let! c := matches Struct in
  if c then let! d := struct_decl is_pub in ret [IStruct (set_struct attrs d)] else
  let! c := matches Enum in
  if c then let! d := enum_decl is_pub in ret [IEnum (set_enum attrs d)] else
  let! c := matches Methods in
  if c then let! d := methods_block in ret [IMethods d] else
  let! c := matches Use in
  if c then let! d := use_decl in ret [IUse d] else
  let! c := matches Const in
  if c then let! d := const_decl is_pub in ret [IConst d] else
  let! c := matches Trait in
  if c then let! d := trait_decl is_pub in ret [ITrait (set_trait attrs d)] else
  do! error_here "PACO-E0110" "expected item declaration" in
  do! synchronize_item in
  ret [].

Definition module_items : M Module :=
  let! first := peek in
  let s := start (tok_span first) in
  let! name := module_decl in
  let! items :=
    loop (fun items =>
      let! stop := check Eof in
      if stop then ret (inr items) else let! new := item in ret (inl (items ++ new))) [] in
  let! last_ := peek in
  ret (mkModule name items (mkSpan (file_id (tok_span last_)) s (end_ (tok_span last_)))).
End Methods.

Fixpoint parsers (n : nat) : Rec :=
  match n with
  | 0 =>
      mkRec out_of_fuel out_of_fuel out_of_fuel out_of_fuel out_of_fuel out_of_fuel out_of_fuel out_of_fuel
        out_of_fuel out_of_fuel out_of_fuel
  | S n =>
      let r := parsers n in
      mkRec (expr r) (unary r) (additive r) (if_expr r) (block r) (ty r) (pattern r) (binding_pattern r)
        (pattern_atom r) (parse_one_attribute r) (methods_block r)
  end.

(** Enough levels for a list of [n] tokens. *)
Definition depth_for (n : nat) : nat := 2 * n + 2.

Definition parse_module (ts : list Token) (rep : Reporter) : Outcome Module :=
  module_items (parsers (depth_for (length ts))) (mkParser ts rep 0 true false).
