(* ===== verification/ParseLogic.v ===== *)
(** A program logic for the parser.

    [ok p m Q]: run from the state [p], the method [m] does not panic and does
    not run out of fuel; when it returns [a] in [p'], the position has not
    moved back, both flags have their old values, the diagnostics of [p] are
    still there and [Q a p'] holds; when it returns [Err(ParseError)], it has
    reported an error.  Every diagnostic it adds is an error that points into
    the tokens.  The rules below follow the definitions of [ParseBase]. *)
From S2P Require Import Prelude Floats Span Diag Lex Ast ParseBase Parse.
Open Scope nat_scope.

(** What the lexer promises of its tokens: the last one, and it alone matters,
    is [Eof]; the spans are of one file, and in order. *)
Record TokensOk (F : FileId) (ts : list Token) : Prop := {
  tokens_eof : exists t, last ts = Some t /\ kind t = Eof;
  tokens_file : Forall (fun t => file_id (tok_span t) = F /\ start (tok_span t) <= end_ (tok_span t)) ts;
  tokens_sorted : StronglySorted (fun a b => end_ (tok_span a) <= start (tok_span b)) ts }.

Section Logic.
Context (F : FileId) (toks : list Token) (T : TokensOk F toks).

Local Notation L := (length toks).

Definition span_at (i : nat) : Span := default (mkSpan F 0 0) (tok_span <$> toks !! i).
Definition kind_at (i : nat) : option TokenKind := kind <$> toks !! i.

(** ** Spans *)

Lemma span_at_lookup i t : toks !! i = Some t -> span_at i = tok_span t.
Proof. unfold span_at. by intros ->. Qed.

Lemma span_at_ok i : i < L -> file_id (span_at i) = F /\ start (span_at i) <= end_ (span_at i).
Proof.
  intros (t & E)%lookup_lt_is_Some. rewrite (span_at_lookup _ _ E).
  apply (proj1 (Forall_forall _ _) (tokens_file _ _ T)). by eapply list_elem_of_lookup_2.
Qed.

Lemma span_at_lt i j : i < j -> j < L -> end_ (span_at i) <= start (span_at j).
Proof.
  intros Hij Hj. destruct (lookup_lt_is_Some_2 toks j) as [b Eb]; [lia|].
  destruct (lookup_lt_is_Some_2 toks i) as [a Ea]; [lia|].
  rewrite (span_at_lookup _ _ Ea), (span_at_lookup _ _ Eb).
  pose proof (tokens_sorted _ _ T) as S. clear T. revert i j Hij Hj Ea Eb.
  induction S as [|x l S IH Hx]; intros [|i] [|j] Hij Hj Ea Eb; simpl in *; try lia; try done.
  - simplify_eq. apply (proj1 (Forall_forall _ _) Hx). by eapply list_elem_of_lookup_2.
  - apply (IH i j); try lia; done.
Qed.

Lemma start_mono i j : i <= j -> j < L -> start (span_at i) <= start (span_at j).
Proof.
  intros Hij Hj. destruct (decide (i = j)) as [->|]; [done|].
  pose proof (span_at_lt i j). pose proof (span_at_ok i). lia.
Qed.

Lemma end_mono i j : i <= j -> j < L -> end_ (span_at i) <= end_ (span_at j).
Proof.
  intros Hij Hj. destruct (decide (i = j)) as [->|]; [done|].
  pose proof (span_at_lt i j). pose proof (span_at_ok j). lia.
Qed.

(** The span [sp] lies inside the tokens from [lo] up to [hi] (exclusive). *)
Record within (lo hi : nat) (sp : Span) : Prop := {
  within_bounds : lo < hi <= L;
  within_file : file_id sp = F;
  within_lo : start (span_at lo) <= start sp;
  within_ordered : start sp <= end_ sp;
  within_hi : end_ sp <= end_ (span_at (hi - 1)) }.

Lemma within_token i : i < L -> within i (S i) (span_at i).
Proof. intros H. pose proof (span_at_ok i H). split; try replace (S i - 1) with i by lia; try lia; tauto. Qed.

Lemma within_weaken lo hi lo' hi' sp : within lo hi sp -> lo' <= lo -> hi <= hi' -> hi' <= L -> within lo' hi' sp.
Proof.
  intros [H1 H2 H3 H4 H5] Hlo Hhi HL. split; try done; try lia.
  - pose proof (start_mono lo' lo). lia.
  - pose proof (end_mono (hi - 1) (hi' - 1)). lia.
Qed.

(** From a token to a token, from a token to a node, from a node to a token,
    from a node to a node. *)
Lemma within_tt lo hi i j f :
  f = F -> lo <= i -> i <= j -> j < hi -> hi <= L -> within lo hi (mkSpan f (start (span_at i)) (end_ (span_at j))).
Proof.
  intros -> H1 H2 H3 H4.
  pose proof (start_mono lo i). pose proof (start_mono i j). pose proof (span_at_ok j).
  pose proof (end_mono j (hi - 1)). split; simpl; try done; lia.
Qed.

Lemma within_tn lo hi i c d f s :
  within c d s -> f = F -> lo <= i -> i <= c -> d <= hi -> hi <= L -> within lo hi (mkSpan f (start (span_at i)) (end_ s)).
Proof.
  intros [B1 B2 B3 B4 B5] -> H1 H2 H3 H4.
  pose proof (start_mono lo i). pose proof (start_mono i c). pose proof (end_mono (d - 1) (hi - 1)).
  split; simpl; try done; lia.
Qed.

Lemma within_nt lo hi j a b f s :
  within a b s -> f = F -> lo <= a -> b <= S j -> j < hi -> hi <= L -> within lo hi (mkSpan f (start s) (end_ (span_at j))).
Proof.
  intros [B1 B2 B3 B4 B5] -> H1 H2 H3 H4.
  pose proof (start_mono lo a). pose proof (end_mono (b - 1) j). pose proof (end_mono j (hi - 1)).
  split; simpl; try done; lia.
Qed.

Lemma within_nn lo hi a b c d f s s' :
  within a b s -> within c d s' -> f = F -> lo <= a -> b <= c -> d <= hi -> hi <= L ->
  within lo hi (mkSpan f (start s) (end_ s')).
Proof.
  intros [B1 B2 B3 B4 B5] [D1 D2 D3 D4 D5] -> H1 H2 H3 H4.
  pose proof (start_mono lo a). pose proof (span_at_lt (b - 1) c). pose proof (end_mono (d - 1) (hi - 1)).
  split; simpl; try done; lia.
Qed.

Lemma within_max lo hi s s' f :
  within lo hi s -> within lo hi s' -> f = F -> within lo hi (mkSpan f (start (span_at lo)) (end_ s `max` end_ s')).
Proof. intros [B1 B2 B3 B4 B5] [D1 D2 D3 D4 D5] ->. split; simpl; try done; lia. Qed.

Lemma within_join lo hi a b c d j e e' :
  within a b (expr_span e) -> within c d (expr_span e') -> lo <= a -> b <= c -> d <= hi -> hi <= L -> a <= j < hi ->
  within lo hi (join_expr_span e e' (span_at j)).
Proof.
  intros [B1 B2 B3 B4 B5] [D1 D2 D3 D4 D5] H1 H2 H3 H4 H5.
  pose proof (start_mono lo a). pose proof (start_mono a j). pose proof (span_at_lt (b - 1) c).
  pose proof (end_mono (d - 1) (hi - 1)). pose proof (end_mono j (hi - 1)).
  unfold join_expr_span. split; simpl; try done; lia.
Qed.

(** ** States *)

Record good (p : Parser) : Prop := {
  good_tokens : tokens p = toks;
  good_current : current p < L }.

(** A diagnostic of the parser. *)
Definition reported (d : Diagnostic) : Prop := d_severity d = Error /\ within 0 L (label_span (d_primary d)).

Record moved (p p' : Parser) (ds : list Diagnostic) : Prop := {
  moved_good : good p';
  moved_current : current p <= current p';
  moved_struct_flag : allow_struct_literals p' = allow_struct_literals p;
  moved_existential_flag : allow_existentials p' = allow_existentials p;
  moved_reporter : diagnostics (reporter p') = diagnostics (reporter p) ++ ds;
  moved_reported : Forall reported ds }.

Lemma parser_moved_refl p : good p -> moved p p [].
Proof. split; rewrite ?app_nil_r; done. Qed.

Lemma parser_moved_trans p1 p2 p3 ds ds' : moved p1 p2 ds -> moved p2 p3 ds' -> moved p1 p3 (ds ++ ds').
Proof.
  intros [] []. split; try done; try lia; try congruence.
  - rewrite app_assoc. congruence.
  - by apply Forall_app.
Qed.

Definition ok {A} (p : Parser) (m : M A) (Q : A -> Parser -> Prop) : Prop :=
  match m p with
  | Done a p' => (exists ds, moved p p' ds) /\ Q a p'
  | Failed p' => exists ds, ds <> [] /\ moved p p' ds
  | Panicked | OutOfFuel => False
  end.

(** ** Rules *)

Lemma ok_ret {A} p (a : A) (Q : A -> Parser -> Prop) : good p -> Q a p -> ok p (ret a) Q.
Proof. intros G H. split; [by exists []; apply parser_moved_refl|done]. Qed.

Lemma ok_bind {A B} p (m : M A) (k : A -> M B) R Q :
  ok p m R -> (forall a p', good p' -> current p <= current p' -> R a p' -> ok p' (k a) Q) -> ok p (bind m k) Q.
Proof.
  unfold ok, bind. intros H K. destruct (m p) as [a p1|p1| |]; try done.
  destruct H as [[ds M] H]. specialize (K a p1 (moved_good _ _ _ M) (moved_current _ _ _ M) H).
  destruct (k a p1) as [b p2|p2| |]; try done.
  - destruct K as [[ds' M'] K]. split; [|done]. exists (ds ++ ds'). by eapply parser_moved_trans.
  - destruct K as (ds' & Hne & M'). exists (ds ++ ds'). split; [by intros [_ ?]%app_eq_nil|]. by eapply parser_moved_trans.
Qed.

Lemma ok_assoc {A B C} p (m : M A) (f : A -> M B) (k : B -> M C) Q :
  ok p (bind m (fun a => bind (f a) k)) Q -> ok p (bind (bind m f) k) Q.
Proof. unfold ok, bind. by destruct (m p). Qed.

Lemma ok_bind_ret {A B} p (a : A) (k : A -> M B) Q : ok p (k a) Q -> ok p (bind (ret a) k) Q.
Proof. done. Qed.

Lemma ok_mono {A} p (m : M A) (R Q : A -> Parser -> Prop) :
  ok p m R -> (forall a p', good p' -> current p <= current p' -> R a p' -> Q a p') -> ok p m Q.
Proof.
  unfold ok. intros H K. destruct (m p); try done. destruct H as [[ds M] H].
  split; [by exists ds|]. apply K; [eapply moved_good|eapply moved_current|]; done.
Qed.

Lemma ok_at_index p i : good p -> i < L -> ok p (at_index i) (fun t p' => p' = p /\ toks !! i = Some t).
Proof.
  intros G H. unfold ok, at_index. rewrite (good_tokens _ G).
  destruct (lookup_lt_is_Some_2 toks i) as [t E]; [lia|]. rewrite E.
  split; [exists []; by apply parser_moved_refl|done].
Qed.

(** The token at position [i]. *)
Definition token_at (i : nat) (t : Token) : Prop := tok_span t = span_at i /\ kind_at i = Some (kind t) /\ i < L.

Lemma token_at_lookup i t : toks !! i = Some t -> token_at i t.
Proof. intros E. unfold token_at, span_at, kind_at. rewrite E. split; [done|]. split; [done|]. by eapply lookup_lt_Some. Qed.

Lemma ok_peek p : good p -> ok p peek (fun t p' => p' = p /\ token_at (current p) t).
Proof.
  intros G. eapply ok_mono; [apply (ok_at_index p (current p) G), (good_current _ G)|].
  intros t p' _ _ [-> E]. split; [done|]. by apply token_at_lookup.
Qed.

Lemma ok_previous p : good p -> ok p previous (fun t p' => p' = p /\ token_at (current p - 1) t).
Proof.
  intros G. pose proof (good_current _ G). eapply ok_mono; [apply (ok_at_index p (current p - 1) G); lia|].
  intros t p' _ _ [-> E]. split; [done|]. by apply token_at_lookup.
Qed.

(** Reading the state. *)
Lemma ok_read {A} p (f : Parser -> A) : good p -> ok p (fun p => Done (f p) p) (fun a p' => p' = p).
Proof. intros G. split; [exists []; by apply parser_moved_refl|done]. Qed.

Lemma ok_get_current p : good p -> ok p get_current (fun i p' => p' = p /\ i = current p).
Proof. intros G. split; [exists []; by apply parser_moved_refl|done]. Qed.

Lemma ok_peek_next p : good p -> ok p peek_next (fun t p' => p' = p /\ forall k, next_is t k = true -> kind_at (S (current p)) = Some k).
Proof.
  intros G. unfold ok, peek_next. rewrite (good_tokens _ G). split; [exists []; by apply parser_moved_refl|].
  split; [done|]. intros k. unfold next_is, is_kind, kind_at. replace (current p + 1) with (S (current p)) by lia.
  destruct (toks !! S (current p)); [|done]. intros H%bool_decide_eq_true. simpl. by f_equal.
Qed.

Lemma ok_peek_second p : good p -> ok p peek_second (fun t p' => p' = p).
Proof. intros G. by apply (ok_read p (fun p => tokens p !! (current p + 2))). Qed.

Lemma is_kind_at i t k : token_at i t -> is_kind t k = bool_decide (kind_at i = Some k).
Proof. intros (_ & E & _). unfold is_kind. rewrite E. apply bool_decide_ext. naive_solver. Qed.

Lemma ok_check p k : good p -> ok p (check k) (fun b p' => p' = p /\ b = bool_decide (kind_at (current p) = Some k)).
Proof.
  intros G. eapply ok_bind; [by apply ok_peek|]. intros t p' G' _ [-> H].
  apply ok_ret; [done|]. split; [done|]. by apply is_kind_at.
Qed.

Lemma eof_last i : kind_at i <> Some Eof -> i < L -> S i < L.
Proof.
  intros H Hi. destruct (tokens_eof _ _ T) as (t & E & Ht). rewrite last_lookup in E.
  destruct (decide (S i = L)) as [Hl|]; [|lia]. exfalso. apply H. unfold kind_at.
  replace i with (Init.Nat.pred L) by lia. rewrite E. simpl. by rewrite Ht.
Qed.

Lemma ok_set_current p i : good p -> current p <= i < L -> ok p (set_current i) (fun _ p' => current p' = i).
Proof.
  intros G H. split; [|done]. exists []. split; simpl; rewrite ?app_nil_r; try done; try lia.
  split; simpl; [apply G|lia].
Qed.

Lemma ok_advance p :
  good p ->
  ok p advance (fun t p' => token_at (current p' - 1) t /\
    if bool_decide (kind_at (current p) = Some Eof) then p' = p else current p' = S (current p)).
Proof.
  intros G. eapply ok_bind; [by apply ok_check|]. intros b p1 _ _ [-> ->].
  case_bool_decide as E.
  - eapply ok_bind; [by apply (ok_ret _ tt (fun _ p' => p' = p))|]. intros _ p1 G1 _ ->.
    eapply ok_mono; [by apply ok_previous|]. by intros t p1 _ _ [-> ?].
  - eapply ok_bind with (R := fun _ p' => current p' = S (current p)).
    + eapply ok_bind; [by apply ok_get_current|]. intros i p1 _ _ [-> ->].
      pose proof (eof_last _ E (good_current _ G)).
      eapply ok_mono; [apply ok_set_current; [done|lia]|]. simpl. intros; lia.
    + intros _ p1 G1 _ E1. eapply ok_mono; [by apply ok_previous|]. by intros t p2 _ _ [-> ?].
Qed.

(** [advance] where a token other than [Eof] is known to be. *)
Lemma ok_advance_at p k :
  good p -> kind_at (current p) = Some k -> k <> Eof ->
  ok p advance (fun t p' => token_at (current p) t /\ current p' = S (current p)).
Proof.
  intros G E Hk. eapply ok_mono; [by apply ok_advance|]. intros t p' _ _ [Ht H].
  rewrite bool_decide_false in H by congruence. rewrite H in Ht. by replace (S (current p) - 1) with (current p) in Ht by lia.
Qed.

Lemma ok_matches p k :
  good p -> k <> Eof ->
  ok p (matches k) (fun b p' =>
    if b then current p' = S (current p) /\ kind_at (current p) = Some k
    else p' = p /\ kind_at (current p) <> Some k).
Proof.
  intros G Hk. eapply ok_bind; [by apply ok_check|]. intros b p1 _ _ [-> ->].
  case_bool_decide as E; [|by apply ok_ret].
  eapply ok_bind; [by apply (ok_advance_at p k)|]. intros t p1 G1 _ [_ H]. by apply ok_ret.
Qed.

Lemma ok_check_any p ks :
  good p -> ok p (check_any ks) (fun b p' => p' = p /\ (if b then exists k, k ∈ ks /\ kind_at (current p) = Some k
                                                      else forall k, k ∈ ks -> kind_at (current p) <> Some k)).
Proof.
  intros G. induction ks as [|k ks IH]; simpl.
  - apply ok_ret; [done|]. split; [done|]. intros k H. by apply not_elem_of_nil in H.
  - eapply ok_bind; [by apply ok_check|]. intros b p1 _ _ [-> ->]. case_bool_decide as E.
    + apply ok_ret; [done|]. split; [done|]. exists k. split; [apply list_elem_of_here|done].
    + eapply ok_mono; [exact IH|]. intros [] p1 _ _ [-> H].
      * destruct H as (k' & H & H'). split; [done|]. exists k'. split; [by apply list_elem_of_further|done].
      * split; [done|]. intros k' [->|H']%elem_of_cons; [done|auto].
Qed.

Lemma ok_push_diag p d : good p -> reported d -> ok p (push_diag d) (fun _ p' => current p' = current p).
Proof.
  intros G H. split; [|done]. exists [d]. split; simpl; try done.
  - split; simpl; [apply G|apply G].
  - by constructor.
Qed.

Lemma ok_error_here p code message : good p -> ok p (error_here code message) (fun _ p' => current p' = current p).
Proof.
  intros G. eapply ok_bind; [by apply ok_peek|]. intros t p1 _ _ [-> (E & _ & HL)].
  apply ok_push_diag; [done|]. split; [done|]. simpl. rewrite E.
  apply (within_weaken (current p) (S (current p))); [by apply within_token|lia..].
Qed.

(** An error and [Err(ParseError)]. *)
Lemma ok_error_fail {A} p code message (Q : A -> Parser -> Prop) :
  good p -> ok p (bind (error_here code message) (fun _ => fail)) Q.
Proof.
  intros G. pose proof (good_current _ G) as HL. unfold ok, error_here, bind, peek, at_index.
  rewrite (good_tokens _ G). destruct (lookup_lt_is_Some_2 toks _ HL) as [t E]. rewrite E. simpl.
  eexists [_]. split; [done|]. split; simpl; try done; [split; simpl; [apply G|done]|].
  constructor; [|done]. split; [done|]. simpl. rewrite <- (span_at_lookup _ _ E).
  apply (within_weaken (current p) (S (current p))); [by apply within_token|lia..].
Qed.

Lemma ok_missing_separator p code separator message :
  good p -> ok p (missing_separator code separator message) (fun _ p' => current p' = current p).
Proof.
  intros G. eapply ok_bind; [by apply ok_previous|]. intros t p1 _ _ [-> (E & _ & HL)].
  eapply ok_bind; [by apply ok_peek|]. intros t' p1 _ _ [-> _].
  apply ok_push_diag; [done|]. split; [done|]. simpl. rewrite E.
  pose proof (span_at_ok (current p - 1) HL) as [E1 E2].
  pose proof (start_mono 0 (current p - 1)). pose proof (end_mono (current p - 1) (L - 1)).
  split; simpl; try done; lia.
Qed.

Lemma ok_consume p k message :
  good p -> k <> Eof -> ok p (consume k message) (fun t p' => token_at (current p) t /\ kind_at (current p) = Some k /\ current p' = S (current p)).
Proof.
  intros G Hk. eapply ok_bind; [by apply ok_check|]. intros b p1 _ _ [-> ->].
  case_bool_decide as E; [|by apply ok_error_fail].
  eapply ok_mono; [by apply (ok_advance_at p k)|]. by intros t p1 _ _ [? ?].
Qed.

Lemma ok_consume_identifier p message :
  good p -> ok p (consume_identifier message) (fun _ p' => current p' = S (current p) /\ kind_at (current p) = Some Identifier).
Proof.
  intros G. eapply ok_bind; [by apply ok_consume|]. intros t p1 G1 _ (_ & ? & ?). by apply ok_ret.
Qed.

Lemma ok_expect_semicolon p : good p -> ok p expect_semicolon (fun _ _ => True).
Proof.
  intros G. eapply ok_bind; [by apply ok_matches|]. intros [] p1 G1 _ _; [by apply ok_ret|].
  eapply ok_mono; [by apply ok_missing_separator|done].
Qed.

Lemma ok_span_since p s :
  good p -> ok p (span_since s) (fun sp p' => p' = p /\ sp = mkSpan F s (end_ (span_at (current p - 1)))).
Proof.
  intros G. eapply ok_bind; [by apply ok_previous|]. intros t p1 _ _ [-> (E & _ & HL)].
  apply ok_ret; [done|]. split; [done|]. rewrite E. f_equal. by apply span_at_ok.
Qed.

Lemma ok_opt_if {A} p (c : bool) (m : M A) (Q : option A -> Parser -> Prop) :
  good p -> (c = true -> ok p m (fun a => Q (Some a))) -> (c = false -> Q None p) -> ok p (opt_if c m) Q.
Proof.
  intros G Ht Hf. destruct c; simpl; [|by apply ok_ret; auto].
  eapply ok_bind; [by apply Ht|]. intros a p' G' _ H. by apply ok_ret.
Qed.

Lemma ok_get_allow_existentials p :
  good p -> ok p get_allow_existentials (fun b p' => p' = p /\ b = allow_existentials p).
Proof. intros G. split; [exists []; by apply parser_moved_refl|done]. Qed.

Lemma ok_get_allow_struct_literals p :
  good p -> ok p get_allow_struct_literals (fun b p' => p' = p /\ b = allow_struct_literals p).
Proof. intros G. split; [exists []; by apply parser_moved_refl|done]. Qed.

(** A change of a flag that is undone, whether [m] returns or fails. *)
Lemma ok_with_flag {A} p set (old new : bool) (m : M A) (P : A -> nat -> Prop) :
  (set = set_allow_existentials /\ old = allow_existentials p \/
   set = set_allow_struct_literals /\ old = allow_struct_literals p) ->
  good p ->
  ok (set new p) m (fun a p' => P a (current p')) -> ok p (with_flag set old new m) (fun a p' => P a (current p')).
Proof.
  intros Hset G. unfold ok, with_flag. destruct (m (set new p)) as [a p'|p'| |]; try done.
  - intros [[ds [[M1 M1'] M2 M3 M4 M5 M6]] H]. split; [exists ds; split|]; destruct Hset as [[-> ->]|[-> ->]]; done.
  - intros (ds & Hne & [[M1 M1'] M2 M3 M4 M5 M6]). exists ds. split; [done|].
    split; destruct Hset as [[-> ->]|[-> ->]]; done.
Qed.

Lemma good_set_flags p b : good p -> good (set_allow_existentials b p) /\ good (set_allow_struct_literals b p).
Proof. by intros []. Qed.

(** *** Exact runs, for the code that looks ahead and goes back *)

Definition at_position (p : Parser) (i : nat) : Parser :=
  mkParser (tokens p) (reporter p) i (allow_struct_literals p) (allow_existentials p).

Lemma good_at_position p i : good p -> i < L -> good (at_position p i).
Proof. intros G H. split; [apply G|done]. Qed.

Lemma moved_at_position p i : good p -> current p <= i < L -> moved p (at_position p i) [].
Proof. intros G H. split; simpl; rewrite ?app_nil_r; try done; try lia. apply good_at_position; [done|lia]. Qed.

Lemma ok_run {A} p p' (m m' : M A) Q : m p = m' p' -> moved p p' [] -> ok p' m' Q -> ok p m Q.
Proof.
  unfold ok. intros -> M. destruct (m' p') as [a p2|p2| |]; try done.
  - intros [[ds M'] H]. split; [|done]. exists ([] ++ ds). by eapply parser_moved_trans.
  - intros (ds & Hne & M'). exists ([] ++ ds). split; [done|]. by eapply parser_moved_trans.
Qed.

Lemma at_index_run p i : good p -> i < L -> exists t, at_index i p = Done t p /\ toks !! i = Some t.
Proof.
  intros G H. unfold at_index. rewrite (good_tokens _ G).
  destruct (lookup_lt_is_Some_2 toks i H) as [t E]. rewrite E. eauto.
Qed.

Lemma check_run p k : good p -> check k p = Done (bool_decide (kind_at (current p) = Some k)) p.
Proof.
  intros G. destruct (at_index_run p (current p) G (good_current _ G)) as (t & E & El).
  unfold check, bind, peek. rewrite E. unfold ret. f_equal. by apply is_kind_at, token_at_lookup.
Qed.

Lemma advance_run p k :
  good p -> kind_at (current p) = Some k -> k <> Eof ->
  exists t, advance p = Done t (at_position p (S (current p))).
Proof.
  intros G E Hk. pose proof (eof_last (current p)) as HL. rewrite E in HL.
  specialize (HL ltac:(congruence) (good_current _ G)).
  unfold advance, bind at 1. rewrite check_run by done. rewrite bool_decide_false by congruence.
  unfold bind, get_current, set_current, previous, current at 1.
  replace (current p + 1) with (S (current p)) by lia. fold (at_position p (S (current p))).
  destruct (at_index_run (at_position p (S (current p))) (S (current p) - 1)) as (t & Et & _);
    [by apply good_at_position|lia|]. rewrite Et. eauto.
Qed.

Lemma consume_identifier_run p message :
  good p -> kind_at (current p) = Some Identifier ->
  exists s, consume_identifier message p = Done s (at_position p (S (current p))).
Proof.
  intros G E. destruct (advance_run p Identifier G E ltac:(done)) as [t Et].
  exists (to_string (lexeme t)). unfold consume_identifier, consume, bind. rewrite check_run by done.
  rewrite bool_decide_true by done. by rewrite Et.
Qed.

(** ** Loops *)

(** A loop whose rounds move the position forward ends with the fuel it has. *)
Lemma ok_loop {St A} p (body : St -> M (St + A)) (I : St -> Parser -> Prop) (Q : A -> Parser -> Prop) s :
  good p -> I s p ->
  (forall s p', good p' -> current p <= current p' -> I s p' ->
     ok p' (body s) (fun r p'' =>
       match r with inl s' => current p' < current p'' /\ I s' p'' | inr a => Q a p'' end)) ->
  ok p (loop body s) Q.
Proof.
  intros G HI HB. unfold ok at 1, loop.
  assert (H : forall n s p', L - current p' <= n -> good p' -> current p <= current p' -> I s p' -> ok p' (rounds n body s) Q).
  { induction n as [|n IH]; intros s' p' Hn G' Hc HI'.
    - pose proof (good_current _ G'). lia.
    - eapply ok_bind; [by apply HB|]. intros [s''|a] p'' G'' Hc' H.
      + apply IH; try done; try lia. tauto.
      + by apply ok_ret. }
  apply (H (S (length (tokens p))) s p); try done. rewrite (good_tokens _ G). lia.
Qed.

Lemma ok_skip_until p ks :
  good p -> ok p (skip_until ks) (fun _ p' => (forall k, k ∈ Eof :: ks -> kind_at (current p) <> Some k) -> current p < current p').
Proof.
  intros G. apply (ok_loop p _ (fun _ p' => p' = p \/ current p < current p')); [done|by left|].
  intros _ p1 G1 Hc HI. eapply ok_bind; [by apply ok_check_any|].
  intros [] p2 _ _ [-> H]; [|].
  - apply ok_ret; [done|]. intros Hno. destruct HI as [->|]; [|done]. destruct H as (k & Hk & E). by destruct (Hno k Hk).
  - assert (Hne : kind_at (current p1) <> Some Eof) by (apply H, list_elem_of_here).
    eapply ok_bind; [by apply ok_advance|]. intros t p2 G2 _ [_ E]. rewrite bool_decide_false in E by done.
    apply ok_ret; [done|]. split; [lia|]. right. lia.
Qed.

Lemma ok_separated {A} p sep (item : M A) :
  good p -> sep <> Eof ->
  (forall p', good p' -> current p <= current p' -> ok p' item (fun _ p'' => current p' < current p'')) ->
  ok p (separated sep item) (fun _ p' => current p < current p').
Proof.
  intros G Hs HB. apply (ok_loop p _ (fun _ _ => True)); [done..|].
  intros v p1 G1 Hc _. eapply ok_bind; [by apply HB|]. intros a p2 G2 _ H2.
  eapply ok_bind; [by apply ok_matches|]. intros [] p3 G3 Hc3 H3; apply ok_ret; try done; simpl; intuition lia.
Qed.

Lemma ok_separated_unless {A} p close sep (item : M A) :
  good p -> sep <> Eof ->
  (forall p', good p' -> current p <= current p' -> ok p' item (fun _ p'' => current p' < current p'')) ->
  ok p (separated_unless close sep item) (fun _ _ => True).
Proof.
  intros G Hs HB. eapply ok_bind; [by apply ok_check|]. intros b p1 _ _ [-> ->].
  case_bool_decide; [by apply ok_ret|]. eapply ok_mono; [by apply ok_separated|done].
Qed.

Lemma ok_comma_until {A} p close (item : M A) :
  good p ->
  (forall p', good p' -> current p <= current p' -> ok p' item (fun _ p'' => current p' < current p'')) ->
  ok p (comma_until close item) (fun _ _ => True).
Proof.
  intros G HB. apply (ok_loop p _ (fun _ _ => True)); [done..|].
  intros v p1 G1 Hc _. eapply ok_bind; [by apply ok_check|]. intros b p2 _ _ [-> ->].
  case_bool_decide; [by apply ok_ret|].
  eapply ok_bind; [by apply HB|]. intros a p2 G2 _ H2.
  eapply ok_bind; [by apply ok_matches|]. intros [] p3 G3 Hc3 H3; apply ok_ret; try done; simpl; intuition lia.
Qed.

(** The spans of the elements. *)
Section Spans.
Context {A : Type} (f : A -> Span) (p : Parser) (G : good p) (item : M A).
Context (HB : forall p', good p' -> current p <= current p' ->
  ok p' item (fun a p'' => within (current p') (current p'') (f a))).

Definition all_within (v : list A) (p' : Parser) : Prop :=
  Forall (fun a => within (current p) (current p') (f a)) v.

Lemma all_within_later v p1 p2 : good p2 -> all_within v p1 -> current p1 <= current p2 -> all_within v p2.
Proof.
  intros G2 H Hc. pose proof (good_current _ G2). eapply Forall_impl; [exact H|]. simpl. intros a Ha.
  eapply within_weaken; [exact Ha|lia..].
Qed.

Lemma all_within_snoc v a p1 p2 :
  good p2 -> current p <= current p1 -> all_within v p1 -> within (current p1) (current p2) (f a) -> all_within (v ++ [a]) p2.
Proof.
  intros G2 Hc H Ha. pose proof (good_current _ G2). pose proof (within_bounds _ _ _ Ha). apply Forall_app. split.
  - apply (all_within_later v p1); [done..|lia].
  - constructor; [|done]. eapply within_weaken; [exact Ha|lia..].
Qed.

Lemma ok_separated_within sep : sep <> Eof -> ok p (separated sep item) all_within.
Proof using HB G T.
  intros Hs. apply (ok_loop p _ all_within); [done|by constructor|].
  intros v p1 G1 Hc HI. eapply ok_bind; [by apply HB|]. intros a p2 G2 _ H2.
  pose proof (within_bounds _ _ _ H2). pose proof (all_within_snoc v a p1 p2 G2 Hc HI H2).
  eapply ok_bind; [by apply ok_matches|]. intros [] p3 G3 Hc3 H3; apply ok_ret; try done.
  - split; [lia|]. by apply (all_within_later _ p2).
  - destruct H3 as [-> _]. done.
Qed.

Lemma ok_separated_unless_within close sep : sep <> Eof -> ok p (separated_unless close sep item) all_within.
Proof using HB G T.
  intros Hs. eapply ok_bind; [by apply ok_check|]. intros b p1 _ _ [-> ->].
  case_bool_decide; [by apply ok_ret; [|constructor]|]. by apply ok_separated_within.
Qed.

Lemma ok_comma_until_within close : ok p (comma_until close item) all_within.
Proof using HB G T.
  apply (ok_loop p _ all_within); [done|by constructor|].
  intros v p1 G1 Hc HI. eapply ok_bind; [by apply ok_check|]. intros b p2 _ _ [-> ->].
  case_bool_decide; [by apply ok_ret|].
  eapply ok_bind; [by apply HB|]. intros a p2 G2 _ H2.
  pose proof (within_bounds _ _ _ H2). pose proof (all_within_snoc v a p1 p2 G2 Hc HI H2).
  eapply ok_bind; [by apply ok_matches|]. intros [] p3 G3 Hc3 H3; apply ok_ret; try done.
  - split; [lia|]. by apply (all_within_later _ p2).
  - destruct H3 as [-> _]. done.
Qed.
End Spans.

Lemma ok_while_matches {A} p sep (item : M A) v (I : list A -> Parser -> Prop) :
  good p -> sep <> Eof -> I v p ->
  (forall v p1 p2, good p1 -> good p2 -> current p <= current p1 -> I v p1 -> current p2 = S (current p1) ->
     ok p2 item (fun a p3 => I (v ++ [a]) p3)) ->
  ok p (while_matches sep item v) I.
Proof.
  intros G Hs HI HB. apply (ok_loop p _ I); [done..|].
  intros v' p1 G1 Hc HI1. eapply ok_bind; [by apply ok_matches|].
  intros [] p2 G2 Hc2 H; [|destruct H as [-> _]; by apply ok_ret].
  eapply ok_bind; [by eapply (HB v' p1 p2); [..|apply H]|]. intros a p3 G3 Hc3 H3. apply ok_ret; [done|]. split; [lia|done].
Qed.
End Logic.
