(* ===== verification/ParseTotal.v ===== *)
(** The parser is total.

    Every method of [Parse] meets its specification in the logic of
    [ParseLogic]: from a well-formed state it returns or fails with a report,
    never panics and never runs out of fuel, and the span of the node it
    returns lies inside the tokens it consumed.  The methods called through
    [Rec] are assumed to meet theirs at a smaller measure (twice the number of
    tokens left), and [parsers_ok] closes the induction. *)
From S2P Require Import Prelude Floats Span Diag Lex Ast ParseBase Parse ParseLogic.
Open Scope nat_scope.

Create HintDb parse.

Section Total.
Context (F : FileId) (toks : list Token) (T : TokensOk F toks).

Local Notation L := (length toks).
Local Notation good := (good toks).
Local Notation ok := (ok F toks).
Local Notation within := (within F toks).

(** The node starts with the next token. *)
Local Notation spans f p := (fun a p' => within (current p) (current p') (f a)).
(** The node starts with the keyword that was just consumed. *)
Local Notation spans_back f p := (fun a p' => within (current p - 1) (current p') (f a)).
Local Notation consumes p := (fun _ p' => current p < current p').

Record rec_ok (n : nat) (r : Rec) : Prop := {
  rec_expr p : good p -> 2 * (L - current p) + 1 < n -> ok p (r_expr r) (spans expr_span p);
  rec_unary p : good p -> 2 * (L - current p) + 1 < n -> ok p (r_unary r) (spans expr_span p);
  rec_additive p : good p -> 2 * (L - current p) + 1 < n -> ok p (r_additive r) (spans expr_span p);
  rec_block p : good p -> 2 * (L - current p) < n -> ok p (r_block r) (spans block_span p);
  rec_ty p : good p -> 2 * (L - current p) < n -> ok p (r_ty r) (spans ty_span p);
  rec_pattern p : good p -> 2 * (L - current p) < n -> ok p (r_pattern r) (spans pat_span p);
  rec_binding_pattern p : good p -> 2 * (L - current p) < n -> ok p (r_binding_pattern r) (spans pat_span p);
  rec_pattern_atom p : good p -> 2 * (L - current p) < n -> ok p (r_pattern_atom r) (spans pat_span p);
  rec_one_attribute p : good p -> 2 * (L - current p) < n -> ok p (r_one_attribute r) (consumes p);
  rec_if_expr p : good p -> 1 <= current p -> 2 * (L - current p) + 2 < n ->
    ok p (r_if_expr r) (spans_back expr_span p);
  rec_methods_block p : good p -> 2 * (L - current p) + 1 < n -> ok p (r_methods_block r) (consumes p) }.

Context (r : Rec) (n : nat) (R : rec_ok n r).

Hint Resolve ok_peek ok_previous ok_get_current ok_peek_next
  ok_peek_second ok_check ok_advance_at ok_matches ok_check_any
  ok_error_here ok_missing_separator ok_consume ok_consume_identifier
  ok_expect_semicolon ok_span_since ok_skip_until ok_separated
  ok_separated_unless ok_comma_until : parse.
Hint Resolve rec_expr rec_unary rec_additive rec_block rec_ty
  rec_pattern rec_binding_pattern rec_pattern_atom rec_one_attribute
  rec_if_expr rec_methods_block : parse.
Hint Extern 1 (_ < _) => lia : parse.
Hint Extern 1 (_ <= _) => lia : parse.
Hint Extern 1 (kind_at _ (current ?p) = Some _) =>
  repeat match goal with
  | E : current ?q = _ |- kind_at _ ?t = _ => match t with context [current q] => rewrite E end
  end; eassumption : parse.
Hint Extern 1 (start _ = start _) => f_equal; eassumption : parse.
Hint Extern 1 (_ <> Eof) => discriminate : parse.

(** Bring the facts of a specification into the context. *)
Ltac facts :=
  repeat match goal with
  | H : _ /\ _ |- _ => destruct H
  | H : exists _, _ |- _ => destruct H
  | H : token_at _ _ _ _ |- _ => destruct H as (? & ? & ?)
  | H : ?x = _ |- _ => is_var x; subst x
  | H : context [snd (_, _)] |- _ => progress cbn [snd] in H
  | H : if ?b then _ else _ |- _ => is_var b; destruct b
  | H : ?P, H' : ?P |- _ => match type of P with Prop => clear H' end
  end;
  repeat match goal with
  | W : ParseLogic.within _ _ ?lo ?hi _ |- _ =>
      lazymatch goal with
      | _ : lo < hi |- _ => fail
      | _ => destruct (within_bounds _ _ _ _ _ W)
      end
  | G : ParseLogic.good _ ?p |- _ =>
      lazymatch goal with
      | _ : current p < L |- _ => fail
      | _ => pose proof (good_current _ _ G)
      end
  end.

(** A method that spans a node consumes tokens. *)
Hint Extern 3 (ParseLogic.ok _ _ _ _ (fun _ p' => current _ < current p')) =>
  eapply ok_mono; [solve [eauto with parse]|cbv beta; intros ? ? ? ? ?; facts; lia] : parse.

(** What the conditions of the code say of the next tokens. *)
Ltac conds :=
  repeat match goal with
  | H : _ && _ = true |- _ => apply andb_true_iff in H as [? ?]
  | H : negb _ = true |- _ => apply negb_true_iff in H
  | H : negb _ = false |- _ => apply negb_false_iff in H
  | H : forall k, next_is ?t k = true -> _, E : next_is ?t ?k' = true |- _ => pose proof (H k' E); clear E
  | K : kind_at _ _ = Some (kind ?t), E : is_kind ?t _ = true |- _ => apply bool_decide_eq_true in E; rewrite E in K
  | E : bool_decide _ = true |- _ => apply bool_decide_eq_true in E
  | E : bool_decide _ = false |- _ => apply bool_decide_eq_false in E
  end.

(** One step through the code. *)
Ltac step :=
  cbn beta iota delta [negb andb orb];
  lazymatch goal with
  | |- ParseLogic.ok _ _ _ (bind (error_here _ _) (fun _ => fail)) _ => by apply (ok_error_fail F toks T)
  | |- ParseLogic.ok _ _ _ (ret _) _ => apply ok_ret; [done|]
  | |- ParseLogic.ok _ _ _ (if bool_decide _ then _ else _) _ => case_bool_decide
  | |- ParseLogic.ok _ _ _ (if ?b then _ else _) _ => destruct b eqn:?; conds
  | |- ParseLogic.ok _ _ _ (match ?a with pair _ _ => _ end) _ => destruct a; facts
  | |- ParseLogic.ok _ _ _ (bind (match ?a with pair _ _ => _ end) _) _ => destruct a; facts
  | |- ParseLogic.ok _ _ _ (bind (bind _ _) _) _ => apply ok_assoc
  | |- ParseLogic.ok _ _ _ (bind (if bool_decide _ then _ else _) _) _ => case_bool_decide
  | |- ParseLogic.ok _ _ _ (bind (if ?b then _ else _) _) _ => destruct b eqn:?; conds
  | |- ParseLogic.ok _ _ _ (bind (opt_if _ _) _) _ => unfold opt_if at 1
  | |- ParseLogic.ok _ _ _ (bind (ret _) _) _ => apply ok_bind_ret
  | |- ParseLogic.ok _ _ _ (bind _ _) _ => eapply ok_bind; [solve [eauto with parse]|]
  | |- forall _ _, ParseLogic.good _ _ -> _ => intros ? ? ? ? ?; facts
  | |- ParseLogic.ok _ _ _ _ _ => eapply ok_mono; [solve [eauto with parse]|]
  end.
Ltac steps := repeat step.

Ltac file := try done; first [apply span_at_ok; [exact T|lia] | eapply within_file; eassumption].

(** The span of a node. *)
Ltac span :=
  simpl;
  repeat match goal with E : tok_span _ = _ |- _ => rewrite E; clear E end;
  first
    [ eapply within_weaken; [exact T|eassumption|lia..]
    | eapply within_weaken; [exact T|apply (within_token F toks T); lia|lia..]
    | eapply within_join; [exact T|eassumption|eassumption|lia..]
    | apply within_tt; [exact T|file|lia..]
    | eapply within_tn; [exact T|eassumption|file|lia..]
    | eapply within_nt; [exact T|eassumption|file|lia..]
    | eapply within_nn; [exact T|eassumption|eassumption|file|lia..] ].

(** What is left at the end of a path through the code. *)
Ltac close := cbv beta iota; first [lia | done | span | repeat case_bool_decide; simpl; split; first [lia | done | span]].
Ltac run := steps; close.

(** A list of which a single element stands for itself. *)
Ltac singleton :=
  match goal with W : all_within _ _ _ _ ?v _ |- context [match ?v with _ => _ end] =>
    destruct v as [|? [|]]; [|apply Forall_inv in W; facts|]; span
  end.

Lemma literal_token_ok p : good p -> ok p literal_token (consumes p).
Proof. intros G. unfold literal_token. run. Qed.
Hint Resolve literal_token_ok : parse.

(** Loops that only consume. *)
Ltac consuming_loop := eapply (ok_loop F toks _ _ (fun _ _ => True)); [done..|intros ? ? ? ? _; facts].

Lemma while_matches_identifiers p sep message v :
  good p -> sep <> Eof -> ok p (while_matches sep (consume_identifier message) v) (fun _ _ => True).
Proof. intros G Hs. apply (ok_while_matches F toks T p sep _ v (fun _ _ => True)); try done. intros. eapply ok_mono; [eauto with parse|done]. Qed.
Hint Resolve while_matches_identifiers : parse.

Lemma optional_abi_ok p :
  good p ->
  ok p optional_abi (fun abi p' =>
    current p < current p' /\ is_Some abi \/ p' = p /\ abi = None /\ kind_at toks (current p) <> Some Extern).
Proof.
  intros G. unfold optional_abi. steps; apply ok_opt_if; try done; intros _; [|by right].
  steps. left. split; [lia|eauto].
Qed.
Hint Resolve optional_abi_ok : parse.

Lemma path_ok p : good p -> ok p path (consumes p).
Proof. intros G. unfold path. run. Qed.
Hint Resolve path_ok : parse.

Lemma starts_const_arg_ok p : good p -> ok p starts_const_arg (fun _ p' => p' = p).
Proof. intros G. unfold starts_const_arg. steps. destruct (kind _); steps; done. Qed.
Hint Resolve starts_const_arg_ok : parse.

Lemma parse_attribute_arg_ok p : good p -> 2 * (L - current p) + 1 < n -> ok p (parse_attribute_arg r) (consumes p).
Proof. intros G Hn. unfold parse_attribute_arg. run. Qed.
Hint Resolve parse_attribute_arg_ok : parse.

Lemma parse_one_attribute_ok p : good p -> 2 * (L - current p) <= n -> ok p (parse_one_attribute r) (consumes p).
Proof.
  intros G Hn. unfold parse_one_attribute. steps; try lia.
  eapply (ok_bind _ _ _ _ _ (fun _ _ => True)); [consuming_loop|]; run.
Qed.
Hint Resolve parse_one_attribute_ok : parse.

Lemma parse_outer_attributes_ok p :
  good p -> 2 * (L - current p) <= n -> ok p (parse_outer_attributes r) (fun _ p' => current p = current p' -> p' = p).
Proof.
  intros G Hn. unfold parse_outer_attributes.
  apply (ok_loop F toks _ _ (fun _ p' => current p = current p' -> p' = p)); [done..|].
  intros attrs p1 G1 Hc HI. facts. run.
Qed.
Hint Resolve parse_outer_attributes_ok : parse.

Lemma function_modifiers_ok p :
  good p -> ok p function_modifiers (fun _ p' => forall k, k ∈ [Comptime; Unsafe; Iter; Extern] -> kind_at toks (current p) = Some k -> current p < current p').
Proof.
  intros G. unfold function_modifiers. steps; intros k Hk E; try lia.
  match goal with H : _ \/ _ |- _ => destruct H end; facts; [lia|].
  exfalso. rewrite !elem_of_cons, elem_of_nil in Hk. naive_solver.
Qed.
Hint Resolve function_modifiers_ok : parse.

Hint Resolve ok_get_allow_existentials ok_get_allow_struct_literals : parse.

Lemma generic_arg_ok p : good p -> 2 * (L - current p) + 1 < n -> ok p (generic_arg r) (spans ty_span p).
Proof. intros G Hn. unfold generic_arg. run. Qed.
Hint Resolve generic_arg_ok : parse.

Lemma splice_after_ok p sp i :
  good p -> 2 * (L - current p) + 1 < n -> sp = span_at F toks i -> i < current p ->
  ok p (splice_after r sp) (fun a p' => within i (current p') a.2).
Proof. intros G Hn -> Hi. unfold splice_after. run. Qed.
Hint Resolve splice_after_ok : parse.

Lemma generic_args_close_ok p :
  good p -> 2 * (L - current p) + 1 < n ->
  ok p (generic_args_close r) (fun a p' => a.2 = end_ (span_at F toks (current p' - 1)) /\ current p < current p').
Proof.
  intros G Hn. unfold generic_args_close. steps. simpl. split; [|lia].
  match goal with E : tok_span _ = _, C : current _ = S _ |- _ => rewrite E, C end. by rewrite Nat.sub_succ, Nat.sub_0_r.
Qed.
Hint Resolve generic_args_close_ok : parse.

Lemma fn_ty_ok p s i :
  good p -> 2 * (L - current p) <= n -> s = start (span_at F toks i) -> i <= current p ->
  ok p (fn_ty r s) (fun t p' => within i (current p') (ty_span t)).
Proof. intros G Hn -> Hi. unfold fn_ty. run. Qed.
Hint Resolve fn_ty_ok : parse.

Lemma tuple_types_ok p :
  good p -> 2 * (L - current p) + 1 < n ->
  ok p (separated_unless RightParen Comma (r_ty r)) (all_within F toks ty_span p).
Proof. intros G Hn. apply ok_separated_unless_within; [done..|intros; eauto with parse|done]. Qed.
Hint Resolve tuple_types_ok : parse.

Lemma ty_ok p : good p -> 2 * (L - current p) <= n -> ok p (ty r) (spans ty_span p).
Proof.
  intros G Hn. unfold ty. steps; first [close|singleton].
Qed.
Hint Resolve ty_ok : parse.

Lemma existential_ty_ok p : good p -> 2 * (L - current p) <= n -> ok p (existential_ty r) (spans ty_span p).
Proof.
  intros G Hn. unfold existential_ty. steps.
  apply (ok_with_flag F toks _ _ _ _ _ (fun a c => within (current p) c (ty_span a))); [by left|done|].
  by apply (ty_ok (set_allow_existentials true p)); [apply good_set_flags|].
Qed.
Hint Resolve existential_ty_ok : parse.

Lemma consume_bound_ok p : good p -> 2 * (L - current p) <= n -> ok p (consume_bound r) (consumes p).
Proof. intros G Hn. unfold consume_bound. run. Qed.
Hint Resolve consume_bound_ok : parse.

Lemma bounds_list_ok p : good p -> 2 * (L - current p) <= n -> ok p (bounds_list r) (consumes p).
Proof. intros G Hn. unfold bounds_list. run. Qed.
Hint Resolve bounds_list_ok : parse.

Lemma consume_generic_parameter_ok p :
  good p -> 2 * (L - current p) <= n -> ok p (consume_generic_parameter r) (spans gp_span p).
Proof. intros G Hn. unfold consume_generic_parameter. run. Qed.
Hint Resolve consume_generic_parameter_ok : parse.

Lemma ok_report p lo hi code sp message :
  good p -> within lo hi sp -> ok p (push_diag (Diagnostic_error code sp message)) (fun _ p' => current p' = current p).
Proof.
  intros G W. apply ok_push_diag; [done|]. split; [done|]. simpl.
  destruct (within_bounds _ _ _ _ _ W). eapply within_weaken; [exact T|exact W|lia..].
Qed.

Lemma generic_params_ok p : good p -> 2 * (L - current p) <= n -> ok p (generic_params r) (fun _ _ => True).
Proof.
  intros G Hn. unfold generic_params. steps; [|done].
  eapply (ok_bind _ _ _ _ _ (fun _ _ => True)); [|run].
  match goal with |- ParseLogic.ok _ _ ?q _ _ => apply (ok_loop F toks q _ (all_within F toks gp_span q)) end; [done|by constructor|].
  intros v p1 G1 Hc HI. facts. steps; [done|].
  match goal with W : ParseLogic.within _ _ _ _ (gp_span ?a) |- _ => pose proof (all_within_snoc F toks T gp_span _ v a _ _ ltac:(eassumption) Hc HI W) end.
  destruct (List.find is_pack v) as [pack|] eqn:E.
  - apply List.find_some in E as [E _]. apply list_elem_of_In in E.
    pose proof (proj1 (Forall_forall _ _) HI _ E) as W.
    eapply ok_bind; [eapply ok_report; [done|exact W]|]. steps; [|done].
    split; [lia|]. eapply all_within_later; [done..|lia].
  - steps; [|done]. split; [lia|]. eapply all_within_later; [done..|lia].
Qed.
Hint Resolve generic_params_ok : parse.

Lemma where_clause_ok p g :
  good p -> 2 * (L - current p) <= n -> ok p (where_clause r g) (fun _ _ => True).
Proof.
  intros G Hn. unfold where_clause. steps; [|done]. consuming_loop. steps.
  destruct (extend_bounds _ _ _); [run|].
  eapply ok_assoc, ok_bind; [apply (ok_report _ 0 L); [done|span]|run].
Qed.
Hint Resolve where_clause_ok : parse.

Lemma parameter_ok p : good p -> 2 * (L - current p) <= n -> ok p (parameter r) (consumes p).
Proof. intros G Hn. unfold parameter. run. Qed.
Hint Resolve parameter_ok : parse.

Lemma parameter_list_ok p : good p -> 2 * (L - current p) <= n -> ok p (parameter_list r) (fun _ _ => True).
Proof. intros G Hn. unfold parameter_list. steps; [done|]. consuming_loop. run. Qed.
Hint Resolve parameter_list_ok : parse.

(** ** Patterns *)

Lemma struct_pattern_ok p pth s i :
  good p -> 2 * (L - current p) + 1 < n -> s = start (span_at F toks i) -> i < current p ->
  ok p (struct_pattern r pth s) (fun a p' => within i (current p') (pat_span a)).
Proof.
  intros G Hn -> Hi. unfold struct_pattern. eapply (ok_bind _ _ _ _ _ (fun _ _ => True)); [consuming_loop|]; run.
Qed.
Hint Resolve struct_pattern_ok : parse.

Lemma path_pattern_ok p : good p -> 2 * (L - current p) <= n -> ok p (path_pattern r) (spans pat_span p).
Proof.
  intros G Hn. unfold path_pattern. steps; try close.
  match goal with |- context [match ?v with _ => _ end] => destruct v as [|? [|]] end; span.
Qed.
Hint Resolve path_pattern_ok : parse.

Lemma pattern_atom_ok p : good p -> 2 * (L - current p) <= n -> ok p (pattern_atom r) (spans pat_span p).
Proof. intros G Hn. unfold pattern_atom. run. Qed.
Hint Resolve pattern_atom_ok : parse.

Lemma range_pattern_ok p : good p -> 2 * (L - current p) <= n -> ok p (range_pattern r) (spans pat_span p).
Proof. intros G Hn. unfold range_pattern. run. Qed.
Hint Resolve range_pattern_ok : parse.

Lemma binding_pattern_ok p : good p -> 2 * (L - current p) <= n -> ok p (binding_pattern r) (spans pat_span p).
Proof. intros G Hn. unfold binding_pattern. run. Qed.
Hint Resolve binding_pattern_ok : parse.

Lemma pattern_ok p : good p -> 2 * (L - current p) <= n -> ok p (pattern r) (spans pat_span p).
Proof.
  intros G Hn. unfold pattern. step. step.
  rename a into first, p' into p1.
  set (I v p' := v = [first] \/ v <> [] /\ within (current p1) (current p') (pat_span (List.last v first))).
  eapply (ok_bind _ _ _ _ _ I).
  - apply (ok_while_matches F toks T); [done..|by left|].
    intros v p2 p3 G2 G3 Hc HI E. facts. steps. right. split; [by intros [_ ?]%app_eq_nil|]. rewrite last_last. span.
  - intros v p' G' Hc HI. unfold I in HI. facts.
    destruct v as [|x [|y l]]; (destruct HI as [E|[? W]]; [try discriminate E; simplify_eq|]); try done; facts; steps;
      try span; simpl in W; span.
Qed.
Hint Resolve pattern_ok : parse.

(** ** Expressions *)

Lemma expr_without_struct_literals_ok p :
  good p -> 2 * (L - current p) + 1 < n -> ok p (expr_without_struct_literals r) (spans expr_span p).
Proof.
  intros G Hn. unfold expr_without_struct_literals. steps.
  apply (ok_with_flag F toks _ _ _ _ _ (fun a c => within (current p) c (expr_span a))); [by right|done|].
  by apply (rec_expr n r R (set_allow_struct_literals false p)); [apply good_set_flags|].
Qed.
Hint Resolve expr_without_struct_literals_ok : parse.

Lemma argument_ok p : good p -> 2 * (L - current p) + 1 < n -> ok p (argument r) (consumes p).
Proof. intros G Hn. unfold argument. run. Qed.
Hint Resolve argument_ok : parse.

Lemma call_arguments_ok p :
  good p -> 2 * (L - current p) + 1 < n ->
  ok p (call_arguments r) (fun a p' => tok_span a.2 = span_at F toks (current p' - 1) /\ current p < current p').
Proof.
  intros G Hn. unfold call_arguments, argument_list. steps. simpl. split; [|lia].
  match goal with E : tok_span _ = _, C : current _ = S _ |- _ => rewrite E, C end. by rewrite Nat.sub_succ, Nat.sub_0_r.
Qed.
Hint Resolve call_arguments_ok : parse.

Lemma struct_literal_field_ok p : good p -> 2 * (L - current p) + 1 < n -> ok p (struct_literal_field r) (consumes p).
Proof. intros G Hn. unfold struct_literal_field. run. Qed.
Hint Resolve struct_literal_field_ok : parse.

Lemma struct_literal_ok p t lo hi :
  good p -> 2 * (L - current p) + 1 < n -> within lo hi (ty_span t) -> hi <= current p ->
  ok p (struct_literal r t) (fun e p' => within lo (current p') (expr_span e)).
Proof. intros G Hn W Hi. unfold struct_literal. facts. run. Qed.
Hint Resolve struct_literal_ok : parse.

Lemma generic_type_args_ok p :
  good p -> 2 * (L - current p) <= n ->
  ok p (generic_type_args r) (fun a p' => a.2 = end_ (span_at F toks (current p' - 1)) /\ current p < current p').
Proof. intros G Hn. unfold generic_type_args. steps. split; [done|lia]. Qed.
Hint Resolve generic_type_args_ok : parse.

Lemma starts_generic_type_application_ok p :
  good p -> ok p starts_generic_type_application (fun _ p' => p' = p).
Proof. intros G. unfold starts_generic_type_application. steps; [done|by apply ok_read]. Qed.
Hint Resolve starts_generic_type_application_ok : parse.

Lemma expr_type_path_ok p t :
  good p -> 2 * (L - current p) <= n -> 1 <= current p -> tok_span t = span_at F toks (current p - 1) ->
  ok p (expr_type_path r t) (spans_back ty_span p).
Proof. intros G Hn H1 E. unfold expr_type_path. steps; span. Qed.
Hint Resolve expr_type_path_ok : parse.

Lemma path_segments_ok p pth sp lo :
  good p -> 2 * (L - current p) <= n -> within lo (current p) sp ->
  ok p (path_segments r pth sp) (fun t p' => within lo (current p') (ty_span t)).
Proof.
  intros G Hn W. unfold path_segments.
  apply (ok_loop F toks p _ (fun '(_, sp) p' => within lo (current p') sp)); [done..|].
  intros [pth1 sp1] p1 G1 Hc HI. facts.
  repeat lazymatch goal with |- ParseLogic.ok _ _ _ (bind get_current _) _ => fail | _ => step end; try span.
  destruct (advance_run F toks T p1 ColonColon G1) as [t E1]; [done..|].
  pose proof (eof_last F toks T (S (current p1))) as HL1. pose proof (eof_last F toks T (current p1)) as HL2.
  set (p2 := at_position p1 (S (current p1))) in *. set (p3 := at_position p1 (S (S (current p1)))).
  assert (G2 : good p2) by (apply good_at_position; [done|apply HL2; congruence]).
  assert (G3 : good p3) by (apply good_at_position; [done|apply HL1; [congruence|apply G2]]).
  destruct (consume_identifier_run F toks T p2 "expected path segment" G2) as [seg E2]; [done|].
  change (at_position p2 _) with p3 in E2.
  assert (exists b, starts_generic_type_application p3 = Done b p3) as [b E3].
  { unfold starts_generic_type_application, bind. rewrite (check_run F toks p3) by done. case_bool_decide; eauto. }
  assert (M3 : ParseLogic.moved F toks p1 p3 []).
  { apply moved_at_position; [done|]. pose proof (good_current _ _ G3). simpl in *. lia. }
  assert (C3 : current p3 = S (S (current p1))) by done. destruct (next_is a0 Less) eqn:EL; [destruct b|].
  - apply (ok_run F toks p1 p3 _ (let! (args, e) := generic_type_args r in
      ret (inr (TGeneric (pth1 ++ [seg]) args (mkSpan (file_id sp1) (start sp1) e))))); [|done|].
    + unfold bind, get_current. by rewrite E1, E2, E3.
    + clearbody p3. facts. steps. span.
  - unfold ParseLogic.ok, bind, get_current. rewrite E1, E2, E3. simpl. split; [|done].
    exists []. apply (moved_at_position F toks p1 (current p1)); [done|lia].
  - apply (ok_run F toks p1 p3 _ (let! prev := previous in
      ret (inl (pth1 ++ [seg], mkSpan (file_id sp1) (start sp1) (end_ (tok_span prev)))))); [|done|].
    + unfold bind, get_current. by rewrite E1, E2.
    + clearbody p3. facts. steps. split; [lia|]. span.
Qed.
Hint Resolve path_segments_ok : parse.

Lemma matches_struct_brace_ok p :
  good p -> ok p matches_struct_brace (fun b p' => if b then current p' = S (current p) else p' = p).
Proof. intros G. unfold matches_struct_brace. run. Qed.
Hint Resolve matches_struct_brace_ok : parse.

Lemma associated_item_ok p token t lo hi :
  good p -> 2 * (L - current p) <= n -> within lo hi (ty_span t) -> hi <= current p -> file_id (tok_span token) = F ->
  ok p (associated_item r token t) (fun e p' => within lo (current p') (expr_span e)).
Proof.
  intros G Hn W Hi HF. unfold associated_item. facts. do 7 step; [|steps; span].
  destruct t; try step. do 3 step; simpl in W.
  all: match goal with |- ParseLogic.ok _ _ ?q _ _ => apply (struct_literal_ok q _ lo (current q)); try done; try lia end; span.
Qed.
Hint Resolve associated_item_ok : parse.

Lemma identifier_expr_ok p :
  good p -> 2 * (L - current p) + 1 < n -> 1 <= current p -> ok p (identifier_expr r) (spans_back expr_span p).
Proof.
  intros G Hn H1. unfold identifier_expr. do 4 step.
  eapply (ok_bind _ _ _ _ _ (spans_back ty_span p)).
  - match goal with |- ParseLogic.ok _ _ _ (match ?t with _ => _ end) _ => destruct t end;
      (by apply path_segments_ok; try lia) || (apply ok_ret; done).
  - steps; try close.
    + eapply associated_item_ok; try eassumption; try lia.
      match goal with E : tok_span _ = _ |- _ => rewrite E end. apply span_at_ok; [exact T|lia].
    + match goal with W : ParseLogic.within _ _ _ _ (ty_span ?t) |- ParseLogic.ok _ _ _ (match ?t with _ => _ end) _ =>
        destruct t as [pth sp|pth args sp| | | | | | | | | | | | |]; try step; destruct pth as [|x [|]]; simpl in W; steps; span
      end.
Qed.
Hint Resolve identifier_expr_ok : parse.

(** ** Expressions with blocks *)

Lemma match_arm_ok p : good p -> 2 * (L - current p) <= n -> ok p (match_arm r) (consumes p).
Proof. intros G Hn. unfold match_arm. run. Qed.
Hint Resolve match_arm_ok : parse.

Lemma arm_separator_ok p b message : good p -> ok p (arm_separator b message) (fun _ _ => True).
Proof. intros G. unfold arm_separator. run. Qed.
Hint Resolve arm_separator_ok : parse.

Lemma match_expr_ok p :
  good p -> 2 * (L - current p) + 1 < n -> 1 <= current p -> ok p (match_expr r) (spans_back expr_span p).
Proof.
  intros G Hn H1. unfold match_expr. steps.
  eapply (ok_bind _ _ _ _ _ (fun _ _ => True)); [consuming_loop|]; run.
Qed.
Hint Resolve match_expr_ok : parse.

Lemma select_arm_ok p : good p -> 2 * (L - current p) + 1 < n -> ok p (select_arm r) (consumes p).
Proof. intros G Hn. unfold select_arm. run. Qed.
Hint Resolve select_arm_ok : parse.

Lemma select_expr_ok p :
  good p -> 2 * (L - current p) + 1 < n -> 1 <= current p -> ok p (select_expr r) (spans_back expr_span p).
Proof.
  intros G Hn H1. unfold select_expr. steps.
  eapply (ok_bind _ _ _ _ _ (fun _ _ => True)); [consuming_loop; steps; try close|run].
  match goal with |- context [match ?arm with mkSelectArm _ _ _ => _ end] => destruct arm end. run.
Qed.
Hint Resolve select_expr_ok : parse.

Lemma closure_param_ok p sp : good p -> 2 * (L - current p) <= n -> ok p (closure_param r sp) (consumes p).
Proof. intros G Hn. unfold closure_param. run. Qed.
Hint Resolve closure_param_ok : parse.

Lemma block_or_ok p other :
  good p -> 2 * (L - current p) + 1 < n -> ok p other (spans expr_span p) -> ok p (block_or r other) (spans expr_span p).
Proof. intros G Hn HO. unfold block_or. run. Qed.
Hint Resolve block_or_ok : parse.

Lemma closure_ok p :
  good p -> 2 * (L - current p) <= n -> (exists k, k ∈ [Pipe; OrOr] /\ kind_at toks (current p) = Some k) ->
  ok p (closure r) (spans expr_span p).
Proof. intros G Hn Hk. unfold closure. run. Qed.
Hint Resolve closure_ok : parse.

Lemma else_branch_ok p :
  good p -> 2 * (L - current p) <= n ->
  ok p (else_branch r) (fun o p' => match o with
    | Some e => within (current p) (current p') (expr_span e)
    | None => True
    end).
Proof. intros G Hn. unfold else_branch. run. Qed.
Hint Resolve else_branch_ok : parse.

Lemma if_let_expr_ok p sp i :
  good p -> 2 * (L - current p) <= n -> sp = span_at F toks i -> i < current p ->
  ok p (if_let_expr r sp) (fun e p' => within i (current p') (expr_span e)).
Proof.
  intros G Hn -> Hi. unfold if_let_expr. steps.
  match goal with |- context [default _ ?o] => destruct o end; facts; simpl; (apply within_max; [span|span|file]).
Qed.
Hint Resolve if_let_expr_ok : parse.

Lemma if_expr_ok p :
  good p -> 2 * (L - current p) + 1 < n -> 1 <= current p -> ok p (if_expr r) (spans_back expr_span p).
Proof.
  intros G Hn H1. unfold if_expr. steps; try close.
  match goal with |- context [match ?o with Some _ => _ | None => _ end] => destruct o end; facts; span.
Qed.
Hint Resolve if_expr_ok : parse.

Lemma while_let_expr_ok p sp i :
  good p -> 2 * (L - current p) <= n -> sp = span_at F toks i -> i < current p ->
  ok p (while_let_expr r sp) (fun e p' => within i (current p') (expr_span e)).
Proof. intros G Hn -> Hi. unfold while_let_expr. run. Qed.
Hint Resolve while_let_expr_ok : parse.

Lemma while_expr_ok p :
  good p -> 2 * (L - current p) + 1 < n -> 1 <= current p -> ok p (while_expr r) (spans_back expr_span p).
Proof. intros G Hn H1. unfold while_expr. run. Qed.
Hint Resolve while_expr_ok : parse.

Lemma for_expr_ok p :
  good p -> 2 * (L - current p) + 1 < n -> 1 <= current p -> ok p (for_expr r) (spans_back expr_span p).
Proof. intros G Hn H1. unfold for_expr. run. Qed.
Hint Resolve for_expr_ok : parse.

Lemma keyword_block_ok p build :
  good p -> 2 * (L - current p) + 1 < n -> 1 <= current p -> (forall b sp, expr_span (build b sp) = sp) ->
  ok p (keyword_block r build) (spans_back expr_span p).
Proof. intros G Hn H1 HB. unfold keyword_block. steps. rewrite HB. span. Qed.
Hint Resolve keyword_block_ok : parse.

Lemma quote_expr_ok p :
  good p -> 2 * (L - current p) + 1 < n -> 1 <= current p -> ok p (quote_expr r) (spans_back expr_span p).
Proof. intros G Hn H1. unfold quote_expr. run. Qed.
Hint Resolve quote_expr_ok : parse.

Lemma return_expr_ok p :
  good p -> 2 * (L - current p) + 1 < n -> 1 <= current p -> ok p (return_expr r) (spans_back expr_span p).
Proof. intros G Hn H1. unfold return_expr. run. Qed.
Hint Resolve return_expr_ok : parse.

Lemma paren_items_ok p :
  good p -> 2 * (L - current p) + 1 < n -> ok p (comma_until RightParen (r_expr r)) (all_within F toks expr_span p).
Proof. intros G Hn. apply ok_comma_until_within; [done..|]. intros; eauto with parse. Qed.
Hint Resolve paren_items_ok : parse.

Lemma paren_expr_ok p :
  good p -> 2 * (L - current p) + 1 < n -> 1 <= current p -> ok p (paren_expr r) (spans_back expr_span p).
Proof. intros G Hn H1. unfold paren_expr. steps. singleton. Qed.
Hint Resolve paren_expr_ok : parse.

Lemma primary_ok p : good p -> 2 * (L - current p) < n -> ok p (primary r) (spans expr_span p).
Proof. intros G Hn. unfold primary. run. Qed.
Hint Resolve primary_ok : parse.

(** ** Operators *)

Lemma index_list_ok p v :
  good p -> 2 * (L - current p) + 1 < n -> ok p (while_matches Comma (r_expr r) v) (fun _ _ => True).
Proof.
  intros G Hn. apply (ok_while_matches F toks T p Comma _ v (fun _ _ => True)); try done.
  intros. eapply ok_mono; [eauto with parse|done].
Qed.
Hint Resolve index_list_ok : parse.

Lemma postfix_step_ok p e lo :
  good p -> 2 * (L - current p) < n -> within lo (current p) (expr_span e) ->
  ok p (postfix_step r e) (fun x p' => match x with
    | inl e => current p < current p' /\ within lo (current p') (expr_span e)
    | inr e => within lo (current p') (expr_span e)
    end).
Proof.
  intros G Hn W. unfold postfix_step, span_to. facts. run.
Qed.

Lemma postfix_ok p e lo :
  good p -> 2 * (L - current p) < n -> within lo (current p) (expr_span e) ->
  ok p (postfix r e) (fun e p' => within lo (current p') (expr_span e)).
Proof.
  intros G Hn W. apply (ok_loop F toks p _ (fun e p' => within lo (current p') (expr_span e))); [done..|].
  intros e1 p1 G1 Hc HI. facts. apply postfix_step_ok; [done|lia|done].
Qed.

Lemma call_ok p : good p -> 2 * (L - current p) < n -> ok p (call r) (spans expr_span p).
Proof. intros G Hn. unfold call. do 2 step. apply postfix_ok; [done|lia|done]. Qed.
Hint Resolve call_ok : parse.

Lemma prefix_ok p operand build :
  good p -> 1 <= current p -> (forall e sp, expr_span (build e sp) = sp) -> ok p operand (spans expr_span p) ->
  ok p (prefix operand build) (spans_back expr_span p).
Proof. intros G H1 HB HO. unfold prefix. steps. rewrite HB. span. Qed.
Hint Resolve prefix_ok : parse.

Lemma unary_ok p : good p -> 2 * (L - current p) < n -> ok p (unary r) (spans expr_span p).
Proof. intros G Hn. unfold unary. run. Qed.
Hint Resolve unary_ok : parse.

Lemma cast_ok p : good p -> 2 * (L - current p) < n -> ok p (cast r) (spans expr_span p).
Proof.
  intros G Hn. unfold cast. do 2 step.
  match goal with |- ParseLogic.ok _ _ ?q _ _ =>
    apply (ok_loop F toks q _ (fun e p' => within (current p) (current p') (expr_span e))) end; [done..|].
  intros e1 p1 G1 Hc HI. facts. run.
Qed.
Hint Resolve cast_ok : parse.

Lemma find_operator_ok p ops :
  good p -> ok p (find_operator ops) (fun o p' => p' = p /\ match o with
    | Some op => exists k, (k, op) ∈ ops /\ kind_at toks (current p) = Some k
    | None => True
    end).
Proof.
  intros G. induction ops as [|[k op] ops IH]; simpl; [by apply ok_ret|].
  eapply ok_bind; [by apply ok_check|]. intros b p1 _ _ [-> ->]. case_bool_decide as E.
  - apply ok_ret; [done|]. split; [done|]. exists k. split; [apply list_elem_of_here|done].
  - eapply ok_mono; [exact IH|]. intros [op'|] p1 _ _ [-> H]; [|done]. destruct H as (k' & ? & ?).
    split; [done|]. exists k'. split; [by apply list_elem_of_further|done].
Qed.

(** The operators of a level are not the end of the tokens. *)
Definition operator_list (ops : list (TokenKind * BinaryOp)) : Prop := Forall (fun o => o.1 <> Eof) ops.

Lemma left_associative_ok p next ops :
  good p -> operator_list ops ->
  (forall p', good p' -> current p <= current p' -> ok p' next (spans expr_span p')) ->
  ok p (left_associative next ops) (spans expr_span p).
Proof.
  intros G Ho HB. unfold left_associative. eapply ok_bind; [by apply HB|]. step.
  match goal with |- ParseLogic.ok _ _ ?q _ _ =>
    apply (ok_loop F toks q _ (fun e p' => within (current p) (current p') (expr_span e))) end; [done..|].
  intros e1 p1 G1 Hc HI. facts. eapply ok_bind; [by apply find_operator_ok|].
  intros [op|] p2 G2 _ [-> Hop]; [|by apply ok_ret]. destruct Hop as (k & Hk & E).
  assert (k <> Eof) by (apply (proj1 (Forall_forall _ _) Ho _ Hk)).
  eapply ok_bind; [by eapply ok_advance_at|]. step. eapply ok_bind; [apply HB; [done|lia]|]. steps.
  split; [lia|span].
Qed.
Hint Resolve left_associative_ok : parse.
Hint Extern 1 (operator_list _) => repeat constructor; done : parse.

Lemma multiplicative_ok p : good p -> 2 * (L - current p) < n -> ok p (multiplicative r) (spans expr_span p).
Proof. intros G Hn. unfold multiplicative. run. Qed.
Hint Resolve multiplicative_ok : parse.

Lemma additive_ok p : good p -> 2 * (L - current p) < n -> ok p (additive r) (spans expr_span p).
Proof. intros G Hn. unfold additive. run. Qed.
Hint Resolve additive_ok : parse.

Lemma shift_ok p : good p -> 2 * (L - current p) < n -> ok p (shift r) (spans expr_span p).
Proof.
  intros G Hn. unfold shift. do 2 step.
  match goal with |- ParseLogic.ok _ _ ?q _ _ =>
    apply (ok_loop F toks q _ (fun e p' => within (current p) (current p') (expr_span e))) end; [done..|].
  intros e1 p1 G1 Hc HI. facts. do 2 step. step. intros next p2 G2 _ [-> Hnext].
  cbv zeta. set (adjacent := match next with Some _ => _ | None => false end). destruct adjacent eqn:Ea; subst adjacent.
  - assert (E : kind_at toks (S (current p1)) = Some (kind a0)).
    { destruct next as [t|]; [|done]. conds. apply Hnext. unfold next_is, is_kind. by apply bool_decide_eq_true. }
    destruct (kind a0) eqn:Ek; steps; try close; (split; [lia|span]).
  - destruct (kind a0); steps; close.
Qed.
Hint Resolve shift_ok : parse.

Lemma bit_and_ok p : good p -> 2 * (L - current p) < n -> ok p (bit_and r) (spans expr_span p).
Proof. intros G Hn. unfold bit_and. run. Qed.
Hint Resolve bit_and_ok : parse.

Lemma bit_xor_ok p : good p -> 2 * (L - current p) < n -> ok p (bit_xor r) (spans expr_span p).
Proof. intros G Hn. unfold bit_xor. run. Qed.
Hint Resolve bit_xor_ok : parse.

Lemma bit_or_ok p : good p -> 2 * (L - current p) < n -> ok p (bit_or r) (spans expr_span p).
Proof. intros G Hn. unfold bit_or. run. Qed.
Hint Resolve bit_or_ok : parse.

Lemma comparison_ok p : good p -> 2 * (L - current p) < n -> ok p (comparison r) (spans expr_span p).
Proof.
  intros G Hn. unfold comparison. do 2 step. eapply ok_bind; [by apply find_operator_ok|].
  intros [op|] p2 G2 _ [-> Hop]; [|by apply ok_ret]. destruct Hop as (k & Hk & E).
  assert (k <> Eof) by (intros ->; by repeat apply elem_of_cons in Hk as [Hk|Hk]; [..|apply not_elem_of_nil in Hk]).
  eapply ok_bind; [by eapply ok_advance_at|]. steps. span.
Qed.
Hint Resolve comparison_ok : parse.

Lemma logical_and_ok p : good p -> 2 * (L - current p) < n -> ok p (logical_and r) (spans expr_span p).
Proof. intros G Hn. unfold logical_and. run. Qed.
Hint Resolve logical_and_ok : parse.

Lemma logical_or_ok p : good p -> 2 * (L - current p) < n -> ok p (logical_or r) (spans expr_span p).
Proof. intros G Hn. unfold logical_or. run. Qed.
Hint Resolve logical_or_ok : parse.

Lemma expr_ok p : good p -> 2 * (L - current p) < n -> ok p (expr r) (spans expr_span p).
Proof. intros G Hn. unfold expr, assignment. run. Qed.
Hint Resolve expr_ok : parse.

(** ** Statements *)

Lemma let_stmt_ok p : good p -> 2 * (L - current p) < n -> ok p (let_stmt r) (consumes p).
Proof. intros G Hn. unfold let_stmt. run. Qed.
Hint Resolve let_stmt_ok : parse.

Lemma finish_statement_ok p stmts tail e : good p -> ok p (finish_statement stmts tail e) (fun _ _ => True).
Proof. intros G. unfold finish_statement. run. Qed.
Hint Resolve finish_statement_ok : parse.

Lemma starts_block_like_ok p : good p -> ok p starts_block_like (fun _ p' => p' = p).
Proof. intros G. unfold starts_block_like. run. Qed.
Hint Resolve starts_block_like_ok : parse.

Lemma block_step_ok p st : good p -> 2 * (L - current p) < n -> ok p (block_step r st) (consumes p).
Proof.
  intros G Hn. unfold block_step. steps; try close.
  eapply ok_bind; [apply (postfix_ok _ _ (current p)); [done|lia|span]|run].
Qed.
Hint Resolve block_step_ok : parse.

Lemma block_ok p : good p -> 2 * (L - current p) <= n -> ok p (block r) (spans block_span p).
Proof.
  intros G Hn. unfold block. steps.
  eapply (ok_bind _ _ _ _ _ (fun _ _ => True)); [consuming_loop|]; run.
Qed.
Hint Resolve block_ok : parse.

(** ** Declarations *)

Lemma function_decl_ok p is_pub is_unsafe is_iter abi :
  good p -> 2 * (L - current p) <= n -> ok p (function_decl r is_pub is_unsafe is_iter abi) (consumes p).
Proof. intros G Hn. unfold function_decl. run. Qed.
Hint Resolve function_decl_ok : parse.

Lemma method_member_ok p message attrs is_pub :
  good p -> 2 * (L - current p) <= n -> ok p (method_member r message attrs is_pub) (consumes p).
Proof. intros G Hn. unfold method_member. run. Qed.
Hint Resolve method_member_ok : parse.

Lemma const_decl_ok p is_pub : good p -> 2 * (L - current p) <= n -> ok p (const_decl r is_pub) (consumes p).
Proof. intros G Hn. unfold const_decl. run. Qed.
Hint Resolve const_decl_ok : parse.

Lemma methods_block_ok p : good p -> 2 * (L - current p) <= n -> ok p (methods_block r) (consumes p).
Proof.
  intros G Hn. unfold methods_block. steps.
  eapply (ok_bind _ _ _ _ _ (fun _ _ => True)); [consuming_loop|]; run.
Qed.
Hint Resolve methods_block_ok : parse.

Lemma extern_fn_decl_ok p : good p -> 2 * (L - current p) <= n -> ok p (extern_fn_decl r) (consumes p).
Proof. intros G Hn. unfold extern_fn_decl. run. Qed.
Hint Resolve extern_fn_decl_ok : parse.

Lemma extern_block_ok p abi : good p -> 2 * (L - current p) <= n -> ok p (extern_block r abi) (consumes p).
Proof.
  intros G Hn. unfold extern_block. steps.
  eapply (ok_bind _ _ _ _ _ (fun _ _ => True)); [consuming_loop|]; run.
Qed.
Hint Resolve extern_block_ok : parse.

Lemma assoc_type_decl_ok p : good p -> 2 * (L - current p) <= n -> ok p (assoc_type_decl r) (consumes p).
Proof. intros G Hn. unfold assoc_type_decl. run. Qed.
Hint Resolve assoc_type_decl_ok : parse.

Lemma field_decl_ok p is_pub : good p -> 2 * (L - current p) <= n -> ok p (field_decl r is_pub) (consumes p).
Proof. intros G Hn. unfold field_decl. run. Qed.
Hint Resolve field_decl_ok : parse.

Lemma enum_variant_ok p : good p -> 2 * (L - current p) <= n -> ok p (enum_variant r) (consumes p).
Proof. intros G Hn. unfold enum_variant. run. Qed.
Hint Resolve enum_variant_ok : parse.

Lemma at_modifier_ok p :
  good p -> ok p at_modifier (fun b p' => p' = p /\
    (b = true -> exists k, k ∈ [Comptime; Unsafe; Iter; Extern] /\ kind_at toks (current p) = Some k)).
Proof. intros G. unfold at_modifier. steps; naive_solver. Qed.
Hint Resolve at_modifier_ok : parse.

Lemma shared_member_ok p attrs is_pub :
  good p -> 2 * (L - current p) <= n ->
  ok p (shared_member r attrs is_pub) (fun o p' => match o with Some _ => current p < current p' | None => p' = p end).
Proof. intros G Hn. unfold shared_member. steps; try close; apply ok_opt_if; try done; intros _. steps. lia. Qed.
Hint Resolve shared_member_ok : parse.

Ltac member := match goal with |- ParseLogic.ok _ _ _ (match ?o with inl _ => _ | inr _ => _ end) _ => destruct o end.

Lemma struct_member_ok p st : good p -> 2 * (L - current p) <= n -> ok p (struct_member r st) (consumes p).
Proof. intros G Hn. destruct st as [[[? ?] ?] ?]. unfold struct_member, member_separator. steps; try close; member; run. Qed.
Hint Resolve struct_member_ok : parse.

Lemma enum_member_ok p st : good p -> 2 * (L - current p) <= n -> ok p (enum_member r st) (consumes p).
Proof. intros G Hn. destruct st as [[? ?] ?]. unfold enum_member, member_separator. steps; try close; member; run. Qed.
Hint Resolve enum_member_ok : parse.

(** The bodies of structs and enums. *)
Ltac member_loop := eapply (ok_bind _ _ _ _ _ (fun _ _ => True)); [consuming_loop|]; run.

Lemma struct_decl_ok p is_pub : good p -> 2 * (L - current p) <= n -> ok p (struct_decl r is_pub) (consumes p).
Proof. intros G Hn. unfold struct_decl. steps. member_loop. Qed.
Hint Resolve struct_decl_ok : parse.

Lemma enum_decl_ok p is_pub : good p -> 2 * (L - current p) <= n -> ok p (enum_decl r is_pub) (consumes p).
Proof. intros G Hn. unfold enum_decl. steps. member_loop. Qed.
Hint Resolve enum_decl_ok : parse.

Lemma module_path_ok p : good p -> ok p module_path (consumes p).
Proof. intros G. unfold module_path. run. Qed.
Hint Resolve module_path_ok : parse.

Lemma use_decl_ok p : good p -> ok p use_decl (consumes p).
Proof. intros G. unfold use_decl. run. Qed.
Hint Resolve use_decl_ok : parse.

Lemma trait_fn_decl_ok p : good p -> 2 * (L - current p) <= n -> ok p (trait_fn_decl r) (consumes p).
Proof. intros G Hn. unfold trait_fn_decl. run. Qed.
Hint Resolve trait_fn_decl_ok : parse.

(** Skipping to the next declaration moves forward, since the next token does not start one. *)
Ltac synchronized :=
  match goal with H : (forall k, k ∈ _ -> kind_at _ (current ?q) <> _) -> current ?q < current ?q' |- _ =>
    enough (current q < current q') by lia; apply H; let k := fresh "k" in let Hin := fresh "Hin" in intros k Hin;
    match goal with E : current q = _ |- _ => rewrite E end; rewrite !elem_of_cons, elem_of_nil in Hin; naive_solver
  end.

Lemma trait_member_ok p st :
  good p -> 2 * (L - current p) <= n -> (forall k, k ∈ [RightBrace; Eof] -> kind_at toks (current p) <> Some k) ->
  ok p (trait_member r st) (consumes p).
Proof.
  intros G Hn Hk. destruct st as [[? ?] ?]. unfold trait_member, synchronize_trait_member. steps; try close.
  assert (kind_at toks (current p) <> Some RightBrace /\ kind_at toks (current p) <> Some Eof) as [? ?] by (split; apply Hk; set_solver).
  clear Hk. synchronized.
Qed.
Hint Resolve trait_member_ok : parse.

Lemma trait_decl_ok p is_pub : good p -> 2 * (L - current p) <= n -> ok p (trait_decl r is_pub) (consumes p).
Proof. intros G Hn. unfold trait_decl. steps. member_loop. Qed.
Hint Resolve trait_decl_ok : parse.

Lemma module_decl_ok p : good p -> ok p module_decl (fun _ _ => True).
Proof. intros G. unfold module_decl. run. Qed.
Hint Resolve module_decl_ok : parse.

Lemma modified_item_ok p attrs is_pub :
  good p -> 2 * (L - current p) <= n ->
  (exists k, k ∈ [Comptime; Unsafe; Iter; Extern] /\ kind_at toks (current p) = Some k) ->
  ok p (modified_item r attrs is_pub) (consumes p).
Proof.
  intros G Hn (k & Hk & E). unfold modified_item, synchronize_item. do 2 step.
  assert (current p < current p') by eauto. steps; try close.
  match goal with |- ParseLogic.ok _ _ _ (match ?o with Some _ => _ | None => _ end) _ => destruct o end; run.
Qed.
Hint Resolve modified_item_ok : parse.

Lemma item_ok p : good p -> 2 * (L - current p) <= n -> kind_at toks (current p) <> Some Eof -> ok p (item r) (consumes p).
Proof.
  intros G Hn Hk. unfold item, synchronize_item. steps; try close.
  destruct (decide (current p = current p')) as [E|]; [|lia]. rewrite E in Hk. synchronized.
Qed.
Hint Resolve item_ok : parse.

Lemma module_items_ok p :
  good p -> 2 * (L - current p) <= n ->
  ok p (module_items r) (fun m p' =>
    kind_at toks (current p') = Some Eof /\ within (current p) (S (current p')) (module_span m)).
Proof.
  intros G Hn. unfold module_items. steps.
  eapply (ok_bind _ _ _ _ _ (fun _ p' => kind_at toks (current p') = Some Eof)).
  - match goal with |- ParseLogic.ok _ _ ?q _ _ => apply (ok_loop F toks q _ (fun _ _ => True)) end; [done..|].
    intros items p1 G1 Hc _. facts. run.
  - steps. split; [congruence|]. span.
Qed.
End Total.

(** ** The induction *)

Section Knot.
Context (F : FileId) (toks : list Token) (T : TokensOk F toks).

Lemma parsers_ok n : rec_ok F toks n (parsers n).
Proof.
  induction n as [|n IH]; [split; intros; lia|]. split; intros p G; simpl.
  - intros. apply (expr_ok F toks T _ n IH); [done|lia].
  - intros. apply (unary_ok F toks T _ n IH); [done|lia].
  - intros. apply (additive_ok F toks T _ n IH); [done|lia].
  - intros. apply (block_ok F toks T _ n IH); [done|lia].
  - intros. apply (ty_ok F toks T _ n IH); [done|lia].
  - intros. apply (pattern_ok F toks T _ n IH); [done|lia].
  - intros. apply (binding_pattern_ok F toks T _ n IH); [done|lia].
  - intros. apply (pattern_atom_ok F toks T _ n IH); [done|lia].
  - intros. apply (parse_one_attribute_ok F toks T _ n IH); [done|lia].
  - intros. apply (if_expr_ok F toks T _ n IH); [done|lia..].
  - intros. apply (methods_block_ok F toks T _ n IH); [done|lia].
Qed.
End Knot.
