(* ===== verification/ParseThms.v ===== *)
(** What the parser promises: [compiler/paco-syntax/src/parse.rs] on the
    tokens of [lex.rs].

    Totality, the reports of failures, the end of the input, the spans of the
    nodes, and that the fuel of the model cannot be observed. *)
From S2P Require Import Prelude Floats Span Diag Lex Ast ParseBase Parse ParseLogic ParseTotal.
Open Scope nat_scope.

(** ** The tokens of the lexer *)

Lemma StronglySorted_snoc {A} (R : A -> A -> Prop) l x :
  StronglySorted R l -> Forall (fun y => R y x) l -> StronglySorted R (l ++ [x]).
Proof.
  induction 1 as [|y l S IH Hy]; intros Hx; simpl; [by repeat constructor|].
  inversion Hx; subst. constructor; [by apply IH|]. apply Forall_app. split; [done|]. by constructor.
Qed.

Lemma lex_tokens_ok source file rep : TokensOk file (fst (lex source file rep)).
Proof.
  destruct (lex_grammar_aux source file rep) as (toks & ds & clean & E & LX & _ & _). rewrite E. simpl.
  pose proof (Lexed_slices _ _ _ _ _ LX [] eq_refl) as HS. destruct (Lexed_sorted _ _ _ _ _ LX) as [HT _].
  split.
  - exists (eof_token source file). by rewrite last_snoc.
  - apply Forall_app. split; [|by repeat constructor].
    eapply Forall_impl; [exact HS|]. simpl. intros t (_ & ? & _ & ?). split; [done|lia].
  - apply StronglySorted_snoc; [done|]. eapply Forall_impl; [exact HS|]. simpl. intros t (_ & _ & ? & _). lia.
Qed.

Lemma lex_end source file rep :
  span_at file (fst (lex source file rep)) (length (fst (lex source file rep)) - 1) = mkSpan file (str_len source) (str_len source).
Proof.
  destruct (lex_grammar_aux source file rep) as (toks & ds & clean & E & _). rewrite E. simpl.
  unfold span_at. rewrite length_app. simpl. replace (length toks + 1 - 1) with (length toks) by lia.
  by rewrite list_lookup_middle.
Qed.

(** What the whole parse does. *)
Lemma parse_module_ok F ts rep :
  TokensOk F ts ->
  ok F ts (mkParser ts rep 0 true false) (module_items (parsers (depth_for (length ts)))) (fun m p' =>
    kind_at ts (current p') = Some Eof /\ within F ts 0 (S (current p')) (module_span m)).
Proof.
  intros T. apply (module_items_ok F ts T _ _ (parsers_ok F ts T _)); [|unfold depth_for; simpl; lia].
  split; [done|]. simpl. destruct (tokens_eof _ _ T) as (t & E & _). destruct ts; [done|]. simpl. lia.
Qed.

(** C3: on every text, the lexer and the parser terminate: [parse_module]
    returns a module or [Err(ParseError)]; it never indexes past the tokens
    and never loops, whatever the text. *)
Theorem parse_total source file rep :
  let '(ts, rep') := lex source file rep in
  (exists m p, parse_module ts rep' = Done m p) \/ (exists p, parse_module ts rep' = Failed p).
Proof.
  pose proof (lex_tokens_ok source file rep) as T. destruct (lex source file rep) as [ts rep']. simpl in T.
  pose proof (parse_module_ok file ts rep' T) as H. unfold ok, parse_module in *.
  destruct (module_items _ _); try done; eauto.
Qed.

(** C4: a parse that fails has reported an error: no [ParseError] is silent.
    What a parse reports, whether it fails or recovers, is appended to what
    was reported before, is an error, and points into the text. *)
Theorem parse_reports source file rep :
  let '(ts, rep') := lex source file rep in
  forall p, ((exists m, parse_module ts rep' = Done m p) \/ parse_module ts rep' = Failed p) ->
  exists ds,
    diagnostics (reporter p) = diagnostics rep' ++ ds /\
    Forall (diag_in file 0 (str_len source)) ds /\
    (parse_module ts rep' = Failed p -> has_errors (reporter p) = true).
Proof.
  pose proof (lex_tokens_ok source file rep) as T. pose proof (lex_end source file rep) as HE.
  destruct (lex source file rep) as [ts rep']. simpl in T, HE. intros p.
  pose proof (parse_module_ok file ts rep' T) as H. unfold ok, parse_module in *.
  assert (K : forall ds, Forall (reported file ts) ds -> Forall (diag_in file 0 (str_len source)) ds).
  { intros ds Hd. eapply Forall_impl; [exact Hd|]. intros d [H1 [W1 W2 W3 W4 W5]]. rewrite HE in W5. simpl in W5.
    unfold diag_in. repeat split; try done; lia. }
  destruct (module_items _ _) as [m p'|p'| |].
  - intros [[? [= -> ->]]|]; [|done]. destruct H as [[ds M] _]. exists ds. destruct M. split; [done|]. split; [auto|done].
  - intros [[? ?]|[= ->]]; [done|]. destruct H as (ds & Hne & M). exists ds. destruct M. split; [done|]. split; [auto|].
    intros _. unfold has_errors. rewrite moved_reporter, existsb_app.
    destruct ds as [|d ds]; [done|]. inversion moved_reported as [|? ? [Hd _] _]; subst. simpl.
    rewrite bool_decide_true by done. simpl. by rewrite orb_true_r.
  - intros [[? ?]|]; done.
  - intros [[? ?]|]; done.
Qed.

(** a parse that succeeds has read the whole text: it stops at the final
    [Eof], the module's span ends at the end of the text, and both flags of
    the parser have their first values again. *)
Theorem parse_to_end source file rep :
  let '(ts, rep') := lex source file rep in
  forall m p, parse_module ts rep' = Done m p ->
    ts !! current p = Some (eof_token source file) /\ S (current p) = length ts /\
    file_id (module_span m) = file /\ end_ (module_span m) <= str_len source /\
    allow_struct_literals p = true /\ allow_existentials p = false.
Proof.
  pose proof (lex_tokens_ok source file rep) as T. pose proof (lex_end source file rep) as HE.
  destruct (lex_grammar_aux source file rep) as (toks & ds & clean & E & LX & _).
  destruct (Lexed_error _ _ _ _ _ LX) as [HnE _]. rewrite E in *. simpl in *. intros m p HP.
  pose proof (parse_module_ok file _ (mkReporter (diagnostics rep ++ ds)) T) as H. unfold ok, parse_module in *.
  rewrite HP in H. destruct H as [[ds' M] [HK W]]. destruct M, moved_good as [_ HL].
  assert (HC : current p = length toks).
  { unfold kind_at in HK. rewrite length_app in HL. simpl in HL.
    destruct (decide (current p < length toks)) as [Hlt|]; [|lia]. exfalso.
    rewrite lookup_app_l in HK by done. destruct (toks !! current p) as [t|] eqn:Et; [|done].
    apply (proj1 (Forall_forall _ _) HnE t); [by eapply list_elem_of_lookup_2|]. by injection HK. }
  destruct W as [W1 W2 W3 W4 W5].
  rewrite HC in *. split; [by rewrite list_lookup_middle|]. split; [rewrite length_app; simpl; lia|].
  split; [done|]. split; [|done].
  replace (S (length toks) - 1) with (length (toks ++ [eof_token source file]) - 1) in W5 by (rewrite length_app; simpl; lia).
  rewrite HE in W5. done.
Qed.

(** C5: the span of every expression, type, pattern and block the parser
    returns is ordered, of the file of the tokens, and lies between the start
    of the first token and the end of the last token that were consumed for
    it; at least one token was. *)
Theorem parse_spans F ts n p :
  TokensOk F ts -> good ts p -> 2 * (length ts - current p) + 1 < n ->
  (forall e p', expr (parsers n) p = Done e p' -> within F ts (current p) (current p') (expr_span e)) /\
  (forall t p', ty (parsers n) p = Done t p' -> within F ts (current p) (current p') (ty_span t)) /\
  (forall q p', pattern (parsers n) p = Done q p' -> within F ts (current p) (current p') (pat_span q)) /\
  (forall b p', block (parsers n) p = Done b p' -> within F ts (current p) (current p') (block_span b)).
Proof.
  intros T G Hn. pose proof (parsers_ok F ts T n) as R.
  assert (K : forall A (m : M A) Q a p', ok F ts p m Q -> m p = Done a p' -> Q a p').
  { intros A m Q a p' H E. unfold ok in H. rewrite E in H. tauto. }
  split; [|split; [|split]]; intros x p'.
  - intros E. refine (K _ _ _ _ _ (expr_ok F ts T _ n R p G _) E). lia.
  - intros E. refine (K _ _ _ _ _ (ty_ok F ts T _ n R p G _) E). lia.
  - intros E. refine (K _ _ _ _ _ (pattern_ok F ts T _ n R p G _) E). lia.
  - intros E. refine (K _ _ _ _ _ (block_ok F ts T _ n R p G _) E). lia.
Qed.

Definition sample_tokens : list Token := fst (lex (chars "a + (b * 2) < f(c)[1]") FileId_ROOT Reporter_new).
Definition sample_state : Parser := mkParser sample_tokens Reporter_new 0 true false.

Lemma parse_spans_witness :
  match expr (parsers 60) sample_state with
  | Done e p' => within FileId_ROOT sample_tokens 0 (current p') (expr_span e) /\ current p' = 15
  | _ => False
  end.
Proof.
  assert (T : TokensOk FileId_ROOT sample_tokens) by apply lex_tokens_ok.
  assert (G : good sample_tokens sample_state) by (split; [reflexivity|apply Nat.ltb_lt; vm_compute; reflexivity]).
  assert (Hn : 2 * (length sample_tokens - current sample_state) + 1 < 60) by (apply Nat.ltb_lt; vm_compute; reflexivity).
  destruct (expr (parsers 60) sample_state) as [e p'|p'| |] eqn:E; [|vm_compute in E; discriminate E..].
  split; [exact (proj1 (parse_spans FileId_ROOT sample_tokens 60 sample_state T G Hn) e p' E)|].
  vm_compute in E. injection E as _ <-. reflexivity.
Defined.
