(* ===== verification/ParseFuel.v ===== *)
(** The fuel of the parser is not observable.

    [refines m m']: where [m] has enough fuel, [m'] does the same.  Every
    method is monotone in the methods it calls through [Rec], so more levels
    of [parsers] never change a result. *)
From S2P Require Import Prelude Floats Span Diag Lex Ast ParseBase Parse ParseLogic ParseTotal ParseThms.
Open Scope nat_scope.

Definition refines {A} (m m' : M A) : Prop := forall p, m p = OutOfFuel \/ m' p = m p.

Lemma refines_refl {A} (m : M A) : refines m m.
Proof. by right. Qed.

Lemma refines_out_of_fuel {A} (m : M A) : refines out_of_fuel m.
Proof. by left. Qed.

Lemma refines_bind {A B} (m m' : M A) (k k' : A -> M B) :
  refines m m' -> (forall a, refines (k a) (k' a)) -> refines (bind m k) (bind m' k').
Proof.
  intros Hm Hk p. unfold bind. destruct (Hm p) as [->| ->]; [by left|]. destruct (m p) as [a p'|p'| |]; auto.
  apply Hk.
Qed.

Lemma refines_rounds {St A} n (b b' : St -> M (St + A)) s :
  (forall s, refines (b s) (b' s)) -> refines (rounds n b s) (rounds n b' s).
Proof.
  intros H. revert s. induction n as [|n IH]; intros s; [apply refines_refl|].
  apply refines_bind; [apply H|]. intros [s'|a]; [apply IH|apply refines_refl].
Qed.

Lemma refines_loop {St A} (b b' : St -> M (St + A)) s :
  (forall s, refines (b s) (b' s)) -> refines (loop b s) (loop b' s).
Proof. intros H p. by apply refines_rounds. Qed.

Lemma refines_with_flag {A} set old new (m m' : M A) :
  refines m m' -> refines (with_flag set old new m) (with_flag set old new m').
Proof. intros H p. unfold with_flag. destruct (H (set new p)) as [-> | ->]; [by left|by right]. Qed.

(** [refines] for every method of the record. *)
Record rec_refines (r r' : Rec) : Prop := {
  refines_expr : refines (r_expr r) (r_expr r');
  refines_unary : refines (r_unary r) (r_unary r');
  refines_additive : refines (r_additive r) (r_additive r');
  refines_if_expr : refines (r_if_expr r) (r_if_expr r');
  refines_block : refines (r_block r) (r_block r');
  refines_ty : refines (r_ty r) (r_ty r');
  refines_pattern : refines (r_pattern r) (r_pattern r');
  refines_binding_pattern : refines (r_binding_pattern r) (r_binding_pattern r');
  refines_pattern_atom : refines (r_pattern_atom r) (r_pattern_atom r');
  refines_one_attribute : refines (r_one_attribute r) (r_one_attribute r');
  refines_methods_block : refines (r_methods_block r) (r_methods_block r') }.

Create HintDb refines.
#[local] Hint Resolve refines_expr refines_unary refines_additive refines_if_expr refines_block refines_ty refines_pattern
  refines_binding_pattern refines_pattern_atom refines_one_attribute refines_methods_block : refines.

(** Follow the two runs side by side. *)
Ltac side_by_side :=
  repeat (cbv beta;
    lazymatch goal with
    | |- refines ?m ?m => apply refines_refl
    | |- refines (bind _ _) (bind _ _) => apply refines_bind; [|intros ?]
    | |- refines (loop _ _) (loop _ _) => apply refines_loop; intros ?
    | |- refines (with_flag _ _ _ _) (with_flag _ _ _ _) => apply refines_with_flag
    | |- refines (match ?x with _ => _ end) _ => destruct x
    | |- _ => solve [eauto with refines]
    end).
Ltac mono f := unfold f, opt_if, separated_unless, separated, comma_until, while_matches; side_by_side.

Section Monotone.
Context (r r' : Rec) (R : rec_refines r r').

Lemma block_or_mono m m' : refines m m' -> refines (block_or r m) (block_or r' m').
Proof. intros H. mono block_or. Qed.
Hint Resolve block_or_mono : refines.

Lemma prefix_mono m m' b : refines m m' -> refines (prefix m b) (prefix m' b).
Proof. intros H. mono prefix. Qed.
Hint Resolve prefix_mono : refines.

Lemma left_associative_mono m m' ops : refines m m' -> refines (left_associative m ops) (left_associative m' ops).
Proof. intros H. mono left_associative. Qed.
Hint Resolve left_associative_mono : refines.

Lemma parse_attribute_arg_mono : refines (parse_attribute_arg r) (parse_attribute_arg r').
Proof. mono parse_attribute_arg. Qed.
Hint Resolve parse_attribute_arg_mono : refines.

Lemma parse_one_attribute_mono : refines (parse_one_attribute r) (parse_one_attribute r').
Proof. mono parse_one_attribute. Qed.
Hint Resolve parse_one_attribute_mono : refines.

Lemma parse_outer_attributes_mono : refines (parse_outer_attributes r) (parse_outer_attributes r').
Proof. mono parse_outer_attributes. Qed.
Hint Resolve parse_outer_attributes_mono : refines.

Lemma generic_arg_mono : refines (generic_arg r) (generic_arg r').
Proof. mono generic_arg. Qed.
Hint Resolve generic_arg_mono : refines.

Lemma splice_after_mono sp : refines (splice_after r sp) (splice_after r' sp).
Proof. mono splice_after. Qed.
Hint Resolve splice_after_mono : refines.

Lemma fn_ty_mono s : refines (fn_ty r s) (fn_ty r' s).
Proof. mono fn_ty. Qed.
Hint Resolve fn_ty_mono : refines.

Lemma generic_args_close_mono : refines (generic_args_close r) (generic_args_close r').
Proof. mono generic_args_close. Qed.
Hint Resolve generic_args_close_mono : refines.

Lemma ty_mono : refines (ty r) (ty r').
Proof. mono ty. Qed.
Hint Resolve ty_mono : refines.

Lemma existential_ty_mono : refines (existential_ty r) (existential_ty r').
Proof. mono existential_ty. Qed.
Hint Resolve existential_ty_mono : refines.

Lemma consume_bound_mono : refines (consume_bound r) (consume_bound r').
Proof. mono consume_bound. Qed.
Hint Resolve consume_bound_mono : refines.

Lemma bounds_list_mono : refines (bounds_list r) (bounds_list r').
Proof. mono bounds_list. Qed.
Hint Resolve bounds_list_mono : refines.

Lemma consume_generic_parameter_mono : refines (consume_generic_parameter r) (consume_generic_parameter r').
Proof. mono consume_generic_parameter. Qed.
Hint Resolve consume_generic_parameter_mono : refines.

Lemma generic_params_mono : refines (generic_params r) (generic_params r').
Proof. mono generic_params. Qed.
Hint Resolve generic_params_mono : refines.

Lemma where_clause_mono g : refines (where_clause r g) (where_clause r' g).
Proof. mono where_clause. Qed.
Hint Resolve where_clause_mono : refines.

Lemma parameter_mono : refines (parameter r) (parameter r').
Proof. mono parameter. Qed.
Hint Resolve parameter_mono : refines.

Lemma parameter_list_mono : refines (parameter_list r) (parameter_list r').
Proof. mono parameter_list. Qed.
Hint Resolve parameter_list_mono : refines.

Lemma struct_pattern_mono pth s : refines (struct_pattern r pth s) (struct_pattern r' pth s).
Proof. mono struct_pattern. Qed.
Hint Resolve struct_pattern_mono : refines.

Lemma path_pattern_mono : refines (path_pattern r) (path_pattern r').
Proof. mono path_pattern. Qed.
Hint Resolve path_pattern_mono : refines.

Lemma pattern_atom_mono : refines (pattern_atom r) (pattern_atom r').
Proof. mono pattern_atom. Qed.
Hint Resolve pattern_atom_mono : refines.

Lemma range_pattern_mono : refines (range_pattern r) (range_pattern r').
Proof. mono range_pattern. Qed.
Hint Resolve range_pattern_mono : refines.

Lemma binding_pattern_mono : refines (binding_pattern r) (binding_pattern r').
Proof. mono binding_pattern. Qed.
Hint Resolve binding_pattern_mono : refines.

Lemma pattern_mono : refines (pattern r) (pattern r').
Proof. mono pattern. Qed.
Hint Resolve pattern_mono : refines.

Lemma expr_without_struct_literals_mono : refines (expr_without_struct_literals r) (expr_without_struct_literals r').
Proof. mono expr_without_struct_literals. Qed.
Hint Resolve expr_without_struct_literals_mono : refines.

Lemma argument_mono : refines (argument r) (argument r').
Proof. mono argument. Qed.
Hint Resolve argument_mono : refines.

Lemma argument_list_mono : refines (argument_list r) (argument_list r').
Proof. mono argument_list. Qed.
Hint Resolve argument_list_mono : refines.

Lemma call_arguments_mono : refines (call_arguments r) (call_arguments r').
Proof. mono call_arguments. Qed.
Hint Resolve call_arguments_mono : refines.

Lemma struct_literal_field_mono : refines (struct_literal_field r) (struct_literal_field r').
Proof. mono struct_literal_field. Qed.
Hint Resolve struct_literal_field_mono : refines.

Lemma struct_literal_mono t : refines (struct_literal r t) (struct_literal r' t).
Proof. mono struct_literal. Qed.
Hint Resolve struct_literal_mono : refines.

Lemma generic_type_args_mono : refines (generic_type_args r) (generic_type_args r').
Proof. mono generic_type_args. Qed.
Hint Resolve generic_type_args_mono : refines.

Lemma expr_type_path_mono t : refines (expr_type_path r t) (expr_type_path r' t).
Proof. mono expr_type_path. Qed.
Hint Resolve expr_type_path_mono : refines.

Lemma path_segments_mono pth sp : refines (path_segments r pth sp) (path_segments r' pth sp).
Proof. mono path_segments. Qed.
Hint Resolve path_segments_mono : refines.

Lemma associated_item_mono tok t : refines (associated_item r tok t) (associated_item r' tok t).
Proof. mono associated_item. Qed.
Hint Resolve associated_item_mono : refines.

Lemma identifier_expr_mono : refines (identifier_expr r) (identifier_expr r').
Proof. mono identifier_expr. Qed.
Hint Resolve identifier_expr_mono : refines.

Lemma match_arm_mono : refines (match_arm r) (match_arm r').
Proof. mono match_arm. Qed.
Hint Resolve match_arm_mono : refines.

Lemma match_expr_mono : refines (match_expr r) (match_expr r').
Proof. mono match_expr. Qed.
Hint Resolve match_expr_mono : refines.

Lemma select_arm_mono : refines (select_arm r) (select_arm r').
Proof. mono select_arm. Qed.
Hint Resolve select_arm_mono : refines.

Lemma select_expr_mono : refines (select_expr r) (select_expr r').
Proof. mono select_expr. Qed.
Hint Resolve select_expr_mono : refines.

Lemma closure_param_mono sp : refines (closure_param r sp) (closure_param r' sp).
Proof. mono closure_param. Qed.
Hint Resolve closure_param_mono : refines.

Lemma closure_mono : refines (closure r) (closure r').
Proof. mono closure. Qed.
Hint Resolve closure_mono : refines.

Lemma else_branch_mono : refines (else_branch r) (else_branch r').
Proof. mono else_branch. Qed.
Hint Resolve else_branch_mono : refines.

Lemma if_let_expr_mono sp : refines (if_let_expr r sp) (if_let_expr r' sp).
Proof. mono if_let_expr. Qed.
Hint Resolve if_let_expr_mono : refines.

Lemma if_expr_mono : refines (if_expr r) (if_expr r').
Proof. mono if_expr. Qed.
Hint Resolve if_expr_mono : refines.

Lemma while_let_expr_mono sp : refines (while_let_expr r sp) (while_let_expr r' sp).
Proof. mono while_let_expr. Qed.
Hint Resolve while_let_expr_mono : refines.

Lemma while_expr_mono : refines (while_expr r) (while_expr r').
Proof. mono while_expr. Qed.
Hint Resolve while_expr_mono : refines.

Lemma for_expr_mono : refines (for_expr r) (for_expr r').
Proof. mono for_expr. Qed.
Hint Resolve for_expr_mono : refines.

Lemma keyword_block_mono b : refines (keyword_block r b) (keyword_block r' b).
Proof. mono keyword_block. Qed.
Hint Resolve keyword_block_mono : refines.

Lemma quote_expr_mono : refines (quote_expr r) (quote_expr r').
Proof. mono quote_expr. Qed.
Hint Resolve quote_expr_mono : refines.

Lemma return_expr_mono : refines (return_expr r) (return_expr r').
Proof. mono return_expr. Qed.
Hint Resolve return_expr_mono : refines.

Lemma paren_expr_mono : refines (paren_expr r) (paren_expr r').
Proof. mono paren_expr. Qed.
Hint Resolve paren_expr_mono : refines.

Lemma primary_mono : refines (primary r) (primary r').
Proof. mono primary. Qed.
Hint Resolve primary_mono : refines.

Lemma postfix_step_mono e : refines (postfix_step r e) (postfix_step r' e).
Proof. mono postfix_step. Qed.
Hint Resolve postfix_step_mono : refines.

Lemma postfix_mono e : refines (postfix r e) (postfix r' e).
Proof. mono postfix. Qed.
Hint Resolve postfix_mono : refines.

Lemma call_mono : refines (call r) (call r').
Proof. mono call. Qed.
Hint Resolve call_mono : refines.

Lemma unary_mono : refines (unary r) (unary r').
Proof. mono unary. Qed.
Hint Resolve unary_mono : refines.

Lemma cast_mono : refines (cast r) (cast r').
Proof. mono cast. Qed.
Hint Resolve cast_mono : refines.

Lemma multiplicative_mono : refines (multiplicative r) (multiplicative r').
Proof. mono multiplicative. Qed.
Hint Resolve multiplicative_mono : refines.

Lemma additive_mono : refines (additive r) (additive r').
Proof. mono additive. Qed.
Hint Resolve additive_mono : refines.

Lemma shift_mono : refines (shift r) (shift r').
Proof. mono shift. Qed.
Hint Resolve shift_mono : refines.

Lemma bit_and_mono : refines (bit_and r) (bit_and r').
Proof. mono bit_and. Qed.
Hint Resolve bit_and_mono : refines.

Lemma bit_xor_mono : refines (bit_xor r) (bit_xor r').
Proof. mono bit_xor. Qed.
Hint Resolve bit_xor_mono : refines.

Lemma bit_or_mono : refines (bit_or r) (bit_or r').
Proof. mono bit_or. Qed.
Hint Resolve bit_or_mono : refines.

Lemma comparison_mono : refines (comparison r) (comparison r').
Proof. mono comparison. Qed.
Hint Resolve comparison_mono : refines.

Lemma logical_and_mono : refines (logical_and r) (logical_and r').
Proof. mono logical_and. Qed.
Hint Resolve logical_and_mono : refines.

Lemma logical_or_mono : refines (logical_or r) (logical_or r').
Proof. mono logical_or. Qed.
Hint Resolve logical_or_mono : refines.

Lemma assignment_mono : refines (assignment r) (assignment r').
Proof. mono assignment. Qed.
Hint Resolve assignment_mono : refines.

Lemma expr_mono : refines (expr r) (expr r').
Proof. mono expr. Qed.
Hint Resolve expr_mono : refines.

Lemma let_stmt_mono : refines (let_stmt r) (let_stmt r').
Proof. mono let_stmt. Qed.
Hint Resolve let_stmt_mono : refines.

Lemma block_step_mono st : refines (block_step r st) (block_step r' st).
Proof. mono block_step. Qed.
Hint Resolve block_step_mono : refines.

Lemma block_mono : refines (block r) (block r').
Proof. mono block. Qed.
Hint Resolve block_mono : refines.

Lemma function_decl_mono a b c d : refines (function_decl r a b c d) (function_decl r' a b c d).
Proof. mono function_decl. Qed.
Hint Resolve function_decl_mono : refines.

Lemma method_member_mono a b c : refines (method_member r a b c) (method_member r' a b c).
Proof. mono method_member. Qed.
Hint Resolve method_member_mono : refines.

Lemma const_decl_mono b : refines (const_decl r b) (const_decl r' b).
Proof. mono const_decl. Qed.
Hint Resolve const_decl_mono : refines.

Lemma methods_block_mono : refines (methods_block r) (methods_block r').
Proof. mono methods_block. Qed.
Hint Resolve methods_block_mono : refines.

Lemma extern_fn_decl_mono : refines (extern_fn_decl r) (extern_fn_decl r').
Proof. mono extern_fn_decl. Qed.
Hint Resolve extern_fn_decl_mono : refines.

Lemma extern_block_mono a : refines (extern_block r a) (extern_block r' a).
Proof. mono extern_block. Qed.
Hint Resolve extern_block_mono : refines.

Lemma assoc_type_decl_mono : refines (assoc_type_decl r) (assoc_type_decl r').
Proof. mono assoc_type_decl. Qed.
Hint Resolve assoc_type_decl_mono : refines.

Lemma field_decl_mono b : refines (field_decl r b) (field_decl r' b).
Proof. mono field_decl. Qed.
Hint Resolve field_decl_mono : refines.

Lemma enum_variant_mono : refines (enum_variant r) (enum_variant r').
Proof. mono enum_variant. Qed.
Hint Resolve enum_variant_mono : refines.

Lemma shared_member_mono a b : refines (shared_member r a b) (shared_member r' a b).
Proof. mono shared_member. Qed.
Hint Resolve shared_member_mono : refines.

Lemma struct_member_mono st : refines (struct_member r st) (struct_member r' st).
Proof. mono struct_member. Qed.
Hint Resolve struct_member_mono : refines.

Lemma struct_decl_mono b : refines (struct_decl r b) (struct_decl r' b).
Proof. mono struct_decl. Qed.
Hint Resolve struct_decl_mono : refines.

Lemma enum_member_mono st : refines (enum_member r st) (enum_member r' st).
Proof. mono enum_member. Qed.
Hint Resolve enum_member_mono : refines.

Lemma enum_decl_mono b : refines (enum_decl r b) (enum_decl r' b).
Proof. mono enum_decl. Qed.
Hint Resolve enum_decl_mono : refines.

Lemma trait_fn_decl_mono : refines (trait_fn_decl r) (trait_fn_decl r').
Proof. mono trait_fn_decl. Qed.
Hint Resolve trait_fn_decl_mono : refines.

Lemma trait_member_mono st : refines (trait_member r st) (trait_member r' st).
Proof. mono trait_member. Qed.
Hint Resolve trait_member_mono : refines.

Lemma trait_decl_mono b : refines (trait_decl r b) (trait_decl r' b).
Proof. mono trait_decl. Qed.
Hint Resolve trait_decl_mono : refines.

Lemma modified_item_mono a b : refines (modified_item r a b) (modified_item r' a b).
Proof. mono modified_item. Qed.
Hint Resolve modified_item_mono : refines.

Lemma item_mono : refines (item r) (item r').
Proof. mono item. Qed.
Hint Resolve item_mono : refines.

Lemma module_items_mono : refines (module_items r) (module_items r').
Proof. mono module_items. Qed.
Hint Resolve module_items_mono : refines.
End Monotone.

Lemma parsers_step n : rec_refines (parsers n) (parsers (S n)).
Proof.
  induction n as [|n IH]; [split; apply refines_out_of_fuel|].
  split; [apply (expr_mono _ _ IH)|apply (unary_mono _ _ IH)|apply (additive_mono _ _ IH)|apply (if_expr_mono _ _ IH)
    |apply (block_mono _ _ IH)|apply (ty_mono _ _ IH)|apply (pattern_mono _ _ IH)|apply (binding_pattern_mono _ _ IH)
    |apply (pattern_atom_mono _ _ IH)|apply (parse_one_attribute_mono _ _ IH)|apply (methods_block_mono _ _ IH)].
Qed.

Lemma module_items_more n k p :
  module_items (parsers n) p <> OutOfFuel -> module_items (parsers (n + k)) p = module_items (parsers n) p.
Proof.
  intros H. induction k as [|k IH]; [by rewrite Nat.add_0_r|]. rewrite Nat.add_succ_r, <- IH.
  destruct (module_items_mono _ _ (parsers_step (n + k)) p) as [E|E]; [|done]. congruence.
Qed.

(** the depth bound of the model is not observable: every bound that is at
    least [depth_for] gives the same outcome, so the outcome of [parse_module]
    is that of the unbounded recursion of the source. *)
Theorem parse_depth_irrelevant F ts rep n :
  TokensOk F ts -> depth_for (length ts) <= n ->
  module_items (parsers n) (mkParser ts rep 0 true false) = parse_module ts rep.
Proof.
  intros T Hn. replace n with (depth_for (length ts) + (n - depth_for (length ts))) by lia.
  apply module_items_more. pose proof (parse_module_ok F ts rep T) as H. unfold ok in H. by destruct (module_items _ _).
Qed.

Lemma parse_depth_irrelevant_witness :
  let '(ts, rep) := lex (chars "fn f() { g(1) }") FileId_ROOT Reporter_new in
  module_items (parsers 100) (mkParser ts rep 0 true false) = parse_module ts rep.
Proof.
  pose proof (lex_tokens_ok (chars "fn f() { g(1) }") FileId_ROOT Reporter_new) as T.
  destruct (lex (chars "fn f() { g(1) }") FileId_ROOT Reporter_new) as [ts rep] eqn:E.
  apply (parse_depth_irrelevant FileId_ROOT ts rep 100 T).
  apply (f_equal (fun x => depth_for (length (fst x)) <=? 100)) in E. apply Nat.leb_le.
  cbn beta iota delta [fst] in E. rewrite <- E. vm_compute. reflexivity.
Defined.
