(* ===== verification/Fmt.v ===== *)
(** The formatter: [compiler/paco-syntax/src/fmt.rs].

    A method appends to the output and threads the indentation; it is partial
    because one slice of the original text may be off a char boundary, where
    Rust panics.  The output holds the bytes of the text. *)
From Stdlib Require Import SpecFloat.
From S2P Require Import Prelude Floats Span Lex Ast ParseBase.
Open Scope nat_scope.

Record Formatter := mkFormatter { output : string; indent_level : nat }.

Definition F := Formatter -> option Formatter.

Definition skip : F := fun f => Some f.
Definition seq (a b : F) : F := fun f => f' ← a f; b f'.
Declare Scope fmt_scope.
Delimit Scope fmt_scope with fmt.
Infix "+>" := seq (at level 60, right associativity) : fmt_scope.
Open Scope fmt_scope.

Definition write (s : string) : F := fun f => Some (mkFormatter (output f ++ s)%string (indent_level f)).

Fixpoint repeat_string (n : nat) (s : string) : string :=
  match n with 0 => EmptyString | S n => (s ++ repeat_string n s)%string end.

Definition write_indent : F := fun f => write (repeat_string (indent_level f) "    ") f.

Definition newline_string : string := String (Ascii.ascii_of_nat 10) EmptyString.
Definition fmt_newline : F := write newline_string.

Definition indent : F := fun f => Some (mkFormatter (output f) (S (indent_level f))).
Definition dedent : F := fun f => Some (mkFormatter (output f) (indent_level f - 1)).

(** [for x in l { f(x) }] *)
Fixpoint each {A} (f : A -> F) (l : list A) : F :=
  match l with [] => skip | x :: l => f x +> each f l end.

(** [for (i, x) in l.iter().enumerate() { if i > 0 { sep } f(x) }] *)
Definition sep_by {A} (sep : F) (f : A -> F) (l : list A) : F :=
  match l with [] => skip | x :: l => f x +> each (fun y => sep +> f y) l end.

Definition comma_list {A} (f : A -> F) (l : list A) : F := sep_by (write ", ") f l.

Definition opt {A} (f : A -> F) (o : option A) : F := match o with Some x => f x | None => skip end.
Definition when (b : bool) (f : F) : F := if b then f else skip.

Definition join_path (p : list string) : string := String.concat "::" p.

Definition quote_string : string := String (Ascii.ascii_of_nat 34) EmptyString.

(** ** Literals *)

(** [f64::to_string]: the shortest decimal that reads back as the value. *)
Section Decimal.
Context (bits : Z).

Local Open Scope Z_scope.

(** The positive value is [num / den]. *)
Definition f64_ratio (m e : Z) : Z * Z := if 0 <=? e then (m * 2 ^ e, 1) else (m, 2 ^ (- e)).

(** How many decimal digits are before the point; not positive for a value
    below one tenth. *)
Fixpoint point_position (fuel : nat) (k num den : Z) : Z :=
  match fuel with
  | O => k
  | S fuel =>
      if num * 10 ^ Z.max 0 (- k) <? den * 10 ^ Z.max 0 k then
        (if den * 10 ^ Z.max 0 (k - 1) <=? num * 10 ^ Z.max 0 (1 - k) then k else point_position fuel (k - 1) num den)
      else point_position fuel (k + 1) num den
  end.

Definition reads_back (digits exponent : Z) : bool := to_bits 53 1024 (f64_of_decimal digits exponent) =? bits.

(** The first number of digits for which a decimal reads back: the digits and
    the exponent of the last of them. *)
Fixpoint shortest (fuel : nat) (n k num den : Z) : Z * Z :=
  let e := k - n in
  let a := num * 10 ^ Z.max 0 (- e) in
  let b := den * 10 ^ Z.max 0 e in
  let low := a / b in
  let near_low := 2 * (a - low * b) <=? b in
  match fuel with
  | O => (low, e)
  | S fuel =>
      match reads_back low e, reads_back (low + 1) e with
      | true, true => if near_low then (low, e) else (low + 1, e)
      | true, false => (low, e)
      | false, true => (low + 1, e)
      | false, false => shortest fuel (n + 1) k num den
      end
  end.

(** Digits with the decimal point [- e] places from the right. *)
Definition place_point (digits e : Z) : string :=
  let s := show_Z digits in
  let len := Z.of_nat (String.length s) in
  if 0 <=? e then (s ++ repeat_string (Z.to_nat e) "0")%string
  else if - e <? len then
    (substring 0 (Z.to_nat (len + e)) s ++ "." ++ substring (Z.to_nat (len + e)) (Z.to_nat (- e)) s)%string
  else ("0." ++ repeat_string (Z.to_nat (- e - len)) "0" ++ s)%string.
End Decimal.

Definition f64_to_string (bits : Z) : string :=
  let magnitude := Z.land bits (2 ^ 63 - 1) in
  let sign := if Z.testbit bits 63 then "-"%string else EmptyString in
  match from_bits 53 1024 magnitude with
  | S754_nan => "NaN"
  | S754_infinity _ => (sign ++ "inf")%string
  | S754_zero _ => (sign ++ "0")%string
  | S754_finite _ m e =>
      let '(num, den) := f64_ratio (Zpos m) e in
      let k := point_position 700 0 num den in
      let '(digits, ex) := shortest magnitude 17 1 k num den in
      (sign ++ place_point digits ex)%string
  end.

Definition contains_byte (s : string) (a : ascii) : bool := existsb (fun b => Ascii.eqb b a) (list_ascii_of_string s).

Definition float_text (bits : Z) : string :=
  let s := f64_to_string bits in
  if contains_byte s "." || contains_byte s "e" || contains_byte s "E" then s else (s ++ ".0")%string.

(** One byte of a string literal; the escaped chars are ASCII. *)
Definition escape_byte (q : nat) (a : ascii) : string :=
  let n := Ascii.nat_of_ascii a in
  if n =? 10 then "\n"
  else if n =? 13 then "\r"
  else if n =? 9 then "\t"
  else if n =? 92 then "\\"
  else if n =? q then String (Ascii.ascii_of_nat 92) (String a EmptyString)
  else String a EmptyString.

Fixpoint escape_string (s : string) : string :=
  match s with EmptyString => EmptyString | String a s => (escape_byte 34 a ++ escape_string s)%string end.

Definition escape_char (c : char) : string :=
  if (c <? 128)%Z then escape_byte 39 (ascii_of_Z c) else char_to_string c.

Section Formatter.
(** The original text, and [char::is_lowercase] of the first char of a name
    that does not start with an ASCII byte. *)
Context (source : option str) (lowercase_start : string -> bool).

(** [src.get(a..b)] *)
Definition get_text (src : str) (sp : Span) : option str :=
  if (end_ sp <=? str_len src) then slice src (start sp) (end_ sp) else None.

Definition int_literal_source (n : Z) (sp : Span) : string :=
  match source with
  | Some src =>
      match get_text src sp with
      | Some text => if (parse_int_literal text =? n)%Z then to_string text else show_Z n
      | None => show_Z n
      end
  | None => show_Z n
  end.

Definition format_literal (l : Literal) (sp : Span) : F :=
  match l with
  | LInt n => write (int_literal_source n sp)
  | LFloat bits => write (float_text bits)
  | LBool b => write (if b then "true" else "false")
  | LString s => write quote_string +> write (escape_string s) +> write quote_string
  | LChar c => write "'" +> write (escape_char c) +> write "'"
  end.

(** ** Patterns *)

Fixpoint format_pat (p : Pat) : F :=
  match p with
  | PIdent name _ => write name
  | PWildcard _ => write "_"
  | PLiteral l sp => format_literal l sp
  | PTuple pats _ => write "(" +> comma_list format_pat pats +> write ")"
  | PStruct pth fields rest _ =>
      write (join_path pth) +> write " { " +>
      comma_list (fun f => write f.1 +> write ": " +> format_pat f.2) fields +>
      when rest (write (match fields with [] => ".." | _ => ", .." end)) +> write " }"
  | PEnum pth fields _ =>
      write (join_path pth) +>
      match fields with
      | [] => skip
      | _ => write "(" +> comma_list format_pat fields +> write ")"
      end
  | PRange s e inclusive _ => format_pat s +> write (if inclusive then "..=" else "..") +> format_pat e
  | POr pats _ => sep_by (write " | ") format_pat pats
  | PBinding name p _ => write name +> write "@" +> format_pat p
  | PReference mutable p _ => write (if mutable then "&mut " else "&") +> format_pat p
  end.

(** ** Operators *)

Definition expr_precedence (e : Expr) : nat :=
  match e with
  | EAssign _ _ _ => 1
  | EBinary op _ _ _ =>
      match op with
      | Or => 2
      | And => 3
      | Eq_ | Ne | Lt_ | Le | Gt_ | Ge => 4
      | BitOr => 5
      | BitXor => 6
      | BitAnd => 7
      | Shl | Shr => 8
      | Add | Sub => 9
      | Mul | Div | Rem => 10
      end
  | EUnary _ _ _ | EBorrow _ _ _ => 11
  | ECast _ _ _ => 10
  | _ => 12
  end.

Definition bin_op_str (op : BinaryOp) : string :=
  match op with
  | Add => "+" | Sub => "-" | Mul => "*" | Div => "/" | Rem => "%" | Eq_ => "==" | Ne => "!=" | Lt_ => "<" | Le => "<="
  | Gt_ => ">" | Ge => ">=" | And => "&&" | Or => "||" | BitAnd => "&" | BitOr => "|" | BitXor => "^" | Shl => "<<" | Shr => ">>"
  end.

Definition unary_op_str (op : UnaryOp) : string :=
  match op with Not => "!" | Neg => "-" | Deref => "*" | BitNot => "~" end.

(** [format_expr_with_precedence], given the text of the expression. *)
Definition with_precedence (e : Expr) (text : F) (parent_prec : nat) : F :=
  if expr_precedence e <? parent_prec then write "(" +> text +> write ")" else text.

(** [char::is_whitespace] *)
Definition is_whitespace (c : char) : bool :=
  ((9 <=? c) && (c <=? 13) || (c =? 32) || (c =? 0x85) || (c =? 0xA0) || (c =? 0x1680) || (0x2000 <=? c) && (c <=? 0x200A)
   || (c =? 0x2028) || (c =? 0x2029) || (c =? 0x202F) || (c =? 0x205F) || (c =? 0x3000))%Z.

(** [s.trim_end().ends_with(')')] *)
Fixpoint ends_with_paren (reversed : str) : bool :=
  match reversed with
  | [] => false
  | c :: s => if is_whitespace c then ends_with_paren s else (c =? ch ")")%Z
  end.

(** Whether an associated item without arguments was written as a call; [None]
    where [src[..end]] panics. *)
Definition has_parens (function : string) (sp : Span) : option bool :=
  match source with
  | Some src =>
      if (0 <? end_ sp) && (end_ sp <=? str_len src) then
        text ← slice_to src (end_ sp); Some (ends_with_paren (rev text))
      else Some false
  | None =>
      Some match function with
           | EmptyString => false
           | String a _ =>
               let n := Ascii.nat_of_ascii a in
               if n <? 128 then (97 <=? n) && (n <=? 122) else lowercase_start function
           end
  end.

(** ** Types, expressions and declarations *)

Definition self_ident (p : Pat) : bool :=
  match p with PIdent name _ => bool_decide (name = "self"%string) | _ => false end.

Definition is_self_path (t : Ty) : bool :=
  match t with TPath pth _ => bool_decide (pth = ["Self"%string]) | _ => false end.

(** The receiver forms of [format_param]. *)
Definition receiver (p : Pat) (t : Ty) : option string :=
  if self_ident p then
    match t with
    | TBorrow mutable _ inner _ =>
        if is_self_path inner then Some (if mutable then "&mut self" else "&self")%string else None
    | TPath _ _ => if is_self_path t then Some "self"%string else None
    | _ => None
    end
  else None.

(** A body between braces, one level in. *)
Definition braced (body : F) : F := write " {" +> fmt_newline +> indent +> body +> dedent +> write_indent +> write "}".

Definition is_nil {A} (l : list A) : bool := match l with [] => true | _ => false end.
Definition is_none {A} (o : option A) : bool := match o with None => true | Some _ => false end.

(** [for (i, x) in l.iter().enumerate() { if i > 0 { newline } f(x) }] *)
Definition spaced {A} (f : A -> F) (l : list A) : F := sep_by fmt_newline f l.

Fixpoint format_ty (t : Ty) : F :=
  match t with
  | TPath pth _ => write (join_path pth)
  | TGeneric pth args _ => write (join_path pth) +> write "<" +> comma_list format_ty args +> write ">"
  | TTuple tys _ => write "(" +> comma_list format_ty tys +> write ")"
  | TSlice inner _ => write "[]" +> format_ty inner
  | TBorrow mutable lifetime inner _ =>
      write "&" +> opt (fun lt => write "'" +> write lt +> write " ") lifetime +> when mutable (write "mut ") +> format_ty inner
  | TRawPointer mutable inner _ => write (if mutable then "*mut " else "*const ") +> format_ty inner
  | TDyn trait_path _ => write "dyn " +> write (join_path trait_path)
  | TFn params return_ty extern_abi is_unsafe _ =>
      when is_unsafe (write "unsafe ") +>
      opt (fun abi => write ("extern " ++ quote_string) +> write abi +> write (quote_string ++ " ")) extern_abi +>
      write "fn(" +> comma_list format_ty params +> write ")" +>
      opt (fun r => write " -> " +> format_ty r) return_ty
  | TInfer _ => write "_"
  | TNever _ => write "!"
  | TConst e _ => format_expr e
  | TDynDim _ => write "Dyn"
  | TExistential name _ => write "?" +> write name
  | TExpand name _ => write name +> write "..."
  | TSplice e _ => write "#(" +> format_expr e +> write ")"
  end
with format_expr (e : Expr) : F :=
  match e with
  | ELiteral l sp => format_literal l sp
  | EIdent name _ => write name
  | EBlock b => format_block b
  | EUnsafe b _ => write "unsafe " +> format_block b
  | EIf condition then_branch else_branch _ =>
      write "if " +> format_expr condition +> write " " +> format_block then_branch +>
      opt (fun e => write " else " +> format_expr e) else_branch
  | ELoop body _ => write "loop " +> format_block body
  | EWhile condition body _ => write "while " +> format_expr condition +> write " " +> format_block body
  | EMatch scrutinee arms _ =>
      write "match " +> format_expr scrutinee +> braced (each format_match_arm arms)
  | ETuple items _ => write "(" +> comma_list format_expr items +> write ")"
  | ECall callee _ args _ =>
      with_precedence callee (format_expr callee) 12 +> write "(" +> comma_list format_expr args +> write ")"
  | EMethodCall receiver method args _ =>
      with_precedence receiver (format_expr receiver) 12 +> write "." +> write method +>
      write "(" +> comma_list format_expr args +> write ")"
  | EAssociatedCall t function args sp =>
      format_ty t +> write "::" +> write function +>
      match args with
      | [] => fun f => parens ← has_parens function sp; when parens (write "()") f
      | _ => write "(" +> comma_list format_expr args +> write ")"
      end
  | EBinary op lhs rhs _ =>
      let prec := expr_precedence e in
      with_precedence lhs (format_expr lhs) prec +> write " " +> write (bin_op_str op) +> write " " +>
      with_precedence rhs (format_expr rhs) (prec + 1)
  | EUnary op x _ => write (unary_op_str op) +> with_precedence x (format_expr x) 11
  | EAssign target value _ =>
      with_precedence target (format_expr target) 2 +> write " = " +> with_precedence value (format_expr value) 1
  | EField base field _ => with_precedence base (format_expr base) 12 +> write "." +> write field
  | EIndex base index _ =>
      with_precedence base (format_expr base) 12 +> write "[" +> comma_list format_expr index +> write "]"
  | ETry x _ => with_precedence x (format_expr x) 12 +> write "?"
  | ECast x t _ => with_precedence x (format_expr x) 11 +> write " as " +> format_ty t
  | EReturn value _ => write "return" +> opt (fun v => write " " +> format_expr v) value
  | EBreak value _ => write "break" +> opt (fun v => write " " +> format_expr v) value
  | EContinue _ => write "continue"
  | ESpawn x _ => write "spawn " +> format_expr x
  | EClosure params body _ =>
      write "|" +> comma_list format_closure_param params +> write "| " +> format_expr body
  | ESelect arms default_ _ =>
      write "select" +>
      braced (each format_select_arm arms +>
              opt (fun b => write_indent +> write "default => " +> format_block b +> fmt_newline) default_)
  | EComptime x _ => write "comptime " +> format_expr x
  | EQuote body _ => write "quote {" +> format_quote body +> write "}"
  | ESplice x _ => write "#(" +> format_expr x +> write ")"
  | EYield x _ => write "yield " +> format_expr x
  | EStructLiteral t fields _ =>
      format_ty t +> write " {" +>
      match fields with
      | [] => write "}"
      | _ => write " " +> comma_list (fun f => write f.1 +> write ": " +> format_expr f.2) fields +> write " }"
      end
  | EBorrow mutable x _ => write "&" +> when mutable (write "mut ") +> with_precedence x (format_expr x) 11
  end
with format_match_arm (arm : MatchArm) : F :=
  let 'mkMatchArm p guard body _ := arm in
  write_indent +> format_pat p +> opt (fun g => write " if " +> format_expr g) guard +> write " => " +>
  format_expr body +> when (match body with EBlock _ => false | _ => true end) (write ",") +> fmt_newline
with format_closure_param (p : ClosureParam) : F :=
  let 'mkClosureParam pat t _ := p in format_pat pat +> opt (fun t => write ": " +> format_ty t) t
with format_select_arm (arm : SelectArm) : F :=
  let 'mkSelectArm operation body _ := arm in
  write_indent +> format_expr operation +> write " => " +> format_block body +> fmt_newline
with format_quote (q : QuoteBody) : F :=
  match q with QItem i => format_item i | QExpr e => format_expr e end
with format_block (b : Block) : F :=
  let 'mkBlock stmts tail _ := b in
  write "{" +>
  if is_nil stmts && is_none tail then write "}"
  else
    fmt_newline +> indent +>
    (fix go l := match l with
                 | [] => skip
                 | st :: l => format_stmt st (is_nil l && is_none tail) +> go l
                 end) stmts +>
    opt (fun e => write_indent +> format_expr e +> fmt_newline) tail +>
    dedent +> write_indent +> write "}"
with format_stmt (st : Stmt) (is_last : bool) : F :=
  match st with
  | SLet s => format_let s
  | SExpr e =>
      write_indent +> format_expr e +> when (is_last || negb (is_block_like e)) (write ";") +> fmt_newline
  | SItem i => format_item i +> fmt_newline
  end
with format_let (s : LetStmt) : F :=
  let 'mkLetStmt mutable p t value _ := s in
  write_indent +> write "let " +> when mutable (write "mut ") +> format_pat p +>
  opt (fun t => write ": " +> format_ty t) t +> opt (fun v => write " = " +> format_expr v) value +>
  write ";" +> fmt_newline
with format_generic (p : GenericParam) : F :=
  let 'mkGenericParam name kind bounds _ := p in
  match kind with
  | KType =>
      write name +>
      match bounds with
      | [] => skip
      | b :: bs => write ": " +> format_ty b +> each (fun b => write " + " +> format_ty b) bs
      end
  | KLifetime => write "'" +> write name
  | KDim => write "dim " +> write name
  | KConst t => write "const " +> write name +> write ": " +> format_ty t
  | KConstPack t => write "const " +> write name +> write ": " +> format_ty t +> write "..."
  end
with format_param (p : Param) : F :=
  let 'mkParam pat t _ := p in
  match receiver pat t with
  | Some text => write text
  | None => format_pat pat +> write ": " +> format_ty t
  end
with format_fn_decl (d : FnDecl) : F :=
  let 'mkFnDecl name name_splice generics params return_ty body _ is_unsafe is_iter _ extern_abi _ _ := d in
  write_indent +> when is_unsafe (write "unsafe ") +> when is_iter (write "iter ") +>
  opt (fun abi => write ("extern " ++ quote_string) +> write abi +> write (quote_string ++ " ")) extern_abi +>
  write "fn " +>
  match name_splice with
  | Some e => write "#(" +> format_expr e +> write ")"
  | None => write name
  end +>
  when (negb (is_nil generics)) (write "<" +> comma_list format_generic generics +> write ">") +>
  write "(" +> comma_list format_param params +> write ")" +>
  opt (fun t => write " -> " +> format_ty t) return_ty +> write " " +> format_block body
with format_const_decl (d : ConstDecl) : F :=
  let 'mkConstDecl name t value _ _ := d in
  write_indent +> write "const " +> write name +> write ": " +> format_ty t +> write " = " +> format_expr value +> write ";"
with format_assoc_type (d : AssocTypeDecl) : F :=
  let 'mkAssocTypeDecl name default_ _ := d in
  write_indent +> write "type " +> write name +> opt (fun t => write " = " +> format_ty t) default_ +> write ";" +> fmt_newline
with format_field (d : FieldDecl) : F :=
  let 'mkFieldDecl name t _ _ _ := d in write_indent +> write name +> write ": " +> format_ty t
with format_variant (v : EnumVariant) : F :=
  let 'mkEnumVariant name fields _ _ := v in
  write_indent +> write name +> format_variant_fields fields +> write "," +> fmt_newline
with format_variant_fields (v : VariantFields) : F :=
  match v with
  | VUnit => skip
  | VTuple tys => write "(" +> comma_list format_ty tys +> write ")"
  | VStruct fields =>
      braced ((fix go l := match l with
                           | [] => skip
                           | d :: l => format_field d +> when (negb (is_nil l)) (write ",") +> fmt_newline +> go l
                           end) fields)
  end
with format_signature (d : FnSignature) : F :=
  let 'mkFnSignature name generics params return_ty body _ _ := d in
  write_indent +> write "fn " +> write name +>
  when (negb (is_nil generics)) (write "<" +> comma_list format_generic generics +> write ">") +>
  write "(" +> comma_list format_param params +> write ")" +> opt (fun t => write " -> " +> format_ty t) return_ty +>
  match body with
  | Some b => write " " +> format_block b
  | None => write ";"
  end +> fmt_newline
with format_extern_signature (d : FnSignature) : F :=
  let 'mkFnSignature name _ params return_ty _ _ _ := d in
  write_indent +> write "fn " +> write name +> write "(" +> comma_list format_param params +> write ")" +>
  opt (fun t => write " -> " +> format_ty t) return_ty +> write ";" +> fmt_newline
with format_struct_decl (d : StructDecl) : F :=
  let 'mkStructDecl name generics fields methods consts assoc_types _ _ _ := d in
  write_indent +> write "struct " +> write name +>
  when (negb (is_nil generics)) (write "<" +> comma_list format_generic generics +> write ">") +>
  braced
    (each (fun d => format_field d +> write "," +> fmt_newline) fields +>
     when (negb (is_nil methods) && negb (is_nil fields)) fmt_newline +>
     spaced (fun m => format_fn_decl m +> fmt_newline) methods +>
     each (fun c => format_const_decl c +> fmt_newline) consts +>
     each format_assoc_type assoc_types)
with format_enum_decl (d : EnumDecl) : F :=
  let 'mkEnumDecl name generics variants methods consts _ _ _ := d in
  write_indent +> write "enum " +> write name +>
  when (negb (is_nil generics)) (write "<" +> comma_list format_generic generics +> write ">") +>
  braced
    (each format_variant variants +>
     when (negb (is_nil methods) && negb (is_nil variants)) fmt_newline +>
     spaced (fun m => format_fn_decl m +> fmt_newline) methods +>
     each (fun c => format_const_decl c +> fmt_newline) consts)
with format_trait_decl (d : TraitDecl) : F :=
  let 'mkTraitDecl name generics methods consts assoc_types _ _ _ := d in
  write_indent +> write "trait " +> write name +>
  when (negb (is_nil generics)) (write "<" +> comma_list format_generic generics +> write ">") +>
  braced
    (spaced format_signature methods +>
     each (fun c => format_const_decl c +> fmt_newline) consts +>
     each format_assoc_type assoc_types)
with format_methods_block (d : MethodsBlock) : F :=
  let 'mkMethodsBlock generics target methods consts _ := d in
  write_indent +> write "methods " +>
  when (negb (is_nil generics)) (write "<" +> comma_list format_generic generics +> write ">" +> write " ") +>
  format_ty target +>
  braced
    (spaced (fun m => format_fn_decl m +> fmt_newline) methods +>
     each (fun c => format_const_decl c +> fmt_newline) consts)
with format_extern_block (d : ExternBlock) : F :=
  let 'mkExternBlock abi functions _ _ := d in
  write_indent +> write ("extern " ++ quote_string) +> write abi +> write quote_string +>
  braced (each format_extern_signature functions)
with format_item (i : Item) : F :=
  match i with
  | IFn d => format_fn_decl d
  | IStruct d => format_struct_decl d
  | IEnum d => format_enum_decl d
  | ITrait d => format_trait_decl d
  | IMethods d => format_methods_block d
  | IUse d => write_indent +> write "use " +> write (join_path (use_path d)) +>
      opt (fun a => write " as " +> write a) (use_alias d) +> write ";"
  | IConst d => format_const_decl d
  | IExtern d => format_extern_block d
  end.

Definition ends_with_newline (s : string) : bool :=
  bool_decide (last (list_ascii_of_string s) = Some (Ascii.ascii_of_nat 10)).

Definition format_module_items (m : Module) : F :=
  match module_name m with
  | Some d =>
      write "module " +> write (md_name d) +> write ";" +> when (negb (is_nil (items m))) (fmt_newline +> fmt_newline)
  | None => skip
  end +>
  sep_by (fmt_newline +> fmt_newline) format_item (items m) +>
  (fun f => if negb (bool_decide (output f = EmptyString)) && negb (ends_with_newline (output f)) then fmt_newline f else Some f).

Definition run_formatter (m : F) : option string := output <$> m (mkFormatter EmptyString 0).
End Formatter.

Definition format_module (lowercase_start : string -> bool) (m : Module) (source : option str) : option string :=
  run_formatter (format_module_items source lowercase_start m).

Definition format_item_text (lowercase_start : string -> bool) (i : Item) : option string :=
  run_formatter (format_item None lowercase_start i).

Definition format_expr_text (lowercase_start : string -> bool) (e : Expr) : option string :=
  run_formatter (format_expr None lowercase_start e).
