(* ===== verification/Pieces.v ===== *)
(** Texts built piece by piece, and the tokens the lexer reads from them.

    A printed text is a sequence of pieces, white space chars and token texts.
    When each piece is spelled as a token of the language and no two neighbours
    run together under maximal munch, the lexer reads exactly the tokens of the
    sequence, each at its own place, and reports nothing. *)
From S2P Require Import Prelude Span Diag Lex.

Inductive piece :=
| Sp (c : char)
| Tk (k : TokenKind) (w : str).

Definition piece_text (p : piece) : str := match p with Sp c => [c] | Tk _ w => w end.
Definition text (ps : list piece) : str := concat (map piece_text ps).
Definition token_kinds (ps : list piece) : list (TokenKind * str) :=
  omap (fun p => match p with Tk k w => Some (k, w) | Sp _ => None end) ps.

(** The operators and delimiters, with the chars that would extend them. *)
Definition symbols : list (str * (TokenKind * str)) :=
  map (fun '(w, k, no) => (chars w, (k, chars no)))
  [("(", LeftParen, ""); (")", RightParen, ""); ("{", LeftBrace, ""); ("}", RightBrace, ""); ("[", LeftBracket, "");
   ("]", RightBracket, ""); (",", Comma, ""); (";", Semicolon, ""); ("+", Plus, ""); ("*", Star, ""); ("%", Percent, "");
   ("?", Question, ""); ("^", Caret, ""); ("~", Tilde, ""); (":", Colon, ":"); ("->", Arrow, ""); ("-", Minus, ">");
   ("!", Bang, "="); ("!=", BangEqual, ""); ("==", EqualEqual, ""); ("=>", FatArrow, ""); ("=", Equal, "=>");
   ("<", Less, "="); ("<=", LessEqual, ""); (">", Greater, "="); (">=", GreaterEqual, ""); ("&", Ampersand, "&");
   ("&&", AndAnd, ""); ("|", Pipe, "|"); ("||", OrOr, ""); ("/", Slash, "/*"); (".", Dot, ".0123456789"); ("::", ColonColon, "")]%string.

Definition is_word (w : str) : bool :=
  match w with c :: w' => is_identifier_start c && forallb is_identifier_continue w' | [] => false end.

Definition is_digits (w : str) : bool :=
  match w with c :: w' => is_ascii_digit c && forallb is_ascii_digit w' | [] => false end.

Definition symbol (w : str) : option (TokenKind * str) :=
  snd <$> find (fun s => bool_decide (s.1 = w)) symbols.

Definition spelled (p : piece) : bool :=
  match p with
  | Sp c => is_ascii_whitespace c
  | Tk k w =>
      if is_word w then bool_decide (k = keyword_kind w)
      else if is_digits w then bool_decide (k = Integer)
      else match symbol w with Some (k', _) => bool_decide (k = k') | None => false end
  end.

(** The char [c] may come right after the piece. *)
Definition may_follow (p : piece) (c : char) : bool :=
  match p with
  | Sp _ => true
  | Tk _ w =>
      if is_word w || is_digits w then negb (is_identifier_continue c)
      else match symbol w with Some (_, no) => negb (existsb (Z.eqb c) no) | None => false end
  end.

Definition adjacent (p q : piece) : bool :=
  match piece_text q with c :: _ => may_follow p c | [] => false end.

Fixpoint linked (ps : list piece) : bool :=
  match ps with
  | p :: ((q :: _) as ps') => adjacent p q && linked ps'
  | _ => true
  end.

Definition well_spelled (ps : list piece) : Prop := Forall (fun p => spelled p = true) ps /\ linked ps = true.

(** The tokens of a text that starts at byte [off]. *)
Fixpoint placed (f : FileId) (off : nat) (ps : list piece) : list Token :=
  match ps with
  | [] => []
  | Sp c :: ps => placed f (off + len_utf8 c) ps
  | Tk k w :: ps => mkToken k w (mkSpan f off (off + str_len w)) :: placed f (off + str_len w) ps
  end.

(** ** The piece that comes next *)

(** What [t], the text after [p], must be for [p] to end there. *)
Definition ends_before (p : piece) (t : str) : Prop :=
  (forall c t', t = c :: t' -> may_follow p c = true) /\
  (forall d t', t = ch "." :: d :: t' -> is_ascii_digit d = false).

Definition kind_of_piece (p : piece) : option TokenKind := match p with Sp _ => None | Tk k _ => Some k end.

Lemma symbol_in w k no : symbol w = Some (k, no) -> (w, (k, no)) ∈ symbols.
Proof.
  unfold symbol. destruct (find _ symbols) as [[w' x]|] eqn:E; [|done]. intros [= <-].
  apply find_some in E as [Hin Hw]. apply bool_decide_eq_true in Hw. simpl in Hw. subst. by apply list_elem_of_In.
Qed.

Lemma start_continue c : is_identifier_start c = true -> is_identifier_continue c = true.
Proof.
  unfold is_identifier_start, is_identifier_continue, is_ascii_alphanumeric.
  by destruct (is_ascii_digit c), (is_ascii_alphabetic c).
Qed.

(** Two maximal runs of the same class over one text are the same run. *)
Lemma munch_unique (p : char -> bool) w1 w2 t1 t2 :
  w1 ++ t1 = w2 ++ t2 -> Forall (fun c => p c = true) w1 -> Forall (fun c => p c = true) w2 ->
  stops p t1 -> stops p t2 -> w1 = w2 /\ t1 = t2.
Proof.
  revert w2. induction w1 as [|c w1 IH]; intros [|d w2] E F1 F2 S1 S2; simpl in *.
  - done.
  - subst. simpl in S1. inversion F2. congruence.
  - subst. simpl in S2. inversion F1. congruence.
  - injection E as -> E. inversion F1; inversion F2; subst. destruct (IH w2) as [-> ->]; done.
Qed.

Definition first_plain (c : char) : bool := negb (is_identifier_start c) && negb (is_ascii_digit c).

Lemma single_plain c k : single_char_token c = Some k -> first_plain c = true /\ is_ascii_whitespace c = false.
Proof.
  unfold single_char_token. intros H.
  repeat match type of H with context [if (c =? ?d)%Z then _ else _] => destruct (Z.eqb_spec c d) as [->|_]; [done|] end.
  done.
Qed.

Lemma operator_plain a b two one :
  (a, b, two, one) ∈ operators ->
  first_plain a = true /\ is_ascii_whitespace a = false /\ single_char_token a = None.
Proof.
  unfold operators. rewrite !elem_of_cons, elem_of_nil. intros H.
  repeat match type of H with _ \/ _ => destruct H as [H|H] end; try done; injection H as -> -> -> ->; done.
Qed.

Lemma whitespace_plain c : is_ascii_whitespace c = true -> first_plain c = true /\ single_char_token c = None.
Proof.
  unfold is_ascii_whitespace. intros H.
  repeat match type of H with (_ || _) = true => apply orb_true_iff in H as [H|H] end;
    apply Z.eqb_eq in H as ->; done.
Qed.

Lemma start_not_digit c : is_identifier_start c = true -> is_ascii_digit c = false.
Proof.
  unfold is_identifier_start, is_ascii_alphabetic, is_ascii_digit. change (ch "_") with 95%Z. intros H.
  apply andb_false_iff. rewrite !Z.leb_gt. rewrite !orb_true_iff, !andb_true_iff, !Z.leb_le, Z.eqb_eq in H. lia.
Qed.

Lemma forallb_true {A} (p : A -> bool) l : forallb p l = true -> Forall (fun x => p x = true) l.
Proof. induction l; simpl; [constructor|]. intros [? ?]%andb_true_iff. constructor; auto. Qed.

Lemma digits_number w : forallb is_ascii_digit w = true -> Forall (fun c => is_number_char c = true) w.
Proof. intros H%forallb_true. eapply Forall_impl; [exact H|]. apply is_digit_number. Qed.

Lemma digits_end w : forallb is_ascii_digit w = true -> ends_with w (ch "_") = false.
Proof.
  intros H%forallb_true. unfold ends_with. apply bool_decide_eq_false. intros E.
  apply last_Some_elem_of in E. rewrite Forall_forall in H. by apply H in E.
Qed.

(** No prefix of a radix is next. *)
Lemma no_radix c : is_identifier_continue c = false \/ is_ascii_digit c = true -> radix_of_prefix (Some c) = None.
Proof.
  intros H. unfold radix_of_prefix.
  repeat match goal with
  | |- context [(c =? ?d)%Z] => destruct (Z.eqb_spec c d) as [->|_]; [by destruct H|]
  end. done.
Qed.

Lemma stops_weaken (p q : char -> bool) t : (forall c, p c = true -> q c = true) -> stops q t -> stops p t.
Proof. destruct t as [|c t]; simpl; [done|]. intros H Hq. destruct (p c) eqn:E; [|done]. apply H in E. congruence. Qed.

Lemma number_continue c : is_number_char c = true -> is_identifier_continue c = true.
Proof. unfold is_number_char, is_identifier_continue, is_ascii_alphanumeric. destruct (is_ascii_digit c), (is_ascii_alphabetic c); done. Qed.

Lemma ends_stops k w t :
  is_word w || is_digits w = true -> ends_before (Tk k w) t ->
  stops is_identifier_continue t /\ fraction_follows t = false.
Proof.
  intros Hw [H1 H2]. simpl in H1. rewrite Hw in H1. split.
  - destruct t as [|c t]; [done|]. by apply negb_true_iff, (H1 c t).
  - destruct t as [|a [|d t]]; try done. simpl. destruct (Z.eqb_spec a (ch ".")) as [->|]; [|done]. by apply (H2 d t).
Qed.

(** Refutes a step whose first char is of another class. *)
Ltac other_class :=
  exfalso;
  repeat match goal with
  | H : single_char_token _ = Some _ |- _ => apply single_plain in H as [? ?]
  | H : (_, _, _, _) ∈ operators |- _ => apply operator_plain in H as (? & ? & ?)
  | H : is_ascii_whitespace _ = true |- _ => apply whitespace_plain in H as [? ?]
  end;
  repeat match goal with
  | H : first_plain _ = true |- _ => apply andb_true_iff in H as [?%negb_true_iff ?%negb_true_iff]
  | H : is_identifier_start ?c = true |- _ => pose proof (start_not_digit c H); revert H
  end; intros; vm_compute in *; congruence.

Lemma next_word k c w t k' w' t' clean :
  is_word (c :: w) = true -> k = keyword_kind (c :: w) -> ends_before (Tk k (c :: w)) t ->
  LexStep k' w' t' clean -> w' ++ t' = (c :: w) ++ t -> k' = Some k /\ w' = c :: w /\ clean = true.
Proof.
  intros Hw -> He S E. destruct (ends_stops _ _ _ ltac:(by rewrite Hw) He) as [Hs _].
  simpl in Hw. apply andb_true_iff in Hw as [Hc Hw]. apply forallb_true in Hw.
  destruct S; simpl in E; injection E as <- E; try (other_class).
  destruct (munch_unique _ _ _ _ _ E H0 Hw H1 Hs) as [-> _]. done.
Qed.

Lemma next_digits c w t k' w' t' clean :
  is_digits (c :: w) = true -> is_word (c :: w) = false -> ends_before (Tk Integer (c :: w)) t ->
  LexStep k' w' t' clean -> w' ++ t' = (c :: w) ++ t -> k' = Some Integer /\ w' = c :: w /\ clean = true.
Proof.
  intros Hw Hn He S E. destruct (ends_stops _ _ _ ltac:(by rewrite Hn) He) as [Hs Hf].
  pose proof (stops_weaken _ _ _ number_continue Hs) as Hs'.
  assert (Hend : ends_with (c :: w) (ch "_") = false) by (apply digits_end; done).
  pose proof Hw as Hw'. simpl in Hw'. apply andb_true_iff in Hw' as [Hc Hd].
  pose proof (digits_number _ Hd) as HF.
  assert (Hz : forall x t1, w ++ t = x :: t1 -> radix_of_prefix (Some x) = None).
  { intros x t1 Ex. apply no_radix. destruct w as [|y w]; simpl in *; [subst; by left|].
    injection Ex as <- _. right. by apply andb_true_iff in Hd as [? _]. }
  destruct S; simpl in E; injection E as <- E; try other_class.
  - destruct (munch_unique _ _ _ _ _ E H0 HF H1 Hs') as [-> _]. by rewrite Hend.
  - rewrite <- app_assoc in E. simpl in E.
    destruct (munch_unique _ _ _ _ _ E H0 HF) as [-> <-]; try done. simpl in Hf. rewrite H1 in Hf. done.
  - rewrite (Hz x (w0 ++ t0)) in H; [done|]. by rewrite <- E.
Qed.

(** Splits a membership in a list of known elements. *)
Ltac each_member H :=
  repeat match type of H with
  | _ ∈ _ :: _ => apply elem_of_cons in H as [H|H]
  | _ ∈ [] => by apply elem_of_nil in H
  end.

(** The step is the one of a symbol whose text is known. *)
Ltac known_step Hx E :=
  simpl in E; injection E; clear E; intros; subst;
  try match goal with H : (_, _, _, _) ∈ operators |- _ => unfold operators in H; each_member H; injection H as ?; subst end;
  try done;
  exfalso;
  first
    [ match goal with H : head _ <> Some ?x |- _ => by apply H end
    | eapply Hx; [|reflexivity]; rewrite ?elem_of_cons; tauto
    | vm_compute in *; congruence ].

Lemma next_symbol k no c w t k' w' t' clean :
  (c :: w, (k, no)) ∈ symbols -> (forall x t1, t = x :: t1 -> existsb (Z.eqb x) no = false) ->
  LexStep k' w' t' clean -> w' ++ t' = (c :: w) ++ t -> k' = Some k /\ w' = c :: w /\ clean = true.
Proof.
  intros Hin Hno S E.
  assert (Hx : forall x, x ∈ no -> head t <> Some x).
  { intros x Hx Ht. destruct t as [|y t1]; [done|]. injection Ht as ->. pose proof (Hno x t1 eq_refl) as Hf.
    pose proof (existsb_none _ _ x Hf Hx) as Hf'. by rewrite Z.eqb_refl in Hf'. }
  clear Hno. unfold symbols in Hin. cbn in Hin. each_member Hin; injection Hin; clear Hin; intros; subst.
  all: destruct S; by known_step Hx E.
Qed.

Lemma next_space c t k' w' t' clean :
  is_ascii_whitespace c = true -> LexStep k' w' t' clean -> w' ++ t' = c :: t -> k' = None /\ w' = [c] /\ clean = true.
Proof.
  intros Hc S E. destruct S; simpl in E; injection E as <- E; try done;
    try match goal with
    | H : single_char_token _ = Some _ |- _ => apply single_plain in H as [_ H]
    | H : (_, _, _, _) ∈ operators |- _ => apply operator_plain in H as (_ & H & _)
    end; try congruence; other_class.
Qed.

(** The grammar reads a well-placed piece, and nothing else. *)
Lemma next_piece p t k' w' t' clean :
  spelled p = true -> ends_before p t -> LexStep k' w' t' clean -> w' ++ t' = piece_text p ++ t ->
  k' = kind_of_piece p /\ w' = piece_text p /\ clean = true.
Proof.
  intros Hp He S E. destruct p as [c|k [|c w]]; [exact (next_space c t _ _ _ _ Hp S E)|done|]. unfold spelled in Hp.
  destruct (is_word (c :: w)) eqn:Hw.
  { apply bool_decide_eq_true in Hp. exact (next_word _ _ _ _ _ _ _ _ Hw Hp He S E). }
  destruct (is_digits (c :: w)) eqn:Hd.
  { apply bool_decide_eq_true in Hp as ->. exact (next_digits _ _ _ _ _ _ _ Hd Hw He S E). }
  destruct (symbol (c :: w)) as [[k0 no]|] eqn:Hs; [|done]. apply bool_decide_eq_true in Hp as ->.
  refine (next_symbol _ _ _ _ t _ _ _ _ (symbol_in _ _ _ Hs) _ S E).
  intros x t1 ->. destruct He as [He _]. specialize (He x t1 eq_refl). cbn [may_follow] in He.
  rewrite Hw, Hd, Hs in He. simpl in He. by apply negb_true_iff.
Qed.

(** ** The whole text *)

Lemma spelled_nonempty p : spelled p = true -> piece_text p <> [].
Proof. by destruct p as [c|k [|c w]]. Qed.

Lemma spelled_dot p t : spelled p = true -> piece_text p = ch "." :: t -> p = Tk Dot [ch "."].
Proof.
  destruct p as [c|k w]; simpl; [intros H E; injection E as ->; done|]. intros H ->. revert H. simpl.
  destruct (symbol (ch "." :: t)) as [[k0 no]|] eqn:Hs; [|done]. intros ->%bool_decide_eq_true.
  apply symbol_in in Hs. unfold symbols in Hs. cbn in Hs. each_member Hs; injection Hs; intros; by subst.
Qed.

Lemma linked_ends p ps :
  spelled p = true -> Forall (fun p => spelled p = true) ps -> linked (p :: ps) = true -> ends_before p (text ps).
Proof.
  intros Hp HF HL. destruct ps as [|q ps]; [by split|]. simpl in HL. apply andb_true_iff in HL as [Ha HL].
  inversion HF as [|? ? Hq HF']; subst. unfold text; simpl. unfold adjacent in Ha.
  destruct (piece_text q) as [|x w] eqn:Eq; [done|]. split; simpl.
  - by intros c t' [= -> _].
  - intros d t' [= -> E]. pose proof (spelled_dot _ _ Hq Eq) as ->. simpl in Eq. injection Eq as <-.
    destruct ps as [|r ps]; [done|].
    simpl in HL. apply andb_true_iff in HL as [Ha' _]. unfold adjacent in Ha'. inversion HF' as [|? ? Hr _]; subst. simpl in E.
    pose proof (spelled_nonempty _ Hr). destruct (piece_text r) as [|y w]; [done|]. injection E as -> _.
    destruct (is_ascii_digit d) eqn:Hd; [|done]. exfalso. revert Ha'. unfold is_ascii_digit in Hd.
    apply andb_true_iff in Hd as [H1%Z.leb_le H2%Z.leb_le].
    assert (d = 48 \/ d = 49 \/ d = 50 \/ d = 51 \/ d = 52 \/ d = 53 \/ d = 54 \/ d = 55 \/ d = 56 \/ d = 57)%Z as Hd by lia.
    repeat (destruct Hd as [->|Hd]; [done|]). by subst.
Qed.

Lemma linked_tail p ps : linked (p :: ps) = true -> linked ps = true.
Proof. destruct ps; [done|]. simpl. by intros [_ ?]%andb_true_iff. Qed.

Lemma lexed_pieces f off src toks clean ps :
  Lexed f off src toks clean -> src = text ps -> well_spelled ps -> toks = placed f off ps /\ clean = true.
Proof.
  intros L. revert ps. induction L as [off|off k w t clean toks clean' S Hne L IH]; intros ps E [HF HL].
  - destruct ps as [|p ps]; [done|]. inversion HF as [|? ? Hp _]; subst. pose proof (spelled_nonempty _ Hp).
    unfold text in E. simpl in E. by destruct (piece_text p).
  - destruct ps as [|p ps]; [by destruct w|]. inversion HF as [|? ? Hp HF']; subst.
    unfold text in E; simpl in E; fold (text ps) in E.
    destruct (next_piece _ _ _ _ _ _ Hp (linked_ends _ _ Hp HF' HL) S E) as (-> & -> & ->).
    apply app_inv_head in E as ->. destruct (IH ps eq_refl) as [-> ->].
    { split; [done|]. by eapply linked_tail. }
    destruct p as [c|k w]; simpl; rewrite ?Nat.add_0_r; done.
Qed.

(** A well-spelled text is read as its own tokens, without a report. *)
Lemma lex_pieces ps f r :
  well_spelled ps -> lex (text ps) f r = (placed f 0 ps ++ [eof_token (text ps) f], r).
Proof.
  intros H. destruct (lex_grammar_aux (text ps) f r) as (toks & ds & clean & E & L & Hc & _).
  destruct (lexed_pieces _ _ _ _ _ ps L eq_refl H) as [-> ->]. rewrite E.
  replace ds with (@nil Diagnostic) by (symmetry; by apply Hc). rewrite app_nil_r. by destruct r.
Qed.
