(* ===== verification/Core.v ===== *)
(** The core language: the programs that the formatter prints faithfully.

    [unspan] is a tree without its spans, the measure of equality of a printed
    and re-read program.  [core_expr] and [core_item] say which programs
    belong to the core: constants and functions over names, integers,
    booleans, operators, calls, fields, indexing, tuples, borrows, assignment,
    blocks, conditionals and loops.  [expr_pieces] lists the pieces the
    formatter writes for such a program. *)
From S2P Require Import Prelude Floats Span Diag Lex Ast ParseBase Parse Fmt Pieces.
Open Scope nat_scope.

(** ** Trees without spans *)

Definition nowhere : Span := mkSpan FileId_ROOT 0 0.

Fixpoint unspan_pat (p : Pat) : Pat :=
  match p with
  | PIdent name _ => PIdent name nowhere
  | PWildcard _ => PWildcard nowhere
  | PLiteral l _ => PLiteral l nowhere
  | PTuple items _ => PTuple (map unspan_pat items) nowhere
  | PStruct path fields rest _ => PStruct path (map (fun f => (f.1, unspan_pat f.2)) fields) rest nowhere
  | PEnum path fields _ => PEnum path (map unspan_pat fields) nowhere
  | PRange s e inclusive _ => PRange (unspan_pat s) (unspan_pat e) inclusive nowhere
  | POr pats _ => POr (map unspan_pat pats) nowhere
  | PBinding name p _ => PBinding name (unspan_pat p) nowhere
  | PReference mutable p _ => PReference mutable (unspan_pat p) nowhere
  end.

Fixpoint unspan_attr (a : Attribute) : Attribute :=
  let 'mkAttribute name args _ := a in mkAttribute name (map unspan_attr_arg args) nowhere
with unspan_attr_arg (a : AttributeArg) : AttributeArg :=
  match a with
  | ArgLiteral l _ => ArgLiteral l nowhere
  | ArgPath path _ => ArgPath path nowhere
  | ArgNested a => ArgNested (unspan_attr a)
  | ArgAssign key path _ => ArgAssign key path nowhere
  | ArgAssignLiteral key l _ => ArgAssignLiteral key l nowhere
  end.

Fixpoint unspan (e : Expr) : Expr :=
  match e with
  | ELiteral l _ => ELiteral l nowhere
  | EIdent name _ => EIdent name nowhere
  | EBlock b => EBlock (unspan_block b)
  | EUnsafe b _ => EUnsafe (unspan_block b) nowhere
  | EIf c t f _ => EIf (unspan c) (unspan_block t) (option_map unspan f) nowhere
  | ELoop b _ => ELoop (unspan_block b) nowhere
  | EWhile c b _ => EWhile (unspan c) (unspan_block b) nowhere
  | EMatch s arms _ => EMatch (unspan s) (map unspan_arm arms) nowhere
  | ECall c tys args _ => ECall (unspan c) (map unspan_ty tys) (map unspan args) nowhere
  | EMethodCall x m args _ => EMethodCall (unspan x) m (map unspan args) nowhere
  | EAssociatedCall t f args _ => EAssociatedCall (unspan_ty t) f (map unspan args) nowhere
  | EBinary op l r _ => EBinary op (unspan l) (unspan r) nowhere
  | EUnary op x _ => EUnary op (unspan x) nowhere
  | EAssign l r _ => EAssign (unspan l) (unspan r) nowhere
  | EField x f _ => EField (unspan x) f nowhere
  | EIndex x is_ _ => EIndex (unspan x) (map unspan is_) nowhere
  | ETry x _ => ETry (unspan x) nowhere
  | ECast x t _ => ECast (unspan x) (unspan_ty t) nowhere
  | EReturn v _ => EReturn (option_map unspan v) nowhere
  | EBreak v _ => EBreak (option_map unspan v) nowhere
  | EContinue _ => EContinue nowhere
  | ESpawn x _ => ESpawn (unspan x) nowhere
  | EClosure ps b _ =>
      EClosure (map (fun '(mkClosureParam p t _) => mkClosureParam (unspan_pat p) (option_map unspan_ty t) nowhere) ps)
        (unspan b) nowhere
  | ESelect arms d _ =>
      ESelect (map (fun '(mkSelectArm o b _) => mkSelectArm (unspan o) (unspan_block b) nowhere) arms)
        (option_map unspan_block d) nowhere
  | EComptime x _ => EComptime (unspan x) nowhere
  | EQuote (QItem i) _ => EQuote (QItem (unspan_item i)) nowhere
  | EQuote (QExpr x) _ => EQuote (QExpr (unspan x)) nowhere
  | ESplice x _ => ESplice (unspan x) nowhere
  | EYield x _ => EYield (unspan x) nowhere
  | EStructLiteral t fs _ => EStructLiteral (unspan_ty t) (map (fun f => (f.1, unspan f.2)) fs) nowhere
  | EBorrow m x _ => EBorrow m (unspan x) nowhere
  | ETuple xs _ => ETuple (map unspan xs) nowhere
  end
with unspan_block (b : Block) : Block :=
  let 'mkBlock stmts tail _ := b in mkBlock (map unspan_stmt stmts) (option_map unspan tail) nowhere
with unspan_stmt (s : Stmt) : Stmt :=
  match s with
  | SLet (mkLetStmt m p t v _) => SLet (mkLetStmt m (unspan_pat p) (option_map unspan_ty t) (option_map unspan v) nowhere)
  | SExpr e => SExpr (unspan e)
  | SItem i => SItem (unspan_item i)
  end
with unspan_arm (a : MatchArm) : MatchArm :=
  let 'mkMatchArm p g b _ := a in mkMatchArm (unspan_pat p) (option_map unspan g) (unspan b) nowhere
with unspan_ty (t : Ty) : Ty :=
  match t with
  | TPath p _ => TPath p nowhere
  | TGeneric p args _ => TGeneric p (map unspan_ty args) nowhere
  | TTuple ts _ => TTuple (map unspan_ty ts) nowhere
  | TSlice t _ => TSlice (unspan_ty t) nowhere
  | TBorrow m l t _ => TBorrow m l (unspan_ty t) nowhere
  | TRawPointer m t _ => TRawPointer m (unspan_ty t) nowhere
  | TDyn p _ => TDyn p nowhere
  | TFn ps r abi u _ => TFn (map unspan_ty ps) (option_map unspan_ty r) abi u nowhere
  | TInfer _ => TInfer nowhere
  | TNever _ => TNever nowhere
  | TConst e _ => TConst (unspan e) nowhere
  | TDynDim _ => TDynDim nowhere
  | TExpand n _ => TExpand n nowhere
  | TExistential n _ => TExistential n nowhere
  | TSplice e _ => TSplice (unspan e) nowhere
  end
with unspan_generic (g : GenericParam) : GenericParam :=
  let 'mkGenericParam n k bs _ := g in
  mkGenericParam n
    match k with
    | KType => KType | KLifetime => KLifetime | KDim => KDim
    | KConst t => KConst (unspan_ty t) | KConstPack t => KConstPack (unspan_ty t)
    end (map unspan_ty bs) nowhere
with unspan_param (p : Param) : Param :=
  let 'mkParam p t _ := p in mkParam (unspan_pat p) (unspan_ty t) nowhere
with unspan_fn (d : FnDecl) : FnDecl :=
  let 'mkFnDecl n ns g ps rt b p u i c x attrs _ := d in
  mkFnDecl n (option_map unspan ns) (map unspan_generic g) (map unspan_param ps) (option_map unspan_ty rt)
    (unspan_block b) p u i c x (map unspan_attr attrs) nowhere
with unspan_signature (d : FnSignature) : FnSignature :=
  let 'mkFnSignature n g ps rt b attrs _ := d in
  mkFnSignature n (map unspan_generic g) (map unspan_param ps) (option_map unspan_ty rt) (option_map unspan_block b)
    (map unspan_attr attrs) nowhere
with unspan_const (d : ConstDecl) : ConstDecl :=
  let 'mkConstDecl n t v p _ := d in mkConstDecl n (unspan_ty t) (unspan v) p nowhere
with unspan_field (d : FieldDecl) : FieldDecl :=
  let 'mkFieldDecl n t p attrs _ := d in mkFieldDecl n (unspan_ty t) p (map unspan_attr attrs) nowhere
with unspan_assoc (d : AssocTypeDecl) : AssocTypeDecl :=
  let 'mkAssocTypeDecl n t _ := d in mkAssocTypeDecl n (option_map unspan_ty t) nowhere
with unspan_variant (v : EnumVariant) : EnumVariant :=
  let 'mkEnumVariant n fs attrs _ := v in
  mkEnumVariant n
    match fs with VUnit => VUnit | VTuple ts => VTuple (map unspan_ty ts) | VStruct fs => VStruct (map unspan_field fs) end
    (map unspan_attr attrs) nowhere
with unspan_item (i : Item) : Item :=
  match i with
  | IFn d => IFn (unspan_fn d)
  | IStruct (mkStructDecl n g fs ms cs ats p attrs _) =>
      IStruct (mkStructDecl n (map unspan_generic g) (map unspan_field fs) (map unspan_fn ms) (map unspan_const cs)
                 (map unspan_assoc ats) p (map unspan_attr attrs) nowhere)
  | IEnum (mkEnumDecl n g vs ms cs p attrs _) =>
      IEnum (mkEnumDecl n (map unspan_generic g) (map unspan_variant vs) (map unspan_fn ms) (map unspan_const cs) p
               (map unspan_attr attrs) nowhere)
  | ITrait (mkTraitDecl n g ms cs ats p attrs _) =>
      ITrait (mkTraitDecl n (map unspan_generic g) (map unspan_signature ms) (map unspan_const cs) (map unspan_assoc ats) p
                (map unspan_attr attrs) nowhere)
  | IMethods (mkMethodsBlock g t ms cs _) =>
      IMethods (mkMethodsBlock (map unspan_generic g) (unspan_ty t) (map unspan_fn ms) (map unspan_const cs) nowhere)
  | IUse d => IUse (mkUseDecl (use_path d) (use_alias d) (use_kind d) nowhere)
  | IConst d => IConst (unspan_const d)
  | IExtern (mkExternBlock abi fs attrs _) =>
      IExtern (mkExternBlock abi (map unspan_signature fs) (map unspan_attr attrs) nowhere)
  end.

Definition unspan_module (m : Module) : Module :=
  mkModule (option_map (fun d => mkModuleDecl (md_name d) nowhere) (module_name m)) (map unspan_item (items m)) nowhere.

(** ** The core language

    The parser takes a [<] for the start of generic arguments when a [>]
    before [(], [{] or [::] follows anywhere later in the file, so a program
    of the core uses one of the two comparisons: [<] when [lt] holds, else
    [>].  Shifts are left out. *)
Section Core.
Context (lt : bool).

Definition core_name (name : string) : bool :=
  is_word (chars name) && bool_decide (keyword_kind (chars name) = Identifier).

Definition core_op (op : BinaryOp) : bool :=
  match op with Shl | Shr => false | Lt_ => lt | Gt_ => negb lt | _ => true end.

Definition is_comparison (op : BinaryOp) : bool :=
  match op with Eq_ | Ne | Lt_ | Le | Gt_ | Ge => true | _ => false end.

Definition compares (e : Expr) : bool := match e with EBinary op _ _ _ => is_comparison op | _ => false end.
Definition is_field (e : Expr) : bool := match e with EField _ _ _ => true | _ => false end.
Definition is_borrow (e : Expr) : bool := match e with EBorrow _ _ _ => true | _ => false end.
Definition is_return (e : Expr) : bool := match e with EReturn _ _ => true | _ => false end.
Definition is_else (e : Expr) : bool := match e with EBlock _ | EIf _ _ _ _ => true | _ => false end.

(** The text starts with a block-like expression that a statement would end. *)
Fixpoint starts_block (e : Expr) : bool :=
  match e with
  | EBlock _ | EIf _ _ _ _ | ELoop _ _ | EWhile _ _ _ => true
  | ECall x _ _ _ | EMethodCall x _ _ _ | EField x _ _ | EIndex x _ _ | ETry x _ => (12 <=? expr_precedence x) && starts_block x
  | EBinary _ l _ _ => (expr_precedence e <=? expr_precedence l) && starts_block l
  | EAssign l _ _ => (2 <=? expr_precedence l) && starts_block l
  | _ => false
  end.

Definition leads_statement (e : Expr) : bool := is_block_like e || negb (starts_block e).

Definition core_ty (t : Ty) : bool :=
  match t with TPath (name :: names) _ => core_name name && forallb core_name names | _ => false end.

(** [return] stands only as a statement or as the value of a block. *)
Fixpoint core_expr (e : Expr) : bool :=
  let operand x := negb (is_return x) && core_expr x in
  match e with
  | ELiteral (LInt n) _ => (0 <=? n)%Z && (n <=? i64_max)%Z
  | ELiteral (LBool _) _ => true
  | EIdent name _ => core_name name
  | EBlock b => core_block b
  | EIf c t f _ =>
      operand c && core_block t && match f with Some x => is_else x && core_expr x | None => true end
  | ELoop b _ => core_block b
  | EWhile c b _ => operand c && core_block b
  | ECall x tys args _ => is_nil tys && negb (is_field x) && operand x && forallb (fun x => negb (is_return x) && core_expr x) args
  | EMethodCall x m args _ => core_name m && operand x && forallb (fun x => negb (is_return x) && core_expr x) args
  | EBinary op l r _ => core_op op && negb (is_comparison op && compares l) && operand l && operand r
  | EUnary _ x _ => operand x
  | EBorrow m x _ => (m || negb (is_borrow x)) && operand x
  | EAssign l r _ => operand l && operand r
  | EField x f _ => core_name f && operand x
  | EIndex x is_ _ => negb (is_nil is_) && operand x && forallb (fun x => negb (is_return x) && core_expr x) is_
  | ETry x _ => operand x
  | ETuple xs _ => negb (length xs =? 1) && forallb (fun x => negb (is_return x) && core_expr x) xs
  | EReturn (Some v) _ => operand v
  | EReturn None _ => true
  | EBreak None _ => true
  | EContinue _ => true
  | _ => false
  end
with core_block (b : Block) : bool :=
  let 'mkBlock stmts tail _ := b in
  forallb core_stmt stmts && match tail with Some e => leads_statement e && core_expr e | None => true end
with core_stmt (s : Stmt) : bool :=
  match s with
  | SLet (mkLetStmt _ (PIdent name _) t v _) =>
      core_name name && match t with Some t => core_ty t | None => true end
      && match v with Some v => negb (is_return v) && core_expr v | None => true end
  | SExpr e => leads_statement e && core_expr e
  | _ => false
  end.

Definition core_param (p : Param) : bool :=
  match p with
  | mkParam (PIdent name _) t _ => core_name name && bool_decide (name <> "self"%string) && core_ty t
  | _ => false
  end.

Definition core_item (i : Item) : bool :=
  match i with
  | IConst (mkConstDecl name t v false _) => core_name name && core_ty t && negb (is_return v) && core_expr v
  | IFn (mkFnDecl name None [] ps rt b false false false false None [] _) =>
      core_name name && forallb core_param ps && match rt with Some t => core_ty t | None => true end && core_block b
  | _ => false
  end.

Definition core_module (m : Module) : bool :=
  match module_name m with Some d => core_name (md_name d) | None => true end && forallb core_item (items m).
End Core.

(** ** The pieces of a program *)

Definition sym (s : string) : piece :=
  Tk (match symbol (chars s) with Some (k, _) => k | None => Error_ end) (chars s).
Definition word (s : string) : piece := Tk (keyword_kind (chars s)) (chars s).
Definition number_piece (n : Z) : piece := Tk Integer (chars (show_Z n)).
Definition blank : piece := Sp 32.
Definition line : piece := Sp newline.
Definition margin (n : nat) : list piece := repeat blank (4 * n).

Fixpoint comma_pieces (l : list (list piece)) : list piece :=
  match l with
  | [] => []
  | [ps] => ps
  | ps :: l => ps ++ [sym ","; blank] ++ comma_pieces l
  end.

Definition wrapped (e : Expr) (k : nat) (ps : list piece) : list piece :=
  if expr_precedence e <? k then [sym "("] ++ ps ++ [sym ")"] else ps.

Fixpoint path_pieces (p : list string) : list piece :=
  match p with
  | [] => []
  | [name] => [word name]
  | name :: p => [word name; sym "::"] ++ path_pieces p
  end.

Definition ty_pieces (t : Ty) : list piece := match t with TPath p _ => path_pieces p | _ => [] end.

Fixpoint expr_pieces (n : nat) (e : Expr) : list piece :=
  match e with
  | ELiteral (LInt z) _ => [number_piece z]
  | ELiteral (LBool b) _ => [word (if b then "true" else "false")]
  | EIdent name _ => [word name]
  | EBlock b => block_pieces n b
  | EIf c t f _ =>
      [word "if"; blank] ++ expr_pieces n c ++ [blank] ++ block_pieces n t ++
      match f with Some x => [blank; word "else"; blank] ++ expr_pieces n x | None => [] end
  | ELoop b _ => [word "loop"; blank] ++ block_pieces n b
  | EWhile c b _ => [word "while"; blank] ++ expr_pieces n c ++ [blank] ++ block_pieces n b
  | ECall x _ args _ =>
      wrapped x 12 (expr_pieces n x) ++ [sym "("] ++ comma_pieces (map (expr_pieces n) args) ++ [sym ")"]
  | EMethodCall x m args _ =>
      wrapped x 12 (expr_pieces n x) ++ [sym "."; word m; sym "("] ++ comma_pieces (map (expr_pieces n) args) ++ [sym ")"]
  | EBinary op l r _ =>
      wrapped l (expr_precedence e) (expr_pieces n l) ++ [blank; sym (bin_op_str op); blank] ++
      wrapped r (expr_precedence e + 1) (expr_pieces n r)
  | EUnary op x _ => [sym (unary_op_str op)] ++ wrapped x 11 (expr_pieces n x)
  | EBorrow m x _ => [sym "&"] ++ (if m then [word "mut"; blank] else []) ++ wrapped x 11 (expr_pieces n x)
  | EAssign l r _ => wrapped l 2 (expr_pieces n l) ++ [blank; sym "="; blank] ++ wrapped r 1 (expr_pieces n r)
  | EField x f _ => wrapped x 12 (expr_pieces n x) ++ [sym "."; word f]
  | EIndex x is_ _ => wrapped x 12 (expr_pieces n x) ++ [sym "["] ++ comma_pieces (map (expr_pieces n) is_) ++ [sym "]"]
  | ETry x _ => wrapped x 12 (expr_pieces n x) ++ [sym "?"]
  | ETuple xs _ => [sym "("] ++ comma_pieces (map (expr_pieces n) xs) ++ [sym ")"]
  | EReturn v _ => [word "return"] ++ match v with Some v => [blank] ++ expr_pieces n v | None => [] end
  | EBreak _ _ => [word "break"]
  | EContinue _ => [word "continue"]
  | _ => []
  end
with block_pieces (n : nat) (b : Block) : list piece :=
  let 'mkBlock stmts tail _ := b in
  if is_nil stmts && is_none tail then [sym "{"; sym "}"]
  else
    [sym "{"; line] ++
    (fix go l := match l with
                 | [] => []
                 | st :: l => stmt_pieces (S n) st (is_nil l && is_none tail) ++ go l
                 end) stmts ++
    match tail with Some e => margin (S n) ++ expr_pieces (S n) e ++ [line] | None => [] end ++
    margin n ++ [sym "}"]
with stmt_pieces (n : nat) (s : Stmt) (is_last : bool) : list piece :=
  match s with
  | SLet (mkLetStmt m (PIdent name _) t v _) =>
      margin n ++ [word "let"; blank] ++ (if m then [word "mut"; blank] else []) ++ [word name] ++
      match t with Some t => [sym ":"; blank] ++ ty_pieces t | None => [] end ++
      match v with Some v => [blank; sym "="; blank] ++ expr_pieces n v | None => [] end ++ [sym ";"; line]
  | SExpr e =>
      margin n ++ expr_pieces n e ++ (if is_last || negb (is_block_like e) then [sym ";"] else []) ++ [line]
  | _ => []
  end.

Fixpoint stmts_pieces (n : nat) (none_tail : bool) (l : list Stmt) : list piece :=
  match l with
  | [] => []
  | st :: l => stmt_pieces n st (is_nil l && none_tail) ++ stmts_pieces n none_tail l
  end.

Lemma block_pieces_eq n stmts tail sp :
  block_pieces n (mkBlock stmts tail sp) =
  if is_nil stmts && is_none tail then [sym "{"; sym "}"]
  else
    [sym "{"; line] ++ stmts_pieces (S n) (is_none tail) stmts ++
    match tail with Some e => margin (S n) ++ expr_pieces (S n) e ++ [line] | None => [] end ++ margin n ++ [sym "}"].
Proof.
  cbn [block_pieces]. destruct (_ && _); [done|]. f_equal. apply (f_equal (fun a => a ++ _)).
  generalize (is_none tail). intros b. induction stmts as [|st stmts IH]; [done|].
  exact (f_equal (app _) IH).
Qed.

Definition param_pieces (p : Param) : list piece :=
  match p with mkParam (PIdent name _) t _ => [word name; sym ":"; blank] ++ ty_pieces t | _ => [] end.

Definition item_pieces (i : Item) : list piece :=
  match i with
  | IConst (mkConstDecl name t v _ _) =>
      [word "const"; blank; word name; sym ":"; blank] ++ ty_pieces t ++ [blank; sym "="; blank] ++ expr_pieces 0 v ++ [sym ";"]
  | IFn (mkFnDecl name _ _ ps rt b _ _ _ _ _ _ _) =>
      [word "fn"; blank; word name; sym "("] ++ comma_pieces (map param_pieces ps) ++ [sym ")"] ++
      match rt with Some t => [blank; sym "->"; blank] ++ ty_pieces t | None => [] end ++ [blank] ++ block_pieces 0 b
  | _ => []
  end.

Fixpoint items_pieces (l : list Item) : list piece :=
  match l with
  | [] => []
  | [i] => item_pieces i
  | i :: l => item_pieces i ++ [line; line] ++ items_pieces l
  end.

Definition module_pieces (m : Module) : list piece :=
  let body :=
    match module_name m with
    | Some d => [word "module"; blank; word (md_name d); sym ";"] ++ if is_nil (items m) then [] else [line; line]
    | None => []
    end ++ items_pieces (items m) in
  if is_nil body then [] else body ++ [line].
