(* ===== verification/Printed.v ===== *)
(** The formatter writes the pieces of a core program.

    [prints m n n' ps]: the writer [m], started at indentation [n], appends a
    text whose chars are those of [ps] and leaves the indentation at [n'].
    By induction over the core the formatter writes [module_pieces], and these
    are spelled and separated so that the lexer reads them back. *)
From S2P Require Import Prelude Floats Span Diag Lex Ast ParseBase Parse Fmt Pieces Core.
Open Scope nat_scope.
Open Scope fmt_scope.

(** ** Induction over the core *)

Definition on_stmt (P : Expr -> Prop) (s : Stmt) : Prop :=
  match s with
  | SLet (mkLetStmt _ _ _ (Some v) _) => P v
  | SExpr e => P e
  | _ => True
  end.

Definition on_option (P : Expr -> Prop) (o : option Expr) : Prop := match o with Some e => P e | None => True end.

Section Induction.
Context (P : Expr -> Prop) (Q : Block -> Prop).
Context (H_other : forall e, (forall lt, core_expr lt e = false) -> (forall lt, core_expr lt (unspan e) = false) -> P e).
Context (H_literal : forall l sp, P (ELiteral l sp)) (H_ident : forall name sp, P (EIdent name sp)).
Context (H_block : forall b, Q b -> P (EBlock b)).
Context (H_if : forall c t f sp, P c -> Q t -> on_option P f -> P (EIf c t f sp)).
Context (H_loop : forall b sp, Q b -> P (ELoop b sp)) (H_while : forall c b sp, P c -> Q b -> P (EWhile c b sp)).
Context (H_call : forall x tys args sp, P x -> Forall P args -> P (ECall x tys args sp)).
Context (H_method : forall x m args sp, P x -> Forall P args -> P (EMethodCall x m args sp)).
Context (H_binary : forall op l r sp, P l -> P r -> P (EBinary op l r sp)).
Context (H_unary : forall op x sp, P x -> P (EUnary op x sp)) (H_borrow : forall m x sp, P x -> P (EBorrow m x sp)).
Context (H_assign : forall l r sp, P l -> P r -> P (EAssign l r sp)).
Context (H_field : forall x f sp, P x -> P (EField x f sp)).
Context (H_index : forall x is_ sp, P x -> Forall P is_ -> P (EIndex x is_ sp)).
Context (H_try : forall x sp, P x -> P (ETry x sp)) (H_tuple : forall xs sp, Forall P xs -> P (ETuple xs sp)).
Context (H_return : forall v sp, on_option P v -> P (EReturn v sp)).
Context (H_break : forall v sp, P (EBreak v sp)) (H_continue : forall sp, P (EContinue sp)).
Context (H_stmts : forall stmts tail sp, Forall (on_stmt P) stmts -> on_option P tail -> Q (mkBlock stmts tail sp)).

Fixpoint core_expr_ind (e : Expr) {struct e} : P e
with core_block_ind (b : Block) {struct b} : Q b.
Proof.
  - destruct e; try (by apply H_other); try (by match goal with b : QuoteBody |- _ => destruct b; apply H_other end);
      try match goal with b : Block |- _ => pose proof (core_block_ind b) end;
      repeat match goal with x : Expr |- _ => lazymatch goal with H : P x |- _ => fail | _ => pose proof (core_expr_ind x) end end.
    + apply H_literal.
    + apply H_ident.
    + by apply H_block.
    + apply H_if; [done|done|]. destruct else_branch; [apply core_expr_ind|done].
    + by apply H_loop.
    + by apply H_while.
    + apply H_call; [done|]. clear -core_expr_ind. induction args; constructor; [apply core_expr_ind|done].
    + apply H_method; [done|]. clear -core_expr_ind. induction args; constructor; [apply core_expr_ind|done].
    + by apply H_binary.
    + by apply H_unary.
    + by apply H_assign.
    + by apply H_field.
    + apply H_index; [done|]. clear -core_expr_ind. induction index; constructor; [apply core_expr_ind|done].
    + by apply H_try.
    + apply H_return. destruct value; [apply core_expr_ind|done].
    + apply H_break.
    + apply H_continue.
    + by apply H_borrow.
    + apply H_tuple. clear -core_expr_ind. induction items; constructor; [apply core_expr_ind|done].
  - destruct b as [stmts tail sp]. apply H_stmts; [|destruct tail; [apply core_expr_ind|done]].
    clear -core_expr_ind. induction stmts as [|[[? ? ? [v|] ?]|e|i] stmts IH]; constructor; simpl; auto.
Qed.

Lemma core_ind : (forall e, P e) /\ (forall b, Q b).
Proof. split; [apply core_expr_ind|apply core_block_ind]. Qed.
End Induction.

(** ** Writers *)

Definition prints (m : F) (n n' : nat) (ps : list piece) : Prop :=
  forall f, indent_level f = n ->
    exists s, m f = Some (mkFormatter (output f ++ s)%string n') /\ chars s = text ps.

Lemma chars_app a b : chars (a ++ b)%string = chars a ++ chars b.
Proof. induction a as [|c a IH]; [done|]. exact (f_equal (cons (cp c)) IH). Qed.

Lemma text_app a b : text (a ++ b) = text a ++ text b.
Proof. unfold text. by rewrite map_app, concat_app. Qed.

Lemma string_app_nil (s : string) : (s ++ "")%string = s.
Proof. induction s as [|c s IH]; [done|]. exact (f_equal (String c) IH). Qed.

Lemma string_app_assoc (a b c : string) : ((a ++ b) ++ c)%string = (a ++ b ++ c)%string.
Proof. induction a as [|x a IH]; [done|]. exact (f_equal (String x) IH). Qed.

Lemma prints_write s n ps : chars s = text ps -> prints (write s) n n ps.
Proof. intros E f <-. by exists s. Qed.

Lemma prints_skip n : prints skip n n [].
Proof. intros f <-. exists ""%string. split; [|done]. unfold skip. destruct f; simpl. by rewrite string_app_nil. Qed.

Lemma prints_indent n : prints indent n (S n) [].
Proof. intros f <-. exists ""%string. unfold indent. by rewrite string_app_nil. Qed.

Lemma prints_dedent n : prints dedent (S n) n [].
Proof. intros f E. exists ""%string. unfold dedent. rewrite string_app_nil, E. simpl. by rewrite Nat.sub_0_r. Qed.

Lemma prints_seq a b n1 n2 n3 p q : prints a n1 n2 p -> prints b n2 n3 q -> prints (a +> b) n1 n3 (p ++ q).
Proof.
  intros Ha Hb f E. destruct (Ha f E) as (s & Es & Hs). destruct (Hb (mkFormatter (output f ++ s)%string n2) eq_refl) as (t & Et & Ht).
  exists (s ++ t)%string. unfold seq. rewrite Es. simpl. rewrite Et. simpl.
  by rewrite string_app_assoc, chars_app, text_app, Hs, Ht.
Qed.

Lemma prints_newline n : prints fmt_newline n n [line].
Proof. by apply prints_write. Qed.

Lemma prints_write_indent n : prints write_indent n n (margin n).
Proof.
  intros f E. exists (repeat_string n "    ")%string. unfold write_indent, write. rewrite E. split; [done|].
  clear. induction n as [|n IH]; [done|]. unfold margin in *. replace (4 * S n) with (4 + 4 * n) by lia.
  rewrite repeat_app, text_app, <- IH. done.
Qed.

Lemma prints_when (c : bool) m n ps : prints m n n ps -> prints (when c m) n n (if c then ps else []).
Proof. destruct c; [done|]. intros _. apply prints_skip. Qed.

Lemma prints_assoc a b c n n' ps : prints (a +> b +> c) n n' ps -> prints ((a +> b) +> c) n n' ps.
Proof. intros H f E. destruct (H f E) as (s & Es & Hs). exists s. split; [|done]. rewrite <- Es. unfold seq. by destruct (a f). Qed.

(** [sep_by] over a list whose elements print. *)
Lemma prints_commas {A} (f : A -> F) (g : A -> list piece) n l :
  Forall (fun x => prints (f x) n n (g x)) l -> prints (comma_list f l) n n (comma_pieces (map g l)).
Proof.
  intros H. unfold comma_list, sep_by. destruct H as [|x l Hx H]; [apply prints_skip|].
  revert x Hx. induction H as [|y l Hy H IH]; intros x Hx.
  - rewrite <- (app_nil_r (comma_pieces _)). apply (prints_seq _ _ _ n); [done|apply prints_skip].
  - change (comma_pieces (map g (x :: y :: l))) with (g x ++ [sym ","; blank] ++ comma_pieces (map g (y :: l))).
    apply (prints_seq _ _ _ n); [done|]. apply prints_assoc. eapply prints_seq; [by apply prints_write|]. by apply IH.
Qed.

(** Any text, as a piece. *)
Definition raw (s : string) : list piece := [Tk Error_ (chars s)].

Lemma prints_raw s n : prints (write s) n n (raw s).
Proof. apply prints_write. unfold raw, text; simpl. by rewrite app_nil_r. Qed.

Lemma prints_as m n n' ps' ps : prints m n n' ps' -> text ps' = text ps -> prints m n n' ps.
Proof. intros H E f Hf. destruct (H f Hf) as (s & Hs & Ht). exists s. by rewrite <- E. Qed.

Lemma prints_wrapped e m k n ps : prints m n n ps -> prints (with_precedence e m k) n n (wrapped e k ps).
Proof.
  intros H. unfold with_precedence, wrapped. destruct (_ <? _); [|done].
  eapply (prints_seq _ _ _ n); [by apply prints_write|]. eapply (prints_seq _ _ _ n); [done|by apply prints_write].
Qed.

(** Follows the writers of a definition. *)
Ltac print_steps :=
  repeat first
    [ eassumption
    | apply prints_newline | apply prints_write_indent | apply prints_indent | apply prints_dedent | apply prints_skip
    | apply prints_raw
    | apply prints_wrapped
    | apply prints_commas
    | eapply prints_when
    | eapply prints_seq ].

(** The texts of two lists of pieces, compared. *)
Ltac same_text :=
  unfold wrapped; repeat case_match; unfold text;
  repeat (progress (rewrite ?map_app, ?concat_app, <- ?app_assoc, ?app_nil_r; simpl)); try done.

Ltac prints_auto := eapply prints_as; [print_steps|same_text].

Section Printed.
Context (lc : string -> bool).

Definition expr_prints (e : Expr) : Prop :=
  forall lt n, core_expr lt e = true -> prints (format_expr None lc e) n n (expr_pieces n e).
Definition block_prints (b : Block) : Prop :=
  forall lt n, core_block lt b = true -> prints (format_block None lc b) n n (block_pieces n b).

Lemma ty_prints t n : core_ty t = true -> prints (format_ty None lc t) n n (ty_pieces t).
Proof.
  destruct t; try done. intros H. simpl. apply prints_write.
  destruct path as [|name path]; [done|]. clear H. revert name.
  induction path as [|name' path IH]; intros name; [unfold text; simpl; by rewrite app_nil_r|].
  unfold join_path in *.
  change (String.concat "::" (name :: name' :: path)) with (name ++ "::" ++ String.concat "::" (name' :: path))%string.
  change (path_pieces (name :: name' :: path)) with ([word name; sym "::"] ++ path_pieces (name' :: path)).
  rewrite !chars_app, IH, text_app, app_assoc. done.
Qed.

Lemma operands_print lt n xs :
  Forall expr_prints xs -> forallb (fun x => negb (is_return x) && core_expr lt x) xs = true ->
  Forall (fun x => prints (format_expr None lc x) n n (expr_pieces n x)) xs.
Proof.
  intros HF H%forallb_true. rewrite Forall_forall in H, HF |- *. intros x Hx.
  specialize (H x Hx). apply andb_true_iff in H as [_ H]. by apply (HF x Hx lt).
Qed.

(** Splits the conditions of the core. *)
Ltac core_split :=
  repeat match goal with
  | H : (_ && _) = true |- _ => apply andb_true_iff in H as [? ?]
  end.

(** The sub-expressions print. *)
Ltac use_ih n :=
  repeat match goal with
  | IH : expr_prints ?e, H : core_expr ?lt ?e = true |- _ => specialize (IH lt n H)
  | IH : block_prints ?b, H : core_block ?lt ?b = true |- _ => specialize (IH lt n H)
  | IH : Forall expr_prints ?xs, H : forallb _ ?xs = true |- _ => pose proof (operands_print _ n _ IH H); clear IH
  end.

Fixpoint format_stmts (none_tail : bool) (l : list Stmt) : F :=
  match l with
  | [] => skip
  | st :: l => format_stmt None lc st (is_nil l && none_tail) +> format_stmts none_tail l
  end.

Lemma format_block_eq stmts tail sp :
  format_block None lc (mkBlock stmts tail sp) =
  (write "{" +>
   if is_nil stmts && is_none tail then write "}"
   else
     fmt_newline +> indent +> format_stmts (is_none tail) stmts +>
     opt (fun e => write_indent +> format_expr None lc e +> fmt_newline) tail +>
     dedent +> write_indent +> write "}").
Proof.
  cbn [format_block]. f_equal. destruct (_ && _); [done|]. do 2 f_equal. apply (f_equal (fun a => a +> _)).
  generalize (is_none tail). intros b. induction stmts as [|st stmts IH]; [done|].
  exact (f_equal (seq _) IH).
Qed.

Lemma stmts_print lt n none_tail stmts :
  Forall (on_stmt expr_prints) stmts -> forallb (core_stmt lt) stmts = true ->
  prints (format_stmts none_tail stmts) n n (stmts_pieces n none_tail stmts).
Proof.
  intros HF H. induction HF as [|st stmts Hst HF IH]; [apply prints_skip|].
  cbn [forallb] in H. core_split. apply (prints_seq _ _ _ n); [|by apply IH].
  destruct st as [[m p t v sp]|e|i]; [| |done].
  - destruct p; try done. cbn [core_stmt] in *. core_split. simpl. destruct t as [t|], v as [v|]; core_split; simpl in Hst; use_ih n;
      try match goal with H : core_ty ?t = true |- _ => pose proof (ty_prints t n H) end; prints_auto.
  - cbn [core_stmt] in *. core_split. simpl in Hst. use_ih n. simpl. prints_auto.
Qed.

Lemma expr_block_prints : (forall e, expr_prints e) /\ (forall b, block_prints b).
Proof.
  apply core_ind; intros; intros lt n Hc; cbn [core_expr core_block] in Hc; core_split; use_ih n.
  - by rewrite H in Hc.
  - destruct l; try done; simpl.
    + prints_auto.
    + destruct value; prints_auto.
  - simpl; prints_auto.
  - done.
  - simpl. destruct f as [f|]; [|prints_auto]. core_split. simpl in *. use_ih n. prints_auto.
  - simpl. prints_auto.
  - simpl. prints_auto.
  - simpl. prints_auto.
  - simpl. prints_auto.
  - cbn [format_expr expr_pieces]. prints_auto.
  - simpl. prints_auto.
  - simpl. destruct m; prints_auto.
  - simpl. prints_auto.
  - simpl. prints_auto.
  - simpl. prints_auto.
  - simpl. prints_auto.
  - simpl. prints_auto.
  - simpl. destruct v as [v|]; [|prints_auto]. simpl in *. core_split. use_ih n. prints_auto.
  - destruct v; [done|]. simpl. prints_auto.
  - simpl. prints_auto.
  - rewrite format_block_eq, block_pieces_eq. destruct (is_nil stmts && is_none tail); [prints_auto|].
    pose proof (stmts_print lt (S n) (is_none tail) stmts H H1) as Hs.
    destruct tail as [e|]; simpl in H0; core_split; use_ih (S n); cbn [opt]; prints_auto.
Qed.

Lemma param_prints p n : core_param p = true -> prints (format_param None lc p) n n (param_pieces p).
Proof.
  destruct p as [[] t sp]; try done. simpl. intros H. core_split. unfold receiver, self_ident.
  rewrite bool_decide_false; [|by apply bool_decide_eq_true in H1].
  pose proof (ty_prints t n H0). simpl. prints_auto.
Qed.

Lemma format_fn_eq name ps rt b sp :
  format_item None lc (IFn (mkFnDecl name None [] ps rt b false false false false None [] sp)) =
  (write_indent +> skip +> skip +> skip +> write "fn " +> write name +> skip +>
   write "(" +> comma_list (format_param None lc) ps +> write ")" +>
   opt (fun t => write " -> " +> format_ty None lc t) rt +> write " " +> format_block None lc b).
Proof. reflexivity. Qed.

Lemma item_prints lt i : core_item lt i = true -> prints (format_item None lc i) 0 0 (item_pieces i).
Proof.
  destruct i as [d| | | | | |d|]; try done; destruct d; cbn [core_item item_pieces]; intros H.
  - repeat match type of H with match ?x with _ => _ end = true => destruct x; try done end. core_split.
    rewrite format_fn_eq.
    assert (Hps : Forall (fun p => prints (format_param None lc p) 0 0 (param_pieces p)) params).
    { apply forallb_true in H2. eapply Forall_impl; [exact H2|]. intros p. apply param_prints. }
    pose proof (proj2 expr_block_prints body lt 0 H0) as Hb.
    destruct return_ty as [t|]; [pose proof (ty_prints t 0 H1)|]; cbn [opt]; prints_auto.
  - destruct is_pub; [done|]. core_split.
    pose proof (ty_prints ty 0 H2). pose proof (proj1 expr_block_prints value lt 0 H0). prints_auto.
Qed.
End Printed.

(** ** Modules *)

(** The last piece is a delimiter. *)
Definition closed (ps : list piece) : Prop := exists qs c, ps = qs ++ [sym c] /\ (c = ";" \/ c = "}")%string.

Lemma closed_app a b : closed b -> closed (a ++ b).
Proof. intros (qs & c & -> & H). exists (a ++ qs), c. by rewrite app_assoc. Qed.

Lemma closed_end c : (c = ";" \/ c = "}")%string -> closed [sym c].
Proof. by exists [], c. Qed.

Lemma block_closed n b : closed (block_pieces n b).
Proof.
  destruct b as [stmts tail sp]. rewrite block_pieces_eq.
  destruct (_ && _); repeat apply closed_app; [apply (closed_app [sym "{"])|]; apply closed_end; tauto.
Qed.

Lemma item_closed lt i : core_item lt i = true -> closed (item_pieces i).
Proof.
  destruct i as [d| | | | | |d|]; try done; destruct d; cbn [item_pieces]; intros _.
  - repeat apply closed_app. apply block_closed.
  - repeat apply closed_app. apply closed_end. tauto.
Qed.

Lemma items_closed lt l : l <> [] -> forallb (core_item lt) l = true -> closed (items_pieces l).
Proof.
  induction l as [|i l IH]; [done|]. intros _ H. cbn [forallb] in H. apply andb_true_iff in H as [Hi Hl].
  destruct l as [|j l]; [by eapply item_closed|].
  change (items_pieces (i :: j :: l)) with (item_pieces i ++ [line; line] ++ items_pieces (j :: l)).
  do 2 apply closed_app. by apply IH.
Qed.

Lemma items_print lc lt l :
  forallb (core_item lt) l = true ->
  prints (sep_by (fmt_newline +> fmt_newline) (format_item None lc) l) 0 0 (items_pieces l).
Proof.
  intros H%forallb_true. unfold sep_by. destruct H as [|i l Hi H]; [apply prints_skip|].
  revert i Hi. induction H as [|j l Hj H IH]; intros i Hi; pose proof (item_prints lc lt i Hi) as Hp.
  - cbn [each]. eapply prints_as; [print_steps|same_text].
  - change (items_pieces (i :: j :: l)) with (item_pieces i ++ [line; line] ++ items_pieces (j :: l)).
    apply (prints_seq _ _ _ 0); [done|]. cbn [each]. do 2 apply prints_assoc.
    eapply prints_as; [|reflexivity]. apply (prints_seq _ _ _ 0 _ [line] ([line] ++ items_pieces (j :: l))); [apply prints_newline|].
    apply (prints_seq _ _ _ 0); [apply prints_newline|]. by apply IH.
Qed.

Lemma chars_map s : chars s = map cp (list_ascii_of_string s).
Proof. induction s as [|c s IH]; simpl; [done|]. by rewrite IH. Qed.

Lemma closed_no_newline ps s : closed ps -> chars s = text ps -> s <> EmptyString /\ ends_with_newline s = false.
Proof.
  intros (qs & c & -> & Hc) E. rewrite text_app, chars_map in E. split.
  - intros ->. simpl in E. destruct Hc as [-> | ->]; by destruct (text qs).
  - unfold ends_with_newline. apply bool_decide_eq_false. intros Hl.
    assert (Hm : last (map cp (list_ascii_of_string s)) = Some newline) by (change (last (cp <$> list_ascii_of_string s) = Some newline); by rewrite fmap_last, Hl).
    rewrite E in Hm. destruct Hc as [-> | ->]; [change (text [sym ";"]) with [ch ";"] in Hm|change (text [sym "}"]) with [ch "}"] in Hm];
      by rewrite last_snoc in Hm.
Qed.

(** The last step of [format_module]. *)
Lemma prints_run a b (k : F) s :
  (a +> b) (mkFormatter EmptyString 0) = Some (mkFormatter s 0) -> (a +> b +> k) (mkFormatter EmptyString 0) = k (mkFormatter s 0).
Proof. unfold seq. destruct (a _) as [f|]; simpl; [|done]. by intros ->. Qed.

(** The formatter writes the pieces of a core module. *)
Lemma module_prints lc lt m :
  core_module lt m = true -> exists s, format_module lc m None = Some s /\ chars s = text (module_pieces m).
Proof.
  intros H. unfold core_module in H. apply andb_true_iff in H as [Hn Hi].
  unfold format_module, run_formatter, format_module_items, module_pieces.
  set (head_ := match module_name m with Some _ => _ | None => skip end).
  set (hps := match module_name m with Some _ => _ | None => [] end).
  assert (Hh : prints head_ 0 0 hps /\ (hps <> [] -> items m = [] -> closed hps)).
  { unfold head_, hps. destruct (module_name m) as [d|]; [|split; [apply prints_skip|done]].
    destruct (is_nil (items m)) eqn:El; cbn [negb when]; (split; [prints_auto|]).
    - intros _ _. apply (closed_app [word "module"; blank; word (md_name d)]), (closed_end ";"). tauto.
    - by destruct (items m). }
  pose proof (prints_seq _ _ _ 0 _ _ _ (proj1 Hh) (items_print lc lt _ Hi)) as Hp. clearbody head_ hps.
  destruct (Hp (mkFormatter EmptyString 0) eq_refl) as (s & Es & Hs).
  assert (Hc : is_nil (hps ++ items_pieces (items m)) = false -> closed (hps ++ items_pieces (items m))).
  { intros Hn'. destruct (items m) as [|i l] eqn:El; [|apply closed_app; by eapply items_closed].
    rewrite app_nil_r in *. apply Hh; [|done]. by destruct hps. }
  rewrite prints_run with (s := s) by exact Es.
  destruct (is_nil (hps ++ _)) eqn:En.
  - destruct (hps ++ _); [|done]. exists EmptyString. destruct s; [done|]. by destruct (cp a).
  - destruct (closed_no_newline _ s (Hc eq_refl) Hs) as [Hne Hnl]. cbn [output]. rewrite bool_decide_false, Hnl by done.
    exists (s ++ newline_string)%string. split; [done|]. by rewrite chars_app, text_app, Hs.
Qed.
