(* ===== verification/Spelling.v ===== *)
(** The pieces of a core program are spelled as tokens, and no two neighbours
    run together: the texts the formatter writes are read as they were meant. *)
From S2P Require Import Prelude Floats Span Diag Lex Ast ParseBase Parse Fmt Pieces Core Printed.
Open Scope nat_scope.

(** ** Joining lists of pieces *)

(** Whatever comes next, the piece ends where it ends. *)
Definition loose (p : piece) : bool :=
  match p with
  | Sp _ => true
  | Tk _ w => negb (is_word w) && negb (is_digits w) && match symbol w with Some (_, no) => is_nil no | None => false end
  end.

(** The end of an expression: a word, a number or a closing symbol. *)
Definition closer (p : piece) : bool :=
  loose p || match p with Tk _ w => is_word w || is_digits w | Sp _ => false end.

Definition first_char (p : piece) : char := default 0%Z (head (piece_text p)).

(** White space or a symbol. *)
Definition separator (p : piece) : bool := negb (is_identifier_continue (first_char p)).

(** The start of an expression. *)
Definition opener (p : piece) : bool := negb (first_char p =? ch ">")%Z && negb (first_char p =? ch "=")%Z.

Lemma spelled_first p : spelled p = true -> exists w, piece_text p = first_char p :: w.
Proof. unfold first_char. destruct p as [c|k [|c w]]; simpl; [by exists []|done|by exists w]. Qed.

Lemma adjacent_first p q : spelled q = true -> adjacent p q = may_follow p (first_char q).
Proof. intros H. destruct (spelled_first q H) as [w E]. unfold adjacent. by rewrite E. Qed.

Lemma loose_adjacent p q : loose p = true -> spelled q = true -> adjacent p q = true.
Proof.
  intros Hp Hq. rewrite adjacent_first by done. destruct p as [c|k w]; [done|]. simpl in *.
  apply andb_true_iff in Hp as [[Hw Hd]%andb_true_iff Hs]. apply negb_true_iff in Hw, Hd. rewrite Hw, Hd. simpl.
  destruct (symbol w) as [[k' [|x no]]|]; done.
Qed.

Lemma closer_adjacent p q : closer p = true -> separator q = true -> spelled q = true -> adjacent p q = true.
Proof.
  intros Hp Hs Hq. unfold closer in Hp. apply orb_true_iff in Hp as [Hp|Hp]; [by apply loose_adjacent|].
  destruct p as [|k w]; [done|]. rewrite adjacent_first by done. simpl. by rewrite Hp.
Qed.

Definition all_spelled (ps : list piece) : Prop := Forall (fun p => spelled p = true) ps.

Lemma linked_app a b :
  linked a = true -> linked b = true ->
  (forall p q, last a = Some p -> head b = Some q -> adjacent p q = true) -> linked (a ++ b) = true.
Proof.
  intros Ha Hb H. induction a as [|p a IH]; [done|].
  destruct a as [|q a].
  - destruct b as [|q b]; [done|]. change (adjacent p q && linked (q :: b) = true). rewrite Hb, andb_true_r. by apply H.
  - change (adjacent p q && linked (q :: a) = true) in Ha. change (adjacent p q && linked ((q :: a) ++ b) = true).
    apply andb_true_iff in Ha as [-> Ha]. by apply IH.
Qed.

(** Ends in a piece of which [P] holds, or is empty. *)
Definition ends_in (P : piece -> bool) (ps : list piece) : Prop := forall p, last ps = Some p -> P p = true.
Definition starts_in (P : piece -> bool) (ps : list piece) : Prop := forall p, head ps = Some p -> P p = true.

Lemma ends_app P a b : b <> [] -> ends_in P b -> ends_in P (a ++ b).
Proof. intros Hn H p. rewrite last_app. destruct (last b) eqn:E; [intros [= ->]; by apply H|]. by apply last_None in E. Qed.

Lemma starts_app P a b : a <> [] -> starts_in P a -> starts_in P (a ++ b).
Proof. intros Hn H p. destruct a; [done|]. apply H. Qed.

Lemma ends_weaken (P P' : piece -> bool) ps : (forall p, P p = true -> P' p = true) -> ends_in P ps -> ends_in P' ps.
Proof. intros H E p Hp. by apply H, E. Qed.

Lemma loose_closer p : loose p = true -> closer p = true.
Proof. unfold closer. by intros ->. Qed.

(** A list that may be followed by anything. *)
Record neat (ps : list piece) : Prop := {
  neat_spelled : all_spelled ps; neat_linked : linked ps = true; neat_last : ends_in loose ps }.

(** A list that reads as an expression. *)
Record framed (ps : list piece) : Prop := {
  framed_nonempty : ps <> [];
  framed_spelled : all_spelled ps; framed_linked : linked ps = true;
  framed_first : starts_in opener ps; framed_last : ends_in closer ps }.

Lemma join_loose a b : neat a -> all_spelled b -> linked b = true -> linked (a ++ b) = true.
Proof.
  intros [Sa La Ea] Sb Lb. apply linked_app; [done|done|]. intros p q Hp Hq. apply loose_adjacent; [by apply Ea|].
  destruct b; [done|]. injection Hq as ->. by inversion Sb.
Qed.

Lemma neat_nil : neat [].
Proof. split; [constructor|done|done]. Qed.

Lemma neat_app a b : neat a -> neat b -> neat (a ++ b).
Proof.
  intros Ha Hb. destruct (decide (b = [])) as [->|Hn]; [by rewrite app_nil_r|]. pose proof Hb as [Sb Lb Eb]. split.
  - apply Forall_app. split; [apply Ha|done].
  - by apply join_loose.
  - by apply ends_app.
Qed.

(** An expression between neat texts. *)
Lemma framed_before a m : framed a -> neat m -> m <> [] -> starts_in separator m -> neat (a ++ m).
Proof.
  intros [Na Sa La Fa Ea] [Sm Lm Em] Hn Hs. split.
  - by apply Forall_app.
  - apply linked_app; [done|done|]. intros p q Hp Hq. apply closer_adjacent; [by apply Ea|by apply Hs|].
    destruct m; [done|]. injection Hq as ->. by inversion Sm.
  - by apply ends_app.
Qed.

Lemma framed_after m a : neat m -> m <> [] -> starts_in opener m -> framed a -> framed (m ++ a).
Proof.
  intros Hm Hn Hf [Na Sa La Fa Ea]. split.
  - by destruct m.
  - apply Forall_app. split; [apply Hm|done].
  - by apply join_loose.
  - by apply starts_app.
  - by apply ends_app.
Qed.

Lemma framed_end a : neat a -> a <> [] -> starts_in opener a -> framed a.
Proof. intros [Sa La Ea] Hn Hf. split; try done. by eapply ends_weaken; [apply loose_closer|]. Qed.

Lemma framed_starts a b : framed a -> starts_in opener (a ++ b).
Proof. intros [Na _ _ Fa _]. by apply starts_app. Qed.

Lemma framed_app a b : framed a -> framed b -> starts_in separator b -> framed (a ++ b).
Proof.
  intros [Na Sa La Fa Ea] [Nb Sb Lb Fb Eb] Hs. split.
  - by destruct a.
  - by apply Forall_app.
  - apply linked_app; [done|done|]. intros p q Hp Hq. apply closer_adjacent; [by apply Ea|by apply Hs|].
    destruct b; [done|]. injection Hq as ->. by inversion Sb.
  - by apply starts_app.
  - by apply ends_app.
Qed.

(** Lists of known pieces. *)
Ltac known := first
  [ done
  | match goal with |- starts_in _ _ => intros ? [= <-]; reflexivity end
  | match goal with |- neat _ => split; [repeat constructor|reflexivity|intros ? [= <-]; reflexivity] end
  | match goal with |- framed _ => split; [done|repeat constructor|reflexivity|intros ? [= <-]; reflexivity|intros ? [= <-]; reflexivity] end ].

Lemma framed_wrapped e k ps : framed ps -> framed (wrapped e k ps).
Proof.
  intros H. unfold wrapped. destruct (_ <? _); [|done].
  apply framed_end; [apply neat_app; [known|apply framed_before; known]|done|known].
Qed.

Lemma commas_neat l m :
  Forall framed l -> neat m -> m <> [] -> starts_in separator m -> neat (comma_pieces l ++ m).
Proof.
  intros H Hm Hn Hs. induction H as [|a l Ha H IH]; [done|]. destruct l as [|b l]; [by apply framed_before|].
  change (comma_pieces (a :: b :: l)) with (a ++ [sym ","; blank] ++ comma_pieces (b :: l)).
  rewrite <- app_assoc, <- app_assoc, app_assoc. apply neat_app; [apply framed_before; known|exact IH].
Qed.

(** [x ( args )] and the like. *)
Lemma framed_arguments a o l c :
  framed a -> neat o -> o <> [] -> starts_in separator o -> Forall framed l -> neat c -> c <> [] -> starts_in separator c ->
  framed (a ++ o ++ comma_pieces l ++ c).
Proof.
  intros Ha Ho No So Hl Hc Nc Sc. rewrite app_assoc. apply framed_end.
  - apply neat_app; [by apply framed_before|by apply commas_neat].
  - destruct Ha as [Na _ _ _ _]. by destruct a.
  - rewrite <- app_assoc. by apply framed_starts.
Qed.

(** ** Words and numbers *)

Lemma core_name_word name : core_name name = true -> is_word (chars name) = true /\ keyword_kind (chars name) = Identifier.
Proof. unfold core_name. intros [? ?%bool_decide_eq_true]%andb_true_iff. done. Qed.

Lemma word_spelled name : is_word (chars name) = true -> spelled (word name) = true.
Proof. intros H. unfold word; simpl. rewrite H. by apply bool_decide_eq_true. Qed.

Lemma word_first name :
  is_word (chars name) = true -> exists c w, chars name = c :: w /\ is_identifier_start c = true.
Proof. destruct (chars name) as [|c w]; [done|]. simpl. intros [? ?]%andb_true_iff. by exists c, w. Qed.

Lemma start_opener c : is_identifier_continue c = true -> (c =? ch ">")%Z = false /\ (c =? ch "=")%Z = false /\ (c =? ch "&")%Z = false.
Proof. intros H. repeat split; apply Z.eqb_neq; intros ->; done. Qed.

Lemma framed_word name : is_word (chars name) = true -> framed [word name].
Proof.
  intros H. destruct (word_first name H) as (c & w & E & Hc). split; [done| |done| |].
  - constructor; [by apply word_spelled|constructor].
  - intros p [= <-]. unfold opener, first_char; simpl. rewrite E. simpl.
    destruct (start_opener c (start_continue c Hc)) as (-> & -> & _). done.
  - intros p [= <-]. unfold closer; simpl. rewrite H. apply orb_true_r.
Qed.

Lemma framed_name name : core_name name = true -> framed [word name].
Proof. intros [H _]%core_name_word. by apply framed_word. Qed.

(** A name after a piece that only another symbol would extend. *)
Lemma name_adjacent p name :
  core_name name = true -> (forall c, is_identifier_start c = true -> may_follow p c = true) -> adjacent p (word name) = true.
Proof.
  intros [H _]%core_name_word Hp. destruct (word_first name H) as (c & w & E & Hc).
  rewrite adjacent_first by (by apply word_spelled). unfold first_char; simpl. rewrite E. by apply Hp.
Qed.

Lemma framed_dot name : core_name name = true -> framed [sym "."; word name].
Proof.
  intros H. destruct (framed_name name H) as [_ S _ _ E]. split; [done| | |known|exact E].
  - constructor; [done|exact S].
  - change (adjacent (sym ".") (word name) && true = true). rewrite name_adjacent; [done|done|].
    intros c Hc. pose proof (start_not_digit c Hc) as Hd. apply negb_true_iff. simpl.
    repeat match goal with |- context [(c =? ?d)%Z] => destruct (Z.eqb_spec c d) as [->|_]; [done|] end. done.
Qed.

Lemma parse_digits_radix acc s v :
  parse_digits acc s = Some v ->
  radix_digits 10 acc (chars s) = Some v /\ Forall (fun c => is_ascii_digit c = true) (chars s).
Proof.
  revert acc. induction s as [|a s IH]; intros acc H; [split; [done|constructor]|]. cbn [parse_digits] in H.
  unfold digit_of in H. destruct (is_dec_digit (cp a)) eqn:Hd; [|done]. cbn in H.
  assert (Ha : is_ascii_digit (cp a) = true) by done.
  assert (H10 : is_digit 10 (cp a) = true).
  { unfold is_digit. rewrite Ha. unfold is_dec_digit in Hd. apply andb_true_iff in Hd as [?%Z.leb_le ?%Z.leb_le].
    apply Z.ltb_lt. lia. }
  destruct (IH _ H) as [E F]. cbn [chars radix_digits]. rewrite H10. unfold digit_value. rewrite Ha.
  replace (acc * 10 + (cp a - 48))%Z with (10 * acc + (cp a - 48))%Z by lia. split; [done|]. by constructor.
Qed.

Lemma show_Z_read n :
  (0 <= n)%Z -> radix_digits 10 0 (chars (show_Z n)) = Some n /\
    Forall (fun c => is_ascii_digit c = true) (chars (show_Z n)) /\ chars (show_Z n) <> [].
Proof.
  intros Hn. pose proof (parse_unsigned_show n Hn) as H. unfold parse_unsigned in H.
  destruct (show_Z n) as [|a s] eqn:E; [done|]. apply parse_digits_radix in H as [? ?]. done.
Qed.

Lemma show_Z_digits n : (0 <= n)%Z -> is_digits (chars (show_Z n)) = true.
Proof.
  intros (_ & H & Hn)%show_Z_read. destruct H as [|c w Hc H]; [done|]. simpl. rewrite Hc. simpl. clear Hn.
  induction H as [|d w Hd H IH]; simpl; [done|]. by rewrite Hd, IH.
Qed.

(** The parser reads the number back. *)
Lemma parse_int_show n : (0 <= n <= i64_max)%Z -> parse_int_literal (chars (show_Z n)) = n.
Proof.
  intros Hn. destruct (show_Z_read n) as (E & F & Hne); [lia|]. unfold parse_int_literal.
  assert (Hu : without_underscores (chars (show_Z n)) = chars (show_Z n)).
  { clear E Hne. unfold without_underscores. induction F as [|c w Hc F IH]; simpl; [done|].
    destruct (Z.eqb_spec c (ch "_")) as [->|]; [done|]. simpl. by rewrite IH. }
  rewrite Hu. clear Hu. revert E F Hne. generalize (chars (show_Z n)). intros w E F Hne.
  assert (H : from_str_radix w 10 = Some n).
  { unfold from_str_radix. destruct F as [|c w Hc F]; [done|].
    destruct (Z.eqb_spec c (ch "-")) as [->|]; [done|]. destruct (Z.eqb_spec c (ch "+")) as [->|]; [done|].
    rewrite E. cbn. rewrite Z.mul_1_l. unfold check_i64. replace (in_i64 n) with true; [done|]. symmetry. unfold in_i64.
    apply andb_true_iff. rewrite !Z.leb_le. unfold i64_min. lia. }
  destruct F as [|c [|d w] Hc F]; rewrite ?H; try done.
  inversion F; subst. rewrite (no_radix d) by auto. by destruct (c =? _)%Z.
Qed.

Lemma framed_number n : (0 <= n)%Z -> framed [number_piece n].
Proof.
  intros H%show_Z_digits. unfold number_piece. destruct (chars (show_Z n)) as [|c w]; [done|].
  pose proof H as H'. simpl in H'. apply andb_true_iff in H' as [Hc _].
  assert (Hw : is_word (c :: w) = false).
  { simpl. destruct (is_identifier_start c) eqn:E; [|done]. apply start_not_digit in E. congruence. }
  split; [done| |done| |].
  - constructor; [|constructor]. unfold spelled. rewrite Hw, H. by apply bool_decide_eq_true.
  - intros p [= <-]. unfold opener, first_char; simpl.
    destruct (start_opener c) as (-> & -> & _); [|done]. unfold is_identifier_continue, is_ascii_alphanumeric. by rewrite Hc.
  - intros p [= <-]. unfold closer. rewrite H. by rewrite orb_true_r, orb_true_r.
Qed.

(** ** Expressions and blocks *)

Lemma path_framed p :
  match p with name :: names => core_name name && forallb core_name names | [] => false end = true -> framed (path_pieces p).
Proof.
  induction p as [|name p IH]; [done|]. intros [Hn Hp]%andb_true_iff. destruct p as [|name' p]; [by apply framed_name|].
  change (path_pieces (name :: name' :: p)) with ([word name; sym "::"] ++ path_pieces (name' :: p)).
  pose proof (framed_name name Hn) as Hf.
  apply framed_after; [apply (framed_before [word name] [sym "::"]); known|done| |by apply IH].
  intros q [= <-]. by apply Hf.
Qed.

Lemma ty_framed t : core_ty t = true -> framed (ty_pieces t).
Proof. destruct t; try done. simpl. intros H. apply path_framed. by destruct path. Qed.

Lemma margin_neat n : neat (margin n).
Proof.
  unfold margin. induction (4 * n) as [|k IH]; [apply neat_nil|]. simpl. apply (neat_app [blank]); [known|done].
Qed.

(** Nothing but a borrow starts with an ampersand where an operand of a prefix
    operator is printed. *)
Definition no_ampersand (ps : list piece) : Prop := starts_in (fun p => negb (first_char p =? ch "&")%Z) ps.

Definition expr_spelled (e : Expr) : Prop :=
  forall lt n, core_expr lt e = true ->
    framed (expr_pieces n e) /\ (11 <=? expr_precedence e = true -> is_borrow e = false -> no_ampersand (expr_pieces n e)).
Definition block_spelled (b : Block) : Prop :=
  forall lt n, core_block lt b = true ->
    neat (block_pieces n b) /\ starts_in (fun p => first_char p =? ch "{")%Z (block_pieces n b).

Lemma wrapped_no_ampersand x k n :
  11 <=? k = true -> (k =? 11 = true -> is_borrow x = false) -> framed (expr_pieces n x) ->
  (11 <=? expr_precedence x = true -> is_borrow x = false -> no_ampersand (expr_pieces n x)) ->
  no_ampersand (wrapped x k (expr_pieces n x)).
Proof.
  intros Hk Hb Hf Hx. unfold wrapped. destruct (_ <? _) eqn:E; [by intros ? [= <-]|].
  apply Nat.ltb_ge in E. apply Nat.leb_le in Hk. apply Hx; [by apply Nat.leb_le; lia|].
  destruct (Nat.eq_dec k 11) as [->|]; [auto|]. destruct x; try done. simpl in E. lia.
Qed.

Lemma block_starts_weaken (P : piece -> bool) ps :
  (forall p, (first_char p =? ch "{")%Z = true -> P p = true) -> starts_in (fun p => first_char p =? ch "{")%Z ps -> starts_in P ps.
Proof. intros H S p Hp. by apply H, S. Qed.

Lemma brace_opens p : (first_char p =? ch "{")%Z = true ->
  opener p = true /\ negb (first_char p =? ch "&")%Z = true /\ separator p = true.
Proof. intros H%Z.eqb_eq. unfold opener, separator. by rewrite H. Qed.

Lemma block_framed n b : neat (block_pieces n b) -> starts_in (fun p => first_char p =? ch "{")%Z (block_pieces n b) ->
  framed (block_pieces n b).
Proof.
  intros H S. apply framed_end; [done| |].
  - destruct b as [stmts tail sp]. rewrite block_pieces_eq. by destruct (_ && _).
  - eapply block_starts_weaken; [|exact S]. apply brace_opens.
Qed.

Lemma no_ampersand_app a b : a <> [] -> no_ampersand a -> no_ampersand (a ++ b).
Proof. apply starts_app. Qed.

Lemma word_no_ampersand name ps : is_word (chars name) = true -> no_ampersand (word name :: ps).
Proof.
  intros H p [= <-]. destruct (word_first name H) as (c & w & E & Hc). unfold first_char; simpl. rewrite E. simpl.
  by destruct (start_opener c (start_continue c Hc)) as (_ & _ & ->).
Qed.

Lemma operands_framed lt n xs :
  Forall expr_spelled xs -> forallb (fun x => negb (is_return x) && core_expr lt x) xs = true ->
  Forall framed (map (expr_pieces n) xs).
Proof.
  intros HF H. induction HF as [|x xs Hx HF IH]; simpl in *; [constructor|].
  apply andb_true_iff in H as [[_ H]%andb_true_iff Hs]. constructor; [by eapply Hx|by apply IH].
Qed.

(** A prefix operator and its operand. *)
Lemma prefix_framed p a :
  spelled p = true -> opener p = true -> framed a -> (forall q, head a = Some q -> adjacent p q = true) -> framed ([p] ++ a).
Proof.
  intros Hp Ho [Na Sa La Fa Ea] Hadj. split; [done|by constructor| | |by apply ends_app].
  - apply linked_app; [done|done|]. intros p' q [= <-]. apply Hadj.
  - by intros q [= <-].
Qed.

Lemma unary_adjacent op a :
  framed a -> forall q, head a = Some q -> adjacent (sym (unary_op_str op)) q = true.
Proof.
  intros [Na Sa _ Fa _] q Hq. assert (Hs : spelled q = true) by (destruct a; [done|]; injection Hq as ->; by inversion Sa).
  pose proof (Fa q Hq) as Ho. unfold opener in Ho. apply andb_true_iff in Ho as [?%negb_true_iff ?%negb_true_iff].
  destruct op; [| |by apply loose_adjacent|by apply loose_adjacent];
    rewrite adjacent_first by done; apply negb_true_iff; simpl; by rewrite orb_false_r.
Qed.

Lemma amp_adjacent a :
  framed a -> no_ampersand a -> forall q, head a = Some q -> adjacent (sym "&") q = true.
Proof.
  intros [Na Sa _ Fa _] Hn q Hq. assert (Hs : spelled q = true) by (destruct a; [done|]; injection Hq as ->; by inversion Sa).
  pose proof (Hn q Hq) as Ho. apply negb_true_iff in Ho.
  rewrite adjacent_first by done. apply negb_true_iff. simpl. by rewrite orb_false_r.
Qed.

Lemma stmts_neat lt n none_tail stmts :
  Forall (on_stmt expr_spelled) stmts -> forallb (core_stmt lt) stmts = true -> neat (stmts_pieces n none_tail stmts).
Proof.
  intros HF H. induction HF as [|st stmts Hst HF IH]; [apply neat_nil|].
  cbn [forallb] in H. apply andb_true_iff in H as [Hc H]. cbn [stmts_pieces]. apply neat_app; [|by apply IH].
  destruct st as [[m p t v sp]|e|i]; [| |done].
  - destruct p; try done. cbn [core_stmt] in Hc. apply andb_true_iff in Hc as [[Hn Ht]%andb_true_iff Hv].
    cbn [stmt_pieces]. apply neat_app; [apply margin_neat|]. apply neat_app; [known|].
    apply neat_app; [by destruct m; [known|apply neat_nil]|].
    assert (Hend : forall ps, framed ps -> neat (ps ++ match v with Some v => [blank; sym "="; blank] ++ expr_pieces n v | None => [] end ++ [sym ";"; line])).
    { intros ps Hps. destruct v as [v|]; [|by apply framed_before; known].
      apply andb_true_iff in Hv as [_ Hv]. destruct (Hst lt n Hv) as [Hf _].
      rewrite <- app_assoc, app_assoc. apply neat_app; [by apply framed_before; known|by apply framed_before; known]. }
    pose proof (framed_name name Hn) as Hname.
    destruct t as [t|]; [|by apply Hend]. rewrite app_assoc. apply Hend. rewrite app_assoc.
    apply framed_after; [by apply framed_before; known|done| |by apply ty_framed].
    intros q [= <-]. by apply Hname.
  - cbn [core_stmt] in Hc. apply andb_true_iff in Hc as [_ Hc]. destruct (Hst lt n Hc) as [Hf _].
    cbn [stmt_pieces]. apply neat_app; [apply margin_neat|]. destruct (_ || _); by apply framed_before; known.
Qed.

(** Splits the conditions of the core and uses the induction hypotheses. *)
Ltac spelled_ih n :=
  repeat match goal with
  | H : (_ && _) = true |- _ => apply andb_true_iff in H as [? ?]
  | IH : expr_spelled ?e, H : core_expr ?lt ?e = true |- _ => destruct (IH lt n H) as [? ?]; clear IH
  | IH : block_spelled ?b, H : core_block ?lt ?b = true |- _ => destruct (IH lt n H) as [? ?]; clear IH
  | IH : Forall expr_spelled ?xs, H : forallb _ ?xs = true |- _ => pose proof (operands_framed _ n _ IH H); clear IH
  | H : neat (block_pieces ?n ?b), S : starts_in _ (block_pieces ?n ?b) |- _ =>
      lazymatch goal with F : framed (block_pieces n b) |- _ => fail | _ => pose proof (block_framed n b H S) end
  end.

(** The part of a postfix expression before its operator. *)
Ltac postfix_start :=
  intros _ _; apply no_ampersand_app;
  [by apply framed_wrapped|by apply wrapped_no_ampersand].

Lemma expr_block_spelled : (forall e, expr_spelled e) /\ (forall b, block_spelled b).
Proof.
  apply core_ind; intros; intros lt n Hc; cbn [core_expr core_block] in Hc; spelled_ih n.
  - by rewrite H in Hc.
  - destruct l; try done; cbn [expr_pieces].
    + apply andb_true_iff in Hc as [Hz%Z.leb_le _]. pose proof (framed_number value Hz) as Hf. split; [done|].
      intros _ _ p [= <-]. apply negb_true_iff. destruct Hf as [_ _ _ Ho _].
      destruct (show_Z_read value Hz) as (_ & F & Hn). unfold first_char, number_piece; simpl.
      destruct F as [|c w Hd F]; [done|]. simpl. apply Z.eqb_neq. by intros ->.
    + split; [by destruct value; apply framed_word|]. intros _ _. destruct value; by apply word_no_ampersand.
  - split; [by apply framed_name|]. intros _ _. apply word_no_ampersand. by apply core_name_word.
  - cbn [expr_pieces]. split; [done|]. intros _ _. eapply block_starts_weaken; [|done]. intros p Hp. by apply brace_opens.
  - cbn [expr_pieces]. split; [|intros _ _; by apply word_no_ampersand].
    assert (Hn : neat ([word "if"; blank] ++ expr_pieces n c ++ [blank] ++ block_pieces n t)).
    { apply neat_app; [known|]. rewrite app_assoc. apply neat_app; [by apply framed_before; known|done]. }
    destruct f as [x|]; [|rewrite app_nil_r; by apply framed_end; known]. simpl in H1. spelled_ih n.
    replace (_ ++ _) with
      ((([word "if"; blank] ++ expr_pieces n c ++ [blank] ++ block_pieces n t) ++ [blank; word "else"; blank]) ++ expr_pieces n x)
      by (by rewrite <- !app_assoc).
    apply framed_after; [apply neat_app; known|done|known|done].
  - cbn [expr_pieces]. split; [by apply framed_after; known|]. intros _ _; by apply word_no_ampersand.
  - cbn [expr_pieces]. split; [|intros _ _; by apply word_no_ampersand].
    rewrite app_assoc, app_assoc. apply framed_after; [|done|known|done].
    rewrite <- app_assoc. apply neat_app; [known|by apply framed_before; known].
  - cbn [expr_pieces]. split; [|postfix_start]. apply framed_arguments; first [done|by apply framed_wrapped|known].
  - cbn [expr_pieces]. split; [|postfix_start].
    change ([sym "."; word m; sym "("]) with ([sym "."; word m] ++ [sym "("]). rewrite <- app_assoc, app_assoc.
    pose proof (framed_dot m ltac:(done)) as Hd.
    apply framed_arguments; first [done|apply framed_app; [by apply framed_wrapped|done|known]|known].
  - cbn [expr_pieces]. set (k := expr_precedence _). split.
    + rewrite app_assoc. apply framed_after.
      * apply framed_before; [by apply framed_wrapped|by destruct op; known|done|known].
      * intros E. apply app_eq_nil in E as [_ E]. done.
      * by apply framed_starts, framed_wrapped.
      * by apply framed_wrapped.
    + intros Hk _. unfold k in Hk. by destruct op.
  - cbn [expr_pieces]. split; [|intros _ _; by destruct op; intros ? [= <-]].
    apply prefix_framed; [by destruct op|by destruct op|by apply framed_wrapped|].
    apply unary_adjacent. by apply framed_wrapped.
  - cbn [expr_pieces]. split; [|done]. destruct m.
    + apply (prefix_framed (sym "&")); [done|done| |by intros q [= <-]].
      apply framed_after; [known|done|known|by apply framed_wrapped].
    + apply (prefix_framed (sym "&")); [done|done|by apply framed_wrapped|].
      apply amp_adjacent; [by apply framed_wrapped|]. apply wrapped_no_ampersand; try done. intros _.
      by apply negb_true_iff.
  - cbn [expr_pieces]. split; [|done]. rewrite app_assoc. apply framed_after.
    + apply framed_before; [by apply framed_wrapped|known|known|known].
    + intros E. apply app_eq_nil in E as [_ E]. done.
    + by apply framed_starts, framed_wrapped.
    + by apply framed_wrapped.
  - cbn [expr_pieces]. split; [|postfix_start]. apply framed_app; [by apply framed_wrapped|by apply framed_dot|known].
  - cbn [expr_pieces]. split; [|postfix_start]. apply framed_arguments; first [done|by apply framed_wrapped|known].
  - cbn [expr_pieces]. split; [|postfix_start]. apply framed_app; [by apply framed_wrapped|known|known].
  - cbn [expr_pieces]. split; [|by intros _ _ ? [= <-]].
    apply framed_end; [apply neat_app; [known|by apply commas_neat; known]|done|known].
  - cbn [expr_pieces]. split; [|intros _ _; by apply word_no_ampersand].
    destruct v as [v|]; [|known]. simpl in H. spelled_ih n.
    apply (framed_after [word "return"; blank]); [known|done|known|done].
  - cbn [expr_pieces]. split; [by known|]. intros _ _; by apply word_no_ampersand.
  - cbn [expr_pieces]. split; [by known|]. intros _ _; by apply word_no_ampersand.
  - rewrite block_pieces_eq. destruct (is_nil stmts && is_none tail); [split; known|]. split; [|known].
    apply neat_app; [known|]. apply neat_app; [by eapply stmts_neat|].
    destruct tail as [e|]; [|apply neat_app; [apply neat_nil|apply neat_app; [apply margin_neat|known]]].
    simpl in H0. spelled_ih (S n).
    apply neat_app; [|apply neat_app; [apply margin_neat|known]].
    apply neat_app; [apply margin_neat|]. by apply framed_before; known.
Qed.

(** ** Items and modules *)

Lemma param_framed p : core_param p = true -> framed (param_pieces p).
Proof.
  destruct p as [[] t sp]; try done. simpl. intros [[Hn _]%andb_true_iff Ht]%andb_true_iff.
  pose proof (framed_name name Hn) as Hf.
  apply (framed_after ([word name] ++ [sym ":"; blank])); [by apply framed_before; known|done| |by apply ty_framed].
  intros q [= <-]. by apply Hf.
Qed.

Lemma item_neat lt i : core_item lt i = true -> neat (item_pieces i) /\ item_pieces i <> [].
Proof.
  destruct i as [d| | | | | |d|]; try done; destruct d; cbn [core_item item_pieces]; intros H.
  - repeat match type of H with match ?x with _ => _ end = true => destruct x; try done end.
    apply andb_true_iff in H as [[[Hn Hps]%andb_true_iff Ht]%andb_true_iff Hb]. split; [|done].
    destruct (proj2 expr_block_spelled body lt 0 Hb) as [Hbody _].
    assert (Hp : Forall framed (map param_pieces params)).
    { apply forallb_true in Hps. apply Forall_map. eapply Forall_impl; [exact Hps|]. apply param_framed. }
    change ([word "fn"; blank; word name; sym "("]) with ([word "fn"; blank] ++ [word name] ++ [sym "("]).
    rewrite <- !app_assoc. apply neat_app; [known|]. rewrite app_assoc.
    apply neat_app; [apply framed_before; [by apply framed_name|known|known|known]|]. rewrite app_assoc.
    apply neat_app; [apply commas_neat; [done|known|known|known]|].
    destruct return_ty as [t|]; [|apply neat_app; [apply neat_nil|apply neat_app; [known|done]]].
    rewrite <- app_assoc. apply neat_app; [known|]. rewrite app_assoc.
    apply neat_app; [apply framed_before; [by apply ty_framed|known|known|known]|done].
  - destruct is_pub; [done|]. apply andb_true_iff in H as [[[Hn Ht]%andb_true_iff _]%andb_true_iff Hv]. split; [|done].
    destruct (proj1 expr_block_spelled value lt 0 Hv) as [Hf _].
    change ([word "const"; blank; word name; sym ":"; blank]) with ([word "const"; blank] ++ [word name] ++ [sym ":"; blank]).
    rewrite <- !app_assoc. apply neat_app; [known|]. rewrite app_assoc.
    apply neat_app; [apply framed_before; [by apply framed_name|known|known|known]|]. rewrite app_assoc.
    apply neat_app; [apply framed_before; [by apply ty_framed|known|known|known]|].
    by apply framed_before; known.
Qed.

Lemma items_neat lt l : forallb (core_item lt) l = true -> neat (items_pieces l).
Proof.
  induction l as [|i l IH]; [intros; apply neat_nil|]. simpl. intros [Hi Hl]%andb_true_iff.
  destruct (item_neat lt i Hi) as [Hn _]. destruct l as [|j l]; [done|].
  apply neat_app; [done|]. apply (neat_app [line; line]); [known|by apply IH].
Qed.

(** The text of a core module is read as its tokens. *)
Lemma module_spelled lt m : core_module lt m = true -> well_spelled (module_pieces m).
Proof.
  unfold core_module. intros [Hn Hi]%andb_true_iff.
  assert (H : neat (module_pieces m)); [|split; apply H].
  unfold module_pieces. destruct (is_nil _); [apply neat_nil|].
  apply neat_app; [|known]. apply neat_app; [|by eapply items_neat].
  destruct (module_name m) as [d|]; [|apply neat_nil].
  apply neat_app; [|destruct (is_nil (items m)); [apply neat_nil|known]].
  change [word "module"; blank; word (md_name d); sym ";"] with ([word "module"; blank] ++ [word (md_name d)] ++ [sym ";"]).
  apply neat_app; [known|]. apply framed_before; [by apply framed_name|known|known|known].
Qed.
