(* ===== verification/Reread.v ===== *)
(** Exact runs of the parser on known tokens.

    [reads m toks after Q]: where the tokens ahead start with [toks] and what
    follows them satisfies [after], the method [m] returns, consumes exactly
    [toks], reports nothing and leaves the flags as they were, with a result in
    [Q].  The rules below compose such runs, loops included. *)
From S2P Require Import Prelude Floats Span Diag Lex Ast ParseBase Parse ParseLogic.
Open Scope nat_scope.

Definition view (t : Token) : TokenKind * str := (kind t, lexeme t).
Notation tk := (TokenKind * str)%type.

(** The tokens ahead. *)
Definition input (p : Parser) : list tk := map view (drop (current p) (tokens p)).

Definition step (p : Parser) (n : nat) : Parser := at_position p (current p + n).

(** No [<] of the file starts generic arguments. *)
Definition plain_less (ts : list Token) : Prop :=
  forall i t, ts !! i = Some t -> kind t = Less -> generic_scan 0 (drop i ts) = false.

Lemma step_0 p : step p 0 = p.
Proof. destruct p. unfold step, at_position; simpl. by rewrite Nat.add_0_r. Qed.

Lemma step_step p a b : step (step p a) b = step p (a + b).
Proof. unfold step, at_position; simpl. by rewrite Nat.add_assoc. Qed.

Lemma input_step p a b n : input p = a ++ b -> length a = n -> input (step p n) = b.
Proof.
  intros H <-. unfold input in *. simpl. rewrite <- drop_drop. revert H.
  generalize (drop (current p) (tokens p)). intros l H. rewrite <- skipn_map, H. apply drop_app_length.
Qed.

Definition runs {A} (m : M A) (p : Parser) (n : nat) (Q : A -> Prop) : Prop :=
  exists a, m p = Done a (step p n) /\ Q a.

Definition reads {A} (m : M A) (toks : list tk) (after : bool -> list tk -> bool) (Q : A -> Prop) : Prop :=
  forall p rest, plain_less (tokens p) -> input p = toks ++ rest -> after (allow_struct_literals p) rest = true ->
    runs m p (length toks) Q.

(** ** Tokens *)

Lemma input_head p k w rest :
  input p = (k, w) :: rest ->
  exists t, tokens p !! current p = Some t /\ view t = (k, w) /\ map view (drop (current p + 1) (tokens p)) = rest.
Proof.
  unfold input. intros H. destruct (drop (current p) (tokens p)) as [|t l] eqn:E; [done|]. injection H as H1 H2.
  exists t. split; [|split].
  - pose proof (lookup_drop (tokens p) (current p) 0) as E'. rewrite E, Nat.add_0_r in E'. by rewrite <- E'.
  - unfold view. congruence.
  - rewrite <- drop_drop, E. by destruct l.
Qed.

Lemma input_next p k w rest :
  input p = (k, w) :: rest -> exists o, peek_next p = Done o p /\ forall k', next_is o k' = bool_decide (fst <$> head rest = Some k').
Proof.
  intros (t & _ & _ & H)%input_head. unfold peek_next. exists (tokens p !! (current p + 1)). split; [done|]. intros k'.
  rewrite <- (Nat.add_0_r (current p + 1)), <- lookup_drop. destruct (drop (current p + 1) (tokens p)) as [|t' l]; simpl in *; subst; simpl.
  - done.
  - unfold is_kind. apply bool_decide_ext. split; congruence.
Qed.

Lemma input_second p a b rest :
  input p = a :: b :: rest -> exists o, peek_second p = Done o p /\ forall k', next_is o k' = bool_decide (fst <$> head rest = Some k').
Proof.
  unfold input. intros H. unfold peek_second. exists (tokens p !! (current p + 2)). split; [done|]. intros k'.
  rewrite <- (lookup_drop _ (current p) 2). destruct (drop (current p) (tokens p)) as [|t0 [|t1 l]]; try done.
  simpl in *. injection H as _ _ H. destruct l as [|t' l]; simpl in *; subst; simpl.
  - done.
  - unfold is_kind. apply bool_decide_ext. split; congruence.
Qed.

Section Rules.
Context {A : Type}.

Lemma runs_ret (a : A) p (Q : A -> Prop) : Q a -> runs (ret a) p 0 Q.
Proof. exists a. by rewrite step_0. Qed.

Lemma runs_bind {B} (m : M B) (f : B -> M A) p n n' (R : B -> Prop) (Q : A -> Prop) :
  runs m p n R -> (forall b, R b -> runs (f b) (step p n) n' Q) -> runs (bind m f) p (n + n') Q.
Proof.
  intros (b & E & Hb) H. destruct (H b Hb) as (a & Ea & Ha). exists a. unfold bind. by rewrite E, Ea, step_step.
Qed.

Lemma runs_weaken (m : M A) p n (Q Q' : A -> Prop) : runs m p n Q -> (forall a, Q a -> Q' a) -> runs m p n Q'.
Proof. intros (a & E & H) W. exists a. auto. Qed.

Lemma runs_len (m : M A) p n n' Q : runs m p n Q -> n = n' -> runs m p n' Q.
Proof. by intros ? <-. Qed.

Lemma runs_peek p k w rest (f : Token -> M A) n Q :
  input p = (k, w) :: rest -> (forall t, view t = (k, w) -> runs (f t) p n Q) -> runs (bind peek f) p n Q.
Proof.
  intros (t & Et & Hv & _)%input_head H. destruct (H t Hv) as (a & E & Ha). exists a. split; [|done].
  unfold bind, peek, at_index. by rewrite Et.
Qed.

Lemma runs_check p k w rest k' (f : bool -> M A) n Q :
  input p = (k, w) :: rest -> runs (f (bool_decide (k = k'))) p n Q -> runs (bind (check k') f) p n Q.
Proof.
  intros (t & Et & Hv & _)%input_head (a & E & Ha). exists a. split; [|done].
  unfold bind at 1, check, bind, peek, at_index. rewrite Et. unfold ret, is_kind. injection Hv as -> _. done.
Qed.

Lemma runs_check_any p k w rest ks (f : bool -> M A) n Q :
  input p = (k, w) :: rest -> runs (f (bool_decide (k ∈ ks))) p n Q -> runs (bind (check_any ks) f) p n Q.
Proof.
  intros Hi (a & E & Ha). exists a. split; [|done].
  assert (Hc : check_any ks p = Done (bool_decide (k ∈ ks)) p).
  { apply input_head in Hi as (t & Et & Hv & _). injection Hv as Hk _. clear - Et Hk. induction ks as [|k' ks IH].
    - by rewrite bool_decide_false by apply not_elem_of_nil.
    - cbn [check_any]. unfold bind, check, bind at 1, peek, at_index. rewrite Et. unfold ret at 1, is_kind. rewrite Hk.
      destruct (decide (k = k')) as [<-|Hne].
      + rewrite bool_decide_true by done. unfold ret. rewrite bool_decide_true; [done|]. by left.
      + rewrite bool_decide_false by done. rewrite IH. f_equal. apply bool_decide_ext. rewrite elem_of_cons. tauto. }
  unfold bind. by rewrite Hc.
Qed.

Lemma previous_of p (t : Token) : tokens p !! (current p - 1) = Some t -> previous p = Done t p.
Proof. intros E. unfold previous, at_index. by rewrite E. Qed.

Lemma advance_at p k w rest :
  input p = (k, w) :: rest -> k <> Eof -> exists t, view t = (k, w) /\ advance p = Done t (step p 1) /\ previous (step p 1) = Done t (step p 1).
Proof.
  intros Hi Hk. apply input_head in Hi as (t & Et & Hv & _). exists t. split; [done|].
  assert (Hp : previous (step p 1) = Done t (step p 1)).
  { apply previous_of. simpl. by replace (current p + 1 - 1) with (current p) by lia. }
  split; [|done]. unfold advance, check, bind at 1, peek, bind at 1, at_index. rewrite Et. unfold ret at 1, is_kind.
  injection Hv as Hv _. rewrite bool_decide_false by congruence. exact Hp.
Qed.

Lemma runs_matches_no p k w rest k' (f : bool -> M A) n Q :
  input p = (k, w) :: rest -> bool_decide (k = k') = false -> runs (f false) p n Q -> runs (bind (matches k') f) p n Q.
Proof.
  intros Hi Hk (a & E & Ha). exists a. split; [|done]. apply input_head in Hi as (t & Et & Hv & _).
  unfold bind at 1, matches, bind at 1, check, bind, peek, at_index. rewrite Et. unfold ret at 1, is_kind.
  injection Hv as -> _. rewrite Hk. done.
Qed.

Lemma runs_matches_yes p k w rest (f : bool -> M A) n Q :
  input p = (k, w) :: rest -> k <> Eof -> runs (f true) (step p 1) n Q -> runs (bind (matches k) f) p (S n) Q.
Proof.
  intros Hi Hk (a & E & Ha). exists a. rewrite step_step in E. split; [|done].
  destruct (advance_at p k w rest Hi Hk) as (t' & _ & Ead & _). apply input_head in Hi as (t & Et & Hv & _).
  unfold bind at 1, matches, bind at 1, check, bind at 1, peek, at_index. rewrite Et. unfold ret at 1, is_kind.
  injection Hv as -> _. rewrite bool_decide_true by done. unfold bind. by rewrite Ead.
Qed.

Lemma runs_advance p k w rest (f : Token -> M A) n Q :
  input p = (k, w) :: rest -> k <> Eof -> (forall t, view t = (k, w) -> runs (f t) (step p 1) n Q) ->
  runs (bind advance f) p (S n) Q.
Proof.
  intros Hi Hk H. destruct (advance_at p k w rest Hi Hk) as (t & Hv & E & _). destruct (H t Hv) as (a & Ea & Ha).
  exists a. rewrite step_step in Ea. split; [|done]. unfold bind. by rewrite E.
Qed.

Lemma runs_consume p k w rest message (f : Token -> M A) n Q :
  input p = (k, w) :: rest -> k <> Eof -> (forall t, view t = (k, w) -> runs (f t) (step p 1) n Q) ->
  runs (bind (consume k message) f) p (S n) Q.
Proof.
  intros Hi Hk H. destruct (advance_at p k w rest Hi Hk) as (t & Hv & E & _). destruct (H t Hv) as (a & Ea & Ha).
  exists a. rewrite step_step in Ea. split; [|done]. apply input_head in Hi as (t' & Et & Hv' & _).
  unfold bind at 1, consume, bind at 1, check, bind, peek, at_index. rewrite Et. unfold ret at 1, is_kind.
  injection Hv' as -> _. rewrite bool_decide_true by done. by rewrite E.
Qed.

Lemma runs_consume_identifier p w rest message (f : string -> M A) n Q :
  input p = (Identifier, w) :: rest -> runs (f (to_string w)) (step p 1) n Q ->
  runs (bind (consume_identifier message) f) p (S n) Q.
Proof.
  intros Hi (a & E & Ha). exists a. rewrite step_step in E. split; [|done].
  destruct (advance_at p _ w rest Hi) as (t & Hv & Ead & _); [done|]. apply input_head in Hi as (t' & Et & Hv' & _).
  unfold bind at 1, consume_identifier, bind at 1, consume, bind at 1, check, bind, peek, at_index. rewrite Et. unfold ret at 1, is_kind.
  injection Hv' as -> _. rewrite bool_decide_true by done. rewrite Ead. unfold ret. injection Hv as _ ->. done.
Qed.

(** The token before, whatever it is. *)
Lemma runs_previous p k w rest (f : Token -> M A) n Q :
  input p = (k, w) :: rest -> (forall t, runs (f t) p n Q) -> runs (bind previous f) p n Q.
Proof.
  intros (t & Et & _ & _)%input_head H. apply lookup_lt_Some in Et.
  destruct (lookup_lt_is_Some_2 (tokens p) (current p - 1)) as [t' Et']; [lia|].
  destruct (H t') as (a & E & Ha). exists a. split; [|done]. unfold bind. by rewrite (previous_of _ _ Et').
Qed.

(** The token before, after one was taken. *)
Lemma runs_previous_step p k w rest (f : Token -> M A) n Q :
  input p = (k, w) :: rest -> k <> Eof -> (forall t, view t = (k, w) -> runs (f t) (step p 1) n Q) ->
  runs (bind previous f) (step p 1) n Q.
Proof.
  intros Hi Hk H. destruct (advance_at p k w rest Hi Hk) as (t & Hv & _ & E). destruct (H t Hv) as (a & Ea & Ha).
  exists a. split; [|done]. unfold bind. by rewrite E.
Qed.

Lemma runs_peek_next p k w rest (f : option Token -> M A) n Q :
  input p = (k, w) :: rest ->
  (forall o, (forall k', next_is o k' = bool_decide (fst <$> head rest = Some k')) -> runs (f o) p n Q) ->
  runs (bind peek_next f) p n Q.
Proof.
  intros Hi H. destruct (input_next p k w rest Hi) as (o & E & Ho). destruct (H o Ho) as (a & Ea & Ha).
  exists a. split; [|done]. unfold bind. by rewrite E.
Qed.
End Rules.

Lemma input_length p toks rest : input p = toks ++ rest -> length toks <= length (tokens p).
Proof.
  unfold input. intros H. apply (f_equal length) in H. rewrite length_map, length_drop, length_app in H. lia.
Qed.

(** ** Loops that extend an expression

    [leads toks Q]: [first] and some rounds of the loop consume [toks]; the
    loop stands at an expression in [Q], with at least one round to spare. *)
Section Extend.
Context (first : M Expr) (round : Expr -> M (Expr + Expr)).

Definition leads (inner : bool -> list tk -> bool) (toks : list tk) (Q : Expr -> Prop) : Prop :=
  forall p rest n, plain_less (tokens p) -> input p = toks ++ rest -> inner (allow_struct_literals p) rest = true ->
    length toks <= n ->
    exists e0 n0 e n', first p = Done e0 (step p n0) /\
      rounds n round e0 (step p n0) = rounds n' round e (step p (length toks)) /\ n < n' + length toks /\ Q e.

Lemma leads_first inner toks Q : toks <> [] -> reads first toks inner Q -> leads inner toks Q.
Proof.
  intros Hne H p rest n Hp Hi Ha Hn. destruct (H p rest Hp Hi Ha) as (e & E & He).
  exists e, (length toks), e, n. do 2 (split; [done|]). split; [|done]. destruct toks; [done|]. simpl. lia.
Qed.

Lemma leads_round (inner inner' : bool -> list tk -> bool) toks toks' (Q Q' : Expr -> Prop) :
  leads inner toks Q -> toks' <> [] ->
  (forall flag rest, inner' flag rest = true -> inner flag (toks' ++ rest) = true) ->
  (forall e, Q e -> reads (round e) toks' inner' (fun x => exists e', x = inl e' /\ Q' e')) ->
  leads inner' (toks ++ toks') Q'.
Proof.
  intros H Hne Hin Hr p rest n Hp Hi Ha Hn. rewrite length_app in *. rewrite <- app_assoc in Hi.
  destruct (H p (toks' ++ rest) n Hp Hi (Hin _ _ Ha)) as (e0 & n0 & e & n' & E0 & E & Hn' & He); [lia|].
  destruct n' as [|n']; [lia|].
  destruct (Hr e He (step p (length toks)) rest) as (x & Ex & e' & -> & He'); [done| |done|].
  { by eapply input_step. }
  exists e0, n0, e', n'. split; [done|]. rewrite E. cbn [rounds]. unfold bind at 1. rewrite Ex, step_step. split; [done|].
  split; [|done]. destruct toks'; [done|]. simpl in *. lia.
Qed.

Lemma leads_done (inner outer : bool -> list tk -> bool) toks (Q : Expr -> Prop) :
  leads inner toks Q -> (forall flag rest, outer flag rest = true -> inner flag rest = true) ->
  (forall e p, Q e -> outer (allow_struct_literals p) (input p) = true -> round e p = Done (inr e) p) ->
  reads (let! e := first in loop round e) toks outer Q.
Proof.
  intros H Hin Hstop p rest Hp Hi Ha. pose proof (input_length _ _ _ Hi) as Hlen.
  destruct (H p rest (S (length (tokens p))) Hp Hi (Hin _ _ Ha)) as (e0 & n0 & e & n' & E0 & E & Hn' & He); [lia|].
  exists e. split; [|done]. destruct n' as [|n']; [lia|]. unfold bind at 1. rewrite E0. unfold loop.
  change (tokens (step p n0)) with (tokens p). rewrite E. cbn [rounds]. unfold bind. rewrite Hstop; [done|done|].
  by rewrite (input_step _ _ _ _ Hi eq_refl).
Qed.
End Extend.

(** ** Comma-separated lists

    The elements [xs] of a list are printed as [toks x]; two results are the
    same when [norm] takes them to the same value. *)
Definition comma : tk := (Comma, chars ",").

Fixpoint comma_tokens (l : list (list tk)) : list tk :=
  match l with
  | [] => []
  | [ts] => ts
  | ts :: l => ts ++ comma :: comma_tokens l
  end.

Definition next_kind (rest : list tk) : option TokenKind := fst <$> head rest.

Section Commas.
Context {A : Type} (norm : A -> A) (item : M A) (toks : A -> list tk) (after : bool -> list tk -> bool) (close : TokenKind).
Context (after_comma : forall flag rest, after flag (comma :: rest) = true).
Context (after_close : forall flag rest, next_kind rest = Some close -> after flag rest = true).
Context (close_comma : close <> Comma).

Definition same_as (x : A) (a : A) : Prop := norm a = norm x.
Definition same_list (xs v : list A) : Prop := map norm v = map norm xs.

Definition element (x : A) : Prop :=
  reads item (toks x) after (same_as x) /\ exists k w ts, toks x = (k, w) :: ts /\ k <> close /\ k <> Eof.

Definition separated_round (v : list A) : M (list A + list A) :=
  let! a := item in
  let! more := matches Comma in
  ret (if more then inl (v ++ [a]) else inr (v ++ [a])).

Lemma comma_tokens_cons x y xs :
  comma_tokens (map toks (x :: y :: xs)) = toks x ++ comma :: comma_tokens (map toks (y :: xs)).
Proof. done. Qed.

Lemma rounds_separated (round : list A -> M (list A + list A)) xs :
  (forall x v p rest, element x -> input p = toks x ++ rest -> round v p = separated_round v p) ->
  xs <> [] -> Forall element xs -> forall n v p rest,
  length xs <= n -> plain_less (tokens p) -> input p = comma_tokens (map toks xs) ++ rest -> next_kind rest = Some close ->
  runs (rounds n round v) p (length (comma_tokens (map toks xs))) (fun v' => exists v2, v' = v ++ v2 /\ same_list xs v2).
Proof.
  intros Hround Hne HF. induction HF as [|x xs Hel HF IH]; [done|]. pose proof Hel as [Hx _].
  intros [|n] v p rest Hn Hp Hi Hr; [simpl in Hn; lia|].
  cbn [rounds]. destruct rest as [|[k w] rest]; [done|]. injection Hr as ->.
  assert (Hb : exists rest', input p = toks x ++ rest').
  { rewrite Hi. destruct xs; [by eexists|]. rewrite comma_tokens_cons, <- app_assoc. by eexists. }
  destruct Hb as [rest' Hb]. unfold runs, bind at 1. rewrite (Hround x v p rest' Hel Hb). clear rest' Hb.
  match goal with |- exists a, ?e = _ /\ _ => change e with (bind (separated_round v) (fun r => match r with inl s => rounds n round s | inr a => ret a end) p) end.
  match goal with |- exists a, ?m p = Done a (step p ?len) /\ @?Q a => change (runs m p len Q) end.
  destruct xs as [|y xs].
  - simpl in Hi. eapply runs_len; [eapply runs_bind with (R := fun r => exists a, r = inr (v ++ [a]) /\ same_as x a)|].
    + unfold separated_round. eapply runs_bind; [eapply Hx; [done|exact Hi|by apply after_close]|].
      intros a Ha. eapply runs_matches_no; [by eapply input_step|by apply bool_decide_eq_false|]. apply runs_ret. eauto.
    + intros r (a & -> & Ha). apply runs_ret. exists [a]. split; [done|]. unfold same_list. simpl. by rewrite Ha.
    + simpl. lia.
  - rewrite comma_tokens_cons, length_app in *. rewrite <- app_assoc in Hi. simpl in Hi.
    eapply runs_len; [eapply runs_bind with (R := fun r => exists a, r = inl (v ++ [a]) /\ same_as x a)|].
    + unfold separated_round. eapply runs_bind; [eapply Hx; [done|exact Hi|apply after_comma]|].
      intros a Ha. eapply runs_matches_yes; [by eapply input_step|done|]. apply runs_ret. eauto.
    + intros r (a & -> & Ha). eapply runs_weaken; [eapply (IH ltac:(done) n (v ++ [a]))|].
      * simpl in *. lia.
      * done.
      * eapply (input_step _ (toks x ++ [comma])); [rewrite Hi, <- app_assoc; reflexivity|rewrite length_app; simpl; lia].
      * done.
      * intros v' (v2 & -> & Hv). exists (a :: v2). rewrite <- app_assoc. split; [done|].
        unfold same_list in *. cbn [map] in *. by rewrite Ha, Hv.
    + simpl. lia.
Qed.

Lemma comma_tokens_length xs : Forall element xs -> length xs <= length (comma_tokens (map toks xs)).
Proof.
  intros HF. induction HF as [|x xs (_ & k & w & ts & E & _) HF IH]; [done|]. destruct xs as [|y xs].
  - simpl. rewrite E. simpl. lia.
  - rewrite comma_tokens_cons, length_app, E. simpl in *. lia.
Qed.

Lemma separated_reads xs :
  xs <> [] -> Forall element xs ->
  reads (separated Comma item) (comma_tokens (map toks xs)) (fun _ rest => bool_decide (next_kind rest = Some close)) (same_list xs).
Proof.
  intros Hne HF p rest Hp Hi Hr%bool_decide_eq_true. pose proof (input_length _ _ _ Hi). pose proof (comma_tokens_length xs HF).
  destruct (rounds_separated separated_round xs ltac:(done) Hne HF (S (length (tokens p))) [] p rest) as (v & E & v2 & -> & Hv); try done; [lia|].
  by exists v2.
Qed.

Lemma comma_tokens_head xs : xs <> [] -> Forall element xs ->
  exists k w ts, comma_tokens (map toks xs) = (k, w) :: ts /\ k <> close /\ k <> Eof.
Proof.
  intros Hne HF. destruct HF as [|x xs (_ & k & w & ts & E & Hk) HF]; [done|]. exists k, w.
  destruct xs as [|y xs]; [exists ts; simpl; by rewrite E|]. rewrite comma_tokens_cons, E. eexists. by split.
Qed.

Lemma separated_unless_reads xs :
  Forall element xs ->
  reads (separated_unless close Comma item) (comma_tokens (map toks xs)) (fun _ rest => bool_decide (next_kind rest = Some close))
    (same_list xs).
Proof.
  intros HF p rest Hp Hi Hr. unfold separated_unless. destruct (decide (xs = [])) as [->|Hne].
  - apply bool_decide_eq_true in Hr. destruct rest as [|[k w] rest]; [done|]. injection Hr as ->.
    eapply runs_check; [exact Hi|]. rewrite bool_decide_true by done. by apply runs_ret.
  - destruct (comma_tokens_head xs Hne HF) as (k & w & ts & E & Hk & _). pose proof Hi as Hi'. rewrite E in Hi'.
    eapply runs_check; [exact Hi'|]. rewrite bool_decide_false by done. by eapply separated_reads.
Qed.

Definition until_round (v : list A) : M (list A + list A) :=
  let! stop := check close in
  if stop then ret (inr v)
  else
    let! a := item in
    let! more := matches Comma in
    ret (if more then inl (v ++ [a]) else inr (v ++ [a])).

(** The same rounds, with a test for the end that never holds before an element. *)
Lemma until_round_reads x v p rest :
  element x -> input p = toks x ++ rest -> until_round v p = separated_round v p.
Proof.
  intros (_ & k & w & ts' & E & Hk & _) Hi. rewrite E in Hi. apply input_head in Hi as (t & Et & Hv & _).
  unfold until_round, bind at 1, check, bind at 1, peek, at_index. rewrite Et. unfold ret at 1, is_kind.
  injection Hv as -> _. by rewrite bool_decide_false.
Qed.

Lemma comma_until_reads xs :
  Forall element xs ->
  reads (comma_until close item) (comma_tokens (map toks xs)) (fun _ rest => bool_decide (next_kind rest = Some close)) (same_list xs).
Proof.
  intros HF p rest Hp Hi Hr%bool_decide_eq_true. destruct (decide (xs = [])) as [->|Hne].
  - destruct rest as [|[k w] rest]; [done|]. injection Hr as ->. change (runs (rounds (S (length (tokens p))) until_round []) p 0 (same_list [])).
    cbn [rounds]. apply (runs_bind (until_round []) _ p 0 0 (fun r => r = inr [])).
    + eapply runs_check; [exact Hi|]. rewrite bool_decide_true by done. by apply runs_ret.
    + intros r ->. by apply runs_ret.
  - pose proof (input_length _ _ _ Hi). pose proof (comma_tokens_length xs HF).
    destruct (rounds_separated until_round xs until_round_reads Hne HF (S (length (tokens p))) [] p rest) as (v & E & v2 & -> & Hv);
      try done; [lia|]. by exists v2.
Qed.
End Commas.

(** ** A first element and more after a separator *)
Section More.
Context {A : Type} (norm : A -> A) (item : M A) (toks : A -> list tk) (after : bool -> list tk -> bool) (sep : tk).
Context (sep_token : fst sep <> Eof).
Context (after_sep : forall flag rest, after flag (sep :: rest) = true).

Fixpoint more_tokens (xs : list A) : list tk :=
  match xs with [] => [] | x :: xs => sep :: toks x ++ more_tokens xs end.

Lemma rounds_more xs n v p rest :
  Forall (fun x => reads item (toks x) after (same_as norm x)) xs -> length xs < n ->
  plain_less (tokens p) -> input p = more_tokens xs ++ rest -> rest <> [] -> next_kind rest <> Some (fst sep) ->
  (forall flag, after flag rest = true) ->
  runs (rounds n (fun v => let! more := matches (fst sep) in
                           if more then let! a := item in ret (inl (v ++ [a])) else ret (inr v)) v) p (length (more_tokens xs))
    (fun v' => exists v2, v' = v ++ v2 /\ same_list norm xs v2).
Proof.
  intros HF. revert n v p. induction HF as [|x xs Hx HF IH]; intros [|n] v p Hn Hp Hi Hne Hk Ha; simpl in Hn; try lia; cbn [rounds more_tokens] in *.
  - destruct rest as [|[k w] rest]; [done|]. simpl in Hi.
    apply (runs_bind _ _ p 0 0 (fun r => r = inr v)).
    + eapply runs_matches_no; [exact Hi|apply bool_decide_eq_false; unfold next_kind in Hk; simpl in Hk; congruence|]. by apply runs_ret.
    + intros r ->. apply runs_ret. exists []. by rewrite app_nil_r.
  - assert (Es : sep = (fst sep, snd sep)) by apply surjective_pairing. simpl in Hi. rewrite <- app_assoc, Es in Hi.
    assert (Hafter : forall flag, after flag (more_tokens xs ++ rest) = true).
    { intros flag. destruct xs as [|y xs]; [apply Ha|]. apply after_sep. }
    eapply runs_len; [eapply runs_bind with (R := fun r => exists a, r = inl (v ++ [a]) /\ same_as norm x a)|].
    + eapply runs_matches_yes; [exact Hi|done|]. eapply runs_bind.
      * eapply Hx; [done|exact (input_step p [_] _ 1 Hi eq_refl)|apply Hafter].
      * intros a Hsame. apply runs_ret. eauto.
    + intros r (a & -> & Hsame). eapply runs_weaken; [eapply (IH n (v ++ [a])); try done; [lia|]|].
      * eapply (input_step _ ((fst sep, snd sep) :: toks x)); [exact Hi|]. simpl. lia.
      * intros v' (v2 & -> & Hv). exists (a :: v2). rewrite <- app_assoc. split; [done|].
        unfold same_list, same_as in *. cbn [map]. by rewrite Hsame, Hv.
    + simpl. rewrite length_app. lia.
Qed.

Lemma more_tokens_length xs : length xs <= length (more_tokens xs).
Proof. induction xs as [|x xs IH]; simpl; [lia|]. rewrite length_app. lia. Qed.

Lemma first_and_more_reads x xs :
  Forall (fun x => reads item (toks x) after (same_as norm x)) (x :: xs) ->
  reads (let! first := item in while_matches (fst sep) item [first]) (toks x ++ more_tokens xs)
    (fun flag rest => after flag rest && after (negb flag) rest && negb (bool_decide (next_kind rest = Some (fst sep))) && negb (bool_decide (rest = [])))
    (same_list norm (x :: xs)).
Proof.
  intros HF p rest Hp Hi Hr. inversion HF as [|? ? Hx HF']; subst.
  apply andb_true_iff in Hr as [[[Ha1 Ha2]%andb_true_iff Hk]%andb_true_iff Hne].
  apply negb_true_iff, bool_decide_eq_false in Hk, Hne.
  assert (Ha : forall flag, after flag rest = true).
  { intros flag. by destruct (allow_struct_literals p), flag. }
  rewrite <- app_assoc in Hi. pose proof (input_step _ _ _ _ Hi eq_refl) as Hi2.
  rewrite length_app. eapply runs_bind.
  - eapply Hx; [done|exact Hi|]. destruct xs; [apply Ha|]. apply after_sep.
  - intros a Hs. pose proof (input_length _ _ _ Hi2). pose proof (more_tokens_length xs).
    eapply runs_weaken; [apply (rounds_more xs (S (length (tokens p))) [a]) with (rest := rest); [done|simpl in *; lia|done|exact Hi2|done|done|done]|].
    intros v' (v2 & -> & Hv). unfold same_list, same_as in *. cbn [map app]. by rewrite Hs, Hv.
Qed.
End More.
