(* ===== verification/RereadExpr.v ===== *)
(** The levels of the expression parser, on the tokens of core expressions.

    The levels are numbered by the precedences of the formatter: 1 is
    assignment, 12 the postfix operators, 13 the atoms.  [follow l rest] says
    that no token after an expression continues it at level [l] or tighter. *)
From S2P Require Import Prelude Floats Span Diag Lex Ast ParseBase Parse ParseLogic Fmt Pieces Core Printed Reread.
Open Scope nat_scope.

(** The tightest level at which a token continues an expression. *)
Definition power (flag : bool) (k : TokenKind) : nat :=
  match k with
  | Equal => 1 | OrOr => 2 | AndAnd => 3
  | EqualEqual | BangEqual | Less | LessEqual | Greater | GreaterEqual => 4
  | Pipe => 5 | Caret => 6 | Ampersand => 7
  | Plus | Minus => 9
  | Star | Slash | Percent => 10
  | LeftParen | Dot | Question | LeftBracket => 12
  | As | Colon | ColonColon | Else_ => 13
  | LeftBrace => if flag then 13 else 0
  | _ => 0
  end.

(** An angle bracket is not doubled, as a shift would be. *)
Definition lone (rest : list tk) : bool :=
  match rest with
  | (Less, _) :: rest => negb (bool_decide (next_kind rest = Some Less))
  | (Greater, _) :: rest => negb (bool_decide (next_kind rest = Some Greater))
  | _ => true
  end.

Definition follow (l : nat) (flag : bool) (rest : list tk) : bool :=
  match rest with (k, _) :: _ => (power flag k <? l) && lone rest | [] => false end.

Lemma follow_weaken l l' flag rest : l <= l' -> follow l flag rest = true -> follow l' flag rest = true.
Proof.
  intros Hl. destruct rest as [|[k w] rest]; [done|]. simpl. intros [H%Nat.ltb_lt Ho]%andb_true_iff.
  apply andb_true_iff. split; [apply Nat.ltb_lt; lia|done].
Qed.

Lemma reads_after {A} (m : M A) toks (after after' : bool -> list tk -> bool) Q :
  reads m toks after Q -> (forall flag rest, after' flag rest = true -> after flag rest = true) -> reads m toks after' Q.
Proof. intros H W p rest Hp Hi Ha. by apply (H p rest); auto. Qed.

Lemma reads_weaken {A} (m : M A) toks after (Q Q' : A -> Prop) :
  reads m toks after Q -> (forall a, Q a -> Q' a) -> reads m toks after Q'.
Proof. intros H W p rest Hp Hi Ha. by eapply runs_weaken; [apply (H p rest)|]. Qed.

(** ** The levels *)

Definition level (r : Rec) (l : nat) : M Expr :=
  match l with
  | 1 => assignment r | 2 => logical_or r | 3 => logical_and r | 4 => comparison r | 5 => bit_or r | 6 => bit_xor r
  | 7 => bit_and r | 8 => shift r | 9 => additive r | 10 => multiplicative r | 11 => unary r | _ => call r
  end.

Definition operators_of (l : nat) : list (TokenKind * BinaryOp) :=
  match l with
  | 2 => [(OrOr, Or)] | 3 => [(AndAnd, And)] | 5 => [(Pipe, BitOr)] | 6 => [(Caret, BitXor)] | 7 => [(Ampersand, BitAnd)]
  | 9 => [(Plus, Add); (Minus, Sub)] | 10 => [(Star, Mul); (Slash, Div); (Percent, Rem)] | _ => []
  end.

Definition next_level (r : Rec) (l : nat) : M Expr := match l with 10 => cast r | _ => level r (S l) end.

Definition associative (l : nat) : bool := negb (is_nil (operators_of l)).

(** One round of [left_associative]. *)
Definition assoc_round (next : M Expr) (ops : list (TokenKind * BinaryOp)) (e : Expr) : M (Expr + Expr) :=
  let! found := find_operator ops in
  match found with
  | Some op =>
      do! advance in
      let! rhs := next in
      let! prev := previous in
      ret (inl (EBinary op e rhs (join_expr_span e rhs (tok_span prev))))
  | None => ret (inr e)
  end.

Lemma level_assoc r l :
  associative l = true ->
  level r l = (let! e := next_level r l in loop (assoc_round (next_level r l) (operators_of l)) e).
Proof. do 11 (destruct l as [|l]; [done|]). done. Qed.

Definition operator_of (ops : list (TokenKind * BinaryOp)) (k : TokenKind) : option BinaryOp :=
  snd <$> find (fun o => bool_decide (o.1 = k)) ops.

Lemma find_operator_at ops p k w rest :
  input p = (k, w) :: rest -> find_operator ops p = Done (operator_of ops k) p.
Proof.
  intros (t & Et & Hv & _)%input_head. injection Hv as Hk _. induction ops as [|[k' op] ops IH]; [done|].
  cbn [find_operator]. unfold bind, check, bind at 1, peek, at_index. rewrite Et. unfold ret at 1, is_kind. rewrite Hk.
  unfold operator_of. simpl. destruct (decide (k = k')) as [<-|Hne].
  - by rewrite !bool_decide_true by done.
  - rewrite !bool_decide_false by congruence. exact IH.
Qed.

(** The operators of a level, and the tokens that continue it, agree. *)
Lemma operator_power l flag k op :
  operator_of (operators_of l) k = Some op -> power flag k = l /\ (forall rest w, lone ((k, w) :: rest) = true) /\ k <> Eof.
Proof.
  destruct l as [|[|[|[|[|[|[|[|[|[|[|l]]]]]]]]]]];
    unfold operator_of; simpl; repeat case_bool_decide; subst; done.
Qed.

Lemma no_operator l flag k rest w :
  follow l flag ((k, w) :: rest) = true -> operator_of (operators_of l) k = None.
Proof.
  intros [H%Nat.ltb_lt _]%andb_true_iff. destruct (operator_of _ _) as [op|] eqn:E; [|done].
  destruct (operator_power l flag k op E) as [Hk _]. lia.
Qed.

(** ** Precedence climbing *)

(** What may follow the operand of a postfix operator; a field before [(]
    would be a method. *)
Definition follow_operand (field : bool) (flag : bool) (rest : list tk) : bool :=
  follow 13 flag rest && negb (field && bool_decide (next_kind rest = Some LeftParen)).

(** [toks] is an expression of level [l], up to the end of a loop of that level;
    [field] says that it ends in a field. *)
Definition lead (r : Rec) (field : bool) (l : nat) (toks : list tk) (Q : Expr -> Prop) : Prop :=
  if associative l then leads (next_level r l) (assoc_round (next_level r l) (operators_of l)) (follow (S l)) toks Q
  else if l =? 12 then leads (primary r) (postfix_step r) (follow_operand field) toks Q
  else reads (level r l) toks (follow l) Q.

(** The first token is not a prefix operator. *)
Definition prefix_kinds : list TokenKind := [Ampersand; Bang; Tilde; Minus; Star; Spawn].
Definition atom_first (toks : list tk) : Prop := exists k w ts, toks = (k, w) :: ts /\ k ∉ prefix_kinds.

Lemma postfix_stops r e p : follow 12 (allow_struct_literals p) (input p) = true -> postfix_step r e p = Done (inr e) p.
Proof.
  intros H. destruct (input p) as [|[k w] rest] eqn:Hi; [done|].
  apply andb_true_iff in H as [H%Nat.ltb_lt _].
  assert (Hr : runs (postfix_step r e) p 0 (fun x => x = inr e)).
  { unfold postfix_step. eapply runs_matches_no; [exact Hi|by apply bool_decide_eq_false; intros ->; simpl in H; lia|].
    eapply runs_check; [exact Hi|]. rewrite bool_decide_false by (intros ->; simpl in H; lia).
    eapply runs_peek_next; [exact Hi|]. intros o _. cbn [andb].
    do 3 (eapply runs_matches_no; [exact Hi|by apply bool_decide_eq_false; intros ->; simpl in H; lia|]).
    by apply runs_ret. }
  destruct Hr as (x & E & ->). by rewrite step_0 in E.
Qed.

Lemma assoc_stops next l e p :
  follow l (allow_struct_literals p) (input p) = true -> assoc_round next (operators_of l) e p = Done (inr e) p.
Proof.
  intros H. destruct (input p) as [|[k w] rest] eqn:Hi; [done|]. apply no_operator in H.
  unfold assoc_round, bind at 1. by rewrite (find_operator_at _ _ _ _ _ Hi), H.
Qed.

Lemma lead_reads r field l toks Q : 1 <= l <= 12 -> lead r field l toks Q -> reads (level r l) toks (follow l) Q.
Proof.
  intros Hl. unfold lead. destruct (associative l) eqn:Ha.
  - intros H. rewrite level_assoc by done. eapply leads_done; [exact H| |].
    + intros flag rest. apply follow_weaken. lia.
    + intros e p _. apply assoc_stops.
  - destruct (Nat.eqb_spec l 12) as [->|]; [|done]. intros H.
    change (level r 12) with (let! e := primary r in loop (postfix_step r) e). eapply leads_done; [exact H| |].
    + intros flag [|[k w] rest] Hf; [done|]. unfold follow_operand. rewrite (follow_weaken 12 13) by (done || lia).
      rewrite bool_decide_false; [by rewrite andb_false_r|]. intros [= ->]. done.
    + intros e p _. apply postfix_stops.
Qed.

(** Reads nothing more after [m] when nothing continues the level. *)
Lemma reads_then (m : M Expr) (f : Expr -> M Expr) toks after after' (Q : Expr -> Prop) :
  reads m toks after Q -> (forall flag rest, after' flag rest = true -> after flag rest = true) ->
  (forall e p, after' (allow_struct_literals p) (input p) = true -> f e p = Done e p) ->
  reads (bind m f) toks after' Q.
Proof.
  intros H W Hf p rest Hp Hi Ha. destruct (H p rest Hp Hi (W _ _ Ha)) as (e & E & He). exists e. split; [|done].
  unfold bind. rewrite E. apply Hf. by rewrite (input_step _ _ _ _ Hi eq_refl).
Qed.

Lemma loop_stops {A S} (round : S -> M (S + A)) s a p : round s p = Done (inr a) p -> loop round s p = Done a p.
Proof. intros E. unfold loop. cbn [rounds]. unfold bind. by rewrite E. Qed.

Lemma matches_stops {A} k' (f : bool -> M A) p k w rest :
  input p = (k, w) :: rest -> k <> k' -> bind (matches k') f p = f false p.
Proof.
  intros (t & Et & Hv & _)%input_head Hk. unfold bind at 1, matches, bind at 1, check, bind, peek, at_index. rewrite Et.
  unfold ret at 1, is_kind. injection Hv as -> _. by rewrite bool_decide_false.
Qed.

Section Climb.
Context (r : Rec) (toks : list tk) (after : bool -> list tk -> bool) (Q : Expr -> Prop).

Lemma cast_reads :
  (forall flag rest, after flag rest = true -> follow 13 flag rest = true) -> reads (unary r) toks after Q -> reads (cast r) toks after Q.
Proof.
  intros W H. unfold cast. eapply reads_then; [exact H|done|]. intros e p Ha%W. apply loop_stops.
  destruct (input p) as [|[k w] rest] eqn:Hi; [done|]. apply andb_true_iff in Ha as [Ha%Nat.ltb_lt _].
  rewrite (matches_stops As _ _ _ _ _ Hi); [done|]. intros ->. simpl in Ha. lia.
Qed.

Lemma shift_reads :
  (forall flag rest, after flag rest = true -> follow 13 flag rest = true) -> reads (additive r) toks after Q -> reads (shift r) toks after Q.
Proof.
  intros W H. unfold shift. eapply reads_then; [exact H|done|].
  intros e p Ha%W. apply loop_stops. destruct (input p) as [|[k w] rest] eqn:Hi; [done|].
  apply andb_true_iff in Ha as [_ Ha].
  match goal with |- ?m p = _ => assert (Hr : runs m p 0 (fun x => x = inr e)) end.
  { eapply runs_peek; [exact Hi|]. intros t Ht. injection Ht as Hk _.
    eapply runs_peek_next; [exact Hi|]. intros o Ho. rewrite Hk.
    assert (Hadj : k = Less \/ k = Greater ->
      match o with Some n => bool_decide (kind n = k) && (start (tok_span n) =? end_ (tok_span t)) | None => false end = false).
    { intros Hc. specialize (Ho k). destruct o as [n|]; [|done]. simpl in Ho. unfold is_kind in Ho. rewrite Ho. clear Ho.
      apply andb_false_iff. left. apply bool_decide_eq_false.
      destruct Hc as [-> | ->]; simpl in Ha; by apply negb_true_iff, bool_decide_eq_false in Ha. }
    destruct k; try by apply runs_ret.
    - rewrite Hadj by auto. by apply runs_ret.
    - rewrite Hadj by auto. by apply runs_ret. }
  destruct Hr as (x & E & ->). by rewrite step_0 in E.
Qed.

Lemma comparison_reads :
  (forall flag rest, after flag rest = true -> follow 4 flag rest = true) -> reads (bit_or r) toks after Q -> reads (comparison r) toks after Q.
Proof.
  intros W H. unfold comparison. eapply reads_then; [exact H|done|].
  intros e p Ha%W. destruct (input p) as [|[k w] rest] eqn:Hi; [done|]. apply andb_true_iff in Ha as [Ha%Nat.ltb_lt _].
  unfold bind at 1. rewrite (find_operator_at _ _ _ _ _ Hi).
  replace (operator_of comparison_operators k) with (@None BinaryOp); [done|].
  destruct k; try done; simpl in Ha; lia.
Qed.

Lemma assignment_reads :
  (forall flag rest, after flag rest = true -> follow 1 flag rest = true) ->
  reads (logical_or r) toks after Q -> reads (assignment r) toks after Q.
Proof.
  intros W H. unfold assignment. eapply reads_then; [exact H|done|].
  intros e p Ha%W. destruct (input p) as [|[k w] rest] eqn:Hi; [done|]. apply andb_true_iff in Ha as [Ha%Nat.ltb_lt _].
  rewrite (matches_stops Equal _ _ _ _ _ Hi); [done|]. intros ->. simpl in Ha. lia.
Qed.

Lemma unary_reads_call : atom_first toks -> reads (call r) toks after Q -> reads (unary r) toks after Q.
Proof.
  intros (k & w & ts & -> & Hk) H p rest Hp Hi Ha. simpl in Hi.
  destruct (H p rest Hp Hi Ha) as (e & E & He).
  exists e. split; [|done]. rewrite <- E. unfold unary.
  repeat (rewrite (matches_stops _ _ _ _ _ _ Hi); [|intros ->; apply Hk; unfold prefix_kinds; set_solver]). done.
Qed.

(** What is read at a level, and not continued at the next looser one, is read there. *)
Lemma level_up l :
  1 <= l < 12 -> toks <> [] -> (l = 11 -> atom_first toks) ->
  (forall flag rest, after flag rest = true -> follow l flag rest = true) ->
  reads (level r (S l)) toks after Q -> reads (level r l) toks after Q.
Proof.
  intros Hl Hne Hat W H.
  assert (W13 : forall flag rest, after flag rest = true -> follow 13 flag rest = true).
  { intros flag rest Ha. eapply follow_weaken; [|by apply W]. lia. }
  destruct (associative l) eqn:Ea.
  - rewrite level_assoc by done. apply (leads_done _ _ after); [|done|intros e p _ Ha; by apply assoc_stops, W].
    apply leads_first; [done|]. destruct l as [|[|[|[|[|[|[|[|[|[|[|l]]]]]]]]]]]; try exact H. by apply cast_reads.
  - destruct l as [|[|[|[|[|[|[|[|[|[|[|[|l]]]]]]]]]]]]; try lia; try done; simpl.
    + by apply assignment_reads.
    + by apply comparison_reads.
    + by apply shift_reads.
    + apply unary_reads_call; [by apply Hat|exact H].
Qed.
End Climb.

Lemma lead_down r field field' l toks Q :
  1 <= l < 12 -> toks <> [] -> (l = 11 -> atom_first toks) -> lead r field (S l) toks Q -> lead r field' l toks Q.
Proof.
  intros Hl Hne Hat H. apply lead_reads in H; [|lia]. unfold lead. destruct (associative l) eqn:Ea.
  - apply leads_first; [done|]. destruct l as [|[|[|[|[|[|[|[|[|[|[|l]]]]]]]]]]]; try exact H.
    apply cast_reads; [|exact H]. intros flag rest. apply follow_weaken. lia.
  - destruct (Nat.eqb_spec l 12) as [|_]; [lia|]. apply level_up; try done.
    eapply reads_after; [exact H|]. intros flag rest. apply follow_weaken. lia.
Qed.

(** An expression of level [l] is one of every looser level. *)
Lemma lead_climb r field l l' toks Q :
  1 <= l' <= l -> l <= 12 -> toks <> [] -> (l = 12 -> atom_first toks) -> lead r field l toks Q -> lead r field l' toks Q.
Proof.
  intros H1 H2 Hne Hat H. assert (Hd : l = l' + (l - l')) by lia. revert H2 Hat H. rewrite Hd. generalize (l - l'). clear Hd.
  intros d. induction d as [|d IH]; intros H2 Hat H; [by rewrite Nat.add_0_r in H|].
  apply IH; [lia|lia|]. apply (lead_down _ field); [lia|done|intros; apply Hat; lia|].
  by rewrite <- plus_n_Sm in H.
Qed.

(** ** Operators *)

Notation same := (same_as unspan).

Lemma next_reads r field l toks Q : 1 <= l < 12 -> lead r field (S l) toks Q -> reads (next_level r l) toks (follow (S l)) Q.
Proof.
  intros Hl H. apply lead_reads in H; [|lia]. destruct l as [|[|[|[|[|[|[|[|[|[|[|l]]]]]]]]]]]; try exact H.
  apply cast_reads; [|exact H]. intros flag rest. apply follow_weaken. lia.
Qed.

Lemma binary_leads r f1 f2 f3 l k w op tl el tr er sp :
  associative l = true -> operator_of (operators_of l) k = Some op ->
  lead r f1 l tl (same el) -> lead r f2 (S l) tr (same er) -> lead r f3 l (tl ++ (k, w) :: tr) (same (EBinary op el er sp)).
Proof.
  intros Ha Hop Hl Hr. assert (Hrange : 1 <= l < 12) by (destruct l as [|[|[|[|[|[|[|[|[|[|[|l]]]]]]]]]]]; simpl in Ha; done || lia).
  apply next_reads in Hr; [|done]. unfold lead in *. rewrite Ha in *.
  eapply leads_round; [exact Hl|done| |].
  - intros flag rest _. cbn [app follow]. destruct (operator_power l flag k op Hop) as (-> & -> & _).
    rewrite andb_true_r, Nat.ltb_lt. lia.
  - intros e He p rest Hp Hi Hf. simpl in Hi. destruct (operator_power l true k op Hop) as (_ & _ & Hk).
    destruct (Hr (step p 1) rest) as (e' & Ee & Hs); [done|by eapply (input_step p [_])|done|].
    assert (Hi2 : input (step p (S (length tr))) = rest) by (eapply (input_step p (_ :: tr)); [exact Hi|done]).
    destruct rest as [|[k2 w2] rest]; [done|].
    unfold assoc_round. unfold runs, bind at 1. rewrite (find_operator_at _ _ _ _ _ Hi), Hop.
    eapply runs_advance; [exact Hi|done|]. intros t _. eapply runs_len; [|apply Nat.add_0_r].
    eapply runs_bind; [by exists e'|]. intros e2 H2.
    eapply runs_previous; [rewrite step_step; exact Hi2|]. intros prev. apply runs_ret. eexists. split; [done|].
    unfold same_as in *. simpl. by rewrite He, H2.
Qed.

Lemma comparison_leads r f1 f2 f3 k w op tl el tr er sp :
  operator_of comparison_operators k = Some op -> next_kind tr <> Some Less -> next_kind tr <> Some Greater -> tr <> [] ->
  lead r f1 5 tl (same el) -> lead r f2 5 tr (same er) -> lead r f3 4 (tl ++ (k, w) :: tr) (same (EBinary op el er sp)).
Proof.
  intros Hop Hl Hg Hne H1 H2. apply lead_reads in H1, H2; [|lia|lia]. unfold lead; simpl.
  assert (Hk : k <> Eof /\ power true k = 4 /\ power false k = 4) by (by destruct k).
  assert (Hlone : forall rest, lone ((k, w) :: tr ++ rest) = true).
  { intros rest. destruct k; try done; simpl; apply negb_true_iff, bool_decide_eq_false; by destruct tr. }
  intros p rest Hp Hi Hf. rewrite <- app_assoc in Hi. simpl in Hi.
  assert (Hi1 : input (step p (length tl)) = (k, w) :: tr ++ rest) by (by eapply input_step).
  unfold comparison. rewrite length_app. eapply runs_bind; [apply (H1 p _ Hp Hi)|].
  { cbn [follow]. rewrite Hlone, andb_true_r, Nat.ltb_lt. destruct (allow_struct_literals p); lia. }
  intros e He. unfold runs, bind at 1. rewrite (find_operator_at _ _ _ _ _ Hi1), Hop.
  eapply runs_advance; [exact Hi1|apply Hk|]. intros t _. eapply runs_len; [|apply Nat.add_0_r].
  assert (Hi2 : input (step (step p (length tl)) 1) = tr ++ rest) by (by eapply (input_step _ [_])).
  eapply runs_bind; [apply (H2 _ rest); [done|exact Hi2|]|].
  { by eapply follow_weaken; [|exact Hf]; lia. }
  intros e2 He2. destruct rest as [|[k2 w2] rest]; [done|].
  eapply runs_previous; [by eapply input_step|]. intros prev. apply runs_ret.
  unfold same_as in *. simpl. by rewrite He, He2.
Qed.

(** Evaluates a test on known token kinds. *)
Ltac known_test :=
  match goal with |- context [bool_decide ?P] =>
    let b := eval vm_compute in (bool_decide P) in
    lazymatch b with true => idtac | false => idtac end; change (bool_decide P) with b end; cbn match.

(** Passes the tests that a known token fails, up to the one it passes. *)
Ltac skip_tests Hi :=
  repeat (eapply runs_matches_no; [exact Hi|reflexivity|]).

Ltac take Hi := eapply runs_matches_yes; [exact Hi|discriminate|].

(** At the atom that the next token starts. *)
Ltac atom Hi :=
  unfold primary; eapply runs_check_any; [exact Hi|]; known_test; skip_tests Hi.

(** The rest of the input after [n] tokens. *)
Ltac input_after Hi a H :=
  match type of Hi with input ?p = _ => pose proof (input_step p a _ (length a) Hi eq_refl) as H; simpl length in H end.

Lemma assign_leads r f1 f2 w tl el tr er sp :
  lead r f1 2 tl (same el) -> reads (r_expr r) tr (follow 1) (same er) -> lead r f2 1 (tl ++ (Equal, w) :: tr) (same (EAssign el er sp)).
Proof.
  intros Hl Hr. apply lead_reads in Hl; [|lia]. unfold lead; simpl. intros p rest Hp Hi Hf.
  rewrite <- app_assoc in Hi. simpl in Hi.
  assert (Hi1 : input (step p (length tl)) = (Equal, w) :: tr ++ rest) by (by eapply input_step).
  unfold assignment. rewrite length_app. eapply runs_bind; [by apply (Hl p _ Hp Hi)|]. intros e He.
  take Hi1. eapply runs_previous_step; [exact Hi1|done|]. intros t _. eapply runs_len; [|apply Nat.add_0_r].
  eapply runs_bind; [apply (Hr _ rest); [done|by eapply (input_step _ [_])|exact Hf]|].
  intros e2 He2. apply runs_ret. unfold same_as in *. simpl. by rewrite He, He2.
Qed.

Definition prefix_token (op : UnaryOp) : TokenKind :=
  match op with Not => Bang | Neg => Minus | Deref => Star | BitNot => Tilde end.

Lemma unary_leads r field op w tx x sp :
  reads (r_unary r) tx (follow 11) (same x) -> lead r field 11 ((prefix_token op, w) :: tx) (same (EUnary op x sp)).
Proof.
  intros Hx. unfold lead; simpl. intros p rest Hp Hi Hf. simpl in Hi.
  assert (Hi1 : input (step p 1) = tx ++ rest) by (by eapply (input_step _ [_])).
  assert (Hpre : runs (prefix (r_unary r) (EUnary op)) (step p 1) (length tx) (same (EUnary op x sp))).
  { unfold prefix. eapply runs_previous_step; [exact Hi|by destruct op|]. intros t _. eapply runs_len; [|apply Nat.add_0_r].
    eapply runs_bind; [by apply (Hx _ rest)|]. intros e He. apply runs_ret. unfold same_as in *. simpl. by rewrite He. }
  unfold unary. destruct op; simpl in Hi; skip_tests Hi; take Hi; exact Hpre.
Qed.

Lemma borrow_leads r field (m : bool) w w2 tx x sp :
  reads (r_unary r) tx (follow 11) (same x) -> tx <> [] -> (m = false -> next_kind tx <> Some Mut) ->
  lead r field 11 ((Ampersand, w) :: (if m then [(Mut, w2)] else []) ++ tx) (same (EBorrow m x sp)).
Proof.
  intros Hx Hne Hm. unfold lead; simpl. intros p rest Hp Hi Hf. simpl in Hi.
  unfold unary. take Hi. eapply runs_previous_step; [exact Hi|done|]. intros t _.
  assert (Hi1 : input (step p 1) = (if m then [(Mut, w2)] else []) ++ tx ++ rest) by (rewrite app_assoc; by eapply (input_step _ [_])).
  destruct m; simpl in Hi1.
  - take Hi1. eapply runs_len; [|apply Nat.add_0_r].
    eapply runs_bind; [apply (Hx _ rest); [done|by eapply (input_step _ [_])|exact Hf]|].
    intros e He. apply runs_ret. unfold same_as in *. simpl. by rewrite He.
  - destruct tx as [|[k wk] tx]; [done|]. simpl in Hi1. eapply runs_matches_no; [exact Hi1|apply bool_decide_eq_false; intros ->; by apply Hm|].
    eapply runs_len; [|apply Nat.add_0_r]. eapply runs_bind; [by apply (Hx _ rest)|].
    intros e He. apply runs_ret. unfold same_as in *. simpl. by rewrite He.
Qed.

(** ** Atoms *)

Lemma to_string_chars s : Forall (fun c => c <? 128 = true)%Z (chars s) -> to_string (chars s) = s.
Proof.
  unfold to_string. induction s as [|a s IH]; intros H; [done|]. inversion H as [|? ? Ha Hs]; subst.
  cbn [chars map concat]. unfold utf8_bytes at 1. rewrite Ha. cbn [app string_of_bytes]. rewrite IH by done. f_equal.
  unfold ascii_of_Z, cp. by rewrite N2Z.id, Ascii.ascii_N_embedding.
Qed.

Lemma continue_ascii c : is_identifier_continue c = true -> (c <? 128 = true)%Z.
Proof.
  unfold is_identifier_continue, is_ascii_alphanumeric, is_ascii_digit, is_ascii_alphabetic. change (ch "_") with 95%Z.
  rewrite !orb_true_iff, !andb_true_iff, !Z.leb_le, Z.eqb_eq, Z.ltb_lt. lia.
Qed.

Lemma core_name_text name : core_name name = true -> to_string (chars name) = name.
Proof.
  unfold core_name. intros [H _]%andb_true_iff. apply to_string_chars. destruct (chars name) as [|c w]; [done|].
  simpl in H. apply andb_true_iff in H as [Hc Hw]. apply forallb_true in Hw. constructor.
  - by apply continue_ascii, start_continue.
  - eapply Forall_impl; [exact Hw|]. apply continue_ascii.
Qed.

(** A [<] after a name does not start generic arguments. *)
Lemma not_generic p k w rest :
  plain_less (tokens p) -> input p = (k, w) :: rest -> starts_generic_type_application p = Done false p.
Proof.
  intros Hp Hi. apply input_head in Hi as (t & Et & Hv & _). injection Hv as Hk _.
  unfold starts_generic_type_application, bind, check, bind, peek, at_index. rewrite Et. unfold ret at 1, is_kind.
  destruct (decide (kind t = Less)) as [Hl|Hl].
  - rewrite bool_decide_true by done. cbn. by rewrite (Hp _ _ Et Hl).
  - by rewrite bool_decide_false by done.
Qed.

Lemma runs_exact {A B} (m : M B) (f : B -> M A) p b n Q : m p = Done b p -> runs (f b) p n Q -> runs (bind m f) p n Q.
Proof. intros E (a & Ea & Ha). exists a. split; [|done]. unfold bind. by rewrite E. Qed.

Lemma no_path_segments r p k w rest pth sp :
  input p = (k, w) :: rest -> k <> ColonColon -> path_segments r pth sp p = Done (TPath pth sp) p.
Proof.
  intros Hi Hk. apply loop_stops.
  match goal with |- ?m p = _ => assert (Hr : runs m p 0 (fun x => x = inr (TPath pth sp))) end.
  { eapply runs_check; [exact Hi|]. rewrite bool_decide_false by done.
    eapply runs_peek_next; [exact Hi|]. intros o _. eapply (runs_exact peek_second); [done|]. by apply runs_ret. }
  destruct Hr as (x & E & ->). by rewrite step_0 in E.
Qed.

Lemma ident_reads r name sp :
  core_name name = true -> reads (primary r) [(Identifier, chars name)] (follow 13) (same (EIdent name sp)).
Proof.
  intros Hn p rest Hp Hi Hf. simpl in Hi. destruct rest as [|[k w] rest]; [done|].
  apply andb_true_iff in Hf as [Hf%Nat.ltb_lt _].
  assert (Hi1 : input (step p 1) = (k, w) :: rest) by (by eapply (input_step _ [_])).
  assert (Hcc : k <> ColonColon) by (intros ->; simpl in Hf; lia).
  atom Hi. take Hi. unfold identifier_expr. eapply runs_previous_step; [exact Hi|done|]. intros t Ht. injection Ht as _ Ht.
  apply (runs_bind _ _ _ 0 0 (fun x => x = TPath [name] (tok_span t))).
  { unfold expr_type_path. eapply runs_exact; [by eapply not_generic|]. apply runs_ret.
    by rewrite Ht, core_name_text. }
  intros x ->. rewrite step_0. eapply runs_exact; [by eapply no_path_segments|].
  apply (runs_bind _ _ _ 0 0 (fun b => b = false)).
  { unfold matches_struct_brace. eapply (runs_exact get_allow_struct_literals); [done|].
    destruct (allow_struct_literals (step p 1)) eqn:Efl; [|by apply runs_ret].
    assert (Hm : runs (bind (matches LeftBrace) ret) (step p 1) 0 (fun b => b = false)).
    { eapply runs_matches_no; [exact Hi1|apply bool_decide_eq_false; intros ->|by apply runs_ret].
      change (allow_struct_literals p = true) in Efl. rewrite Efl in Hf. simpl in Hf. lia. }
    destruct Hm as (b & E & ->). exists false. split; [|done]. rewrite <- E. unfold bind. by destruct (matches _ _). }
  intros b ->. rewrite step_0. eapply runs_matches_no; [exact Hi1|by apply bool_decide_eq_false|]. by apply runs_ret.
Qed.

Lemma int_reads r n sp :
  parse_int_literal (chars (show_Z n)) = n ->
  reads (primary r) [(Integer, chars (show_Z n))] (follow 13) (same (ELiteral (LInt n) sp)).
Proof.
  intros Hn p rest Hp Hi Hf. simpl in Hi. atom Hi. take Hi. eapply runs_previous_step; [exact Hi|done|].
  intros t Ht. injection Ht as _ Ht. apply runs_ret. unfold same_as. simpl. by rewrite Ht, Hn.
Qed.

Lemma bool_reads r (b : bool) w sp :
  reads (primary r) [(if b then True_ else False_, w)] (follow 13) (same (ELiteral (LBool b) sp)).
Proof.
  intros p rest Hp Hi Hf. destruct b; simpl in Hi; atom Hi; take Hi; (eapply runs_previous_step; [exact Hi|done|]);
    intros t Ht; by apply runs_ret.
Qed.

Lemma break_reads r w sp : reads (primary r) [(Break, w)] (follow 13) (same (EBreak None sp)).
Proof.
  intros p rest Hp Hi Hf. simpl in Hi. atom Hi. take Hi. eapply runs_previous_step; [exact Hi|done|].
  intros t Ht. by apply runs_ret.
Qed.

Lemma continue_reads r w sp : reads (primary r) [(Continue, w)] (follow 13) (same (EContinue sp)).
Proof.
  intros p rest Hp Hi Hf. simpl in Hi. atom Hi. take Hi. eapply runs_previous_step; [exact Hi|done|].
  intros t Ht. by apply runs_ret.
Qed.

(** ** Lists of expressions *)

Lemma follow_comma flag rest : follow 1 flag (comma :: rest) = true.
Proof. done. Qed.

Lemma follow_close k flag rest :
  k ∈ [RightParen; RightBracket; Semicolon; RightBrace; Comma] -> next_kind rest = Some k -> follow 1 flag rest = true.
Proof.
  intros Hk Hn. destruct rest as [|[k' w] rest]; [done|]. injection Hn as ->.
  rewrite !elem_of_cons, elem_of_nil in Hk. by destruct Hk as [->|[->|[->|[->|[->|[]]]]]].
Qed.

(** The text does not read as a labelled argument. *)
Definition no_label (toks : list tk) : Prop :=
  match toks with (Identifier, _) :: (Colon, _) :: _ | [] => False | _ => True end.

Lemma argument_reads r toks Q :
  no_label toks -> reads (r_expr r) toks (follow 1) Q -> reads (argument r) toks (follow 1) Q.
Proof.
  intros Hl H p rest Hp Hi Hf. pose proof (H p rest Hp Hi Hf) as Hr.
  destruct toks as [|[k w] toks]; [done|]. simpl in Hi. unfold argument.
  eapply runs_check; [exact Hi|]. eapply runs_peek_next; [exact Hi|]. intros o Ho. rewrite (Ho Colon).
  replace (bool_decide (k = Identifier) && _) with false; [eapply (runs_exact (ret tt)); [done|exact Hr]|].
  symmetry. apply andb_false_iff. destruct (decide (k = Identifier)) as [->|]; [right|by left; apply bool_decide_eq_false].
  apply bool_decide_eq_false. intros E. destruct toks as [|[k2 w2] toks]; simpl in *.
  - destruct rest as [|[k2 w2] rest]; [done|]. injection E as ->. done.
  - injection E as ->. done.
Qed.

Section Lists.
Context (r : Rec) (toks : Expr -> list tk).

(** An expression of a list, as an argument and as an item. *)
Definition item_of (close : TokenKind) (x : Expr) : Prop :=
  reads (r_expr r) (toks x) (follow 1) (same x) /\ no_label (toks x) /\
  exists k w ts, toks x = (k, w) :: ts /\ k <> close /\ k <> Eof.

Lemma call_arguments_reads xs w :
  Forall (item_of RightParen) xs ->
  reads (call_arguments r) (comma_tokens (map toks xs) ++ [(RightParen, w)]) (fun _ _ => true) (fun a => same_list unspan xs a.1).
Proof.
  intros HF p rest Hp Hi _. rewrite <- app_assoc in Hi. simpl in Hi.
  assert (Hel : Forall (element unspan (argument r) toks (follow 1) RightParen) xs).
  { eapply Forall_impl; [exact HF|]. intros x (H1 & H2 & H3). split; [by apply argument_reads|done]. }
  unfold call_arguments. rewrite length_app. eapply runs_bind.
  - eapply (separated_unless_reads unspan (argument r) toks (follow 1) RightParen follow_comma); try done.
    intros flag rest'. apply follow_close. set_solver.
  - intros v Hv. eapply runs_consume; [by eapply input_step|done|]. intros t _. by apply runs_ret.
Qed.

Lemma paren_reads w w2 xs :
  Forall (item_of RightParen) xs ->
  reads (primary r) ((LeftParen, w) :: comma_tokens (map toks xs) ++ [(RightParen, w2)]) (fun _ _ => true)
    (fun e => exists items sp, same_list unspan xs items /\ e = match items with [e] => e | _ => ETuple items sp end).
Proof.
  intros HF p rest Hp Hi _. simpl in Hi. rewrite <- app_assoc in Hi. simpl in Hi.
  assert (Hi1 : input (step p 1) = comma_tokens (map toks xs) ++ (RightParen, w2) :: rest) by (by eapply (input_step _ [_])).
  assert (Hel : Forall (element unspan (r_expr r) toks (follow 1) RightParen) xs).
  { eapply Forall_impl; [exact HF|]. intros x (H1 & H2 & H3). by split. }
  cbn [length]. rewrite length_app.
  atom Hi. take Hi. unfold paren_expr. eapply runs_previous_step; [exact Hi|done|]. intros t _.
  eapply runs_bind.
  - eapply (comma_until_reads unspan (r_expr r) toks (follow 1) RightParen follow_comma); try done.
    intros flag rest'. apply follow_close. set_solver.
  - intros v Hv. eapply runs_consume; [by eapply input_step|done|]. intros t' _. apply runs_ret. eauto.
Qed.
End Lists.

Lemma tuple_reads r toks w w2 xs sp :
  Forall (item_of r toks RightParen) xs -> length xs <> 1 ->
  reads (primary r) ((LeftParen, w) :: comma_tokens (map toks xs) ++ [(RightParen, w2)]) (follow 13) (same (ETuple xs sp)).
Proof.
  intros HF Hlen. eapply reads_after; [eapply reads_weaken; [by apply paren_reads|]|done].
  intros e (items & sp' & Hs & ->). pose proof (f_equal length Hs) as Hl. rewrite !length_map in Hl.
  destruct items as [|a [|b items]]; [|done|]; unfold same_as, same_list in *; simpl in *; by rewrite <- Hs.
Qed.

Lemma parens_reads r toks w w2 x :
  item_of r (fun _ => toks) RightParen x -> reads (primary r) ((LeftParen, w) :: toks ++ [(RightParen, w2)]) (follow 13) (same x).
Proof.
  intros Hx. eapply reads_after; [eapply reads_weaken; [apply (paren_reads r (fun _ => toks) w w2 [x]); constructor; [exact Hx|constructor]|]|done].
  intros e (items & sp' & Hs & ->). unfold same_list in Hs. destruct items as [|a [|b items]]; try done. by injection Hs.
Qed.

(** ** Postfix operators *)

Lemma lead_12 r field toks Q : lead r field 12 toks Q = leads (primary r) (postfix_step r) (follow_operand field) toks Q.
Proof. done. Qed.

Lemma primary_leads r field toks Q : toks <> [] -> reads (primary r) toks (follow 13) Q -> lead r field 12 toks Q.
Proof.
  intros Hne H. rewrite lead_12. apply leads_first; [done|]. eapply reads_after; [exact H|].
  by intros flag rest [? _]%andb_true_iff.
Qed.

Section Postfix.
Context (r : Rec) (toks : Expr -> list tk) (x : Expr) (field : bool) (tx : list tk) (Hx : lead r field 12 tx (same x)).

(** One more postfix operator. *)
Lemma postfix_leads field' k w ts e :
  power true k = 12 -> power false k = 12 -> (forall rest, lone ((k, w) :: rest) = true) -> (k = LeftParen -> field = false) ->
  (forall x', same x x' -> reads (postfix_step r x') ((k, w) :: ts) (follow_operand field') (fun y => exists e', y = inl e' /\ same e e')) ->
  lead r field' 12 (tx ++ (k, w) :: ts) (same e).
Proof.
  intros H1 H2 Hl Hk H. rewrite lead_12 in *. eapply leads_round; [exact Hx|done| |exact H].
  intros flag rest _. unfold follow_operand. cbn [app follow]. rewrite Hl, andb_true_r.
  apply andb_true_iff. split; [apply Nat.ltb_lt; destruct flag; lia|]. apply negb_true_iff, andb_false_iff.
  destruct (decide (k = LeftParen)) as [->|Hne]; [left; by apply Hk|right; apply bool_decide_eq_false].
  intros [= E]. done.
Qed.

Lemma call_leads field' w w2 args sp :
  field = false -> Forall (item_of r toks RightParen) args ->
  lead r field' 12 (tx ++ (LeftParen, w) :: comma_tokens (map toks args) ++ [(RightParen, w2)]) (same (ECall x [] args sp)).
Proof.
  intros Hfl HF. apply postfix_leads; [done..|]. intros x' Hs p rest Hp Hi Hf. simpl in Hi. unfold postfix_step. take Hi.
  eapply runs_len; [|apply Nat.add_0_r]. eapply runs_bind.
  - apply (call_arguments_reads r toks args w2 HF (step p 1) rest); [done|by eapply (input_step _ [_])|done].
  - intros [v t] Hv. apply runs_ret. eexists. split; [done|]. unfold same_as, same_list in *. simpl in *. by rewrite Hs, Hv.
Qed.

Lemma method_leads field' w w2 w3 m args sp :
  core_name m = true -> Forall (item_of r toks RightParen) args ->
  lead r field' 12 (tx ++ (Dot, w) :: (Identifier, chars m) :: (LeftParen, w2) :: comma_tokens (map toks args) ++ [(RightParen, w3)])
    (same (EMethodCall x m args sp)).
Proof.
  intros Hm HF. apply postfix_leads; [done..|]. intros x' Hs p rest Hp Hi Hf. simpl in Hi. unfold postfix_step.
  input_after Hi [(Dot, w)] Hi1. input_after Hi1 [(Identifier, chars m)] Hi2. input_after Hi2 [(LeftParen, w2)] Hi3.
  skip_tests Hi. eapply runs_check; [exact Hi|]. known_test. eapply runs_peek_next; [exact Hi|]. intros o Ho.
  rewrite (Ho Hash). cbn [andb head fst fmap option_fmap option_map]. known_test.
  take Hi. eapply runs_consume_identifier; [exact Hi1|]. take Hi2.
  eapply runs_len; [|apply Nat.add_0_r]. eapply runs_bind.
  - by apply (call_arguments_reads r toks args w3 HF _ rest).
  - intros [v t] Hv. apply runs_ret. eexists. split; [done|]. unfold same_as, same_list in *. simpl in *.
    by rewrite Hs, Hv, core_name_text.
Qed.

Lemma field_leads w f sp :
  core_name f = true -> lead r true 12 (tx ++ [(Dot, w); (Identifier, chars f)]) (same (EField x f sp)).
Proof.
  intros Hm. apply postfix_leads; [done..|]. intros x' Hs p rest Hp Hi Hf. simpl in Hi. unfold postfix_step.
  input_after Hi [(Dot, w)] Hi1. input_after Hi1 [(Identifier, chars f)] Hi2.
  destruct rest as [|[k2 w2] rest]; [done|]. apply andb_true_iff in Hf as [_ Hf%negb_true_iff].
  skip_tests Hi. eapply runs_check; [exact Hi|]. known_test. eapply runs_peek_next; [exact Hi|]. intros o Ho.
  rewrite (Ho Hash). cbn [andb head fst fmap option_fmap option_map]. known_test.
  take Hi. eapply runs_consume_identifier; [exact Hi1|].
  eapply runs_matches_no; [exact Hi2|apply bool_decide_eq_false; intros ->; by rewrite bool_decide_true in Hf|].
  eapply runs_previous; [exact Hi2|]. intros prev. apply runs_ret. eexists. split; [done|].
  unfold same_as in *. simpl. by rewrite Hs, core_name_text.
Qed.

Lemma try_leads field' w sp : lead r field' 12 (tx ++ [(Question, w)]) (same (ETry x sp)).
Proof.
  apply postfix_leads; [done..|]. intros x' Hs p rest Hp Hi Hf. simpl in Hi. unfold postfix_step.
  skip_tests Hi. eapply runs_check; [exact Hi|]. known_test. eapply runs_peek_next; [exact Hi|]. intros o Ho. cbn [andb].
  skip_tests Hi. take Hi. eapply runs_previous_step; [exact Hi|done|]. intros t _. apply runs_ret. eexists. split; [done|].
  unfold same_as in *. simpl. by rewrite Hs.
Qed.

Lemma comma_more y ys : comma_tokens (map toks (y :: ys)) = toks y ++ more_tokens toks comma ys.
Proof.
  revert y. induction ys as [|z ys IH]; intros y; [simpl; by rewrite app_nil_r|]. rewrite comma_tokens_cons, IH. done.
Qed.

Lemma index_leads field' w w2 is_ sp :
  is_ <> [] -> Forall (item_of r toks RightBracket) is_ ->
  lead r field' 12 (tx ++ (LeftBracket, w) :: comma_tokens (map toks is_) ++ [(RightBracket, w2)]) (same (EIndex x is_ sp)).
Proof.
  intros Hne HF. destruct is_ as [|y ys]; [done|]. rewrite comma_more.
  apply postfix_leads; [done..|]. intros x' Hs p rest Hp Hi Hf. simpl in Hi. rewrite <- app_assoc in Hi. simpl in Hi.
  unfold postfix_step. input_after Hi [(LeftBracket, w)] Hi1.
  skip_tests Hi. eapply runs_check; [exact Hi|]. known_test. eapply runs_peek_next; [exact Hi|]. intros o Ho. cbn [andb].
  skip_tests Hi. take Hi.
  assert (Hl : runs (let! first := r_expr r in while_matches Comma (r_expr r) [first]) (step p 1)
                 (length (toks y ++ more_tokens toks comma ys)) (same_list unspan (y :: ys))).
  { apply (first_and_more_reads unspan (r_expr r) toks (follow 1) comma ltac:(done) follow_comma y ys)
      with (rest := (RightBracket, w2) :: rest); try done.
    eapply Forall_impl; [exact HF|]. by intros z [? _]. }
  destruct Hl as (v & Ev & Hv).
  assert (Hi2 : input (step (step p 1) (length (toks y ++ more_tokens toks comma ys))) = (RightBracket, w2) :: rest)
    by (by eapply input_step).
  eapply runs_len; [|symmetry; apply length_app].
  match goal with |- runs (bind (r_expr r) ?f) ?q _ _ =>
    assert (Hb : forall q', bind (r_expr r) f q' =
      bind (let! first := r_expr r in while_matches Comma (r_expr r) [first])
        (fun index => let! rtok := consume RightBracket "expected `]` after index expression" in
                      ret (inl (EIndex x' index (span_to x' rtok)))) q') end.
  { intros q'. unfold bind. destruct (r_expr r q'); done. }
  unfold runs. rewrite Hb. eapply runs_bind; [by exists v|].
  intros index Hidx. eapply runs_consume; [exact Hi2|done|]. intros t _. apply runs_ret. eexists. split; [done|].
  unfold same_as, same_list in *. simpl in *. by rewrite Hs, Hidx.
Qed.
End Postfix.

(** An atom that nothing continues is an expression. *)
Lemma expr_of_atom r toks after Q :
  atom_first toks -> (forall flag rest, after flag rest = true -> follow 1 flag rest = true) ->
  reads (primary r) toks after Q -> reads (level r 1) toks after Q.
Proof.
  intros Hat W H. assert (Hne : toks <> []) by (by destruct Hat as (k & w & ts & -> & _)).
  assert (Wl : forall l flag rest, 1 <= l -> after flag rest = true -> follow l flag rest = true).
  { intros l flag rest Hl Ha. eapply follow_weaken; [exact Hl|by apply W]. }
  assert (H12 : reads (level r 12) toks after Q).
  { change (level r 12) with (let! e := primary r in loop (postfix_step r) e).
    apply (leads_done _ _ after); [by apply leads_first|done|]. intros e p _ Ha. apply postfix_stops, Wl; [lia|done]. }
  assert (Hd : forall d, d <= 11 -> reads (level r (12 - d)) toks after Q); [|apply (Hd 11); lia].
  induction d as [|d IH]; intros Hd; [exact H12|]. apply level_up; [lia|done|done| |].
  - intros flag rest. apply Wl. lia.
  - replace (S (12 - S d)) with (12 - d) by lia. apply IH. lia.
Qed.
