(* ===== verification/RereadBlock.v ===== *)
(** Blocks, conditionals, loops and statements, on the tokens of the core. *)
From S2P Require Import Prelude Floats Span Diag Lex Ast ParseBase Parse ParseLogic Fmt Pieces Core Printed Reread RereadExpr.
Open Scope nat_scope.

(** ** First tokens *)

Definition toks (n : nat) (e : Expr) : list tk := token_kinds (expr_pieces n e).
Definition block_toks (n : nat) (b : Block) : list tk := token_kinds (block_pieces n b).

Lemma token_kinds_app a b : token_kinds (a ++ b) = token_kinds a ++ token_kinds b.
Proof. apply omap_app. Qed.

(** The tokens that start a core expression. *)
Definition starters : list TokenKind :=
  [Identifier; Integer; True_; False_; LeftParen; LeftBrace; If_; While; Loop; Break; Continue; Return; Bang; Minus; Star; Tilde; Ampersand].
Definition block_kinds : list TokenKind := [LeftBrace; If_; While; Loop].

(** [ts] starts with a token of kind [k], and not with a label. *)
Definition first (ts : list tk) (k : TokenKind) : Prop :=
  exists w ts', ts = (k, w) :: ts' /\ (k = Identifier -> next_kind ts' <> Some Colon).

Lemma first_app ts ts' k : first ts k -> next_kind ts' <> Some Colon -> first (ts ++ ts') k.
Proof.
  intros (w & ts1 & -> & H) Hn. exists w, (ts1 ++ ts'). split; [done|]. intros Hk. destruct ts1; [done|]. by apply H.
Qed.

Lemma first_nonempty ts k : first ts k -> ts <> [].
Proof. by intros (w & ts' & -> & _). Qed.

Lemma first_no_label ts k : first ts k -> no_label ts.
Proof.
  intros (w & ts' & -> & H). unfold no_label. destruct k; try done. destruct ts' as [|[k2 w2] ts']; [done|].
  destruct k2; try done. by apply H.
Qed.

Lemma first_kind ts k : first ts k -> next_kind ts = Some k.
Proof. by intros (w & ts' & -> & _). Qed.

(** The token that an expression starts with. *)
Record starts (e : Expr) (ts : list tk) (k : TokenKind) : Prop := {
  starts_first : first ts k;
  starts_starter : k ∈ starters;
  starts_atom : expr_precedence e = 12 -> k ∉ prefix_kinds;
  starts_plain : starts_block e = false -> k ∉ block_kinds;
  starts_like : is_block_like e = true -> k ∈ block_kinds }.

Definition expr_starts (e : Expr) : Prop := forall lt n, core_expr lt e = true -> exists k, starts e (toks n e) k.
Definition block_starts (b : Block) : Prop := forall n, exists w ts, block_toks n b = (LeftBrace, w) :: ts.

Lemma block_first b : block_starts b.
Proof. intros n. destruct b. unfold block_toks. rewrite block_pieces_eq. destruct (_ && _); by repeat eexists. Qed.

Ltac kind_in := unfold starters, block_kinds, prefix_kinds; rewrite ?elem_of_cons, ?elem_of_nil; intuition (discriminate || congruence).

(** The part of an expression before its operator. *)
Lemma wrapped_starts e x k0 l n ts' :
  starts x (toks n x) k0 -> next_kind ts' <> Some Colon -> l <= 12 ->
  (expr_precedence e = 12 -> l = 12) ->
  (starts_block e = false -> l <= expr_precedence x -> starts_block x = false) -> is_block_like e = false ->
  exists k, starts e (token_kinds (wrapped x l (expr_pieces n x)) ++ ts') k.
Proof.
  intros [F S A P L] Hn Hl H12 Hb Hlike. unfold wrapped. destruct (Nat.ltb_spec (expr_precedence x) l) as [Hlt|Hge].
  - exists LeftParen. split; [|kind_in|intros; kind_in|intros; kind_in|congruence].
    rewrite !token_kinds_app. simpl. eexists _, _. split; [done|]. done.
  - exists k0. split; [by apply first_app|done| | |congruence].
    + intros He. apply A. specialize (H12 He). assert (expr_precedence x <= 12) by (destruct x as [| | | | | | | | | | |[]| | | | | | | | | | | | | | | | | | |]; simpl; lia). lia.
    + intros Hs. by apply P, Hb.
Qed.

(** Splits the conditions of the core and takes the first tokens of the parts. *)
Ltac starts_ih n :=
  repeat match goal with
  | H : (_ && _) = true |- _ => apply andb_true_iff in H as [? ?]
  | IH : expr_starts ?e, H : core_expr ?lt ?e = true |- _ =>
      let k := fresh "k" in let S := fresh "S" in destruct (IH lt n H) as [k S]; clear IH
  end.

(** A first token that is known. *)
Ltac known_start k0 :=
  exists k0; split;
  [eexists _, _; split; [reflexivity|try discriminate; done]
  |kind_in|intros; kind_in|try discriminate; intros; kind_in|try discriminate; intros; kind_in].

Ltac postfix_first :=
  unfold toks; cbn [expr_pieces]; rewrite token_kinds_app;
  eapply wrapped_starts; [eassumption|done|lia|done| |done];
  cbn [starts_block]; intros Hs Hle; apply Nat.leb_le in Hle; rewrite Hle in Hs; exact Hs.

Lemma expr_block_first : (forall e, expr_starts e) /\ (forall b : Block, True).
Proof.
  apply (core_ind expr_starts (fun _ => True)); intros; try done; intros lt n Hc; cbn [core_expr] in Hc; starts_ih n.
  - by rewrite H in Hc.
  - destruct l as [z| |[]| |]; try done; [known_start Integer|known_start True_|known_start False_].
  - unfold toks. simpl. unfold core_name in Hc. apply andb_true_iff in Hc as [_ Hk%bool_decide_eq_true].
    unfold word. rewrite Hk. known_start Identifier.
  - destruct (block_first b n) as (w & ts & E). exists LeftBrace. unfold toks. cbn [expr_pieces]. fold (block_toks n b). rewrite E.
    split; [by repeat eexists|kind_in|intros; kind_in|done|intros; kind_in].
  - known_start If_.
  - known_start Loop.
  - known_start While.
  - postfix_first.
  - postfix_first.
  - unfold toks; cbn [expr_pieces]; rewrite token_kinds_app.
    eapply wrapped_starts; [eassumption| | | | |done].
    + destruct op; done.
    + destruct op; simpl; lia.
    + destruct op; done.
    + cbn [starts_block]. intros Hs Hle. apply Nat.leb_le in Hle. by rewrite Hle in Hs.
  - destruct op; [known_start Bang|known_start Minus|known_start Star|known_start Tilde].
  - known_start Ampersand.
  - unfold toks; cbn [expr_pieces]; rewrite token_kinds_app.
    eapply wrapped_starts; [eassumption|done|lia|done| |done].
    cbn [starts_block]. intros Hs Hle. apply Nat.leb_le in Hle. by rewrite Hle in Hs.
  - postfix_first.
  - postfix_first.
  - postfix_first.
  - known_start LeftParen.
  - known_start Return.
  - known_start Break.
  - known_start Continue.
Qed.

Lemma expr_first e : expr_starts e.
Proof. apply expr_block_first. Qed.

(** ** Expressions with blocks *)

Notation same_block := (same_as unspan_block).

(** What may follow a block-like expression. *)
Definition no_else (flag : bool) (rest : list tk) : bool :=
  negb (bool_decide (rest = [])) && negb (bool_decide (next_kind rest = Some Else_)).

Lemma no_else_head flag rest : no_else flag rest = true -> exists k w rest', rest = (k, w) :: rest' /\ k <> Else_.
Proof.
  unfold no_else. destruct rest as [|[k w] rest]; [done|]. intros [_ H%negb_true_iff%bool_decide_eq_false]%andb_true_iff.
  exists k, w, rest. split; [done|]. intros ->. by apply H.
Qed.

Lemma follow_no_else flag rest : follow 13 flag rest = true -> no_else flag rest = true.
Proof.
  destruct rest as [|[k w] rest]; [done|]. intros [H%Nat.ltb_lt _]%andb_true_iff. unfold no_else.
  rewrite !bool_decide_false; [done| |done]. intros [= ->]. simpl in H. lia.
Qed.

Section Blocks.
Context (r : Rec) (n : nat).

(** The blocks that [r_block] reads. *)
Definition block_read (b : Block) : Prop := reads (r_block r) (block_toks n b) (fun _ _ => true) (same_block b).

Lemma block_atom b : block_read b -> reads (primary r) (block_toks n b) (fun _ _ => true) (same (EBlock b)).
Proof.
  intros Hb p rest Hp Hi _. destruct (block_first b n) as (w & ts & E).
  assert (Hi' : input p = (LeftBrace, w) :: ts ++ rest) by (by rewrite Hi, E).
  atom Hi'. eapply runs_check; [exact Hi'|]. known_test. eapply runs_len; [|apply Nat.add_0_r].
  eapply runs_bind; [by apply (Hb p rest)|]. intros b' Hs. apply runs_ret. unfold same_as in *. simpl. by rewrite Hs.
Qed.

Lemma loop_atom w b sp : block_read b -> reads (primary r) ((Loop, w) :: block_toks n b) (fun _ _ => true) (same (ELoop b sp)).
Proof.
  intros Hb p rest Hp Hi _. simpl in Hi. atom Hi. take Hi. unfold keyword_block.
  eapply runs_previous_step; [exact Hi|done|]. intros t _. eapply runs_len; [|apply Nat.add_0_r].
  eapply runs_bind; [apply (Hb _ rest); [done|by eapply (input_step _ [_])|done]|].
  intros b' Hs. apply runs_ret. unfold same_as in *. simpl. by rewrite Hs.
Qed.

(** A condition, before a block. *)
Lemma condition_reads tc c :
  reads (r_expr r) tc (follow 1) (same c) ->
  reads (expr_without_struct_literals r) tc (fun _ rest => bool_decide (next_kind rest = Some LeftBrace)) (same c).
Proof.
  intros Hc p rest Hp Hi Hf%bool_decide_eq_true. unfold expr_without_struct_literals.
  destruct rest as [|[k w] rest]; [done|]. injection Hf as ->.
  destruct (Hc (set_allow_struct_literals false p) ((LeftBrace, w) :: rest)) as (e & E & He); [done|exact Hi|done|].
  exists e. split; [|done]. unfold bind, get_allow_struct_literals, with_flag. rewrite E. done.
Qed.

(** The condition and the block of [if] and [while], after the keyword. *)
Lemma while_atom w tc c b sp :
  reads (r_expr r) tc (follow 1) (same c) -> (exists k, first tc k /\ k ∈ starters) -> block_read b ->
  reads (primary r) ((While, w) :: tc ++ block_toks n b) (fun _ _ => true) (same (EWhile c b sp)).
Proof.
  intros Hc (k & Hk & Hst) Hb p rest Hp Hi _. simpl in Hi. rewrite <- app_assoc in Hi.
  assert (Hi1 : input (step p 1) = tc ++ block_toks n b ++ rest) by (by eapply (input_step _ [_])).
  cbn [length]. rewrite length_app. atom Hi. take Hi. unfold while_expr. eapply runs_previous_step; [exact Hi|done|]. intros t _.
  destruct Hk as (wk & tc' & Etc & _). pose proof Hi1 as Hi1'. rewrite Etc in Hi1'.
  eapply runs_matches_no; [exact Hi1'|apply bool_decide_eq_false; intros ->; revert Hst; kind_in|].
  eapply runs_bind; [apply (condition_reads tc c Hc (step p 1) _ Hp Hi1)|].
  { destruct (block_first b n) as (w2 & ts & ->). done. }
  intros c' Hc'. eapply runs_len; [|apply Nat.add_0_r].
  eapply runs_bind; [apply (Hb _ rest); [done|exact (input_step _ _ _ _ Hi1 eq_refl)|done]|].
  intros b' Hb'. apply runs_ret. unfold same_as in *. simpl. by rewrite Hc', Hb'.
Qed.

(** What may stand after [else], and how [else_branch] reads it. *)
Definition else_read (te : list tk) (f : option Expr) : Prop :=
  reads (else_branch r) te no_else (fun f' => option_map unspan f' = option_map unspan f).

Lemma no_else_read : else_read [] None.
Proof.
  intros p rest Hp Hi (k & w & rest' & -> & Hk)%no_else_head. unfold else_branch.
  eapply runs_matches_no; [exact Hi|by apply bool_decide_eq_false|]. by apply runs_ret.
Qed.

Lemma else_block_read w b : block_read b -> else_read ((Else_, w) :: block_toks n b) (Some (EBlock b)).
Proof.
  intros Hb p rest Hp Hi _. simpl in Hi. destruct (block_first b n) as (w2 & ts & E).
  assert (Hi1 : input (step p 1) = block_toks n b ++ rest) by (by eapply (input_step _ [_])).
  unfold else_branch. take Hi. cbn [negb]. pose proof Hi1 as Hi2. rewrite E in Hi2.
  eapply runs_matches_no; [exact Hi2|done|]. eapply runs_len; [|apply Nat.add_0_r].
  eapply runs_bind; [by apply (Hb _ rest)|]. intros b' Hs. apply runs_ret. unfold same_as in Hs. simpl. by rewrite Hs.
Qed.

Lemma else_if_read w w2 ts x :
  reads (r_if_expr r) ts no_else (same x) -> else_read ((Else_, w) :: (If_, w2) :: ts) (Some x).
Proof.
  intros Hx p rest Hp Hi Hf. simpl in Hi. input_after Hi [(Else_, w)] Hi1. input_after Hi1 [(If_, w2)] Hi2.
  unfold else_branch. take Hi. cbn [negb]. take Hi1. eapply runs_len; [|apply Nat.add_0_r].
  eapply runs_bind; [by apply (Hx _ rest)|]. intros x' Hs. apply runs_ret. unfold same_as in Hs. simpl. by rewrite Hs.
Qed.

(** [if_expr], after the keyword. *)
Lemma if_reads tc c b te f sp :
  reads (r_expr r) tc (follow 1) (same c) -> (exists k, first tc k /\ k ∈ starters) -> block_read b -> else_read te f ->
  reads (if_expr r) (tc ++ block_toks n b ++ te) no_else (same (EIf c b f sp)).
Proof.
  intros Hc (k & Hk & Hst) Hb He p rest Hp Hi Hf. rewrite <- !app_assoc in Hi. rewrite !length_app. unfold if_expr.
  destruct Hk as (wk & tc' & Etc & _). pose proof Hi as Hi1'. rewrite Etc in Hi1'.
  eapply runs_previous; [exact Hi1'|]. intros t.
  eapply runs_matches_no; [exact Hi1'|apply bool_decide_eq_false; intros ->; revert Hst; kind_in|].
  eapply runs_bind; [apply (condition_reads tc c Hc p _ Hp Hi)|].
  { destruct (block_first b n) as (w2 & ts & ->). done. }
  intros c' Hc'. pose proof (input_step _ _ _ _ Hi eq_refl) as Hi2.
  eapply runs_bind; [by apply (Hb _ (te ++ rest))|]. intros b' Hb'. eapply runs_len; [|apply Nat.add_0_r].
  eapply runs_bind; [apply (He _ rest); [done|exact (input_step _ _ _ _ Hi2 eq_refl)|done]|].
  intros f' Hf'. apply runs_ret. unfold same_as in *. simpl. by rewrite Hc', Hb', Hf'.
Qed.

Lemma if_atom w ts x : reads (if_expr r) ts no_else (same x) -> reads (primary r) ((If_, w) :: ts) no_else (same x).
Proof.
  intros H p rest Hp Hi Hf. simpl in Hi. atom Hi. take Hi. apply (H _ rest); [done|by eapply (input_step _ [_])|done].
Qed.
End Blocks.

(** ** Statements *)

(** The end of a statement or of a block. *)
Definition statement_end (flag : bool) (rest : list tk) : bool :=
  bool_decide (next_kind rest = Some Semicolon) || bool_decide (next_kind rest = Some RightBrace).

Lemma statement_end_follow flag rest : statement_end flag rest = true -> follow 1 flag rest = true.
Proof.
  unfold statement_end. intros [H|H]%orb_true_iff; apply bool_decide_eq_true in H; eapply follow_close; try exact H; set_solver.
Qed.

Lemma return_reads r w sp : reads (level r 1) [(Return, w)] statement_end (same (EReturn None sp)).
Proof.
  apply expr_of_atom; [by repeat eexists; kind_in|apply statement_end_follow|]. intros p rest Hp Hi Hf. simpl in Hi.
  destruct rest as [|[k w2] rest]; [done|]. input_after Hi [(Return, w)] Hi1.
  atom Hi. take Hi. unfold return_expr. eapply runs_previous_step; [exact Hi|done|]. intros t _.
  eapply runs_check_any; [exact Hi1|]. rewrite bool_decide_true.
  - eapply (runs_exact (ret None)); [done|]. by apply runs_ret.
  - unfold statement_end in Hf. apply orb_true_iff in Hf as [H|H]; apply bool_decide_eq_true in H; injection H as ->; set_solver.
Qed.

Lemma return_value_reads r w tv v sp :
  reads (r_expr r) tv (follow 1) (same v) -> (exists k, first tv k /\ k ∈ starters) ->
  reads (level r 1) ((Return, w) :: tv) statement_end (same (EReturn (Some v) sp)).
Proof.
  intros Hv (k & Hk & Hst). apply expr_of_atom; [by repeat eexists; kind_in|apply statement_end_follow|].
  intros p rest Hp Hi Hf. simpl in Hi. destruct Hk as (wk & tv' & Etv & _).
  input_after Hi [(Return, w)] Hi1. pose proof Hi1 as Hi1'. rewrite Etv in Hi1'.
  atom Hi. take Hi. unfold return_expr. eapply runs_previous_step; [exact Hi|done|]. intros t _.
  eapply runs_check_any; [exact Hi1'|]. rewrite bool_decide_false by (revert Hst; kind_in). cbn [negb].
  eapply runs_len; [|apply Nat.add_0_r].
  eapply (runs_bind _ _ _ _ _ (fun o => exists x, o = Some x /\ same v x)).
  - unfold opt_if. eapply runs_len; [|apply Nat.add_0_r].
    eapply runs_bind; [apply (Hv _ rest); [done|exact Hi1|by apply statement_end_follow]|].
    intros x Hx. apply runs_ret. eauto.
  - intros o (x & -> & Hx). apply runs_ret. unfold same_as in *. simpl. by rewrite Hx.
Qed.

(** A type of the core. *)
Lemma ty_reads r t :
  core_ty t = true ->
  reads (ty r) (token_kinds (ty_pieces t))
    (fun _ rest => negb (bool_decide (rest = [])) && negb (bool_decide (next_kind rest ∈ [Some ColonColon; Some Less])))
    (same_as unspan_ty t).
Proof.
  destruct t as [[|name names] sp| | | | | | | | | | | | | |]; try done. cbn [core_ty ty_pieces]. intros [Hn Hns]%andb_true_iff.
  assert (Ep : token_kinds (path_pieces (name :: names)) =
    (Identifier, chars name) :: more_tokens (fun s => [(Identifier, chars s)]) (ColonColon, chars "::") names).
  { clear -Hn Hns. revert name Hn. induction names as [|x names IH]; intros name Hn.
    - simpl. unfold core_name in Hn. apply andb_true_iff in Hn as [_ ->%bool_decide_eq_true]. done.
    - simpl in Hns. apply andb_true_iff in Hns as [Hx Hns].
      change (path_pieces (name :: x :: names)) with ([word name; sym "::"] ++ path_pieces (x :: names)).
      rewrite token_kinds_app, (IH Hns x Hx). unfold core_name in Hn. apply andb_true_iff in Hn as [_ Hk%bool_decide_eq_true].
      simpl. by rewrite Hk. }
  rewrite Ep. clear Ep. intros p rest Hp Hi Hf. simpl in Hi.
  apply andb_true_iff in Hf as [Hne%negb_true_iff%bool_decide_eq_false Hk%negb_true_iff%bool_decide_eq_false].
  rewrite !elem_of_cons, elem_of_nil in Hk. input_after Hi [(Identifier, chars name)] Hi1.
  assert (Hmore : runs (while_matches ColonColon (consume_identifier "expected path segment after `::`") [name]) (step p 1)
    (length (more_tokens (fun s => [(Identifier, chars s)]) (ColonColon, chars "::") names)) (fun v => v = name :: names)).
  { pose proof (input_length _ _ _ Hi1). eapply runs_weaken.
    - eapply (rounds_more id (consume_identifier "expected path segment after `::`") (fun s => [(Identifier, chars s)])
               (fun _ _ => true) (ColonColon, chars "::") ltac:(done) ltac:(done) names (S (length (tokens p))) [name] (step p 1) rest);
        try done.
      + apply forallb_true in Hns. eapply Forall_impl; [exact Hns|]. intros s Hs q rest' Hq Hiq _. simpl in Hiq.
        unfold runs. destruct (runs_consume_identifier q (chars s) rest' "expected path segment after `::`" ret 0 (fun x => x = s) Hiq)
          as (x & E & ->); [apply runs_ret; by apply core_name_text|].
        exists s. split; [|done]. etrans; [|exact E]. unfold bind. by destruct (consume_identifier _ q).
      + pose proof (more_tokens_length (fun s => [(Identifier, chars s)]) (ColonColon, chars "::") names). simpl in *. lia.
      + intros E. apply Hk. by left.
    - intros v (v2 & -> & Hv). unfold same_list in Hv. by rewrite !map_id in Hv; subst. }
  assert (Hi2 := input_step _ _ _ _ Hi1 eq_refl). destruct rest as [|[k w] rest]; [done|].
  unfold ty. eapply runs_peek; [exact Hi|]. intros t0 _. skip_tests Hi.
  eapply runs_check_any; [exact Hi|]. known_test. skip_tests Hi.
  apply (runs_len _ _ (S (length (more_tokens (fun s => [(Identifier, chars s)]) (ColonColon, chars "::") names)) + 0)); [|simpl; lia].
  eapply (runs_bind _ _ _ _ _ (fun v => v = name :: names)).
  - unfold path. eapply runs_consume_identifier; [exact Hi|]. rewrite core_name_text by done. exact Hmore.
  - intros v ->. assert (Hi3 : input (step p (S (length (more_tokens (fun s => [(Identifier, chars s)]) (ColonColon, chars "::") names)))) = (k, w) :: rest)
      by (rewrite <- Hi2, step_step; done).
    eapply runs_matches_no; [exact Hi3|apply bool_decide_eq_false; intros ->; apply Hk; right; by left|].
    eapply runs_previous; [exact Hi3|]. intros prev. by apply runs_ret.
Qed.

(** A name as a pattern. *)
Lemma pattern_reads r name sp :
  core_name name = true ->
  reads (pattern r) [(Identifier, chars name)]
    (fun _ rest => bool_decide (next_kind rest ∈ [Some Colon; Some Equal; Some Semicolon])) (same_as unspan_pat (PIdent name sp)).
Proof.
  intros Hn p rest Hp Hi Hf%bool_decide_eq_true. simpl in Hi. destruct rest as [|[k w] rest]; [by rewrite !elem_of_cons, elem_of_nil in Hf; intuition|].
  input_after Hi [(Identifier, chars name)] Hi1.
  assert (Hk : k = Colon \/ k = Equal \/ k = Semicolon).
  { rewrite !elem_of_cons, elem_of_nil in Hf. unfold next_kind in Hf. simpl in Hf. intuition congruence. }
  clear Hf. apply (runs_len _ _ (1 + 0)); [|done].
  eapply (runs_bind _ _ _ _ _ (same_as unspan_pat (PIdent name sp))).
  - unfold binding_pattern. eapply runs_check; [exact Hi|]. eapply runs_peek_next; [exact Hi|]. intros o Ho. rewrite (Ho At).
    rewrite (bool_decide_false (fst <$> head ((k, w) :: rest) = Some At)) by (simpl; intuition congruence). rewrite andb_false_r.
    unfold range_pattern. apply (runs_len _ _ (1 + 0)); [|done].
    eapply (runs_bind _ _ _ _ _ (same_as unspan_pat (PIdent name sp))).
    + unfold pattern_atom. skip_tests Hi. eapply runs_check; [exact Hi|]. known_test. unfold path_pattern.
      eapply runs_peek; [exact Hi|]. intros t _. apply (runs_len _ _ (1 + 0)); [|done].
      eapply (runs_bind _ _ _ _ _ (fun v => v = [name])).
      * unfold path. eapply runs_consume_identifier; [exact Hi|]. rewrite core_name_text by done.
        exists [name]. split; [|done]. rewrite step_0. apply loop_stops.
        rewrite (matches_stops ColonColon _ _ _ _ _ Hi1); [done|]. intuition congruence.
      * intros v ->. eapply runs_matches_no; [exact Hi1|apply bool_decide_eq_false; intuition congruence|].
        eapply runs_matches_no; [exact Hi1|apply bool_decide_eq_false; intuition congruence|].
        unfold span_since. apply (runs_bind _ _ _ 0 0 (fun _ => True)).
        -- eapply runs_previous; [exact Hi1|]. intros prev. by apply runs_ret.
        -- intros s _. by apply runs_ret.
    + intros s Hs. eapply runs_matches_no; [exact Hi1|apply bool_decide_eq_false; intuition congruence|].
      apply (runs_bind _ _ _ 0 0 (fun c => c = false)).
      * assert (Hm : runs (bind (matches DotDotEqual) ret) (step p 1) 0 (fun b => b = false)).
        { eapply runs_matches_no; [exact Hi1|apply bool_decide_eq_false; intuition congruence|by apply runs_ret]. }
        destruct Hm as (b & E & ->). exists false. split; [|done]. etrans; [|exact E]. unfold bind. by destruct (matches _ _).
      * intros c ->. apply runs_ret. exact Hs.
  - intros p1 Hp1. apply (runs_bind _ _ _ 0 0 (fun v => v = [p1])).
    + exists [p1]. split; [|done]. rewrite step_0. apply loop_stops.
      rewrite (matches_stops Pipe _ _ _ _ _ Hi1); [done|]. intuition congruence.
    + intros v ->. by apply runs_ret.
Qed.

Lemma margin_tokens n : token_kinds (margin n) = [].
Proof. unfold margin. by induction (4 * n). Qed.

Lemma name_token name : core_name name = true -> token_kinds [word name] = [(Identifier, chars name)].
Proof. unfold core_name. intros [_ H%bool_decide_eq_true]%andb_true_iff. simpl. by rewrite H. Qed.

Definition ty_toks (t : option Ty) : list tk :=
  match t with Some t => (Colon, chars ":") :: token_kinds (ty_pieces t) | None => [] end.
Definition value_toks (n : nat) (v : option Expr) : list tk :=
  match v with Some v => (Equal, chars "=") :: toks n v | None => [] end.
Definition semicolon : tk := (Semicolon, chars ";").

(** The tokens of a [let]. *)
Lemma let_tokens n m name sp t v sp' is_last :
  core_name name = true ->
  token_kinds (stmt_pieces n (SLet (mkLetStmt m (PIdent name sp) t v sp')) is_last) =
  (Let, chars "let") :: (if m then [(Mut, chars "mut")] else []) ++ (Identifier, chars name) :: ty_toks t ++ value_toks n v ++ [semicolon].
Proof.
  intros Hn. cbn [stmt_pieces]. rewrite !token_kinds_app, margin_tokens, (name_token name Hn).
  destruct m, t, v; unfold ty_toks, value_toks; rewrite ?token_kinds_app; reflexivity.
Qed.

Section Statements.
Context (r : Rec) (n : nat).

(** The expressions that the statements of a block hold. *)
Definition stmt_expr (e : Expr) : Prop :=
  reads (level r 1) (toks n e) statement_end (same e) /\
  (is_block_like e = true -> reads (primary r) (toks n e) no_else (same e)).

Definition optional_reads {A} (m : M A) (ts : list tk) (after : bool -> list tk -> bool) (Q : option A -> Prop) (c : bool) : Prop :=
  reads (opt_if c m) ts after Q.

Lemma let_type_reads t p rest :
  match t with Some t => core_ty t = true | None => True end ->
  plain_less (tokens p) -> input p = ty_toks t ++ rest -> next_kind rest = Some Equal \/ next_kind rest = Some Semicolon ->
  runs (let! colon := matches Colon in opt_if colon (ty r)) p (length (ty_toks t)) (fun t' => option_map unspan_ty t' = option_map unspan_ty t).
Proof.
  intros Ht Hp Hi Hr. destruct rest as [|[k w] rest]; [by destruct Hr|]. destruct t as [t|]; simpl in Hi.
  - input_after Hi [(Colon, chars ":")] Hi1. cbn [ty_toks length]. take Hi. unfold opt_if.
    eapply runs_len; [|apply Nat.add_0_r]. eapply runs_bind; [eapply (ty_reads r t Ht); [exact Hp|exact Hi1|]|].
    + rewrite !bool_decide_false; [done| |done]. rewrite !elem_of_cons, elem_of_nil. unfold next_kind in *. simpl in *. intuition congruence.
    + intros t' Ht'. apply runs_ret. unfold same_as in Ht'. simpl. by rewrite Ht'.
  - eapply runs_matches_no; [exact Hi|apply bool_decide_eq_false; unfold next_kind in Hr; simpl in Hr; intuition congruence|]. by apply runs_ret.
Qed.

Lemma let_value_reads v p rest :
  match v with Some v => stmt_expr v | None => True end ->
  plain_less (tokens p) -> input p = value_toks n v ++ semicolon :: rest ->
  runs (let! eq := matches Equal in opt_if eq (expr r)) p (length (value_toks n v)) (fun v' => option_map unspan v' = option_map unspan v).
Proof.
  intros Hv Hp Hi. destruct v as [v|]; simpl in Hi.
  - input_after Hi [(Equal, chars "=")] Hi1. cbn [value_toks length]. take Hi. unfold opt_if.
    eapply runs_len; [|apply Nat.add_0_r]. eapply runs_bind; [eapply (proj1 Hv); [exact Hp|exact Hi1|done]|].
    intros v' Hs. apply runs_ret. unfold same_as in Hs. simpl. by rewrite Hs.
  - eapply runs_matches_no; [exact Hi|done|]. by apply runs_ret.
Qed.

(** [a; b] as two steps of one run. *)
Lemma runs_assoc {A B C} (m : M A) (f : A -> M B) (g : B -> M C) p k Q :
  runs (bind (bind m f) g) p k Q -> runs (bind m (fun a => bind (f a) g)) p k Q.
Proof. intros (c & E & Hc). exists c. split; [|done]. rewrite <- E. unfold bind. by destruct (m p). Qed.

Lemma semicolon_reads p rest : input p = semicolon :: rest -> runs expect_semicolon p 1 (fun _ => True).
Proof. intros Hi. unfold expect_semicolon. take Hi. by apply runs_ret. Qed.

Lemma let_reads (m : bool) name sp t v sp' acc :
  core_name name = true -> match t with Some t => core_ty t = true | None => True end ->
  match v with Some v => stmt_expr v | None => True end ->
  reads (block_step r (acc, None))
    ((Let, chars "let") :: (if m then [(Mut, chars "mut")] else []) ++ (Identifier, chars name) :: ty_toks t ++ value_toks n v ++ [semicolon])
    (fun _ rest => negb (bool_decide (rest = [])))
    (fun st => exists s, st = (acc ++ [s], None) /\ unspan_stmt s = unspan_stmt (SLet (mkLetStmt m (PIdent name sp) t v sp'))).
Proof.
  intros Hn Ht Hv p rest Hp Hi Hf. simpl in Hi. rewrite <- !app_assoc in Hi. simpl in Hi. rewrite <- !app_assoc in Hi. simpl in Hi.
  apply negb_true_iff, bool_decide_eq_false in Hf. destruct rest as [|[k w] rest]; [done|].
  cbn [length]. rewrite !length_app. cbn [length]. rewrite !length_app. cbn [length].
  unfold block_step. skip_tests Hi. take Hi. eapply runs_len; [|apply Nat.add_0_r].
  eapply (runs_bind _ _ _ _ _ (fun s => unspan_stmt (SLet s) = unspan_stmt (SLet (mkLetStmt m (PIdent name sp) t v sp')))).
  2:{ intros s Hs. apply runs_ret. by eexists. }
  unfold let_stmt. eapply runs_previous_step; [exact Hi|done|]. intros tok _. input_after Hi [(Let, chars "let")] Hi1.
  assert (Hm : exists d, d = length (if m then [(Mut, chars "mut")] else []) /\
    runs (bind (matches Mut) ret) (step p 1) d (fun b => b = m) /\
    input (step (step p 1) d) = (Identifier, chars name) :: ty_toks t ++ value_toks n v ++ semicolon :: (k, w) :: rest).
  { eexists. split; [done|]. destruct m; simpl in Hi1.
    - split; [take Hi1; by apply runs_ret|]. by eapply (input_step _ [_]).
    - split; [eapply runs_matches_no; [exact Hi1|done|]; by apply runs_ret|]. by rewrite step_0. }
  destruct Hm as (d & <- & Hm & Hi2). eapply (runs_bind _ _ _ _ _ (fun b => b = m)).
  { destruct Hm as (b & E & Hb). exists b. split; [|done]. rewrite <- E. unfold bind. by destruct (matches _ _). }
  intros m' ->. apply (runs_len _ _ (1 + (length (ty_toks t) + (length (value_toks n v) + 1)))); [|lia].
  assert (Hnext : next_kind (value_toks n v ++ semicolon :: (k, w) :: rest) = Some Equal \/
                  next_kind (value_toks n v ++ semicolon :: (k, w) :: rest) = Some Semicolon) by (destruct v; simpl; auto).
  eapply runs_bind; [eapply (pattern_reads r name sp Hn); [exact Hp|exact Hi2|]|].
  { apply bool_decide_eq_true. destruct t; [set_solver|]. simpl. destruct Hnext as [-> | ->]; set_solver. }
  intros pat Hpat. input_after Hi2 [(Identifier, chars name)] Hi3. apply runs_assoc.
  eapply runs_bind; [eapply (let_type_reads t); [exact Ht|exact Hp|exact Hi3|exact Hnext]|]. intros t' Ht'. pose proof (input_step _ _ _ _ Hi3 eq_refl) as Hi4.
  apply runs_assoc. eapply runs_bind; [eapply (let_value_reads v); [exact Hv|exact Hp|exact Hi4]|]. intros v' Hv'.
  pose proof (input_step _ _ _ _ Hi4 eq_refl) as Hi5. input_after Hi5 [semicolon] Hi6.
  apply (runs_bind _ _ _ 1 0 (fun _ => True)); [by eapply semicolon_reads|]. intros _ _.
  apply (runs_bind _ _ _ 0 0 (fun _ => True)).
  { unfold span_since. eapply runs_previous; [exact Hi6|]. intros prev. by apply runs_ret. }
  intros s _. apply runs_ret. unfold same_as in Hpat. simpl. by rewrite Hpat, Ht', Hv'.
Qed.

(** How an expression statement ends. *)
Inductive ending : list tk -> Prop :=
| ends_semicolon rest : rest <> [] -> ending (semicolon :: rest)
| ends_block w rest : ending ((RightBrace, w) :: rest)
| ends_next k w rest : k ∈ Let :: starters -> ending ((k, w) :: rest).

(** The state after the statement [e], and the tokens that its end takes. *)
Definition after_statement (acc : list Stmt) (rest : list tk) (e' : Expr) : list Stmt * option Expr :=
  if bool_decide (next_kind rest = Some RightBrace) then (acc, Some e') else (acc ++ [SExpr e'], None).
Definition end_length (rest : list tk) : nat := if bool_decide (next_kind rest = Some Semicolon) then 1 else 0.

Lemma plain_statement e acc p rest :
  stmt_expr e -> (exists k, starts e (toks n e) k) -> is_block_like e = false -> starts_block e = false ->
  plain_less (tokens p) -> input p = toks n e ++ rest -> ending rest -> statement_end true rest = true ->
  runs (block_step r (acc, None)) p (length (toks n e) + end_length rest) (fun st => exists e', st = after_statement acc rest e' /\ same e e').
Proof.
  intros [He _] (k & [(w & ts & Et & _) Hst _ Hpl _]) Hlike Hsb Hp Hi Hend Hse. specialize (Hpl Hsb).
  pose proof Hi as Hi'. rewrite Et in Hi'. simpl in Hi'. unfold block_step.
  eapply runs_matches_no; [exact Hi'|apply bool_decide_eq_false; intros ->; revert Hst; kind_in|].
  eapply runs_matches_no; [exact Hi'|apply bool_decide_eq_false; intros ->; revert Hst; kind_in|].
  unfold starts_block_like. eapply runs_check_any; [exact Hi'|].
  rewrite bool_decide_false by (revert Hst Hpl; kind_in). cbn match.
  eapply runs_bind; [apply (He p rest); [done|done|exact Hse]|]. intros e' Hs.
  pose proof (input_step _ _ _ _ Hi eq_refl) as Hi1. unfold finish_statement, after_statement, end_length.
  destruct Hend as [rest' Hne|w' rest'|k' w' rest' Hk].
  - take Hi1. apply runs_ret. eauto.
  - eapply runs_matches_no; [exact Hi1|done|]. eapply runs_check; [exact Hi1|]. known_test. apply runs_ret. eauto.
  - exfalso. unfold statement_end in Hse. apply orb_true_iff in Hse as [H|H]; apply bool_decide_eq_true in H; injection H as ->;
      revert Hk; kind_in.
Qed.

Lemma block_statement e acc p rest :
  stmt_expr e -> (exists k, starts e (toks n e) k) -> is_block_like e = true ->
  plain_less (tokens p) -> input p = toks n e ++ rest -> ending rest ->
  runs (block_step r (acc, None)) p (length (toks n e) + end_length rest) (fun st => exists e', st = after_statement acc rest e' /\ same e e').
Proof.
  intros [_ He] (k & [(w & ts & Et & _) Hst _ _ Hl]) Hlike Hp Hi Hend. specialize (He Hlike). specialize (Hl Hlike).
  pose proof Hi as Hi'. rewrite Et in Hi'. simpl in Hi'. unfold block_step.
  eapply runs_matches_no; [exact Hi'|apply bool_decide_eq_false; intros ->; revert Hst; kind_in|].
  eapply runs_matches_no; [exact Hi'|apply bool_decide_eq_false; intros ->; revert Hst; kind_in|].
  unfold starts_block_like. eapply runs_check_any; [exact Hi'|].
  rewrite bool_decide_true by (revert Hl; kind_in). cbn match.
  assert (Hnd : no_else true rest = true /\ exists k' w' rest', rest = (k', w') :: rest' /\ k' ∉ [Dot; Question]).
  { destruct Hend as [rest' Hne|w' rest'|k' w' rest' Hk].
    - split; [done|]. repeat eexists. kind_in.
    - split; [done|]. repeat eexists. kind_in.
    - split; [|repeat eexists; revert Hk; kind_in]. unfold no_else. rewrite !bool_decide_false; [done| |done].
      intros [= ->]. revert Hk. kind_in. }
  destruct Hnd as [Hne (k' & w' & rest' & -> & Hk')].
  eapply runs_bind; [by apply (He p _ Hp Hi)|]. intros e' Hs.
  pose proof (input_step _ _ _ _ Hi eq_refl) as Hi1. unfold after_statement, end_length.
  eapply runs_check_any; [exact Hi1|]. rewrite bool_decide_false by done.
  inversion Hend as [rest2 Hne2|w2 rest2|k2 w2 rest2 Hk2]; subst.
  - take Hi1. apply runs_ret. eauto.
  - eapply runs_matches_no; [exact Hi1|done|]. eapply runs_check; [exact Hi1|]. known_test. apply runs_ret. eauto.
  - eapply runs_matches_no; [exact Hi1|apply bool_decide_eq_false; intros ->; revert Hk2; kind_in|].
    eapply runs_check; [exact Hi1|]. rewrite bool_decide_false by (intros ->; revert Hk2; kind_in).
    rewrite !bool_decide_false by (unfold next_kind; simpl; intros [= ->]; revert Hk2; kind_in).
    apply runs_ret. eauto.
Qed.

(** The statements of the core, and what is known of their expressions. *)
Definition stmt_ready (lt : bool) (s : Stmt) : Prop :=
  core_stmt lt s = true /\ on_stmt stmt_expr s.

Definition begins (ts : list tk) : Prop := exists k w ts', ts = (k, w) :: ts' /\ k ∈ Let :: starters.

Lemma leads_cases e : leads_statement e = true -> is_block_like e = true \/ (is_block_like e = false /\ starts_block e = false).
Proof. unfold leads_statement. destruct (is_block_like e); [auto|]. simpl. intros H%negb_true_iff. auto. Qed.

Lemma stmt_reads lt s is_last acc p rest :
  stmt_ready lt s -> plain_less (tokens p) -> input p = token_kinds (stmt_pieces n s is_last) ++ rest ->
  (if is_last then next_kind rest = Some RightBrace else begins rest) ->
  runs (block_step r (acc, None)) p (length (token_kinds (stmt_pieces n s is_last)))
    (fun st => exists s', st = (acc ++ [s'], None) /\ unspan_stmt s' = unspan_stmt s).
Proof.
  intros [Hc He] Hp Hi Hr.
  assert (Hne : rest <> []) by (destruct is_last; [by destruct rest|by destruct Hr as (? & ? & ? & -> & _)]).
  destruct s as [[m pat t v sp]|e|i]; [| |done].
  - destruct pat; try done. cbn [core_stmt] in Hc. apply andb_true_iff in Hc as [[Hn Ht]%andb_true_iff Hv].
    rewrite let_tokens in * by done. eapply let_reads; [done|by destruct t|by destruct v|exact Hp|exact Hi|].
    by apply negb_true_iff, bool_decide_eq_false.
  - cbn [core_stmt on_stmt] in *. apply andb_true_iff in Hc as [Hl Hc].
    cbn [stmt_pieces] in *. rewrite !token_kinds_app, margin_tokens in *. fold (toks n e) in *. cbn [app] in *.
    assert (Hrun : forall rest', input p = toks n e ++ rest' -> ending rest' -> (is_block_like e = false -> statement_end true rest' = true) ->
      next_kind rest' <> Some RightBrace ->
      runs (block_step r (acc, None)) p (length (toks n e) + end_length rest')
        (fun st => exists s', st = (acc ++ [s'], None) /\ unspan_stmt s' = unspan_stmt (SExpr e))).
    { intros rest' Hi' Hend Hse Hnb. eapply runs_weaken with (Q := fun st => exists e', st = after_statement acc rest' e' /\ same e e').
      - destruct (leads_cases e Hl) as [Hlike|[Hlike Hsb]].
        + eapply block_statement; try done. by eapply expr_first.
        + eapply plain_statement; try done; [by eapply expr_first|by apply Hse].
      - intros st (e' & -> & Hs). exists (SExpr e'). unfold after_statement. rewrite bool_decide_false by done.
        split; [done|]. unfold same_as in Hs. simpl. by rewrite Hs. }
    destruct (is_last || negb (is_block_like e)) eqn:Esemi; cbn [app token_kinds] in *.
    + rewrite length_app. rewrite <- app_assoc in Hi. apply (Hrun (semicolon :: rest) Hi); [by constructor|done|done].
    + apply orb_false_iff in Esemi as [-> Hlike%negb_false_iff]. destruct Hr as (k & w & rest' & -> & Hk).
      rewrite app_nil_r in *. eapply runs_len; [apply (Hrun _ Hi)|].
      * by constructor.
      * congruence.
      * intros [= ->]. revert Hk. kind_in.
      * unfold end_length. rewrite bool_decide_false; [lia|]. intros [= ->]. revert Hk. kind_in.
Qed.

Definition tail_toks (tail : option Expr) : list tk := match tail with Some e => toks n e | None => [] end.

Definition block_round (st : list Stmt * option Expr) : M ((list Stmt * option Expr) + (list Stmt * option Expr)) :=
  let! stop := check_any [RightBrace; Eof] in
  if stop then ret (inr st) else let! st := block_step r st in ret (inl st).

Lemma round_stops st p w rest : input p = (RightBrace, w) :: rest -> runs (block_round st) p 0 (fun x => x = inr st).
Proof. intros Hi. eapply runs_check_any; [exact Hi|]. known_test. by apply runs_ret. Qed.

Lemma round_steps st p k w rest len Q :
  input p = (k, w) :: rest -> k ∈ Let :: starters -> runs (block_step r st) p len Q ->
  runs (block_round st) p len (fun x => exists st', x = inl st' /\ Q st').
Proof.
  intros Hi Hk H. eapply runs_check_any; [exact Hi|]. rewrite bool_decide_false by (revert Hk; kind_in).
  eapply runs_len; [|apply Nat.add_0_r]. eapply runs_bind; [exact H|]. intros st' Hst'. apply runs_ret. eauto.
Qed.

Lemma stmt_begins lt s is_last : core_stmt lt s = true -> begins (token_kinds (stmt_pieces n s is_last)).
Proof.
  intros Hc. destruct s as [[m pat t v sp]|e|i]; [| |done].
  - destruct pat; try done. cbn [core_stmt] in Hc. apply andb_true_iff in Hc as [[Hn _]%andb_true_iff _].
    rewrite let_tokens by done. repeat eexists. kind_in.
  - cbn [core_stmt] in Hc. apply andb_true_iff in Hc as [_ Hc]. destruct (expr_first e lt n Hc) as (k & [(w & ts & E & _) Hst _ _ _]).
    cbn [stmt_pieces]. rewrite !token_kinds_app, margin_tokens. fold (toks n e). rewrite E. repeat eexists. by right.
Qed.

Lemma begins_app a b : begins a -> begins (a ++ b).
Proof. intros (k & w & ts & -> & Hk). by repeat eexists. Qed.

(** The loop of [block]. *)
Lemma block_rounds lt stmts tail fuel acc p w rest :
  Forall (stmt_ready lt) stmts ->
  match tail with Some e => leads_statement e = true /\ core_expr lt e = true /\ stmt_expr e | None => True end ->
  length stmts + 2 <= fuel -> plain_less (tokens p) ->
  input p = token_kinds (stmts_pieces n (is_none tail) stmts) ++ tail_toks tail ++ (RightBrace, w) :: rest ->
  runs (rounds fuel block_round (acc, None)) p (length (token_kinds (stmts_pieces n (is_none tail) stmts)) + length (tail_toks tail))
    (fun st => exists ss t, st = (acc ++ ss, t) /\ map unspan_stmt ss = map unspan_stmt stmts /\
       option_map unspan t = option_map unspan tail).
Proof.
  intros HF Ht. revert fuel acc p. induction HF as [|s stmts Hs HF IH]; intros fuel acc p Hn Hp Hi.
  - destruct fuel as [|[|fuel]]; simpl in Hn; try lia. cbn [rounds]. destruct tail as [e|]; cbn [tail_toks stmts_pieces token_kinds app] in Hi |- *.
    + destruct Ht as (Hl & Hc & He). destruct (expr_first e lt n Hc) as (k & Hk). pose proof Hk as [(wk & ts & E & _) Hst _ _ _].
      pose proof Hi as Hi'. simpl in Hi'. rewrite E in Hi'. simpl in Hi.
      eapply runs_len; [eapply runs_bind|].
      * eapply round_steps; [exact Hi'|by right|].
        assert (Hrun : runs (block_step r (acc, None)) p (length (toks n e) + end_length ((RightBrace, w) :: rest))
          (fun st => exists e', st = after_statement acc ((RightBrace, w) :: rest) e' /\ same e e')).
        { destruct (leads_cases e Hl) as [Hlike|[Hlike Hsb]].
          - eapply block_statement; try done; [by exists k|constructor].
          - eapply plain_statement; try done; [by exists k|constructor]. }
        exact Hrun.
      * intros x (st & -> & e' & -> & Hsame).
        eapply (runs_bind (block_round _) _ _ 0 0 (fun x => x = inr (acc, Some e'))).
        -- eapply round_stops. rewrite Nat.add_0_r. exact (input_step _ _ _ _ Hi eq_refl).
        -- intros x ->. apply runs_ret. exists [], (Some e'). rewrite app_nil_r. unfold same_as in Hsame. simpl. by rewrite Hsame.
      * unfold end_length. simpl. lia.
    + apply (runs_bind (block_round _) _ _ 0 0 (fun x => x = inr (acc, None))).
      * eapply round_stops. exact Hi.
      * intros x ->. apply runs_ret. exists [], None. by rewrite app_nil_r.
  - destruct fuel as [|fuel]; simpl in Hn; [lia|]. cbn [rounds stmts_pieces] in *. rewrite token_kinds_app in *. rewrite <- app_assoc in Hi.
    destruct (stmt_begins lt s (is_nil stmts && is_none tail) (proj1 Hs)) as (k & wk & ts & E & Hk).
    pose proof Hi as Hi'. rewrite E in Hi'. simpl in Hi'. rewrite length_app.
    eapply runs_len; [eapply runs_bind|].
    + eapply round_steps; [exact Hi'|exact Hk|]. eapply (stmt_reads lt); [exact Hs|done|exact Hi|].
      destruct stmts as [|s2 stmts]; [destruct tail as [e|]|].
      * destruct Ht as (_ & Hc & _). destruct (expr_first e lt n Hc) as (k2 & [(w2 & ts2 & E2 & _) Hst2 _ _ _]).
        simpl. rewrite E2. repeat eexists. by right.
      * done.
      * cbn [is_nil andb stmts_pieces]. rewrite token_kinds_app, <- app_assoc. apply begins_app.
        inversion HF as [|? ? [Hc2 _] _]; subst. by eapply stmt_begins.
    + intros x (st & -> & s' & -> & Hs'). eapply runs_weaken; [eapply (IH fuel (acc ++ [s']))|].
      * lia.
      * done.
      * exact (input_step _ _ _ _ Hi eq_refl).
      * intros st (ss & t & -> & Hss & Ht'). exists (s' :: ss), t. rewrite <- app_assoc. split; [done|]. cbn [map]. by rewrite Hs', Hss.
    + lia.
Qed.

Lemma stmts_length lt stmts none_tail :
  Forall (stmt_ready lt) stmts -> length stmts <= length (token_kinds (stmts_pieces n none_tail stmts)).
Proof.
  intros HF. induction HF as [|s stmts Hs HF IH]; [done|]. cbn [stmts_pieces length]. rewrite token_kinds_app, length_app.
  destruct (stmt_begins lt s (is_nil stmts && none_tail) (proj1 Hs)) as (k & wk & ts & E & _). rewrite E. simpl. lia.
Qed.
End Statements.

(** ** Blocks *)

Lemma block_tokens n stmts tail sp :
  block_toks n (mkBlock stmts tail sp) =
  (LeftBrace, chars "{") :: (token_kinds (stmts_pieces (S n) (is_none tail) stmts) ++ tail_toks (S n) tail) ++ [(RightBrace, chars "}")].
Proof.
  unfold block_toks. rewrite block_pieces_eq. destruct (is_nil stmts && is_none tail) eqn:E.
  - apply andb_true_iff in E as [E1 E2]. by destruct stmts, tail.
  - rewrite !token_kinds_app, margin_tokens. destruct tail as [e|]; rewrite ?token_kinds_app, ?margin_tokens; unfold tail_toks, toks;
      simpl; rewrite <- ?app_assoc, ?app_nil_r; done.
Qed.

Lemma block_reads r lt n stmts tail sp :
  Forall (stmt_ready r (S n) lt) stmts ->
  match tail with Some e => leads_statement e = true /\ core_expr lt e = true /\ stmt_expr r (S n) e | None => True end ->
  reads (block r) (block_toks n (mkBlock stmts tail sp)) (fun _ _ => true) (same_block (mkBlock stmts tail sp)).
Proof.
  intros HF Ht p rest Hp Hi _. rewrite block_tokens in *. simpl in Hi. rewrite <- !app_assoc in Hi. simpl in Hi.
  cbn [length]. rewrite !length_app. cbn [length]. input_after Hi [(LeftBrace, chars "{")] Hi1.
  unfold block. eapply runs_consume; [exact Hi|done|]. intros t _.
  pose proof (stmts_length _ _ lt _ (is_none tail) HF) as Hlen.
  eapply runs_bind.
  - apply (block_rounds r (S n) lt stmts tail (S (length (tokens p))) [] (step p 1) (chars "}") rest HF Ht); [|done|exact Hi1].
    pose proof (input_length p ((LeftBrace, chars "{") :: token_kinds (stmts_pieces (S n) (is_none tail) stmts) ++ tail_toks (S n) tail ++ [(RightBrace, chars "}")]) rest) as Hl3.
    rewrite Hi in Hl3. simpl in Hl3. rewrite <- !app_assoc in Hl3. specialize (Hl3 eq_refl). rewrite !length_app in Hl3. simpl in Hl3. lia.
  - intros st (ss & tl & -> & Hss & Htl).
    eapply runs_consume; [rewrite <- length_app; eapply input_step; [rewrite <- app_assoc; exact Hi1|reflexivity]|done|].
    intros t2 _. apply runs_ret. unfold same_as. simpl. by rewrite Hss, Htl.
Qed.
