(* ===== verification/RereadItem.v ===== *)
(** Declarations and modules, on the tokens of the core. *)
From S2P Require Import Prelude Floats Span Diag Lex Ast ParseBase Parse ParseLogic Fmt Pieces Core Printed Reread RereadExpr RereadBlock.
Open Scope nat_scope.

(** What may follow a type. *)
Definition type_end (_ : bool) (rest : list tk) : bool :=
  negb (bool_decide (rest = [])) && negb (bool_decide (next_kind rest ∈ [Some ColonColon; Some Less])).

Definition type_toks (t : Ty) : list tk := token_kinds (ty_pieces t).
Definition param_toks (p : Param) : list tk := token_kinds (param_pieces p).

Lemma name_word name : core_name name = true -> word name = Tk Identifier (chars name).
Proof. unfold core_name, word. by intros [_ ->%bool_decide_eq_true]%andb_true_iff. Qed.

Lemma comma_pieces_tokens l : token_kinds (comma_pieces l) = comma_tokens (map token_kinds l).
Proof.
  induction l as [|a l IH]; [done|]. destruct l as [|b l]; [done|].
  change (comma_pieces (a :: b :: l)) with (a ++ [sym ","; blank] ++ comma_pieces (b :: l)).
  rewrite !token_kinds_app, IH. done.
Qed.

Lemma span_since_runs s p k w rest : input p = (k, w) :: rest -> runs (span_since s) p 0 (fun _ => True).
Proof. intros Hi. unfold span_since. eapply runs_previous; [exact Hi|]. intros prev. by apply runs_ret. Qed.

Section Items.
Context (r : Rec).

(** ** Parameters *)

Definition param_name (p : Param) : string := match p with mkParam (PIdent name _) _ _ => name | _ => "" end.
Definition param_ty (p : Param) : Ty := let 'mkParam _ t _ := p in t.

Lemma param_core q : core_param q = true ->
  param_toks q = (Identifier, chars (param_name q)) :: (Colon, chars ":") :: type_toks (param_ty q) /\
  core_name (param_name q) = true /\ param_name q <> "self"%string /\ core_ty (param_ty q) = true /\
  unspan_param q = mkParam (PIdent (param_name q) nowhere) (unspan_ty (param_ty q)) nowhere.
Proof.
  destruct q as [[] t sp]; try done. cbn [core_param param_name param_ty].
  intros [[Hn Hs%bool_decide_eq_true]%andb_true_iff Ht]%andb_true_iff. split; [|done].
  unfold param_toks. cbn [param_pieces]. rewrite token_kinds_app. cbn [app token_kinds omap list_omap].
  by rewrite name_word.
Qed.

Lemma parameter_reads q : core_param q = true -> reads (parameter r) (param_toks q) type_end (same_as unspan_param q).
Proof.
  intros (E & Hn & Hs & Ht & Hu)%param_core p rest Hp Hi Hf. rewrite E in *. simpl in Hi. cbn [length].
  input_after Hi [(Identifier, chars (param_name q))] Hi1. input_after Hi1 [(Colon, chars ":")] Hi2.
  pose proof (input_step _ _ _ _ Hi2 eq_refl) as Hi3. destruct rest as [|[k w] rest]; [done|].
  unfold parameter. eapply runs_peek; [exact Hi|]. intros t0 _. skip_tests Hi.
  eapply runs_len; [eapply (runs_bind _ _ _ (S (S (length (type_toks (param_ty q))))) 0
    (fun x => x.1 = param_name q /\ unspan_ty x.2 = unspan_ty (param_ty q)))|lia].
  - eapply runs_consume_identifier; [exact Hi|]. rewrite core_name_text, bool_decide_false by done.
    eapply runs_consume; [exact Hi1|done|]. intros t1 _. eapply runs_len; [|apply Nat.add_0_r].
    eapply runs_bind; [eapply (ty_reads r (param_ty q) Ht); [exact Hp|exact Hi2|exact Hf]|]. intros t Hty. by apply runs_ret.
  - intros [name t] [Hname Hty]. simpl in Hname, Hty. subst name.
    eapply (runs_bind _ _ _ 0 0); [eapply span_since_runs; rewrite !step_step in Hi3; exact Hi3|].
    intros sp _. apply runs_ret. unfold same_as. rewrite Hu. simpl. by rewrite Hty.
Qed.

(** One round of [parameter_list]. *)
Definition parameter_round (params : list Param) : M (list Param + list Param) :=
  let! p := parameter r in
  let! more := matches Comma in
  if negb more then ret (inr (params ++ [p]))
  else let! close := check RightParen in ret (if close then inr (params ++ [p]) else inl (params ++ [p])).

Lemma parameter_rounds qs n v p w rest :
  forallb core_param qs = true -> qs <> [] -> length qs <= n -> plain_less (tokens p) ->
  input p = comma_tokens (map param_toks qs) ++ (RightParen, w) :: rest ->
  runs (rounds n parameter_round v) p (length (comma_tokens (map param_toks qs)))
    (fun v' => exists v2, v' = v ++ v2 /\ same_list unspan_param qs v2).
Proof.
  revert n v p. induction qs as [|q qs IH]; intros n v p Hc Hne Hn Hp Hi; [done|]. destruct n as [|n]; [simpl in Hn; lia|].
  cbn [rounds forallb] in *. apply andb_true_iff in Hc as [Hq Hqs]. destruct qs as [|q2 qs].
  - cbn [map comma_tokens] in *. eapply runs_len; [eapply (runs_bind _ _ _ (length (param_toks q)) 0 (fun x => exists a, x = inr (v ++ [a]) /\ same_as unspan_param q a))|lia].
    + unfold parameter_round. eapply runs_len; [|apply Nat.add_0_r].
      eapply runs_bind; [eapply parameter_reads; [exact Hq|exact Hp|exact Hi|done]|]. intros a Ha.
      eapply runs_matches_no; [exact (input_step _ _ _ _ Hi eq_refl)|done|]. apply runs_ret. eauto.
    + intros x (a & -> & Ha). apply runs_ret. exists [a]. split; [done|]. unfold same_list. cbn [map]. by rewrite Ha.
  - rewrite comma_tokens_cons, length_app in *. rewrite <- app_assoc in Hi. cbn [app] in Hi.
    pose proof (input_step _ _ _ _ Hi eq_refl) as Hi1. input_after Hi1 [comma] Hi2.
    assert (Hi2' : exists w2 ts, comma_tokens (map param_toks (q2 :: qs)) ++ (RightParen, w) :: rest = (Identifier, w2) :: ts).
    { apply andb_true_iff in Hqs as [(E & _)%param_core _]. destruct qs as [|q3 qs]; [cbn [map comma_tokens]|rewrite comma_tokens_cons];
        rewrite E; by repeat eexists. }
    destruct Hi2' as (w2 & ts & E2). pose proof Hi2 as Hi3. rewrite E2 in Hi3. cbn [length].
    eapply runs_len; [eapply (runs_bind _ _ _ (length (param_toks q) + 1) _ (fun x => exists a, x = inl (v ++ [a]) /\ same_as unspan_param q a))|].
    + unfold parameter_round. eapply runs_bind; [eapply parameter_reads; [exact Hq|exact Hp|exact Hi|done]|]. intros a Ha.
      eapply runs_matches_yes; [exact Hi1|done|]. cbn [negb]. eapply runs_check; [exact Hi3|]. known_test. apply runs_ret. eauto.
    + intros x (a & -> & Ha). eapply runs_weaken; [eapply (IH n (v ++ [a])); try done; [simpl in *; lia|]|].
      * rewrite step_step in Hi2. exact Hi2.
      * intros v' (v2 & -> & Hv). exists (a :: v2). rewrite <- app_assoc. split; [done|].
        unfold same_list, same_as in *. cbn [map] in *. by rewrite Ha, Hv.
    + lia.
Qed.

Lemma param_toks_length qs : forallb core_param qs = true -> length qs <= length (comma_tokens (map param_toks qs)).
Proof.
  induction qs as [|q qs IH]; [done|]. cbn [forallb]. intros [(E & _)%param_core Hqs]%andb_true_iff. specialize (IH Hqs).
  destruct qs as [|q2 qs]; [cbn [map comma_tokens]; rewrite E; simpl; lia|]. rewrite comma_tokens_cons, length_app, E. simpl in *. lia.
Qed.

Lemma parameter_list_reads qs :
  forallb core_param qs = true ->
  reads (parameter_list r) (comma_tokens (map param_toks qs)) (fun _ rest => bool_decide (next_kind rest = Some RightParen))
    (same_list unspan_param qs).
Proof.
  intros Hc p rest Hp Hi Hr%bool_decide_eq_true. destruct rest as [|[k w] rest]; [done|]. injection Hr as ->.
  unfold parameter_list. destruct qs as [|q qs].
  - eapply runs_check; [exact Hi|]. known_test. by apply runs_ret.
  - pose proof (input_length _ _ _ Hi) as Hl. pose proof (param_toks_length _ Hc) as Hq.
    assert (Hh : exists w2 ts, comma_tokens (map param_toks (q :: qs)) ++ (RightParen, w) :: rest = (Identifier, w2) :: ts).
    { cbn [forallb] in Hc. apply andb_true_iff in Hc as [(E & _)%param_core _].
      destruct qs as [|q3 qs]; [cbn [map comma_tokens]|rewrite comma_tokens_cons]; rewrite E; by repeat eexists. }
    destruct Hh as (w2 & ts & E). pose proof Hi as Hi'. rewrite E in Hi'. eapply runs_check; [exact Hi'|]. known_test.
    destruct (parameter_rounds (q :: qs) (S (length (tokens p))) [] p w rest) as (v & Ev & v2 & -> & Hv); try done; [lia|]. by exists v2.
Qed.

(** ** Constants and functions *)

Definition returns_toks (rt : option Ty) : list tk :=
  match rt with Some t => (Arrow, chars "->") :: type_toks t | None => [] end.

Lemma const_reads name t v sp :
  core_name name = true -> core_ty t = true -> reads (expr r) (toks 0 v) (follow 1) (same_as unspan v) ->
  reads (const_decl r false)
    ((Identifier, chars name) :: (Colon, chars ":") :: type_toks t ++ (Equal, chars "=") :: toks 0 v ++ [semicolon])
    (fun _ rest => negb (bool_decide (rest = []))) (same_as unspan_const (mkConstDecl name t v false sp)).
Proof.
  intros Hn Ht Hv p rest Hp Hi Hf%negb_true_iff%bool_decide_eq_false. destruct rest as [|[k w] rest]; [done|].
  simpl in Hi. rewrite <- app_assoc in Hi. simpl in Hi. rewrite <- app_assoc in Hi. simpl in Hi.
  input_after Hi [(Identifier, chars name)] Hi1. input_after Hi1 [(Colon, chars ":")] Hi2.
  pose proof (input_step _ _ _ _ Hi2 eq_refl) as Hi3. input_after Hi3 [(Equal, chars "=")] Hi4.
  pose proof (input_step _ _ _ _ Hi4 eq_refl) as Hi5. input_after Hi5 [semicolon] Hi6.
  cbn [length]. rewrite length_app. cbn [length]. rewrite length_app.
  unfold const_decl. eapply runs_previous; [exact Hi|]. intros prev.
  eapply runs_consume_identifier; [exact Hi|]. eapply runs_consume; [exact Hi1|done|]. intros t1 _.
  eapply runs_bind; [eapply (ty_reads r t Ht); [exact Hp|exact Hi2|done]|]. intros t' Ht'.
  eapply runs_consume; [exact Hi3|done|]. intros t2 _.
  eapply runs_bind; [eapply Hv; [exact Hp|exact Hi4|done]|]. intros v' Hv'.
  apply (runs_bind _ _ _ 1 0 (fun _ => True)); [by eapply semicolon_reads|]. intros _ _.
  apply (runs_bind _ _ _ 0 0 (fun _ => True)); [by eapply span_since_runs|]. intros s _.
  apply runs_ret. unfold same_as in *. simpl. by rewrite core_name_text, Ht', Hv'.
Qed.

(** The return type. *)
Lemma returns_reads rt p rest :
  match rt with Some t => core_ty t = true | None => True end -> plain_less (tokens p) ->
  input p = returns_toks rt ++ rest -> next_kind rest = Some LeftBrace ->
  runs (let! arrow := matches Arrow in opt_if arrow (existential_ty r)) p (length (returns_toks rt))
    (fun o => option_map unspan_ty o = option_map unspan_ty rt).
Proof.
  intros Hc Hp Hi Hn. destruct rest as [|[k w] rest]; [done|]. injection Hn as ->. destruct rt as [t|]; simpl in Hi.
  - input_after Hi [(Arrow, chars "->")] Hi1. take Hi. unfold opt_if. eapply runs_len; [|apply Nat.add_0_r].
    eapply (runs_bind _ _ _ _ _ (same_as unspan_ty t)); [|intros t' Ht'; apply runs_ret; unfold same_as in Ht'; simpl; by rewrite Ht'].
    destruct (ty_reads r t Hc (set_allow_existentials true (step p 1)) ((LeftBrace, w) :: rest)) as (a & E & Ha); [done|exact Hi1|done|].
    exists a. split; [|done]. unfold existential_ty, bind, get_allow_existentials, with_flag. rewrite E. done.
  - eapply runs_matches_no; [exact Hi|done|]. by apply runs_ret.
Qed.

Lemma fn_reads name qs rt b sp :
  core_name name = true -> forallb core_param qs = true -> match rt with Some t => core_ty t = true | None => True end ->
  reads (block r) (block_toks 0 b) (fun _ _ => true) (same_as unspan_block b) ->
  reads (function_decl r false false false None)
    ((Identifier, chars name) :: (LeftParen, chars "(") :: comma_tokens (map param_toks qs) ++ (RightParen, chars ")") ::
     returns_toks rt ++ block_toks 0 b)
    (fun _ rest => negb (bool_decide (rest = [])))
    (same_as unspan_fn (mkFnDecl name None [] qs rt b false false false false None [] sp)).
Proof.
  intros Hn Hq Ht Hb p rest Hp Hi Hf%negb_true_iff%bool_decide_eq_false. destruct rest as [|[k w] rest]; [done|].
  simpl in Hi. rewrite <- app_assoc in Hi. simpl in Hi. rewrite <- app_assoc in Hi. simpl in Hi.
  input_after Hi [(Identifier, chars name)] Hi1. input_after Hi1 [(LeftParen, chars "(")] Hi2.
  pose proof (input_step _ _ _ _ Hi2 eq_refl) as Hi3. input_after Hi3 [(RightParen, chars ")")] Hi4.
  pose proof (input_step _ _ _ _ Hi4 eq_refl) as Hi5. pose proof (input_step _ _ _ _ Hi5 eq_refl) as Hi6.
  destruct (block_first b 0) as (wb & tsb & Eb). pose proof Hi5 as Hi5'. rewrite Eb in Hi5'.
  cbn [length]. rewrite length_app. cbn [length]. rewrite length_app.
  unfold function_decl. eapply runs_previous; [exact Hi|]. intros prev. skip_tests Hi.
  eapply (runs_bind _ _ _ 1 _ (fun x => x = (name, None))).
  { eapply runs_consume_identifier; [exact Hi|]. rewrite core_name_text by done. by apply runs_ret. }
  intros x ->. eapply (runs_bind _ _ _ 0 _ (fun g => g = [])).
  { unfold generic_params. eapply runs_matches_no; [exact Hi1|done|]. by apply runs_ret. }
  intros g ->. rewrite step_0. eapply runs_consume; [exact Hi1|done|]. intros t1 _.
  eapply runs_bind; [eapply (parameter_list_reads qs Hq); [exact Hp|exact Hi2|done]|]. intros qs' Hqs'.
  eapply runs_consume; [exact Hi3|done|]. intros t2 _. apply runs_assoc.
  eapply runs_bind; [eapply (returns_reads rt); [exact Ht|exact Hp|exact Hi4|by rewrite Eb]|]. intros rt' Hrt'.
  eapply (runs_bind _ _ _ 0 _ (fun g => g = [])).
  { unfold where_clause. eapply runs_matches_no; [exact Hi5'|done|]. by apply runs_ret. }
  intros g ->. rewrite step_0. eapply runs_len; [|apply Nat.add_0_r].
  eapply runs_bind; [eapply Hb; [exact Hp|exact Hi5|done]|]. intros b' Hb'.
  eapply runs_previous; [exact Hi6|]. intros prev'. apply runs_ret. unfold same_as, same_list in *. simpl.
  by rewrite Hqs', Hrt', Hb'.
Qed.
End Items.

(** ** Items *)

Definition item_toks (i : Item) : list tk := token_kinds (item_pieces i).

Section Module_.
Context (r : Rec) (lt : bool).

(** The expressions and blocks of an item are read. *)
Definition item_ready (i : Item) : Prop :=
  match i with
  | IConst (mkConstDecl _ _ v _ _) => reads (expr r) (toks 0 v) (follow 1) (same_as unspan v)
  | IFn (mkFnDecl _ _ _ _ _ b _ _ _ _ _ _ _) => reads (block r) (block_toks 0 b) (fun _ _ => true) (same_as unspan_block b)
  | _ => True
  end.

Lemma const_tokens name t v p sp :
  core_name name = true ->
  item_toks (IConst (mkConstDecl name t v p sp)) =
  (Const, chars "const") :: (Identifier, chars name) :: (Colon, chars ":") :: type_toks t ++ (Equal, chars "=") :: toks 0 v ++ [semicolon].
Proof.
  intros Hn. unfold item_toks. cbn [item_pieces]. rewrite !token_kinds_app. cbn [token_kinds omap list_omap].
  rewrite (name_word name) by done. done.
Qed.

Lemma fn_tokens name ns g qs rt b p u i c x attrs sp :
  core_name name = true ->
  item_toks (IFn (mkFnDecl name ns g qs rt b p u i c x attrs sp)) =
  (Fn, chars "fn") :: (Identifier, chars name) :: (LeftParen, chars "(") :: comma_tokens (map param_toks qs) ++ (RightParen, chars ")") ::
     returns_toks rt ++ block_toks 0 b.
Proof.
  intros Hn. unfold item_toks. cbn [item_pieces]. rewrite !token_kinds_app, comma_pieces_tokens, map_map. cbn [token_kinds omap list_omap].
  rewrite (name_word name) by done. destruct rt; rewrite ?token_kinds_app; cbn [app token_kinds omap list_omap]; rewrite ?app_nil_r; done.
Qed.

Lemma no_attributes p k w rest : input p = (k, w) :: rest -> k <> Hash -> parse_outer_attributes r p = Done [] p.
Proof.
  intros Hi Hk. apply loop_stops. apply input_head in Hi as (t & Et & Hv & _). injection Hv as Hv _.
  unfold bind, check, bind, peek, at_index. rewrite Et. unfold ret at 1, is_kind. by rewrite bool_decide_false by congruence.
Qed.

Lemma item_reads i :
  core_item lt i = true -> item_ready i ->
  reads (item r) (item_toks i) (fun _ rest => negb (bool_decide (rest = [])))
    (fun l => exists i', l = [i'] /\ unspan_item i' = unspan_item i).
Proof.
  intros Hc Hr p rest Hp Hi Hf. destruct i as [d| | | | | |d|]; try done.
  - destruct d as [name [] [] qs rt b [] [] [] [] [] [] sp]; try done. cbn [core_item item_ready] in *.
    apply andb_true_iff in Hc as [[[Hn Hq]%andb_true_iff Ht]%andb_true_iff _].
    rewrite fn_tokens in * by done. cbn [app] in Hi. input_after Hi [(Fn, chars "fn")] Hi1.
    unfold item. eapply runs_check; [exact Hi|]. known_test. eapply runs_exact; [by eapply no_attributes|]. skip_tests Hi.
    unfold at_modifier. eapply runs_check_any; [exact Hi|]. known_test. take Hi. eapply runs_len; [|apply Nat.add_0_r].
    eapply runs_bind; [eapply (fn_reads r name qs rt b sp); [done|done|by destruct rt|done|exact Hp|exact Hi1|done]|].
    intros d Hd. apply runs_ret. eexists. split; [done|]. unfold same_as in Hd. simpl.
    destruct d. simpl in *. injection Hd as -> -> -> -> -> -> -> -> -> -> -> _. done.
  - destruct d as [name t v [] sp]; try done. cbn [core_item item_ready] in *.
    apply andb_true_iff in Hc as [[[Hn Ht]%andb_true_iff _]%andb_true_iff _].
    rewrite const_tokens in * by done. cbn [app] in Hi. input_after Hi [(Const, chars "const")] Hi1.
    unfold item. eapply runs_check; [exact Hi|]. known_test. eapply runs_exact; [by eapply no_attributes|]. skip_tests Hi.
    unfold at_modifier. eapply runs_check_any; [exact Hi|]. known_test. skip_tests Hi. take Hi. eapply runs_len; [|apply Nat.add_0_r].
    eapply runs_bind; [eapply (const_reads r name t v sp); [done|done|done|exact Hp|exact Hi1|done]|].
    intros d Hd. apply runs_ret. eexists. split; [done|]. unfold same_as in Hd. cbn [unspan_item]. by rewrite Hd.
Qed.

(** One round of [parse_module]. *)
Definition module_round (items : list Item) : M (list Item + list Item) :=
  let! stop := check Eof in
  if stop then ret (inr items) else let! new := item r in ret (inl (items ++ new)).

Lemma item_begins i : core_item lt i = true -> exists k w ts, item_toks i = (k, w) :: ts /\ k <> Eof /\ k <> Module_.
Proof.
  destruct i as [d| | | | | |d|]; try done; destruct d; intros Hc; unfold item_toks; cbn [item_pieces]; rewrite token_kinds_app; by repeat eexists.
Qed.

Lemma module_rounds items n acc p w :
  forallb (core_item lt) items = true -> Forall item_ready items -> length items < n -> plain_less (tokens p) ->
  input p = concat (map item_toks items) ++ [(Eof, w)] ->
  runs (rounds n module_round acc) p (length (concat (map item_toks items)))
    (fun v => exists v2, v = acc ++ v2 /\ map unspan_item v2 = map unspan_item items).
Proof.
  intros Hc HF. revert n acc p. induction HF as [|i items Hr HF IH]; intros n acc p Hn Hp Hi; (destruct n as [|n]; [simpl in Hn; lia|]); cbn [rounds].
  - apply (runs_bind _ _ _ 0 0 (fun x => x = inr acc)).
    + eapply runs_check; [exact Hi|]. known_test. by apply runs_ret.
    + intros x ->. apply runs_ret. exists []. by rewrite app_nil_r.
  - cbn [forallb map concat] in *. apply andb_true_iff in Hc as [Hci Hc]. rewrite <- app_assoc in Hi. rewrite length_app.
    eapply (runs_bind _ _ _ _ _ (fun x => exists i', x = inl (acc ++ [i']) /\ unspan_item i' = unspan_item i)).
    + destruct (item_begins i Hci) as (k & wk & ts & E & Hk & _). pose proof Hi as Hi'. rewrite E in Hi'.
      eapply runs_check; [exact Hi'|]. rewrite bool_decide_false by done. eapply runs_len; [|apply Nat.add_0_r].
      eapply runs_bind; [eapply item_reads; [exact Hci|exact Hr|exact Hp|exact Hi|]|].
      * apply negb_true_iff, bool_decide_eq_false. intros H%app_eq_nil. naive_solver.
      * intros l (i' & -> & Hi2). apply runs_ret. eauto.
    + intros x (i' & -> & Hi2). eapply runs_weaken; [eapply (IH Hc n (acc ++ [i']))|].
      * simpl in Hn. lia.
      * done.
      * exact (input_step _ _ _ _ Hi eq_refl).
      * intros v (v2 & -> & Hv). exists (i' :: v2). rewrite <- app_assoc. split; [done|]. cbn [map]. by rewrite Hi2, Hv.
Qed.

Definition header_toks (d : option ModuleDecl) : list tk :=
  match d with Some d => [(Module_, chars "module"); (Identifier, chars (md_name d)); semicolon] | None => [] end.

Lemma items_tokens l : token_kinds (items_pieces l) = concat (map item_toks l).
Proof.
  induction l as [|i l IH]; [done|]. destruct l as [|j l]; [simpl; by rewrite app_nil_r|].
  change (items_pieces (i :: j :: l)) with (item_pieces i ++ [line; line] ++ items_pieces (j :: l)).
  rewrite !token_kinds_app, IH. done.
Qed.

Lemma module_tokens m : core_module lt m = true -> token_kinds (module_pieces m) = header_toks (module_name m) ++ concat (map item_toks (items m)).
Proof.
  unfold core_module. intros [Hn Hi]%andb_true_iff. rewrite <- items_tokens. unfold module_pieces.
  assert (Hh : forall ps : list piece, token_kinds (if is_nil ps then [] else ps ++ [line]) = token_kinds ps).
  { intros [|q ps]; [done|]. cbn [is_nil]. by rewrite token_kinds_app, app_nil_r. }
  assert (E : token_kinds match module_name m with
    | Some d => [word "module"; blank; word (md_name d); sym ";"] ++ if is_nil (items m) then [] else [line; line]
    | None => [] end = header_toks (module_name m)).
  { destruct (module_name m) as [d|]; [|done]. rewrite token_kinds_app, (name_word (md_name d)) by done. by destruct (is_nil (items m)). }
  by rewrite Hh, token_kinds_app, E.
Qed.

Lemma header_reads d p rest :
  match d with Some d => core_name (md_name d) = true | None => True end -> input p = header_toks d ++ rest ->
  rest <> [] -> next_kind rest <> Some Module_ ->
  runs module_decl p (length (header_toks d))
    (fun d' => option_map (fun d => mkModuleDecl (md_name d) nowhere) d' = option_map (fun d => mkModuleDecl (md_name d) nowhere) d).
Proof.
  intros Hn Hi Hne Hk. destruct rest as [|[k w] rest]; [done|]. destruct d as [d|]; simpl in Hi; unfold module_decl.
  - input_after Hi [(Module_, chars "module")] Hi1. input_after Hi1 [(Identifier, chars (md_name d))] Hi2. input_after Hi2 [semicolon] Hi3.
    take Hi. cbn [negb]. eapply runs_previous_step; [exact Hi|done|]. intros t _. eapply runs_consume_identifier; [exact Hi1|].
    apply (runs_bind _ _ _ 1 0 (fun _ => True)); [by eapply semicolon_reads|]. intros _ _.
    apply (runs_bind _ _ _ 0 0 (fun _ => True)); [by eapply span_since_runs|]. intros s _.
    apply runs_ret. simpl. by rewrite core_name_text.
  - eapply runs_matches_no; [exact Hi|apply bool_decide_eq_false; intros ->; by apply Hk|]. by apply runs_ret.
Qed.

Lemma concat_begins l w : forallb (core_item lt) l = true ->
  exists k wk ts, concat (map item_toks l) ++ [(Eof, w)] = (k, wk) :: ts /\ k <> Module_.
Proof.
  destruct l as [|i l]; [intros _; by repeat eexists|]. cbn [forallb map concat]. intros [Hi _]%andb_true_iff.
  destruct (item_begins i Hi) as (k & wk & ts & -> & _ & Hk). by repeat eexists.
Qed.

Lemma items_length l : forallb (core_item lt) l = true -> length l <= length (concat (map item_toks l)).
Proof.
  induction l as [|i l IH]; [done|]. cbn [forallb map concat]. intros [Hi Hl]%andb_true_iff. specialize (IH Hl).
  destruct (item_begins i Hi) as (k & wk & ts & -> & _). rewrite length_app. simpl in *. lia.
Qed.

Lemma module_reads m p w :
  core_module lt m = true -> Forall item_ready (items m) -> plain_less (tokens p) ->
  input p = token_kinds (module_pieces m) ++ [(Eof, w)] ->
  runs (module_items r) p (length (token_kinds (module_pieces m))) (fun m' => unspan_module m' = unspan_module m).
Proof.
  intros Hc HF Hp Hi. rewrite (module_tokens m Hc) in *. unfold core_module in Hc. apply andb_true_iff in Hc as [Hn Hci].
  rewrite <- app_assoc in Hi. destruct (concat_begins (items m) w Hci) as (k & wk & ts & E & Hk).
  pose proof (input_step _ _ _ _ Hi eq_refl) as Hi1. pose proof (input_step _ _ _ _ Hi1 eq_refl) as Hi2. rewrite length_app.
  unfold module_items. assert (Hfirst : exists k0 w0 ts0, input p = (k0, w0) :: ts0).
  { rewrite Hi, E. destruct (module_name m); by repeat eexists. }
  destruct Hfirst as (k0 & w0 & ts0 & Hi0). eapply runs_peek; [exact Hi0|]. intros t0 _.
  eapply runs_bind; [eapply (header_reads (module_name m)); [by destruct (module_name m)|exact Hi| |]|].
  { rewrite E. done. }
  { rewrite E. by intros [= ->]. }
  intros d' Hd. eapply runs_len; [|apply Nat.add_0_r]. eapply runs_bind.
  - eapply (module_rounds (items m) (S (length (tokens p))) []); [done|done| |done|exact Hi1].
    pose proof (items_length _ Hci). pose proof (input_length _ _ _ Hi1). simpl in *. lia.
  - intros v (v2 & -> & Hv). eapply runs_peek; [exact Hi2|]. intros t1 _. apply runs_ret. unfold unspan_module. simpl.
    by rewrite Hd, Hv.
Qed.
End Module_.
