(* ===== verification/RoundTrip.v ===== *)
(** Printing a core program and reading the text back gives the program.

    By induction over the core: at every level of the grammar the parser reads
    the tokens of an expression as that expression, with as many levels of
    recursion as the expression has tokens; then the same for declarations and
    modules, and for the texts that the formatter writes. *)
From S2P Require Import Prelude Floats Span Diag Lex Ast ParseBase Parse ParseLogic Fmt Pieces Core Printed Spelling Reread RereadExpr RereadBlock RereadItem.
Open Scope nat_scope.

(** ** Expressions *)

Lemma comma_expr_tokens n xs : token_kinds (comma_pieces (map (expr_pieces n) xs)) = comma_tokens (map (toks n) xs).
Proof. rewrite comma_pieces_tokens, map_map. done. Qed.

Lemma comma_tokens_elem {A} (f : A -> list tk) x xs : x ∈ xs -> length (f x) <= length (comma_tokens (map f xs)).
Proof.
  induction xs as [|y xs IH]; [intros H; by apply elem_of_nil in H|]. intros [->|H]%elem_of_cons.
  - destruct xs; [done|]. rewrite comma_tokens_cons, length_app. lia.
  - specialize (IH H). destruct xs; [by apply elem_of_nil in H|]. rewrite comma_tokens_cons, length_app. simpl in *. lia.
Qed.

(** What the parser reads for [e], with [m] levels of recursion. *)
Record expr_reread (e : Expr) (n m : nat) : Prop := {
  reread_return : is_return e = true -> reads (level (parsers m) 1) (toks n e) statement_end (same e);
  reread_lead : is_return e = false -> lead (parsers m) (is_field e) (expr_precedence e) (toks n e) (same e);
  reread_atom : is_block_like e = true -> reads (primary (parsers m)) (toks n e) no_else (same e);
  reread_else :
    match e with
    | EIf _ _ _ _ => reads (if_expr (parsers m)) (tail (toks n e)) no_else (same e)
    | EBlock b => reads (block (parsers m)) (block_toks n b) (fun _ _ => true) (same_block b)
    | _ => True
    end }.

Definition expr_ok (e : Expr) : Prop :=
  forall lt n m, core_expr lt e = true -> length (toks n e) <= m -> expr_reread e n m.
Definition block_ok (b : Block) : Prop :=
  forall lt n m, core_block lt b = true -> length (block_toks n b) <= S m ->
    reads (block (parsers m)) (block_toks n b) (fun _ _ => true) (same_block b).

Lemma precedence_range e : 1 <= expr_precedence e <= 12.
Proof. destruct e as [| | | | | | | | | | |[]| | | | | | | | | | | | | | | | | | |]; simpl; lia. Qed.

Section Operand.
Context (lt : bool) (n : nat) (x : Expr) (Hx : expr_ok x) (Hc : core_expr lt x = true) (Hr : is_return x = false).

Lemma toks_atom : expr_precedence x = 12 -> atom_first (toks n x).
Proof. intros H. destruct (expr_first x lt n Hc) as (k & [(w & ts & E & _) _ Ha _ _]). exists k, w, ts. auto. Qed.

Lemma toks_nonempty : toks n x <> [].
Proof. destruct (expr_first x lt n Hc) as (k & [F _ _ _ _]). by eapply first_nonempty. Qed.

Lemma toks_start : exists k, first (toks n x) k /\ k ∈ starters.
Proof. destruct (expr_first x lt n Hc) as (k & [F S _ _ _]). eauto. Qed.

Lemma operand_lead l m :
  length (toks n x) <= m -> 1 <= l <= expr_precedence x -> lead (parsers m) (is_field x) l (toks n x) (same x).
Proof.
  intros Hm Hl. eapply (lead_climb _ _ (expr_precedence x)); [lia|apply precedence_range|apply toks_nonempty|apply toks_atom|].
  by apply (Hx lt n m).
Qed.

Lemma operand_reads l m :
  length (toks n x) <= m -> 1 <= l <= expr_precedence x -> reads (level (parsers m) l) (toks n x) (follow l) (same x).
Proof. intros Hm Hl. eapply lead_reads; [pose proof (precedence_range x); lia|by apply operand_lead]. Qed.

Lemma operand_r_expr m : length (toks n x) <= m -> reads (r_expr (parsers (S m))) (toks n x) (follow 1) (same x).
Proof. intros Hm. apply (operand_reads 1 m Hm). pose proof (precedence_range x). lia. Qed.

Lemma operand_item close m :
  length (toks n x) <= m -> close ∉ Eof :: starters -> item_of (parsers (S m)) (toks n) close x.
Proof.
  intros Hm Hk. destruct toks_start as (k & F & S). split; [|split].
  - by apply operand_r_expr.
  - by eapply first_no_label.
  - destruct F as (w & ts & E & _). exists k, w, ts. split; [done|]. split; [|by intros ->; revert S; kind_in].
    intros ->. apply Hk. by right.
Qed.

Lemma wrapped_lead l m :
  1 <= l <= 12 -> length (token_kinds (wrapped x l (expr_pieces n x))) <= m ->
  lead (parsers m) (is_field x) l (token_kinds (wrapped x l (expr_pieces n x))) (same x).
Proof.
  intros Hl Hm. unfold wrapped in *. destruct (Nat.ltb_spec (expr_precedence x) l) as [Hlt|Hge].
  - rewrite !token_kinds_app in *. fold (toks n x) in *. cbn [app] in *. rewrite !length_app in Hm. simpl in Hm. destruct m as [|m]; [lia|].
    apply (lead_climb _ _ 12); [lia|lia|done| |].
    + intros _. exists LeftParen, (chars "("), (toks n x ++ [(RightParen, chars ")")]). split; [done|kind_in].
    + apply primary_leads; [done|]. apply parens_reads.
      destruct (operand_item RightParen m) as (H1 & H2 & H3); [lia|kind_in|]. exact (conj H1 (conj H2 H3)).
  - apply operand_lead; [done|lia].
Qed.

Lemma wrapped_r_unary m :
  length (token_kinds (wrapped x 11 (expr_pieces n x))) <= m ->
  reads (r_unary (parsers (S m))) (token_kinds (wrapped x 11 (expr_pieces n x))) (follow 11) (same x).
Proof. intros Hm. eapply (lead_reads (parsers m) _ 11); [lia|]. apply wrapped_lead; [lia|done]. Qed.

Lemma wrapped_first l : exists k, first (token_kinds (wrapped x l (expr_pieces n x))) k /\ k ∈ starters.
Proof.
  unfold wrapped. destruct (_ <? _); [|apply toks_start]. exists LeftParen. rewrite !token_kinds_app.
  split; [by repeat eexists|kind_in].
Qed.
End Operand.

Lemma items_ready lt n m close xs :
  Forall expr_ok xs -> forallb (fun x => negb (is_return x) && core_expr lt x) xs = true ->
  length (comma_tokens (map (toks n) xs)) <= m -> close ∉ Eof :: starters ->
  Forall (item_of (parsers (S m)) (toks n) close) xs.
Proof.
  intros HF Hc%forallb_true Hm Hk. rewrite Forall_forall in HF, Hc |- *. intros x Hx.
  specialize (Hc x Hx). apply andb_true_iff in Hc as [Hr%negb_true_iff Hc].
  eapply operand_item; [by apply HF|done|done| |done]. pose proof (comma_tokens_elem (toks n) x xs Hx). lia.
Qed.

(** An expression in the place of a statement. *)
Lemma stmt_expr_of lt n m e : expr_ok e -> core_expr lt e = true -> length (toks n e) <= m -> stmt_expr (parsers m) n e.
Proof.
  intros He Hc Hm. destruct (He lt n m Hc Hm) as [Hret Hlead Hat _]. split; [|done].
  destruct (is_return e) eqn:Er; [by apply Hret|].
  eapply reads_after; [eapply (operand_reads lt n e He Hc Er 1); [done|]|apply statement_end_follow].
  pose proof (precedence_range e). lia.
Qed.

Lemma stmts_ready lt n m none_tail stmts :
  Forall (on_stmt expr_ok) stmts -> forallb (core_stmt lt) stmts = true ->
  length (token_kinds (stmts_pieces n none_tail stmts)) <= m -> Forall (stmt_ready (parsers m) n lt) stmts.
Proof.
  intros HF Hc Hm. induction HF as [|s stmts Hs HF IH]; [constructor|]. cbn [forallb stmts_pieces] in *.
  apply andb_true_iff in Hc as [Hc Hcs]. rewrite token_kinds_app, length_app in Hm. constructor; [|apply IH; [done|lia]].
  split; [done|]. destruct s as [[mu pat t v sp]|e|i]; [| |done].
  - destruct v as [v|]; [|done]. destruct pat; try done. cbn [core_stmt on_stmt] in *.
    apply andb_true_iff in Hc as [[Hn Ht]%andb_true_iff [_ Hv]%andb_true_iff].
    rewrite let_tokens in Hm by done. cbn [value_toks length] in Hm. rewrite !length_app in Hm. cbn [length] in Hm.
    rewrite !length_app in Hm. cbn [length] in Hm. apply (stmt_expr_of lt); [done|done|lia].
  - cbn [core_stmt on_stmt stmt_pieces] in *. apply andb_true_iff in Hc as [_ Hc].
    rewrite !token_kinds_app, !length_app in Hm. apply (stmt_expr_of lt); [done|done|]. unfold toks. lia.
Qed.

(** Puts together the reading of an expression that is not block-like. *)
Lemma reread_plain e n m :
  is_return e = false -> is_block_like e = false ->
  lead (parsers m) (is_field e) (expr_precedence e) (toks n e) (same e) -> expr_reread e n m.
Proof. intros Hr Hl H. split; [congruence|done|congruence|by destruct e]. Qed.

Lemma reread_block_like e n m :
  is_return e = false -> expr_precedence e = 12 -> toks n e <> [] -> reads (primary (parsers m)) (toks n e) no_else (same e) ->
  match e with
  | EIf _ _ _ _ => reads (if_expr (parsers m)) (tail (toks n e)) no_else (same e)
  | EBlock b => reads (block (parsers m)) (block_toks n b) (fun _ _ => true) (same_block b)
  | _ => True
  end -> expr_reread e n m.
Proof.
  intros Hr Hp Hne H Hif. split; [congruence| |done|done]. intros _. rewrite Hp. apply primary_leads; [done|].
  eapply reads_after; [exact H|apply follow_no_else].
Qed.

(** Splits the conditions of the core. *)
Ltac operands :=
  repeat match goal with
  | H : (_ && _) = true |- _ => apply andb_true_iff in H as [? ?]
  | H : negb (is_return _) = true |- _ => apply negb_true_iff in H
  end.

(** The tokens of an expression, from its pieces. *)
Ltac open_tokens :=
  unfold toks in *; cbn [expr_pieces] in *; rewrite ?token_kinds_app, ?comma_expr_tokens in *;
  cbn [token_kinds omap list_omap app] in *.

(** The tokens of an operand, in parentheses when it binds less tightly than [l]. *)
Notation wtoks n l x := (token_kinds (wrapped x l (expr_pieces n x))).

(** Enters the case of an expression. *)
Ltac ok_case :=
  intros; intros lt n fuel Hc Hm; cbn [core_expr core_block] in Hc; operands.

(** The tokens of an expression are [ts], and one level of recursion is left for its parts. *)
Ltac with_tokens e ts :=
  match goal with Hm : length (toks ?n e) <= ?fuel |- _ =>
    let Et := fresh "Et" in
    assert (Et : toks n e = ts) by (open_tokens; cbn [app]; rewrite <- ?app_assoc; done);
    rewrite Et in Hm; cbn [length] in Hm; rewrite ?length_app in Hm; cbn [length] in Hm; rewrite ?length_app in Hm; cbn [length] in Hm;
    destruct fuel as [|fuel]; [lia|]; rewrite ?Et
  end.

Lemma literal_reread l sp : expr_ok (ELiteral l sp).
Proof.
  ok_case. apply reread_plain; [done..|]. apply primary_leads; [by destruct l|]. destruct l as [z| |b| |]; try done.
  - apply int_reads, parse_int_show. operands. lia.
  - destruct b; [apply (bool_reads _ true)|apply (bool_reads _ false)].
Qed.

Lemma ident_reread name sp : expr_ok (EIdent name sp).
Proof.
  ok_case. apply reread_plain; [done..|]. unfold toks. cbn [expr_pieces]. rewrite name_token by done. apply primary_leads; [done|].
  by apply ident_reads.
Qed.

Lemma block_expr_reread b : block_ok b -> expr_ok (EBlock b).
Proof.
  ok_case. destruct (block_first b n) as (w & ts & E). change (toks n (EBlock b)) with (block_toks n b) in *.
  apply reread_block_like; change (toks n (EBlock b)) with (block_toks n b); [done|done|by rewrite E| |].
  - destruct fuel as [|fuel]; [rewrite E in Hm; simpl in Hm; lia|].
    eapply reads_after; [apply block_atom|done]. by apply (H lt n fuel).
  - apply (H lt n fuel); [done|lia].
Qed.

Definition else_toks (n : nat) (f : option Expr) : list tk :=
  match f with Some x => (Else_, chars "else") :: toks n x | None => [] end.

Lemma if_reread c t f sp : expr_ok c -> block_ok t -> on_option expr_ok f -> expr_ok (EIf c t f sp).
Proof.
  ok_case. assert (Et : toks n (EIf c t f sp) = (If_, chars "if") :: toks n c ++ block_toks n t ++ else_toks n f).
  { open_tokens. destruct f; rewrite ?token_kinds_app; done. }
  rewrite Et in Hm. cbn [length] in Hm. rewrite !length_app in Hm. destruct fuel as [|fuel]; [lia|].
  assert (Hif : reads (if_expr (parsers (S fuel))) (toks n c ++ block_toks n t ++ else_toks n f) no_else (same (EIf c t f sp))).
  { apply (if_reads _ n).
    - apply (operand_r_expr lt n c); [done..|lia].
    - by eapply toks_start.
    - apply (H0 lt n fuel); [done|lia].
    - destruct f as [x|]; [|apply no_else_read]. operands. cbn [else_toks length] in *.
      destruct (H1 lt n fuel) as [_ _ _ Helse]; [done|lia|]. destruct x; try done.
      + by apply else_block_read.
      + apply else_if_read. exact Helse. }
  apply reread_block_like; [done|done|by rewrite Et| |]; rewrite Et; [by apply if_atom|exact Hif].
Qed.

Lemma loop_reread b sp : block_ok b -> expr_ok (ELoop b sp).
Proof.
  ok_case. with_tokens (ELoop b sp) ((Loop, chars "loop") :: block_toks n b).
  apply reread_block_like; [done|done|done| |done]. rewrite Et. eapply reads_after; [apply loop_atom|done].
  apply (H lt n fuel); [done|lia].
Qed.

Lemma while_reread c b sp : expr_ok c -> block_ok b -> expr_ok (EWhile c b sp).
Proof.
  ok_case. with_tokens (EWhile c b sp) ((While, chars "while") :: toks n c ++ block_toks n b).
  apply reread_block_like; [done|done|by rewrite Et| |done]. rewrite Et. eapply reads_after; [apply while_atom|done].
  - apply (operand_r_expr lt n c); [done..|lia].
  - by eapply toks_start.
  - apply (H0 lt n fuel); [done|lia].
Qed.

Lemma call_reread x tys args sp : expr_ok x -> Forall expr_ok args -> expr_ok (ECall x tys args sp).
Proof.
  ok_case. destruct tys; [|done].
  with_tokens (ECall x [] args sp) (wtoks n 12 x ++ (LeftParen, chars "(") :: comma_tokens (map (toks n) args) ++ [(RightParen, chars ")")]).
  apply reread_plain; [done..|]. rewrite Et. apply (call_leads _ _ _ (is_field x)); [|by apply negb_true_iff|].
  - apply (wrapped_lead lt); [done..|lia|lia].
  - apply (items_ready lt); [done|done|lia|kind_in].
Qed.

Lemma method_reread x m args sp : expr_ok x -> Forall expr_ok args -> expr_ok (EMethodCall x m args sp).
Proof.
  ok_case. assert (Et : toks n (EMethodCall x m args sp) = wtoks n 12 x ++ (Dot, chars ".") :: (Identifier, chars m) :: (LeftParen, chars "(") ::
    comma_tokens (map (toks n) args) ++ [(RightParen, chars ")")]).
  { open_tokens. by rewrite name_word. }
  rewrite Et in Hm. rewrite length_app in Hm. cbn [length] in Hm. rewrite length_app in Hm. destruct fuel as [|fuel]; [lia|].
  apply reread_plain; [done..|]. rewrite Et. apply (method_leads _ _ _ (is_field x)); [|done|].
  - apply (wrapped_lead lt); [done..|lia|lia].
  - apply (items_ready lt); [done|done|lia|kind_in].
Qed.

Lemma field_reread x f sp : expr_ok x -> expr_ok (EField x f sp).
Proof.
  ok_case. assert (Et : toks n (EField x f sp) = wtoks n 12 x ++ [(Dot, chars "."); (Identifier, chars f)]).
  { open_tokens. by rewrite name_word. }
  rewrite Et in Hm. rewrite length_app in Hm. apply reread_plain; [done..|]. rewrite Et.
  apply (field_leads _ _ (is_field x)); [|done]. apply (wrapped_lead lt); [done..|lia|lia].
Qed.

Lemma index_reread x is_ sp : expr_ok x -> Forall expr_ok is_ -> expr_ok (EIndex x is_ sp).
Proof.
  ok_case.
  with_tokens (EIndex x is_ sp) (wtoks n 12 x ++ (LeftBracket, chars "[") :: comma_tokens (map (toks n) is_) ++ [(RightBracket, chars "]")]).
  apply reread_plain; [done..|]. rewrite Et. apply (index_leads _ _ _ (is_field x)).
  - apply (wrapped_lead lt); [done..|lia|lia].
  - by destruct is_.
  - apply (items_ready lt); [done|done|lia|kind_in].
Qed.

Lemma try_reread x sp : expr_ok x -> expr_ok (ETry x sp).
Proof.
  ok_case. with_tokens (ETry x sp) (wtoks n 12 x ++ [(Question, chars "?")]).
  apply reread_plain; [done..|]. rewrite Et. apply (try_leads _ _ (is_field x)). apply (wrapped_lead lt); [done..|lia|lia].
Qed.

Lemma tuple_reread xs sp : Forall expr_ok xs -> expr_ok (ETuple xs sp).
Proof.
  ok_case. with_tokens (ETuple xs sp) ((LeftParen, chars "(") :: comma_tokens (map (toks n) xs) ++ [(RightParen, chars ")")]).
  apply reread_plain; [done..|]. rewrite Et. apply primary_leads; [done|]. apply tuple_reads.
  - apply (items_ready lt); [done|done|lia|kind_in].
  - by apply Nat.eqb_neq, negb_true_iff.
Qed.

Lemma unary_reread op x sp : expr_ok x -> expr_ok (EUnary op x sp).
Proof.
  ok_case. assert (Et : toks n (EUnary op x sp) = (prefix_token op, chars (unary_op_str op)) :: wtoks n 11 x) by (open_tokens; by destruct op).
  rewrite Et in Hm. cbn [length] in Hm. destruct fuel as [|fuel]; [lia|].
  apply reread_plain; [done..|]. rewrite Et. apply unary_leads. apply (wrapped_r_unary lt); [done..|lia].
Qed.

Lemma borrow_reread m x sp : expr_ok x -> expr_ok (EBorrow m x sp).
Proof.
  ok_case. assert (Et : toks n (EBorrow m x sp) = (Ampersand, chars "&") :: (if m then [(Mut, chars "mut")] else []) ++ wtoks n 11 x)
    by (open_tokens; by destruct m).
  rewrite Et in Hm. cbn [length] in Hm. rewrite length_app in Hm. destruct fuel as [|fuel]; [lia|].
  destruct (wrapped_first lt n x ltac:(done) 11) as (k & F & S).
  apply reread_plain; [done..|]. rewrite Et. apply borrow_leads.
  - apply (wrapped_r_unary lt); [done..|lia].
  - by eapply first_nonempty.
  - intros _. rewrite (first_kind _ _ F). intros [= ->]. revert S. kind_in.
Qed.

Lemma wrapped_least x n : wrapped x 1 (expr_pieces n x) = expr_pieces n x.
Proof. unfold wrapped. destruct (Nat.ltb_spec (expr_precedence x) 1); [|done]. pose proof (precedence_range x). lia. Qed.

Lemma assign_reread l r sp : expr_ok l -> expr_ok r -> expr_ok (EAssign l r sp).
Proof.
  ok_case. assert (Et : toks n (EAssign l r sp) = wtoks n 2 l ++ (Equal, chars "=") :: toks n r).
  { pose proof (wrapped_least r n) as Hw. open_tokens. by rewrite Hw. }
  rewrite Et in Hm. rewrite length_app in Hm. cbn [length] in Hm. destruct fuel as [|fuel]; [lia|].
  apply reread_plain; [done..|]. rewrite Et. apply (assign_leads _ (is_field l)).
  - apply (wrapped_lead lt); [done..|lia|lia].
  - apply (operand_r_expr lt); [done..|lia].
Qed.

(** The token of a binary operator. *)
Definition operator_token (op : BinaryOp) : tk :=
  (match symbol (chars (bin_op_str op)) with Some (k, _) => k | None => Error_ end, chars (bin_op_str op)).

Lemma operator_known op :
  core_op true op = true \/ core_op false op = true ->
  if is_comparison op then operator_of comparison_operators (operator_token op).1 = Some op
  else let l := expr_precedence (EBinary op (ETuple [] nowhere) (ETuple [] nowhere) nowhere) in
       associative l = true /\ operator_of (operators_of l) (operator_token op).1 = Some op.
Proof. intros [|]; destruct op; done. Qed.

(** Only comparisons have the precedence of comparisons. *)
Lemma wrapped_comparison x n : compares x = false -> wrapped x 4 (expr_pieces n x) = wrapped x 5 (expr_pieces n x).
Proof.
  intros Hx. unfold wrapped. destruct (Nat.ltb_spec (expr_precedence x) 4), (Nat.ltb_spec (expr_precedence x) 5); try done; [lia|].
  exfalso. assert (E : expr_precedence x = 4) by lia. clear -E Hx.
  destruct x as [| | | | | | | | | | |[]| | | | | | | | | | | | | | | | | | |]; done.
Qed.

Lemma binary_reread op l r sp : expr_ok l -> expr_ok r -> expr_ok (EBinary op l r sp).
Proof.
  ok_case. assert (Et : toks n (EBinary op l r sp) =
    wtoks n (expr_precedence (EBinary op l r sp)) l ++ operator_token op :: wtoks n (expr_precedence (EBinary op l r sp) + 1) r).
  { open_tokens. done. }
  rewrite Et in Hm. rewrite length_app in Hm. cbn [length] in Hm.
  apply reread_plain; [done..|]. rewrite Et. rewrite (surjective_pairing (operator_token op)).
  pose proof (operator_known op ltac:(destruct lt; auto)) as Hop. destruct (is_comparison op) eqn:Ec.
  - assert (Ep : expr_precedence (EBinary op l r sp) = 4) by (by destruct op). rewrite Ep in *. change (4 + 1) with 5 in *.
    destruct (wrapped_first lt n r ltac:(done) 5) as (k & F & S).
    apply (comparison_leads _ (is_field l) (is_field r)); [done| | |by eapply first_nonempty| |].
    + rewrite (first_kind _ _ F). intros [= ->]. revert S. kind_in.
    + rewrite (first_kind _ _ F). intros [= ->]. revert S. kind_in.
    + rewrite wrapped_comparison in * by (apply negb_true_iff; done). apply (wrapped_lead lt); [done..|lia|lia].
    + apply (wrapped_lead lt); [done..|lia|simpl in *; lia].
  - destruct Hop as [Ha Hop]. apply (binary_leads _ (is_field l) (is_field r)); [done|done| |].
    + apply (wrapped_lead lt); [done..| |lia]. apply precedence_range.
    + rewrite <- Nat.add_1_r. apply (wrapped_lead lt); [done..| |lia]. destruct op; simpl; done || lia.
Qed.

Lemma return_reread v sp : on_option expr_ok v -> expr_ok (EReturn v sp).
Proof.
  ok_case. split; [|done|done|done]. intros _. destruct v as [v|].
  - cbn [core_expr] in Hc. operands. with_tokens (EReturn (Some v) sp) ((Return, chars "return") :: toks n v).
    apply return_value_reads; [|by eapply toks_start]. apply (operand_r_expr lt); [done..|lia].
  - apply return_reads.
Qed.

Lemma break_reread v sp : expr_ok (EBreak v sp).
Proof. ok_case. destruct v; [done|]. apply reread_plain; [done..|]. apply primary_leads; [done|]. apply break_reads. Qed.

Lemma continue_reread sp : expr_ok (EContinue sp).
Proof. ok_case. apply reread_plain; [done..|]. apply primary_leads; [done|]. apply continue_reads. Qed.

Lemma stmts_reread stmts tail sp : Forall (on_stmt expr_ok) stmts -> on_option expr_ok tail -> block_ok (mkBlock stmts tail sp).
Proof.
  intros HF Ht lt n fuel Hc Hm. cbn [core_block] in Hc. operands. rewrite block_tokens in Hm. cbn [length] in Hm.
  rewrite !length_app in Hm. cbn [length] in Hm. apply (block_reads _ lt).
  - eapply stmts_ready; [done|done|]. instantiate (1 := is_none tail). lia.
  - destruct tail as [e|]; [|done]. operands. do 2 (split; [done|]). apply (stmt_expr_of lt); [done|done|]. unfold tail_toks in Hm. lia.
Qed.

Lemma expr_block_ok : (forall e, expr_ok e) /\ (forall b, block_ok b).
Proof.
  apply core_ind.
  - intros e H _ lt n fuel Hc. by rewrite H in Hc.
  - exact literal_reread.
  - exact ident_reread.
  - exact block_expr_reread.
  - exact if_reread.
  - exact loop_reread.
  - exact while_reread.
  - exact call_reread.
  - exact method_reread.
  - exact binary_reread.
  - exact unary_reread.
  - exact borrow_reread.
  - exact assign_reread.
  - exact field_reread.
  - exact index_reread.
  - exact try_reread.
  - exact tuple_reread.
  - exact return_reread.
  - exact break_reread.
  - exact continue_reread.
  - exact stmts_reread.
Qed.

(** ** Angle brackets

    A core program has one of the two brackets at most, so that no [<] starts
    generic arguments. *)
Definition quiet_piece (lt : bool) (p : piece) : bool :=
  match p with Tk k _ => negb (bool_decide (k = if lt then Greater else Less)) | Sp _ => true end.

Section Quiet.
Context (lt : bool).
Notation quiet ps := (forallb (quiet_piece lt) ps = true).

Lemma quiet_app a b : quiet a -> quiet b -> quiet (a ++ b).
Proof. intros Ha Hb. by rewrite forallb_app, Ha, Hb. Qed.

Lemma quiet_name name : core_name name = true -> quiet [word name].
Proof. intros H. rewrite (name_word name H). by destruct lt. Qed.

Lemma quiet_commas l : Forall (fun ps => quiet ps) l -> quiet (comma_pieces l).
Proof.
  intros HF. induction HF as [|ps l Hp HF IH]; [done|]. destruct l as [|ps2 l]; [done|].
  apply quiet_app; [done|]. apply quiet_app; [by destruct lt|done].
Qed.

Lemma quiet_wrapped e k ps : quiet ps -> quiet (wrapped e k ps).
Proof. intros H. unfold wrapped. destruct (_ <? _); [|done]. repeat apply quiet_app; try done; by destruct lt. Qed.

Lemma quiet_margin n : quiet (margin n).
Proof. unfold margin. by induction (4 * n). Qed.

Lemma quiet_ty t : core_ty t = true -> quiet (ty_pieces t).
Proof.
  destruct t as [[|name names] sp| | | | | | | | | | | | | |]; try done. cbn [core_ty ty_pieces]. intros [Hn Hns]%andb_true_iff.
  revert name Hn Hns. induction names as [|x names IH]; intros name Hn Hns; [by apply quiet_name|].
  simpl in Hns. apply andb_true_iff in Hns as [Hx Hns].
  change (path_pieces (name :: x :: names)) with ([word name] ++ [sym "::"] ++ path_pieces (x :: names)).
  apply quiet_app; [by apply quiet_name|]. apply quiet_app; [by destruct lt|]. by apply IH.
Qed.

Lemma quiet_operator op : core_op lt op = true -> quiet [blank; sym (bin_op_str op); blank].
Proof. by destruct op, lt. Qed.

Definition expr_quiet (e : Expr) : Prop := forall n, core_expr lt e = true -> quiet (expr_pieces n e).
Definition block_quiet (b : Block) : Prop := forall n, core_block lt b = true -> quiet (block_pieces n b).

Lemma quiet_operands n xs :
  Forall expr_quiet xs -> forallb (fun x => negb (is_return x) && core_expr lt x) xs = true ->
  Forall (fun ps => quiet ps) (map (expr_pieces n) xs).
Proof.
  intros HF Hc%forallb_true. apply Forall_map. rewrite Forall_forall in HF, Hc |- *. intros x Hx.
  specialize (Hc x Hx). apply andb_true_iff in Hc as [_ Hc]. by apply HF.
Qed.

Ltac quiet_step :=
  lazymatch goal with
  | |- forallb _ (_ ++ _) = true => apply quiet_app
  | |- forallb _ (comma_pieces _) = true => first [assumption | apply quiet_commas, quiet_operands; assumption]
  | |- forallb _ (wrapped _ _ _) = true => apply quiet_wrapped
  | |- forallb _ (margin _) = true => apply quiet_margin
  | |- forallb _ (ty_pieces _) = true => apply quiet_ty; assumption
  | |- forallb _ [word ?name] = true => first [apply quiet_name; assumption | by destruct lt]
  | |- forallb _ [blank; sym (bin_op_str _); blank] = true => apply quiet_operator; assumption
  | IH : expr_quiet ?e |- forallb _ (expr_pieces _ ?e) = true => apply IH; assumption
  | IH : block_quiet ?b |- forallb _ (block_pieces _ ?b) = true => apply IH; assumption
  | |- forallb _ [] = true => reflexivity
  | |- forallb _ (_ :: _) = true => destruct lt; reflexivity
  end.
Ltac quiet_auto := repeat quiet_step.

Lemma quiet_stmts n none_tail stmts :
  Forall (on_stmt expr_quiet) stmts -> forallb (core_stmt lt) stmts = true -> quiet (stmts_pieces n none_tail stmts).
Proof.
  intros HF Hc. induction HF as [|s stmts Hs HF IH]; [done|]. cbn [forallb stmts_pieces] in *.
  apply andb_true_iff in Hc as [Hc Hcs]. apply quiet_app; [|by apply IH].
  destruct s as [[m pat t v sp]|e|i]; [| |done].
  - destruct pat; try done. cbn [core_stmt on_stmt stmt_pieces] in *. operands.
    destruct m, t, v; operands; quiet_auto.
  - cbn [core_stmt on_stmt stmt_pieces] in *. operands. destruct (_ || _); quiet_auto.
Qed.

Lemma expr_block_quiet : (forall e, expr_quiet e) /\ (forall b, block_quiet b).
Proof.
  apply core_ind; intros; intros n Hc; cbn [core_expr core_block] in Hc; operands; try (cbn [expr_pieces]; quiet_auto; fail).
  - by rewrite H in Hc.
  - destruct l as [| |[]| |]; by destruct lt.
  - cbn [expr_pieces]. destruct f as [f|]; operands; cbn [on_option] in *; quiet_auto.
  - cbn [expr_pieces]. change ([sym "."; word m; sym "("]) with ([sym "."] ++ [word m] ++ [sym "("]). quiet_auto.
  - cbn [expr_pieces]. destruct op; quiet_auto.
  - cbn [expr_pieces]. destruct m; quiet_auto.
  - cbn [expr_pieces]. change ([sym "."; word f]) with ([sym "."] ++ [word f]). quiet_auto.
  - cbn [expr_pieces]. destruct v as [v|]; cbn [core_expr] in Hc; operands; cbn [on_option] in *; quiet_auto.
  - rewrite block_pieces_eq. destruct (_ && _); [by destruct lt|].
    apply quiet_app; [by destruct lt|]. apply quiet_app; [by apply quiet_stmts|].
    destruct tail as [e|]; operands; cbn [on_option] in *; quiet_auto.
Qed.

Lemma quiet_item i : core_item lt i = true -> quiet (item_pieces i).
Proof.
  destruct expr_block_quiet as [He Hb]. destruct i as [d| | | | | |d|]; try done.
  - destruct d as [name [] [] qs rt b [] [] [] [] [] [] sp]; try done. cbn [core_item item_pieces].
    intros [[[Hn Hps%forallb_true]%andb_true_iff Ht]%andb_true_iff Hbl]%andb_true_iff.
    change [word "fn"; blank; word name; sym "("] with ([word "fn"; blank] ++ [word name] ++ [sym "("]).
    assert (Hq : Forall (fun ps => quiet ps) (map param_pieces qs)).
    { apply Forall_map. eapply Forall_impl; [exact Hps|]. intros [[] t sp'] Hp; try done.
      cbn [core_param param_pieces] in *. operands.
      change [word name0; sym ":"; blank] with ([word name0] ++ [sym ":"; blank]). quiet_auto. }
    pose proof (quiet_commas _ Hq). pose proof (Hb b). destruct rt; quiet_auto.
  - destruct d as [name t v [] sp]; try done. cbn [core_item item_pieces]. intros Hc. operands.
    change [word "const"; blank; word name; sym ":"; blank] with ([word "const"; blank] ++ [word name] ++ [sym ":"; blank]).
    pose proof (He v). quiet_auto.
Qed.

Lemma quiet_module m : core_module lt m = true -> Forall (fun t : tk => t.1 <> if lt then Greater else Less) (token_kinds (module_pieces m)).
Proof.
  intros Hc. rewrite (module_tokens lt m Hc). unfold core_module in Hc. apply andb_true_iff in Hc as [_ Hc]. apply Forall_app. split.
  - destruct (module_name m); [|constructor]. repeat constructor; by destruct lt.
  - induction (items m) as [|i l IH]; [constructor|]. cbn [forallb map concat] in *. apply andb_true_iff in Hc as [Hi Hl].
    apply Forall_app. split; [|by apply IH]. apply quiet_item, forallb_true in Hi. unfold item_toks.
    induction Hi as [|[c|k w] ps Hp HF IH']; [constructor|done|]. constructor; [|done].
    simpl in *. by apply negb_true_iff, bool_decide_eq_false in Hp.
Qed.
End Quiet.

(** ** Modules *)

Lemma placed_view f off ps : map view (placed f off ps) = token_kinds ps.
Proof. revert off. induction ps as [|[c|k w] ps IH]; intros off; [done|apply IH|]. simpl. f_equal. apply IH. Qed.

(** Without [>] in the file, no [<] starts generic arguments. *)
Lemma generic_scan_no_greater d ts : Forall (fun t => kind t <> Greater) ts -> generic_scan d ts = false.
Proof.
  intros HF. revert d. induction HF as [|t ts Ht HF IH]; intros d; [done|]. simpl.
  destruct (kind t); try done; try apply IH; destruct (d =? 0); done || apply IH.
Qed.

Lemma quiet_plain_less (lt : bool) ts :
  Forall (fun t : tk => t.1 <> if lt then Greater else Less) (map view ts) -> plain_less ts.
Proof.
  rewrite Forall_map. intros HF i t Ht Hk. destruct lt.
  - apply generic_scan_no_greater. by apply Forall_drop.
  - exfalso. rewrite Forall_lookup in HF. by apply (HF i t Ht).
Qed.

Lemma item_toks_ready lt i m : core_item lt i = true -> length (item_toks i) <= m -> item_ready (parsers m) i.
Proof.
  destruct expr_block_ok as [He Hb]. intros Hc Hm. destruct i as [d| | | | | |d|]; try done.
  - destruct d as [name [] [] qs rt b [] [] [] [] [] [] sp]; try done. cbn [core_item] in Hc. operands.
    rewrite fn_tokens in Hm by done. cbn [length] in Hm. rewrite length_app in Hm. cbn [length] in Hm. rewrite length_app in Hm.
    apply (Hb b lt 0 m); [done|lia].
  - destruct d as [name t v [] sp]; try done. cbn [core_item] in Hc. operands.
    rewrite const_tokens in Hm by done. cbn [length] in Hm. rewrite length_app in Hm. cbn [length] in Hm. rewrite length_app in Hm.
    apply (operand_reads lt 0 v (He v) H0 H1 1 m); [lia|]. pose proof (precedence_range v). lia.
Qed.

Lemma item_toks_length i l : i ∈ l -> length (item_toks i) <= length (concat (map item_toks l)).
Proof.
  induction l as [|j l IH]; [intros H; by apply elem_of_nil in H|]. cbn [map concat]. rewrite length_app.
  intros [->|H]%elem_of_cons; [lia|]. specialize (IH H). lia.
Qed.

(** The tokens of a core module are parsed as the module. *)
Lemma parse_pieces lt m ts w rep :
  core_module lt m = true -> map view ts = token_kinds (module_pieces m) ++ [(Eof, w)] ->
  exists m' p, parse_module ts rep = Done m' p /\ reporter p = rep /\ unspan_module m' = unspan_module m.
Proof.
  intros Hc Hts. pose proof (f_equal length Hts) as Hlen. rewrite length_map, length_app in Hlen. simpl in Hlen.
  destruct (module_reads (parsers (depth_for (length ts))) lt m (mkParser ts rep 0 true false) w Hc) as (m' & E & Hm).
  - rewrite (module_tokens lt m Hc), length_app in Hlen. unfold core_module in Hc. apply andb_true_iff in Hc as [_ Hi%forallb_true].
    rewrite Forall_forall in Hi |- *. intros i Hin. eapply item_toks_ready; [by apply Hi|].
    pose proof (item_toks_length i _ Hin). unfold depth_for. lia.
  - apply (quiet_plain_less lt). simpl. rewrite Hts. apply Forall_app. split; [by apply quiet_module|]. by destruct lt; repeat constructor.
  - unfold input. simpl. by rewrite drop_0.
  - exists m'. eexists. split; [exact E|]. done.
Qed.

Lemma format_parses lc lt m f rep :
  core_module lt m = true ->
  exists s ts m' p, format_module lc m None = Some s /\ lex (chars s) f rep = (ts, rep) /\ parse_module ts rep = Done m' p /\
    reporter p = rep /\ unspan_module m' = unspan_module m.
Proof.
  intros Hc. destruct (module_prints lc lt m Hc) as (s & Es & Ht).
  pose proof (lex_pieces (module_pieces m) f rep (module_spelled lt m Hc)) as Hl. rewrite <- Ht in Hl.
  destruct (parse_pieces lt m (placed f 0 (module_pieces m) ++ [eof_token (chars s) f]) [] rep Hc) as (m' & p & E & Hr & Hm).
  { by rewrite map_app, placed_view. }
  exists s. do 3 eexists. split; [exact Es|]. split; [exact Hl|]. split; [exact E|]. done.
Qed.

(** ** Spans do not matter

    The core language and the pieces of a program do not depend on its spans. *)

Lemma unspan_precedence e : expr_precedence (unspan e) = expr_precedence e.
Proof. destruct e as [| | | | | | | | | | |[]| | | | | | | | | | | | | |[]| | | | |]; done. Qed.

Lemma unspan_block_like e : is_block_like (unspan e) = is_block_like e.
Proof. destruct e as [| | | | | | | | | | | | | | | | | | | | | | | | |[]| | | | |]; done. Qed.

Lemma unspan_is_field e : is_field (unspan e) = is_field e.
Proof. destruct e as [| | | | | | | | | | | | | | | | | | | | | | | | |[]| | | | |]; done. Qed.
Lemma unspan_is_borrow e : is_borrow (unspan e) = is_borrow e.
Proof. destruct e as [| | | | | | | | | | | | | | | | | | | | | | | | |[]| | | | |]; done. Qed.
Lemma unspan_is_return e : is_return (unspan e) = is_return e.
Proof. destruct e as [| | | | | | | | | | | | | | | | | | | | | | | | |[]| | | | |]; done. Qed.
Lemma unspan_is_else e : is_else (unspan e) = is_else e.
Proof. destruct e as [| | | | | | | | | | | | | | | | | | | | | | | | |[]| | | | |]; done. Qed.
Lemma unspan_compares e : compares (unspan e) = compares e.
Proof. destruct e as [| | | | | | | | | | | | | | | | | | | | | | | | |[]| | | | |]; done. Qed.

Lemma unspan_starts_block e : starts_block (unspan e) = starts_block e.
Proof.
  revert e. fix IH 1. intros e. pose proof (unspan_precedence e) as He.
  destruct e as [| | | | | | | | | | | | | | | | | | | | | | | | |[]| | | | |]; try reflexivity;
    cbn [unspan starts_block] in *; rewrite ?unspan_precedence, ?IH; reflexivity.
Qed.

Lemma unspan_leads e : leads_statement (unspan e) = leads_statement e.
Proof. unfold leads_statement. by rewrite unspan_block_like, unspan_starts_block. Qed.

Lemma unspan_wrapped e k ps : wrapped (unspan e) k ps = wrapped e k ps.
Proof. unfold wrapped. by rewrite unspan_precedence. Qed.

Lemma unspan_core_ty t : core_ty (unspan_ty t) = core_ty t /\ ty_pieces (unspan_ty t) = ty_pieces t.
Proof. by destruct t. Qed.

(** [x] is in the core, and prints the same, with and without spans. *)
Definition unspan_ok (e : Expr) : Prop :=
  forall lt, core_expr lt (unspan e) = core_expr lt e /\ (core_expr lt e = true -> forall n, expr_pieces n (unspan e) = expr_pieces n e).
Definition unspan_block_ok (b : Block) : Prop :=
  forall lt, core_block lt (unspan_block b) = core_block lt b /\
    (core_block lt b = true -> forall n, block_pieces n (unspan_block b) = block_pieces n b).

Create HintDb unspan.
Hint Rewrite unspan_precedence unspan_block_like unspan_is_field unspan_is_borrow unspan_is_return unspan_is_else unspan_compares
  unspan_leads unspan_wrapped : unspan.

Lemma is_nil_map {A B} (f : A -> B) l : is_nil (map f l) = is_nil l.
Proof. by destruct l. Qed.
Hint Rewrite @is_nil_map @length_map : unspan.

Lemma unspan_operands lt xs :
  Forall unspan_ok xs ->
  forallb (fun x => negb (is_return x) && core_expr lt x) (map unspan xs) = forallb (fun x => negb (is_return x) && core_expr lt x) xs /\
  (forallb (fun x => negb (is_return x) && core_expr lt x) xs = true ->
   forall n, map (expr_pieces n) (map unspan xs) = map (expr_pieces n) xs).
Proof.
  intros HF. induction HF as [|x xs Hx HF [IH1 IH2]]; [done|]. destruct (Hx lt) as [H1 H2]. cbn [map forallb].
  rewrite unspan_is_return, H1, IH1. split; [done|]. intros [[_ Hc]%andb_true_iff Hcs]%andb_true_iff n. by rewrite H2, IH2.
Qed.

Ltac unspan_facts lt :=
  repeat match goal with
  | IH : unspan_ok ?x |- _ => let H1 := fresh "Hcore" in let H2 := fresh "Hpieces" in destruct (IH lt) as [H1 H2]; clear IH
  | IH : unspan_block_ok ?x |- _ => let H1 := fresh "Hcore" in let H2 := fresh "Hpieces" in destruct (IH lt) as [H1 H2]; clear IH
  | IH : Forall unspan_ok ?x |- _ =>
      let H1 := fresh "Hcore" in let H2 := fresh "Hpieces" in destruct (unspan_operands lt x IH) as [H1 H2]; clear IH
  end.

Ltac use_facts :=
  autorewrite with unspan;
  repeat match goal with
  | H : core_expr _ (unspan ?x) = _ |- context [core_expr _ (unspan ?x)] => rewrite H
  | H : core_block _ (unspan_block ?x) = _ |- context [core_block _ (unspan_block ?x)] => rewrite H
  | H : forallb _ (map unspan ?x) = _ |- context [forallb _ (map unspan ?x)] => rewrite H
  | H : _ -> forall n, expr_pieces n (unspan ?x) = _ |- context [expr_pieces _ (unspan ?x)] => rewrite H by done
  | H : _ -> forall n, block_pieces n (unspan_block ?x) = _ |- context [block_pieces _ (unspan_block ?x)] => rewrite H by done
  | H : _ -> forall n, map (expr_pieces n) (map unspan ?x) = _ |- context [map _ (map unspan ?x)] => rewrite H by done
  end.

Ltac unspan_case :=
  intros; intros lt; cbn [unspan core_expr option_map]; unspan_facts lt; split; [by use_facts|]; intros Hc n; operands;
  cbn [expr_pieces]; use_facts; try done.

Lemma unspan_stmts lt stmts :
  Forall (on_stmt unspan_ok) stmts ->
  forallb (core_stmt lt) (map unspan_stmt stmts) = forallb (core_stmt lt) stmts /\
  (forallb (core_stmt lt) stmts = true -> forall n none_tail, stmts_pieces n none_tail (map unspan_stmt stmts) = stmts_pieces n none_tail stmts).
Proof.
  intros HF. induction HF as [|s stmts Hs HF [IH1 IH2]]; [done|]. cbn [map forallb]. rewrite IH1.
  assert (Hst : core_stmt lt (unspan_stmt s) = core_stmt lt s /\
    (core_stmt lt s = true -> forall n is_last, stmt_pieces n (unspan_stmt s) is_last = stmt_pieces n s is_last)).
  { destruct s as [[m pat t v sp]|e|i]; [| |done].
    - destruct pat; try done. cbn [unspan_stmt core_stmt on_stmt unspan_pat] in *. destruct v as [v|]; cbn [option_map]; unspan_facts lt;
        (destruct t as [t|]; cbn [option_map]; [destruct (unspan_core_ty t) as [Ht1 Ht2]; rewrite Ht1|]); (split; [by use_facts|]);
        intros Hc n is_last; operands; cbn [stmt_pieces]; rewrite ?Ht2; by use_facts.
    - cbn [unspan_stmt core_stmt on_stmt] in *. unspan_facts lt. split; [by use_facts|]. intros Hc n is_last. operands.
      cbn [stmt_pieces]. by use_facts. }
  destruct Hst as [Hs1 Hs2]. rewrite Hs1. split; [done|]. intros [Hc Hcs]%andb_true_iff n none_tail. cbn [stmts_pieces].
  by rewrite is_nil_map, Hs2, IH2.
Qed.

Lemma expr_block_unspan : (forall e, unspan_ok e) /\ (forall b, unspan_block_ok b).
Proof.
  apply core_ind; try (unspan_case; fail).
  - intros e H1 H2 lt. rewrite H1, H2. done.
  - intros c t [f|] sp ? ? Hf; cbn [on_option] in Hf; unspan_case.
  - intros [v|] sp Hv; cbn [on_option] in Hv; unspan_case.
  - intros [v|] sp; unspan_case.
  - intros stmts tail sp HF Ht lt. destruct (unspan_stmts lt stmts HF) as [Hs1 Hs2]. cbn [unspan_block core_block]. rewrite Hs1.
    destruct tail as [e|]; cbn [on_option option_map] in *; unspan_facts lt; (split; [by use_facts|]); intros Hc n; operands;
      rewrite !block_pieces_eq; cbn [is_none]; rewrite Hs2 by done; by use_facts.
Qed.

Lemma unspan_core_param q : core_param (unspan_param q) = core_param q /\ param_pieces (unspan_param q) = param_pieces q.
Proof. destruct q as [[] t sp]; try done. cbn [unspan_param unspan_pat core_param param_pieces]. by destruct (unspan_core_ty t) as [-> ->]. Qed.

Lemma unspan_params qs :
  forallb core_param (map unspan_param qs) = forallb core_param qs /\ map param_pieces (map unspan_param qs) = map param_pieces qs.
Proof. induction qs as [|q qs [IH1 IH2]]; [done|]. cbn [map forallb]. destruct (unspan_core_param q) as [-> ->]. by rewrite IH1, IH2. Qed.

Lemma unspan_core_item lt i :
  core_item lt (unspan_item i) = core_item lt i /\ (core_item lt i = true -> item_pieces (unspan_item i) = item_pieces i).
Proof.
  destruct expr_block_unspan as [He Hb]. destruct i as [d|d|d|d|d| |d|d]; try (by destruct d).
  - destruct d as [name [] [|] qs rt b [] [] [] [] [] [|] sp]; try done. destruct (Hb b lt) as [Hb1 Hb2].
    destruct (unspan_params qs) as [Hq1 Hq2]. cbn [unspan_item unspan_fn option_map map core_item]. rewrite Hq1, Hb1.
    destruct rt as [t|]; cbn [option_map]; [destruct (unspan_core_ty t) as [Ht1 Ht2]; rewrite Ht1|];
      (split; [done|]); intros Hc; operands; cbn [item_pieces]; rewrite Hq2, ?Ht2, Hb2 by done; done.
  - destruct d as [name t v [] sp]; try done. destruct (He v lt) as [Hv1 Hv2]. destruct (unspan_core_ty t) as [Ht1 Ht2].
    cbn [unspan_item unspan_const core_item]. rewrite Ht1, Hv1, unspan_is_return. split; [done|]. intros Hc. operands.
    cbn [item_pieces]. by rewrite Ht2, Hv2.
Qed.

Lemma unspan_core_items lt l :
  forallb (core_item lt) (map unspan_item l) = forallb (core_item lt) l /\
  (forallb (core_item lt) l = true -> items_pieces (map unspan_item l) = items_pieces l).
Proof.
  induction l as [|i l [IH1 IH2]]; [done|]. cbn [map forallb]. destruct (unspan_core_item lt i) as [Hi1 Hi2]. rewrite Hi1, IH1.
  split; [done|]. intros [Hi Hl]%andb_true_iff. specialize (IH2 Hl). specialize (Hi2 Hi). destruct l as [|j l]; [done|].
  change (items_pieces (unspan_item i :: map unspan_item (j :: l))) with
    (item_pieces (unspan_item i) ++ [line; line] ++ items_pieces (map unspan_item (j :: l))).
  by rewrite Hi2, IH2.
Qed.

Lemma unspan_core_module lt m :
  core_module lt (unspan_module m) = core_module lt m /\
  (core_module lt m = true -> module_pieces (unspan_module m) = module_pieces m).
Proof.
  destruct m as [d l sp]. destruct (unspan_core_items lt l) as [H1 H2]. unfold core_module, module_pieces, unspan_module. simpl.
  rewrite H1. destruct d as [d|]; (split; [done|]); simpl; intros Hc; operands; rewrite H2, ?is_nil_map by done; done.
Qed.

Lemma chars_inj a b : chars a = chars b -> a = b.
Proof.
  revert b. induction a as [|x a IH]; intros [|y b] E; try done. injection E as E1 E2. f_equal; [|by apply IH].
  unfold cp in E1. apply N2Z.inj in E1. rewrite <- (Ascii.ascii_N_embedding x), <- (Ascii.ascii_N_embedding y). by rewrite E1.
Qed.

(** Core programs that differ in their spans only print the same text. *)
Lemma format_unspan lc lt m m' :
  core_module lt m = true -> unspan_module m' = unspan_module m -> format_module lc m' None = format_module lc m None.
Proof.
  intros Hc Hu. destruct (unspan_core_module lt m) as [H1 H2], (unspan_core_module lt m') as [H1' H2'].
  assert (Hc' : core_module lt m' = true) by (by rewrite <- H1', Hu, H1).
  destruct (module_prints lc lt m Hc) as (s & -> & Hs). destruct (module_prints lc lt m' Hc') as (s' & -> & Hs').
  f_equal. apply chars_inj. by rewrite Hs, Hs', <- H2, <- H2', Hu by done.
Qed.

(** ** The round trip *)

(** C2: Round trip of the front end: for every program of the core language
    the formatter writes a text; the lexer reads the text without a
    diagnostic; the parser reads its tokens without a panic and without a
    diagnostic; and the program it returns is the one that was printed, up to
    spans. *)
Theorem format_parse_roundtrip lc lt m f rep :
  core_module lt m = true ->
  exists s ts m' p,
    format_module lc m None = Some s /\ lex (chars s) f rep = (ts, rep) /\
    parse_module ts rep = Done m' p /\ reporter p = rep /\ unspan_module m' = unspan_module m.
Proof. apply format_parses. Qed.

(** Formatting is idempotent on the core language: the text that the
    formatter writes, once lexed and parsed, is written again as the same
    text. *)
Theorem format_idempotent lc lt m f rep s :
  core_module lt m = true -> format_module lc m None = Some s ->
  exists m' p, parse_module (lex (chars s) f rep).1 rep = Done m' p /\ format_module lc m' None = Some s.
Proof.
  intros Hc Hs. destruct (format_parses lc lt m f rep Hc) as (s' & ts & m' & p & Es & El & Ep & _ & Hu).
  rewrite Es in Hs. injection Hs as ->. exists m', p. rewrite El. split; [done|]. by rewrite (format_unspan lc lt m m').
Qed.

(** A program of the core: [const LIMIT: i64 = 10 - (3 - 1);] and a function
    with parameters, [let], assignment, conditionals, loops and calls. *)
Definition sample_module : Module :=
  let id x := EIdent x nowhere in
  let num n := ELiteral (LInt n) nowhere in
  let bin op a b := EBinary op a b nowhere in
  let i64 := TPath ["i64"%string] nowhere in
  mkModule (Some (mkModuleDecl "demo" nowhere))
    [IConst (mkConstDecl "LIMIT" i64 (bin Sub (num 10%Z) (bin Sub (num 3%Z) (num 1%Z))) false nowhere);
     IFn (mkFnDecl "count" None [] [mkParam (PIdent "n" nowhere) i64 nowhere] (Some i64)
       (mkBlock
          [SLet (mkLetStmt true (PIdent "total" nowhere) (Some i64) (Some (num 0%Z)) nowhere);
           SExpr (EWhile (bin And (bin Lt_ (id "total") (id "n")) (EUnary Not (ECall (id "done") [] [id "total"] nowhere) nowhere))
             (mkBlock [SExpr (EAssign (id "total") (bin Mul (bin Add (id "total") (num 1%Z)) (num 2%Z)) nowhere)] None nowhere) nowhere);
           SExpr (EIf (bin Eq_ (id "total") (id "LIMIT"))
             (mkBlock [SExpr (EReturn (Some (num 0%Z)) nowhere)] None nowhere) None nowhere)]
          (Some (EUnary Neg (EField (EIndex (EMethodCall (id "table") "rows" [] nowhere) [id "n"] nowhere) "size" nowhere) nowhere)) nowhere)
       false false false false None [] nowhere)]
    nowhere.

Lemma format_parse_roundtrip_witness :
  exists s ts m' p,
    format_module (fun _ => false) sample_module None = Some s /\ lex (chars s) FileId_ROOT (mkReporter []) = (ts, mkReporter []) /\
    parse_module ts (mkReporter []) = Done m' p /\ reporter p = mkReporter [] /\ unspan_module m' = unspan_module sample_module.
Proof. apply (format_parse_roundtrip (fun _ => false) true). vm_compute. reflexivity. Defined.

Lemma format_idempotent_witness :
  exists s, format_module (fun _ => false) sample_module None = Some s /\
  exists m' p, parse_module (lex (chars s) FileId_ROOT (mkReporter [])).1 (mkReporter []) = Done m' p /\
    format_module (fun _ => false) m' None = Some s.
Proof.
  eexists. split; [vm_compute; reflexivity|].
  apply (format_idempotent (fun _ => false) true sample_module FileId_ROOT (mkReporter [])); vm_compute; reflexivity.
Defined.
