(* ===== verification/FmtGaps.v ===== *)
(** Programs outside the core: where printing and reading back disagree.

    [reformat] is what [paco fmt] does with a file: lex, parse, print with the
    source at hand.  Each theorem below runs it on a text that the parser
    accepts and compares the program with the one that is read back from the
    printed text.  They say why the core language leaves these forms out. *)
From S2P Require Import Prelude Floats Span Diag Lex Ast ParseBase Parse Fmt Core.
Open Scope nat_scope.

(** The program of a text that is read without a diagnostic. *)
Definition read_clean (src : string) : option Module :=
  let '(ts, rep) := lex (chars src) FileId_ROOT Reporter_new in
  match parse_module ts rep with
  | Done m p => if diagnostics (reporter p) is [] then Some m else None
  | _ => None
  end.

Definition reformat (src : string) : option string :=
  m ← read_clean src; format_module (fun _ => true) m (Some (chars src)).

(** The text is printed as [out], which is not read without an error. *)
Definition printed_unreadable (src out : string) : Prop := reformat src = Some out /\ read_clean out = None.

(** The text is printed as [out], which is read as another program: one that
    prints the same as the program written in [other]. *)
Definition printed_as_other (src out other : string) : Prop :=
  reformat src = Some out /\ is_Some (read_clean src) /\ is_Some (read_clean other) /\
  unspan_module <$> read_clean out = unspan_module <$> read_clean other /\
  unspan_module <$> read_clean src <> unspan_module <$> read_clean other.

Definition lines (l : list string) : string := foldr (fun a b => a ++ String "010" b)%string ""%string l.

(** Comparisons do not chain, but the parentheses of the left operand of one
    are not printed. *)
Theorem fmt_comparison_chain :
  printed_unreadable "fn f(a: bool, b: bool, c: bool) -> bool { (a == b) == c }"
    (lines ["fn f(a: bool, b: bool, c: bool) -> bool {"; "    a == b == c"; "}"]).
Proof. split; vm_compute; reflexivity. Qed.

(** The type after [as] takes a [<] that follows it. *)
Theorem fmt_cast_less :
  printed_unreadable "fn f(x: i64) -> bool { (x as i64) < 3 }" (lines ["fn f(x: i64) -> bool {"; "    x as i64 < 3"; "}"]).
Proof. split; vm_compute; reflexivity. Qed.

(** A borrow of a borrow is printed as the operator [&&]. *)
Theorem fmt_double_borrow :
  printed_unreadable "fn f(x: i64) -> i64 { & &x }" (lines ["fn f(x: i64) -> i64 {"; "    &&x"; "}"]).
Proof. split; vm_compute; reflexivity. Qed.

(** A conditional as an operand at the start of a statement loses its parentheses. *)
Theorem fmt_if_operand :
  printed_unreadable "fn f(x: i64) -> i64 { (if x == 1 { 2 } else { 3 }) + 1 }"
    (lines ["fn f(x: i64) -> i64 {"; "    if x == 1 {"; "        2"; "    } else {"; "        3"; "    } + 1"; "}"]).
Proof. split; vm_compute; reflexivity. Qed.

Ltac other_program := split; [vm_compute; reflexivity|]; (split; [vm_compute; by eexists|]); (split; [vm_compute; by eexists|]);
  split; [vm_compute; reflexivity|vm_compute; discriminate].

(** [pub] is not printed. *)
Theorem fmt_drops_pub :
  printed_as_other "pub fn f(x: i64) -> i64 { x }" (lines ["fn f(x: i64) -> i64 {"; "    x"; "}"]) "fn f(x: i64) -> i64 { x }".
Proof. other_program. Qed.

(** The type arguments of a call are not printed. *)
Theorem fmt_drops_type_arguments :
  printed_as_other "fn f(x: i64) -> i64 { g<i64>(x) }" (lines ["fn f(x: i64) -> i64 {"; "    g(x)"; "}"]) "fn f(x: i64) -> i64 { g(x) }".
Proof. other_program. Qed.

(** A call of the value of a field is printed as a method call. *)
Theorem fmt_field_call :
  printed_as_other "fn f(x: i64) -> i64 { (a.f)(x) }" (lines ["fn f(x: i64) -> i64 {"; "    a.f(x)"; "}"]) "fn f(x: i64) -> i64 { a.f(x) }".
Proof. other_program. Qed.

(** A [return] operand is printed without parentheses and takes the rest of the expression. *)
Theorem fmt_return_operand :
  printed_as_other "fn f(x: i64) -> i64 { (return x) + 1 }" (lines ["fn f(x: i64) -> i64 {"; "    return x + 1"; "}"])
    "fn f(x: i64) -> i64 { return (x + 1) }".
Proof. other_program. Qed.

(** A [<] is taken for generic arguments when a [>] before [(] follows
    anywhere in the file: this program is rejected, although [a < b && c > d]
    is accepted. *)
Theorem less_and_greater_rejected :
  read_clean "fn f(a: i64, b: i64, c: i64, d: i64) -> bool { a < b && c > (d + 1) }" = None /\
  is_Some (read_clean "fn f(a: i64, b: i64, c: i64, d: i64) -> bool { a < b && c > d + 1 }") /\
  read_clean "fn f(a: i64, b: i64) -> bool { a < b } fn g(c: i64, d: i64) -> bool { c > (d + 1) }" = None.
Proof. split; [|split]; vm_compute; first [reflexivity|by eexists]. Qed.
