(* ===== verification/Quote.v ===== *)
(** Quoted code: [splice_sites] of [paco-mir/src/comptime.rs] and
    [paco-comptime/src/quote.rs].

    Lowering evaluates the expressions that [splice_sites] finds in a template;
    compile-time evaluation then replaces them with [substitute], a second
    traversal written separately.  The theorem of this file is that the two
    agree: the substitution needs exactly the sites that were evaluated, and
    leaves no splice behind but those at positions neither of them looks at
    ([unseen_splices]).

    [splice_sites] pushes to a list that is only ever extended: here each
    function returns what it pushes. *)
From S2P Require Import Prelude Span Diag Lex Ast Visit Types Dims Generics Names Floats ParseBase Parse Fmt Text.
From Stdlib Require Import Floats.SpecFloat.
Open Scope nat_scope.

Abbreviation Site := (Span * Expr)%type (only parsing).

(** ** [splice_sites] *)

Definition opt_list {A B} (f : A -> list B) (o : option A) : list B := match o with Some a => f a | None => [] end.

(** [callee] of [splice_field(base, name)]. *)
Definition is_splice_field (callee : Expr) : bool :=
  match callee with EIdent name _ => bool_decide (name = "splice_field"%string) | _ => false end.

Fixpoint site_ty (t : Ty) : list Site :=
  match t with
  | TSplice inner sp => [(sp, inner)]
  | TGeneric _ args _ | TTuple args _ => concat (map site_ty args)
  | TSlice inner _ | TBorrow _ _ inner _ | TRawPointer _ inner _ => site_ty inner
  | TFn params return_ty _ _ _ => concat (map site_ty params) ++ opt_list site_ty return_ty
  | TPath _ _ | TDyn _ _ | TInfer _ | TNever _ | TConst _ _ | TDynDim _ | TExpand _ _ | TExistential _ _ => []
  end.

Definition site_closure_param (p : ClosureParam) : list Site := let 'mkClosureParam _ ty _ := p in opt_list site_ty ty.
Definition site_param (p : Param) : list Site := let 'mkParam _ ty _ := p in site_ty ty.

(** [children]: direct sub-expressions and blocks. *)
Definition children (e : Expr) : list Expr * list Block :=
  match e with
  | ELiteral _ _ | EIdent _ _ | EContinue _ | EQuote _ _ => ([], [])
  | EBlock b | EUnsafe b _ => ([], [b])
  | EIf condition then_branch else_branch _ => (condition :: opt_list (fun e => [e]) else_branch, [then_branch])
  | ELoop body _ => ([], [body])
  | EWhile condition body _ => ([condition], [body])
  | EMatch scrutinee arms _ =>
      (scrutinee :: concat (map (fun '(mkMatchArm _ guard body _) => opt_list (fun e => [e]) guard ++ [body]) arms), [])
  | ECall callee _ args _ => (callee :: args, [])
  | EMethodCall receiver _ args _ => (receiver :: args, [])
  | EAssociatedCall _ _ args _ => (args, [])
  | EBinary _ l r _ => ([l; r], [])
  | EAssign target value _ => ([target; value], [])
  | EIndex base index _ => (base :: index, [])
  | EReturn value _ | EBreak value _ => (opt_list (fun e => [e]) value, [])
  | EUnary _ e _ | EField e _ _ | ESpawn e _ | EComptime e _ | ESplice e _ | EClosure _ e _ | EYield e _ | EBorrow _ e _
  | ETry e _ | ECast e _ _ => ([e], [])
  | ESelect arms default_ _ =>
      (map (fun '(mkSelectArm operation _ _) => operation) arms,
       map (fun '(mkSelectArm _ body _) => body) arms ++ opt_list (fun b => [b]) default_)
  | EStructLiteral _ fields _ => (map snd fields, [])
  | ETuple items _ => (items, [])
  end.

(** The types an expression mentions itself. *)
Definition site_own_tys (e : Expr) : list Site :=
  match e with
  | EAssociatedCall ty _ _ _ | EStructLiteral ty _ _ | ECast _ ty _ => site_ty ty
  | ECall _ type_args _ _ => concat (map site_ty type_args)
  | EClosure params _ _ => concat (map site_closure_param params)
  | _ => []
  end.

Fixpoint site_expr (e : Expr) : list Site :=
  match e with
  | EQuote _ _ => []
  | ESplice inner sp => [(sp, inner)]
  | ECall callee type_args ([base; name] as args) sp =>
      if is_splice_field callee then concat (map site_ty type_args) ++ site_expr base ++ [(sp, name)]
      else concat (map site_ty type_args) ++ site_expr callee ++ concat (map site_expr args)
  | ECall callee type_args args _ => concat (map site_ty type_args) ++ site_expr callee ++ concat (map site_expr args)
  | EAssociatedCall ty _ args _ => site_ty ty ++ concat (map site_expr args)
  | EStructLiteral ty fields _ => site_ty ty ++ concat (map (fun f => site_expr f.2) fields)
  | ECast e ty _ => site_ty ty ++ site_expr e
  | EClosure params body _ => concat (map site_closure_param params) ++ site_expr body
  | ELiteral _ _ | EIdent _ _ | EContinue _ => []
  | EBlock b | EUnsafe b _ => site_block b
  | EIf condition then_branch else_branch _ => site_expr condition ++ opt_list site_expr else_branch ++ site_block then_branch
  | ELoop body _ => site_block body
  | EWhile condition body _ => site_expr condition ++ site_block body
  | EMatch scrutinee arms _ => site_expr scrutinee ++ concat (map site_arm arms)
  | EMethodCall receiver _ args _ => site_expr receiver ++ concat (map site_expr args)
  | EBinary _ l r _ => site_expr l ++ site_expr r
  | EAssign target value _ => site_expr target ++ site_expr value
  | EIndex base index _ => site_expr base ++ concat (map site_expr index)
  | EReturn value _ | EBreak value _ => opt_list site_expr value
  | EUnary _ e _ | EField e _ _ | ESpawn e _ | EComptime e _ | EYield e _ | EBorrow _ e _ | ETry e _ => site_expr e
  | ESelect arms default_ _ =>
      concat (map site_operation arms) ++ concat (map site_select_body arms) ++ opt_list site_block default_
  | ETuple items _ => concat (map site_expr items)
  end
with site_block (b : Block) : list Site :=
  let 'mkBlock stmts tail _ := b in concat (map site_stmt stmts) ++ opt_list site_expr tail
with site_stmt (st : Stmt) : list Site :=
  match st with
  | SLet l => site_let l
  | SExpr e => site_expr e
  | SItem i => site_item i
  end
with site_let (l : LetStmt) : list Site :=
  let 'mkLetStmt _ _ ty value _ := l in opt_list site_ty ty ++ opt_list site_expr value
with site_arm (a : MatchArm) : list Site :=
  let 'mkMatchArm _ guard body _ := a in opt_list site_expr guard ++ site_expr body
with site_operation (a : SelectArm) : list Site := let 'mkSelectArm operation _ _ := a in site_expr operation
with site_select_body (a : SelectArm) : list Site := let 'mkSelectArm _ body _ := a in site_block body
with site_fn (f : FnDecl) : list Site :=
  let 'mkFnDecl _ name_splice _ params return_ty body _ _ _ _ _ _ _ := f in
  opt_list (fun name => [(expr_span name, name)]) name_splice ++ concat (map site_param params) ++ opt_list site_ty return_ty
    ++ site_block body
with site_item (i : Item) : list Site :=
  match i with
  | IMethods (mkMethodsBlock _ target methods _ _) => site_ty target ++ concat (map site_fn methods)
  | IFn f => site_fn f
  | IStruct (mkStructDecl _ _ _ methods _ _ _ _ _) => concat (map site_fn methods)
  | IEnum (mkEnumDecl _ _ _ methods _ _ _ _) => concat (map site_fn methods)
  | _ => []
  end.

Definition splice_sites (q : QuoteBody) : list Site :=
  match q with QItem i => site_item i | QExpr e => site_expr e end.

(** The general case of the traversal: the types, then the children. *)
Lemma site_expr_children e :
  match e with EQuote _ _ | ESplice _ _ => False | ECall callee _ args _ => negb (is_splice_field callee && (length args =? 2)) | _ => True end ->
  site_expr e = site_own_tys e ++ concat (map site_expr (children e).1) ++ concat (map site_block (children e).2).
Proof.
  destruct e; try done; intros H; cbn [site_own_tys children fst snd map concat app site_expr]; rewrite ?app_nil_r; try done.
  - by destruct else_branch; cbn [opt_list map concat app]; rewrite ?app_nil_r, <- ?app_assoc.
  - f_equal. induction arms as [|[p g b s] arms IH]; [done|]. cbn [map concat]. rewrite map_app, concat_app, <- IH.
    cbn [site_arm]. destruct g; cbn [opt_list map concat app]; by rewrite ?app_nil_r, ?map_app, ?concat_app, <- ?app_assoc.
  - destruct args as [|a [|b [|c l]]]; try done. simpl in H. destruct (is_splice_field e); done.
  - by destruct value; cbn [opt_list map concat app]; rewrite ?app_nil_r.
  - by destruct value; cbn [opt_list map concat app]; rewrite ?app_nil_r.
  - rewrite map_map, map_app, concat_app, map_map. f_equal; [|f_equal].
    + f_equal. apply map_ext. by intros [].
    + f_equal. apply map_ext. by intros [].
    + by destruct default_; cbn [opt_list map concat app]; rewrite ?app_nil_r.
  - by rewrite map_map.
Qed.

(** ** All splices, and those out of reach

    [all_*] lists every splice of a piece of syntax that does not belong to a
    nested [quote], wherever it is: also in constants, the fields of structs
    and enums, generic parameters and their bounds, associated types, traits,
    [extern] blocks and the constants among the arguments of a type. *)

Fixpoint all_expr (e : Expr) : list Site :=
  match e with
  | EQuote _ _ => []
  | ESplice inner sp => [(sp, inner)]
  | ECall callee type_args ([base; name] as args) sp =>
      if is_splice_field callee then concat (map all_ty type_args) ++ all_expr base ++ [(sp, name)]
      else concat (map all_ty type_args) ++ all_expr callee ++ concat (map all_expr args)
  | ECall callee type_args args _ => concat (map all_ty type_args) ++ all_expr callee ++ concat (map all_expr args)
  | EAssociatedCall ty _ args _ => all_ty ty ++ concat (map all_expr args)
  | EStructLiteral ty fields _ => all_ty ty ++ concat (map (fun f => all_expr f.2) fields)
  | ECast e ty _ => all_ty ty ++ all_expr e
  | EClosure params body _ => concat (map all_closure_param params) ++ all_expr body
  | ELiteral _ _ | EIdent _ _ | EContinue _ => []
  | EBlock b | EUnsafe b _ => all_block b
  | EIf condition then_branch else_branch _ => all_expr condition ++ all_block then_branch ++ opt_list all_expr else_branch
  | ELoop body _ => all_block body
  | EWhile condition body _ => all_expr condition ++ all_block body
  | EMatch scrutinee arms _ => all_expr scrutinee ++ concat (map all_arm arms)
  | EMethodCall receiver _ args _ => all_expr receiver ++ concat (map all_expr args)
  | EBinary _ l r _ => all_expr l ++ all_expr r
  | EAssign target value _ => all_expr target ++ all_expr value
  | EIndex base index _ => all_expr base ++ concat (map all_expr index)
  | EReturn value _ | EBreak value _ => opt_list all_expr value
  | EUnary _ e _ | EField e _ _ | ESpawn e _ | EComptime e _ | EYield e _ | EBorrow _ e _ | ETry e _ => all_expr e
  | ESelect arms default_ _ => concat (map all_select_arm arms) ++ opt_list all_block default_
  | ETuple items _ => concat (map all_expr items)
  end
with all_block (b : Block) : list Site :=
  let 'mkBlock stmts tail _ := b in concat (map all_stmt stmts) ++ opt_list all_expr tail
with all_stmt (st : Stmt) : list Site :=
  match st with SLet l => all_let l | SExpr e => all_expr e | SItem i => all_item i end
with all_let (l : LetStmt) : list Site :=
  let 'mkLetStmt _ _ ty value _ := l in opt_list all_ty ty ++ opt_list all_expr value
with all_arm (a : MatchArm) : list Site :=
  let 'mkMatchArm _ guard body _ := a in opt_list all_expr guard ++ all_expr body
with all_closure_param (p : ClosureParam) : list Site := let 'mkClosureParam _ ty _ := p in opt_list all_ty ty
with all_select_arm (a : SelectArm) : list Site := let 'mkSelectArm operation body _ := a in all_expr operation ++ all_block body
with all_ty (t : Ty) : list Site :=
  match t with
  | TSplice inner sp => [(sp, inner)]
  | TConst e _ => all_expr e
  | TGeneric _ args _ | TTuple args _ => concat (map all_ty args)
  | TSlice inner _ | TBorrow _ _ inner _ | TRawPointer _ inner _ => all_ty inner
  | TFn params return_ty _ _ _ => concat (map all_ty params) ++ opt_list all_ty return_ty
  | TPath _ _ | TDyn _ _ | TInfer _ | TNever _ | TDynDim _ | TExpand _ _ | TExistential _ _ => []
  end
with all_kind (k : GenericParamKind) : list Site :=
  match k with KConst ty | KConstPack ty => all_ty ty | KType | KLifetime | KDim => [] end
with all_generic (g : GenericParam) : list Site :=
  let 'mkGenericParam _ kind bounds _ := g in all_kind kind ++ concat (map all_ty bounds)
with all_param (p : Param) : list Site := let 'mkParam _ ty _ := p in all_ty ty
with all_fn (f : FnDecl) : list Site :=
  let 'mkFnDecl _ name_splice generics params return_ty body _ _ _ _ _ _ _ := f in
  opt_list (fun name => [(expr_span name, name)]) name_splice ++ concat (map all_generic generics) ++ concat (map all_param params)
    ++ opt_list all_ty return_ty ++ all_block body
with all_signature (f : FnSignature) : list Site :=
  let 'mkFnSignature _ generics params return_ty body _ _ := f in
  concat (map all_generic generics) ++ concat (map all_param params) ++ opt_list all_ty return_ty ++ opt_list all_block body
with all_const (c : ConstDecl) : list Site := let 'mkConstDecl _ ty value _ _ := c in all_ty ty ++ all_expr value
with all_field (f : FieldDecl) : list Site := let 'mkFieldDecl _ ty _ _ _ := f in all_ty ty
with all_assoc (a : AssocTypeDecl) : list Site := let 'mkAssocTypeDecl _ default_ _ := a in opt_list all_ty default_
with all_struct (d : StructDecl) : list Site :=
  let 'mkStructDecl _ generics fields methods consts assoc_types _ _ _ := d in
  concat (map all_generic generics) ++ concat (map all_field fields) ++ concat (map all_const consts)
    ++ concat (map all_assoc assoc_types) ++ concat (map all_fn methods)
with all_variant_fields (v : VariantFields) : list Site :=
  match v with VUnit => [] | VTuple tys => concat (map all_ty tys) | VStruct fields => concat (map all_field fields) end
with all_variant (v : EnumVariant) : list Site := let 'mkEnumVariant _ fields _ _ := v in all_variant_fields fields
with all_enum (d : EnumDecl) : list Site :=
  let 'mkEnumDecl _ generics variants methods consts _ _ _ := d in
  concat (map all_generic generics) ++ concat (map all_variant variants) ++ concat (map all_const consts) ++ concat (map all_fn methods)
with all_trait (d : TraitDecl) : list Site :=
  let 'mkTraitDecl _ generics methods consts assoc_types _ _ _ := d in
  concat (map all_generic generics) ++ concat (map all_signature methods) ++ concat (map all_const consts) ++ concat (map all_assoc assoc_types)
with all_methods (d : MethodsBlock) : list Site :=
  let 'mkMethodsBlock generics target methods consts _ := d in
  concat (map all_generic generics) ++ all_ty target ++ concat (map all_const consts) ++ concat (map all_fn methods)
with all_extern (x : ExternBlock) : list Site := let 'mkExternBlock _ functions _ _ := x in concat (map all_signature functions)
with all_item (i : Item) : list Site :=
  match i with
  | IFn f => all_fn f
  | IStruct d => all_struct d
  | IEnum d => all_enum d
  | ITrait d => all_trait d
  | IMethods d => all_methods d
  | IUse _ => []
  | IConst c => all_const c
  | IExtern x => all_extern x
  end.

Definition all_splices (q : QuoteBody) : list Site :=
  match q with QItem i => all_item i | QExpr e => all_expr e end.

(** [unseen_*]: the splices at positions that [splice_sites] does not look at:
    the constants of types, generic parameters, constants, fields, variants and
    associated types, and traits and [extern] blocks as a whole.  What a splice
    replaces is not counted. *)

Fixpoint unseen_ty (t : Ty) : list Site :=
  match t with
  | TConst e _ => all_expr e
  | TGeneric _ args _ | TTuple args _ => concat (map unseen_ty args)
  | TSlice inner _ | TBorrow _ _ inner _ | TRawPointer _ inner _ => unseen_ty inner
  | TFn params return_ty _ _ _ => concat (map unseen_ty params) ++ opt_list unseen_ty return_ty
  | TSplice _ _ | TPath _ _ | TDyn _ _ | TInfer _ | TNever _ | TDynDim _ | TExpand _ _ | TExistential _ _ => []
  end.

Definition unseen_closure_param (p : ClosureParam) : list Site := let 'mkClosureParam _ ty _ := p in opt_list unseen_ty ty.
Definition unseen_param (p : Param) : list Site := let 'mkParam _ ty _ := p in unseen_ty ty.

Fixpoint unseen_expr (e : Expr) : list Site :=
  match e with
  | EQuote _ _ | ESplice _ _ => []
  | ECall callee type_args ([base; name] as args) _ =>
      if is_splice_field callee then unseen_expr base
      else concat (map unseen_ty type_args) ++ unseen_expr callee ++ concat (map unseen_expr args)
  | ECall callee type_args args _ => concat (map unseen_ty type_args) ++ unseen_expr callee ++ concat (map unseen_expr args)
  | EAssociatedCall ty _ args _ => unseen_ty ty ++ concat (map unseen_expr args)
  | EStructLiteral ty fields _ => unseen_ty ty ++ concat (map (fun f => unseen_expr f.2) fields)
  | ECast e ty _ => unseen_ty ty ++ unseen_expr e
  | EClosure params body _ => concat (map unseen_closure_param params) ++ unseen_expr body
  | ELiteral _ _ | EIdent _ _ | EContinue _ => []
  | EBlock b | EUnsafe b _ => unseen_block b
  | EIf condition then_branch else_branch _ => unseen_expr condition ++ unseen_block then_branch ++ opt_list unseen_expr else_branch
  | ELoop body _ => unseen_block body
  | EWhile condition body _ => unseen_expr condition ++ unseen_block body
  | EMatch scrutinee arms _ => unseen_expr scrutinee ++ concat (map unseen_arm arms)
  | EMethodCall receiver _ args _ => unseen_expr receiver ++ concat (map unseen_expr args)
  | EBinary _ l r _ => unseen_expr l ++ unseen_expr r
  | EAssign target value _ => unseen_expr target ++ unseen_expr value
  | EIndex base index _ => unseen_expr base ++ concat (map unseen_expr index)
  | EReturn value _ | EBreak value _ => opt_list unseen_expr value
  | EUnary _ e _ | EField e _ _ | ESpawn e _ | EComptime e _ | EYield e _ | EBorrow _ e _ | ETry e _ => unseen_expr e
  | ESelect arms default_ _ => concat (map unseen_select_arm arms) ++ opt_list unseen_block default_
  | ETuple items _ => concat (map unseen_expr items)
  end
with unseen_block (b : Block) : list Site :=
  let 'mkBlock stmts tail _ := b in concat (map unseen_stmt stmts) ++ opt_list unseen_expr tail
with unseen_stmt (st : Stmt) : list Site :=
  match st with SLet l => unseen_let l | SExpr e => unseen_expr e | SItem i => unseen_item i end
with unseen_let (l : LetStmt) : list Site :=
  let 'mkLetStmt _ _ ty value _ := l in opt_list unseen_ty ty ++ opt_list unseen_expr value
with unseen_arm (a : MatchArm) : list Site :=
  let 'mkMatchArm _ guard body _ := a in opt_list unseen_expr guard ++ unseen_expr body
with unseen_select_arm (a : SelectArm) : list Site :=
  let 'mkSelectArm operation body _ := a in unseen_expr operation ++ unseen_block body
with unseen_fn (f : FnDecl) : list Site :=
  let 'mkFnDecl _ _ generics params return_ty body _ _ _ _ _ _ _ := f in
  concat (map all_generic generics) ++ concat (map unseen_param params) ++ opt_list unseen_ty return_ty ++ unseen_block body
with unseen_item (i : Item) : list Site :=
  match i with
  | IFn f => unseen_fn f
  | IStruct (mkStructDecl _ generics fields methods consts assoc_types _ _ _) =>
      concat (map all_generic generics) ++ concat (map all_field fields) ++ concat (map all_const consts)
        ++ concat (map all_assoc assoc_types) ++ concat (map unseen_fn methods)
  | IEnum (mkEnumDecl _ generics variants methods consts _ _ _) =>
      concat (map all_generic generics) ++ concat (map all_variant variants) ++ concat (map all_const consts)
        ++ concat (map unseen_fn methods)
  | IMethods (mkMethodsBlock generics target methods consts _) =>
      concat (map all_generic generics) ++ unseen_ty target ++ concat (map all_const consts) ++ concat (map unseen_fn methods)
  | ITrait _ | IUse _ | IConst _ | IExtern _ => all_item i
  end.

Definition unseen_splices (q : QuoteBody) : list Site :=
  match q with QItem i => unseen_item i | QExpr e => unseen_expr e end.

(** ** Types as syntax *)

(** [name.split("::")] *)
Fixpoint split_path (s : string) (acc : string) : list string :=
  match s with
  | EmptyString => [acc]
  | String ":" (String ":" rest) => acc :: split_path rest EmptyString
  | String a rest => split_path rest (acc +:+ String a EmptyString)
  end.

Section Quote.
(** [Type::name]. *)
Context (type_name : Type_ -> string).

Fixpoint type_to_ty (ty : Type_) (sp : Span) : Ty :=
  let path (name : string) := TPath [name] sp in
  match ty with
  | TyStruct name args | TyEnum name args =>
      let path := split_path name EmptyString in
      match args with
      | [] => TPath path sp
      | _ => TGeneric path (map (fun arg => type_to_ty arg sp) args) sp
      end
  | TyBorrow mutable ty => TBorrow mutable None (type_to_ty ty sp) sp
  | TyRawPointer mutable ty => TRawPointer mutable (type_to_ty ty sp) sp
  | TySlice ty => TSlice (type_to_ty ty sp) sp
  | TyTuple items => TTuple (map (fun item => type_to_ty item sp) items) sp
  | TyFn params ret extern_abi is_unsafe =>
      TFn (map (fun param => type_to_ty param sp) params) (Some (type_to_ty ret sp)) extern_abi is_unsafe sp
  | TyUnit => TTuple [] sp
  | TyNever => TNever sp
  | TyGeneric name => path name
  | TyTypeValue _ => path "type"%string
  | TyUnknown | TyError => TInfer sp
  | other => path (type_name other)
  end.

(** [resolve_ty]: the type a declared field type open_lists. *)
Fixpoint resolve_ty (ty : Ty) (enums : list string) : Type_ :=
  match ty with
  | TPath [name] _ =>
      if bool_decide (name = "i8"%string) then TyInt I8
      else if bool_decide (name = "i16"%string) then TyInt I16
      else if bool_decide (name = "i32"%string) then TyInt I32
      else if bool_decide (name = "i64"%string) then TyInt I64
      else if bool_decide (name = "u8"%string \/ name = "byte"%string) then TyInt U8
      else if bool_decide (name = "u16"%string) then TyInt U16
      else if bool_decide (name = "u32"%string) then TyInt U32
      else if bool_decide (name = "u64"%string) then TyInt U64
      else match FloatWidth.from_name name with
           | Some w => TyFloat w
           | None =>
               if bool_decide (name = "bool"%string) then TyBool
               else if bool_decide (name = "char"%string) then TyChar
               else if bool_decide (name = "string"%string) then TyString
               else if bool_decide (name ∈ enums) then TyEnum name []
               else TyStruct name []
           end
  | TBorrow mutable _ ty _ => TyBorrow mutable (resolve_ty ty enums)
  | TRawPointer mutable ty _ => TyRawPointer mutable (resolve_ty ty enums)
  | TSlice ty _ => TySlice (resolve_ty ty enums)
  | _ => TyUnknown
  end.

(** ** [substitute] *)

Inductive Splice :=
| SplType (ty : Type_)
| SplCode (code : QuoteBody)
| SplString (s : string)
| SplInt (z : Z)
| SplFloat (f : f64)
| SplBool (b : bool)
| SplChar (c : Z).

Definition splice_expr (value : Splice) (sp : Span) : result Expr string :=
  match value with
  | SplString s => Ok (ELiteral (LString s) sp)
  | SplInt z => Ok (ELiteral (LInt z) sp)
  | SplFloat f => Ok (ELiteral (LFloat (to_bits prec emax f)) sp)
  | SplBool b => Ok (ELiteral (LBool b) sp)
  | SplChar c => Ok (ELiteral (LChar c) sp)
  | SplCode (QExpr e) => Ok e
  | SplCode (QItem _) => Err "cannot splice an item-shaped `Code` into an expression position"%string
  | SplType ty => Err ("cannot splice the type `" +:+ type_name ty +:+ "` into an expression position")
  end.

Definition UNEVALUATED : string := "a `quote` splice was not evaluated".

Context (values : gmap Span Splice).

(** [Splicer]: the first error, or a later one of a wrong kind. *)
Abbreviation Splicer := (option string) (only parsing).

Definition value (sp : Span) (s : Splicer) : option Splice * Splicer :=
  match values !! sp with
  | Some v => (Some v, s)
  | None => (None, match s with None => Some UNEVALUATED | Some e => Some e end)
  end.

Fixpoint sub_ty (t : Ty) (s : Splicer) : Ty * Splicer :=
  match t with
  | TSplice _ sp =>
      match value sp s with
      | (Some (SplType ty), s) => (type_to_ty ty sp, s)
      | (Some _, _) => (t, Some "a type-position splice must evaluate to a type value"%string)
      | (None, s) => (t, s)
      end
  | TGeneric path args sp => let '(args, s) := for_each_mut sub_ty args s in (TGeneric path args sp, s)
  | TTuple args sp => let '(args, s) := for_each_mut sub_ty args s in (TTuple args sp, s)
  | TSlice inner sp => let '(inner, s) := sub_ty inner s in (TSlice inner sp, s)
  | TBorrow m l inner sp => let '(inner, s) := sub_ty inner s in (TBorrow m l inner sp, s)
  | TRawPointer m inner sp => let '(inner, s) := sub_ty inner s in (TRawPointer m inner sp, s)
  | TFn params return_ty abi u sp =>
      let '(params, s) := for_each_mut sub_ty params s in
      let '(return_ty, s) := if_some_mut sub_ty return_ty s in (TFn params return_ty abi u sp, s)
  | TPath _ _ | TDyn _ _ | TInfer _ | TNever _ | TConst _ _ | TDynDim _ | TExpand _ _ | TExistential _ _ => (t, s)
  end.

Definition sub_closure_param (p : ClosureParam) (s : Splicer) : ClosureParam * Splicer :=
  let 'mkClosureParam pattern ty sp := p in
  let '(ty, s) := if_some_mut sub_ty ty s in (mkClosureParam pattern ty sp, s).

Definition sub_param (p : Param) (s : Splicer) : Param * Splicer :=
  let 'mkParam pattern ty sp := p in let '(ty, s) := sub_ty ty s in (mkParam pattern ty sp, s).

(** The replacement of [#(..)] in expression position. *)
Definition sub_splice (e : Expr) (sp : Span) (s : Splicer) : Expr * Splicer :=
  match value sp s with
  | (Some v, s) =>
      match splice_expr v sp with
      | Ok replacement => (replacement, s)
      | Err error => (e, Some error)
      end
  | (None, s) => (e, s)
  end.

(** The replacement of [base.#(name)], with its base already visited. *)
Definition sub_field (e base : Expr) (sp : Span) (s : Splicer) : Expr * Splicer :=
  match value sp s with
  | (Some (SplString field), s) => (EField base field sp, s)
  | (Some _, _) => (e, Some "an identifier-position splice must evaluate to a string"%string)
  | (None, s) => (e, s)
  end.

(** The name of a function, when it is spliced. *)
Definition sub_name (name : string) (name_splice : option Expr) (s : Splicer) : string * Splicer :=
  match name_splice with
  | None => (name, s)
  | Some e =>
      match value (expr_span e) s with
      | (Some (SplString n), s) => (n, s)
      | (Some _, _) => (name, Some "a function-name splice must evaluate to a string"%string)
      | (None, s) => (name, s)
      end
  end.

Fixpoint sub_expr (e : Expr) (s : Splicer) : Expr * Splicer :=
  match s with
  | Some _ => (e, s)
  | None =>
      match e with
      | EQuote _ _ => (e, s)
      | ESplice _ sp => sub_splice e sp s
      | ECall callee type_args args sp =>
          let general :=
            let '(type_args, s) := for_each_mut sub_ty type_args s in
            let '(callee, s) := sub_expr callee s in
            let '(args, s) := for_each_mut sub_expr args s in (ECall callee type_args args sp, s) in
          match args with
          | [base; _] =>
              if is_splice_field callee then let '(base, s) := sub_expr base s in sub_field e base sp s else general
          | _ => general
          end
      | EAssociatedCall ty f args sp =>
          let '(ty, s) := sub_ty ty s in
          let '(args, s) := for_each_mut sub_expr args s in (EAssociatedCall ty f args sp, s)
      | EStructLiteral ty fields sp =>
          let '(ty, s) := sub_ty ty s in
          let '(fields, s) :=
            for_each_mut (fun f s => let '(value, s) := sub_expr f.2 s in ((f.1, value), s)) fields s in
          (EStructLiteral ty fields sp, s)
      | ECast e ty sp =>
          let '(ty, s) := sub_ty ty s in let '(e, s) := sub_expr e s in (ECast e ty sp, s)
      | EClosure params body sp =>
          let '(params, s) := for_each_mut sub_closure_param params s in
          let '(body, s) := sub_expr body s in (EClosure params body sp, s)
      | EBlock b => let '(b, s) := sub_block b s in (EBlock b, s)
      | EUnsafe b sp => let '(b, s) := sub_block b s in (EUnsafe b sp, s)
      | ELoop body sp => let '(body, s) := sub_block body s in (ELoop body sp, s)
      | EWhile condition body sp =>
          let '(condition, s) := sub_expr condition s in
          let '(body, s) := sub_block body s in (EWhile condition body sp, s)
      | EIf condition then_branch else_branch sp =>
          let '(condition, s) := sub_expr condition s in
          let '(then_branch, s) := sub_block then_branch s in
          let '(else_branch, s) := if_some_mut sub_expr else_branch s in (EIf condition then_branch else_branch sp, s)
      | ESelect arms default_ sp =>
          let '(arms, s) := for_each_mut sub_select_arm arms s in
          let '(default_, s) := if_some_mut sub_block default_ s in (ESelect arms default_ sp, s)
      | ELiteral _ _ | EIdent _ _ | EContinue _ => (e, s)
      | EMatch scrutinee arms sp =>
          let '(scrutinee, s) := sub_expr scrutinee s in
          let '(arms, s) := for_each_mut sub_arm arms s in (EMatch scrutinee arms sp, s)
      | EMethodCall receiver m args sp =>
          let '(receiver, s) := sub_expr receiver s in
          let '(args, s) := for_each_mut sub_expr args s in (EMethodCall receiver m args sp, s)
      | EBinary op l r sp =>
          let '(l, s) := sub_expr l s in let '(r, s) := sub_expr r s in (EBinary op l r sp, s)
      | EAssign target value sp =>
          let '(target, s) := sub_expr target s in let '(value, s) := sub_expr value s in (EAssign target value sp, s)
      | EIndex base index sp =>
          let '(base, s) := sub_expr base s in
          let '(index, s) := for_each_mut sub_expr index s in (EIndex base index sp, s)
      | EReturn value sp => let '(value, s) := if_some_mut sub_expr value s in (EReturn value sp, s)
      | EBreak value sp => let '(value, s) := if_some_mut sub_expr value s in (EBreak value sp, s)
      | EUnary op e sp => let '(e, s) := sub_expr e s in (EUnary op e sp, s)
      | EField base f sp => let '(base, s) := sub_expr base s in (EField base f sp, s)
      | ESpawn e sp => let '(e, s) := sub_expr e s in (ESpawn e sp, s)
      | EComptime e sp => let '(e, s) := sub_expr e s in (EComptime e sp, s)
      | EYield e sp => let '(e, s) := sub_expr e s in (EYield e sp, s)
      | EBorrow m e sp => let '(e, s) := sub_expr e s in (EBorrow m e sp, s)
      | ETry e sp => let '(e, s) := sub_expr e s in (ETry e sp, s)
      | ETuple items sp => let '(items, s) := for_each_mut sub_expr items s in (ETuple items sp, s)
      end
  end
with sub_block (b : Block) (s : Splicer) : Block * Splicer :=
  let 'mkBlock stmts tail sp := b in
  let '(stmts, s) := for_each_mut sub_stmt stmts s in
  let '(tail, s) := if_some_mut sub_expr tail s in (mkBlock stmts tail sp, s)
with sub_stmt (st : Stmt) (s : Splicer) : Stmt * Splicer :=
  match st with
  | SLet l => let '(l, s) := sub_let l s in (SLet l, s)
  | SExpr e => let '(e, s) := sub_expr e s in (SExpr e, s)
  | SItem i => let '(i, s) := sub_item i s in (SItem i, s)
  end
with sub_let (l : LetStmt) (s : Splicer) : LetStmt * Splicer :=
  let 'mkLetStmt m p ty value sp := l in
  let '(ty, s) := if_some_mut sub_ty ty s in
  let '(value, s) := if_some_mut sub_expr value s in (mkLetStmt m p ty value sp, s)
with sub_arm (a : MatchArm) (s : Splicer) : MatchArm * Splicer :=
  let 'mkMatchArm p guard body sp := a in
  let '(guard, s) := if_some_mut sub_expr guard s in
  let '(body, s) := sub_expr body s in (mkMatchArm p guard body sp, s)
with sub_select_arm (a : SelectArm) (s : Splicer) : SelectArm * Splicer :=
  let 'mkSelectArm operation body sp := a in
  let '(operation, s) := sub_expr operation s in
  let '(body, s) := sub_block body s in (mkSelectArm operation body sp, s)
with sub_fn (f : FnDecl) (s : Splicer) : FnDecl * Splicer :=
  let 'mkFnDecl name name_splice g params return_ty body p u i c x a sp := f in
  let '(name, s) := sub_name name name_splice s in
  let '(params, s) := for_each_mut sub_param params s in
  let '(return_ty, s) := if_some_mut sub_ty return_ty s in
  let '(body, s) := sub_block body s in
  (mkFnDecl name None g params return_ty body p u i c x a sp, s)
with sub_item (i : Item) (s : Splicer) : Item * Splicer :=
  match i with
  | IMethods (mkMethodsBlock g target methods consts sp) =>
      let '(target, s) := sub_ty target s in
      let '(methods, s) := for_each_mut sub_fn methods s in (IMethods (mkMethodsBlock g target methods consts sp), s)
  | IFn f => let '(f, s) := sub_fn f s in (IFn f, s)
  | IStruct (mkStructDecl n g fs methods consts at_ p a sp) =>
      let '(methods, s) := for_each_mut sub_fn methods s in (IStruct (mkStructDecl n g fs methods consts at_ p a sp), s)
  | IEnum (mkEnumDecl n g vs methods consts p a sp) =>
      let '(methods, s) := for_each_mut sub_fn methods s in (IEnum (mkEnumDecl n g vs methods consts p a sp), s)
  | _ => (i, s)
  end.

Definition substitute (template : QuoteBody) : result QuoteBody string :=
  let '(body, error) :=
    match template with
    | QItem i => let '(i, s) := sub_item i None in (QItem i, s)
    | QExpr e => let '(e, s) := sub_expr e None in (QExpr e, s)
    end in
  match error with Some error => Err error | None => Ok body end.

(** ** The two traversals agree *)

(** Every site has a value. *)
Definition covered (sites : list Site) : Prop := Forall (fun p => is_Some (values !! p.1)) sites.

(** One step of the substitution, over a part with the sites [sites] and the
    unseen splices [unseen], which becomes one with the splices [left]: an error
    stays, without one the unseen splices are left and no other, and where
    every site is evaluated none is reported missing. *)
Definition step (sites unseen left : list Site) (s s' : Splicer) : Prop :=
  (s <> None -> s' <> None) /\ (s' = None -> left = unseen) /\
  (covered sites -> s <> Some UNEVALUATED -> s' <> Some UNEVALUATED).

(** What [splice_sites] finds, what it does not look at, and all there is *)
Record Lists A := mkLists { found_in : A -> list Site; unseen_in : A -> list Site; all_in : A -> list Site }.
Arguments mkLists {A}.
Arguments found_in {A}.
Arguments unseen_in {A}.
Arguments all_in {A}.

Definition agrees {A} (L : Lists A) (sub : A -> Splicer -> A * Splicer) (a : A) : Prop :=
  forall s, step (found_in L a) (unseen_in L a) (all_in L (sub a s).1) s (sub a s).2.

Definition many_in {A} (L : Lists A) : Lists (list A) :=
  mkLists (fun l => concat (map (found_in L) l)) (fun l => concat (map (unseen_in L) l)) (fun l => concat (map (all_in L) l)).
Definition maybe_in {A} (L : Lists A) : Lists (option A) := mkLists (opt_list (found_in L)) (opt_list (unseen_in L)) (opt_list (all_in L)).

Definition in_expr : Lists Expr := mkLists site_expr unseen_expr all_expr.
Definition in_block : Lists Block := mkLists site_block unseen_block all_block.
Definition in_stmt : Lists Stmt := mkLists site_stmt unseen_stmt all_stmt.
Definition in_let : Lists LetStmt := mkLists site_let unseen_let all_let.
Definition in_arm : Lists MatchArm := mkLists site_arm unseen_arm all_arm.
Definition in_closure_param : Lists ClosureParam := mkLists site_closure_param unseen_closure_param all_closure_param.
Definition in_select_arm : Lists SelectArm := mkLists (fun a => site_operation a ++ site_select_body a) unseen_select_arm all_select_arm.
Definition in_ty : Lists Ty := mkLists site_ty unseen_ty all_ty.
Definition in_param : Lists Param := mkLists site_param unseen_param all_param.
Definition in_fn : Lists FnDecl := mkLists site_fn unseen_fn all_fn.
Definition in_item : Lists Item := mkLists site_item unseen_item all_item.

(** Code that can be put in a template: it has no splice, and is not the name
    that marks [base.#(name)]. *)
Definition closed_code (v : Splice) : Prop :=
  match v with SplCode (QExpr e) => all_expr e = [] /\ is_splice_field e = false | _ => True end.

Lemma covered_app l1 l2 : covered (l1 ++ l2) <-> covered l1 /\ covered l2.
Proof. apply Forall_app. Qed.

Lemma step_refl l s : step [] l l s s.
Proof. by split_and!. Qed.

Lemma step_seq l1 u1 r1 l2 u2 r2 s s1 s2 : step l1 u1 r1 s s1 -> step l2 u2 r2 s1 s2 -> step (l1 ++ l2) (u1 ++ u2) (r1 ++ r2) s s2.
Proof.
  intros (E1 & N1 & U1) (E2 & N2 & U2). split_and!; [by eauto| |].
  - intros H2. rewrite (N2 H2). rewrite N1; [done|]. destruct s1; [|done]. by destruct (E2 ltac:(done)).
  - intros [C1 C2]%covered_app H. eauto.
Qed.

(** A part that is not visited, beside the others *)
Lemma step_skip k l u r s s' : step l u r s s' -> step l (k ++ u) (k ++ r) s s'.
Proof. intros (E & N & U). split_and!; [done| |done]. intros H. by rewrite N. Qed.

Lemma step_perm l1 l2 u r s s' : l1 ≡ₚ l2 -> step l1 u r s s' -> step l2 u r s s'.
Proof. intros P (E & N & U). split_and!; [done..|]. intros C. apply U. unfold covered in *. by rewrite P. Qed.

Lemma step_for_each {A} L (sub : A -> Splicer -> A * Splicer) l : Forall (agrees L sub) l -> agrees (many_in L) (for_each_mut sub) l.
Proof.
  induction 1 as [|a l Ha _ IH]; intros s; [apply step_refl|]. cbn [for_each_mut]. specialize (Ha s).
  destruct (sub a s) as [a' s1]. specialize (IH s1). destruct (for_each_mut sub l s1) as [l' s2].
  exact (step_seq _ _ _ _ _ _ _ _ _ Ha IH).
Qed.

Lemma step_if_some {A} L (sub : A -> Splicer -> A * Splicer) o : (forall a, o = Some a -> agrees L sub a) ->
  agrees (maybe_in L) (if_some_mut sub) o.
Proof.
  destruct o as [a|]; intros H s; [|apply step_refl]. specialize (H a eq_refl s). cbn [if_some_mut].
  by destruct (sub a s).
Qed.

(** Without a value, the site is reported. *)
Lemma step_missing sp e u r s : values !! sp = None -> step [(sp, e)] u r s (value sp s).2.
Proof.
  intros H. unfold value. rewrite H. split_and!; [by destruct s|by destruct s|].
  intros [[? C] _]%Forall_cons_1. cbn in C. congruence.
Qed.

Lemma step_wrong l u r s m : m <> UNEVALUATED -> step l u r s (Some m).
Proof. intros H. split_and!; [done..|]. intros _ _. congruence. Qed.

(** A type value is written without a splice. *)
Lemma type_to_ty_closed t sp : all_ty (type_to_ty t sp) = [].
Proof.
  assert (HL : forall l, Forall (fun t => all_ty (type_to_ty t sp) = []) l ->
    concat (map all_ty (map (fun t => type_to_ty t sp) l)) = []).
  { induction 1 as [|a l Ha _ IH]; [done|]. cbn [map concat]. by rewrite Ha, IH. }
  induction t; try done; cbn [type_to_ty]; parts; cbn [all_ty opt_list]; rewrite ?HL by done; try done.
  - destruct args; [done|]. cbn [all_ty]. by rewrite HL.
  - destruct args; [done|]. cbn [all_ty]. by rewrite HL.
Qed.

Lemma step_stop l u r m : step l u r (Some m) (Some m).
Proof. by split_and!. Qed.

Hypothesis values_closed : map_Forall (fun _ => closed_code) values.

(** The three places a value is read. *)
Lemma sub_splice_step inner sp : forall s, step [(sp, inner)] [] (all_expr (sub_splice (ESplice inner sp) sp s).1) s
  (sub_splice (ESplice inner sp) sp s).2.
Proof.
  intros s. unfold sub_splice. destruct (value sp s) as [[v|] s1] eqn:E; cycle 1.
  { change s1 with (None (A := Splice), s1).2. rewrite <- E. apply step_missing. unfold value in E.
    by destruct (values !! sp). }
  unfold value in E. destruct (values !! sp) as [v'|] eqn:V; [|done]. injection E as -> <-.
  specialize (values_closed _ _ V). split_and!.
  - by destruct (splice_expr v sp).
  - destruct v as [| [i|e] | | | | |]; try done. by intros _; destruct values_closed.
  - intros _ H. by destruct v as [| [i|e] | | | | |].
Qed.

Lemma sub_field_step e base n sp u s : (s = None -> all_expr base = u) ->
  step [(sp, n)] u (all_expr (sub_field e base sp s).1) s (sub_field e base sp s).2.
Proof.
  intros Hb. unfold sub_field. destruct (values !! sp) as [v|] eqn:E; cycle 1.
  { pose proof (step_missing sp n u (all_expr e) s E) as M. unfold value in *. by rewrite E in *. }
  unfold value. rewrite E. destruct v; try by apply step_wrong. by split_and!.
Qed.

Lemma sub_name_step name e s : step [(expr_span e, e)] [] [] s (sub_name name (Some e) s).2.
Proof.
  cbn [sub_name]. destruct (values !! expr_span e) as [v|] eqn:E; cycle 1.
  { pose proof (step_missing (expr_span e) e [] [] s E) as M. unfold value in *. by rewrite E in *. }
  unfold value. rewrite E. destruct v; try by apply step_wrong. by split_and!.
Qed.

Lemma sub_ty_splice_step inner sp : agrees in_ty sub_ty (TSplice inner sp).
Proof.
  intros s. cbn [sub_ty found_in unseen_in all_in in_ty site_ty unseen_ty]. destruct (values !! sp) as [v|] eqn:E; cycle 1.
  { pose proof (step_missing sp inner [] (all_ty (TSplice inner sp)) s E) as M. unfold value in *. by rewrite E in *. }
  unfold value. rewrite E. destruct v; try by apply step_wrong. split_and!; try done. intros _. apply type_to_ty_closed.
Qed.

(** Runs the substitution of the parts of a node, and puts their steps together. *)
Ltac open_lists := cbn [found_in unseen_in all_in many_in maybe_in in_expr in_block in_stmt in_let in_arm in_closure_param in_select_arm in_ty in_param in_fn in_item].
Ltac lists_in K := cbn [found_in unseen_in all_in many_in maybe_in in_expr in_block in_stmt in_let in_arm in_closure_param in_select_arm in_ty in_param in_fn in_item] in K.
Ltac lists := repeat match goal with
  | H : Forall (agrees _ _) _ |- _ => apply step_for_each in H
  | H : forall a, ?o = Some a -> agrees _ _ a |- _ => apply step_if_some in H
  end.
Ltac run := repeat match goal with
  | H : agrees ?site ?f ?x |- context [?f ?x ?s] =>
      let K := fresh "K" in pose proof (H s) as K; lists_in K; destruct (f x s) as [? ?]; cbn [fst snd] in K
  end; cbn [fst snd].
Ltac chain := first [eassumption | eapply step_seq; [eassumption|chain] | apply step_refl | apply step_skip; chain].

Lemma select_sites arms :
  concat (map site_operation arms) ++ concat (map site_select_body arms) ≡ₚ
  concat (map (fun a => site_operation a ++ site_select_body a) arms).
Proof.
  induction arms as [|a arms IH]; [done|]. cbn [map concat]. rewrite <- IH. rewrite <- !app_assoc.
  apply Permutation_app_head. rewrite !app_assoc. apply Permutation_app_tail, Permutation_app_comm.
Qed.

Lemma sub_expr_agrees_ne e : step (site_expr e) (unseen_expr e) (all_expr (sub_expr e None).1) None (sub_expr e None).2 ->
  agrees in_expr sub_expr e.
Proof. intros H [m|]; [|done]. destruct e; apply step_stop. Qed.

Lemma fields_agree fields : Forall (fun f : string * Expr => agrees in_expr sub_expr f.2) fields ->
  agrees (many_in (mkLists (fun f => site_expr f.2) (fun f => unseen_expr f.2) (fun f => all_expr f.2)))
    (for_each_mut (fun (f : string * Expr) s => let '(value, s) := sub_expr f.2 s in ((f.1, value), s))) fields.
Proof.
  intros H. apply step_for_each. eapply Forall_impl; [exact H|]. intros [n e] He s. specialize (He s). cbn [fst snd] in *.
  by destruct (sub_expr e s).
Qed.

(** A substituted callee does not become the marker of a field splice. *)
Lemma sub_callee e s : is_splice_field e = false -> (sub_expr e s).2 = None -> is_splice_field (sub_expr e s).1 = false.
Proof.
  intros H. destruct s as [m|]; [by destruct e|].
  destruct e; try done; cbn [sub_expr];
    repeat match goal with |- context [let '(_, _) := ?x in _] => destruct x end; try done.
  - destruct args as [|b [|n [|]]]; try (repeat match goal with |- context [let '(_, _) := ?x in _] => destruct x end; done).
    destruct (is_splice_field e); repeat match goal with |- context [let '(_, _) := ?x in _] => destruct x end; [|done].
    intros E. unfold sub_field in *. destruct (value sp _) as [[[]|] ?]; done.
  - intros E. unfold sub_splice, value in *. destruct (values !! sp) as [v|] eqn:V; [|done].
    specialize (values_closed _ _ V). destruct v as [| [i|e'] | | | | |]; try done. by destruct values_closed.
Qed.

Definition splices_field (callee : Expr) (args : list Expr) : bool := is_splice_field callee && (length args =? 2).

Lemma lists_call callee ts args sp : splices_field callee args = false ->
  site_expr (ECall callee ts args sp) = concat (map site_ty ts) ++ site_expr callee ++ concat (map site_expr args) /\
  unseen_expr (ECall callee ts args sp) = concat (map unseen_ty ts) ++ unseen_expr callee ++ concat (map unseen_expr args) /\
  all_expr (ECall callee ts args sp) = concat (map all_ty ts) ++ all_expr callee ++ concat (map all_expr args).
Proof.
  unfold splices_field. destruct args as [|b [|n [|]]]; try done. cbn [site_expr unseen_expr all_expr]. by destruct (is_splice_field callee).
Qed.

Lemma sub_call callee ts args sp : splices_field callee args = false ->
  sub_expr (ECall callee ts args sp) None =
    let '(ts, s) := for_each_mut sub_ty ts None in let '(callee, s) := sub_expr callee s in
    let '(args, s) := for_each_mut sub_expr args s in (ECall callee ts args sp, s).
Proof. unfold splices_field. destruct args as [|b [|n [|]]]; try done. cbn [sub_expr]. by destruct (is_splice_field callee). Qed.

Lemma for_each_mut_length {A} (sub : A -> Splicer -> A * Splicer) l s : length (for_each_mut sub l s).1 = length l.
Proof.
  revert s. induction l as [|a l IH]; intros s; [done|]. cbn [for_each_mut]. destruct (sub a s) as [a' s1]. specialize (IH s1).
  destruct (for_each_mut sub l s1). cbn [fst length] in *. by rewrite IH.
Qed.

Lemma field_call_agrees callee type_args b n sp : is_splice_field callee = true -> agrees in_expr sub_expr b ->
  agrees in_expr sub_expr (ECall callee type_args [b; n] sp).
Proof.
  intros E Hb. apply sub_expr_agrees_ne. cbn [sub_expr site_expr unseen_expr]. rewrite E. pose proof (Hb None) as K. lists_in K.
  destruct (sub_expr b None) as [b' s1]. cbn [fst snd] in *. destruct K as (K1 & K2 & K3).
  destruct (sub_field_step (ECall callee type_args [b; n] sp) b' n sp (unseen_expr b) s1 K2) as (F1 & F2 & F3).
  split_and!; [done|exact F2|]. intros [_ [C1 C2]%covered_app]%covered_app H. auto.
Qed.

Lemma call_agrees callee type_args args sp : agrees in_expr sub_expr callee -> Forall (agrees in_ty sub_ty) type_args ->
  Forall (agrees in_expr sub_expr) args -> agrees in_expr sub_expr (ECall callee type_args args sp).
Proof.
  intros Hc Ht Ha. destruct (splices_field callee args) eqn:E.
  - unfold splices_field in E. destruct args as [|b [|n [|]]]; try (rewrite andb_false_r in E; done).
    rewrite andb_true_r in E. apply Forall_cons in Ha as [Hb _]. by apply field_call_agrees.
  - apply sub_expr_agrees_ne. destruct (lists_call callee type_args args sp E) as (-> & -> & _).
    rewrite sub_call by done. pose proof (sub_callee callee) as C. lists.
    pose proof (for_each_mut_length sub_expr args) as L. specialize (Ht None). lists_in Ht.
    destruct (for_each_mut sub_ty type_args None) as [ts s1]. specialize (C s1). specialize (Hc s1). lists_in Hc.
    destruct (sub_expr callee s1) as [c s2]. specialize (Ha s2). lists_in Ha. specialize (L s2).
    destruct (for_each_mut sub_expr args s2) as [args' s3]. cbn [fst snd] in *.
    pose proof (step_seq _ _ _ _ _ _ _ _ _ Ht (step_seq _ _ _ _ _ _ _ _ _ Hc Ha)) as (K1 & K2 & K3).
    split_and!; [done| |done]. intros ->. destruct (lists_call c ts args' sp) as (_ & _ & ->); [|by apply K2].
    unfold splices_field in *. rewrite L. destruct (is_splice_field callee); [simpl in E; by rewrite E, andb_false_r|].
    destruct Ha as [Ha _]. destruct s2; [by destruct (Ha ltac:(done))|]. by rewrite C.
Qed.

Lemma if_agrees c t o sp : agrees in_expr sub_expr c -> agrees in_block sub_block t ->
  (forall a, o = Some a -> agrees in_expr sub_expr a) -> agrees in_expr sub_expr (EIf c t o sp).
Proof.
  intros Hc Ht Ho. apply sub_expr_agrees_ne. cbn [sub_expr]. lists. run. cbn [site_expr unseen_expr all_expr].
  eapply step_perm; [apply Permutation_app_head, Permutation_app_comm|]. chain.
Qed.

Lemma select_agrees arms o sp : Forall (agrees in_select_arm sub_select_arm) arms -> (forall b, o = Some b -> agrees in_block sub_block b) ->
  agrees in_expr sub_expr (ESelect arms o sp).
Proof.
  intros Ha Ho. apply sub_expr_agrees_ne. cbn [sub_expr]. lists. run. cbn [site_expr unseen_expr all_expr].
  rewrite app_assoc. eapply step_perm; [apply Permutation_app_tail; symmetry; apply select_sites|]. chain.
Qed.

Lemma fn_agrees n ns g ps r b p u i c x a sp : Forall (agrees in_param sub_param) ps ->
  (forall t, r = Some t -> agrees in_ty sub_ty t) -> agrees in_block sub_block b ->
  agrees in_fn sub_fn (mkFnDecl n ns g ps r b p u i c x a sp).
Proof.
  intros Hp Hr Hb s. cbn [sub_fn]. open_lists. assert (step (opt_list (fun name => [(expr_span name, name)]) ns) [] [] s (sub_name n ns s).2) as Hn.
  { destruct ns; [apply sub_name_step|apply step_refl]. }
  destruct (sub_name n ns s) as [n' s1]. lists. run. cbn [site_fn unseen_fn all_fn opt_list].
  eapply (step_seq _ [] [] _ _ _ _ _ _ Hn). apply step_skip. chain.
Qed.

Lemma methods_agree g t ms cs sp : agrees in_ty sub_ty t -> Forall (agrees in_fn sub_fn) ms ->
  agrees in_item sub_item (IMethods (mkMethodsBlock g t ms cs sp)).
Proof.
  intros Ht Hm s. cbn [sub_item]. lists. run. open_lists. cbn [site_item unseen_item all_item all_methods].
  apply step_skip. eapply step_seq; [eassumption|]. by apply step_skip.
Qed.

Lemma sub_agrees :
  (forall e, agrees in_expr sub_expr e) /\ (forall b, agrees in_block sub_block b) /\
  (forall st, agrees in_stmt sub_stmt st) /\ (forall l, agrees in_let sub_let l) /\
  (forall a, agrees in_arm sub_arm a) /\ (forall p, agrees in_closure_param sub_closure_param p) /\
  (forall a, agrees in_select_arm sub_select_arm a) /\ (forall q : QuoteBody, True) /\ (forall t, agrees in_ty sub_ty t) /\
  (forall k : GenericParamKind, True) /\ (forall g : GenericParam, True) /\ (forall p, agrees in_param sub_param p) /\
  (forall f, agrees in_fn sub_fn f) /\ (forall f : FnSignature, True) /\ (forall c : ConstDecl, True) /\
  (forall f : FieldDecl, True) /\ (forall a : AssocTypeDecl, True) /\
  (forall d, agrees in_item sub_item (IStruct d)) /\ (forall v : VariantFields, True) /\ (forall v : EnumVariant, True) /\
  (forall d, agrees in_item sub_item (IEnum d)) /\ (forall d : TraitDecl, True) /\
  (forall d, agrees in_item sub_item (IMethods d)) /\ (forall x : ExternBlock, True) /\
  (forall i, agrees in_item sub_item i).
Proof.
  apply Syntax_ind; try done; intros; parts.
  all: try (first [apply call_agrees | apply if_agrees | apply select_agrees | apply fn_agrees | apply methods_agree]; assumption).
  all: try apply sub_ty_splice_step.
  all: try (apply sub_expr_agrees_ne, sub_splice_step).
  all: try match goal with H : Forall (fun f => agrees _ _ f.2) _ |- _ => apply fields_agree in H end.
  all: lists.
  all: try (apply sub_expr_agrees_ne; cbn [sub_expr]; run; cbn [site_expr unseen_expr all_expr]; chain; fail).
  all: try (intros ?; cbn [sub_block sub_select_arm sub_stmt sub_let sub_arm sub_fn sub_item sub_ty sub_param sub_closure_param]; run; open_lists;
    cbn [site_operation site_select_body site_block site_stmt site_let site_arm site_fn site_item site_ty site_param site_closure_param
      unseen_block unseen_select_arm unseen_stmt unseen_let unseen_arm unseen_fn unseen_item unseen_ty unseen_param unseen_closure_param
      all_block all_select_arm all_stmt all_let all_arm all_fn all_item all_struct all_enum all_ty all_param all_closure_param]; chain; fail).
  all: try (intros ?; apply step_refl).
Qed.

Lemma substitute_step template :
  (forall body, substitute template = Ok body -> all_splices body = unseen_splices template) /\
  (covered (splice_sites template) -> substitute template <> Err UNEVALUATED).
Proof.
  destruct sub_agrees as (HE & _). assert (HI : forall i, agrees in_item sub_item i) by apply sub_agrees.
  unfold substitute, splice_sites. destruct template as [i|e].
  - destruct (HI i None) as (_ & N & U). destruct (sub_item i None) as [i' [m|]]; cbn [fst snd] in *; split.
    + done.
    + intros C H. apply (U C); [done|congruence].
    + intros body [= <-]. auto.
    + done.
  - destruct (HE e None) as (_ & N & U). destruct (sub_expr e None) as [e' [m|]]; cbn [fst snd] in *; split.
    + done.
    + intros C H. apply (U C); [done|congruence].
    + intros body [= <-]. auto.
    + done.
Qed.
End Quote.

(** ** [render] and [Code::join]

    [debug_str] is the [Debug] text of a string, which goes into a message only. *)

Section Join.
Context (lowercase_start : string -> bool) (debug_str : string -> string).

Definition render (code : QuoteBody) : option string :=
  match code with
  | QItem i => format_item_text lowercase_start i
  | QExpr e => format_expr_text lowercase_start e
  end.

Definition ty_name (ty : Ty) : option string :=
  match ty with TPath path _ | TGeneric path _ _ => Some (join_path path) | _ => None end.

(** The loop that merges the [methods] blocks after the first. *)
Fixpoint merge_methods (merged : MethodsBlock) (pieces : list QuoteBody) : result MethodsBlock string :=
  match pieces with
  | [] => Ok merged
  | QItem (IMethods (mkMethodsBlock _ target methods consts _)) :: pieces =>
      let 'mkMethodsBlock g target0 methods0 consts0 sp := merged in
      if negb (bool_decide (ty_name target = ty_name target0)) then
        Err "Code::join can only merge `methods` blocks for the same type"%string
      else merge_methods (mkMethodsBlock g target0 (methods0 ++ methods) (consts0 ++ consts) sp) pieces
  | _ :: _ => Err "Code::join cannot mix `methods` blocks with other `Code`"%string
  end.

(** The loop that renders the expressions.  The outer option is the panic of the
    formatter. *)
Fixpoint render_pieces (pieces : list QuoteBody) : option (result (list string) string) :=
  match pieces with
  | [] => Some (Ok [])
  | QExpr e :: pieces =>
      text ← format_expr_text lowercase_start e;
      rest ← render_pieces pieces;
      Some (match rest with Ok rest => Ok (text :: rest) | Err m => Err m end)
  | QItem _ :: _ => Some (Err "Code::join only supports expression-shaped `Code`"%string)
  end.

(** [parse_module(..).ok().filter(|_| !reporter.has_errors())].  The parser
    neither panics nor runs out of its depth. *)
Definition parsed_module (text : string) : option Module :=
  let '(file, sources) := add_file SourceMap_new (chars "<Code::join>") (chars text) in
  let '(tokens, reporter) := lex (default [] (source sources file)) file (mkReporter []) in
  match parse_module tokens reporter with
  | Done m p => if has_errors (ParseBase.reporter p) then None else Some m
  | _ => None
  end.

Definition join (pieces : list QuoteBody) (separator : string) : option (result QuoteBody string) :=
  match pieces with
  | QItem (IMethods first) :: rest =>
      Some (match merge_methods first rest with Ok merged => Ok (QItem (IMethods merged)) | Err m => Err m end)
  | _ =>
      rendered ← render_pieces pieces;
      match rendered with
      | Err m => Some (Err m)
      | Ok rendered =>
          let joined := String.concat separator rendered in
          Some (match parsed_module ("fn __code_join__() { " +:+ joined +:+ " }") with
                | None => Err ("Code::join produced invalid Paco syntax: " +:+ debug_str joined)
                | Some module =>
                    match last (items module) with
                    | Some (IFn (mkFnDecl _ _ _ _ _ (mkBlock _ tail _) _ _ _ _ _ _ _)) =>
                        match tail with
                        | Some tail => Ok (QExpr tail)
                        | None => Err "Code::join produced an empty expression"%string
                        end
                    | _ => Err "Code::join failed to parse its joined fragments"%string
                    end
                end)
      end
  end.
End Join.

(** The blocks merge in order, under the generics, target and span of the first. *)
Lemma merge_methods_ok pieces : forall g t ms cs sp b, merge_methods (mkMethodsBlock g t ms cs sp) pieces = Ok b ->
  exists blocks, pieces = map (fun b => QItem (IMethods b)) blocks /\
    b = mkMethodsBlock g t (ms ++ concat (map (fun '(mkMethodsBlock _ _ ms _ _) => ms) blocks))
          (cs ++ concat (map (fun '(mkMethodsBlock _ _ _ cs _) => cs) blocks)) sp /\
    Forall (fun '(mkMethodsBlock _ t' _ _ _) => ty_name t' = ty_name t) blocks.
Proof.
  induction pieces as [|p pieces IH]; intros g t ms cs sp b; cbn [merge_methods].
  - intros [= <-]. exists []. by rewrite !app_nil_r.
  - destruct p as [[| | | |[g' t' ms' cs' sp']| | |]|]; try done. case_bool_decide as E; [|done]. cbn [negb].
    intros (blocks & -> & -> & HF)%IH. exists (mkMethodsBlock g' t' ms' cs' sp' :: blocks).
    cbn [map concat]. rewrite <- !app_assoc. split_and!; [done..|]. by constructor.
Qed.

Definition no_span : Span := mkSpan FileId_ROOT 0 0.

(** Expressions are joined as text: the precedence of the separator decides how
    they group, whatever the pieces are. *)
Example join_regroups :
  join (fun _ => false) (fun s => s)
    [QExpr (EBinary Add (EIdent "a" no_span) (EIdent "b" no_span) no_span); QExpr (EIdent "c" no_span)] " * "
  = Some (Ok (QExpr
      (EBinary Add (EIdent "a" (mkSpan FileId_ROOT 21 22))
         (EBinary Mul (EIdent "b" (mkSpan FileId_ROOT 25 26)) (EIdent "c" (mkSpan FileId_ROOT 29 30)) (mkSpan FileId_ROOT 25 30))
         (mkSpan FileId_ROOT 21 30)))).
Proof. vm_compute. reflexivity. Qed.

(** C21: quoting: where every expression that [splice_sites] finds in a template
    has a value, [substitute] never finds a splice without one; and the code it
    returns has, of all splices outside nested quotes, exactly those of the
    template at the positions that [splice_sites] does not look at: the constants
    in types, generic parameters, constants, fields, variants and associated
    types, traits and [extern] blocks.  So a template without splices there has
    none left; one with a splice there keeps it ([splice_left_behind]).  The code
    put in must itself be free of splices and not be the bare name
    [splice_field]. *)
Theorem substitute_complete type_name values template :
  map_Forall (fun _ => closed_code) values ->
  (forall body, substitute type_name values template = Ok body -> all_splices body = unseen_splices template) /\
  (covered values (splice_sites template) -> substitute type_name values template <> Err UNEVALUATED).
Proof. intros H. by apply substitute_step. Qed.

(** [fn #(name)(x: #(T)) { x.#(field) + #(code) }] *)
Definition sample_template : QuoteBody :=
  let sp n := mkSpan FileId_ROOT n (S n) in
  QItem (IFn (mkFnDecl "_" (Some (EIdent "name" (sp 1))) [] [mkParam (PIdent "x" (sp 2)) (TSplice (EIdent "T" (sp 3)) (sp 4)) (sp 2)]
    None
    (mkBlock []
       (Some (EBinary Add
          (ECall (EIdent "splice_field" (sp 5)) [] [EIdent "x" (sp 6); EIdent "field" (sp 7)] (sp 8))
          (ESplice (EIdent "code" (sp 9)) (sp 10)) (sp 8)))
       (sp 11))
    false false false false None [] (sp 0))).

Definition sample_values : gmap Span Splice :=
  let sp n := mkSpan FileId_ROOT n (S n) in
  <[sp 1 := SplString "get"]> (<[sp 4 := SplType (TyInt I32)]> (<[sp 8 := SplString "y"]>
    (<[sp 10 := SplCode (QExpr (EIdent "z" (sp 20)))]> ∅))).

Lemma substitute_complete_witness :
  substitute (fun _ => EmptyString) sample_values sample_template <> Err UNEVALUATED /\
  (forall body, substitute (fun _ => EmptyString) sample_values sample_template = Ok body -> all_splices body = []) /\
  exists body, substitute (fun _ => EmptyString) sample_values sample_template = Ok body.
Proof.
  destruct (substitute_complete (fun _ => EmptyString) sample_values sample_template) as [H1 H2].
  - unfold sample_values. repeat apply map_Forall_insert_2; try exact I; [by vm_compute|apply map_Forall_empty].
  - split_and!; [|exact H1|eexists; vm_compute; reflexivity].
    apply H2. unfold covered. repeat constructor; vm_compute; eauto.
Defined.

(** The splice in the constant of this [methods] block, bytes 30 to 35, is not among
    the sites, so that it is not evaluated, and it is not replaced: the code is
    returned without an error and with it.  (The splice of the target is at
    bytes 8 to 12.) *)
Example splice_left_behind :
  let at_ a b := mkSpan FileId_ROOT a b in
  let template := QItem <$> ((items <$> parsed_module "methods #(t) { const N: i64 = #(41); }") ≫= head) in
  let body := template ≫= fun q => match substitute (fun _ => EmptyString) {[at_ 8 12 := SplType (TyInt I32)]} q with Ok b => Some b | Err _ => None end in
  map fst ∘ splice_sites <$> template = Some [at_ 8 12] /\
  map fst ∘ all_splices <$> template = Some [at_ 8 12; at_ 30 35] /\
  map fst ∘ all_splices <$> body = Some [at_ 30 35].
Proof. vm_compute. repeat split. Qed.
