(* ===== verification/Machine.v ===== *)
(** The machine of compile-time evaluation: state, types, places, operands and
    the drop and clone glue of [paco-comptime/src/machine.rs].

    A computation takes a machine and returns an outcome and the machine as the
    code leaves it, on an error too: a failing call still removes its frame.
    An index out of range, an [expect] and an arithmetic overflow of a [u64] are
    [Panic]s.

    The bodies, declarations and layouts of the program are parameters, as are
    the [Debug] texts in messages, the decimal text of a float and the functions of
    [libm].
    Glue follows the data as deep as it is nested: [host] is the nesting the
    host's stack allows. *)
From S2P Require Import Prelude Span Ast Types Dims Generics Names Layout TypeLayout Bytes Text Floats Sort Mir Glue Memory Values Quote.
From Stdlib Require Import Floats.SpecFloat.
Open Scope Z_scope.

(** ** Text *)

(** [as_bytes] *)
Fixpoint bytes_of (s : string) : list Z :=
  match s with EmptyString => [] | String a s => Z.of_N (Ascii.N_of_ascii a) :: bytes_of s end.

(** The second byte after a lead byte of three or four. *)
Definition second_ok (a b : Z) : bool :=
  if a =? 0xE0 then (0xA0 <=? b) && (b <=? 0xBF)
  else if a =? 0xED then (0x80 <=? b) && (b <=? 0x9F)
  else if a =? 0xF0 then (0x90 <=? b) && (b <=? 0xBF)
  else if a =? 0xF4 then (0x80 <=? b) && (b <=? 0x8F)
  else cont b.

Definition REPLACEMENT : list Z := [0xEF; 0xBF; 0xBD].

(** [String::from_utf8_lossy]: the longest ill-formed prefix of a sequence is one
    replacement character. *)
Fixpoint lossy (s : list Z) : list Z :=
  match s with
  | [] => []
  | a :: s1 =>
      if a <? 0x80 then a :: lossy s1
      else match s1 with
      | b :: s2 =>
          if (0xC2 <=? a) && (a <=? 0xDF) then if cont b then a :: b :: lossy s2 else REPLACEMENT ++ lossy s1
          else if (0xE0 <=? a) && (a <=? 0xF4) then
            if second_ok a b then
              match s2 with
              | c :: s3 =>
                  if cont c then
                    if a <=? 0xEF then a :: b :: c :: lossy s3
                    else match s3 with
                         | d :: s4 => if cont d then a :: b :: c :: d :: lossy s4 else REPLACEMENT ++ lossy s3
                         | [] => REPLACEMENT
                         end
                  else REPLACEMENT ++ lossy s2
              | [] => REPLACEMENT
              end
            else REPLACEMENT ++ lossy s1
          else REPLACEMENT ++ lossy s1
      | [] => REPLACEMENT
      end
  end.

Definition from_utf8_lossy (l : list Z) : string := string_of_bytes (lossy l).

(** [field.parse::<usize>()] *)
Fixpoint parse_digits (s : string) (acc : Z) : option Z :=
  match s with
  | EmptyString => Some acc
  | String a s =>
      let d := Z.of_nat (nat_of_ascii a) - 48 in
      if (0 <=? d) && (d <=? 9) then acc ← check_u64 (acc * 10 + d); parse_digits s acc else None
  end.
Definition parse_usize (s : string) : option Z :=
  match s with
  | EmptyString => None
  | String "+" EmptyString => None
  | String "+" s => parse_digits s 0
  | s => parse_digits s 0
  end.

(** ** State *)

Record Frame := mkFrame {
  fr_body : Body;
  fr_locals : list Z;
  fr_flags : list bool;
  fr_borrowed : list nat;
  fr_scratch : list Z;
  fr_span : Span }.

(** The running frame is the head of [frames]. *)
Record Machine := mkMachine {
  memory : Memory;
  types : list Type_;
  codes : list QuoteBody;
  functions : list string;
  function_ids : gmap string Z;
  statics : gmap string Z;
  m_output : string;
  m_stderr : string;
  executed : Z;
  depth : Z;
  drops : list (Type_ * bool);
  borrowed : gmap string (list nat);
  frames : list Frame }.

Definition Machine_new : Machine := mkMachine Memory_default [] [] [] ∅ ∅ EmptyString EmptyString 0 0 [] ∅ [].

Definition set_memory (x : Memory) (m : Machine) : Machine :=
  let 'mkMachine _ t c f fi st o e ex d dr b fr := m in mkMachine x t c f fi st o e ex d dr b fr.
Definition set_types (x : list Type_) (m : Machine) : Machine :=
  let 'mkMachine me _ c f fi st o e ex d dr b fr := m in mkMachine me x c f fi st o e ex d dr b fr.
Definition set_codes (x : list QuoteBody) (m : Machine) : Machine :=
  let 'mkMachine me t _ f fi st o e ex d dr b fr := m in mkMachine me t x f fi st o e ex d dr b fr.
Definition set_functions (x : list string) (ids : gmap string Z) (m : Machine) : Machine :=
  let 'mkMachine me t c _ _ st o e ex d dr b fr := m in mkMachine me t c x ids st o e ex d dr b fr.
Definition set_statics (x : gmap string Z) (m : Machine) : Machine :=
  let 'mkMachine me t c f fi _ o e ex d dr b fr := m in mkMachine me t c f fi x o e ex d dr b fr.
Definition set_output (x : string) (m : Machine) : Machine :=
  let 'mkMachine me t c f fi st _ e ex d dr b fr := m in mkMachine me t c f fi st x e ex d dr b fr.
Definition set_stderr (x : string) (m : Machine) : Machine :=
  let 'mkMachine me t c f fi st o _ ex d dr b fr := m in mkMachine me t c f fi st o x ex d dr b fr.
Definition set_executed (x : Z) (m : Machine) : Machine :=
  let 'mkMachine me t c f fi st o e _ d dr b fr := m in mkMachine me t c f fi st o e x d dr b fr.
Definition set_depth (x : Z) (m : Machine) : Machine :=
  let 'mkMachine me t c f fi st o e ex _ dr b fr := m in mkMachine me t c f fi st o e ex x dr b fr.
Definition set_drops (x : list (Type_ * bool)) (m : Machine) : Machine :=
  let 'mkMachine me t c f fi st o e ex d _ b fr := m in mkMachine me t c f fi st o e ex d x b fr.
Definition set_borrowed (x : gmap string (list nat)) (m : Machine) : Machine :=
  let 'mkMachine me t c f fi st o e ex d dr _ fr := m in mkMachine me t c f fi st o e ex d dr x fr.
Definition set_frames (x : list Frame) (m : Machine) : Machine :=
  let 'mkMachine me t c f fi st o e ex d dr b _ := m in mkMachine me t c f fi st o e ex d dr b x.

(** ** The monad *)

Definition M (A : Type) : Type := Machine -> outcome A * Machine.

Definition ret {A} (a : A) : M A := fun s => (Ok a, s).
Definition bind {A B} (m : M A) (k : A -> M B) : M B :=
  fun s => match m s with (Ok a, s) => k a s | (Err e, s) => (Err e, s) end.

Declare Scope machine_scope.
Notation "'let!' x := m 'in' k" := (bind m (fun x => k))
  (at level 10, x pattern, m at level 99, k at level 200) : machine_scope.
Notation "m ;! k" := (bind m (fun _ => k)) (at level 100, right associativity) : machine_scope.
Open Scope machine_scope.

Definition lift {A} (r : outcome A) : M A := fun s => (r, s).
Definition panic {A} : M A := lift (Err Panic).
Definition error {A} (e : Error) : M A := lift (Err (Fail e)).

(** [expect], or an index into a [Vec]. *)
Definition expect {A} (o : option A) : M A := match o with Some a => ret a | None => panic end.
Definition get : M Machine := fun s => (Ok s, s).
Definition modify (f : Machine -> Machine) : M unit := fun s => (Ok tt, f s).

(** Checked [u64] arithmetic. *)
Definition checked (z : Z) : M Z := expect (check_u64 z).

Definition running (s : Machine) : option Span := fr_span <$> head (frames s).

Definition fail {A} (m : string) : M A := fun s => (Err (Fail (mkError m (running s))), s).

Definition locate_error (s : Machine) (e : Error) : Error :=
  match Memory.span e with None => mkError (message e) (running s) | Some _ => e end.

(** [.map_err(|error| self.located(error))] *)
Definition located {A} (m : M A) : M A :=
  fun s => match m s with (Err (Fail e), s') => (Err (Fail (locate_error s' e)), s') | r => r end.

(** An outcome whose error [fail] gives, with the span of the frame. *)
Definition fails {A} (r : outcome A) : M A := located (lift r).

(** [for x in l] *)
Fixpoint for_each {A} (f : A -> M unit) (l : list A) : M unit :=
  match l with [] => ret tt | x :: l => f x ;! for_each f l end.
Fixpoint map_each {A B} (f : A -> M B) (l : list A) : M (list B) :=
  match l with [] => ret [] | x :: l => let! y := f x in let! ys := map_each f l in ret (y :: ys) end.

(** [for index in 0..len] *)
Definition for_range (f : Z -> M unit) (len : Z) : M unit := for_each f (map Z.of_nat (seq 0 (Z.to_nat len))).

Definition frame : M Frame := let! s := get in expect (head (frames s)).
Definition frame_mut (f : Frame -> Frame) : M unit :=
  let! s := get in
  match frames s with [] => panic | fr :: rest => modify (set_frames (f fr :: rest)) end.

Definition set_flag (i : nat) (b : bool) : M unit :=
  let! fr := frame in
  expect (fr_flags fr !! i) ;!
  frame_mut (fun fr => mkFrame (fr_body fr) (fr_locals fr) (<[i := b]> (fr_flags fr)) (fr_borrowed fr) (fr_scratch fr) (fr_span fr)).
Definition set_span (sp : Span) : M unit :=
  frame_mut (fun fr => mkFrame (fr_body fr) (fr_locals fr) (fr_flags fr) (fr_borrowed fr) (fr_scratch fr) sp).
Definition push_scratch (a : Z) : M unit :=
  frame_mut (fun fr => mkFrame (fr_body fr) (fr_locals fr) (fr_flags fr) (fr_borrowed fr) (fr_scratch fr ++ [a]) (fr_span fr)).

(** The memory of the machine. *)
Definition m_alloc (size : Z) (fixed : bool) : M Z :=
  fun s => let '(a, m) := alloc size fixed (memory s) in (Ok a, set_memory m s).
Definition m_read (a len : Z) : M (list Z) := fun s => (read (memory s) a len, s).
Definition update_memory (f : Memory -> outcome Memory) : M unit :=
  fun s => match f (memory s) with Ok m => (Ok tt, set_memory m s) | Err e => (Err e, s) end.
Definition m_write (a : Z) (v : list Z) : M unit := update_memory (fun m => write m a v).
Definition m_read_u64 (a : Z) : M Z := fun s => (read_u64 (memory s) a, s).
Definition m_write_u64 (a v : Z) : M unit := update_memory (fun m => write_u64 m a v).
Definition m_free (a : Z) : M unit := update_memory (fun m => free m a).

(** [u64::from_le_bytes(bytes[from..from + 8].try_into().expect(..))] *)
Definition u64_at (from : nat) (l : list Z) : M Z :=
  if (from + 8 <=? length l)%nat then ret (le_value (sub_bytes l from 8)) else panic.

(** [bytes[offset..offset + value.len()].copy_from_slice(&value)] *)
Definition copy_in (l : list Z) (offset : Z) (v : list Z) : M (list Z) :=
  let! stop := checked (offset + Z.of_nat (length v)) in
  if stop <=? Z.of_nat (length l) then ret (put_bytes l (Z.to_nat offset) v) else panic.

Definition u64_bytes (z : Z) : list Z := le_bytes 8 z.
Definition FUNCTION_TAG : Z := 2 ^ 62.

Definition not_allowed (operation : string) : Error := Error_new (operation +:+ " is not allowed inside `comptime`").

(** ** Types *)

Fixpoint strip_borrow (ty : Type_) : Type_ := match ty with TyBorrow _ ty => strip_borrow ty | other => other end.
Definition is_borrow (ty : Type_) : bool := match ty with TyBorrow _ _ => true | _ => false end.

Definition slice_elem (ty : Type_) : M Type_ :=
  match strip_borrow ty with TySlice elem => ret elem | _ => panic end.

Definition borrowed_local (st : Statement) : option nat :=
  match st with SAssign _ (RRef _ (PlLocal local)) => Some local | _ => None end.
Definition borrowed_locals (b : Body) : list nat := omap borrowed_local (concat (map statements (body_blocks b))).

(** What evaluation sees of the program ([Program] and [Bodies]), its limits and
    the functions of the packages it calls. *)
Record Program := mkProgram {
  bodies : string -> option Body;
  externs : list string;
  structs : gmap string (list (string * Ty));
  enums : list string;
  instructions : Z;
  call_depth : Z;
  host : nat;
  libm : MathOp -> f64 -> f64 -> f64;
  format_float : f64 -> Z -> string;
  arena : Arena;
  display_names : Display;
  debug_type : Type_ -> string;
  debug_str : string -> string;
  lowercase_start : string -> bool }.

Section Machine.
Context {L : Layouts} (P : Program).

Definition name_of (ty : Type_) : string := type_name (arena P) (display_names P) ty.

Definition body (name : string) : M Body :=
  match bodies P name with
  | Some b => ret b
  | None => error (Error_new ("`" +:+ name +:+ "` has no body to evaluate at compile time"))
  end.

Definition tick : M unit :=
  modify (fun s => set_executed (executed s + 1) s) ;!
  let! s := get in
  if instructions P <? executed s then
    fail ("exceeded the comptime instruction budget (" +:+ show_Z (instructions P) +:+ " instructions)")
  else ret tt.

Definition is_real_aggregate (ty : Type_) : bool :=
  match ty with
  | TyStruct name _ => lay_has_struct name
  | TyEnum _ _ | TyTuple _ | TySlice _ | TyString => true
  | _ => false
  end.

Definition size_of_opt (ty : Type_) : option Z :=
  match ty with
  | TyUnit | TyNever => Some 0
  | TyStruct name args => if lay_has_struct name then lay_struct_size name args else Some 8
  | TyEnum name args => lay_enum_size name args
  | TyTuple items => lay_tuple_size items
  | TySlice _ | TyString => Some 16
  | TyInt w => Some (IntWidth.bytes w)
  | TyFloat w => Some (FloatWidth.bytes w)
  | TyBool => Some 1
  | TyChar => Some 4
  | _ => Some 8
  end.
Definition size_of (ty : Type_) : M Z := expect (size_of_opt ty).

Fixpoint field_of (base : Type_) (field : string) : M (Type_ * Z) :=
  match base with
  | TyBorrow _ ty => field_of ty field
  | TyTuple items => let! index := expect (parse_usize field) in expect (lay_tuple_field items (Z.to_nat index))
  | TyStruct name args => expect (lay_struct_field name args field)
  | _ => panic
  end.

Definition variant_field (base : Type_) (variant : string) (index : nat) : M (Type_ * Z) :=
  match strip_borrow base with
  | TyEnum name args => expect (lay_enum_variant_field name args variant index)
  | _ => panic
  end.

Definition local_decl (local : nat) : M LocalDecl := let! fr := frame in expect (body_locals (fr_body fr) !! local).

Fixpoint place_ty (p : Place) : M Type_ :=
  match p with
  | PlLocal local => let! d := local_decl local in ret (local_ty d)
  | PlField base field => let! ty := place_ty base in let! f := field_of ty field in ret f.1
  | PlVariantField base variant index => let! ty := place_ty base in let! f := variant_field ty variant index in ret f.1
  | PlIndex base _ => let! ty := place_ty base in slice_elem ty
  | PlDeref _ ty => ret ty
  end.

Definition operand_ty (o : Operand) : M Type_ :=
  match o with
  | Copy p | Move p => place_ty p
  | OConst (CInt _ w) => ret (TyInt w)
  | OConst (CFloat _ w) => ret (TyFloat w)
  | OConst (CBool _) => ret TyBool
  | OConst (CChar _) => ret TyChar
  | OConst (CStr _) => ret TyString
  | OConst CUnit => ret TyUnit
  | OConst (CType _) => ret (TyTypeValue TyUnknown)
  end.

(** [matches!(&body.locals[..body.param_count], [local] if ..)] *)
Definition takes_self (b : Body) (ty : Type_) : M bool :=
  if (param_count b <=? length (body_locals b))%nat then
    ret (match take (param_count b) (body_locals b) with
         | [d] => match local_ty d with TyBorrow true inner => type_eqb inner ty | _ => false end
         | _ => false
         end)
  else panic.

Definition user_drop (ty : Type_) : M (option string) :=
  match ty with
  | TyStruct owner args | TyEnum owner args =>
      let name := mangled_name (arena P) (display_names P) (owner +:+ "::drop") args in
      match bodies P name with
      | None => ret None
      | Some b =>
          let! self := takes_self b ty in
          ret (if self && type_eqb (return_ty b) TyUnit then Some name else None)
      end
  | _ => ret None
  end.

(** A C function pointer counts as a closure here, unlike in [glue.rs]. *)
Definition machine_shape (ty : Type_) : option bool :=
  match ty with TyFn _ _ _ _ => Some true | _ => drop_shape ty end.

(** [iter().any(..)] *)
Fixpoint any_each {A} (f : A -> M bool) (l : list A) : M bool :=
  match l with [] => ret false | x :: l => let! b := f x in if b then ret true else any_each f l end.

Definition host_stack {A} : M A := lift (Err HostStack).

Fixpoint needs_drop_in (fuel : nat) (ty : Type_) : M bool :=
  match fuel with
  | O => host_stack
  | S fuel =>
      let! s := get in
      match type_get (drops s) ty with
      | Some known => ret known
      | None =>
          modify (fun s => set_drops ((ty, false) :: drops s) s) ;!
          let! result :=
            match machine_shape ty with
            | Some b => ret b
            | None =>
                let! user := user_drop ty in
                match user with
                | Some _ => ret true
                | None => let! l := expect (Glue.children ty) in any_each (needs_drop_in fuel) l
                end
            end in
          modify (fun s => set_drops ((ty, result) :: drops s) s) ;!
          ret result
      end
  end.
Definition needs_drop (ty : Type_) : M bool := needs_drop_in (host P) ty.

(** ** Places and operands *)

Definition scratch (size : Z) : M Z := let! a := m_alloc size false in push_scratch a ;! ret a.

Definition local_address (local : nat) : M Z := let! fr := frame in expect (fr_locals fr !! local).

Definition index_of {A} (p : A -> bool) (l : list A) : option Z :=
  Z.of_nat ∘ fst <$> List.find (fun e => p e.2) (zip (seq 0 (length l)) l).

Definition type_handle (ty : Type_) : M Z :=
  let! s := get in
  match index_of (fun known => type_eqb known ty) (types s) with
  | Some index => ret index
  | None => modify (fun s => set_types (types s ++ [ty]) s) ;! ret (Z.of_nat (length (types s)))
  end.

Definition type_of_handle (handle : Z) : M Type_ :=
  let! s := get in
  match types s !! Z.to_nat handle with Some ty => ret ty | None => error (Error_new "invalid `type` value") end.

Definition code_handle (code : QuoteBody) : M Z :=
  let! s := get in
  modify (fun s => set_codes (codes s ++ [code]) s) ;! ret (Z.of_nat (length (codes s))).

Definition code (handle : Z) : M QuoteBody :=
  let! s := get in
  match codes s !! Z.to_nat handle with Some c => ret c | None => error (Error_new "invalid `Code` value") end.

Definition constant (c : Constant) : M (list Z) :=
  match c with
  | CInt value w => ret (int_bytes value (IntWidth.bytes w))
  | CFloat bits w =>
      let value := from_bits prec emax bits in
      match w with
      | F64 => ret (u64_bytes (to_bits prec emax value))
      | F32 => ret (le_bytes 4 (to_bits 24 128 (convert 24 128 value)))
      | small =>
          let! bits := expect (FloatBits.encode small value) in
          ret (take (Z.to_nat (FloatWidth.bytes small)) (u64_bytes bits))
      end
  | CBool value => ret [if value then 1 else 0]
  | CChar value => ret (le_bytes 4 value)
  | CStr text =>
      let! s := get in
      let len := Z.of_nat (String.length text) in
      let! data :=
        match statics s !! text with
        | Some address => ret address
        | None =>
            let! address := m_alloc len true in
            m_write address (bytes_of text) ;!
            modify (fun s => set_statics (<[text := address]> (statics s)) s) ;!
            ret address
        end in
      ret (u64_bytes data ++ u64_bytes len)
  | CUnit => ret []
  | CType ty => let! h := type_handle ty in ret (u64_bytes h)
  end.

(** [read_place], over the address of a place. *)
Definition read_place_at (address_of : Place -> M (Z * Type_)) (p : Place) : M (list Z) :=
  match p with
  | PlLocal local =>
      let! d := local_decl local in
      let! size := size_of (local_ty d) in
      let! a := local_address local in
      m_read a size
  | _ =>
      let! r := address_of p in
      let '(address, ty) := r in
      let! size := size_of ty in
      m_read address size
  end.

(** The value of [int_operand], from its bytes. *)
Definition int_of_bytes (bytes : list Z) (ty : Type_) : M Z :=
  match ty with
  | TyInt w => lift (int_value bytes w)
  | _ => lift (int_value bytes (min_bytes (length bytes)))
  end.

(** [pointer], from the bytes of the operand: the first eight. *)
Definition pointer_of_bytes (bytes : list Z) : Z := le_value (take 8 bytes).

Fixpoint place_address (p : Place) : M (Z * Type_) :=
  match p with
  | PlLocal local =>
      let! d := local_decl local in
      let! storage := local_address local in
      let! fr := frame in
      let! address :=
        if is_real_aggregate (local_ty d) || bool_decide (local ∈ fr_borrowed fr) then ret storage
        else m_read_u64 storage in
      ret (address, local_ty d)
  | PlField base field =>
      let! r := place_address base in
      let '(base_address, base_ty) := r in
      let! f := field_of base_ty field in
      let! address := checked (base_address + f.2) in
      ret (address, f.1)
  | PlVariantField base variant index =>
      let! r := place_address base in
      let '(base_address, base_ty) := r in
      let! f := variant_field base_ty variant index in
      let! address := checked (base_address + f.2) in
      ret (address, f.1)
  | PlIndex base index =>
      let! r := place_address base in
      let '(base_address, base_ty) := r in
      let! elem := slice_elem base_ty in
      let! at_data := checked (base_address + SLICE_DATA_OFFSET) in
      let! data := m_read_u64 at_data in
      let! at_len := checked (base_address + SLICE_LEN_OFFSET) in
      let! len := m_read_u64 at_len in
      let! index_ty := operand_ty index in
      let! bytes := operand index in
      let! i := int_of_bytes bytes index_ty in
      let index := as_u64 i in
      if len <=? index then
        fail ("index " +:+ show_Z (as_i64 index) +:+ " out of bounds for length " +:+ show_Z (as_i64 len))
      else
        let! size := expect (element_size elem) in
        let! offset := checked (index * size) in
        let! address := checked (data + offset) in
        ret (address, elem)
  | PlDeref address ty =>
      let! bytes := operand address in
      ret (pointer_of_bytes bytes, ty)
  end
with operand (o : Operand) : M (list Z) :=
  match o with
  | OConst c => constant c
  | Copy p | Move p => read_place_at place_address p
  end.

Definition read_place (p : Place) : M (list Z) := read_place_at place_address p.

Definition int_operand (o : Operand) (ty : Type_) : M Z := let! bytes := operand o in int_of_bytes bytes ty.
Definition pointer (o : Operand) : M Z := let! bytes := operand o in ret (pointer_of_bytes bytes).

Definition operand_address (o : Operand) : M Z :=
  match o with
  | Copy p | Move p => let! r := place_address p in ret r.1
  | OConst c =>
      let! bytes := constant c in
      let! address := scratch (Z.of_nat (length bytes)) in
      m_write address bytes ;! ret address
  end.

(** ** Glue *)

Definition function_pointer (name : string) : M Z :=
  let! s := get in
  match function_ids s !! name with
  | Some id => ret id
  | None =>
      let id := Z.lor FUNCTION_TAG (Z.of_nat (length (functions s))) in
      modify (fun s => set_functions (functions s ++ [name]) (<[name := id]> (function_ids s)) s) ;! ret id
  end.

Definition function_name (pointer : Z) : M string :=
  let! s := get in
  match (if Z.land pointer FUNCTION_TAG =? 0 then None else functions s !! Z.to_nat (Z.ldiff pointer FUNCTION_TAG)) with
  | Some name => ret name
  | None => error (Error_new ("calling an invalid function pointer " +:+ hex pointer))
  end.

(** The fields of the variant of an enum value whose tag is [tag], with offsets. *)
Definition tagged_fields (tag : Z) (variants : list (Z * list (Type_ * Z))) : list (Type_ * Z) :=
  concat (map (fun v => if v.1 =? tag then v.2 else []) variants).

(** Visits the fields of a value. *)
Definition visit_fields (visit : Type_ -> Z -> M unit) (address : Z) (fields : list (Type_ * Z)) : M unit :=
  for_each (fun f => let! a := checked (address + f.2) in visit f.1 a) fields.

Section Calls.
(** [call]: runs a function on the bytes of its arguments. *)
Context (call : string -> list (list Z) -> M (list Z)).

Fixpoint drop_in (fuel : nat) (ty : Type_) (address : Z) : M unit :=
  match fuel with
  | O => host_stack
  | S fuel =>
      let! owns := needs_drop ty in
      if negb owns then ret tt
      else
        let! user := user_drop ty in
        match user with
        | Some user =>
            let! offset := expect (lay_live_offset ty) in
            let! live :=
              match offset with
              | Some offset => let! a := checked (address + offset) in let! b := m_read a 1 in lift (truth b)
              | None => ret true
              end in
            if live then (let! _ := call user [u64_bytes address] in ret tt) else ret tt
        | None => ret tt
        end ;!
        if bool_decide (is_Some (handle_fns ty)) then ret tt
        else
          match ty with
          | TyFn _ _ _ _ =>
              let! env := m_read_u64 address in
              if env =? 0 then ret tt
              else
                let! header := checked (env - CLOSURE_HEADER) in
                let! count := m_read_u64 header in
                m_write_u64 header (wrap 64 (count - 1)) ;!
                if count =? 1 then
                  let! at_drop := checked (env + CLOSURE_DROP_FN) in
                  let! drop_fn := m_read_u64 at_drop in
                  (if drop_fn =? 0 then ret tt
                   else let! name := function_name drop_fn in let! _ := call name [u64_bytes env] in ret tt) ;!
                  m_free header
                else ret tt
          | TyString | TySlice _ =>
              let! at_data := checked (address + SLICE_DATA_OFFSET) in
              let! data := m_read_u64 at_data in
              match ty with
              | TySlice elem =>
                  let! elem_owns := needs_drop elem in
                  if elem_owns then
                    let! at_len := checked (address + SLICE_LEN_OFFSET) in
                    let! len := m_read_u64 at_len in
                    let! size := expect (element_size elem) in
                    for_range (fun index => let! o := checked (index * size) in let! a := checked (data + o) in drop_in fuel elem a) len
                  else ret tt
              | _ => ret tt
              end ;!
              m_free data
          | _ =>
              if is_cell ty then
                let! cell := m_read_u64 address in
                if cell =? 0 then ret tt
                else
                  let! at_count := checked (cell + CELL_COUNT_OFFSET) in
                  let! count := m_read_u64 at_count in
                  m_write_u64 at_count (wrap 64 (count - 1)) ;!
                  if count =? 1 then
                    match ty with
                    | TyStruct _ (inner :: _) => let! a := checked (cell + CELL_VALUE_OFFSET) in drop_in fuel inner a
                    | _ => ret tt
                    end ;!
                    m_free cell
                  else ret tt
              else
                match ty with
                | TyEnum name args =>
                    let! tag := m_read_u64 address in
                    let! variants := expect (lay_enum_variants name args) in
                    visit_fields (drop_in fuel) address (tagged_fields tag variants)
                | _ => let! fields := expect (glue_fields ty) in visit_fields (drop_in fuel) address fields
                end
          end
  end.
Definition drop_at (ty : Type_) (address : Z) : M unit := drop_in (host P) ty address.

Fixpoint clone_in (fuel : nat) (ty : Type_) (address : Z) : M unit :=
  match fuel with
  | O => host_stack
  | S fuel =>
      let! owns := needs_drop ty in
      if negb owns || bool_decide (is_Some (handle_fns ty)) then ret tt
      else
        match ty with
        | TyFn _ _ _ _ =>
            let! env := m_read_u64 address in
            if env =? 0 then ret tt
            else
              let! header := checked (env - CLOSURE_HEADER) in
              let! count := m_read_u64 header in
              let! more := checked (count + 1) in
              m_write_u64 header more
        | TyString | TySlice _ =>
            let! at_data := checked (address + SLICE_DATA_OFFSET) in
            let! data := m_read_u64 at_data in
            let! at_len := checked (address + SLICE_LEN_OFFSET) in
            let! len := m_read_u64 at_len in
            let! size := match ty with TySlice elem => expect (element_size elem) | _ => ret 1 end in
            let! total := checked (len * size) in
            let! bytes := m_read data total in
            let! copy := m_alloc (Z.of_nat (length bytes)) false in
            m_write copy bytes ;!
            m_write_u64 at_data copy ;!
            match ty with
            | TySlice elem =>
                for_range (fun index => let! o := checked (index * size) in let! a := checked (copy + o) in clone_in fuel elem a) len
            | _ => ret tt
            end
        | _ =>
            if is_cell ty then
              let! cell := m_read_u64 address in
              if cell =? 0 then ret tt
              else
                let! at_count := checked (cell + CELL_COUNT_OFFSET) in
                let! count := m_read_u64 at_count in
                let! more := checked (count + 1) in
                m_write_u64 at_count more
            else
              match ty with
              | TyEnum name args =>
                  let! tag := m_read_u64 address in
                  let! variants := expect (lay_enum_variants name args) in
                  visit_fields (clone_in fuel) address (tagged_fields tag variants)
              | _ => let! fields := expect (glue_fields ty) in visit_fields (clone_in fuel) address fields
              end
        end
  end.
Definition clone_at (ty : Type_) (address : Z) : M unit := clone_in (host P) ty address.
End Calls.
End Machine.
