(* ===== verification/Evaluate.v ===== *)
(** The machine of compile-time evaluation: owned values, statements,
    terminators, the built-in functions, calls, and the values that go in and
    come out ([paco-comptime/src/machine.rs], [evaluate] of [lib.rs]).

    [call] is written over itself: the functions between a call and the calls it
    makes take it as a parameter, and [call_in] ties the knot, one level of the
    call stack at a time.  The loop over the blocks of a body has a step more
    than the instruction budget. *)
From S2P Require Import Prelude Span Ast Types Dims Generics Names Layout TypeLayout Bytes Text Floats Sort Mir Glue Memory Values Quote Machine.
From Stdlib Require Import Floats.SpecFloat.
Open Scope Z_scope.
Open Scope machine_scope.

Inductive Flow := Goto (block : nat) | Return (value : list Z).

(** ** The built-in functions *)

Inductive Builtin :=
| BiPanic | BiPrint | BiStderrWrite | BiForbidden (operation : string) | BiAlloc | BiFree
| BiStringLen | BiStringConcat | BiNextCharBoundary | BiCharAt | BiByteAt | BiSliceUtf8
| BiToBytes | BiFromBytes | BiWriteString | BiSliceSort | BiStringHash
| BiUintToString | BiIntToString | BiBoolToString | BiFloatToString | BiCharToString
| BiSliceOfZeros | BiSliceAsPtr | BiFieldsOf | BiTypeName | BiCodeToString | BiCodeJoin
| BiCell (op : string).

Definition builtins : list (string * Builtin) :=
  [(PANIC_SYMBOL, BiPanic); ("print", BiPrint); ("stderr_write", BiStderrWrite);
   ("fs_read_to_string", BiForbidden "file I/O");
   ("arg_count", BiForbidden "reading the process arguments"); ("arg_at", BiForbidden "reading the process arguments");
   ("rt_sleep_ns", BiForbidden "reading the clock or sleeping");
   ("rt_monotonic_ns", BiForbidden "reading the clock or sleeping");
   ("rt_wall_ns", BiForbidden "reading the clock or sleeping");
   ("tcp_listen", BiForbidden "network I/O"); ("TcpListener::accept", BiForbidden "network I/O");
   ("TcpStream::read", BiForbidden "network I/O"); ("TcpStream::write", BiForbidden "network I/O");
   ("paco_rt_spawn", BiForbidden "spawning a task"); ("paco_rt_spawn_blocking", BiForbidden "spawning a task");
   ("paco_rt_join", BiForbidden "spawning a task");
   ("paco_rt_channel", BiForbidden "using a channel"); ("paco_rt_send", BiForbidden "using a channel");
   ("paco_rt_recv", BiForbidden "using a channel"); ("paco_rt_sender_close", BiForbidden "using a channel");
   ("paco_rt_receiver_close", BiForbidden "using a channel"); ("paco_rt_receiver_is_ready", BiForbidden "using a channel");
   ("paco_rt_generator_new", BiForbidden "running a generator (`iter fn`)");
   ("paco_rt_generator_next", BiForbidden "running a generator (`iter fn`)");
   ("paco_rt_generator_yield", BiForbidden "running a generator (`iter fn`)");
   ("paco_calloc", BiAlloc); ("paco_alloc", BiAlloc); ("paco_free", BiFree);
   ("string_len_bytes", BiStringLen); ("string_concat", BiStringConcat);
   ("string_next_char_boundary", BiNextCharBoundary); ("string_char_at", BiCharAt); ("string_byte_at", BiByteAt);
   ("string_slice_utf8", BiSliceUtf8); ("string_to_bytes", BiToBytes); ("string_from_bytes", BiFromBytes);
   ("bytes_write_string", BiWriteString); ("slice_sort", BiSliceSort); ("string_hash", BiStringHash);
   ("uint_to_string", BiUintToString); ("int_to_string", BiIntToString); ("bool_to_string", BiBoolToString);
   ("float_to_string", BiFloatToString); ("char_to_string", BiCharToString); ("slice_of_zeros", BiSliceOfZeros);
   ("slice_as_ptr", BiSliceAsPtr); ("slice_as_mut_ptr", BiSliceAsPtr); ("fields_of", BiFieldsOf);
   ("type_name", BiTypeName); ("code_to_string", BiCodeToString); ("Code::join", BiCodeJoin)]%string.

(** The name after [prefix]. *)
Fixpoint strip_prefix (prefix s : string) : option string :=
  match prefix, s with
  | EmptyString, s => Some s
  | String a prefix, String b s => if Ascii.eqb a b then strip_prefix prefix s else None
  | String _ _, EmptyString => None
  end.

Definition builtin_of (name : string) : option Builtin :=
  match List.find (fun e => String.eqb e.1 name) builtins with
  | Some e => Some e.2
  | None => BiCell <$> strip_prefix "$cell::" name
  end.

(** [char::from_u32] *)
Definition char_from_u32 (z : Z) : option Z :=
  if is_char z then Some z else None.

(** A slice of the bytes of an aggregate: [bytes[offset..offset + size]]. *)
Definition slice_of (l : list Z) (offset size : Z) : M (list Z) :=
  if offset + size <=? Z.of_nat (length l) then ret (sub_bytes l (Z.to_nat offset) (Z.to_nat size)) else panic.

Section Machine.
Context {L : Layouts} (P : Program).

Definition i64_ty : Type_ := TyInt I64.
Definition arg (args : list Operand) (i : nat) : M Operand := expect (args !! i).

(** ** Strings and descriptors *)

Definition descriptor (p : Place) : M (list Z) :=
  let! ty := place_ty p in
  let! value := read_place p in
  if is_borrow ty then let! pointer := u64_at 0 value in m_read pointer 16 else ret value.

Definition operand_descriptor (o : Operand) : M (list Z) :=
  match o with Copy p | Move p => descriptor p | OConst c => constant c end.

Definition descriptor_bytes (d : list Z) : M (list Z) :=
  let! data := u64_at 0 d in let! len := u64_at 8 d in m_read data len.

Definition string_operand (o : Operand) : M (list Z) := let! d := operand_descriptor o in descriptor_bytes d.

Definition new_string (bytes : list Z) : M (list Z) :=
  let! data := m_alloc (Z.of_nat (length bytes)) false in
  m_write data bytes ;!
  ret (u64_bytes data ++ u64_bytes (Z.of_nat (length bytes))).

(** ** Owned values *)

Definition clone_value (ty : Type_) (value : list Z) : M (list Z) :=
  let! owns := needs_drop P ty in
  if negb owns then ret value
  else
    let len := Z.of_nat (length value) in
    let! address := m_alloc len false in
    m_write address value ;!
    clone_at P ty address ;!
    let! copy := m_read address len in
    m_free address ;!
    ret copy.

Definition owned_operand (o : Operand) : M (list Z) :=
  let! ty := operand_ty o in
  let! value := operand o in
  let! owns := needs_drop P ty in
  if negb owns then ret value
  else
    match o with
    | Move (PlLocal local) => set_flag local false ;! ret value
    | Move (PlVariantField (PlLocal local) _ _) =>
        let! d := local_decl local in
        if bool_decide (local_name d = Some TRY_TEMP) then set_flag local false ;! ret value
        else clone_value ty value
    | _ => clone_value ty value
    end.

Definition owned_as (o : Operand) (expected : Type_) : M (list Z) :=
  let! ty := operand_ty o in
  let through := match ty with TyBorrow _ inner => type_eqb inner expected | _ => false end in
  if through then
    let! pointer := pointer o in
    let! size := size_of expected in
    let! value := m_read pointer size in
    clone_value expected value
  else owned_operand o.

Definition write_unowned (p : Place) (value : list Z) : M unit :=
  match p with
  | PlLocal local => let! a := local_address local in m_write a value
  | _ => let! r := place_address p in m_write r.1 value
  end.

(** The fields of a struct, at the offsets of its declaration. *)
Fixpoint place_declared (declared : list (Type_ * Z)) (fields : list Operand) (bytes : list Z) : M (list Z) :=
  match declared, fields with
  | (declared_ty, offset) :: declared, field :: fields =>
      let! ty := operand_ty field in
      if type_eqb ty TyUnit then place_declared declared fields bytes
      else
        let! value := owned_as field declared_ty in
        let! bytes := copy_in bytes offset value in
        place_declared declared fields bytes
  | _, _ => ret bytes
  end.

(** The fields of a variant or tuple, the offset looked up by position. *)
Fixpoint place_fields (offset_of : nat -> option (Type_ * Z)) (index : nat) (fields : list Operand) (bytes : list Z) : M (list Z) :=
  match fields with
  | [] => ret bytes
  | field :: fields =>
      let! ty := operand_ty field in
      if type_eqb ty TyUnit then place_fields offset_of (S index) fields bytes
      else
        let! f := expect (offset_of index) in
        let! value := owned_operand field in
        let! bytes := copy_in bytes f.2 value in
        place_fields offset_of (S index) fields bytes
  end.

Definition aggregate (ty : Type_) (variant : option string) (fields : list Operand) : M (list Z) :=
  let! size := size_of ty in
  let start := zeros (Z.to_nat size) in
  let! bytes :=
    match ty, variant with
    | TyStruct name args, None =>
        let! declared := expect (lay_struct_fields name args) in
        place_declared declared fields start
    | TyEnum name args, Some variant =>
        let! tag := expect (lay_enum_variant_index name args variant) in
        let! bytes := copy_in start 0 (u64_bytes tag) in
        place_fields (lay_enum_variant_field name args variant) 0 fields bytes
    | TyTuple items, None => place_fields (lay_tuple_field items) 0 fields start
    | _, _ => fail ("cannot build a value of " +:+ debug_type P ty)
    end in
  let! live := expect (lay_live_offset ty) in
  match live with
  | Some offset => copy_in bytes offset [1]
  | None => ret bytes
  end.

(** ** Code values *)

Definition splice_value (ty : Type_) (value : list Z) : M Splice :=
  match strip_borrow ty with
  | TyTypeValue _ => let! h := u64_at 0 value in let! t := type_of_handle h in ret (SplType t)
  | TyCode => let! h := u64_at 0 value in let! c := code h in ret (SplCode c)
  | TyString =>
      let! d := if is_borrow ty then (let! h := u64_at 0 value in m_read h 16) else ret value in
      let! bytes := descriptor_bytes d in
      ret (SplString (from_utf8_lossy bytes))
  | TyInt w => let! v := lift (int_value value w) in ret (SplInt (as_i64 v))
  | TyFloat w => let! v := lift (float_value value w) in ret (SplFloat v)
  | TyBool => let! b := lift (truth value) in ret (SplBool b)
  | TyChar => let! v := lift (int_value value U32) in ret (SplChar (default 0xFFFD (char_from_u32 v)))
  | other => fail ("a " +:+ name_of P other +:+ " value cannot be spliced into code")
  end.

(** [render] and [join] of [quote.rs]; a panic of the formatter is one here. *)
Definition rendered (c : QuoteBody) : M string := expect (Quote.render (lowercase_start P) c).

Definition code_join (pieces separator : Operand) : M (list Z) :=
  let! r :=
    match pieces with
    | Copy p | Move p => place_address p
    | OConst _ => fail "Code::join expects a `Vec<Code>`"
    end in
  let '(data_address, vec_ty) := r in
  let! data_field := field_of vec_ty "data" in
  let! len_field := field_of vec_ty "len" in
  let! a := checked (data_address + data_field.2) in
  let! data := m_read_u64 a in
  let! a := checked (data_address + len_field.2) in
  let! len := m_read_u64 a in
  let! codes :=
    map_each (fun index =>
      let! a := checked (data + Z.of_nat index * 8) in let! handle := m_read_u64 a in code handle) (seq 0 (Z.to_nat len)) in
  let! separator := string_operand separator in
  let! joined := expect (Quote.join (lowercase_start P) (debug_str P) codes (from_utf8_lossy separator)) in
  match joined with
  | Err m => error (Error_new m)
  | Ok joined => let! h := code_handle joined in ret (u64_bytes h)
  end.

Definition fields_of (o : Operand) (iter_ty : Type_) : M (list Z) :=
  let! handle := pointer o in
  let! ty := type_of_handle handle in
  match ty with
  | TyStruct struct_name _ =>
      let declared := default [] (structs P !! struct_name) in
      let! items := field_of iter_ty "items" in
      let! pos := field_of iter_ty "pos" in
      let! data_field := field_of items.1 "data" in
      let! len_field := field_of items.1 "len" in
      let! cap_field := field_of items.1 "cap" in
      let! info_ty := slice_elem data_field.1 in
      let! name_field := field_of info_ty "name" in
      let! ty_field := field_of info_ty "ty" in
      let! info_size := expect (element_size info_ty) in
      let len := Z.of_nat (length declared) in
      let! total := checked (info_size * len) in
      let! data := m_alloc total false in
      for_each (fun '(index, (field_name, field_ty)) =>
        let! name := new_string (bytes_of field_name) in
        let! handle := type_handle (resolve_ty field_ty (enums P)) in
        let! o := checked (Z.of_nat index * info_size) in
        let! base := checked (data + o) in
        let! a := checked (base + name_field.2) in
        m_write a name ;!
        let! a := checked (base + ty_field.2) in
        m_write a (u64_bytes handle)) (zip (seq 0 (length declared)) declared) ;!
      let! size := size_of iter_ty in
      let! bytes := copy_in (zeros (Z.to_nat size)) (items.2 + data_field.2) (u64_bytes data) in
      let! bytes := copy_in bytes (items.2 + data_field.2 + 8) (u64_bytes len) in
      let! bytes := copy_in bytes (items.2 + len_field.2) (u64_bytes len) in
      let! bytes := copy_in bytes (items.2 + cap_field.2) (u64_bytes len) in
      copy_in bytes pos.2 (u64_bytes 0)
  | _ => fail ("fields_of expects a struct type, found `" +:+ name_of P ty +:+ "`")
  end.

(** What [print] writes, without the newline. *)
Definition display (o : Operand) : M string :=
  let! ty := operand_ty o in
  let inner := strip_borrow ty in
  let! value := operand o in
  let! value :=
    if is_borrow ty && negb (is_real_aggregate inner) then
      let! pointer := u64_at 0 value in let! size := size_of inner in m_read pointer size
    else ret value in
  match inner with
  | TyFloat w => let! v := lift (float_value value w) in ret (format_float P v (format_code w))
  | TyBool => let! b := lift (truth value) in ret (bool_to_string b)
  | TyChar =>
      let! c := lift (int_value value U32) in
      let '(buf, len) := encode_char c in
      ret (from_utf8_lossy (take len buf))
  | TyString =>
      let! d := if is_borrow ty then (let! pointer := u64_at 0 value in m_read pointer 16) else ret value in
      let! bytes := descriptor_bytes d in
      ret (from_utf8_lossy bytes)
  | TyInt U64 => let! v := lift (int_value value U64) in ret (uint_to_string (as_u64 v))
  | TyInt w => let! v := lift (int_value value w) in ret (int_to_string (as_i64 v))
  | TyTypeValue _ => let! h := u64_at 0 value in let! t := type_of_handle h in ret (name_of P t)
  | TyCode => let! h := u64_at 0 value in let! c := code h in rendered c
  | other => fail ("`print` is not supported for " +:+ name_of P other)
  end.

(** An [Option] value. *)
Definition option_value (ty : Type_) (payload : option (list Z)) : M (list Z) :=
  match ty with
  | TyEnum name args =>
      let! size := size_of ty in
      let variant := match payload with Some _ => "Some"%string | None => "None"%string end in
      let! tag := expect (lay_enum_variant_index name args variant) in
      let! bytes := copy_in (zeros (Z.to_nat size)) 0 (u64_bytes tag) in
      match payload with
      | Some payload => let! f := expect (lay_enum_variant_field name args "Some" 0) in copy_in bytes f.2 payload
      | None => ret bytes
      end
  | _ => fail "expected an Option"
  end.

(** ** Rvalues *)

Definition math (op : MathOp) (args : list Operand) : M (list Z) :=
  let! a := arg args 0 in
  let! ty := operand_ty a in
  match ty with
  | TyFloat w =>
      let! bytes := operand a in
      let! x := lift (float_value bytes w) in
      let! y :=
        match args !! 1%nat with
        | Some b => let! bytes := operand b in lift (float_value bytes w)
        | None => ret (S754_zero false)
        end in
      lift (float_bytes (MathOp.eval (libm P) op x y) w)
  | _ => fail ("`" +:+ MathOp.name op +:+ "` needs a float receiver")
  end.

Definition binary_op (op : BinOp) (left right : Operand) : M (list Z) :=
  let! ty := operand_ty left in
  match strip_borrow ty with
  | TyString =>
      let! l := string_operand left in
      let! r := string_operand right in
      match op with
      | BEq => lift (flag (bool_decide (l = r)))
      | BNe => lift (flag (negb (bool_decide (l = r))))
      | BAdd => new_string (l ++ r)
      | other => fail ("operator `" +:+ debug_op other +:+ "` is not supported over strings")
      end
  | _ =>
      let! amount_ty := operand_ty right in
      let! l := operand left in
      let! r := operand right in
      let! fr := frame in
      let profile := body_profile (fr_body fr) in
      match op, ty, amount_ty with
      | (BShl | BShr), TyInt w, TyInt amount_w =>
          let! v := lift (int_value l w) in
          let! a := lift (int_value r amount_w) in
          fails (shift profile op v a w)
      | _, _, _ => fails (binary profile op l r ty)
      end
  end.

Definition rvalue (r : Rvalue) : M (list Z) :=
  match r with
  | RUse o => owned_operand o
  | RUnaryOp op o =>
      let! ty := operand_ty o in
      let! value := operand o in
      let! fr := frame in
      fails (unary (body_profile (fr_body fr)) op value ty)
  | RBinaryOp op l r => binary_op op l r
  | RCast o target =>
      let! source := operand_ty o in
      let! value := operand o in
      lift (cast value source target)
  | RMath op args => math op args
  | RAggregate ty variant fields => aggregate ty variant fields
  | RSliceLen p =>
      let! d := descriptor p in
      slice_of d 8 8
  | RDiscriminant p => let! r := place_address p in m_read r.1 8
  | RLoad address ty =>
      let! a := pointer address in
      let! size := size_of ty in
      m_read a size
  | RRawAlloc size => let! a := scratch size in ret (u64_bytes a)
  | RRef _ p => let! r := place_address p in ret (u64_bytes r.1)
  | RFuncAddr name => let! id := function_pointer name in ret (u64_bytes id)
  | RQuote template splices =>
      let! values :=
        map_each (fun '(sp, o) =>
          let! ty := operand_ty o in
          let! value := operand o in
          let! v := splice_value ty value in ret (sp, v)) splices in
      match substitute (name_of P) (list_to_map (rev values)) template with
      | Err m => error (Error_new m)
      | Ok c => let! h := code_handle c in ret (u64_bytes h)
      end
  end.

(** ** Statements and terminators *)

Section Calls.
Context (call : string -> list (list Z) -> M (list Z)).

Definition drop_local (local : nat) : M unit :=
  let! fr := frame in
  let! flagged := expect (fr_flags fr !! local) in
  if negb flagged then ret tt
  else
    let! d := local_decl local in
    let! address := local_address local in
    drop_at P call (local_ty d) address ;!
    set_flag local false.

Definition drop_all_owned : M unit :=
  let! fr := frame in for_each drop_local (rev (seq 0 (length (fr_flags fr)))).

Definition write_place (p : Place) (value : list Z) : M unit :=
  match p with
  | PlLocal local =>
      drop_local local ;!
      let! a := local_address local in
      m_write a value ;!
      let! d := local_decl local in
      let! owns := needs_drop P (local_ty d) in
      if owns then set_flag local true else ret tt
  | _ =>
      let! r := place_address p in
      let '(address, ty) := r in
      let! owns := needs_drop P ty in
      (if owns then drop_at P call ty address else ret tt) ;!
      m_write address value
  end.

(** The destination of a call, when it has one. *)
Definition write_result (destination : option Place) (value : list Z) : M unit :=
  match destination with Some p => write_place p value | None => ret tt end.

Definition is_unit_local (p : Place) : M bool :=
  match p with
  | PlLocal local => let! d := local_decl local in ret (match local_ty d with TyUnit | TyNever => true | _ => false end)
  | _ => ret false
  end.

Definition statement (st : Statement) : M unit :=
  match st with
  | SAssign p r =>
      let! skip := is_unit_local p in
      if skip then ret tt
      else
        let! value :=
          match r with
          | RUse o => let! expected := place_ty p in owned_as o expected
          | _ => rvalue r
          end in
        match r with
        | RLoad _ _ => write_unowned p value
        | _ => write_place p value
        end
  | SStore address value ty =>
      if type_eqb ty TyUnit then ret tt
      else
        let! address := pointer address in
        let! value := owned_operand value in
        let! value :=
          if is_real_aggregate ty then
            let! size := size_of ty in
            let! boxed := m_alloc (Z.max size 1) false in
            m_write boxed value ;! ret (u64_bytes boxed)
          else ret value in
        m_write address value
  | SFreeBox address ty =>
      if is_real_aggregate ty then
        let! address := pointer address in
        let! boxed := m_read_u64 address in
        m_free boxed
      else ret tt
  | SDrop (PlLocal local) => drop_local local
  | SDrop _ | SStorageDead _ => ret tt
  end.

(** [$cell::..] *)
Definition cell (op : string) (args : list Operand) (dest_ty : option Type_) : M (option (list Z)) :=
  if String.eqb op "new" then
    let! a := arg args 0 in
    let! ty := operand_ty a in
    let! size := size_of ty in
    let! cell := m_alloc (CELL_VALUE_OFFSET + size) false in
    let! at_count := checked (cell + CELL_COUNT_OFFSET) in
    m_write_u64 at_count 1 ;!
    (if type_eqb ty TyUnit then ret tt
     else
       let! value := owned_operand a in
       let! at_value := checked (cell + CELL_VALUE_OFFSET) in
       m_write at_value value) ;!
    ret (Some (u64_bytes cell))
  else
    let! a := arg args 0 in
    let! cell := pointer a in
    let! ty := operand_ty a in
    let! cell := if is_borrow ty then m_read_u64 cell else ret cell in
    if String.eqb op "get" then
      match dest_ty with
      | None => ret None
      | Some ty =>
          let! at_value := checked (cell + CELL_VALUE_OFFSET) in
          let! size := size_of ty in
          let! value := m_read at_value size in
          let! copy := clone_value ty value in
          ret (Some copy)
      end
    else if String.eqb op "set" then
      let! b := arg args 1 in
      let! ty := operand_ty b in
      (if type_eqb ty TyUnit then ret tt
       else
         let! value := owned_operand b in
         let! address := checked (cell + CELL_VALUE_OFFSET) in
         let! old := m_read address (Z.of_nat (length value)) in
         m_write address value ;!
         let! owns := needs_drop P ty in
         if owns then
           let! scratch := m_alloc (Z.of_nat (length old)) false in
           m_write scratch old ;!
           drop_at P call ty scratch ;!
           m_free scratch
         else ret tt) ;!
      ret None
    else if String.eqb op "clone" then
      let! at_count := checked (cell + CELL_COUNT_OFFSET) in
      let! count := m_read_u64 at_count in
      let! more := checked (count + 1) in
      m_write_u64 at_count more ;!
      ret (Some (u64_bytes cell))
    else if String.eqb op "strong_count" then
      let! at_count := checked (cell + CELL_COUNT_OFFSET) in
      let! count := m_read at_count 8 in
      ret (Some count)
    else fail ("unknown shared-cell operation `" +:+ op +:+ "`").

(** An integer argument, as [i64] unless said otherwise. *)
Definition int_arg (args : list Operand) (i : nat) (ty : Type_) : M Z := let! a := arg args i in int_operand a ty.
Definition string_arg (args : list Operand) (i : nat) : M (list Z) := let! a := arg args i in string_operand a.

Definition run_builtin (b : Builtin) (name : string) (args : list Operand) (dest_ty : option Type_) : M (option (list Z)) :=
  match b with
  | BiPanic =>
      let! m := string_arg args 0 in
      fail ("panicked: " +:+ from_utf8_lossy m)
  | BiPrint =>
      let! a := arg args 0 in
      let! line := display a in
      modify (fun s => set_output (m_output s +:+ line +:+ Fmt.newline_string) s) ;! ret None
  | BiStderrWrite =>
      let! text := string_arg args 0 in
      modify (fun s => set_stderr (m_stderr s +:+ from_utf8_lossy text +:+ Fmt.newline_string) s) ;! ret None
  | BiForbidden operation => error (not_allowed operation)
  | BiAlloc =>
      let! size :=
        match args with
        | [count; size] =>
            let! c := int_operand count i64_ty in let! n := int_operand size i64_ty in ret (as_u64 (c * n))
        | [size] => let! n := int_operand size i64_ty in ret (as_u64 n)
        | _ => fail ("`" +:+ name +:+ "` expects a size")
        end in
      let! a := m_alloc size false in
      ret (Some (u64_bytes a))
  | BiFree => let! a := arg args 0 in let! p := pointer a in m_free p ;! ret None
  | BiStringLen =>
      let! a := arg args 0 in
      let! d := operand_descriptor a in
      let! v := slice_of d 8 8 in ret (Some v)
  | BiStringConcat =>
      let! l := string_arg args 0 in
      let! r := string_arg args 1 in
      let! v := new_string (l ++ r) in ret (Some v)
  | BiNextCharBoundary =>
      let! text := string_arg args 0 in
      let! pos := int_arg args 1 i64_ty in
      ret (Some (u64_bytes (next_char_boundary text (as_i64 pos))))
  | BiCharAt | BiByteAt | BiSliceUtf8 =>
      let! text := string_arg args 0 in
      let! pos := int_arg args 1 i64_ty in
      let pos := as_i64 pos in
      let! payload :=
        match b with
        | BiCharAt => ret (le_bytes 4 <$> char_at text pos)
        | BiByteAt => ret (u64_bytes <$> byte_at text pos)
        | _ =>
            let! e := int_arg args 2 i64_ty in
            match slice_utf8 text pos (as_i64 e) with
            | Some slice => let! v := new_string slice in ret (Some v)
            | None => ret None
            end
        end in
      let! ty := expect dest_ty in
      let! v := option_value ty payload in ret (Some v)
  | BiToBytes => let! text := string_arg args 0 in let! v := new_string text in ret (Some v)
  | BiFromBytes =>
      let! bytes := string_arg args 0 in
      let! start := int_arg args 1 i64_ty in
      let! e := int_arg args 2 i64_ty in
      let! payload :=
        match from_utf8_range bytes (as_i64 start) (as_i64 e) with
        | Some text => let! v := new_string text in ret (Some v)
        | None => ret None
        end in
      let! ty := expect dest_ty in
      let! v := option_value ty payload in ret (Some v)
  | BiWriteString =>
      let! a := arg args 0 in
      let! d := operand_descriptor a in
      let! pos := int_arg args 1 i64_ty in
      let pos := as_i64 pos in
      let! text := string_arg args 2 in
      let! data := u64_at 0 d in
      let! len := u64_at 8 d in
      let fits := (0 <=? pos) && (pos + Z.of_nat (length text) <=? as_i64 len) in
      (if fits then let! a := checked (data + pos) in m_write a text else ret tt) ;!
      ret (Some [if fits then 1 else 0])
  | BiSliceSort =>
      let! a := arg args 0 in
      let! d := operand_descriptor a in
      let! n := int_arg args 1 i64_ty in
      let! kind := int_arg args 2 (TyInt I32) in
      let! data := u64_at 0 d in
      let! available := u64_at 8 d in
      let! total := checked (Z.min (Z.max n 0) available * Z.of_nat (sort_element_size kind)) in
      let! bytes := m_read data total in
      m_write data (sort_bytes bytes kind) ;! ret None
  | BiStringHash => let! text := string_arg args 0 in ret (Some (u64_bytes (hash_bytes text)))
  | BiUintToString =>
      let! v := int_arg args 0 (TyInt U64) in
      let! s := new_string (bytes_of (uint_to_string (as_u64 v))) in ret (Some s)
  | BiIntToString =>
      let! v := int_arg args 0 i64_ty in
      let! s := new_string (bytes_of (int_to_string (as_i64 v))) in ret (Some s)
  | BiBoolToString =>
      let! a := arg args 0 in
      let! bytes := operand a in
      let! v := lift (truth bytes) in
      let! s := new_string (bytes_of (bool_to_string v)) in ret (Some s)
  | BiFloatToString =>
      let! a := arg args 0 in
      let! ty := operand_ty a in
      match strip_borrow ty with
      | TyFloat w =>
          let! bytes := operand a in
          let! v := lift (float_value bytes w) in
          let! s := new_string (bytes_of (format_float P v (format_code w))) in ret (Some s)
      | _ => fail "float_to_string expects a float"
      end
  | BiCharToString =>
      let! a := arg args 0 in
      let! bytes := operand a in
      let! v := lift (int_value bytes U32) in
      let '(buf, len) := encode_char v in
      let! s := new_string (take len buf) in ret (Some s)
  | BiSliceOfZeros =>
      let! ty := expect dest_ty in
      let! elem := slice_elem ty in
      let! n := int_arg args 0 i64_ty in
      let len := as_u64 n in
      let! size := expect (element_size elem) in
      let! total := checked (len * size) in
      let! data := m_alloc total false in
      ret (Some (u64_bytes data ++ u64_bytes len))
  | BiSliceAsPtr =>
      let! a := arg args 0 in
      let! d := operand_descriptor a in
      let! v := slice_of d 0 8 in ret (Some v)
  | BiFieldsOf =>
      let! a := arg args 0 in
      let! ty := expect dest_ty in
      let! v := fields_of a ty in ret (Some v)
  | BiTypeName =>
      let! a := arg args 0 in
      let! h := pointer a in
      let! ty := type_of_handle h in
      let! v := new_string (bytes_of (name_of P ty)) in ret (Some v)
  | BiCodeToString =>
      let! a := arg args 0 in
      let! h := pointer a in
      let! c := code h in
      let! text := rendered c in
      let! v := new_string (bytes_of text) in ret (Some v)
  | BiCodeJoin =>
      let! a := arg args 0 in
      let! b := arg args 1 in
      let! v := code_join a b in ret (Some v)
  | BiCell op => cell op args dest_ty
  end.

(** [builtin]: [None] when the name is not one. *)
Definition builtin (name : string) (args : list Operand) (destination : option Place) : M (option (option (list Z))) :=
  let! dest_ty := match destination with Some p => let! ty := place_ty p in ret (Some ty) | None => ret None end in
  match builtin_of name with
  | None => ret None
  | Some b => let! v := run_builtin b name args dest_ty in ret (Some v)
  end.

(** An argument of a call, for the parameter it is passed to. *)
Definition call_arg (param : option Type_) (a : Operand) : M (list Z) :=
  match param with
  | None => operand a
  | Some param =>
      let! auto_ref := if is_borrow param then (let! ty := operand_ty a in ret (negb (is_borrow ty))) else ret false in
      if auto_ref then let! address := operand_address a in ret (u64_bytes address) else owned_as a param
  end.

Definition param_ty (b : Body) (index : nat) : option Type_ :=
  if (index <? param_count b)%nat then local_ty <$> body_locals b !! index else None.

Definition call_terminator (name : string) (args : list Operand) (destination : option Place) : M unit :=
  let! result := builtin name args destination in
  match result with
  | Some (Some value) => write_result destination value
  | Some None => ret tt
  | None =>
      if bool_decide (name ∈ externs P) then error (not_allowed "calling an `extern` (FFI) function")
      else
        let! b := body P name in
        let! values := map_each (fun '(index, a) => call_arg (param_ty b index) a) (zip (seq 0 (length args)) args) in
        let! result := call name values in
        write_result destination result
  end.

(** The block a [SwitchInt] goes to. *)
Definition switch_target (bytes : list Z) (targets : list (Z * nat)) (otherwise : nat) : nat :=
  let mask := 2 ^ (Z.of_nat (length bytes) * 8) - 1 in
  match List.find (fun t => Z.land (t.1 mod 2 ^ 128) mask =? le_value bytes) targets with
  | Some t => t.2
  | None => otherwise
  end.

Definition run_terminator (t : Terminator) : M Flow :=
  match t with
  | TmGoto target => ret (Goto target)
  | TmSwitchInt discriminant targets otherwise =>
      let! bytes := operand discriminant in
      if (length bytes <=? 16)%nat then ret (Goto (switch_target bytes targets otherwise)) else panic
  | TmCall target args destination resume => call_terminator target args destination ;! ret (Goto resume)
  | TmCallIndirect callee args destination resume =>
      let! p := pointer callee in
      let! name := function_name p in
      let! values :=
        map_each (fun '(index, a) => if (index =? 0)%nat then operand a else owned_operand a)
          (zip (seq 0 (length args)) args) in
      let! result := call name values in
      write_result destination result ;!
      ret (Goto resume)
  | TmReturn o =>
      let! fr := frame in
      let return_ty := return_ty (fr_body fr) in
      let! size := size_of return_ty in
      if (size =? 0) && type_eqb return_ty TyUnit then drop_all_owned ;! ret (Return [])
      else
        match o with
        | OConst CUnit => fail "reached code with no value to return"
        | _ =>
            let! value := owned_as o return_ty in
            drop_all_owned ;!
            ret (Return value)
        end
  | TmUnreachable => fail "entered unreachable code"
  end.

(** ** Frames *)

Fixpoint pass_args (b : Body) (index : nat) (args : list (list Z)) : M unit :=
  match args with
  | [] => ret tt
  | value :: args =>
      let! a := local_address index in
      located (m_write a value) ;!
      let! d := expect (body_locals b !! index) in
      let! owns := needs_drop P (local_ty d) in
      (if owns then set_flag index true else ret tt) ;!
      pass_args b (S index) args
  end.

Fixpoint run_statements (b : Body) (block index : nat) (l : list Statement) : M unit :=
  match l with
  | [] => ret tt
  | st :: l =>
      set_span (statement_span b block index) ;!
      tick P ;!
      located (statement st) ;!
      run_statements b block (S index) l
  end.

(** One block: its statements and its terminator. *)
Definition run_block (b : Body) (block : nat) (data : BasicBlock) : M Flow :=
  run_statements b block 0 (statements data) ;!
  set_span (terminator_span b block) ;!
  tick P ;!
  located (run_terminator (terminator data)).

Fixpoint run_blocks (fuel : nat) (b : Body) (block : nat) : M (list Z) :=
  match fuel with
  | O => lift (Err NoFuel)
  | S fuel =>
      let! data := expect (body_blocks b !! block) in
      let! flow := run_block b block data in
      match flow with
      | Goto next => run_blocks fuel b next
      | Return value => ret value
      end
  end.

Definition block_fuel : nat := Z.to_nat (instructions P) + 2.

Definition run_frame (args : list (list Z)) : M (list Z) :=
  let! fr := frame in
  let b := fr_body fr in
  pass_args b 0 (take (param_count b) args) ;!
  run_blocks block_fuel b 0.

(** Removes the frame that [m] ran in and frees its storage, unless the process
    is lost. *)
Definition leave (m : M (list Z)) : M (list Z) :=
  fun s =>
    let '(r, s) := m s in
    let s := set_depth (depth s - 1) s in
    match frames s with
    | [] => (Err Panic, s)
    | fr :: rest =>
        let s := set_frames rest s in
        match r with
        | Ok _ | Err (Fail _) => (for_each m_free (fr_locals fr ++ fr_scratch fr) ;! lift r) s
        | Err e => (Err e, s)
        end
    end.

Definition call_body (name : string) (args : list (list Z)) : M (list Z) :=
  let! b := body P name in
  let! s := get in
  if call_depth P <=? depth s then
    fail ("exceeded the comptime call-depth limit (" +:+ show_Z (call_depth P)
      +:+ " nested calls) — this usually means unbounded recursion")
  else
    let! bs :=
      match borrowed s !! name with
      | Some bs => ret bs
      | None =>
          let bs := borrowed_locals b in
          modify (fun s => set_borrowed (<[name := bs]> (borrowed s)) s) ;! ret bs
      end in
    let! locals := map_each (fun d => let! size := size_of (local_ty d) in m_alloc size false) (body_locals b) in
    let flags := replicate (length (body_locals b)) false in
    modify (fun s => set_frames (mkFrame b locals flags bs [] (body_span b) :: frames s) s) ;!
    modify (fun s => set_depth (depth s + 1) s) ;!
    leave (run_frame args).
End Calls.

Fixpoint call_in (calls : nat) (name : string) (args : list (list Z)) : M (list Z) :=
  match calls with
  | O => lift (Err NoFuel)
  | S calls => call_body (call_in calls) name args
  end.
Definition call (name : string) (args : list (list Z)) : M (list Z) := call_in (Z.to_nat (call_depth P) + 1) name args.

(** ** Values in and out *)

Definition encode (ty : Type_) (value : ComptimeValue) : M (list Z) :=
  match value with
  | VScalar c => constant c
  | VType inner => let! h := type_handle inner in ret (u64_bytes h)
  | VCode c => let! h := code_handle c in ret (u64_bytes h)
  | _ => error (Error_new ("cannot pass a " +:+ name_of P ty +:+ " argument to compile-time code"))
  end.

Definition embed (what : string) : Error :=
  Error_new ("a compile-time value of type `" +:+ what +:+ "` cannot be embedded in the program").

(** The first variant, by name, whose index is the tag. *)
Fixpoint variant_named (name : string) (args : list Type_) (tag : Z) (names : list string) : M (option string) :=
  match names with
  | [] => ret None
  | v :: names =>
      let! index := expect (lay_enum_variant_index name args v) in
      if index =? tag then ret (Some v) else variant_named name args tag names
  end.

Fixpoint decode_in (fuel : nat) (ty : Type_) (bytes : list Z) : M ComptimeValue :=
  match fuel with
  | O => host_stack
  | S fuel =>
      let field '(field_ty, offset) :=
        let! size := size_of field_ty in let! part := slice_of bytes offset size in decode_in fuel field_ty part in
      match ty with
      | TyUnit => ret (VScalar CUnit)
      | TyInt w => let! v := lift (int_value bytes w) in ret (VScalar (CInt (as_i64 v) w))
      | TyFloat w => let! v := lift (float_value bytes w) in ret (VScalar (CFloat (to_bits prec emax v) w))
      | TyBool => let! b := lift (truth bytes) in ret (VScalar (CBool b))
      | TyChar =>
          let! v := lift (int_value bytes U32) in
          match char_from_u32 v with Some c => ret (VScalar (CChar c)) | None => error (embed "char") end
      | TyString => let! text := descriptor_bytes bytes in ret (VScalar (CStr (from_utf8_lossy text)))
      | TyTypeValue _ => let! h := u64_at 0 bytes in let! t := type_of_handle h in ret (VType t)
      | TyCode => let! h := u64_at 0 bytes in let! c := code h in ret (VCode c)
      | TySlice elem =>
          let! data := u64_at 0 bytes in
          let! len := u64_at 8 bytes in
          let! size := expect (element_size elem) in
          let! items :=
            map_each (fun index =>
              let! o := checked (Z.of_nat index * size) in
              let! a := checked (data + o) in
              let! n := size_of elem in
              let! item := m_read a n in
              decode_in fuel elem item) (seq 0 (Z.to_nat len)) in
          ret (VSlice ty items)
      | TyTuple items =>
          let! vs := map_each (fun index => let! f := expect (lay_tuple_field items index) in field f) (seq 0 (length items)) in
          ret (VRecord ty vs)
      | TyStruct name args =>
          if lay_has_struct name then
            let! declared := expect (lay_struct_fields name args) in
            let! vs := map_each field declared in ret (VRecord ty vs)
          else error (embed (name_of P ty))
      | TyEnum name args =>
          let! tag := u64_at 0 bytes in
          let! names := expect (lay_enum_variant_names name) in
          let! variants := expect (lay_enum_variants name args) in
          let invalid := Error_new ("invalid `" +:+ name +:+ "` tag " +:+ show_Z tag) in
          match List.find (fun v => v.1 =? tag) variants with
          | None => error invalid
          | Some (_, declared) =>
              let! variant := variant_named name args tag names in
              match variant with
              | None => error invalid
              | Some variant => let! vs := map_each field declared in ret (VVariant ty variant vs)
              end
          end
      | other => error (embed (name_of P other))
      end
  end.
Definition decode (ty : Type_) (bytes : list Z) : M ComptimeValue := decode_in (host P) ty bytes.

(** [Machine::run] *)
Definition run (entry : string) (args : list (Type_ * ComptimeValue)) : M ComptimeValue :=
  let! b := body P entry in
  let! values := map_each (fun a => encode a.1 a.2) args in
  let! result := call entry values in
  decode (return_ty b) result.

Record Evaluation := mkEvaluation { ev_value : ComptimeValue; ev_output : string; ev_stderr : string }.

Definition evaluate (entry : string) (args : list (Type_ * ComptimeValue)) : outcome Evaluation :=
  match run entry args Machine_new with
  | (Ok value, s) => Ok (mkEvaluation value (m_output s) (m_stderr s))
  | (Err e, _) => Err e
  end.
End Machine.
