(* ===== verification/EvaluateThms.v ===== *)
(** Compile-time evaluation ends, within its budget, and keeps its stack.

    [later s s'] relates a machine to what it becomes: handles keep their
    meaning, freed memory stays freed, the stack below the running frame is
    untouched.  [good] is the judgement on computations, with one rule per
    combinator; every operation of the machine satisfies it, by the rules of
    its parts. *)
From S2P Require Import Prelude Span Ast Types Dims Generics Names Layout TypeLayout Bytes Text Floats Sort Mir Glue Memory Values Quote Machine Evaluate.
From Stdlib Require Import Floats.SpecFloat.
Open Scope Z_scope.
Open Scope machine_scope.

(** ** Later machines *)

(** What became of an allocation. *)
Definition alloc_later (a a' : Allocation) : Prop :=
  fixed a' = fixed a /\ (freed a = true -> a' = a) /\ (freed a' = false -> length (bytes a') = length (bytes a)).

Definition mem_later (m m' : Memory) : Prop :=
  forall i a, allocations m !! i = Some a -> exists a', allocations m' !! i = Some a' /\ alloc_later a a'.

Definition frame_later (f f' : Frame) : Prop :=
  fr_body f' = fr_body f /\ fr_locals f' = fr_locals f /\ fr_borrowed f' = fr_borrowed f /\
  length (fr_flags f') = length (fr_flags f) /\ fr_scratch f `prefix_of` fr_scratch f'.

Definition stack_later (l l' : list Frame) : Prop :=
  match l, l' with
  | [], [] => True
  | f :: rest, f' :: rest' => frame_later f f' /\ rest' = rest
  | _, _ => False
  end.

Record later (s s' : Machine) : Prop := {
  later_memory : mem_later (memory s) (memory s');
  later_types : types s `prefix_of` types s';
  later_codes : codes s `prefix_of` codes s';
  later_functions : functions s `prefix_of` functions s';
  later_executed : executed s <= executed s';
  later_depth : depth s' = depth s;
  later_frames : stack_later (frames s) (frames s') }.

Lemma alloc_later_refl a : alloc_later a a.
Proof. by split_and!. Qed.

Lemma alloc_later_trans a b c : alloc_later a b -> alloc_later b c -> alloc_later a c.
Proof.
  intros (F1 & D1 & B1) (F2 & D2 & B2). split_and!; [congruence| |].
  - intros H. rewrite (D1 H) in *. auto.
  - intros H. rewrite (B2 H). apply B1. destruct (freed b) eqn:E; [|done]. rewrite (D2 eq_refl) in H. congruence.
Qed.

Lemma mem_later_refl m : mem_later m m.
Proof. intros i a H. exists a. split; [done|apply alloc_later_refl]. Qed.

Lemma mem_later_trans m1 m2 m3 : mem_later m1 m2 -> mem_later m2 m3 -> mem_later m1 m3.
Proof.
  intros H1 H2 i a Ha. destruct (H1 i a Ha) as (b & Hb & Lb). destruct (H2 i b Hb) as (c & Hc & Lc).
  exists c. split; [done|]. by eapply alloc_later_trans.
Qed.

Lemma frame_later_refl f : frame_later f f.
Proof. by split_and!. Qed.

Lemma frame_later_trans f g h : frame_later f g -> frame_later g h -> frame_later f h.
Proof. intros (? & ? & ? & ? & ?) (? & ? & ? & ? & ?). split_and!; try congruence. by etrans. Qed.

Lemma stack_later_refl l : stack_later l l.
Proof. destruct l; [done|]. split; [apply frame_later_refl|done]. Qed.

Lemma stack_later_trans l1 l2 l3 : stack_later l1 l2 -> stack_later l2 l3 -> stack_later l1 l3.
Proof.
  destruct l1, l2, l3; try done. intros [H1 ->] [H2 ->]. split; [|done]. by eapply frame_later_trans.
Qed.

#[export] Instance later_preorder : PreOrder later.
Proof.
  split.
  - intros s. split; auto using mem_later_refl, stack_later_refl. lia.
  - intros s1 s2 s3 [] []. split; eauto using mem_later_trans, stack_later_trans; try (by etrans); congruence.
Qed.

(** The operations on the memory. *)
Lemma set_allocation_later m i a a' : allocations m !! i = Some a -> alloc_later a a' -> mem_later m (set_allocation m i a').
Proof.
  intros Hi Hl j b Hj. unfold set_allocation. cbn [allocations]. destruct (decide (i = j)) as [->|Hne].
  - rewrite Hi in Hj. injection Hj as <-. exists a'. split; [|done]. apply list_lookup_insert_eq. by apply lookup_lt_Some in Hi.
  - exists b. rewrite list_lookup_insert_ne by done. split; [done|apply alloc_later_refl].
Qed.

Lemma locate_allocation m address len i o : locate m address len = Ok (i, o) ->
  exists a, allocations m !! i = Some a /\ freed a = false /\ 0 <= o /\ o + len <= Z.of_nat (length (bytes a)).
Proof.
  unfold locate. destruct (_ =? 0); [done|]. destruct (allocations m !! _) as [a|] eqn:E; [|done].
  destruct (freed a) eqn:F; [done|]. destruct (check_u64 _) as [stop|] eqn:C; [|done]. apply check_u64_some in C as [-> ?].
  destruct (Z.ltb_spec (Z.of_nat (length (bytes a))) (Z.land address 4294967295 + len)); [done|].
  intros [= <- <-]. exists a. split_and!; try done. apply Z.land_nonneg. lia.
Qed.

Lemma alloc_mem_later size f m : mem_later m (alloc size f m).2.
Proof. intros i a H. exists a. split; [|apply alloc_later_refl]. cbn [alloc snd allocations]. by apply lookup_app_l_Some. Qed.

Lemma write_mem_later m address v m' : write m address v = Ok m' -> mem_later m m'.
Proof.
  unfold write. destruct v as [|x v]; [intros [= <-]; apply mem_later_refl|].
  destruct (locate m address _) as [[i o]|] eqn:E; [|done]. apply locate_allocation in E as (a & Ha & Hf & H0 & Hb).
  unfold allocation. rewrite Ha. cbn [default]. intros [= <-]. eapply set_allocation_later; [done|].
  split_and!; [done|cbn; congruence|]. intros _. cbn [bytes]. apply put_bytes_length. cbn [length] in *. lia.
Qed.

Lemma free_mem_later m address m' : free m address = Ok m' -> mem_later m m'.
Proof.
  unfold free. destruct (_ =? 0); [intros [= <-]; apply mem_later_refl|].
  destruct (locate m address 0) as [[i o]|] eqn:E; [|done]. apply locate_allocation in E as (a & Ha & Hf & H0 & Hb).
  unfold allocation. rewrite Ha. cbn [default]. destruct (_ || _); [done|]. intros [= <-].
  eapply set_allocation_later; [done|]. split_and!; [done|congruence|done].
Qed.

(** Machines that differ in one field. *)
Ltac later_field := intros; match goal with s : Machine |- _ => destruct s end; split; simpl;
  auto using mem_later_refl, stack_later_refl; try lia; try done.

Lemma set_memory_later m s : mem_later (memory s) m -> later s (set_memory m s).
Proof. later_field. Qed.
Lemma set_types_later l s : types s `prefix_of` l -> later s (set_types l s).
Proof. later_field. Qed.
Lemma set_codes_later l s : codes s `prefix_of` l -> later s (set_codes l s).
Proof. later_field. Qed.
Lemma set_functions_later l ids s : functions s `prefix_of` l -> later s (set_functions l ids s).
Proof. later_field. Qed.
Lemma set_statics_later x s : later s (set_statics x s).
Proof. later_field. Qed.
Lemma set_output_later x s : later s (set_output x s).
Proof. later_field. Qed.
Lemma set_stderr_later x s : later s (set_stderr x s).
Proof. later_field. Qed.
Lemma set_drops_later x s : later s (set_drops x s).
Proof. later_field. Qed.
Lemma set_borrowed_later x s : later s (set_borrowed x s).
Proof. later_field. Qed.
Lemma set_frames_later l s : stack_later (frames s) l -> later s (set_frames l s).
Proof. later_field. Qed.

(** ** The judgement

    [good c m], for a machine that may still nest [c] calls: [m] leads to a later
    machine; started within the instruction budget it ends within it, or one
    instruction over when it fails; and its loops do not run out. *)

Section Good.
Context {L : Layouts} (P : Program).

Definition ready (c : nat) (s : Machine) : Prop :=
  0 <= executed s /\ depth s <= call_depth P < depth s + Z.of_nat c.

Definition within {A} (r : outcome A) (s : Machine) : Prop :=
  match r with Ok _ => executed s <= instructions P | Err _ => executed s <= instructions P + 1 end.

Record ends {A} (c : nat) (s : Machine) (r : outcome A) (s' : Machine) : Prop := {
  ends_later : later s s';
  ends_within : executed s <= instructions P -> within r s';
  ends_total : ready c s -> r <> Err NoFuel }.

Definition good (c : nat) {A} (m : M A) : Prop := forall s, ends c s (m s).1 (m s).2.

Lemma ready_later c s s' : later s s' -> ready c s -> ready c s'.
Proof. intros [] [H1 H2]. split; lia. Qed.

Lemma ends_bind {A B} c s (r : outcome A) s1 (r' : outcome B) s2 :
  ends c s r s1 ->
  match r with Ok _ => ends c s1 r' s2 | Err e => r' = Err e /\ s2 = s1 end -> ends c s r' s2.
Proof.
  intros [H1 W1 T1] H2. destruct r as [a|e].
  - destruct H2 as [H2 W2 T2]. split; [by etrans|intros E; apply W2; exact (W1 E)|]. intros R. apply T2. by eapply ready_later.
  - destruct H2 as [-> ->]. split; [done|exact W1|]. intros R. specialize (T1 R). congruence.
Qed.

(** Steps that neither execute an instruction nor run out. *)
Lemma ends_plain {A} c s (r : outcome A) s' :
  later s s' -> executed s' = executed s -> r <> Err NoFuel -> ends c s r s'.
Proof. intros H E N. split; [done| |done]. unfold within. rewrite E. destruct r; lia. Qed.

Lemma good_bind {A B} c (m : M A) (k : A -> M B) : good c m -> (forall a, good c (k a)) -> good c (bind m k).
Proof.
  intros Hm Hk s. eapply ends_bind; [apply Hm|]. unfold bind. destruct (m s) as [[a|e] s1]; [apply Hk|done].
Qed.

Lemma good_lift {A} c (r : outcome A) : r <> Err NoFuel -> good c (lift r).
Proof. intros H s. by apply ends_plain. Qed.
Lemma good_ret {A} c (a : A) : good c (ret a).
Proof. by apply good_lift. Qed.
Lemma good_panic {A} c : good c (panic (A := A)).
Proof. by apply good_lift. Qed.
Lemma good_host_stack {A} c : good c (host_stack (A := A)).
Proof. by apply good_lift. Qed.
Lemma good_error {A} c e : good c (error (A := A) e).
Proof. by apply good_lift. Qed.
Lemma good_expect {A} c (o : option A) : good c (expect o).
Proof. destruct o; by apply good_lift. Qed.
Lemma good_get c : good c get.
Proof. intros s. by apply ends_plain. Qed.
Lemma good_checked c z : good c (checked z).
Proof. apply good_expect. Qed.
Lemma good_fail {A} c m : good c (fail (A := A) m).
Proof. intros s. by apply ends_plain. Qed.

Lemma good_modify c f : (forall s, later s (f s)) -> (forall s, executed (f s) = executed s) -> good c (modify f).
Proof. intros H E s. apply ends_plain; [apply H|apply E|done]. Qed.

Lemma good_located {A} c (m : M A) : good c m -> good c (located m).
Proof.
  intros H s. unfold located. destruct (H s) as [H1 W1 T1]. destruct (m s) as [[a|[e| | |]] s']; try by split.
Qed.

Lemma good_fails {A} c (r : outcome A) : r <> Err NoFuel -> good c (fails r).
Proof. intros H. by apply good_located, good_lift. Qed.

Lemma good_for_each {A} c (f : A -> M unit) l : (forall a, good c (f a)) -> good c (for_each f l).
Proof. intros H. induction l as [|a l IH]; [apply good_ret|]. apply good_bind; auto. Qed.

Lemma good_map_each {A B} c (f : A -> M B) l : (forall a, good c (f a)) -> good c (map_each f l).
Proof.
  intros H. induction l as [|a l IH]; [apply good_ret|]. apply good_bind; [done|]. intros b.
  apply good_bind; [done|]. intros bs. apply good_ret.
Qed.

Lemma good_any_each {A} c (f : A -> M bool) l : (forall a, good c (f a)) -> good c (any_each f l).
Proof.
  intros H. induction l as [|a l IH]; [apply good_ret|]. apply good_bind; [done|]. intros []; [apply good_ret|done].
Qed.

Lemma good_for_range c f n : (forall i, good c (f i)) -> good c (for_range f n).
Proof. intros H. by apply good_for_each. Qed.

(** *** Memory *)

Lemma locate_total m a len : locate m a len <> Err NoFuel.
Proof. unfold locate. destruct (_ =? 0); [done|]. destruct (allocations m !! _) as [x|]; [|done].
  destruct (freed x); [done|]. destruct (check_u64 _); [|done]. by destruct (_ <? _). Qed.

Lemma read_total m a len : read m a len <> Err NoFuel.
Proof. unfold read. destruct (_ =? 0); [done|]. pose proof (locate_total m a len). destruct (locate m a len) as [[]|]; [done|congruence]. Qed.

Lemma good_m_read c a len : good c (m_read a len).
Proof. intros s. apply ends_plain; [done|done|apply read_total]. Qed.

Lemma good_m_read_u64 c a : good c (m_read_u64 a).
Proof.
  intros s. apply ends_plain; [done|done|]. unfold m_read_u64, read_u64. cbn [fst].
  pose proof (read_total (memory s) a 8). destruct (read _ _ _); [done|]. simpl in *. congruence.
Qed.

Lemma good_m_alloc c size f : good c (m_alloc size f).
Proof.
  intros s. unfold m_alloc. pose proof (alloc_mem_later size f (memory s)) as H.
  destruct (alloc size f (memory s)) as [a m]. apply ends_plain; [by apply set_memory_later|by destruct s|done].
Qed.

Lemma good_update_memory c f :
  (forall m m', f m = Ok m' -> mem_later m m') -> (forall m, f m <> Err NoFuel) -> good c (update_memory f).
Proof.
  intros H N s. unfold update_memory. specialize (N (memory s)). destruct (f (memory s)) as [m|e] eqn:E.
  - apply ends_plain; [apply set_memory_later; eauto|by destruct s|done].
  - apply ends_plain; [done|done|]. simpl. congruence.
Qed.

Lemma write_total m a v : write m a v <> Err NoFuel.
Proof. destruct v as [|x v]; [done|]. unfold write. pose proof (locate_total m a (Z.of_nat (length (x :: v)))).
  destruct (locate m a _) as [[]|]; [done|congruence]. Qed.

Lemma good_m_write c a v : good c (m_write a v).
Proof. apply good_update_memory; [intros m m'; apply write_mem_later|intros; apply write_total]. Qed.
Lemma good_m_write_u64 c a v : good c (m_write_u64 a v).
Proof. apply good_m_write. Qed.
Lemma free_total m a : free m a <> Err NoFuel.
Proof.
  unfold free. destruct (_ =? 0); [done|].
  pose proof (locate_total m a 0). destruct (locate m a 0) as [[i o]|]; [by destruct (_ || _)|]. congruence.
Qed.
Lemma good_m_free c a : good c (m_free a).
Proof. apply good_update_memory; [intros m m'; apply free_mem_later|intros; apply free_total]. Qed.

(** *** The running frame *)

Lemma good_frame c : good c frame.
Proof. apply good_bind; [apply good_get|]. intros s. apply good_expect. Qed.

Lemma good_frame_mut c f : (forall fr, frame_later fr (f fr)) -> good c (frame_mut f).
Proof.
  intros H s. unfold frame_mut, bind, get. destruct (frames s) as [|fr rest] eqn:E; [by apply good_panic|].
  apply ends_plain; [|by destruct s|done]. apply set_frames_later. by rewrite E.
Qed.

Lemma good_set_flag c i b : good c (set_flag i b).
Proof.
  apply good_bind; [apply good_frame|]. intros fr. apply good_bind; [apply good_expect|]. intros _.
  apply good_frame_mut. intros f. split_and!; try done. apply length_insert.
Qed.
Lemma good_set_span c sp : good c (set_span sp).
Proof. apply good_frame_mut. intros f. by split_and!. Qed.
Lemma good_push_scratch c a : good c (push_scratch a).
Proof. apply good_frame_mut. intros f. split_and!; try done. by apply prefix_app_r. Qed.
End Good.

Create HintDb good discriminated.
#[export] Hint Resolve good_ret good_panic good_host_stack good_error good_expect good_get good_checked good_fail
  good_m_read good_m_read_u64 good_m_alloc good_m_write good_m_write_u64 good_m_free good_frame good_set_flag
  good_set_span good_push_scratch : good.

(** *** Scalars *)

Create HintDb total discriminated.

Lemma result_bind_total {A B} (r : outcome A) (k : A -> outcome B) :
  r <> Err NoFuel -> (forall a, k a <> Err NoFuel) -> result_bind r k <> Err NoFuel.
Proof. intros H K. destruct r; [apply K|]. simpl. congruence. Qed.

Lemma raw_value_total n l : raw_value n l <> Err NoFuel.
Proof. unfold raw_value. by destruct (_ <=? _)%nat. Qed.
Lemma int_value_total l w : int_value l w <> Err NoFuel.
Proof. unfold int_value. pose proof (raw_value_total 8 l). destruct (raw_value 8 l); [done|congruence]. Qed.
Lemma to_outcome_total {A} (o : option A) : to_outcome o <> Err NoFuel.
Proof. by destruct o. Qed.
Lemma float_value_total l w : float_value l w <> Err NoFuel.
Proof.
  unfold float_value. pose proof (raw_value_total 4 l).
  destruct w; try (by destruct (_ =? _)%nat); destruct (raw_value 4 l); try congruence; apply to_outcome_total.
Qed.
Lemma float_bytes_total v w : float_bytes v w <> Err NoFuel.
Proof. destruct w; done || apply to_outcome_total. Qed.
Lemma truth_total l : truth l <> Err NoFuel.
Proof. by destruct l. Qed.
Lemma flag_total b : flag b <> Err NoFuel.
Proof. done. Qed.
#[export] Hint Resolve int_value_total float_value_total float_bytes_total truth_total flag_total result_bind_total : total.

Lemma shift_total p op v a w : shift p op v a w <> Err NoFuel.
Proof. unfold shift. by repeat case_match. Qed.
Lemma int_binary_total p op l r w : int_binary p op l r w <> Err NoFuel.
Proof. destruct op; cbn [int_binary]; try apply flag_total; try apply shift_total; try done; by repeat case_match. Qed.
Lemma float_binary_total op l r w : float_binary op l r w <> Err NoFuel.
Proof. destruct op; try done; destruct w; try done; apply float_bytes_total. Qed.
Lemma bool_binary_total op l r : bool_binary op l r <> Err NoFuel.
Proof. by destruct op. Qed.
Lemma char_binary_total op l r : char_binary op l r <> Err NoFuel.
Proof. by destruct op. Qed.
#[export] Hint Resolve shift_total int_binary_total float_binary_total bool_binary_total char_binary_total : total.

Lemma binary_total p op l r ty : binary p op l r ty <> Err NoFuel.
Proof. destruct ty; cbn [binary]; auto 8 with total. Qed.
Lemma unary_total p op v ty : unary p op v ty <> Err NoFuel.
Proof.
  destruct op, ty; cbn [unary]; try apply flag_total; try done; try (by case_match);
    try (destruct w; try (by case_match); auto 8 with total; fail);
    apply result_bind_total; auto with total; intros a; try done; by case_match.
Qed.
Lemma cast_total v s t : cast v s t <> Err NoFuel.
Proof.
  assert (forall A (b : bool) (x y : outcome A), x <> Err NoFuel -> y <> Err NoFuel -> (if b then x else y) <> Err NoFuel) by
    (by intros A []).
  destruct s, t; cbn [cast]; try case_bool_decide; auto 8 with total; try done;
    apply result_bind_total; auto with total; done.
Qed.
#[export] Hint Resolve binary_total unary_total cast_total : total.

(** ** Every operation is good *)

Scheme Place_mut := Induction for Place Sort Prop
with Operand_mut := Induction for Operand Sort Prop.
Combined Scheme Place_Operand_ind from Place_mut, Operand_mut.

Lemma good_lift_total {L : Layouts} P {A} c (r : outcome A) : r <> Err NoFuel -> good P c (lift r).
Proof. apply good_lift. Qed.

(** Takes a computation apart. *)
Ltac good_step :=
  match goal with
  | |- forall _, _ => intro
  | |- good _ _ (bind _ _) => apply good_bind
  | |- good _ _ (for_each _ _) => apply good_for_each
  | |- good _ _ (for_range _ _) => apply good_for_range
  | |- good _ _ (map_each _ _) => apply good_map_each
  | |- good _ _ (any_each _ _) => apply good_any_each
  | |- good _ _ (located _) => apply good_located
  | |- good _ _ (fails _) => apply good_fails; auto with total
  | |- good _ _ (lift _) => apply good_lift; auto with total
  | |- good _ _ _ => solve [auto with good nocore]
  | |- good _ _ (match ?x with _ => _ end) => destruct x
  | |- good _ _ (modify _) => apply good_modify; [intros [] |intros []; done]
  end.
Ltac good := repeat good_step.

Section Good.
Context {L : Layouts} (P : Program) (c : nat).

Lemma good_u64_at i l : good P c (u64_at i l).
Proof. unfold u64_at. good. Qed.
Lemma good_copy_in l o v : good P c (copy_in l o v).
Proof. unfold copy_in. good. Qed.
Lemma good_slice_of l o n : good P c (slice_of l o n).
Proof. unfold slice_of. good. Qed.
Lemma good_slice_elem ty : good P c (slice_elem ty).
Proof. unfold slice_elem. good. Qed.
Lemma good_body name : good P c (body P name).
Proof. unfold body. good. Qed.
Lemma good_size_of ty : good P c (size_of ty).
Proof. unfold size_of. good. Qed.
Lemma good_field_of base field : good P c (field_of base field).
Proof. induction base; cbn [field_of]; good. Qed.
Lemma good_variant_field base v i : good P c (variant_field base v i).
Proof. unfold variant_field. good. Qed.
Lemma good_local_decl i : good P c (local_decl i).
Proof. unfold local_decl. good. Qed.
Hint Resolve good_u64_at good_copy_in good_slice_of good_slice_elem good_body good_size_of good_field_of
  good_variant_field good_local_decl : good.

Lemma good_place_ty p : good P c (place_ty p).
Proof. induction p; cbn [place_ty]; good. Qed.
Hint Resolve good_place_ty : good.
Lemma good_operand_ty o : good P c (operand_ty o).
Proof. destruct o as [p|p|[]]; cbn [operand_ty]; good. Qed.
Lemma good_user_drop ty : good P c (user_drop P ty).
Proof. unfold user_drop, takes_self. good. Qed.
Hint Resolve good_operand_ty good_user_drop : good.

Lemma good_needs_drop_in n ty : good P c (needs_drop_in P n ty).
Proof. revert ty. induction n as [|n IH]; intros ty; cbn [needs_drop_in]; good; apply set_drops_later. Qed.
Lemma good_needs_drop ty : good P c (needs_drop P ty).
Proof. apply good_needs_drop_in. Qed.
Lemma good_scratch n : good P c (scratch n).
Proof. unfold scratch. good. Qed.
Lemma good_local_address i : good P c (local_address i).
Proof. unfold local_address. good. Qed.
Lemma good_type_handle ty : good P c (type_handle ty).
Proof. unfold type_handle. good. apply set_types_later. by apply prefix_app_r. Qed.
Lemma good_type_of_handle h : good P c (type_of_handle h).
Proof. unfold type_of_handle. good. Qed.
Lemma good_code_handle x : good P c (code_handle x).
Proof. unfold code_handle. good. apply set_codes_later. by apply prefix_app_r. Qed.
Lemma good_code h : good P c (code h).
Proof. unfold code. good. Qed.
Hint Resolve good_needs_drop good_scratch good_local_address good_type_handle good_type_of_handle good_code_handle good_code : good.

Lemma good_constant x : good P c (constant x).
Proof. destruct x; cbn [constant]; good. apply set_statics_later. Qed.
Lemma good_int_of_bytes l ty : good P c (int_of_bytes l ty).
Proof. unfold int_of_bytes. good. Qed.
Hint Resolve good_constant good_int_of_bytes : good.

Lemma good_place_operand : (forall p, good P c (place_address p)) /\ (forall o, good P c (operand o)).
Proof.
  apply Place_Operand_ind; intros; cbn [place_address operand]; unfold read_place_at; good.
Qed.
Lemma good_place_address p : good P c (place_address p).
Proof. apply good_place_operand. Qed.
Lemma good_operand o : good P c (operand o).
Proof. apply good_place_operand. Qed.
Hint Resolve good_place_address good_operand : good.
Lemma good_read_place p : good P c (read_place p).
Proof. exact (good_operand (Copy p)). Qed.
Lemma good_int_operand o ty : good P c (int_operand o ty).
Proof. unfold int_operand. good. Qed.
Lemma good_pointer o : good P c (pointer o).
Proof. unfold pointer. good. Qed.
Lemma good_operand_address o : good P c (operand_address o).
Proof. unfold operand_address. good. Qed.
Lemma good_function_pointer n : good P c (function_pointer n).
Proof. unfold function_pointer. good. apply set_functions_later. by apply prefix_app_r. Qed.
Lemma good_function_name n : good P c (function_name n).
Proof. unfold function_name. good. Qed.
Hint Resolve good_read_place good_int_operand good_pointer good_operand_address good_function_pointer good_function_name : good.

Lemma good_visit_fields visit a l : (forall ty a, good P c (visit ty a)) -> good P c (visit_fields visit a l).
Proof. intros H. unfold visit_fields. good. Qed.

Lemma good_clone_in n ty a : good P c (clone_in P n ty a).
Proof. revert ty a. induction n as [|n IH]; intros ty a; cbn [clone_in]; good; apply good_visit_fields, IH. Qed.
Lemma good_clone_at ty a : good P c (clone_at P ty a).
Proof. apply good_clone_in. Qed.
Hint Resolve good_clone_at : good.

Lemma good_clone_value ty v : good P c (clone_value P ty v).
Proof. unfold clone_value. good. Qed.
Hint Resolve good_clone_value : good.
Lemma good_owned_operand o : good P c (owned_operand P o).
Proof. unfold owned_operand. good. Qed.
Hint Resolve good_owned_operand : good.
Lemma good_owned_as o ty : good P c (owned_as P o ty).
Proof. unfold owned_as. good. Qed.
Lemma good_write_unowned p v : good P c (write_unowned p v).
Proof. unfold write_unowned. good. Qed.
Lemma good_descriptor p : good P c (descriptor p).
Proof. unfold descriptor. good. Qed.
Hint Resolve good_owned_as good_write_unowned good_descriptor : good.
Lemma good_operand_descriptor o : good P c (operand_descriptor o).
Proof. unfold operand_descriptor. good. Qed.
Lemma good_descriptor_bytes d : good P c (descriptor_bytes d).
Proof. unfold descriptor_bytes. good. Qed.
Hint Resolve good_operand_descriptor good_descriptor_bytes : good.
Lemma good_string_operand o : good P c (string_operand o).
Proof. unfold string_operand. good. Qed.
Lemma good_new_string l : good P c (new_string l).
Proof. unfold new_string. good. Qed.
Hint Resolve good_string_operand good_new_string : good.

Lemma good_place_declared l fields bs : good P c (place_declared P l fields bs).
Proof. revert fields bs. induction l as [|[ty o] l IH]; intros [|f fields] bs; cbn [place_declared]; good. Qed.
Lemma good_place_fields f i fields bs : good P c (place_fields P f i fields bs).
Proof. revert i bs. induction fields as [|x fields IH]; intros i bs; cbn [place_fields]; good. Qed.
Hint Resolve good_place_declared good_place_fields : good.
Lemma good_aggregate ty v fields : good P c (aggregate P ty v fields).
Proof. unfold aggregate. good. Qed.
Lemma good_splice_value ty v : good P c (splice_value P ty v).
Proof. unfold splice_value. good. Qed.
Lemma good_rendered x : good P c (rendered P x).
Proof. unfold rendered. good. Qed.
Lemma good_code_join a b : good P c (code_join P a b).
Proof. unfold code_join. good. Qed.
Lemma good_fields_of o ty : good P c (fields_of P o ty).
Proof. unfold fields_of. good. Qed.
Hint Resolve good_aggregate good_splice_value good_rendered good_code_join good_fields_of : good.
Lemma good_display o : good P c (display P o).
Proof. unfold display. good. Qed.
Lemma good_option_value ty v : good P c (option_value ty v).
Proof. unfold option_value. good. Qed.
Lemma good_arg l i : good P c (arg l i).
Proof. unfold arg. good. Qed.
Hint Resolve good_display good_option_value good_arg : good.
Lemma good_math op l : good P c (math P op l).
Proof. unfold math. good. Qed.
Lemma good_binary_op op l r : good P c (binary_op op l r).
Proof. unfold binary_op. good. Qed.
Hint Resolve good_math good_binary_op : good.
Lemma good_rvalue r : good P c (rvalue P r).
Proof. destruct r; cbn [rvalue]; good. Qed.
End Good.
#[export] Hint Resolve good_u64_at good_copy_in good_slice_of good_slice_elem good_body good_size_of good_field_of
  good_variant_field good_local_decl good_place_ty good_operand_ty good_user_drop good_needs_drop good_scratch
  good_local_address good_type_handle good_type_of_handle good_code_handle good_code good_constant good_int_of_bytes
  good_place_address good_operand good_read_place good_int_operand good_pointer good_operand_address good_function_pointer
  good_function_name good_clone_at good_clone_value good_owned_operand good_owned_as good_write_unowned good_descriptor
  good_operand_descriptor good_descriptor_bytes good_string_operand good_new_string good_aggregate good_splice_value
  good_rendered good_code_join good_fields_of good_display good_option_value good_arg good_math good_binary_op good_rvalue : good.

(** What a frame does, over calls that are good. *)
Section Frames.
Context {L : Layouts} (P : Program) (c : nat) (call : string -> list (list Z) -> M (list Z)).
Hypothesis good_call : forall name args, good P c (call name args).
Hint Resolve good_call : good.

Lemma good_drop_in n ty a : good P c (drop_in P call n ty a).
Proof. revert ty a. induction n as [|n IH]; intros ty a; cbn [drop_in]; good; apply good_visit_fields, IH. Qed.
Lemma good_drop_at ty a : good P c (drop_at P call ty a).
Proof. apply good_drop_in. Qed.
Hint Resolve good_drop_at : good.
Lemma good_drop_local i : good P c (drop_local P call i).
Proof. unfold drop_local. good. Qed.
Hint Resolve good_drop_local : good.
Lemma good_drop_all_owned : good P c (drop_all_owned P call).
Proof. unfold drop_all_owned. good. Qed.
Lemma good_write_place p v : good P c (write_place P call p v).
Proof. unfold write_place. good. Qed.
Hint Resolve good_drop_all_owned good_write_place : good.
Lemma good_write_result p v : good P c (write_result P call p v).
Proof. unfold write_result. good. Qed.
Lemma good_is_unit_local p : good P c (is_unit_local p).
Proof. unfold is_unit_local. good. Qed.
Hint Resolve good_write_result good_is_unit_local : good.
Lemma good_statement st : good P c (statement P call st).
Proof. destruct st; cbn [statement]; good. Qed.
Lemma good_cell op args ty : good P c (cell P call op args ty).
Proof. unfold cell. good. Qed.
Lemma good_int_arg args i ty : good P c (int_arg args i ty).
Proof. unfold int_arg. good. Qed.
Lemma good_string_arg args i : good P c (string_arg args i).
Proof. unfold string_arg. good. Qed.
Hint Resolve good_statement good_cell good_int_arg good_string_arg : good.

Lemma good_run_builtin b name args ty : good P c (run_builtin P call b name args ty).
Proof. destruct b; cbn [run_builtin]; good; apply set_output_later || apply set_stderr_later. Qed.
Hint Resolve good_run_builtin : good.
Lemma good_builtin name args p : good P c (builtin P call name args p).
Proof. unfold builtin. good. Qed.
Lemma good_call_arg ty a : good P c (call_arg P ty a).
Proof. unfold call_arg. good. Qed.
Hint Resolve good_builtin good_call_arg : good.
Lemma good_call_terminator name args p : good P c (call_terminator P call name args p).
Proof. unfold call_terminator. good. Qed.
Hint Resolve good_call_terminator : good.
Lemma good_run_terminator t : good P c (run_terminator P call t).
Proof. destruct t; cbn [run_terminator]; good. Qed.

Lemma good_pass_args b i args : good P c (pass_args P b i args).
Proof. revert i. induction args as [|v args IH]; intros i; cbn [pass_args]; good. Qed.

(** A tick counts, and stops at the limit. *)
Lemma tick_ends s : ends P c s (tick P s).1 (tick P s).2.
Proof.
  unfold tick, bind, modify, get. destruct s as [me t cs f fi st o e ex d dr b fr].
  cbn [set_executed executed instructions]. destruct (Z.ltb_spec (instructions P) (ex + 1)); cbn [fst snd fail ret lift].
  - split; [split; simpl; auto using mem_later_refl, stack_later_refl; lia|simpl; lia|done].
  - split; [split; simpl; auto using mem_later_refl, stack_later_refl; lia|simpl; lia|done].
Qed.
Lemma good_tick : good P c (tick P).
Proof. exact tick_ends. Qed.
Hint Resolve good_tick : good.

Lemma tick_ok s s' : tick P s = (Ok tt, s') -> executed s' = executed s + 1 /\ executed s' <= instructions P.
Proof.
  unfold tick, bind, modify, get. destruct s as [me t cs f fi st o e ex d dr b fr].
  cbn [set_executed executed instructions]. destruct (Z.ltb_spec (instructions P) (ex + 1)); intros [= <-]. simpl. lia.
Qed.

Lemma good_run_statements b block i l : good P c (run_statements P call b block i l).
Proof. revert i. induction l as [|st l IH]; intros i; cbn [run_statements]; good. Qed.

Hint Resolve good_run_statements good_run_terminator good_pass_args : good.
Lemma good_run_block b block data : good P c (run_block P call b block data).
Proof. unfold run_block. good. Qed.

Lemma bind_ok {A B} (m : M A) (k : A -> M B) s b s' : bind m k s = (Ok b, s') -> exists a s1, m s = (Ok a, s1) /\ k a s1 = (Ok b, s').
Proof. unfold bind. destruct (m s) as [[a|e] s1]; [eauto|done]. Qed.

(** A block that is left has executed an instruction, within the budget. *)
Lemma run_block_ticks b block data s flow s' : run_block P call b block data s = (Ok flow, s') ->
  executed s + 1 <= executed s' <= instructions P.
Proof.
  intros H. unfold run_block in H.
  apply bind_ok in H as ([] & s1 & E1 & H). apply bind_ok in H as ([] & s2 & E2 & H). apply bind_ok in H as ([] & s3 & E3 & H).
  pose proof (ends_later _ _ _ _ _ (good_run_statements b block 0 (statements data) s)) as L1. rewrite E1 in L1.
  pose proof (ends_later P c _ _ _ (good_set_span P c (terminator_span b block) s1)) as L2. rewrite E2 in L2.
  apply tick_ok in E3 as [T1 T2].
  pose proof (good_located P c _ (good_run_terminator (terminator data)) s3) as [L4 W4 _]. rewrite H in *. cbn [fst snd] in *.
  specialize (W4 T2). simpl in W4. destruct L1 as [_ _ _ _ L1 _ _], L2 as [_ _ _ _ L2 _ _], L4 as [_ _ _ _ L4 _ _]. cbn in *. lia.
Qed.

(** The fuel of the block loop is the budget that is left, and one step. *)
Lemma run_blocks_ends fuel b block s :
  later s (run_blocks P call fuel b block s).2 /\
  (executed s <= instructions P -> within P (run_blocks P call fuel b block s).1 (run_blocks P call fuel b block s).2) /\
  (ready P c s -> (1 <= fuel)%nat -> instructions P < executed s + Z.of_nat fuel ->
     (run_blocks P call fuel b block s).1 <> Err NoFuel).
Proof.
  revert block s. induction fuel as [|fuel IH]; intros block s; cbn [run_blocks]; [split_and!; simpl; lia || done|].
  assert (E : (let! data := expect (body_blocks b !! block) in let! flow := run_block P call b block data in
      match flow with Goto next => run_blocks P call fuel b next | Return value => ret value end) s =
    match body_blocks b !! block with
    | None => (Err Panic, s)
    | Some data =>
        match run_block P call b block data s with
        | (Ok (Goto next), s1) => run_blocks P call fuel b next s1
        | (Ok (Return v), s1) => (Ok v, s1)
        | (Err e, s1) => (Err e, s1)
        end
    end).
  { unfold bind. destruct (body_blocks b !! block) as [data|]; [|done]. cbn [expect ret].
    by destruct (run_block P call b block data s) as [[[]|] ?]. }
  rewrite E. clear E. destruct (body_blocks b !! block) as [data|]; [|split_and!; simpl; lia || done].
  destruct (good_run_block b block data s) as [L1 W1 T1]. pose proof (run_block_ticks b block data s) as K.
  destruct (run_block P call b block data s) as [[flow|e] s1]; cbn [fst snd] in *; cycle 1.
  { split_and!; [done|exact W1|]. intros R _ _. specialize (T1 R). congruence. }
  specialize (K _ _ eq_refl). destruct flow as [next|v]; [|split_and!; [done|simpl; lia|done]].
  destruct (IH next s1) as (L2 & W2 & T2). split_and!; [by etrans|intros _; apply W2; lia|].
  intros R _ HF. apply T2; [by eapply ready_later|lia..].
Qed.

Lemma good_run_frame args : good P c (run_frame P call args).
Proof.
  unfold run_frame. apply good_bind; [apply good_frame|]. intros fr. apply good_bind; [apply good_pass_args|]. intros _ s.
  destruct (run_blocks_ends (block_fuel P) (fr_body fr) 0 s) as (H1 & H2 & H3). split; [done..|].
  intros R. pose proof R as [R1 _]. apply H3; [done|unfold block_fuel; lia..].
Qed.
End Frames.

(** ** Calls *)

Section Calls.
Context {L : Layouts} (P : Program) (c : nat) (call : string -> list (list Z) -> M (list Z)).
Hypothesis good_call : forall name args, good P c (call name args).

Lemma free_all_ends l s :
  later s (for_each m_free l s).2 /\ executed (for_each m_free l s).2 = executed s /\ (for_each m_free l s).1 <> Err NoFuel.
Proof.
  revert s. induction l as [|a l IH]; intros s; [done|]. cbn [for_each]. unfold bind, m_free at 1 3 5, update_memory.
  pose proof (free_total (memory s) a). destruct (free (memory s) a) as [m|e] eqn:E; cbn [fst snd]; cycle 1.
  { split_and!; [done..|]. congruence. }
  destruct (IH (set_memory m s)) as (H1 & H2 & H3). split_and!; [|by rewrite H2; destruct s|done].
  etrans; [|exact H1]. apply set_memory_later. by eapply free_mem_later.
Qed.

(** A call pushes a frame, runs it one level deeper, and takes it off again. *)
Lemma enter_leave args f s : depth s < call_depth P ->
  let s0 := set_frames (f :: frames s) s in
  let s1 := set_depth (depth s0 + 1) s0 in
  ends P (S c) s (leave (run_frame P call args) s1).1 (leave (run_frame P call args) s1).2.
Proof.
  intros D s0 s1. unfold leave. destruct (good_run_frame P c call good_call args s1) as [L1 W1 T1].
  destruct (run_frame P call args s1) as [r s2]. cbn [fst snd] in *.
  assert (E1 : executed s1 = executed s) by (by destruct s).
  assert (F2 : exists f', frames s2 = f' :: frames s).
  { destruct L1 as [_ _ _ _ _ _ L1]. assert (F1 : frames s1 = f :: frames s) by (by destruct s). rewrite F1 in L1.
    destruct (frames s2) as [|f' rest]; [done|]. destruct L1 as [_ ->]. by exists f'. }
  destruct F2 as [f' F2].
  assert (HF : frames (set_depth (depth s2 - 1) s2) = f' :: frames s) by (by destruct s2). rewrite HF.
  set (s3 := set_frames (frames s) (set_depth (depth s2 - 1) s2)).
  assert (L3 : later s s3).
  { destruct L1 as [La Lb Lc Ld Le Lf _]. unfold s3, s1, s0 in *. clear - La Lb Lc Ld Le Lf.
    destruct s as [? ? ? ? ? ? ? ? ? ? ? ? fs], s2 as [? ? ? ? ? ? ? ? ? ? ? ? ?]. cbn in *.
    split; cbn; try done; [lia|apply stack_later_refl]. }
  assert (E3 : executed s3 = executed s2) by (by destruct s2).
  assert (W : executed s <= instructions P -> within P r s3).
  { intros H. rewrite <- E1 in H. specialize (W1 H). unfold within in *. by rewrite E3. }
  assert (T : ready P (S c) s -> r <> Err NoFuel).
  { intros [R1 R2]. apply T1. split; [lia|]. assert (D1 : depth s1 = depth s + 1) by (by destruct s). lia. }
  destruct (free_all_ends (fr_locals f' ++ fr_scratch f') s3) as (F1 & F2' & F3).
  assert (G : forall r' : outcome (list Z), r = r' -> ends P (S c) s (bind (for_each m_free (fr_locals f' ++ fr_scratch f')) (fun _ => lift r') s3).1
    (bind (for_each m_free (fr_locals f' ++ fr_scratch f')) (fun _ => lift r') s3).2).
  { intros r' <-. unfold bind. destruct (for_each m_free _ s3) as [[[]|e] s4]; cbn [fst snd lift] in *.
    - split; [by etrans|intros H; specialize (W H); unfold within in *; by rewrite F2'|exact T].
    - split; [by etrans| |intros _; congruence]. intros H; specialize (W H). unfold within in *. destruct r; lia. }
  destruct r as [v|[e| | |]]; try (apply G; done); split; done.
Qed.

(** From a given machine on. *)
Definition good_from (s0 : Machine) {A} (m : M A) : Prop := forall s, later s0 s -> ends P (S c) s (m s).1 (m s).2.

Lemma good_from_bind {A B} s0 (m : M A) (k : A -> M B) :
  good P (S c) m -> (forall a, good_from s0 (k a)) -> good_from s0 (bind m k).
Proof.
  intros Hm Hk s Hs. specialize (Hm s). eapply ends_bind; [exact Hm|]. unfold bind. destruct Hm as [Hl _ _].
  destruct (m s) as [[a|e] s1]; [|done]. apply Hk. by etrans.
Qed.

Lemma good_call_body name args : good P (S c) (call_body P call name args).
Proof.
  unfold call_body. apply good_bind; [auto with good|]. intros b s0.
  match goal with |- ends _ _ _ (bind get ?k s0).1 _ => change (bind get k s0) with (k s0 s0) end. cbv beta.
  destruct (Z.leb_spec (call_depth P) (depth s0)) as [|D]; [apply good_fail|].
  match goal with |- ends _ _ _ (?m s0).1 _ => enough (H : good_from s0 m) by (by apply H) end.
  apply good_from_bind; [good; apply set_borrowed_later|]. intros bs. apply good_from_bind; [good|].
  intros locals s Hs. apply (enter_leave args (mkFrame b locals (replicate (length (body_locals b)) false) bs [] (body_span b)) s).
  destruct Hs. lia.
Qed.
End Calls.

Lemma good_call_in {L : Layouts} P c name args : good P c (call_in P c name args).
Proof.
  revert name args. induction c as [|c IH]; intros name args; cbn [call_in]; [|by apply good_call_body].
  intros s. split; [done|simpl; lia|]. intros [_ R]. lia.
Qed.

Section Run.
Context {L : Layouts} (P : Program) (c : nat).
Lemma good_variant_named name args tag names : good P c (variant_named name args tag names).
Proof. induction names as [|v names IH]; cbn [variant_named]; good. Qed.
Hint Resolve good_variant_named : good.
Lemma good_decode_in n ty bs : good P c (decode_in P n ty bs).
Proof. revert ty bs. induction n as [|n IH]; intros ty bs; cbn [decode_in]; good. Qed.
Lemma good_encode ty v : good P c (encode P ty v).
Proof. unfold encode. good. Qed.
End Run.
#[export] Hint Resolve good_call_in good_decode_in good_encode : good.

Lemma good_run {L : Layouts} P entry args : good P (Z.to_nat (call_depth P) + 1) (run P entry args).
Proof. unfold run, call, decode. good. Qed.

(** ** The theorems *)

(** C15: Compile-time evaluation ends: the loops of the machine never run out of the
    steps that the instruction budget and the call-depth limit allow, whatever the
    program. *)
Theorem evaluate_total {L : Layouts} P entry args : 0 <= call_depth P -> evaluate P entry args <> Err NoFuel.
Proof.
  intros H. unfold evaluate. destruct (good_run P entry args Machine_new) as [_ _ T].
  destruct (run P entry args Machine_new) as [[v|e] s]; [done|]. cbn [fst] in T. intros [= ->]. apply T; [|done].
  split; cbn; lia.
Qed.

(** An evaluation executes at most the budget, and one instruction more when it
    fails; it leaves no frame behind. *)
Theorem evaluate_within {L : Layouts} P entry args r s : 0 <= instructions P ->
  run P entry args Machine_new = (r, s) ->
  executed s <= instructions P + 1 /\ (forall v, r = Ok v -> executed s <= instructions P) /\ depth s = 0 /\ frames s = [].
Proof.
  intros H E. destruct (good_run P entry args Machine_new) as [La W _]. rewrite E in La, W. cbn [fst snd] in *.
  destruct La as [_ _ _ _ _ D F]. specialize (W H). unfold within in W. split_and!.
  - destruct r; lia.
  - by intros v ->.
  - done.
  - by destruct (frames s).
Qed.

(** C16: A call, whether it returns or fails, leaves the stack as it was but for what
    the running frame may change of itself (its flags, scratch and span), keeps the
    meaning of every type, code and function handle, and never revives, resizes or
    moves an allocation. *)
Theorem call_keeps {L : Layouts} P name args s : later s (call P name args s).2.
Proof. apply (good_call_in P (Z.to_nat (call_depth P) + 1)). Qed.

(** ** The sandbox *)

(** Computations that only look: they leave the machine as it is and report
    nothing, though they may panic. *)
Definition looks {A} (m : M A) : Prop := forall s, (m s).2 = s /\ forall e, (m s).1 <> Err (Fail e).

Lemma looks_ret {A} (a : A) : looks (ret a).
Proof. by intros s. Qed.
Lemma looks_expect {A} (o : option A) : looks (expect o).
Proof. by destruct o. Qed.
Lemma looks_bind {A B} (m : M A) (k : A -> M B) : looks m -> (forall a, looks (k a)) -> looks (bind m k).
Proof.
  intros H K s. unfold bind. destruct (H s) as [H1 H2]. destruct (m s) as [[a|x] s1]; simpl in *; subst; [apply K|].
  split; [done|]. intros e [= ->]. by apply (H2 e).
Qed.
Lemma looks_frame : looks frame.
Proof. apply looks_bind; [by intros s|]. intros s. apply looks_expect. Qed.
Lemma looks_field_of {L : Layouts} base field : looks (field_of base field).
Proof. induction base; cbn [field_of]; try apply looks_expect; try done. apply looks_bind; intros; apply looks_expect. Qed.

Lemma looks_place_ty {L : Layouts} p : looks (place_ty p).
Proof.
  induction p; cbn [place_ty]; try done; apply looks_bind; try done; intros.
  - apply looks_bind; [apply looks_frame|]. intros fr. apply looks_expect.
  - apply looks_bind; [apply looks_field_of|done].
  - apply looks_bind; [|done]. unfold variant_field. destruct (strip_borrow a); try done; apply looks_expect.
  - unfold slice_elem. by destruct (strip_borrow a).
Qed.

(** The operations that compile-time code must not perform. *)
Definition forbidden (P : Program) (name : string) : option string :=
  match builtin_of name with
  | Some (BiForbidden operation) => Some operation
  | Some _ => None
  | None => if bool_decide (name ∈ externs P) then Some "calling an `extern` (FFI) function"%string else None
  end.

(** Compile-time code cannot reach outside: a call of a function that would do
    I/O, read the clock, spawn a task, use a channel or run foreign code is refused
    by name, before its arguments are evaluated, and the machine is as it was.  (The
    machine panics when the destination of the call is not a place of the frame.) *)
Theorem sandboxed {L : Layouts} P call name operation args destination s :
  forbidden P name = Some operation ->
  (call_terminator P call name args destination s).2 = s /\
  ((call_terminator P call name args destination s).1 = Err (Fail (not_allowed operation)) \/
   exists p stop, destination = Some p /\ (place_ty p s).1 = Err stop /\ forall e, stop <> Fail e).
Proof.
  intros F. unfold call_terminator, builtin. unfold forbidden in F.
  destruct destination as [p|].
  - destruct (looks_place_ty p s) as [H1 H2]. unfold bind, ret, lift. destruct (place_ty p s) as [[ty|stop] s1] eqn:E; simpl in H1; subst s1.
    + destruct (builtin_of name) as [b|].
      * destruct b; try discriminate F. injection F as ->. simpl. auto.
      * case_bool_decide; [|discriminate F]. injection F as <-. simpl. auto.
    + split; [done|]. right. exists p, stop. split_and!; [done|by rewrite E|]. intros e ->. by apply (H2 e).
  - unfold bind, ret, lift. destruct (builtin_of name) as [b|].
    + destruct b; try discriminate F. injection F as ->. simpl. auto.
    + case_bool_decide; [|discriminate F]. injection F as <-. simpl. auto.
Qed.

(** ** A sample program *)

Definition no_layouts : Layouts := {|
  lay_has_struct := fun _ => false; lay_struct_size := fun _ _ => None; lay_struct_field := fun _ _ _ => None;
  lay_struct_fields := fun _ _ => None; lay_enum_size := fun _ _ => None; lay_enum_variants := fun _ _ => None;
  lay_enum_variant_names := fun _ => None; lay_enum_variant_index := fun _ _ _ => None;
  lay_enum_variant_field := fun _ _ _ _ => None; lay_tuple_size := fun _ => None; lay_tuple_field := fun _ _ => None;
  lay_live_offset := fun _ => Some None |}.

(** [fn fact(n: i64) -> i64 { if n <= 1 { 1 } else { n * fact(n - 1) } }] *)
Definition fact_body : Body :=
  mkBody [mkLocalDecl (Some "n"%string) (TyInt I64) false; mkLocalDecl None (TyInt I64) true; mkLocalDecl None TyBool true]
    [mkBasicBlock [SAssign (PlLocal 2) (RBinaryOp BLe (Copy (PlLocal 0)) (OConst (CInt 1 I64)))]
       (TmSwitchInt (Copy (PlLocal 2)) [(0, 1%nat)] 2);
     mkBasicBlock [SAssign (PlLocal 1) (RBinaryOp BSub (Copy (PlLocal 0)) (OConst (CInt 1 I64)))]
       (TmCall "fact" [Copy (PlLocal 1)] (Some (PlLocal 1)) 3);
     mkBasicBlock [] (TmReturn (OConst (CInt 1 I64)));
     mkBasicBlock [SAssign (PlLocal 1) (RBinaryOp BMul (Copy (PlLocal 0)) (Copy (PlLocal 1)))] (TmReturn (Copy (PlLocal 1)))]
    Debug 1 (TyInt I64) no_span [].

Definition fact_program (instructions call_depth : Z) : Program :=
  mkProgram (fun name => if String.eqb name "fact" then Some fact_body else None) ["getenv"%string] ∅ [] instructions call_depth 5
    (fun _ x _ => x) (fun _ _ => EmptyString) arena_default ∅ (fun _ => EmptyString) (fun s => s) (fun _ => false).

Definition fact_of (P : Program) (n : Z) : outcome Evaluation :=
  evaluate (L := no_layouts) P "fact" [(TyInt I64, VScalar (CInt n I64))].

Definition failed (m : string) (r : outcome Evaluation) : bool :=
  match r with Err (Fail e) => String.eqb (message e) m | _ => false end.

Example fact_10 : fact_of (fact_program 200000 40) 10 = Ok (mkEvaluation (VScalar (CInt 3628800 I64)) "" "").
Proof. vm_compute. reflexivity. Qed.
Example fact_overflows : failed "attempt to multiply with overflow" (fact_of (fact_program 200000 40) 30) = true.
Proof. vm_compute. reflexivity. Qed.
Example fact_too_deep :
  failed "exceeded the comptime call-depth limit (5 nested calls) — this usually means unbounded recursion"
    (fact_of (fact_program 200000 5) 10) = true.
Proof. vm_compute. reflexivity. Qed.
Example fact_out_of_budget :
  failed "exceeded the comptime instruction budget (12 instructions)" (fact_of (fact_program 12 40) 10) = true.
Proof. vm_compute. reflexivity. Qed.

Lemma evaluate_total_witness :
  evaluate (L := no_layouts) (fact_program 12 40) "fact" [(TyInt I64, VScalar (CInt 10 I64))] <> Err NoFuel.
Proof. apply (evaluate_total (L := no_layouts)). vm_compute. discriminate. Defined.

Lemma evaluate_within_witness :
  exists r s, run (L := no_layouts) (fact_program 12 40) "fact" [(TyInt I64, VScalar (CInt 10 I64))] Machine_new = (r, s) /\
    executed s = 13 /\ executed s <= 13 /\ depth s = 0 /\ frames s = [].
Proof.
  destruct (run (L := no_layouts) (fact_program 12 40) "fact" [(TyInt I64, VScalar (CInt 10 I64))] Machine_new) as [r s] eqn:E.
  exists r, s. destruct (evaluate_within (L := no_layouts) (fact_program 12 40) _ _ r s ltac:(vm_compute; discriminate) E) as (H1 & _ & H2 & H3).
  assert (executed s = 13).
  { change s with (r, s).2. rewrite <- E. vm_compute. reflexivity. }
  split_and!; done.
Defined.

Lemma sandboxed_witness :
  (call_terminator (L := no_layouts) (fact_program 12 40) (fun _ _ => panic) "getenv" [] None Machine_new).1 =
    Err (Fail (not_allowed "calling an `extern` (FFI) function")).
Proof.
  destruct (sandboxed (L := no_layouts) (fact_program 12 40) (fun _ _ => panic) "getenv"
    "calling an `extern` (FFI) function" [] None Machine_new eq_refl) as [_ [H|(p & stop & H & _)]]; [exact H|discriminate H].
Defined.
