(* ===== verification/EvaluateArgs.v ===== *)
(** Arguments and results of compile-time evaluation.

    [encode] lays an argument out in the machine and [decode] reads the result
    of a call; a call copies the bytes of an argument to the frame of the callee
    and those of the result out of it.  The theorem runs the whole machine on a
    function that returns its parameter. *)
From S2P Require Import Prelude Span Ast Types Dims Generics Names Layout TypeLayout Bytes Text Floats FloatRound Sort Mir Glue Memory Values Quote Machine Evaluate EvaluateThms.
From Stdlib Require Import Floats.SpecFloat.
Open Scope Z_scope.
Open Scope machine_scope.

(** ** Values in and out *)

Lemma string_of_bytes_of s : string_of_bytes (bytes_of s) = s.
Proof.
  induction s as [|a s IH]; [done|]. cbn [bytes_of string_of_bytes]. rewrite IH. f_equal. unfold ascii_of_Z.
  by rewrite N2Z.id, Ascii.ascii_N_embedding.
Qed.

Lemma length_bytes_of s : length (bytes_of s) = String.length s.
Proof. induction s as [|a s IH]; [done|]. simpl. by rewrite IH. Qed.

Lemma lossy_valid l : from_utf8 l = true -> lossy l = l.
Proof.
  remember (length l) as n eqn:Hn. revert l Hn. induction (lt_wf n) as [n _ IH]. intros [|a s1] Hn H; [done|].
  cbn [from_utf8] in H. cbn [lossy].
  assert (IH' : forall l, (length l < n)%nat -> from_utf8 l = true -> lossy l = l) by (intros l Hl; by apply (IH (length l))).
  clear IH. simpl in Hn. destruct (a <? 128) eqn:A; [f_equal; apply IH'; [lia|done]|].
  destruct s1 as [|b s2]; [done|]. simpl in Hn. destruct ((194 <=? a) && (a <=? 223)) eqn:A2.
  { apply andb_true_iff in H as [-> H]. do 2 f_equal. apply IH'; [lia|done]. }
  destruct s2 as [|x s3]; [done|]. simpl in Hn. destruct ((224 <=? a) && (a <=? 239)) eqn:A3.
  { apply andb_true_iff in H as [[H1 H2]%andb_true_iff H]. assert ((224 <=? a) && (a <=? 244) = true) as -> by lia.
    assert (second_ok a b = true) as ->.
    { unfold second_ok. destruct (a =? 224) eqn:?; [done|]. destruct (a =? 237) eqn:?; [done|].
      destruct (a =? 240) eqn:?; [lia|]. destruct (a =? 244) eqn:?; [lia|done]. }
    rewrite H2. assert (a <=? 239 = true) as -> by lia. do 3 f_equal. apply IH'; [lia|done]. }
  destruct s3 as [|d s4]; [done|]. simpl in Hn. repeat (apply andb_true_iff in H as [H ?]).
  assert ((224 <=? a) && (a <=? 244) = true) as -> by lia.
  assert (second_ok a b = true) as ->.
  { unfold second_ok. destruct (a =? 224) eqn:?; [lia|]. destruct (a =? 237) eqn:?; [lia|].
    destruct (a =? 240) eqn:?; [done|]. by destruct (a =? 244) eqn:?. }
  assert (a <=? 239 = false) as -> by lia. repeat match goal with E : cont _ = true |- _ => rewrite E; clear E end.
  do 4 f_equal. apply IH'; [lia|done].
Qed.

(** The values that can be passed: integers in the range of their width (held as
    [i64]), floats of their width that are not a NaN (held as the bits of the
    [f64]), booleans, chars, text, unit, types and code. *)
Inductive passes : Type_ -> ComptimeValue -> Prop :=
| pass_int w z : IntWidth.in_range w z -> passes (TyInt w) (VScalar (CInt (as_i64 z) w))
| pass_float w pattern bits : 0 <= pattern < 2 ^ (8 * FloatWidth.bytes w) -> 0 <= bits < 2 ^ 64 ->
    FloatBits.decode w pattern = Some (from_bits prec emax bits) -> is_nan (from_bits prec emax bits) = false ->
    passes (TyFloat w) (VScalar (CFloat bits w))
| pass_bool b : passes TyBool (VScalar (CBool b))
| pass_char c : is_char c = true -> passes TyChar (VScalar (CChar c))
| pass_str text : from_utf8 (bytes_of text) = true -> Z.of_nat (String.length text) <= u64_max ->
    passes TyString (VScalar (CStr text))
| pass_unit : passes TyUnit (VScalar CUnit)
| pass_type t t' : passes (TyTypeValue t) (VType t')
| pass_code q : passes TyCode (VCode q).

Lemma u64_bytes_value z : 0 <= z < 2 ^ 64 -> le_value (u64_bytes z) = z.
Proof. intros H. unfold u64_bytes. rewrite le_value_bytes. apply Z.mod_small. exact H. Qed.

Lemma u64_at_first z l s : 0 <= z < 2 ^ 64 -> u64_at 0 (u64_bytes z ++ l) s = (Ok z, s).
Proof.
  intros H. unfold u64_at. rewrite length_app. unfold u64_bytes at 1. rewrite le_bytes_length.
  assert ((0 + 8 <=? 8 + length l)%nat = true) as -> by (apply Nat.leb_le; lia).
  unfold sub_bytes. rewrite drop_0, take_app_length' by (by unfold u64_bytes; rewrite le_bytes_length). by rewrite u64_bytes_value.
Qed.

Lemma u64_at_second y z s : 0 <= z < 2 ^ 64 -> u64_at 8 (u64_bytes y ++ u64_bytes z) s = (Ok z, s).
Proof.
  intros H. unfold u64_at. rewrite length_app. unfold u64_bytes at 1 2. rewrite !le_bytes_length. cbn [Nat.leb Nat.add].
  unfold sub_bytes. rewrite drop_app_length' by (by unfold u64_bytes; rewrite le_bytes_length). rewrite take_ge by (by unfold u64_bytes; rewrite le_bytes_length).
  by rewrite u64_bytes_value.
Qed.

Lemma locate_first a l n : freed a = false -> length (bytes a) = Z.to_nat n -> 0 <= n <= u64_max ->
  locate (mkMemory (a :: l)) (2 ^ 32) n = Ok (0%nat, 0).
Proof.
  intros F E H. unfold locate. change (Z.shiftr (2 ^ 32) 32) with 1. change (Z.land (2 ^ 32) 0xFFFFFFFF) with 0.
  change (1 =? 0) with false. change (allocations (mkMemory (a :: l)) !! Z.to_nat (1 - 1)) with (Some a). cbv iota beta. rewrite F.
  unfold check_u64, in_u64.
  destruct (Z.leb_spec 0 (0 + n)); [|lia]. destruct (Z.leb_spec (0 + n) u64_max); [|lia]. cbn [andb].
  rewrite E, Z2Nat.id by lia. destruct (Z.ltb_spec n (0 + n)); [lia|done].
Qed.

(** A machine before its first call: what the arguments have put in it. *)
Definition loaded (l : list Allocation) (tys : list Type_) (cds : list QuoteBody) (sts : gmap string Z) : Machine :=
  mkMachine (mkMemory l) tys cds [] ∅ sts EmptyString EmptyString 0 0 [] ∅ [].

(** The text of a fresh machine is its first allocation. *)
Lemma static_text text (n := Z.of_nat (String.length text)) : n <= u64_max ->
  exists a sts, constant (CStr text) Machine_new = (Ok (u64_bytes (2 ^ 32) ++ u64_bytes n), loaded [a] [] [] sts) /\
    forall rest, read (mkMemory (a :: rest)) (2 ^ 32) n = Ok (bytes_of text).
Proof.
  intros H. assert (Hn : Z.of_nat (length (bytes_of text)) = n) by (by rewrite length_bytes_of).
  set (a := mkAllocation (zeros (Z.to_nat n)) false true).
  assert (HW : write (mkMemory [a]) (2 ^ 32) (bytes_of text) =
    Ok (mkMemory [mkAllocation (put_bytes (zeros (Z.to_nat n)) 0 (bytes_of text)) false true])).
  { unfold write. destruct (bytes_of text) as [|x v] eqn:E.
    - assert (n = 0) as -> by (rewrite <- Hn; done). done.
    - rewrite Hn, locate_first by (done || apply length_replicate || lia). done. }
  eexists _, _. split.
  - unfold constant. cbn [bind get statics Machine_new]. unfold bind, get, ret, lift, m_alloc, m_write, update_memory, modify.
    cbn [statics Machine_new memory allocations Memory_default alloc app set_memory]. rewrite lookup_empty. fold n.
    cbn [memory]. unfold Machine_new, set_memory. cbn [memory]. fold a.
    change (allocations Memory_default ++ [a]) with [a].
    change (wrap 64 (Z.shiftl (Z.of_nat (length [a])) 32)) with (2 ^ 32). rewrite HW. reflexivity.
  - intros rest. unfold read. destruct (Z.eqb_spec n 0) as [E|E].
    + destruct (bytes_of text); [done|simpl in Hn; lia].
    + rewrite locate_first; [|done| |lia].
      * cbn. rewrite <- Hn, Nat2Z.id. f_equal. apply sub_put_same. unfold zeros. rewrite length_replicate. lia.
      * cbn [bytes]. rewrite put_bytes_length; [apply length_replicate|]. unfold zeros. rewrite length_replicate. lia.
Qed.

Lemma as_i64_mod z n : 0 <= n <= 64 -> as_i64 z mod 2 ^ n = z mod 2 ^ n.
Proof.
  intros H. unfold as_i64. rewrite <- (mod_mod_pow z n 64) by done. destruct (_ <? _); [done|].
  replace (2 ^ 64) with (2 ^ (64 - n) * 2 ^ n) at 2 by (rewrite <- Z.pow_add_r by lia; f_equal; lia).
  rewrite <- Z.add_opp_r, <- Z.mul_opp_l. apply Z_mod_plus_full.
Qed.


(** ** The bytes of a float *)

Lemma format_code_small w fmt : format w = Some fmt -> small_code w = small_float_code w /\ is_Some (small_float_code w).
Proof. destruct w; intros [= <-]; eauto. Qed.

Lemma float_constant w pattern bits s : 0 <= pattern < 2 ^ (8 * FloatWidth.bytes w) ->
  FloatBits.decode w pattern = Some (from_bits prec emax bits) -> is_nan (from_bits prec emax bits) = false ->
  constant (CFloat bits w) s = (Ok (le_bytes (Z.to_nat (FloatWidth.bytes w)) pattern), s) /\
  float_value (le_bytes (Z.to_nat (FloatWidth.bytes w)) pattern) w = Ok (from_bits prec emax bits).
Proof.
  intros Hp Hd Hn. pose proof (encode_decode w pattern _ Hp Hd Hn) as He. remember (from_bits prec emax bits) as v eqn:Ev.
  assert (Hv : le_value (le_bytes (Z.to_nat (FloatWidth.bytes w)) pattern) = pattern).
  { rewrite le_value_bytes. apply Z.mod_small. by destruct w. }
  destruct (format w) as [fmt|] eqn:Hw.
  - destruct (format_code_small w fmt Hw) as (Hc & code & Hs).
    destruct (runtime_floats_agree w fmt code (S754_zero false) pattern Hw Hs eq_refl) as [_ Hr].
    assert (decode_small pattern fmt = v) as Hds by (rewrite (decode_pattern w fmt) in Hd by done; congruence).
    assert (float_value (le_bytes (Z.to_nat (FloatWidth.bytes w)) pattern) w = Ok v) as HV.
    { unfold float_value, raw_value. rewrite le_bytes_length, Hv. destruct w; try discriminate Hw; (change (_ <=? 4)%nat with true);
        rewrite Hc, Hs; unfold mbind, option_bind; cbv iota beta; rewrite Hr, Hds; done. }
    split; [|exact HV]. unfold constant. rewrite <- Ev. destruct w; try discriminate Hw; rewrite He; cbn [expect bind ret];
      unfold bind, ret, u64_bytes; rewrite take_le_bytes by (cbn; lia); done.
  - destruct w; try discriminate Hw; unfold FloatBits.encode in He; unfold FloatBits.decode in Hd.
    + apply (inj Some) in He. apply (inj Some) in Hd.
      unfold float_value. rewrite le_bytes_length, Hv, Hd. split; [|reflexivity].
      unfold constant, ret.
      rewrite <- Ev, He. reflexivity.
    + apply (inj Some) in He, Hd. unfold wrap in Hd. rewrite Z.mod_small in Hd by exact Hp.
      unfold float_value. rewrite le_bytes_length, Hv, Hd. split; [|reflexivity].
      unfold constant, ret. rewrite <- Ev, He. reflexivity.
Qed.

(** ** What an argument leaves in the machine *)

Definition decodes {L : Layouts} (P : Program) (ty : Type_) (bs : list Z) (v : ComptimeValue) (m : Machine) : Prop :=
  forall s rest, memory s = mkMemory (allocations (memory m) ++ rest) -> types s = types m -> codes s = codes m ->
    decode P ty bs s = (Ok v, s).

Lemma encode_new {L : Layouts} P ty v : (1 <= host P)%nat -> passes ty v ->
  exists bs l tys cds sts, encode P ty v Machine_new = (Ok bs, loaded l tys cds sts) /\ (length l <= 1)%nat /\
    size_of_opt ty = Some (Z.of_nat (length bs)) /\ decodes P ty bs v (loaded l tys cds sts).
Proof.
  intros HP Hv. unfold decodes, decode. destruct (host P) as [|n]; [lia|]. destruct Hv; cbn [encode decode_in].
  - exists (int_bytes (as_i64 z) (IntWidth.bytes w)), [], [], [], ∅. split_and!; [done|simpl; lia| |].
    + rewrite int_bytes_eq, le_bytes_length. cbn. f_equal. by destruct w.
    + intros s rest _ _ _. unfold bind, lift. rewrite int_value_bytes. unfold ret. do 5 f_equal.
      rewrite (canon_mod w (as_i64 z) z), canon_id by (done || apply as_i64_mod; pose proof (width_bits w); lia). done.
  - destruct (float_constant w pattern bits Machine_new) as [E1 E2]; [done..|].
    exists (le_bytes (Z.to_nat (FloatWidth.bytes w)) pattern), [], [], [], ∅. split_and!; [exact E1|simpl; lia| |].
    + rewrite le_bytes_length. cbn. f_equal. by destruct w.
    + intros s rest _ _ _. unfold bind, lift. rewrite E2. unfold ret. do 4 f_equal. by apply (to_from_bits prec emax 11).
  - exists [if b then 1 else 0], [], [], [], ∅. split_and!; [done|simpl; lia|done|]. by destruct b.
  - exists (le_bytes 4 c), [], [], [], ∅. split_and!; [done|simpl; lia|done|]. intros s rest _ _ _. unfold bind, lift.
    change (le_bytes 4 c) with (le_bytes (Z.to_nat (IntWidth.bytes U32)) c). rewrite <- int_bytes_eq, int_value_bytes.
    rewrite canon_id. { cbn [fst]. unfold char_from_u32. by rewrite H. }
    apply is_char_range in H. unfold IntWidth.in_range. cbn. lia.
  - destruct (static_text text) as (a & sts & E & R); [done|]. eexists _, [a], [], [], sts. split_and!; [exact E|simpl; lia|done|].
    intros s rest Hm _ _. unfold bind at 1. unfold descriptor_bytes, bind. rewrite u64_at_first by done.
    rewrite u64_at_second by (unfold u64_max in *; lia). unfold m_read. rewrite Hm. cbn [allocations memory loaded app]. rewrite R. cbn.
    unfold from_utf8_lossy. by rewrite lossy_valid, string_of_bytes_of.
  - exists [], [], [], [], ∅. split_and!; [done|simpl; lia|done|done].
  - exists (u64_bytes 0), [], [t'], [], ∅. split_and!; [done|simpl; lia|done|]. intros s rest _ Ht _. unfold bind, u64_at. cbn.
    unfold type_of_handle, bind, get. by rewrite Ht.
  - exists (u64_bytes 0), [], [], [q], ∅. split_and!; [done|simpl; lia|done|]. intros s rest _ _ Hq. unfold bind, u64_at. cbn.
    unfold code, bind, get. by rewrite Hq.
Qed.

(** ** A call that returns its argument *)

(** [fn f(x: T) -> T { x }]: the value is moved out of the parameter, or copied
    when [T] owns nothing. *)
Definition identity (name : option string) (is_mut : bool) (ty : Type_) (o : Operand) (p : Profile) (sp : Span) (spans : list BlockSpans) : Body :=
  mkBody [mkLocalDecl name ty is_mut] [mkBasicBlock [] (TmReturn o)] p 1 ty sp spans.

Inductive reads_parameter (ty : Type_) : Operand -> Prop :=
| by_move : reads_parameter ty (Move (PlLocal 0))
| by_copy : ty <> TyString -> reads_parameter ty (Copy (PlLocal 0)).

Definition owns_text (ty : Type_) : bool := match ty with TyString => true | _ => false end.

Lemma passes_size {L : Layouts} ty v n : passes ty v -> size_of_opt ty = Some n -> n <= u64_max.
Proof. destruct 1; intros [= <-]; try done; by destruct w. Qed.

Lemma passes_shape {L : Layouts} ty v : passes ty v -> machine_shape ty = Some (owns_text ty) /\ is_borrow ty = false.
Proof. by destruct 1. Qed.

(** The storage of the parameter: the last allocation of a small memory *)
Section Storage.
Context (l : list Allocation) (Hl : (length l <= 1)%nat).

Definition storage : Z := wrap 64 (Z.shiftl (Z.of_nat (length l + 1)) 32).

Lemma locate_last x len : freed x = false -> 0 <= len <= Z.of_nat (length (bytes x)) -> len <= u64_max ->
  locate (mkMemory (l ++ [x])) storage len = Ok (length l, 0).
Proof using Hl.
  intros F Hlen Hmax. assert (check_u64 (0 + len) = Some len) as Hc.
  { unfold check_u64, in_u64. rewrite Z.add_0_l. destruct (Z.leb_spec 0 len); [|lia]. by destruct (Z.leb_spec len u64_max); [|lia]. }
  assert (Z.shiftr storage 32 = Z.of_nat (length l + 1) /\ Z.land storage 0xFFFFFFFF = 0) as [E1 E2].
  { unfold storage. destruct l as [|y [|]]; [done|done|simpl in Hl; lia]. }
  unfold locate. rewrite E1, E2. destruct (Z.eqb_spec (Z.of_nat (length l + 1)) 0); [lia|].
  replace (Z.to_nat (Z.of_nat (length l + 1) - 1)) with (length l) by lia. cbn [allocations]. rewrite list_lookup_middle by done.
  rewrite F, Hc. by destruct (Z.ltb_spec (Z.of_nat (length (bytes x))) len); [lia|].
Qed.

Lemma allocation_last x : allocation (mkMemory (l ++ [x])) (length l) = x.
Proof. unfold allocation. cbn. by rewrite list_lookup_middle. Qed.

Lemma set_allocation_last x y : set_allocation (mkMemory (l ++ [x])) (length l) y = mkMemory (l ++ [y]).
Proof. unfold set_allocation. cbn. f_equal. rewrite <- (Nat.add_0_r (length l)). by rewrite insert_app_r. Qed.

Lemma write_last bs : Z.of_nat (length bs) <= u64_max ->
  write (mkMemory (l ++ [mkAllocation (zeros (length bs)) false false])) storage bs = Ok (mkMemory (l ++ [mkAllocation bs false false])).
Proof using Hl.
  intros H. unfold write. destruct bs as [|x v] eqn:E; [done|]. rewrite <- E in *.
  rewrite locate_last by (cbn; unfold zeros; rewrite ?length_replicate; lia || done).
  rewrite allocation_last, set_allocation_last. cbn [bytes freed fixed]. do 5 f_equal.
  pose proof (sub_put_same (zeros (length bs)) 0 bs) as S. unfold sub_bytes in S. rewrite drop_0, take_ge in S; [apply S; unfold zeros; rewrite length_replicate; lia|].
  rewrite put_bytes_length; unfold zeros; rewrite length_replicate; lia.
Qed.

Lemma read_last bs : Z.of_nat (length bs) <= u64_max ->
  read (mkMemory (l ++ [mkAllocation bs false false])) storage (Z.of_nat (length bs)) = Ok bs.
Proof using Hl.
  intros H. unfold read. destruct (Z.eqb_spec (Z.of_nat (length bs)) 0) as [E|]; [by destruct bs|].
  rewrite locate_last by (cbn; lia || done). rewrite allocation_last. cbn [bytes]. unfold sub_bytes.
  by rewrite drop_0, Nat2Z.id, take_ge by lia.
Qed.

Lemma free_last bs : free (mkMemory (l ++ [mkAllocation bs false false])) storage = Ok (mkMemory (l ++ [mkAllocation [] true false])).
Proof using Hl.
  unfold free. assert (storage =? 0 = false) as -> by (unfold storage; destruct l as [|y [|]]; [done|done|simpl in Hl; lia]).
  rewrite locate_last by (done || lia). rewrite allocation_last, set_allocation_last. done.
Qed.
End Storage.

(** The table of [needs_drop] says of the type what is the case, if anything. *)
Definition known (ty : Type_) (b : bool) (d : list (Type_ * bool)) : Prop := forall k, type_get d ty = Some k -> k = b.

Lemma needs_drop_shape {L : Layouts} P ty b s : (1 <= host P)%nat -> machine_shape ty = Some b -> known ty b (drops s) ->
  exists d, needs_drop P ty s = (Ok b, set_drops d s) /\ known ty b d.
Proof.
  intros HP Hs Hk. unfold needs_drop. destruct (host P) as [|n]; [lia|]. cbn [needs_drop_in]. unfold bind at 1, get.
  destruct (type_get (drops s) ty) as [k|] eqn:E.
  - exists (drops s). rewrite (Hk k E). split; [by destruct s|]. intros k' E'. rewrite E in E'. injection E' as <-. by apply Hk.
  - rewrite Hs. exists ((ty, b) :: (ty, false) :: drops s). split; [by destruct s|]. intros k. unfold type_get in *. cbn.
    destruct (type_eqb ty ty); [by intros [= <-]|]. rewrite E. done.
Qed.

(** ** Running it *)

Lemma run_bind {A B} (m : M A) (k : A -> M B) s a s' : m s = (Ok a, s') -> bind m k s = k a s'.
Proof. intros E. unfold bind. by rewrite E. Qed.

Section Run.
Context {L : Layouts} (P : Program) (call : string -> list (list Z) -> M (list Z)).
Context (HP : (1 <= host P)%nat) (HI : 1 <= instructions P).
Context (l : list Allocation) (Hl : (length l <= 1)%nat) (bs : list Z) (Hbs : Z.of_nat (length bs) <= u64_max).
Context (tys : list Type_) (cds : list QuoteBody) (sts : gmap string Z).
Context (ty : Type_) (Hshape : machine_shape ty = Some (owns_text ty)) (Hborrow : is_borrow ty = false).
Context (Hsize : size_of_opt ty = Some (Z.of_nat (length bs))).
Context (b : Body) (Hlocals : exists d, body_locals b = [d] /\ local_ty d = ty) (Hret : return_ty b = ty).

(** The machine in the call: the parameter, its flag, how far it is. *)
Definition inside (flag : bool) (param : list Z) (ex : Z) (dr : list (Type_ * bool)) (bo : gmap string (list nat)) (nb : list nat) (sp : Span) : Machine :=
  mkMachine (mkMemory (l ++ [mkAllocation param false false])) tys cds [] ∅ sts EmptyString EmptyString ex 1 dr bo
    [mkFrame b [storage l] [flag] nb [] sp].

Lemma frame_inside flag param ex dr bo nb sp :
  frame (inside flag param ex dr bo nb sp) = (Ok (mkFrame b [storage l] [flag] nb [] sp), inside flag param ex dr bo nb sp).
Proof. done. Qed.

Lemma local_ty_inside flag param ex dr bo nb sp :
  place_ty (PlLocal 0) (inside flag param ex dr bo nb sp) = (Ok ty, inside flag param ex dr bo nb sp).
Proof using Hlocals.
  destruct Hlocals as (d & Hd & Hdt). unfold place_ty, local_decl. erewrite !run_bind by (done || by cbn; rewrite Hd).
  by rewrite Hdt.
Qed.

Lemma size_inside s : size_of ty s = (Ok (Z.of_nat (length bs)), s).
Proof using Hsize. unfold size_of. by rewrite Hsize. Qed.

Lemma read_inside o flag ex dr bo nb sp : reads_parameter ty o ->
  operand_ty o (inside flag bs ex dr bo nb sp) = (Ok ty, inside flag bs ex dr bo nb sp) /\
  operand o (inside flag bs ex dr bo nb sp) = (Ok bs, inside flag bs ex dr bo nb sp).
Proof using All.
  intros Ho. assert (read_place_at place_address (PlLocal 0) (inside flag bs ex dr bo nb sp) = (Ok bs, inside flag bs ex dr bo nb sp)).
  { destruct Hlocals as (d & Hd & Hdt). unfold read_place_at, local_decl.
    erewrite !run_bind by (done || (by cbn; rewrite Hd) || (rewrite Hdt; apply size_inside)).
    unfold m_read, inside. cbn [memory]. by rewrite read_last. }
  destruct Ho; (split; [apply local_ty_inside|done]).
Qed.

Lemma drop_all_inside param ex dr bo nb sp :
  drop_all_owned P call (inside false param ex dr bo nb sp) = (Ok tt, inside false param ex dr bo nb sp).
Proof. done. Qed.

Lemma return_inside o ex dr bo nb sp : reads_parameter ty o -> known ty (owns_text ty) dr ->
  exists dr', run_terminator P call (TmReturn o) (inside (owns_text ty) bs ex dr bo nb sp) = (Ok (Return bs), inside false bs ex dr' bo nb sp).
Proof using All.
  intros Ho Hk. cbn [run_terminator]. erewrite run_bind by apply frame_inside. cbn [fr_body]. rewrite Hret.
  erewrite run_bind by apply size_inside. destruct (_ && type_eqb ty TyUnit) eqn:E.
  - apply andb_true_iff in E as [E1 E2]. apply Z.eqb_eq in E1. destruct bs; [|done].
    assert (owns_text ty = false) as -> by (destruct ty; done). by exists dr.
  - destruct (read_inside o (owns_text ty) ex dr bo nb sp Ho) as [E1 E2].
    destruct (needs_drop_shape P ty (owns_text ty) (inside (owns_text ty) bs ex dr bo nb sp) HP Hshape Hk) as (dr' & E3 & _).
    exists dr'. assert (owned_as P o ty (inside (owns_text ty) bs ex dr bo nb sp) = (Ok bs, inside false bs ex dr' bo nb sp)) as E4.
    { unfold owned_as. erewrite run_bind by exact E1. assert (match ty with TyBorrow _ inner => type_eqb inner ty | _ => false end = false) as -> by (destruct ty; done).
      unfold owned_operand. erewrite run_bind by exact E1. erewrite run_bind by exact E2. erewrite run_bind by exact E3.
      destruct (owns_text ty) eqn:Et; [|done]. destruct Ho as [|Hne]; [done|]. by destruct ty. }
    destruct Ho; (erewrite run_bind by exact E4); done.
Qed.

Lemma pass_inside bo nb sp :
  param_count b = 1%nat ->
  exists dr, pass_args P b 0 [bs] (inside false (zeros (length bs)) 0 [] bo nb sp) = (Ok tt, inside (owns_text ty) bs 0 dr bo nb sp) /\
    known ty (owns_text ty) dr.
Proof using All.
  intros _. destruct Hlocals as (d & Hd & Hdt). cbn [pass_args].
  erewrite run_bind by done.
  assert (located (m_write (storage l) bs) (inside false (zeros (length bs)) 0 [] bo nb sp) = (Ok tt, inside false bs 0 [] bo nb sp)) as E1.
  { unfold located, m_write, update_memory, inside at 1. cbn [memory]. rewrite write_last by done. done. }
  erewrite run_bind by exact E1. rewrite Hd. cbn [lookup list_lookup expect]. erewrite run_bind by done. rewrite Hdt.
  destruct (needs_drop_shape P ty (owns_text ty) (inside false bs 0 [] bo nb sp) HP Hshape) as (dr & E2 & Hk); [done|].
  erewrite run_bind by exact E2. exists dr. split; [|done]. by destruct (owns_text ty).
Qed.

Lemma run_inside o bo nb sp :
  param_count b = 1%nat -> body_blocks b = [mkBasicBlock [] (TmReturn o)] -> reads_parameter ty o ->
  exists ex dr sp', run_frame P call [bs] (inside false (zeros (length bs)) 0 [] bo nb sp) = (Ok bs, inside false bs ex dr bo nb sp').
Proof using All.
  intros Hn Hb Ho. unfold run_frame. erewrite run_bind by apply frame_inside. cbn [fr_body]. rewrite Hn. cbn [take].
  destruct (pass_inside bo nb sp Hn) as (dr & E1 & Hk). erewrite run_bind by exact E1. unfold block_fuel.
  rewrite Nat.add_comm. cbn [run_blocks Nat.add]. rewrite Hb. cbn [lookup list_lookup expect]. erewrite run_bind by done.
  destruct (return_inside o 1 dr bo nb (terminator_span b 0) Ho Hk) as (dr' & E2).
  exists 1, dr', (terminator_span b 0).
  assert (run_block P call b 0 (mkBasicBlock [] (TmReturn o)) (inside (owns_text ty) bs 0 dr bo nb sp) =
    (Ok (Return bs), inside false bs 1 dr' bo nb (terminator_span b 0))) as E3.
  { unfold run_block. cbn [run_statements statements terminator]. erewrite run_bind by done. erewrite run_bind by done.
    assert (tick P (inside (owns_text ty) bs 0 dr bo nb (terminator_span b 0)) = (Ok tt, inside (owns_text ty) bs 1 dr bo nb (terminator_span b 0))) as E4.
    { unfold tick. erewrite run_bind by done. erewrite run_bind by done. cbn [executed set_executed inside]. by destruct (Z.ltb_spec (instructions P) (0 + 1)); [lia|]. }
    erewrite run_bind by exact E4. unfold located. by rewrite E2. }
  erewrite run_bind by exact E3. done.
Qed.
End Run.

Lemma call_identity {L : Layouts} P entry name is_mut ty o p sp spans l bs tys cds sts :
  (1 <= host P)%nat -> 1 <= instructions P -> 1 <= call_depth P -> (length l <= 1)%nat -> Z.of_nat (length bs) <= u64_max ->
  machine_shape ty = Some (owns_text ty) -> is_borrow ty = false -> size_of_opt ty = Some (Z.of_nat (length bs)) -> reads_parameter ty o ->
  bodies P entry = Some (identity name is_mut ty o p sp spans) ->
  exists s, Evaluate.call P entry [bs] (loaded l tys cds sts) = (Ok bs, s) /\
    memory s = mkMemory (l ++ [mkAllocation [] true false]) /\ types s = tys /\ codes s = cds /\ m_output s = EmptyString /\ m_stderr s = EmptyString.
Proof.
  intros HP HI HD Hl Hbs Hshape Hb Hsize Ho HB. unfold Evaluate.call. rewrite Nat.add_comm. cbn [call_in Nat.add].
  set (b := identity name is_mut ty o p sp spans) in *. set (bo := <[entry := borrowed_locals b]> (∅ : gmap string (list nat))).
  destruct (run_inside P (call_in P (Z.to_nat (call_depth P))) HP HI l Hl bs Hbs tys cds sts ty Hshape Hb Hsize b) with
    (o := o) (bo := bo) (nb := borrowed_locals b) (sp := sp) as (ex & dr & sp' & E); [by eexists|done..|].
  unfold call_body, body. rewrite HB. erewrite run_bind by done. erewrite run_bind by done. cbn [depth loaded].
  destruct (Z.leb_spec (call_depth P) 0); [lia|]. cbn [borrowed loaded]. rewrite lookup_empty. erewrite run_bind by done.
  assert (map_each (fun d => let! size := size_of (local_ty d) in m_alloc size false) (body_locals b) (set_borrowed bo (loaded l tys cds sts)) =
    (Ok [storage l], mkMachine (mkMemory (l ++ [mkAllocation (zeros (length bs)) false false])) tys cds [] ∅ sts EmptyString EmptyString 0 0 [] bo [])) as E1.
  { cbn [b identity body_locals map_each local_ty]. unfold size_of. rewrite Hsize. cbn [expect]. unfold bind, ret, m_alloc, alloc, loaded, set_borrowed.
    cbn [memory allocations]. unfold storage. rewrite length_app, Nat2Z.id. done. }
  erewrite run_bind by exact E1. erewrite run_bind by done. erewrite run_bind by done. unfold leave.
  match goal with |- context [run_frame _ _ _ ?s] => change s with (inside l tys cds sts b false (zeros (length bs)) 0 [] bo (borrowed_locals b) sp) end.
  rewrite E. unfold inside. cbn [set_depth depth frames set_frames fr_locals fr_scratch app for_each].
  unfold bind, m_free, update_memory. cbn [memory]. rewrite free_last by done. eexists. split; [reflexivity|]. done.
Qed.

(** C27: What goes in comes out: compile-time evaluation of a function that
    returns its parameter, [fn f(x: T) -> T { x }], gives the argument back,
    unchanged and with no output, for every argument that can be passed: an
    integer in the range of its width, a float of its width that is not a NaN,
    a boolean, a char, text, unit, a type or code.  The argument is laid out in
    the machine, copied to the frame of the call, moved or (when it owns
    nothing) copied out, and read back after the frame is freed; the limits
    allow one call and one instruction. *)
Theorem argument_roundtrip {L : Layouts} P entry name is_mut ty o p sp spans v :
  (1 <= host P)%nat -> 1 <= instructions P -> 1 <= call_depth P ->
  bodies P entry = Some (identity name is_mut ty o p sp spans) -> reads_parameter ty o -> passes ty v ->
  evaluate P entry [(ty, v)] = Ok (mkEvaluation v EmptyString EmptyString).
Proof.
  intros HP HI HD HB Ho Hv. destruct (encode_new P ty v HP Hv) as (bs & l & tys & cds & sts & E1 & Hl & Hsize & Hdec).
  destruct (passes_shape ty v Hv) as [Hshape Hb]. assert (Z.of_nat (length bs) <= u64_max) as Hbs by (eapply passes_size; done).
  destruct (call_identity P entry name is_mut ty o p sp spans l bs tys cds sts HP HI HD Hl Hbs Hshape Hb Hsize Ho HB)
    as (s & E2 & Hm & Ht & Hc & Hout & Herr).
  specialize (Hdec s _ Hm Ht Hc).
  unfold evaluate, run. unfold body at 1. rewrite HB. erewrite run_bind by done. cbn [map_each fst snd].
  erewrite run_bind; [|erewrite run_bind by exact E1; done]. erewrite run_bind by exact E2. cbn [identity return_ty].
  rewrite Hdec, Hout, Herr. done.
Qed.

(** ** Samples *)

Definition identity_program (ty : Type_) (o : Operand) : Program :=
  mkProgram (fun _ => Some (identity (Some "x"%string) false ty o Debug (Span_new_root 0 1) [])) [] ∅ [] 1 1 1
    (fun _ x _ => x) (fun _ _ => EmptyString) arena_default ∅ (fun _ => EmptyString) (fun s => s) (fun _ => false).

(** [-2.5] as an [f16] is the pattern [0xC100]. *)
Lemma argument_roundtrip_witness :
  let v := VScalar (CFloat 0xC004000000000000 F16) in
  let text := VScalar (CStr "paco") in
  evaluate (L := no_layouts) (identity_program (TyFloat F16) (Copy (PlLocal 0))) "f" [(TyFloat F16, v)] = Ok (mkEvaluation v "" "") /\
  evaluate (L := no_layouts) (identity_program TyString (Move (PlLocal 0))) "f" [(TyString, text)] = Ok (mkEvaluation text "" "").
Proof.
  intros v text. split.
  - apply (argument_roundtrip (L := no_layouts)) with (name := Some "x"%string) (is_mut := false) (o := Copy (PlLocal 0)) (p := Debug)
      (sp := Span_new_root 0 1) (spans := []); [vm_compute; lia|vm_compute; congruence|vm_compute; congruence|reflexivity|by constructor|].
    apply (pass_float F16 0xC100); [split; [vm_compute; congruence|vm_compute; reflexivity]|split; [vm_compute; congruence|vm_compute; reflexivity]|vm_compute; reflexivity|vm_compute; reflexivity].
  - apply (argument_roundtrip (L := no_layouts)) with (name := Some "x"%string) (is_mut := false) (o := Move (PlLocal 0)) (p := Debug)
      (sp := Span_new_root 0 1) (spans := []); [vm_compute; lia|vm_compute; congruence|vm_compute; congruence|reflexivity|constructor|].
    apply pass_str; [vm_compute; reflexivity|vm_compute; congruence].
Defined.
