(* ===== verification/Resolve.v ===== *)
(** Name resolution: [compiler/paco-resolve/src/lib.rs].

    The resolver threads its state (the scopes, the map of locals and the
    reporter) through the syntax.  The stack of scopes has its top first; a
    [HashSet] of names is a list.  Identifiers are ASCII (see [Lex]), so the
    text of a name has one char per byte. *)
From S2P Require Import Prelude Span Diag Ast Visit.

Inductive ResolveError := mkResolveError.

Definition PRELUDE_VALUES : list string :=
  ["print"; "panic"; "Some"; "None"; "Ok"; "Err"; "channel"; "spawn_blocking"; "tcp_listen"; "slice_of_zeros";
   "hash_of"; "slice_sort_native"; "slice_as_ptr"; "slice_as_mut_ptr"; "ptr_null"; "ptr_null_mut";
   "splice_field"; "fields_of"; "type_name"; "code_to_string";
   "string_concat"; "int_to_string"; "uint_to_string"; "bool_to_string"; "float_to_string"; "char_to_string";
   "string_len_bytes"; "string_char_at"; "string_next_char_boundary"; "string_byte_at"; "string_slice_utf8";
   "string_to_bytes"; "string_from_bytes"; "bytes_write_string"; "string_hash"; "fs_read_to_string";
   "stderr_write"; "arg_count"; "arg_at"; "rt_sleep_ns"; "rt_monotonic_ns"; "rt_wall_ns"]%string.

(** ** [Locals] *)

(** A [LocalId] is its number. *)
Abbreviation LocalId := nat (only parsing).

Record Locals := mkLocals { occurrences : gmap Span (list (string * LocalId)); count : nat }.

Definition Locals_default : Locals := mkLocals ∅ 0.

Definition find_name (name : string) (entries : list (string * LocalId)) : option LocalId :=
  snd <$> List.find (fun p => bool_decide (p.1 = name)) entries.

Definition Locals_get (l : Locals) (name : string) (sp : Span) : option LocalId :=
  entries ← occurrences l !! sp; find_name name entries.

Definition Locals_expr (l : Locals) (e : Expr) : option LocalId :=
  match e with EIdent name sp => Locals_get l name sp | _ => None end.

Definition Locals_pat (l : Locals) (p : Pat) : option LocalId :=
  match p with PIdent name sp | PBinding name _ sp => Locals_get l name sp | _ => None end.

(** The first entry of the name is overwritten, or one is added. *)
Fixpoint set_entry (name : string) (id : LocalId) (entries : list (string * LocalId)) : list (string * LocalId) :=
  match entries with
  | [] => [(name, id)]
  | (n, i) :: rest => if bool_decide (n = name) then (n, id) :: rest else (n, i) :: set_entry name id rest
  end.

Definition Locals_record (l : Locals) (name : string) (sp : Span) (id : LocalId) : Locals :=
  mkLocals (<[sp := set_entry name id (default [] (occurrences l !! sp))]> (occurrences l)) (count l).

Definition Locals_intern (l : Locals) (name : string) (sp : Span) : LocalId * Locals :=
  match Locals_get l name sp with
  | Some id => (id, l)
  | None =>
      let id := count l in
      (id, Locals_record (mkLocals (occurrences l) (S (count l))) name sp id)
  end.

(** ** [Resolver] *)

Abbreviation Scope := (gmap string (option LocalId)) (only parsing).

Record Resolver := mkResolver { reporter : option Reporter; locals : Locals; scopes : list Scope }.

Definition set_locals (s : Resolver) (l : Locals) : Resolver := mkResolver (reporter s) l (scopes s).
Definition set_scopes (s : Resolver) (sc : list Scope) : Resolver := mkResolver (reporter s) (locals s) sc.
Definition push_scope (s : Resolver) : Resolver := set_scopes s (∅ :: scopes s).
Definition pop_scope (s : Resolver) : Resolver := set_scopes s (tail (scopes s)).

Definition bind (name : string) (sp : Span) (alias : option (gmap string LocalId)) (bound : gmap string LocalId)
  (s : Resolver) : gmap string LocalId * Resolver :=
  let '(id, l) :=
    match (a ← alias; a !! name) with
    | Some id => (id, Locals_record (locals s) name sp id)
    | None => Locals_intern (locals s) name sp
    end in
  let sc := match scopes s with [] => [] | top :: rest => <[name := Some id]> top :: rest end in
  (<[name := id]> bound, mkResolver (reporter s) l sc).

Fixpoint bind_pattern (p : Pat) (alias : option (gmap string LocalId)) (bound : gmap string LocalId) (s : Resolver)
  : gmap string LocalId * Resolver :=
  match p with
  | PIdent name sp => bind name sp alias bound s
  | PBinding name pattern sp =>
      let '(bound, s) := bind name sp alias bound s in bind_pattern pattern alias bound s
  | POr alternatives _ =>
      let '(first, s) :=
        match alternatives with
        | [] => (∅, s)
        | a :: rest =>
            let '(first, s) := bind_pattern a alias ∅ s in
            (first, fold_left (fun s alt => snd (bind_pattern alt (Some first) ∅ s)) rest s)
        end in
      (first ∪ bound, s)
  | PTuple fields _ | PEnum _ fields _ =>
      fold_left (fun bs field => bind_pattern field alias bs.1 bs.2) fields (bound, s)
  | PStruct _ fields _ _ =>
      fold_left (fun bs field => bind_pattern field.2 alias bs.1 bs.2) fields (bound, s)
  | PRange start end_ _ _ =>
      let '(bound, s) := bind_pattern start alias bound s in bind_pattern end_ alias bound s
  | PReference _ pattern _ => bind_pattern pattern alias bound s
  | PWildcard _ | PLiteral _ _ => (bound, s)
  end.

(** [self.bind_pattern(pattern, None, &mut HashMap::new())] *)
Definition bind_fresh (p : Pat) (s : Resolver) : Resolver := snd (bind_pattern p None ∅ s).

Section Resolve.
Context (functions : list string).

(** The innermost scope that binds the name. *)
Fixpoint lookup_scopes (name : string) (sc : list Scope) : option (option LocalId) :=
  match sc with
  | [] => None
  | scope :: rest => match scope !! name with Some b => Some b | None => lookup_scopes name rest end
  end.

Definition not_found (name : string) (sp : Span) : Diagnostic :=
  Diagnostic_error (chars "PACO-E0201") sp (chars "name not found `" ++ chars name ++ chars "`").

Definition ident (name : string) (sp : Span) (s : Resolver) : Resolver :=
  match lookup_scopes name (scopes s) with
  | Some (Some id) => set_locals s (Locals_record (locals s) name sp id)
  | Some None => s
  | None =>
      if bool_decide (name ∈ functions) || bool_decide (name ∈ PRELUDE_VALUES) then s
      else match reporter s with
           | Some r => mkResolver (Some (Reporter_push r (not_found name sp))) (locals s) (scopes s)
           | None => s
           end
  end.

Fixpoint expr (e : Expr) (s : Resolver) : Resolver :=
  match e with
  | ELiteral _ _ | EContinue _ => s
  | EIdent name sp => ident name sp s
  | EBlock b | EUnsafe b _ => block b s
  | EIf condition then_branch else_branch _ => if_some expr else_branch (block then_branch (expr condition s))
  | ELoop body _ => block body s
  | EWhile condition body _ => block body (expr condition s)
  | ECall callee _ args _ => for_each expr args (expr callee s)
  | EMethodCall receiver _ args _ => for_each expr args (expr receiver s)
  | EAssociatedCall _ _ args _ | ETuple args _ => for_each expr args s
  | EBinary _ lhs rhs _ => expr rhs (expr lhs s)
  | EAssign target value _ => expr value (expr target s)
  | EField base _ _ => expr base s
  | EIndex base index _ => for_each expr index (expr base s)
  | EReturn value _ | EBreak value _ => if_some expr value s
  | EMatch scrutinee arms _ =>
      for_each
        (fun arm s =>
           let 'mkMatchArm pattern guard body _ := arm in
           pop_scope (expr body (if_some expr guard (bind_fresh pattern (push_scope s)))))
        arms (expr scrutinee s)
  | EClosure params body _ =>
      pop_scope (expr body (for_each (fun p => let 'mkClosureParam pattern _ _ := p in bind_fresh pattern) params (push_scope s)))
  | EUnary _ e _ | ESpawn e _ | EComptime e _ | ESplice e _ | EBorrow _ e _ | ETry e _ | ECast e _ _ | EYield e _ => expr e s
  | EQuote body _ =>
      match body with
      | QItem i => template_item i (splice_item i s)
      | QExpr e => template_expr e (splice_expr e s)
      end
  | ESelect arms default_ _ =>
      if_some block default_
        (for_each
           (fun arm s =>
              let 'mkSelectArm operation body _ := arm in
              let s := push_scope s in
              let s :=
                match operation with
                | EAssign target value _ =>
                    let s := expr value s in
                    match target with EIdent name sp => snd (bind name sp None ∅ s) | _ => s end
                | other => expr operation s
                end in
              pop_scope (block body s))
           arms s)
  | EStructLiteral _ fields _ => for_each (fun f => expr f.2) fields s
  end
with block (b : Block) (s : Resolver) : Resolver :=
  let 'mkBlock stmts tail _ := b in
  pop_scope (if_some expr tail (for_each stmt stmts (push_scope s)))
with stmt (st : Stmt) (s : Resolver) : Resolver :=
  match st with
  | SLet (mkLetStmt _ pattern _ value _) => bind_fresh pattern (if_some expr value s)
  | SExpr e => expr e s
  | SItem _ => s
  end
with splice_item (i : Item) (s : Resolver) : Resolver :=
  walk_item (mkVisit (fun _ s => s) splice_item splice_fn_decl splice_block splice_stmt splice_expr (fun _ s => s)) i s
with splice_fn_decl (d : FnDecl) (s : Resolver) : Resolver :=
  walk_fn_decl (mkVisit (fun _ s => s) splice_item splice_fn_decl splice_block splice_stmt splice_expr (fun _ s => s)) d s
with splice_block (b : Block) (s : Resolver) : Resolver :=
  walk_block (mkVisit (fun _ s => s) splice_item splice_fn_decl splice_block splice_stmt splice_expr (fun _ s => s)) b s
with splice_stmt (st : Stmt) (s : Resolver) : Resolver :=
  walk_stmt (mkVisit (fun _ s => s) splice_item splice_fn_decl splice_block splice_stmt splice_expr (fun _ s => s)) st s
with splice_expr (e : Expr) (s : Resolver) : Resolver :=
  let walk := walk_expr (mkVisit (fun _ s => s) splice_item splice_fn_decl splice_block splice_stmt splice_expr (fun _ s => s)) e s in
  match e with
  | ESplice inner _ => expr inner s
  | ECall (EIdent name _) _ [base; field] _ =>
      if bool_decide (name = "splice_field"%string) then expr field (splice_expr base s) else walk
  | EQuote _ _ => s
  | _ => walk
  end
(** [visit_template_ty_splices] with [expr] as the callback: see [Visit]. *)
with template_ty (t : Ty) (s : Resolver) : Resolver :=
  match t with
  | TSplice inner _ => expr inner s
  | TGeneric _ args _ | TTuple args _ => for_each template_ty args s
  | TSlice inner _ | TBorrow _ _ inner _ | TRawPointer _ inner _ => template_ty inner s
  | TFn params return_ty _ _ _ => if_some template_ty return_ty (for_each template_ty params s)
  | TPath _ _ | TDyn _ _ | TInfer _ | TNever _ | TConst _ _ | TDynDim _ | TExpand _ _ | TExistential _ _ => s
  end
with template_item (i : Item) (s : Resolver) : Resolver :=
  let s := match i with IMethods (mkMethodsBlock _ target _ _ _) => template_ty target s | _ => s end in
  walk_item (mkVisit (fun _ s => s) template_item template_fn_decl template_block template_stmt template_expr (fun _ s => s)) i s
with template_fn_decl (d : FnDecl) (s : Resolver) : Resolver :=
  let 'mkFnDecl _ name_splice _ params return_ty _ _ _ _ _ _ _ _ := d in
  let s := if_some expr name_splice s in
  let s := for_each (fun p => let 'mkParam _ ty _ := p in template_ty ty) params s in
  let s := if_some template_ty return_ty s in
  walk_fn_decl (mkVisit (fun _ s => s) template_item template_fn_decl template_block template_stmt template_expr (fun _ s => s)) d s
with template_block (b : Block) (s : Resolver) : Resolver :=
  walk_block (mkVisit (fun _ s => s) template_item template_fn_decl template_block template_stmt template_expr (fun _ s => s)) b s
with template_stmt (st : Stmt) (s : Resolver) : Resolver :=
  let s := match st with SLet (mkLetStmt _ _ (Some ty) _ _) => template_ty ty s | _ => s end in
  walk_stmt (mkVisit (fun _ s => s) template_item template_fn_decl template_block template_stmt template_expr (fun _ s => s)) st s
with template_expr (e : Expr) (s : Resolver) : Resolver :=
  let walk :=
    walk_expr (mkVisit (fun _ s => s) template_item template_fn_decl template_block template_stmt template_expr (fun _ s => s)) e in
  match e with
  | EQuote _ _ | ESplice _ _ => s
  | EAssociatedCall ty _ _ _ | EStructLiteral ty _ _ | ECast _ ty _ => walk (template_ty ty s)
  | ECall _ type_args _ _ => walk (for_each template_ty type_args s)
  | EClosure params _ _ => walk (for_each (fun p => let 'mkClosureParam _ ty _ := p in if_some template_ty ty) params s)
  | _ => walk s
  end.

Definition function (d : FnDecl) (owner_params : list GenericParam) (s : Resolver) : Resolver :=
  let 'mkFnDecl _ _ generics params _ body _ _ _ _ _ _ _ := d in
  let const_params := List.filter (fun p => is_const p || is_dim p) (owner_params ++ generics) in
  let s := set_scopes s [list_to_map (map (fun p => (gp_name p, None)) (rev const_params))] in
  let s := for_each (fun p => let 'mkParam pattern _ _ := p in bind_fresh pattern) params s in
  set_scopes (block body s) [].

Definition module (m : Module) (s : Resolver) : Resolver :=
  for_each
    (fun i s =>
       match i with
       | IFn d => function d [] s
       | IStruct (mkStructDecl _ generics _ methods _ _ _ _ _) => for_each (fun d => function d generics) methods s
       | IEnum (mkEnumDecl _ generics _ methods _ _ _ _) => for_each (fun d => function d generics) methods s
       | IMethods (mkMethodsBlock generics _ methods _ _) => for_each (fun d => function d generics) methods s
       | ITrait _ | IUse _ | IConst _ | IExtern _ => s
       end) (items m) s.
End Resolve.

(** The names a module declares, in the order of the source. *)
Definition declared_names (m : Module) : list string :=
  omap
    (fun i =>
       match i with
       | IFn (mkFnDecl name _ _ _ _ _ _ _ _ _ _ _ _) => Some name
       | IConst (mkConstDecl name _ _ _ _) => Some name
       | IStruct (mkStructDecl name _ _ _ _ _ _ _ _) => Some name
       | IEnum (mkEnumDecl name _ _ _ _ _ _ _) => Some name
       | _ => None
       end) (items m) ++
  flat_map
    (fun i =>
       match i with
       | IExtern (mkExternBlock _ functions _ _) => map (fun '(mkFnSignature name _ _ _ _ _ _) => name) functions
       | _ => []
       end) (items m).

Definition resolve_module_with_imports (m : Module) (imported_names : list string) (r : Reporter) : (unit + ResolveError) * Reporter :=
  let functions := declared_names m ++ imported_names in
  let s := module functions m (mkResolver (Some r) Locals_default []) in
  let r := default r (reporter s) in
  (if has_errors r then inr mkResolveError else inl tt, r).

Definition resolve_module (m : Module) (r : Reporter) : (unit + ResolveError) * Reporter := resolve_module_with_imports m [] r.

Definition Locals_add_module (l : Locals) (m : Module) : Locals := locals (module [] m (mkResolver None l [])).

Definition resolve_locals (modules : list Module) : Locals := fold_left Locals_add_module modules Locals_default.
