(* ===== verification/Scoping.v ===== *)
(** Lexical scoping: what name resolution promises, and that it keeps it.

    The specification passes an environment down the syntax instead of keeping
    a stack of scopes: it lists the occurrences of names, each binding with
    its site and each use with the site of the binding it refers to.  The
    resolver of [Resolve] is shown to follow it: its diagnostics are the uses
    without a binding, and its map of locals sends a use to the id of the
    binding site.

    The specification is about the code that name resolution visits: the
    bodies of functions and of the methods of structs, enums and [methods]
    blocks.  Default methods of traits, constants and items inside blocks have
    no occurrences in it ([occ_item]), and a bare name in a pattern is a
    binding, whatever it names ([pat_occ]); [ResolveGaps] has programs for
    which that matters. *)
From S2P Require Import Prelude Span Diag Ast Visit Resolve.

(** ** The specification *)

(** A binding site: the name and the span of its first occurrence. *)
Abbreviation site := (string * Span)%type.

(** What a name stands for: a local, or a const parameter ([None]). *)
Abbreviation Env := (gmap string (option site)).

Inductive Occ :=
| Binder (name : string) (sp : Span) (binding : site)
| Use (name : string) (sp : Span) (target : option (option site)).

(** The alternatives of an or-pattern share the sites of the first. *)
Definition site_of (alias : option (gmap string site)) (name : string) (sp : Span) : site :=
  default (name, sp) (a ← alias; a !! name).

(** The names of a pattern, with their sites, on top of [bound]. *)
Fixpoint pat_bound (alias : option (gmap string site)) (p : Pat) (bound : gmap string site) : gmap string site :=
  match p with
  | PIdent name sp => <[name := site_of alias name sp]> bound
  | PBinding name p sp => pat_bound alias p (<[name := site_of alias name sp]> bound)
  | POr (a :: _) _ => pat_bound alias a ∅ ∪ bound
  | PTuple fields _ | PEnum _ fields _ => for_each (pat_bound alias) fields bound
  | PStruct _ fields _ _ => for_each (fun f => pat_bound alias f.2) fields bound
  | PRange s e _ _ => pat_bound alias e (pat_bound alias s bound)
  | PReference _ p _ => pat_bound alias p bound
  | POr [] _ | PWildcard _ | PLiteral _ _ => bound
  end.

(** Its binders, in order, after those of [acc].  A bare name is one of them,
    also where it is the name of a variant. *)
Fixpoint pat_occ (alias : option (gmap string site)) (p : Pat) (acc : list (string * Span * site)) : list (string * Span * site) :=
  match p with
  | PIdent name sp => acc ++ [(name, sp, site_of alias name sp)]
  | PBinding name p sp => pat_occ alias p (acc ++ [(name, sp, site_of alias name sp)])
  | POr (a :: rest) _ => for_each (pat_occ (Some (pat_bound alias a ∅))) rest (pat_occ alias a acc)
  | PTuple fields _ | PEnum _ fields _ => for_each (pat_occ alias) fields acc
  | PStruct _ fields _ _ => for_each (fun f => pat_occ alias f.2) fields acc
  | PRange s e _ _ => pat_occ alias e (pat_occ alias s acc)
  | PReference _ p _ => pat_occ alias p acc
  | POr [] _ | PWildcard _ | PLiteral _ _ => acc
  end.

Definition binders (p : Pat) : list (string * Span * site) := pat_occ None p [].
Definition binder_occ (b : string * Span * site) : Occ := Binder b.1.1 b.1.2 b.2.

(** The environment after the pattern. *)
Definition extend_with (l : list (string * Span * site)) (Γ : Env) : Env :=
  fold_left (fun Γ b => <[b.1.1 := Some b.2]> Γ) l Γ.
Definition extend (p : Pat) (Γ : Env) : Env := extend_with (binders p) Γ.

Definition bind_occ (p : Pat) (acc : list Occ) : list Occ := acc ++ map binder_occ (binders p).

Definition stmt_env (st : Stmt) (Γ : Env) : Env :=
  match st with SLet (mkLetStmt _ p _ _ _) => extend p Γ | _ => Γ end.

(** The occurrences of names in [e], in order, after those of [acc]. *)
Fixpoint occ (Γ : Env) (e : Expr) (acc : list Occ) : list Occ :=
  match e with
  | ELiteral _ _ | EContinue _ => acc
  | EIdent name sp => acc ++ [Use name sp (Γ !! name)]
  | EBlock b | EUnsafe b _ => occ_block Γ b acc
  | EIf c t f _ => if_some (occ Γ) f (occ_block Γ t (occ Γ c acc))
  | ELoop b _ => occ_block Γ b acc
  | EWhile c b _ => occ_block Γ b (occ Γ c acc)
  | ECall x _ args _ | EMethodCall x _ args _ | EIndex x args _ => for_each (occ Γ) args (occ Γ x acc)
  | EAssociatedCall _ _ args _ | ETuple args _ => for_each (occ Γ) args acc
  | EBinary _ a b _ | EAssign a b _ => occ Γ b (occ Γ a acc)
  | EField x _ _ | EUnary _ x _ | ESpawn x _ | EComptime x _ | ESplice x _ | EBorrow _ x _ | ETry x _ | ECast x _ _ | EYield x _ =>
      occ Γ x acc
  | EReturn v _ | EBreak v _ => if_some (occ Γ) v acc
  | EMatch x arms _ =>
      for_each
        (fun arm acc =>
           let 'mkMatchArm p g b _ := arm in
           occ (extend p Γ) b (if_some (occ (extend p Γ)) g (bind_occ p acc)))
        arms (occ Γ x acc)
  | EClosure params b _ =>
      let Γ' := fold_left (fun Γ '(mkClosureParam p _ _) => extend p Γ) params Γ in
      occ Γ' b (for_each (fun p => let 'mkClosureParam p _ _ := p in bind_occ p) params acc)
  | EQuote (QItem i) _ => occ_template_item Γ i (occ_splice_item Γ i acc)
  | EQuote (QExpr e) _ => occ_template_expr Γ e (occ_splice_expr Γ e acc)
  | ESelect arms default_ _ =>
      if_some (occ_block Γ) default_
        (for_each
           (fun arm acc =>
              let 'mkSelectArm operation b _ := arm in
              match operation with
              | EAssign (EIdent name sp) v _ =>
                  occ_block (<[name := Some (name, sp)]> Γ) b (occ Γ v acc ++ [Binder name sp (name, sp)])
              | EAssign _ v _ => occ_block Γ b (occ Γ v acc)
              | _ => occ_block Γ b (occ Γ operation acc)
              end) arms acc)
  | EStructLiteral _ fields _ => for_each (fun f => occ Γ f.2) fields acc
  end
with occ_block (Γ : Env) (b : Block) (acc : list Occ) : list Occ :=
  let 'mkBlock stmts tail _ := b in
  (fix go Γ l acc :=
     match l with
     | [] => if_some (occ Γ) tail acc
     | st :: l => go (stmt_env st Γ) l (occ_stmt Γ st acc)
     end) Γ stmts acc
with occ_stmt (Γ : Env) (st : Stmt) (acc : list Occ) : list Occ :=
  match st with
  | SLet (mkLetStmt _ p _ v _) => bind_occ p (if_some (occ Γ) v acc)
  | SExpr e => occ Γ e acc
  | SItem _ => acc
  end
with occ_splice_item (Γ : Env) (i : Item) (acc : list Occ) : list Occ :=
  walk_item (mkVisit (fun _ a => a) (occ_splice_item Γ) (occ_splice_fn_decl Γ) (occ_splice_block Γ) (occ_splice_stmt Γ)
               (occ_splice_expr Γ) (fun _ a => a)) i acc
with occ_splice_fn_decl (Γ : Env) (d : FnDecl) (acc : list Occ) : list Occ :=
  walk_fn_decl (mkVisit (fun _ a => a) (occ_splice_item Γ) (occ_splice_fn_decl Γ) (occ_splice_block Γ) (occ_splice_stmt Γ)
               (occ_splice_expr Γ) (fun _ a => a)) d acc
with occ_splice_block (Γ : Env) (b : Block) (acc : list Occ) : list Occ :=
  walk_block (mkVisit (fun _ a => a) (occ_splice_item Γ) (occ_splice_fn_decl Γ) (occ_splice_block Γ) (occ_splice_stmt Γ)
               (occ_splice_expr Γ) (fun _ a => a)) b acc
with occ_splice_stmt (Γ : Env) (st : Stmt) (acc : list Occ) : list Occ :=
  walk_stmt (mkVisit (fun _ a => a) (occ_splice_item Γ) (occ_splice_fn_decl Γ) (occ_splice_block Γ) (occ_splice_stmt Γ)
               (occ_splice_expr Γ) (fun _ a => a)) st acc
with occ_splice_expr (Γ : Env) (e : Expr) (acc : list Occ) : list Occ :=
  let walk :=
    walk_expr (mkVisit (fun _ a => a) (occ_splice_item Γ) (occ_splice_fn_decl Γ) (occ_splice_block Γ) (occ_splice_stmt Γ)
                 (occ_splice_expr Γ) (fun _ a => a)) e acc in
  match e with
  | ESplice inner _ => occ Γ inner acc
  | ECall (EIdent name _) _ [base; field] _ =>
      if bool_decide (name = "splice_field"%string) then occ Γ field (occ_splice_expr Γ base acc) else walk
  | EQuote _ _ => acc
  | _ => walk
  end
with occ_template_ty (Γ : Env) (t : Ty) (acc : list Occ) : list Occ :=
  match t with
  | TSplice inner _ => occ Γ inner acc
  | TGeneric _ args _ | TTuple args _ => for_each (occ_template_ty Γ) args acc
  | TSlice inner _ | TBorrow _ _ inner _ | TRawPointer _ inner _ => occ_template_ty Γ inner acc
  | TFn params return_ty _ _ _ => if_some (occ_template_ty Γ) return_ty (for_each (occ_template_ty Γ) params acc)
  | _ => acc
  end
with occ_template_item (Γ : Env) (i : Item) (acc : list Occ) : list Occ :=
  let acc := match i with IMethods (mkMethodsBlock _ target _ _ _) => occ_template_ty Γ target acc | _ => acc end in
  walk_item (mkVisit (fun _ a => a) (occ_template_item Γ) (occ_template_fn_decl Γ) (occ_template_block Γ) (occ_template_stmt Γ)
               (occ_template_expr Γ) (fun _ a => a)) i acc
with occ_template_fn_decl (Γ : Env) (d : FnDecl) (acc : list Occ) : list Occ :=
  let 'mkFnDecl _ name_splice _ params return_ty _ _ _ _ _ _ _ _ := d in
  let acc := if_some (occ Γ) name_splice acc in
  let acc := for_each (fun p => let 'mkParam _ ty _ := p in occ_template_ty Γ ty) params acc in
  let acc := if_some (occ_template_ty Γ) return_ty acc in
  walk_fn_decl (mkVisit (fun _ a => a) (occ_template_item Γ) (occ_template_fn_decl Γ) (occ_template_block Γ) (occ_template_stmt Γ)
               (occ_template_expr Γ) (fun _ a => a)) d acc
with occ_template_block (Γ : Env) (b : Block) (acc : list Occ) : list Occ :=
  walk_block (mkVisit (fun _ a => a) (occ_template_item Γ) (occ_template_fn_decl Γ) (occ_template_block Γ) (occ_template_stmt Γ)
               (occ_template_expr Γ) (fun _ a => a)) b acc
with occ_template_stmt (Γ : Env) (st : Stmt) (acc : list Occ) : list Occ :=
  let acc := match st with SLet (mkLetStmt _ _ (Some ty) _ _) => occ_template_ty Γ ty acc | _ => acc end in
  walk_stmt (mkVisit (fun _ a => a) (occ_template_item Γ) (occ_template_fn_decl Γ) (occ_template_block Γ) (occ_template_stmt Γ)
               (occ_template_expr Γ) (fun _ a => a)) st acc
with occ_template_expr (Γ : Env) (e : Expr) (acc : list Occ) : list Occ :=
  let walk :=
    walk_expr (mkVisit (fun _ a => a) (occ_template_item Γ) (occ_template_fn_decl Γ) (occ_template_block Γ) (occ_template_stmt Γ)
                 (occ_template_expr Γ) (fun _ a => a)) e in
  match e with
  | EQuote _ _ | ESplice _ _ => acc
  | EAssociatedCall ty _ _ _ | EStructLiteral ty _ _ | ECast _ ty _ => walk (occ_template_ty Γ ty acc)
  | ECall _ type_args _ _ => walk (for_each (occ_template_ty Γ) type_args acc)
  | EClosure params _ _ => walk (for_each (fun p => let 'mkClosureParam _ ty _ := p in if_some (occ_template_ty Γ) ty) params acc)
  | _ => walk acc
  end.

(** The const parameters in scope of a function. *)
Definition const_env (owner_params generics : list GenericParam) : Env :=
  list_to_map (map (fun p => (gp_name p, None)) (rev (List.filter (fun p => is_const p || is_dim p) (owner_params ++ generics)))).

Definition occ_fn (owner_params : list GenericParam) (d : FnDecl) (acc : list Occ) : list Occ :=
  let 'mkFnDecl _ _ generics params _ body _ _ _ _ _ _ _ := d in
  let Γ := const_env owner_params generics in
  let Γ' := fold_left (fun Γ '(mkParam p _ _) => extend p Γ) params Γ in
  occ_block Γ' body (for_each (fun p => let 'mkParam p _ _ := p in bind_occ p) params acc).

(** The functions of an item, as far as they are visited *)
Definition occ_item (i : Item) (acc : list Occ) : list Occ :=
  match i with
  | IFn d => occ_fn [] d acc
  | IStruct (mkStructDecl _ generics _ methods _ _ _ _ _) => for_each (occ_fn generics) methods acc
  | IEnum (mkEnumDecl _ generics _ methods _ _ _ _) => for_each (occ_fn generics) methods acc
  | IMethods (mkMethodsBlock generics _ methods _ _) => for_each (occ_fn generics) methods acc
  | ITrait _ | IUse _ | IConst _ | IExtern _ => acc
  end.

Definition module_occ (m : Module) (acc : list Occ) : list Occ := for_each occ_item (items m) acc.
