(* ===== verification/ResolveThms.v ===== *)
(** Name resolution implements lexical scoping.

    The resolver of [Resolve] runs along the specification of [Scoping]: while
    it traverses a construct it reports the uses without a binding, and records
    every occurrence of a local with the id of its binding site. *)
From S2P Require Import Prelude Span Diag Ast Visit Resolve Scoping.

(** ** The map of locals *)

Definition getk (l : Locals) (k : site) : option nat := Locals_get l k.1 k.2.

Lemma find_set_entry name id n es : find_name n (set_entry name id es) = if decide (n = name) then Some id else find_name n es.
Proof.
  unfold find_name. induction es as [|[n' i] es IH]; simpl.
  - destruct (decide (n = name)) as [->|]; [by rewrite bool_decide_true|by rewrite bool_decide_false by congruence].
  - destruct (decide (n' = name)) as [->|Hn]; [rewrite (bool_decide_true (name = name)) by done|rewrite (bool_decide_false (n' = name)) by done]; simpl.
    + destruct (decide (n = name)) as [->|]; [by rewrite bool_decide_true|by rewrite !bool_decide_false by congruence].
    + destruct (decide (n' = n)) as [->|]; [rewrite bool_decide_true by done; by rewrite decide_False|].
      rewrite !bool_decide_false by congruence. exact IH.
Qed.

Lemma get_record l name sp id k : getk (Locals_record l name sp id) k = if decide (k = (name, sp)) then Some id else getk l k.
Proof.
  destruct k as [n s]. unfold getk, Locals_get, Locals_record. simpl. destruct (decide (s = sp)) as [->|Hs].
  - rewrite lookup_insert_eq. simpl. rewrite find_set_entry. destruct (decide (n = name)) as [->|Hn].
    + by rewrite decide_True.
    + rewrite (decide_False (P := (n, sp) = (name, sp))) by congruence. by destruct (occurrences l !! sp).
  - rewrite lookup_insert_ne by congruence. by rewrite decide_False by congruence.
Qed.

(** An occurrence of a local: where it stands, and the site of its binding. *)
Definition key (x : Occ) : option site :=
  match x with Binder n sp _ => Some (n, sp) | Use n sp (Some (Some _)) => Some (n, sp) | _ => None end.
Definition target (x : Occ) : option site :=
  match x with Binder _ _ t => Some t | Use _ _ (Some (Some t)) => Some t | _ => None end.
Definition keys (o : list Occ) : list site := omap key o.
(** The sites that [o] introduces. *)
Definition new_site (x : Occ) : option site :=
  match x with Binder n sp t => if decide (t = (n, sp)) then Some t else None | _ => None end.
Definition sites (o : list Occ) : list site := omap new_site o.

(** No two occurrences of [o] share a name and a span, and none is known yet. *)
Definition unseen (l : Locals) (o : list Occ) : Prop := NoDup (keys o) /\ forall k, k ∈ keys o -> getk l k = None.

(** The locals [l'] are those of [l] with the occurrences [o]: each has the id
    of its binding, and every site of [o] an id of its own. *)
Record recorded (l : Locals) (o : list Occ) (l' : Locals) : Prop := {
  rec_old : forall k id, getk l k = Some id -> getk l' k = Some id;
  rec_new : forall k, is_Some (getk l' k) -> is_Some (getk l k) \/ k ∈ keys o;
  rec_count : count l <= count l';
  rec_target : forall x k t, x ∈ o -> key x = Some k -> target x = Some t -> is_Some (getk l' t) /\ getk l' k = getk l' t;
  rec_site : forall k, k ∈ sites o -> exists id, getk l' k = Some id /\ count l <= id < count l';
  rec_inj : forall k1 k2, k1 ∈ sites o -> k2 ∈ sites o -> getk l' k1 = getk l' k2 -> k1 = k2 }.

Lemma recorded_nil l : recorded l [] l.
Proof. split; auto; intros *; rewrite ?elem_of_nil; try done. Qed.

Lemma unseen_app l o1 o2 : unseen l (o1 ++ o2) -> unseen l o1.
Proof.
  unfold unseen, keys. rewrite omap_app. intros [(H & _ & _)%NoDup_app Hk]. split; [done|]. intros k Hin. apply Hk, elem_of_app. by left.
Qed.

Lemma unseen_next l l1 o1 o2 : unseen l (o1 ++ o2) -> recorded l o1 l1 -> unseen l1 o2.
Proof.
  unfold unseen, keys. rewrite omap_app. intros [(_ & Hd & Hn)%NoDup_app Hk] R. split; [done|]. intros k Hin.
  destruct (getk l1 k) as [id|] eqn:E; [|done]. exfalso. destruct (rec_new _ _ _ R k) as [[id' E']|Hk1]; [by eexists| |].
  - rewrite Hk in E'; [done|]. apply elem_of_app. by right.
  - by eapply Hd.
Qed.

Lemma recorded_app l o1 l1 o2 l2 : recorded l o1 l1 -> recorded l1 o2 l2 -> recorded l (o1 ++ o2) l2.
Proof.
  intros R1 R2. unfold sites. split; unfold keys, sites in *; rewrite ?omap_app.
  - intros k id H. by apply R2, R1.
  - intros k H. rewrite elem_of_app. destruct (rec_new _ _ _ R2 k H) as [H1|H1]; [|auto]. destruct (rec_new _ _ _ R1 k H1); auto.
  - pose proof (rec_count _ _ _ R1). pose proof (rec_count _ _ _ R2). lia.
  - intros x k t [Hx|Hx]%elem_of_app Hk Ht; [|by eapply R2].
    destruct (rec_target _ _ _ R1 x k t Hx Hk Ht) as [[id Ht1] E]. rewrite Ht1 in E.
    rewrite (rec_old _ _ _ R2 _ _ Ht1), (rec_old _ _ _ R2 _ _ E). eauto.
  - intros k [Hk|Hk]%elem_of_app.
    + destruct (rec_site _ _ _ R1 k Hk) as (id & E & Hid). exists id. split; [by apply R2|]. pose proof (rec_count _ _ _ R2). lia.
    + destruct (rec_site _ _ _ R2 k Hk) as (id & E & Hid). exists id. split; [done|]. pose proof (rec_count _ _ _ R1). lia.
  - assert (Hdiff : forall k1 k2, k1 ∈ omap new_site o1 -> k2 ∈ omap new_site o2 -> getk l2 k1 <> getk l2 k2).
    { intros k1 k2 H1 H2. destruct (rec_site _ _ _ R1 k1 H1) as (id1 & E1 & Hid1). destruct (rec_site _ _ _ R2 k2 H2) as (id2 & E2 & Hid2).
      rewrite (rec_old _ _ _ R2 _ _ E1), E2. intros [= ->]. lia. }
    intros k1 k2 [H1|H1]%elem_of_app [H2|H2]%elem_of_app E.
    + destruct (rec_site _ _ _ R1 k1 H1) as (id1 & E1 & _), (rec_site _ _ _ R1 k2 H2) as (id2 & E2 & _).
      apply (rec_inj _ _ _ R1); [done|done|]. rewrite (rec_old _ _ _ R2 _ _ E1), (rec_old _ _ _ R2 _ _ E2) in E. congruence.
    + exfalso. by eapply Hdiff.
    + exfalso. by eapply (Hdiff k2 k1).
    + by apply (rec_inj _ _ _ R2).
Qed.

(** One more occurrence of a known site. *)
Lemma recorded_known l x name sp t id :
  key x = Some (name, sp) -> target x = Some t -> new_site x = None -> unseen l [x] -> getk l t = Some id ->
  recorded l [x] (Locals_record l name sp id).
Proof.
  intros Hk Ht Hs [_ Hu] Hid. unfold keys in Hu. simpl in Hu. rewrite Hk in Hu.
  assert (Hnone : getk l (name, sp) = None) by (apply Hu; set_solver).
  assert (Ek : forall k, is_Some (getk l k) -> k <> (name, sp)) by (intros k [i E] ->; congruence).
  split; unfold keys, sites; simpl; rewrite ?Hk, ?Hs; try set_solver.
  - intros k i E. rewrite get_record, decide_False; [done|]. apply Ek. by eexists.
  - intros k. rewrite get_record. destruct (decide _) as [->|]; [right; set_solver|auto].
  - intros y k t' ->%list_elem_of_singleton. rewrite Hk, Ht. intros [= <-] [= <-]. rewrite !get_record, (decide_True (P := (name, sp) = (name, sp))) by done.
    rewrite decide_False by (apply Ek; by eexists). rewrite Hid. eauto.
Qed.

(** A new site. *)
Lemma recorded_fresh l name sp :
  unseen l [Binder name sp (name, sp)] ->
  exists id, Locals_intern l name sp = (id, Locals_record (mkLocals (occurrences l) (S (count l))) name sp id) /\
    recorded l [Binder name sp (name, sp)] (Locals_record (mkLocals (occurrences l) (S (count l))) name sp id) /\ id = count l.
Proof.
  intros [_ Hu]. assert (Hnone : getk l (name, sp) = None) by (apply Hu; unfold keys; simpl; set_solver).
  exists (count l). unfold Locals_intern. change (Locals_get l name sp) with (getk l (name, sp)). rewrite Hnone.
  split; [done|]. split; [|done].
  assert (G : forall k, getk (mkLocals (occurrences l) (S (count l))) k = getk l k) by done.
  assert (Hsites : sites [Binder name sp (name, sp)] = [(name, sp)]) by (unfold sites; simpl; by rewrite decide_True).
  split; rewrite ?Hsites; unfold keys; simpl; try done.
  - intros k i E. rewrite get_record, G, decide_False; [done|]. congruence.
  - intros k. rewrite get_record, G. destruct (decide _) as [->|]; [right; set_solver|auto].
  - lia.
  - intros x k t ->%list_elem_of_singleton [= <-] [= <-]. rewrite get_record, decide_True by done. eauto.
  - intros k ->%list_elem_of_singleton. exists (count l). rewrite get_record, decide_True by done. split; [done|]. lia.
  - intros k1 k2 ->%list_elem_of_singleton ->%list_elem_of_singleton. done.
Qed.

(** ** Scopes and environments *)

Definition shape {A} (o : option (option A)) : option bool :=
  match o with Some (Some _) => Some true | Some None => Some false | None => None end.

(** The scopes bind the names of [Γ]. *)
Definition shapes (sc : list (gmap string (option nat))) (Γ : Env) : Prop :=
  forall n, shape (lookup_scopes n sc) = shape (Γ !! n).

(** They hold the ids of the sites of [Γ]. *)
Definition ids (l : Locals) (sc : list (gmap string (option nat))) (Γ : Env) : Prop :=
  forall n t, Γ !! n = Some (Some t) -> exists id, lookup_scopes n sc = Some (Some id) /\ getk l t = Some id.

Definition same_names (l : Locals) (am : gmap string nat) (sm : gmap string site) : Prop :=
  forall n, match sm !! n with Some t => exists id, am !! n = Some id /\ getk l t = Some id | None => am !! n = None end.

Definition same_alias (l : Locals) (am : option (gmap string nat)) (sm : option (gmap string site)) : Prop :=
  match am, sm with Some am, Some sm => same_names l am sm | None, None => True | _, _ => False end.

Lemma same_names_later l o l' am sm : recorded l o l' -> same_names l am sm -> same_names l' am sm.
Proof.
  intros R H n. specialize (H n). destruct (sm !! n); [|done]. destruct H as (id & ? & ?). exists id. split; [done|]. by apply R.
Qed.

Lemma same_alias_later l o l' am sm : recorded l o l' -> same_alias l am sm -> same_alias l' am sm.
Proof. intros R. destruct am, sm; try done. by apply (same_names_later _ o). Qed.

Lemma ids_later l o l' sc Γ : recorded l o l' -> ids l sc Γ -> ids l' sc Γ.
Proof. intros R H n t E. destruct (H n t E) as (id & ? & ?). exists id. split; [done|]. by apply R. Qed.

Section Follow.
Context (functions : list string).

Definition known (name : string) : bool := bool_decide (name ∈ functions) || bool_decide (name ∈ PRELUDE_VALUES).

(** The diagnostics of the uses that nothing binds. *)
Definition unbound (o : list Occ) : list Diagnostic :=
  omap (fun x => match x with Use n sp None => if known n then None else Some (not_found n sp) | _ => None end) o.

Definition reported (o : list Occ) (r : option Reporter) : option Reporter :=
  (fun r => mkReporter (diagnostics r ++ unbound o)) <$> r.

Lemma reported_nil r : reported [] r = r.
Proof. destruct r as [[]|]; [|done]. simpl. by rewrite app_nil_r. Qed.

Lemma reported_app o1 o2 r : reported (o1 ++ o2) r = reported o2 (reported o1 r).
Proof. destruct r; [|done]. unfold reported, unbound. simpl. by rewrite omap_app, app_assoc. Qed.

(** Between the states the occurrences [o] were passed; the environment of the
    innermost scope went from [Γ] to [Γ']. *)
Record moved (s s' : Resolver) (Γ Γ' : Env) (o : list Occ) : Prop := {
  mv_tail : tail (scopes s') = tail (scopes s);
  mv_open : scopes s' <> [];
  mv_shape : shapes (scopes s') Γ';
  mv_report : reporter s' = reported o (reporter s);
  mv_ids : ids (locals s) (scopes s) Γ -> unseen (locals s) o ->
    ids (locals s') (scopes s') Γ' /\ recorded (locals s) o (locals s') }.

Definition moves (s : Resolver) (acc : list Occ) (s' : Resolver) (acc' : list Occ) (Γ Γ' : Env) : Prop :=
  exists o, acc' = acc ++ o /\ (scopes s <> [] -> shapes (scopes s) Γ -> moved s s' Γ Γ' o).

(** The same, and the scopes are what they were. *)
Record kept (s s' : Resolver) (Γ : Env) (o : list Occ) : Prop := {
  kp_scopes : scopes s' = scopes s;
  kp_report : reporter s' = reported o (reporter s);
  kp_ids : ids (locals s) (scopes s) Γ -> unseen (locals s) o -> recorded (locals s) o (locals s') }.

Definition keeps (s : Resolver) (acc : list Occ) (s' : Resolver) (acc' : list Occ) (Γ : Env) : Prop :=
  exists o, acc' = acc ++ o /\ (scopes s <> [] -> shapes (scopes s) Γ -> kept s s' Γ o).

Definition sim (a : Resolver -> Resolver) (f : list Occ -> list Occ) (Γ : Env) : Prop :=
  forall s acc, keeps s acc (a s) (f acc) Γ.

Lemma keeps_refl s acc Γ : keeps s acc s acc Γ.
Proof. exists []. split; [by rewrite app_nil_r|]. split; [done|by rewrite reported_nil|]. intros _ _. apply recorded_nil. Qed.

Lemma keeps_moves s acc s' acc' Γ : keeps s acc s' acc' Γ -> moves s acc s' acc' Γ Γ.
Proof.
  intros (o & -> & H). exists o. split; [done|]. intros Hne Hsh. destruct (H Hne Hsh) as [Hsc Hr Hi]. split; rewrite ?Hsc; try done.
  intros Hid Hu. specialize (Hi Hid Hu). split; [by eapply ids_later|done].
Qed.

Lemma moves_trans s acc s1 acc1 s2 acc2 Γ Γ1 Γ2 :
  moves s acc s1 acc1 Γ Γ1 -> moves s1 acc1 s2 acc2 Γ1 Γ2 -> moves s acc s2 acc2 Γ Γ2.
Proof.
  intros (o1 & -> & H1) (o2 & -> & H2). exists (o1 ++ o2). split; [by rewrite app_assoc|]. intros Hne Hsh.
  destruct (H1 Hne Hsh) as [T1 O1 S1 R1 I1]. destruct (H2 O1 S1) as [T2 O2 S2 R2 I2]. split.
  - congruence.
  - done.
  - done.
  - by rewrite R2, R1, reported_app.
  - intros Hid Hu. destruct (I1 Hid (unseen_app _ _ _ Hu)) as [Hid1 Rec1].
    destruct (I2 Hid1 (unseen_next _ _ _ _ Hu Rec1)) as [Hid2 Rec2]. split; [done|]. by eapply recorded_app.
Qed.

Lemma keeps_trans s acc s1 acc1 s2 acc2 Γ : keeps s acc s1 acc1 Γ -> keeps s1 acc1 s2 acc2 Γ -> keeps s acc s2 acc2 Γ.
Proof.
  intros (o1 & -> & H1) (o2 & -> & H2). exists (o1 ++ o2). split; [by rewrite app_assoc|]. intros Hne Hsh.
  destruct (H1 Hne Hsh) as [T1 R1 I1]. rewrite <- T1 in Hne, Hsh. destruct (H2 Hne Hsh) as [T2 R2 I2]. split.
  - congruence.
  - by rewrite R2, R1, reported_app.
  - intros Hid Hu. specialize (I1 Hid (unseen_app _ _ _ Hu)). eapply recorded_app; [done|].
    apply I2; [|by eapply unseen_next]. rewrite T1. by eapply ids_later.
Qed.

(** Adding to a run. *)
Lemma after_sim s0 acc0 s acc a f Γ : keeps s0 acc0 s acc Γ -> sim a f Γ -> keeps s0 acc0 (a s) (f acc) Γ.
Proof. intros H Hs. eapply keeps_trans; [exact H|apply Hs]. Qed.

Lemma after_each {A} (g : A -> Resolver -> Resolver) (f : A -> list Occ -> list Occ) l s0 acc0 s acc Γ :
  keeps s0 acc0 s acc Γ -> Forall (fun x => sim (g x) (f x) Γ) l -> keeps s0 acc0 (for_each g l s) (for_each f l acc) Γ.
Proof.
  intros H HF. revert s acc H. induction HF as [|x l Hx HF IH]; intros s acc H; [done|]. simpl. apply IH. by apply after_sim.
Qed.

Lemma after_some {A} (g : A -> Resolver -> Resolver) (f : A -> list Occ -> list Occ) o s0 acc0 s acc Γ :
  keeps s0 acc0 s acc Γ -> (forall x, o = Some x -> sim (g x) (f x) Γ) -> keeps s0 acc0 (if_some g o s) (if_some f o acc) Γ.
Proof. intros H Hs. destruct o as [x|]; [|done]. simpl. apply after_sim; auto. Qed.

Lemma moves_keeps s0 acc0 s acc s' acc' Γ Γ' :
  moves s0 acc0 s acc Γ Γ' -> keeps s acc s' acc' Γ' -> moves s0 acc0 s' acc' Γ Γ'.
Proof. intros H Hk. eapply moves_trans; [exact H|by apply keeps_moves]. Qed.

(** A scope is opened and closed. *)
Lemma scoped s acc s' acc' Γ Γ' : moves (push_scope s) acc s' acc' Γ Γ' -> keeps s acc (pop_scope s') acc' Γ.
Proof.
  intros (o & -> & H). exists o. split; [done|]. intros Hne Hsh. destruct H as [T O S R I].
  - done.
  - intros n. simpl. rewrite lookup_empty. apply Hsh.
  - split; [exact T|exact R|]. intros Hid Hu. apply I; [|done]. intros n t E. simpl. rewrite lookup_empty. by apply Hid.
Qed.

(** ** Patterns *)

Lemma unbound_binders l : unbound (map binder_occ l) = [].
Proof. by induction l as [|[[n sp] t] l IH]. Qed.

(** Binding the names [l], with aliases [am] and the names [bc] bound so far. *)
Record bound (s s' : Resolver) (Γ : Env) (l : list (string * Span * site))
    (am : option (gmap string nat)) (sm : option (gmap string site)) (bc bc' : gmap string nat) (bs bs' : gmap string site) : Prop := {
  bd_tail : tail (scopes s') = tail (scopes s);
  bd_open : scopes s' <> [];
  bd_shape : shapes (scopes s') (extend_with l Γ);
  bd_report : reporter s' = reporter s;
  bd_ids : same_alias (locals s) am sm -> same_names (locals s) bc bs -> ids (locals s) (scopes s) Γ ->
    unseen (locals s) (map binder_occ l) ->
    ids (locals s') (scopes s') (extend_with l Γ) /\ recorded (locals s) (map binder_occ l) (locals s') /\ same_names (locals s') bc' bs' }.

Lemma bound_refl s Γ am sm bc bs : scopes s <> [] -> shapes (scopes s) Γ -> bound s s Γ [] am sm bc bc bs bs.
Proof. intros Hne Hsh. split; try done. intros _ Hb Hi _. split; [done|]. split; [apply recorded_nil|done]. Qed.

Lemma extend_with_app l1 l2 Γ : extend_with (l1 ++ l2) Γ = extend_with l2 (extend_with l1 Γ).
Proof. apply fold_left_app. Qed.

Lemma bound_trans s s1 s2 Γ l1 l2 am sm bc bc1 bc2 bs bs1 bs2 :
  bound s s1 Γ l1 am sm bc bc1 bs bs1 -> bound s1 s2 (extend_with l1 Γ) l2 am sm bc1 bc2 bs1 bs2 ->
  bound s s2 Γ (l1 ++ l2) am sm bc bc2 bs bs2.
Proof.
  intros [T1 O1 S1 R1 I1] [T2 O2 S2 R2 I2]. split; rewrite ?extend_with_app; try congruence.
  rewrite map_app. intros Ha Hb Hi Hu. destruct (I1 Ha Hb Hi (unseen_app _ _ _ Hu)) as (Hi1 & Rec1 & Hb1).
  destruct (I2 (same_alias_later _ _ _ _ _ Rec1 Ha) Hb1 Hi1 (unseen_next _ _ _ _ Hu Rec1)) as (Hi2 & Rec2 & Hb2).
  split; [done|]. split; [by eapply recorded_app|done].
Qed.

Lemma insert_scope name id top rest n :
  lookup_scopes n (<[name := Some id]> top :: rest) = if decide (n = name) then Some (Some id) else lookup_scopes n (top :: rest).
Proof.
  simpl. destruct (decide (n = name)) as [->|]; [by rewrite lookup_insert_eq|by rewrite lookup_insert_ne].
Qed.

Lemma same_names_insert l am sm name id t :
  same_names l am sm -> getk l t = Some id -> same_names l (<[name := id]> am) (<[name := t]> sm).
Proof.
  intros H E n. destruct (decide (n = name)) as [->|]; [rewrite !lookup_insert_eq; eauto|]. rewrite !lookup_insert_ne by done. apply H.
Qed.

Lemma ids_insert l sc top rest Γ name id t :
  sc = <[name := Some id]> top :: rest -> ids l (top :: rest) Γ -> getk l t = Some id -> ids l sc (<[name := Some t]> Γ).
Proof.
  intros -> H E n t'. rewrite insert_scope. destruct (decide (n = name)) as [->|].
  - rewrite lookup_insert_eq. intros [= <-]. eauto.
  - rewrite lookup_insert_ne by done. apply H.
Qed.

(** The id that [bind] takes, and the locals after it. *)
Lemma bind_locals l name sp am sm :
  same_alias l am sm -> unseen l [Binder name sp (site_of sm name sp)] ->
  let r := match (a ← am; a !! name) with
           | Some id => (id, Locals_record l name sp id)
           | None => Locals_intern l name sp
           end in
  recorded l [Binder name sp (site_of sm name sp)] r.2 /\ getk r.2 (site_of sm name sp) = Some r.1.
Proof.
  intros Ha Hu. unfold site_of in *.
  assert (Hcase : match (a ← sm; a !! name) with
    | Some t => exists id, (a ← am; a !! name) = Some id /\ getk l t = Some id | None => (a ← am; a !! name) = None end).
  { destruct am as [am|], sm as [sm|]; try done. exact (Ha name). }
  destruct (a ← sm; a !! name) as [t|]; simpl in *.
  - destruct Hcase as (id & -> & Hid). simpl.
    assert (Hne : t <> (name, sp)). { intros ->. destruct Hu as [_ Hu]. rewrite Hu in Hid; [done|]. unfold keys. simpl. set_solver. }
    assert (Hrec : recorded l [Binder name sp t] (Locals_record l name sp id)).
    { apply (recorded_known _ _ _ _ t); try done. simpl. by rewrite decide_False. }
    split; [done|]. by apply Hrec.
  - rewrite Hcase. destruct (recorded_fresh l name sp Hu) as (id & -> & Hrec & _). split; [done|]. simpl. by rewrite get_record, decide_True.
Qed.

Lemma bind_bound name sp am sm bc bs s Γ :
  scopes s <> [] -> shapes (scopes s) Γ ->
  bound s (bind name sp am bc s).2 Γ [(name, sp, site_of sm name sp)] am sm bc (bind name sp am bc s).1 bs (<[name := site_of sm name sp]> bs).
Proof.
  intros Hne Hsh. unfold bind. destruct (scopes s) as [|top rest] eqn:Esc; [done|].
  pose proof (fun H1 H2 => bind_locals (locals s) name sp am sm H1 H2) as Hloc.
  destruct (match _ with Some id => _ | None => _ end) as [id l'] eqn:El. cbn [fst snd] in *.
  split; cbn [fst snd scopes reporter locals]; rewrite ?Esc; try done.
  - intros n. rewrite insert_scope. simpl. destruct (decide (n = name)) as [->|].
    + by rewrite lookup_insert_eq.
    + rewrite lookup_insert_ne by done. exact (Hsh n).
  - intros Ha Hb Hi Hu. destruct (Hloc Ha Hu) as [Hrec Hid]. cbn [fst snd] in *. split; [|split; [done|]].
    + eapply ids_insert; [done|by eapply ids_later|done].
    + apply same_names_insert; [by eapply same_names_later|done].
Qed.

Lemma bound_discard s s' Γ l am sm bc bc' bs bs' x y :
  bound s s' Γ l am sm ∅ x ∅ y -> bc' = bc -> bs' = bs -> bound s s' Γ l am sm bc bc' bs bs'.
Proof.
  intros [T O S R I] -> ->. split; try done. intros Ha Hb Hi Hu.
  destruct (I Ha (fun n => eq_refl) Hi Hu) as (Hi' & Rec & _). split; [done|]. split; [done|]. by eapply same_names_later.
Qed.

Lemma same_names_union l am sm am' sm' : same_names l am sm -> same_names l am' sm' -> same_names l (am ∪ am') (sm ∪ sm').
Proof.
  intros H H' n. specialize (H n). specialize (H' n). rewrite !lookup_union. destruct (sm !! n) as [t|]; simpl.
  - destruct H as (id & -> & ?). destruct (sm' !! n), (am' !! n); simpl; eauto.
  - rewrite H. destruct (sm' !! n); simpl; [|by rewrite H']. destruct H' as (id & -> & ?). simpl. eauto.
Qed.

Lemma bound_or s s1 s2 Γ l1 l2 am sm f fs bc bs :
  bound s s1 Γ l1 am sm ∅ f ∅ fs -> bound s1 s2 (extend_with l1 Γ) l2 (Some f) (Some fs) f f fs fs ->
  bound s s2 Γ (l1 ++ l2) am sm bc (f ∪ bc) bs (fs ∪ bs).
Proof.
  intros [T1 O1 S1 R1 I1] [T2 O2 S2 R2 I2]. split; rewrite ?extend_with_app; try congruence.
  rewrite map_app. intros Ha Hb Hi Hu. destruct (I1 Ha (fun n => eq_refl) Hi (unseen_app _ _ _ Hu)) as (Hi1 & Rec1 & Hb1).
  destruct (I2 Hb1 Hb1 Hi1 (unseen_next _ _ _ _ Hu Rec1)) as (Hi2 & Rec2 & Hb2).
  pose proof (recorded_app _ _ _ _ _ Rec1 Rec2) as Rec. split; [done|]. split; [done|].
  apply same_names_union; [done|]. by eapply same_names_later.
Qed.

Definition pat_binds (p : Pat) : Prop :=
  forall sm, exists l, (forall acc, pat_occ sm p acc = acc ++ l) /\
    forall am bc bs s Γ, scopes s <> [] -> shapes (scopes s) Γ ->
      bound s (bind_pattern p am bc s).2 Γ l am sm bc (bind_pattern p am bc s).1 bs (pat_bound sm p bs).

(** The fields of a pattern, in order. *)
Lemma fields_bind {A} (get : A -> Pat) fields :
  Forall (fun x => pat_binds (get x)) fields -> forall sm, exists l,
    (forall acc, for_each (fun x => pat_occ sm (get x)) fields acc = acc ++ l) /\
    forall am bc bs s Γ, scopes s <> [] -> shapes (scopes s) Γ ->
      let r := fold_left (fun r x => bind_pattern (get x) am r.1 r.2) fields (bc, s) in
      bound s r.2 Γ l am sm bc r.1 bs (for_each (fun x => pat_bound sm (get x)) fields bs).
Proof.
  intros HF sm. induction HF as [|x fields Hx HF (l2 & E2 & H2)].
  - exists []. split; [intros; by rewrite app_nil_r|]. intros. by apply bound_refl.
  - destruct (Hx sm) as (l1 & E1 & H1). exists (l1 ++ l2). split.
    + intros acc. simpl. rewrite E1, app_assoc. apply E2.
    + intros am bc bs s Γ Hne Hsh. pose proof (H1 am bc bs s Γ Hne Hsh) as B1. cbn [fold_left fst snd for_each] in *.
      eapply bound_trans; [exact B1|]. destruct (bind_pattern (get x) am bc s) as [bc1 s1]. cbn [fst snd] in *.
      apply H2; [exact (bd_open _ _ _ _ _ _ _ _ _ _ B1)|exact (bd_shape _ _ _ _ _ _ _ _ _ _ B1)].
Qed.

(** The alternatives after the first. *)
Lemma alternatives_bind rest :
  Forall pat_binds rest -> forall fs, exists l,
    (forall acc, for_each (pat_occ (Some fs)) rest acc = acc ++ l) /\
    forall f bc bs s Γ, scopes s <> [] -> shapes (scopes s) Γ ->
      bound s (fold_left (fun s alt => (bind_pattern alt (Some f) ∅ s).2) rest s) Γ l (Some f) (Some fs) bc bc bs bs.
Proof.
  intros HF fs. induction HF as [|x rest Hx HF (l2 & E2 & H2)].
  - exists []. split; [intros; by rewrite app_nil_r|]. intros. by apply bound_refl.
  - destruct (Hx (Some fs)) as (l1 & E1 & H1). exists (l1 ++ l2). split.
    + intros acc. simpl. rewrite E1, app_assoc. apply E2.
    + intros f bc bs s Γ Hne Hsh. pose proof (H1 (Some f) ∅ ∅ s Γ Hne Hsh) as B1. cbn [fold_left].
      eapply bound_trans; [by eapply bound_discard|].
      apply H2; [exact (bd_open _ _ _ _ _ _ _ _ _ _ B1)|exact (bd_shape _ _ _ _ _ _ _ _ _ _ B1)].
Qed.

Lemma pattern_binds p : pat_binds p.
Proof.
  induction p as [name sp|sp|l sp|items H sp|pth fields H rest sp|pth fields H sp|a Ha b Hb i sp|alts H sp|name p Hp sp|m p Hp sp] using Pat_ind; intros sm.
  - eexists. split; [done|]. intros. apply bind_bound; done.
  - exists []. split; [intros; by rewrite app_nil_r|]. intros. by apply bound_refl.
  - exists []. split; [intros; by rewrite app_nil_r|]. intros. by apply bound_refl.
  - apply list_all_Forall in H. exact (fields_bind (fun x => x) items H sm).
  - apply list_all_snd in H. exact (fields_bind snd fields H sm).
  - apply list_all_Forall in H. exact (fields_bind (fun x => x) fields H sm).
  - destruct (fields_bind (fun x => x) [a; b] ltac:(by repeat constructor) sm) as (l & E & Hl). exists l. split; [exact E|].
    intros am bc bs s Γ Hne Hsh. specialize (Hl am bc bs s Γ Hne Hsh). simpl in *. by destruct (bind_pattern a am bc s).
  - apply list_all_Forall in H. destruct H as [|a rest Ha HF].
    + exists []. split; [intros; by rewrite app_nil_r|]. intros. simpl. rewrite (left_id_L ∅ (∪)). by apply bound_refl.
    + destruct (Ha sm) as (l1 & E1 & H1). destruct (alternatives_bind rest HF (pat_bound sm a ∅)) as (l2 & E2 & H2).
      exists (l1 ++ l2). split; [intros acc; simpl; rewrite E1, E2; by rewrite app_assoc|].
      intros am bc bs s Γ Hne Hsh. pose proof (H1 am ∅ ∅ s Γ Hne Hsh) as B1. cbn [bind_pattern pat_bound].
      destruct (bind_pattern a am ∅ s) as [f s1]. cbn [fst snd] in *. eapply bound_or; [exact B1|].
      apply H2; [exact (bd_open _ _ _ _ _ _ _ _ _ _ B1)|exact (bd_shape _ _ _ _ _ _ _ _ _ _ B1)].
  - destruct (Hp sm) as (l & E & Hl). exists ((name, sp, site_of sm name sp) :: l). split.
    + intros acc. simpl. by rewrite E, <- app_assoc.
    + intros am bc bs s Γ Hne Hsh. pose proof (bind_bound name sp am sm bc bs s Γ Hne Hsh) as B1. cbn [bind_pattern pat_bound].
      destruct (bind name sp am bc s) as [bc1 s1]. cbn [fst snd] in *. eapply (bound_trans _ _ _ _ [_]); [exact B1|].
      apply Hl; [exact (bd_open _ _ _ _ _ _ _ _ _ _ B1)|exact (bd_shape _ _ _ _ _ _ _ _ _ _ B1)].
  - exact (Hp sm).
Qed.

(** ** The traversal *)

Lemma after_bind s0 acc0 s acc Γ Γ1 p :
  moves s0 acc0 s acc Γ Γ1 -> moves s0 acc0 (bind_fresh p s) (bind_occ p acc) Γ (extend p Γ1).
Proof.
  intros H. eapply moves_trans; [exact H|]. destruct (pattern_binds p None) as (l & E & Hl).
  assert (El : binders p = l) by exact (E []). unfold bind_occ, extend. rewrite El. eexists. split; [done|].
  intros Hne Hsh. destruct (Hl None ∅ ∅ s Γ1 Hne Hsh) as [T O S R I]. split; try done.
  - unfold bind_fresh. rewrite R. unfold reported. rewrite unbound_binders. destruct (reporter s) as [[]|]; [|done]. simpl. by rewrite app_nil_r.
  - intros Hi Hu. destruct (I Logic.I (fun n => eq_refl) Hi Hu) as (? & ? & _). done.
Qed.

Lemma reported_silent x r : unbound [x] = [] -> r = reported [x] r.
Proof. unfold reported. intros ->. destruct r as [[]|]; [|done]. simpl. by rewrite app_nil_r. Qed.

Lemma recorded_none l x : key x = None -> new_site x = None -> recorded l [x] l.
Proof.
  intros Hk Hs. split; unfold keys, sites; simpl; rewrite ?Hk, ?Hs; try set_solver; auto.
Qed.

Lemma ident_sim name sp Γ : sim (ident functions name sp) (fun acc => acc ++ [Use name sp (Γ !! name)]) Γ.
Proof.
  intros s acc. eexists. split; [done|]. intros Hne Hsh. specialize (Hsh name). unfold ident.
  destruct (Γ !! name) as [[t|]|] eqn:EΓ; destruct (lookup_scopes name (scopes s)) as [[id|]|] eqn:El; try done.
  - split; [done|by apply reported_silent|].
    intros Hi Hu. destruct (Hi name t EΓ) as (id' & E & Hid). simplify_eq. simpl. by apply (recorded_known _ _ _ _ t).
  - split; [done|by apply reported_silent|]. intros _ _. by apply recorded_none.
  - fold (known name). split.
    + by destruct (known name), (reporter s).
    + unfold reported, unbound. cbn [omap list_omap]. destruct (known name).
      * destruct (reporter s) as [[]|]; simpl; by rewrite ?app_nil_r.
      * destruct (reporter s) as [r|] eqn:Er; simpl; by rewrite ?Er.
    + intros _ _. assert (El' : forall b : bool, locals (if b then s else match reporter s with
        | Some r => mkResolver (Some (Reporter_push r (not_found name sp))) (locals s) (scopes s) | None => s end) = locals s).
      { intros []; [done|]. by destruct (reporter s). }
      rewrite El'. by apply recorded_none.
Qed.

(** What is shown of each construct. *)
Record follows_expr (e : Expr) : Prop := {
  fe_expr : forall Γ, sim (expr functions e) (occ Γ e) Γ;
  fe_splice : forall Γ, sim (splice_expr functions e) (occ_splice_expr Γ e) Γ;
  fe_template : forall Γ, sim (template_expr functions e) (occ_template_expr Γ e) Γ;
  fe_value : match e with EAssign _ v _ => forall Γ, sim (expr functions v) (occ Γ v) Γ | _ => True end }.
Record follows_block (b : Block) : Prop := {
  fb_block : forall Γ, sim (block functions b) (occ_block Γ b) Γ;
  fb_splice : forall Γ, sim (splice_block functions b) (occ_splice_block Γ b) Γ;
  fb_template : forall Γ, sim (template_block functions b) (occ_template_block Γ b) Γ }.
Record follows_stmt (st : Stmt) : Prop := {
  fs_stmt : forall s0 acc0 s acc Γ0 Γ, moves s0 acc0 s acc Γ0 Γ ->
    moves s0 acc0 (stmt functions st s) (occ_stmt Γ st acc) Γ0 (stmt_env st Γ);
  fs_splice : forall Γ, sim (splice_stmt functions st) (occ_splice_stmt Γ st) Γ;
  fs_template : forall Γ, sim (template_stmt functions st) (occ_template_stmt Γ st) Γ }.
Definition follows_ty (t : Ty) : Prop := forall Γ, sim (template_ty functions t) (occ_template_ty Γ t) Γ.
Record follows_fn (d : FnDecl) : Prop := {
  ff_splice : forall Γ, sim (splice_fn_decl functions d) (occ_splice_fn_decl Γ d) Γ;
  ff_template : forall Γ, sim (template_fn_decl functions d) (occ_template_fn_decl Γ d) Γ }.
Record follows_item (i : Item) : Prop := {
  fi_splice : forall Γ, sim (splice_item functions i) (occ_splice_item Γ i) Γ;
  fi_template : forall Γ, sim (template_item functions i) (occ_template_item Γ i) Γ }.

Definition follows_arm (a : MatchArm) : Prop :=
  let 'mkMatchArm _ g b _ := a in (forall x, g = Some x -> follows_expr x) /\ follows_expr b.
Definition follows_closure_param (c : ClosureParam) : Prop := let 'mkClosureParam _ t _ := c in forall x, t = Some x -> follows_ty x.
Definition follows_select_arm (a : SelectArm) : Prop := let 'mkSelectArm op b _ := a in follows_expr op /\ follows_block b.
Definition follows_quote (q : QuoteBody) : Prop := match q with QItem i => follows_item i | QExpr e => follows_expr e end.
Definition follows_param (p : Param) : Prop := let 'mkParam _ t _ := p in follows_ty t.
Definition follows_const (c : ConstDecl) : Prop := let 'mkConstDecl _ _ v _ _ := c in follows_expr v.
Definition follows_struct (d : StructDecl) : Prop :=
  let 'mkStructDecl _ _ _ ms cs _ _ _ _ := d in Forall follows_fn ms /\ Forall follows_const cs.
Definition follows_enum (d : EnumDecl) : Prop :=
  let 'mkEnumDecl _ _ _ ms cs _ _ _ := d in Forall follows_fn ms /\ Forall follows_const cs.
Definition follows_methods (d : MethodsBlock) : Prop :=
  let 'mkMethodsBlock _ t ms cs _ := d in follows_ty t /\ Forall follows_fn ms /\ Forall follows_const cs.

Ltac of_part :=
  first [ by (apply fe_expr; auto) | by (apply fe_splice; auto) | by (apply fe_template; auto) | by (apply fb_block; auto)
        | by (apply fb_splice; auto) | by (apply fb_template; auto) | by (apply fs_splice; auto) | by (apply fs_template; auto)
        | by (apply ff_splice; auto) | by (apply ff_template; auto) | by (apply fi_splice; auto) | by (apply fi_template; auto)
        | by auto | by (unfold follows_closure_param, follows_param, follows_const, follows_ty in *; eauto) ].

Ltac of_parts :=
  match goal with
  | |- sim _ _ _ => of_part
  | |- forall x, _ = Some x -> sim _ _ _ => let x := fresh "x" in let E := fresh "E" in intros x E; of_part
  | H : Forall ?P ?l |- Forall _ ?l => eapply Forall_impl; [exact H|]; let x := fresh "x" in let Hx := fresh "Hx" in intros x Hx; of_part
  end.

(** Follows the traversal from its end to its start. *)
Ltac follow_step :=
  lazymatch goal with
  | |- keeps ?s ?acc ?s ?acc _ => apply keeps_refl
  | |- keeps _ _ (for_each _ _ _) _ _ => eapply after_each; [|try of_parts]
  | |- keeps _ _ (if_some _ _ _) _ _ => eapply after_some; [|try of_parts]
  | |- keeps _ _ (expr functions ?x ?s) (occ ?Γ ?x ?acc) _ => apply (after_sim _ _ s acc (expr functions x) (occ Γ x)); [|of_part]
  | |- keeps _ _ (block functions ?x ?s) (occ_block ?Γ ?x ?acc) _ => apply (after_sim _ _ s acc (block functions x) (occ_block Γ x)); [|of_part]
  | |- keeps _ _ (?f functions ?x ?s) (?g ?Γ ?x ?acc) _ => apply (after_sim _ _ s acc (f functions x) (g Γ x)); [|of_part]
  end.

Ltac follow := repeat follow_step.

Ltac expr_case :=
  intros; parts; split; [intros Γ s acc; cbn [expr occ]; follow
    |intros Γ s acc; cbn [splice_expr occ_splice_expr walk_expr visit_expr visit_block visit_item visit_literal]; follow
    |intros Γ s acc; cbn [template_expr occ_template_expr walk_expr visit_expr visit_block visit_item visit_literal]; follow
    |try done; try (intros; by apply fe_expr)].

Ltac splice_case := cbn [splice_expr occ_splice_expr walk_expr visit_expr visit_block visit_item visit_literal].
Ltac template_case := cbn [template_expr occ_template_expr walk_expr visit_expr visit_block visit_item visit_literal].

(** The inside of a scope. *)
Lemma inside s acc Γ : moves s acc s acc Γ Γ.
Proof. apply keeps_moves, keeps_refl. Qed.

Lemma ident_follows name sp : follows_expr (EIdent name sp).
Proof. split; [intros Γ; apply ident_sim|intros Γ s acc; apply keeps_refl..|done]. Qed.

Lemma match_follows x arms sp : follows_expr x -> Forall follows_arm arms -> follows_expr (EMatch x arms sp).
Proof.
  intros Hx Ha. split; [intros Γ s acc|intros Γ s acc; splice_case|intros Γ s acc; template_case|done].
  - cbn [expr occ]. follow. eapply Forall_impl; [exact Ha|]. intros [p g b sp'] [Hg Hb] s' acc'.
    eapply scoped, moves_keeps; [apply after_bind, inside|]. follow.
  - follow. eapply Forall_impl; [exact Ha|]. intros [p g b sp'] [Hg Hb] s' acc'. follow.
  - follow. eapply Forall_impl; [exact Ha|]. intros [p g b sp'] [Hg Hb] s' acc'. follow.
Qed.

Lemma call_follows x tys args sp :
  follows_expr x -> Forall follows_ty tys -> Forall follows_expr args -> follows_expr (ECall x tys args sp).
Proof.
  intros Hx Ht Ha. split; [intros Γ s acc|intros Γ s acc; splice_case|intros Γ s acc; template_case|done].
  - cbn [expr occ]. follow.
  - assert (Hw : keeps s acc (for_each (splice_expr functions) args (splice_expr functions x s))
      (for_each (occ_splice_expr Γ) args (occ_splice_expr Γ x acc)) Γ) by follow.
    destruct x; try exact Hw. destruct args as [|base [|field [|]]]; try exact Hw.
    destruct (bool_decide _); [|exact Hw]. inversion Ha as [|? ? Hb Ha']; subst. inversion Ha'; subst. follow.
  - follow.
Qed.

Lemma closure_follows params b sp : Forall follows_closure_param params -> follows_expr b -> follows_expr (EClosure params b sp).
Proof.
  intros Hp Hb. split; [intros Γ s acc|intros Γ s acc; splice_case|intros Γ s acc; template_case|done].
  - cbn [expr occ]. eapply scoped, moves_keeps; [|apply (fe_expr _ Hb)].
    assert (Hm : forall s0 acc0 s acc Γ0 Γ, moves s0 acc0 s acc Γ0 Γ ->
      moves s0 acc0 (for_each (fun p => let 'mkClosureParam pattern _ _ := p in bind_fresh pattern) params s)
        (for_each (fun p => let 'mkClosureParam p _ _ := p in bind_occ p) params acc) Γ0
        (fold_left (fun Γ '(mkClosureParam p _ _) => extend p Γ) params Γ)).
    { clear. induction params as [|[p t sp] params IH]; intros; [done|]. simpl. by apply IH, after_bind. }
    apply Hm, inside.
  - follow.
  - follow. eapply Forall_impl; [exact Hp|]. intros [p t sp'] Ht s' acc'. follow.
Qed.

Lemma select_follows arms d sp :
  Forall follows_select_arm arms -> (forall b, d = Some b -> follows_block b) -> follows_expr (ESelect arms d sp).
Proof.
  intros Ha Hd. split; [intros Γ s acc|intros Γ s acc; splice_case|intros Γ s acc; template_case|done].
  - cbn [expr occ]. follow. eapply Forall_impl; [exact Ha|]. intros [op b sp'] [Hop Hb] s' acc'.
    assert (Hw : keeps s' acc' (pop_scope (block functions b (expr functions op (push_scope s')))) (occ_block Γ b (occ Γ op acc')) Γ).
    { eapply scoped, moves_keeps; [apply inside|]. follow. }
    destruct op as [| | | | | | | | | | | | |target value sp2| | | | | | | | | | | | | | | | |]; try exact Hw. pose proof (fe_value _ Hop) as Hv.
    assert (Hplain : keeps s' acc' (pop_scope (block functions b (expr functions value (push_scope s')))) (occ_block Γ b (occ Γ value acc')) Γ).
    { eapply scoped, moves_keeps; [apply inside|]. follow. }
    destruct target; try exact Hplain. eapply scoped, moves_keeps; [|apply (fb_block _ Hb)].
    exact (after_bind _ _ _ _ _ _ (PIdent name sp0) (moves_keeps _ _ _ _ _ _ _ _ (inside (push_scope s') acc' Γ) (Hv Γ _ _))).
  - follow. eapply Forall_impl; [exact Ha|]. intros [op b sp'] [Hop Hb] s' acc'. follow.
  - follow. eapply Forall_impl; [exact Ha|]. intros [op b sp'] [Hop Hb] s' acc'. follow.
Qed.

Lemma quote_follows q sp : follows_quote q -> follows_expr (EQuote q sp).
Proof.
  intros Hq. split; [intros Γ s acc; cbn [expr occ]|intros Γ s acc; apply keeps_refl..|done]. destruct q; simpl in Hq; follow.
Qed.

Lemma block_follows stmts tail sp :
  Forall follows_stmt stmts -> (forall e, tail = Some e -> follows_expr e) -> follows_block (mkBlock stmts tail sp).
Proof.
  intros Hs Ht. split; [intros Γ s acc; cbn [block occ_block]| |].
  - assert (Hm : forall l, Forall follows_stmt l -> forall s0 acc0 s acc Γ0 Γ, moves s0 acc0 s acc Γ0 Γ -> exists Γ',
      moves s0 acc0 (if_some (expr functions) tail (for_each (stmt functions) l s))
        ((fix go Γ l acc := match l with [] => if_some (occ Γ) tail acc | st :: l => go (stmt_env st Γ) l (occ_stmt Γ st acc) end) Γ l acc) Γ0 Γ').
    { intros l Hl. induction Hl as [|st l Hst Hl IH]; intros s0 acc0 s1 acc1 Γ0 Γ1 Hm.
      - exists Γ1. eapply moves_keeps; [exact Hm|]. simpl. follow.
      - simpl. by eapply IH, (fs_stmt _ Hst). }
    edestruct (Hm stmts Hs) as [Γ' H']; [apply (inside (push_scope s) acc Γ)|]. exact (scoped _ _ _ _ _ _ H').
  - intros Γ s acc. cbn [splice_block occ_splice_block walk_block visit_expr visit_stmt]. follow.
  - intros Γ s acc. cbn [template_block occ_template_block walk_block visit_expr visit_stmt]. follow.
Qed.

Lemma let_follows m p t v sp :
  (forall x, t = Some x -> follows_ty x) -> (forall x, v = Some x -> follows_expr x) -> follows_stmt (SLet (mkLetStmt m p t v sp)).
Proof.
  intros Ht Hv. split.
  - intros s0 acc0 s acc Γ0 Γ H. cbn [stmt occ_stmt stmt_env]. apply after_bind. eapply moves_keeps; [exact H|]. follow.
  - intros Γ s acc. cbn [splice_stmt occ_splice_stmt walk_stmt visit_expr]. follow.
  - intros Γ s acc. cbn [template_stmt occ_template_stmt walk_stmt visit_expr]. destruct t; follow.
Qed.

Lemma stmt_expr_follows e : follows_expr e -> follows_stmt (SExpr e).
Proof.
  intros He. split; [intros s0 acc0 s acc Γ0 Γ H; cbn [stmt occ_stmt stmt_env]; eapply moves_keeps; [exact H|]; follow| |];
    intros Γ s acc; [apply (fe_splice _ He)|apply (fe_template _ He)].
Qed.

Lemma stmt_item_follows i : follows_item i -> follows_stmt (SItem i).
Proof. intros Hi. split; [done|intros Γ s acc; apply (fi_splice _ Hi)|intros Γ s acc; apply (fi_template _ Hi)]. Qed.

Lemma fn_follows n ns g ps rt b p u i c x a sp :
  (forall e, ns = Some e -> follows_expr e) -> Forall follows_param ps -> (forall t, rt = Some t -> follows_ty t) -> follows_block b ->
  follows_fn (mkFnDecl n ns g ps rt b p u i c x a sp).
Proof.
  intros Hn Hp Ht Hb. split; intros Γ s acc.
  - cbn [splice_fn_decl occ_splice_fn_decl walk_fn_decl visit_block]. follow.
  - cbn [template_fn_decl occ_template_fn_decl walk_fn_decl visit_block]. follow.
    eapply Forall_impl; [exact Hp|]. intros [pat t sp'] Ht'. exact (Ht' Γ).
Qed.

Ltac item_case :=
  split; intros Γ s acc;
  [cbn [splice_item occ_splice_item walk_item visit_expr visit_fn_decl]
  |cbn [template_item occ_template_item walk_item visit_expr visit_fn_decl]]; unfold walk_members; cbn [visit_expr visit_fn_decl]; follow.

Ltac consts_case H := eapply Forall_impl; [exact H|]; intros [? ? v ? ?] Hv; of_part.

Lemma item_follows i :
  match i with
  | IFn d => follows_fn d
  | IStruct d => follows_struct d
  | IEnum d => follows_enum d
  | IMethods d => follows_methods d
  | IConst c => follows_const c
  | ITrait _ | IUse _ | IExtern _ => True
  end -> follows_item i.
Proof.
  destruct i as [d|[]|[]|d|[]|d|[]|d]; simpl; intros H; try (item_case; fail).
  - destruct H as [Hm Hc]. item_case; consts_case Hc.
  - destruct H as [Hm Hc]. item_case; consts_case Hc.
  - destruct H as (Ht & Hm & Hc). item_case; consts_case Hc.
Qed.

Ltac ty_case := intros; parts; intros Γ s acc; cbn [template_ty occ_template_ty]; follow.

Lemma traversal_follows :
  (forall e, follows_expr e) /\ (forall b, follows_block b).
Proof.
  cut ((forall e, follows_expr e) /\ (forall b, follows_block b) /\ (forall s, follows_stmt s) /\ (forall l, follows_stmt (SLet l)) /\
    (forall a, follows_arm a) /\ (forall c, follows_closure_param c) /\ (forall a, follows_select_arm a) /\ (forall q, follows_quote q) /\
    (forall t, follows_ty t) /\ (forall k : GenericParamKind, True) /\ (forall g : GenericParam, True) /\ (forall p, follows_param p) /\
    (forall d, follows_fn d) /\ (forall d : FnSignature, True) /\ (forall c, follows_const c) /\ (forall d : FieldDecl, True) /\
    (forall d : AssocTypeDecl, True) /\ (forall d, follows_struct d) /\ (forall v : VariantFields, True) /\ (forall v : EnumVariant, True) /\
    (forall d, follows_enum d) /\ (forall d : TraitDecl, True) /\ (forall d, follows_methods d) /\ (forall d : ExternBlock, True) /\
    (forall i, follows_item i)); [tauto|].
  apply Syntax_ind; try (expr_case; fail); try (ty_case; fail); try done;
    intros; parts; auto using ident_follows, match_follows, call_follows, closure_follows, select_follows, quote_follows, block_follows,
      let_follows, stmt_expr_follows, stmt_item_follows, fn_follows; try (by apply item_follows); simpl; auto.
Qed.

(** ** Functions and modules *)

(** Between two functions no scope is open. *)
Definition passes (s : Resolver) (acc : list Occ) (s' : Resolver) (acc' : list Occ) : Prop :=
  exists o, acc' = acc ++ o /\ reporter s' = reported o (reporter s) /\ (unseen (locals s) o -> recorded (locals s) o (locals s')).

Lemma passes_refl s acc : passes s acc s acc.
Proof. exists []. rewrite app_nil_r, reported_nil. split; [done|]. split; [done|]. intros _. apply recorded_nil. Qed.

Lemma passes_trans s acc s1 acc1 s2 acc2 : passes s acc s1 acc1 -> passes s1 acc1 s2 acc2 -> passes s acc s2 acc2.
Proof.
  intros (o1 & -> & R1 & I1) (o2 & -> & R2 & I2). exists (o1 ++ o2). split; [by rewrite app_assoc|].
  split; [by rewrite R2, R1, reported_app|]. intros Hu. pose proof (I1 (unseen_app _ _ _ Hu)) as Rec1.
  eapply recorded_app; [done|]. apply I2. by eapply unseen_next.
Qed.

Lemma passes_each {A} (g : A -> Resolver -> Resolver) (f : A -> list Occ -> list Occ) l s acc :
  (forall x s acc, passes s acc (g x s) (f x acc)) -> passes s acc (for_each g l s) (for_each f l acc).
Proof.
  intros H. revert s acc. induction l as [|x l IH]; intros s acc; [apply passes_refl|]. simpl. by eapply passes_trans; [apply H|apply IH].
Qed.

Lemma const_shapes (l : list GenericParam) :
  shapes [list_to_map (map (fun p => (gp_name p, None)) l)] (list_to_map (map (fun p => (gp_name p, None)) l)) /\
  forall n t, (list_to_map (map (fun p => (gp_name p, None)) l) : Env) !! n <> Some (Some t).
Proof.
  induction l as [|p l [IH1 IH2]].
  - split; [intros n; simpl; by rewrite !lookup_empty|]. intros n t. simpl. by rewrite lookup_empty.
  - split; [intros n; specialize (IH1 n)|intros n t; specialize (IH2 n t)]; simpl in *; destruct (decide (n = gp_name p)) as [->|Hne];
      rewrite ?lookup_insert_eq, ?lookup_insert_ne by done; done.
Qed.

Lemma function_passes owner d s acc : passes s acc (function functions d owner s) (occ_fn owner d acc).
Proof.
  destruct d as [n ns g ps rt b p u i c x a sp]. unfold function, occ_fn, const_env.
  set (l := rev (List.filter _ (owner ++ g))). set (s0 := set_scopes s [_]).
  destruct (const_shapes l) as [Hsh Hno].
  assert (Hm : forall s0 acc0 s acc Γ0 Γ, moves s0 acc0 s acc Γ0 Γ ->
    moves s0 acc0 (for_each (fun p => let 'mkParam pattern _ _ := p in bind_fresh pattern) ps s)
      (for_each (fun p => let 'mkParam p _ _ := p in bind_occ p) ps acc) Γ0
      (fold_left (fun Γ '(mkParam p _ _) => extend p Γ) ps Γ)).
  { clear. induction ps as [|[p t sp] ps IH]; intros; [done|]. simpl. by apply IH, after_bind. }
  pose proof (moves_keeps _ _ _ _ _ _ _ _ (Hm _ _ _ _ _ _ (inside s0 acc (list_to_map (map (fun p => (gp_name p, None)) l))))
    (fb_block _ (proj2 traversal_follows b) _ _ _)) as (o & Eo & Ho).
  exists o. split; [exact Eo|]. destruct Ho as [_ _ _ R I]; [done|exact Hsh|]. split; [exact R|].
  intros Hu. apply I; [|exact Hu]. intros m t Hmt. by destruct (Hno m t).
Qed.

Lemma module_passes m s acc : passes s acc (module functions m s) (module_occ m acc).
Proof.
  apply passes_each. intros i s' acc'. destruct i as [d|[]|[]|d|[]|d|d|d]; try apply passes_refl;
    [apply function_passes|apply passes_each; intros; apply function_passes..].
Qed.
End Follow.

(** ** The properties *)

Lemma unbound_errors functions o : existsb (fun d => bool_decide (d_severity d = Error)) (unbound functions o) = negb (length (unbound functions o) =? 0).
Proof.
  unfold unbound. induction o as [|x o IH]; [done|]. simpl. destruct x as [|n sp [|]]; try done. by destruct (known functions n).
Qed.

(** C7: In the functions and methods it visits, name resolution reports exactly the
    names that nothing binds: the diagnostics it adds are those of the uses
    that lexical scoping leaves unbound and that no declaration, import or
    built-in provides, in the order of the text, and it fails when there is one
    or when an error had been reported before.  It visits the top-level
    functions and the methods of structs, enums and [methods] blocks; names in
    the default methods of traits, in constants and in items inside blocks are
    not looked at, and none of them is reported ([unvisited_bodies]). *)
Theorem resolve_reports_unbound m imported r :
  let missing := unbound (declared_names m ++ imported) (module_occ m []) in
  resolve_module_with_imports m imported r =
  (if has_errors r || negb (length missing =? 0) then inr mkResolveError else inl tt, mkReporter (diagnostics r ++ missing)).
Proof.
  intros missing. unfold resolve_module_with_imports.
  destruct (module_passes (declared_names m ++ imported) m (mkResolver (Some r) Locals_default []) []) as (o & Eo & R & _).
  rewrite R. simpl in *. rewrite <- Eo. fold missing. unfold has_errors. simpl. rewrite existsb_app. unfold missing at 1.
  by rewrite unbound_errors.
Qed.

Fixpoint modules_occ (ms : list Module) (acc : list Occ) : list Occ :=
  match ms with [] => acc | m :: ms => modules_occ ms (module_occ m acc) end.

Lemma modules_recorded ms l acc :
  exists o, modules_occ ms acc = acc ++ o /\ (unseen l o -> recorded l o (fold_left Locals_add_module ms l)).
Proof.
  revert l acc. induction ms as [|m ms IH]; intros l acc.
  - exists []. rewrite app_nil_r. split; [done|]. intros _. apply recorded_nil.
  - destruct (module_passes [] m (mkResolver None l []) acc) as (o1 & E1 & _ & I1).
    destruct (IH (Locals_add_module l m) (module_occ m acc)) as (o2 & E2 & I2). exists (o1 ++ o2). simpl. rewrite E2, E1, app_assoc.
    split; [done|]. intros Hu. pose proof (I1 (unseen_app _ _ _ Hu)) as Rec1. eapply recorded_app; [done|]. apply I2.
    by eapply unseen_next.
Qed.

(** C6: In the functions and methods that the resolver visits, the map of locals is
    lexical scoping: when no two occurrences of locals share both name and
    span, every binding and use of a local has the id of the binding site that
    the scoping rules give it, and bindings of different sites, shadowing ones
    included, have different ids.  The resolver visits the top-level functions
    and the methods of structs, enums and [methods] blocks, not the default
    methods of traits, constants or items inside blocks ([unvisited_bodies]);
    and a bare name in a pattern is a binding to it, also the name of a variant
    ([variant_pattern_binds]). *)
Theorem resolve_locals_lexical ms :
  NoDup (keys (modules_occ ms [])) ->
  (forall x k t, x ∈ modules_occ ms [] -> key x = Some k -> target x = Some t ->
     exists id, Locals_get (resolve_locals ms) k.1 k.2 = Some id /\ Locals_get (resolve_locals ms) t.1 t.2 = Some id) /\
  (forall t1 t2, t1 ∈ sites (modules_occ ms []) -> t2 ∈ sites (modules_occ ms []) -> t1 <> t2 ->
     Locals_get (resolve_locals ms) t1.1 t1.2 <> Locals_get (resolve_locals ms) t2.1 t2.2).
Proof.
  intros Hnd. destruct (modules_recorded ms Locals_default []) as (o & Eo & I). simpl in Eo. rewrite Eo in *.
  destruct I as [_ _ _ Ht _ Hinj]; [split; [done|]|].
  { intros k _. unfold getk, Locals_get. simpl. by rewrite lookup_empty. }
  split.
  - intros x k t Hx Hk Htx. destruct (Ht x k t Hx Hk Htx) as [[id E] E2]. exists id. unfold getk, resolve_locals in *. split; congruence.
  - intros t1 t2 H1 H2 Hne E. by apply Hne, Hinj.
Qed.

(** [fn f(x: i64) { let y = x; match y { 1 | z => z, w => y }; { let y = x; y } }] *)
Definition scoping_sample : Module :=
  let sp n := mkSpan FileId_ROOT n (n + 1) in
  let ty := TPath ["i64"%string] (sp 0) in
  mkModule None
    [IFn (mkFnDecl "f" None [] [mkParam (PIdent "x" (sp 1)) ty (sp 1)] None
       (mkBlock
          [SLet (mkLetStmt false (PIdent "y" (sp 2)) None (Some (EIdent "x" (sp 3))) (sp 2));
           SExpr (EMatch (EIdent "y" (sp 4))
             [mkMatchArm (POr [PTuple [PIdent "z" (sp 5)] (sp 5); PIdent "z" (sp 6)] (sp 5)) None (EIdent "z" (sp 7)) (sp 5);
              mkMatchArm (PIdent "w" (sp 8)) None (EIdent "y" (sp 9)) (sp 8)] (sp 4))]
          (Some (EBlock (mkBlock [SLet (mkLetStmt false (PIdent "y" (sp 10)) None (Some (EIdent "x" (sp 11))) (sp 10))]
             (Some (EIdent "y" (sp 12))) (sp 10)))) (sp 2))
       false false false false None [] (sp 0))] (sp 0).

Lemma resolve_locals_lexical_witness :
  NoDup (keys (modules_occ [scoping_sample] [])) /\
  (forall x k t, x ∈ modules_occ [scoping_sample] [] -> key x = Some k -> target x = Some t ->
     exists id, Locals_get (resolve_locals [scoping_sample]) k.1 k.2 = Some id /\
                Locals_get (resolve_locals [scoping_sample]) t.1 t.2 = Some id) /\
  (forall t1 t2, t1 ∈ sites (modules_occ [scoping_sample] []) -> t2 ∈ sites (modules_occ [scoping_sample] []) -> t1 <> t2 ->
     Locals_get (resolve_locals [scoping_sample]) t1.1 t1.2 <> Locals_get (resolve_locals [scoping_sample]) t2.1 t2.2).
Proof.
  assert (H : NoDup (keys (modules_occ [scoping_sample] []))) by (apply (bool_decide_unpack _); vm_compute; exact I).
  split; [exact H|]. apply (resolve_locals_lexical [scoping_sample]). exact H.
Defined.
