(* ===== verification/ResolveGaps.v ===== *)
(** What name resolution leaves out: programs, read by the lexer and the parser,
    in whose default methods and constants an undeclared name is not reported,
    and a variant that a pattern binds as a local. (The items among the
    statements of a block are not visited either, but the parser builds none.) *)
From S2P Require Import Prelude Span Diag Ast FmtGaps Resolve.

Open Scope nat_scope.
Open Scope string_scope.

(** The number of diagnostics of a text that is read without one *)
Definition resolution_errors (src : string) : option nat :=
  m ← read_clean src; Some (length (diagnostics (resolve_module_with_imports m [] Reporter_new).2)).

(** The ids that a name has in a text, by the spans of its occurrences *)
Definition ids_of (src name : string) (spans : list (nat * nat)) : option (list (option nat)) :=
  m ← read_clean src; Some (map (fun sp => Locals_get (resolve_locals [m]) name (mkSpan FileId_ROOT sp.1 sp.2)) spans).

(** An undeclared name is reported in a function, and nowhere else than in
    functions and methods. *)
Example unvisited_bodies :
  resolution_errors "fn f() -> i64 { ghost }" = Some 1 /\
  resolution_errors "struct S { x: i64, fn f(&self) -> i64 { ghost } }" = Some 1 /\
  resolution_errors "trait T { fn f() -> i64 { ghost } }" = Some 0 /\
  resolution_errors "const N: i64 = ghost;" = Some 0.
Proof. vm_compute. repeat split. Qed.

(** [Empty] in the pattern, bytes 53 to 58, has the id of a local. *)
Example variant_pattern_binds :
  ids_of "enum E { Empty, Full } fn f(e: E) -> i64 { match e { Empty => 1, other => 2 } }" "Empty" [(53, 58)] = Some [Some 1].
Proof. by vm_compute. Qed.
