(* ===== verification/Hir.v ===== *)
(** The definition table: [compiler/paco-hir/src/lib.rs].

    [lower_module] numbers the declarations of a module and records, for each
    function, method, struct and enum, the top-level types it mentions.  The
    model threads the [Lowerer] (the table and the map of top-level names)
    through the syntax; a [DefId] is its number. *)
From S2P Require Import Prelude Span Ast Visit.

Inductive DefKind := Function | Struct | Enum | Field | Variant | Method.

#[export] Instance DefKind_eq_dec : EqDecision DefKind.
Proof. solve_decision. Defined.

Record Def := mkDef { def_id : nat; parent : option nat; def_name : string; def_kind : DefKind; references : list nat }.

Record HirModule := mkHirModule { hir_defs : list Def }.

Record Lowerer := mkLowerer { defs : list Def; top_level : gmap string nat }.

Definition Lowerer_default : Lowerer := mkLowerer [] ∅.

(** [#[derivable(fn_name)]] traits, with the function that derives them. *)
Definition derivable_trait (i : Item) : option (string * string) :=
  match i with
  | ITrait (mkTraitDecl name _ _ _ _ _ attrs _) =>
      attr ← List.find (fun a => bool_decide (attr_name a = "derivable"%string)) attrs;
      match attr_args attr with
      | [ArgPath [fn_name] _] => Some (name, fn_name)
      | _ => None
      end
  | _ => None
  end.

(** A later trait of the same name replaces an earlier one, as [collect] does. *)
Definition derivable_traits (m : Module) : gmap string string :=
  for_each (fun p acc => <[p.1 := p.2]> acc) (omap derivable_trait (items m)) ∅.

Definition fn_name (d : FnDecl) : string := let 'mkFnDecl name _ _ _ _ _ _ _ _ _ _ _ _ := d in name.

Definition field_decl_name (d : FieldDecl) : string := let 'mkFieldDecl name _ _ _ _ := d in name.
Definition variant_name (v : EnumVariant) : string := let 'mkEnumVariant name _ _ _ := v in name.

(** ** The table *)

Definition push_def (par : option nat) (name : string) (kind : DefKind) (s : Lowerer) : nat * Lowerer :=
  let id := length (defs s) in
  (id, mkLowerer (defs s ++ [mkDef id par name kind []]) (top_level s)).

Definition push_top_level (name : string) (kind : DefKind) (s : Lowerer) : nat * Lowerer :=
  let '(id, s) := push_def None name kind s in
  (id, mkLowerer (defs s) (<[name := id]> (top_level s))).

Definition push_child (par : nat) (kind : DefKind) (name : string) (s : Lowerer) : Lowerer :=
  (push_def (Some par) name kind s).2.

Definition resolve_ty (s : Lowerer) (t : Ty) : option nat :=
  match t with
  | TPath [name] _ | TGeneric [name] _ _ => top_level s !! name
  | _ => None
  end.

Definition find_child (s : Lowerer) (parent_name child_name : string) : option nat :=
  par ← top_level s !! parent_name;
  def_id <$> List.find (fun d => bool_decide (parent d = Some par) && bool_decide (def_name d = child_name)) (defs s).

(** A method of a [methods] block. *)
Definition find_method (s : Lowerer) (par : nat) (name : string) : option nat :=
  def_id <$> List.find
    (fun d => bool_decide (parent d = Some par) && bool_decide (def_name d = name) && bool_decide (def_kind d = Method)) (defs s).

Definition collect_item (i : Item) (s : Lowerer) : Lowerer :=
  match i with
  | IFn d => (push_top_level (fn_name d) Function s).2
  | IStruct (mkStructDecl name _ fields methods _ _ _ _ _) =>
      let '(par, s) := push_top_level name Struct s in
      for_each (fun d => push_child par Method (fn_name d)) methods
        (for_each (fun f => push_child par Field (field_decl_name f)) fields s)
  | IEnum (mkEnumDecl name _ variants methods _ _ _ _) =>
      let '(par, s) := push_top_level name Enum s in
      for_each (fun d => push_child par Method (fn_name d)) methods
        (for_each (fun v => push_child par Variant (variant_name v)) variants s)
  | IMethods (mkMethodsBlock _ target methods _ _) =>
      match resolve_ty s target with
      | Some par => for_each (fun d => push_child par Method (fn_name d)) methods s
      | None => s
      end
  | ITrait _ | IUse _ | IConst _ | IExtern _ => s
  end.

Definition collect_items (m : Module) (s : Lowerer) : Lowerer := for_each collect_item (items m) s.

(** ** References *)

(** [def.references.push(id)], unless it is there or there is no such owner. *)
Definition add_reference (owner : nat) (id : nat) (s : Lowerer) : Lowerer :=
  match defs s !! owner with
  | Some d =>
      if bool_decide (id ∈ references d) then s
      else mkLowerer (<[owner := mkDef (def_id d) (parent d) (def_name d) (def_kind d) (references d ++ [id])]> (defs s)) (top_level s)
  | None => s
  end.

Fixpoint record_ty_ref (owner : nat) (t : Ty) (s : Lowerer) : Lowerer :=
  let s := match resolve_ty s t with Some id => add_reference owner id s | None => s end in
  match t with
  | TGeneric _ args _ => for_each (record_ty_ref owner) args s
  | _ => s
  end.

Definition record_function_signature_refs (owner : nat) (d : FnDecl) (s : Lowerer) : Lowerer :=
  let 'mkFnDecl _ _ _ params return_ty _ _ _ _ _ _ _ _ := d in
  if_some (record_ty_ref owner) return_ty (for_each (fun '(mkParam _ t _) => record_ty_ref owner t) params s).

Definition record_variant_refs (owner : nat) (fields : VariantFields) (s : Lowerer) : Lowerer :=
  match fields with
  | VUnit => s
  | VTuple types => for_each (record_ty_ref owner) types s
  | VStruct fields => for_each (fun '(mkFieldDecl _ t _ _ _) => record_ty_ref owner t) fields s
  end.

Fixpoint record_expr_ref (owner : nat) (e : Expr) (s : Lowerer) : Lowerer :=
  match e with
  | EStructLiteral t fields _ => for_each (fun f => record_expr_ref owner f.2) fields (record_ty_ref owner t s)
  | EAssociatedCall t _ args _ => for_each (record_expr_ref owner) args (record_ty_ref owner t s)
  | EField base _ _ => record_expr_ref owner base s
  | EMethodCall receiver _ args _ => for_each (record_expr_ref owner) args (record_expr_ref owner receiver s)
  | EBlock b => record_block_refs owner b s
  | EUnsafe b _ => record_block_refs owner b s
  | EIf condition then_branch else_branch _ =>
      if_some (record_expr_ref owner) else_branch (record_block_refs owner then_branch (record_expr_ref owner condition s))
  | ELoop body _ => record_block_refs owner body s
  | EWhile condition body _ => record_block_refs owner body (record_expr_ref owner condition s)
  | ECall callee _ args _ => for_each (record_expr_ref owner) args (record_expr_ref owner callee s)
  | ETuple items _ => for_each (record_expr_ref owner) items s
  | EBinary _ lhs rhs _ => record_expr_ref owner rhs (record_expr_ref owner lhs s)
  | EUnary _ e _ | ESpawn e _ | EComptime e _ | ESplice e _ | EYield e _ | EBorrow _ e _ | ETry e _ => record_expr_ref owner e s
  | EQuote _ _ => s
  | EClosure params body _ =>
      record_expr_ref owner body (for_each (fun '(mkClosureParam _ t _) => if_some (record_ty_ref owner) t) params s)
  | EAssign target value _ => record_expr_ref owner value (record_expr_ref owner target s)
  | EIndex base index _ => for_each (record_expr_ref owner) index (record_expr_ref owner base s)
  | EReturn value _ | EBreak value _ => if_some (record_expr_ref owner) value s
  | ECast e t _ => record_expr_ref owner e (record_ty_ref owner t s)
  | EMatch _ _ _ | ESelect _ _ _ => s
  | ELiteral _ _ | EIdent _ _ | EContinue _ => s
  end
with record_block_refs (owner : nat) (b : Block) (s : Lowerer) : Lowerer :=
  let 'mkBlock stmts tail _ := b in
  if_some (record_expr_ref owner) tail (for_each (record_stmt_refs owner) stmts s)
with record_stmt_refs (owner : nat) (st : Stmt) (s : Lowerer) : Lowerer :=
  match st with
  | SLet (mkLetStmt _ _ t value _) => if_some (record_expr_ref owner) value (if_some (record_ty_ref owner) t s)
  | SExpr e => record_expr_ref owner e s
  | SItem _ => s
  end.

(** The signature and the body of a function, for its entry. *)
Definition record_function (id : nat) (d : FnDecl) (s : Lowerer) : Lowerer :=
  record_block_refs id (fn_body d) (record_function_signature_refs id d s).

Definition record_method (type_name : string) (d : FnDecl) (s : Lowerer) : Lowerer :=
  if_some (fun id => record_function id d) (find_child s type_name (fn_name d)) s.

Definition collect_reference (i : Item) (s : Lowerer) : Lowerer :=
  match i with
  | IFn d => if_some (fun id => record_function id d) (top_level s !! fn_name d) s
  | IStruct (mkStructDecl name _ fields methods _ _ _ _ _) =>
      let s := if_some (fun id => for_each (fun '(mkFieldDecl _ t _ _ _) => record_ty_ref id t) fields) (top_level s !! name) s in
      for_each (record_method name) methods s
  | IEnum (mkEnumDecl name _ variants methods _ _ _ _) =>
      let s := if_some (fun id => for_each (fun '(mkEnumVariant _ fields _ _) => record_variant_refs id fields) variants)
                 (top_level s !! name) s in
      for_each (record_method name) methods s
  | IMethods (mkMethodsBlock _ target methods _ _) =>
      match resolve_ty s target with
      | Some par =>
          for_each (fun d s => if_some (fun id => record_function id d) (find_method s par (fn_name d)) s) methods s
      | None => s
      end
  | ITrait _ | IUse _ | IConst _ | IExtern _ => s
  end.

Definition collect_references (m : Module) (s : Lowerer) : Lowerer := for_each collect_reference (items m) s.

Definition lower_module (m : Module) : HirModule := mkHirModule (defs (collect_references m (collect_items m Lowerer_default))).

(** ** The table is well formed *)

Definition top_kind (k : DefKind) : Prop := k ∈ [Function; Struct; Enum].
Definition child_kind (k : DefKind) : Prop := k ∈ [Field; Variant; Method].

(** [id] is a top-level entry. *)
Definition is_top (l : list Def) (id : nat) : Prop := exists d, l !! id = Some d /\ parent d = None.

Record def_wf (l : list Def) (i : nat) (d : Def) : Prop := {
  wf_id : def_id d = i;
  wf_parent : match parent d with
              | None => top_kind (def_kind d)
              | Some p => p < i /\ is_top l p /\ child_kind (def_kind d)
              end;
  wf_refs : Forall (is_top l) (references d);
  wf_nodup : NoDup (references d) }.

Record table_wf (s : Lowerer) : Prop := {
  wf_defs : forall i d, defs s !! i = Some d -> def_wf (defs s) i d;
  wf_top : forall name id, top_level s !! name = Some id -> exists d, defs s !! id = Some d /\ parent d = None /\ def_name d = name }.

Lemma is_top_app l l' id : is_top l id -> is_top (l ++ l') id.
Proof. intros (d & E & P). exists d. split; [by apply lookup_app_l_Some|done]. Qed.

Lemma def_wf_app l l' i d : def_wf l i d -> def_wf (l ++ l') i d.
Proof.
  intros [H1 H2 H3 H4]. split; [done| |eapply Forall_impl; [exact H3|]; intros; by apply is_top_app|done].
  destruct (parent d); [|done]. destruct H2 as (? & ? & ?). split; [done|]. split; [by apply is_top_app|done].
Qed.

Lemma push_def_wf par name kind s :
  table_wf s -> match par with None => top_kind kind | Some p => is_top (defs s) p /\ child_kind kind end ->
  table_wf (push_def par name kind s).2.
Proof.
  intros [Hd Ht] Hp. split; simpl.
  - intros i d [H|[Hl H]]%lookup_app_Some; [by apply def_wf_app, Hd|].
    apply list_lookup_singleton_Some in H as [Hi <-]. split; simpl; [lia| |constructor|constructor].
    destruct par as [p|]; [|done]. destruct Hp as [Htop Hk]. split; [|split; [by apply is_top_app|done]].
    destruct Htop as (d & E & _). apply lookup_lt_Some in E. lia.
  - intros n id E. destruct (Ht n id E) as (d & Ed & ?). exists d. split; [by apply lookup_app_l_Some|done].
Qed.

Lemma push_top_level_wf name kind s :
  table_wf s -> top_kind kind -> table_wf (push_top_level name kind s).2 /\ is_top (defs (push_top_level name kind s).2) (push_top_level name kind s).1.
Proof.
  intros Hs Hk. pose proof (push_def_wf None name kind s Hs Hk) as [Hd Ht]. simpl in *.
  assert (E : (defs s ++ [mkDef (length (defs s)) None name kind []]) !! length (defs s) = Some (mkDef (length (defs s)) None name kind []))
    by (by rewrite lookup_app_r, Nat.sub_diag by lia).
  split; [split; [exact Hd|]|by eexists]. simpl. intros n id. destruct (decide (n = name)) as [->|Hne].
  - rewrite lookup_insert_eq. intros [= <-]. eauto.
  - rewrite lookup_insert_ne by done. apply Ht.
Qed.

(** A step that keeps the table well formed and its top-level entries. *)
Definition grows (s s' : Lowerer) : Prop := table_wf s -> table_wf s' /\ forall id, is_top (defs s) id -> is_top (defs s') id.

Lemma grows_refl s : grows s s.
Proof. by split. Qed.

Lemma grows_trans s1 s2 s3 : grows s1 s2 -> grows s2 s3 -> grows s1 s3.
Proof. intros H1 H2 H. destruct (H1 H) as [W1 T1]. destruct (H2 W1) as [W2 T2]. auto. Qed.

Lemma grows_each {A} (f : A -> Lowerer -> Lowerer) l s :
  Forall (fun x => forall s, grows s (f x s)) l -> grows s (for_each f l s).
Proof. intros HF. revert s. induction HF as [|x l Hx HF IH]; intros s; [apply grows_refl|]. simpl. by eapply grows_trans. Qed.

Lemma grows_some {A} (f : A -> Lowerer -> Lowerer) o s : (forall x, o = Some x -> forall s, grows s (f x s)) -> grows s (if_some f o s).
Proof. intros H. destruct o; [by apply H|apply grows_refl]. Qed.

Lemma children_wf {A} (f : A -> string) par kind l s :
  table_wf s -> is_top (defs s) par -> child_kind kind ->
  table_wf (for_each (fun x => push_child par kind (f x)) l s) /\ is_top (defs (for_each (fun x => push_child par kind (f x)) l s)) par.
Proof.
  intros Hs Hp Hk. revert s Hs Hp. induction l as [|x l IH]; intros s Hs Hp; [done|]. simpl. apply IH.
  - by apply push_def_wf.
  - by apply is_top_app.
Qed.

Lemma resolve_ty_top s t id : table_wf s -> resolve_ty s t = Some id -> is_top (defs s) id.
Proof.
  intros [_ Ht]. unfold resolve_ty. destruct t as [[|n []]| [|n []]| | | | | | | | | | | | |]; try done; intros E;
    destruct (Ht _ _ E) as (d & ? & ? & _); by exists d.
Qed.

Lemma collect_item_wf i s : table_wf s -> table_wf (collect_item i s).
Proof.
  intros Hs. destruct i as [d|[]|[]|d|[]|d|d|d]; cbn [collect_item]; try done.
  - by apply push_top_level_wf; [|set_solver].
  - destruct (push_top_level_wf name Struct s Hs ltac:(set_solver)) as [H1 H2]. destruct (push_top_level _ _ _) as [par s1]. cbn [fst snd] in *.
    destruct (children_wf field_decl_name par Field fields s1) as [H3 H4]; [done|done|set_solver|].
    by apply children_wf; [| |set_solver].
  - destruct (push_top_level_wf name Enum s Hs ltac:(set_solver)) as [H1 H2]. destruct (push_top_level _ _ _) as [par s1]. cbn [fst snd] in *.
    destruct (children_wf variant_name par Variant variants s1) as [H3 H4]; [done|done|set_solver|].
    by apply children_wf; [| |set_solver].
  - destruct (resolve_ty s target) as [par|] eqn:E; [|done].
    by apply children_wf; [|by eapply resolve_ty_top|set_solver].
Qed.

Lemma add_reference_grows owner id s : is_top (defs s) id -> grows s (add_reference owner id s).
Proof.
  intros Hid Hs. unfold add_reference. destruct (defs s !! owner) as [d|] eqn:Ed; [|done]. case_bool_decide as Hin; [done|].
  set (d' := mkDef _ _ _ _ _). pose proof (lookup_lt_Some _ _ _ Ed) as Hlt.
  assert (Htop : forall i, is_top (defs s) i -> is_top (<[owner := d']> (defs s)) i).
  { intros i (e & E & P). destruct (decide (i = owner)) as [->|].
    - exists d'. split; [by apply list_lookup_insert_eq|]. unfold d'. simpl. congruence.
    - exists e. by rewrite list_lookup_insert_ne. }
  destruct Hs as [Hd Ht]. split; [split; simpl|exact Htop].
  - assert (Hmono : forall i e, def_wf (defs s) i e -> def_wf (<[owner := d']> (defs s)) i e).
    { intros i e [H1 H2 H3 H4]. split; [done| |eapply Forall_impl; [exact H3|]; auto|done].
      destruct (parent e); [|done]. destruct H2 as (? & ? & ?). auto. }
    intros i e. destruct (decide (i = owner)) as [->|Hne].
    + rewrite list_lookup_insert_eq by done. intros [= <-]. destruct (Hmono _ _ (Hd _ _ Ed)) as [H1 H2 H3 H4].
      split; unfold d'; simpl; [done|done| |].
      * apply Forall_app. split; [done|]. constructor; [by apply Htop|constructor].
      * apply NoDup_app. split; [done|]. split; [|apply NoDup_singleton]. intros x Hx ->%list_elem_of_singleton. done.
    + rewrite list_lookup_insert_ne by done. intros E. by apply Hmono, Hd.
  - intros n i E. destruct (Ht n i E) as (e & Ee & P & N). destruct (decide (i = owner)) as [->|].
    + exists d'. rewrite list_lookup_insert_eq by done. unfold d'. simpl. by simplify_eq.
    + exists e. by rewrite list_lookup_insert_ne.
Qed.

Lemma record_here_grows owner t s :
  grows s (match resolve_ty s t with Some id => add_reference owner id s | None => s end).
Proof.
  intros Hs. destruct (resolve_ty s t) as [id|] eqn:E; [|done]. apply add_reference_grows; [by eapply resolve_ty_top|done].
Qed.

Definition ty_grows (t : Ty) : Prop := forall owner s, grows s (record_ty_ref owner t s).
Definition expr_grows (e : Expr) : Prop := forall owner s, grows s (record_expr_ref owner e s).
Definition block_grows (b : Block) : Prop := forall owner s, grows s (record_block_refs owner b s).
Definition stmt_grows (st : Stmt) : Prop := forall owner s, grows s (record_stmt_refs owner st s).
Definition param_grows (c : ClosureParam) : Prop := let 'mkClosureParam _ t _ := c in forall x, t = Some x -> ty_grows x.


Ltac grow_step :=
  lazymatch goal with
  | |- grows ?s ?s => apply grows_refl
  | |- grows _ (for_each _ _ ?s) => apply (grows_trans _ s); [|apply grows_each]
  | |- grows _ (if_some _ _ ?s) => apply (grows_trans _ s); [|apply grows_some]
  | |- grows _ (record_expr_ref _ _ ?s) => apply (grows_trans _ s); [|by auto]
  | |- grows _ (record_block_refs _ _ ?s) => apply (grows_trans _ s); [|by auto]
  | |- grows _ (record_ty_ref _ _ ?s) => apply (grows_trans _ s); [|by auto]
  | |- grows _ (match resolve_ty _ _ with _ => _ end) => apply record_here_grows
  | H : Forall _ ?l |- Forall _ ?l => eapply Forall_impl; [exact H|]; let x := fresh "x" in let Hx := fresh "Hx" in intros x Hx ?; by auto
  | |- forall x, _ = Some x -> _ => let x := fresh "x" in let E := fresh "E" in intros x E ?; by eauto
  end.
Ltac grow := repeat grow_step.

Lemma records_grow : (forall e, expr_grows e) /\ (forall b, block_grows b) /\ (forall t, ty_grows t).
Proof.
  cut ((forall e, expr_grows e) /\ (forall b, block_grows b) /\ (forall s, stmt_grows s) /\ (forall l, stmt_grows (SLet l)) /\
    (forall a : MatchArm, True) /\ (forall c, param_grows c) /\ (forall a : SelectArm, True) /\ (forall q : QuoteBody, True) /\
    (forall t, ty_grows t) /\ (forall k : GenericParamKind, True) /\ (forall g : GenericParam, True) /\ (forall p : Param, True) /\
    (forall d : FnDecl, True) /\ (forall d : FnSignature, True) /\ (forall c : ConstDecl, True) /\ (forall d : FieldDecl, True) /\
    (forall d : AssocTypeDecl, True) /\ (forall d : StructDecl, True) /\ (forall v : VariantFields, True) /\ (forall v : EnumVariant, True) /\
    (forall d : EnumDecl, True) /\ (forall d : TraitDecl, True) /\ (forall d : MethodsBlock, True) /\ (forall d : ExternBlock, True) /\
    (forall i : Item, True)); [tauto|].
  apply Syntax_ind; try done; intros; parts; try (intros owner s; cbn [record_expr_ref record_block_refs record_stmt_refs record_ty_ref];
    unfold expr_grows, block_grows, stmt_grows, ty_grows in *; grow; fail).
  - intros owner s. cbn [record_expr_ref]. unfold expr_grows in *. grow. eapply Forall_impl; [exact H|]. intros [p t sp'] Ht s'.
    unfold param_grows, ty_grows in Ht. grow.
  - exact H0.
Qed.

Lemma record_types_grow {A} (f : A -> Ty) owner l s : grows s (for_each (fun x => record_ty_ref owner (f x)) l s).
Proof. apply grows_each. apply Forall_true. intros x s'. apply records_grow. Qed.

Lemma record_function_grows id d s : grows s (record_function id d s).
Proof.
  destruct records_grow as (_ & Hb & Ht). destruct d. unfold record_function, record_function_signature_refs. simpl.
  eapply grows_trans; [|apply Hb]. eapply grows_trans; [|apply grows_some; intros; apply Ht].
  apply grows_each, Forall_true. intros [] s'. apply Ht.
Qed.

Lemma record_method_grows name d s : grows s (record_method name d s).
Proof. apply grows_some. intros id _ s'. apply record_function_grows. Qed.

Lemma record_variant_grows owner fields s : grows s (record_variant_refs owner fields s).
Proof.
  destruct records_grow as (_ & _ & Ht). destruct fields; simpl; [apply grows_refl|apply grows_each, Forall_true; intros x s'; apply Ht|].
  apply grows_each, Forall_true. intros [] s'. apply Ht.
Qed.

Lemma collect_reference_grows i s : grows s (collect_reference i s).
Proof.
  destruct records_grow as (_ & _ & Ht). destruct i as [d|[]|[]|d|[]|d|d|d]; cbn [collect_reference]; try apply grows_refl.
  - apply grows_some. intros id _ s'. apply record_function_grows.
  - eapply grows_trans; [|apply grows_each, Forall_true; intros d s'; apply record_method_grows].
    apply grows_some. intros id _ s'. apply grows_each, Forall_true. intros [] s2. apply Ht.
  - eapply grows_trans; [|apply grows_each, Forall_true; intros d s'; apply record_method_grows].
    apply grows_some. intros id _ s'. apply grows_each, Forall_true. intros [] s2. apply record_variant_grows.
  - destruct (resolve_ty s target) as [par|]; [|apply grows_refl]. apply grows_each, Forall_true. intros d s'.
    apply grows_some. intros id _ s2. apply record_function_grows.
Qed.

(** C14: The definition table is well formed: entry [i] has id [i]; a field, variant
    or method has a parent that comes before it and is a top-level entry, and
    only those have one; references are top-level entries of the table,
    without repetition. *)
Theorem lower_module_wf m i d : hir_defs (lower_module m) !! i = Some d -> def_wf (hir_defs (lower_module m)) i d.
Proof.
  assert (H : table_wf (collect_references m (collect_items m Lowerer_default))); [|apply (wf_defs _ H)].
  assert (H0 : table_wf (collect_items m Lowerer_default)).
  { unfold collect_items. assert (Hd : table_wf Lowerer_default) by (split; [done|]; intros name id E; simpl in E; by rewrite lookup_empty in E).
    revert Hd. generalize Lowerer_default. induction (items m) as [|x l IH]; intros s Hs; [done|]. simpl. by apply IH, collect_item_wf. }
  apply (grows_each collect_reference (items m)); [|exact H0]. apply Forall_true. intros x s. apply collect_reference_grows.
Qed.

(** [struct P { x: Q } methods P { fn get(p: P) -> Q {} } struct Q {}], and a
    function of the same file. *)
Definition hir_sample : Module :=
  let sp := mkSpan FileId_ROOT 0 0 in
  let ty n := TPath [n] sp in
  let fn name t rt := mkFnDecl name None [] [mkParam (PIdent "p" sp) t sp] (Some rt) (mkBlock [] None sp) false false false false None [] sp in
  mkModule None
    [IStruct (mkStructDecl "P" [] [mkFieldDecl "x" (ty "Q"%string) false [] sp] [] [] [] false [] sp);
     IMethods (mkMethodsBlock [] (ty "P"%string) [fn "get"%string (ty "P"%string) (ty "Q"%string)] [] sp);
     IStruct (mkStructDecl "Q" [] [] [] [] [] false [] sp);
     IFn (fn "main"%string (TGeneric ["Q"%string] [ty "P"%string] sp) (ty "P"%string))] sp.

Example hir_sample_defs :
  hir_defs (lower_module hir_sample) =
  [mkDef 0 None "P" Struct [3]; mkDef 1 (Some 0) "x" Field []; mkDef 2 (Some 0) "get" Method [0; 3]; mkDef 3 None "Q" Struct [];
   mkDef 4 None "main" Function [3; 0]].
Proof. vm_compute. reflexivity. Qed.

Lemma lower_module_wf_witness :
  exists d, hir_defs (lower_module hir_sample) !! 2 = Some d /\ def_wf (hir_defs (lower_module hir_sample)) 2 d.
Proof. eexists. split; [vm_compute; reflexivity|]. apply (lower_module_wf hir_sample 2). vm_compute. reflexivity. Defined.
