(* ===== verification/BorrowTypes.v ===== *)
(** The types of the borrow checker: [compiler/paco-borrow/src/lib.rs].

    The checker keeps signatures, fields and variants as the syntax's [Ty]
    ([Program]); it reads them from the module, from the public items of its
    imports and from the built-in prelude.  A [HashMap] is a [gmap], a
    [HashSet] of names a [gset]; the state of the traversal is in
    [BorrowState].  The type checker's table of resolved types is an argument:
    a node stands for its address. *)
From S2P Require Import Prelude Span TypeLayout Types Ast Resolve.

Open Scope nat_scope.

Definition SLICE_TYPE_NAME : string := "[]".

Definition float_intrinsic_arity (method : string) : option nat :=
  if bool_decide (method ∈ ["sqrt"; "exp"; "ln"; "sin"; "cos"; "tanh"; "abs"]%string) then Some 0
  else if bool_decide (method ∈ ["powf"; "min"; "max"]%string) then Some 1
  else None.

Definition join (path : list string) : string := String.concat "::" path.

Definition qualified (owner name : string) : string := (owner ++ "::" ++ name)%string.

Definition is_borrow_ty (ty : Ty) : bool := match ty with TBorrow _ _ _ _ => true | _ => false end.

(** ** Types *)

Fixpoint type_name (ty : Ty) : option string :=
  match ty with
  | TPath path _ | TGeneric path _ _ => Some (join path)
  | TSlice _ _ => Some SLICE_TYPE_NAME
  | TBorrow _ _ ty _ => type_name ty
  | _ => None
  end.

Fixpoint resolve_self_ty (ty : Ty) (self_ty : option string) : Ty :=
  match self_ty with
  | None => ty
  | Some self =>
      match ty with
      | TPath path sp => if bool_decide (head path = Some "Self"%string) then TPath [self] sp else ty
      | TBorrow mutable lifetime inner sp => TBorrow mutable lifetime (resolve_self_ty inner (Some self)) sp
      | other => other
      end
  end.

Definition COPY_NAMES : list string :=
  ["i8"; "i16"; "i32"; "i64"; "u8"; "u16"; "u32"; "u64"; "float"; "f64"; "f32"; "f16"; "bf16"; "f8e4m3"; "f8e5m2";
   "bool"; "char"; "byte"; "type"; "Code"]%string.

Definition last_in (path : list string) (names : gset string) : bool :=
  match last path with Some name => bool_decide (name ∈ names) | None => false end.

Fixpoint ty_is_copy (ty : Ty) (copy_names : gset string) : bool :=
  match ty with
  | TPath path _ =>
      last_in path copy_names || match path with name :: _ => bool_decide (name ∈ COPY_NAMES) | [] => false end
  | TGeneric path args _ => last_in path copy_names && forallb (fun arg => ty_is_copy arg copy_names) args
  | TBorrow _ _ _ _ | TRawPointer _ _ _ => true
  | TTuple items _ => forallb (fun item => ty_is_copy item copy_names) items
  | _ => false
  end.

Fixpoint type_is_copy (ty : Type_) (copy_names : gset string) : option bool :=
  let all args := forallb (fun arg => match type_is_copy arg copy_names with Some c => c | None => false end) args in
  match ty with
  | TyUnknown | TyError => None
  | TyInt _ | TyFloat _ | TyBool | TyChar | TyUnit | TyNever | TyBorrow _ _ | TyRawPointer _ _ | TyTypeValue _ | TyCode
  | TyDim _ | TyPack _ | TySpread _ => Some true
  | TyTuple items => Some (all items)
  | TyStruct name args | TyEnum name args => Some (bool_decide (last_segment name ∈ copy_names) && all args)
  | TyGeneric name => Some (bool_decide (name ∈ copy_names))
  | TyFn _ _ extern_abi _ => Some (match extern_abi with Some _ => true | None => false end)
  | TyString | TySlice _ => Some false
  end.

Fixpoint substitute_ty (ty : Ty) (substitutions : gmap string Ty) : Ty :=
  match ty with
  | TPath [name] _ => default ty (substitutions !! name)
  | TGeneric path args sp => TGeneric path (map (fun arg => substitute_ty arg substitutions) args) sp
  | TTuple items sp => TTuple (map (fun item => substitute_ty item substitutions) items) sp
  | TSlice item sp => TSlice (substitute_ty item substitutions) sp
  | TBorrow mutable lifetime ty sp => TBorrow mutable lifetime (substitute_ty ty substitutions) sp
  | TFn params return_ty extern_abi is_unsafe sp =>
      TFn (map (fun param => substitute_ty param substitutions) params)
        (option_map (fun ty => substitute_ty ty substitutions) return_ty) extern_abi is_unsafe sp
  | other => other
  end.

(** [left.iter().zip(right).all(f)] of lists of one length *)
Definition all_zip {A B} (f : A -> B -> bool) : list A -> list B -> bool :=
  fix go l r :=
    match l, r with
    | [], [] => true
    | a :: l, b :: r => f a b && go l r
    | _, _ => false
    end.

Fixpoint same_ty_shape (lhs rhs : Ty) : bool :=
  match lhs, rhs with
  | TPath l _, TPath r _ => bool_decide (l = r)
  | TGeneric lp la _, TGeneric rp ra _ => bool_decide (lp = rp) && all_zip same_ty_shape la ra
  | TTuple l _, TTuple r _ => all_zip same_ty_shape l r
  | TSlice l _, TSlice r _ => same_ty_shape l r
  | TBorrow lm _ l _, TBorrow rm _ r _ => Bool.eqb lm rm && same_ty_shape l r
  | TDyn l _, TDyn r _ => bool_decide (l = r)
  | TFn lp lr _ _ _, TFn rp rr _ _ _ =>
      all_zip same_ty_shape lp rp &&
      match lr, rr with Some l, Some r => same_ty_shape l r | None, None => true | _, _ => false end
  | TInfer _, TInfer _ | TNever _, TNever _ => true
  | _, _ => false
  end.

(** [for (a, b) in l.iter().zip(r) { f(a, b) }] *)
Definition for_zip {A B S} (f : A -> B -> S -> S) : list A -> list B -> S -> S :=
  fix go l r s :=
    match l, r with
    | a :: l, b :: r => go l r (f a b s)
    | _, _ => s
    end.

(** [entry(key).or_insert(value)] *)
Definition or_insert {K V} `{Countable K} (m : gmap K V) (k : K) (v : V) : gmap K V :=
  match m !! k with Some _ => m | None => <[k := v]> m end.

Fixpoint collect_substitutions (param : Ty) (arg : Ty) (generics : list string) (subs : gmap string Ty) : gmap string Ty :=
  let generic := match param with TPath [name] _ => if bool_decide (name ∈ generics) then Some name else None | _ => None end in
  match generic with
  | Some name => or_insert subs name arg
  | None =>
      match param, arg with
      | TGeneric param_path param_args _, TGeneric arg_path arg_args _ =>
          if bool_decide (param_path = arg_path)
          then for_zip (fun p a s => collect_substitutions p a generics s) param_args arg_args subs else subs
      | TTuple param_items _, TTuple arg_items _ =>
          for_zip (fun p a s => collect_substitutions p a generics s) param_items arg_items subs
      | _, _ => subs
      end
  end.

Definition ordering_method (op : BinaryOp) : option string :=
  match op with Lt_ | Le | Gt_ | Ge => Some "cmp"%string | _ => None end.

Definition operator_method (op : BinaryOp) : option string :=
  match op with
  | Add => Some "add" | Sub => Some "sub" | Mul => Some "mul" | Div => Some "div" | Rem => Some "rem"
  | _ => None
  end%string.

Definition literal_ty (l : Literal) (sp : Span) : Ty :=
  TPath [match l with LInt _ => "i64" | LFloat _ => "float" | LBool _ => "bool" | LString _ => "string" | LChar _ => "char" end%string] sp.

(** ** [Program] *)

Record FunctionSignature := mkSignature { s_generics : list string; s_params : list Ty; s_return : option Ty }.

Definition param_ty (p : Param) : Ty := let 'mkParam _ ty _ := p in ty.

Definition FunctionSignature_from (f : FnDecl) : FunctionSignature :=
  let 'mkFnDecl _ _ generics params return_ty _ _ _ _ _ _ _ _ := f in
  mkSignature (generic_names generics) (map param_ty params) return_ty.

(** [drops] is threaded by the traversal; [expr_types] is empty without a
    typed module. *)
Record Program := mkProgram {
  functions : gmap string FunctionSignature;
  iter_functions : gset string;
  methods : gmap (string * string) FunctionSignature;
  fields : gmap (string * string) Ty;
  variants : gmap (string * string) (list Ty);
  type_params : gmap string (list string);
  p_locals : Locals;
  intrinsics : gmap string FunctionSignature;
  tangents : gmap string Ty;
  grads : gset string;
  test_asserts : gset string;
  copy_types : gset string;
  copy_params : gmap string (list string);
  expr_types : Expr -> option Type_ }.

Definition Program_default (l : Locals) : Program :=
  mkProgram ∅ ∅ ∅ ∅ ∅ ∅ l ∅ ∅ ∅ ∅ ∅ ∅ (fun _ => None).

Definition set_functions (v : gmap string FunctionSignature) (p : Program) : Program :=
  mkProgram v (iter_functions p) (methods p) (fields p) (variants p) (type_params p) (p_locals p) (intrinsics p)
    (tangents p) (grads p) (test_asserts p) (copy_types p) (copy_params p) (expr_types p).
Definition set_iter_functions (v : gset string) (p : Program) : Program :=
  mkProgram (functions p) v (methods p) (fields p) (variants p) (type_params p) (p_locals p) (intrinsics p)
    (tangents p) (grads p) (test_asserts p) (copy_types p) (copy_params p) (expr_types p).
Definition set_methods (v : gmap (string * string) FunctionSignature) (p : Program) : Program :=
  mkProgram (functions p) (iter_functions p) v (fields p) (variants p) (type_params p) (p_locals p) (intrinsics p)
    (tangents p) (grads p) (test_asserts p) (copy_types p) (copy_params p) (expr_types p).
Definition set_fields (v : gmap (string * string) Ty) (p : Program) : Program :=
  mkProgram (functions p) (iter_functions p) (methods p) v (variants p) (type_params p) (p_locals p) (intrinsics p)
    (tangents p) (grads p) (test_asserts p) (copy_types p) (copy_params p) (expr_types p).
Definition set_variants (v : gmap (string * string) (list Ty)) (p : Program) : Program :=
  mkProgram (functions p) (iter_functions p) (methods p) (fields p) v (type_params p) (p_locals p) (intrinsics p)
    (tangents p) (grads p) (test_asserts p) (copy_types p) (copy_params p) (expr_types p).
Definition set_type_params (v : gmap string (list string)) (p : Program) : Program :=
  mkProgram (functions p) (iter_functions p) (methods p) (fields p) (variants p) v (p_locals p) (intrinsics p)
    (tangents p) (grads p) (test_asserts p) (copy_types p) (copy_params p) (expr_types p).
Definition set_intrinsics (v : gmap string FunctionSignature) (p : Program) : Program :=
  mkProgram (functions p) (iter_functions p) (methods p) (fields p) (variants p) (type_params p) (p_locals p) v
    (tangents p) (grads p) (test_asserts p) (copy_types p) (copy_params p) (expr_types p).
Definition set_tangents (v : gmap string Ty) (p : Program) : Program :=
  mkProgram (functions p) (iter_functions p) (methods p) (fields p) (variants p) (type_params p) (p_locals p) (intrinsics p)
    v (grads p) (test_asserts p) (copy_types p) (copy_params p) (expr_types p).
Definition set_grads (v : gset string) (p : Program) : Program :=
  mkProgram (functions p) (iter_functions p) (methods p) (fields p) (variants p) (type_params p) (p_locals p) (intrinsics p)
    (tangents p) v (test_asserts p) (copy_types p) (copy_params p) (expr_types p).
Definition set_test_asserts (v : gset string) (p : Program) : Program :=
  mkProgram (functions p) (iter_functions p) (methods p) (fields p) (variants p) (type_params p) (p_locals p) (intrinsics p)
    (tangents p) (grads p) v (copy_types p) (copy_params p) (expr_types p).
Definition set_copies (types : gset string) (params : gmap string (list string)) (p : Program) : Program :=
  mkProgram (functions p) (iter_functions p) (methods p) (fields p) (variants p) (type_params p) (p_locals p) (intrinsics p)
    (tangents p) (grads p) (test_asserts p) types params (expr_types p).
Definition set_expr_types (v : Expr -> option Type_) (p : Program) : Program :=
  mkProgram (functions p) (iter_functions p) (methods p) (fields p) (variants p) (type_params p) (p_locals p) (intrinsics p)
    (tangents p) (grads p) (test_asserts p) (copy_types p) (copy_params p) v.

Definition insert_function (name : string) (s : FunctionSignature) (p : Program) : Program :=
  set_functions (<[name := s]> (functions p)) p.
Definition insert_method (owner name : string) (s : FunctionSignature) (p : Program) : Program :=
  set_methods (<[(owner, name) := s]> (methods p)) p.

(** ** Looking types up *)

Section Lookup.
Context (p : Program).

Definition type_substitutions (ty : Ty) : gmap string Ty :=
  match ty with
  | TGeneric (name :: _) args _ =>
      match type_params p !! name with
      | Some params => for_zip (fun param arg s => <[param := arg]> s) params args ∅
      | None => ∅
      end
  | _ => ∅
  end.

Definition field_ty_from_type (base_ty : Ty) (field : string) : option Ty :=
  name ← type_name base_ty;
  ty ← fields p !! (name, field);
  Some (substitute_ty ty (type_substitutions base_ty)).

Definition variant_tys_from_pattern (path : list string) (scrutinee_ty : option Ty) : list Ty :=
  match last path with
  | None => []
  | Some variant_name =>
      let enum_name := if 2 <=? length path then head path else scrutinee_ty ≫= type_name in
      match enum_name with
      | None => []
      | Some enum_name =>
          let substitutions := default ∅ (type_substitutions <$> scrutinee_ty) in
          default [] (map (fun field => substitute_ty field substitutions) <$> variants p !! (enum_name, variant_name))
      end
  end.

Definition strip_borrow (ty : Ty) : Ty := match ty with TBorrow _ _ ty _ => ty | other => other end.

Definition tangent (param : Ty) : Ty :=
  let param := strip_borrow param in
  match param with
  | TPath path _ | TGeneric path _ _ =>
      let head := join path in
      match tangents p !! head with
      | Some (TPath path _ as t) | Some (TGeneric path _ _ as t) => if bool_decide (join path <> head) then t else param
      | _ => param
      end
  | _ => param
  end.

Definition grad_result_ty (args : list Expr) (sp : Span) : option Ty :=
  match args with
  | [EIdent name _; _] =>
      signature ← functions p !! name;
      output ←
        match s_return signature with
        | Some ty => Some ty
        | None => head (omap (fun param => match param with TBorrow true _ _ _ => Some (strip_borrow param) | _ => None end)
                          (s_params signature))
        end;
      let gradients := map tangent (s_params signature) in
      let gradients := match gradients with [single] => single | _ => TTuple gradients sp end in
      Some (TTuple [output; gradients] sp)
  | _ => None
  end.

Definition associated_function_params (ty : Ty) (function : string) : option (list Ty) :=
  match (match ty with TPath [name] _ => functions p !! qualified name function | _ => None end) with
  | Some signature => Some (s_params signature)
  | None => name ← type_name ty; s_params <$> methods p !! (name, function)
  end.

Definition is_variant_constructor (name : string) : bool :=
  bool_decide (functions p !! name = None) && existsb (fun k => bool_decide (k.1.2 = name)) (map_to_list (variants p)).

(** ** Types that may hold a borrow

    [walk] recurses into the type; [named] into the declarations, which may be
    recursive: [seen] holds the names already entered. *)

(** [l.iter().any(f)] with the set threaded *)
Definition any_seen {A} (f : A -> gset string -> bool * gset string) : list A -> gset string -> bool * gset string :=
  fix go l seen :=
    match l with
    | [] => (false, seen)
    | a :: l => let '(b, seen) := f a seen in if b then (true, seen) else go l seen
    end.

Fixpoint walk (named : list string -> gset string -> bool * gset string) (own_params : list string) (ty : Ty)
  (seen : gset string) : bool * gset string :=
  match ty with
  | TBorrow _ _ _ _ | TFn _ _ _ _ _ => (true, seen)
  | TTuple items _ => any_seen (walk named own_params) items seen
  | TSlice item _ => walk named own_params item seen
  | TGeneric path args _ =>
      let '(b, seen) := any_seen (walk named own_params) args seen in
      if b then (true, seen) else named path seen
  | TPath path _ =>
      match path with
      | [name] => if bool_decide (name ∈ own_params) then (false, seen) else named path seen
      | _ => named path seen
      end
  | _ => (false, seen)
  end.

(** The types of the fields and of the variants of [name] *)
Definition member_tys (name : string) : list Ty :=
  map snd (List.filter (fun e => bool_decide (e.1.1 = name)) (map_to_list (fields p))) ++
  flat_map snd (List.filter (fun e => bool_decide (e.1.1 = name)) (map_to_list (variants p))).

Fixpoint named (fuel : nat) (path : list string) (seen : gset string) : bool * gset string :=
  match fuel with
  | O => (false, seen)
  | S fuel =>
      let name := join path in
      match type_params p !! name with
      | None => (false, seen)
      | Some params =>
          if bool_decide (name ∈ seen) then (false, seen)
          else any_seen (walk (named fuel) params) (member_tys name) ({[name]} ∪ seen)
      end
  end.

(** Each level enters a declared type not seen before. *)
Definition ty_may_hold_borrow (ty : Ty) : bool := fst (walk (named (base.size (type_params p))) [] ty ∅).

Definition starts_uppercase (s : string) : bool :=
  match s with String a _ => (65 <=? Ascii.nat_of_ascii a) && (Ascii.nat_of_ascii a <=? 90) | EmptyString => false end.

Definition ty_may_hold_borrow_or_generic (ty : Ty) : bool :=
  match ty with
  | TPath [name] _ => bool_decide (type_params p !! name = None) && starts_uppercase name
  | _ => false
  end || ty_may_hold_borrow ty.
End Lookup.

(** ** Collecting the declarations *)

Definition fn_name (f : FnDecl) : string := let 'mkFnDecl name _ _ _ _ _ _ _ _ _ _ _ _ := f in name.
Definition fn_is_iter (f : FnDecl) : bool := let 'mkFnDecl _ _ _ _ _ _ _ _ is_iter _ _ _ _ := f in is_iter.
Definition fn_is_pub (f : FnDecl) : bool := let 'mkFnDecl _ _ _ _ _ _ is_pub _ _ _ _ _ _ := f in is_pub.
Definition fn_attrs (f : FnDecl) : list Attribute := let 'mkFnDecl _ _ _ _ _ _ _ _ _ _ _ attrs _ := f in attrs.

(** [#[builtin(path)]] with a path the test accepts *)
Definition has_builtin (f : FnDecl) (accepts : list string -> bool) : bool :=
  existsb
    (fun attr =>
       bool_decide (attr_name attr = "builtin"%string) &&
       match attr_args attr with ArgPath path _ :: _ => accepts path | _ => false end)
    (fn_attrs f).

Definition note_grad (name : string) (f : FnDecl) (p : Program) : Program :=
  if has_builtin f (fun path => bool_decide (path = ["grad"%string])) then set_grads ({[name]} ∪ grads p) p else p.

Definition TEST_ASSERT_BUILTINS : list string :=
  ["assert"; "assert_eq"; "assert_ne"; "assert_true"; "assert_false"; "assert_some"; "assert_none"; "assert_ok"; "assert_err"]%string.

Definition note_test_assert (name : string) (f : FnDecl) (p : Program) : Program :=
  if has_builtin f (fun path => match path with [b] => bool_decide (b ∈ TEST_ASSERT_BUILTINS) | _ => false end)
  then set_test_asserts ({[name]} ∪ test_asserts p) p else p.

(** [copy_params.entry(name).or_default().extend(names)] *)
Definition extend_copy_params (name : string) (names : list string) (p : Program) : Program :=
  set_copies (copy_types p) (<[name := default [] (copy_params p !! name) ++ names]> (copy_params p)) p.

Definition note_copy (name plain : string) (attrs : list Attribute) (generics : list GenericParam) (p : Program) : Program :=
  let p := if has_derive attrs "Copy" then set_copies ({[name; plain]} ∪ copy_types p) (copy_params p) p else p in
  extend_copy_params name (bounded_by generics "Copy") p.

Definition note_tangent (name : string) (assoc_types : list AssocTypeDecl) (p : Program) : Program :=
  match List.find (fun '(mkAssocTypeDecl n _ _) => bool_decide (n = "Tangent"%string)) assoc_types with
  | Some (mkAssocTypeDecl _ (Some tangent) _) => set_tangents (<[name := tangent]> (tangents p)) p
  | _ => p
  end.

Definition key (qualifier name : string) : string :=
  if bool_decide (qualifier = ""%string) then name else qualified qualifier name.

Definition variant_fields (v : VariantFields) : list Ty :=
  match v with
  | VUnit => []
  | VTuple tys => tys
  | VStruct fs => map (fun '(mkFieldDecl _ ty _ _ _) => ty) fs
  end.

Definition insert_fields (owner : string) (fs : list FieldDecl) (p : Program) : Program :=
  fold_left (fun p '(mkFieldDecl name ty _ _ _) => set_fields (<[(owner, name) := ty]> (fields p)) p) fs p.

Definition insert_variants (owner : string) (vs : list EnumVariant) (p : Program) : Program :=
  fold_left (fun p '(mkEnumVariant name fs _ _) => set_variants (<[(owner, name) := variant_fields fs]> (variants p)) p) vs p.

Definition insert_methods (owner : string) (ms : list FnDecl) (p : Program) : Program :=
  fold_left (fun p m => insert_method owner (fn_name m) (FunctionSignature_from m) p) ms p.

Definition insert_type_params (name : string) (generics : list GenericParam) (p : Program) : Program :=
  set_type_params (<[name := generic_names generics]> (type_params p)) p.

Definition collect_fn (name : string) (f : FnDecl) (p : Program) : Program :=
  let p := if fn_is_iter f then set_iter_functions ({[name]} ∪ iter_functions p) p else p in
  insert_function name (FunctionSignature_from f) (note_test_assert name f (note_grad name f p)).

Definition collect_item (qualifier : string) (p : Program) (i : Item) : Program :=
  match i with
  | IFn f => collect_fn (key qualifier (fn_name f)) f p
  | IStruct (mkStructDecl plain generics fs ms _ assoc_types _ attrs _) =>
      let name := key qualifier plain in
      let p := note_tangent name assoc_types (note_copy name plain attrs generics p) in
      insert_methods name ms (insert_fields name fs (insert_type_params name generics p))
  | IEnum (mkEnumDecl plain generics vs ms _ _ attrs _) =>
      let name := key qualifier plain in
      let p := note_copy name plain attrs generics p in
      insert_methods name ms (insert_variants name vs (insert_type_params name generics p))
  | IMethods (mkMethodsBlock generics target ms _ _) =>
      match type_name target with
      | Some name =>
          let name := key qualifier name in
          insert_methods name ms (extend_copy_params name (bounded_by generics "Copy") p)
      | None => p
      end
  | ITrait _ | IUse _ | IConst _ | IExtern _ => p
  end.

Definition collect_items (m : Module) (qualifier : string) (p : Program) : Program :=
  fold_left (collect_item qualifier) (items m) p.

(** [methods.entry((owner, name)).or_insert_with(..)] *)
Definition method_or_insert (owner : string) (m : FnDecl) (p : Program) : Program :=
  set_methods (or_insert (methods p) (owner, fn_name m) (FunctionSignature_from m)) p.

Definition pub_methods (name plain : string) (ms : list FnDecl) (p : Program) : Program :=
  fold_left
    (fun p m =>
       let p := method_or_insert name m p in
       if bool_decide (name <> plain) then method_or_insert plain m p else p) ms p.

Definition collect_pub_item (qualifier : string) (p : Program) (i : Item) : Program :=
  match i with
  | IFn f =>
      let name := key qualifier (fn_name f) in
      if fn_is_pub f then match functions p !! name with Some _ => p | None => collect_fn name f p end else p
  | IStruct (mkStructDecl plain generics fs ms _ assoc_types is_pub attrs _) =>
      let name := key qualifier plain in
      if is_pub then
        match type_params p !! name with
        | Some _ => p
        | None =>
            let p := note_copy name plain attrs generics p in
            let p := note_tangent plain assoc_types (note_tangent name assoc_types p) in
            pub_methods name plain ms (insert_fields name fs (insert_type_params name generics p))
        end
      else p
  | IEnum (mkEnumDecl plain generics vs ms _ is_pub attrs _) =>
      let name := key qualifier plain in
      if is_pub then
        match type_params p !! name with
        | Some _ => p
        | None =>
            let p := note_copy name plain attrs generics p in
            pub_methods name plain ms (insert_variants name vs (insert_type_params name generics p))
        end
      else p
  | IMethods (mkMethodsBlock _ target ms _ _) =>
      match type_name target with
      | Some name => fold_left (fun p m => method_or_insert (key qualifier name) m (method_or_insert name m p)) ms p
      | None => p
      end
  | _ => p
  end.

Definition collect_pub_items (m : Module) (qualifier : string) (p : Program) : Program :=
  fold_left (collect_pub_item qualifier) (items m) p.

(** ** The prelude *)

Definition root : Span := Span_new_root 0 0.
Definition path_ty (name : string) : Ty := TPath [name] root.
Definition generic_ty (name : string) (args : list Ty) : Ty := TGeneric [name] args root.
Definition self_ref : Ty := TBorrow false None (path_ty "Self") root.
Definition result_of (ok : Ty) (err_name : string) : Ty := generic_ty "Result" [ok; path_ty err_name].

Definition register_shared_cell (name read_method : string) (write_method : option string) (has_clone_and_count : bool)
  (p : Program) : Program :=
  let t := path_ty "T" in
  let self_generic := generic_ty name [t] in
  let p := insert_method name "new" (mkSignature ["T"%string] [t] (Some self_generic)) p in
  let p := insert_method name read_method (mkSignature [] [self_ref] (Some t)) p in
  let p :=
    match write_method with
    | Some write_method => insert_method name write_method (mkSignature [] [self_ref; t] None) p
    | None => p
    end in
  if has_clone_and_count then
    insert_method name "strong_count" (mkSignature [] [self_ref] (Some (path_ty "i64")))
      (insert_method name "clone" (mkSignature [] [self_ref] (Some self_generic)) p)
  else p.

Definition slice_ptr (mutable : bool) : FunctionSignature :=
  mkSignature ["T"%string] [TBorrow mutable None (TSlice (path_ty "T") root) root]
    (Some (TRawPointer mutable (path_ty "T") root)).

Definition register_prelude (p : Program) : Program :=
  let i64_ty := path_ty "i64" in
  let t := path_ty "T" in
  let p := set_intrinsics (<["dim" := mkSignature [] [self_ref; i64_ty] (Some i64_ty)]> (intrinsics p)) p in
  let p :=
    set_intrinsics
      (<["as_dims" := mkSignature [] [self_ref] (Some (generic_ty "Result" [self_ref; path_ty "DimError"]))]> (intrinsics p)) p in
  let p :=
    insert_function "channel"
      (mkSignature ["T"%string] [i64_ty] (Some (TTuple [generic_ty "Sender" [t]; generic_ty "Receiver" [t]] root))) p in
  let p := insert_function "tcp_listen" (mkSignature [] [i64_ty] (Some (path_ty "TcpListener"))) p in
  let p := insert_method "TcpListener" "accept" (mkSignature [] [self_ref] (Some (path_ty "TcpStream"))) p in
  let p := insert_method "TcpStream" "read" (mkSignature [] [self_ref; i64_ty] (Some (path_ty "string"))) p in
  let p := insert_method "TcpStream" "write" (mkSignature [] [self_ref; path_ty "string"] None) p in
  let p := insert_method "Sender" "send" (mkSignature [] [self_ref; t] (Some (result_of (TTuple [] root) "SendError"))) p in
  let p := insert_method "Sender" "close" (mkSignature [] [self_ref] None) p in
  let p := insert_method "Receiver" "recv" (mkSignature [] [self_ref] (Some (result_of t "RecvError"))) p in
  let p := insert_method "JoinHandle" "join" (mkSignature [] [self_ref] (Some (result_of t "TaskPanic"))) p in
  let p := insert_method "Generator" "next" (mkSignature [] [self_ref] (Some (generic_ty "Option" [t]))) p in
  let p := insert_function "fields_of" (mkSignature [] [path_ty "type"] (Some (path_ty "FieldIter"))) p in
  let p := insert_function "type_name" (mkSignature [] [path_ty "type"] (Some (path_ty "string"))) p in
  let p := insert_function "code_to_string" (mkSignature [] [path_ty "Code"] (Some (path_ty "string"))) p in
  let p := insert_function "slice_as_mut_ptr" (slice_ptr true) (insert_function "slice_as_ptr" (slice_ptr false) p) in
  let p := register_shared_cell "Rc" "get" None true p in
  let p := register_shared_cell "Arc" "get" None true p in
  let p := register_shared_cell "Cell" "get" (Some "set"%string) false p in
  let p := register_shared_cell "RefCell" "get" (Some "set"%string) false p in
  let p := register_shared_cell "Mutex" "lock" (Some "set"%string) false p in
  register_shared_cell "RwLock" "read" (Some "write"%string) false p.

Definition from_module_with_imports (m : Module) (imports : list (string * Module)) : Program :=
  let p := collect_items m "" (register_prelude (Program_default (resolve_locals [m]))) in
  fold_left (fun p '(qualifier, imported) => collect_pub_items imported qualifier p) imports p.
