(* ===== verification/BorrowState.v ===== *)
(** The state of the borrow checker and the analyses that only read it:
    [compiler/paco-borrow/src/lib.rs].

    [OwnershipState] holds the bindings in scope (with what has been moved and
    what each holds a borrow of), the position of the current statement and
    the last uses of the enclosing blocks.  This file has its operations, the
    uses of locals, the types of expressions ([expr_ty]), the binding of
    patterns, the origins of borrows and the syntactic escape analysis; the
    traversal is [Borrow].

    Positions are integers, for [usize::MAX] is one.  The fields [locals] and
    [copy_names] of the state, shared by all clones and never assigned after
    its creation, are parameters; so is whether a block is the [return_body].
    Stacks have their top last, as the vectors of the source. *)
From S2P Require Import Prelude Span Diag TypeLayout Types Ast Visit Resolve BorrowTypes.

Open Scope nat_scope.

Definition TEMPORARY_BORROW_OWNER : string := "<temporary>".

Record Owner := mkOwner { o_id : option LocalId; o_name : string }.

#[export] Instance Owner_eq_dec : EqDecision Owner.
Proof. solve_decision. Defined.

Definition Owner_temporary : Owner := mkOwner None TEMPORARY_BORROW_OWNER.

Definition is_temporary (o : Owner) : bool :=
  match o_id o with None => bool_decide (o_name o = TEMPORARY_BORROW_OWNER) | Some _ => false end.

Record BorrowBinding := mkBorrow {
  b_owner : Owner; b_mutable : bool; b_last_use : Z; b_local_escape : bool; b_field_path : option (list string) }.

Record BindingState := mkBinding {
  id : LocalId; name : string; copy : bool; bty : option Ty; moved_at : option Span; move_count : nat;
  borrows : list BorrowBinding }.

Record OwnershipState := mkState {
  scopes : list (gmap LocalId BindingState);
  scope_order : list (list LocalId);
  reachable : bool;
  current_statement : Z;
  last_uses : list (gmap LocalId Z);
  temporary_borrows : list BorrowBinding;
  loop_boundaries : list nat }.

Definition OwnershipState_new : OwnershipState := mkState [] [] true 0 [] [] [].

Definition with_scopes (sc : list (gmap LocalId BindingState)) (s : OwnershipState) : OwnershipState :=
  mkState sc (scope_order s) (reachable s) (current_statement s) (last_uses s) (temporary_borrows s) (loop_boundaries s).
Definition with_stack (sc : list (gmap LocalId BindingState)) (so : list (list LocalId)) (s : OwnershipState) : OwnershipState :=
  mkState sc so (reachable s) (current_statement s) (last_uses s) (temporary_borrows s) (loop_boundaries s).
Definition with_reachable (b : bool) (s : OwnershipState) : OwnershipState :=
  mkState (scopes s) (scope_order s) b (current_statement s) (last_uses s) (temporary_borrows s) (loop_boundaries s).
Definition with_statement (z : Z) (s : OwnershipState) : OwnershipState :=
  mkState (scopes s) (scope_order s) (reachable s) z (last_uses s) (temporary_borrows s) (loop_boundaries s).
Definition with_last_uses (u : list (gmap LocalId Z)) (s : OwnershipState) : OwnershipState :=
  mkState (scopes s) (scope_order s) (reachable s) (current_statement s) u (temporary_borrows s) (loop_boundaries s).
Definition with_temporaries (t : list BorrowBinding) (s : OwnershipState) : OwnershipState :=
  mkState (scopes s) (scope_order s) (reachable s) (current_statement s) (last_uses s) t (loop_boundaries s).
Definition with_boundaries (l : list nat) (s : OwnershipState) : OwnershipState :=
  mkState (scopes s) (scope_order s) (reachable s) (current_statement s) (last_uses s) (temporary_borrows s) l.

(** [Vec::pop] *)
Definition pop {A} (l : list A) : list A := take (pred (length l)) l.

(** [if let Some(x) = v.last_mut() { .. }] *)
Definition alter_last {A} (f : A -> A) (l : list A) : list A := alter f (pred (length l)) l.

Definition push_scope (s : OwnershipState) : OwnershipState := with_stack (scopes s ++ [∅]) (scope_order s ++ [[]]) s.
Definition pop_scope (s : OwnershipState) : OwnershipState := with_stack (pop (scopes s)) (pop (scope_order s)) s.

Definition binding_by_id (i : LocalId) (s : OwnershipState) : option BindingState :=
  head (omap (fun scope => scope !! i) (rev (scopes s))).

(** [if let Some(binding) = state.binding_by_id_mut(id) { .. }]: the innermost
    scope that has the local. *)
Fixpoint alter_first (f : BindingState -> BindingState) (i : LocalId) (rev_scopes : list (gmap LocalId BindingState))
  : list (gmap LocalId BindingState) :=
  match rev_scopes with
  | [] => []
  | scope :: rest =>
      match scope !! i with
      | Some b => <[i := f b]> scope :: rest
      | None => scope :: alter_first f i rest
      end
  end.

Definition alter_binding (f : BindingState -> BindingState) (i : LocalId) (s : OwnershipState) : OwnershipState :=
  with_scopes (rev (alter_first f i (rev (scopes s)))) s.

Definition with_moved (m : option Span) (b : BindingState) : BindingState :=
  mkBinding (id b) (name b) (copy b) (bty b) m (move_count b) (borrows b).
Definition with_count (n : nat) (b : BindingState) : BindingState :=
  mkBinding (id b) (name b) (copy b) (bty b) (moved_at b) n (borrows b).
Definition with_borrows (l : list BorrowBinding) (b : BindingState) : BindingState :=
  mkBinding (id b) (name b) (copy b) (bty b) (moved_at b) (move_count b) l.

Definition is_moved (b : BindingState) : bool := bool_decide (moved_at b <> None).

(** ** Places and positions *)

Definition expr_span (e : Expr) : Span :=
  match e with
  | ELiteral _ sp | EIdent _ sp | EReturn _ sp | EBreak _ sp | EContinue sp | EQuote _ sp | ESplice _ sp | EYield _ sp
  | ETuple _ sp | EUnsafe _ sp | EIf _ _ _ sp | ELoop _ sp | EWhile _ _ sp | EMatch _ _ sp | ECall _ _ _ sp
  | EMethodCall _ _ _ sp | EAssociatedCall _ _ _ sp | EBinary _ _ _ sp | EUnary _ _ sp | EAssign _ _ sp | EField _ _ sp
  | EIndex _ _ sp | ESpawn _ sp | EClosure _ _ sp | ESelect _ _ sp | EComptime _ sp | EStructLiteral _ _ sp
  | EBorrow _ _ sp | ETry _ sp | ECast _ _ sp => sp
  | EBlock (mkBlock _ _ sp) => sp
  end.

Definition start_of (sp : Span) : Z := Z.of_nat (start sp).

Definition statement_position (st : Stmt) : Z :=
  match st with
  | SLet (mkLetStmt _ _ _ _ sp) => start_of sp
  | SExpr e => start_of (expr_span e)
  | SItem _ => 0
  end.

Fixpoint place_root (e : Expr) : option Expr :=
  match e with
  | EIdent _ _ => Some e
  | EField base _ _ | EIndex base _ _ => place_root base
  | EUnary Deref inner _ => place_root inner
  | _ => None
  end.

Fixpoint root_place_name (e : Expr) : option Expr :=
  match e with
  | EIdent _ _ => Some e
  | EField base _ _ => root_place_name base
  | _ => None
  end.

Fixpoint place_field_path (e : Expr) : option (list string) :=
  match e with
  | EIdent _ _ => Some []
  | EField base field _ => path ← place_field_path base; Some (path ++ [field])
  | _ => None
  end.

Definition is_ident (e : Expr) : bool := match e with EIdent _ _ => true | _ => false end.

(** ** Uses of locals *)

Section Uses.
Context (locals : Locals).

Fixpoint collect_expr_uses (e : Expr) (uses : gmap LocalId Z) : gmap LocalId Z :=
  match e with
  | EIdent _ sp => match Locals_expr locals e with Some i => <[i := start_of sp]> uses | None => uses end
  | EBlock b | EUnsafe b _ | ELoop b _ => collect_block_uses b uses
  | EIf condition then_branch else_branch _ =>
      if_some collect_expr_uses else_branch (collect_block_uses then_branch (collect_expr_uses condition uses))
  | EWhile condition body _ => collect_block_uses body (collect_expr_uses condition uses)
  | EMatch scrutinee arms _ =>
      for_each
        (fun arm uses =>
           let 'mkMatchArm _ guard body _ := arm in collect_expr_uses body (if_some collect_expr_uses guard uses))
        arms (collect_expr_uses scrutinee uses)
  | ECall callee _ args _ => for_each collect_expr_uses args (collect_expr_uses callee uses)
  | EMethodCall receiver _ args _ => for_each collect_expr_uses args (collect_expr_uses receiver uses)
  | EAssociatedCall _ _ args _ | ETuple args _ => for_each collect_expr_uses args uses
  | EStructLiteral _ fs _ => for_each (fun f => collect_expr_uses f.2) fs uses
  | EBinary _ lhs rhs _ => collect_expr_uses rhs (collect_expr_uses lhs uses)
  | EUnary _ e _ | ESpawn e _ | EClosure _ e _ | EComptime e _ | EYield e _ | EBorrow _ e _ | ETry e _ | ECast e _ _ =>
      collect_expr_uses e uses
  | EReturn value _ | EBreak value _ => if_some collect_expr_uses value uses
  | EAssign target value _ => collect_expr_uses value (collect_expr_uses target uses)
  | EField base _ _ => collect_expr_uses base uses
  | EIndex base index _ => for_each collect_expr_uses index (collect_expr_uses base uses)
  | ESelect arms default_ _ =>
      let stmts_of := fun b uses => let 'mkBlock stmts _ _ := b in for_each collect_statement_uses stmts uses in
      if_some stmts_of default_
        (for_each
           (fun arm uses => let 'mkSelectArm operation body _ := arm in stmts_of body (collect_expr_uses operation uses))
           arms uses)
  | ELiteral _ _ | EContinue _ | EQuote _ _ | ESplice _ _ => uses
  end
with collect_block_uses (b : Block) (uses : gmap LocalId Z) : gmap LocalId Z :=
  let 'mkBlock stmts tail _ := b in if_some collect_expr_uses tail (for_each collect_statement_uses stmts uses)
with collect_statement_uses (st : Stmt) (uses : gmap LocalId Z) : gmap LocalId Z :=
  match st with
  | SLet (mkLetStmt _ _ _ value _) => if_some collect_expr_uses value uses
  | SExpr e => collect_expr_uses e uses
  | SItem _ => uses
  end.

Definition block_last_uses (b : Block) : gmap LocalId Z := collect_block_uses b ∅.

Fixpoint collect_pattern_ids (p : Pat) (ids : gset LocalId) : gset LocalId :=
  let extend := fun p ids => match Locals_pat locals p with Some i => {[i]} ∪ ids | None => ids end in
  match p with
  | PIdent _ _ => extend p ids
  | PBinding _ inner _ => collect_pattern_ids inner (extend p ids)
  | PTuple items _ | PEnum _ items _ | POr items _ => for_each collect_pattern_ids items ids
  | PStruct _ fs _ _ => for_each (fun f => collect_pattern_ids f.2) fs ids
  | PReference _ inner _ => collect_pattern_ids inner ids
  | PRange _ _ _ _ | PWildcard _ | PLiteral _ _ => ids
  end.
End Uses.

Section State.
Context (p : Program) (copy_names : gset string).

Abbreviation locals := (p_locals p).

Definition get_id (e : Expr) : option LocalId := Locals_expr locals e.

Definition get (e : Expr) (s : OwnershipState) : option BindingState := i ← get_id e; binding_by_id i s.

Definition owner (e : Expr) (s : OwnershipState) : Owner :=
  mkOwner (id <$> get e s) (match e with EIdent name _ => name | _ => EmptyString end).

Definition define_with_borrows (pattern : Pat) (copy : bool) (ty : option Ty) (borrows : list BorrowBinding)
  (s : OwnershipState) : OwnershipState :=
  match Locals_pat locals pattern, pattern with
  | Some i, (PIdent name _ | PBinding name _ _) =>
      match scopes s with
      | [] => s
      | _ :: _ =>
          let binding := mkBinding i name copy ty None 0 borrows in
          with_stack (alter_last (<[i := binding]>) (scopes s)) (alter_last (fun order => order ++ [i]) (scope_order s)) s
      end
  | _, _ => s
  end.

Definition define (pattern : Pat) (copy : bool) (ty : option Ty) (s : OwnershipState) : OwnershipState :=
  define_with_borrows pattern copy ty [] s.

(** ** Binding patterns *)

(** [for (index, x) in l.iter().enumerate() { .. }] *)
Definition for_indexed {A S} (f : nat -> A -> S -> S) : nat -> list A -> S -> S :=
  fix go index l s := match l with [] => s | x :: l => go (Datatypes.S index) l (f index x s) end.

Fixpoint bind_pattern (pattern : Pat) (copy : bool) (ty : option Ty) (s : OwnershipState) : OwnershipState :=
  let bind_field := fun field field_ty s =>
    bind_pattern field (match field_ty with Some t => ty_is_copy t copy_names | None => copy end) field_ty s in
  let or_else := fun (field_ty : option Ty) => match field_ty with Some t => Some t | None => ty end in
  match pattern with
  | PIdent _ _ => define pattern copy ty s
  | PBinding _ inner _ => bind_pattern inner copy ty (define pattern copy ty s)
  | PTuple fs _ =>
      let field_tys := match ty with Some (TTuple items _) => items | _ => [] end in
      for_indexed (fun index field => bind_field field (or_else (field_tys !! index))) 0 fs s
  | POr fs _ => for_each (fun field => bind_pattern field copy ty) fs s
  | PStruct _ fs _ _ =>
      for_each (fun f => bind_field f.2 (or_else (t ← ty; field_ty_from_type p t f.1))) fs s
  | PEnum path fs _ =>
      let field_tys := variant_tys_from_pattern p path ty in
      for_indexed (fun index field => bind_field field (or_else (field_tys !! index))) 0 fs s
  | PReference _ inner _ => bind_pattern inner copy ty s
  | PRange _ _ _ _ | PWildcard _ | PLiteral _ _ => s
  end.

(** ** Types of expressions *)

Definition typed_copy (e : Expr) : option bool := ty ← expr_types p e; type_is_copy ty copy_names.

(** [method_signature(receiver, method)] with the type of the receiver *)
Definition method_signature (receiver_ty : option Ty) (method : string) : option FunctionSignature :=
  match (ty ← receiver_ty; name ← type_name ty; methods p !! (name, method)) with
  | Some signature => Some signature
  | None => intrinsics p !! method
  end.

Definition copy_ty (ty : option Ty) : bool := match ty with Some ty => ty_is_copy ty copy_names | None => false end.

(** [expr_ty] is the function below. *)
Definition expr_is_copy_with (expr_ty : Expr -> OwnershipState -> option Ty) (e : Expr) (s : OwnershipState) : bool :=
  match typed_copy e with
  | Some copy => copy
  | None =>
      match e with
      | ELiteral l _ => match l with LString _ => false | _ => true end
      | EIdent _ _ => match get e s with Some binding => copy binding | None => false end
      | ECall callee _ _ _ =>
          match callee with EIdent name _ => copy_ty (signature ← functions p !! name; s_return signature) | _ => false end
      | EMethodCall receiver method _ _ =>
          (bool_decide (float_intrinsic_arity method <> None) &&
           bool_decide (method_signature (expr_ty receiver s) method = None)) || copy_ty (expr_ty e s)
      | EAssociatedCall _ _ _ _ | EField _ _ _ => copy_ty (expr_ty e s)
      | EBinary _ _ _ _ | EUnary _ _ _ => true
      | _ => false
      end
  end.

(** [call_substitutions] and, for the parameters after the receiver,
    [method_call_substitutions], with the types of the arguments *)
Definition substitutions_for (params : list Ty) (generics : list string) (arg_tys : list (option Ty)) : gmap string Ty :=
  let subs :=
    for_zip (fun param arg subs => match arg with Some arg => collect_substitutions param arg generics subs | None => subs end)
      params arg_tys ∅ in
  fold_left (fun subs generic => or_insert subs generic (path_ty generic)) generics subs.

Definition call_substitutions (signature : FunctionSignature) (arg_tys : list (option Ty)) : gmap string Ty :=
  substitutions_for (s_params signature) (s_generics signature) arg_tys.

Definition method_call_substitutions (signature : FunctionSignature) (arg_tys : list (option Ty)) : gmap string Ty :=
  substitutions_for (tail (s_params signature)) (s_generics signature) arg_tys.

Definition method_result (signature : FunctionSignature) (receiver_ty : option Ty) (arg_tys : list (option Ty)) : option Ty :=
  ty ← s_return signature;
  let substitutions := method_call_substitutions signature arg_tys in
  let substitutions :=
    match receiver_ty with Some t => <["Self"%string := strip_borrow t]> substitutions | None => substitutions end in
  Some (substitute_ty ty substitutions).

(** [collect::<Option<Vec<_>>>()] *)
Definition collect_options {A} (l : list (option A)) : option (list A) :=
  foldr (fun o acc => x ← o; xs ← acc; Some (x :: xs)) (Some []) l.

Definition associated_result (ty : Ty) (function : string) (args : list Expr) (arg_tys : list (option Ty)) (sp : Span) : option Ty :=
  match (match ty with TPath [name] _ => signature ← functions p !! qualified name function; Some (name, signature) | _ => None end) with
  | Some (name, signature) =>
      if bool_decide (qualified name function ∈ grads p) then grad_result_ty p args sp else s_return signature
  | None =>
      match (name ← type_name ty; signature ← methods p !! (name, function); return_ty ← s_return signature; Some (signature, return_ty)) with
      | Some (signature, return_ty) =>
          match return_ty with
          | TPath path _ =>
              if bool_decide (path = ["Self"%string]) then Some ty
              else Some (substitute_ty return_ty (<["Self"%string := ty]> (call_substitutions signature arg_tys)))
          | _ => Some (substitute_ty return_ty (<["Self"%string := ty]> (call_substitutions signature arg_tys)))
          end
      | None => Some ty
      end
  end.

Definition call_result (e callee : Expr) (args : list Expr) (arg_tys : list (option Ty)) : option Ty :=
  match callee with
  | EIdent name _ =>
      if bool_decide (name ∈ grads p) then grad_result_ty p args (expr_span e)
      else
        signature ← functions p !! name;
        ty ← s_return signature;
        let item_ty := substitute_ty ty (call_substitutions signature arg_tys) in
        if bool_decide (name ∈ iter_functions p) then Some (generic_ty "Generator" [item_ty]) else Some item_ty
  | _ => None
  end.

(** The type and the copying of a [let], from its annotation or its value *)
Definition let_ty (expr_ty : Expr -> OwnershipState -> option Ty) (ty : option Ty) (value : option Expr) (s : OwnershipState) : option Ty :=
  match ty with Some t => Some t | None => match value with Some e => expr_ty e s | None => None end end.

Definition let_copy (expr_ty : Expr -> OwnershipState -> option Ty) (binding_ty : option Ty) (value : option Expr) (s : OwnershipState) : bool :=
  match binding_ty with
  | Some t => ty_is_copy t copy_names
  | None => match value with Some e => expr_is_copy_with expr_ty e s | None => false end
  end.

(** One node, with the types of its parts *)
Definition expr_ty_node (expr_ty : Expr -> OwnershipState -> option Ty) (block_ty : Block -> OwnershipState -> option Ty)
  (e : Expr) (s : OwnershipState) : option Ty :=
  match e with
  | EBinary op lhs rhs _ =>
      method ← operator_method op;
      signature ← method_signature (expr_ty lhs s) method;
      method_result signature (expr_ty lhs s) [expr_ty rhs s]
  | ELiteral l sp => Some (literal_ty l sp)
  | EIdent _ _ => binding ← get e s; bty binding
  | EBlock b => block_ty b s
  | EIf _ then_branch else_branch _ =>
      then_ty ← block_ty then_branch s;
      else_ty ← match else_branch with Some branch => expr_ty branch s | None => None end;
      if same_ty_shape then_ty else_ty then Some then_ty else None
  | EMatch scrutinee arms _ =>
      (* [match_arm_body_ty] of each arm *)
      let tys :=
        map
          (fun arm =>
             let 'mkMatchArm pattern _ body _ := arm in
             let scrutinee_ty := expr_ty scrutinee s in
             expr_ty body (bind_pattern pattern (copy_ty scrutinee_ty) scrutinee_ty (push_scope s)))
          arms in
      match tys with
      | Some first_ty :: _ =>
          if forallb (fun ty => match ty with Some ty => same_ty_shape ty first_ty | None => false end) tys
          then Some first_ty else None
      | _ => None
      end
  | EStructLiteral ty _ _ => Some ty
  | ETuple [] _ => None
  | ETuple items sp => tys ← collect_options (map (fun item => expr_ty item s) items); Some (TTuple tys sp)
  | EAssociatedCall ty function args sp => associated_result ty function args (map (fun arg => expr_ty arg s) args) sp
  | EMethodCall receiver method args _ =>
      signature ← method_signature (expr_ty receiver s) method;
      method_result signature (expr_ty receiver s) (map (fun arg => expr_ty arg s) args)
  | EField base field _ => base_ty ← expr_ty base s; field_ty_from_type p base_ty field
  | EBorrow mutable e sp => ty ← expr_ty e s; Some (TBorrow mutable None ty sp)
  | ECall callee _ args _ => call_result e callee args (map (fun arg => expr_ty arg s) args)
  | _ => None
  end.

Definition block_ty_node (expr_ty : Expr -> OwnershipState -> option Ty) (b : Block) (s : OwnershipState) : option Ty :=
  let 'mkBlock stmts tail _ := b in
  let local_state :=
    for_each
      (fun st s =>
         match st with
         | SLet (mkLetStmt _ pattern ty value _) =>
             let binding_ty := let_ty expr_ty ty value s in
             bind_pattern pattern (let_copy expr_ty binding_ty value s) binding_ty s
         | _ => s
         end)
      stmts (push_scope s) in
  match tail with Some tail => expr_ty tail local_state | None => None end.

Fixpoint expr_ty (e : Expr) (s : OwnershipState) : option Ty := expr_ty_node expr_ty block_ty e s
with block_ty (b : Block) (s : OwnershipState) : option Ty := block_ty_node expr_ty b s.

Definition expr_is_copy (e : Expr) (s : OwnershipState) : bool := expr_is_copy_with expr_ty e s.

(** ** Borrows *)

Record BorrowOrigin := mkOrigin { g_owner : Owner; g_mutable : bool; g_local_escape : bool; g_field_path : option (list string) }.

Definition origin_of_borrow (b : BorrowBinding) : BorrowOrigin := mkOrigin (b_owner b) (b_mutable b) (b_local_escape b) (b_field_path b).
Definition borrow_of_origin (last_use : Z) (o : BorrowOrigin) : BorrowBinding :=
  mkBorrow (g_owner o) (g_mutable o) last_use (g_local_escape o) (g_field_path o).
Definition plain_origin (o : Owner * bool) : BorrowOrigin := mkOrigin o.1 o.2 false None.
Definition plain_borrow (last_use : Z) (o : Owner * bool) : BorrowBinding := mkBorrow o.1 o.2 last_use false None.

(** Live borrows of [owner], each with the name of the binding holding it. *)
Definition active_borrows_of (owner : Owner) (s : OwnershipState) : list (string * BorrowBinding) :=
  let held :=
    flat_map (fun scope => flat_map (fun e => map (fun borrow => (name e.2, borrow)) (borrows e.2)) (map_to_list scope)) (scopes s) in
  List.filter
    (fun hb => bool_decide (b_owner hb.2 = owner) && (current_statement s <=? b_last_use hb.2)%Z)
    (held ++ map (fun borrow => (TEMPORARY_BORROW_OWNER, borrow)) (temporary_borrows s)).

Definition borrow_owners (e : Expr) (mutable : bool) (s : OwnershipState) : list (Owner * bool) :=
  match place_root e with
  | None => []
  | Some root =>
      match get root s with
      | Some (mkBinding _ _ _ _ _ _ (b :: bs)) => map (fun borrow => (b_owner borrow, mutable && b_mutable borrow)) (b :: bs)
      | _ => [(owner root s, mutable)]
      end
  end.

Definition is_literal (e : Expr) : bool := match e with ELiteral _ _ => true | _ => false end.

Definition borrow_owners_or_temporary (e : Expr) (mutable : bool) (s : OwnershipState) : list (Owner * bool) :=
  match borrow_owners e mutable s with
  | [] => if negb (is_literal e) && bool_decide (expr_ty e s <> None) then [(Owner_temporary, mutable)] else []
  | owners => owners
  end.

Definition temporary_borrow_bindings (mutable : bool) (e : Expr) (position : Z) (s : OwnershipState) : list BorrowBinding :=
  map (plain_borrow position) (borrow_owners e mutable s).

(** The outer locals a closure body refers to, ordered by name *)
Definition used_bindings (e : Expr) (s : OwnershipState) : list BindingState :=
  stable_sort (fun l r => String.leb (name l) (name r))
    (omap (fun u => binding_by_id u.1 s) (map_to_list (collect_expr_uses locals e ∅))).

Definition closure_captures (body : Expr) (s : OwnershipState) : list LocalId := map id (used_bindings body s).

Definition current_last_use (e : Expr) (s : OwnershipState) : Z :=
  match get_id e with
  | None => 0
  | Some i => default 0%Z (head (omap (fun uses => uses !! i) (rev (last_uses s))))
  end.

Definition field_borrow_origins (e : Expr) (s : OwnershipState) : list BorrowOrigin :=
  match e with
  | EField _ _ _ =>
      match root_place_name e, place_field_path e with
      | Some root, Some field_path =>
          match get root s with
          | Some binding =>
              map (fun b => mkOrigin (b_owner b) (b_mutable b) (b_local_escape b) None)
                (List.filter (fun b => bool_decide (b_field_path b = Some field_path)) (borrows binding))
          | None => []
          end
      | _, _ => []
      end
  | _ => []
  end.

Definition prefix_origin_field_path (o : BorrowOrigin) (prefix : list string) : BorrowOrigin :=
  mkOrigin (g_owner o) (g_mutable o) (g_local_escape o) (Some (prefix ++ default [] (g_field_path o))).

Definition prefix_borrow_field_path (b : BorrowBinding) (prefix : list string) : BorrowBinding :=
  mkBorrow (b_owner b) (b_mutable b) (b_last_use b) (b_local_escape b) (Some (prefix ++ default [] (b_field_path b))).

Definition borrow_field_path_starts_with (b : BorrowBinding) (prefix : list string) : bool :=
  match b_field_path b with Some path => bool_decide (take (length prefix) path = prefix) | None => false end.

Definition bind_pattern_origins (pattern : Pat) (origins : list BorrowOrigin) (s : OwnershipState) : OwnershipState :=
  match origins with
  | [] => s
  | _ :: _ =>
      fold_left
        (fun s i =>
           alter_binding
             (fun binding =>
                if match bty binding with Some ty => ty_may_hold_borrow_or_generic p ty | None => true end
                then with_borrows (map (fun o => mkBorrow (g_owner o) (g_mutable o) 0 (g_local_escape o) None) origins) binding
                else binding) i s)
        (elements (collect_pattern_ids locals pattern ∅)) s
  end.

Definition bind_destructuring_pattern (pattern : Pat) (copy : bool) (ty : option Ty) (bs : list BorrowBinding) (s : OwnershipState)
  : OwnershipState :=
  let origins := map (fun b => mkOrigin (b_owner b) (b_mutable b) (b_local_escape b) None) bs in
  bind_pattern_origins pattern origins (bind_pattern pattern copy ty s).

Definition define_pattern_for_origin (pattern : Pat) (copy : bool) (ty : option Ty) (bs : list BorrowBinding) (s : OwnershipState)
  : OwnershipState :=
  match pattern with
  | PIdent _ _ => define_with_borrows pattern copy ty bs s
  | _ => bind_destructuring_pattern pattern copy ty bs s
  end.

(** [borrow_bindings] with the origins of the value *)
Definition borrow_bindings (origins : option (list BorrowOrigin)) (pattern : Pat) (uses : gmap LocalId Z) : list BorrowBinding :=
  match origins with
  | None => []
  | Some origins =>
      let last_use :=
        match pattern with
        | PIdent _ _ => default 0%Z (i ← Locals_pat locals pattern; uses !! i)
        | _ => 0%Z
        end in
      map (borrow_of_origin last_use) origins
  end.

(** Whether a parameter of the type lends to a result with the lifetime *)
Definition lends (param : Ty) (return_lifetime : option string) : bool :=
  match param with
  | TBorrow _ param_lifetime _ _ =>
      match return_lifetime with Some l => bool_decide (param_lifetime = Some l) | None => true end
  | _ => false
  end.

(** The two helpers below take the origins of the receiver and of the
    arguments. *)
Definition held_borrow_origins (call : Expr) (receiver_origins : option (list BorrowOrigin)) (params : list Ty)
  (arg_origins : list (list BorrowOrigin)) (s : OwnershipState) : list BorrowOrigin :=
  if match expr_ty call s with Some ty => ty_may_hold_borrow p ty | None => false end then
    let has_receiver := match receiver_origins with Some _ => true | None => false end in
    for_zip (fun param origins acc => if has_receiver && is_borrow_ty param then acc else acc ++ origins)
      (if has_receiver then tail params else params) arg_origins (default [] receiver_origins)
  else [].

Definition borrow_origins_from_params (params : list Ty) (arg_origins : list (list BorrowOrigin))
  (receiver_owners : option (list (Owner * bool))) (returned_mutable : bool) (return_lifetime : option string)
  : list BorrowOrigin :=
  let '(origins, contributing) :=
    for_indexed
      (fun index param acc =>
         if lends param return_lifetime then
           let of_arg := fun i => map (fun o => mkOrigin (g_owner o) returned_mutable (g_local_escape o) None) (default [] (arg_origins !! i)) in
           let param_origins :=
             match receiver_owners with
             | Some owners => match index with O => map plain_origin owners | Datatypes.S i => of_arg i end
             | None => of_arg index
             end in
           match param_origins with [] => acc | _ :: _ => (acc.1 ++ param_origins, Datatypes.S acc.2) end
         else acc)
      0 params ([], 0) in
  if bool_decide (return_lifetime <> None) || (contributing =? 1) then origins else [].

(** An origin of a block that is a local of the block escapes it. *)
Definition mark_local_escape (s local_state : OwnershipState) (o : BorrowOrigin) : BorrowOrigin :=
  if negb (is_temporary (g_owner o)) &&
     bool_decide ((i ← o_id (g_owner o); id <$> binding_by_id i s) = None) &&
     bool_decide ((i ← o_id (g_owner o); id <$> binding_by_id i local_state) <> None)
  then mkOrigin (g_owner o) (g_mutable o) true (g_field_path o) else o.

Fixpoint borrow_origins_from_expr (e : Expr) (s : OwnershipState) : list BorrowOrigin :=
  match e with
  | EBorrow mutable inner _ => map plain_origin (borrow_owners_or_temporary inner mutable s)
  | EIdent _ _ => match get e s with Some binding => map origin_of_borrow (borrows binding) | None => [] end
  | ECall callee _ args _ =>
      match callee with
      | EIdent function_name _ =>
          if is_variant_constructor p function_name then flat_map (fun arg => borrow_origins_from_expr arg s) args
          else
            match functions p !! function_name with
            | None => []
            | Some signature =>
                let arg_origins := map (fun arg => borrow_origins_from_expr arg s) args in
                match s_return signature with
                | Some (TBorrow mutable return_lifetime _ _) =>
                    borrow_origins_from_params (s_params signature) arg_origins None mutable return_lifetime
                | _ => held_borrow_origins e None (s_params signature) arg_origins s
                end
            end
      | _ => []
      end
  | EMethodCall receiver method args _ =>
      match method_signature (expr_ty receiver s) method with
      | None => []
      | Some signature =>
          let arg_origins := map (fun arg => borrow_origins_from_expr arg s) args in
          match s_return signature with
          | Some (TBorrow mutable return_lifetime _ _) =>
              borrow_origins_from_params (s_params signature) arg_origins (Some (borrow_owners_or_temporary receiver mutable s))
                mutable return_lifetime
          | _ => held_borrow_origins e (Some (borrow_origins_from_expr receiver s)) (s_params signature) arg_origins s
          end
      end
  | EBlock b => borrow_origins_from_block b s
  | EField _ _ _ => match expr_ty e s with Some (TBorrow _ _ _ _) => field_borrow_origins e s | _ => [] end
  | EStructLiteral _ fs _ =>
      flat_map (fun f => map (fun o => prefix_origin_field_path o [f.1]) (borrow_origins_from_expr f.2 s)) fs
  | ETuple items _ => flat_map (fun item => borrow_origins_from_expr item s) items
  | EClosure _ body _ =>
      flat_map (fun i => match binding_by_id i s with Some binding => map origin_of_borrow (borrows binding) | None => [] end)
        (closure_captures body s)
  | EIf _ then_branch else_branch _ =>
      borrow_origins_from_block then_branch s ++
      match else_branch with Some branch => borrow_origins_from_expr branch s | None => [] end
  | EAssociatedCall ty function args _ =>
      match type_name ty with
      | None => []
      | Some name =>
          let arg_origins := map (fun arg => borrow_origins_from_expr arg s) args in
          match variants p !! (name, function) with
          | Some _ => concat arg_origins
          | None =>
              match methods p !! (name, function) with
              | Some signature =>
                  match s_return signature with
                  | Some (TBorrow _ _ _ _) => []
                  | _ => held_borrow_origins e None (s_params signature) arg_origins s
                  end
              | None => []
              end
          end
      end
  | EMatch scrutinee arms _ =>
      let scrutinee_origins := borrow_origins_from_expr scrutinee s in
      let scrutinee_ty := expr_ty scrutinee s in
      flat_map
        (fun arm =>
           let 'mkMatchArm pattern _ body _ := arm in
           borrow_origins_from_expr body
             (bind_pattern_origins pattern scrutinee_origins (bind_pattern pattern false scrutinee_ty (push_scope s))))
        arms
  | _ => []
  end
with borrow_origins_from_block (b : Block) (s : OwnershipState) : list BorrowOrigin :=
  let 'mkBlock stmts tail _ := b in
  let uses := block_last_uses locals b in
  let local_state :=
    for_each
      (fun st s =>
         let s := with_statement (statement_position st) s in
         match st with
         | SLet (mkLetStmt _ pattern ty value _) =>
             let binding_ty := let_ty expr_ty ty value s in
             let origins := match value with Some e => Some (borrow_origins_from_expr e s) | None => None end in
             define_pattern_for_origin pattern (let_copy expr_ty binding_ty value s) binding_ty
               (borrow_bindings origins pattern uses) s
         | _ => s
         end)
      stmts (push_scope s) in
  map (mark_local_escape s local_state) (match tail with Some tail => borrow_origins_from_expr tail local_state | None => [] end).

Definition borrow_bindings_for_name (value : Expr) (last_use : Z) (s : OwnershipState) : list BorrowBinding :=
  map (borrow_of_origin last_use) (borrow_origins_from_expr value s).

Definition temporary_borrows_for_expr (e : Expr) (s : OwnershipState) : list BorrowBinding :=
  map (borrow_of_origin (current_statement s)) (borrow_origins_from_expr e s).

Definition binding_is_reference (b : BindingState) : bool :=
  match borrows b, bty b with [], Some (TBorrow _ _ _ _) => true | _, _ => false end.

Definition origin_is_local (o : BorrowOrigin) (s : OwnershipState) : bool :=
  g_local_escape o || is_temporary (g_owner o) ||
  match (i ← o_id (g_owner o); binding_by_id i s) with Some binding => negb (binding_is_reference binding) | None => false end.
End State.
