(* ===== verification/BorrowEscape.v ===== *)
(** The returned-borrow analysis of the borrow checker:
    [compiler/paco-borrow/src/lib.rs].

    A syntactic analysis of the value of a block: which local of the block a
    returned reference borrows from, if any ([returned_local_borrow_owner]).
    It knows the owned locals in scope, their types and the owners that
    reference-holding locals borrow from ([EscapeScope]). *)
From S2P Require Import Prelude Span Diag TypeLayout Types Ast Visit Resolve BorrowTypes BorrowState.

Open Scope nat_scope.

Record EscapeScope := mkEscape { e_names : gmap LocalId string; e_types : gmap LocalId Ty; e_origins : gmap LocalId Owner }.

Definition EscapeScope_default : EscapeScope := mkEscape ∅ ∅ ∅.

Section Escape.
Context (p : Program).

Abbreviation locals := (p_locals p).

Fixpoint method_receiver_type_name (ty : Ty) : option string :=
  match ty with TBorrow _ _ ty _ => method_receiver_type_name ty | _ => type_name ty end.

(** [receiver_type_name_from_expr] with the receiver's [escape_expr_ty], which
    of an identifier is its entry in the scope. *)
Definition receiver_type_name_from_ty (receiver_ty : option Ty) : option string := ty ← receiver_ty; method_receiver_type_name ty.

Fixpoint escape_expr_ty (e : Expr) (scope : EscapeScope) : option Ty :=
  match e with
  | EIdent _ _ => i ← Locals_expr locals e; e_types scope !! i
  | EStructLiteral ty _ _ => Some ty
  | EBorrow mutable inner sp => ty ← escape_expr_ty inner scope; Some (TBorrow mutable None ty sp)
  | ECall callee _ _ _ =>
      match callee with EIdent name _ => signature ← functions p !! name; s_return signature | _ => None end
  | EAssociatedCall ty function _ _ =>
      match (name ← type_name ty; signature ← methods p !! (name, function); s_return signature) with
      | Some return_ty => Some return_ty
      | None => Some ty
      end
  | EMethodCall receiver method _ _ =>
      receiver_ty ← receiver_type_name_from_ty (escape_expr_ty receiver scope);
      signature ← methods p !! (receiver_ty, method); s_return signature
  | EBlock (mkBlock _ tail _) => match tail with Some tail => escape_expr_ty tail scope | None => None end
  | _ => None
  end.

Definition local_binding_ty (ty : option Ty) (value : option Expr) (scope : EscapeScope) : option Ty :=
  match ty with Some t => Some t | None => value ← value; escape_expr_ty value scope end.

Definition receiver_type_name_for_escape (receiver : Expr) (scope : EscapeScope) : option string :=
  let by_scope :=
    i ← Locals_expr locals receiver;
    ty ← match e_types scope !! i with
         | Some ty => Some ty
         | None => origin ← e_origins scope !! i; j ← o_id origin; e_types scope !! j
         end;
    method_receiver_type_name ty in
  match by_scope with
  | Some name => Some name
  | None => receiver_type_name_from_ty (escape_expr_ty receiver scope)
  end.

Fixpoint local_borrow_owner_from_place (e : Expr) (scope : EscapeScope) : option Owner :=
  match e with
  | EIdent _ _ =>
      i ← Locals_expr locals e;
      match e_names scope !! i with
      | Some name => Some (mkOwner (Some i) name)
      | None => e_origins scope !! i
      end
  | EField base _ _ => local_borrow_owner_from_place base scope
  | _ => None
  end.

Definition local_method_signature (receiver : Expr) (method : string) (scope : EscapeScope) : option FunctionSignature :=
  receiver_ty ← receiver_type_name_for_escape receiver scope; methods p !! (receiver_ty, method).

Definition local_borrow_owner_from_receiver (receiver : Expr) (scope : EscapeScope) : option Owner :=
  match local_borrow_owner_from_place receiver scope with
  | Some o => Some o
  | None => match receiver_type_name_for_escape receiver scope with Some _ => Some Owner_temporary | None => None end
  end.

(** Without a lifetime the single origin, with one the first *)
Definition single_origin (return_lifetime : option string) (origins : list Owner) : option Owner :=
  if bool_decide (return_lifetime <> None) || (length origins =? 1) then head origins else None.

(** The two helpers below take the owners the arguments borrow from. *)
Definition local_borrow_owner_from_call_args (params : list Ty) (arg_owners : list (option Owner)) (return_lifetime : option string)
  : option Owner :=
  single_origin return_lifetime
    (for_zip
       (fun param arg acc => if lends param return_lifetime then match arg with Some o => acc ++ [o] | None => acc end else acc)
       params arg_owners []).

Definition local_borrow_owner_from_method_call (receiver : Expr) (method : string) (arg_owners : list (option Owner)) (scope : EscapeScope)
  : option Owner :=
  signature ← local_method_signature receiver method scope;
  match s_return signature with
  | Some (TBorrow _ return_lifetime _ _) =>
      single_origin return_lifetime
        (for_indexed
           (fun index param acc =>
              if lends param return_lifetime then
                let origin :=
                  match index with
                  | O => local_borrow_owner_from_receiver receiver scope
                  | S i => o ← arg_owners !! i; o
                  end in
                match origin with Some o => acc ++ [o] | None => acc end
              else acc)
           0 (s_params signature) [])
  | _ => None
  end.

(** [iter().find_map(f)] *)
Definition find_map {A B} (f : A -> option B) : list A -> option B :=
  fix go l := match l with [] => None | a :: l => match f a with Some b => Some b | None => go l end end.

Fixpoint local_borrow_owner_from_expr (e : Expr) (scope : EscapeScope) : option Owner :=
  match e with
  | EBorrow _ inner _ =>
      match local_borrow_owner_from_place inner scope with
      | Some o => Some o
      | None => match escape_expr_ty inner scope with Some _ => Some Owner_temporary | None => None end
      end
  | EIdent _ _ => i ← Locals_expr locals e; e_origins scope !! i
  | ECall callee _ args _ =>
      match callee with
      | EIdent name _ =>
          signature ← functions p !! name;
          match s_return signature with
          | Some (TBorrow _ return_lifetime _ _) =>
              local_borrow_owner_from_call_args (s_params signature) (map (fun arg => local_borrow_owner_from_expr arg scope) args)
                return_lifetime
          | _ => None
          end
      | _ => None
      end
  | EMethodCall receiver method args _ =>
      local_borrow_owner_from_method_call receiver method (map (fun arg => local_borrow_owner_from_expr arg scope) args) scope
  | EBlock b => returned_local_borrow_owner b scope
  | EIf _ then_branch else_branch _ =>
      match returned_local_borrow_owner then_branch scope with
      | Some o => Some o
      | None => match else_branch with Some branch => local_borrow_owner_from_expr branch scope | None => None end
      end
  | EMatch _ arms _ => find_map (fun arm => let 'mkMatchArm _ _ body _ := arm in local_borrow_owner_from_expr body scope) arms
  | _ => None
  end
with returned_local_borrow_owner (b : Block) (outer : EscapeScope) : option Owner :=
  let 'mkBlock stmts tail _ := b in
  let scope :=
    for_each
      (fun st scope =>
         match st with
         | SLet (mkLetStmt _ pattern ty value _) =>
             let owner := match value with Some value => local_borrow_owner_from_expr value scope | None => None end in
             let ty := local_binding_ty ty value scope in
             let ids := elements (collect_pattern_ids locals pattern ∅) in
             let scope :=
               mkEscape (e_names scope) (foldr delete (e_types scope) ids) (foldr delete (e_origins scope) ids) in
             match pattern, Locals_pat locals pattern with
             | PIdent name _, Some i =>
                 mkEscape (<[i := name]> (e_names scope))
                   (match ty with Some ty => <[i := ty]> (e_types scope) | None => e_types scope end)
                   (match owner with Some o => <[i := o]> (e_origins scope) | None => e_origins scope end)
             | _, _ => scope
             end
         | _ => scope
         end)
      stmts outer in
  match tail with Some tail => local_borrow_owner_from_expr tail scope | None => None end.

Definition param_pattern (q : Param) : Pat := let 'mkParam pattern _ _ := q in pattern.

Definition ident_id (pattern : Pat) : option LocalId :=
  match pattern with PIdent _ _ => Locals_pat locals pattern | _ => None end.

Definition owned_param_types (params : list Param) : gmap LocalId Ty :=
  fold_left
    (fun m q => match ident_id (param_pattern q) with Some i => <[i := param_ty q]> m | None => m end)
    (List.filter (fun q => negb (is_borrow_ty (param_ty q))) params) ∅.

(** ** Reports *)

Definition error (code : string) (sp : Span) (message : str) (r : Reporter) : Reporter :=
  Reporter_push r (Diagnostic_error (chars code) sp message).

Definition quoted (n : string) : str := chars "`" ++ chars n ++ chars "`".

Definition borrow_outlives_owner_message (n : string) : str :=
  if bool_decide (n = TEMPORARY_BORROW_OWNER) then chars "borrow of temporary value cannot outlive its owner"
  else chars "borrow of local " ++ quoted n ++ chars " cannot outlive its owner".

Definition check_lifetime_signature (f : FnDecl) (r : Reporter) : bool * Reporter :=
  let 'mkFnDecl fname _ _ params return_ty body _ _ _ _ _ _ _ := f in
  match return_ty with
  | Some (TBorrow _ lifetime _ sp) =>
      let local_owner_types := owned_param_types params in
      let local_owners :=
        fold_left
          (fun m q =>
             match param_pattern q, ident_id (param_pattern q) with
             | PIdent n _, Some i => match local_owner_types !! i with Some _ => <[i := n]> m | None => m end
             | _, _ => m
             end) params ∅ in
      match returned_local_borrow_owner body (mkEscape local_owners local_owner_types ∅) with
      | Some o => (true, error "lifetime-error" sp (borrow_outlives_owner_message (o_name o)) r)
      | None =>
          match lifetime with
          | Some _ => (false, r)
          | None =>
              if 1 <? length (List.filter (fun q => is_borrow_ty (param_ty q)) params)
              then
                (false,
                  error "ambiguous-lifetime" sp
                    (chars "ambiguous returned reference lifetime in " ++ quoted fname ++
                     chars "; add an explicit `'a` lifetime annotation") r)
              else (false, r)
          end
      end
  | _ => (false, r)
  end.

Definition check_block_borrow_escape (e : Expr) (r : Reporter) : bool * Reporter :=
  match e with
  | EBlock (mkBlock _ _ sp as b) =>
      match returned_local_borrow_owner b EscapeScope_default with
      | Some o => (true, error "lifetime-error" sp (borrow_outlives_owner_message (o_name o)) r)
      | None => (false, r)
      end
  | _ => (false, r)
  end.
End Escape.
