(* ===== verification/Borrow.v ===== *)
(** The borrow checker: the traversal of [compiler/paco-borrow/src/lib.rs].

    The traversal threads the state of [BorrowState], the reporter and the
    drop plan ([Cx]); the branches of a conditional clone the state and share
    the other two.  [check_expr] and [consume_expr], which differ on places,
    blocks, [if] and [match] only, are the two modes of [visit].

    An [ExitPoint] is the node whose address the source takes; the map of the
    drop plan is the list of its insertions, the last first. *)
From S2P Require Import Prelude Span Diag TypeLayout Types Ast Visit Resolve BorrowTypes BorrowState BorrowEscape.

Open Scope nat_scope.

Inductive ExitPoint := BlockEnd (b : Block) | Control (e : Expr).

Abbreviation Drops := (list (ExitPoint * list LocalId)) (only parsing).

Record Cx := mkCx { own : OwnershipState; rep : Reporter; drops : list (ExitPoint * list LocalId) }.

Definition set_own (s : OwnershipState) (c : Cx) : Cx := mkCx s (rep c) (drops c).
Definition set_rep (r : Reporter) (c : Cx) : Cx := mkCx (own c) r (drops c).
Definition on_own (f : OwnershipState -> OwnershipState) (c : Cx) : Cx := set_own (f (own c)) c.

(** A step that reads the state and reports *)
Definition reports (f : OwnershipState -> Reporter -> Reporter) (c : Cx) : Cx := set_rep (f (own c) (rep c)) c.

(** [if !drops.is_empty() { program.drops.insert(point, drops) }] *)
Definition record_drops (point : ExitPoint) (ids : list LocalId) (c : Cx) : Cx :=
  match ids with [] => c | _ :: _ => mkCx (own c) (rep c) ((point, ids) :: drops c) end.

Inductive Mode := Check | Consume.

(** ** Moves *)

Definition check_local_use (binding : BindingState) (sp : Span) (r : Reporter) : Reporter :=
  if is_moved binding then error "use-after-move" sp (chars "use of moved value " ++ quoted (name binding)) r else r.

Definition move_out (sp : Span) (binding : BindingState) : BindingState :=
  if copy binding then binding else with_count (S (move_count binding)) (with_moved (Some sp) binding).

Definition consume_local (i : LocalId) (sp : Span) (c : Cx) : Cx :=
  match binding_by_id i (own c) with
  | None => c
  | Some binding =>
      let r := check_local_use binding sp (rep c) in
      let r :=
        match active_borrows_of (mkOwner (Some i) (name binding)) (own c) with
        | [] => r
        | _ :: _ => error "borrow-conflict" sp (chars "cannot move " ++ quoted (name binding) ++ chars " while it is borrowed") r
        end in
      mkCx (alter_binding (move_out sp) i (own c)) r (drops c)
  end.

Definition branch_binding (s : OwnershipState) (index : nat) (k : LocalId) : option BindingState :=
  scope ← scopes s !! index; scope !! k.

(** [if let Some(b) = state.scopes.get_mut(index).and_then(|s| s.get_mut(k)) { .. }] *)
Definition alter_at (f : BindingState -> BindingState) (index : nat) (k : LocalId) (s : OwnershipState) : OwnershipState :=
  with_scopes (alter (alter f k) index (scopes s)) s.

(** The bindings of every scope of [before], outermost scope first *)
Definition for_bindings {S} (f : nat -> LocalId -> BindingState -> S -> S) (before : OwnershipState) (x : S) : S :=
  for_indexed (fun index scope => for_each (fun e => f index e.1 e.2) (map_to_list scope)) 0 (scopes before) x.

Definition maximum (l : list nat) : option nat :=
  match l with [] => None | n :: l => Some (fold_left Nat.max l n) end.

Definition merge_counts (before : OwnershipState) (branches : list OwnershipState) (target : OwnershipState) : OwnershipState :=
  for_bindings
    (fun index k _ target =>
       match maximum (omap (fun branch => move_count <$> branch_binding branch index k) branches) with
       | Some n => alter_at (with_count n) index k target
       | None => target
       end) before target.

Definition moved_in (index : nat) (k : LocalId) (branch : OwnershipState) : bool :=
  match branch_binding branch index k with Some b => is_moved b | None => false end.

Definition merge_moves (sp : Span) (before : OwnershipState) (first : OwnershipState) (reachable_branches : list OwnershipState) (c : Cx) : Cx :=
  for_bindings
    (fun index k before_binding c =>
       let moved_count := length (List.filter (moved_in index k) reachable_branches) in
       let total := length reachable_branches in
       let c :=
         if negb (moved_count =? 0) && negb (moved_count =? total)
         then
           set_rep
             (error "use-after-move" sp
                (chars "inconsistent move state for " ++ quoted (name before_binding) ++ chars " across branches") (rep c)) c
         else c in
       if moved_count =? total
       then on_own (alter_at (with_moved (b ← branch_binding first index k; moved_at b)) index k) c
       else if moved_count =? 0 then on_own (alter_at (with_moved None) index k) c
       else c) before c.

Definition merge_many_branch_states (sp : Span) (before : OwnershipState) (branches : list OwnershipState) (c : Cx) : Cx :=
  match branches with
  | [] => c
  | _ :: _ =>
      let c := on_own (merge_counts before branches) c in
      match List.filter reachable branches with
      | [] => on_own (with_reachable false) c
      | (first :: _) as reachable_branches => merge_moves sp before first reachable_branches (on_own (with_reachable true) c)
      end
  end.

Definition merge_branch_states (sp : Span) (before lhs rhs : OwnershipState) (c : Cx) : Cx :=
  merge_many_branch_states sp before [lhs; rhs] c.

(** ** Drops *)

Definition droppable_locals_from_scope (scope : gmap LocalId BindingState) (order : list LocalId) : list LocalId :=
  List.filter (fun i => match scope !! i with Some b => negb (copy b) && negb (is_moved b) | None => false end) (rev order).

Definition droppable_locals_up_to (s : OwnershipState) (boundary : nat) : list LocalId :=
  flat_map
    (fun index => droppable_locals_from_scope (default ∅ (scopes s !! index)) (default [] (scope_order s !! index)))
    (rev (seq boundary (length (scopes s) - boundary))).

Definition record_drops_at_control_transfer (e : Expr) (boundary : nat) (c : Cx) : Cx :=
  record_drops (Control e) (droppable_locals_up_to (own c) boundary) c.

(** ** Borrow conflicts and escapes *)

Definition check_borrow_conflict (sp : Span) (new_borrow : BorrowBinding) (s : OwnershipState) (r : Reporter) : Reporter :=
  match List.find (fun hb => b_mutable new_borrow || b_mutable hb.2) (active_borrows_of (b_owner new_borrow) s) with
  | Some (holder, _) =>
      error "borrow-conflict" sp
        (chars "cannot borrow " ++ quoted (o_name (b_owner new_borrow)) ++ chars " as " ++
         (if b_mutable new_borrow then chars "mutable" else chars "shared") ++
         chars " because it is already borrowed by " ++ quoted holder) r
  | None => r
  end.

Definition check_scope_end_escapes (sp : Span) (s : OwnershipState) (r : Reporter) : Reporter :=
  match last (scopes s) with
  | None => r
  | Some dying =>
      let outer_scopes := pop (scopes s) in
      let depth := length outer_scopes in
      let loop_boundary :=
        match last (loop_boundaries s) with Some boundary => if boundary <=? depth then Some boundary else None | None => None end in
      let enclosing_uses := pop (last_uses s) in
      if base.size dying =? 0 then r
      else
        for_indexed
          (fun index scope r =>
             let holders := stable_sort (fun l r => String.leb (name l) (name r)) (map snd (map_to_list scope)) in
             for_each
               (fun binding r =>
                  match
                    List.find
                      (fun borrow => match o_id (b_owner borrow) with Some i => bool_decide (is_Some (dying !! i)) | None => false end)
                      (borrows binding)
                  with
                  | None => r
                  | Some borrow =>
                      let used_after :=
                        existsb (fun position => (Z.of_nat (end_ sp) <? position)%Z)
                          (omap (fun uses => uses !! id binding) enclosing_uses) in
                      let outlives_iteration := match loop_boundary with Some boundary => index <? boundary | None => false end in
                      if used_after || outlives_iteration
                      then
                        error "lifetime-error" sp
                          (chars "borrow of local " ++ quoted (o_name (b_owner borrow)) ++ chars " is stored in " ++
                           quoted (name binding) ++ chars ", which outlives it; " ++ quoted (o_name (b_owner borrow)) ++
                           chars " is dropped at the end of this scope") r
                      else r
                  end) holders r)
          0 outer_scopes r
  end.

(** [Vec::dedup] *)
Fixpoint dedup (l : list Owner) : list Owner :=
  match l with
  | x :: rest =>
      match dedup rest with
      | (y :: _) as rest' => if bool_decide (x = y) then rest' else x :: rest'
      | [] => [x]
      end
  | [] => []
  end.

Section Checker.
Context (p : Program) (copy_names : gset string).

Abbreviation locals := (p_locals p).
Abbreviation expr_ty := (BorrowState.expr_ty p copy_names).
Abbreviation expr_is_copy := (BorrowState.expr_is_copy p copy_names).
Abbreviation typed_copy := (BorrowState.typed_copy p copy_names).
Abbreviation origins_of := (BorrowState.borrow_origins_from_expr p copy_names).
Abbreviation get := (BorrowState.get p).
Abbreviation owner := (BorrowState.owner p).
Abbreviation copy_ty := (BorrowState.copy_ty copy_names).

Definition check_ident_use (e : Expr) (c : Cx) : Cx :=
  match get e (own c) with
  | Some binding => set_rep (check_local_use binding (expr_span e) (rep c)) c
  | None => c
  end.

Definition check_return_borrow_escape (value : Expr) (s : OwnershipState) (r : Reporter) : Reporter :=
  match List.find (fun o => origin_is_local o s) (origins_of value s) with
  | Some o => error "lifetime-error" (expr_span value) (borrow_outlives_owner_message (o_name (g_owner o))) r
  | None => r
  end.

Definition check_assignment_while_borrowed (place : Expr) (sp : Span) (s : OwnershipState) (r : Reporter) : Reporter :=
  let o := owner place s in
  match active_borrows_of o s with
  | [] => r
  | _ :: _ => error "borrow-conflict" sp (chars "cannot assign to " ++ quoted (o_name o) ++ chars " while it is borrowed") r
  end.

(** The holders a stored borrow reaches, one after the other; the first that
    the borrow escapes into is reported and ends the loop. *)
Fixpoint store_into (holders : list Owner) (root_id : LocalId) (origins : list BorrowOrigin) (attach_to_root : bool) (sp : Span) (c : Cx) : Cx :=
  match holders with
  | [] => c
  | holder :: rest =>
      let continue := store_into rest root_id origins attach_to_root sp in
      if is_temporary holder then continue c
      else
        let s := own c in
        let external := match (i ← o_id holder; binding_by_id i s) with Some b => binding_is_reference b | None => true end in
        let escapes := fun o => if external then origin_is_local o s else g_local_escape o || is_temporary (g_owner o) in
        match List.find escapes origins with
        | Some o =>
            set_rep
              (error "lifetime-error" sp
                 (if is_temporary (g_owner o)
                  then chars "borrow of temporary value is stored in " ++ quoted (o_name holder) ++ chars ", which outlives it"
                  else chars "borrow of local " ++ quoted (o_name (g_owner o)) ++ chars " is stored in " ++
                       quoted (o_name holder) ++ chars ", which outlives it") (rep c)) c
        | None =>
            match o_id holder with
            | Some i =>
                if external || (bool_decide (i = root_id) && negb attach_to_root) then continue c
                else
                  let last_use := foldr Z.max 0%Z (omap (fun uses => uses !! i) (last_uses s)) in
                  continue
                    (on_own
                       (alter_binding
                          (fun b =>
                             with_borrows
                               (borrows b ++ map (fun o => mkBorrow (g_owner o) (g_mutable o) last_use false None) origins) b) i) c)
            | None => continue c
            end
        end
  end.

Definition store_borrows (place : Expr) (origins : list BorrowOrigin) (attach_to_root : bool) (sp : Span) (c : Cx) : Cx :=
  match origins with
  | [] => c
  | _ :: _ =>
      match (root ← place_root place; b ← get root (own c); Some (root, b)) with
      | None => c
      | Some (root, root_binding) =>
          let holders :=
            match borrows root_binding with
            | [] => [owner root (own c)]
            | bs => dedup (map b_owner bs)
            end in
          store_into holders (id root_binding) origins attach_to_root sp c
      end
  end.

Definition check_shared_without_sync_capture (e : Expr) (sp : Span) (s : OwnershipState) (r : Reporter) : Reporter :=
  for_each
    (fun binding r =>
       match bty binding with
       | Some (TBorrow _ _ _ _) =>
           error "shared-without-sync" sp
             (quoted (name binding) ++ chars " is a bare reference; wrap it in `Arc` to share it with a spawned task") r
       | _ => r
       end)
    (used_bindings p e s) r.

Definition define_let_pattern (pattern : Pat) (borrow_checked_at_value copy : bool) (ty : option Ty) (bs : list BorrowBinding) (c : Cx) : Cx :=
  match pattern with
  | PIdent _ sp =>
      let r :=
        for_each
          (fun borrow r =>
             if is_temporary (b_owner borrow) || b_local_escape borrow
             then error "lifetime-error" sp (borrow_outlives_owner_message (o_name (b_owner borrow))) r
             else if negb borrow_checked_at_value then check_borrow_conflict sp borrow (own c) r
             else r) bs (rep c) in
      on_own (define_with_borrows p pattern copy ty bs) (set_rep r c)
  | _ => on_own (bind_destructuring_pattern p copy_names pattern copy ty bs) c
  end.

(** ** Temporaries *)

Definition same_borrow (l r : BorrowBinding) : bool := bool_decide (b_owner l = b_owner r) && Bool.eqb (b_mutable l) (b_mutable r).

Definition USIZE_MAX : Z := (2 ^ 64 - 1)%Z.

Definition push_temporary_borrows_except (bs excluded : list BorrowBinding) (s : OwnershipState) : OwnershipState :=
  with_temporaries
    (temporary_borrows s ++
     map (fun b => mkBorrow (b_owner b) (b_mutable b) USIZE_MAX (b_local_escape b) (b_field_path b))
       (List.filter (fun b => negb (existsb (same_borrow b) excluded)) bs)) s.

(** [check_expr_with_temporary_borrows] and [consume_expr_with_temporary_borrows]:
    [visit] is [check_expr] or [consume_expr]. *)
Definition with_temporary_borrows (visit : Expr -> Cx -> Cx) (e : Expr) (bs : list BorrowBinding) (c : Cx) : Cx :=
  let current := temporary_borrows_for_expr p copy_names e (own c) in
  let original_len := length (temporary_borrows (own c)) in
  let c := visit e (on_own (push_temporary_borrows_except bs current) c) in
  on_own (fun s => with_temporaries (take original_len (temporary_borrows s)) s) c.

(** The borrows of one argument, until one conflicts *)
Fixpoint argument_borrows (bs : list BorrowBinding) (sp : Span) (temporaries : list BorrowBinding) (r : Reporter)
  : bool * list BorrowBinding * Reporter :=
  match bs with
  | [] => (false, temporaries, r)
  | borrow :: bs =>
      if existsb (fun e => bool_decide (b_owner e = b_owner borrow) && (b_mutable e || b_mutable borrow)) temporaries
      then
        (true, temporaries,
          error "borrow-conflict" sp
            (chars "cannot borrow " ++ quoted (o_name (b_owner borrow)) ++ chars " because another call argument already borrows it") r)
      else argument_borrows bs sp (temporaries ++ [borrow]) r
  end.

Fixpoint check_argument_temporary_borrow_conflicts_with (args : list Expr) (temporaries : list BorrowBinding) (s : OwnershipState) (r : Reporter)
  : list BorrowBinding * Reporter :=
  match args with
  | [] => (temporaries, r)
  | arg :: args =>
      let '(conflict, temporaries, r) := argument_borrows (temporary_borrows_for_expr p copy_names arg s) (expr_span arg) temporaries r in
      if conflict then (temporaries, r) else check_argument_temporary_borrow_conflicts_with args temporaries s r
  end.

(** The conflicts of the arguments, and the temporaries they leave *)
Definition argument_temporaries (args : list Expr) (initial : list BorrowBinding) (c : Cx) : list BorrowBinding * Cx :=
  let '(temporaries, r) := check_argument_temporary_borrow_conflicts_with args initial (own c) (rep c) in
  (temporaries, set_rep r c).

(** ** The parts of the traversal

    The helpers below take [visit], the recursive traversal. *)

Definition visit_args (visit : Mode -> Expr -> Cx -> Cx) (mode : nat -> Expr -> Mode) (args : list Expr)
  (temporaries : list BorrowBinding) (c : Cx) : Cx :=
  for_indexed (fun index arg => with_temporary_borrows (visit (mode index arg)) arg temporaries) 0 args c.

(** An argument is read when its parameter's type is [Copy]. *)
Definition param_mode (params : option (list Ty)) (index : nat) : Mode :=
  if copy_ty (params ← params; params !! index) then Check else Consume.

Definition check_call (visit : Mode -> Expr -> Cx -> Cx) (callee : Expr) (args : list Expr) (c : Cx) : Cx :=
  match callee with
  | EIdent name _ =>
      let c :=
        match get callee (own c) with
        | Some _ => check_ident_use callee c
        | None =>
            match args with
            | [EClosure _ body sp] =>
                if bool_decide (name = "spawn_blocking"%string) then reports (check_shared_without_sync_capture body sp) c else c
            | _ => c
            end
        end in
      let '(temporaries, c) := argument_temporaries args [] c in
      if bool_decide (name = "print"%string) || bool_decide (name ∈ test_asserts p)
      then visit_args visit (fun _ _ => Check) args temporaries c
      else visit_args visit (fun index _ => param_mode (s_params <$> functions p !! name) index) args temporaries c
  | _ =>
      let c := visit Check callee c in
      let '(temporaries, c) := argument_temporaries args [] c in
      visit_args visit (fun _ _ => Consume) args temporaries c
  end.

Definition check_method_call (visit : Mode -> Expr -> Cx -> Cx) (receiver : Expr) (method : string) (args : list Expr) (c : Cx) : Cx :=
  let receiver_ty := expr_ty receiver (own c) in
  let c :=
    match args with
    | value_arg :: _ =>
        if bool_decide (method = "send"%string) && bool_decide ((ty ← receiver_ty; type_name ty) = Some "Sender"%string) &&
           match expr_ty value_arg (own c) with Some (TBorrow _ _ _ _) => true | _ => false end
        then
          set_rep
            (error "shared-without-sync" (expr_span value_arg)
               (chars "cannot send a bare reference over a channel; wrap it in `Arc` to share it with another task") (rep c)) c
        else c
    | [] => c
    end in
  let signature := method_signature p receiver_ty method in
  let receiver_is_copy := match typed_copy receiver with Some b => b | None => copy_ty receiver_ty end in
  let slice_len :=
    bool_decide (method = "len"%string) && bool_decide (length args = 0) &&
    match strip_borrow <$> receiver_ty with Some (TSlice _ _) => true | _ => false end in
  let receiver_param := signature ← signature; head (s_params signature) in
  let receiver_is_borrowed := slice_len || match receiver_param with Some ty => is_borrow_ty ty | None => false end in
  let receiver_borrows :=
    match receiver_param with
    | Some (TBorrow mutable _ _ _) => temporary_borrow_bindings p mutable receiver (current_statement (own c)) (own c)
    | _ => []
    end in
  let reborrows_through_binding :=
    match (root ← root_place_name receiver; get root (own c)) with
    | Some (mkBinding _ _ _ _ _ _ (_ :: _)) => true
    | _ => false
    end in
  let c :=
    if reborrows_through_binding then c
    else reports (fun s r => for_each (fun b => check_borrow_conflict (expr_span receiver) b s) receiver_borrows r) c in
  let stored_origins :=
    match signature with
    | Some (mkSignature _ (TBorrow true _ _ _ :: params) _) =>
        for_zip
          (fun param arg acc =>
             if negb (is_borrow_ty param) && ty_may_hold_borrow_or_generic p param then acc ++ origins_of arg (own c) else acc)
          params args []
    | _ => []
    end in
  let c := store_borrows receiver stored_origins true (expr_span receiver) c in
  let '(temporaries, c) := argument_temporaries args receiver_borrows c in
  let c := with_temporary_borrows (visit (if receiver_is_copy || receiver_is_borrowed then Check else Consume)) receiver temporaries c in
  let mode := fun index arg =>
    match typed_copy arg with
    | Some true => Check
    | _ => param_mode (s_params <$> signature) (S index)
    end in
  visit_args visit mode args temporaries c.

(** [f] on a clone of the state; the reports and drops are kept. *)
Definition in_branch (before : OwnershipState) (f : Cx -> Cx) (c : Cx) : OwnershipState * Cx :=
  let c' := f (set_own before c) in (own c', set_own (own c) c').

Definition visit_if (then_visit else_visit : Cx -> Cx) (sp : Span) (c : Cx) : Cx :=
  let before := own c in
  let '(then_state, c) := in_branch before then_visit c in
  let '(else_state, c) := in_branch before else_visit c in
  merge_branch_states sp before then_state else_state c.

Fixpoint in_branches (before : OwnershipState) (fs : list (Cx -> Cx)) (c : Cx) : list OwnershipState * Cx :=
  match fs with
  | [] => ([], c)
  | f :: fs =>
      let '(s, c) := in_branch before f c in
      let '(ss, c) := in_branches before fs c in (s :: ss, c)
  end.

(** An arm of [check_match] or [consume_match] *)
Definition visit_arm (guard_visit body_visit : Cx -> Cx) (pattern : Pat) (body_span : Span) (scrutinee_copy : bool) (scrutinee_ty : option Ty)
  (scrutinee_origins : list BorrowOrigin) (c : Cx) : Cx :=
  let c :=
    on_own
      (fun s =>
         bind_pattern_origins p pattern scrutinee_origins
           (bind_pattern p copy_names pattern scrutinee_copy scrutinee_ty (push_scope s))) c in
  let c := body_visit (guard_visit c) in
  let c := if reachable (own c) then reports (check_scope_end_escapes body_span) c else c in
  on_own pop_scope c.

Definition check_loop_body (sp : Span) (body_visit : Cx -> Cx) (c : Cx) : Cx :=
  let before := own c in
  let enter := fun s => with_boundaries (loop_boundaries s ++ [length (scopes s)]) s in
  let '(body_state, c) := in_branch before (fun c => body_visit (on_own enter c)) c in
  for_bindings
    (fun index k binding c =>
       let after := branch_binding body_state index k in
       let move_count_after := match after with Some b => move_count b | None => move_count binding end in
       let moved_at_end := match after with Some b => is_moved b | None => true end in
       if (move_count binding <? move_count_after) && moved_at_end
       then
         set_rep
           (error "use-after-move" sp
              (chars "loop body may move " ++ quoted (name binding) ++ chars " on more than one iteration") (rep c)) c
       else c) before c.

Definition check_closure (body_visit : Cx -> Cx) (params : list ClosureParam) (body : Expr) (sp : Span) (c : Cx) : Cx :=
  let before := own c in
  let enter := fun s =>
    let s :=
      for_each
        (fun param =>
           let 'mkClosureParam pattern ty _ := param in
           bind_pattern p copy_names pattern (match ty with Some ty => ty_is_copy ty copy_names | None => true end) ty)
        params (push_scope s) in
    with_reachable true s in
  let '(_, c) := in_branch before (fun c => body_visit (on_own enter c)) c in
  for_each (fun i => consume_local i sp) (closure_captures p body before) c.

Definition visit_let (visit : Mode -> Expr -> Cx -> Cx) (uses : gmap LocalId Z) (pattern : Pat) (ty : option Ty) (value : option Expr) (c : Cx) : Cx :=
  let binding_ty := let_ty expr_ty ty value (own c) in
  let typed := match ty with None => match value with Some value => typed_copy value | None => None end | Some _ => None end in
  let copy := match typed with Some b => b | None => let_copy p copy_names expr_ty binding_ty value (own c) end in
  let '(escape_reported, c) :=
    match value with
    | Some value =>
        let c := visit (if copy then Check else Consume) value c in
        let '(reported, r) := check_block_borrow_escape p value (rep c) in
        (reported, set_rep r c)
    | None => (false, c)
    end in
  let bs := borrow_bindings p ((fun value => origins_of value (own c)) <$> value) pattern uses in
  let bs := if escape_reported then List.filter (fun b => negb (b_local_escape b) && negb (is_temporary (b_owner b))) bs else bs in
  define_let_pattern pattern (match value with Some (EBorrow _ _ _) => true | _ => false end) copy binding_ty bs c.

(** The statements of a block, until one is unreachable *)
Definition visit_stmts (visit_stmt : Stmt -> Cx -> Cx) : list Stmt -> Cx -> Cx :=
  fix go stmts c :=
    match stmts with
    | [] => c
    | st :: stmts =>
        let c := on_own (with_statement (statement_position st)) c in
        if reachable (own c) then go stmts (visit_stmt st c) else c
    end.

(** [check_block] and [consume_block] around the statements and the tail *)
Definition visit_block_with (stmts_visit : Cx -> Cx) (tail_visit : option (Expr * (Cx -> Cx))) (b : Block) (sp : Span)
  (return_body : bool) (uses : gmap LocalId Z) (c : Cx) : Cx :=
  let c := on_own (fun s => with_last_uses (last_uses s ++ [uses]) (push_scope s)) c in
  let c := stmts_visit c in
  let c :=
    match tail_visit with
    | Some (tail, tail_visit) =>
        if reachable (own c) then
          let c := on_own (with_statement (start_of (expr_span tail))) c in
          let c := if return_body then reports (check_return_borrow_escape tail) c else c in
          tail_visit c
        else c
    | None => c
    end in
  let c :=
    if reachable (own c) then
      let c := reports (check_scope_end_escapes sp) c in
      let s := own c in
      record_drops (BlockEnd b) (droppable_locals_from_scope (default ∅ (last (scopes s))) (default [] (last (scope_order s)))) c
    else c in
  on_own (fun s => pop_scope (with_last_uses (pop (last_uses s)) s)) c.

(** Assigning to a place, after its value has been consumed: the part on the
    state; a place that is not a local is then visited. *)
Definition assign_target (target value : Expr) (sp : Span) (assigned_borrows : list BorrowBinding) (c : Cx) : Cx :=
  match target with
  | EIdent _ target_span =>
      let c := reports (check_assignment_while_borrowed target target_span) c in
      match get_id p target with
      | Some i => on_own (alter_binding (fun b => with_borrows assigned_borrows (with_moved None b)) i) c
      | None => c
      end
  | EField _ _ _ =>
      match root_place_name target with
      | Some root =>
          let c := reports (check_assignment_while_borrowed root sp) c in
          match place_field_path target with
          | Some field_path =>
              let last_use := current_last_use p root (own c) in
              let field_borrows :=
                map (fun b => prefix_borrow_field_path b field_path) (borrow_bindings_for_name p copy_names value last_use (own c)) in
              match get_id p root with
              | Some i =>
                  on_own
                    (alter_binding
                       (fun b =>
                          with_borrows
                            (List.filter (fun borrow => negb (borrow_field_path_starts_with borrow field_path)) (borrows b) ++ field_borrows) b) i) c
              | None => c
              end
          | None => c
          end
      | None => c
      end
  | _ => c
  end.

(** The captures of a spawned expression that are still owned, by name *)
Definition spawn_captures (e : Expr) (s : OwnershipState) : list LocalId :=
  map fst
    (stable_sort (fun l r => String.leb (name l.2) (name r.2))
       (omap
          (fun u => b ← binding_by_id u.1 s; if negb (copy b) && negb (is_moved b) then Some (u.1, b) else None)
          (map_to_list (collect_expr_uses locals e ∅)))).

Definition innermost_loop (s : OwnershipState) : nat := default 0 (last (loop_boundaries s)).

Definition exit (e : Expr) (boundary : nat) (c : Cx) : Cx :=
  on_own (with_reachable false) (record_drops_at_control_transfer e boundary c).

(** One node, with the traversal of its parts: [visit] is the traversal of
    expressions, [visit_block] of blocks and [check_quote_splices] of the
    template of a quote. *)
Definition visit_node (visit : Mode -> Expr -> Cx -> Cx) (visit_block : Mode -> bool -> Block -> Cx -> Cx)
  (check_quote_splices : QuoteBody -> Cx -> Cx) (m : Mode) (e : Expr) (c : Cx) : Cx :=
  match e with
  | ELiteral _ _ => c
  | EIdent _ sp =>
      match m with
      | Check => check_ident_use e c
      | Consume => match get_id p e with Some i => consume_local i sp c | None => c end
      end
  | EBlock b => visit_block m false b c
  | EUnsafe b _ => visit_block Check false b c
  | EIf condition then_branch else_branch sp =>
      let c := visit Check condition c in
      visit_if (visit_block m false then_branch) (fun c => match else_branch with Some branch => visit m branch c | None => c end) sp c
  | ELoop body sp => check_loop_body sp (visit_block Check false body) c
  | EWhile condition body sp => check_loop_body sp (visit_block Check false body) (visit Check condition c)
  | EMatch scrutinee arms sp =>
      let scrutinee_origins := origins_of scrutinee (own c) in
      let scrutinee_copy := expr_is_copy scrutinee (own c) in
      let c := visit (if scrutinee_copy then Check else Consume) scrutinee c in
      let before := own c in
      let scrutinee_ty := expr_ty scrutinee before in
      let fs :=
        map
          (fun arm =>
             let 'mkMatchArm pattern guard body _ := arm in
             visit_arm (fun c => match guard with Some guard => visit Check guard c | None => c end) (visit m body)
               pattern (expr_span body) scrutinee_copy scrutinee_ty scrutinee_origins)
          arms in
      let '(branch_states, c) := in_branches before fs c in
      merge_many_branch_states sp before branch_states c
  | ECall callee _ args _ =>
      let c := check_call visit callee args c in
      match callee with
      | EIdent name _ =>
          if bool_decide (name = "panic"%string) && bool_decide (functions p !! name = None)
          then on_own (with_reachable false) c else c
      | _ => c
      end
  | EMethodCall receiver method args _ => check_method_call visit receiver method args c
  | EAssociatedCall ty function args _ =>
      let '(temporaries, c) := argument_temporaries args [] c in
      if match type_name ty with Some name => bool_decide (qualified name function ∈ test_asserts p) | None => false end
      then visit_args visit (fun _ _ => Check) args temporaries c
      else visit_args visit (fun index _ => param_mode (associated_function_params p ty function) index) args temporaries c
  | EBinary op lhs rhs _ =>
      let method :=
        method ← match operator_method op with Some method => Some method | None => ordering_method op end;
        signature ← method_signature p (expr_ty lhs (own c)) method; Some method in
      match method with
      | Some method => check_method_call visit lhs method [rhs] c
      | None => visit Check rhs (visit Check lhs c)
      end
  | EUnary _ inner _ | ECast inner _ _ | EComptime inner _ | ESplice inner _ => visit Check inner c
  | EAssign target value sp =>
      let assigned_borrows := borrow_bindings_for_name p copy_names value (current_last_use p target (own c)) (own c) in
      let c :=
        if is_ident target then c
        else
          let attach_to_root := match target with EField _ _ _ => false | _ => true end in
          store_borrows target (origins_of value (own c)) attach_to_root sp c in
      let c := visit Consume value c in
      let c := assign_target target value sp assigned_borrows c in
      if is_ident target then c else visit Check target c
  | EField base _ sp =>
      match m with
      | Check => visit Check base c
      | Consume =>
          if copy_ty (expr_ty e (own c)) then visit Check base c
          else if is_ident base &&
                  negb (match expr_ty base (own c) with Some (TBorrow _ _ _ _) | Some (TRawPointer _ _ _) => true | _ => false end)
          then visit Consume base c
          else
            let c := visit Check base c in
            set_rep (error "use-after-move" sp (chars "field moves are not supported by ownership analysis") (rep c)) c
      end
  | EIndex base index _ => for_each (visit Check) index (visit Check base c)
  | EReturn value _ =>
      let c := match value with Some value => visit Consume value (reports (check_return_borrow_escape value) c) | None => c end in
      exit e 0 c
  | EBreak value _ =>
      let c := match value with Some value => visit Consume value c | None => c end in
      exit e (innermost_loop (own c)) c
  | EContinue _ => exit e (innermost_loop (own c)) c
  | ESpawn inner sp =>
      match inner with
      | ECall callee _ args _ =>
          let c := reports (fun s r => for_each (fun arg => check_shared_without_sync_capture arg sp s) args r) c in
          let c := visit (if is_ident callee && bool_decide (id <$> get callee (own c) <> None) then Consume else Check) callee c in
          let '(temporaries, c) := argument_temporaries args [] c in
          let params := match callee with EIdent name _ => s_params <$> functions p !! name | _ => None end in
          visit_args visit (fun index _ => param_mode params index) args temporaries c
      | _ =>
          let c := visit Consume inner (reports (check_shared_without_sync_capture inner sp) c) in
          for_each (fun i => consume_local i sp) (spawn_captures inner (own c)) c
      end
  | EClosure params body sp => check_closure (visit Check body) params body sp c
  | EQuote body _ => check_quote_splices body c
  | EBorrow mutable inner sp =>
      let c :=
        reports
          (fun s r =>
             for_each (fun b => check_borrow_conflict sp b s) (temporary_borrow_bindings p mutable inner (current_statement s) s) r) c in
      visit Check inner c
  | ESelect arms default_ _ =>
      let c :=
        for_each
          (fun arm c => let 'mkSelectArm operation body _ := arm in visit_block Check false body (visit Check operation c)) arms c in
      match default_ with Some b => visit_block Check false b c | None => c end
  | EYield inner _ => visit Consume inner c
  | ETry inner _ => record_drops_at_control_transfer e 0 (visit Consume inner c)
  | EStructLiteral _ fs _ => for_each (fun f => visit Consume f.2) fs c
  | ETuple items _ => for_each (visit Consume) items c
  end.

(** [check_block] and [consume_block]; [ret]: the block is the [return_body]. *)
Definition visit_block_node (visit : Mode -> Expr -> Cx -> Cx) (m : Mode) (ret : bool) (b : Block) (c : Cx) : Cx :=
  let 'mkBlock stmts tail sp := b in
  let uses := block_last_uses locals b in
  visit_block_with
    (visit_stmts
       (fun st c =>
          match st with
          | SLet (mkLetStmt _ pattern ty value _) => visit_let visit uses pattern ty value c
          | SExpr e => visit (if expr_is_copy e (own c) then Check else Consume) e c
          | SItem _ => c
          end) stmts)
    (match tail with Some tail => Some (tail, visit m tail) | None => None end)
    b sp ret uses c.

Fixpoint visit (m : Mode) (e : Expr) (c : Cx) {struct e} : Cx :=
  visit_node visit visit_block
    (fun body c =>
       match body with
       | QItem i => template_item i (splice_item i c)
       | QExpr e => template_expr e (splice_expr e c)
       end) m e c
with visit_block (m : Mode) (ret : bool) (b : Block) (c : Cx) {struct b} : Cx := visit_block_node visit m ret b c
(** The splices of a quoted template: [check_quote_splices], its visitor and
    the callback of [visit_template_ty_splices]. *)
with splice_item (i : Item) (c : Cx) {struct i} : Cx :=
  let c := match i with IMethods (mkMethodsBlock _ (TSplice inner _) _ _ _) => visit Check inner c | _ => c end in
  walk_item (mkVisit (fun _ c => c) splice_item splice_fn_decl splice_block splice_stmt splice_expr (fun _ c => c)) i c
with splice_fn_decl (d : FnDecl) (c : Cx) {struct d} : Cx :=
  walk_fn_decl (mkVisit (fun _ c => c) splice_item splice_fn_decl splice_block splice_stmt splice_expr (fun _ c => c)) d c
with splice_block (b : Block) (c : Cx) {struct b} : Cx :=
  walk_block (mkVisit (fun _ c => c) splice_item splice_fn_decl splice_block splice_stmt splice_expr (fun _ c => c)) b c
with splice_stmt (st : Stmt) (c : Cx) {struct st} : Cx :=
  walk_stmt (mkVisit (fun _ c => c) splice_item splice_fn_decl splice_block splice_stmt splice_expr (fun _ c => c)) st c
with splice_expr (e : Expr) (c : Cx) {struct e} : Cx :=
  match e with
  | ESplice inner _ => visit Check inner c
  | _ => walk_expr (mkVisit (fun _ c => c) splice_item splice_fn_decl splice_block splice_stmt splice_expr (fun _ c => c)) e c
  end
with template_ty (t : Ty) (c : Cx) {struct t} : Cx :=
  match t with
  | TSplice inner _ => visit Check inner c
  | TGeneric _ args _ | TTuple args _ => for_each template_ty args c
  | TSlice inner _ | TBorrow _ _ inner _ | TRawPointer _ inner _ => template_ty inner c
  | TFn params return_ty _ _ _ => if_some template_ty return_ty (for_each template_ty params c)
  | TPath _ _ | TDyn _ _ | TInfer _ | TNever _ | TConst _ _ | TDynDim _ | TExpand _ _ | TExistential _ _ => c
  end
with template_item (i : Item) (c : Cx) {struct i} : Cx :=
  let c := match i with IMethods (mkMethodsBlock _ target _ _ _) => template_ty target c | _ => c end in
  walk_item (mkVisit (fun _ c => c) template_item template_fn_decl template_block template_stmt template_expr (fun _ c => c)) i c
with template_fn_decl (d : FnDecl) (c : Cx) {struct d} : Cx :=
  let 'mkFnDecl _ name_splice _ params return_ty _ _ _ _ _ _ _ _ := d in
  let c := if_some (visit Check) name_splice c in
  let c := for_each (fun q => let 'mkParam _ ty _ := q in template_ty ty) params c in
  let c := if_some template_ty return_ty c in
  walk_fn_decl (mkVisit (fun _ c => c) template_item template_fn_decl template_block template_stmt template_expr (fun _ c => c)) d c
with template_block (b : Block) (c : Cx) {struct b} : Cx :=
  walk_block (mkVisit (fun _ c => c) template_item template_fn_decl template_block template_stmt template_expr (fun _ c => c)) b c
with template_stmt (st : Stmt) (c : Cx) {struct st} : Cx :=
  let c := match st with SLet (mkLetStmt _ _ (Some ty) _ _) => template_ty ty c | _ => c end in
  walk_stmt (mkVisit (fun _ c => c) template_item template_fn_decl template_block template_stmt template_expr (fun _ c => c)) st c
with template_expr (e : Expr) (c : Cx) {struct e} : Cx :=
  let walk :=
    walk_expr (mkVisit (fun _ c => c) template_item template_fn_decl template_block template_stmt template_expr (fun _ c => c)) e in
  match e with
  | EQuote _ _ | ESplice _ _ => c
  | EAssociatedCall ty _ _ _ | EStructLiteral ty _ _ | ECast _ ty _ => walk (template_ty ty c)
  | ECall _ type_args _ _ => walk (for_each template_ty type_args c)
  | EClosure params _ _ => walk (for_each (fun q => let 'mkClosureParam _ ty _ := q in if_some template_ty ty) params c)
  | _ => walk c
  end.
End Checker.

(** ** Functions and modules *)

Inductive BorrowError := mkBorrowError.

(** The names that are [Copy] in a function: derived types and bounded parameters *)
Definition function_copy_names (p : Program) (f : FnDecl) (self_ty : option string) : gset string :=
  let 'mkFnDecl _ _ generics _ _ _ _ _ _ _ _ _ _ := f in
  copy_types p ∪ list_to_set (bounded_by generics "Copy") ∪
  match self_ty with Some o => list_to_set (default [] (copy_params p !! o)) | None => ∅ end.

Definition entry_state (p : Program) (f : FnDecl) (self_ty : option string) : OwnershipState :=
  let 'mkFnDecl _ _ _ params _ _ _ _ _ _ _ _ _ := f in
  let names := function_copy_names p f self_ty in
  for_each
    (fun q s =>
       match param_pattern q with
       | PIdent _ _ =>
           let ty := resolve_self_ty (param_ty q) self_ty in
           define p (param_pattern q) (ty_is_copy ty names) (Some ty) s
       | _ => s
       end)
    params (push_scope OwnershipState_new).

Definition check_function (f : FnDecl) (self_ty : option string) (p : Program) (r : Reporter) (d : Drops) : Reporter * Drops :=
  let 'mkFnDecl _ _ _ _ return_ty body _ _ _ _ _ _ _ := f in
  let '(reported, r) := check_lifetime_signature p f r in
  let ret := bool_decide (is_Some return_ty) && negb reported in
  let c := visit_block p (function_copy_names p f self_ty) Check ret body (mkCx (entry_state p f self_ty) r d) in
  (rep c, drops c).

(** The functions that are checked, with the type they are methods of *)
Definition checked_functions (m : Module) : list (FnDecl * option string) :=
  flat_map
    (fun i =>
       match i with
       | IFn f => [(f, None)]
       | IStruct (mkStructDecl name _ _ methods _ _ _ _ _) => map (fun f => (f, Some name)) methods
       | IEnum (mkEnumDecl name _ _ methods _ _ _ _) => map (fun f => (f, Some name)) methods
       | IMethods (mkMethodsBlock _ target methods _ _) => map (fun f => (f, type_name target)) methods
       | ITrait _ | IUse _ | IConst _ | IExtern _ => []
       end) (items m).

Definition run_checks (m : Module) (imports : list (string * Module)) (typed : option (Expr -> option Type_)) (r : Reporter)
  : Reporter * Drops :=
  let p := from_module_with_imports m imports in
  let p := match typed with Some tys => set_expr_types tys p | None => p end in
  for_each (fun '(f, self_ty) '(r, d) => check_function f self_ty p r d) (checked_functions m) (r, []).

Definition analyze_typed_module (m : Module) (imports : list (string * Module)) (typed : option (Expr -> option Type_)) (r : Reporter)
  : (Drops + BorrowError) * Reporter :=
  let '(r, d) := run_checks m imports typed r in
  (if has_errors r then inr mkBorrowError else inl d, r).

(** [infer] is [paco_types::infer_module_with_imports(..).ok()]. *)
Definition analyze_module_with_imports (infer : Module -> list (string * Module) -> option (Expr -> option Type_))
  (m : Module) (imports : list (string * Module)) (r : Reporter) : (Drops + BorrowError) * Reporter :=
  analyze_typed_module m imports (infer m imports) r.

Definition analyze_module (infer : Module -> list (string * Module) -> option (Expr -> option Type_)) (m : Module) (r : Reporter)
  : (Drops + BorrowError) * Reporter := analyze_module_with_imports infer m [] r.

Definition check_typed_module (m : Module) (imports : list (string * Module)) (typed : Expr -> option Type_) (r : Reporter)
  : (unit + BorrowError) * Reporter :=
  let '(result, r) := analyze_typed_module m imports (Some typed) r in
  (match result with inl _ => inl tt | inr e => inr e end, r).
