(* ===== verification/BorrowFrame.v ===== *)
(** What the traversal of the borrow checker leaves alone.

    [lift Q] relates two states whose scopes have the same locals, with
    bindings related by [Q].  Visiting an expression only changes what has been
    moved, how often, and what is borrowed, of the bindings in scope ([framed]):
    the locals, their types and the stacks stay, the counts of moves only grow,
    and a binding whose count did not grow is not newly moved.  Reports and
    drops are only added.  This is [visit_good], for the whole language. *)
From S2P Require Import Prelude Span Diag TypeLayout Types Ast Visit Resolve BorrowTypes BorrowState BorrowEscape Borrow.

Open Scope nat_scope.

(** ** Related states *)

Definition scope_rel (Q : BindingState -> BindingState -> Prop) (m m' : gmap LocalId BindingState) : Prop :=
  forall k, option_Forall2 Q (m !! k) (m' !! k).

Definition lift (Q : BindingState -> BindingState -> Prop) (s s' : OwnershipState) : Prop :=
  Forall2 (scope_rel Q) (scopes s) (scopes s').

Lemma Forall2_rev_rel {A B} (R : A -> B -> Prop) l l' : Forall2 R l l' -> Forall2 R (rev l) (rev l').
Proof. induction 1; simpl; [constructor|]. apply Forall2_app; [done|]. by repeat constructor. Qed.

Section Lift.
Context (Q : BindingState -> BindingState -> Prop).
Implicit Types s : OwnershipState.

#[export] Instance scope_rel_refl : Reflexive Q -> Reflexive (scope_rel Q).
Proof. intros H m k. destruct (m !! k); constructor. apply H. Qed.

#[export] Instance scope_rel_trans : Transitive Q -> Transitive (scope_rel Q).
Proof. intros H a b c Hab Hbc k. specialize (Hab k). specialize (Hbc k). destruct Hab; inversion Hbc; subst; constructor. by etrans. Qed.

#[export] Instance lift_refl : Reflexive Q -> Reflexive (lift Q).
Proof. intros H s. unfold lift. reflexivity. Qed.

#[export] Instance lift_trans : Transitive Q -> Transitive (lift Q).
Proof. intros H a b c. unfold lift. intros. by etrans. Qed.

Lemma scope_rel_empty : scope_rel Q ∅ ∅.
Proof. intros k. rewrite lookup_empty. constructor. Qed.

Lemma scope_rel_insert m m' k b b' : scope_rel Q m m' -> Q b b' -> scope_rel Q (<[k := b]> m) (<[k := b']> m').
Proof. intros H Hb j. rewrite !lookup_insert. case_decide; [by constructor|apply H]. Qed.

Lemma lift_push s s' : lift Q s s' -> lift Q (push_scope s) (push_scope s').
Proof. intros H. apply Forall2_app; [done|]. constructor; [apply scope_rel_empty|constructor]. Qed.

Lemma lift_pop s s' : lift Q s s' -> lift Q (pop_scope s) (pop_scope s').
Proof. intros H. unfold lift, pop_scope, pop; simpl. rewrite (Forall2_length _ _ _ H). by apply Forall2_take. Qed.

Lemma head_omap_rel i l l' :
  Forall2 (scope_rel Q) l l' ->
  option_Forall2 Q (head (omap (fun scope => scope !! i) l)) (head (omap (fun scope => scope !! i) l')).
Proof. induction 1 as [|m m' l l' Hm H IH]; simpl; [constructor|]. destruct (Hm i); [by constructor|done]. Qed.

Lemma lift_binding_by_id i s s' : lift Q s s' -> option_Forall2 Q (binding_by_id i s) (binding_by_id i s').
Proof. intros H. unfold binding_by_id. by apply head_omap_rel, Forall2_rev_rel. Qed.

Lemma alter_first_rel f g i l l' :
  (forall b b', Q b b' -> Q (f b) (g b')) ->
  Forall2 (scope_rel Q) l l' -> Forall2 (scope_rel Q) (alter_first f i l) (alter_first g i l').
Proof.
  intros Hf. induction 1 as [|m m' l l' Hm H IH]; simpl; [constructor|].
  pose proof (Hm i) as Hi. destruct Hi; constructor; auto. by apply scope_rel_insert; [|apply Hf].
Qed.

Lemma lift_alter_binding f g i s s' :
  (forall b b', Q b b' -> Q (f b) (g b')) -> lift Q s s' -> lift Q (alter_binding f i s) (alter_binding g i s').
Proof.
  intros Hf H. apply Forall2_rev_rel, alter_first_rel; [done|]. by apply Forall2_rev_rel.
Qed.

Lemma alter_first_step f i l : Reflexive Q -> (forall b, Q b (f b)) -> Forall2 (scope_rel Q) l (alter_first f i l).
Proof.
  intros HQ Hf. induction l as [|m l IH]; simpl; [constructor|]. destruct (m !! i) eqn:E; constructor; try done.
  intros k. rewrite lookup_insert. case_decide; [subst; rewrite E; constructor; apply Hf|]. destruct (m !! k); constructor. apply HQ.
Qed.

Lemma lift_alter_step f i s : Reflexive Q -> (forall b, Q b (f b)) -> lift Q s (alter_binding f i s).
Proof.
  intros HQ Hf. unfold lift, alter_binding; simpl. rewrite <- (rev_involutive (scopes s)) at 1.
  by apply Forall2_rev_rel, alter_first_step.
Qed.

(** Scope by scope *)
Lemma lift_lookup s s' :
  lift Q s s' <-> length (scopes s) = length (scopes s') /\
                  forall i k, option_Forall2 Q (branch_binding s i k) (branch_binding s' i k).
Proof.
  unfold lift, branch_binding. split.
  - intros H. split; [by eapply Forall2_length|]. intros i k. rewrite Forall2_lookup in H. destruct (H i); simpl; [apply H0|constructor].
  - intros [Hl H]. rewrite Forall2_lookup. intros i.
    destruct (scopes s !! i) as [m|] eqn:E1, (scopes s' !! i) as [m'|] eqn:E2.
    + apply Some_Forall2. intros k. specialize (H i k). by rewrite E1, E2 in H.
    + apply lookup_lt_Some in E1. apply lookup_ge_None in E2. lia.
    + apply lookup_lt_Some in E2. apply lookup_ge_None in E1. lia.
    + constructor.
Qed.
End Lift.

Lemma lift_impl (Q Q' : BindingState -> BindingState -> Prop) s s' : (forall b b', Q b b' -> Q' b b') -> lift Q s s' -> lift Q' s s'.
Proof. intros H HF. eapply Forall2_impl; [exact HF|]. intros m m' Hm k. destruct (Hm k); constructor. auto. Qed.

Lemma lift_compose (Q1 Q2 Q3 : BindingState -> BindingState -> Prop) s1 s2 s3 :
  (forall a b c, Q1 a b -> Q2 b c -> Q3 a c) -> lift Q1 s1 s2 -> lift Q2 s2 s3 -> lift Q3 s1 s3.
Proof.
  intros H. rewrite !lift_lookup. intros [L1 H1] [L2 H2]. split; [congruence|]. intros i k.
  specialize (H1 i k). specialize (H2 i k). destruct H1; inversion H2; subst; constructor. eauto.
Qed.

(** ** What every step keeps *)

(** The part of a binding that is fixed when it is defined *)
Definition erase (b : BindingState) : LocalId * string * bool * option Ty := (id b, name b, copy b, bty b).

Definition framed_binding (b b' : BindingState) : Prop :=
  erase b = erase b' /\ move_count b <= move_count b' /\
  (move_count b = move_count b' -> is_moved b' = true -> is_moved b = true).

#[export] Instance framed_binding_refl : Reflexive framed_binding.
Proof. intros b. repeat split; auto. Qed.

#[export] Instance framed_binding_trans : Transitive framed_binding.
Proof. intros a b c (E1 & L1 & M1) (E2 & L2 & M2). repeat split; [congruence|lia|]. intros. apply M1; [lia|]. apply M2; [lia|done]. Qed.

Lemma is_moved_none b : is_moved (with_moved None b) = false.
Proof. apply bool_decide_eq_false_2. by intros []. Qed.

Lemma framed_moved_none b : framed_binding b (with_moved None b).
Proof. repeat split; simpl; auto. intros _. by rewrite is_moved_none. Qed.

Lemma framed_borrows l b : framed_binding b (with_borrows l b).
Proof. repeat split; auto. Qed.

Lemma framed_move_out sp b : framed_binding b (move_out sp b).
Proof. unfold move_out. destruct (copy b); [reflexivity|]. repeat split; simpl; lia. Qed.

Create HintDb borrow.
#[export] Hint Resolve framed_binding_refl framed_moved_none framed_borrows framed_move_out : borrow.

(** ** Reports are only added *)

Definition extends (r r' : Reporter) : Prop := exists ds, diagnostics r' = diagnostics r ++ ds.

#[export] Instance extends_preorder : PreOrder extends.
Proof.
  split.
  - intros r. exists []. by rewrite app_nil_r.
  - intros a b c [d1 H1] [d2 H2]. exists (d1 ++ d2). by rewrite H2, H1, app_assoc.
Qed.

Lemma extends_error code sp message r : extends r (error code sp message r).
Proof. by eexists. Qed.

Lemma for_each_rel {A S} (R : S -> S -> Prop) `{!PreOrder R} (f : A -> S -> S) l s :
  (forall x s, R s (f x s)) -> R s (for_each f l s).
Proof. intros H. unfold for_each. revert s. induction l as [|x l IH]; intros s; simpl; [reflexivity|]. etrans; [apply H|apply IH]. Qed.

Lemma for_each_rel_in {A S} (R : S -> S -> Prop) `{!PreOrder R} (f : A -> S -> S) l s :
  Forall (fun x => forall s, R s (f x s)) l -> R s (for_each f l s).
Proof.
  intros H. unfold for_each. revert s. induction H as [|x l Hx H IH]; intros s; simpl; [reflexivity|]. etrans; [apply Hx|apply IH].
Qed.

Lemma for_indexed_rel {A S} (R : S -> S -> Prop) `{!PreOrder R} (f : nat -> A -> S -> S) l index s :
  (forall i x s, R s (f i x s)) -> R s (for_indexed f index l s).
Proof. intros H. revert index s. induction l as [|x l IH]; intros index s; simpl; [reflexivity|]. etrans; [apply H|apply IH]. Qed.

Lemma for_indexed_rel_in {A S} (R : S -> S -> Prop) `{!PreOrder R} (f : nat -> A -> S -> S) l index s :
  Forall (fun x => forall i s, R s (f i x s)) l -> R s (for_indexed f index l s).
Proof. intros H. revert index s. induction H as [|x l Hx H IH]; intros index s; simpl; [reflexivity|]. etrans; [apply Hx|apply IH]. Qed.

Lemma if_some_rel {A S} (R : S -> S -> Prop) `{!PreOrder R} (f : A -> S -> S) o s :
  match o with Some x => forall s, R s (f x s) | None => True end -> R s (if_some f o s).
Proof. destruct o; simpl; [auto|reflexivity]. Qed.

Create HintDb reports.
#[export] Hint Resolve extends_error : reports.
#[export] Hint Extern 1 (extends ?r ?r) => reflexivity : reports.

Ltac reporting := intros; repeat case_match; simplify_eq/=; eauto with reports.

Lemma extends_local_use b sp r : extends r (check_local_use b sp r).
Proof. unfold check_local_use. reporting. Qed.

Lemma extends_borrow_conflict sp b s r : extends r (check_borrow_conflict sp b s r).
Proof. unfold check_borrow_conflict. reporting. Qed.

Lemma extends_scope_end sp s r : extends r (check_scope_end_escapes sp s r).
Proof.
  unfold check_scope_end_escapes. destruct (last (scopes s)) as [dying|]; [|reflexivity]. case_match; [reflexivity|].
  apply for_indexed_rel; [apply _|]. intros. apply for_each_rel; [apply _|]. reporting.
Qed.

Lemma extends_return_escape p names e s r : extends r (check_return_borrow_escape p names e s r).
Proof. unfold check_return_borrow_escape. reporting. Qed.

Lemma extends_assignment p e sp s r : extends r (check_assignment_while_borrowed p e sp s r).
Proof. unfold check_assignment_while_borrowed. reporting. Qed.

Lemma extends_shared p e sp s r : extends r (check_shared_without_sync_capture p e sp s r).
Proof. unfold check_shared_without_sync_capture. apply for_each_rel; [apply _|]. reporting. Qed.

Lemma extends_block_escape p e r : extends r (check_block_borrow_escape p e r).2.
Proof. unfold check_block_borrow_escape. reporting. Qed.

Lemma extends_argument_borrows bs sp t r : extends r (argument_borrows bs sp t r).2.
Proof. revert t. induction bs as [|b bs IH]; intros t; simpl; [reflexivity|]. case_match; [apply extends_error|apply IH]. Qed.

Lemma extends_conflicts p names args t s r : extends r (check_argument_temporary_borrow_conflicts_with p names args t s r).2.
Proof.
  revert t r. induction args as [|a args IH]; intros t r; simpl; [reflexivity|].
  pose proof (extends_argument_borrows (temporary_borrows_for_expr p names a s) (expr_span a) t r) as H.
  destruct (argument_borrows _ _ _ _) as [[conflict t'] r']. simpl in H. destruct conflict; [done|]. etrans; [exact H|apply IH].
Qed.

#[export] Hint Resolve extends_local_use extends_borrow_conflict extends_scope_end extends_return_escape extends_assignment extends_shared
  extends_block_escape extends_conflicts : reports.

(** ** Steps *)

Definition framed (s s' : OwnershipState) : Prop := lift framed_binding s s' /\ scope_order s = scope_order s'.

#[export] Instance framed_preorder : PreOrder framed.
Proof.
  split.
  - intros s. split; reflexivity.
  - intros a b c [H1 E1] [H2 E2]. split; [by etrans|congruence].
Qed.

(** Everything but the innermost scope, which a statement may extend *)
Definition framed_top (s s' : OwnershipState) : Prop :=
  framed (pop_scope s) (pop_scope s') /\ length (scopes s) = length (scopes s') /\ length (scope_order s) = length (scope_order s').

#[export] Instance framed_top_preorder : PreOrder framed_top.
Proof.
  split.
  - intros s. split_and!; reflexivity.
  - intros a b c (H1 & L1 & O1) (H2 & L2 & O2). split_and!; [by etrans|congruence..].
Qed.

Lemma framed_framed_top s s' : framed s s' -> framed_top s s'.
Proof.
  intros [H E]. split_and!; [|by eapply Forall2_length|by rewrite E]. split; [by apply lift_pop|]. unfold pop_scope; simpl. by rewrite E.
Qed.

Definition grows (c c' : Cx) : Prop := extends (rep c) (rep c') /\ exists l, drops c' = l ++ drops c.

#[export] Instance grows_preorder : PreOrder grows.
Proof.
  split.
  - intros c. split; [reflexivity|by exists []].
  - intros a b c [H1 [l1 E1]] [H2 [l2 E2]]. split; [by etrans|]. exists (l2 ++ l1). by rewrite E2, E1, app_assoc.
Qed.

(** [good c c']: a step from [c] to [c'] that keeps the frame *)
Definition good (c c' : Cx) : Prop := grows c c' /\ framed (own c) (own c').
Definition good_top (c c' : Cx) : Prop := grows c c' /\ framed_top (own c) (own c').

#[export] Instance good_preorder : PreOrder good.
Proof. split; [intros c; split; reflexivity|]. intros a b c [G1 F1] [G2 F2]. split; by etrans. Qed.

#[export] Instance good_top_preorder : PreOrder good_top.
Proof. split; [intros c; split; reflexivity|]. intros a b c [G1 F1] [G2 F2]. split; by etrans. Qed.

Lemma good_good_top c c' : good c c' -> good_top c c'.
Proof. intros [G F]. split; [done|]. by apply framed_framed_top. Qed.

Lemma good_set_rep r c : extends (rep c) r -> good c (set_rep r c).
Proof. intros H. split; [|reflexivity]. split; [done|by exists []]. Qed.

Lemma good_reports f c : (forall s r, extends r (f s r)) -> good c (reports f c).
Proof. intros H. by apply good_set_rep. Qed.

Lemma good_on_own f c : framed (own c) (f (own c)) -> good c (on_own f c).
Proof. intros H. split; [|done]. split; [reflexivity|by exists []]. Qed.

Lemma good_record point ids c : good c (record_drops point ids c).
Proof. unfold record_drops. destruct ids as [|i ids]; [reflexivity|]. split; [|reflexivity]. split; [reflexivity|by exists [(point, i :: ids)]]. Qed.

Lemma framed_alter f i s : (forall b, framed_binding b (f b)) -> framed s (alter_binding f i s).
Proof. intros H. split; [|done]. apply lift_alter_step; [apply _|done]. Qed.

(** States with the same stacks *)
Lemma framed_same s s' : scopes s = scopes s' -> scope_order s = scope_order s' -> framed s s'.
Proof. intros E1 E2. split; [|done]. unfold lift. by rewrite E1. Qed.

Lemma good_consume_local i sp c : good c (consume_local i sp c).
Proof.
  unfold consume_local. destruct (binding_by_id i (own c)) as [b|]; [|reflexivity].
  split; [split; [|by exists []]|].
  - simpl. case_match; [apply extends_local_use|]. etrans; [apply extends_local_use|apply extends_error].
  - simpl. apply framed_alter. auto with borrow.
Qed.

Lemma good_ident_use p e c : good c (check_ident_use p e c).
Proof. unfold check_ident_use. case_match; [|reflexivity]. apply good_set_rep, extends_local_use. Qed.

Lemma good_transfer e boundary c : good c (record_drops_at_control_transfer e boundary c).
Proof. apply good_record. Qed.

Lemma good_exit e boundary c : good c (exit e boundary c).
Proof. etrans; [apply good_transfer|]. apply good_on_own. by apply framed_same. Qed.

Lemma good_temporaries p names args initial c :
  good c (argument_temporaries p names args initial c).2.
Proof.
  unfold argument_temporaries. pose proof (extends_conflicts p names args initial (own c) (rep c)) as H.
  destruct (check_argument_temporary_borrow_conflicts_with _ _ _ _ _ _) as [t r]. by apply good_set_rep.
Qed.

Lemma good_with_temporary_borrows p names f e bs c : (forall c, good c (f e c)) -> good c (with_temporary_borrows p names f e bs c).
Proof.
  intros H. unfold with_temporary_borrows. etrans; [apply good_on_own|etrans; [apply H|apply good_on_own]]; by apply framed_same.
Qed.

Lemma good_store_into holders root origins attach sp c : good c (store_into holders root origins attach sp c).
Proof.
  revert c. induction holders as [|h hs IH]; intros c; simpl; [reflexivity|].
  repeat case_match; try apply IH; try (apply good_set_rep, extends_error);
    (etrans; [|apply IH]; apply good_on_own, framed_alter; auto with borrow).
Qed.

Lemma good_store_borrows p place origins attach sp c : good c (store_borrows p place origins attach sp c).
Proof. unfold store_borrows. repeat case_match; try reflexivity; apply good_store_into. Qed.

(** ** Branches

    A merge alters each binding of the state before the branches once. *)

(** The bindings of a state with the index of their scope *)
Definition placed (s : OwnershipState) : list (nat * LocalId * BindingState) :=
  concat (imap (fun i scope => map (fun e => (i, e.1, e.2)) (map_to_list scope)) (scopes s)).

Lemma for_bindings_fold {S} (f : nat -> LocalId -> BindingState -> S -> S) before x :
  for_bindings f before x = fold_left (fun x e => f e.1.1 e.1.2 e.2 x) (placed before) x.
Proof.
  unfold for_bindings, placed. generalize (scopes before) as l.
  assert (forall l n, for_indexed (fun index scope => for_each (fun e => f index e.1 e.2) (map_to_list scope)) n l x =
            fold_left (fun x e => f e.1.1 e.1.2 e.2 x)
              (concat (imap (fun i scope => map (fun e => (n + i, e.1, e.2)) (map_to_list scope)) l)) x) as H.
  { intros l. revert x. induction l as [|m l IH]; intros x n; simpl; [done|]. rewrite IH, fold_left_app. f_equal.
    - f_equal. apply imap_ext. intros i m' _. simpl. by rewrite Nat.add_succ_r.
    - unfold for_each. rewrite Nat.add_0_r. generalize (map_to_list m) as es. clear. intros es. revert x. induction es; intros; simpl; auto. }
  intros l. apply (H l 0).
Qed.

Lemma elem_of_placed s i k b : (i, k, b) ∈ placed s <-> branch_binding s i k = Some b.
Proof.
  unfold placed, branch_binding. rewrite list_elem_of_In, in_concat. split.
  - intros (l & Hl & Hin). rewrite <- list_elem_of_In in Hl. rewrite <- list_elem_of_In in Hin. apply elem_of_lookup_imap in Hl as (j & m & -> & Hm).
    apply list_elem_of_fmap in Hin as ([k' b'] & [= -> -> ->] & He). rewrite Hm. simpl. by apply elem_of_map_to_list.
  - destruct (scopes s !! i) as [m|] eqn:Em; simpl; [|done]. intros Hk.
    exists (map (fun e => (i, e.1, e.2)) (map_to_list m)). split; rewrite <- list_elem_of_In.
    + apply elem_of_lookup_imap. by exists i, m.
    + apply list_elem_of_fmap. exists (k, b). split; [done|]. by apply elem_of_map_to_list.
Qed.

Lemma branch_alter_at f j l s i k :
  branch_binding (alter_at f j l s) i k = if bool_decide (i = j /\ k = l) then f <$> branch_binding s i k else branch_binding s i k.
Proof.
  unfold branch_binding, alter_at; simpl. destruct (decide (i = j)) as [->|Hi].
  - rewrite list_lookup_alter_eq. destruct (scopes s !! j) as [m|]; simpl; [|by case_bool_decide].
    destruct (decide (k = l)) as [->|Hk]; [by rewrite lookup_alter_eq, bool_decide_eq_true_2|].
    rewrite lookup_alter_ne by done. by rewrite bool_decide_eq_false_2 by (intros [_ ?]; done).
  - rewrite list_lookup_alter_ne by done. by rewrite bool_decide_eq_false_2 by (intros [? _]; done).
Qed.

Lemma length_alter_at f j l s : length (scopes (alter_at f j l s)) = length (scopes s).
Proof. apply length_alter. Qed.

(** Altering every binding of [before], each perhaps more than once *)
Definition alter_all (g : nat -> LocalId -> BindingState -> BindingState) (before s : OwnershipState) : OwnershipState :=
  for_bindings (fun i k _ s => alter_at (g i k) i k s) before s.

Lemma alter_all_frame g before s :
  length (scopes (alter_all g before s)) = length (scopes s) /\ scope_order (alter_all g before s) = scope_order s /\
  reachable (alter_all g before s) = reachable s.
Proof.
  unfold alter_all. rewrite for_bindings_fold. generalize (placed before) as l. intros l. revert s.
  induction l as [|e l IH]; intros s; simpl; [done|]. destruct (IH (alter_at (g e.1.1 e.1.2) e.1.1 e.1.2 s)) as (-> & -> & ->).
  by rewrite length_alter_at.
Qed.

Lemma branch_alter_all g before s i k :
  (forall i k b, g i k (g i k b) = g i k b) -> (branch_binding before i k = None -> branch_binding s i k = None) ->
  branch_binding (alter_all g before s) i k = g i k <$> branch_binding s i k.
Proof.
  intros Hg Hn. unfold alter_all. rewrite for_bindings_fold.
  assert (forall l s, branch_binding (fold_left (fun s e => alter_at (g e.1.1 e.1.2) e.1.1 e.1.2 s) l s) i k =
            if bool_decide ((i, k) ∈ map fst l) then g i k <$> branch_binding s i k else branch_binding s i k) as ->.
  { clear Hn s. intros l. induction l as [|[[j l'] b] l IH]; intros s; simpl; [done|]. rewrite IH, branch_alter_at.
    destruct (decide (i = j /\ k = l')) as [[-> ->]|Hne].
    - rewrite (bool_decide_eq_true_2 (j = j /\ l' = l')) by done. rewrite (bool_decide_eq_true_2 ((j, l') ∈ (j, l') :: _)) by left.
      case_bool_decide; [|done]. destruct (branch_binding s j l'); simpl; [|done]. by rewrite Hg.
    - rewrite (bool_decide_eq_false_2 _ Hne).
      rewrite (bool_decide_ext ((i, k) ∈ (j, l') :: map fst l) ((i, k) ∈ map fst l)); [done|].
      rewrite elem_of_cons. split; [|by right]. intros [[= -> ->]|?]; [by destruct Hne|done]. }
  case_bool_decide as Hin; [done|].
  destruct (branch_binding before i k) as [b|] eqn:E; [|by rewrite Hn].
  destruct Hin. apply elem_of_placed in E. apply list_elem_of_fmap. by exists (i, k, b).
Qed.

Lemma alter_at_id f i k s : (forall b, f b = b) -> alter_at f i k s = s.
Proof.
  intros H. unfold alter_at, with_scopes. destruct s as [sc so r cs lu tb lb]; simpl. f_equal.
  apply list_eq. intros j. destruct (decide (i = j)) as [->|Hj]; [|by rewrite list_lookup_alter_ne].
  rewrite list_lookup_alter_eq. destruct (sc !! j); simpl; [|done]. f_equal. by apply map_alter_id || (apply alter_id; auto).
Qed.

Lemma for_bindings_map {S T} (h : S -> T) f f' before x :
  (forall i k b x, h (f i k b x) = f' i k b (h x)) -> h (for_bindings f before x) = for_bindings f' before (h x).
Proof.
  intros H. rewrite !for_bindings_fold. generalize (placed before) as l. intros l. revert x.
  induction l as [|e l IH]; intros x; simpl; [done|]. by rewrite IH, H.
Qed.

Lemma for_bindings_rel {S} (R : S -> S -> Prop) `{!PreOrder R} f before x :
  (forall i k b x, R x (f i k b x)) -> R x (for_bindings f before x).
Proof. intros H. unfold for_bindings. apply (for_indexed_rel R). intros. apply (for_each_rel R). intros; apply H. Qed.

Definition merged_count (branches : list OwnershipState) (i : nat) (k : LocalId) (b : BindingState) : BindingState :=
  match maximum (omap (fun branch => move_count <$> branch_binding branch i k) branches) with
  | Some n => with_count n b
  | None => b
  end.

Lemma merge_counts_all before branches target : merge_counts before branches target = alter_all (merged_count branches) before target.
Proof.
  unfold merge_counts, alter_all. rewrite !for_bindings_fold. generalize (placed before) as l. intros l. revert target.
  induction l as [|e l IH]; intros t; simpl; [done|]. rewrite IH. f_equal. unfold merged_count.
  destruct (maximum _); [done|]. by rewrite alter_at_id.
Qed.

Definition moved_total (rbs : list OwnershipState) (i : nat) (k : LocalId) : nat := length (List.filter (moved_in i k) rbs).

Definition merged_move (first : OwnershipState) (rbs : list OwnershipState) (i : nat) (k : LocalId) (b : BindingState) : BindingState :=
  if moved_total rbs i k =? length rbs then with_moved (f ← branch_binding first i k; moved_at f) b
  else if moved_total rbs i k =? 0 then with_moved None b else b.

Lemma merge_moves_own sp before first rbs c : own (merge_moves sp before first rbs c) = alter_all (merged_move first rbs) before (own c).
Proof.
  apply (for_bindings_map own). intros i k b x. cbv zeta.
  unfold merged_move, moved_total. destruct (_ =? length rbs); [by destruct (negb _ && _)|].
  destruct (_ =? 0); [by destruct (negb _ && _)|]. rewrite alter_at_id by done. by destruct (negb _ && _).
Qed.

Lemma merge_moves_grows sp before first rbs c : grows c (merge_moves sp before first rbs c).
Proof.
  unfold merge_moves. apply (for_bindings_rel grows). intros i k b x. cbv zeta.
  repeat case_match; (split; [|by exists []]); simpl; first [reflexivity|apply extends_error].
Qed.

Lemma has_errors_error code sp message r : has_errors (error code sp message r) = true.
Proof. unfold has_errors, error, Reporter_push; simpl. rewrite existsb_app. simpl. by rewrite orb_true_r. Qed.

Lemma extends_clean r r' : extends r r' -> has_errors r' = false -> has_errors r = false.
Proof. intros [ds E]. unfold has_errors. rewrite E, existsb_app. by intros [H _]%orb_false_iff. Qed.

Lemma for_bindings_clean (f : nat -> LocalId -> BindingState -> Cx -> Cx) before c i k b :
  (forall i k b c, grows c (f i k b c)) -> branch_binding before i k = Some b ->
  has_errors (rep (for_bindings f before c)) = false -> exists c, has_errors (rep (f i k b c)) = false.
Proof.
  intros Hf Hb. apply elem_of_placed in Hb. rewrite for_bindings_fold. revert c Hb.
  induction (placed before) as [|e l IH]; intros c Hb; simpl; [by apply elem_of_nil in Hb|].
  apply elem_of_cons in Hb as [<-|Hb]; [|by apply IH]. intros H. exists c. eapply extends_clean; [|exact H]. clear H IH.
  simpl. generalize (f i k b c) as c'. induction l as [|e l IH]; intros c'; simpl; [reflexivity|].
  etrans; [apply (Hf e.1.1 e.1.2 e.2)|apply IH].
Qed.

(** Without a report the reachable branches agree. *)
Lemma merge_moves_agree sp before first rbs c i k b :
  branch_binding before i k = Some b -> has_errors (rep (merge_moves sp before first rbs c)) = false ->
  moved_total rbs i k = 0 \/ moved_total rbs i k = length rbs.
Proof.
  intros Hb Hc. unfold merge_moves in Hc. apply (for_bindings_clean _ _ _ i k b) in Hc as [c' Hc']; [|clear|done].
  - simpl in Hc'. unfold moved_total. revert Hc'.
    destruct (Nat.eqb_spec (length (List.filter (moved_in i k) rbs)) 0), (Nat.eqb_spec (length (List.filter (moved_in i k) rbs)) (length rbs)); auto.
    simpl. by rewrite has_errors_error.
  - intros i k b x. cbv zeta. repeat case_match; (split; [|by exists []]); simpl; first [reflexivity|apply extends_error].
Qed.

(** Bindings that are moved in both or in neither *)
Definition same_moves (b b' : BindingState) : Prop := erase b = erase b' /\ is_moved b = is_moved b'.

Lemma maximum_ge (l : list nat) n : maximum l = Some n -> forall m, m ∈ l -> m <= n.
Proof.
  destruct l as [|x l]; simpl; [done|]. intros [= <-]. revert x. induction l as [|y l IH]; intros x m Hm.
  - apply list_elem_of_singleton in Hm. by subst.
  - simpl. apply elem_of_cons in Hm as [->|Hm]; [etrans; [apply (Nat.le_max_l x y)|apply IH; left]|].
    apply elem_of_cons in Hm as [->|Hm]; [etrans; [apply (Nat.le_max_r x y)|apply IH; left]|]. apply IH. by right.
Qed.

Section Merge.
Context (before : OwnershipState) (branches : list OwnershipState).
Context (Hne : branches <> []) (Hframe : Forall (framed before) branches).

Lemma branch_framed s i k b : s ∈ branches -> branch_binding before i k = Some b ->
  exists b', branch_binding s i k = Some b' /\ framed_binding b b'.
Proof.
  intros Hs Hb. rewrite Forall_forall in Hframe. destruct (Hframe s Hs) as [Hl _].
  apply lift_lookup in Hl as [_ Hl]. specialize (Hl i k). rewrite Hb in Hl. inversion Hl; subst. eauto.
Qed.

Lemma merged_count_spec i k b : branch_binding before i k = Some b ->
  exists n, merged_count branches i k b = with_count n b /\ move_count b <= n /\
    (n = move_count b -> forall s, s ∈ branches -> moved_in i k s = true -> is_moved b = true).
Proof.
  intros Hb. unfold merged_count.
  set (counts := omap (fun branch => move_count <$> branch_binding branch i k) branches).
  assert (forall s, s ∈ branches -> exists b', branch_binding s i k = Some b' /\ framed_binding b b' /\ move_count b' ∈ counts) as Hc.
  { intros s Hs. destruct (branch_framed s i k b Hs Hb) as (b' & E & F). exists b'. split_and!; [done..|].
    apply list_elem_of_omap. exists s. split; [done|]. by rewrite E. }
  destruct branches as [|s0 bs] eqn:Eb; [done|].
  destruct (maximum counts) as [n|] eqn:Em.
  - exists n. split; [done|]. pose proof (maximum_ge _ _ Em) as Hge.
    destruct (Hc s0 ltac:(left)) as (b0 & _ & (_ & L0 & _) & H0). apply Hge in H0. split; [lia|].
    intros -> s Hs Hm. destruct (Hc s Hs) as (b' & E & (_ & L & M) & Hin). apply Hge in Hin. unfold moved_in in Hm. rewrite E in Hm.
    apply M; [lia|done].
  - destruct (Hc s0 ltac:(left)) as (b0 & _ & _ & H0). destruct counts; [by apply elem_of_nil in H0|done].
Qed.

Lemma filter_all_length {A} (P : A -> bool) l : length (List.filter P l) = length l -> forall x, x ∈ l -> P x = true.
Proof.
  induction l as [|y l IH]; simpl; [intros _ x Hx; by apply elem_of_nil in Hx|]. destruct (P y) eqn:E; simpl; intros H x Hx.
  - apply elem_of_cons in Hx as [->|Hx]; [done|]. apply IH; [lia|done].
  - pose proof (List.filter_length_le P l). lia.
Qed.

Lemma filter_none_length {A} (P : A -> bool) l : length (List.filter P l) = 0 -> forall x, x ∈ l -> P x = false.
Proof.
  induction l as [|y l IH]; simpl; [intros _ x Hx; by apply elem_of_nil in Hx|]. destruct (P y) eqn:E; simpl; [done|]. intros H x Hx.
  apply elem_of_cons in Hx as [->|Hx]; auto.
Qed.

Lemma merged_count_idemp i k b : merged_count branches i k (merged_count branches i k b) = merged_count branches i k b.
Proof. unfold merged_count. by destruct (maximum _). Qed.

Lemma merged_move_idemp first rbs i k b : merged_move first rbs i k (merged_move first rbs i k b) = merged_move first rbs i k b.
Proof. unfold merged_move. destruct (_ =? length rbs); [done|]. by destruct (_ =? 0). Qed.

Lemma counts_binding i k : branch_binding (alter_all (merged_count branches) before before) i k = merged_count branches i k <$> branch_binding before i k.
Proof. apply branch_alter_all; [apply merged_count_idemp|done]. Qed.

Lemma framed_counts : framed before (alter_all (merged_count branches) before before).
Proof.
  destruct (alter_all_frame (merged_count branches) before before) as (L & O & _). split; [|done]. apply lift_lookup. split; [done|].
  intros i k. rewrite counts_binding. destruct (branch_binding before i k) as [b|] eqn:E; simpl; constructor.
  destruct (merged_count_spec i k b E) as (n & -> & Hn & Hm). repeat split; simpl; auto.
Qed.

(** The state after a merge with a reachable branch *)
Definition merged (first : OwnershipState) (rbs : list OwnershipState) : OwnershipState :=
  alter_all (merged_move first rbs) before (with_reachable true (alter_all (merged_count branches) before before)).

Lemma merged_binding first rbs i k :
  branch_binding (merged first rbs) i k = (merged_move first rbs i k ∘ merged_count branches i k) <$> branch_binding before i k.
Proof.
  unfold merged. rewrite branch_alter_all.
  - change (branch_binding (with_reachable true ?s) i k) with (branch_binding s i k). rewrite counts_binding.
    by destruct (branch_binding before i k).
  - apply merged_move_idemp.
  - change (branch_binding (with_reachable true ?s) i k) with (branch_binding s i k). rewrite counts_binding. by intros ->.
Qed.

Lemma is_moved_with_moved m b : is_moved (with_moved m b) = bool_decide (m <> None).
Proof. done. Qed.

Lemma merged_move_moved first rbs i k b b1 :
  first ∈ rbs -> branch_binding first i k = Some b1 ->
  (moved_total rbs i k = length rbs -> is_moved (merged_move first rbs i k b) = true) /\
  (moved_total rbs i k = 0 -> is_moved (merged_move first rbs i k b) = false).
Proof.
  intros Hin E. assert (length rbs <> 0) as Hl by (destruct rbs; [by apply elem_of_nil in Hin|done]). unfold merged_move. rewrite E. simpl.
  split; intros H.
  - rewrite (proj2 (Nat.eqb_eq _ _) H). rewrite is_moved_with_moved. apply (filter_all_length (moved_in i k)) with (x := first) in H; [|done].
    unfold moved_in in H. by rewrite E in H.
  - rewrite (proj2 (Nat.eqb_neq _ _)) by lia. rewrite (proj2 (Nat.eqb_eq _ _) H). apply is_moved_none.
Qed.

Lemma merged_framed first rbs : first ∈ rbs -> (forall s, s ∈ rbs -> s ∈ branches) -> framed before (merged first rbs).
Proof.
  intros Hin Hsub. split.
  - apply lift_lookup. destruct (alter_all_frame (merged_move first rbs) before (with_reachable true (alter_all (merged_count branches) before before))) as (L & _ & _).
    destruct (alter_all_frame (merged_count branches) before before) as (L' & _ & _). split; [unfold merged; rewrite L; done|].
    intros i k. rewrite merged_binding. destruct (branch_binding before i k) as [b|] eqn:E; simpl; constructor.
    destruct (merged_count_spec i k b E) as (n & -> & Hn & Hm). unfold merged_move.
    destruct (Nat.eqb_spec (moved_total rbs i k) (length rbs)) as [H|H]; [|destruct (Nat.eqb_spec (moved_total rbs i k) 0)];
      repeat split; simpl; auto.
    + intros Hn' _. eapply Hm; [by symmetry|by apply Hsub|]. by apply (filter_all_length (moved_in i k)) with (x := first) in H.
    + intros _. by rewrite is_moved_none.
  - unfold merged. destruct (alter_all_frame (merged_move first rbs) before (with_reachable true (alter_all (merged_count branches) before before))) as (_ & -> & _).
    simpl. by destruct (alter_all_frame (merged_count branches) before before) as (_ & -> & _).
Qed.

Lemma merged_agrees first rbs s : first ∈ rbs -> (forall s, s ∈ rbs -> s ∈ branches) -> s ∈ rbs ->
  (forall i k b, branch_binding before i k = Some b -> moved_total rbs i k = 0 \/ moved_total rbs i k = length rbs) ->
  lift same_moves s (merged first rbs).
Proof.
  intros Hin Hsub Hs Hagree. assert (framed before s) as [Hl _] by (rewrite Forall_forall in Hframe; auto).
  apply lift_lookup in Hl as [Hlen Hl]. pose proof (merged_framed first rbs Hin Hsub) as [Hm _]. apply lift_lookup in Hm as [Hlen' Hm].
  apply lift_lookup. split; [congruence|]. intros i k. specialize (Hl i k). specialize (Hm i k). rewrite merged_binding in *.
  destruct (branch_binding before i k) as [b|] eqn:E; inversion Hl as [? b' Fb Eb Es|]; subst; simpl in *; [|constructor].
  inversion Hm as [? ? Fm|]; subst. constructor. split; [destruct Fb, Fm; congruence|].
  destruct (branch_framed first i k b (Hsub _ Hin) E) as (b1 & E1 & _).
  destruct (merged_move_moved first rbs i k (merged_count branches i k b) b1 Hin E1) as [H1 H0].
  assert (is_moved b' = moved_in i k s) as -> by (unfold moved_in; by rewrite <- Es).
  destruct (Hagree i k b E) as [H|H]; [rewrite H0 by done|rewrite H1 by done].
  - by apply (filter_none_length (moved_in i k)) with (x := s) in H.
  - by apply (filter_all_length (moved_in i k)) with (x := s) in H.
Qed.
End Merge.

Lemma merge_good sp branches c : Forall (framed (own c)) branches -> good c (merge_many_branch_states sp (own c) branches c).
Proof.
  intros Hf. unfold merge_many_branch_states. destruct branches as [|s0 bs] eqn:Eb; [reflexivity|]. rewrite <- Eb in *.
  assert (branches <> []) as Hne by (subst; done).
  assert (good c (on_own (merge_counts (own c) branches) c)) as Hg.
  { apply good_on_own. rewrite merge_counts_all. by apply framed_counts. }
  destruct (List.filter reachable branches) as [|first rbs] eqn:Er.
  - etrans; [exact Hg|]. apply good_on_own. by apply framed_same.
  - split.
    + etrans; [|apply merge_moves_grows]. etrans; [apply Hg|]. by apply good_on_own, framed_same.
    + rewrite merge_moves_own. simpl. rewrite merge_counts_all. apply (merged_framed (own c) branches Hne Hf); [left|].
      intros s Hs. rewrite <- Er in Hs. by apply list_elem_of_In, filter_In in Hs as [Hs%list_elem_of_In _].
Qed.

Lemma merge_sound sp branches c s :
  Forall (framed (own c)) branches -> s ∈ branches -> reachable s = true ->
  has_errors (rep (merge_many_branch_states sp (own c) branches c)) = false ->
  reachable (own (merge_many_branch_states sp (own c) branches c)) = true /\
  lift same_moves s (own (merge_many_branch_states sp (own c) branches c)).
Proof.
  intros Hf Hs Hr. unfold merge_many_branch_states. destruct branches as [|s0 bs] eqn:Eb; [by apply elem_of_nil in Hs|]. rewrite <- Eb in *.
  assert (branches <> []) as Hne by (subst; done).
  assert (s ∈ List.filter reachable branches) as Hin by (apply list_elem_of_In, filter_In; split; [by apply list_elem_of_In|done]).
  destruct (List.filter reachable branches) as [|first rbs] eqn:Er; [by apply elem_of_nil in Hin|].
  rewrite merge_moves_own. simpl. rewrite merge_counts_all. intros Hc. split.
  - destruct (alter_all_frame (merged_move first (first :: rbs)) (own c)
      (with_reachable true (alter_all (merged_count branches) (own c) (own c)))) as (_ & _ & ->). done.
  - apply (merged_agrees (own c) branches Hne Hf); [left| |done|].
    + intros s' Hs'. rewrite <- Er in Hs'. by apply list_elem_of_In, filter_In in Hs' as [Hs'%list_elem_of_In _].
    + intros i k b Hb. by eapply merge_moves_agree.
Qed.

(** ** Definitions extend the innermost scope *)

Lemma pop_alter_last {A} (f : A -> A) l : pop (alter_last f l) = pop l.
Proof.
  unfold pop, alter_last. rewrite length_alter. apply list_eq. intros i. destruct (decide (i < pred (length l))).
  - rewrite !lookup_take_lt by done. rewrite list_lookup_alter_ne by lia. done.
  - rewrite !lookup_take_ge by lia. done.
Qed.

Lemma length_alter_last {A} (f : A -> A) l : length (alter_last f l) = length l.
Proof. apply length_alter. Qed.

Section Frame.
Context (p : Program) (names : gset string).

Lemma top_define pattern cp ty bs s : framed_top s (define_with_borrows p pattern cp ty bs s).
Proof.
  unfold define_with_borrows. destruct (Locals_pat _ _) as [i|]; [|reflexivity].
  destruct pattern; try reflexivity; (destruct (scopes s) eqn:E; [reflexivity|rewrite <- E]);
    (split_and!; [apply framed_same; symmetry; apply pop_alter_last|symmetry; apply length_alter_last..]).
Qed.

Lemma top_bind_pattern pattern : forall cp ty s, framed_top s (bind_pattern p names pattern cp ty s).
Proof.
  induction pattern using Pat_ind; parts; intros cp ty s; cbn [bind_pattern]; try reflexivity; try apply top_define; auto.
  - apply (for_indexed_rel_in framed_top). eapply Forall_impl; [exact H|]. auto.
  - apply (for_each_rel_in framed_top). eapply Forall_impl; [exact H|]. auto.
  - apply (for_indexed_rel_in framed_top). eapply Forall_impl; [exact H|]. auto.
  - apply (for_each_rel_in framed_top). eapply Forall_impl; [exact H|]. auto.
  - etrans; [apply top_define|]. apply IHpattern.
Qed.

Lemma framed_bind_origins pattern origins s : framed s (bind_pattern_origins p pattern origins s).
Proof.
  unfold bind_pattern_origins. destruct origins as [|o os]; [reflexivity|]. generalize (elements (collect_pattern_ids (p_locals p) pattern ∅)) as ids.
  intros ids. revert s. induction ids as [|i ids IH]; intros s; simpl; [reflexivity|]. etrans; [|apply IH]. apply framed_alter.
  intros b. destruct (match bty b with Some ty => _ | None => _ end); [apply framed_borrows|reflexivity].
Qed.

Lemma top_destructuring pattern cp ty bs s : framed_top s (bind_destructuring_pattern p names pattern cp ty bs s).
Proof. unfold bind_destructuring_pattern. etrans; [apply top_bind_pattern|]. apply framed_framed_top, framed_bind_origins. Qed.

Lemma top_on_own f c : framed_top (own c) (f (own c)) -> good_top c (on_own f c).
Proof. intros H. split; [|done]. split; [reflexivity|by exists []]. Qed.

Lemma top_define_let pattern checked cp ty bs c : good_top c (define_let_pattern p names pattern checked cp ty bs c).
Proof.
  unfold define_let_pattern. destruct pattern; try (apply top_on_own, top_destructuring).
  etrans; [apply good_good_top, good_set_rep|apply top_on_own, top_define].
  apply (for_each_rel extends). intros b r. repeat case_match; auto with reports.
Qed.

(** Leaving the scope that was entered *)
Lemma pop_push {A} (l : list A) x : pop (l ++ [x]) = l.
Proof. unfold pop. rewrite length_app. simpl. rewrite Nat.add_1_r. simpl. by rewrite take_app_length. Qed.

Lemma framed_block s s' : framed_top (push_scope s) s' -> framed s (pop_scope s').
Proof.
  intros (F & _ & _). etrans; [|exact F]. apply framed_same; unfold pop_scope, push_scope; simpl; by rewrite pop_push.
Qed.

(** The stacks do not depend on the other fields. *)
Lemma framed_top_same s s' t t' :
  scopes s = scopes t -> scope_order s = scope_order t -> scopes s' = scopes t' -> scope_order s' = scope_order t' ->
  framed_top s s' -> framed_top t t'.
Proof.
  intros E1 E2 E3 E4 H. etrans; [apply framed_framed_top, framed_same; by symmetry|]. etrans; [exact H|]. by apply framed_framed_top, framed_same.
Qed.

Lemma top_visit_stmts f stmts c : Forall (fun st => forall c, good_top c (f st c)) stmts -> good_top c (visit_stmts f stmts c).
Proof.
  intros H. revert c. induction H as [|st stmts Hst H IH]; intros c; [reflexivity|].
  cbn [visit_stmts]. cbv zeta.
  etrans; [apply (top_on_own (with_statement (statement_position st))), framed_framed_top; by apply framed_same|].
  destruct (reachable _); [|reflexivity]. etrans; [apply Hst|apply IH].
Qed.

Lemma good_visit_block_with stmts_visit tail_visit b sp ret uses c :
  (forall c, good_top c (stmts_visit c)) ->
  match tail_visit with Some (_, f) => forall c, good c (f c) | None => True end ->
  good c (visit_block_with p names stmts_visit tail_visit b sp ret uses c).
Proof.
  intros Hs Ht. unfold visit_block_with. cbv zeta.
  set (c1 := on_own _ c). set (c2 := stmts_visit c1). set (c3 := match tail_visit with Some _ => _ | None => _ end).
  set (c4 := if reachable (own c3) then _ else _).
  assert (good_top c2 c3) as H3.
  { unfold c3. destruct tail_visit as [[tail f]|]; [|reflexivity]. destruct (reachable (own c2)); [|reflexivity]. apply good_good_top.
    etrans; [apply (good_on_own (with_statement (start_of (expr_span tail)))); by apply framed_same|]. etrans; [|apply Ht].
    destruct ret; [apply good_reports; auto with reports|reflexivity]. }
  assert (good_top c3 c4) as H4.
  { unfold c4. destruct (reachable (own c3)); [|reflexivity]. apply good_good_top.
    etrans; [apply (good_reports (check_scope_end_escapes sp)); auto with reports|apply good_record]. }
  assert (good_top c1 c4) as [G F] by (etrans; [apply Hs|etrans; [exact H3|exact H4]]).
  split; [exact G|]. simpl.
  etrans; [apply (framed_block (own c) (own c4)); eapply framed_top_same; [..|exact F]; done|by apply framed_same].
Qed.

(** ** The parts of the traversal *)

Lemma in_branch_spec (f : Cx -> Cx) s c : own c = s -> (forall c, good c (f c)) ->
  framed s (in_branch s f c).1 /\ good c (in_branch s f c).2 /\ own (in_branch s f c).2 = s.
Proof.
  intros <- H. unfold in_branch; simpl. destruct (H (set_own (own c) c)) as [[G1 G2] F]. split_and!; [exact F| |done].
  split; [|reflexivity]. by split.
Qed.

Lemma in_branches_spec fs s c : own c = s -> Forall (fun f => forall c, good c (f c)) fs ->
  Forall (framed s) (in_branches s fs c).1 /\ good c (in_branches s fs c).2 /\ own (in_branches s fs c).2 = s.
Proof.
  intros Hs H. revert c Hs. induction H as [|f fs Hf H IH]; intros c Hs; cbn [in_branches]; [split_and!; [constructor|reflexivity|done]|].
  destruct (in_branch_spec f s c Hs Hf) as (F & G & O). destruct (in_branch s f c) as [s1 c1]. cbn [fst snd] in *.
  destruct (IH c1 O) as (F' & G' & O'). destruct (in_branches s fs c1) as [ss c2]. cbn [fst snd] in *.
  split_and!; [by constructor|by etrans|done].
Qed.

Lemma good_visit_if f g sp c : (forall c, good c (f c)) -> (forall c, good c (g c)) -> good c (visit_if f g sp c).
Proof.
  intros Hf Hg. unfold visit_if. destruct (in_branch_spec f (own c) c eq_refl Hf) as (F1 & G1 & O1).
  destruct (in_branch (own c) f c) as [s1 c1]. cbn [fst snd] in *.
  destruct (in_branch_spec g (own c) c1 O1 Hg) as (F2 & G2 & O2). destruct (in_branch (own c) g c1) as [s2 c2]. cbn [fst snd] in *.
  etrans; [exact G1|]. etrans; [exact G2|]. unfold merge_branch_states. rewrite <- O2 in *. apply merge_good.
  constructor; [done|]. constructor; [done|constructor].
Qed.

Lemma good_for_bindings f before c : (forall i k b c, good c (f i k b c)) -> good c (for_bindings f before c).
Proof. intros H. by apply (for_bindings_rel good). Qed.

Lemma good_loop_body sp f c : (forall c, good c (f c)) -> good c (check_loop_body sp f c).
Proof.
  intros H. unfold check_loop_body. cbv zeta. set (g := fun c => f (on_own _ c)).
  destruct (in_branch_spec g (own c) c eq_refl) as (F & G & O).
  { intros c'. unfold g. etrans; [|apply H]. apply good_on_own. by apply framed_same. }
  destruct (in_branch (own c) g c) as [s1 c1]. cbn [fst snd] in *. etrans; [exact G|].
  apply good_for_bindings. intros. repeat case_match; first [reflexivity|apply good_set_rep, extends_error].
Qed.

Lemma good_visit_arm guard body pattern sp cp ty origins c :
  (forall c, good c (guard c)) -> (forall c, good c (body c)) -> good c (visit_arm p names guard body pattern sp cp ty origins c).
Proof.
  intros Hg Hb. unfold visit_arm. cbv zeta. set (c1 := on_own _ c). set (c2 := body (guard c1)).
  set (c3 := if reachable (own c2) then _ else _).
  assert (good c1 c3) as [G F].
  { etrans; [apply Hg|]. etrans; [apply Hb|]. change (body (guard c1)) with c2. unfold c3.
    destruct (reachable (own c2)); [apply good_reports; auto with reports|reflexivity]. }
  split; [exact G|]. simpl. apply framed_block. etrans; [|apply framed_framed_top, F].
  simpl. etrans; [apply top_bind_pattern|]. apply framed_framed_top, framed_bind_origins.
Qed.

Lemma framed_closure_entry (params : list ClosureParam) s :
  framed_top s
    (for_each (fun param => let 'mkClosureParam pattern ty _ := param in
       bind_pattern p names pattern (match ty with Some ty => ty_is_copy ty names | None => true end) ty) params s).
Proof. apply (for_each_rel framed_top). intros [] s'. apply top_bind_pattern. Qed.

(** A closure's body is visited in a clone of the state: only its reports and
    drops remain. *)
Lemma good_closure f params body sp c : (forall c, good c (f c)) -> good c (check_closure p names f params body sp c).
Proof.
  intros H. unfold check_closure. cbv zeta. etrans; [|apply (for_each_rel good); intros; apply good_consume_local].
  unfold in_branch; simpl. split; [|reflexivity].
  destruct (H (on_own (fun s => with_reachable true
    (for_each (fun param => let 'mkClosureParam pattern ty _ := param in
       bind_pattern p names pattern (match ty with Some ty => ty_is_copy ty names | None => true end) ty) params (push_scope s)))
    (set_own (own c) c))) as [[G1 G2] _]. by split.
Qed.

Section Visit.
Context (visit : Mode -> Expr -> Cx -> Cx).

Abbreviation visits e := (forall m c, good c (visit m e c)).

Lemma good_visit_args mode args ts c : Forall (fun e => visits e) args -> good c (visit_args p names visit mode args ts c).
Proof.
  intros H. apply (for_indexed_rel_in good). eapply Forall_impl; [exact H|]. intros e He i s. apply good_with_temporary_borrows. auto.
Qed.

Lemma good_args_after mode args initial c c0 :
  good c0 c -> Forall (fun e => visits e) args ->
  good c0 (let '(ts, c) := argument_temporaries p names args initial c in visit_args p names visit mode args ts c).
Proof.
  intros H0 H. pose proof (good_temporaries p names args initial c) as Ht. destruct (argument_temporaries p names args initial c) as [ts c'].
  etrans; [exact H0|]. etrans; [exact Ht|]. by apply good_visit_args.
Qed.

Lemma good_check_call callee args c : visits callee -> Forall (fun e => visits e) args -> good c (check_call p names visit callee args c).
Proof.
  intros Hc Ha. unfold check_call. destruct callee; try (apply good_args_after; [apply Hc|done]).
  set (c1 := match get p _ (own c) with Some _ => _ | None => _ end).
  assert (good c c1) as H1.
  { unfold c1. repeat case_match; first [apply good_ident_use|reflexivity|apply good_reports; auto with reports]. }
  pose proof (good_temporaries p names args [] c1) as Ht. destruct (argument_temporaries p names args [] c1) as [ts c2].
  etrans; [exact H1|]. etrans; [exact Ht|]. case_match; by apply good_visit_args.
Qed.

Lemma good_method_call receiver method args c :
  visits receiver -> Forall (fun e => visits e) args -> good c (check_method_call p names visit receiver method args c).
Proof.
  intros Hr Ha. unfold check_method_call. cbv zeta.
  set (c1 := match args with [] => _ | _ :: _ => _ end).
  assert (good c c1) as H1 by (unfold c1; repeat case_match; first [reflexivity|apply good_set_rep, extends_error]).
  match goal with |- context [if ?x then c1 else ?y] => set (c2 := if x then c1 else y) end.
  assert (good c1 c2) as H2.
  { unfold c2. case_match; [reflexivity|]. apply good_reports. intros s r. apply (for_each_rel extends). auto with reports. }
  set (c3 := store_borrows p receiver _ true (expr_span receiver) c2).
  assert (good c2 c3) as H3 by apply good_store_borrows.
  match goal with |- context [argument_temporaries p names args ?b c3] =>
    pose proof (good_temporaries p names args b c3) as Ht; destruct (argument_temporaries p names args b c3) as [ts c4] end.
  etrans; [exact H1|]. etrans; [exact H2|]. etrans; [exact H3|]. etrans; [exact Ht|].
  etrans; [apply good_with_temporary_borrows|by apply good_visit_args]. auto.
Qed.

Lemma top_visit_let uses pattern ty value c :
  match value with Some e => visits e | None => True end -> good_top c (visit_let p names visit uses pattern ty value c).
Proof.
  intros Hv. unfold visit_let. cbv zeta. destruct value as [e|]; simpl; [|apply top_define_let].
  set (c1 := visit _ e c). pose proof (extends_block_escape p e (rep c1)) as He. destruct (check_block_borrow_escape p e (rep c1)) as [reported r].
  etrans; [apply good_good_top, Hv|]. fold c1. etrans; [apply good_good_top, good_set_rep, He|]. apply top_define_let.
Qed.
End Visit.

Lemma good_assign_target target value sp bs c : good c (assign_target p names target value sp bs c).
Proof.
  unfold assign_target. destruct target; try reflexivity.
  - etrans; [apply (good_reports (check_assignment_while_borrowed p (EIdent name sp0) sp0)); auto with reports|].
    destruct (get_id _ _); [|reflexivity]. apply good_on_own, framed_alter. intros b. etrans; [apply framed_moved_none|apply framed_borrows].
  - destruct (root_place_name _) as [root|]; [|reflexivity].
    etrans; [apply (good_reports (check_assignment_while_borrowed p root sp)); auto with reports|].
    destruct (place_field_path _); [|reflexivity]. destruct (get_id p root); [|reflexivity]. apply good_on_own, framed_alter. auto with borrow.
Qed.

(** ** The traversal *)

Abbreviation visit := (Borrow.visit p names).
Abbreviation visit_block := (Borrow.visit_block p names).

(** [check_quote_splices] *)
Definition quote_visit (body : QuoteBody) (c : Cx) : Cx :=
  match body with
  | QItem i => template_item p names i (splice_item p names i c)
  | QExpr e => template_expr p names e (splice_expr p names e c)
  end.

Definition splice_visitor : Visit.Visit Cx :=
  mkVisit (fun _ c => c) (splice_item p names) (splice_fn_decl p names) (splice_block p names) (splice_stmt p names) (splice_expr p names)
    (fun _ c => c).
Definition template_visitor : Visit.Visit Cx :=
  mkVisit (fun _ c => c) (template_item p names) (template_fn_decl p names) (template_block p names) (template_stmt p names)
    (template_expr p names) (fun _ c => c).

Lemma visit_eq m e c : visit m e c = visit_node p names visit visit_block quote_visit m e c.
Proof. by destruct e. Qed.
Lemma visit_block_eq m ret b c : visit_block m ret b c = visit_block_node p names visit m ret b c.
Proof. by destruct b. Qed.
Lemma splice_block_eq b c : splice_block p names b c = walk_block splice_visitor b c.
Proof. by destruct b. Qed.
Lemma splice_stmt_eq st c : splice_stmt p names st c = walk_stmt splice_visitor st c.
Proof. by destruct st. Qed.
Lemma splice_fn_eq d c : splice_fn_decl p names d c = walk_fn_decl splice_visitor d c.
Proof. by destruct d. Qed.
Lemma splice_expr_eq e c : splice_expr p names e c = match e with ESplice inner _ => visit Check inner c | _ => walk_expr splice_visitor e c end.
Proof. by destruct e. Qed.
Lemma splice_item_eq i c :
  splice_item p names i c =
  walk_item splice_visitor i (match i with IMethods (mkMethodsBlock _ (TSplice inner _) _ _ _) => visit Check inner c | _ => c end).
Proof. by destruct i. Qed.
Lemma template_block_eq b c : template_block p names b c = walk_block template_visitor b c.
Proof. by destruct b. Qed.
Lemma template_stmt_eq st c :
  template_stmt p names st c =
  walk_stmt template_visitor st (match st with SLet (mkLetStmt _ _ (Some ty) _ _) => template_ty p names ty c | _ => c end).
Proof. by destruct st. Qed.
Lemma template_fn_eq d c :
  template_fn_decl p names d c =
  let 'mkFnDecl _ name_splice _ params return_ty _ _ _ _ _ _ _ _ := d in
  walk_fn_decl template_visitor d
    (if_some (template_ty p names) return_ty
       (for_each (fun q => let 'mkParam _ ty _ := q in template_ty p names ty) params (if_some (visit Check) name_splice c))).
Proof. by destruct d. Qed.
Lemma template_item_eq i c :
  template_item p names i c =
  walk_item template_visitor i (match i with IMethods (mkMethodsBlock _ target _ _ _) => template_ty p names target c | _ => c end).
Proof. by destruct i. Qed.
Lemma template_expr_eq e c :
  template_expr p names e c =
  match e with
  | EQuote _ _ | ESplice _ _ => c
  | EAssociatedCall ty _ _ _ | EStructLiteral ty _ _ | ECast _ ty _ => walk_expr template_visitor e (template_ty p names ty c)
  | ECall _ type_args _ _ => walk_expr template_visitor e (for_each (template_ty p names) type_args c)
  | EClosure params _ _ =>
      walk_expr template_visitor e (for_each (fun q => let 'mkClosureParam _ ty _ := q in if_some (template_ty p names) ty) params c)
  | _ => walk_expr template_visitor e c
  end.
Proof. by destruct e. Qed.
Lemma template_ty_eq t c :
  template_ty p names t c =
  match t with
  | TSplice inner _ => visit Check inner c
  | TGeneric _ args _ | TTuple args _ => for_each (template_ty p names) args c
  | TSlice inner _ | TBorrow _ _ inner _ | TRawPointer _ inner _ => template_ty p names inner c
  | TFn params return_ty _ _ _ => if_some (template_ty p names) return_ty (for_each (template_ty p names) params c)
  | _ => c
  end.
Proof. by destruct t. Qed.

(** The last part: what a spawned call visits *)
Definition expr_good (e : Expr) : Prop :=
  (forall m c, good c (visit m e c)) /\ (forall c, good c (splice_expr p names e c)) /\ (forall c, good c (template_expr p names e c)) /\
  match e with
  | ECall callee _ args _ => (forall m c, good c (visit m callee c)) /\ Forall (fun e => forall m c, good c (visit m e c)) args
  | _ => True
  end.
Definition block_good (b : Block) : Prop :=
  (forall m ret c, good c (visit_block m ret b c)) /\ (forall c, good c (splice_block p names b c)) /\ (forall c, good c (template_block p names b c)).

Definition visit_stmt (uses : gmap LocalId Z) (st : Stmt) (c : Cx) : Cx :=
  match st with
  | SLet (mkLetStmt _ pattern ty value _) => visit_let p names visit uses pattern ty value c
  | SExpr e => visit (if expr_is_copy p names e (own c) then Check else Consume) e c
  | SItem _ => c
  end.

Definition stmt_good (st : Stmt) : Prop :=
  (forall uses c, good_top c (visit_stmt uses st c)) /\ (forall c, good c (splice_stmt p names st c)) /\ (forall c, good c (template_stmt p names st c)).
Definition arm_good (a : MatchArm) : Prop :=
  let 'mkMatchArm _ guard body _ := a in (forall g, guard = Some g -> expr_good g) /\ expr_good body.
Definition ty_good (t : Ty) : Prop :=
  (forall c, good c (template_ty p names t c)) /\ match t with TSplice e _ => expr_good e | _ => True end.
Definition closure_param_good (q : ClosureParam) : Prop := let 'mkClosureParam _ ty _ := q in forall t, ty = Some t -> ty_good t.
Definition select_good (a : SelectArm) : Prop := let 'mkSelectArm op body _ := a in expr_good op /\ block_good body.
Definition fn_good (d : FnDecl) : Prop := (forall c, good c (splice_fn_decl p names d c)) /\ (forall c, good c (template_fn_decl p names d c)).
Definition item_good (i : Item) : Prop := (forall c, good c (splice_item p names i c)) /\ (forall c, good c (template_item p names i c)).
Definition quote_good (q : QuoteBody) : Prop := match q with QItem i => item_good i | QExpr e => expr_good e end.
Definition param_good (q : Param) : Prop := let 'mkParam _ ty _ := q in ty_good ty.
Definition const_good (d : ConstDecl) : Prop := let 'mkConstDecl _ _ v _ _ := d in expr_good v.
Definition struct_good (d : StructDecl) : Prop := let 'mkStructDecl _ _ _ ms cs _ _ _ _ := d in Forall fn_good ms /\ Forall const_good cs.
Definition enum_good (d : EnumDecl) : Prop := let 'mkEnumDecl _ _ _ ms cs _ _ _ := d in Forall fn_good ms /\ Forall const_good cs.
Definition methods_good (d : MethodsBlock) : Prop :=
  let 'mkMethodsBlock _ t ms cs _ := d in ty_good t /\ Forall fn_good ms /\ Forall const_good cs.

(** A goal [good c (f x (g y (.. c)))] is peeled from the outside. *)
Ltac goods :=
  repeat match goal with
  | H : expr_good _ |- _ => destruct H as (?Hv & ?Hs & ?Ht & ?Hc)
  | H : block_good _ |- _ => destruct H as (?Hv & ?Hs & ?Ht)
  | H : stmt_good _ |- _ => destruct H as (?Hv & ?Hs & ?Ht)
  | H : fn_good _ |- _ => destruct H as (?Hs & ?Ht)
  | H : item_good _ |- _ => destruct H as (?Hs & ?Ht)
  | H : ty_good _ |- _ => destruct H as (?Ht & ?Hx)
  end.

Ltac member :=
  eapply Forall_impl; [eassumption|]; cbv beta;
  let x := fresh "x" in let H := fresh "H" in intros x H;
  lazymatch type of x with
  | MatchArm => destruct x | SelectArm => destruct x | Param => destruct x | ConstDecl => destruct x | ClosureParam => destruct x
  | _ => idtac
  end;
  cbv beta iota delta [arm_good select_good param_good const_good closure_param_good] in H;
  repeat match goal with H : _ /\ _ |- _ => destruct H end; goods; intros.

Ltac peel :=
  cbv beta;
  lazymatch goal with
  | |- good ?c ?c => reflexivity
  | |- good ?c (for_each ?f ?l ?c') => transitivity c'; [peel|apply (for_each_rel_in good); member; peel]
  | |- good ?c (if_some ?f ?o ?c') =>
      transitivity c'; [peel|apply (if_some_rel good); destruct o; [|exact I];
        repeat match goal with H : forall a, Some _ = Some a -> _ |- _ => specialize (H _ eq_refl) end; goods; intros; peel]
  | |- good ?c (match ?o with Some _ => _ | None => ?c' end) =>
      destruct o; [repeat match goal with H : forall a, Some _ = Some a -> _ |- _ => specialize (H _ eq_refl) end; goods; peel|peel]
  | |- good ?c (?f ?c') => transitivity c'; [peel|auto]
  end.

Ltac unfolds :=
  first [rewrite visit_eq; cbn [visit_node]|rewrite splice_expr_eq|rewrite template_expr_eq|rewrite splice_block_eq|rewrite template_block_eq
        |rewrite splice_stmt_eq|rewrite template_stmt_eq|rewrite splice_fn_eq|rewrite template_fn_eq|rewrite splice_item_eq
        |rewrite template_item_eq|rewrite template_ty_eq];
  cbn [walk_expr walk_block walk_stmt walk_fn_decl walk_item walk_members splice_visitor template_visitor visit_expr Visit.visit_block
    Visit.visit_stmt visit_item visit_fn_decl visit_literal]; unfold walk_members;
  cbn [splice_visitor template_visitor visit_expr visit_fn_decl].

Ltac simple_case := intros; parts; goods; split_and!; intros; first [exact I|unfolds; peel].

Lemma block_case stmts tail sp :
  Forall stmt_good stmts -> (forall t, tail = Some t -> expr_good t) -> block_good (mkBlock stmts tail sp).
Proof.
  intros Hst Htl. split_and!; intros; [rewrite visit_block_eq|unfolds; peel..].
  apply good_visit_block_with.
  - intros c'. apply top_visit_stmts. eapply Forall_impl; [exact Hst|]. intros st [Hv _] c''. apply (Hv (block_last_uses (p_locals p) (mkBlock stmts tail sp))).
  - destruct tail as [t|]; [|done]. intros c'. apply Htl. done.
Qed.

(** The part that is visited, then the two walks of quoted templates *)
Ltac expr_split := split_and!; [intros m c; rewrite visit_eq; cbn [visit_node]|intros; unfolds; goods; peel|intros; unfolds; goods; peel|try exact I..].

Lemma ident_case name sp : expr_good (EIdent name sp).
Proof. expr_split. destruct m; [apply good_ident_use|]. destruct (get_id _ _); [apply good_consume_local|reflexivity]. Qed.

Lemma if_case a b o sp : expr_good a -> block_good b -> (forall e, o = Some e -> expr_good e) -> expr_good (EIf a b o sp).
Proof.
  intros Ha Hb Ho. expr_split. etrans; [apply (proj1 Ha)|]. apply good_visit_if; [apply (proj1 Hb)|]. intros c'. destruct o as [e|]; [apply (Ho e eq_refl)|reflexivity].
Qed.

Lemma loop_case b sp : block_good b -> expr_good (ELoop b sp).
Proof. intros Hb. expr_split. apply good_loop_body, (proj1 Hb). Qed.

Lemma while_case a b sp : expr_good a -> block_good b -> expr_good (EWhile a b sp).
Proof. intros Ha Hb. expr_split. etrans; [apply (proj1 Ha)|]. apply good_loop_body, (proj1 Hb). Qed.

Lemma match_case a arms sp : expr_good a -> Forall arm_good arms -> expr_good (EMatch a arms sp).
Proof.
  intros Ha Harms. expr_split. cbv zeta. set (c1 := visit _ a c). etrans; [apply (proj1 Ha)|]. fold c1.
  match goal with |- context [in_branches (own c1) ?fs c1] => destruct (in_branches_spec fs (own c1) c1 eq_refl) as (F & G & O) end.
  - apply Forall_map. eapply Forall_impl; [exact Harms|]. intros [pattern guard body sp'] [Hg Hb] c'.
    apply good_visit_arm; [|apply (proj1 Hb)]. intros c''. destruct guard as [g|]; [apply (Hg g eq_refl)|reflexivity].
  - destruct (in_branches _ _ _) as [ss c2]. cbn [fst snd] in *. etrans; [exact G|]. rewrite <- O in *. by apply merge_good.
Qed.

Lemma exprs_visited args : Forall expr_good args -> Forall (fun e => forall m c, good c (visit m e c)) args.
Proof. intros H. eapply Forall_impl; [exact H|]. by intros e []. Qed.

Lemma call_case a tys args sp : expr_good a -> Forall ty_good tys -> Forall expr_good args -> expr_good (ECall a tys args sp).
Proof.
  intros Ha Ht Hargs. split_and!; [intros m c; rewrite visit_eq; cbn [visit_node]|intros; unfolds; goods; peel..|apply (proj1 Ha)|by apply exprs_visited].
  set (c1 := check_call _ _ _ _ _ _).
  assert (good c c1) as H1 by (apply good_check_call; [apply (proj1 Ha)|by apply exprs_visited]).
  repeat case_match; exact H1.
Qed.

Lemma method_case a method args sp : expr_good a -> Forall expr_good args -> expr_good (EMethodCall a method args sp).
Proof. intros Ha Hargs. expr_split. apply good_method_call; [apply (proj1 Ha)|by apply exprs_visited]. Qed.

Lemma associated_case ty f args sp : ty_good ty -> Forall expr_good args -> expr_good (EAssociatedCall ty f args sp).
Proof.
  intros Ht Hargs. expr_split. pose proof (good_temporaries p names args [] c) as Hg. destruct (argument_temporaries p names args [] c) as [ts c1].
  etrans; [exact Hg|]. case_match; by apply good_visit_args, exprs_visited.
Qed.

Lemma binary_case op a b sp : expr_good a -> expr_good b -> expr_good (EBinary op a b sp).
Proof.
  intros Ha Hb. expr_split. cbv zeta. match goal with |- context [match ?o with Some method => _ | None => _ end] => destruct o as [method|] end.
  - apply good_method_call; [apply (proj1 Ha)|]. constructor; [apply (proj1 Hb)|constructor].
  - etrans; [apply (proj1 Ha)|apply (proj1 Hb)].
Qed.

Lemma assign_case a b sp : expr_good a -> expr_good b -> expr_good (EAssign a b sp).
Proof.
  intros Ha Hb. expr_split. cbv zeta. set (c1 := if is_ident a then c else _).
  assert (good c c1) as H1 by (unfold c1; destruct (is_ident a); [reflexivity|apply good_store_borrows]).
  set (c2 := visit Consume b c1). set (c3 := assign_target _ _ _ _ _ _ c2).
  assert (good c c3) as H3 by (etrans; [exact H1|]; etrans; [apply (proj1 Hb)|apply good_assign_target]).
  destruct (is_ident a); [exact H3|]. etrans; [exact H3|apply (proj1 Ha)].
Qed.

Lemma field_case a f sp : expr_good a -> expr_good (EField a f sp).
Proof.
  intros Ha. expr_split. destruct m; [apply (proj1 Ha)|]. case_match; [apply (proj1 Ha)|]. case_match; [apply (proj1 Ha)|].
  etrans; [apply (proj1 Ha)|apply good_set_rep, extends_error].
Qed.

Lemma return_case o sp : (forall e, o = Some e -> expr_good e) -> expr_good (EReturn o sp).
Proof.
  intros Ho. expr_split. etrans; [|apply good_exit]. destruct o as [e|]; [|reflexivity].
  etrans; [apply (good_reports (check_return_borrow_escape p names e)); auto with reports|apply (Ho e eq_refl)].
Qed.

Lemma break_case o sp : (forall e, o = Some e -> expr_good e) -> expr_good (EBreak o sp).
Proof. intros Ho. expr_split. etrans; [|apply good_exit]. destruct o as [e|]; [apply (Ho e eq_refl)|reflexivity]. Qed.

Lemma continue_case sp : expr_good (EContinue sp).
Proof. expr_split. apply good_exit. Qed.

Lemma try_case a sp : expr_good a -> expr_good (ETry a sp).
Proof. intros Ha. expr_split. etrans; [apply (proj1 Ha)|apply good_transfer]. Qed.

Lemma captures_good ids sp c : good c (for_each (fun i => consume_local i sp) ids c).
Proof. apply (for_each_rel good). intros. apply good_consume_local. Qed.

Lemma spawn_case a sp : expr_good a -> expr_good (ESpawn a sp).
Proof.
  intros Ha. expr_split.
  assert (good c (let c := visit Consume a (reports (check_shared_without_sync_capture p a sp) c) in
    for_each (fun i => consume_local i sp) (spawn_captures p a (own c)) c)) as Hother.
  { cbv zeta. etrans; [|apply captures_good]. etrans; [apply (good_reports (check_shared_without_sync_capture p a sp)); auto with reports|apply (proj1 Ha)]. }
  destruct a; try exact Hother. clear Hother. destruct Ha as (_ & _ & _ & Hc & Hargs). cbv zeta.
  match goal with |- context [reports ?f c] => assert (good c (reports f c)) as H1; [|set (c1 := reports f c) in *] end.
  { apply good_reports. intros s r. apply (for_each_rel extends). auto with reports. }
  apply (good_args_after visit); [|done]. etrans; [exact H1|apply Hc].
Qed.

Lemma closure_case params a sp : Forall closure_param_good params -> expr_good a -> expr_good (EClosure params a sp).
Proof. intros Hp Ha. expr_split. apply good_closure. intros. apply (proj1 Ha). Qed.

Lemma quote_case q sp : quote_good q -> expr_good (EQuote q sp).
Proof.
  intros Hq. split_and!; [intros m c; rewrite visit_eq; cbn [visit_node]|intros; unfolds..|done]; destruct q as [i|e]; cbn in Hq; goods; cbn [quote_visit]; peel.
Qed.

Lemma borrow_case mt a sp : expr_good a -> expr_good (EBorrow mt a sp).
Proof.
  intros Ha. expr_split. etrans; [|apply (proj1 Ha)]. apply good_reports. intros s r. apply (for_each_rel extends). auto with reports.
Qed.

Lemma let_case mt pattern ty value sp :
  (forall t, ty = Some t -> ty_good t) -> (forall e, value = Some e -> expr_good e) -> stmt_good (SLet (mkLetStmt mt pattern ty value sp)).
Proof.
  intros Ht Hv. split_and!; [|intros; unfolds; peel|intros; unfolds; destruct ty; peel].
  - intros uses c. apply top_visit_let. destruct value as [e|]; [apply (Hv e eq_refl)|done].
  - apply (proj1 (Ht _ eq_refl)).
Qed.

Lemma stmt_expr_case e : expr_good e -> stmt_good (SExpr e).
Proof. intros He. split_and!; [intros uses c; apply good_good_top, (proj1 He)|intros; unfolds; goods; peel..]. Qed.

Lemma splice_ty_case e sp : expr_good e -> ty_good (TSplice e sp).
Proof. intros He. split; [|done]. intros c. unfolds. apply (proj1 He). Qed.

Ltac members := repeat match goal with H : _ /\ _ |- _ => destruct H end; split; intros; unfolds; goods; peel.

Lemma struct_item_case d : struct_good d -> item_good (IStruct d).
Proof. destruct d. intros [Hm Hc]. members. Qed.
Lemma enum_item_case d : enum_good d -> item_good (IEnum d).
Proof. destruct d. intros [Hm Hc]. members. Qed.
Lemma const_item_case d : const_good d -> item_good (IConst d).
Proof. destruct d. intros Hc. cbn in Hc. members. Qed.
Lemma methods_item_case d : methods_good d -> item_good (IMethods d).
Proof.
  destruct d as [gs t ms cs sp]. intros (Ht & Hm & Hc). split; intros; unfolds; [|goods; peel].
  transitivity (match t with TSplice inner _ => visit Check inner c | _ => c end).
  - destruct Ht as [_ Ht]. destruct t; try reflexivity. apply (proj1 Ht).
  - set (c1 := match t with TSplice inner _ => visit Check inner c | _ => c end). clearbody c1. peel.
Qed.

Lemma traversal_good : (forall e, expr_good e) /\ (forall b, block_good b).
Proof.
  cut ((forall e, expr_good e) /\ (forall b, block_good b) /\ (forall s, stmt_good s) /\ (forall l, stmt_good (SLet l)) /\
    (forall a, arm_good a) /\ (forall c, closure_param_good c) /\ (forall a, select_good a) /\ (forall q, quote_good q) /\
    (forall t, ty_good t) /\ (forall k : GenericParamKind, True) /\ (forall g : GenericParam, True) /\ (forall q, param_good q) /\
    (forall d, fn_good d) /\ (forall d : FnSignature, True) /\ (forall c, const_good c) /\ (forall d : FieldDecl, True) /\
    (forall d : AssocTypeDecl, True) /\ (forall d, struct_good d) /\ (forall v : VariantFields, True) /\ (forall v : EnumVariant, True) /\
    (forall d, enum_good d) /\ (forall d : TraitDecl, True) /\ (forall d, methods_good d) /\ (forall d : ExternBlock, True) /\
    (forall i, item_good i)); [tauto|].
  apply Syntax_ind; try done; try (simple_case; fail); intros; parts;
    auto using block_case, ident_case, if_case, loop_case, while_case, match_case, call_case, method_case, associated_case, binary_case,
      assign_case, field_case, return_case, break_case, continue_case, try_case, spawn_case, closure_case, quote_case, borrow_case, let_case,
      stmt_expr_case, splice_ty_case, struct_item_case, enum_item_case, const_item_case, methods_item_case; simpl; auto.
Qed.

(** Visiting an expression or a block keeps the frame. *)
Lemma visit_good m e c : good c (visit m e c).
Proof. apply traversal_good. Qed.

Lemma visit_block_good m ret b c : good c (visit_block m ret b c).
Proof. apply traversal_good. Qed.
End Frame.

(** C9: Checking an expression, whatever it is, leaves the locals in scope as they
    are: no binding appears, disappears or changes its name, its type or
    whether it is copied, its count of moves never falls, and one whose count
    has not grown has not become moved.  Diagnostics and planned drops are
    never taken back. *)
Theorem checking_keeps_locals p names m e c :
  let c' := visit p names m e c in
  length (scopes (own c')) = length (scopes (own c)) /\ scope_order (own c') = scope_order (own c) /\
  (forall index k, option_Forall2 framed_binding (branch_binding (own c) index k) (branch_binding (own c') index k)) /\
  (exists ds, diagnostics (rep c') = diagnostics (rep c) ++ ds) /\ (exists d, drops c' = d ++ drops c).
Proof.
  intros c'. destruct (visit_good p names m e c) as [[Hr Hd] [Hl Ho]]. apply lift_lookup in Hl as [Hn Hb].
  split_and!; [by symmetry|by symmetry|exact Hb|exact Hr|exact Hd].
Qed.
