(* ===== verification/BorrowPaths.v ===== *)
(** Paths through a function: what ownership means when the code runs.

    [walk] follows one path through the syntax and moves the locals as the
    evaluation does.  A list of choices picks the branches, the rounds of the
    loops and whether [?] returns; a path whose choices are used up is cut
    short.  A path goes wrong when it reads or moves a local whose value has
    been moved, or moves a field out of a reference.  It also keeps what it
    has seen: the state at the end of each block and at each [return], [?],
    [break] and [continue], where the drop plan says what to drop.

    The types and the copying of expressions are those of the checker
    ([BorrowState]), and so is which operands of an expression are read and
    which are moved; what the paths add is the flow of control, which the
    checker only approximates.  A state is an [OwnershipState], of which only
    the scopes and the moves count.  A closure's body is followed once, where
    the closure is made; the template of a quote is not code that runs; the
    value of a function's body is read at its end, and not moved out. *)
From S2P Require Import Prelude Span Diag TypeLayout Types Ast Visit Resolve BorrowTypes BorrowState BorrowEscape Borrow.

Open Scope nat_scope.

Inductive Status := Running | Broke | Continued | Exited | Wrong | Cut.

#[export] Instance Status_eq_dec : EqDecision Status.
Proof. solve_decision. Defined.

Inductive Seen := SeenEnd (b : Block) (s : OwnershipState) | SeenExit (e : Expr) (boundary : nat) (s : OwnershipState).

Record Path := mkPath { state : OwnershipState; status : Status; choices : list nat; seen : list Seen }.

Definition start_path (s : OwnershipState) (choices : list nat) : Path := mkPath s Running choices [].

Definition on_state (f : OwnershipState -> OwnershipState) (q : Path) : Path := mkPath (f (state q)) (status q) (choices q) (seen q).
Definition set_status (st : Status) (q : Path) : Path := mkPath (state q) st (choices q) (seen q).
Definition see (o : Seen) (q : Path) : Path := mkPath (state q) (status q) (choices q) (o :: seen q).

(** A path that has left goes no further. *)
Definition live (f : Path -> Path) (q : Path) : Path := match status q with Running => f q | _ => q end.

(** The next choice decides. *)
Definition choose (f : nat -> Path -> Path) (q : Path) : Path :=
  live
    (fun q =>
       match choices q with
       | [] => set_status Cut q
       | k :: ks => f k (mkPath (state q) (status q) ks (seen q))
       end) q.

(** Rounds of a loop: the condition, then a choice, of which [0] leaves when
    the loop has a condition.  Each round takes a choice, so the number of
    choices bounds the rounds. *)
Fixpoint rounds (fuel : nat) (leaves : bool) (condition body : Path -> Path) (q : Path) : Path :=
  match fuel with
  | O => set_status Cut q
  | S fuel =>
      choose
        (fun k q =>
           if leaves && (k =? 0) then q
           else
             let q := body q in
             match status q with
             | Running | Continued => rounds fuel leaves condition body (set_status Running q)
             | Broke => set_status Running q
             | Exited | Wrong | Cut => q
             end) (condition q)
  end.

(** Leaving a scope, also by [break] and [continue] *)
Definition leave_scope (q : Path) : Path :=
  match status q with Running | Broke | Continued => on_state pop_scope q | _ => q end.

(** [break] and [continue] in the body leave the scopes inside the loop. *)
Definition in_loop (body : Path -> Path) (q : Path) : Path :=
  on_state (fun s => with_boundaries (pop (loop_boundaries s)) s)
    (body (on_state (fun s => with_boundaries (loop_boundaries s ++ [length (scopes s)]) s) q)).

Section Walk.
Context (p : Program) (copy_names : gset string).

Abbreviation expr_ty := (BorrowState.expr_ty p copy_names).
Abbreviation expr_is_copy := (BorrowState.expr_is_copy p copy_names).
Abbreviation typed_copy := (BorrowState.typed_copy p copy_names).
Abbreviation get := (BorrowState.get p).
Abbreviation copy_ty := (BorrowState.copy_ty copy_names).

Definition use (b : BindingState) (q : Path) : Path := if is_moved b then set_status Wrong q else q.

Definition use_ident (e : Expr) (q : Path) : Path :=
  live (fun q => match get e (state q) with Some b => use b q | None => q end) q.

Definition take (i : LocalId) (sp : Span) (q : Path) : Path :=
  live
    (fun q =>
       match binding_by_id i (state q) with
       | Some b => if is_moved b then set_status Wrong q else on_state (alter_binding (move_out sp) i) q
       | None => q
       end) q.

(** Control leaves at [e], through every scope from [boundary] on. *)
Definition leave_at (e : Expr) (boundary : OwnershipState -> nat) (st : Status) (q : Path) : Path :=
  live (fun q => set_status st (see (SeenExit e (boundary (state q)) (state q)) q)) q.

Definition walk_args (walk : Mode -> Expr -> Path -> Path) (mode : nat -> Expr -> Mode) (args : list Expr) (q : Path) : Path :=
  for_indexed (fun index arg => walk (mode index arg) arg) 0 args q.

Definition walk_call (walk : Mode -> Expr -> Path -> Path) (callee : Expr) (args : list Expr) (q : Path) : Path :=
  match callee with
  | EIdent name _ =>
      let mode := fun index _ =>
        if bool_decide (name = "print"%string) || bool_decide (name ∈ test_asserts p) then Check
        else param_mode copy_names (s_params <$> functions p !! name) index in
      let q := walk_args walk mode args (use_ident callee q) in
      if bool_decide (name = "panic"%string) && bool_decide (functions p !! name = None) then live (set_status Exited) q else q
  | _ => walk_args walk (fun _ _ => Consume) args (walk Check callee q)
  end.

Definition receiver_mode (receiver : Expr) (method : string) (args : list Expr) (s : OwnershipState) : Mode :=
  let receiver_ty := expr_ty receiver s in
  let receiver_is_copy := match typed_copy receiver with Some b => b | None => copy_ty receiver_ty end in
  let slice_len :=
    bool_decide (method = "len"%string) && bool_decide (length args = 0) &&
    match strip_borrow <$> receiver_ty with Some (TSlice _ _) => true | _ => false end in
  let receiver_param := signature ← method_signature p receiver_ty method; head (s_params signature) in
  if receiver_is_copy || (slice_len || match receiver_param with Some ty => is_borrow_ty ty | None => false end) then Check else Consume.

Definition argument_mode (signature : option FunctionSignature) (index : nat) (arg : Expr) : Mode :=
  match typed_copy arg with Some true => Check | _ => param_mode copy_names (s_params <$> signature) (S index) end.

Definition walk_method_call (walk : Mode -> Expr -> Path -> Path) (receiver : Expr) (method : string) (args : list Expr) (q : Path) : Path :=
  let s := state q in
  walk_args walk (argument_mode (method_signature p (expr_ty receiver s) method)) args (walk (receiver_mode receiver method args s) receiver q).

(** The arms in order: a choice of [0] means that the pattern or the guard
    did not match. *)
Fixpoint walk_arms (walk : Mode -> Expr -> Path -> Path) (m : Mode) (arms : list MatchArm) (cp : bool) (ty : option Ty) (q : Path) : Path :=
  match arms with
  | [] => live (set_status Cut) q
  | mkMatchArm pattern guard body _ :: arms =>
      let q := live (on_state (fun s => bind_pattern p copy_names pattern cp ty (push_scope s))) q in
      let q := match guard with Some g => walk Check g q | None => q end in
      choose
        (fun k q =>
           if k =? 0 then walk_arms walk m arms cp ty (leave_scope q) else leave_scope (walk m body q)) q
  end.

Definition let_is_copy (ty : option Ty) (value : option Expr) (s : OwnershipState) : bool :=
  match (match ty with None => match value with Some value => typed_copy value | None => None end | Some _ => None end) with
  | Some b => b
  | None => let_copy p copy_names expr_ty (let_ty expr_ty ty value s) value s
  end.

Definition walk_stmt (walk : Mode -> Expr -> Path -> Path) (st : Stmt) (q : Path) : Path :=
  let s := state q in
  match st with
  | SLet (mkLetStmt _ pattern ty value _) =>
      let cp := let_is_copy ty value s in
      let q := match value with Some e => walk (if cp then Check else Consume) e q | None => q end in
      live (on_state (bind_pattern p copy_names pattern cp (let_ty expr_ty ty value s))) q
  | SExpr e => walk (if expr_is_copy e s then Check else Consume) e q
  | SItem _ => q
  end.

(** The body of a closure, from the state in which it is made; what it does to
    the state stays inside. *)
Definition walk_closure (body : Path -> Path) (params : list ClosureParam) (q : Path) : Path :=
  live
    (fun q =>
       let enter := fun s =>
         for_each
           (fun param =>
              let 'mkClosureParam pattern ty _ := param in
              bind_pattern p copy_names pattern (match ty with Some ty => ty_is_copy ty copy_names | None => true end) ty)
           params (push_scope s) in
       let q' := body (on_state enter q) in
       mkPath (state q) (match status q' with Wrong => Wrong | Cut => Cut | _ => Running end) (choices q') (seen q')) q.

(** What a spawned expression refers to moves into the task. *)
Definition capture (i : LocalId) (sp : Span) (q : Path) : Path := live (on_state (alter_binding (move_out sp) i)) q.

(** An arm of [select]: [name = operation] binds the value in the body. *)
Definition walk_select_arm (walk : Mode -> Expr -> Path -> Path) (walk_block : Mode -> Block -> Path -> Path) (arm : SelectArm) (q : Path) : Path :=
  let 'mkSelectArm operation body _ := arm in
  match operation with
  | EAssign (EIdent name sp) value _ =>
      let ty := expr_ty value (state q) in
      let q := walk Consume value q in
      let q := live (on_state (fun s => define p (PIdent name sp) (copy_ty ty) ty (push_scope s))) q in
      leave_scope (walk_block Check body q)
  | _ => walk_block Check body (walk Check operation q)
  end.

Definition is_logical (op : BinaryOp) : bool := match op with And | Or => true | _ => false end.

Definition walk_node (walk : Mode -> Expr -> Path -> Path) (walk_block : Mode -> Block -> Path -> Path) (m : Mode) (e : Expr) (q : Path) : Path :=
  let s := state q in
  match e with
  | ELiteral _ _ => q
  | EIdent _ sp =>
      match m with
      | Check => use_ident e q
      | Consume => match get_id p e with Some i => take i sp q | None => q end
      end
  | EBlock b => walk_block m b q
  | EUnsafe b _ => walk_block m b q
  | EIf condition then_branch else_branch _ =>
      choose
        (fun k q =>
           if k =? 0 then match else_branch with Some branch => walk m branch q | None => q end else walk_block m then_branch q)
        (walk Check condition q)
  | ELoop body _ => rounds (S (length (choices q))) false (fun q => q) (in_loop (walk_block Check body)) q
  | EWhile condition body _ => rounds (S (length (choices q))) true (walk Check condition) (in_loop (walk_block Check body)) q
  | EMatch scrutinee arms _ =>
      let cp := expr_is_copy scrutinee s in
      let q := walk (if cp then Check else Consume) scrutinee q in
      walk_arms walk m arms cp (expr_ty scrutinee (state q)) q
  | ECall callee _ args _ => walk_call walk callee args q
  | EMethodCall receiver method args _ => walk_method_call walk receiver method args q
  | EAssociatedCall ty function args _ =>
      let asserts := match type_name ty with Some name => bool_decide (qualified name function ∈ test_asserts p) | None => false end in
      walk_args walk (fun index _ => if asserts then Check else param_mode copy_names (associated_function_params p ty function) index) args q
  | EBinary op lhs rhs _ =>
      let method :=
        method ← match operator_method op with Some method => Some method | None => ordering_method op end;
        signature ← method_signature p (expr_ty lhs s) method; Some method in
      match method with
      | Some method => walk_method_call walk lhs method [rhs] q
      | None =>
          let q := walk Check lhs q in
          if is_logical op then choose (fun k q => if k =? 0 then q else walk Check rhs q) q else walk Check rhs q
      end
  | EUnary _ inner _ | ECast inner _ _ | EComptime inner _ | ESplice inner _ | EBorrow _ inner _ => walk Check inner q
  | EAssign target value _ =>
      let q := walk Consume value q in
      if is_ident target
      then match get_id p target with Some i => live (on_state (alter_binding (with_moved None) i)) q | None => q end
      else walk Check target q
  | EField base _ _ =>
      match m with
      | Check => walk Check base q
      | Consume =>
          if copy_ty (expr_ty e s) then walk Check base q
          else if is_ident base &&
                  negb (match expr_ty base s with Some (TBorrow _ _ _ _) | Some (TRawPointer _ _ _) => true | _ => false end)
          then walk Consume base q
          else live (set_status Wrong) (walk Check base q)
      end
  | EIndex base index _ => for_each (walk Check) index (walk Check base q)
  | EReturn value _ => leave_at e (fun _ => 0) Exited (match value with Some v => walk Consume v q | None => q end)
  | EBreak value _ => leave_at e innermost_loop Broke (match value with Some v => walk Consume v q | None => q end)
  | EContinue _ => leave_at e innermost_loop Continued q
  | ESpawn inner sp =>
      match inner with
      | ECall callee _ args _ =>
          let q := walk (if is_ident callee && bool_decide (id <$> get callee s <> None) then Consume else Check) callee q in
          let params := match callee with EIdent name _ => s_params <$> functions p !! name | _ => None end in
          walk_args walk (fun index _ => param_mode copy_names params index) args q
      | _ =>
          for_each (fun u => capture u.1 sp) (map_to_list (collect_expr_uses (p_locals p) inner ∅)) (walk Consume inner q)
      end
  | EClosure params body sp =>
      for_each (fun i => take i sp) (closure_captures p body s) (walk_closure (walk Check body) params q)
  | EQuote _ _ => live (set_status Cut) q
  | ESelect arms default_ _ =>
      choose
        (fun k q =>
           match k with
           | O => match default_ with Some b => walk_block Check b q | None => set_status Cut q end
           | S k =>
               (fix nth (arms : list SelectArm) (k : nat) : Path :=
                  match arms with
                  | [] => set_status Cut q
                  | arm :: arms => match k with O => walk_select_arm walk walk_block arm q | S k => nth arms k end
                  end) arms k
           end) q
  | EYield inner _ => walk Consume inner q
  | ETry inner _ => choose (fun k q => if k =? 0 then leave_at e (fun _ => 0) Exited q else q) (walk Consume inner q)
  | EStructLiteral _ fs _ => for_each (fun f => walk Consume f.2) fs q
  | ETuple items _ => for_each (walk Consume) items q
  end.

Definition walk_block_node (walk : Mode -> Expr -> Path -> Path) (m : Mode) (b : Block) (q : Path) : Path :=
  let 'mkBlock stmts tail _ := b in
  let q := live (on_state push_scope) q in
  let q := for_each (walk_stmt walk) stmts q in
  let q := match tail with Some tail => walk m tail q | None => q end in
  leave_scope (live (fun q => see (SeenEnd b (state q)) q) q).

Fixpoint walk (m : Mode) (e : Expr) (q : Path) {struct e} : Path := live (walk_node walk walk_block m e) q
with walk_block (m : Mode) (b : Block) (q : Path) {struct b} : Path := live (walk_block_node walk m b) q.

Lemma walk_eq m e q : walk m e q = live (walk_node walk walk_block m e) q.
Proof. by destruct e. Qed.

Lemma walk_block_eq m b q : walk_block m b q = live (walk_block_node walk m b) q.
Proof. by destruct b. Qed.
End Walk.
