(* ===== verification/BorrowSound.v ===== *)
(** Accepted functions do not go wrong.

    [covered] is the part of the language in which the checker is sound:
    loops without [break] and [continue] (but for the one that [for] over a
    range is rewritten to), conditions of loops and guards that only read, no
    [select], no quotes, no spawned blocks.  On it, every path of an accepted
    function keeps to the checker's state ([follows]): what the path has moved,
    the checker knows to be moved.  Without loops the two agree, and what the
    path owns at the end of a block is what the checker recorded there.
    [BorrowExamples] has programs for what is left out. *)
From S2P Require Import Prelude Span Diag TypeLayout Types Ast Visit Resolve BorrowTypes BorrowState BorrowEscape Borrow BorrowFrame BorrowPaths.

Open Scope nat_scope.

(** ** Decisions depend on the locals and their types only *)

Definition same_binding (b b' : BindingState) : Prop := erase b = erase b'.
Abbreviation same_env := (lift same_binding).

#[export] Instance same_binding_equiv : Equivalence same_binding.
Proof. split; repeat intro; unfold same_binding in *; congruence. Qed.

Section Env.
Context (p : Program) (names : gset string).

Lemma env_binding i s s' : same_env s s' -> erase <$> binding_by_id i s = erase <$> binding_by_id i s'.
Proof. intros H. apply (lift_binding_by_id _ i) in H. destruct H as [b b' E|]; simpl; [by rewrite E|done]. Qed.

Lemma env_get e s s' : same_env s s' -> erase <$> get p e s = erase <$> get p e s'.
Proof. intros H. unfold get. destruct (get_id p e); simpl; [by apply env_binding|done]. Qed.

Lemma Forall2_alter_last {A} (R : A -> A -> Prop) f g l l' :
  (forall x y, R x y -> R (f x) (g y)) -> Forall2 R l l' -> Forall2 R (alter_last f l) (alter_last g l').
Proof. intros Hf H. unfold alter_last. rewrite (Forall2_length _ _ _ H). apply Forall2_alter; [done|]. auto. Qed.

(** Defining the same local in related states *)
Lemma lift_define (Q : BindingState -> BindingState -> Prop) pattern cp ty bs bs' s s' :
  (forall i n, Q (mkBinding i n cp ty None 0 bs) (mkBinding i n cp ty None 0 bs')) ->
  lift Q s s' -> lift Q (define_with_borrows p pattern cp ty bs s) (define_with_borrows p pattern cp ty bs' s').
Proof.
  intros Hb H. unfold define_with_borrows. destruct (Locals_pat _ _) as [i|]; [|done].
  assert (scopes s = [] <-> scopes s' = []) as Hn by (destruct H; split; done).
  destruct pattern; try done; (destruct (scopes s) eqn:E; destruct (scopes s') eqn:E';
    [done|by pose proof (proj1 Hn eq_refl)|by pose proof (proj2 Hn eq_refl)|]); rewrite <- E, <- E';
    (apply Forall2_alter_last; [intros m m' Hm; by apply scope_rel_insert|exact H]).
Qed.

Lemma order_define pattern cp ty bs bs' s s' : length (scopes s) = length (scopes s') -> scope_order s = scope_order s' ->
  scope_order (define_with_borrows p pattern cp ty bs s) = scope_order (define_with_borrows p pattern cp ty bs' s').
Proof.
  intros L E. unfold define_with_borrows. destruct (Locals_pat _ _) as [i|]; [|done].
  destruct pattern; try done; (destruct (scopes s), (scopes s'); try done; simpl; by rewrite E).
Qed.

(** A relation between states that definitions keep *)
Class Scoped (R : OwnershipState -> OwnershipState -> Prop) : Prop := {
  scoped_define : forall pattern cp ty s s', R s s' -> R (define p pattern cp ty s) (define p pattern cp ty s');
  scoped_push : forall s s', R s s' -> R (push_scope s) (push_scope s') }.

Lemma for_indexed_rel2 {A S} (R : S -> S -> Prop) (f g : nat -> A -> S -> S) l index s s' :
  Forall (fun x => forall i s s', R s s' -> R (f i x s) (g i x s')) l -> R s s' -> R (for_indexed f index l s) (for_indexed g index l s').
Proof. intros H. revert index s s'. induction H as [|x l Hx H IH]; intros index s s' Hs; simpl; [done|]. by apply IH, Hx. Qed.

Lemma for_each_rel2 {A S T} (R : S -> T -> Prop) (f : A -> S -> S) (g : A -> T -> T) l s s' :
  Forall (fun x => forall s s', R s s' -> R (f x s) (g x s')) l -> R s s' -> R (for_each f l s) (for_each g l s').
Proof. intros H. unfold for_each. revert s s'. induction H as [|x l Hx H IH]; intros s s' Hs; simpl; [done|]. by apply IH, Hx. Qed.

Lemma scoped_bind R `{!Scoped R} pattern : forall cp ty s s', R s s' -> R (bind_pattern p names pattern cp ty s) (bind_pattern p names pattern cp ty s').
Proof.
  induction pattern using Pat_ind; parts; intros cp ty s s' Hs; cbn [bind_pattern]; try (by apply scoped_define); auto.
  - apply (for_indexed_rel2 R); [|done]. eapply Forall_impl; [exact H|]. auto.
  - apply (for_each_rel2 R); [|done]. eapply Forall_impl; [exact H|]. auto.
  - apply (for_indexed_rel2 R); [|done]. eapply Forall_impl; [exact H|]. auto.
  - apply (for_each_rel2 R); [|done]. eapply Forall_impl; [exact H|]. auto.
  - apply IHpattern. by apply scoped_define.
Qed.

#[local] Instance same_env_scoped : Scoped same_env.
Proof. split; [|intros; by apply lift_push]. intros. by apply lift_define. Qed.

Definition ty_env (e : Expr) : Prop := forall s s', same_env s s' -> expr_ty p names e s = expr_ty p names e s'.
Definition block_env (b : Block) : Prop := forall s s', same_env s s' -> block_ty p names b s = block_ty p names b s'.
(** Also the parts of a call, which decide whether its value is copied *)
Definition expr_env (e : Expr) : Prop :=
  ty_env e /\ match e with EMethodCall receiver _ _ _ => ty_env receiver | _ => True end.

Lemma env_map args s s' : Forall expr_env args -> same_env s s' ->
  map (fun a => expr_ty p names a s) args = map (fun a => expr_ty p names a s') args.
Proof. intros H Hs. apply map_ext_Forall. eapply Forall_impl; [exact H|]. intros a [Ha _]. by apply Ha. Qed.

Lemma env_copy_with e s s' : expr_env e -> same_env s s' ->
  expr_is_copy_with p names (expr_ty p names) e s = expr_is_copy_with p names (expr_ty p names) e s'.
Proof.
  intros [He Hr] Hs. unfold expr_is_copy_with. destruct (typed_copy p names e); [done|].
  pose proof (He s s' Hs) as E. destruct e; try done; try (by rewrite E).
  - pose proof (env_get (EIdent name sp) s s' Hs) as Eg. destruct (get p _ s), (get p _ s'); simplify_eq/=; congruence.
  - by rewrite E, (Hr s s' Hs).
Qed.

Definition stmt_env (st : Stmt) : Prop :=
  match st with SLet (mkLetStmt _ _ _ value _) => forall e, value = Some e -> expr_env e | _ => True end.

Lemma env_let ty value s s' : (forall e, value = Some e -> expr_env e) -> same_env s s' ->
  let_ty (expr_ty p names) ty value s = let_ty (expr_ty p names) ty value s' /\
  forall bt, let_copy p names (expr_ty p names) bt value s = let_copy p names (expr_ty p names) bt value s'.
Proof.
  intros Hv Hs. unfold let_ty, let_copy. split.
  - destruct ty; [done|]. destruct value as [e|]; [|done]. by apply (proj1 (Hv e eq_refl)).
  - intros []; [done|]. destruct value as [e|]; [|done]. by apply env_copy_with; [apply Hv|].
Qed.
Lemma block_env_case stmts tail sp :
  Forall stmt_env stmts -> (forall e, tail = Some e -> expr_env e) -> block_env (mkBlock stmts tail sp).
Proof.
  intros Hst Ht s s' Hs. change (block_ty p names (mkBlock stmts tail sp) ?s) with (block_ty_node p names (expr_ty p names) (mkBlock stmts tail sp) s).
  unfold block_ty_node. destruct tail as [e|]; [|done]. apply (proj1 (Ht e eq_refl)). apply (for_each_rel2 same_env); [|by apply lift_push].
  eapply Forall_impl; [exact Hst|]. intros [[mt pattern ty value sp']|e'|i] H s1 s1' Hs1; try exact Hs1.
  destruct (env_let ty value s1 s1' H Hs1) as [-> ->]. by apply scoped_bind; [apply _|].
Qed.

Lemma expr_ty_eq e s : expr_ty p names e s = expr_ty_node p names (expr_ty p names) (block_ty p names) e s.
Proof. by destruct e. Qed.

Ltac env_case := intros; parts; split; [|done]; intros s s' Hs; rewrite !expr_ty_eq; cbn [expr_ty_node];
  repeat match goal with
  | H : expr_env ?e |- _ => destruct H as [H _]
  | H : ty_env ?e |- context [expr_ty p names ?e s] => rewrite (H s s' Hs)
  | H : Forall expr_env ?l |- context [map (fun a => expr_ty p names a s) ?l] => rewrite (env_map l s s' H Hs)
  end; try done.

Lemma types_env : (forall e, expr_env e) /\ (forall b, block_env b).
Proof.
  cut ((forall e, expr_env e) /\ (forall b, block_env b) /\ (forall s, stmt_env s) /\ (forall l, stmt_env (SLet l)) /\
    (forall a : MatchArm, expr_env (arm_body a)) /\ (forall c : ClosureParam, True) /\ (forall a : SelectArm, True) /\ (forall q : QuoteBody, True) /\
    (forall t : Ty, True) /\ (forall k : GenericParamKind, True) /\ (forall g : GenericParam, True) /\ (forall q : Param, True) /\
    (forall d : FnDecl, True) /\ (forall d : FnSignature, True) /\ (forall c : ConstDecl, True) /\ (forall d : FieldDecl, True) /\
    (forall d : AssocTypeDecl, True) /\ (forall d : StructDecl, True) /\ (forall v : VariantFields, True) /\ (forall v : EnumVariant, True) /\
    (forall d : EnumDecl, True) /\ (forall d : TraitDecl, True) /\ (forall d : MethodsBlock, True) /\ (forall d : ExternBlock, True) /\
    (forall i : Item, True)); [tauto|].
  apply Syntax_ind; try done; try (env_case; fail); intros; parts; auto using block_env_case.
  - split; [|done]. intros s s' Hs. rewrite !expr_ty_eq. cbn [expr_ty_node].
    pose proof (env_get (EIdent name sp) s s' Hs) as E. destruct (get p _ s), (get p _ s'); simplify_eq/=; congruence.
  - env_case. match goal with H : block_env _ |- _ => rewrite (H s s' Hs) end. destruct else_branch as [e|]; [|done].
    match goal with H : forall a, _ -> expr_env a |- _ => by rewrite (proj1 (H e eq_refl) s s' Hs) end.
  - env_case. match goal with H : Forall _ arms |- _ => rename H into Ha end.
    match goal with |- match ?a with _ => _ end = match ?b with _ => _ end => assert (a = b) as -> end; [|done].
    apply map_ext_Forall. eapply Forall_impl; [exact Ha|]. intros [pattern guard body sp'] [Hb _]. cbn [arm_body] in Hb. apply Hb.
    apply scoped_bind; [apply _|]. by apply lift_push.
  - match goal with Hr : expr_env receiver, Ha : Forall expr_env args |- _ => split; [|apply (proj1 Hr)]; intros s s' Hs;
      rewrite !expr_ty_eq; cbn [expr_ty_node]; by rewrite (proj1 Hr s s' Hs), (env_map args s s' Ha Hs) end.
Qed.

Lemma env_ty e s s' : same_env s s' -> expr_ty p names e s = expr_ty p names e s'.
Proof. apply types_env. Qed.

Lemma env_copy e s s' : same_env s s' -> expr_is_copy p names e s = expr_is_copy p names e s'.
Proof. intros H. apply env_copy_with; [|done]. apply types_env. Qed.

Lemma env_let_ty ty value s s' : same_env s s' -> let_ty (expr_ty p names) ty value s = let_ty (expr_ty p names) ty value s'.
Proof. intros H. exact (proj1 (env_let ty value s s' (fun e _ => proj1 types_env e) H)). Qed.

Lemma env_let_copy ty value s s' : same_env s s' -> let_is_copy p names ty value s = let_is_copy p names ty value s'.
Proof.
  intros H. unfold let_is_copy. destruct (match ty with Some _ => _ | None => _ end); [done|]. rewrite (env_let_ty ty value s s' H).
  exact (proj2 (env_let ty value s s' (fun e _ => proj1 types_env e) H) _).
Qed.

(** The captures of a closure *)
Lemma stable_sort_map {A B} (f : A -> B) (le : A -> A -> bool) (le' : B -> B -> bool) l :
  (forall a b, le a b = le' (f a) (f b)) -> map f (stable_sort le l) = stable_sort le' (map f l).
Proof.
  intros H. unfold stable_sort. induction l as [|x l IH]; simpl; [done|]. rewrite <- IH. generalize (foldr (insert_sorted le) [] l) as m.
  intros m. induction m as [|y m IHm]; simpl; [done|]. rewrite H. destruct (le' (f x) (f y)); simpl; [done|]. by rewrite IHm.
Qed.

Lemma map_omap {A B C} (f : A -> option B) (g : B -> C) l : map g (omap f l) = omap (fun a => g <$> f a) l.
Proof. induction l as [|a l IH]; simpl; [done|]. destruct (f a); simpl; [f_equal|]; apply IH. Qed.

Lemma env_captures e s s' : same_env s s' -> closure_captures p e s = closure_captures p e s'.
Proof.
  intros H. unfold closure_captures, used_bindings.
  assert (forall l, map id l = map (fun t : LocalId * string * bool * option Ty => t.1.1.1) (map erase l)) as E by (intros l; by rewrite map_map).
  rewrite !E, !(stable_sort_map erase _ (fun l r => String.leb l.1.1.2 r.1.1.2)) by done. rewrite !map_omap. do 2 f_equal.
  induction (map_to_list _) as [|u l IH]; simpl; [done|]. rewrite (env_binding u.1 s s' H).
  destruct (erase <$> binding_by_id u.1 s'); simpl; [f_equal|]; apply IH.
Qed.

Lemma env_receiver_mode e method args s s' : same_env s s' -> receiver_mode p names e method args s = receiver_mode p names e method args s'.
Proof. intros H. unfold receiver_mode. by rewrite (env_ty e s s' H). Qed.
End Env.

(** ** The part of the language that is covered *)

Section Covered.
Context (p : Program) (loops : bool).

(** No type of the program overloads the operator. *)
Definition plain_operator (op : BinaryOp) : bool :=
  match (match operator_method op with Some method => Some method | None => ordering_method op end) with
  | Some method =>
      forallb (fun e => negb (bool_decide (e.1.2 = method))) (map_to_list (methods p)) && bool_decide (intrinsics p !! method = None)
  | None => true
  end.

(** Expressions that only read locals *)
Fixpoint simple (e : Expr) : bool :=
  match e with
  | ELiteral _ _ | EIdent _ _ => true
  | EField base _ _ => simple base
  | EUnary _ inner _ => simple inner
  | EBinary op lhs rhs _ => plain_operator op && simple lhs && simple rhs
  | _ => false
  end.

(** Expressions that are visited alike whether their value is moved or read *)
Definition mode_free (e : Expr) : bool :=
  match e with EIdent _ _ | EField _ _ _ | EBlock _ | EUnsafe _ _ | EIf _ _ _ _ | EMatch _ _ _ => false | _ => true end.

Definition unmoved_tail (b : Block) : bool := let 'mkBlock _ tail _ := b in match tail with Some e => mode_free e | None => true end.

Definition all_of {A} (f : A -> bool) : list A -> bool := fix go l := match l with [] => true | x :: l => f x && go l end.
Definition if_any {A} (f : A -> bool) (o : option A) : bool := match o with Some x => f x | None => true end.

Fixpoint covered (e : Expr) : bool :=
  match e with
  | ELiteral _ _ | EIdent _ _ => true
  | EBlock b => covered_block b
  | EUnsafe b _ => covered_block b && unmoved_tail b
  | EIf a b o _ => covered a && covered_block b && if_any covered o
  | ELoop b _ =>
      loops &&
      match b with
      | mkBlock [SExpr (EIf a b (Some (EBreak None _)) _)] None _ => simple a && covered_block b
      | _ => covered_block b
      end
  | EWhile a b _ => loops && simple a && covered_block b
  | EMatch a arms _ =>
      covered a && all_of (fun arm => let 'mkMatchArm _ guard body _ := arm in if_any simple guard && covered body) arms
  | ECall a _ args _ | EMethodCall a _ args _ | EIndex a args _ => covered a && all_of covered args
  | EAssociatedCall _ _ args _ | ETuple args _ => all_of covered args
  | EBinary op a b _ => covered a && (if is_logical op then simple b else covered b)
  | EAssign a b _ => covered a && covered b
  | EUnary _ a _ | EField a _ _ | ETry a _ | ECast a _ _ | EClosure _ a _ | EComptime a _ | ESplice a _ | EYield a _ | EBorrow _ a _ => covered a
  | EReturn o _ => if_any covered o
  | ESpawn a _ => match a with ECall b _ args _ => covered b && all_of covered args | _ => false end
  | EStructLiteral _ fs _ => all_of (fun f => covered f.2) fs
  | EBreak _ _ | EContinue _ | ESelect _ _ _ | EQuote _ _ => false
  end
with covered_block (b : Block) : bool :=
  let 'mkBlock stmts tail _ := b in all_of covered_stmt stmts && if_any covered tail
with covered_stmt (st : Stmt) : bool :=
  match st with
  | SLet (mkLetStmt _ _ _ value _) => if_any covered value
  | SExpr e => covered e
  | SItem _ => true
  end.

Lemma all_of_Forall {A} (f : A -> bool) l : all_of f l = true -> Forall (fun x => f x = true) l.
Proof. induction l as [|x l IH]; simpl; [constructor|]. intros [H1 H2]%andb_true_iff. constructor; auto. Qed.
End Covered.

(** ** A path and the checker *)

(** The locals were recorded as those to drop at the point, if there are any. *)
Definition in_plan (d : list (ExitPoint * list LocalId)) (point : ExitPoint) (ids : list LocalId) : Prop := ids = [] \/ (point, ids) ∈ d.

(** At each point a path has seen, what the path owns was recorded. *)
Definition planned (d : list (ExitPoint * list LocalId)) (o : Seen) : Prop :=
  match o with
  | SeenEnd b s =>
      in_plan d (BlockEnd b) (droppable_locals_from_scope (default ∅ (last (scopes s))) (default [] (last (scope_order s))))
  | SeenExit e boundary s => in_plan d (Control e) (droppable_locals_up_to s boundary)
  end.

(** [exact]: the path has moved what the checker says, no less *)
Definition related_binding (exact : bool) (b b' : BindingState) : Prop :=
  erase b = erase b' /\ (is_moved b' = true -> is_moved b = true) /\ (exact = true -> is_moved b = true -> is_moved b' = true).

Definition related (exact : bool) (s s' : OwnershipState) : Prop := lift (related_binding exact) s s' /\ scope_order s = scope_order s'.

Record follows (exact : bool) (c : Cx) (q : Path) : Prop := mkFollows {
  fl_status : match status q with Wrong | Broke | Continued => False | _ => True end;
  fl_seen : exact = true -> Forall (planned (drops c)) (seen q);
  fl_state : status q = Running -> reachable (own c) = true /\ related exact (own c) (state q) }.

Section Follow.
Context (exact : bool).

Lemma related_env s s' : related exact s s' -> same_env s s'.
Proof. intros [H _]. eapply lift_impl; [|exact H]. by intros b b' []. Qed.

Lemma planned_grows c c' o : grows c c' -> planned (drops c) o -> planned (drops c') o.
Proof.
  intros [_ [l E]]. unfold planned, in_plan. rewrite E. destruct o; (intros [H|H]; [by left|right; apply elem_of_app; by right]).
Qed.

Lemma follows_left c c' q : grows c c' -> status q <> Running -> follows exact c q -> follows exact c' q.
Proof.
  intros G Hn [H1 H2 H3]. split; [done| |done]. intros E. eapply Forall_impl; [by apply H2|]. intros o. by apply planned_grows.
Qed.

(** Steps of the checker that move nothing *)
Definition silent (c c' : Cx) : Prop :=
  grows c c' /\ lift same_moves (own c) (own c') /\ scope_order (own c) = scope_order (own c') /\ reachable (own c) = reachable (own c').

#[export] Instance same_moves_equiv : Equivalence same_moves.
Proof. split; repeat intro; unfold same_moves in *; intuition congruence. Qed.

#[export] Instance silent_preorder : PreOrder silent.
Proof.
  split.
  - intros c. split_and!; reflexivity.
  - intros a b c (G1 & L1 & O1 & R1) (G2 & L2 & O2 & R2). split_and!; [by etrans|by etrans|congruence..].
Qed.

Lemma related_silent s s' t : lift same_moves s s' -> scope_order s = scope_order s' -> related exact s t -> related exact s' t.
Proof.
  intros L O [H E]. split; [|congruence]. eapply (lift_compose same_moves (related_binding exact)); [| |exact H].
  - intros a b c [E1 M1] (E2 & M2 & M3). split_and!; [congruence|rewrite M1; auto|rewrite M1; auto].
  - apply lift_lookup in L as [Ll L]. apply lift_lookup. split; [done|]. intros i k. destruct (L i k); constructor. by symmetry.
Qed.

Lemma follows_silent c c' q : silent c c' -> follows exact c q -> follows exact c' q.
Proof.
  intros (G & L & O & R) [H1 H2 H3]. split; [done| |].
  - intros E. eapply Forall_impl; [by apply H2|]. intros o. by apply planned_grows.
  - intros Hq. destruct (H3 Hq) as [Hr Hs]. split; [congruence|]. by eapply related_silent.
Qed.

(** What follows from a clean end *)
Lemma grows_clean c c' : grows c c' -> has_errors (rep c') = false -> has_errors (rep c) = false.
Proof. intros [H _]. by apply extends_clean. Qed.

Lemma good_clean c c' : good c c' -> has_errors (rep c') = false -> has_errors (rep c) = false.
Proof. intros [H _]. by apply grows_clean. Qed.

Lemma grows_on_own f c : grows c (on_own f c).
Proof. split; [reflexivity|by exists []]. Qed.

(** ** Silent steps *)

Lemma silent_set_rep r c : extends (rep c) r -> silent c (set_rep r c).
Proof. intros H. split_and!; try reflexivity. split; [done|by exists []]. Qed.

Lemma silent_reports f c : (forall s r, extends r (f s r)) -> silent c (reports f c).
Proof. intros H. by apply silent_set_rep. Qed.

Lemma silent_on_own f c : scopes (f (own c)) = scopes (own c) -> scope_order (f (own c)) = scope_order (own c) ->
  reachable (f (own c)) = reachable (own c) -> silent c (on_own f c).
Proof.
  intros E1 E2 E3. split_and!; [split; [reflexivity|by exists []]| |simpl; congruence..]. unfold lift; simpl. rewrite E1. apply (lift_refl same_moves). apply _.
Qed.

Lemma silent_alter_borrows g i c : (forall b, exists l, g b = with_borrows l b \/ g b = b) -> silent c (on_own (alter_binding g i) c).
Proof.
  intros H. split_and!; [split; [reflexivity|by exists []]| |done..]. apply lift_alter_step; [apply _|].
  intros b. destruct (H b) as [l [-> | ->]]; split; done.
Qed.

Lemma silent_store_into holders root origins attach sp c : silent c (store_into holders root origins attach sp c).
Proof.
  revert c. induction holders as [|h hs IH]; intros c; simpl; [reflexivity|].
  repeat case_match; try apply IH; try (apply silent_set_rep, extends_error); (etrans; [|apply IH]; apply silent_alter_borrows; eauto).
Qed.

Lemma silent_store_borrows p place origins attach sp c : silent c (store_borrows p place origins attach sp c).
Proof. unfold store_borrows. repeat case_match; try reflexivity; apply silent_store_into. Qed.

Lemma silent_temporaries p names args initial c : silent c (argument_temporaries p names args initial c).2.
Proof.
  unfold argument_temporaries. pose proof (extends_conflicts p names args initial (own c) (rep c)) as H.
  destruct (check_argument_temporary_borrow_conflicts_with _ _ _ _ _ _) as [t r]. by apply silent_set_rep.
Qed.

(** ** Uses and moves *)

Lemma errors_local_use b sp r : has_errors (check_local_use b sp r) = false -> is_moved b = false.
Proof. unfold check_local_use. destruct (is_moved b); [by rewrite has_errors_error|done]. Qed.

Lemma status_use b q : is_moved b = false -> use b q = q.
Proof. unfold use. by intros ->. Qed.

Lemma related_moved b b' : related_binding exact b b' -> is_moved b = false -> is_moved b' = false.
Proof. intros (_ & H & _) E. destruct (is_moved b') eqn:E'; [by rewrite H in E|done]. Qed.

Section Steps.
Context (p : Program) (names : gset string).

Lemma follows_use e c q : follows exact c q -> has_errors (rep (check_ident_use p e c)) = false ->
  follows exact (check_ident_use p e c) (use_ident p e q).
Proof.
  intros F. unfold check_ident_use, use_ident, live.
  destruct (status q) eqn:Eq; try (intros _; eapply follows_left; [apply (good_ident_use p e c)|by rewrite Eq|done]).
  destruct (fl_state _ _ _ F Eq) as [_ [L _]]. pose proof (lift_binding_by_id _ (default 0 (get_id p e)) _ _ L) as Hb.
  unfold get. destruct (get_id p e) as [i|]; simpl in *; [|done]. destruct Hb as [b b' R|]; [|done]. simpl.
  intros Hc. assert (is_moved b = false) as Hm by (eapply errors_local_use; exact Hc).
  rewrite (status_use b') by (by eapply related_moved). eapply follows_silent; [|exact F]. apply silent_set_rep, extends_local_use.
Qed.

Lemma related_move_out sp b b' : related_binding exact b b' -> related_binding exact (move_out sp b) (move_out sp b').
Proof.
  intros (E & H). assert (copy b = copy b') as Ec by (unfold erase in E; congruence). unfold move_out. rewrite Ec.
  destruct (copy b'); [done|]. split_and!; [|done..]. unfold erase in *; simpl. congruence.
Qed.

Lemma related_alter f g i s s' :
  (forall b b', related_binding exact b b' -> related_binding exact (f b) (g b')) -> related exact s s' ->
  related exact (alter_binding f i s) (alter_binding g i s').
Proof. intros H [L O]. split; [by apply lift_alter_binding|done]. Qed.

Lemma follows_take i sp c q : follows exact c q -> has_errors (rep (consume_local i sp c)) = false ->
  follows exact (consume_local i sp c) (take i sp q).
Proof.
  intros F. unfold take, live.
  destruct (status q) eqn:Eq; try (intros _; eapply follows_left; [apply (good_consume_local i sp c)|by rewrite Eq|done]).
  destruct (fl_state _ _ _ F Eq) as [Hr [L O]]. pose proof (lift_binding_by_id _ i _ _ L) as Hb. unfold consume_local in *.
  destruct Hb as [b b' R|]; [|done]. simpl. intros Hc.
  assert (is_moved b = false) as Hm.
  { eapply errors_local_use. eapply extends_clean; [|exact Hc]. case_match; [reflexivity|apply extends_error]. }
  rewrite (related_moved _ _ R Hm). split; simpl; [by rewrite Eq|by apply F|]. intros _. split; [done|].
  apply related_alter; [apply related_move_out|by split].
Qed.

Lemma follows_takes ids sp c q : follows exact c q -> has_errors (rep (for_each (fun i => consume_local i sp) ids c)) = false ->
  follows exact (for_each (fun i => consume_local i sp) ids c) (for_each (fun i => take i sp) ids q).
Proof.
  unfold for_each. revert c q. induction ids as [|i ids IH]; intros c q F Hc; simpl in *; [done|]. apply IH; [|done].
  apply follows_take; [done|]. eapply good_clean; [apply (captures_good ids sp)|exact Hc].
Qed.

(** ** Definitions and scopes *)

Lemma related_fresh i n cp ty bs bs' : related_binding exact (mkBinding i n cp ty None 0 bs) (mkBinding i n cp ty None 0 bs').
Proof. by split_and!. Qed.

Lemma related_define pattern cp ty bs bs' s s' :
  related exact s s' -> related exact (define_with_borrows p pattern cp ty bs s) (define_with_borrows p pattern cp ty bs' s').
Proof.
  intros [L O]. split; [apply lift_define; [intros; apply related_fresh|done]|]. apply order_define; [by eapply Forall2_length|done].
Qed.

Lemma related_push s s' : related exact s s' -> related exact (push_scope s) (push_scope s').
Proof. intros [L O]. split; [by apply lift_push|]. simpl. by rewrite O. Qed.

Lemma related_pop s s' : related exact s s' -> related exact (pop_scope s) (pop_scope s').
Proof. intros [L O]. split; [by apply lift_pop|]. simpl. by rewrite O. Qed.

#[local] Instance related_scoped : Scoped p (related exact).
Proof. split; [|apply related_push]. intros. by apply related_define. Qed.

Lemma related_same s1 s2 s' : scopes s1 = scopes s2 -> scope_order s1 = scope_order s2 -> related exact s1 s' -> related exact s2 s'.
Proof. intros E1 E2 [L O]. split; [unfold lift; by rewrite <- E1|congruence]. Qed.

Lemma related_same_r s s1 s2 : scopes s1 = scopes s2 -> scope_order s1 = scope_order s2 -> related exact s s1 -> related exact s s2.
Proof. intros E1 E2 [L O]. split; [unfold lift; by rewrite <- E1|congruence]. Qed.

Lemma moves_bind_origins pattern origins s :
  lift same_moves s (bind_pattern_origins p pattern origins s) /\ scope_order (bind_pattern_origins p pattern origins s) = scope_order s /\
  reachable (bind_pattern_origins p pattern origins s) = reachable s.
Proof.
  unfold bind_pattern_origins. destruct origins as [|o os]; [split_and!; reflexivity|]. generalize (elements (collect_pattern_ids (p_locals p) pattern ∅)) as ids.
  intros ids. revert s. induction ids as [|i ids IH]; intros s; simpl; [split_and!; reflexivity|].
  match goal with |- context [alter_binding ?f i s] => set (g := f) end. destruct (IH (alter_binding g i s)) as (L & O & R).
  split_and!; [|exact O|exact R]. etrans; [|exact L]. apply lift_alter_step; [apply _|]. intros b. unfold g. by destruct (match bty b with Some _ => _ | None => _ end).
Qed.

Lemma related_bind_origins pattern origins s s' : related exact s s' -> related exact (bind_pattern_origins p pattern origins s) s'.
Proof. intros H. destruct (moves_bind_origins pattern origins s) as (L & O & _). eapply related_silent; [exact L|by symmetry|done]. Qed.

Lemma reachable_define pattern cp ty bs s : reachable (define_with_borrows p pattern cp ty bs s) = reachable s.
Proof. unfold define_with_borrows. by repeat case_match. Qed.

Definition same_reach (s s' : OwnershipState) : Prop := reachable s' = reachable s.

#[local] Instance same_reach_preorder : PreOrder same_reach.
Proof. split; repeat intro; unfold same_reach in *; congruence. Qed.

Lemma reachable_bind pattern : forall cp ty s, same_reach s (bind_pattern p names pattern cp ty s).
Proof.
  induction pattern using Pat_ind; parts; intros cp ty s; cbn [bind_pattern]; try done; try apply reachable_define; auto.
  - apply (for_indexed_rel_in same_reach). eapply Forall_impl; [exact H|]. auto.
  - apply (for_each_rel_in same_reach). eapply Forall_impl; [exact H|]. auto.
  - apply (for_indexed_rel_in same_reach). eapply Forall_impl; [exact H|]. auto.
  - apply (for_each_rel_in same_reach). eapply Forall_impl; [exact H|]. auto.
  - etrans; [apply reachable_define|apply IHpattern].
Qed.

Lemma reachable_destructuring pattern cp ty bs s : same_reach s (bind_destructuring_pattern p names pattern cp ty bs s).
Proof. unfold bind_destructuring_pattern. etrans; [apply reachable_bind|]. apply moves_bind_origins. Qed.

Lemma related_destructuring pattern cp ty bs s s' :
  related exact s s' -> related exact (bind_destructuring_pattern p names pattern cp ty bs s) (bind_pattern p names pattern cp ty s').
Proof. intros R. apply related_bind_origins. by apply (scoped_bind p names (related exact)). Qed.

Lemma follows_define_let pattern checked cp ty bs c q : follows exact c q ->
  follows exact (define_let_pattern p names pattern checked cp ty bs c) (live (on_state (bind_pattern p names pattern cp ty)) q).
Proof.
  intros F. unfold live.
  assert (grows c (define_let_pattern p names pattern checked cp ty bs c)) as G by apply top_define_let.
  destruct (status q) eqn:Eq; try (eapply follows_left; [exact G|by rewrite Eq|done]).
  destruct (fl_state _ _ _ F Eq) as [Hr R]. split; simpl.
  - by rewrite Eq.
  - intros E. eapply Forall_impl; [by apply F|]. intros o. by apply planned_grows.
  - intros _. unfold define_let_pattern.
    destruct pattern; try (split; [etrans; [apply reachable_destructuring|exact Hr]|by apply related_destructuring]).
    split; [etrans; [apply reachable_define|exact Hr]|by apply related_define].
Qed.

(** The locals to drop *)
Lemma droppable_related order m m' : exact = true -> scope_rel (related_binding exact) m m' ->
  droppable_locals_from_scope m order = droppable_locals_from_scope m' order.
Proof.
  intros Ex H. unfold droppable_locals_from_scope. apply filter_ext. intros i. destruct (H i) as [b b' (E & M1 & M2)|]; [|done].
  assert (copy b = copy b') as -> by (unfold erase in E; congruence). f_equal. f_equal.
  destruct (is_moved b), (is_moved b'); try done; [by specialize (M2 Ex eq_refl)|by specialize (M1 eq_refl)].
Qed.

Lemma last_related (l l' : list (gmap LocalId BindingState)) : Forall2 (scope_rel (related_binding exact)) l l' ->
  scope_rel (related_binding exact) (default ∅ (last l)) (default ∅ (last l')).
Proof.
  intros H. induction H as [|m m' l l' Hm H IH]; [apply scope_rel_empty|]. destruct H as [|m2 m2' l l' Hm2 H]; [done|]. exact IH.
Qed.

Lemma droppable_up_to_related s s' boundary : exact = true -> related exact s s' ->
  droppable_locals_up_to s boundary = droppable_locals_up_to s' boundary.
Proof.
  intros Ex [L O]. unfold droppable_locals_up_to. rewrite (Forall2_length _ _ _ L), O. apply flat_map_ext. intros i. apply droppable_related; [done|].
  unfold lift in L. rewrite Forall2_lookup in L. destruct (L i); simpl; [done|apply scope_rel_empty].
Qed.

Lemma in_plan_record point ids c : in_plan (drops (record_drops point ids c)) point ids.
Proof. unfold record_drops, in_plan. destruct ids; [by left|right; left]. Qed.

(** ** The traversal and the walk *)

Abbreviation visit := (Borrow.visit p names).
Abbreviation visit_block := (Borrow.visit_block p names).
Abbreviation walk := (BorrowPaths.walk p names).
Abbreviation walk_block := (BorrowPaths.walk_block p names).
Abbreviation clean c := (has_errors (rep c) = false).

Definition sim (f : Cx -> Cx) (g : Path -> Path) : Prop := forall c q, follows exact c q -> clean (f c) -> follows exact (f c) (g q).

Definition sim_expr (e : Expr) : Prop := forall m, sim (visit m e) (walk m e).
Definition sim_block (b : Block) : Prop := forall m ret, sim (visit_block m ret b) (walk_block m b).

(** It is enough to look at running paths. *)
Lemma sim_running e :
  (forall m c q, status q = Running -> follows exact c q -> clean (visit m e c) ->
     follows exact (visit m e c) (walk_node p names walk walk_block m e q)) -> sim_expr e.
Proof.
  intros H m c q F Hc. rewrite walk_eq. unfold live.
  destruct (status q) eqn:Eq; try (eapply follows_left; [apply visit_good|by rewrite Eq|done]). by apply H.
Qed.

Lemma sim_then f g (c : Cx) q (h : Cx -> Cx) k :
  follows exact c q -> clean (h (f c)) -> sim f g -> (forall c, grows c (h c)) ->
  (follows exact (f c) (g q) -> clean (h (f c)) -> follows exact (h (f c)) (k (g q))) -> follows exact (h (f c)) (k (g q)).
Proof. intros F Hc Hf Hh Hk. apply Hk; [|done]. apply Hf; [done|]. by eapply grows_clean; [apply Hh|]. Qed.

Lemma follows_temporary_borrows e m bs c q : sim_expr e -> follows exact c q ->
  clean (with_temporary_borrows p names (visit m) e bs c) -> follows exact (with_temporary_borrows p names (visit m) e bs c) (walk m e q).
Proof.
  intros He F Hc. unfold with_temporary_borrows in *. cbv zeta in *. eapply follows_silent; [by apply silent_on_own|].
  apply He; [eapply follows_silent; [by apply silent_on_own|done]|exact Hc].
Qed.

Lemma follows_args mode args ts c q : Forall sim_expr args -> follows exact c q -> clean (visit_args p names visit mode args ts c) ->
  follows exact (visit_args p names visit mode args ts c) (walk_args walk mode args q).
Proof.
  intros H. unfold visit_args, walk_args. generalize 0 as index. revert c q.
  induction H as [|e args He H IH]; intros c q index F Hc; simpl in *; [done|]. apply IH; [|done].
  apply follows_temporary_borrows; [done..|]. eapply grows_clean; [|exact Hc].
  apply (for_indexed_rel grows). intros i x c'. apply good_with_temporary_borrows. intros. apply visit_good.
Qed.

Lemma good_args mode args ts c : good c (visit_args p names visit mode args ts c).
Proof. apply good_visit_args. apply Forall_true. intros. apply visit_good. Qed.

(** Conflicts of the arguments, then the arguments *)
Lemma follows_args_after mode args initial c q : Forall sim_expr args -> follows exact c q ->
  clean (let '(ts, c) := argument_temporaries p names args initial c in visit_args p names visit mode args ts c) ->
  follows exact (let '(ts, c) := argument_temporaries p names args initial c in visit_args p names visit mode args ts c)
    (walk_args walk mode args q).
Proof.
  intros H F. pose proof (silent_temporaries p names args initial c) as Hs. destruct (argument_temporaries p names args initial c) as [ts c'].
  intros Hc. apply follows_args; [done| |done]. by eapply follows_silent.
Qed.

Lemma walk_args_ext mode mode' args q : (forall i a, mode i a = mode' i a) -> walk_args walk mode args q = walk_args walk mode' args q.
Proof.
  intros H. unfold walk_args. generalize 0 as index. revert q. induction args as [|a args IH]; intros q index; simpl; [done|]. by rewrite IH, H.
Qed.

Lemma follows_exited c c' q : grows c c' -> follows exact c q -> follows exact c' (live (set_status Exited) q).
Proof.
  intros G F. unfold live. destruct (status q) eqn:Eq; try (eapply follows_left; [exact G|by rewrite Eq|done]).
  split; simpl; [done| |done]. intros E. eapply Forall_impl; [by apply F|]. intros o. by apply planned_grows.
Qed.

Lemma call_sim callee tys args sp : sim_expr callee -> Forall sim_expr args -> sim_expr (ECall callee tys args sp).
Proof.
  intros Hc Ha. apply sim_running. intros m c q Eq F. rewrite visit_eq. cbn [visit_node walk_node]. unfold walk_call.
  destruct callee as [|name nsp| | | | | | | | | | | | | | | | | | | | | | | | | | | | | ];
    try (intros Hcl; unfold check_call in *; apply follows_args_after; [done| |exact Hcl]; apply Hc; [done|];
         eapply good_clean; [apply (good_args_after p names visit (fun _ _ => Consume) args [] _ _ ltac:(reflexivity)); apply Forall_true; intros; apply visit_good|exact Hcl]).
  set (exits := bool_decide (name = "panic"%string) && bool_decide (functions p !! name = None)).
  assert (clean (check_call p names visit (EIdent name nsp) args c) ->
    follows exact (check_call p names visit (EIdent name nsp) args c)
      (walk_args walk (fun index _ =>
         if bool_decide (name = "print"%string) || bool_decide (name ∈ test_asserts p) then Check
         else param_mode names (s_params <$> functions p !! name) index) args (use_ident p (EIdent name nsp) q))) as Hcall.
  { unfold check_call. set (c1 := match get p (EIdent name nsp) (own c) with Some _ => _ | None => _ end).
    intros Hcl.
    assert (clean c1 -> follows exact c1 (use_ident p (EIdent name nsp) q)) as H1.
    { unfold c1. destruct (get p (EIdent name nsp) (own c)) as [b|] eqn:Eg; [by apply follows_use|]. intros _.
      assert (use_ident p (EIdent name nsp) q = q) as ->.
      { unfold use_ident, live. rewrite Eq. destruct (fl_state _ _ _ F Eq) as [_ R]. apply related_env in R.
        pose proof (env_get p (EIdent name nsp) _ _ R) as E. rewrite Eg in E. by destruct (get p (EIdent name nsp) (state q)). }
      eapply follows_silent; [|exact F]. repeat case_match; first [reflexivity|apply silent_reports; auto with reports]. }
    pose proof (silent_temporaries p names args [] c1) as Hs. destruct (argument_temporaries p names args [] c1) as [ts c2]. cbn [snd] in Hs.
    assert (clean c1) as Hc1.
    { eapply grows_clean; [apply Hs|]. case_match; (eapply good_clean; [apply good_args|exact Hcl]). }
    destruct (bool_decide (name = "print"%string) || bool_decide (name ∈ test_asserts p));
      (apply follows_args; [done|eapply follows_silent; [exact Hs|by apply H1]|exact Hcl]). }
  destruct exits eqn:Ex; [|exact Hcall]. intros Hcl. eapply follows_exited; [|by apply Hcall]. split; [reflexivity|by exists []].
Qed.

(** A method call up to its receiver: only reports and borrows *)
Lemma method_call_silent receiver method args c :
  exists ts c', silent c c' /\
    check_method_call p names visit receiver method args c =
    visit_args p names visit (argument_mode p names (method_signature p (expr_ty p names receiver (own c)) method)) args ts
      (with_temporary_borrows p names (visit (receiver_mode p names receiver method args (own c))) receiver ts c').
Proof.
  unfold check_method_call. cbv zeta.
  set (c1 := match args with [] => _ | _ :: _ => _ end).
  assert (silent c c1) as H1 by (unfold c1; repeat case_match; first [reflexivity|apply silent_set_rep, extends_error]).
  match goal with |- context [if ?x then c1 else ?y] => set (c2 := if x then c1 else y) end.
  assert (silent c1 c2) as H2.
  { unfold c2. case_match; [reflexivity|]. apply silent_reports. intros s r. apply (for_each_rel extends). auto with reports. }
  set (c3 := store_borrows p receiver _ true (expr_span receiver) c2).
  assert (silent c2 c3) as H3 by apply silent_store_borrows.
  match goal with |- context [argument_temporaries p names args ?b c3] =>
    pose proof (silent_temporaries p names args b c3) as Ht; destruct (argument_temporaries p names args b c3) as [ts c4] end.
  exists ts, c4. split; [|done]. etrans; [exact H1|]. etrans; [exact H2|]. etrans; [exact H3|exact Ht].
Qed.

Lemma follows_method_call receiver method args c q : sim_expr receiver -> Forall sim_expr args -> status q = Running -> follows exact c q ->
  clean (check_method_call p names visit receiver method args c) ->
  follows exact (check_method_call p names visit receiver method args c) (walk_method_call p names walk receiver method args q).
Proof.
  intros Hr Ha Eq F. destruct (method_call_silent receiver method args c) as (ts & c' & Hs & ->). unfold walk_method_call. cbv zeta.
  destruct (fl_state _ _ _ F Eq) as [_ R]. apply related_env in R.
  rewrite <- (env_ty p names receiver _ _ R), <- (env_receiver_mode p names receiver method args _ _ R).
  intros Hc. apply follows_args; [done| |done]. apply follows_temporary_borrows; [done|by eapply follows_silent|].
  eapply good_clean; [apply good_args|exact Hc].
Qed.

Lemma method_sim receiver method args sp : sim_expr receiver -> Forall sim_expr args -> sim_expr (EMethodCall receiver method args sp).
Proof. intros Hr Ha. apply sim_running. intros m c q Eq F. rewrite visit_eq. cbn [visit_node walk_node]. by apply follows_method_call. Qed.

Lemma associated_sim ty f args sp : Forall sim_expr args -> sim_expr (EAssociatedCall ty f args sp).
Proof.
  intros Ha. apply sim_running. intros m c q Eq F. rewrite visit_eq. cbn [visit_node walk_node].
  pose proof (silent_temporaries p names args [] c) as Hs. destruct (argument_temporaries p names args [] c) as [ts c']. cbn [snd] in Hs.
  destruct (match type_name ty with Some _ => _ | None => _ end); intros Hc; (apply follows_args; [done|by eapply follows_silent|exact Hc]).
Qed.

(** ** Choices *)

Lemma follows_cut c q : follows exact c q -> follows exact c (set_status Cut q).
Proof. intros [H1 H2 H3]. split; simpl; done. Qed.

Lemma choose_left f q : status q <> Running -> choose f q = q.
Proof. intros H. unfold choose, live. by destruct (status q). Qed.

Lemma choose_ext f g q : (forall k q, status q = Running -> f k q = g k q) -> choose f q = choose g q.
Proof. intros H. unfold choose, live. destruct (status q) eqn:E; try done. destruct (choices q); [done|]. by apply H. Qed.

(** After a choice the path runs on as before. *)
Lemma follows_choose c c' (f : nat -> Path -> Path) q :
  follows exact c q -> grows c c' ->
  (forall k q', status q' = Running -> follows exact c q' -> state q' = state q -> follows exact c' (f k q')) -> follows exact c' (choose f q).
Proof.
  intros F G H. unfold choose, live. destruct (status q) eqn:Eq; try (eapply follows_left; [exact G|by rewrite Eq|done]).
  destruct (choices q) as [|k ks] eqn:Ek.
  - apply (follows_left c); [done|done|by apply follows_cut].
  - apply H; [done| |done]. destruct F as [H1 H2 H3]. split; simpl; [done|done|]. intros _. by apply H3.
Qed.

(** ** Branches *)

(** The state in which a branch starts; its end is one of the merged. *)
Lemma in_branch_follows f g c q : (forall c, good c (f c)) -> sim f g -> follows exact c q -> clean (in_branch (own c) f c).2 ->
  let '(s, c') := in_branch (own c) f c in follows exact (mkCx s (rep c') (drops c')) (g q).
Proof.
  intros Hg Hs F. unfold in_branch. assert (set_own (own c) c = c) as -> by by destruct c. simpl. intros Hc.
  specialize (Hs c q F Hc). by destruct (f c).
Qed.

(** One of the branches has been followed. *)
Lemma follows_merge sp branches c s q :
  Forall (framed (own c)) branches -> s ∈ branches -> follows exact (mkCx s (rep c) (drops c)) q ->
  clean (merge_many_branch_states sp (own c) branches c) -> follows exact (merge_many_branch_states sp (own c) branches c) q.
Proof.
  intros Hf Hs [H1 H2 H3] Hc. pose proof (merge_good sp branches c Hf) as [G _]. split; [done| |].
  - intros E. eapply Forall_impl; [by apply H2|]. intros o. by apply (planned_grows c).
  - intros Hq. destruct (H3 Hq) as [Hr R]. simpl in *. destruct (merge_sound sp branches c s Hf Hs Hr Hc) as [Hr' L]. split; [done|].
    eapply related_silent; [exact L| |exact R].
    assert (framed (own c) s) as [_ O] by (rewrite Forall_forall in Hf; auto).
    destruct (merge_good sp branches c Hf) as [_ [_ O']]. congruence.
Qed.

Lemma follows_if f g f' g' sp c q :
  (forall c, good c (f c)) -> (forall c, good c (g c)) -> sim f f' -> sim g g' -> follows exact c q -> clean (visit_if f g sp c) ->
  follows exact (visit_if f g sp c) (choose (fun k q => if k =? 0 then g' q else f' q) q).
Proof.
  intros Hf Hg Sf Sg F. pose proof (good_visit_if f g sp c Hf Hg) as [G _]. intros Hc.
  eapply follows_choose; [exact F|exact G|]. intros k q' Eq F' _. revert G Hc. unfold visit_if.
  destruct (in_branch_spec f (own c) c eq_refl Hf) as (F1 & G1 & O1). pose proof (in_branch_follows f f' c q' Hf Sf F') as B1.
  destruct (in_branch (own c) f c) as [s1 c1]. cbn [fst snd] in *.
  destruct (in_branch_spec g (own c) c1 O1 Hg) as (F2 & G2 & O2). rewrite <- O1 in *.
  assert (clean (in_branch (own c1) g c1).2 -> let '(s, c') := in_branch (own c1) g c1 in follows exact (mkCx s (rep c') (drops c')) (g' q')) as B2.
  { apply in_branch_follows; [done..|]. destruct F' as [A1 A2 A3]. split; [done| |rewrite O1; done].
    intros E. eapply Forall_impl; [by apply A2|]. intros o. apply planned_grows. apply G1. }
  destruct (in_branch (own c1) g c1) as [s2 c2]. cbn [fst snd] in *. unfold merge_branch_states. rewrite <- O2 in *. intros _ Hc.
  assert (Forall (framed (own c2)) [s1; s2]) as HF by (constructor; [done|]; constructor; [done|constructor]).
  assert (clean c2) as Hc2 by (eapply good_clean; [exact (merge_good sp _ c2 HF)|exact Hc]).
  assert (clean c1) as Hc1 by (eapply good_clean; [exact G2|done]).
  destruct (k =? 0).
  - apply (follows_merge sp [s1; s2] c2 s2); [done|right; left|by apply B2|done].
  - apply (follows_merge sp [s1; s2] c2 s1); [done|left| |done].
    destruct (B1 Hc1) as [A1 A2 A3]. split; [done| |done]. intros E. eapply Forall_impl; [by apply A2|].
    intros o. apply (planned_grows (mkCx s1 (rep c1) (drops c1))). apply G2.
Qed.

(** ** Statements and blocks *)

Lemma walk_left m e q : status q <> Running -> walk m e q = q.
Proof. intros H. rewrite walk_eq. unfold live. by destruct (status q). Qed.

Lemma walk_stmt_left st q : status q <> Running -> walk_stmt p names walk st q = q.
Proof.
  intros H. destruct st as [[mt pattern ty [e|] sp]|e|i]; unfold walk_stmt; rewrite ?walk_left by done; try done; unfold live; by destruct (status q).
Qed.

Lemma walk_stmts_left stmts q : status q <> Running -> for_each (walk_stmt p names walk) stmts q = q.
Proof. intros H. unfold for_each. induction stmts as [|st stmts IH]; simpl; [done|]. by rewrite walk_stmt_left. Qed.

Definition sim_stmt (st : Stmt) : Prop := forall uses, sim (visit_stmt p names uses st) (walk_stmt p names walk st).

Lemma stmt_expr_sim e : sim_expr e -> sim_stmt (SExpr e).
Proof.
  intros He uses c q F Hc. destruct (decide (status q = Running)) as [Eq|Hn].
  - destruct (fl_state _ _ _ F Eq) as [_ R]. unfold walk_stmt. cbv zeta. rewrite <- (env_copy p names e _ _ (related_env _ _ R)). by apply He.
  - rewrite walk_stmt_left by done. eapply follows_left; [apply visit_good|done|done].
Qed.

Lemma let_sim mt pattern ty value sp : (forall e, value = Some e -> sim_expr e) -> sim_stmt (SLet (mkLetStmt mt pattern ty value sp)).
Proof.
  intros Hv uses c q F Hc. destruct (decide (status q = Running)) as [Eq|Hn].
  2:{ rewrite walk_stmt_left by done. eapply follows_left; [|done|done].
      apply (top_visit_let p names visit). destruct value as [e|]; [|done]. intros. apply visit_good. }
  destruct (fl_state _ _ _ F Eq) as [_ R]. apply related_env in R. cbn [visit_stmt walk_stmt] in *. unfold walk_stmt. cbv zeta.
  rewrite <- (env_let_copy p names ty value _ _ R), <- (env_let_ty p names ty value _ _ R). unfold visit_let in *. cbv zeta in *.
  fold (let_is_copy p names ty value (own c)) in *. set (cp := let_is_copy p names ty value (own c)) in *. clearbody cp.
  destruct value as [e|]; [|by apply follows_define_let].
  set (c1 := visit (if cp then Check else Consume) e c) in *. pose proof (extends_block_escape p e (rep c1)) as He.
  destruct (check_block_borrow_escape p e (rep c1)) as [reported r]. cbn [snd] in He.
  apply follows_define_let. eapply follows_silent; [by apply silent_set_rep|]. apply (Hv e eq_refl); [done|].
  eapply extends_clean; [exact He|]. eapply (grows_clean (set_rep r c1)); [|exact Hc]. apply top_define_let.
Qed.

Lemma top_stmt uses st c : good_top c (visit_stmt p names uses st c).
Proof.
  destruct st as [[mt pattern ty value sp]|e|i]; [|apply good_good_top, visit_good|reflexivity].
  apply (top_visit_let p names visit). destruct value as [e|]; [|done]. intros. apply visit_good.
Qed.

Lemma stmts_sim uses stmts : Forall sim_stmt stmts ->
  sim (visit_stmts (visit_stmt p names uses) stmts) (for_each (walk_stmt p names walk) stmts).
Proof.
  intros H. induction H as [|st stmts Hst H IH]; intros c q F Hc; [done|]. cbn [visit_stmts] in *. cbv zeta in *.
  set (c0 := on_own (with_statement (statement_position st)) c) in *.
  assert (follows exact c0 q) as F0 by (eapply follows_silent; [by apply silent_on_own|done]).
  destruct (reachable (own c0)) eqn:Er.
  - apply IH; [|done]. apply Hst; [done|]. eapply grows_clean; [|exact Hc]. apply top_visit_stmts. apply Forall_true. intros. apply top_stmt.
  - rewrite walk_stmts_left; [done|]. intros Eq. destruct (fl_state _ _ _ F0 Eq). congruence.
Qed.

(** The end of a block: the plan gets what the path owns. *)
Lemma follows_block_end b sp c q : follows exact c q ->
  let c' := if reachable (own c) then
      let c := reports (check_scope_end_escapes sp) c in
      record_drops (BlockEnd b)
        (droppable_locals_from_scope (default ∅ (last (scopes (own c)))) (default [] (last (scope_order (own c))))) c
    else c in
  follows exact (on_own (fun s => pop_scope (with_last_uses (pop (last_uses s)) s)) c')
    (leave_scope (live (fun q => see (SeenEnd b (state q)) q) q)).
Proof.
  intros F c'. assert (good c c') as [Gc _].
  { unfold c'. destruct (reachable (own c)); [|reflexivity]. cbv zeta.
    etrans; [apply (good_reports (check_scope_end_escapes sp)); auto with reports|apply good_record]. }
  assert (grows c (on_own (fun s => pop_scope (with_last_uses (pop (last_uses s)) s)) c')) as G by exact Gc.
  destruct (decide (status q = Running)) as [Eq|Hn].
  - destruct (fl_state _ _ _ F Eq) as [Hr R]. unfold live, leave_scope. rewrite Eq. simpl. rewrite Eq.
    unfold c' in *. rewrite Hr in *. cbv zeta in *. split; simpl; [by rewrite Eq| |].
    + intros Ex. constructor; [|eapply Forall_impl; [by apply F|]; intros o; by apply (planned_grows c)].
      simpl. destruct R as [L O]. rewrite <- O. rewrite <- (droppable_related _ _ _ Ex (last_related _ _ L)). apply in_plan_record.
    + intros _. unfold record_drops. split; [by case_match|]. case_match; simpl; (apply (related_same (pop_scope (own c))); [done..|by apply related_pop]).
  - assert (leave_scope (live (fun q => see (SeenEnd b (state q)) q) q) = q) as ->.
    { unfold live, leave_scope. destruct F as [F _ _]. by destruct (status q) eqn:E; rewrite ?E in *. }
    by apply (follows_left c).
Qed.

(** A block, given how its statements are followed *)
Lemma block_sim_with g m ret stmts tail sp :
  sim (visit_stmts (visit_stmt p names (block_last_uses (p_locals p) (mkBlock stmts tail sp))) stmts) g -> (forall e, tail = Some e -> sim_expr e) ->
  forall c q, status q = Running -> follows exact c q -> clean (visit_block m ret (mkBlock stmts tail sp) c) ->
  follows exact (visit_block m ret (mkBlock stmts tail sp) c)
    (leave_scope
       (live (fun q => see (SeenEnd (mkBlock stmts tail sp) (state q)) q)
          (let q := g (on_state push_scope q) in match tail with Some tail => walk m tail q | None => q end))).
Proof.
  intros Hst Ht c q Eq F Hc.
  rewrite visit_block_eq in *. unfold visit_block_node, visit_block_with in Hc |- *. cbv zeta in Hc |- *.
  set (c1 := on_own _ c) in *. set (uses := block_last_uses (p_locals p) (mkBlock stmts tail sp)) in *.
  fold (visit_stmt p names uses) in *.
  assert (follows exact c1 (on_state push_scope q)) as F1.
  { destruct (fl_state _ _ _ F Eq) as [Hr R]. destruct F as [A1 A2 A3]. split; simpl; [by rewrite Eq|done|]. intros _. split; [done|].
    apply (related_same (push_scope (own c))); [done..|]. by apply related_push. }
  set (q1 := on_state push_scope q) in *. clearbody q1.
  set (c2 := visit_stmts _ stmts c1) in *.
  set (c3 := match match tail with Some _ => _ | None => _ end with Some _ => _ | None => _ end) in *.
  assert (good c2 c3) as G3.
  { unfold c3. destruct tail as [e|]; [|reflexivity]. destruct (reachable (own c2)); [|reflexivity].
    etrans; [apply (good_on_own (with_statement (start_of (expr_span e)))); by apply framed_same|]. etrans; [|apply visit_good].
    destruct ret; [apply good_reports; auto with reports|reflexivity]. }
  set (q3 := match tail with Some tail => walk m tail (g q1) | None => g q1 end).
  assert (clean c3) as Hc3.
  { eapply grows_clean; [|exact Hc]. etrans; [|apply grows_on_own]. case_match; [|reflexivity].
    etrans; [apply (good_reports (check_scope_end_escapes sp)); auto with reports|]. apply good_record. }
  assert (follows exact c2 (g q1)) as F2 by (apply Hst; [done|by eapply good_clean]).
  assert (follows exact c3 q3) as F3; [|by apply follows_block_end].
  unfold c3, q3 in *. destruct tail as [e|]; [|done]. destruct (reachable (own c2)) eqn:Er.
  - apply (Ht e eq_refl); [|exact Hc3].
    match goal with |- follows exact (if ret then reports ?f ?x else _) _ =>
      apply (follows_silent x); [destruct ret; [apply silent_reports; auto with reports|reflexivity]|] end.
    eapply follows_silent; [by apply silent_on_own|done].
  - rewrite walk_left; [done|]. intros E. destruct (fl_state _ _ _ F2 E). congruence.
Qed.

Lemma block_sim stmts tail sp : Forall sim_stmt stmts -> (forall e, tail = Some e -> sim_expr e) -> sim_block (mkBlock stmts tail sp).
Proof.
  intros Hst Ht m ret c q F Hc. rewrite walk_block_eq. unfold live at 1.
  destruct (status q) eqn:Eq; try (eapply follows_left; [apply visit_block_good|by rewrite Eq|done]).
  unfold walk_block_node. cbv zeta. assert (live (on_state push_scope) q = on_state push_scope q) as -> by (unfold live; by rewrite Eq).
  apply (block_sim_with (for_each (walk_stmt p names walk) stmts)); [by apply stmts_sim|done..].
Qed.

(** ** Expressions that only read *)

Lemma plain_signature op ty : plain_operator p op = true ->
  (method ← match operator_method op with Some method => Some method | None => ordering_method op end;
   signature ← method_signature p ty method; Some method) = None.
Proof.
  unfold plain_operator. destruct (match operator_method op with Some _ => _ | None => _ end) as [method|]; [|done]. simpl.
  intros [Hm Hi]%andb_true_iff. apply bool_decide_eq_true in Hi. unfold method_signature.
  destruct (ty ← ty; name ← type_name ty; methods p !! (name, method)) as [sg|] eqn:E; [|by rewrite Hi].
  destruct ty as [t|]; simpl in E; [|done]. destruct (type_name t) as [n|]; simpl in E; [|done].
  apply elem_of_map_to_list in E. rewrite forallb_forall in Hm. specialize (Hm ((n, method), sg)). rewrite <- list_elem_of_In in Hm.
  specialize (Hm E). simpl in Hm. by rewrite bool_decide_eq_true_2 in Hm.
Qed.

Lemma state_live f q : (forall q, state (f q) = state q) -> state (live f q) = state q.
Proof. intros H. unfold live. by destruct (status q). Qed.

Lemma state_choose f q : (forall k q, state (f k q) = state q) -> state (choose f q) = state q.
Proof. intros H. unfold choose. apply state_live. intros q'. destruct (choices q'); [done|]. by rewrite H. Qed.

Record reads (e : Expr) : Prop := {
  rd_silent : forall c, silent c (visit Check e c);
  rd_state : forall q, state (walk Check e q) = state q;
  rd_sim : sim (visit Check e) (walk Check e) }.

Lemma reads_running e : (forall c, silent c (visit Check e c)) -> (forall q, state (walk_node p names walk walk_block Check e q) = state q) ->
  (forall c q, status q = Running -> follows exact c q -> clean (visit Check e c) ->
     follows exact (visit Check e c) (walk_node p names walk walk_block Check e q)) -> reads e.
Proof.
  intros H1 H2 H3. split; [done| |].
  - intros q. rewrite walk_eq. by apply state_live.
  - intros c q F Hc. rewrite walk_eq. unfold live.
    destruct (status q) eqn:Eq; try (eapply follows_left; [apply visit_good|by rewrite Eq|done]). by apply H3.
Qed.

Lemma reads_binary op a b sp : plain_operator p op = true -> reads a -> reads b -> reads (EBinary op a b sp).
Proof.
  intros Ho Ha Hb. apply reads_running.
  - intros c. rewrite visit_eq. cbn [visit_node]. cbv zeta. rewrite plain_signature by done. etrans; [apply Ha|apply Hb].
  - intros q. cbn [walk_node]. cbv zeta. rewrite plain_signature by done.
    destruct (is_logical op); [rewrite state_choose|rewrite (rd_state b)]; try done; try apply Ha.
    intros k q'. destruct (k =? 0); [done|by apply Hb].
  - intros c q Eq F. rewrite visit_eq. cbn [visit_node walk_node]. cbv zeta. rewrite !plain_signature by done. intros Hc.
    assert (follows exact (visit Check a c) (walk Check a q)) as F1 by (apply Ha; [done|]; eapply good_clean; [apply visit_good|exact Hc]).
    destruct (is_logical op); [|by apply Hb]. eapply follows_choose; [exact F1|apply visit_good|]. intros k q' Eq' F' _.
    destruct (k =? 0); [|by apply Hb]. eapply follows_silent; [apply Hb|done].
Qed.

Lemma simple_reads : forall e, simple p e = true -> reads e.
Proof.
  fix IH 1. intros e He. destruct e; try discriminate He; simpl in He.
  - apply reads_running; [intros c; rewrite visit_eq; reflexivity|done|]. intros c q Eq F. by rewrite visit_eq.
  - apply reads_running.
    + intros c. rewrite visit_eq. cbn [visit_node]. unfold check_ident_use. case_match; [|reflexivity]. apply silent_set_rep, extends_local_use.
    + intros q. cbn [walk_node]. apply state_live. intros q'. case_match; [|done]. unfold use. by case_match.
    + intros c q Eq F. rewrite visit_eq. cbn [visit_node walk_node]. by apply follows_use.
  - apply andb_true_iff in He as [[Ho H1]%andb_true_iff H2]. apply reads_binary; [done|by apply IH..].
  - pose proof (IH e He) as H. apply reads_running.
    + intros c. rewrite visit_eq. cbn [visit_node]. apply H.
    + intros q. cbn [walk_node]. apply H.
    + intros c q Eq F. rewrite visit_eq. cbn [visit_node walk_node]. by apply H.
  - pose proof (IH e He) as H. apply reads_running.
    + intros c. rewrite visit_eq. cbn [visit_node]. apply H.
    + intros q. cbn [walk_node]. apply H.
    + intros c q Eq F. rewrite visit_eq. cbn [visit_node walk_node]. by apply H.
Qed.

(** ** Loops

    A loop is checked once; a path may go round many times.  The state after
    each round is again related to the state before the loop. *)

Lemma loop_back s s' t : framed s s' -> lift (related_binding exact) s' t -> exact = false ->
  (forall i k b, branch_binding s i k = Some b ->
     let after := branch_binding s' i k in
     (move_count b <? match after with Some b => move_count b | None => move_count b end) &&
     match after with Some b => is_moved b | None => true end = false) ->
  lift (related_binding exact) s t.
Proof.
  intros [Hf _] Hr Ex Hn. apply lift_lookup in Hf as [L1 Hf]. apply lift_lookup in Hr as [L2 Hr]. apply lift_lookup. split; [congruence|].
  intros i k. specialize (Hf i k). specialize (Hr i k). specialize (Hn i k).
  destruct Hf as [b b' (E & Lc & M)|]; inversion Hr as [? b2 (E2 & M2 & _)|]; subst; constructor. split_and!; [congruence| |congruence].
  intros Hm. specialize (Hn b eq_refl). simpl in Hn. specialize (M2 Hm). apply M; [|done].
  rewrite M2, andb_true_r in Hn. apply Nat.ltb_ge in Hn. lia.
Qed.

Lemma loop_report sp f c :
  let '(body_state, c1) := in_branch (own c) (fun c => f (on_own (fun s => with_boundaries (loop_boundaries s ++ [length (scopes s)]) s) c)) c in
  (forall c, good c (f c)) -> clean (check_loop_body sp f c) ->
  framed (own c) body_state /\ own (check_loop_body sp f c) = own c /\ clean (mkCx body_state (rep c1) (drops c1)) /\
  (forall i k b, branch_binding (own c) i k = Some b ->
     let after := branch_binding body_state i k in
     (move_count b <? match after with Some b => move_count b | None => move_count b end) &&
     match after with Some b => is_moved b | None => true end = false).
Proof.
  unfold check_loop_body. cbv zeta. set (g := fun c => f _).
  destruct (in_branch (own c) g c) as [s1 c1] eqn:Eb. intros Hf Hc.
  destruct (in_branch_spec g (own c) c eq_refl) as (F & G & O).
  { intros c'. unfold g. etrans; [|apply Hf]. apply good_on_own. by apply framed_same. }
  rewrite Eb in F, G, O. cbn [fst snd] in *.
  match type of Hc with clean (for_bindings ?h _ _) => assert (forall i k b c, good c (h i k b c)) as Hg end.
  { intros. repeat case_match; first [reflexivity|apply good_set_rep, extends_error]. }
  split_and!; [done| |simpl; eapply good_clean; [by apply good_for_bindings|exact Hc]|].
  - transitivity (own c1); [|done]. rewrite for_bindings_fold. generalize (placed (own c)) as l. clear. intros l. revert c1.
    induction l as [|e l IH]; intros c1; simpl; [done|]. rewrite IH. by case_match.
  - intros i k b Hb. apply (for_bindings_clean _ _ _ i k b) in Hc as [c' Hc']; [|intros; apply Hg|done]. simpl in *. revert Hc'.
    destruct (branch_binding s1 i k) as [b'|]; simpl.
    + destruct ((move_count b <? move_count b') && is_moved b'); [|done]. simpl. by rewrite has_errors_error.
    + by rewrite Nat.ltb_irrefl.
Qed.

Lemma follows_stopped c q : exact = false -> match status q with Exited | Cut => True | _ => False end -> follows exact c q.
Proof. intros Ex H. split; [by destruct (status q)|congruence|]. intros E. by rewrite E in H. Qed.

Lemma related_sym_silent c c' q : silent c c' -> exact = false -> status q = Running -> reachable (own c) = true ->
  related exact (own c') (state q) -> follows exact c q.
Proof.
  intros (_ & L & O & R) Ex Eq Hr H. split; [by rewrite Eq|congruence|]. intros _. split; [done|].
  eapply related_silent; [| |exact H]; [|by symmetry]. apply lift_lookup in L as [Ll L]. apply lift_lookup. split; [done|].
  intros i k. destruct (L i k); constructor. by symmetry.
Qed.

(** A round that is left by [break] with the state as it was *)
Definition breaks_in_place (q q' : Path) : Prop :=
  status q' = Broke /\ scopes (state q') = scopes (state q) /\ scope_order (state q') = scope_order (state q).

Definition sim_or_break (f : Cx -> Cx) (g : Path -> Path) : Prop :=
  forall c q, status q = Running -> follows exact c q -> clean (f c) -> follows exact (f c) (g q) \/ breaks_in_place q (g q).

Lemma sim_never_breaks f g : sim f g -> sim_or_break f g.
Proof. intros H c q _ F Hc. left. by apply H. Qed.

Lemma follows_rounds fuel leaves condition f body sp c c1 q :
  exact = false -> silent c c1 -> (forall q, follows exact c q -> follows exact c1 (condition q)) ->
  (forall c, good c (f c)) -> sim_or_break f body -> clean (check_loop_body sp f c1) -> follows exact c q ->
  follows exact (check_loop_body sp f c1) (rounds fuel leaves condition (in_loop body) q).
Proof.
  intros Ex Hs Hcond Hf Sb Hc. pose proof (loop_report sp f c1) as Hl.
  set (enter := fun c => on_own (fun s => with_boundaries (loop_boundaries s ++ [length (scopes s)]) s) c) in *.
  unfold in_branch in Hl. assert (set_own (own c1) c1 = c1) as E1 by by destruct c1. rewrite E1 in Hl. simpl in Hl.
  destruct (Hl Hf Hc) as (Fr & O & Hcb & Hn). clear Hl.
  pose proof (good_loop_body sp f c1 Hf) as [G _].
  revert q. induction fuel as [|fuel IH]; intros q F; cbn [rounds].
  { by apply follows_stopped. }
  eapply follows_choose; [apply Hcond, F|exact G|]. intros k q' Eq F' _. destruct (fl_state _ _ _ F' Eq) as [Hr R].
  destruct (leaves && (k =? 0)).
  { split; [by rewrite Eq|congruence|]. intros _. by rewrite O. }
  unfold in_loop. set (q1 := on_state (fun s => with_boundaries (loop_boundaries s ++ [length (scopes s)]) s) q').
  destruct (Sb (enter c1) q1) as [Fb|(Eb & E1b & E2b)]; [done| |exact Hcb| |].
  { split; simpl; [by rewrite Eq|congruence|]. intros _. split; [done|].
    apply (related_same (own c1)); [done..|]. apply (related_same_r (own c1) (state q')); done. }
  2:{ cbv zeta. cbn [status on_state]. rewrite Eb. split; [done|congruence|]. intros _. rewrite O. split; [done|].
      apply (related_same_r (own c1) (state q')); done. }
  cbv zeta. cbn [status on_state]. destruct (status (body q1)) eqn:Eb.
  - destruct (fl_state _ _ _ Fb Eb) as [Hrb [Lb Ob]]. apply IH. apply (related_sym_silent c c1); [done..| |].
    + destruct Hs as (_ & _ & _ & ->). exact Hr.
    + split; [|simpl; destruct Fr as [_ Of]; simpl in *; congruence]. simpl. eapply (loop_back (own c1) (own (f (enter c1)))); [done|exact Lb|done|exact Hn].
  - pose proof (fl_status _ _ _ Fb) as H. by rewrite Eb in H.
  - pose proof (fl_status _ _ _ Fb) as H. by rewrite Eb in H.
  - apply follows_stopped; [done|]. simpl. by rewrite Eb.
  - pose proof (fl_status _ _ _ Fb) as H. by rewrite Eb in H.
  - apply follows_stopped; [done|]. simpl. by rewrite Eb.
Qed.

Lemma loop_sim b sp : exact = false -> sim_block b -> sim_expr (ELoop b sp).
Proof.
  intros Ex Hb. apply sim_running. intros m c q Eq F. rewrite visit_eq. cbn [visit_node walk_node]. intros Hc.
  apply (follows_rounds _ false (fun q => q) (visit_block Check false b) (walk_block Check b) sp c c); [done|reflexivity|done|intros; apply visit_block_good|apply sim_never_breaks, Hb|done|done].
Qed.

Lemma while_sim a b sp : exact = false -> simple p a = true -> sim_block b -> sim_expr (EWhile a b sp).
Proof.
  intros Ex Ha Hb. apply simple_reads in Ha. apply sim_running. intros m c q Eq F. rewrite visit_eq. cbn [visit_node walk_node]. intros Hc.
  apply (follows_rounds _ true (walk Check a) (visit_block Check false b) (walk_block Check b) sp c (visit Check a c));
    [done|apply Ha| |intros; apply visit_block_good|apply sim_never_breaks, Hb|done|done].
  intros q' F'. apply Ha; [done|]. eapply good_clean; [apply good_loop_body; intros; apply visit_block_good|exact Hc].
Qed.

(** [loop { if a { .. } else { break } }], to which [for] over a range is
    rewritten: the condition only reads, so the state is as it was. *)
Section BreakRound.
Context (a : Expr) (b : Block) (bsp isp sp : Span).
Context (exact_false : exact = false) (Ha : reads a) (Hb : sim_block b).

Let e : Expr := EIf a b (Some (EBreak None bsp)) isp.
Let body : Block := mkBlock [SExpr e] None sp.
Let mode (s : OwnershipState) : Mode := if expr_is_copy p names e s then Check else Consume.

(** The statement, with [stop] for the [break] *)
Let round (stop : Path -> Path) : Path -> Path :=
  live (fun q => choose (fun k q' => if k =? 0 then stop q' else walk_block (mode (state q)) b q') (walk Check a q)).

Lemma break_round_stmt : sim (visit_stmts (visit_stmt p names (block_last_uses (p_locals p) body)) [SExpr e]) (round (live (set_status Exited))).
Proof.
  intros c q F. cbn [visit_stmts]. set (c1 := on_own _ c). cbv zeta.
  assert (follows exact c1 q) as F1 by (eapply follows_silent; [by apply silent_on_own|done]).
  destruct (decide (status q = Running)) as [Eq|Hn].
  2:{ intros _. assert (round (live (set_status Exited)) q = q) as -> by (unfold round, live; by destruct (status q)).
      case_match; [|done]. eapply follows_left; [apply top_stmt|done|done]. }
  destruct (fl_state _ _ _ F1 Eq) as [-> R]. unfold round, live at 1. rewrite Eq. cbn [visit_stmt].
  rewrite (env_copy p names e _ _ (related_env _ _ R)). fold (mode (state q)). unfold e. rewrite visit_eq. cbn [visit_node]. intros Hc.
  apply follows_if; [intros; apply visit_block_good|intros; apply visit_good|apply Hb| | |exact Hc].
  - intros c2 q2 F2 _. eapply follows_exited; [apply visit_good|exact F2].
  - apply Ha; [done|]. eapply good_clean; [|exact Hc]. apply good_visit_if; intros; [apply visit_block_good|apply visit_good].
Qed.

Lemma break_round_walk q : status q = Running ->
  walk_block Check body q =
  leave_scope (live (fun q => see (SeenEnd body (state q)) q) (round (leave_at (EBreak None bsp) innermost_loop Broke) (on_state push_scope q))).
Proof.
  intros Eq. rewrite walk_block_eq. unfold live at 1. rewrite Eq. cbn [walk_block_node body]. unfold body, walk_block_node. cbv zeta.
  do 2 f_equal. assert (live (on_state push_scope) q = on_state push_scope q) as -> by (unfold live; by rewrite Eq).
  unfold for_each. cbn [fold_left]. unfold walk_stmt. cbv zeta. fold (mode (state (on_state push_scope q))). unfold e. rewrite walk_eq. unfold round.
  unfold live at 1 2. change (status (on_state push_scope q)) with (status q). rewrite Eq. cbn [walk_node].
  apply choose_ext. intros k q' Eq'. destruct (k =? 0); [|done]. rewrite walk_eq. unfold live. by rewrite Eq'.
Qed.

(** The statement stops, or it does not and [stop] does not matter. *)
Lemma break_round_stops q : status q = Running ->
  (forall stop stop', round stop q = round stop' q) \/
  (exists ks, forall stop, round stop q = stop (mkPath (state q) Running ks (seen (walk Check a q)))).
Proof.
  intros Eq. unfold round, live. rewrite Eq. unfold choose, live. destruct (status (walk Check a q)) eqn:E; try (by left).
  destruct (choices (walk Check a q)) as [|k ks]; [by left|]. destruct (k =? 0); [|by left]. right. exists ks. intros stop. by rewrite (rd_state a Ha).
Qed.

Lemma break_round_sim : sim_or_break (visit_block Check false body) (walk_block Check body).
Proof.
  intros c q Eq F Hc. pose proof (block_sim_with _ Check false _ None sp break_round_stmt ltac:(done) c q Eq F Hc) as H.
  rewrite break_round_walk by done. destruct (break_round_stops (on_state push_scope q) Eq) as [E|[ks E]].
  - left. by rewrite (E _ (live (set_status Exited))).
  - right. rewrite E. unfold leave_at, live, leave_scope. split; [done|]. simpl. by rewrite !pop_push.
Qed.
End BreakRound.

Lemma break_loop_sim a b bsp isp sp sp' : exact = false -> simple p a = true -> sim_block b ->
  sim_expr (ELoop (mkBlock [SExpr (EIf a b (Some (EBreak None bsp)) isp)] None sp) sp').
Proof.
  intros Ex Ha Hb. apply simple_reads in Ha. apply sim_running. intros m c q Eq F. rewrite visit_eq. cbn [visit_node walk_node]. intros Hc.
  apply (follows_rounds _ false (fun q => q) (visit_block Check false _) (walk_block Check _) sp' c c);
    [done|reflexivity|done|intros; apply visit_block_good|by apply break_round_sim|done|done].
Qed.

(** ** Match *)

(** The branches one by one: a path that ends is in one of the states. *)
Definition visited_arm (m : Mode) (cp : bool) (ty : option Ty) (origins : list BorrowOrigin) (arm : MatchArm) : Cx -> Cx :=
  let 'mkMatchArm pattern guard body _ := arm in
  visit_arm p names (fun c => match guard with Some guard => visit Check guard c | None => c end) (visit m body)
    pattern (expr_span body) cp ty origins.

Lemma good_visited_arm m cp ty origins arm c : good c (visited_arm m cp ty origins arm c).
Proof.
  destruct arm as [pattern guard body sp]. apply good_visit_arm; [|intros; apply visit_good]. intros c'. destruct guard; [apply visit_good|reflexivity].
Qed.

(** Binding a pattern only touches the scope that was entered. *)
Definition same_outer (s s' : OwnershipState) : Prop :=
  scopes (pop_scope s) = scopes (pop_scope s') /\ scope_order (pop_scope s) = scope_order (pop_scope s').

#[local] Instance same_outer_preorder : PreOrder same_outer.
Proof. split; repeat intro; unfold same_outer in *; intuition congruence. Qed.

Lemma outer_define pattern cp ty bs s : same_outer s (define_with_borrows p pattern cp ty bs s).
Proof.
  unfold define_with_borrows. destruct (Locals_pat _ _) as [i|]; [|reflexivity].
  destruct pattern; try reflexivity; (destruct (scopes s) eqn:E; [reflexivity|rewrite <- E]); split; symmetry; apply pop_alter_last.
Qed.

Lemma outer_bind pattern : forall cp ty s, same_outer s (bind_pattern p names pattern cp ty s).
Proof.
  induction pattern using Pat_ind; parts; intros cp ty s; cbn [bind_pattern]; try reflexivity; try apply outer_define; auto.
  - apply (for_indexed_rel_in same_outer). eapply Forall_impl; [exact H|]. auto.
  - apply (for_each_rel_in same_outer). eapply Forall_impl; [exact H|]. auto.
  - apply (for_indexed_rel_in same_outer). eapply Forall_impl; [exact H|]. auto.
  - apply (for_each_rel_in same_outer). eapply Forall_impl; [exact H|]. auto.
  - etrans; [apply outer_define|apply IHpattern].
Qed.

Lemma related_unbind pattern cp ty s t : related exact s t -> related exact s (pop_scope (bind_pattern p names pattern cp ty (push_scope t))).
Proof.
  intros H. destruct (outer_bind pattern cp ty (push_scope t)) as [E1 E2].
  apply (related_same_r s t); [rewrite <- E1|rewrite <- E2|done]; unfold pop_scope, push_scope; simpl; by rewrite pop_push.
Qed.

Definition sim_arm (arm : MatchArm) : Prop :=
  let 'mkMatchArm _ guard body _ := arm in (forall g, guard = Some g -> reads g) /\ sim_expr body.

(** The end of an arm *)
Lemma follows_arm_end sp c q : follows exact c q ->
  follows exact (on_own pop_scope (if reachable (own c) then reports (check_scope_end_escapes sp) c else c)) (leave_scope q).
Proof.
  intros F. set (c1 := if reachable (own c) then _ else _).
  assert (silent c c1) as Hs by (unfold c1; case_match; [apply silent_reports; auto with reports|reflexivity]).
  eapply follows_silent in F; [|exact Hs]. clearbody c1. destruct F as [A1 A2 A3]. unfold leave_scope.
  destruct (status q) eqn:Eq; try done; (split; simpl; [by rewrite Eq|done|rewrite Eq; try done]).
  intros _. destruct (A3 eq_refl) as [Hr R]. split; [done|by apply related_pop].
Qed.

(** One arm, up to the choice whether it is taken *)
Lemma follows_arm_head pattern guard cp ty origins c q :
  (forall g, guard = Some g -> reads g) -> status q = Running -> follows exact c q ->
  let c1 := on_own (fun s => bind_pattern_origins p pattern origins (bind_pattern p names pattern cp ty (push_scope s))) c in
  let c2 := match guard with Some g => visit Check g c1 | None => c1 end in
  let q1 := live (on_state (fun s => bind_pattern p names pattern cp ty (push_scope s))) q in
  let q2 := match guard with Some g => walk Check g q1 | None => q1 end in
  clean c2 -> follows exact c2 q2 /\ state q2 = bind_pattern p names pattern cp ty (push_scope (state q)).
Proof.
  intros Hg Eq F c1 c2 q1 q2 Hc. destruct (fl_state _ _ _ F Eq) as [Hr R].
  assert (follows exact c1 q1) as F1.
  { unfold q1, live. rewrite Eq. destruct F as [A1 A2 _]. split; simpl; [by rewrite Eq|done|]. intros _. split.
    - etrans; [apply moves_bind_origins|]. etrans; [apply reachable_bind|]. exact Hr.
    - apply related_bind_origins, (scoped_bind p names (related exact)). by apply related_push. }
  assert (state q1 = bind_pattern p names pattern cp ty (push_scope (state q))) as Es by (unfold q1, live; by rewrite Eq).
  unfold c2, q2 in *. destruct guard as [g|]; [|done]. destruct (Hg g eq_refl) as [_ Hst Hsim]. split; [by apply Hsim|]. by rewrite Hst.
Qed.

Lemma follows_later s c c' q : grows c c' -> follows exact (mkCx s (rep c) (drops c)) q -> follows exact (mkCx s (rep c') (drops c')) q.
Proof.
  intros G [A1 A2 A3]. split; [done| |done]. intros E. eapply Forall_impl; [by apply A2|]. intros o. by apply (planned_grows c c').
Qed.

Lemma follows_same_own c c' q : grows c c' -> own c' = own c -> follows exact c q -> follows exact c' q.
Proof. intros G O [A1 A2 A3]. split; [done| |by rewrite O]. intros E. eapply Forall_impl; [by apply A2|]. intros o. by apply planned_grows. Qed.

Lemma follows_arms m cp ty origins arms : Forall sim_arm arms -> forall c q, follows exact c q ->
  let '(ss, c') := in_branches (own c) (map (visited_arm m cp ty origins) arms) c in
  clean c' ->
  (exists s, s ∈ ss /\ follows exact (mkCx s (rep c') (drops c')) (walk_arms p names walk m arms cp ty q)) \/
  (status (walk_arms p names walk m arms cp ty q) <> Running /\ follows exact c' (walk_arms p names walk m arms cp ty q)).
Proof.
  intros Ha. induction Ha as [|arm arms Harm Ha IH]; intros c q F; cbn [in_branches map].
  { intros _. right. simpl. unfold live. destruct (status q) eqn:Eq; rewrite ?Eq; try (by split; [|done]). split; [done|by apply follows_cut]. }
  pose proof (in_branch_spec (visited_arm m cp ty origins arm) (own c) c eq_refl (good_visited_arm m cp ty origins arm)) as (Fr & G1 & O1).
  assert ((in_branch (own c) (visited_arm m cp ty origins arm) c).1 = own (visited_arm m cp ty origins arm c) /\
          rep (in_branch (own c) (visited_arm m cp ty origins arm) c).2 = rep (visited_arm m cp ty origins arm c) /\
          drops (in_branch (own c) (visited_arm m cp ty origins arm) c).2 = drops (visited_arm m cp ty origins arm c)) as (Es & Er & Ed).
  { unfold in_branch. by assert (set_own (own c) c = c) as -> by by destruct c. }
  destruct (in_branch (own c) (visited_arm m cp ty origins arm) c) as [s1 c1]. cbn [fst snd] in *.
  pose proof (in_branches_spec (map (visited_arm m cp ty origins) arms) (own c) c1 O1) as Hb.
  specialize (IH c1). rewrite O1 in IH. destruct (in_branches (own c) (map (visited_arm m cp ty origins) arms) c1) as [ss c2]. cbn [fst snd] in *.
  destruct Hb as (_ & G2 & O2). { apply Forall_map, Forall_true. intros. apply good_visited_arm. }
  intros Hc2. assert (clean c1) as Hc1 by (by eapply good_clean).
  destruct arm as [pattern guard body sp]. destruct Harm as [Hg Hbody]. cbn [walk_arms].
  set (q1 := live (on_state (fun s => bind_pattern p names pattern cp ty (push_scope s))) q).
  set (q2 := match guard with Some g => walk Check g q1 | None => q1 end).
  destruct (decide (status q = Running)) as [Eq|Hn].
  2:{ assert (q1 = q) as E1 by (unfold q1, live; by destruct (status q)).
      assert (q2 = q) as E2 by (unfold q2; rewrite E1; destruct guard; [by apply walk_left|done]).
      right. rewrite E2, choose_left by done. split; [done|]. eapply follows_left; [|done|exact F]. etrans; [apply G1|apply G2]. }
  set (ca := on_own (fun s => bind_pattern_origins p pattern origins (bind_pattern p names pattern cp ty (push_scope s))) c).
  set (cg := match guard with Some g => visit Check g ca | None => ca end).
  set (cb := visit m body cg).
  set (ce := if reachable (own cb) then reports (check_scope_end_escapes (expr_span body)) cb else cb).
  assert (visited_arm m cp ty origins (mkMatchArm pattern guard body sp) c = on_own pop_scope ce) as Ev by (unfold visited_arm, visit_arm, ce, cb, cg, ca; by destruct guard).
  assert (grows cb ce) as Ge by (unfold ce; case_match; [apply good_reports; auto with reports|reflexivity]).
  rewrite Ev in *. assert (clean cb) as Hcb by (eapply grows_clean; [exact Ge|]; by rewrite Er in Hc1).
  assert (clean cg) as Hcg by (eapply good_clean; [apply visit_good|exact Hcb]).
  destruct (follows_arm_head pattern guard cp ty origins c q Hg Eq F Hcg) as [F2 Est]. fold q1 in F2, Est. fold q2 in F2, Est.
  assert (grows cg c1) as Gg.
  { destruct (visit_good p names m body cg) as [[Ga [la Ea]] _]. destruct Ge as [Gb [lb Eb]]. split; [rewrite Er; by etrans|].
    exists (lb ++ la). rewrite Ed. simpl. rewrite Eb. unfold cb. by rewrite Ea, app_assoc. }
  destruct (decide (status q2 = Running)) as [Eq2|Hn2].
  2:{ right. rewrite choose_left by done. split; [done|]. eapply follows_left; [|done|exact F2]. etrans; [exact Gg|apply G2]. }
  unfold choose, live. rewrite Eq2. destruct (choices q2) as [|k ks].
  { right. split; [done|]. apply (follows_left cg); [etrans; [exact Gg|apply G2]|done|by apply follows_cut]. }
  set (q3 := mkPath (state q2) Running ks (seen q2)).
  assert (follows exact cg q3) as F3 by (destruct F2 as [A1 A2 A3]; split; [done|done|]; intros _; by apply A3).
  destruct (k =? 0).
  - destruct (IH (leave_scope q3)) as [(s & Hs & Fs)|Hr]; [|done| |by right].
    + destruct F3 as [A1 A2 A3]. split; simpl; [done| |].
      * intros E. eapply Forall_impl; [by apply A2|]. intros o. by apply planned_grows.
      * intros _. destruct (fl_state _ _ _ F Eq) as [Hr R]. rewrite O1. split; [done|]. rewrite Est. by apply related_unbind.
    + left. exists s. split; [by right|done].
  - left. exists s1. split; [left|]. subst s1. apply (follows_later _ c1); [apply G2|]. rewrite Er, Ed.
    assert (follows exact (on_own pop_scope ce) (leave_scope (walk m body q3))) as Hend.
    { apply follows_arm_end. by apply Hbody. }
    by destruct (on_own pop_scope ce).
Qed.

Lemma walk_arms_left m arms cp ty q : status q <> Running -> walk_arms p names walk m arms cp ty q = q.
Proof.
  intros H. destruct arms as [|[pattern guard body sp] arms]; cbn [walk_arms].
  - unfold live. by destruct (status q).
  - assert (live (on_state (fun s => bind_pattern p names pattern cp ty (push_scope s))) q = q) as -> by (unfold live; by destruct (status q)).
    destruct guard; rewrite ?walk_left by done; by apply choose_left.
Qed.

Lemma match_sim a arms sp : sim_expr a -> Forall sim_arm arms -> sim_expr (EMatch a arms sp).
Proof.
  intros Ha Harms. apply sim_running. intros m c q Eq F. rewrite visit_eq. cbn [visit_node walk_node]. cbv zeta.
  destruct (fl_state _ _ _ F Eq) as [_ R]. rewrite <- (env_copy p names a _ _ (related_env _ _ R)).
  set (cp := expr_is_copy p names a (own c)). set (origins := borrow_origins_from_expr p names a (own c)).
  set (c1 := visit (if cp then Check else Consume) a c). set (q1 := walk (if cp then Check else Consume) a q).
  change (map _ arms) with (map (visited_arm m cp (expr_ty p names a (own c1)) origins) arms).
  set (ty := expr_ty p names a (own c1)).
  pose proof (in_branches_spec (map (visited_arm m cp ty origins) arms) (own c1) c1 eq_refl) as Hb.
  pose proof (follows_arms m cp ty origins arms Harms c1 q1) as Hf.
  destruct (in_branches (own c1) (map (visited_arm m cp ty origins) arms) c1) as [ss c2]. cbn [fst snd] in *.
  destruct Hb as (Fr & G & O). { apply Forall_map, Forall_true. intros. apply good_visited_arm. }
  rewrite <- O in *. intros Hc. assert (clean c2) as Hc2 by (eapply good_clean; [exact (merge_good sp ss c2 Fr)|exact Hc]).
  assert (follows exact c1 q1) as F1 by (apply Ha; [done|]; by eapply good_clean).
  destruct (decide (status q1 = Running)) as [Eq1|Hn].
  2:{ rewrite walk_arms_left by done. eapply follows_left; [|done|exact F1]. etrans; [apply G|apply (merge_good sp ss c2 Fr)]. }
  assert (expr_ty p names a (state q1) = ty) as ->.
  { symmetry. apply env_ty, related_env. apply (fl_state _ _ _ F1 Eq1). }
  destruct (Hf F1 Hc2) as [(s & Hs & Fs)|[Hn Fn]]; [by apply (follows_merge sp ss c2 s)|].
  eapply follows_left; [apply (merge_good sp ss c2 Fr)|done|done].
Qed.

(** ** The other expressions *)

Ltac node := apply sim_running; intros m c q Eq F; rewrite visit_eq; cbn [visit_node walk_node]; cbv zeta.

Lemma literal_sim v sp : sim_expr (ELiteral v sp).
Proof. by node. Qed.

Lemma local_sim name sp : sim_expr (EIdent name sp).
Proof. node. destruct m; [by apply follows_use|]. destruct (get_id p (EIdent name sp)) as [i|]; [by apply follows_take|done]. Qed.

Lemma block_expr_sim b : sim_block b -> sim_expr (EBlock b).
Proof. intros Hb. node. by apply Hb. Qed.

Lemma visit_mode_free m e : mode_free e = true -> visit m e = visit Check e.
Proof. destruct m; [done|]. by destruct e. Qed.

Lemma visit_block_mode m ret b c : unmoved_tail b = true -> visit_block m ret b c = visit_block Check ret b c.
Proof.
  destruct b as [stmts [e|] sp]; intros H; rewrite !visit_block_eq; unfold visit_block_node; [|done]. by rewrite (visit_mode_free m e H).
Qed.

Lemma unsafe_sim b sp : sim_block b -> unmoved_tail b = true -> sim_expr (EUnsafe b sp).
Proof. intros Hb Hm. node. rewrite <- (visit_block_mode m false b c Hm). by apply Hb. Qed.

Lemma sim_each {A} (f : A -> Cx -> Cx) (g : A -> Path -> Path) l : (forall x c, grows c (f x c)) -> Forall (fun x => sim (f x) (g x)) l ->
  sim (for_each f l) (for_each g l).
Proof.
  intros Hg H. unfold for_each. induction H as [|x l Hx H IH]; intros c q F Hc; simpl in *; [done|]. apply IH; [|done]. apply Hx; [done|].
  eapply grows_clean; [apply (for_each_rel grows f l); apply Hg|exact Hc].
Qed.

Lemma if_sim a b o sp : sim_expr a -> sim_block b -> (forall e, o = Some e -> sim_expr e) -> sim_expr (EIf a b o sp).
Proof.
  intros Ha Hb Ho. node. set (g := fun c => match o with Some e => visit m e c | None => c end).
  assert (forall c, good c (g c)) as Hg by (intros c'; unfold g; destruct o; [apply visit_good|reflexivity]).
  assert (forall c, good c (visit_block m false b c)) as Hf by (intros; apply visit_block_good).
  intros Hc. apply (follows_if _ g _ (fun q => match o with Some e => walk m e q | None => q end)); [done|done|apply Hb| | |done].
  - intros c' q' F' Hc'. unfold g in *. destruct o as [e|]; [by apply (Ho e eq_refl)|done].
  - apply Ha; [done|]. eapply good_clean; [exact (good_visit_if _ g sp _ Hf Hg)|exact Hc].
Qed.

Lemma binary_sim op a b sp : sim_expr a -> sim_expr b -> (is_logical op = true -> reads b) -> sim_expr (EBinary op a b sp).
Proof.
  intros Ha Hb Hl. node. destruct (fl_state _ _ _ F Eq) as [_ R]. rewrite <- (env_ty p names a _ _ (related_env _ _ R)).
  match goal with |- context [match ?o with Some method => _ | None => _ end] => destruct o as [method|] end.
  { apply follows_method_call; [done| |done|done]. constructor; [done|constructor]. }
  intros Hc. assert (follows exact (visit Check a c) (walk Check a q)) as F1 by (apply Ha; [done|]; eapply good_clean; [apply visit_good|exact Hc]).
  destruct (is_logical op) eqn:El; [|by apply Hb]. eapply follows_choose; [exact F1|apply visit_good|]. intros k q' Eq' F' _.
  destruct (k =? 0); [|by apply Hb]. eapply follows_silent; [by apply Hl|done].
Qed.

Lemma unary_sim op a sp : sim_expr a -> sim_expr (EUnary op a sp).
Proof. intros Ha. node. by apply Ha. Qed.
Lemma cast_sim a ty sp : sim_expr a -> sim_expr (ECast a ty sp).
Proof. intros Ha. node. by apply Ha. Qed.
Lemma comptime_sim a sp : sim_expr a -> sim_expr (EComptime a sp).
Proof. intros Ha. node. by apply Ha. Qed.
Lemma splice_sim a sp : sim_expr a -> sim_expr (ESplice a sp).
Proof. intros Ha. node. by apply Ha. Qed.
Lemma yield_sim a sp : sim_expr a -> sim_expr (EYield a sp).
Proof. intros Ha. node. by apply Ha. Qed.

Lemma borrow_sim mt a sp : sim_expr a -> sim_expr (EBorrow mt a sp).
Proof.
  intros Ha. node. intros Hc. apply Ha; [|done]. eapply follows_silent; [|exact F]. apply silent_reports. intros s r.
  apply (for_each_rel extends). auto with reports.
Qed.

Lemma tuple_sim items sp : Forall sim_expr items -> sim_expr (ETuple items sp).
Proof. intros H. node. apply sim_each; [intros; apply visit_good| |done]. eapply Forall_impl; [exact H|]. auto. Qed.

Lemma struct_sim ty (fs : list (string * Expr)) sp : Forall (fun f => sim_expr f.2) fs -> sim_expr (EStructLiteral ty fs sp).
Proof.
  intros H. node. apply (sim_each (fun f => visit Consume f.2) (fun f => walk Consume f.2)); [intros; apply visit_good| |done].
  eapply Forall_impl; [exact H|]. auto.
Qed.

Lemma index_sim a args sp : sim_expr a -> Forall sim_expr args -> sim_expr (EIndex a args sp).
Proof.
  intros Ha H. node. assert (sim (for_each (visit Check) args) (for_each (walk Check) args)) as Hs.
  { apply sim_each; [intros; apply visit_good|]. eapply Forall_impl; [exact H|]. auto. }
  intros Hc. apply Hs; [|done]. apply Ha; [done|]. eapply grows_clean; [|exact Hc]. apply (for_each_rel grows). intros. apply visit_good.
Qed.

Lemma field_sim a f sp : sim_expr a -> sim_expr (EField a f sp).
Proof.
  intros Ha. node. destruct m; [by apply Ha|]. destruct (fl_state _ _ _ F Eq) as [_ R]. apply related_env in R.
  rewrite <- (env_ty p names (EField a f sp) _ _ R), <- (env_ty p names a _ _ R).
  case_match; [by apply Ha|]. case_match; [by apply Ha|]. simpl. by rewrite has_errors_error.
Qed.

(** Control leaves through the scopes from [boundary] on. *)
Lemma follows_leave e (boundary : OwnershipState -> nat) c c' q :
  (forall s s', related exact s s' -> boundary s = boundary s') ->
  follows exact c q -> grows c c' -> in_plan (drops c') (Control e) (droppable_locals_up_to (own c) (boundary (own c))) ->
  follows exact c' (leave_at e boundary Exited q).
Proof.
  intros Hb F G Hp. unfold leave_at, live. destruct (status q) eqn:Eq; try (eapply follows_left; [exact G|by rewrite Eq|done]).
  split; simpl; [done| |done]. intros Ex. destruct (fl_state _ _ _ F Eq) as [_ R].
  constructor; [|eapply Forall_impl; [by apply F|]; intros o; by apply planned_grows].
  simpl. by rewrite <- (droppable_up_to_related _ _ _ Ex R), <- (Hb _ _ R).
Qed.

Lemma return_sim o sp : (forall e, o = Some e -> sim_expr e) -> sim_expr (EReturn o sp).
Proof.
  intros Ho. node. set (c1 := match o with Some _ => _ | None => _ end). set (q1 := match o with Some _ => _ | None => _ end).
  intros Hc. assert (clean c1) as Hc1 by (eapply good_clean; [apply good_exit|exact Hc]).
  apply (follows_leave _ (fun _ => 0) c1); [done| |apply good_exit|apply in_plan_record].
  unfold c1, q1 in *. destruct o as [e|]; [|done]. apply (Ho e eq_refl); [|done].
  eapply follows_silent; [|exact F]. apply silent_reports. auto with reports.
Qed.

Lemma try_sim a sp : sim_expr a -> sim_expr (ETry a sp).
Proof.
  intros Ha. node. intros Hc. assert (follows exact (visit Consume a c) (walk Consume a q)) as F1.
  { apply Ha; [done|]. eapply good_clean; [apply good_transfer|exact Hc]. }
  eapply follows_choose; [exact F1|apply good_transfer|]. intros k q' Eq' F' _. destruct (k =? 0).
  - apply (follows_leave _ (fun _ => 0) (visit Consume a c)); [done|done|apply good_transfer|apply in_plan_record].
  - apply (follows_same_own (visit Consume a c)); [apply good_transfer| |done].
    unfold record_drops_at_control_transfer, record_drops. by case_match.
Qed.

Lemma follows_assigned target value sp bs c q : is_ident target = true -> follows exact c q ->
  follows exact (assign_target p names target value sp bs c)
    (match get_id p target with Some i => live (on_state (alter_binding (with_moved None) i)) q | None => q end).
Proof.
  destruct target; try done. intros _ F. cbn [assign_target].
  eapply (follows_silent _ (reports (check_assignment_while_borrowed p _ sp0) c)) in F; [|apply silent_reports; auto with reports].
  destruct (get_id p _) as [i|]; [|exact F]. unfold live.
  destruct (status q) eqn:Eq; try (eapply follows_left; [apply grows_on_own|by rewrite Eq|exact F]).
  destruct F as [A1 A2 A3]. split; simpl; [by rewrite Eq|done|]. intros _. destruct (A3 Eq) as [Hr R]. split; [done|].
  apply related_alter; [|done]. intros b b' (E & _). by split_and!.
Qed.

Lemma silent_assign_target target value sp bs c : is_ident target = false -> silent c (assign_target p names target value sp bs c).
Proof.
  destruct target; try done; intros _; cbn [assign_target]; try reflexivity. destruct (root_place_name _) as [root|]; [|reflexivity].
  etrans; [apply (silent_reports (check_assignment_while_borrowed p root sp)); auto with reports|]. repeat case_match; try reflexivity. apply silent_alter_borrows. eauto.
Qed.

Lemma assign_sim a b sp : sim_expr a -> sim_expr b -> sim_expr (EAssign a b sp).
Proof.
  intros Ha Hb. node. destruct (is_ident a) eqn:Ei.
  - intros Hc. apply follows_assigned; [done|]. apply Hb; [done|]. eapply good_clean; [apply good_assign_target|exact Hc].
  - intros Hc. apply Ha; [|done]. eapply follows_silent; [by apply silent_assign_target|]. apply Hb; [by eapply follows_silent; [apply silent_store_borrows|]|].
    eapply good_clean; [apply (good_assign_target p names a b sp)|]. eapply good_clean; [apply visit_good|exact Hc].
Qed.

(** A task is spawned on a call: its arguments are those of the call. *)
Lemma spawn_sim a tys args sp sp' : sim_expr a -> Forall sim_expr args -> sim_expr (ESpawn (ECall a tys args sp) sp').
Proof.
  intros Ha Hargs. node. set (c1 := reports _ c).
  assert (silent c c1) as Hs by (apply silent_reports; intros; apply (for_each_rel extends); auto with reports).
  assert (follows exact c1 q) as F1 by (by eapply follows_silent).
  destruct (fl_state _ _ _ F1 Eq) as [_ R]. pose proof (env_get p a _ _ (related_env _ _ R)) as Eg.
  assert ((id <$> get p a (own c1)) = (id <$> get p a (state q))) as Ei.
  { destruct (get p a (own c1)), (get p a (state q)); simplify_eq/=; congruence. }
  rewrite <- Ei. set (mode := if is_ident a && _ then Consume else Check). intros Hc. apply follows_args_after; [done| |exact Hc].
  apply Ha; [done|]. eapply good_clean; [|exact Hc]. apply good_args_after; [reflexivity|]. apply Forall_true. intros. apply visit_good.
Qed.

(** The state in which a closure's body starts *)
Definition closure_entry (params : list ClosureParam) (s : OwnershipState) : OwnershipState :=
  for_each
    (fun param =>
       let 'mkClosureParam pattern ty _ := param in
       bind_pattern p names pattern (match ty with Some ty => ty_is_copy ty names | None => true end) ty)
    params (push_scope s).

Lemma related_closure_entry params s s' : related exact s s' -> related exact (closure_entry params s) (closure_entry params s').
Proof.
  intros R. apply (for_each_rel2 (related exact)); [|by apply related_push]. apply Forall_true. intros [pattern ty sp] s1 s1' R1.
  by apply (scoped_bind p names (related exact)).
Qed.

Lemma closure_sim params a sp : sim_expr a -> sim_expr (EClosure params a sp).
Proof.
  intros Ha. node. unfold check_closure. cbv zeta. fold (closure_entry params).
  destruct (fl_state _ _ _ F Eq) as [Hr R]. rewrite <- (env_captures p a _ _ (related_env _ _ R)).
  set (ids := closure_captures p a (own c)). clearbody ids. unfold in_branch. assert (set_own (own c) c = c) as -> by by destruct c.
  set (c1 := on_own _ c). intros Hc. apply follows_takes; [|exact Hc].
  assert (clean (set_own (own c) (visit Check a c1))) as Hc1 by (eapply good_clean; [apply (captures_good ids sp)|exact Hc]).
  unfold walk_closure, live. rewrite Eq. fold (closure_entry params). cbv zeta. set (q1 := on_state (closure_entry params) q).
  assert (follows exact c1 q1) as F1.
  { destruct F as [A1 A2 A3]. split; simpl; [by rewrite Eq|done|]. intros _. split; [done|]. apply (related_same (closure_entry params (own c))); [done..|].
    by apply related_closure_entry. }
  destruct (Ha Check c1 q1 F1 Hc1) as [B1 B2 B3]. split; simpl; [by destruct (status (walk Check a q1))|done|]. intros _. by split.
Qed.

(** ** The whole of the covered language *)

Abbreviation within := (covered p (negb exact)).
Abbreviation within_block := (covered_block p (negb exact)).
Abbreviation within_stmt := (covered_stmt p (negb exact)).

Definition expr_follows (e : Expr) : Prop := within e = true -> sim_expr e.
Definition block_follows (b : Block) : Prop := within_block b = true -> sim_block b.

(** The parts that a spawned call and a loop look into *)
Definition parts_sound (e : Expr) : Prop :=
  match e with
  | ECall a _ args _ => expr_follows a /\ Forall expr_follows args
  | EIf _ b _ _ => block_follows b
  | _ => True
  end.
Definition expr_sound (e : Expr) : Prop := expr_follows e /\ parts_sound e.
Definition stmt_sound (st : Stmt) : Prop := (within_stmt st = true -> sim_stmt st) /\ match st with SExpr e => parts_sound e | _ => True end.
Definition block_sound (b : Block) : Prop := block_follows b /\ match b with mkBlock [SExpr e] None _ => parts_sound e | _ => True end.
Definition arm_sound (arm : MatchArm) : Prop := let 'mkMatchArm _ _ body _ := arm in expr_sound body.

Lemma all_sound args : Forall expr_sound args -> all_of within args = true -> Forall sim_expr args.
Proof. intros H Hc%all_of_Forall. rewrite Forall_forall in *. intros e He. apply H; [done|]. by apply Hc. Qed.

Lemma any_sound o : (forall e, o = Some e -> expr_sound e) -> if_any within o = true -> forall e, o = Some e -> sim_expr e.
Proof. intros H Hc e ->. by apply H. Qed.

Lemma simple_covered : forall e, simple p e = true -> within e = true.
Proof.
  fix IH 1. intros e He. destruct e; try discriminate He; try done; simpl in He |- *; try (by apply IH).
  apply andb_true_iff in He as [[_ H1]%andb_true_iff H2]. rewrite (IH _ H1). destruct (is_logical op); [done|by apply IH].
Qed.

Ltac split_covered := repeat match goal with H : _ && _ = true |- _ => apply andb_true_iff in H as [? ?] end.

Ltac sound :=
  intros; parts; try (split; [|exact I]); intros Hcov; cbn [covered] in Hcov; split_covered;
  repeat match goal with
  | H : expr_sound _ |- _ => destruct H as [H ?]
  | H : block_sound _ |- _ => destruct H as [H ?]
  | H : Forall expr_sound ?l, Hc : context [all_of] |- _ => apply (all_sound l) in H; [|exact Hc]
  end.

Lemma match_sound a arms sp : expr_sound a -> Forall arm_sound arms -> expr_sound (EMatch a arms sp).
Proof.
  intros [Ha _] Harms. split; [|done]. intros [Hc Hcs%all_of_Forall]%andb_true_iff. apply match_sim; [by apply Ha|].
  rewrite Forall_forall in *. intros [pattern guard body sp'] Hin. specialize (Hcs _ Hin). specialize (Harms _ Hin). simpl in Hcs.
  apply andb_true_iff in Hcs as [Hg Hb]. split; [|by apply Harms]. intros g ->. by apply simple_reads.
Qed.

Lemma call_sound a tys args sp : expr_sound a -> Forall expr_sound args -> expr_sound (ECall a tys args sp).
Proof.
  intros [Ha _] Hargs. split; [|split; [done|eapply Forall_impl; [exact Hargs|]; by intros e []]].
  intros [Hc Hcs]%andb_true_iff. apply call_sim; [by apply Ha|by apply all_sound].
Qed.

Lemma spawn_sound a sp : expr_sound a -> expr_sound (ESpawn a sp).
Proof.
  intros [_ Ha]. split; [|done]. destruct a; try discriminate. destruct Ha as [Ha Hargs].
  intros [Hc Hcs]%andb_true_iff. apply spawn_sim; [by apply Ha|]. apply all_of_Forall in Hcs. rewrite Forall_forall in *. intros e He. by apply Hargs, Hcs.
Qed.

Lemma struct_sound ty (fs : list (string * Expr)) sp : Forall (fun f => expr_sound f.2) fs -> expr_sound (EStructLiteral ty fs sp).
Proof.
  intros H. split; [|done]. intros Hc%all_of_Forall. apply struct_sim. rewrite Forall_forall in *. intros f Hf. apply H; [done|]. by apply Hc.
Qed.

Lemma block_sound_case stmts tail sp : Forall stmt_sound stmts -> (forall e, tail = Some e -> expr_sound e) -> block_sound (mkBlock stmts tail sp).
Proof.
  intros Hst Ht. split.
  2:{ destruct stmts as [|[l|e|i] [|st stmts]]; try done. destruct tail; [done|]. by inversion Hst as [|? ? [_ H] _]. }
  intros [Hs%all_of_Forall Hc]%andb_true_iff. apply block_sim; [|by apply any_sound]. rewrite Forall_forall in *. intros st Hin. apply Hst; [done|]. by apply Hs.
Qed.

Lemma loop_sound b sp : block_sound b -> expr_sound (ELoop b sp).
Proof.
  intros [Hb Hp]. split; [|done]. intros [Ex Hc]%andb_true_iff. apply negb_true_iff in Ex.
  assert (within_block b = true -> sim_expr (ELoop b sp)) as Hplain by (intros H; apply loop_sim; [done|by apply Hb]).
  destruct b as [[|[l|e|i] stmts] tail bsp]; try (by apply Hplain). destruct e; try (destruct stmts, tail; by apply Hplain).
  destruct else_branch as [eb|]; [|destruct stmts, tail; by apply Hplain]. destruct eb; try (destruct stmts, tail; by apply Hplain).
  destruct value, stmts, tail; try (by apply Hplain).
  apply andb_true_iff in Hc as [Ha Hc]. apply break_loop_sim; [done|done|by apply Hp].
Qed.

Lemma while_sound a b sp : block_sound b -> expr_sound (EWhile a b sp).
Proof. intros [Hb _]. split; [|done]. intros [[Ex Ha]%andb_true_iff Hc]%andb_true_iff. apply while_sim; [by apply negb_true_iff|done|by apply Hb]. Qed.

Lemma if_sound a b o sp : expr_sound a -> block_sound b -> (forall e, o = Some e -> expr_sound e) -> expr_sound (EIf a b o sp).
Proof.
  intros [Ha _] [Hb _] Ho. split; [|done]. intros [[Hca Hcb]%andb_true_iff Hco]%andb_true_iff. apply if_sim; [by apply Ha|by apply Hb|by apply any_sound].
Qed.

Lemma binary_sound op a b sp : expr_sound a -> expr_sound b -> expr_sound (EBinary op a b sp).
Proof.
  intros [Ha _] [Hb _]. split; [|done]. intros [Hca Hcb]%andb_true_iff. destruct (is_logical op) eqn:El.
  - apply binary_sim; [by apply Ha|by apply Hb, simple_covered|]. intros _. by apply simple_reads.
  - apply binary_sim; [by apply Ha|by apply Hb|congruence].
Qed.

Lemma soundness : (forall e, expr_sound e) /\ (forall b, block_sound b).
Proof.
  cut ((forall e, expr_sound e) /\ (forall b, block_sound b) /\ (forall s, stmt_sound s) /\ (forall l, stmt_sound (SLet l)) /\
    (forall a, arm_sound a) /\ (forall c : ClosureParam, True) /\ (forall a : SelectArm, True) /\ (forall q : QuoteBody, True) /\
    (forall t : Ty, True) /\ (forall k : GenericParamKind, True) /\ (forall g : GenericParam, True) /\ (forall q : Param, True) /\
    (forall d : FnDecl, True) /\ (forall d : FnSignature, True) /\ (forall c : ConstDecl, True) /\ (forall d : FieldDecl, True) /\
    (forall d : AssocTypeDecl, True) /\ (forall d : StructDecl, True) /\ (forall v : VariantFields, True) /\ (forall v : EnumVariant, True) /\
    (forall d : EnumDecl, True) /\ (forall d : TraitDecl, True) /\ (forall d : MethodsBlock, True) /\ (forall d : ExternBlock, True) /\
    (forall i : Item, True)); [tauto|].
  apply Syntax_ind; try done; try (sound; try done;
    auto using literal_sim, local_sim, block_expr_sim, unsafe_sim, unary_sim, cast_sim, comptime_sim, splice_sim, yield_sim, borrow_sim,
      try_sim, assign_sim, field_sim, closure_sim, method_sim, associated_sim, index_sim, tuple_sim, stmt_expr_sim; fail);
    intros; parts; auto using match_sound, call_sound, spawn_sound, struct_sound, block_sound_case, loop_sound, while_sound, if_sound, binary_sound.
  - split; [|done]. intros Hc. by apply return_sim, any_sound.
  - match goal with H : expr_sound _ |- _ => destruct H as [H Hp] end. split; [|done]. intros Hc. by apply stmt_expr_sim, H.
  - split; [|done]. by intros _ uses c q F Hc.
  - split; [|done]. intros Hc. by apply let_sim, any_sound.
Qed.
End Steps.
End Follow.

(** ** Functions and modules *)

(** The program against which the functions of a module are checked *)
Definition module_program (m : Module) (imports : list (string * Module)) (typed : option (Expr -> option Type_)) : Program :=
  let p := from_module_with_imports m imports in match typed with Some tys => set_expr_types tys p | None => p end.

(** One path through the body, from the parameters *)
Definition function_path (p : Program) (f : FnDecl) (self_ty : option string) (choices : list nat) : Path :=
  walk_block p (function_copy_names p f self_ty) Check (fn_body f) (start_path (entry_state p f self_ty) choices).

Lemma extends_lifetime p f r : extends r (check_lifetime_signature p f r).2.
Proof. unfold check_lifetime_signature. reporting. Qed.

Lemma check_function_visit p f self_ty r d : exists ret r0, extends r r0 /\
  check_function f self_ty p r d =
  let c := Borrow.visit_block p (function_copy_names p f self_ty) Check ret (fn_body f) (mkCx (entry_state p f self_ty) r0 d) in (rep c, drops c).
Proof.
  pose proof (extends_lifetime p f r) as H. unfold check_function, fn_body. destruct f.
  destruct (check_lifetime_signature _ _ _) as [reported r0]. eauto.
Qed.

Lemma grows_check_function p s f self_ty r d : grows (mkCx s r d) (let '(r, d) := check_function f self_ty p r d in mkCx s r d).
Proof.
  destruct (check_function_visit p f self_ty r d) as (ret & r0 & E & ->). cbv zeta.
  destruct (visit_block_good p (function_copy_names p f self_ty) Check ret (fn_body f) (mkCx (entry_state p f self_ty) r0 d)) as [[G1 G2] _].
  split; [simpl; by etrans|done].
Qed.

Lemma entry_reachable p f self_ty : reachable (entry_state p f self_ty) = true.
Proof.
  unfold entry_state. destruct f. generalize (push_scope OwnershipState_new) (eq_refl : reachable (push_scope OwnershipState_new) = true). unfold for_each.
  induction params as [|q params IH]; intros s Hs; simpl; [done|]. apply IH. case_match; try done. etrans; [apply reachable_define|exact Hs].
Qed.

Lemma follows_start exact s r d choices : reachable s = true -> follows exact (mkCx s r d) (start_path s choices).
Proof.
  intros Hs. split; [done|done|]. intros _. split; [done|]. split; [|done]. simpl. apply lift_lookup. split; [done|].
  intros i k. destruct (branch_binding s i k); constructor. by split_and!.
Qed.

Lemma function_follows exact p f self_ty r d choices :
  covered_block p (negb exact) (fn_body f) = true -> has_errors (check_function f self_ty p r d).1 = false ->
  exists c, drops c = (check_function f self_ty p r d).2 /\ follows exact c (function_path p f self_ty choices).
Proof.
  intros Hc. destruct (check_function_visit p f self_ty r d) as (ret & r0 & E & ->). cbv zeta. simpl. intros Hr.
  eexists. split; [reflexivity|]. apply soundness; [done| |done]. apply follows_start, entry_reachable.
Qed.

(** The other functions of the module only add to reports and plan. *)
Lemma functions_follow exact p fs r d f self_ty choices :
  let '(r', d') := for_each (fun '(f, self_ty) '(r, d) => check_function f self_ty p r d) fs (r, d) in
  has_errors r' = false -> (f, self_ty) ∈ fs -> covered_block p (negb exact) (fn_body f) = true ->
  exists c, drops c = d' /\ follows exact c (function_path p f self_ty choices).
Proof.
  unfold for_each. revert r d.
  assert (forall fs r d s, grows (mkCx s r d) (let '(r, d) := fold_left (fun x a => (fun '(f, self_ty) '(r, d) => check_function f self_ty p r d) a x) fs (r, d) in mkCx s r d)) as Hg.
  { clear. intros fs. induction fs as [|[f self_ty] fs IH]; intros r d s; simpl; [reflexivity|].
    pose proof (grows_check_function p s f self_ty r d) as H. destruct (check_function f self_ty p r d) as [r1 d1]. etrans; [exact H|apply IH]. }
  induction fs as [|[g gty] fs IH]; intros r d; simpl; [by intros _ Hin%elem_of_nil|].
  pose proof (function_follows exact p f self_ty r d choices) as Hf.
  destruct (check_function g gty p r d) as [r1 d1] eqn:E1. specialize (IH r1 d1). specialize (Hg fs r1 d1).
  destruct (fold_left _ fs (r1, d1)) as [r2 d2]. intros Hr Hin Hc. apply elem_of_cons in Hin as [[= <- <-]|Hin]; [|by apply IH].
  rewrite E1 in Hf. simpl in Hf. destruct Hf as (c & Ed & F); [done|by eapply (grows_clean _ _ (Hg (own (mkCx (entry_state p f self_ty) r1 d1))))|].
  exists (mkCx (own c) (rep c) d2). split; [done|]. destruct F as [A1 A2 A3]. split; [done| |done]. intros Ex. eapply Forall_impl; [by apply A2|].
  intros o. rewrite Ed. apply (planned_grows (mkCx (own c) r1 d1) (mkCx (own c) r2 d2)). apply Hg.
Qed.

(** An accepted module has a clean report. *)
Lemma accepted_follows exact m imports typed r d r' f self_ty choices :
  analyze_typed_module m imports typed r = (inl d, r') -> (f, self_ty) ∈ checked_functions m ->
  covered_block (module_program m imports typed) (negb exact) (fn_body f) = true ->
  exists c, drops c = d /\ follows exact c (function_path (module_program m imports typed) f self_ty choices).
Proof.
  unfold analyze_typed_module, run_checks. cbv zeta. fold (module_program m imports typed).
  pose proof (functions_follow exact (module_program m imports typed) (checked_functions m) r [] f self_ty choices) as H.
  destruct (for_each _ _ _) as [r1 d1]. destruct (has_errors r1) eqn:E; [done|]. intros [= <- <-]. by apply H.
Qed.


(** What the checker records for the functions without loops of an accepted
    module: at the end of every block a path reaches, and at every [return] and
    [?] through which it leaves, if the path still owns locals with a
    destructor there, an entry of the plan lists them, the latest first, and no
    other.  Entries are those ever recorded (the map of the source keeps the
    last one of a point), where the path owns nothing the plan may have any
    entry, and the local that a block returns counts as owned at its end, as it
    does for the checker. *)
Theorem accepted_drop_plan_exact m imports typed r d r' f self_ty choices :
  analyze_typed_module m imports typed r = (inl d, r') -> (f, self_ty) ∈ checked_functions m ->
  covered_block (module_program m imports typed) false (fn_body f) = true ->
  Forall (planned d) (seen (function_path (module_program m imports typed) f self_ty choices)).
Proof.
  intros Ha Hf Hc. destruct (accepted_follows true _ _ _ _ _ _ _ _ choices Ha Hf Hc) as (c & <- & [_ H _]). by apply H.
Qed.
