(* ===== verification/BorrowExamples.v ===== *)
(** Programs in text, through the parser and the borrow checker.

    First a program that the theorems of [BorrowSound] apply to.  Then programs
    outside the covered language that the checker accepts although a path
    through them goes wrong: what [covered] leaves out, it leaves out for a
    reason. *)
From S2P Require Import Prelude Span Diag TypeLayout Types Ast Visit Core FmtGaps Resolve BorrowTypes BorrowState BorrowEscape Borrow BorrowFrame BorrowPaths BorrowSound.

Open Scope nat_scope.
Open Scope string_scope.

Ltac evaluated :=
  repeat (lazymatch goal with |- _ = _ => fail | _ => split end); lazymatch goal with |- _ = ?b => vm_cast_no_check (eq_refl b) end.

Definition module_of (src : string) : Module := default (mkModule None [] (mkSpan FileId_ROOT 0 0)) (read_clean src).

Definition analysis (src : string) : (list (ExitPoint * list LocalId) + BorrowError) * Reporter :=
  analyze_typed_module (module_of src) [] None Reporter_new.

(** The text is read and accepted without a diagnostic. *)
Definition accepted (src : string) : bool :=
  bool_decide (is_Some (read_clean src)) && match analysis src with (inl _, r) => match diagnostics r with [] => true | _ => false end | _ => false end.

Definition no_fn : FnDecl :=
  let sp := mkSpan FileId_ROOT 0 0 in mkFnDecl "" None [] [] None (mkBlock [] None sp) false false false false None [] sp.

(** The last function of the text *)
Definition last_fn (src : string) : FnDecl * option string := default (no_fn, None) (last (checked_functions (module_of src))).

Definition last_path (src : string) (choices : list nat) : Path :=
  let '(f, self_ty) := last_fn src in function_path (module_program (module_of src) [] None) f self_ty choices.

Definition boxes : string :=
  "struct Box { value: i64 } fn consume(b: Box) {} fn take(b: Box) -> bool { true } fn make() -> Box { Box { value: 1 } } ".

Definition sample : string :=
  boxes ++
  "fn f(c: bool, n: i64, x: Box, y: Box) -> Box {
     for i in 0..n { let z: Box = make(); if i == 2 { consume(z); } else { take(z); } }
     let mut w: Box = make();
     while n < 3 { consume(w); w = make(); }
     match n { 0 => { consume(x); return w; }, k => { if c && k == 1 { consume(x); } else { consume(x); } } }
     let g = || { print(y.value); };
     w
   }".

Definition straight : string :=
  boxes ++
  "fn f(c: bool, n: i64, x: Box, y: Box) -> Box {
     let w: Box = make();
     match n { 0 => { consume(x); return w; }, k => { let v: Box = make(); if c && k == 1 { consume(x); } else { consume(x); } } }
     let g = || { print(y.value); };
     w
   }".

Definition plan_of (src : string) : list (ExitPoint * list LocalId) := match analysis src with (inl d, _) => d | _ => [] end.

Lemma last_fn_checked src : checked_functions (module_of src) <> [] -> ((last_fn src).1, (last_fn src).2) ∈ checked_functions (module_of src).
Proof.
  intros H. rewrite <- surjective_pairing. unfold last_fn. destruct (last (checked_functions (module_of src))) as [f|] eqn:E; [|by apply last_None in E].
  rewrite last_lookup in E. by eapply list_elem_of_lookup_2.
Qed.


Lemma accepted_drop_plan_exact_witness :
  Forall (planned (plan_of straight)) (seen (function_path (module_program (module_of straight) [] None) (last_fn straight).1 (last_fn straight).2 [0;1;1;1])).
Proof.
  apply (accepted_drop_plan_exact (module_of straight) [] None Reporter_new (plan_of straight) (snd (analysis straight))).
  - vm_compute. reflexivity.
  - apply last_fn_checked. by vm_compute.
  - vm_compute. reflexivity.
Defined.

(** Both paths run to the end of the function. *)
Example samples_run :
  (accepted sample, status (last_path sample [1;1;1;1;1;0;1;0;1;0;0;1;1;1])) = (true, Running) /\
  (accepted straight, status (last_path straight [0;1;1;1])) = (true, Running) /\
  (accepted straight, status (last_path straight [1])) = (true, Exited).
Proof. evaluated. Qed.

(** ** Accepted, and wrong on a path *)

Definition accepted_wrong (src : string) (choices : list nat) : Prop :=
  accepted (boxes ++ src) = true /\ status (last_path (boxes ++ src) choices) = Wrong.

(** A move on the way to [break] or [continue] is forgotten, because the branch
    is unreachable at its end; so is a move in the condition of [while], which
    is checked once.  The value is used again after the loop, or in the next
    round. *)
Theorem loop_moves_forgotten :
  accepted_wrong "fn main(c: bool, x: Box) { loop { if c { consume(x); break; } } consume(x); }" [1;1;1] /\
  accepted_wrong "fn main(c: bool, x: Box) { for i in 0..3 { if c { consume(x); break; } } consume(x); }" [1;1;1] /\
  accepted_wrong "fn main(c: bool, x: Box) { while c { if c { consume(x); continue; } } }" [1;1;1;1] /\
  accepted_wrong "fn main(x: Box) { while take(x) { } }" [1;1].
Proof. evaluated. Qed.

(** The guard of an arm runs before later arms, and the right operand of a
    logical operator may not run: the checker forgets the moves of the first
    and believes the assignments of the second.  The block of [unsafe] only
    reads its value. *)
Theorem conditional_moves_forgotten :
  accepted_wrong "fn main(n: i64, x: Box) { match n { k if take(x) => print(k), k => consume(x), } }" [0;1] /\
  accepted_wrong "fn main(c: bool, x: Box) { let mut y: Box = x; consume(y); let z: bool = c && { y = make(); true }; consume(y); }" [0] /\
  accepted_wrong "fn main(x: Box) { consume(unsafe { x }); consume(x); }" [].
Proof. evaluated. Qed.

(** The value an arm of [select] receives is no local of the checker; and the
    arms are checked as if they ran one after the other, so that nothing after
    a [select] with an arm that returns is checked. *)
Theorem select_unchecked :
  accepted_wrong "fn main(rx: Receiver<Box>) { select { v = rx.recv() => { consume(v); consume(v); }, default => { } } }" [1] /\
  accepted_wrong "fn main(rx: Receiver<Box>, x: Box) { select { v = rx.recv() => { return; }, default => { } } consume(x); consume(x); }" [0].
Proof. evaluated. Qed.

(** ** Borrows that are lost

    A borrow taken in a branch is not kept by the merge; without the branch the
    same program is rejected.  The uses in the tail of an arm of [select] do
    not keep a borrow alive. *)
Theorem branch_borrows_lost :
  accepted (boxes ++ "fn main(c: bool, a: Box, b: Box) { let mut r: &Box = &a; if c { r = &b; } consume(b); print(r.value); }") = true /\
  accepted (boxes ++ "fn main(c: bool, a: Box, b: Box) { let mut r: &Box = &a; r = &b; consume(b); print(r.value); }") = false /\
  accepted (boxes ++ "fn main(rx: Receiver<i64>, x: Box) { let r: &Box = &x; select { v = rx.recv() => { consume(x); print(r.value) }, default => { } } }") = true /\
  accepted (boxes ++ "fn main(rx: Receiver<i64>, x: Box) { let r: &Box = &x; consume(x); print(r.value) }") = false.
Proof. evaluated. Qed.

(** The value of a function's body is read and not moved: the plan drops the
    local that is returned, and a field is moved out of a reference, which
    [return] rejects. *)
Theorem returned_values_not_moved :
  map snd (plan_of (boxes ++ "fn main() -> Box { let w: Box = make(); w }")) = [[2]] /\
  map snd (plan_of (boxes ++ "fn main() -> Box { let w: Box = make(); return w; }")) = [] /\
  accepted (boxes ++ "struct Pair { left: Box, right: Box } fn main(p: &Pair) -> Box { p.left }") = true /\
  accepted (boxes ++ "struct Pair { left: Box, right: Box } fn main(p: &Pair) -> Box { return p.left; }") = false.
Proof. evaluated. Qed.
