(* ===== verification/BuildCache.v ===== *)
(** The build cache behind [paco run]: [compiler/paco-driver/src/cache.rs].

    [index/<key>] is the manifest of the last build of an entry file, with the
    files it read, their hashes and its output key; [bin/<output>] is the
    binary.  The two directories are finite maps from file names to what the
    code reads of a file ([Dirs]); a text is its bytes.  Hashing is the
    [twox_hash] library's and a parameter, as are the files of the program
    ([World]) and the suffix of executables.

    A manifest that was written reads back ([manifest_roundtrip]); a published
    build is found again exactly as long as its inputs are unchanged
    ([publish_lookup]); pruning removes the least recently used entries until
    the cache fits, and no binary that an entry left in the index needs
    ([prune_lru], [prune_keeps_binaries]). *)
From S2P Require Import Prelude Text.

Open Scope Z_scope.

Abbreviation bytes := (list Z) (only parsing).

(** ** Text *)

Definition hex_digit (d : Z) : Z := if d <? 10 then 48 + d else 87 + d.

(** [{byte:02x}] *)
Definition hex_byte (b : Z) : bytes := [hex_digit (b / 16); hex_digit (b mod 16)].

(** [{value:032x}]; [n] digits *)
Fixpoint hex_digits (n : nat) (value : Z) : bytes :=
  match n with O => [] | S n => hex_digit ((value / 16 ^ Z.of_nat n) mod 16) :: hex_digits n value end.

Definition hex (value : Z) : bytes := hex_digits 32 value.

Definition digit16 (c : Z) : option Z :=
  if (48 <=? c) && (c <=? 57) then Some (c - 48)
  else if (97 <=? c) && (c <=? 102) then Some (c - 87)
  else if (65 <=? c) && (c <=? 70) then Some (c - 55)
  else None.

Fixpoint radix16 (max acc : Z) (s : bytes) : option Z :=
  match s with
  | [] => Some acc
  | c :: s => d ← digit16 c; if 16 * acc + d <=? max then radix16 max (16 * acc + d) s else None
  end.

(** [from_str_radix(s, 16)] of an unsigned type with the greatest value [max] *)
Definition from_str_radix (max : Z) (s : bytes) : option Z :=
  match s with
  | [] | [43] => None
  | 43 :: s => radix16 max 0 s
  | _ => radix16 max 0 s
  end.

Definition encode_bytes (bs : bytes) : bytes := concat (map hex_byte bs).

Fixpoint decode_bytes (text : bytes) : option bytes :=
  match text with
  | [] => Some []
  | a :: b :: text => x ← from_str_radix 255 [a; b]; rest ← decode_bytes text; Some (x :: rest)
  | [_] => None
  end.

(** [str::lines]: a line feed ends a line, with a carriage return before it *)
Definition strip_cr (rev_line : bytes) : bytes := match rev_line with 13 :: l => rev l | l => rev l end.

Fixpoint lines_from (rev_line text : bytes) : list bytes :=
  match text with
  | [] => match rev_line with [] => [] | _ => [rev rev_line] end
  | c :: text => if c =? 10 then strip_cr rev_line :: lines_from [] text else lines_from (c :: rev_line) text
  end.

Definition lines (text : bytes) : list bytes := lines_from [] text.

Fixpoint strip_bytes (prefix s : bytes) : option bytes :=
  match prefix, s with
  | [], s => Some s
  | p :: prefix, c :: s => if p =? c then strip_bytes prefix s else None
  | _ :: _, [] => None
  end.

Definition strip_end (suffix s : bytes) : option bytes := (@rev Z) <$> strip_bytes (rev suffix) (rev s).

Fixpoint split_once (sep : Z) (s : bytes) : option (bytes * bytes) :=
  match s with
  | [] => None
  | c :: s => if c =? sep then Some ([], s) else '(l, r) ← split_once sep s; Some (c :: l, r)
  end.

(** ** Manifests *)

Record Input := mkInput { in_path : bytes; in_directory : bool; in_hash : Z }.
Record Manifest := mkManifest { mf_output : bytes; mf_inputs : list Input; mf_stdout : bytes; mf_stderr : bytes }.

Definition text_of (s : string) : bytes := chars s.

(** [path.display()] replaces what is not UTF-8 in a path; paths here are text, on
    one line where they are read back. *)
Definition render_input (i : Input) : bytes :=
  text_of (if in_directory i then "dir " else "file ") ++ hex (in_hash i) ++ [32] ++ in_path i ++ [10].

Definition render (m : Manifest) : bytes :=
  text_of "paco-cache 1" ++ [10] ++ text_of "output " ++ mf_output m ++ [10] ++ concat (map render_input (mf_inputs m)) ++
  text_of "stdout " ++ encode_bytes (mf_stdout m) ++ [10] ++ text_of "stderr " ++ encode_bytes (mf_stderr m) ++ [10].

Definition u128_max : Z := 2 ^ 128 - 1.

(** [String::from_utf8(decode(rest)?).ok()?] *)
Definition decode_text (rest : bytes) : option bytes := s ← decode_bytes rest; if from_utf8 s then Some s else None.

Definition parse_line (m : Manifest) (line : bytes) : option Manifest :=
  let '(kind, rest) := default (line, []) (split_once 32 line) in
  let is_dir := bool_decide (kind = text_of "dir") in
  if bool_decide (kind = text_of "file") || is_dir then
    '(hash, path) ← split_once 32 rest;
    hash ← from_str_radix u128_max hash;
    Some (mkManifest (mf_output m) (mf_inputs m ++ [mkInput path is_dir hash]) (mf_stdout m) (mf_stderr m))
  else if bool_decide (kind = text_of "stdout") then
    text ← decode_text rest; Some (mkManifest (mf_output m) (mf_inputs m) text (mf_stderr m))
  else if bool_decide (kind = text_of "stderr") then
    text ← decode_text rest; Some (mkManifest (mf_output m) (mf_inputs m) (mf_stdout m) text)
  else None.

Fixpoint parse_lines (m : Manifest) (ls : list bytes) : option Manifest :=
  match ls with [] => Some m | line :: ls => m ← parse_line m line; parse_lines m ls end.

Definition parse (text : bytes) : option Manifest :=
  match lines text with
  | first :: second :: rest =>
      if bool_decide (first = text_of "paco-cache 1") then
        output ← strip_bytes (text_of "output ") second; parse_lines (mkManifest output [] [] []) rest
      else None
  | _ => None
  end.

(** ** The cache *)

Record Policy := mkPolicy { max_age : Z; max_size : Z; prune_interval : Z; touch_interval : Z }.

(** In seconds and bytes *)
Definition Policy_default : Policy := mkPolicy (30 * 24 * 60 * 60) (2 ^ 30) (24 * 60 * 60) (60 * 60).

(** What the code reads of a file: the text of a manifest, if it is UTF-8, or
    the size of a binary, and when it was modified *)
Record IndexFile := mkIndexFile { if_text : option bytes; if_size : Z; if_modified : Z }.
Record BinFile := mkBinFile { bf_size : Z; bf_modified : Z }.

(** [index/], [bin/] and the time of [last-prune] *)
Record Dirs := mkDirs { d_index : gmap bytes IndexFile; d_bin : gmap bytes BinFile; d_marker : option Z }.

(** The files that builds read: contents, and the names in a directory *)
Record World := mkWorld { w_read : bytes -> option bytes; w_list : bytes -> option (list bytes); w_canonical : bytes -> option bytes }.

Record Key := mkKey { k_compiler : bytes; k_settings : list bytes }.
Record Entry := mkEntry { e_binary : bytes; e_stdout : bytes; e_stderr : bytes }.

Section Cache.
Context (oneshot : bytes -> Z) (exe : bytes) (policy : Policy).

Definition text_leb (a b : bytes) : bool := match list_cmp Z.compare a b with Gt => false | _ => true end.

Fixpoint join_lines (l : list bytes) : bytes := match l with [] => [] | [x] => x | x :: l => x ++ [10] ++ join_lines l end.

Definition listing_hash (w : World) (path : bytes) : option Z :=
  names ← w_list w path;
  let names := List.filter (fun name => match strip_end (text_of ".paco") name with Some _ => true | None => false end) names in
  Some (oneshot (join_lines (stable_sort text_leb names))).

Definition Input_file (path contents : bytes) : Input := mkInput path false (oneshot contents).
Definition Input_directory (w : World) (path : bytes) : Input := mkInput path true (default 0 (listing_hash w path)).

Definition current_hash (w : World) (i : Input) : option Z :=
  if in_directory i then listing_hash w (in_path i) else oneshot <$> w_read w (in_path i).

(** Writes to a hasher are hashed as one text. *)
Definition index (w : World) (k : Key) (entry : bytes) : bytes :=
  let canonical := default entry (w_canonical w entry) in
  hex (oneshot (concat (map (fun part => part ++ [0]) (k_compiler k :: canonical :: entry :: k_settings k)))).

Definition le_bytes (n : nat) (value : Z) : bytes := map (fun i => (value / 256 ^ Z.of_nat i) mod 256) (seq 0 n).

Definition output_key (index : bytes) (inputs : list Input) : bytes :=
  hex (oneshot (index ++ concat (map (fun i => le_bytes 16 (in_hash i) ++ in_path i) inputs))).

Definition binary (output : bytes) : bytes := output ++ exe.
Definition debug_file (binary : bytes) : bytes := binary ++ text_of ".dwarf".

(** [time.elapsed()] fails for a time to come. *)
Definition elapsed (now time : Z) : option Z := if time <=? now then Some (now - time) else None.

Definition stale (now interval : Z) (time : option Z) : bool :=
  match t ← time; elapsed now t with Some age => interval <=? age | None => true end.

Definition touch (now : Z) (path : bytes) (d : Dirs) : Dirs :=
  if stale now (touch_interval policy) (if_modified <$> d_index d !! path) then
    mkDirs (alter (fun f => mkIndexFile (if_text f) (if_size f) now) path (d_index d)) (d_bin d) (d_marker d)
  else d.

Definition lookup (w : World) (now : Z) (entry : bytes) (k : Key) (d : Dirs) : Dirs * option Entry :=
  let path := index w k entry in
  match (file ← d_index d !! path; text ← if_text file; parse text) with
  | None => (d, None)
  | Some m =>
      if existsb (fun i => negb (bool_decide (current_hash w i = Some (in_hash i)))) (mf_inputs m) then (d, None)
      else if bool_decide (is_Some (d_bin d !! binary (mf_output m))) then
        (touch now path d, Some (mkEntry (binary (mf_output m)) (mf_stdout m) (mf_stderr m)))
      else (d, None)
  end.

(** ** Pruning *)

(** A manifest of the index: its age, its file and its output *)
Record Aged := mkAged { ag_age : Z; ag_file : bytes; ag_output : bytes }.

Definition aged_of (now : Z) (e : bytes * IndexFile) : option Aged :=
  text ← if_text e.2; m ← parse text; Some (mkAged (default 0 (elapsed now (if_modified e.2))) e.1 (mf_output m)).

(** [sort_by_key(Reverse(age))] *)
Definition older (a b : Aged) : bool := ag_age b <=? ag_age a.

Definition manifests (now : Z) (d : Dirs) : list Aged := stable_sort older (omap (aged_of now) (map_to_list (d_index d))).

Definition count_outputs (l : list Aged) (output : bytes) : nat := length (List.filter (fun a => bool_decide (ag_output a = output)) l).

(** The output a file of [bin/] belongs to *)
Definition output_of (name : bytes) : bytes :=
  let name := default name (strip_end (text_of ".dwarf") name) in default name (strip_end exe name).

Definition unreferenced (now : Z) (l : list Aged) (e : bytes * BinFile) : bool :=
  (count_outputs l (output_of e.1) =? 0)%nat &&
  match elapsed now (bf_modified e.2) with Some age => touch_interval policy <=? age | None => false end.

Definition file_size (f : option BinFile) : Z := match f with Some f => bf_size f | None => 0 end.
Definition index_size (f : option IndexFile) : Z := match f with Some f => if_size f | None => 0 end.

Definition total_size (d : Dirs) : Z :=
  map_fold (fun _ f n => if_size f + n) 0 (d_index d) + map_fold (fun _ f n => bf_size f + n) 0 (d_bin d).

(** [u64::saturating_sub] *)
Definition saturating_sub (a b : Z) : Z := Z.max 0 (a - b).

(** One entry: its manifest, and its binary with the last manifest of its
    output; [count] is how many are left. *)
Definition remove_entry (a : Aged) (count : nat) (d : Dirs) (total : Z) : Dirs * Z :=
  let total := saturating_sub total (index_size (d_index d !! ag_file a)) in
  let files := delete (ag_file a) (d_index d) in
  if (count =? 0)%nat then
    let b := binary (ag_output a) in
    let total := saturating_sub total (file_size (d_bin d !! b) + file_size (d_bin d !! debug_file b)) in
    (mkDirs files (delete (debug_file b) (delete b (d_bin d))) (d_marker d), total)
  else (mkDirs files (d_bin d) (d_marker d), total).

Fixpoint prune_loop (l : list Aged) (references : bytes -> nat) (d : Dirs) (total : Z) : Dirs :=
  match l with
  | [] => d
  | a :: l =>
      if (ag_age a <=? max_age policy) && (total <=? max_size policy) then prune_loop l references d total
      else
        let count := (references (ag_output a) - 1)%nat in
        let '(d, total) := remove_entry a count d total in
        prune_loop l (fun o => if bool_decide (o = ag_output a) then count else references o) d total
  end.

(** The loop over [bin/] *)
Definition sweep (now : Z) (l : list Aged) (d : Dirs) : Dirs :=
  mkDirs (d_index d) (filter (fun e => unreferenced now l e = false) (d_bin d)) (d_marker d).

(** The order in which entries of one age are met is that of the file system;
    here it is that of the map. *)
Definition prune (now : Z) (d : Dirs) : Dirs :=
  let l := manifests now d in
  let d := sweep now l d in
  prune_loop l (count_outputs l) d (total_size d).

Definition prune_if_due (now : Z) (d : Dirs) : Dirs :=
  if stale now (prune_interval policy) (d_marker d) then prune now (mkDirs (d_index d) (d_bin d) (Some now)) else d.

(** ** Publishing

    [built], [size]: when the binary was linked and how large it is; [debug]:
    the size of its line tables, if it has any; [failure]: the file operation
    that fails, if any (creating the directories, 0 and 1; syncing, 2; moving
    the binary, 3, and its line tables, 4; creating, writing and moving the
    manifest, 5 to 7). *)
Definition publish (w : World) (now built : Z) (failure : option nat) (entry : bytes) (k : Key) (size : Z) (debug : option Z)
  (inputs : list Input) (stdout stderr : bytes) (d : Dirs) : Dirs * option Entry :=
  let fails_by := fun step => match failure with Some f => (f <=? step)%nat | None => false end in
  let idx := index w k entry in
  let output := output_key idx inputs in
  let cached := binary output in
  if fails_by 3%nat then (d, None)
  else
    let d := mkDirs (d_index d) (<[cached := mkBinFile size built]> (d_bin d)) (d_marker d) in
    if match debug with Some _ => fails_by 4%nat | None => false end then (d, None)
    else
      let bins := match debug with Some size => <[debug_file cached := mkBinFile size built]> (d_bin d) | None => d_bin d end in
      let d := mkDirs (d_index d) bins (d_marker d) in
      if fails_by 7%nat then (d, None)
      else
        let m := mkManifest output inputs stdout stderr in
        let text := render m in
        let d := mkDirs (<[idx := mkIndexFile (Some text) (Z.of_nat (length text)) now]> (d_index d)) (d_bin d) (d_marker d) in
        (prune_if_due now d, Some (mkEntry cached stdout stderr)).
End Cache.

(** ** Reading what was written *)

Lemma lines_line l rest : 10 ∉ l -> last l <> Some 13 -> lines (l ++ 10 :: rest) = l :: lines rest.
Proof.
  intros Hn Hlast. unfold lines.
  assert (forall l acc, 10 ∉ l -> lines_from acc (l ++ 10 :: rest) = strip_cr (rev l ++ acc) :: lines_from [] rest) as H.
  { clear. intros l. induction l as [|c l IH]; intros acc Hn; [done|]. apply not_elem_of_cons in Hn as [Hc Hn].
    simpl. rewrite (proj2 (Z.eqb_neq c 10)) by congruence. rewrite IH by done. by rewrite <- app_assoc. }
  rewrite H by done. f_equal. rewrite app_nil_r. unfold strip_cr. rewrite <- (rev_involutive l) at 2.
  destruct (rev l) as [|c r] eqn:E; [done|]. destruct (decide (c = 13)) as [->|Hc].
  - exfalso. apply Hlast. rewrite <- (rev_involutive l), E. simpl. apply last_snoc.
  - destruct c as [|p|p]; try done. repeat (destruct p as [p|p|]; try done).
Qed.

Lemma split_once_app sep l r : sep ∉ l -> split_once sep (l ++ sep :: r) = Some (l, r).
Proof.
  induction l as [|c l IH]; intros Hn; simpl; [by rewrite Z.eqb_refl|]. apply not_elem_of_cons in Hn as [Hc Hn].
  rewrite (proj2 (Z.eqb_neq c sep)) by congruence. by rewrite IH.
Qed.

Lemma strip_bytes_app p s : strip_bytes p (p ++ s) = Some s.
Proof. induction p as [|c p IH]; [by destruct s|]. simpl. by rewrite Z.eqb_refl. Qed.

(** A lower-case hexadecimal digit *)
Definition is_hex (c : Z) : Prop := (48 <= c <= 57) \/ (97 <= c <= 102).

Lemma hex_digit_is_hex d : 0 <= d < 16 -> is_hex (hex_digit d).
Proof. unfold is_hex, hex_digit. destruct (Z.ltb_spec d 10); lia. Qed.

Lemma digit16_hex d : 0 <= d < 16 -> digit16 (hex_digit d) = Some d.
Proof.
  intros Hd. unfold hex_digit, digit16. destruct (Z.ltb_spec d 10).
  - rewrite (proj2 (Z.leb_le 48 _)), (proj2 (Z.leb_le _ 57)) by lia. simpl. f_equal. lia.
  - rewrite (proj2 (Z.leb_gt _ 57)), andb_false_r, (proj2 (Z.leb_le 97 _)), (proj2 (Z.leb_le _ 102)) by lia. simpl. f_equal. lia.
Qed.

Lemma hex_digits_is_hex n v : Forall is_hex (hex_digits n v).
Proof. induction n as [|n IH]; simpl; constructor; [|done]. apply hex_digit_is_hex. apply Z.mod_pos_bound. lia. Qed.

Lemma radix16_hex n : forall max acc v, 0 <= acc -> 0 <= v -> acc * 16 ^ Z.of_nat n + v mod 16 ^ Z.of_nat n <= max ->
  radix16 max acc (hex_digits n v) = Some (acc * 16 ^ Z.of_nat n + v mod 16 ^ Z.of_nat n).
Proof.
  induction n as [|n IH]; intros max acc v Hacc Hv Hmax.
  - simpl. f_equal. change (16 ^ Z.of_nat 0) with 1. rewrite Z.mod_1_r. lia.
  - cbn [hex_digits radix16]. set (p := 16 ^ Z.of_nat n) in *. assert (0 < p) as Hp by (subst p; apply Z.pow_pos_nonneg; lia).
    assert (16 ^ Z.of_nat (S n) = 16 * p) as Ep by (rewrite Nat2Z.inj_succ, Z.pow_succ_r by lia; done). rewrite Ep in *.
    assert (v mod (16 * p) = p * ((v / p) mod 16) + v mod p) as Em by (rewrite Z.mul_comm, Z.rem_mul_r by lia; lia).
    pose proof (Z.mod_pos_bound (v / p) 16 ltac:(lia)) as Hd. pose proof (Z.mod_pos_bound v p Hp) as Hr.
    rewrite digit16_hex by done. simpl. rewrite (proj2 (Z.leb_le _ max)) by nia.
    rewrite IH by nia. f_equal. rewrite Em. ring.
Qed.

Lemma from_str_radix_hex max c s : is_hex c -> from_str_radix max (c :: s) = radix16 max 0 (c :: s).
Proof. intros Hc. unfold is_hex in Hc. unfold from_str_radix. destruct c as [|p|p]; try lia; repeat (destruct p as [p|p|]; try done; try lia). Qed.

Lemma hex_radix v : 0 <= v <= u128_max -> from_str_radix u128_max (hex v) = Some v.
Proof.
  intros Hv. unfold hex. pose proof (hex_digits_is_hex 32 v) as Hh. pose proof (radix16_hex 32 u128_max 0 v) as Hr.
  assert (v mod 16 ^ Z.of_nat 32 = v) as Em by (apply Z.mod_small; unfold u128_max in Hv; change (16 ^ Z.of_nat 32) with (2 ^ 128); lia).
  rewrite Em, Z.mul_0_l, Z.add_0_l in Hr. specialize (Hr ltac:(lia) ltac:(lia) ltac:(lia)).
  destruct (hex_digits 32 v) as [|c s] eqn:E; [done|]. inversion Hh; subst. by rewrite from_str_radix_hex.
Qed.

Lemma decode_encode bs : Forall (fun b => 0 <= b < 256) bs -> decode_bytes (encode_bytes bs) = Some bs.
Proof.
  induction 1 as [|b bs Hb H IH]; [done|]. unfold encode_bytes. cbn [map concat hex_byte app decode_bytes]. fold (encode_bytes bs).
  assert (0 <= b / 16 < 16 /\ 0 <= b mod 16 < 16) as [H1 H2].
  { split; [split; [apply Z.div_pos; lia|apply Z.div_lt_upper_bound; lia]|apply Z.mod_pos_bound; lia]. }
  rewrite from_str_radix_hex by by apply hex_digit_is_hex. cbn [radix16]. rewrite !digit16_hex by done. cbn.
  rewrite (proj2 (Z.leb_le _ 255)) by lia. cbn. pose proof (Z.div_mod b 16 ltac:(lia)).
  rewrite (proj2 (Z.leb_le _ 255)) by lia. cbn. rewrite IH. cbn. do 2 f_equal. lia.
Qed.

(** What a line of a manifest can hold *)
Definition line_ok (l : bytes) : Prop := 10 ∉ l /\ last l <> Some 13.

Record manifest_ok (m : Manifest) : Prop := {
  mo_output : line_ok (mf_output m);
  mo_inputs : Forall (fun i => line_ok (in_path i) /\ 0 <= in_hash i <= u128_max) (mf_inputs m);
  mo_stdout : Forall (fun b => 0 <= b < 256) (mf_stdout m) /\ from_utf8 (mf_stdout m) = true;
  mo_stderr : Forall (fun b => 0 <= b < 256) (mf_stderr m) /\ from_utf8 (mf_stderr m) = true }.

Lemma hex_not n v c : ~ is_hex c -> c ∉ hex_digits n v.
Proof. intros Hc Hin. pose proof (hex_digits_is_hex n v) as H. rewrite Forall_forall in H. auto. Qed.

Lemma encode_bytes_is_hex bs : Forall (fun b => 0 <= b < 256) bs -> Forall is_hex (encode_bytes bs).
Proof.
  induction 1 as [|b bs Hb H IH]; [constructor|]. unfold encode_bytes. cbn [map concat hex_byte app]. fold (encode_bytes bs).
  constructor; [|constructor; [|done]]; apply hex_digit_is_hex; [split; [apply Z.div_pos; lia|apply Z.div_lt_upper_bound; lia]|apply Z.mod_pos_bound; lia].
Qed.

Lemma last_app_ne (l k : bytes) c : last k <> Some c -> k <> [] -> last (l ++ k) <> Some c.
Proof.
  intros Hk Hne. destruct k as [|x k _] using rev_ind; [done|]. rewrite last_snoc in Hk. by rewrite app_assoc, last_snoc.
Qed.

Lemma line_ok_app l k : 10 ∉ l -> last l <> Some 13 -> line_ok k -> line_ok (l ++ k).
Proof.
  intros Hl Hlast [Hk Hklast]. split; [by rewrite elem_of_app; intros []|]. destruct k as [|c k]; [by rewrite app_nil_r|]. by apply last_app_ne.
Qed.

Lemma is_hex_line l : Forall is_hex l -> line_ok l.
Proof.
  intros H. rewrite Forall_forall in H. split.
  - intros Hin. specialize (H 10 Hin). unfold is_hex in H. lia.
  - intros Hlast. apply last_Some_elem_of in Hlast. specialize (H 13 Hlast). unfold is_hex in H. lia.
Qed.

Lemma input_line m i rest :
  line_ok (in_path i) -> 0 <= in_hash i <= u128_max ->
  parse_lines m (lines (render_input i ++ rest)) =
    parse_lines (mkManifest (mf_output m) (mf_inputs m ++ [i]) (mf_stdout m) (mf_stderr m)) (lines rest).
Proof.
  intros Hp Hh. unfold render_input. set (kind := text_of (if in_directory i then "dir" else "file")).
  assert (text_of (if in_directory i then "dir " else "file ") = kind ++ [32]) as -> by (subst kind; by destruct (in_directory i)).
  assert (32 ∉ kind /\ 10 ∉ kind) as [Hk1 Hk2] by (subst kind; destruct (in_directory i); cbn; set_solver by lia).
  assert (32 ∉ hex (in_hash i)) as Hx by (apply hex_not; unfold is_hex; lia).
  replace ((kind ++ [32]) ++ hex (in_hash i) ++ [32] ++ in_path i ++ [10]) with ((kind ++ 32 :: hex (in_hash i) ++ 32 :: in_path i) ++ [10])
    by (by rewrite <- ?app_assoc; simpl; rewrite <- ?app_assoc).
  assert (line_ok (kind ++ 32 :: hex (in_hash i) ++ 32 :: in_path i)) as [Hl1 Hl2].
  { replace (kind ++ 32 :: hex (in_hash i) ++ 32 :: in_path i) with (((kind ++ 32 :: hex (in_hash i)) ++ [32]) ++ in_path i)
      by (by rewrite <- !app_assoc).
    apply line_ok_app; [|by rewrite last_snoc|done]. pose proof (hex_not 32 (in_hash i) 10 ltac:(unfold is_hex; lia)) as H10. fold (hex (in_hash i)) in H10.
    rewrite !elem_of_app, elem_of_cons, list_elem_of_singleton. intros [[?|[?|?]]|?]; done. }
  rewrite <- app_assoc. cbn [app]. rewrite lines_line by done.
  cbn [parse_lines]. unfold parse_line. rewrite split_once_app by done. unfold default. cbn [from_option id].
  assert (bool_decide (kind = text_of "file") || bool_decide (kind = text_of "dir") = true) as -> by (subst kind; by destruct (in_directory i)).
  rewrite split_once_app by done. cbn [mbind option_bind]. rewrite hex_radix by done. destruct i as [path dir h]. subst kind. by destruct dir.
Qed.

Lemma inputs_lines inputs m rest :
  Forall (fun i => line_ok (in_path i) /\ 0 <= in_hash i <= u128_max) inputs ->
  parse_lines m (lines (concat (map render_input inputs) ++ rest)) =
    parse_lines (mkManifest (mf_output m) (mf_inputs m ++ inputs) (mf_stdout m) (mf_stderr m)) (lines rest).
Proof.
  intros H. revert m. induction H as [|i inputs [Hp Hh] H IH]; intros m.
  - simpl. rewrite app_nil_r. by destruct m.
  - cbn [map concat]. rewrite <- app_assoc, input_line, IH by done. cbn. by rewrite <- app_assoc.
Qed.

Lemma named_line name text rest :
  (name = text_of "stdout" \/ name = text_of "stderr") -> Forall (fun b => 0 <= b < 256) text ->
  lines (name ++ 32 :: encode_bytes text ++ 10 :: rest) = (name ++ 32 :: encode_bytes text) :: lines rest /\
  split_once 32 (name ++ 32 :: encode_bytes text) = Some (name, encode_bytes text).
Proof.
  intros Hn Ht. pose proof (is_hex_line _ (encode_bytes_is_hex text Ht)) as Hl.
  assert (10 ∉ name /\ 32 ∉ name) as [H10 H32] by (destruct Hn; subst name; cbn; set_solver by lia).
  split; [|by apply split_once_app].
  replace (name ++ 32 :: encode_bytes text ++ 10 :: rest) with (((name ++ [32]) ++ encode_bytes text) ++ 10 :: rest) by (by rewrite <- !app_assoc).
  destruct (line_ok_app (name ++ [32]) (encode_bytes text)) as [H1 H2]; [|by rewrite last_snoc|done|].
  - rewrite elem_of_app, list_elem_of_singleton. by intros [|].
  - rewrite lines_line by done. by rewrite <- app_assoc.
Qed.

Lemma decode_text_encode text : Forall (fun b => 0 <= b < 256) text -> from_utf8 text = true -> decode_text (encode_bytes text) = Some text.
Proof. intros Ht Hu. unfold decode_text. rewrite decode_encode by done. cbn [mbind option_bind]. by rewrite Hu. Qed.

Lemma stdout_line m text rest :
  Forall (fun b => 0 <= b < 256) text -> from_utf8 text = true ->
  parse_lines m (lines (text_of "stdout " ++ encode_bytes text ++ 10 :: rest)) =
    parse_lines (mkManifest (mf_output m) (mf_inputs m) text (mf_stderr m)) (lines rest).
Proof.
  intros Ht Hu. destruct (named_line (text_of "stdout") text rest) as [E1 E2]; [by left|done|].
  change (text_of "stdout " ++ ?x) with (text_of "stdout" ++ 32 :: x). rewrite E1. cbn [parse_lines]. unfold parse_line.
  setoid_rewrite E2. unfold default. cbn [from_option id].
  rewrite decode_text_encode by done. done.
Qed.

Lemma stderr_line m text rest :
  Forall (fun b => 0 <= b < 256) text -> from_utf8 text = true ->
  parse_lines m (lines (text_of "stderr " ++ encode_bytes text ++ 10 :: rest)) =
    parse_lines (mkManifest (mf_output m) (mf_inputs m) (mf_stdout m) text) (lines rest).
Proof.
  intros Ht Hu. destruct (named_line (text_of "stderr") text rest) as [E1 E2]; [by right|done|].
  change (text_of "stderr " ++ ?x) with (text_of "stderr" ++ 32 :: x). rewrite E1. cbn [parse_lines]. unfold parse_line.
  setoid_rewrite E2. unfold default. cbn [from_option id].
  rewrite decode_text_encode by done. done.
Qed.

Lemma parse_render m : manifest_ok m -> parse (render m) = Some m.
Proof.
  intros [[Ho1 Ho2] Hin [Hs1 Hs2] [He1 He2]]. unfold parse, render.
  set (tail := concat (map render_input (mf_inputs m)) ++ _).
  change (text_of "paco-cache 1" ++ [10] ++ ?x) with (text_of "paco-cache 1" ++ 10 :: x). rewrite lines_line by (cbn; set_solver by lia).
  replace (text_of "output " ++ mf_output m ++ [10] ++ tail) with ((text_of "output " ++ mf_output m) ++ 10 :: tail) by (by rewrite <- app_assoc).
  destruct (line_ok_app (text_of "output ") (mf_output m)) as [H1 H2]; [cbn; set_solver by lia|done|done|].
  rewrite lines_line by done. rewrite bool_decide_true, strip_bytes_app by done. cbn [mbind option_bind]. subst tail.
  rewrite inputs_lines by done. cbn [mf_output mf_inputs mf_stdout mf_stderr app].
  rewrite stdout_line, stderr_line by done. by destruct m.
Qed.

(** a manifest that was written reads back as it was: the output key, the
    inputs with their hashes and the texts the build printed, provided that no
    path has a line feed or ends in a carriage return. *)
Theorem manifest_roundtrip m : manifest_ok m -> parse (render m) = Some m.
Proof. apply parse_render. Qed.

Example roundtrip_manifest : Manifest :=
  mkManifest (hex 7) [mkInput (text_of "a b.paco") false 1; mkInput (text_of "std") true 2] (text_of "checked") [].

Lemma manifest_roundtrip_witness :
  parse (render roundtrip_manifest) = Some roundtrip_manifest.
Proof.
  apply manifest_roundtrip. split.
  - apply is_hex_line, hex_digits_is_hex.
  - repeat constructor; cbn; try done; set_solver by lia.
  - split; [|done]. apply (bool_decide_unpack (Forall (fun b => 0 <= b < 256) (text_of "checked"))). by vm_compute.
  - split; [constructor|done].
Defined.

(** ** Pruning evicts the least recently used *)

Definition sizes_ok (d : Dirs) : Prop :=
  map_Forall (fun _ f => 0 <= if_size f) (d_index d) /\ map_Forall (fun _ f => 0 <= bf_size f) (d_bin d).

Lemma total_delete {A} (size : A -> Z) (m : gmap bytes A) i :
  map_fold (fun _ f n => size f + n) 0 (delete i m) = map_fold (fun _ f n => size f + n) 0 m - match m !! i with Some f => size f | None => 0 end.
Proof.
  destruct (m !! i) as [f|] eqn:E; [|rewrite delete_id by done; lia].
  rewrite (map_fold_delete_L _ 0 i f m) by (done || intros; lia). lia.
Qed.

Lemma total_nonneg {A} (size : A -> Z) (m : gmap bytes A) :
  map_Forall (fun _ f => 0 <= size f) m -> 0 <= map_fold (fun _ f n => size f + n) 0 m.
Proof.
  induction m as [|i f m Hi Hf IH] using map_first_key_ind; intros H; [by rewrite map_fold_empty|].
  rewrite map_fold_insert_first_key by done. apply map_Forall_insert in H as [H1 H2]; [|done]. specialize (IH H2). lia.
Qed.

Lemma debug_file_ne b : debug_file b <> b.
Proof. intros H. apply (f_equal length) in H. unfold debug_file in H. rewrite length_app in H. cbn in H. lia. Qed.

Section Prune.
Context (exe : bytes) (policy : Policy).

(** The directories after the [k] entries first in [l] are removed; a binary
    goes with the last entry of its output. *)
Fixpoint evict (k : nat) (l : list Aged) (d : Dirs) : Dirs :=
  match k, l with
  | S k, a :: l => evict k l (remove_entry exe a (count_outputs l (ag_output a)) d (total_size d)).1
  | _, _ => d
  end.

Lemma remove_entry_total a count d : sizes_ok d ->
  (remove_entry exe a count d (total_size d)).2 = total_size (remove_entry exe a count d (total_size d)).1 /\
  sizes_ok (remove_entry exe a count d (total_size d)).1.
Proof.
  intros [Hi Hb]. unfold remove_entry, total_size, saturating_sub. set (b := binary exe (ag_output a)).
  pose proof (map_Forall_delete _ _ (ag_file a) Hi) as Hi'. pose proof (map_Forall_delete _ _ b Hb) as Hb1.
  pose proof (map_Forall_delete _ _ (debug_file b) Hb1) as Hb2.
  pose proof (total_nonneg _ _ Hi') as T1. pose proof (total_nonneg _ _ Hb) as T2. pose proof (total_nonneg _ _ Hb2) as T3.
  rewrite !total_delete in T3. rewrite lookup_delete_ne in T3 by apply not_eq_sym, debug_file_ne. rewrite total_delete in T1.
  destruct (count =? 0)%nat; cbn; (split; [|done]); rewrite !total_delete, ?lookup_delete_ne by apply not_eq_sym, debug_file_ne;
    unfold index_size, file_size; lia.
Qed.

Lemma prune_loop_keeps l references d total :
  Forall (fun a => ag_age a <= max_age policy) l -> total <= max_size policy -> prune_loop exe policy l references d total = d.
Proof.
  intros H Ht. induction H as [|a l Ha H IH]; [done|]. cbn. rewrite (proj2 (Z.leb_le _ _) Ha), (proj2 (Z.leb_le _ _) Ht). done.
Qed.

(** The first [k] of [l] are removed, and [k] is the least number after which
    no entry is too old and the cache fits. *)
Definition evicts_lru (k : nat) (l : list Aged) (d : Dirs) : Prop :=
  (forall j a, (j < k)%nat -> l !! j = Some a -> max_age policy < ag_age a \/ max_size policy < total_size (evict j l d)) /\
  (drop k l = [] \/ Forall (fun a => ag_age a <= max_age policy) (drop k l) /\ total_size (evict k l d) <= max_size policy).

Lemma prune_loop_evicts l : forall references d,
  StronglySorted (fun a b => older a b = true) l -> (forall o, references o = count_outputs l o) -> sizes_ok d ->
  exists k, prune_loop exe policy l references d (total_size d) = evict k l d /\ evicts_lru k l d.
Proof.
  induction l as [|a l IH]; intros references d Hs Href Hok; [by exists O; split; [|split; [|left]]|].
  inversion Hs as [|? ? Hs' Ha]; subst. cbn [prune_loop]. destruct (_ && _) eqn:E.
  - apply andb_prop in E as [E1%Z.leb_le E2%Z.leb_le].
    assert (Forall (fun a => ag_age a <= max_age policy) l) as Hl.
    { eapply Forall_impl; [exact Ha|]. intros b Hb%Z.leb_le. lia. }
    exists O. split; [by apply prune_loop_keeps|]. split; [lia|]. right. split; [by constructor|done].
  - assert ((references (ag_output a) - 1)%nat = count_outputs l (ag_output a)) as ->.
    { rewrite Href. unfold count_outputs. cbn. rewrite bool_decide_true by done. cbn. lia. }
    set (n := count_outputs l (ag_output a)). destruct (remove_entry_total a n d Hok) as [Et Hok'].
    destruct (IH (fun o => if bool_decide (o = ag_output a) then n else references o) (remove_entry exe a n d (total_size d)).1 Hs')
      as (k & Ek & H1 & H2); [|done|].
    { intros o. case_bool_decide as Ho; [by subst o|]. rewrite Href. unfold count_outputs. cbn. by rewrite bool_decide_false by congruence. }
    exists (S k). destruct (remove_entry exe a n d (total_size d)) as [d' total] eqn:Er. cbn in Et, Ek, H1, H2. subst total.
    split; [|split].
    + rewrite Ek. cbn [evict]. fold n. by rewrite Er.
    + intros [|j] b Hj Hb; cbn in Hb.
      * injection Hb as <-. cbn [evict]. apply andb_false_iff in E as [E%Z.leb_gt|E%Z.leb_gt]; auto.
      * cbn [evict]. fold n. rewrite Er. apply (H1 j b); [lia|done].
    + cbn [evict drop]. fold n. by rewrite Er.
Qed.

Lemma prune_evicts now d :
  sizes_ok d ->
  exists k, prune exe policy now d = evict k (manifests now d) (sweep exe policy now (manifests now d) d) /\
    evicts_lru k (manifests now d) (sweep exe policy now (manifests now d) d).
Proof.
  intros [Hi Hb]. apply prune_loop_evicts; [|done|].
  - apply stable_sort_sorted; unfold older; intros; lia.
  - split; [done|]. intros i f Hf. apply map_lookup_filter_Some in Hf as [Hf _]. by apply (Hb i).
Qed.

(** C18: pruning removes the least recently used entries and no more than it
    must: after the binaries that no manifest names and that are not fresh, it
    removes the [k] oldest manifests, each with its binary if it is the last
    one of its output, where [k] is the least number after which every entry
    is within the age limit and the cache within its size limit (or nothing is
    left to remove). *)
Theorem prune_lru now d :
  sizes_ok d ->
  let l := manifests now d in
  exists k, prune exe policy now d = evict k l (sweep exe policy now l d) /\ evicts_lru k l (sweep exe policy now l d).
Proof. apply prune_evicts. Qed.

(** ** What a manifest left in the index needs is left *)

Lemma evict_index k l d file :
  d_index (evict k l d) !! file = if bool_decide (file ∈ map ag_file (take k l)) then None else d_index d !! file.
Proof.
  revert l d. induction k as [|k IH]; intros l d; [done|]. destruct l as [|a l]; [done|]. cbn [evict take map]. rewrite IH.
  assert (d_index (remove_entry exe a (count_outputs l (ag_output a)) d (total_size d)).1 = delete (ag_file a) (d_index d)) as ->
    by (unfold remove_entry; by destruct (_ =? 0)%nat).
  case_bool_decide as H1.
  - rewrite bool_decide_true by by apply elem_of_cons; right. done.
  - destruct (decide (file = ag_file a)) as [->|Hne].
    + rewrite lookup_delete_eq, bool_decide_true by by apply elem_of_cons; left. done.
    + rewrite lookup_delete_ne, bool_decide_false; [done| |congruence]. by rewrite elem_of_cons; intros [|].
Qed.

Lemma count_outputs_pos l o : o ∈ map ag_output l -> count_outputs l o <> O.
Proof.
  induction l as [|a l IH]; cbn; intros H; [by apply not_elem_of_nil in H|]. unfold count_outputs. cbn.
  case_bool_decide as Ho; [done|]. apply elem_of_cons in H as [->|H]; [done|]. by apply IH.
Qed.

Context (exe_ok : exe = [] \/ exe = text_of ".exe").

Lemma debug_not_binary o o' : Forall is_hex o -> debug_file (binary exe o') <> binary exe o.
Proof.
  intros Ho H. unfold debug_file, binary in H. destruct exe_ok as [->| ->].
  - rewrite !app_nil_r in H. subst o. apply Forall_app in Ho as [_ Ho]. inversion Ho as [|? ? Hc _]. destruct Hc as [[? ?]|[? ?]]; done.
  - apply (f_equal last) in H. by rewrite !last_app in H.
Qed.

Lemma evict_keeps k l d o :
  Forall is_hex o -> o ∈ map ag_output (drop k l) -> d_bin (evict k l d) !! binary exe o = d_bin d !! binary exe o.
Proof.
  intros Ho. revert l d. induction k as [|k IH]; intros l d Hin; [done|]. destruct l as [|a l]; [done|]. cbn [evict drop] in *.
  rewrite IH by done. unfold remove_entry. destruct (_ =? 0)%nat eqn:E; [|done]. apply Nat.eqb_eq in E. cbn.
  rewrite lookup_delete_ne by by apply debug_not_binary.
  destruct (decide (ag_output a = o)) as [Ha|Ha].
  - exfalso. rewrite Ha in E. revert E. apply count_outputs_pos. revert Hin. rewrite !list_elem_of_fmap.
    intros (b & -> & Hb). exists b. split; [done|]. eapply elem_of_subseteq; [|exact Hb]. apply subseteq_drop.
  - rewrite lookup_delete_ne; [done|]. unfold binary. intros H%app_inv_tail. done.
Qed.

Lemma strip_bytes_Some p s r : strip_bytes p s = Some r -> s = p ++ r.
Proof.
  revert s. induction p as [|c p IH]; intros s H; [destruct s; by injection H|]. destruct s as [|x s]; [done|]. cbn in H.
  destruct (Z.eqb_spec c x) as [->|]; [|done]. cbn. f_equal. by apply IH.
Qed.

Lemma strip_end_app s suffix : strip_end suffix (s ++ suffix) = Some s.
Proof. unfold strip_end. rewrite rev_app_distr, strip_bytes_app. cbn. by rewrite rev_involutive. Qed.

Lemma strip_end_Some suffix s r : strip_end suffix s = Some r -> s = r ++ suffix.
Proof.
  unfold strip_end. destruct (strip_bytes _ _) as [t|] eqn:E; [|done]. intros [= <-]. apply strip_bytes_Some in E.
  by rewrite <- (rev_involutive s), E, rev_app_distr, rev_involutive.
Qed.

Lemma output_of_binary o : Forall is_hex o -> output_of exe (binary exe o) = o.
Proof.
  intros Ho. unfold output_of. destruct (strip_end (text_of ".dwarf") (binary exe o)) as [t|] eqn:E.
  - exfalso. apply strip_end_Some in E. unfold binary in E. destruct exe_ok as [He|He]; rewrite He in E.
    + rewrite app_nil_r in E. subst o. apply Forall_app in Ho as [_ Ho]. inversion Ho as [|? ? Hc _]. destruct Hc as [[? ?]|[? ?]]; done.
    + apply (f_equal last) in E. by rewrite !last_app in E.
  - unfold default. cbn [from_option id]. unfold binary. by rewrite strip_end_app.
Qed.

Lemma sweep_keeps now l d o :
  Forall is_hex o -> o ∈ map ag_output l -> d_bin (sweep exe policy now l d) !! binary exe o = d_bin d !! binary exe o.
Proof.
  intros Ho Hin. cbn. destruct (d_bin d !! binary exe o) as [f|] eqn:E.
  - apply map_lookup_filter_Some. split; [done|]. unfold unreferenced. cbn [fst]. rewrite output_of_binary by done.
    apply count_outputs_pos in Hin. apply Nat.eqb_neq in Hin. by rewrite Hin.
  - apply map_lookup_filter_None. by left.
Qed.

(** [m] is the manifest in [file] of the index. *)
Definition has_manifest (d : Dirs) (file : bytes) (m : Manifest) : Prop :=
  exists f text, d_index d !! file = Some f /\ if_text f = Some text /\ parse text = Some m.

Lemma manifests_listed now d file m : has_manifest d file m -> exists a, a ∈ manifests now d /\ ag_file a = file /\ ag_output a = mf_output m.
Proof.
  intros (f & text & Hf & Ht & Hp). exists (mkAged (default 0 (elapsed now (if_modified f))) file (mf_output m)). split; [|done].
  unfold manifests. rewrite (stable_sort_perm older). apply list_elem_of_omap. exists (file, f).
  split; [by apply elem_of_map_to_list|]. unfold aged_of. cbn. rewrite Ht. cbn. by rewrite Hp.
Qed.

(** pruning never takes a binary from a manifest it leaves: what [bin/]
    held for the output of a manifest that is still in the index, it holds
    after pruning, so that an entry that is not evicted is still found. *)
Theorem prune_keeps_binaries now d file m :
  sizes_ok d -> has_manifest (prune exe policy now d) file m -> Forall is_hex (mf_output m) ->
  d_bin (prune exe policy now d) !! binary exe (mf_output m) = d_bin d !! binary exe (mf_output m).
Proof.
  intros Hok Hm Ho. destruct (prune_evicts now d Hok) as (k & Ek & _). set (l := manifests now d) in *.
  rewrite Ek in *. destruct Hm as (f & text & Hf & Ht & Hp). rewrite evict_index in Hf. case_bool_decide as Hd; [done|].
  destruct (manifests_listed now d file m) as (a & Ha & Haf & Hao); [by exists f, text|]. fold l in Ha.
  assert (a ∈ drop k l) as Hdrop.
  { rewrite <- (take_drop k l) in Ha. apply elem_of_app in Ha as [Ha|Ha]; [|done]. exfalso. apply Hd. rewrite <- Haf. by apply list_elem_of_fmap_2. }
  rewrite evict_keeps; [|done|rewrite <- Hao; by apply list_elem_of_fmap_2]. apply sweep_keeps; [done|].
  rewrite <- Hao. by apply list_elem_of_fmap_2.
Qed.
End Prune.

(** Three entries of two builds: an old one, and two that share a binary *)
Definition aged_index (output : bytes) (modified : Z) : IndexFile :=
  let text := render (mkManifest output [] [] []) in mkIndexFile (Some text) (Z.of_nat (length text)) modified.

Definition crowded : Dirs :=
  mkDirs (<[text_of "a" := aged_index (hex 1) 0]> (<[text_of "b" := aged_index (hex 2) 50]> (<[text_of "c" := aged_index (hex 2) 90]> ∅)))
    (<[hex 1 := mkBinFile 600 0]> (<[hex 2 := mkBinFile 600 0]> (<[hex 3 := mkBinFile 600 0]> ∅))) None.

Definition small : Policy := mkPolicy 1000 1000 10 10.

Lemma crowded_sizes : sizes_ok crowded.
Proof.
  split; unfold crowded; cbn [d_index d_bin];
    repeat (apply map_Forall_insert_2; [apply Z.leb_le; vm_compute; reflexivity|]); apply map_Forall_empty.
Qed.

(** The orphan and the oldest entry go, the binary two entries share stays. *)
Example crowded_pruned :
  let d := prune [] small 100 crowded in
  (map fst (map_to_list (d_bin d)), length (map_to_list (d_index d)), total_size d) = ([hex 2], 2%nat, 738).
Proof. by vm_compute. Qed.

Lemma prune_lru_witness :
  exists k, prune [] small 100 crowded = evict [] k (manifests 100 crowded) (sweep [] small 100 (manifests 100 crowded) crowded) /\
    evicts_lru [] small k (manifests 100 crowded) (sweep [] small 100 (manifests 100 crowded) crowded).
Proof. apply (prune_lru [] small 100 crowded). apply crowded_sizes. Defined.

Lemma prune_keeps_binaries_witness : d_bin (prune [] small 100 crowded) !! hex 2 = Some (mkBinFile 600 0).
Proof.
  change (hex 2) with (binary [] (mf_output (mkManifest (hex 2) [] [] []))).
  rewrite (prune_keeps_binaries [] small (or_introl eq_refl) 100 crowded (text_of "b") (mkManifest (hex 2) [] [] [])).
  - by vm_compute.
  - apply crowded_sizes.
  - exists (aged_index (hex 2) 50), (render (mkManifest (hex 2) [] [] [])). by vm_compute.
  - apply hex_digits_is_hex.
Defined.

(** ** A published build is found again *)

Section Publish.
Context (oneshot : bytes -> Z) (exe : bytes) (policy : Policy).

Lemma existsb_negb {A} (f : A -> bool) l : existsb (fun x => negb (f x)) l = negb (forallb f l).
Proof. induction l as [|x l IH]; [done|]. cbn. rewrite IH. by destruct (f x). Qed.

Lemma lookup_manifest w now entry k d f m :
  d_index d !! index oneshot w k entry = Some f -> if_text f = Some (render m) -> manifest_ok m ->
  is_Some (d_bin d !! binary exe (mf_output m)) ->
  (lookup oneshot exe policy w now entry k d).2 =
    if forallb (fun i => bool_decide (current_hash oneshot w i = Some (in_hash i))) (mf_inputs m)
    then Some (mkEntry (binary exe (mf_output m)) (mf_stdout m) (mf_stderr m)) else None.
Proof.
  intros Hf Ht Hm Hb. unfold lookup. rewrite Hf. cbn [mbind option_bind]. rewrite Ht. cbn [mbind option_bind]. rewrite parse_render by done.
  rewrite existsb_negb. destruct (forallb _ _); [|done]. cbn [negb]. by rewrite bool_decide_true.
Qed.

Lemma publish_dirs w now built entry k size debug inputs out err d d' e :
  stale now (prune_interval policy) (d_marker d) = false ->
  publish oneshot exe policy w now built None entry k size debug inputs out err d = (d', Some e) ->
  let output := output_key oneshot (index oneshot w k entry) inputs in
  e = mkEntry (binary exe output) out err /\ is_Some (d_bin d' !! binary exe output) /\
  exists f, d_index d' !! index oneshot w k entry = Some f /\ if_text f = Some (render (mkManifest output inputs out err)).
Proof.
  intros Hdue Hp. cbn zeta. unfold publish in Hp. set (idx := index oneshot w k entry) in *. set (output := output_key oneshot idx inputs) in *.
  set (text := render _) in *. destruct debug as [sz|]; unfold prune_if_due in Hp; cbn [d_marker d_index d_bin] in Hp; rewrite Hdue in Hp;
    injection Hp as <- <-; (split; [done|]); cbn [d_index d_bin];
    (split; [|eexists; split; [apply lookup_insert_eq|reflexivity]]).
  - rewrite lookup_insert_ne by apply debug_file_ne. by rewrite lookup_insert_eq.
  - by rewrite lookup_insert_eq.
Qed.

(** C17: a build that was published is found again exactly as long as its
    inputs are as they were: a lookup of the same file with the same key, at
    any later time, gives the published entry with what the build printed if
    every file and listing the build read has the hash it had, and nothing
    otherwise.  (When pruning is due, the entry may be evicted; see
    [prune_lru].  The paths of the inputs are single lines of text.) *)
Theorem publish_lookup w now built entry k size debug inputs out err d w' now' d' e :
  Forall (fun i => line_ok (in_path i) /\ 0 <= in_hash i <= u128_max) inputs ->
  Forall (fun b => 0 <= b < 256) out /\ from_utf8 out = true -> Forall (fun b => 0 <= b < 256) err /\ from_utf8 err = true ->
  stale now (prune_interval policy) (d_marker d) = false ->
  publish oneshot exe policy w now built None entry k size debug inputs out err d = (d', Some e) ->
  w_canonical w' entry = w_canonical w entry ->
  (lookup oneshot exe policy w' now' entry k d').2 =
    if forallb (fun i => bool_decide (current_hash oneshot w' i = Some (in_hash i))) inputs then Some e else None.
Proof.
  intros Hin Hout Herr Hdue Hp Hc. destruct (publish_dirs _ _ _ _ _ _ _ _ _ _ _ _ _ Hdue Hp) as (-> & Hb & f & Hf & Ht).
  assert (index oneshot w' k entry = index oneshot w k entry) as Hidx by (unfold index; by rewrite Hc).
  eapply lookup_manifest in Ht; [exact Ht|by rewrite Hidx| |done]. split; [apply is_hex_line, hex_digits_is_hex|done..].
Qed.
End Publish.

(** A program of one file, and a hash *)
Definition sum_hash (b : bytes) : Z := fold_right (fun c h => (31 * h + c) mod 2 ^ 128) 7 b.
Definition one_file (contents : string) : World :=
  mkWorld (fun path => if bool_decide (path = text_of "main.paco") then Some (text_of contents) else None) (fun _ => None) (fun _ => None).
Definition main_input : Input := Input_file sum_hash (text_of "main.paco") (text_of "fn main").
Definition run_key : Key := mkKey (text_of "paco 1") [].
Definition published (policy : Policy) (marker : option Z) : Dirs * option Entry :=
  publish sum_hash [] policy (one_file "fn main") 100 99 None (text_of "main.paco") run_key 600 None [main_input] [] [] (mkDirs ∅ ∅ marker).

Lemma publish_lookup_witness :
  (lookup sum_hash [] small (one_file "fn main") 200 (text_of "main.paco") run_key (published small (Some 95)).1).2 =
    (published small (Some 95)).2 /\
  (lookup sum_hash [] small (one_file "fn changed") 200 (text_of "main.paco") run_key (published small (Some 95)).1).2 = None.
Proof.
  assert (forall w, w_canonical w (text_of "main.paco") = None ->
    (lookup sum_hash [] small w 200 (text_of "main.paco") run_key (published small (Some 95)).1).2 =
      if forallb (fun i => bool_decide (current_hash sum_hash w i = Some (in_hash i))) [main_input] then (published small (Some 95)).2 else None) as H.
  { intros w Hw. destruct (published small (Some 95)) as [d [e|]] eqn:E; [|by vm_compute in E].
    apply (publish_lookup sum_hash [] small (one_file "fn main") 100 99 (text_of "main.paco") run_key 600 None [main_input] [] []
      (mkDirs ∅ ∅ (Some 95)) w 200 d e); try done.
    constructor; [|done]. split; [split; [|done]; cbn; set_solver by lia|by vm_compute]. }
  split; rewrite H by done; by vm_compute.
Defined.

(** A build larger than the whole cache is published and evicted by the same
    call: the entry that is returned names a binary that is gone. *)
Lemma publish_evicts_itself :
  let p := published (mkPolicy 1000 500 10 10) None in
  exists e, p.2 = Some e /\ d_bin p.1 !! e_binary e = None.
Proof. vm_compute. by eexists. Qed.
