(* ===== verification/Packages.v ===== *)
(** Packages: [compiler/paco-driver/src/manifest.rs], [pkg_cache.rs], and of
    [lib.rs] [paco get], [paco mod tidy] and the resolution of domain-shaped
    [use] paths.

    A text is its chars; a path is the list of its components, as paths compare.
    TOML is read by the [toml] library and [git] is a program: both are
    parameters.  The package cache maps the path of a directory to the commit
    it is checked out at.

    The dependency that a path is resolved to is the longest declared prefix
    ([longest_prefix_correct]); what [paco get] fetched resolves
    ([get_then_resolves]).  Two gaps: [paco get] does not repair a directory
    that is at another commit than [paco.lock] says, although the error asks
    for it ([get_cannot_repair]); and a path whose first segment after the
    dependency is [stdlib] leaves the dependency or panics
    ([stdlib_remainder_escapes], [stdlib_segment_panics]). *)
From S2P Require Import Prelude Diag Fmt.

Open Scope paco_scope.
Open Scope Z_scope.

(** ** Texts and paths *)

Abbreviation Path := (list str) (only parsing).

(** [str::split] *)
Fixpoint split_on (sep : char -> bool) (s : str) : list str :=
  match s with
  | [] => [[]]
  | c :: s =>
      match split_on sep s with
      | p :: ps => if sep c then [] :: p :: ps else (c :: p) :: ps
      | [] => []
      end
  end.

(** [str::strip_prefix] *)
Fixpoint strip_str (prefix s : str) : option str :=
  match prefix, s with
  | [], s => Some s
  | p :: prefix, c :: s => if p =? c then strip_str prefix s else None
  | _ :: _, [] => None
  end.

Fixpoint trim_start (s : str) : str :=
  match s with c :: rest => if is_whitespace c then trim_start rest else s | [] => [] end.

Definition trim (s : str) : str := rev (trim_start (rev (trim_start s))).

Definition is_slash (c : char) : bool := c =? 47.

(** [Path::join] on Unix: a text from the root replaces the path, and empty
    components and dots vanish, except a dot at the very start. *)
Definition join (p : Path) (s : str) : Path :=
  let parts := split_on is_slash s in
  let normal := List.filter (fun part => negb (bool_decide (part = []) || bool_decide (part = chars "."))) parts in
  if match s with c :: _ => is_slash c | [] => false end then [47] :: normal
  else if bool_decide (p = []) && bool_decide (head parts = Some (chars ".")) then chars "." :: normal
  else p ++ normal.

(** ** Versions: [VersionRange], [Constraint], [parse_version] *)

Inductive Op := OpEq | OpGe | OpLe | OpGt | OpLt.
Abbreviation Version := (Z * Z * Z)%type (only parsing).
Record Constraint := mkConstraint { c_op : Op; c_version : Version }.
Record VersionRange := mkVersionRange { vr_raw : str; vr_constraints : list Constraint }.

Inductive RangeError := EmptyConstraint | InvalidVersion (text : str).

Fixpoint digits10 (acc : Z) (s : str) : option Z :=
  match s with
  | [] => Some acc
  | c :: s => if (48 <=? c) && (c <=? 57) then let acc := 10 * acc + (c - 48) in if acc <? 2 ^ 64 then digits10 acc s else None else None
  end.

(** [parse::<u64>()] *)
Definition parse_u64 (s : str) : option Z :=
  match s with
  | [] => None
  | c :: rest => if c =? 43 then if bool_decide (rest = []) then None else digits10 0 rest else digits10 0 s
  end.

Definition parse_version (text : str) : result Version RangeError :=
  let parts := split_on (fun c => c =? 46) text in
  let next := fun i : nat => parse_u64 (default (chars "0") (parts !! i)) in
  match next 0%nat, next 1%nat, next 2%nat with
  | Some major, Some minor, Some patch => if (3 <? length parts)%nat then Err (InvalidVersion text) else Ok (major, minor, patch)
  | _, _, _ => Err (InvalidVersion text)
  end.

Definition Constraint_parse (part : str) : result Constraint RangeError :=
  let '(op, rest) :=
    match strip_str (chars ">=") part, strip_str (chars "<=") part, strip_str (chars ">") part, strip_str (chars "<") part, strip_str (chars "=") part with
    | Some rest, _, _, _, _ => (OpGe, rest)
    | _, Some rest, _, _, _ => (OpLe, rest)
    | _, _, Some rest, _, _ => (OpGt, rest)
    | _, _, _, Some rest, _ => (OpLt, rest)
    | _, _, _, _, Some rest => (OpEq, rest)
    | _, _, _, _, _ => (OpEq, part)
    end in
  let? version := parse_version (trim rest) in Ok (mkConstraint op version).

Fixpoint parse_constraints (parts : list str) : result (list Constraint) RangeError :=
  match parts with
  | [] => Ok []
  | part :: parts =>
      let part := trim part in
      if bool_decide (part = []) then Err EmptyConstraint
      else let? c := Constraint_parse part in let? cs := parse_constraints parts in Ok (c :: cs)
  end.

Definition VersionRange_parse (raw : str) : result VersionRange RangeError :=
  let? cs := parse_constraints (split_on (fun c => c =? 44) raw) in Ok (mkVersionRange raw cs).

(** Triples compare from the left. *)
Definition version_cmp (a b : Version) : comparison :=
  let '(a1, a2, a3) := a in
  let '(b1, b2, b3) := b in
  match a1 ?= b1, a2 ?= b2 with Eq, Eq => a3 ?= b3 | Eq, c => c | c, _ => c end.

Definition matches (c : Constraint) (version : Version) : bool :=
  match c_op c, version_cmp version (c_version c) with
  | OpEq, Eq | OpGe, (Eq | Gt) | OpLe, (Eq | Lt) | OpGt, Gt | OpLt, Lt => true
  | _, _ => false
  end.

Definition contains (r : VersionRange) (version : Version) : bool := forallb (fun c => matches c version) (vr_constraints r).

(** ** [paco.mod] and [paco.lock] *)

Inductive DependencySource := Tag (key : str) | Branch (key : str) | Rev (key : str) | LocalPath (path : str).

Definition cache_key (source : DependencySource) : option str :=
  match source with Tag key | Branch key | Rev key => Some key | LocalPath _ => None end.

Abbreviation Dependency := (str * DependencySource)%type (only parsing).
Record Manifest := mkManifest { mn_module : str; mn_dependencies : list Dependency; mn_paco : option VersionRange }.
Record LockedPackage := mkLockedPackage { lk_path : str; lk_tag : option str; lk_branch : option str; lk_rev : option str; lk_commit : str }.
Abbreviation Lockfile := (list LockedPackage) (only parsing).

Inductive ManifestError :=
| NotToml | MissingModule | ModuleNotString | DependenciesNotTable | NotASource (path : str) | NoSource (path : str) | ManySources (path : str)
| PacoNotString | BadRange (e : RangeError) | PackageNotArray | EntryNotTable | MissingField (name : str).

Section Toml.
Context {Value : Type} (as_str : Value -> option str) (as_table : Value -> option (list (str * Value))) (as_array : Value -> option (list Value)).
Context (toml : str -> option (list (str * Value))).

Definition get (name : string) (table : list (str * Value)) : option Value :=
  snd <$> List.find (fun e => bool_decide (e.1 = chars name)) table.

Definition parse_dependency_source (path : str) (value : Value) : result DependencySource ManifestError :=
  match as_str value with
  | Some tag => Ok (Tag tag)
  | None =>
      match as_table value with
      | None => Err (NotASource path)
      | Some table =>
          let field := fun name => v ← get name table; as_str v in
          match field "branch"%string, field "rev"%string, field "path"%string with
          | Some value, None, None => Ok (Branch value)
          | None, Some value, None => Ok (Rev value)
          | None, None, Some value => Ok (LocalPath value)
          | None, None, None => Err (NoSource path)
          | _, _, _ => Err (ManySources path)
          end
      end
  end.

Fixpoint parse_dependencies (deps : list (str * Value)) : result (list Dependency) ManifestError :=
  match deps with
  | [] => Ok []
  | (path, value) :: deps => let? source := parse_dependency_source path value in let? rest := parse_dependencies deps in Ok ((path, source) :: rest)
  end.

Definition Manifest_parse (source : str) : result Manifest ManifestError :=
  let? table := ok_or (toml source) NotToml in
  let? module := ok_or (get "module" table) MissingModule in
  let? module := ok_or (as_str module) ModuleNotString in
  let? dependencies :=
    match get "dependencies" table with
    | None => Ok []
    | Some value => let? deps := ok_or (as_table value) DependenciesNotTable in parse_dependencies deps
    end in
  let? paco :=
    match get "paco" table with
    | None => Ok None
    | Some value => let? raw := ok_or (as_str value) PacoNotString in let? range := map_err BadRange (VersionRange_parse raw) in Ok (Some range)
    end in
  Ok (mkManifest module dependencies paco).

Definition parse_package (entry : Value) : result LockedPackage ManifestError :=
  let? entry := ok_or (as_table entry) EntryNotTable in
  let field_opt := fun name => v ← get name entry; as_str v in
  let field := fun name => ok_or (field_opt name) (MissingField (chars name)) in
  let? path := field "path"%string in
  let? commit := field "commit"%string in
  Ok (mkLockedPackage path (field_opt "tag"%string) (field_opt "branch"%string) (field_opt "rev"%string) commit).

Fixpoint parse_packages (entries : list Value) : result Lockfile ManifestError :=
  match entries with
  | [] => Ok []
  | entry :: entries => let? p := parse_package entry in let? ps := parse_packages entries in Ok (p :: ps)
  end.

Definition Lockfile_parse (source : str) : result Lockfile ManifestError :=
  let? table := ok_or (toml source) NotToml in
  match get "package" table with
  | None => Ok []
  | Some value => let? entries := ok_or (as_array value) PackageNotArray in parse_packages entries
  end.
End Toml.

Definition matches_source (p : LockedPackage) (source : DependencySource) : bool :=
  match source with
  | Tag tag => bool_decide (lk_tag p = Some tag)
  | Branch branch => bool_decide (lk_branch p = Some branch)
  | Rev rev => bool_decide (lk_rev p = Some rev)
  | LocalPath _ => false
  end.

Definition find_locked (l : Lockfile) (path : str) : option LockedPackage := List.find (fun p => bool_decide (lk_path p = path)) l.

(** ** Which dependency a path belongs to *)

Definition key_segments (dependency_path : str) : list str :=
  List.filter (fun segment => negb (bool_decide (segment = []))) (split_on (fun c => (c =? 46) || (c =? 47)) dependency_path).

Definition is_prefix (prefix path : list str) : bool := (length prefix <=? length path)%nat && bool_decide (take (length prefix) path = prefix).

(** [Iterator::max_by_key]: the last of the greatest *)
Definition max_by_len (l : list (Dependency * nat)) : option (Dependency * nat) :=
  foldl (fun best x => match best with Some b => if (b.2 <=? x.2)%nat then Some x else Some b | None => Some x end) None l.

Definition prefix_len (path : list str) (d : Dependency) : option (Dependency * nat) :=
  let key := key_segments d.1 in if is_prefix key path then Some (d, length key) else None.

Definition longest_prefix_match (dependencies : list Dependency) (path : list str) : option (Dependency * list str) :=
  '(d, len) ← max_by_len (omap (prefix_len path) dependencies); Some (d, drop len path).

Definition is_used (dependency_path : str) (used_paths : list (list str)) : bool :=
  existsb (is_prefix (key_segments dependency_path)) used_paths.

(** [paco mod tidy], after the files were read: the dependencies that are not
    used, and the paths that are not declared *)
Definition tidy (m : Manifest) (used_paths : list (list str)) : list str * list (list str) :=
  (List.filter (fun path => negb (is_used path used_paths)) (map fst (mn_dependencies m)),
   List.filter (fun path => match longest_prefix_match (mn_dependencies m) path with Some _ => false | None => true end) used_paths).

(** ** The package cache *)

(** [set] of an environment variable that is not empty *)
Definition env_set (env : string -> option str) (name : string) : option Path :=
  value ← env name; if bool_decide (value = []) then None else Some (join [] value).

Definition pkg_cache_root (env : string -> option str) : option Path :=
  match env_set env "PACO_PKG_CACHE" with
  | Some root => Some root
  | None =>
      home ← match env_set env "HOME" with Some home => Some home | None => env_set env "USERPROFILE" end;
      Some (join (join home (chars ".paco")) (chars "pkg"))
  end.

Definition cache_dir_for (root : Path) (dependency_path tag : str) : Path :=
  let segments := split_on is_slash dependency_path in
  join (foldl join root (removelast segments)) (List.last segments [] ++ chars "@" ++ tag).

Definition dependency_url (dependency_path : str) : str := chars "https://" ++ dependency_path.

Inductive RefKind := TagOrBranch | Commit.

(** What the program [git] does: the commit a clone of a repository at a name
    is at ([clone_at_tag], [clone_and_checkout_commit]), and the commit a clone
    is at after an exact commit was fetched and checked out *)
Record Git := mkGit { git_clone : RefKind -> str -> str -> option str; git_checkout : str -> str -> option str }.

(** The directories of the cache; [None] where [git rev-parse HEAD] fails *)
Abbreviation PkgCache := (gmap Path (option str)) (only parsing).

(** What else happens during a fetch: whether directories can be made and
    renamed, and the directory that another [paco get] put there meanwhile *)
Record Events := mkEvents { ev_mkdir : bool; ev_rename : bool; ev_other : option (option str) }.

Definition quiet : Events := mkEvents true true None.

Inductive FetchError := HeadUnknown | CannotCreate | CannotFetch | CannotPin | CannotMove | NoCacheRoot.

(** The commit of a directory that is there already *)
Definition present_commit (head : option str) (locked_commit : option str) : result str FetchError :=
  match locked_commit with Some commit => Ok commit | None => ok_or head HeadUnknown end.

Definition fetch_into_cache (git : Git) (ev : Events) (root : Path) (dependency_path key : str) (kind : RefKind) (url : str)
  (locked_commit : option str) (cache : PkgCache) : PkgCache * result str FetchError :=
  let target := cache_dir_for root dependency_path key in
  match cache !! target with
  | Some head => (cache, present_commit head locked_commit)
  | None =>
      if negb (ev_mkdir ev) then (cache, Err CannotCreate)
      else
        match git_clone git kind url key with
        | None => (cache, Err CannotFetch)
        | Some commit =>
            let pinned :=
              match locked_commit with
              | Some locked => if bool_decide (locked = commit) then Some (commit, commit) else head ← git_checkout git url locked; Some (head, locked)
              | None => Some (commit, commit)
              end in
            match pinned with
            | None => (cache, Err CannotPin)
            | Some (head, commit) =>
                match ev_other ev with
                | Some other => (<[target := other]> cache, present_commit other locked_commit)
                | None => if ev_rename ev then (<[target := Some head]> cache, Ok commit) else (cache, Err CannotMove)
                end
            end
        end
  end.

(** ** [paco get] *)

Definition locked_for (lock : Lockfile) (dependency_path : str) (source : DependencySource) : option LockedPackage :=
  p ← find_locked lock dependency_path; if matches_source p source then Some p else None.

Definition lock_entry (path : str) (source : DependencySource) (commit : str) : LockedPackage :=
  match source with
  | Tag tag => mkLockedPackage path (Some tag) None None commit
  | Branch branch => mkLockedPackage path None (Some branch) None commit
  | Rev rev => mkLockedPackage path None None (Some rev) commit
  | LocalPath _ => mkLockedPackage path None None None commit
  end.

Definition ref_kind (source : DependencySource) : RefKind := match source with Rev _ => Commit | _ => TagOrBranch end.

Fixpoint get_all (git : Git) (events : str -> Events) (root : Path) (lock : Lockfile) (deps : list Dependency) (cache : PkgCache) :
  PkgCache * result Lockfile FetchError :=
  match deps with
  | [] => (cache, Ok [])
  | (path, source) :: deps =>
      match cache_key source with
      | None => get_all git events root lock deps cache
      | Some key =>
          let locked_commit := lk_commit <$> locked_for lock path source in
          let '(cache, fetched) := fetch_into_cache git (events path) root path key (ref_kind source) (dependency_url path) locked_commit cache in
          match fetched with
          | Err e => (cache, Err e)
          | Ok commit =>
              let '(cache, rest) := get_all git events root lock deps cache in
              (cache, let? rest := rest in Ok (lock_entry path source commit :: rest))
          end
      end
  end.

(** [run_get] on a manifest and a lock file that were read: the cache and the
    lock file that is written, or why it failed.  What it prints is left out. *)
Definition run_get (git : Git) (events : str -> Events) (env : string -> option str) (m : Manifest) (lock : Lockfile) (cache : PkgCache) :
  PkgCache * result Lockfile FetchError :=
  if existsb (fun d : Dependency => match cache_key d.2 with Some _ => true | None => false end) (mn_dependencies m) then
    match pkg_cache_root env with
    | None => (cache, Err NoCacheRoot)
    | Some root => get_all git events root lock (mn_dependencies m) cache
    end
  else (cache, Ok []).

(** ** Resolving *)

Record Project := mkProject { pj_manifest : Manifest; pj_lock : Lockfile; pj_cache_root : Path; pj_dir : Path }.

(** [use_path_to_file]; [None] where it panics: a path that is only [stdlib]
    (or empty) has no last segment. *)
Definition use_path_to_file (stdlib_root : Path) (path : list str) (base_dir : Path) : option Path :=
  let is_std := bool_decide (head path = Some (chars "stdlib")) in
  let base := if is_std then stdlib_root else base_dir in
  let segments := if is_std then tail path else path in
  file ← last segments; Some (join (foldl join base (removelast segments)) (file ++ chars ".paco")).

Inductive DomainError := NotFetched | BrokenProject | NoHead | WrongCommit (dependency actual expected : str) | DomainPanic.

(** [use_path_to_file], a panic being the end of it *)
Definition file_or_panic (file : option Path) : result Path DomainError := ok_or file DomainPanic.

Definition effective_path (dependency_path : str) (remainder : list str) : option (list str) :=
  if bool_decide (remainder = []) then s ← last (key_segments dependency_path); Some [s] else Some remainder.

Definition resolve_domain_use_path (stdlib_root : Path) (project : option (result Project unit)) (cache : PkgCache) (path : list str) :
  result Path DomainError :=
  match project with
  | None => Err NotFetched
  | Some (Err _) => Err BrokenProject
  | Some (Ok project) =>
      match longest_prefix_match (mn_dependencies (pj_manifest project)) path with
      | None => Err NotFetched
      | Some ((dependency_path, source), remainder) =>
          let in_src := fun dir => file_or_panic (p ← effective_path dependency_path remainder; use_path_to_file stdlib_root p (join dir (chars "src"))) in
          match source, cache_key source with
          | LocalPath local, _ => in_src (join (pj_dir project) local)
          | _, None => Err DomainPanic
          | _, Some key =>
              match locked_for (pj_lock project) dependency_path source with
              | None => Err NotFetched
              | Some locked =>
                  let dir := cache_dir_for (pj_cache_root project) dependency_path key in
                  match cache !! dir with
                  | None => Err NotFetched
                  | Some None => Err NoHead
                  | Some (Some actual) =>
                      if bool_decide (actual = lk_commit locked) then in_src dir
                      else Err (WrongCommit dependency_path actual (lk_commit locked))
                  end
              end
          end
      end
  end.

(** ** The longest prefix *)

Lemma is_prefix_spec prefix path : is_prefix prefix path = true <-> prefix `prefix_of` path.
Proof.
  unfold is_prefix. rewrite andb_true_iff, bool_decide_eq_true, Nat.leb_le. split.
  - intros [_ H]. exists (drop (length prefix) path). rewrite <- H at 1. by rewrite take_drop.
  - intros [k ->]. rewrite length_app, take_app_length. split; [lia|done].
Qed.

Lemma max_by_len_spec l :
  match max_by_len l with
  | Some x => x ∈ l /\ Forall (fun y => y.2 <= x.2)%nat l
  | None => l = []
  end.
Proof.
  unfold max_by_len. induction l as [|y l IH] using rev_ind; [done|]. rewrite foldl_app. cbn.
  destruct (foldl _ None l) as [b|].
  - destruct IH as [Hin Hall]. destruct (Nat.leb_spec b.2 y.2) as [H|H].
    + split; [set_solver|]. apply Forall_app. split; [|by repeat constructor]. eapply Forall_impl; [exact Hall|]. intros z Hz. cbn in Hz. lia.
    + split; [set_solver|]. apply Forall_app. split; [done|]. constructor; [lia|done].
  - subst l. split; [set_solver|]. by repeat constructor.
Qed.

Lemma longest_prefix_spec deps path :
  match longest_prefix_match deps path with
  | Some (d, rest) =>
      d ∈ deps /\ path = key_segments d.1 ++ rest /\
      forall d', d' ∈ deps -> key_segments d'.1 `prefix_of` path -> (length (key_segments d'.1) <= length (key_segments d.1))%nat
  | None => forall d, d ∈ deps -> ~ key_segments d.1 `prefix_of` path
  end.
Proof.
  unfold longest_prefix_match. pose proof (max_by_len_spec (omap (prefix_len path) deps)) as H.
  destruct (max_by_len _) as [[d n]|]; cbn [mbind option_bind].
  - destruct H as [Hin Hall]. apply list_elem_of_omap in Hin as (d0 & Hd & Hp). unfold prefix_len in Hp.
    destruct (is_prefix _ path) eqn:E; [|done]. injection Hp as -> <-. apply is_prefix_spec in E as [k Ek].
    split; [done|]. rewrite Ek at 2. rewrite drop_app_length. split; [done|]. intros d' Hd' Hp%is_prefix_spec.
    rewrite Forall_forall in Hall. apply (Hall (d', length (key_segments d'.1))). apply list_elem_of_omap. exists d'. split; [done|].
    unfold prefix_len. by rewrite Hp.
  - intros d Hd Hp%is_prefix_spec. apply (not_elem_of_nil (d, length (key_segments d.1))). rewrite <- H. apply list_elem_of_omap.
    exists d. split; [done|]. unfold prefix_len. by rewrite Hp.
Qed.

(** C39: a [use] path belongs to the declared dependency with the longest key
    that is a prefix of it, segment by segment, and the rest of the path is
    what is looked up in it; a path no key is a prefix of belongs to none. *)
Theorem longest_prefix_correct deps path :
  match longest_prefix_match deps path with
  | Some (d, rest) =>
      d ∈ deps /\ path = key_segments d.1 ++ rest /\
      forall d', d' ∈ deps -> key_segments d'.1 `prefix_of` path -> (length (key_segments d'.1) <= length (key_segments d.1))%nat
  | None => forall d, d ∈ deps -> ~ key_segments d.1 `prefix_of` path
  end.
Proof. apply longest_prefix_spec. Qed.

(** ** Fetching *)

Section Get.
Context (git : Git) (events : str -> Events) (root : Path) (lock : Lockfile).

Definition dir_of (d : Dependency) : option Path := key ← cache_key d.2; Some (cache_dir_for root d.1 key).

(** The fetch of one dependency *)
Definition fetch (d : Dependency) (key : str) : PkgCache -> PkgCache * result str FetchError :=
  fetch_into_cache git (events d.1) root d.1 key (ref_kind d.2) (dependency_url d.1) (lk_commit <$> locked_for lock d.1 d.2).

Lemma fetch_frame d key cache t : t <> cache_dir_for root d.1 key -> (fetch d key cache).1 !! t = cache !! t.
Proof.
  intros Hne. unfold fetch, fetch_into_cache. destruct (cache !! cache_dir_for root d.1 key); [done|]. destruct (negb _); [done|].
  destruct (git_clone _ _ _ _); [|done]. destruct (match _ <$> _ with Some _ => _ | None => _ end) as [[h c]|]; [|done].
  destruct (ev_other _); [by apply lookup_insert_ne|]. destruct (ev_rename _); [by apply lookup_insert_ne|done].
Qed.

Lemma fetch_extends d key cache t h : cache !! t = Some h -> (fetch d key cache).1 !! t = Some h.
Proof.
  intros Ht. destruct (decide (t = cache_dir_for root d.1 key)) as [->|Hne]; [|by rewrite fetch_frame].
  unfold fetch, fetch_into_cache. by rewrite Ht.
Qed.

Lemma get_all_cons d deps cache : get_all git events root lock (d :: deps) cache =
  match cache_key d.2 with
  | None => get_all git events root lock deps cache
  | Some key =>
      match (fetch d key cache).2 with
      | Err e => ((fetch d key cache).1, Err e)
      | Ok commit =>
          ((get_all git events root lock deps (fetch d key cache).1).1,
           let? rest := (get_all git events root lock deps (fetch d key cache).1).2 in Ok (lock_entry d.1 d.2 commit :: rest))
      end
  end.
Proof.
  destruct d as [path source]. cbn. destruct (cache_key source) as [key|]; [|done]. unfold fetch. cbn.
  destruct (fetch_into_cache _ _ _ _ _ _ _ _) as [c [commit|e]]; [|done]. cbn. by destruct (get_all _ _ _ _ _ _).
Qed.

Lemma get_all_extends deps cache t h : cache !! t = Some h -> (get_all git events root lock deps cache).1 !! t = Some h.
Proof.
  revert cache. induction deps as [|d deps IH]; intros cache Ht; [done|]. rewrite get_all_cons. destruct (cache_key d.2) as [key|]; [|by apply IH].
  destruct (fetch d key cache).2; cbn; [apply IH|]; by apply fetch_extends.
Qed.

Lemma lock_entry_path path source commit : lk_path (lock_entry path source commit) = path.
Proof. by destruct source. Qed.

Lemma lock_entry_matches path source commit : is_Some (cache_key source) -> matches_source (lock_entry path source commit) source = true.
Proof. destruct source; cbn; intros H; [by rewrite bool_decide_true..|by destruct H]. Qed.

(** The entry that is written for a dependency comes from a fetch in between. *)
Lemma get_all_entry deps cache lock' d key :
  (get_all git events root lock deps cache).2 = Ok lock' -> NoDup (map fst deps) -> d ∈ deps -> cache_key d.2 = Some key ->
  exists cache0 commit,
    (fetch d key cache0).2 = Ok commit /\ find_locked lock' d.1 = Some (lock_entry d.1 d.2 commit) /\
    (forall t h, cache !! t = Some h -> cache0 !! t = Some h) /\
    (forall t h, (fetch d key cache0).1 !! t = Some h -> (get_all git events root lock deps cache).1 !! t = Some h) /\
    (NoDup (omap dir_of deps) -> cache0 !! cache_dir_for root d.1 key = cache !! cache_dir_for root d.1 key).
Proof.
  revert cache lock'. induction deps as [|b deps IH]; intros cache lock' Hget Hnd Hin Hkey; [by apply not_elem_of_nil in Hin|].
  cbn [map] in Hnd. apply NoDup_cons in Hnd as [Hb Hnd]. rewrite get_all_cons in Hget |- *. apply elem_of_cons in Hin as [->|Hin].
  - rewrite Hkey in *. destruct (fetch b key cache).2 as [commit|e] eqn:Ef; [|done]. cbn in Hget.
    destruct (get_all _ _ _ _ _ _).2 as [rest|]; [|done]. injection Hget as <-. exists cache, commit. split; [done|]. split.
    { unfold find_locked. cbn. by rewrite lock_entry_path, bool_decide_true. }
    split; [done|]. split; [|done]. cbn. apply get_all_extends.
  - assert (d.1 <> b.1) as Hne. { intros E. apply Hb. rewrite <- E. by apply list_elem_of_fmap_2. }
    destruct (cache_key b.2) as [kb|] eqn:Ekb.
    + destruct (fetch b kb cache).2 as [commit|e] eqn:Ef; [|done]. cbn in Hget.
      destruct (get_all _ _ _ _ _ _).2 as [rest|] eqn:Er; [|done]. injection Hget as <-.
      destruct (IH _ _ Er Hnd Hin Hkey) as (c0 & cm & H1 & H2 & H3 & H4 & H5). exists c0, cm. split; [done|]. split; [|split; [|split]].
      * unfold find_locked. cbn. rewrite lock_entry_path, bool_decide_false by congruence. exact H2.
      * intros t h Ht. apply H3. by apply fetch_extends.
      * exact H4.
      * cbn [omap list_omap]. unfold dir_of at 1. rewrite Ekb. cbn. intros [Hd Hnd']%NoDup_cons. rewrite H5 by done.
        apply fetch_frame. intros E. apply Hd. apply list_elem_of_omap. exists d. split; [done|]. unfold dir_of. rewrite Hkey. cbn. by rewrite E.
    + destruct (IH _ _ Hget Hnd Hin Hkey) as (c0 & cm & H1 & H2 & H3 & H4 & H5). exists c0, cm. do 4 (split; [done|]).
      cbn [omap list_omap]. unfold dir_of at 1. by rewrite Ekb.
Qed.
End Get.

(** ** What was fetched resolves *)

Lemma join_inside p s : p <> [] -> head s <> Some 47 -> exists r, join p s = p ++ r.
Proof.
  intros Hp Hs. unfold join, is_slash. destruct s as [|c s].
  - rewrite (bool_decide_false (p = [])) by done. by eexists.
  - rewrite (proj2 (Z.eqb_neq c 47)) by (cbn in Hs; congruence). rewrite (bool_decide_false (p = [])) by done. by eexists.
Qed.

Lemma joins_inside segments p :
  p <> [] -> Forall (fun s => head s <> Some 47) segments -> exists r, foldl join p segments = p ++ r.
Proof.
  intros Hp H. revert p Hp. induction H as [|s segments Hs H IH]; intros p Hp; [exists []; by rewrite app_nil_r|].
  cbn. destruct (join_inside p s Hp Hs) as [r ->]. destruct (IH (p ++ r)) as [r' ->]; [by destruct p|]. exists (r ++ r'). by rewrite app_assoc.
Qed.

(** A path of plain segments is looked up below the directory it is given. *)
Lemma use_path_inside std path base :
  path <> [] -> head path <> Some (chars "stdlib") -> Forall (fun s => head s <> Some 47) path -> base <> [] ->
  exists r, use_path_to_file std path base = Some (base ++ r).
Proof.
  intros Hne Hstd Hs Hb. unfold use_path_to_file. rewrite bool_decide_false by done.
  destruct path as [|file init _] using rev_ind; [done|]. rewrite last_snoc. cbn [mbind option_bind]. rewrite removelast_last.
  apply Forall_app in Hs as [Hi Hf]. inversion Hf as [|? ? Hf' _]; subst.
  destruct (joins_inside init base Hb Hi) as [r ->]. destruct (join_inside (base ++ r) (file ++ chars ".paco")) as [r' ->].
  - by destruct base.
  - by destruct file.
  - exists (r ++ r'). by rewrite app_assoc.
Qed.

Lemma locked_for_entry lock path source commit :
  find_locked lock path = Some (lock_entry path source commit) -> is_Some (cache_key source) ->
  locked_for lock path source = Some (lock_entry path source commit).
Proof. intros H Hk. unfold locked_for. rewrite H. cbn [mbind option_bind]. by rewrite lock_entry_matches. Qed.

Lemma lock_entry_commit path source commit : lk_commit (lock_entry path source commit) = commit.
Proof. by destruct source. Qed.

(** After a fetch the directory is at the commit that is recorded. *)
Lemma fetch_commit git events root lock d key cache commit :
  (forall url c h, git_checkout git url c = Some h -> h = c) ->
  (forall p head, locked_for lock d.1 d.2 = Some p ->
     cache !! cache_dir_for root d.1 key = Some head \/ ev_other (events d.1) = Some head -> head = Some (lk_commit p)) ->
  (fetch git events root lock d key cache).2 = Ok commit ->
  (fetch git events root lock d key cache).1 !! cache_dir_for root d.1 key = Some (Some commit).
Proof.
  intros Hgit Hold. unfold fetch, fetch_into_cache.
  destruct (locked_for lock d.1 d.2) as [p|]; destruct (cache !! _) as [head|] eqn:Ec; cbn.
  - intros [= <-]. rewrite Ec. f_equal. apply (Hold p); auto.
  - destruct (negb _); [done|]. destruct (git_clone _ _ _ _) as [c|]; [|done]. case_bool_decide as Hc.
    + destruct (ev_other (events d.1)) as [o|] eqn:Eo; cbn; rewrite ?lookup_insert_eq.
      * intros [= <-]. f_equal. apply (Hold p); auto.
      * destruct (ev_rename _); cbn; rewrite ?lookup_insert_eq; congruence.
    + destruct (git_checkout _ _ _) as [h|] eqn:Eh; [|done]. cbn. apply Hgit in Eh as ->.
      destruct (ev_other (events d.1)) as [o|] eqn:Eo; cbn; rewrite ?lookup_insert_eq.
      * intros [= <-]. f_equal. apply (Hold p); auto.
      * destruct (ev_rename _); cbn; rewrite ?lookup_insert_eq; congruence.
  - destruct head; cbn; [|done]. intros [= <-]. done.
  - destruct (negb _); [done|]. destruct (git_clone _ _ _ _) as [c|]; [|done].
    destruct (ev_other (events d.1)) as [[o|]|]; cbn; rewrite ?lookup_insert_eq; [congruence|done|].
    destruct (ev_rename _); cbn; rewrite ?lookup_insert_eq; congruence.
Qed.

(** The directories that are there, or that another process puts there, are at
    the commits of the lock file. *)
Definition agrees (events : str -> Events) (root : Path) (lock : Lockfile) (deps : list Dependency) (cache : PkgCache) : Prop :=
  forall d key p head, d ∈ deps -> cache_key d.2 = Some key -> locked_for lock d.1 d.2 = Some p ->
    cache !! cache_dir_for root d.1 key = Some head \/ ev_other (events d.1) = Some head -> head = Some (lk_commit p).

Lemma run_get_all git events env root m lock cache d :
  pkg_cache_root env = Some root -> d ∈ mn_dependencies m -> is_Some (cache_key d.2) ->
  run_get git events env m lock cache = get_all git events root lock (mn_dependencies m) cache.
Proof.
  intros Hroot Hd [key Hk]. unfold run_get. rewrite (proj2 (existsb_exists _ _)); [by rewrite Hroot|].
  exists d. rewrite Hk. split; [by apply list_elem_of_In|done].
Qed.

Lemma effective_path_inside dep rest path :
  path = key_segments dep ++ rest -> path <> [] -> exists p, effective_path dep rest = Some p /\ p <> [] /\ (forall s, s ∈ p -> s ∈ path).
Proof.
  intros -> Hne. unfold effective_path. case_bool_decide as Hr.
  - subst rest. rewrite app_nil_r in *. destruct (last (key_segments dep)) as [s|] eqn:E; [|by apply last_None in E].
    exists [s]. split; [done|]. split; [done|]. intros x Hx%list_elem_of_singleton. subst x. by apply last_Some_elem_of.
  - exists rest. split; [done|]. split; [done|]. set_solver.
Qed.

Lemma resolve_cached std m lock root dir cache path dep source rest key :
  longest_prefix_match (mn_dependencies m) path = Some ((dep, source), rest) -> cache_key source = Some key ->
  resolve_domain_use_path std (Some (Ok (mkProject m lock root dir))) cache path =
    match locked_for lock dep source with
    | None => Err NotFetched
    | Some locked =>
        match cache !! cache_dir_for root dep key with
        | None => Err NotFetched
        | Some None => Err NoHead
        | Some (Some actual) =>
            if bool_decide (actual = lk_commit locked)
            then file_or_panic (p ← effective_path dep rest; use_path_to_file std p (join (cache_dir_for root dep key) (chars "src")))
            else Err (WrongCommit dep actual (lk_commit locked))
        end
    end.
Proof. intros Hp Hk. unfold resolve_domain_use_path. cbn [pj_manifest pj_lock pj_cache_root]. rewrite Hp. destruct source; cbn in Hk; by simplify_eq. Qed.

(** C19: what [paco get] fetched resolves.  After a run of [paco get] that
    succeeds, every [use] path of a declared tag, branch or rev dependency is
    resolved to a file in the directory of that dependency, at the commit that
    was recorded for it: provided that [git] checks out the commit it is asked
    for, that no two dependencies share a directory, that the directories that
    were there, or that a concurrent run puts there, are at the commits of the
    lock file, that no segment of the path begins with [/] (the segments are
    identifiers), and that none of them is
    [stdlib]: behind such a segment the path leaves the dependency or panics
    ([stdlib_remainder_escapes], [stdlib_remainder_panics]). *)
Theorem get_then_resolves git events env root m lock cache cache' lock' std dir path dep source rest key :
  (forall url c h, git_checkout git url c = Some h -> h = c) ->
  pkg_cache_root env = Some root ->
  NoDup (map fst (mn_dependencies m)) -> NoDup (omap (dir_of root) (mn_dependencies m)) ->
  agrees events root lock (mn_dependencies m) cache ->
  run_get git events env m lock cache = (cache', Ok lock') ->
  longest_prefix_match (mn_dependencies m) path = Some ((dep, source), rest) -> cache_key source = Some key ->
  path <> [] -> Forall (fun s => head s <> Some 47) path -> chars "stdlib" ∉ path ->
  exists r, resolve_domain_use_path std (Some (Ok (mkProject m lock' root dir))) cache' path = Ok (cache_dir_for root dep key ++ r).
Proof.
  intros Hgit Hroot Hnd Hdirs Hold Hrun Hpath Hkey Hne Hslash Hstd.
  pose proof (longest_prefix_spec (mn_dependencies m) path) as Hl. rewrite Hpath in Hl. destruct Hl as (Hin & Epath & _).
  rewrite (run_get_all _ _ _ root _ _ _ (dep, source)) in Hrun by done.
  destruct (get_all_entry git events root lock (mn_dependencies m) cache lock' (dep, source) key) as (c0 & commit & Hf & Hlock & _ & Hlater & Hdir);
    [by rewrite Hrun|done..|]. rewrite Hrun in Hlater. cbn [fst snd] in Hf, Hlock, Hlater, Hdir.
  assert (cache' !! cache_dir_for root dep key = Some (Some commit)) as Hc.
  { apply Hlater. apply (fetch_commit git events root lock (dep, source) key); [done| |done].
    intros p head Hp Hh. apply (Hold (dep, source) key p head); [done..|]. cbn. by rewrite <- Hdir. }
  destruct (effective_path_inside dep rest path Epath Hne) as (p & Ep & Hpne & Hsub).
  destruct (use_path_inside std p (join (cache_dir_for root dep key) (chars "src"))) as [r Hr].
  { done. }
  { intros Hh. apply Hstd, Hsub. destruct p as [|x p]; [done|]. injection Hh as ->. apply elem_of_cons. by left. }
  { rewrite Forall_forall in Hslash |- *. intros s Hs. by apply Hslash, Hsub. }
  { unfold join. cbn. rewrite andb_false_r. by destruct (cache_dir_for _ _ _). }
  rewrite (resolve_cached _ _ _ _ _ _ _ _ _ _ _ Hpath Hkey), (locked_for_entry _ _ _ commit), Hc, lock_entry_commit, bool_decide_true, Ep by done.
  exists (chars "src" :: r).
  assert (join (cache_dir_for root dep key) (chars "src") = cache_dir_for root dep key ++ [chars "src"]) as Ej.
  { unfold join. cbn. by rewrite andb_false_r. }
  cbn [mbind option_bind]. by rewrite Hr, Ej, <- app_assoc.
Qed.

(** [paco get] does not repair what resolving asks it to repair.  When the
    cached copy of a dependency is at another commit than the lock file says,
    resolving fails and names [paco get] as the fix; whenever [paco get] then
    succeeds, resolving fails as before. *)
Theorem get_cannot_repair git events env root m lock cache cache' lock' std dir path dep actual expected :
  pkg_cache_root env = Some root -> NoDup (map fst (mn_dependencies m)) ->
  resolve_domain_use_path std (Some (Ok (mkProject m lock root dir))) cache path = Err (WrongCommit dep actual expected) ->
  run_get git events env m lock cache = (cache', Ok lock') ->
  resolve_domain_use_path std (Some (Ok (mkProject m lock' root dir))) cache' path = Err (WrongCommit dep actual expected).
Proof.
  intros Hroot Hnd Hres Hrun. pose proof (longest_prefix_spec (mn_dependencies m) path) as Hl.
  destruct (longest_prefix_match (mn_dependencies m) path) as [[[d source] rest]|] eqn:Hpath.
  2: { unfold resolve_domain_use_path in Hres. cbn [pj_manifest] in Hres. by rewrite Hpath in Hres. }
  destruct Hl as [Hin _]. destruct (cache_key source) as [key|] eqn:Hkey.
  2: { unfold resolve_domain_use_path in *. cbn [pj_manifest pj_dir] in *. rewrite Hpath in *. by destruct source. }
  rewrite (resolve_cached _ _ _ _ _ _ _ _ _ _ _ Hpath Hkey) in Hres. rewrite (resolve_cached _ _ _ _ _ _ _ _ _ _ _ Hpath Hkey).
  rewrite (run_get_all _ _ _ root _ _ _ (d, source)) in Hrun by done.
  destruct (get_all_entry git events root lock (mn_dependencies m) cache lock' (d, source) key) as (c0 & commit & Hf & Hlock & Hearlier & Hlater & _);
    [by rewrite Hrun|done..|]. rewrite Hrun in Hlater. cbn [fst snd] in *.
  rewrite (locked_for_entry _ _ _ commit) by done. destruct (locked_for lock d source) as [p|] eqn:Hp; [|done].
  destruct (cache !! cache_dir_for root d key) as [[h|]|] eqn:Hc; [|done..].
  assert (fetch git events root lock (d, source) key c0 = (c0, Ok (lk_commit p))) as Ef.
  { unfold fetch, fetch_into_cache. cbn. by rewrite (Hearlier _ _ Hc), Hp. }
  rewrite Ef in Hf, Hlater. cbn in Hf. injection Hf as <-. by rewrite lock_entry_commit, (Hlater _ _ (Hearlier _ _ Hc)).
Qed.

(** ** Examples *)

Definition json_dep : Dependency := (chars "example.com/team/json", Branch (chars "main")).
Definition team_dep : Dependency := (chars "example.com/team", Tag (chars "v1")).
Definition app : Manifest := mkManifest (chars "app") [team_dep; json_dep] None.
Definition home (name : string) : option str := if bool_decide (name = "HOME"%string) then Some (chars "/h") else None.
Definition home_root : Path := [chars "/"; chars "h"; chars ".paco"; chars "pkg"].
Definition json_dir : Path := cache_dir_for home_root (chars "example.com/team/json") (chars "main").
Definition demo_git : Git := mkGit (fun _ _ key => Some (chars "tip of " ++ key)) (fun _ c => Some c).
Definition std_root : Path := [chars "/"; chars "std"].
Definition use_path (s : string) : list str := key_segments (chars s).

Example home_root_ok : pkg_cache_root home = Some home_root.
Proof. by vm_compute. Qed.

Lemma app_nodup : NoDup (map fst (mn_dependencies app)).
Proof. apply (bool_decide_unpack _). by vm_compute. Qed.

(** The lock file that [paco get] writes *)
Definition written (r : result Lockfile FetchError) : Lockfile := match r with Ok lock => lock | Err _ => [] end.

Lemma written_ok (x : PkgCache * result Lockfile FetchError) : is_ok x.2 = true -> x = (x.1, Ok (written x.2)).
Proof. by destruct x as [cache [lock|e]]. Qed.

Definition first_get : PkgCache * result Lockfile FetchError := run_get demo_git (fun _ => quiet) home app [] ∅.

Lemma get_then_resolves_witness :
  exists r, resolve_domain_use_path std_root (Some (Ok (mkProject app (written first_get.2) home_root []))) first_get.1
    (use_path "example.com/team/json/parse") = Ok (json_dir ++ r).
Proof.
  apply (get_then_resolves demo_git (fun _ => quiet) home home_root app [] ∅ first_get.1 (written first_get.2) std_root [] _ (chars "example.com/team/json")
    (Branch (chars "main")) [chars "parse"] (chars "main")).
  - by intros url c h [= ->].
  - by vm_compute.
  - apply app_nodup.
  - apply (bool_decide_unpack _). by vm_compute.
  - intros d key p head Hd Hk Hp. done.
  - apply written_ok. by vm_compute.
  - by vm_compute.
  - done.
  - by vm_compute.
  - apply (bool_decide_unpack _). by vm_compute.
  - apply (bool_decide_unpack _). by vm_compute.
Defined.

(** The branch was fetched by another project before it moved; this project's
    lock file has the later commit. *)
Definition newer_lock : Lockfile := [lock_entry (chars "example.com/team/json") (Branch (chars "main")) (chars "new")].
Definition older_cache : PkgCache := <[json_dir := Some (chars "old")]> ∅.
Definition next_get : PkgCache * result Lockfile FetchError := run_get demo_git (fun _ => quiet) home app newer_lock older_cache.

Lemma get_cannot_repair_witness :
  resolve_domain_use_path std_root (Some (Ok (mkProject app (written next_get.2) home_root []))) next_get.1
    (use_path "example.com/team/json") = Err (WrongCommit (chars "example.com/team/json") (chars "old") (chars "new")).
Proof.
  apply (get_cannot_repair demo_git (fun _ => quiet) home home_root app newer_lock older_cache next_get.1 (written next_get.2) std_root []).
  - by vm_compute.
  - apply app_nodup.
  - by vm_compute.
  - apply written_ok. by vm_compute.
Defined.

(** [use example.com/team/stdlib/io] names a module of the dependency, and is
    resolved to the compiler's own library; [use example.com/team/stdlib], and
    [use stdlib], end in a panic. *)
Definition fetched_app : option (result Project unit) :=
  Some (Ok (mkProject app [lock_entry (chars "example.com/team") (Tag (chars "v1")) (chars "c")] home_root [])).
Definition fetched_cache : PkgCache := <[cache_dir_for home_root (chars "example.com/team") (chars "v1") := Some (chars "c")]> ∅.

Example stdlib_remainder_escapes :
  resolve_domain_use_path std_root fetched_app fetched_cache (use_path "example.com/team/stdlib/io") = Ok [chars "/"; chars "std"; chars "io.paco"].
Proof. by vm_compute. Qed.

Lemma stdlib_segment_panics std base : use_path_to_file std [chars "stdlib"] base = None.
Proof. done. Qed.

Example stdlib_remainder_panics :
  resolve_domain_use_path std_root fetched_app fetched_cache (use_path "example.com/team/stdlib") = Err DomainPanic.
Proof. by vm_compute. Qed.

(** A second source of the wrong type is not noticed. *)
Inductive toml_value := TString (s : str) | TInteger (n : Z) | TTable (t : list (str * toml_value)).
Definition toml_str (v : toml_value) : option str := match v with TString s => Some s | _ => None end.
Definition toml_table (v : toml_value) : option (list (str * toml_value)) := match v with TTable t => Some t | _ => None end.

Example mistyped_source_ignored path :
  parse_dependency_source toml_str toml_table path (TTable [(chars "branch", TString (chars "main")); (chars "rev", TInteger 5)]) = Ok (Branch (chars "main")).
Proof. done. Qed.

Example version_range_example :
  match VersionRange_parse (chars ">=0.3, <0.5") with
  | Ok r => (contains r (0, 4, 0), contains r (0, 5, 0), contains r (0, 2, 9))
  | Err _ => (false, false, false)
  end = (true, false, false).
Proof. by vm_compute. Qed.
